(* ===== verification/_CoqProject ===== *)
-Q . S2P
Prelude.v
CoreTypes.v
Grants.v
Wrap.v
BlockName.v
WrapGlob.v
Registration.v
GrantFacts.v
WrapPolicy.v
RegistrationFacts.v
WrapProps.v
RegistryProps.v
Capabilities.v
Slot.v
InitWaits.v
Dispatch.v
Text.v
Expr.v
ExprFacts.v
ExprProps.v
FlowTypes.v
Accumulator.v
FlowValidate.v
FlowPlan.v
RestrictiveHeaders.v
RestrictiveFacts.v
HttpMeta.v
ResponseMeta.v
ResponseMetaFacts.v
ResponseMetaProps.v
Streams.v
Executor.v
ExecutorSteps.v
ExecutorProps.v
HttpResponse.v
HttpResponseProps.v
StreamChannel.v
NetSecurity.v
Lifecycle.v
Requests.v
Routing.v
RoutingProps.v
Cors.v
RateLimit.v
ConfigExpand.v
Seal.v
SealProps.v
Csp.v
CspProps.v
Handlers.v
StorageHandler.v
StorageHandlerProps.v
FileSystem.v
LocalStorage.v
StorageSteps.v
LocalStorageProps.v
StorageStack.v
InitAttempts.v
DatabaseTypes.v
SqlQuery.v
DatabaseConvert.v
DatabaseHandler.v
DatabaseFacts.v
DatabaseProps.v
DatabaseErrors.v
ServiceClients.v
DatabaseClient.v
DatabaseClientProps.v
SchemaCache.v
SqlStatements.v
SqlText.v
SqlTextProps.v
SqlMeaning.v
DbExec.v
DbExecLogic.v
DbExecProps.v
SchemaRefs.v
SchemaRefsProps.v
WebMcp.v
WebMcpProps.v
