(* ===== verification/Prelude.v ===== *)
(** * Verification of the WAFER runtime

    WAFER runs applications made of blocks. A registry holds the blocks under
    [org/block] names; every block call is admitted through gates, initializes
    its callee lazily, and the callee asks the runtime to authorize each
    resource it touches against declared grants (WRAP) and capabilities. Flows
    chain block calls under conditions written in a small expression language
    and combine the response metadata their blocks produce.
    This development models the decision-making core of that runtime: who may
    touch what, that initialization is safe under concurrency, how calls are
    dispatched, how a runtime is sealed, how flow documents are read, checked,
    compiled and executed, how response metadata combines, and the blocks that
    stand in front of an application (routing, CORS, rate limits, outbound
    address checks). Strings are byte strings (UTF-8), maps are [gmap], machine
    integers are [N] with their wrap-around where it can occur, fallible code
    returns [result], and shared mutable state is passed explicitly or lives
    in a step relation.

    ** Files and the code they model (paths under [src/crates])

    - [Prelude]: results with [let?], byte-string functions ([str::find],
      [split], [strip_prefix], ...) and their lemmas, tactics and hints.
    - [CoreTypes]: messages, metadata, error codes and errors
      ([wafer-block/src/core_types.rs], [types/message_ext.rs]).
    - [Grants], [Wrap]: resource grants and the access decision
      ([wafer-block/src/types/grants.rs], [wrap.rs]). Unicode lower-casing and
      the [url] crate are the classes [UnicodeLower] and [UrlCrate], with the
      documented laws the proofs use. [WrapGlob] gives patterns their meaning,
      [WrapPolicy] states the access policy declaratively and proves
      [check_access] equal to it, [WrapProps] holds the properties.
    - [BlockName]: the naming rule of blocks ([wafer-run/src/runtime.rs]) and
      why distinct names own disjoint namespaces.
    - [Registration], [GrantFacts], [RegistrationFacts], [RegistryProps]: block
      declarations, the registry and the collection of grants
      ([wafer-block/src/types/block_info.rs], [wafer-run/src/runtime/registration.rs],
      [lifecycle.rs], the aliases of [registry.rs]'s [load_blocks_json], the
      ends of [seal.rs]) as a state machine [reg_step], with what holds of every
      registry it reaches ([any_reachable], [base_inv]) and, when files load
      only aliases that [add_alias] takes ([reachable]), of its names and
      aliases besides ([well_aliased], [reg_inv]).
    - [Capabilities]: allowlists, overrides and bounds
      ([wafer-block/src/capabilities.rs]), the effective set computed at seal
      and [RuntimeContext::authorize_resource] ([wafer-run/src/context.rs]).
    - [Slot]: the init slot ([wafer-run/src/runtime/slot.rs]).
      [get_or_init] is cut at its critical sections; [slot_step] interleaves
      any number of callers, cancellations and the clock, keeping a trace.
    - [InitWaits]: the wait-for graph of running inits
      ([runtime/init_waits.rs]) and the protocol of [run_init_pipeline] around
      it ([istep]).
    - [Dispatch]: the admission gates over the interface
      [CallFrame] ([runtime/call_gates.rs], [validation.rs]), the runtime's
      frame as its instance and the contexts of callees ([context.rs]), the
      init gate ([runtime/runner.rs]) and the sanitized errors ([runtime.rs]).
    - [Text], [Expr], [ExprFacts], [ExprProps]: trimming,
      JSON values with [f64] in [SpecFloat], and the condition language
      ([wafer-flow/src/expr.rs]): scanner, parser, evaluator, and a printer
      used only to state the round trip.
    - [FlowTypes]: flow documents and their timeouts
      ([wafer-flow/src/types.rs]).
    - [Accumulator]: the layered accumulator and the
      compiled paths, conditions and templates ([accumulator.rs], [compiled.rs]).
    - [FlowValidate]: validation ([validate.rs]) against a
      declarative well-formedness.
    - [FlowPlan]: compilation of flows against the registry
      ([wafer-run/src/waferflow/plan.rs]).
    - [RestrictiveHeaders], [RestrictiveFacts]: the merge of
      security headers ([waferflow/restrictive_headers.rs]).
    - [HttpMeta]: what a metadata entry is to a transport, and cookie
      identities ([wafer-block/src/http_codec.rs]).
    - [ResponseMeta], [ResponseMetaFacts], [ResponseMetaProps]:
      how response metadata combines in a flow ([waferflow/response_meta.rs]).
    - [Streams]: output streams with their buffered prefix ([wafer-block/src/stream.rs],
      [streams/output.rs]). [StreamChannel]: the sink of a producer over its
      bounded channel with the permit kept back for the terminal, and what
      consumers make of the events ([streams/mod.rs], [input.rs]).
    - [HttpResponse], [HttpResponseProps]: responses for a transport, buffered or
      streamed ([wafer-block/src/http_codec.rs]).
    - [Executor], [ExecutorSteps], [ExecutorProps]: the
      executor of compiled flows ([waferflow/executor.rs]) and the transfers
      between flows ([runtime/runner.rs]); concurrent branches interleave at
      every shared access ([exec_step]).
    - [NetSecurity]: addresses refused for outbound requests
      ([wafer-net-security/src/lib.rs]).
    - [Lifecycle], [Requests]: block configuration at Init and
      requests as messages ([wafer-block/src/config.rs], [types/message_ext.rs],
      [http_codec.rs]).
    - [Routing], [RoutingProps]: path patterns, the router and the readonly
      guard ([wafer-block/src/executor.rs], [wafer-block-router],
      [wafer-block-readonly-guard]).
    - [Cors]: the CORS middleware ([wafer-block-cors]).
    - [RateLimit]: the rate limiter ([wafer-block-ip-rate-limit]).
    - [ConfigExpand]: expansion and keying of block
      configurations ([runtime/config_expand.rs]).
    - [Seal], [SealProps]: the phases of sealing ([runtime/seal.rs]) over the
      interface [SealBlock] of block implementations.
    - [Csp], [CspProps]: content security policies and the security-headers
      block ([wafer-block-security-headers]).
    - [Handlers]: decoding together with authorization, answers and the
      two-frame streaming answer ([wafer-core/src/interfaces/handler_util.rs]).
    - [StorageHandler], [StorageHandlerProps]: the storage handler
      ([interfaces/storage/handler.rs]); a service call is data with a
      dependent answer type.
    - [FileSystem], [LocalStorage], [StorageSteps], [LocalStorageProps]: the local storage block ([wafer-block-local-storage])
      as programs over file-system calls, on a file system whose unsynced
      contents a power loss may tear; [sys_step] interleaves operations, boots
      and crashes. [StorageStack] joins handler and block.
    - [InitAttempts]: init attempt records
      ([wafer-block/src/init_attempt.rs], the settling in [runtime.rs]), their
      updates at the grain of the record locks ([attempt_step]).
    - [DatabaseTypes], [DatabaseConvert], [DatabaseHandler]: the database
      handler ([interfaces/database/handler.rs], the requests of
      [wafer-block/src/wire/database.rs], the specifications of [service.rs]):
      every operation a tree [DbProg] of service calls and notes on the init
      attempt. [DatabaseFacts], [DatabaseProps] and
      [DatabaseErrors] hold its properties.
    - [ServiceClients], [DatabaseClient], [DatabaseClientProps]: the native
      path of service clients ([clients/mod.rs]) and the database client
      ([clients/database.rs]).
    - [SchemaCache]: the cache of table columns with its generations
      ([interfaces/database/schema_cache.rs]), as the state machine of every
      probe, schema change and invalidation.
    - [SqlQuery], [SqlStatements]: the builders of statements as syntax trees
      ([wafer-sql-utils/src/query.rs], [upsert.rs], [guard.rs], ...);
      [SqlMeaning] gives predicates, writes and counters a meaning on rows.
      [SqlText], [SqlTextProps]: the statements the code writes as text itself
      (schema statements and introspection) and how a dialect reads them.
    - [DbExec]: the executor of database calls ([interfaces/database/exec.rs]):
      each operation a program over the primitives of its backend, the cache,
      the clock and minted ids, with the row codec ([codec.rs]); [DbExecLogic]
      holds the rules its properties are proved with ([DbExecProps]).
    - [SchemaRefs], [SchemaRefsProps]: references inside JSON Schema documents
      ([wafer-block/src/types/schema_ref.rs]) and the walk that makes a schema
      stand alone ([wafer-core/src/discovery.rs], [inline_refs]).
    - [WebMcp], [WebMcpProps]: the tool manifest of an agent ([discovery.rs],
      [webmcp_report_resolved], [generate_webmcp_selected]).

    ** What the theorems show

    Access ([WrapProps]): [check_access] is exactly the declarative policy; the
    reserved resources are out of reach of every grant; storage stays inside
    the caller's tree; names and namespaces correspond one to one; patterns
    never match more than their meaning; URL patterns confine the host.
    Registry ([RegistryProps]): in every registry dispatch finds only registered
    blocks, under their canonical names where aliases were checked; sealing
    freezes it but for the aliases a file loads, only the owner of a resource
    (or the host) can share it, and append grants allow inserts only. Capabilities ([Capabilities]):
    intersection and overrides narrow, WASM blocks get no more than declaration,
    operator and bound, and authorization is the conjunction of both layers.
    Initialization ([Slot], [InitWaits]): outcomes are final, attempts
    exclude each other, backoff is respected, readers agree with the slot, and
    init cycles are refused exactly, so no deadlock arises. Dispatch
    ([Dispatch]): the gates in order, bounded nesting, no missing
    registration, no leaked causes, the init gate. Sealing ([SealProps],
    [ConfigExpand]): a sealed runtime dispatches everything it references, a
    refused boot lists exactly what is missing, capabilities are recorded for
    every block, and which source of a setting wins. Conditions ([ExprProps]):
    the parser is total, reads back what is printed - precedence, associativity,
    quoting - and evaluation short-circuits. Flow documents ([FlowTypes],
    [Accumulator], [FlowValidate], [FlowPlan]): timeouts mean
    durations in range; the layered accumulator is one map; compiled expressions
    mean what parsing at each use means; validation decides well-formedness;
    compiled plans never point outside themselves or the registry. Flow
    execution ([ExecutorProps]): runs end within the step
    budget, do not depend on the schedule of branches, and answer only what can
    be sent. Responses ([RestrictiveFacts], [ResponseMetaProps]):
    merged security headers are never looser than either producer; what an
    overlay leaves; cookie keys identify cookies; a stopped flow inherits what
    the middleware left and nothing a responder wrote. Transport
    ([StreamChannel], [HttpResponseProps]): a stream is data
    and then one terminal, which no full buffer can lose; every answer can be
    sent, and what cannot be rendered fails closed; a streamed body is the data
    of the stream and ends in an error when the stream did. Edge blocks
    ([NetSecurity], [Requests], [RoutingProps], [Cors],
    [RateLimit]): only public addresses are fetched, requests become
    messages faithfully, the first matching route answers, the CORS block sends
    only allowed origins of its own, windows admit their budget and tables stay bounded; whatever is
    configured, the security headers agree and hold ([CspProps]). Storage
    ([StorageHandlerProps], [LocalStorageProps], [StorageStack]): only authorized paths below the caller reach the service
    and the file of that path is the one touched; objects are whole under every
    interleaving and crash; uploads store all or nothing; listings are complete.
    Init attempts ([InitAttempts]): calls in flight are counted exactly, a
    cut-off attempt is classed by what its calls saw, the locks never deadlock.
    Database ([DatabaseProps], [DatabaseErrors], [DatabaseClientProps]): every
    service call was admitted for its caller and names plain identifiers;
    appends write no server-owned column; answers do not depend on hidden driver text;
    every failure is noted; filter trees are typed; client, wire and handler
    change nothing of a call. SQL ([SqlMeaning], [SqlTextProps], [SchemaCache]):
    predicates mean the filters they were built of under three-valued logic on
    both dialects, each with its own [LIKE], guarded inserts keep their caps (on
    counts, and on sums of integer columns), a windowed counter is the
    counter its calls describe, each schema statement is one statement, and the
    cache never says of a table what no probe of its generation saw. Executor
    ([DbExecProps]): a call sends at most one write, changes the cache only by
    its protocol, sends no column it did not check, names the guard that
    refused, and reads rows back as written. Agent tools ([SchemaRefsProps],
    [WebMcpProps]): inlining without an issue keeps the meaning a schema has
    when references are followed and the keywords beside them laid over (which
    is none beside a reference to a boolean schema), ends within its budget and leaves only references the document answers; a manifest shows
    its caller nothing above its level, every tool in it can be invoked at the
    URL it publishes, no tool is dropped in silence, and a page's selection
    publishes nothing it did not choose.

    ** Bounds and fuel

    The walk over the wait-for graph has fuel one more than the number of
    owning attempts; [reaches_decides] shows it always answers. The expression
    parser has fuel one more than the length of the text; [parse_expr_total]
    shows it never runs out and that more changes nothing. The parser of
    permission policies has fuel one more than the text, of which every turn
    consumes some ([members_fuel], [params_fuel], [inner_list_fuel]); the search
    for an unused cookie key tries as many keys as there are entries, which is
    enough ([fresh_cookie_key_unused]). The loops of the executor have one turn
    more than the step budget, which counts every invocation;
    [flow_runs_end] shows that they never use the last one up. Reading a file
    in chunks has fuel one more than its length ([read_chunks]), following the
    cursors of a listing one more than its objects ([listing_complete]), draining a stream one more
    than its events ([streamed_body_honest], for any fuel above that). The walk
    over schema references has fuel one more than its node budget, of which
    every call spends one ([inlining_bounded]); the search for definitions on a
    cycle visits each edge once ([cycles_decided]). All
    other definitions are structurally recursive. [sys_step] takes a process to
    begin fewer than 2^64 writes, where its staging counter would wrap.

    ** Not modelled, and why

    I/O and third-party code: the WASM engine and the guest ABI over its memory,
    sockets and HTTP parsing, SQL engines and their drivers (with the column
    migrations SQLite runs inside its write worker), the S3 client,
    cryptographic primitives, embedding models, the command line and the
    bindings. The text of row statements is written by a third-party query
    builder: [SqlQuery] models the tree handed to it. Log lines, the English
    texts of tool refusals and the order in which a JSON object keeps its
    entries are left out. Left for later: the OpenAPI document and the agent
    card of [discovery.rs], the lockfile and the handlers of the crypto, network, config,
    metrics and vector services, which decode, authorize and forward as the two
    modelled handlers do. *)

From stdpp Require Export base option list strings gmap.
From Stdlib Require Export Ascii Bool Lia.
Export ListNotations.

#[global] Arguments String.append !_ _ : simpl nomatch.

Declare Scope wafer_scope.
Delimit Scope wafer_scope with wafer.

(** Rust's [Result]: [Ok] and [Err] as the source writes them. *)
Inductive result (A E : Type) : Type :=
| Ok (a : A)
| Err (e : E).
Arguments Ok {A E} a.
Arguments Err {A E} e.

Definition is_ok {A E} (r : result A E) : bool :=
  match r with Ok _ => true | Err _ => false end.

Definition is_some {A} (o : option A) : bool :=
  match o with Some _ => true | None => false end.

Definition result_bind {A B E} (r : result A E) (k : A -> result B E) : result B E :=
  match r with Ok a => k a | Err e => Err e end.

(** The [?] operator. *)
Notation "'let?' x := c 'in' k" :=
  (result_bind c (fun x => k))
  (at level 10, x pattern, c at level 100, k at level 200)
  : wafer_scope.
Open Scope wafer_scope.

(** String equality as a boolean. *)
Notation "a =s b" := (String.eqb a b) (at level 70, no associativity) : wafer_scope.

(** ** Byte classes *)

Definition byte_of (c : ascii) : N := N_of_ascii c.

Definition in_range (lo hi : N) (c : ascii) : bool :=
  (lo <=? byte_of c)%N && (byte_of c <=? hi)%N.

Definition is_ascii_char (c : ascii) : bool := (byte_of c <? 128)%N.
Definition is_ascii_uppercase (c : ascii) : bool := in_range 65 90 c.
Definition is_ascii_lowercase (c : ascii) : bool := in_range 97 122 c.
Definition is_ascii_digit (c : ascii) : bool := in_range 48 57 c.
Definition is_ascii_alphabetic (c : ascii) : bool :=
  is_ascii_uppercase c || is_ascii_lowercase c.
Definition is_ascii_alphanumeric (c : ascii) : bool :=
  is_ascii_alphabetic c || is_ascii_digit c.

(** [u8::is_ascii_whitespace]: space, tab, LF, FF, CR. *)
Definition is_ascii_whitespace (c : ascii) : bool :=
  existsb (N.eqb (byte_of c)) [32; 9; 10; 12; 13]%N.

Definition ascii_lower (c : ascii) : ascii :=
  if is_ascii_uppercase c then ascii_of_N (byte_of c + 32) else c.

Fixpoint str_forallb (p : ascii -> bool) (s : string) : bool :=
  match s with
  | EmptyString => true
  | String c s' => p c && str_forallb p s'
  end.

Fixpoint str_map (f : ascii -> ascii) (s : string) : string :=
  match s with
  | EmptyString => EmptyString
  | String c s' => String (f c) (str_map f s')
  end.

Definition is_ascii (s : string) : bool := str_forallb is_ascii_char s.
Definition to_ascii_lowercase (s : string) : string := str_map ascii_lower s.
Definition eq_ignore_ascii_case (a b : string) : bool :=
  to_ascii_lowercase a =s to_ascii_lowercase b.

Definition is_empty (s : string) : bool :=
  match s with EmptyString => true | String _ _ => false end.

(** ** Slicing and searching *)

(** [&s[..n]] and [&s[n..]] (for [n] within the string). *)
Fixpoint str_take (n : nat) (s : string) : string :=
  match n, s with
  | S n', String c s' => String c (str_take n' s')
  | _, _ => EmptyString
  end.

Fixpoint str_drop (n : nat) (s : string) : string :=
  match n, s with
  | S n', String _ s' => str_drop n' s'
  | _, _ => s
  end.

Fixpoint strip_prefix (p s : string) : option string :=
  match p, s with
  | EmptyString, _ => Some s
  | String a p', String b s' => if Ascii.eqb a b then strip_prefix p' s' else None
  | String _ _, EmptyString => None
  end.

Definition starts_with (p s : string) : bool :=
  match strip_prefix p s with Some _ => true | None => false end.

Definition strip_suffix (p s : string) : option string :=
  let n := String.length s - String.length p in
  if (String.length p <=? String.length s) && (str_drop n s =s p)
  then Some (str_take n s) else None.

Definition ends_with (p s : string) : bool :=
  match strip_suffix p s with Some _ => true | None => false end.

(** [s.find(p)]: the byte offset of the first occurrence of [p]. *)
Fixpoint find (p s : string) : option nat :=
  if starts_with p s then Some 0
  else match s with
       | EmptyString => None
       | String _ s' => option_map S (find p s')
       end.

Definition contains (p s : string) : bool :=
  match find p s with Some _ => true | None => false end.

(** [s.split(c)]: the (never empty) list of the pieces between the
    occurrences of [c]. *)
Fixpoint split (c : ascii) (s : string) : list string :=
  match s with
  | EmptyString => [EmptyString]
  | String a s' =>
      if Ascii.eqb a c then EmptyString :: split c s'
      else match split c s' with
           | [] => [String a EmptyString]
           | w :: ws => String a w :: ws
           end
  end.

(** [s.split_once(c)]. *)
Fixpoint split_once (c : ascii) (s : string) : option (string * string) :=
  match s with
  | EmptyString => None
  | String a s' =>
      if Ascii.eqb a c then Some (EmptyString, s')
      else match split_once c s' with
           | Some (l, r) => Some (String a l, r)
           | None => None
           end
  end.

(** [l.join(sep)]. *)
Fixpoint join (sep : string) (l : list string) : string :=
  match l with
  | [] => EmptyString
  | [x] => x
  | x :: l' => x +:+ sep +:+ join sep l'
  end.

(** [s.replace(p, r)] for a non-empty [p]: every non-overlapping occurrence
    from left to right.  [skip] counts the bytes of a matched occurrence still
    to be consumed. *)
Fixpoint replace_go (p r : string) (skip : nat) (s : string) : string :=
  match s with
  | EmptyString => EmptyString
  | String c s' =>
      match skip with
      | S k => replace_go p r k s'
      | 0 => if starts_with p s
             then r +:+ replace_go p r (String.length p - 1) s'
             else String c (replace_go p r 0 s')
      end
  end.
Definition replace (p r s : string) : string := replace_go p r 0 s.

(** [s.replace(c, r)] for a character pattern. *)
Fixpoint replace_char (c : ascii) (r s : string) : string :=
  match s with
  | EmptyString => EmptyString
  | String a s' => if Ascii.eqb a c then r +:+ replace_char c r s'
                   else String a (replace_char c r s')
  end.

(** ** Facts *)

Lemma str_app_nil_r (s : string) : s +:+ "" = s.
Proof. induction s as [|c s IH]; simpl; congruence. Qed.

Lemma str_app_assoc (a b c : string) : a +:+ (b +:+ c) = (a +:+ b) +:+ c.
Proof. induction a as [|x a IH]; simpl; congruence. Qed.

Lemma str_length_app (a b : string) :
  String.length (a +:+ b) = String.length a + String.length b.
Proof. induction a as [|x a IH]; simpl; congruence. Qed.

Lemma str_app_cons (c : ascii) (s : string) : String c s = String c "" +:+ s.
Proof. reflexivity. Qed.

(** Unfolding equations, for goals where [simpl] unfolds too much. *)
Lemma str_cons_app (c : ascii) (a b : string) : String c a +:+ b = String c (a +:+ b).
Proof. reflexivity. Qed.

Lemma find_cons (p : string) (c : ascii) (s : string) :
  find p (String c s) =
  if starts_with p (String c s) then Some 0 else option_map S (find p s).
Proof. reflexivity. Qed.

Lemma replace_go_cons (p r : string) (c : ascii) (s : string) :
  replace_go p r 0 (String c s) =
  if starts_with p (String c s) then r +:+ replace_go p r (String.length p - 1) s
  else String c (replace_go p r 0 s).
Proof. reflexivity. Qed.

Lemma str_app_inj_l (a b c : string) : a +:+ b = a +:+ c -> b = c.
Proof. induction a as [|x a IH]; simpl; intros H; [done|]. injection H; auto. Qed.

Lemma str_app_inj_length (a b c d : string) :
  a +:+ b = c +:+ d -> String.length a = String.length c -> a = c /\ b = d.
Proof.
  revert c; induction a as [|x a IH]; intros [|y c]; simpl; intros H L; try lia; auto.
  injection H as -> H. destruct (IH c H) as [-> ->]; [lia|done].
Qed.

Lemma str_take_drop (n : nat) (s : string) : str_take n s +:+ str_drop n s = s.
Proof. revert s; induction n as [|n IH]; intros [|c s]; simpl; try done. by rewrite IH. Qed.

Lemma str_take_app (a b : string) : str_take (String.length a) (a +:+ b) = a.
Proof. induction a as [|x a IH]; simpl; [by destruct b|congruence]. Qed.

Lemma str_drop_app (a b : string) : str_drop (String.length a) (a +:+ b) = b.
Proof. induction a as [|x a IH]; simpl; [by destruct b|done]. Qed.

Lemma str_take_app_plus (a b : string) (n : nat) :
  str_take (String.length a + n) (a +:+ b) = a +:+ str_take n b.
Proof. induction a as [|x a IH]; simpl; congruence. Qed.

Lemma str_drop_app_plus (a b : string) (n : nat) :
  str_drop (String.length a + n) (a +:+ b) = str_drop n b.
Proof. by induction a as [|x a IH]. Qed.

Lemma str_length_drop (n : nat) (s : string) :
  String.length (str_drop n s) = String.length s - n.
Proof. revert s; induction n as [|n IH]; intros [|c s]; simpl; try lia; auto. Qed.

Lemma str_length_take (n : nat) (s : string) :
  String.length (str_take n s) = Nat.min n (String.length s).
Proof. revert s; induction n as [|n IH]; intros [|c s]; simpl; auto. Qed.

Lemma eqs_true (a b : string) : (a =s b) = true <-> a = b.
Proof. apply String.eqb_eq. Qed.

Lemma eqs_refl (a : string) : (a =s a) = true.
Proof. apply String.eqb_refl. Qed.

Lemma eqs_false (a b : string) : (a =s b) = false <-> a <> b.
Proof. apply String.eqb_neq. Qed.

Lemma strip_prefix_Some (p s r : string) : strip_prefix p s = Some r <-> s = p +:+ r.
Proof.
  revert s; induction p as [|a p IH]; intros s; simpl.
  - split; congruence.
  - destruct s as [|b s]; [split; discriminate|].
    destruct (Ascii.eqb_spec a b) as [->|Hne].
    + rewrite IH. split; [by intros ->|by injection 1].
    + split; [discriminate|congruence].
Qed.

Lemma strip_prefix_app (p r : string) : strip_prefix p (p +:+ r) = Some r.
Proof. by apply strip_prefix_Some. Qed.

Lemma starts_with_spec (p s : string) : starts_with p s = true <-> exists r, s = p +:+ r.
Proof.
  unfold starts_with. destruct (strip_prefix p s) as [r|] eqn:E.
  - apply strip_prefix_Some in E. split; eauto.
  - split; [discriminate|]. intros [r Hr]. apply strip_prefix_Some in Hr. congruence.
Qed.

Lemma starts_with_app (p r : string) : starts_with p (p +:+ r) = true.
Proof. apply starts_with_spec. eauto. Qed.

Lemma strip_suffix_Some (p s r : string) : strip_suffix p s = Some r <-> s = r +:+ p.
Proof.
  unfold strip_suffix. split.
  - destruct (_ && _) eqn:E; [|discriminate]. injection 1 as <-.
    apply andb_true_iff in E as [_ Hd]. apply eqs_true in Hd.
    rewrite <- Hd at 2. by rewrite str_take_drop.
  - intros ->. rewrite str_length_app.
    replace (String.length r + String.length p - String.length p) with (String.length r) by lia.
    rewrite str_drop_app, str_take_app, eqs_refl.
    destruct (Nat.leb_spec (String.length p) (String.length r + String.length p)); [done|lia].
Qed.

Lemma ends_with_spec (p s : string) : ends_with p s = true <-> exists r, s = r +:+ p.
Proof.
  unfold ends_with. destruct (strip_suffix p s) as [r|] eqn:E.
  - apply strip_suffix_Some in E. split; eauto.
  - split; [discriminate|]. intros [r Hr]. apply strip_suffix_Some in Hr. congruence.
Qed.

(** [find] returns an occurrence ... *)
Lemma find_Some (p s : string) (i : nat) :
  find p s = Some i ->
  exists a b, s = a +:+ p +:+ b /\ String.length a = i.
Proof.
  revert i; induction s as [|c s IH]; intros i; simpl.
  - destruct (starts_with p "") eqn:E; [|discriminate].
    apply starts_with_spec in E as [r Hr]. injection 1 as <-. by exists "", r.
  - destruct (starts_with p (String c s)) eqn:E.
    + apply starts_with_spec in E as [r Hr]. injection 1 as <-. by exists "", r.
    + destruct (find p s) as [j|] eqn:F; [|discriminate]. injection 1 as <-.
      destruct (IH j eq_refl) as (a & b & -> & <-). by exists (String c a), b.
Qed.

(** ... and the first one. *)
Lemma find_first (p a b : string) :
  exists i, find p (a +:+ p +:+ b) = Some i /\ i <= String.length a.
Proof.
  induction a as [|c a IH]; simpl.
  - exists 0. destruct (p +:+ b) eqn:E.
    + simpl. destruct p; [done|discriminate].
    + simpl. rewrite <- E, starts_with_app. done.
  - destruct (starts_with p (String c (a +:+ p +:+ b))); [exists 0; split; [done|lia]|].
    destruct IH as (i & -> & Hi). exists (S i). simpl. split; [done|lia].
Qed.

Lemma find_None (p s : string) : find p s = None -> forall a b, s <> a +:+ p +:+ b.
Proof. intros H a b ->. destruct (find_first p a b) as (i & Hi & _). congruence. Qed.

Lemma contains_spec (p s : string) : contains p s = true <-> exists a b, s = a +:+ p +:+ b.
Proof.
  unfold contains. destruct (find p s) as [i|] eqn:E.
  - apply find_Some in E as (a & b & -> & _). split; eauto.
  - split; [discriminate|]. intros (a & b & H). by apply (find_None _ _ E) in H.
Qed.

Lemma split_not_nil (c : ascii) (s : string) : split c s <> [].
Proof.
  destruct s as [|a s]; simpl; [done|].
  destruct (Ascii.eqb a c); [done|]. by destruct (split c s).
Qed.

(** Splitting and joining on the same character is the identity. *)
Lemma join_split (c : ascii) (s : string) : join (String c "") (split c s) = s.
Proof.
  induction s as [|a s IH]; simpl; [done|].
  destruct (Ascii.eqb_spec a c) as [->|Hne].
  - destruct (split c s) as [|w ws] eqn:E; [by destruct (split_not_nil c s)|].
    by rewrite <- IH.
  - destruct (split c s) as [|w ws] eqn:E; [by destruct (split_not_nil c s)|].
    rewrite <- IH. by destruct ws.
Qed.

Lemma split_no_sep (c : ascii) (s : string) :
  str_forallb (fun a => negb (Ascii.eqb a c)) s = true -> split c s = [s].
Proof.
  induction s as [|a s IH]; simpl; [done|].
  destruct (Ascii.eqb a c); simpl; [discriminate|]. intros H. by rewrite IH.
Qed.

Lemma split_app_sep (c : ascii) (a b : string) :
  str_forallb (fun x => negb (Ascii.eqb x c)) a = true ->
  split c (a +:+ String c b) = a :: split c b.
Proof.
  induction a as [|x a IH]; simpl; intros H.
  - by rewrite Ascii.eqb_refl.
  - apply andb_true_iff in H as [Hx H]. destruct (Ascii.eqb x c); [discriminate|].
    by rewrite IH.
Qed.

Lemma str_forallb_app (p : ascii -> bool) (a b : string) :
  str_forallb p (a +:+ b) = str_forallb p a && str_forallb p b.
Proof. induction a as [|x a IH]; simpl; [done|]. by rewrite IH, andb_assoc. Qed.

Lemma str_forallb_impl (p q : ascii -> bool) (s : string) :
  (forall c, p c = true -> q c = true) ->
  str_forallb p s = true -> str_forallb q s = true.
Proof.
  intros H. induction s as [|c s IH]; simpl; [done|].
  rewrite !andb_true_iff. intros [Hc Hs]. auto.
Qed.

Lemma str_map_app (f : ascii -> ascii) (a b : string) :
  str_map f (a +:+ b) = str_map f a +:+ str_map f b.
Proof. induction a as [|x a IH]; simpl; congruence. Qed.

Lemma is_empty_spec (s : string) : is_empty s = true <-> s = "".
Proof. destruct s; simpl; split; congruence. Qed.

(** Reflection of the boolean tests the components share, for [auto]. *)
Create HintDb wafer.
Create Rewrite HintDb wafer.
#[export] Hint Resolve eqs_refl strip_prefix_app starts_with_app split_not_nil : wafer.
#[export] Hint Rewrite str_app_nil_r str_length_app eqs_refl strip_prefix_app
  starts_with_app str_take_app str_drop_app str_forallb_app str_map_app : wafer.

(** Turn every boolean equation of the context into the proposition it
    decides. *)
Ltac bool_to_prop :=
  repeat match goal with
  | H : andb _ _ = true |- _ => apply andb_true_iff in H as [? ?]
  | H : orb _ _ = false |- _ => apply orb_false_iff in H as [? ?]
  | H : negb _ = true |- _ => apply negb_true_iff in H
  | H : negb _ = false |- _ => apply negb_false_iff in H
  | H : String.eqb _ _ = true |- _ => apply String.eqb_eq in H; subst
  | H : String.eqb _ _ = false |- _ => apply String.eqb_neq in H
  end.

(** Case analysis on the scrutinee of the first [match] or [if] of the goal. *)
Ltac case_goal :=
  match goal with
  | |- context [match ?x with _ => _ end] => destruct x eqn:?
  end.

(** [if !seen.contains(&k) { seen.push(k) }]. *)
Definition push_unique (seen : list string) (k : string) : list string :=
  if existsb (String.eqb k) seen then seen else seen ++ [k].

(** Elements are added once each. *)
Lemma push_unique_spec (seen ks : list string) :
  NoDup seen -> NoDup (fold_left push_unique ks seen)
    /\ (forall k, k ∈ fold_left push_unique ks seen <-> k ∈ seen \/ k ∈ ks).
Proof.
  revert seen. induction ks as [|k0 ks IH]; intros seen Hn; simpl.
  - split; [done|]. intros k. rewrite elem_of_nil. tauto.
  - unfold push_unique at 2 4. destruct (existsb _ seen) eqn:E.
    + apply existsb_exists in E as (k' & Hin & <-%eqs_true). apply list_elem_of_In in Hin.
      destruct (IH seen Hn) as [H1 H2]. split; [done|]. intros k. rewrite H2, elem_of_cons.
      split; [tauto|]. intros [?|[->|?]]; tauto.
    + assert (k0 ∉ seen) as Hk0.
      { intros Hin. apply not_true_iff_false in E. apply E, existsb_exists.
        exists k0. split; [by apply list_elem_of_In|apply eqs_refl]. }
      destruct (IH (seen ++ [k0])) as [H1 H2].
      { apply NoDup_app. split_and!; [done| |apply NoDup_singleton].
        intros x Hx ->%list_elem_of_singleton. done. }
      split; [done|]. intros k. rewrite H2, elem_of_app, list_elem_of_singleton, elem_of_cons. tauto.
Qed.

Lemma ascii_lower_idem (c : ascii) : ascii_lower (ascii_lower c) = ascii_lower c.
Proof. by destruct c as [[] [] [] [] [] [] [] []]. Qed.

Lemma lowercase_idem (s : string) : to_ascii_lowercase (to_ascii_lowercase s) = to_ascii_lowercase s.
Proof.
  unfold to_ascii_lowercase. induction s as [|c s IH]; simpl; [done|].
  by rewrite ascii_lower_idem, IH.
Qed.

(** ** Case *)

Definition ascii_upper (c : ascii) : ascii :=
  if is_ascii_lowercase c then ascii_of_N (byte_of c - 32) else c.
Definition to_ascii_uppercase (s : string) : string := str_map ascii_upper s.

(** The order of entries by key. *)
Definition key_le {A} (a b : string * A) : Prop := String.le a.1 b.1.
#[export] Instance key_le_dec {A} : RelDecision (@key_le A).
Proof. intros a b. unfold key_le. apply _. Defined.

(** [str::to_lowercase]: on ASCII text it is [to_ascii_lowercase], and an ASCII
    prefix is lowered independently of what follows it. *)
Class UnicodeLower := {
  to_lowercase : string -> string;
  to_lowercase_ascii : forall s,
    is_ascii s = true -> to_lowercase s = to_ascii_lowercase s;
  to_lowercase_ascii_prefix : forall a r,
    is_ascii a = true ->
    exists t, to_lowercase (a +:+ r) = to_ascii_lowercase a +:+ t
}.
