(* ===== verification/CoreTypes.v ===== *)
(** Core WAFER types ([wafer-block/src/core_types.rs], [types/message_ext.rs]):
    metadata entries, messages, error codes with their wire ordinals and
    textual forms, and structured errors. *)

From S2P Require Import Prelude.

(** ** Data *)

Record MetaEntry := mkMeta { me_key : string; me_value : string }.

Record Message := mkMessage { msg_kind : string; msg_meta : list MetaEntry }.

Module ErrorCode.
Inductive t :=
| Ok | Cancelled | Unknown | InvalidArgument | DeadlineExceeded | NotFound
| AlreadyExists | PermissionDenied | ResourceExhausted | FailedPrecondition
| Aborted | OutOfRange | Unimplemented | Internal | Unavailable | DataLoss
| Unauthenticated.

(** [ErrorCode::to_ordinal]: the streaming-ABI tag. *)
Definition to_ordinal (c : t) : N :=
  match c with
  | Ok => 0 | Cancelled => 1 | Unknown => 2 | InvalidArgument => 3
  | DeadlineExceeded => 4 | NotFound => 5 | AlreadyExists => 6
  | PermissionDenied => 7 | ResourceExhausted => 8 | FailedPrecondition => 9
  | Aborted => 10 | OutOfRange => 11 | Unimplemented => 12 | Internal => 13
  | Unavailable => 14 | DataLoss => 15 | Unauthenticated => 16
  end%N.

(** [ErrorCode::from_ordinal]: unknown ordinals degrade to [Internal]. *)
Definition from_ordinal (n : N) : t :=
  match n with
  | 0 => Ok | 1 => Cancelled | 2 => Unknown | 3 => InvalidArgument
  | 4 => DeadlineExceeded | 5 => NotFound | 6 => AlreadyExists
  | 7 => PermissionDenied | 8 => ResourceExhausted | 9 => FailedPrecondition
  | 10 => Aborted | 11 => OutOfRange | 12 => Unimplemented | 13 => Internal
  | 14 => Unavailable | 15 => DataLoss | 16 => Unauthenticated
  | _ => Internal
  end%N.

(** [ErrorCode::parse]: the accepted wire strings, in the source's order. *)
Definition parse_table : list (string * t) :=
  [("ok", Ok); ("cancelled", Cancelled); ("unknown", Unknown);
   ("invalid_argument", InvalidArgument); ("invalid-argument", InvalidArgument);
   ("bad_request", InvalidArgument);
   ("deadline_exceeded", DeadlineExceeded); ("deadline-exceeded", DeadlineExceeded);
   ("not_found", NotFound); ("not-found", NotFound);
   ("already_exists", AlreadyExists); ("already-exists", AlreadyExists);
   ("permission_denied", PermissionDenied); ("permission-denied", PermissionDenied);
   ("resource_exhausted", ResourceExhausted); ("resource-exhausted", ResourceExhausted);
   ("failed_precondition", FailedPrecondition); ("failed-precondition", FailedPrecondition);
   ("aborted", Aborted);
   ("out_of_range", OutOfRange); ("out-of-range", OutOfRange);
   ("unimplemented", Unimplemented); ("not_implemented", Unimplemented);
   ("internal", Internal); ("unavailable", Unavailable);
   ("data_loss", DataLoss); ("data-loss", DataLoss);
   ("unauthenticated", Unauthenticated)].

Definition parse (s : string) : option t :=
  match List.find (fun '(k, _) => k =s s) parse_table with
  | Some (_, c) => Some c
  | None => None
  end.

(** [Display for ErrorCode]: the variant's name. *)
Definition display (c : t) : string :=
  match c with
  | Ok => "Ok" | Cancelled => "Cancelled" | Unknown => "Unknown"
  | InvalidArgument => "InvalidArgument" | DeadlineExceeded => "DeadlineExceeded"
  | NotFound => "NotFound" | AlreadyExists => "AlreadyExists"
  | PermissionDenied => "PermissionDenied" | ResourceExhausted => "ResourceExhausted"
  | FailedPrecondition => "FailedPrecondition" | Aborted => "Aborted"
  | OutOfRange => "OutOfRange" | Unimplemented => "Unimplemented" | Internal => "Internal"
  | Unavailable => "Unavailable" | DataLoss => "DataLoss" | Unauthenticated => "Unauthenticated"
  end.

#[global] Instance t_eq_dec : EqDecision t.
Proof. solve_decision. Defined.

#[global] Instance t_countable : Countable t.
Proof.
  refine (inj_countable' to_ordinal from_ordinal _). by intros [].
Defined.
End ErrorCode.

Record WaferError := mkError {
  we_code : ErrorCode.t;
  we_message : string;
  we_meta : list MetaEntry
}.

#[export] Instance meta_entry_eq_dec : EqDecision MetaEntry.
Proof. solve_decision. Defined.
#[export] Instance message_eq_dec : EqDecision Message.
Proof. solve_decision. Defined.
#[export] Instance wafer_error_eq_dec : EqDecision WaferError.
Proof. solve_decision. Defined.

(** ** Meta access ([MetaGet] / [MetaSet]) *)

Definition META_REQ_ACTION : string := "req.action".
Definition META_ERROR_CODE : string := "error.code".

Definition meta_get (meta : list MetaEntry) (key : string) : option string :=
  option_map me_value (List.find (fun e => me_key e =s key) meta).

(** Response meta keys ([wafer-block/src/meta.rs]). *)
Definition META_RESP_STATUS : string := "resp.status".
Definition META_RESP_CONTENT_TYPE : string := "resp.content_type".
Definition META_RESP_HEADER_PREFIX : string := "resp.header.".
Definition META_RESP_COOKIE_PREFIX : string := "resp.set_cookie.".

(** [MetaSet::set]: update the first entry of that key in place, else push. *)
Fixpoint meta_set (meta : list MetaEntry) (key value : string) : list MetaEntry :=
  match meta with
  | [] => [mkMeta key value]
  | e :: meta' =>
      if me_key e =s key then mkMeta (me_key e) value :: meta'
      else e :: meta_set meta' key value
  end.

(** [WaferError::new], [with_detail_code], [detail_code]. *)
Definition error_new (code : ErrorCode.t) (message : string) : WaferError :=
  mkError code message [].

Definition with_detail_code (e : WaferError) (code : string) : WaferError :=
  mkError (we_code e) (we_message e) (meta_set (we_meta e) META_ERROR_CODE code).

Definition detail_code (e : WaferError) : option string :=
  meta_get (we_meta e) META_ERROR_CODE.

(** [Display for WaferError]. *)
Definition error_display (e : WaferError) : string :=
  ErrorCode.display (we_code e) +:+ ": " +:+ we_message e.

(** [Message::get_meta] (the empty string when absent) and [Message::action]. *)
Definition get_meta (m : Message) (key : string) : string :=
  default "" (meta_get (msg_meta m) key).

Definition action (m : Message) : string := get_meta m META_REQ_ACTION.

(** ** Facts *)

Lemma meta_get_set_eq (m : list MetaEntry) (k v : string) :
  meta_get (meta_set m k v) k = Some v.
Proof.
  unfold meta_get. induction m as [|e m IH]; simpl.
  - by rewrite eqs_refl.
  - destruct (me_key e =s k) eqn:E; simpl; rewrite E; auto.
Qed.

Lemma meta_get_set_ne (m : list MetaEntry) (k k' v : string) :
  k <> k' -> meta_get (meta_set m k v) k' = meta_get m k'.
Proof.
  intros Hne. unfold meta_get. induction m as [|e m IH]; simpl.
  - destruct (k =s k') eqn:E; [bool_to_prop; done|done].
  - destruct (me_key e =s k) eqn:E; simpl.
    + bool_to_prop. destruct (me_key e =s k') eqn:E'; bool_to_prop; done.
    + destruct (me_key e =s k'); auto.
Qed.

Lemma from_to_ordinal (c : ErrorCode.t) :
  ErrorCode.from_ordinal (ErrorCode.to_ordinal c) = c.
Proof. by destruct c. Qed.
