(* ===== verification/Grants.v ===== *)
(** WRAP resource grants ([wafer-block/src/types/grants.rs]): resource types,
    access kinds, the write field of a grant and its wire form, and the grant
    itself with the accesses it admits. *)

From S2P Require Import Prelude.

(** ** Data *)

Module ResourceType.
Inductive t :=
| Db | Config | Storage | Crypto | Network | Vector | Auth | Llm | Image | Embedding.

#[global] Instance t_eq_dec : EqDecision t.
Proof. solve_decision. Defined.

Definition all : list t :=
  [Db; Config; Storage; Crypto; Network; Vector; Auth; Llm; Image; Embedding].

(** [Display for ResourceType]. *)
Definition display (rt : t) : string :=
  match rt with
  | Db => "db" | Config => "config" | Storage => "storage" | Crypto => "crypto"
  | Network => "network" | Vector => "vector" | Auth => "auth" | Llm => "llm"
  | Image => "image" | Embedding => "embedding"
  end.

(** [ResourceType::parse]. *)
Definition parse (s : string) : option t :=
  if s =s "db" then Some Db
  else if s =s "config" then Some Config
  else if s =s "storage" then Some Storage
  else if s =s "crypto" then Some Crypto
  else if s =s "network" then Some Network
  else if s =s "vector" then Some Vector
  else if s =s "auth" then Some Auth
  else if s =s "llm" then Some Llm
  else if s =s "image" then Some Image
  else if s =s "embedding" then Some Embedding
  else None.

(** [ResourceType::parse_stored]; the error carries the rejected text
    ([UnknownResourceType]). *)
Definition parse_stored (value : option string) : result (option t) string :=
  match value with
  | None => Ok None
  | Some s => if s =s "" then Ok None
              else match parse s with
                   | Some rt => Ok (Some rt)
                   | None => Err s
                   end
  end.
End ResourceType.

Module ResourceAccess.
Inductive t := Read | Append | Write.

#[global] Instance t_eq_dec : EqDecision t.
Proof. solve_decision. Defined.

Definition eqb (a b : t) : bool := bool_decide (a = b).
End ResourceAccess.

Module GrantWrite.
Inductive t := None | Full | Append.

#[global] Instance t_eq_dec : EqDecision t.
Proof. solve_decision. Defined.

(** The shapes of a serialized [write] field that the visitor distinguishes. *)
Inductive wire :=
| WBool (b : bool)
| WStr (s : string).

(** [Serialize for GrantWrite]. *)
Definition serialize (w : t) : wire :=
  match w with
  | None => WBool false
  | Full => WBool true
  | Append => WStr "append"
  end.

(** [Deserialize for GrantWrite]: [visit_bool] and [visit_str]. *)
Definition deserialize (w : wire) : option t :=
  match w with
  | WBool true => Some Full
  | WBool false => Some None
  | WStr s => if s =s "append" then Some Append else Datatypes.None
  end.
End GrantWrite.

Record ResourceGrant := mkGrant {
  grantee : string;
  g_resource : string;
  g_write : GrantWrite.t;
  g_type : option ResourceType.t
}.

(** ** Operations *)

Definition rt_eqb (a b : option ResourceType.t) : bool := bool_decide (a = b).

Definition grant_read (who res : string) : ResourceGrant :=
  mkGrant who res GrantWrite.None None.

Definition grant_read_write (who res : string) : ResourceGrant :=
  mkGrant who res GrantWrite.Full None.

Definition grant_append (who res : string) : ResourceGrant :=
  mkGrant who res GrantWrite.Append (Some ResourceType.Db).

Definition typed (g : ResourceGrant) (rt : ResourceType.t) : ResourceGrant :=
  mkGrant (grantee g) (g_resource g) (g_write g) (Some rt).

(** [ResourceGrant::admits]. *)
Definition admits (g : ResourceGrant) (access : ResourceAccess.t) : bool :=
  match g_write g with
  | GrantWrite.None => ResourceAccess.eqb access ResourceAccess.Read
  | GrantWrite.Full => true
  | GrantWrite.Append =>
      ResourceAccess.eqb access ResourceAccess.Append
      && rt_eqb (g_type g) (Some ResourceType.Db)
  end.

Inductive InvalidGrantShape := AppendNotDb.

(** [ResourceGrant::check_shape]. *)
Definition check_shape (g : ResourceGrant) : result unit InvalidGrantShape :=
  if bool_decide (g_write g = GrantWrite.Append)
     && negb (rt_eqb (g_type g) (Some ResourceType.Db))
  then Err AppendNotDb else Ok tt.

(** ** Facts *)

Lemma rt_eqb_true (a b : option ResourceType.t) : rt_eqb a b = true <-> a = b.
Proof. apply bool_decide_eq_true. Qed.

Lemma access_eqb_true (a b : ResourceAccess.t) : ResourceAccess.eqb a b = true <-> a = b.
Proof. apply bool_decide_eq_true. Qed.

Lemma parse_display (rt : ResourceType.t) :
  ResourceType.parse (ResourceType.display rt) = Some rt.
Proof. by destruct rt. Qed.

Lemma parse_some_display (s : string) (rt : ResourceType.t) :
  ResourceType.parse s = Some rt -> s = ResourceType.display rt.
Proof.
  unfold ResourceType.parse.
  repeat match goal with
  | |- context [if ?b then _ else _] =>
      destruct b eqn:?; [bool_to_prop; injection 1 as <-; reflexivity|]
  end. discriminate.
Qed.

(** What a grant admits, by its [write] field. *)
Lemma admits_spec (g : ResourceGrant) (a : ResourceAccess.t) :
  admits g a = true <->
  match g_write g with
  | GrantWrite.None => a = ResourceAccess.Read
  | GrantWrite.Full => True
  | GrantWrite.Append => a = ResourceAccess.Append /\ g_type g = Some ResourceType.Db
  end.
Proof.
  unfold admits. destruct (g_write g).
  - apply access_eqb_true.
  - done.
  - by rewrite andb_true_iff, access_eqb_true, rt_eqb_true.
Qed.
