(* ===== verification/Wrap.v ===== *)
(** WRAP, the resource access policy ([wafer-block/src/wrap.rs]): resource
    names and their owners, grant pattern matching (globs and structured
    URLs), the access decision [check_access] and the per-operation access
    table of the database service.

    Two pieces of code outside the repository are parameters: the Unicode
    lower-casing of [str::to_lowercase] (of which only its behaviour on ASCII
    text is used) and the [url] crate's parser. *)

From S2P Require Import Prelude CoreTypes Grants.

(** ** Parameters *)

(** The parts of a parsed [url::Url] the code reads. *)
Record Url := mkUrl {
  url_scheme : string;
  url_host_str : option string;
  url_port_or_known_default : option N;
  url_path : string
}.

(** [url::Url::parse]; [None] is its error. *)
Class UrlCrate := { url_parse : string -> option Url }.

(** ** Reserved resources *)

Definition RAW_SQL_RESOURCE : string := "__raw_sql__".
Definition DDL_RESOURCE : string := "__ddl__".
Definition SCHEMA_RESOURCE : string := "__schema__".
Definition STORAGE_LIST_ALL_RESOURCE : string := "__storage_list_all__".
Definition AUTH_USER_PROFILE_RESOURCE : string := "wafer_run__auth__user_profile".
Definition AUTH_REQUIRE_USER_RESOURCE : string := "wafer_run__auth__require_user".
Definition AUTH_REQUIRE_TOKEN_RESOURCE : string := "wafer_run__auth__require_token".
Definition AUTH_REQUIRE_ROLE_RESOURCE : string := "wafer_run__auth__require_role".
Definition WAFER_RUN_SHARED_PREFIX : string := "WAFER_RUN_SHARED__".

Definition is_auth_credential_resource (resource : string) : bool :=
  (resource =s AUTH_REQUIRE_USER_RESOURCE)
  || (resource =s AUTH_REQUIRE_TOKEN_RESOURCE)
  || (resource =s AUTH_REQUIRE_ROLE_RESOURCE).

(** ** Resource names and owners *)

(** [resource_prefix]: [my-org/auth] becomes [my_org__auth__]. *)
Definition resource_prefix (block_id : string) : string :=
  replace_char "-" "_" (replace_char "/" "__" block_id) +:+ "__".

(** [model_resource]; the error is the [InvalidArgument] of a backend id that
    contains a slash. *)
Definition model_resource (block backend_id model_id : string) : result string ErrorCode.t :=
  if contains "/" backend_id then Err ErrorCode.InvalidArgument
  else Ok (resource_prefix block +:+ backend_id +:+ "/" +:+ model_id).

(** [op_resource]: the operation name after its family's dot. *)
Definition op_resource (block op : string) : string :=
  let name := match split_once "." op with Some (_, n) => n | None => op end in
  resource_prefix block +:+ name.

Section Owners.
Context `{UnicodeLower}.

(** [resource_owner]. *)
Definition resource_owner (name : string) : option string :=
  let lower := to_lowercase name in
  match find "__" lower with
  | None => None
  | Some first =>
      let rest := str_drop (first + 2) lower in
      match find "__" rest with
      | None => None
      | Some second =>
          let prefix := str_take (first + 2 + second) lower in
          Some (replace_char "_" "-" (replace "__" "/" prefix))
      end
  end.

(** [storage_resource_owner]: the first two pieces of [splitn(3, '/')]. *)
Definition storage_resource_owner (path : string) : option string :=
  match split_once "/" path with
  | None => None
  | Some (org, rest) =>
      let block := match split_once "/" rest with Some (b, _) => b | None => rest end in
      if is_empty org || is_empty block then None
      else Some (org +:+ "/" +:+ block)
  end.

(** [is_traversal_safe_path]. *)
Definition unsafe_segment (segment : string) : bool :=
  is_empty segment || (segment =s ".") || (segment =s "..") || contains "\" segment.

Definition is_traversal_safe_path (path : string) : bool :=
  negb (existsb unsafe_segment (split "/" path)).

(** [typed_resource_owner]. *)
Definition typed_resource_owner (resource : string) (rt : option ResourceType.t)
  : option string :=
  match rt with
  | Some ResourceType.Storage => storage_resource_owner resource
  | _ => resource_owner resource
  end.
End Owners.

(** ** Grant patterns *)

(** The loop of [glob_matches] over the pieces between the stars: [i0] tells
    the first piece, [res] is [resource[pos..]]; the result is what is left of
    the resource after the last piece. *)
Fixpoint glob_parts (i0 : bool) (parts : list string) (res : string) : option string :=
  match parts with
  | [] => Some res
  | part :: parts' =>
      if is_empty part then glob_parts false parts' res
      else match find part res with
           | None => None
           | Some found =>
               if i0 && negb (found =? 0) then None
               else glob_parts false parts' (str_drop (found + String.length part) res)
           end
  end.

(** [glob_matches]. *)
Definition glob_matches (pattern resource : string) : bool :=
  let parts := split "*" pattern in
  if length parts =? 1 then resource =s pattern
  else match glob_parts true parts resource with
       | None => false
       | Some rest => if negb (ends_with "*" pattern) then is_empty rest else true
       end.

Definition is_url_pattern (s : string) : bool :=
  starts_with "http://" s || starts_with "https://" s.

(** [host_pattern_matches]. *)
Definition host_pattern_matches (pattern host : string) : bool :=
  let pattern := to_ascii_lowercase pattern in
  let host := to_ascii_lowercase host in
  if pattern =s "*" then true
  else match strip_prefix "**." pattern with
       | Some suffix => (host =s suffix) || ends_with ("." +:+ suffix) host
       | None =>
           match strip_prefix "*." pattern with
           | Some suffix =>
               match strip_suffix ("." +:+ suffix) host with
               | None => false
               | Some rest => negb (is_empty rest) && negb (contains "." rest)
               end
           | None => pattern =s host
           end
       end.

(** [host_matches]. *)
Definition host_matches (pattern resource : option string) : bool :=
  match pattern, resource with
  | Some p, Some r => host_pattern_matches p r
  | None, None => true
  | _, _ => false
  end.

(** [path_matches]. *)
Definition path_matches (pattern path : string) : bool :=
  match strip_suffix "/*" pattern with
  | Some prefix => (path =s prefix) || starts_with (prefix +:+ "/") path
  | None => if pattern =s "*" then true else pattern =s path
  end.

Definition STAR_SENTINEL : string := "wafer-star-placeholder".

Section Access.
Context `{UnicodeLower} `{UrlCrate}.

(** [url_pattern_matches]. *)
Definition url_pattern_matches (pattern resource : string) : bool :=
  let prepared_pattern := replace_char "*" STAR_SENTINEL pattern in
  match url_parse prepared_pattern, url_parse resource with
  | Some parsed_pattern, Some parsed_resource =>
      if negb (url_scheme parsed_pattern =s url_scheme parsed_resource) then false
      else
        let pattern_host := option_map (replace STAR_SENTINEL "*") (url_host_str parsed_pattern) in
        if negb (host_matches pattern_host (url_host_str parsed_resource)) then false
        else path_matches (replace STAR_SENTINEL "*" (url_path parsed_pattern))
                          (url_path parsed_resource)
  | _, _ => false
  end.

(** [grant_matches_resource]. *)
Definition grant_matches_resource (pattern resource : string) : bool :=
  if pattern =s "*" then true
  else if is_url_pattern pattern then url_pattern_matches pattern resource
  else glob_matches pattern resource.

Definition grant_matches_grantee (grantee caller : string) : bool :=
  (grantee =s "*") || (grantee =s caller).

(** [grant_allows]. *)
Definition grant_allows (g : ResourceGrant) (caller resource : string)
    (access : ResourceAccess.t) (rt : option ResourceType.t) : bool :=
  if negb (grant_matches_grantee (grantee g) caller) then false
  else if negb (grant_matches_resource (g_resource g) resource) then false
  else if negb (admits g access) then false
  else match g_type g with
       | None => true
       | Some grant_type => rt_eqb rt (Some grant_type)
       end.

(** Where [check_access] refused; every refusal is [PermissionDenied]. *)
Inductive denial :=
| RawSqlDenied | DdlAnonymous | AuthCredentialAnonymous
| SharedWriteDenied | SharedReadAnonymous
| Unnamespaced | NamespaceDenied
| ListAllDenied | UnsafePath | DefaultDeny.

Definition denial_code (_ : denial) : ErrorCode.t := ErrorCode.PermissionDenied.

Definition namespace_based (rt : option ResourceType.t) : bool :=
  match rt with
  | Some ResourceType.Network | Some ResourceType.Storage | Some ResourceType.Crypto => false
  | _ => true
  end.

Definition is_shared (resource : string) : bool :=
  let n := String.length WAFER_RUN_SHARED_PREFIX in
  (n <=? String.length resource)
  && eq_ignore_ascii_case (str_take n resource) WAFER_RUN_SHARED_PREFIX.

Definition is_caller (caller_id : option string) (who : string) : bool :=
  match caller_id with Some c => c =s who | None => false end.

Definition guard (b : bool) (d : denial) : result unit denial :=
  if b then Ok tt else Err d.

Definition some_grant_allows (grants : list ResourceGrant) (caller_id : option string)
    (resource : string) (access : ResourceAccess.t) (rt : option ResourceType.t) : bool :=
  match caller_id with
  | Some caller => existsb (fun g => grant_allows g caller resource access rt) grants
  | None => false
  end.

(** [check_access]. *)
Definition check_access (caller_id : option string) (resource : string)
    (access : ResourceAccess.t) (rt : option ResourceType.t)
    (grants : list ResourceGrant) (admin_block : string) : result unit denial :=
  if namespace_based rt then
    (* Rule 1 *)
    if resource =s RAW_SQL_RESOURCE then guard (is_caller caller_id admin_block) RawSqlDenied
    (* Rule 1a *)
    else if (resource =s DDL_RESOURCE) || (resource =s SCHEMA_RESOURCE)
    then guard (is_some caller_id) DdlAnonymous
    (* Rule 1b *)
    else if rt_eqb rt (Some ResourceType.Auth) && is_auth_credential_resource resource
    then guard (is_some caller_id) AuthCredentialAnonymous
    (* Rule 2 *)
    else if is_shared resource then
      if negb (ResourceAccess.eqb access ResourceAccess.Read)
      then guard (is_caller caller_id admin_block) SharedWriteDenied
      else guard (is_some caller_id) SharedReadAnonymous
    else
      let owner := resource_owner resource in
      (* Rule 3 *)
      if match owner with Some o => is_caller caller_id o | None => false end then Ok tt
      (* Rule 4 *)
      else if is_caller caller_id admin_block then Ok tt
      (* Rule 5 *)
      else if some_grant_allows grants caller_id resource access rt then Ok tt
      (* Rules 6 and 7 *)
      else match owner with None => Err Unnamespaced | Some _ => Err NamespaceDenied end
  else
    let is_storage := rt_eqb rt (Some ResourceType.Storage) in
    if is_storage && (resource =s STORAGE_LIST_ALL_RESOURCE)
    then guard (is_caller caller_id admin_block) ListAllDenied
    else if is_storage && negb (is_traversal_safe_path resource) then Err UnsafePath
    else if is_storage
            && match caller_id, storage_resource_owner resource with
               | Some c, Some o => o =s c
               | _, _ => false
               end
    then Ok tt
    else if is_caller caller_id admin_block then Ok tt
    else if some_grant_allows grants caller_id resource access rt then Ok tt
    else Err DefaultDeny.
End Access.

(** ** Access of the database operations *)

Module DatabaseOpAccess.
Inductive t :=
| On (accesses : list ResourceAccess.t)
| PerWrite.
End DatabaseOpAccess.

(** [ServiceOp::DATABASE_OPS] ([common/service_names.rs]). *)
Definition DATABASE_OPS : list string :=
  ["database.get"; "database.list"; "database.create"; "database.create_many";
   "database.batch"; "database.insert_guarded"; "database.update_guarded";
   "database.update"; "database.update_where"; "database.update_where_count";
   "database.delete"; "database.delete_where"; "database.delete_where_count";
   "database.take_where"; "database.count"; "database.sum"; "database.aggregate";
   "database.increment_field_where"; "database.upsert"; "database.query_raw";
   "database.exec_raw"; "database.ddl"; "database.ddl_transaction";
   "database.ensure_table"; "database.add_column"; "database.drop_table";
   "database.table_exists"; "database.catalog_tables"; "database.catalog_columns";
   "database.catalog_row_count"].

(** [DATABASE_OP_ACCESS]. *)
Definition DATABASE_OP_ACCESS : list (string * DatabaseOpAccess.t) :=
  let On := DatabaseOpAccess.On in
  let Read := ResourceAccess.Read in
  let Write := ResourceAccess.Write in
  let Append := ResourceAccess.Append in
  [("database.get", On [Read]);
   ("database.list", On [Read]);
   ("database.create", On [Append]);
   ("database.create_many", On [Append]);
   ("database.batch", DatabaseOpAccess.PerWrite);
   ("database.insert_guarded", On [Append; Read]);
   ("database.update_guarded", On [Write]);
   ("database.update", On [Write]);
   ("database.update_where", On [Write]);
   ("database.update_where_count", On [Write]);
   ("database.delete", On [Write]);
   ("database.delete_where", On [Write]);
   ("database.delete_where_count", On [Write]);
   ("database.take_where", On [Write]);
   ("database.count", On [Read]);
   ("database.sum", On [Read]);
   ("database.aggregate", On [Read]);
   ("database.increment_field_where", On [Write]);
   ("database.upsert", On [Write]);
   ("database.query_raw", On [Read]);
   ("database.exec_raw", On [Write]);
   ("database.ddl", On [Write]);
   ("database.ddl_transaction", On [Write]);
   ("database.ensure_table", On [Write]);
   ("database.add_column", On [Write]);
   ("database.drop_table", On [Write]);
   ("database.table_exists", On [Read]);
   ("database.catalog_tables", On [Read]);
   ("database.catalog_columns", On [Read]);
   ("database.catalog_row_count", On [Read])].

(** [database_op_access]. *)
Definition database_op_access (op : string) : option DatabaseOpAccess.t :=
  option_map snd (List.find (fun '(name, _) => name =s op) DATABASE_OP_ACCESS).
