(* ===== verification/BlockName.v ===== *)
(** Block names ([validate_block_name] in [wafer-run/src/runtime.rs]) and the
    namespaces they own: the resource prefix of a valid name determines the
    name, so distinct blocks have disjoint namespaces. *)

From S2P Require Import Prelude CoreTypes Grants Wrap.

(** ** Validation *)

Definition MAX_IDENT_LEN : nat := 63.
Definition MAX_BLOCK_NAME_LEN : nat := MAX_IDENT_LEN - 4.

(** The reasons of [RuntimeError::InvalidBlockName]. *)
Inductive invalid_block_name :=
| NameTooLong | NotOrgBlock | NotOneSlash | EmptySegment | UnderscoreInSegment
| ConsecutiveHyphens | HyphenAtEdge | ForbiddenChar.

Fixpoint count_char (c : ascii) (s : string) : nat :=
  match s with
  | EmptyString => 0
  | String a s' => (if Ascii.eqb a c then 1 else 0) + count_char c s'
  end.

Definition name_char (c : ascii) : bool :=
  is_ascii_lowercase c || is_ascii_digit c || Ascii.eqb c "-".

(** The checks of one segment of the name. *)
Definition validate_segment (segment : string) : result unit invalid_block_name :=
  if is_empty segment then Err EmptySegment
  else if contains "_" segment then Err UnderscoreInSegment
  else if contains "--" segment then Err ConsecutiveHyphens
  else if starts_with "-" segment || ends_with "-" segment then Err HyphenAtEdge
  else if negb (str_forallb name_char segment) then Err ForbiddenChar
  else Ok tt.

(** [validate_block_name]. *)
Definition validate_block_name (name : string) : result unit invalid_block_name :=
  if MAX_BLOCK_NAME_LEN <? String.length name then Err NameTooLong
  else match split_once "/" name with
       | None => Err NotOrgBlock
       | Some (org, block) =>
           if negb (count_char "/" name =? 1) then Err NotOneSlash
           else let? _ := validate_segment org in validate_segment block
       end.

Definition valid_block_name (name : string) : Prop := validate_block_name name = Ok tt.

(** ** Segments without doubled separators *)

(** No two adjacent [sep], and none at the end ([prev]: the character before
    was [sep]). *)
Fixpoint single_sep (sep : ascii) (prev : bool) (s : string) : bool :=
  match s with
  | EmptyString => negb prev
  | String c s' => if Ascii.eqb c sep then negb prev && single_sep sep true s'
                   else single_sep sep false s'
  end.

Lemma single_sep_of_checks (c : ascii) (s : string) :
  contains (String c (String c "")) s = false ->
  ends_with (String c "") s = false ->
  single_sep c false s = true.
Proof.
  induction s as [|a s IH]; simpl; intros Hc He; [done|].
  assert (Hc' : contains (String c (String c "")) s = false).
  { apply not_true_is_false. intros (x & y & ->)%contains_spec.
    apply not_true_iff_false in Hc. apply Hc, contains_spec.
    by exists (String a x), y. }
  assert (He' : s = "" \/ ends_with (String c "") s = false).
  { destruct s as [|b s]; [by left|right]. apply not_true_is_false.
    intros [r Hr]%ends_with_spec. apply not_true_iff_false in He. apply He, ends_with_spec.
    exists (String a r). by rewrite Hr. }
  destruct (Ascii.eqb_spec a c) as [->|Hne]; simpl.
  - destruct s as [|b s].
    + apply not_true_iff_false in He. exfalso. by apply He, ends_with_spec; exists "".
    + destruct He' as [|He']; [discriminate|]. specialize (IH Hc' He'). simpl in *.
      destruct (Ascii.eqb_spec b c) as [->|]; [|done].
      apply not_true_iff_false in Hc. exfalso. apply Hc, contains_spec. by exists "", s.
  - destruct He' as [->|He']; [done|]. auto.
Qed.

Lemma single_sep_cons (c a : ascii) (s t : string) :
  single_sep c false (String a s) = true ->
  starts_with (String c (String c "")) (String a (s +:+ t)) = false
  /\ single_sep c false s = true.
Proof.
  unfold starts_with. simpl. rewrite (Ascii.eqb_sym c a).
  destruct (Ascii.eqb_spec a c) as [->|Hne]; [|done].
  destruct s as [|b s]; [discriminate|]. simpl. rewrite (Ascii.eqb_sym c b).
  by destruct (Ascii.eqb_spec b c).
Qed.

Lemma find_single_sep (c : ascii) (s t : string) :
  single_sep c false s = true ->
  find (String c (String c "")) (s +:+ String c (String c "") +:+ t) = Some (String.length s).
Proof.
  induction s as [|a s IH]; intros Hs.
  - simpl. unfold starts_with. simpl. by rewrite Ascii.eqb_refl.
  - destruct (single_sep_cons _ _ _ (String c (String c "") +:+ t) Hs) as [Hn Hs'].
    rewrite (str_cons_app a), find_cons, Hn, (IH Hs'). done.
Qed.

Lemma replace_go_single_sep (c : ascii) (s t r : string) :
  single_sep c false s = true ->
  replace_go (String c (String c "")) r 0 (s +:+ String c (String c "") +:+ t)
  = s +:+ r +:+ replace (String c (String c "")) r t.
Proof.
  induction s as [|a s IH]; intros Hs.
  - simpl. unfold starts_with. simpl. by rewrite Ascii.eqb_refl.
  - destruct (single_sep_cons _ _ _ (String c (String c "") +:+ t) Hs) as [Hn Hs'].
    by rewrite !(str_cons_app a), replace_go_cons, Hn, (IH Hs').
Qed.

Lemma replace_single_sep_id (c : ascii) (s r : string) :
  single_sep c false s = true -> replace (String c (String c "")) r s = s.
Proof.
  unfold replace. induction s as [|a s IH]; intros Hs; [done|].
  destruct (single_sep_cons _ _ _ "" Hs) as [Hn Hs']. rewrite str_app_nil_r in Hn.
  by rewrite replace_go_cons, Hn, (IH Hs').
Qed.

(** Replacing one character by another and back. *)
Lemma replace_char_absent (c : ascii) (r s : string) :
  str_forallb (fun a => negb (Ascii.eqb a c)) s = true -> replace_char c r s = s.
Proof.
  induction s as [|a s IH]; simpl; [done|].
  destruct (Ascii.eqb a c); simpl; [discriminate|]. intros H. by rewrite IH.
Qed.

Lemma replace_char_app (c : ascii) (r a b : string) :
  replace_char c r (a +:+ b) = replace_char c r a +:+ replace_char c r b.
Proof.
  induction a as [|x a IH]; simpl; [done|].
  destruct (Ascii.eqb x c); rewrite IH; simpl; [by rewrite str_app_assoc|done].
Qed.

Lemma replace_char_back (c d : ascii) (s : string) :
  str_forallb (fun a => negb (Ascii.eqb a d)) s = true ->
  replace_char d (String c "") (replace_char c (String d "") s) = s.
Proof.
  induction s as [|a s IH]; simpl; [done|].
  rewrite andb_true_iff. intros [Ha Hs]. specialize (IH Hs).
  destruct (Ascii.eqb_spec a c) as [->|Hne]; simpl.
  - by rewrite Ascii.eqb_refl; simpl; rewrite IH.
  - destruct (Ascii.eqb a d); [discriminate|]. by rewrite IH.
Qed.

Lemma single_sep_replace (c d : ascii) (s : string) (prev : bool) :
  str_forallb (fun a => negb (Ascii.eqb a d)) s = true ->
  single_sep d prev (replace_char c (String d "") s) = single_sep c prev s.
Proof.
  revert prev; induction s as [|a s IH]; intros prev; simpl; [done|].
  rewrite andb_true_iff. intros [Ha Hs].
  destruct (Ascii.eqb_spec a c) as [->|Hne]; simpl.
  - rewrite Ascii.eqb_refl. by rewrite IH.
  - destruct (Ascii.eqb a d); [discriminate|]. by rewrite IH.
Qed.

(** ** The shape of a valid name *)

(** A segment as validation leaves it. *)
Record good_segment (s : string) : Prop := {
  gs_nonempty : s <> "";
  gs_chars : str_forallb name_char s = true;
  gs_single : single_sep "-" false s = true
}.

Lemma validate_segment_good (s : string) : validate_segment s = Ok tt -> good_segment s.
Proof.
  unfold validate_segment.
  destruct (is_empty s) eqn:He; [discriminate|].
  destruct (contains "_" s); [discriminate|].
  destruct (contains "--" s) eqn:Hc; [discriminate|].
  destruct (starts_with "-" s || ends_with "-" s) eqn:Hb; [discriminate|].
  destruct (str_forallb name_char s) eqn:Hf; [|discriminate]. intros _.
  apply orb_false_iff in Hb as [_ Hend]. split; [by destruct s|done|].
  by apply single_sep_of_checks.
Qed.

Lemma split_once_Some (c : ascii) (s l r : string) :
  split_once c s = Some (l, r) ->
  s = l +:+ String c r /\ str_forallb (fun a => negb (Ascii.eqb a c)) l = true.
Proof.
  revert l; induction s as [|a s IH]; intros l; simpl; [discriminate|].
  destruct (Ascii.eqb_spec a c) as [->|Hne].
  - by injection 1 as <- <-.
  - destruct (split_once c s) as [[l' r']|] eqn:E; [|discriminate].
    injection 1 as <- <-. destruct (IH l' eq_refl) as [-> Hl]. simpl.
    rewrite (proj2 (Ascii.eqb_neq a c)) by done. done.
Qed.

Lemma split_once_app (c : ascii) (l r : string) :
  str_forallb (fun a => negb (Ascii.eqb a c)) l = true ->
  split_once c (l +:+ String c r) = Some (l, r).
Proof.
  induction l as [|a l IH]; simpl; intros Hl.
  - by rewrite Ascii.eqb_refl.
  - apply andb_true_iff in Hl as [Ha Hl]. destruct (Ascii.eqb a c); [discriminate|].
    by rewrite IH.
Qed.

Lemma split_once_app_sep (c : ascii) (l r : string) :
  str_forallb (fun a => negb (Ascii.eqb a c)) l = true ->
  split_once c (l +:+ String c "" +:+ r) = Some (l, r).
Proof. apply split_once_app. Qed.

Lemma valid_block_name_shape (name : string) :
  valid_block_name name ->
  exists org block, name = org +:+ "/" +:+ block /\ good_segment org /\ good_segment block.
Proof.
  unfold valid_block_name, validate_block_name.
  destruct (_ <? _); [discriminate|].
  destruct (split_once "/" name) as [[org block]|] eqn:E; [|discriminate].
  destruct (negb _); [discriminate|]. simpl.
  destruct (validate_segment org) as [[]|] eqn:Eo; [|discriminate]. simpl. intros Eb.
  apply split_once_Some in E as [-> _].
  exists org, block. auto using validate_segment_good.
Qed.

Lemma name_char_not (c d : ascii) :
  name_char c = true -> name_char d = false -> negb (Ascii.eqb c d) = true.
Proof. intros Hc Hd. destruct (Ascii.eqb_spec c d) as [->|]; [congruence|done]. Qed.

Lemma segment_lacks (s : string) (d : ascii) :
  good_segment s -> name_char d = false ->
  str_forallb (fun a => negb (Ascii.eqb a d)) s = true.
Proof.
  intros [_ H _] Hd. eapply str_forallb_impl; [|exact H]. intros c Hc. by apply name_char_not.
Qed.

(** The encoding of a segment inside a resource name. *)
Definition seg_enc (s : string) : string := replace_char "-" "_" s.

Lemma resource_prefix_shape (org block : string) :
  good_segment org -> good_segment block ->
  resource_prefix (org +:+ "/" +:+ block)
  = seg_enc org +:+ "__" +:+ seg_enc block +:+ "__".
Proof.
  intros Ho Hb. unfold resource_prefix, seg_enc.
  rewrite replace_char_app, (replace_char_absent "/" _ org)
    by (apply segment_lacks; [done|reflexivity]).
  simpl. rewrite (replace_char_absent "/" _ block)
    by (apply segment_lacks; [done|reflexivity]).
  rewrite replace_char_app. simpl. by rewrite <- str_app_assoc.
Qed.

(** Lower-case ASCII text is a fixed point of lower-casing. *)
Definition lower_char (c : ascii) : bool := is_ascii_char c && negb (is_ascii_uppercase c).

Lemma to_ascii_lowercase_id (s : string) :
  str_forallb lower_char s = true -> to_ascii_lowercase s = s /\ is_ascii s = true.
Proof.
  unfold to_ascii_lowercase, is_ascii, lower_char.
  induction s as [|c s IH]; simpl; [done|].
  rewrite !andb_true_iff. intros [[Hc Hu] Hs]. destruct (IH Hs) as [-> ->].
  unfold ascii_lower. apply negb_true_iff in Hu. by rewrite Hu, Hc.
Qed.

Lemma name_char_lower (c : ascii) : name_char c = true -> lower_char c = true.
Proof.
  unfold name_char, lower_char, is_ascii_lowercase, is_ascii_digit, is_ascii_char,
    is_ascii_uppercase, in_range. intros H.
  apply orb_true_iff in H as [H|H].
  - rewrite !andb_true_iff, negb_true_iff, andb_false_iff, !N.leb_gt, N.ltb_lt.
    apply orb_true_iff in H; rewrite !andb_true_iff, !N.leb_le in H. lia.
  - apply Ascii.eqb_eq in H as ->. reflexivity.
Qed.

Lemma seg_enc_lower (s : string) : good_segment s -> str_forallb lower_char (seg_enc s) = true.
Proof.
  intros [_ H _]. unfold seg_enc. induction s as [|c s IH]; simpl in *; [done|].
  apply andb_true_iff in H as [Hc Hs]. specialize (IH Hs).
  destruct (Ascii.eqb c "-"); simpl; rewrite IH; [done|]. by rewrite name_char_lower.
Qed.

Lemma seg_enc_single (s : string) :
  good_segment s -> single_sep "_" false (seg_enc s) = true.
Proof.
  intros Hs. unfold seg_enc. rewrite single_sep_replace by (apply segment_lacks; done).
  by destruct Hs.
Qed.

Lemma seg_enc_back (s : string) :
  good_segment s -> replace_char "_" "-" (seg_enc s) = s.
Proof. intros Hs. apply replace_char_back. by apply segment_lacks. Qed.

Section OwnerFacts.
Context `{UnicodeLower}.

(** What [resource_owner] reads off a lowered name that starts with an encoded
    [org__block__]. *)
Lemma resource_owner_of_lower (name o b t : string) :
  to_lowercase name = o +:+ "__" +:+ b +:+ "__" +:+ t ->
  single_sep "_" false o = true -> single_sep "_" false b = true ->
  resource_owner name = Some (replace_char "_" "-" o +:+ "/" +:+ replace_char "_" "-" b).
Proof.
  intros Hl Ho Hb. unfold resource_owner. rewrite Hl, find_single_sep by done.
  rewrite str_drop_app_plus.
  change (str_drop 2 ("__" +:+ (b +:+ "__" +:+ t))) with (b +:+ "__" +:+ t).
  rewrite find_single_sep by done.
  replace (String.length o + 2 + String.length b)
    with (String.length o + (2 + String.length b)) by lia.
  rewrite str_take_app_plus.
  change (str_take (2 + String.length b) ("__" +:+ (b +:+ "__" +:+ t)))
    with ("__" +:+ str_take (String.length b) (b +:+ "__" +:+ t)).
  rewrite str_take_app. unfold replace.
  rewrite replace_go_single_sep, (replace_single_sep_id "_" b) by done.
  by rewrite !replace_char_app.
Qed.

(** Round trip: every resource under a valid block's prefix is owned by that
    block. *)
Lemma resource_owner_prefix (name rest : string) :
  valid_block_name name -> resource_owner (resource_prefix name +:+ rest) = Some name.
Proof.
  intros (org & block & -> & Ho & Hb)%valid_block_name_shape.
  rewrite resource_prefix_shape by done.
  set (p := seg_enc org +:+ "__" +:+ seg_enc block +:+ "__").
  assert (Hp : str_forallb lower_char p = true).
  { unfold p. rewrite !str_forallb_app, !seg_enc_lower by done. reflexivity. }
  apply to_ascii_lowercase_id in Hp as [Hid Hasc].
  destruct (to_lowercase_ascii_prefix p rest Hasc) as [t Ht]. rewrite Hid in Ht.
  rewrite (resource_owner_of_lower _ (seg_enc org) (seg_enc block) t).
  - by rewrite !seg_enc_back.
  - rewrite Ht. unfold p. by rewrite <- !str_app_assoc.
  - by apply seg_enc_single.
  - by apply seg_enc_single.
Qed.

(** Distinct blocks have disjoint namespaces. *)
Lemma resource_prefix_disjoint (b1 b2 r : string) :
  valid_block_name b1 -> valid_block_name b2 ->
  starts_with (resource_prefix b1) r = true -> starts_with (resource_prefix b2) r = true ->
  b1 = b2.
Proof.
  intros H1 H2 [r1 ->]%starts_with_spec [r2 E]%starts_with_spec.
  pose proof (resource_owner_prefix b1 r1 H1) as E1.
  rewrite E, (resource_owner_prefix b2 r2 H2) in E1. congruence.
Qed.
End OwnerFacts.
