(* ===== verification/WrapGlob.v ===== *)
(** The grant pattern matchers of [wrap.rs] against their meaning.

    [glob] is the textbook reading of a pattern: a star stands for any text,
    every other character for itself.  The code's left-to-right scan
    [glob_matches] never matches more than that; it matches exactly that for
    patterns that end in a star or hold none, and it misses some matches of a
    pattern whose last piece follows a star. *)

From S2P Require Import Prelude CoreTypes Grants Wrap.

(** ** The meaning of a pattern *)

Inductive glob : string -> string -> Prop :=
| glob_nil : glob "" ""
| glob_char c p r : c <> "*"%char -> glob p r -> glob (String c p) (String c r)
| glob_star_none p r : glob p r -> glob (String "*" p) r
| glob_star_more p c r : glob (String "*" p) r -> glob (String "*" p) (String c r).

(** The same by pieces: the first piece is anchored at the start, the last at
    the end, and arbitrary text may stand in between. *)
Fixpoint pieces_match (ws : list string) (r : string) : Prop :=
  match ws with
  | [] => False
  | [w] => r = w
  | w :: ws' => exists x r', r = w +:+ x +:+ r' /\ pieces_match ws' r'
  end.

(** The pieces in order with arbitrary text before each, [rest] left over. *)
Fixpoint float (ws : list string) (r rest : string) : Prop :=
  match ws with
  | [] => r = rest
  | w :: ws' => exists x r', r = x +:+ w +:+ r' /\ float ws' r' rest
  end.

Lemma pieces_cons (w : string) (ws : list string) (r : string) :
  ws <> [] ->
  pieces_match (w :: ws) r <-> exists x r', r = w +:+ x +:+ r' /\ pieces_match ws r'.
Proof. by destruct ws. Qed.

Lemma glob_star_app (p x r : string) : glob p r -> glob (String "*" p) (x +:+ r).
Proof.
  intros H. induction x as [|c x IH]; simpl; [by apply glob_star_none|].
  by apply glob_star_more.
Qed.

Lemma glob_star_inv (p r : string) : glob (String "*" p) r -> exists x r', r = x +:+ r' /\ glob p r'.
Proof.
  intros H. remember (String "*" p) as q eqn:Eq. induction H; simplify_eq/=.
  - by eexists "", _.
  - destruct (IHglob eq_refl) as (x & r' & -> & Hg). by exists (String c x), r'.
Qed.

Lemma glob_pieces (p r : string) : glob p r <-> pieces_match (split "*" p) r.
Proof.
  revert r; induction p as [|c p IH]; intros r.
  - simpl. split; [by inversion 1|intros ->; constructor].
  - simpl. destruct (Ascii.eqb_spec c "*") as [->|Hne].
    + rewrite pieces_cons by apply split_not_nil. split.
      * intros (x & r' & -> & Hg)%glob_star_inv. exists x, r'. by rewrite <- IH.
      * intros (x & r' & -> & Hg). apply (glob_star_app p x r'). by apply IH.
    + destruct (split "*" p) as [|w ws] eqn:E; [by destruct (split_not_nil "*" p)|].
      split.
      * inversion 1 as [|c' p' r' Hc Hg| |]; simplify_eq/=. apply IH in Hg.
        destruct ws; simpl in *; [by subst|].
        destruct Hg as (x & r'' & -> & Hr). by exists x, r''.
      * intros Hm. assert (exists r', r = String c r' /\ pieces_match (w :: ws) r')
          as (r' & -> & Hr').
        { destruct ws; [by exists w|]. destruct Hm as (x & r' & -> & Hr).
          exists (w +:+ x +:+ r'). split; [done|]. by exists x, r'. }
        apply glob_char; [done|]. by apply IH.
Qed.

(** ** The scan *)

Lemma find_str_split (w r : string) (i : nat) :
  find w r = Some i ->
  r = str_take i r +:+ w +:+ str_drop (i + String.length w) r.
Proof.
  intros (a & b & -> & <-)%find_Some.
  by rewrite str_take_app, str_drop_app_plus, str_drop_app.
Qed.

Lemma glob_parts_float (ws : list string) (r rest : string) :
  glob_parts false ws r = Some rest -> float ws r rest.
Proof.
  revert r; induction ws as [|w ws IH]; intros r; simpl; [congruence|].
  destruct (is_empty w) eqn:Ew.
  - apply is_empty_spec in Ew as ->. intros H. exists "", r. auto.
  - destruct (find w r) as [i|] eqn:Ef; [|discriminate]. intros H.
    exists (str_take i r), (str_drop (i + String.length w) r).
    split; [by apply find_str_split|auto].
Qed.

Lemma float_weaken (ws : list string) (y r rest : string) :
  float ws r rest -> exists rest', float ws (y +:+ r) rest'.
Proof.
  destruct ws as [|w ws]; simpl; [by eauto|].
  intros (x & r' & -> & H). exists rest, (y +:+ x), r'. by rewrite str_app_assoc.
Qed.

(** The scan finds a match whenever there is one: taking the leftmost
    occurrence leaves a longer remainder. *)
Lemma float_glob_parts (ws : list string) (r rest : string) :
  float ws r rest -> exists rest', glob_parts false ws r = Some rest'.
Proof.
  revert r rest; induction ws as [|w ws IH]; intros r rest; simpl; [by eauto|].
  intros (x & r' & -> & H).
  destruct (is_empty w) eqn:Ew.
  - apply is_empty_spec in Ew as ->. destruct (float_weaken ws x r' rest H) as [? ?]. eauto.
  - destruct (find_first w x r') as (i & Hf & Hi). rewrite Hf.
    pose proof (find_str_split _ _ _ Hf) as E.
    assert (exists y, str_drop (i + String.length w) (x +:+ w +:+ r') = y +:+ r') as [y ->].
    { exists (str_drop (i + String.length w) (x +:+ w)).
      rewrite (str_app_assoc x). clear E Hf.
      assert (Hl : i + String.length w <= String.length (x +:+ w))
        by (rewrite str_length_app; lia).
      revert Hl. generalize (i + String.length w) (x +:+ w).
      intros n s; revert n; induction s as [|c s IHs]; intros [|n]; simpl; intros; try done;
        try lia. apply IHs. lia. }
    destruct (float_weaken ws y r' rest H) as [? ?]. eauto.
Qed.

Lemma pieces_of_float (ws : list string) (r rest : string) :
  ws <> [] -> float ws r rest -> rest = "" \/ last ws = Some "" ->
  exists x r', r = x +:+ r' /\ pieces_match ws r'.
Proof.
  revert r; induction ws as [|w ws IH]; intros r Hne Hf Hend; [done|].
  simpl in Hf. destruct Hf as (x & r' & -> & Hf).
  destruct ws as [|v ws].
  - simpl in *. subst r'. destruct Hend as [->|[= ->]].
    + exists x, w. by rewrite str_app_nil_r.
    + exists (x +:+ rest), "". simpl. by rewrite str_app_nil_r.
  - destruct (IH r') as (y & r'' & -> & Hm); [done|done|by destruct Hend; [left|right]|].
    exists x, (w +:+ y +:+ r''). split; [done|]. rewrite pieces_cons by done. eauto.
Qed.

Lemma float_of_pieces (ws : list string) (r : string) :
  pieces_match ws r -> float ws r "".
Proof.
  revert r; induction ws as [|w ws IH]; intros r; [done|].
  destruct ws as [|v ws].
  - simpl. intros ->. exists "", "". by rewrite str_app_nil_r.
  - rewrite pieces_cons by done. intros (x & r' & -> & Hm).
    destruct (IH r' Hm) as (y & r'' & -> & Hf). exists "", (x +:+ y +:+ v +:+ r'').
    split; [done|]. exists (x +:+ y), r''. by rewrite <- str_app_assoc.
Qed.

Lemma last_split_star (p : string) :
  ends_with "*" p = true <-> last (split "*" p) = Some "" /\ length (split "*" p) <> 1.
Proof.
  rewrite ends_with_spec. split.
  - intros [r ->]. induction r as [|c r IH]; simpl; [done|].
    destruct (Ascii.eqb c "*").
    + destruct (split "*" (r +:+ "*")) as [|w ws] eqn:E; [by destruct (split_not_nil _ _ E)|].
      by destruct IH.
    + destruct (split "*" (r +:+ "*")) as [|w ws] eqn:E; [by destruct (split_not_nil _ _ E)|].
      destruct IH as [IH1 IH2]. destruct ws; simpl in *; [done|done].
  - induction p as [|c p IH]; simpl; [by intros [_ ?]|].
    destruct (Ascii.eqb_spec c "*") as [->|Hne].
    + destruct (split "*" p) as [|w ws] eqn:E; [by destruct (split_not_nil _ _ E)|].
      intros [Hl _]. destruct ws as [|v ws].
      * simpl in Hl. injection Hl as ->. exists "".
        pose proof (join_split "*" p) as J. rewrite E in J. simpl in J. by subst.
      * destruct IH as [r ->]; [by split|]. by exists (String "*" r).
    + destruct (split "*" p) as [|w ws] eqn:E; [by destruct (split_not_nil _ _ E)|].
      intros [Hl Hn]. destruct ws as [|v ws]; [done|].
      destruct IH as [r ->]; [by split|]. by exists (String c r).
Qed.

(** What the scan of a pattern with a star amounts to. *)
Lemma glob_parts_anchored (w : string) (ws : list string) (r rest : string) :
  glob_parts true (w :: ws) r = Some rest ->
  exists r', r = w +:+ r' /\ glob_parts false ws r' = Some rest.
Proof.
  simpl. destruct (is_empty w) eqn:Ew.
  - apply is_empty_spec in Ew as ->. eauto.
  - destruct (find w r) as [i|] eqn:Ef; [|discriminate].
    destruct (Nat.eqb_spec i 0) as [->|]; [|discriminate]. simpl. intros H.
    pose proof (find_str_split _ _ _ Ef) as E. simpl in E. eauto.
Qed.

Lemma glob_parts_anchored_intro (w : string) (ws : list string) (r : string) :
  glob_parts true (w :: ws) (w +:+ r) = glob_parts false ws r.
Proof.
  simpl. destruct (is_empty w) eqn:Ew; [by apply is_empty_spec in Ew as ->|].
  destruct (find_first w "" r) as (i & Hf & Hi). simpl in Hf, Hi. rewrite Hf.
  assert (i = 0) as -> by lia. simpl. by rewrite str_drop_app.
Qed.

Lemma glob_matches_sound (p r : string) : glob_matches p r = true -> glob p r.
Proof.
  intros H. apply glob_pieces. unfold glob_matches in H.
  destruct (split "*" p) as [|w ws] eqn:E; [by destruct (split_not_nil _ _ E)|].
  destruct (Nat.eqb_spec (length (w :: ws)) 1) as [Hl|Hl].
  - destruct ws; [|done]. apply eqs_true in H as ->. pose proof (join_split "*" p) as J.
    rewrite E in J. by simpl in *.
  - destruct (glob_parts true (w :: ws) r) as [rest|] eqn:G; [|discriminate].
    apply glob_parts_anchored in G as (r' & -> & G). apply glob_parts_float in G.
    assert (ws <> []) by (by intros ->).
    rewrite pieces_cons by done.
    destruct (pieces_of_float ws r' rest) as (x & r'' & -> & Hm); [done|done| |by eauto].
    destruct (ends_with "*" p) eqn:He; simpl in H.
    + right. apply last_split_star in He as [He _]. rewrite E in He. by destruct ws.
    + left. by apply is_empty_spec.
Qed.

Lemma glob_matches_complete_star (p r : string) :
  ends_with "*" p = true -> glob p r -> glob_matches p r = true.
Proof.
  intros He Hg%glob_pieces. unfold glob_matches. rewrite He. simpl.
  apply last_split_star in He as [_ Hl].
  destruct (split "*" p) as [|w ws] eqn:E; [by destruct (split_not_nil _ _ E)|].
  destruct (Nat.eqb_spec (length (w :: ws)) 1) as [|_]; [done|].
  assert (ws <> []) as Hws by (by intros ->).
  rewrite pieces_cons in Hg by done. destruct Hg as (x & r' & -> & Hm).
  apply float_of_pieces in Hm. destruct (float_weaken ws x r' "" Hm) as [rest Hf].
  destruct (float_glob_parts ws _ _ Hf) as [rest' Hp].
  by rewrite glob_parts_anchored_intro, Hp.
Qed.

(** Every text a pattern matches starts with the pattern's literal prefix. *)
Lemma glob_literal_prefix (lit p r : string) :
  str_forallb (fun a => negb (Ascii.eqb a "*")) lit = true ->
  glob (lit +:+ p) r -> exists r', r = lit +:+ r'.
Proof.
  revert r; induction lit as [|c lit IH]; intros r Hl Hg; simpl in *; [by eauto|].
  apply andb_true_iff in Hl as [Hc Hl]. inversion Hg as [|c' p' r' Hc' Hg'| |]; simplify_eq/=.
  destruct (IH _ Hl Hg') as [r'' ->]. eauto.
Qed.
