(* ===== verification/Registration.v ===== *)
(** Block registration ([wafer-run/src/runtime/registration.rs]) with the
    collection of WRAP grants ([runtime/lifecycle.rs]) and the checks of a
    block's declaration ([wafer-block/src/types/block_info.rs]).

    The registry is a state machine: registering blocks and aliases, naming
    the admin block, adding external grants, taking the dispatch snapshot.
    The block implementation itself is the type parameter [B] of a
    registration; only what [info()] reports is read here. *)

From stdpp Require Import sorting.
From S2P Require Import Prelude CoreTypes Grants Wrap BlockName.

(** ** Block declarations *)

Module HttpMethod.
Inductive t := Get | Post | Patch | Delete.
Definition display (m : t) : string :=
  match m with Get => "GET" | Post => "POST" | Patch => "PATCH" | Delete => "DELETE" end.
#[global] Instance t_eq_dec : EqDecision t.
Proof. solve_decision. Defined.
#[global] Instance display_inj : Inj (=) (=) display.
Proof. by intros [] []. Qed.
End HttpMethod.

(** What the registry reads of an endpoint; an agent tool is its name. *)
Record BlockEndpoint := mkEndpoint {
  ep_method : HttpMethod.t;
  ep_path : string;
  ep_agent_tool : option string
}.

(** The fields of [BlockInfo] that registration and dispatch read; config
    variables are their keys. *)
Record BlockInfo := mkInfo {
  bi_name : string;
  bi_interface : string;
  bi_requires : list string;
  bi_optional_requires : list string;
  bi_config_keys : list string;
  bi_flow_config : list string;
  bi_grants : list ResourceGrant;
  bi_endpoints : list BlockEndpoint;
  bi_init_timeout_ms : option N
}.

Inductive BlockInfoError :=
| ReservedConfigKey (block key : string)
| ConfigVarPrefix (block key prefix : string)
| InvalidAgentToolName (block path name : string)
| ZeroInitTimeout (block : string).

Definition MAX_NAME_LEN : nat := 128.

(** [AgentTool::is_valid_name]. *)
Definition is_valid_name (name : string) : bool :=
  negb (is_empty name) && (String.length name <=? MAX_NAME_LEN)
  && str_forallb (fun b => is_ascii_alphanumeric b || Ascii.eqb b "_" || Ascii.eqb b "-") name.

(** [BlockInfo::config_var_prefix]; registration validates the name first, so
    it is ASCII and [to_uppercase] is [to_ascii_uppercase]. *)
Definition config_var_prefix (block_name : string) : string :=
  replace_char "-" "_" (replace_char "/" "__" (to_ascii_uppercase block_name)) +:+ "__".

(** [BlockInfo::validate]. *)
Definition bi_validate (i : BlockInfo) (registered_name : string) : result unit BlockInfoError :=
  if match bi_init_timeout_ms i with Some 0%N => true | _ => false end
  then Err (ZeroInitTimeout registered_name)
  else match List.find (starts_with WAFER_RUN_SHARED_PREFIX)
               (bi_config_keys i ++ bi_flow_config i) with
       | Some key => Err (ReservedConfigKey (bi_name i) key)
       | None =>
           let prefix := config_var_prefix registered_name in
           match List.find (fun key => negb (starts_with prefix key)) (bi_config_keys i) with
           | Some key => Err (ConfigVarPrefix registered_name key prefix)
           | None =>
               match List.find (fun ep => match ep_agent_tool ep with
                                          | None => false
                                          | Some tool => negb (is_valid_name tool)
                                          end) (bi_endpoints i) with
               | Some ep => Err (InvalidAgentToolName (bi_name i) (ep_path ep)
                                   (default "" (ep_agent_tool ep)))
               | None => Ok tt
               end
           end
       end.

(** [BlockInfo::call_allowlist]. *)
Definition call_allowlist (i : BlockInfo) : option (list string) :=
  match bi_requires i, bi_optional_requires i with
  | [], [] => None
  | r, o => Some (r ++ o)
  end.

(** ** Grant collection *)

Inductive grant_reject :=
| MalformedShape (e : InvalidGrantShape)
| TypedNotAdmin
| OwnedByOther (owner : string)
| NotNamespaced.

Record GrantValidationError := mkGVE {
  gve_block : string; gve_grant : ResourceGrant; gve_reason : grant_reject
}.

Record GrantValidationOutcome := mkGVO {
  accepted : list ResourceGrant; rejected : list GrantValidationError
}.

Section Collect.
Context `{UnicodeLower}.

(** [grant_resource_owner]: the owner of everything a pattern can match. *)
Definition grant_resource_owner (resource : string) (rt : option ResourceType.t)
  : option string :=
  match find "*" resource with
  | None => typed_resource_owner resource rt
  | Some star =>
      let literal := str_take star resource in
      match rt with
      | Some ResourceType.Storage =>
          if count_char "/" literal <? 2 then None else storage_resource_owner literal
      | _ => resource_owner literal
      end
  end.

Inductive grant_verdict := Accept | Reject (r : grant_reject) | Defer.

(** The body of the loop over the declared grants. *)
Definition judge_grant (block_name admin_block : string) (g : ResourceGrant) : grant_verdict :=
  match check_shape g with
  | Err shape => Reject (MalformedShape shape)
  | Ok _ =>
      match g_type g with
      | Some ResourceType.Network | Some ResourceType.Crypto =>
          if is_empty admin_block then Defer
          else if block_name =s admin_block then Accept
          else Reject TypedNotAdmin
      | rt =>
          match grant_resource_owner (g_resource g) rt with
          | Some owner => if owner =s block_name then Accept else Reject (OwnedByOther owner)
          | None => Reject NotNamespaced
          end
      end
  end.

(** [validate_and_collect_grants_for_block]. *)
Definition validate_and_collect_grants_for_block (block_name : string)
    (grants : list ResourceGrant) (admin_block : string) : GrantValidationOutcome :=
  fold_left (fun out g =>
    match judge_grant block_name admin_block g with
    | Accept => mkGVO (accepted out ++ [g]) (rejected out)
    | Reject r => mkGVO (accepted out) (rejected out ++ [mkGVE block_name g r])
    | Defer => out
    end) grants (mkGVO [] []).
End Collect.

(** ** The registry *)

Inductive AliasError :=
| AliasAfterSeal | AliasCycle | AlreadyAliased (target : string) | TargetIsAlias
| AliasIsExistingTarget | ShadowsBlock.

Inductive RuntimeError :=
| RegisteredAfterSeal | DuplicateBlock | NameIsAlias (target : string)
| InvalidBlockName (e : invalid_block_name)
| BlockNameMismatch (reported : string)
| InfoError (e : BlockInfoError)
| GrantsRejected (errs : list GrantValidationError).

Section Registry.
(** A block instance, and the init slot paired with it. *)
Context {B : Type} {Slot : Type} (new_slot : Slot) `{UnicodeLower}.

Record RegisteredBlock := mkRegistered {
  rb_block : B;
  rb_info : BlockInfo;
  rb_call_allowlist : option (list string)
}.

Definition registered_new (block : B) (info : BlockInfo) : RegisteredBlock :=
  mkRegistered block info (call_allowlist info).

Record WrapState := mkWrap {
  w_grants : list ResourceGrant;
  w_grants_external : list ResourceGrant;
  w_admin_block : string;
  w_validation_errors : list GrantValidationError
}.

Record RegistrationCore := mkCore {
  blocks : gmap string RegisteredBlock;
  all_blocks : gmap string RegisteredBlock;
  aliases : gmap string string;
  slots : gmap string Slot;
  wrap : WrapState;
  sealed : bool
}.

(** [RegistrationCore::new]. *)
Definition core_new : RegistrationCore :=
  mkCore ∅ ∅ ∅ ∅ (mkWrap [] [] "" []) false.

(** [RegistrationCore::add_alias]. *)
Definition add_alias (st : RegistrationCore) (alias target : string)
  : result RegistrationCore AliasError :=
  if sealed st then Err AliasAfterSeal
  else if alias =s target then Err AliasCycle
  else match aliases st !! alias with
  | Some existing => Err (AlreadyAliased existing)
  | None =>
      if bool_decide (is_Some (aliases st !! target)) then Err TargetIsAlias
      else if existsb (fun '(_, t) => t =s alias) (map_to_list (aliases st))
      then Err AliasIsExistingTarget
      else if bool_decide (is_Some (blocks st !! alias)) then Err ShadowsBlock
      else Ok (mkCore (blocks st) (all_blocks st) (<[alias := target]> (aliases st))
                 (slots st) (wrap st) (sealed st))
  end.

(** The aliases of [Wafer::load_blocks_json] (the entries of the file that name
    a target): each goes in over the one of its name, past the checks of
    [add_alias], before or after the seal. *)
Definition load_aliases (st : RegistrationCore) (entries : list (string * string)) : RegistrationCore :=
  mkCore (blocks st) (all_blocks st)
    (fold_left (fun als '(alias, target) => <[alias := target]> als) entries (aliases st))
    (slots st) (wrap st) (sealed st).

(** [RegistrationCore::canonicalize]: one hop through the alias map. *)
Definition canonicalize (st : RegistrationCore) (name : string) : string :=
  default name (aliases st !! name).

(** [RegistrationCore::lookup_with_alias]. *)
Definition lookup_with_alias (st : RegistrationCore) (name : string)
  : option (string * RegisteredBlock) :=
  let resolved := canonicalize st name in
  option_map (fun b => (resolved, b)) (all_blocks st !! resolved).

(** [RegistrationCore::rebuild_all_blocks]. *)
Definition rebuild_all_blocks (st : RegistrationCore) : RegistrationCore :=
  let all := map_fold (fun alias target acc =>
                         match blocks st !! target with
                         | Some b => <[alias := b]> acc
                         | None => acc
                         end) (blocks st) (aliases st) in
  mkCore (blocks st) all (aliases st) (slots st) (wrap st) (sealed st).

(** [rebuild_wrap_grants]: the collection over every registered block, in name
    order, followed by the external grants. *)
Definition sorted_names (st : RegistrationCore) : list string :=
  merge_sort String.le (map_to_list (blocks st)).*1.

Definition rebuild_wrap_grants (st : RegistrationCore) : RegistrationCore :=
  let admin := w_admin_block (wrap st) in
  let '(merged, errs) :=
    fold_left (fun '(merged, errs) name =>
      match blocks st !! name with
      | Some rb =>
          let out := validate_and_collect_grants_for_block name (bi_grants (rb_info rb)) admin in
          (merged ++ accepted out, errs ++ rejected out)
      | None => (merged, errs)
      end) (sorted_names st) ([], []) in
  mkCore (blocks st) (all_blocks st) (aliases st) (slots st)
    (mkWrap (merged ++ w_grants_external (wrap st)) (w_grants_external (wrap st)) admin errs)
    (sealed st).

(** [RegistrationCore::set_admin_block]. *)
Definition set_admin_block (st : RegistrationCore) (block_id : string) : RegistrationCore :=
  let w := wrap st in
  rebuild_wrap_grants
    (mkCore (blocks st) (all_blocks st) (aliases st) (slots st)
       (mkWrap (w_grants w) (w_grants_external w) block_id (w_validation_errors w)) (sealed st)).

(** [RegistrationCore::add_wrap_grants]: all or nothing. *)
Definition add_wrap_grants (st : RegistrationCore) (grants : list ResourceGrant)
  : result RegistrationCore RuntimeError :=
  let rej := omap (fun g => match check_shape g with
                            | Ok _ => None
                            | Err shape => Some (mkGVE "" g (MalformedShape shape))
                            end) grants in
  match rej with
  | _ :: _ => Err (GrantsRejected rej)
  | [] =>
      let w := wrap st in
      Ok (mkCore (blocks st) (all_blocks st) (aliases st) (slots st)
            (mkWrap (w_grants w ++ grants) (w_grants_external w ++ grants)
               (w_admin_block w) (w_validation_errors w)) (sealed st))
  end.

(** [RegistrationCore::admit]; [info] is what the block's [info()] reports. *)
Definition admit_block (st : RegistrationCore) (name : string) (info : BlockInfo)
  : result BlockInfo RuntimeError :=
  if sealed st then Err RegisteredAfterSeal
  else if bool_decide (is_Some (blocks st !! name)) then Err DuplicateBlock
  else match aliases st !! name with
  | Some target => Err (NameIsAlias target)
  | None =>
      match validate_block_name name with
      | Err e => Err (InvalidBlockName e)
      | Ok _ =>
          if negb (bi_name info =s name) then Err (BlockNameMismatch (bi_name info))
          else match bi_validate info name with
               | Err e => Err (InfoError e)
               | Ok _ => Ok info
               end
      end
  end.

(** [RegistrationCore::insert_block_with_grants]. *)
Definition insert_block_with_grants (st : RegistrationCore) (name : string) (block : B)
    (info : BlockInfo) : RegistrationCore :=
  let w := wrap st in
  let out := validate_and_collect_grants_for_block name (bi_grants info) (w_admin_block w) in
  mkCore (<[name := registered_new block info]> (blocks st)) (all_blocks st) (aliases st)
    (<[name := new_slot]> (slots st))
    (mkWrap (w_grants w ++ accepted out) (w_grants_external w) (w_admin_block w)
       (w_validation_errors w ++ rejected out))
    (sealed st).

(** [RegistrationCore::register_block_inner] (the asset loader a WASM block is
    handed is not registry state). *)
Definition register_block_inner (st : RegistrationCore) (name : string) (block : B)
    (info : BlockInfo) : result RegistrationCore RuntimeError :=
  let? info := admit_block st name info in
  Ok (insert_block_with_grants st name block info).

(** [RegistrationCore::check_downloadable]. *)
Definition check_downloadable (st : RegistrationCore) (name : string) : result unit RuntimeError :=
  if bool_decide (is_Some (blocks st !! name)) then Err DuplicateBlock
  else match aliases st !! name with
       | Some target => Err (NameIsAlias target)
       | None => Ok tt
       end.
End Registry.
