(* ===== verification/GrantFacts.v ===== *)
(** What grant collection guarantees: a namespace grant that registration
    accepts from a block reaches only resources that block owns, whatever its
    pattern. *)

From S2P Require Import Prelude CoreTypes Grants Wrap BlockName WrapGlob Registration.

(** ** Searching in a longer text *)

Lemma starts_with_app_inv (p s t : string) :
  String.length p <= String.length s ->
  starts_with p (s +:+ t) = true -> starts_with p s = true.
Proof.
  intros Hl [r Hr]%starts_with_spec. apply starts_with_spec.
  exists (str_drop (String.length p) s).
  rewrite <- (str_take_drop (String.length p) s) in Hr |- * at 1.
  rewrite <- str_app_assoc in Hr.
  apply str_app_inj_length in Hr as [-> _]; [done|]. rewrite str_length_take. lia.
Qed.

Lemma find_length (p s : string) (i : nat) :
  find p s = Some i -> i + String.length p <= String.length s.
Proof. intros (a & b & -> & <-)%find_Some. rewrite !str_length_app. lia. Qed.

(** Appending text never changes a first occurrence. *)
Lemma find_app (p s t : string) (i : nat) : find p s = Some i -> find p (s +:+ t) = Some i.
Proof.
  revert i; induction s as [|c s IH]; intros i H.
  - pose proof (find_length _ _ _ H). destruct p; [|simpl in *; lia]. by destruct t.
  - pose proof (find_length _ _ _ H) as Hl. rewrite str_cons_app, !find_cons in *.
    destruct (starts_with p (String c s)) eqn:E.
    + apply starts_with_spec in E as [r E].
      by rewrite <- (str_cons_app c s t), E, <- str_app_assoc, starts_with_app.
    + destruct (starts_with p (String c (s +:+ t))) eqn:E'.
      * rewrite <- (str_cons_app c s t) in E'. apply starts_with_app_inv in E'; [congruence|lia].
      * destruct (find p s) as [j|]; [|discriminate]. by rewrite (IH j eq_refl).
Qed.

Lemma str_drop_app_le (n : nat) (s t : string) :
  n <= String.length s -> str_drop n (s +:+ t) = str_drop n s +:+ t.
Proof.
  revert n; induction s as [|c s IH]; intros [|n] Hn; simpl in *; try done; try lia.
  apply IH. lia.
Qed.

Lemma str_take_app_le (n : nat) (s t : string) :
  n <= String.length s -> str_take n (s +:+ t) = str_take n s.
Proof.
  revert n; induction s as [|c s IH]; intros [|n] Hn; simpl in *; try done; try lia.
  f_equal. apply IH. lia.
Qed.

(** The text before the first occurrence of a character lacks it. *)
Lemma find_char_take (c : ascii) (s : string) (i : nat) :
  find (String c "") s = Some i ->
  exists rest, s = str_take i s +:+ String c rest
    /\ str_forallb (fun a => negb (Ascii.eqb a c)) (str_take i s) = true.
Proof.
  revert i; induction s as [|a s IH]; intros i; simpl; unfold starts_with in *; simpl.
  - discriminate.
  - rewrite (Ascii.eqb_sym c a). destruct (Ascii.eqb_spec a c) as [->|Hne].
    + injection 1 as <-. by exists s.
    + destruct (find (String c "") s) as [j|] eqn:E; [|discriminate].
      injection 1 as <-. destruct (IH j eq_refl) as (rest & Hs & Ht). exists rest.
      simpl. rewrite <- Hs, Ht, (proj2 (Ascii.eqb_neq a c) Hne). done.
Qed.

Lemma find_char_none (c : ascii) (s : string) :
  find (String c "") s = None -> str_forallb (fun a => negb (Ascii.eqb a c)) s = true.
Proof.
  induction s as [|a s IH]; simpl; unfold starts_with in *; simpl; [done|].
  rewrite (Ascii.eqb_sym c a). destruct (Ascii.eqb a c); [discriminate|].
  destruct (find (String c "") s); [discriminate|]. auto.
Qed.

(** ** Owners of longer names *)

Section Owner.
Context `{UnicodeLower}.

(** [resource_owner] on the lowered name. *)
Definition lower_owner (lower : string) : option string :=
  match find "__" lower with
  | None => None
  | Some first =>
      match find "__" (str_drop (first + 2) lower) with
      | None => None
      | Some second =>
          Some (replace_char "_" "-" (replace "__" "/" (str_take (first + 2 + second) lower)))
      end
  end.

Lemma resource_owner_lower (name : string) :
  resource_owner name = lower_owner (to_lowercase name).
Proof. reflexivity. Qed.

Lemma lower_owner_app (l t o : string) :
  lower_owner l = Some o -> lower_owner (l +:+ t) = Some o.
Proof.
  unfold lower_owner. destruct (find "__" l) as [i|] eqn:E1; [|discriminate].
  rewrite (find_app _ _ _ _ E1).
  destruct (find "__" (str_drop (i + 2) l)) as [j|] eqn:E2; [|discriminate].
  apply find_length in E1 as L1. apply find_length in E2 as L2. simpl in L1, L2.
  rewrite str_length_drop in L2.
  rewrite str_drop_app_le by lia. rewrite (find_app _ _ _ _ E2).
  rewrite str_take_app_le by lia. done.
Qed.

Lemma resource_owner_app (lit r o : string) :
  is_ascii lit = true -> resource_owner lit = Some o -> resource_owner (lit +:+ r) = Some o.
Proof.
  intros Ha. rewrite !resource_owner_lower, (to_lowercase_ascii _ Ha). intros Ho.
  destruct (to_lowercase_ascii_prefix lit r Ha) as [t ->]. by apply lower_owner_app.
Qed.

Lemma storage_owner_shape (p o : string) :
  storage_resource_owner p = Some o ->
  exists org block,
    o = org +:+ "/" +:+ block
    /\ str_forallb (fun a => negb (Ascii.eqb a "/")) org = true
    /\ org <> "" /\ block <> ""
    /\ ((p = org +:+ "/" +:+ block
         /\ str_forallb (fun a => negb (Ascii.eqb a "/")) block = true)
        \/ exists rest, p = org +:+ "/" +:+ block +:+ "/" +:+ rest
             /\ str_forallb (fun a => negb (Ascii.eqb a "/")) block = true).
Proof.
  unfold storage_resource_owner.
  destruct (split_once "/" p) as [[org rest]|] eqn:E1; [|discriminate].
  apply split_once_Some in E1 as [-> Horg].
  destruct (split_once "/" rest) as [[b rest']|] eqn:E2.
  - apply split_once_Some in E2 as [-> Hb].
    destruct (is_empty org || is_empty b) eqn:Em; [discriminate|]. intros [= <-].
    apply orb_false_iff in Em as [? ?].
    exists org, b. split; [done|]. split; [done|].
    split; [by destruct org|]. split; [by destruct b|]. right. by exists rest'.
  - destruct (is_empty org || is_empty rest) eqn:Em; [discriminate|]. intros [= <-].
    apply orb_false_iff in Em as [? ?].
    exists org, rest. split; [done|]. split; [done|].
    split; [by destruct org|]. split; [by destruct rest|]. left. split; [done|].
    clear -E2. induction rest as [|c s IH]; simpl in *; [done|].
    destruct (Ascii.eqb c "/"); [discriminate|].
    destruct (split_once "/" s) as [[]|]; [discriminate|]. auto.
Qed.

Lemma storage_owner_intro (org block rest : string) :
  str_forallb (fun a => negb (Ascii.eqb a "/")) org = true ->
  str_forallb (fun a => negb (Ascii.eqb a "/")) block = true ->
  org <> "" -> block <> "" ->
  storage_resource_owner (org +:+ "/" +:+ block +:+ "/" +:+ rest)
  = Some (org +:+ "/" +:+ block).
Proof.
  intros Ho Hb Hno Hnb. unfold storage_resource_owner.
  rewrite !split_once_app_sep by done. by destruct org, block.
Qed.

Lemma count_char_app (c : ascii) (a b : string) :
  count_char c (a +:+ b) = count_char c a + count_char c b.
Proof. induction a as [|x a IH]; simpl; [done|]. rewrite IH. lia. Qed.

Lemma count_char_absent (c : ascii) (s : string) :
  str_forallb (fun a => negb (Ascii.eqb a c)) s = true -> count_char c s = 0.
Proof.
  induction s as [|a s IH]; simpl; [done|]. destruct (Ascii.eqb a c); [done|]. auto.
Qed.

Lemma storage_owner_app (lit r o : string) :
  2 <= count_char "/" lit -> storage_resource_owner lit = Some o ->
  storage_resource_owner (lit +:+ r) = Some o.
Proof.
  intros Hc (org & block & -> & Ho & Hno & Hnb & [[-> Hb]|(rest & -> & Hb)])%storage_owner_shape.
  - rewrite !count_char_app, (count_char_absent "/" org), (count_char_absent "/" block)
      in Hc by done. simpl in Hc. lia.
  - rewrite <- !str_app_assoc. rewrite storage_owner_intro by done. done.
Qed.

(** ** URL-shaped patterns have no valid owner *)

Lemma valid_name_chars (name : string) :
  valid_block_name name ->
  str_forallb (fun c => name_char c || Ascii.eqb c "/") name = true.
Proof.
  intros (org & block & -> & [_ Ho _] & [_ Hb _])%valid_block_name_shape.
  rewrite !str_forallb_app. simpl.
  rewrite (str_forallb_impl name_char _ org), (str_forallb_impl name_char _ block);
    try done; intros c ->; done.
Qed.

Lemma lower_owner_http (t o : string) :
  lower_owner ("http:" +:+ t) = Some o \/ lower_owner ("https:" +:+ t) = Some o ->
  ~ valid_block_name o.
Proof.
  intros [Ho|Ho] Hv%valid_name_chars; revert Ho; unfold lower_owner; simpl;
    (destruct (find "__" t) as [i|]; [|discriminate]); simpl;
    (destruct (find "__" _) as [j|]; [|discriminate]); simpl;
    intros [= <-]; discriminate.
Qed.

Lemma storage_owner_http (t o : string) :
  storage_resource_owner ("http://" +:+ t) = Some o
  \/ storage_resource_owner ("https://" +:+ t) = Some o -> False.
Proof. intros [H0|H0]; discriminate H0. Qed.

Lemma url_pattern_no_owner (p o : string) (rt : option ResourceType.t) :
  is_url_pattern p = true -> is_ascii p = true ->
  typed_resource_owner p rt = Some o -> ~ valid_block_name o.
Proof.
  intros Hu Ha Ho.
  assert (exists t, p = "http://" +:+ t \/ p = "https://" +:+ t) as [t Hp].
  { apply orb_true_iff in Hu as [[t ->]%starts_with_spec|[t ->]%starts_with_spec]; eauto. }
  assert (Hns : resource_owner p = Some o -> ~ valid_block_name o).
  { rewrite resource_owner_lower, (to_lowercase_ascii _ Ha).
    intros Hl. destruct Hp as [->| ->]; unfold to_ascii_lowercase in Hl;
      rewrite str_map_app in Hl.
    - apply (lower_owner_http ("//" +:+ str_map ascii_lower t)). by left.
    - apply (lower_owner_http ("//" +:+ str_map ascii_lower t)). by right. }
  destruct rt as [[]|]; simpl in Ho; auto.
  exfalso. apply (storage_owner_http t o). destruct Hp as [->| ->]; auto.
Qed.
End Owner.

(** ** Collection *)

Section CollectFacts.
Context `{UnicodeLower} `{UrlCrate}.

Lemma collect_fold (b admin : string) (gs : list ResourceGrant) (out : GrantValidationOutcome) :
  accepted (fold_left (fun out g =>
    match judge_grant b admin g with
    | Accept => mkGVO (accepted out ++ [g]) (rejected out)
    | Reject r => mkGVO (accepted out) (rejected out ++ [mkGVE b g r])
    | Defer => out
    end) gs out)
  = accepted out ++ List.filter (fun g => match judge_grant b admin g with
                                          | Accept => true | _ => false end) gs.
Proof.
  revert out; induction gs as [|g gs IH]; intros out; simpl.
  - by rewrite app_nil_r.
  - rewrite IH. destruct (judge_grant b admin g); simpl; [|done..]. by rewrite <- app_assoc.
Qed.

(** The accepted grants are the declared ones the judgement accepts, in
    order. *)
Lemma collect_accepted (b admin : string) (gs : list ResourceGrant) (g : ResourceGrant) :
  In g (accepted (validate_and_collect_grants_for_block b gs admin))
  <-> In g gs /\ judge_grant b admin g = Accept.
Proof.
  unfold validate_and_collect_grants_for_block. rewrite collect_fold. simpl.
  rewrite filter_In. destruct (judge_grant b admin g); intuition congruence.
Qed.

Definition namespaced_type (rt : option ResourceType.t) : bool :=
  match rt with
  | Some ResourceType.Network | Some ResourceType.Crypto => false
  | _ => true
  end.

Lemma judge_accept_owner (b admin : string) (g : ResourceGrant) :
  judge_grant b admin g = Accept -> namespaced_type (g_type g) = true ->
  grant_resource_owner (g_resource g) (g_type g) = Some b.
Proof.
  unfold judge_grant. destruct (check_shape g) as [[]|e]; [|discriminate].
  destruct (g_type g) as [[]|]; simpl; try discriminate; intros Hj _;
  match type of Hj with
  | context [grant_resource_owner ?r ?t] =>
      destruct (grant_resource_owner r t) as [o|]; [|discriminate];
      destruct (o =s b) eqn:E; [by apply eqs_true in E as ->|discriminate]
  end.
Qed.

Lemma is_ascii_take (n : nat) (s : string) :
  is_ascii s = true -> is_ascii (str_take n s) = true.
Proof.
  unfold is_ascii. rewrite <- (str_take_drop n s) at 1. rewrite str_forallb_app.
  by intros [? _]%andb_true_iff.
Qed.

(** A pattern with an owner reaches only that owner's resources. *)
Lemma owned_pattern_confined (p r b : string) (rt : option ResourceType.t) :
  valid_block_name b -> is_ascii p = true ->
  grant_resource_owner p rt = Some b ->
  grant_matches_resource p r = true ->
  typed_resource_owner r rt = Some b.
Proof.
  intros Hv Ha Ho Hm. unfold grant_resource_owner in Ho. unfold grant_matches_resource in Hm.
  destruct (find "*" p) as [star|] eqn:Ef.
  - apply find_char_take in Ef as (rest & Hp & Hlit).
    set (lit := str_take star p) in *.
    assert (Hal : is_ascii lit = true) by by apply is_ascii_take.
    assert (Hlo : typed_resource_owner lit rt = Some b
                  /\ (rt = Some ResourceType.Storage -> 2 <= count_char "/" lit)).
    { destruct rt as [[]|]; try (split; [done|congruence]).
      destruct (Nat.ltb_spec (count_char "/" lit) 2); [discriminate|]. by split. }
    destruct Hlo as [Hlo Hcnt].
    destruct (p =s "*") eqn:Es.
    { apply eqs_true in Es. exfalso. rewrite Es in Hp. destruct lit as [|c l]; [|by destruct l].
      destruct rt as [[]|]; simpl in Hlo; try discriminate;
        rewrite resource_owner_lower, (to_lowercase_ascii "" eq_refl) in Hlo; discriminate. }
    destruct (is_url_pattern p) eqn:Eu.
    { exfalso. apply (url_pattern_no_owner lit b rt); [|done..].
      apply orb_true_iff in Eu. apply orb_true_iff.
      destruct Eu as [Eu|Eu]; [left|right]; apply starts_with_spec in Eu as [t Et];
        rewrite Et in Hp; clear -Hp Hlit;
        do 8 (destruct lit as [|? lit]; [try discriminate Hp; simplify_eq/=|];
              try (injection Hp as <- Hp)); try done. }
    apply glob_matches_sound in Hm. rewrite Hp in Hm.
    apply (glob_literal_prefix lit) in Hm as [r' ->]; [|done].
    destruct rt as [[]|]; simpl in *; try (by apply resource_owner_app).
    apply storage_owner_app; auto.
  - destruct (p =s "*") eqn:Es; [apply eqs_true in Es as ->; discriminate|].
    destruct (is_url_pattern p) eqn:Eu; [by destruct (url_pattern_no_owner p b rt)|].
    apply glob_matches_sound, glob_pieces in Hm.
    rewrite split_no_sep in Hm by by apply find_char_none. simpl in Hm. by subst.
Qed.

Lemma accepted_grant_confined (b admin r : string) (gs : list ResourceGrant) (g : ResourceGrant) :
  valid_block_name b ->
  In g (accepted (validate_and_collect_grants_for_block b gs admin)) ->
  namespaced_type (g_type g) = true -> is_ascii (g_resource g) = true ->
  grant_matches_resource (g_resource g) r = true ->
  typed_resource_owner r (g_type g) = Some b.
Proof.
  intros Hv [_ Hj]%collect_accepted Hn Ha Hm.
  eapply owned_pattern_confined; eauto using judge_accept_owner.
Qed.
End CollectFacts.
