(* ===== verification/WrapPolicy.v ===== *)
(** The WRAP decision against its policy: [check_access] grants exactly what
    the rules below allow, reserved resources are out of reach of every grant,
    storage access stays inside the caller's tree, and structured URL patterns
    stay inside the host they name. *)

From S2P Require Import Prelude CoreTypes Grants Wrap BlockName WrapGlob GrantFacts.

Section Policy.
Context `{UnicodeLower} `{UrlCrate}.

(** ** The policy *)

Definition credential_op (resource : string) (rt : option ResourceType.t) : Prop :=
  rt = Some ResourceType.Auth /\ is_auth_credential_resource resource = true.

(** Resources with a rule of their own: no owner and no grant applies. *)
Definition reserved (resource : string) (rt : option ResourceType.t) : Prop :=
  (namespace_based rt = true
   /\ (resource = RAW_SQL_RESOURCE \/ resource = DDL_RESOURCE \/ resource = SCHEMA_RESOURCE
       \/ credential_op resource rt \/ is_shared resource = true))
  \/ (rt = Some ResourceType.Storage /\ resource = STORAGE_LIST_ALL_RESOURCE).

(** What any identified caller may do. *)
Definition open_to_callers (resource : string) (access : ResourceAccess.t)
    (rt : option ResourceType.t) : Prop :=
  namespace_based rt = true
  /\ (resource = DDL_RESOURCE \/ resource = SCHEMA_RESOURCE
      \/ (resource <> RAW_SQL_RESOURCE
          /\ (credential_op resource rt
              \/ (is_shared resource = true /\ access = ResourceAccess.Read)))).

Definition well_formed_path (resource : string) (rt : option ResourceType.t) : Prop :=
  rt = Some ResourceType.Storage -> is_traversal_safe_path resource = true.

(** The block a resource of that type belongs to; network and crypto
    resources belong to nobody. *)
Definition owner_of (resource : string) (rt : option ResourceType.t) : option string :=
  match rt with
  | Some ResourceType.Network | Some ResourceType.Crypto => None
  | _ => typed_resource_owner resource rt
  end.

Inductive policy (resource : string) (access : ResourceAccess.t) (rt : option ResourceType.t)
    (grants : list ResourceGrant) (admin : string) : option string -> Prop :=
| policy_admin :
    well_formed_path resource rt ->
    policy resource access rt grants admin (Some admin)
| policy_open c :
    open_to_callers resource access rt ->
    policy resource access rt grants admin (Some c)
| policy_own c :
    ~ reserved resource rt -> well_formed_path resource rt ->
    owner_of resource rt = Some c ->
    policy resource access rt grants admin (Some c)
| policy_grant c g :
    ~ reserved resource rt -> well_formed_path resource rt ->
    In g grants -> grant_allows g c resource access rt = true ->
    policy resource access rt grants admin (Some c).

(** ** Refinement *)

Lemma guard_ok (b : bool) (d : denial) : guard b d = Ok tt <-> b = true.
Proof. destruct b; simpl; split; congruence. Qed.

Lemma is_caller_spec (caller : option string) (who : string) :
  is_caller caller who = true <-> caller = Some who.
Proof.
  destruct caller as [c|]; simpl; [|split; discriminate].
  rewrite eqs_true. split; congruence.
Qed.

Lemma some_grant_allows_spec grants caller resource access rt :
  some_grant_allows grants caller resource access rt = true
  <-> exists c g, caller = Some c /\ In g grants /\ grant_allows g c resource access rt = true.
Proof.
  destruct caller as [c|]; simpl; [|split; [discriminate|by intros (? & ? & ? & _)]].
  rewrite existsb_exists. split.
  - intros (g & Hin & Hg). eauto.
  - intros (c' & g & [= <-] & Hin & Hg). eauto.
Qed.

(** The decision in the two branches, below the reserved resources. *)
Definition below_reserved (caller : option string) (resource : string)
    (access : ResourceAccess.t) (rt : option ResourceType.t)
    (grants : list ResourceGrant) (admin : string) : Prop :=
  (exists c, caller = Some c /\ owner_of resource rt = Some c)
  \/ caller = Some admin
  \/ some_grant_allows grants caller resource access rt = true.

Lemma policy_below_reserved caller resource access rt grants admin :
  ~ reserved resource rt -> well_formed_path resource rt ->
  policy resource access rt grants admin caller
  <-> below_reserved caller resource access rt grants admin.
Proof.
  intros Hr Hw. unfold below_reserved. rewrite some_grant_allows_spec. split.
  - inversion 1 as [|c Ho|c|c g]; subst; [by auto| |by eauto|by eauto 8].
    exfalso. apply Hr. destruct Ho as [Hn [?|[?|[_ [?|[? _]]]]]]; left; split; auto.
  - intros [(c & -> & Ho)|[->|(c & g & -> & Hin & Hg)]].
    + by apply policy_own.
    + by apply policy_admin.
    + by eapply policy_grant.
Qed.

Lemma policy_not_well_formed caller resource access rt grants admin :
  ~ well_formed_path resource rt -> ~ policy resource access rt grants admin caller.
Proof.
  intros Hw Hp. inversion Hp as [|c Ho|c|c g]; subst; try done.
  apply Hw. intros ->. by destruct Ho.
Qed.

Lemma rt_storage_spec (rt : option ResourceType.t) :
  rt_eqb rt (Some ResourceType.Storage) = true <-> rt = Some ResourceType.Storage.
Proof. apply rt_eqb_true. Qed.

Lemma check_access_not_namespaced caller resource access rt grants admin :
  namespace_based rt = false ->
  check_access caller resource access rt grants admin = Ok tt
  <-> policy resource access rt grants admin caller.
Proof.
  intros Hn. unfold check_access. rewrite Hn.
  destruct (rt_eqb rt (Some ResourceType.Storage)) eqn:Es; simpl.
  - apply rt_eqb_true in Es as ->.
    destruct (resource =s STORAGE_LIST_ALL_RESOURCE) eqn:El.
    { apply eqs_true in El as ->. rewrite guard_ok, is_caller_spec. split.
      - intros ->. apply policy_admin. by intros _.
      - inversion 1 as [|c Ho|c Hr|c g Hr]; subst; [done|by destruct Ho|..];
          exfalso; apply Hr; by right. }
    destruct (is_traversal_safe_path resource) eqn:Ep; simpl.
    2:{ split; [discriminate|]. intros Hp. exfalso. revert Hp.
        apply policy_not_well_formed. intros Hw. specialize (Hw eq_refl). congruence. }
    rewrite policy_below_reserved; [|intros [[? _]|[_ ->]]; done|by intros _].
    unfold below_reserved. simpl.
    destruct caller as [c|]; simpl.
    + destruct (storage_resource_owner resource) as [o|] eqn:Eo.
      * destruct (o =s c) eqn:Eoc; [apply eqs_true in Eoc as ->; split; [by eauto|done]|].
        destruct (c =s admin) eqn:Ea; [apply eqs_true in Ea as ->; split; [by auto|done]|].
        bool_to_prop. destruct (existsb _ grants) eqn:Eg; [split; [by auto|done]|].
        split; [discriminate|]. intros [(? & ? & ?)|[?|?]]; congruence.
      * destruct (c =s admin) eqn:Ea; [apply eqs_true in Ea as ->; split; [by auto|done]|].
        bool_to_prop. destruct (existsb _ grants) eqn:Eg; [split; [by auto|done]|].
        split; [discriminate|]. intros [(? & ? & ?)|[?|?]]; congruence.
    + split; [discriminate|]. intros [(? & ? & ?)|[?|?]]; congruence.
  - rewrite policy_below_reserved.
    2:{ intros [[? _]|[-> _]]; [congruence|discriminate]. }
    2:{ intros ->. discriminate. }
    unfold below_reserved.
    assert (owner_of resource rt = None) as -> by (by destruct rt as [[]|]).
    destruct (is_caller caller admin) eqn:Ea; [apply is_caller_spec in Ea as ->; split; [by auto|done]|].
    destruct (some_grant_allows _ _ _ _ _) eqn:Eg; [split; [by auto|done]|].
    split; [discriminate|]. intros [(? & ? & ?)|[->|?]]; [done| |done].
    by rewrite (proj2 (is_caller_spec (Some admin) admin)) in Ea.
Qed.

Lemma is_some_spec {A} (o : option A) : is_some o = true <-> exists a, o = Some a.
Proof. destruct o; simpl; split; [eauto|done|done|]. by intros [? ?]. Qed.

(** A reserved namespace resource: only the rules of its own. *)
Lemma policy_reserved caller resource access rt grants admin :
  namespace_based rt = true -> reserved resource rt ->
  policy resource access rt grants admin caller
  <-> caller = Some admin \/ (open_to_callers resource access rt /\ exists c, caller = Some c).
Proof.
  intros Hn Hr. assert (Hw : well_formed_path resource rt) by (intros ->; discriminate). split.
  - inversion 1; subst; eauto; done.
  - intros [->|[Ho [c ->]]]; [by apply policy_admin|by apply policy_open].
Qed.

Lemma check_access_namespaced caller resource access rt grants admin :
  namespace_based rt = true ->
  check_access caller resource access rt grants admin = Ok tt
  <-> policy resource access rt grants admin caller.
Proof.
  intros Hn. unfold check_access. rewrite Hn.
  assert (Hw : well_formed_path resource rt) by (intros ->; discriminate).
  destruct (resource =s RAW_SQL_RESOURCE) eqn:E1.
  { apply eqs_true in E1 as ->. rewrite guard_ok, is_caller_spec, policy_reserved; [|done|].
    - split; [by auto|]. intros [|[Ho _]]; [done|]. exfalso.
      destruct Ho as [_ [?|[?|[? _]]]]; done.
    - left. auto. }
  destruct ((resource =s DDL_RESOURCE) || (resource =s SCHEMA_RESOURCE)) eqn:E2.
  { rewrite guard_ok, is_some_spec. apply orb_true_iff in E2. rewrite !eqs_true in E2.
    rewrite policy_reserved; [|done|left; split; [done|tauto]]. split.
    - intros Hc. right. split; [|done]. split; [done|tauto].
    - intros [->|[_ Hc]]; eauto. }
  apply orb_false_iff in E2 as [E2 E3]. bool_to_prop.
  destruct (rt_eqb rt (Some ResourceType.Auth) && is_auth_credential_resource resource) eqn:E4.
  { apply andb_true_iff in E4 as [Ea Ec]. apply rt_eqb_true in Ea.
    rewrite guard_ok, is_some_spec.
    rewrite policy_reserved; [|done|left; split; [done|unfold credential_op; tauto]]. split.
    - intros Hc. right. split; [|done]. split; [done|]. unfold credential_op. tauto.
    - intros [->|[_ Hc]]; eauto. }
  assert (Hcred : ~ credential_op resource rt).
  { intros [-> Hc]. by rewrite Hc in E4. }
  destruct (is_shared resource) eqn:E5.
  { rewrite policy_reserved; [|done|left; split; [done|tauto]].
    destruct (ResourceAccess.eqb access ResourceAccess.Read) eqn:Er; simpl.
    - apply access_eqb_true in Er as ->. rewrite guard_ok, is_some_spec. split.
      + intros Hc. right. split; [|done]. split; [done|tauto].
      + intros [->|[_ Hc]]; eauto.
    - rewrite guard_ok, is_caller_spec. split; [by auto|]. intros [|[Ho _]]; [done|].
      exfalso. by destruct Ho as [_ [?|[?|[_ [?|[_ ->]]]]]]. }
  rewrite policy_below_reserved; [|intros [[_ Hr]|[-> _]]; [|done]|done].
  2:{ destruct Hr as [?|[?|[?|[?|?]]]]; congruence. }
  unfold below_reserved.
  assert (owner_of resource rt = resource_owner resource) as ->
    by (destruct rt as [[]|]; done).
  destruct (resource_owner resource) as [o|] eqn:Eo.
  - destruct (is_caller caller o) eqn:Ec; [apply is_caller_spec in Ec as ->; split; [by eauto|done]|].
    destruct (is_caller caller admin) eqn:Ea; [apply is_caller_spec in Ea as ->; split; [by auto|done]|].
    destruct (some_grant_allows _ _ _ _ _) eqn:Eg; [split; [by auto|done]|].
    split; [discriminate|]. intros [(c & -> & [= ->])|[->|?]]; [| |done];
      rewrite (proj2 (is_caller_spec _ _) eq_refl) in *; done.
  - destruct (is_caller caller admin) eqn:Ea; [apply is_caller_spec in Ea as ->; split; [by auto|done]|].
    destruct (some_grant_allows _ _ _ _ _) eqn:Eg; [split; [by auto|done]|].
    split; [discriminate|]. intros [(c & -> & ?)|[->|?]]; [done| |done].
    rewrite (proj2 (is_caller_spec _ _) eq_refl) in *; done.
Qed.

Lemma check_access_iff_policy caller resource access rt grants admin :
  check_access caller resource access rt grants admin = Ok tt
  <-> policy resource access rt grants admin caller.
Proof.
  destruct (namespace_based rt) eqn:E;
    [by apply check_access_namespaced|by apply check_access_not_namespaced].
Qed.
End Policy.
