(* ===== verification/RegistrationFacts.v ===== *)
(** Invariants of the block registry over every sequence of its operations:
    block names are valid, every block has its slot, the dispatch snapshot
    holds registered blocks, and every installed grant has a provenance.
    Unless a configuration file loads an alias that [add_alias] refuses, names
    and aliases never overlap, alias resolution is a single hop, and the
    snapshot agrees with the registry. *)

From stdpp Require Import sorting.
From S2P Require Import Prelude CoreTypes Grants Wrap BlockName WrapGlob WrapPolicy.
From S2P Require Import Registration GrantFacts.

Section Facts.
Context {B Slot : Type} (new_slot : Slot) `{UnicodeLower} `{UrlCrate}.

Abbreviation core := (@RegistrationCore B Slot).

(** ** Sequences of operations *)

(** The registry transitions. The last two are the ends of [Wafer::seal]:
    [finalize_snapshot] ran, or an earlier step failed. Aliases of a
    configuration file go in unchecked; [loads] says which of them do. *)
Inductive reg_step (loads : core -> list (string * string) -> Prop) : core -> core -> Prop :=
| step_add_alias st alias target st' :
    add_alias st alias target = Ok st' -> reg_step loads st st'
| step_load_aliases st entries :
    loads st entries -> reg_step loads st (load_aliases st entries)
| step_register st name block info st' :
    register_block_inner new_slot st name block info = Ok st' -> reg_step loads st st'
| step_set_admin st id : reg_step loads st (set_admin_block st id)
| step_add_grants st grants st' :
    add_wrap_grants st grants = Ok st' -> reg_step loads st st'
| step_seal_ok st :
    sealed st = false ->
    reg_step loads st (let st' := rebuild_all_blocks st in
                 mkCore (blocks st') (all_blocks st') (aliases st') (slots st') (wrap st') true)
| step_seal_failed st :
    sealed st = false ->
    reg_step loads st (mkCore (blocks st) (all_blocks st) (aliases st) (slots st) (wrap st) true).

(** Every registry of the program: files may load any aliases. *)
Definition any_load (st : core) (entries : list (string * string)) : Prop := True.
Definition any_reachable : core -> Prop := rtc (reg_step any_load) core_new.

(** The registries whose files load only aliases that [add_alias] would take,
    one after another. *)
Fixpoint add_aliases (st : core) (entries : list (string * string)) : result core AliasError :=
  match entries with
  | [] => Ok st
  | (alias, target) :: entries => let? st := add_alias st alias target in add_aliases st entries
  end.
Definition checked_load (st : core) (entries : list (string * string)) : Prop := is_ok (add_aliases st entries) = true.
Definition reachable : core -> Prop := rtc (reg_step checked_load) core_new.

(** ** The invariants *)

(** A grant accepted from a registered block's own declaration. *)
Definition declared_by (st : core) (name : string) (g : ResourceGrant) : Prop :=
  exists rb, blocks st !! name = Some rb
    /\ In g (accepted (validate_and_collect_grants_for_block name
                         (bi_grants (rb_info rb)) (w_admin_block (wrap st)))).

(** What holds of every registry. *)
Record base_inv (st : core) : Prop := {
  base_names : forall n rb, blocks st !! n = Some rb ->
    valid_block_name n /\ bi_name (rb_info rb) = n
    /\ bi_validate (rb_info rb) n = Ok tt
    /\ rb_call_allowlist rb = call_allowlist (rb_info rb);
  base_slots : dom (slots st) = dom (blocks st);
  base_snapshot : forall n rb, all_blocks st !! n = Some rb -> exists m, blocks st !! m = Some rb;
  base_unsealed : sealed st = false -> all_blocks st = ∅;
  base_grants : forall g, In g (w_grants (wrap st)) ->
    In g (w_grants_external (wrap st)) \/ exists n, declared_by st n g;
  base_external : Forall (fun g => check_shape g = Ok tt) (w_grants_external (wrap st))
}.

(** What aliases must not break: a name is a block or an alias, an alias is
    one hop, and the snapshot is that of the registry. *)
Record well_aliased (st : core) : Prop := {
  wa_disjoint : forall n, is_Some (blocks st !! n) -> aliases st !! n = None;
  wa_one_hop : forall a t, aliases st !! a = Some t -> aliases st !! t = None;
  wa_snapshot : all_blocks st = ∅
    \/ (sealed st = true /\ all_blocks st = all_blocks (rebuild_all_blocks st))
}.

Record reg_inv (st : core) : Prop := { inv_base : base_inv st; inv_aliased : well_aliased st }.

Lemma inv_disjoint st : reg_inv st -> forall n, is_Some (blocks st !! n) -> aliases st !! n = None.
Proof. intros Hi. apply wa_disjoint, Hi. Qed.
Lemma inv_one_hop st : reg_inv st -> forall a t, aliases st !! a = Some t -> aliases st !! t = None.
Proof. intros Hi. apply wa_one_hop, Hi. Qed.

(** ** The snapshot *)

Definition snapshot_fold (bs : gmap string (@RegisteredBlock B)) (als : gmap string string)
  : gmap string (@RegisteredBlock B) :=
  map_fold (fun alias target acc =>
              match bs !! target with Some b => <[alias := b]> acc | None => acc end) bs als.

Lemma snapshot_lookup (bs : gmap string (@RegisteredBlock B)) (als : gmap string string) n :
  snapshot_fold bs als !! n =
  match als !! n with
  | Some t => match bs !! t with Some b => Some b | None => bs !! n end
  | None => bs !! n
  end.
Proof.
  unfold snapshot_fold. revert n.
  apply (map_fold_weak_ind (fun acc m => forall n, acc !! n =
    match m !! n with
    | Some t => match bs !! t with Some b => Some b | None => bs !! n end
    | None => bs !! n
    end)).
  - intros n. by rewrite lookup_empty.
  - intros a t m acc Hm IH n. destruct (decide (a = n)) as [->|Hne].
    + rewrite lookup_insert_eq. destruct (bs !! t) as [b|]; [by rewrite lookup_insert_eq|].
      by rewrite IH, Hm.
    + rewrite lookup_insert_ne by done. destruct (bs !! t); [|apply IH].
      rewrite lookup_insert_ne by done. apply IH.
Qed.

(** ** Preservation *)

Lemma base_inv_new : base_inv core_new.
Proof. split; simpl; try done; intros *; by rewrite ?lookup_empty. Qed.

Lemma well_aliased_new : well_aliased core_new.
Proof. split; simpl; [intros *; by rewrite ?lookup_empty..|by left]. Qed.

(** Aliases touch nothing else. *)
Lemma base_inv_aliases st als :
  base_inv st -> base_inv (mkCore (blocks st) (all_blocks st) als (slots st) (wrap st) (sealed st)).
Proof. by intros [Hn Hs Hsn Hu Hg He]. Qed.

Lemma existsb_no_target (als : gmap string string) (alias : string) :
  existsb (fun '(_, t) => t =s alias) (map_to_list als) = false ->
  forall a t, als !! a = Some t -> t <> alias.
Proof.
  intros He a t Ha ->. apply not_true_iff_false in He. apply He, existsb_exists.
  exists (a, alias). split; [|apply eqs_refl].
  by apply list_elem_of_In, elem_of_map_to_list.
Qed.

(** An alias that is taken goes in. *)
Lemma add_alias_ok (st : core) alias target (st' : core) : add_alias st alias target = Ok st' ->
  st' = mkCore (blocks st) (all_blocks st) (<[alias := target]> (aliases st)) (slots st) (wrap st) (sealed st).
Proof. unfold add_alias. intros Ha. repeat case_match; by simplify_eq. Qed.

Lemma well_aliased_add st alias target st' :
  base_inv st -> well_aliased st -> add_alias st alias target = Ok st' -> well_aliased st'.
Proof.
  intros Hb [Hd Ho Hsn]. unfold add_alias.
  destruct (sealed st) eqn:Esl; [discriminate|].
  destruct (alias =s target) eqn:Ect; [discriminate|]. apply eqs_false in Ect.
  destruct (aliases st !! alias) eqn:Ea; [discriminate|].
  case_bool_decide as Et; [discriminate|]. apply eq_None_not_Some in Et.
  destruct (existsb _ _) eqn:Ex; [discriminate|].
  case_bool_decide as Eb; [discriminate|]. apply eq_None_not_Some in Eb.
  intros [= <-]. split; simpl.
  - intros n Hbl. rewrite lookup_insert_ne; [by apply Hd|]. intros <-. by destruct Hbl; simplify_eq.
  - intros a t Hat. destruct (decide (alias = a)) as [<-|Hne].
    + rewrite lookup_insert_eq in Hat. injection Hat as <-. by rewrite lookup_insert_ne.
    + rewrite lookup_insert_ne in Hat by done. rewrite lookup_insert_ne; [eauto|].
      intros <-. by eapply (existsb_no_target _ _ Ex).
  - left. by apply (base_unsealed _ Hb).
Qed.

(** Checked aliases load as [add_alias] takes them. *)
Lemma add_aliases_load st entries st' :
  base_inv st -> well_aliased st -> add_aliases st entries = Ok st' -> st' = load_aliases st entries /\ well_aliased st'.
Proof.
  revert st. induction entries as [|[alias target] entries IH]; intros st Hb Hw; simpl.
  - intros [= <-]. split; [by destruct st|done].
  - destruct (add_alias st alias target) as [st1|] eqn:E; simpl; [|discriminate]. intros Ha.
    pose proof (well_aliased_add _ _ _ _ Hb Hw E) as Hw1. apply add_alias_ok in E as ->.
    apply (IH _ (base_inv_aliases st _ Hb) Hw1) in Ha as [-> Hw']. done.
Qed.

Lemma admit_block_ok (st : core) name info i : admit_block st name info = Ok i ->
  i = info /\ sealed st = false /\ blocks st !! name = None /\ aliases st !! name = None /\ valid_block_name name
  /\ bi_name info = name /\ bi_validate info name = Ok tt.
Proof.
  unfold admit_block. destruct (sealed st); [discriminate|].
  case_bool_decide as Eb; [discriminate|]. apply eq_None_not_Some in Eb.
  destruct (aliases st !! name); [discriminate|].
  destruct (validate_block_name name) as [[]|] eqn:Ev; [|discriminate].
  destruct (bi_name info =s name) eqn:En; [|discriminate]. apply eqs_true in En.
  destruct (bi_validate info name) as [[]|]; [|discriminate]. by intros [= <-].
Qed.

Lemma base_inv_insert st name block info i :
  base_inv st -> admit_block st name info = Ok i -> base_inv (insert_block_with_grants new_slot st name block i).
Proof.
  intros [Hn Hs Hsn Hu Hg He] (-> & Esl & Eb & _ & Hv & Hname & Hval)%admit_block_ok.
  split; simpl; try done.
  - intros n rb. destruct (decide (name = n)) as [<-|Hne].
    + rewrite lookup_insert_eq. by intros [= <-].
    + rewrite lookup_insert_ne by done. apply Hn.
  - by rewrite !dom_insert_L, Hs.
  - intros n rb. by rewrite (Hu Esl), lookup_empty.
  - intros g [Hin|Hin]%in_app_or.
    + destruct (Hg g Hin) as [|(n & rb & Hrb & Hacc)]; [by left|right].
      exists n, rb. simpl. split; [|done]. rewrite lookup_insert_ne; [done|]. intros <-. congruence.
    + right. exists name, (registered_new block info). simpl. by rewrite lookup_insert_eq.
Qed.

Lemma well_aliased_insert st name block info i :
  base_inv st -> well_aliased st -> admit_block st name info = Ok i ->
  well_aliased (insert_block_with_grants new_slot st name block i).
Proof.
  intros Hb [Hd Ho Hsn] (-> & Esl & _ & Ea & _)%admit_block_ok. split; simpl; [|done|left; by apply (base_unsealed _ Hb)].
  intros n Hbl. destruct (decide (name = n)) as [<-|Hne]; [done|]. rewrite lookup_insert_ne in Hbl by done. by apply Hd.
Qed.

Lemma rebuild_fold_grants (bs : gmap string (@RegisteredBlock B)) admin names m0 e0 m e :
  fold_left (fun '(merged, errs) name =>
      match bs !! name with
      | Some rb =>
          let out := validate_and_collect_grants_for_block name (bi_grants (rb_info rb)) admin in
          (merged ++ accepted out, errs ++ rejected out)
      | None => (merged, errs)
      end) names (m0, e0) = (m, e) ->
  forall g, In g m -> In g m0 \/ exists n rb, bs !! n = Some rb /\
    In g (accepted (validate_and_collect_grants_for_block n (bi_grants (rb_info rb)) admin)).
Proof.
  revert m0 e0; induction names as [|n names IH]; intros m0 e0; simpl.
  - intros [= <- <-]. auto.
  - destruct (bs !! n) as [rb|] eqn:E; [|apply IH]. intros Hf g Hin.
    destruct (IH _ _ Hf g Hin) as [[?|?]%in_app_or|?]; eauto.
Qed.

Lemma rebuild_wrap_grants_same (st : core) :
  let st' := rebuild_wrap_grants st in
  blocks st' = blocks st /\ all_blocks st' = all_blocks st /\ aliases st' = aliases st
  /\ slots st' = slots st /\ sealed st' = sealed st.
Proof. unfold rebuild_wrap_grants. by destruct (fold_left _ _ _). Qed.

(** A registry with the names of another. *)
Lemma well_aliased_same (st st' : core) :
  blocks st' = blocks st -> all_blocks st' = all_blocks st -> aliases st' = aliases st -> sealed st' = sealed st ->
  well_aliased st -> well_aliased st'.
Proof.
  intros Eb Eall Ea Es [Hd Ho Hsn]. split; rewrite ?Eb, ?Eall, ?Ea, ?Es; [done..|].
  destruct Hsn as [|[? Hall]]; [by left|right]. split; [done|]. rewrite Hall. unfold rebuild_all_blocks. simpl. by rewrite Eb, Ea.
Qed.

Lemma base_inv_set_admin st id : base_inv st -> base_inv (set_admin_block st id).
Proof.
  intros [Hn Hs Hsn Hu Hg He]. unfold set_admin_block, rebuild_wrap_grants. simpl.
  destruct (fold_left _ _ _) as [merged errs] eqn:E. split; simpl; try done.
  intros g [Hin|Hin]%in_app_or; [|by left].
  destruct (rebuild_fold_grants _ _ _ _ _ _ _ E g Hin) as [[]|(n & rb & ? & ?)].
  right. exists n, rb. auto.
Qed.

Lemma omap_nil_forall (gs : list ResourceGrant) (f : ResourceGrant -> option GrantValidationError) :
  omap f gs = [] -> Forall (fun g => f g = None) gs.
Proof.
  induction gs as [|g gs IH]; simpl; [constructor|].
  destruct (f g) eqn:E; [discriminate|]. constructor; auto.
Qed.

Lemma base_inv_add_grants st gs st' :
  base_inv st -> add_wrap_grants st gs = Ok st' -> base_inv st'.
Proof.
  intros [Hn Hs Hsn Hu Hg He]. unfold add_wrap_grants.
  destruct (omap _ gs) eqn:E; [|discriminate]. intros [= <-]. split; simpl; try done.
  - intros g [Hin|Hin]%in_app_or; [|left; apply in_or_app; by right].
    destruct (Hg g Hin) as [|(n & rb & ? & ?)]; [left; apply in_or_app; by left|].
    right. exists n, rb. auto.
  - apply Forall_app. split; [done|]. apply omap_nil_forall in E.
    eapply Forall_impl; [exact E|]. intros g. simpl. by destruct (check_shape g) as [[]|].
Qed.

(** The snapshot holds registered blocks. *)
Lemma base_inv_seal st : base_inv st ->
  base_inv (mkCore (blocks st) (all_blocks (rebuild_all_blocks st)) (aliases st) (slots st) (wrap st) true).
Proof.
  intros [Hn Hs Hsn Hu Hg He]. split; simpl; try done. intros n rb. fold (snapshot_fold (blocks st) (aliases st)).
  rewrite snapshot_lookup. destruct (aliases st !! n) as [t|]; [|eauto]. destruct (blocks st !! t) eqn:E; [|eauto].
  intros [= <-]. eauto.
Qed.

Lemma base_inv_step loads st st' : base_inv st -> reg_step loads st st' -> base_inv st'.
Proof.
  intros Hi Hst. destruct Hst as [st alias target st' Hs|st entries _|st name block info st' Hs|st id
    |st gs st' Hs|st Hs|st Hs].
  - apply add_alias_ok in Hs as ->. by apply base_inv_aliases.
  - by apply base_inv_aliases.
  - unfold register_block_inner in Hs. destruct (admit_block st name info) as [i|e] eqn:E; [|discriminate].
    injection Hs as <-. by eapply base_inv_insert.
  - by apply base_inv_set_admin.
  - by eapply base_inv_add_grants.
  - exact (base_inv_seal st Hi).
  - by destruct Hi.
Qed.

Lemma well_aliased_step st st' : base_inv st -> well_aliased st -> reg_step checked_load st st' -> well_aliased st'.
Proof.
  intros Hb Hw Hst. destruct Hst as [st alias target st' Hs|st entries Hs|st name block info st' Hs|st id
    |st gs st' Hs|st Hs|st Hs].
  - by eapply well_aliased_add.
  - unfold checked_load in Hs. destruct (add_aliases st entries) as [st'|] eqn:E; [|done].
    by apply add_aliases_load in E as [-> ?].
  - unfold register_block_inner in Hs. destruct (admit_block st name info) as [i|e] eqn:E; [|discriminate].
    injection Hs as <-. by eapply well_aliased_insert.
  - destruct (rebuild_wrap_grants_same (mkCore (blocks st) (all_blocks st) (aliases st) (slots st)
      (mkWrap (w_grants (wrap st)) (w_grants_external (wrap st)) id (w_validation_errors (wrap st))) (sealed st)))
      as (? & ? & ? & _ & ?). by apply (well_aliased_same st).
  - unfold add_wrap_grants in Hs. destruct (omap _ gs); [|discriminate]. injection Hs as <-. by apply (well_aliased_same st).
  - destruct Hw. split; simpl; try done. by right.
  - destruct Hw. split; simpl; try done. left. by apply (base_unsealed _ Hb).
Qed.

Lemma reg_inv_step st st' : reg_inv st -> reg_step checked_load st st' -> reg_inv st'.
Proof. intros [Hb Hw] Hst. split; [by eapply base_inv_step|by eapply well_aliased_step]. Qed.

Lemma base_inv_reachable st : any_reachable st -> base_inv st.
Proof.
  intros Hr. eapply (rtc_ind_r base_inv core_new); [apply base_inv_new| |exact Hr].
  intros s s' _ Hstep Hi. by eapply base_inv_step.
Qed.

Lemma reg_inv_reachable st : reachable st -> reg_inv st.
Proof.
  intros Hr. eapply (rtc_ind_r reg_inv core_new); [split; [apply base_inv_new|apply well_aliased_new]| |exact Hr].
  intros s s' _ Hstep Hi. by eapply reg_inv_step.
Qed.

Lemma reachable_any st : reachable st -> any_reachable st.
Proof.
  intros Hr. eapply rtc_subrel; [|exact Hr]. intros s s' Hst. destruct Hst as [s a t s' Hs|s es _|s n b i s' Hs|s id|s gs s' Hs|s Hs|s Hs].
  - by eapply step_add_alias.
  - by apply step_load_aliases.
  - by eapply step_register.
  - apply step_set_admin.
  - by eapply step_add_grants.
  - by apply step_seal_ok.
  - by apply step_seal_failed.
Qed.

(** ** Consequences *)

(** A dispatch target is a registered block under its canonical name, which
    resolves to itself. *)
Lemma lookup_with_alias_sound st name res b :
  reg_inv st -> lookup_with_alias st name = Some (res, b) ->
  blocks st !! res = Some b /\ canonicalize st res = res
  /\ (res = name \/ aliases st !! name = Some res).
Proof.
  intros [Hb [Hd Ho Hsn]]. unfold lookup_with_alias, canonicalize.
  destruct (all_blocks st !! default name (aliases st !! name)) as [b'|] eqn:E; [|discriminate].
  intros [= <- ->].
  destruct Hsn as [Hem|[_ Hall]]; [by rewrite Hem, lookup_empty in E|].
  rewrite Hall in E. unfold rebuild_all_blocks in E. simpl in E.
  fold (snapshot_fold (blocks st) (aliases st)) in E. rewrite snapshot_lookup in E.
  destruct (aliases st !! name) as [t|] eqn:Ea; simpl in *.
  - rewrite (Ho _ _ Ea) in *. simpl. auto.
  - rewrite Ea in *. simpl. auto.
Qed.

(** Whatever the aliases are, dispatch finds a registered block. *)
Lemma lookup_with_alias_registered st name res b :
  base_inv st -> lookup_with_alias st name = Some (res, b) -> exists n, blocks st !! n = Some b.
Proof.
  intros Hb. unfold lookup_with_alias. destruct (all_blocks st !! _) as [b'|] eqn:E; [|discriminate].
  intros [= <- <-]. by eapply (base_snapshot _ Hb).
Qed.

(** After a successful seal every registered block is found under its name. *)
Lemma lookup_with_alias_complete st name rb :
  reg_inv st -> all_blocks st = all_blocks (rebuild_all_blocks st) ->
  blocks st !! name = Some rb -> lookup_with_alias st name = Some (name, rb).
Proof.
  intros Hi Hall Hb. unfold lookup_with_alias, canonicalize.
  assert (Ha : aliases st !! name = None) by (apply (inv_disjoint _ Hi); eauto).
  rewrite Ha. simpl. rewrite Hall. unfold rebuild_all_blocks. simpl.
  fold (snapshot_fold (blocks st) (aliases st)). by rewrite snapshot_lookup, Ha, Hb.
Qed.

(** Who a grant of the registry can come from. *)
Lemma grant_provenance st g r :
  base_inv st -> In g (w_grants (wrap st)) ->
  ~ In g (w_grants_external (wrap st)) ->
  namespaced_type (g_type g) = true -> is_ascii (g_resource g) = true ->
  grant_matches_resource (g_resource g) r = true ->
  exists owner rb, typed_resource_owner r (g_type g) = Some owner
    /\ blocks st !! owner = Some rb /\ In g (bi_grants (rb_info rb)).
Proof.
  intros Hi Hin Hext Hn Ha Hm.
  destruct (base_grants _ Hi g Hin) as [|(n & rb & Hrb & Hacc)]; [done|].
  exists n, rb. split; [|split; [done|by apply collect_accepted in Hacc as [? _]]].
  destruct (base_names _ Hi n rb Hrb) as [Hv _].
  by eapply accepted_grant_confined.
Qed.
End Facts.
