(* ===== verification/WrapProps.v ===== *)
(** The properties of WRAP and of the registry that feeds it. *)

From stdpp Require Import sorting.
From S2P Require Import Prelude CoreTypes Grants Wrap BlockName WrapGlob WrapPolicy.
From S2P Require Import Registration GrantFacts RegistrationFacts.

(** ** Concrete parameters for the witnesses *)

(** Lower-casing that touches ASCII letters only. *)
#[export] Program Instance ascii_only_lower : UnicodeLower :=
  {| to_lowercase := to_ascii_lowercase |}.
Next Obligation. done. Qed.
Next Obligation. intros a r _. exists (to_ascii_lowercase r). apply str_map_app. Qed.

(** A parser of [scheme://host/path] URLs without ports. *)
#[export] Instance simple_url : UrlCrate :=
  {| url_parse s :=
       match find "://" s with
       | None => None
       | Some i =>
           let rest := str_drop (i + 3) s in
           let '(host, path) := match split_once "/" rest with
                                | Some (h, p) => (h, "/" +:+ p)
                                | None => (rest, "/")
                                end in
           Some (mkUrl (str_take i s) (Some host) None path)
       end |}.

(** ** The access decision *)

(** C1: [check_access] allows an access exactly when the declarative policy
    does: the admin (on well-formed paths), an identified caller for the open
    operations, the owner, or a holder of a matching grant - the last two never
    on a reserved resource; everything else, and every anonymous caller, is
    denied. *)
Theorem check_access_refines_policy `{UnicodeLower} `{UrlCrate}
    (caller : option string) (resource : string) (access : ResourceAccess.t)
    (rt : option ResourceType.t) (grants : list ResourceGrant) (admin : string) :
  (check_access caller resource access rt grants admin = Ok tt
   <-> policy resource access rt grants admin caller)
  /\ (caller = None -> exists d, check_access caller resource access rt grants admin = Err d
                                 /\ denial_code d = ErrorCode.PermissionDenied).
Proof.
  split; [apply check_access_iff_policy|]. intros ->.
  destruct (check_access None resource access rt grants admin) as [[]|d] eqn:E.
  - apply check_access_iff_policy in E. inversion E.
  - by exists d.
Qed.

Lemma check_access_refines_policy_witness :
  exists d, check_access None "my_org__auth__users" ResourceAccess.Read
              (Some ResourceType.Db) [grant_read "*" "*"] "my-org/admin" = Err d
            /\ denial_code d = ErrorCode.PermissionDenied.
Proof.
  refine (proj2 (check_access_refines_policy None "my_org__auth__users" ResourceAccess.Read
    (Some ResourceType.Db) [grant_read "*" "*"] "my-org/admin") _). reflexivity.
Defined.

(** no grant, however wide, opens the admin-only resources: raw SQL, the
    global folder listing, and writes (appends included) to the shared
    configuration. *)
Theorem admin_only_resources `{UnicodeLower} `{UrlCrate}
    (c resource : string) (access : ResourceAccess.t) (rt : option ResourceType.t)
    (grants : list ResourceGrant) (admin : string) :
  (resource = RAW_SQL_RESOURCE /\ namespace_based rt = true)
  \/ (resource = STORAGE_LIST_ALL_RESOURCE /\ rt = Some ResourceType.Storage)
  \/ (is_shared resource = true /\ namespace_based rt = true /\ access <> ResourceAccess.Read) ->
  check_access (Some c) resource access rt grants admin = Ok tt <-> c = admin.
Proof.
  intros Hres. rewrite check_access_iff_policy.
  assert (Hw : well_formed_path resource rt).
  { intros ->. destruct Hres as [[_ ?]|[[-> _]|(_ & ? & _)]]; done. }
  assert (Hr : reserved resource rt).
  { destruct Hres as [[-> Hn]|[[-> ->]|(Hs & Hn & _)]]; [left|right|left]; auto 6. }
  split; [|intros ->; by apply policy_admin].
  inversion 1 as [|c' Ho| |]; subst; try done.
  exfalso. destruct Ho as [Hn Ho].
  destruct Hres as [[-> _]|[[_ ->]|(Hs & _ & Hacc)]]; [|done|].
  - destruct Ho as [?|[?|[? _]]]; done.
  - destruct Ho as [->|[->|[_ [[_ Hc]|[_ ?]]]]]; try done.
    unfold is_auth_credential_resource in Hc. apply orb_true_iff in Hc as [Hc|Hc];
      [apply orb_true_iff in Hc as [Hc|Hc]|]; apply eqs_true in Hc as ->; done.
Qed.

Lemma admin_only_resources_witness :
  check_access (Some "evil/block") "__raw_sql__" ResourceAccess.Write (Some ResourceType.Db)
    [grant_read_write "*" "*"] "my-org/admin" = Ok tt <-> "evil/block" = "my-org/admin".
Proof.
  apply (admin_only_resources "evil/block" "__raw_sql__" ResourceAccess.Write
    (Some ResourceType.Db) [grant_read_write "*" "*"] "my-org/admin").
  left. split; reflexivity.
Defined.

(** The segments of a safe path. *)
Lemma traversal_safe_segments (path : string) :
  is_traversal_safe_path path = true ->
  Forall (fun seg => seg <> "" /\ seg <> "." /\ seg <> ".." /\ contains "\" seg = false)
    (split "/" path).
Proof.
  unfold is_traversal_safe_path. intros Hw. apply Forall_forall. intros seg Hin.
  apply list_elem_of_In in Hin.
  assert (Hs : unsafe_segment seg = false).
  { apply not_true_is_false. intros Hs. apply negb_true_iff, not_true_iff_false in Hw.
    apply Hw, existsb_exists. by exists seg. }
  unfold unsafe_segment in Hs. rewrite !orb_false_iff in Hs.
  destruct Hs as [[[H1 H2] H3] H4]. split_and!; [| | |done]; intros ->; discriminate.
Qed.

(** without a grant, a block reaches only its own storage tree: the path is
    the block's root or lies beneath it, and no segment of it is empty, [.],
    [..] or holds a backslash - so no admitted path climbs out. *)
Theorem storage_confinement `{UnicodeLower} `{UrlCrate}
    (c path : string) (access : ResourceAccess.t) (admin : string) :
  c <> admin ->
  check_access (Some c) path access (Some ResourceType.Storage) [] admin = Ok tt ->
  (path = c \/ starts_with (c +:+ "/") path = true)
  /\ Forall (fun seg => seg <> "" /\ seg <> "." /\ seg <> ".." /\ contains "\" seg = false)
       (split "/" path).
Proof.
  intros Hne Hok. apply check_access_iff_policy in Hok.
  inversion Hok as [|c' Ho|c' Hr Hw Ho|c' g _ _ []]; subst; [done|by destruct Ho|].
  specialize (Hw eq_refl). split.
  - apply storage_owner_shape in Ho as (org & block & -> & _ & _ & _ & [[-> _]|(rest & -> & _)]).
    + by left.
    + right. apply starts_with_spec. exists rest. by rewrite <- !str_app_assoc.
  - by apply traversal_safe_segments.
Qed.

Lemma storage_confinement_witness :
  ("acme/app/uploads/a.png" = "acme/app"
   \/ starts_with ("acme/app" +:+ "/") "acme/app/uploads/a.png" = true)
  /\ Forall (fun seg => seg <> "" /\ seg <> "." /\ seg <> ".." /\ contains "\" seg = false)
       (split "/" "acme/app/uploads/a.png").
Proof.
  apply (storage_confinement "acme/app" "acme/app/uploads/a.png" ResourceAccess.Write
    "my-org/admin"); [discriminate|reflexivity].
Defined.

(** ** Names *)

(** the resource prefix of a valid block name determines the block: every
    name under it is owned by that block, and no other block's prefix covers
    it. *)
Theorem namespace_roundtrip `{UnicodeLower} (b b2 rest : string) :
  valid_block_name b ->
  resource_owner (resource_prefix b +:+ rest) = Some b
  /\ (valid_block_name b2 ->
      starts_with (resource_prefix b2) (resource_prefix b +:+ rest) = true -> b2 = b).
Proof.
  intros Hb. split; [by apply resource_owner_prefix|]. intros Hb2 Hs.
  eapply resource_prefix_disjoint; [done|done|exact Hs|apply starts_with_app].
Qed.

Lemma namespace_roundtrip_witness :
  resource_owner "my_org__auth__JWT_secret" = Some "my-org/auth"
  /\ (valid_block_name "my-org/auth2" ->
      starts_with (resource_prefix "my-org/auth2") "my_org__auth__JWT_secret" = true ->
      "my-org/auth2" = "my-org/auth").
Proof.
  apply (namespace_roundtrip "my-org/auth" "my-org/auth2" "JWT_secret"). reflexivity.
Defined.

(** ** Patterns *)

(** a glob pattern never matches more than its meaning, and matches exactly
    it when the pattern ends in a star or has none. With a last piece after a
    star a text it means can be missed: the scan takes the leftmost occurrence
    of the last piece and then requires the end. *)
Theorem glob_matches_meaning (p r : string) :
  (glob_matches p r = true -> glob p r)
  /\ (ends_with "*" p = true \/ contains "*" p = false ->
      glob p r -> glob_matches p r = true)
  /\ (glob "acme__app__*_log" "acme__app__a_log_log"
      /\ glob_matches "acme__app__*_log" "acme__app__a_log_log" = false).
Proof.
  split; [apply glob_matches_sound|]. split; [|split; [|reflexivity]].
  2: { apply glob_pieces. exists "a_log", "_log". split; reflexivity. }
  intros [He|Hn] Hg; [by apply glob_matches_complete_star|].
  apply glob_pieces in Hg. unfold glob_matches. unfold contains in Hn.
  rewrite split_no_sep in Hg |- * by (apply find_char_none; by destruct (find "*" p)).
  simpl in *. subst. apply eqs_refl.
Qed.

Lemma glob_matches_meaning_witness :
  glob "acme__*__logs*" "acme__x__logs1" /\ glob_matches "acme__*__logs*" "acme__x__logs1" = true.
Proof.
  assert (H : glob "acme__*__logs*" "acme__x__logs1")
    by (apply (proj1 (glob_matches_meaning "acme__*__logs*" "acme__x__logs1")); reflexivity).
  split; [exact H|].
  apply (proj1 (proj2 (glob_matches_meaning "acme__*__logs*" "acme__x__logs1")));
    [left; reflexivity|exact H].
Defined.

Lemma strip_prefix_ext_None (a b s : string) :
  starts_with a s = false -> strip_prefix (a +:+ b) s = None.
Proof.
  intros Hs. destruct (strip_prefix (a +:+ b) s) as [r|] eqn:E; [|done].
  apply strip_prefix_Some in E as ->.
  by rewrite <- str_app_assoc, starts_with_app in Hs.
Qed.

#[local] Arguments strip_suffix : simpl never.
#[local] Arguments contains : simpl never.

(** a URL pattern confines the host: both sides parse, the schemes agree,
    and a one-level wildcard host [*.d] admits exactly the hosts made of one
    non-empty dot-free label before [.d]; a host pattern without a leading star
    admits only that host. *)
Theorem url_pattern_confined `{UrlCrate} (p r : string) :
  url_pattern_matches p r = true ->
  exists up ur, url_parse (replace_char "*" STAR_SENTINEL p) = Some up
    /\ url_parse r = Some ur /\ url_scheme up = url_scheme ur
    /\ forall ph rh, url_host_str up = Some ph -> url_host_str ur = Some rh ->
       let pat := to_ascii_lowercase (replace STAR_SENTINEL "*" ph) in
       (forall d, pat = "*." +:+ d ->
          exists label, to_ascii_lowercase rh = label +:+ "." +:+ d
            /\ label <> "" /\ contains "." label = false)
       /\ (starts_with "*" pat = false -> to_ascii_lowercase rh = pat).
Proof.
  unfold url_pattern_matches.
  destruct (url_parse (replace_char _ _ p)) as [up|]; [|discriminate].
  destruct (url_parse r) as [ur|]; [|discriminate].
  destruct (url_scheme up =s url_scheme ur) eqn:Es; [|discriminate]. simpl.
  destruct (host_matches _ _) eqn:Eh; [|discriminate]. simpl. intros _.
  exists up, ur. split; [done|]. split; [done|]. split; [by apply eqs_true|].
  intros ph rh Hp Hr. rewrite Hp, Hr in Eh. simpl in Eh. unfold host_pattern_matches in Eh.
  set (pat := to_ascii_lowercase (replace STAR_SENTINEL "*" ph)) in *. split.
  - intros d Hd. rewrite Hd in Eh. simpl in Eh.
    destruct (strip_suffix (String "." d) _) as [label|] eqn:El; [|discriminate].
    apply strip_suffix_Some in El. apply andb_true_iff in Eh as [E1 E2].
    exists label. apply negb_true_iff in E1, E2. split; [done|]. split; [by destruct label|done].
  - intros Hs. change "**." with ("*" +:+ "*.") in Eh. change "*." with ("*" +:+ ".") in Eh.
    rewrite !strip_prefix_ext_None in Eh by done.
    destruct (pat =s "*") eqn:Ep; [apply eqs_true in Ep; by rewrite Ep in Hs|].
    symmetry. by apply eqs_true.
Qed.

Lemma url_pattern_confined_witness :
  url_pattern_matches "https://*.example.com/*" "https://api.example.com/v1" = true
  /\ url_pattern_matches "https://*.example.com/*" "https://example.com.attacker.com/v1" = false
  /\ exists up ur, url_parse (replace_char "*" STAR_SENTINEL "https://*.example.com/*") = Some up
    /\ url_parse "https://api.example.com/v1" = Some ur /\ url_scheme up = url_scheme ur
    /\ forall ph rh, url_host_str up = Some ph -> url_host_str ur = Some rh ->
       let pat := to_ascii_lowercase (replace STAR_SENTINEL "*" ph) in
       (forall d, pat = "*." +:+ d ->
          exists label, to_ascii_lowercase rh = label +:+ "." +:+ d
            /\ label <> "" /\ contains "." label = false)
       /\ (starts_with "*" pat = false -> to_ascii_lowercase rh = pat).
Proof.
  split; [reflexivity|]. split; [reflexivity|].
  apply (url_pattern_confined "https://*.example.com/*" "https://api.example.com/v1").
  reflexivity.
Defined.
