(* ===== verification/RegistryProps.v ===== *)
(** The properties of the block registry: what every registry of the program
    satisfies, whatever aliases its configuration files load, what one with
    checked aliases satisfies besides, what sealing freezes, and who can open a
    resource to whom once the registry's grants meet the access decision. *)

From S2P Require Import Prelude CoreTypes Grants Wrap BlockName WrapGlob WrapPolicy.
From S2P Require Import Registration GrantFacts RegistrationFacts WrapProps.

(** ** Lemmas *)

#[global] Instance ResourceGrant_eq_dec : EqDecision ResourceGrant.
Proof. solve_decision. Defined.

Section Lemmas.
Context {B Slot : Type} (new_slot : Slot) `{UnicodeLower}.
Abbreviation core := (@RegistrationCore B Slot).

(** What a step leaves alone once the registry is sealed. *)
Definition same_registry (st st' : core) : Prop :=
  blocks st' = blocks st /\ all_blocks st' = all_blocks st /\ aliases st' = aliases st
  /\ slots st' = slots st /\ sealed st' = true.

Lemma sealed_step (st st' : core) :
  sealed st = true -> reg_step new_slot checked_load st st' -> same_registry st st'.
Proof.
  intros Hs Hst. destruct Hst as [st alias target st' E|st entries E|st name block info st' E|st id
    |st gs st' E|st E|st E]; try congruence.
  - unfold add_alias in E. rewrite Hs in E. discriminate.
  - destruct entries as [|[alias target] entries]; [by unfold same_registry|].
    unfold checked_load in E. simpl in E. unfold add_alias in E. by rewrite Hs in E.
  - unfold register_block_inner, admit_block in E. rewrite Hs in E. discriminate.
  - unfold same_registry, set_admin_block.
    match goal with |- context [rebuild_wrap_grants ?s] =>
      destruct (rebuild_wrap_grants_same s) as (-> & -> & -> & -> & ->) end. done.
  - unfold add_wrap_grants in E. destruct (omap _ gs); [|discriminate].
    injection E as <-. by unfold same_registry.
Qed.

Lemma judge_accept_shape (b admin : string) (g : ResourceGrant) :
  judge_grant b admin g = Accept -> check_shape g = Ok tt.
Proof. unfold judge_grant. by destruct (check_shape g) as [[]|e]. Qed.

Lemma installed_grant_shape (st : core) (g : ResourceGrant) :
  base_inv st -> In g (w_grants (wrap st)) -> check_shape g = Ok tt.
Proof.
  intros Hi Hin. destruct (base_grants _ Hi g Hin) as [He|(n & rb & _ & Ha)].
  - pose proof (base_external _ Hi) as Hf. rewrite Forall_forall in Hf.
    by apply Hf, list_elem_of_In.
  - apply collect_accepted in Ha as [_ Hj]. by eapply judge_accept_shape.
Qed.

Lemma grant_allows_spec `{UrlCrate} g c r a rt :
  grant_allows g c r a rt = true ->
  grant_matches_grantee (grantee g) c = true
  /\ grant_matches_resource (g_resource g) r = true /\ admits g a = true
  /\ (g_type g = None \/ g_type g = rt).
Proof.
  unfold grant_allows. intros Hg.
  destruct (grant_matches_grantee _ _); [|discriminate].
  destruct (grant_matches_resource _ _); [|discriminate].
  destruct (admits g a); [|discriminate].
  destruct (g_type g); [|auto]. apply rt_eqb_true in Hg. auto.
Qed.

(** Every operation that needs only appends is one of the two plain inserts. *)
Definition append_only_entry (e : string * DatabaseOpAccess.t) : bool :=
  match snd e with
  | DatabaseOpAccess.On accs =>
      negb (forallb (fun a => ResourceAccess.eqb a ResourceAccess.Append) accs)
      || (fst e =s "database.create") || (fst e =s "database.create_many")
  | DatabaseOpAccess.PerWrite => true
  end.

Lemma append_only_ops_spec op accs :
  In (op, DatabaseOpAccess.On accs) DATABASE_OP_ACCESS ->
  forallb (fun a => ResourceAccess.eqb a ResourceAccess.Append) accs = true ->
  op = "database.create" \/ op = "database.create_many".
Proof.
  intros Hin Ha.
  assert (Hall : forallb append_only_entry DATABASE_OP_ACCESS = true) by reflexivity.
  rewrite forallb_forall in Hall. specialize (Hall _ Hin).
  unfold append_only_entry in Hall. simpl in Hall. rewrite Ha in Hall. simpl in Hall.
  apply orb_true_iff in Hall as [E|E]; apply eqs_true in E; auto.
Qed.

Lemma owner_of_grant_type r rt t :
  namespace_based rt = true -> t = None \/ t = rt ->
  namespaced_type t = true /\ typed_resource_owner r t = owner_of r rt.
Proof. destruct rt as [[]|]; try discriminate; intros _ [->| ->]; done. Qed.
End Lemmas.

(** ** The properties *)

(** C2: In every registry of the program, whatever aliases its configuration
    files load and whenever, the blocks have valid names that they report
    themselves, each has a slot, every grant has a provenance, the snapshot is
    empty before the seal, and dispatch by any name finds only a registered
    block. As long as names and aliases are disjoint, aliases are one hop and
    the snapshot is in step, what dispatch finds is the block registered under
    the canonical name, the name itself or its alias's target; and that is so
    of every registry whose files load only aliases that [add_alias] takes. *)
Theorem registry_reachable_ok {B Slot} (new_slot : Slot) `{UnicodeLower}
    (st : @RegistrationCore B Slot) :
  any_reachable new_slot st ->
  base_inv st
  /\ (forall name res b, lookup_with_alias st name = Some (res, b) -> exists n, blocks st !! n = Some b /\ valid_block_name n)
  /\ (well_aliased st -> forall name res b, lookup_with_alias st name = Some (res, b) ->
      blocks st !! res = Some b /\ canonicalize st res = res
      /\ (res = name \/ aliases st !! name = Some res))
  /\ (reachable new_slot st -> well_aliased st).
Proof.
  intros Hr. assert (Hb : base_inv st) by (by eapply base_inv_reachable). split_and!.
  - done.
  - intros name res b Hl. destruct (lookup_with_alias_registered st name res b Hb Hl) as [n Hn].
    exists n. split; [done|]. by apply (base_names _ Hb n b).
  - intros Hw name res b. by apply lookup_with_alias_sound.
  - intros Hc. eapply inv_aliased, reg_inv_reachable, Hc.
Qed.

(** A concrete registry: a block that shares its events table, and an alias. *)
Definition events_info : BlockInfo :=
  mkInfo "acme/app" "http-handler@v1" [] [] ["ACME__APP__MODE"] []
    [grant_append "other/stats" "acme__app__events*"] [] None.

Definition sample_ops : result (@RegistrationCore unit unit) RuntimeError :=
  match register_block_inner tt core_new "acme/app" tt events_info with
  | Ok st => match add_alias st "app" "acme/app" with
             | Ok st => Ok (set_admin_block st "my-org/admin")
             | Err _ => Err RegisteredAfterSeal
             end
  | Err e => Err e
  end.

Definition sample_core : @RegistrationCore unit unit :=
  match sample_ops with
  | Ok st => let st' := rebuild_all_blocks st in
             mkCore (blocks st') (all_blocks st') (aliases st') (slots st') (wrap st') true
  | Err _ => core_new
  end.

Lemma sample_reachable : reachable tt sample_core.
Proof.
  unfold reachable, sample_core, sample_ops.
  destruct (register_block_inner _ _ _ _ _) as [s1|] eqn:E1; [|vm_compute in E1; discriminate].
  destruct (add_alias s1 _ _) as [s2|] eqn:E2;
    [|vm_compute in E1; injection E1 as <-; vm_compute in E2; discriminate].
  eapply rtc_l; [by eapply step_register|]. eapply rtc_l; [by eapply step_add_alias|].
  eapply rtc_l; [apply step_set_admin|]. apply rtc_once, step_seal_ok.
  vm_compute in E1. injection E1 as <-. vm_compute in E2. injection E2 as <-. reflexivity.
Qed.

Lemma registry_reachable_ok_witness :
  exists b, lookup_with_alias sample_core "app" = Some ("acme/app", b)
    /\ blocks sample_core !! "acme/app" = Some b
    /\ canonicalize sample_core "acme/app" = "acme/app"
    /\ ("acme/app" = "app" \/ aliases sample_core !! "app" = Some "acme/app").
Proof.
  eexists. split; [vm_compute; reflexivity|].
  destruct (registry_reachable_ok tt sample_core (reachable_any tt sample_core sample_reachable)) as (_ & _ & Hl & Hw).
  apply (Hl (Hw sample_reachable)). vm_compute. reflexivity.
Defined.

(** once sealed, no sequence of operations changes the blocks, the aliases,
    the slots or the dispatch snapshot, unless a configuration file is loaded:
    later registrations and aliases are refused. *)
Theorem sealed_registry_frozen {B Slot} (new_slot : Slot) `{UnicodeLower}
    (st st' : @RegistrationCore B Slot) :
  sealed st = true -> rtc (reg_step new_slot checked_load) st st' -> same_registry st st'.
Proof.
  intros Hs Hr. induction Hr as [|x y z Hxy _ IH]; [done|].
  destruct (sealed_step new_slot x y Hs Hxy) as (E1 & E2 & E3 & E4 & E5).
  destruct (IH E5) as (? & ? & ? & ? & ?). repeat split; congruence.
Qed.

Lemma sealed_registry_frozen_witness :
  same_registry sample_core (set_admin_block sample_core "acme/app").
Proof.
  apply (sealed_registry_frozen tt); [vm_compute; reflexivity|]. apply rtc_once, step_set_admin.
Defined.

(** only the owner can share. In any registry (with ASCII grant patterns) a namespaced access the decision allows is one open to every
    caller, the admin's, the owner's own, one that the host's external grants
    allow, or one allowed by a grant that the registered owner of the resource
    declared in its own [BlockInfo], naming the caller and admitting the
    access. No block can give away another block's data. *)
Theorem only_owner_shares {B Slot} (new_slot : Slot) `{UnicodeLower} `{UrlCrate}
    (st : @RegistrationCore B Slot) (c r : string) (a : ResourceAccess.t)
    (rt : option ResourceType.t) :
  any_reachable new_slot st ->
  Forall (fun g => is_ascii (g_resource g) = true) (w_grants (wrap st)) ->
  namespace_based rt = true ->
  check_access (Some c) r a rt (w_grants (wrap st)) (w_admin_block (wrap st)) = Ok tt ->
  open_to_callers r a rt \/ c = w_admin_block (wrap st) \/ owner_of r rt = Some c
  \/ (exists g, In g (w_grants_external (wrap st)) /\ grant_allows g c r a rt = true)
  \/ (exists owner rb g, owner_of r rt = Some owner /\ blocks st !! owner = Some rb
        /\ In g (bi_grants (rb_info rb))
        /\ grant_matches_grantee (grantee g) c = true /\ admits g a = true).
Proof.
  intros Hr Hasc Hn Hok. apply check_access_iff_policy in Hok.
  inversion Hok as [|c' Ho|c' _ _ Ho|c' g _ _ Hin Hg]; subst; [auto|auto|auto|].
  destruct (In_dec (fun x y => decide (x = y)) g (w_grants_external (wrap st))) as [Hx|Hx];
    [do 3 right; left; eauto|].
  do 4 right. destruct (grant_allows_spec _ _ _ _ _ Hg) as (Hgr & Hres & Had & Ht).
  destruct (owner_of_grant_type r rt _ Hn Ht) as [Hns Hown].
  rewrite Forall_forall in Hasc.
  destruct (grant_provenance st g r) as (owner & rb & Ho & Hb & Hd);
    eauto using base_inv_reachable.
  { by apply Hasc, list_elem_of_In. }
  exists owner, rb, g. rewrite <- Hown. auto.
Qed.

Lemma only_owner_shares_witness :
  exists owner rb g, owner_of "acme__app__events_2024" (Some ResourceType.Db) = Some owner
    /\ blocks sample_core !! owner = Some rb /\ In g (bi_grants (rb_info rb))
    /\ grant_matches_grantee (grantee g) "other/stats" = true
    /\ admits g ResourceAccess.Append = true.
Proof.
  assert (Ha : Forall (fun g => is_ascii (g_resource g) = true) (w_grants (wrap sample_core))).
  { vm_compute. repeat constructor. }
  assert (Hc : check_access (Some "other/stats") "acme__app__events_2024" ResourceAccess.Append
    (Some ResourceType.Db) (w_grants (wrap sample_core)) (w_admin_block (wrap sample_core)) = Ok tt)
    by (vm_compute; reflexivity).
  destruct (only_owner_shares tt sample_core "other/stats" "acme__app__events_2024"
    ResourceAccess.Append (Some ResourceType.Db) (reachable_any _ _ sample_reachable) Ha eq_refl Hc)
    as [[_ Ho]|[H|[H|[(g & H & _)|H]]]].
  - destruct Ho as [Ho|[Ho|[_ [[Ho _]|[Ho _]]]]]; vm_compute in Ho; discriminate.
  - vm_compute in H. discriminate.
  - vm_compute in H. discriminate.
  - vm_compute in H. destruct H.
  - exact H.
Defined.

(** an append grant installed in a registry is a database grant
    that admits appends alone, and the only database operations whose every
    required access it admits are [database.create] and [database.create_many];
    the access table has exactly one entry per database operation. *)
Theorem append_grant_only_inserts {B Slot} (new_slot : Slot) `{UnicodeLower} `{UrlCrate}
    (st : @RegistrationCore B Slot) (g : ResourceGrant) :
  any_reachable new_slot st -> In g (w_grants (wrap st)) -> g_write g = GrantWrite.Append ->
  g_type g = Some ResourceType.Db
  /\ (forall c r a rt, grant_allows g c r a rt = true ->
        a = ResourceAccess.Append /\ rt = Some ResourceType.Db)
  /\ (forall op accs, database_op_access op = Some (DatabaseOpAccess.On accs) ->
        Forall (fun a => admits g a = true) accs ->
        op = "database.create" \/ op = "database.create_many")
  /\ map fst DATABASE_OP_ACCESS = DATABASE_OPS /\ NoDup DATABASE_OPS.
Proof.
  intros Hr Hin Hw. pose proof (base_inv_reachable _ _ Hr) as Hi.
  assert (Ht : g_type g = Some ResourceType.Db).
  { pose proof (installed_grant_shape st g Hi Hin) as Hs. unfold check_shape in Hs.
    rewrite bool_decide_true in Hs by done. simpl in Hs.
    destruct (rt_eqb _ _) eqn:E; [by apply rt_eqb_true|discriminate]. }
  assert (Had : forall a, admits g a = true -> a = ResourceAccess.Append).
  { intros a Ha. apply admits_spec in Ha. rewrite Hw in Ha. by destruct Ha. }
  split; [done|]. split; [|split; [|split; [done|]]].
  - intros c r a rt Hg. apply grant_allows_spec in Hg as (_ & _ & Ha & Htt).
    rewrite Ht in Htt. destruct Htt as [|<-]; [done|]. auto.
  - intros op accs Hop Hall. apply (Forall_impl _ _ _ Hall) in Had as Hall'.
    unfold database_op_access in Hop.
    destruct (List.find _ _) as [[n acc]|] eqn:E; [|discriminate]. injection Hop as ->.
    apply List.find_some in E as [HIn Heq]. apply eqs_true in Heq as ->.
    apply (append_only_ops_spec op accs HIn). apply forallb_forall.
    intros a Ha. apply access_eqb_true. rewrite Forall_forall in Hall'. by apply Hall', list_elem_of_In.
  - apply (bool_decide_unpack _). vm_compute. exact I.
Qed.

Lemma append_grant_only_inserts_witness :
  g_type (grant_append "other/stats" "acme__app__events*") = Some ResourceType.Db.
Proof.
  apply (append_grant_only_inserts tt sample_core (grant_append "other/stats" "acme__app__events*")
    (reachable_any _ _ sample_reachable)); [|reflexivity]. vm_compute. auto.
Defined.
