(* ===== verification/Capabilities.v ===== *)
(** Block capabilities ([wafer-block/src/capabilities.rs]), the capability half
    of [RuntimeContext::authorize_resource] ([wafer-run/src/context.rs]) and
    the effective capabilities computed when the runtime is sealed
    ([Wafer::compute_effective_capabilities] in [runtime/seal.rs]). A
    [BTreeSet<String>] is a [gset string]. *)

From S2P Require Import Prelude CoreTypes Grants Wrap WrapPolicy WrapProps.

(** ** Allowlists *)

Module Allowlist.
Inductive t :=
| None
| Any
| Only (set : gset string).

Definition is_enabled (a : t) : bool :=
  match a with None => false | _ => true end.

(** [Allowlist::allows]: exact membership. *)
Definition allows (a : t) (value : string) : bool :=
  match a with
  | None => false
  | Any => true
  | Only set => bool_decide (value ∈ set)
  end.

(** [Allowlist::intersect]. *)
Definition intersect (self other : t) : t :=
  match self, other with
  | None, _ | _, None => None
  | Any, x | x, Any => x
  | Only a, Only b => Only (a ∩ b)
  end.
End Allowlist.

(** [path_prefix_covers]. *)
Definition path_prefix_covers (entry resource : string) : bool :=
  if is_empty entry || ends_with "/" entry then false
  else (entry =s resource)
       || match strip_prefix entry resource with
          | Some rest => starts_with "/" rest
          | None => false
          end.

(** The narrower of two entries, when one lies beneath the other. *)
Definition narrower_entry (x y : string) : option string :=
  if path_prefix_covers y x then Some x
  else if path_prefix_covers x y then Some y
  else None.

(** [Allowlist::intersect_path_prefix]. *)
Definition intersect_path_prefix (self other : Allowlist.t) : Allowlist.t :=
  match self, other with
  | Allowlist.None, _ | _, Allowlist.None => Allowlist.None
  | Allowlist.Any, x | x, Allowlist.Any => x
  | Allowlist.Only a, Allowlist.Only b =>
      Allowlist.Only (list_to_set
        (flat_map (fun x => omap (narrower_entry x) (elements b)) (elements a)))
  end.

(** [has_encoded_separator]: some window of three bytes is [%2F] or [%5C]. *)
Fixpoint has_encoded_separator (path : string) : bool :=
  match path with
  | String a (String b (String c _) as rest) =>
      (Ascii.eqb a "%"
       && ((Ascii.eqb b "2" && Ascii.eqb (ascii_lower c) "f")
           || (Ascii.eqb b "5" && Ascii.eqb (ascii_lower c) "c")))
      || has_encoded_separator rest
  | _ => false
  end.

(** [url_path_covers]. *)
Definition url_path_covers (pattern target : string) : bool :=
  let rest :=
    if ends_with "/" pattern then strip_prefix pattern target
    else if target =s pattern then Some ""
    else match strip_prefix pattern target with
         | Some rest => if starts_with "/" rest then Some rest else None
         | None => None
         end in
  match rest with Some rest => negb (has_encoded_separator rest) | None => false end.

(** ** Capability sets *)

Record HeaderPolicy := mkHeaders {
  readable : list string;
  writable : list string;
  masked : list string
}.

Record BlockCapabilities := mkCaps {
  collections : Allowlist.t;
  raw_sql : bool;
  ddl : bool;
  schema : bool;
  storage_folders : Allowlist.t;
  crypto : bool;
  network : Allowlist.t;
  config : Allowlist.t;
  vector_indexes : Allowlist.t;
  callable_blocks : Allowlist.t;
  headers : HeaderPolicy
}.

Definition unrestricted : BlockCapabilities :=
  mkCaps Allowlist.Any true true true Allowlist.Any true Allowlist.Any Allowlist.Any
    Allowlist.Any Allowlist.Any (mkHeaders [] [] []).

Definition none : BlockCapabilities :=
  mkCaps Allowlist.None false false false Allowlist.None false Allowlist.None Allowlist.None
    Allowlist.None Allowlist.None (mkHeaders [] [] []).

(** [BlockCapabilities::allows_storage_folder]. *)
Definition allows_storage_folder (caps : BlockCapabilities) (resource : string) : bool :=
  if negb (is_traversal_safe_path resource) then false
  else match storage_folders caps with
       | Allowlist.None => false
       | Allowlist.Any => true
       | Allowlist.Only allow =>
           existsb (fun entry => path_prefix_covers entry resource) (elements allow)
       end.

Section Network.
Context `{UrlCrate}.

(** One entry of the network allowlist against the parsed target. *)
Definition network_entry_covers (target : Url) (allowed : string) : bool :=
  match url_parse allowed with
  | None => false
  | Some pat =>
      (url_scheme pat =s url_scheme target)
      && bool_decide (url_host_str pat = url_host_str target)
      && bool_decide (url_port_or_known_default pat = url_port_or_known_default target)
      && url_path_covers (url_path pat) (url_path target)
  end.

(** [BlockCapabilities::allows_network_url]. *)
Definition allows_network_url (caps : BlockCapabilities) (url : string) : bool :=
  match network caps with
  | Allowlist.None => false
  | Allowlist.Any => true
  | Allowlist.Only allow =>
      match url_parse url with
      | None => false
      | Some target => existsb (network_entry_covers target) (elements allow)
      end
  end.
End Network.

Definition allows_collection (caps : BlockCapabilities) (c : string) : bool :=
  Allowlist.allows (collections caps) c.
Definition allows_vector_index (caps : BlockCapabilities) (n : string) : bool :=
  Allowlist.allows (vector_indexes caps) n.
Definition allows_config_key (caps : BlockCapabilities) (k : string) : bool :=
  Allowlist.allows (config caps) k.
Definition allows_call_block (caps : BlockCapabilities) (t : string) : bool :=
  Allowlist.allows (callable_blocks caps) t.

(** ** Narrowing *)

Definition list_contains (l : list string) (x : string) : bool := existsb (fun y => y =s x) l.

(** [intersect_vec]. *)
Definition intersect_vec (a b : list string) : list string :=
  fold_left (fun r x =>
    let x := to_ascii_lowercase x in
    if existsb (fun y => eq_ignore_ascii_case y x) b && negb (list_contains r x)
    then r ++ [x] else r) a [].

(** [union_vec]. *)
Definition union_vec (a b : list string) : list string :=
  fold_left (fun r v =>
    let v := to_ascii_lowercase v in
    if negb (list_contains r v) then r ++ [v] else r) (a ++ b) [].

(** [BlockCapabilities::intersect]. *)
Definition caps_intersect (self other : BlockCapabilities) : BlockCapabilities :=
  mkCaps
    (Allowlist.intersect (collections self) (collections other))
    (raw_sql self && raw_sql other)
    (ddl self && ddl other)
    (schema self && schema other)
    (intersect_path_prefix (storage_folders self) (storage_folders other))
    (crypto self && crypto other)
    (Allowlist.intersect (network self) (network other))
    (Allowlist.intersect (config self) (config other))
    (Allowlist.intersect (vector_indexes self) (vector_indexes other))
    (Allowlist.intersect (callable_blocks self) (callable_blocks other))
    (mkHeaders
       (intersect_vec (readable (headers self)) (readable (headers other)))
       (intersect_vec (writable (headers self)) (writable (headers other)))
       (union_vec (masked (headers self)) (masked (headers other)))).

Record HeaderPolicyOverrides := mkHeaderOverrides {
  o_readable : option (list string);
  o_writable : option (list string);
  o_masked : option (list string)
}.

Record ConfigCapabilityOverrides := mkOverrides {
  o_collections : option Allowlist.t;
  o_raw_sql : option bool;
  o_ddl : option bool;
  o_schema : option bool;
  o_storage_folders : option Allowlist.t;
  o_crypto : option bool;
  o_network : option Allowlist.t;
  o_config : option Allowlist.t;
  o_vector_indexes : option Allowlist.t;
  o_callable_blocks : option Allowlist.t;
  o_headers : option HeaderPolicyOverrides
}.

Definition no_overrides : ConfigCapabilityOverrides :=
  mkOverrides None None None None None None None None None None None.

(** [narrow]. *)
Definition narrow {A} (declared : A) (ov : option A) (combine : A -> A -> A) : A :=
  match ov with Some o => combine declared o | None => declared end.

(** [BlockCapabilities::apply_config_overrides]. *)
Definition apply_config_overrides (self : BlockCapabilities) (o : ConfigCapabilityOverrides)
  : BlockCapabilities :=
  mkCaps
    (narrow (collections self) (o_collections o) Allowlist.intersect)
    (narrow (raw_sql self) (o_raw_sql o) andb)
    (narrow (ddl self) (o_ddl o) andb)
    (narrow (schema self) (o_schema o) andb)
    (narrow (storage_folders self) (o_storage_folders o) intersect_path_prefix)
    (narrow (crypto self) (o_crypto o) andb)
    (narrow (network self) (o_network o) Allowlist.intersect)
    (narrow (config self) (o_config o) Allowlist.intersect)
    (narrow (vector_indexes self) (o_vector_indexes o) Allowlist.intersect)
    (narrow (callable_blocks self) (o_callable_blocks o) Allowlist.intersect)
    (mkHeaders
       (narrow (readable (headers self)) (o_headers o ≫= o_readable) intersect_vec)
       (narrow (writable (headers self)) (o_headers o ≫= o_writable) intersect_vec)
       (narrow (masked (headers self)) (o_headers o ≫= o_masked) union_vec)).

(** [ConfigCapabilityOverrides::as_stated_bound]. *)
Definition as_stated_bound (o : ConfigCapabilityOverrides) : BlockCapabilities :=
  mkCaps
    (default (collections none) (o_collections o))
    (default (raw_sql none) (o_raw_sql o))
    (default (ddl none) (o_ddl o))
    (default (schema none) (o_schema o))
    (default (storage_folders none) (o_storage_folders o))
    (default (crypto none) (o_crypto o))
    (default (network none) (o_network o))
    (default (config none) (o_config o))
    (default (vector_indexes none) (o_vector_indexes o))
    (default (callable_blocks none) (o_callable_blocks o))
    (mkHeaders
       (default [] (o_headers o ≫= o_readable))
       (default [] (o_headers o ≫= o_writable))
       (default [] (o_headers o ≫= o_masked))).

(** ** Effective capabilities and enforcement *)

Inductive BlockRuntime := Native | Wasm.

(** The body of the loop of [Wafer::compute_effective_capabilities] up to the
    set handed to the block: what the block declared (if it did), its runtime,
    the operator's overrides and the embedder's load bound. *)
Definition effective_capabilities (declared : option BlockCapabilities) (rt : BlockRuntime)
    (overrides : ConfigCapabilityOverrides) (capability_bound : option BlockCapabilities)
  : BlockCapabilities :=
  let declared := match declared with
                  | Some caps => caps
                  | None => match rt with Wasm => none | Native => unrestricted end
                  end in
  let effective := apply_config_overrides declared overrides in
  match rt with
  | Wasm =>
      let bound := match capability_bound with
                   | Some b => b
                   | None => as_stated_bound overrides
                   end in
      caps_intersect bound effective
  | Native => effective
  end.

Section Enforcement.
Context `{UnicodeLower} `{UrlCrate}.

(** The capability check of [authorize_resource]. *)
Definition capability_allows (caps : BlockCapabilities) (rt : ResourceType.t)
    (resource : string) : bool :=
  match rt with
  | ResourceType.Db =>
      if resource =s RAW_SQL_RESOURCE then raw_sql caps
      else if resource =s DDL_RESOURCE then ddl caps
      else if resource =s SCHEMA_RESOURCE then schema caps
      else allows_collection caps resource
  | ResourceType.Storage => allows_storage_folder caps resource
  | ResourceType.Config => allows_config_key caps resource
  | ResourceType.Crypto => crypto caps
  | ResourceType.Network => allows_network_url caps resource
  | ResourceType.Vector => allows_vector_index caps resource
  | ResourceType.Auth | ResourceType.Llm | ResourceType.Image | ResourceType.Embedding => true
  end.

Inductive authorize_denial := GrantDenied (d : denial) | CapabilityDenied.

(** [RuntimeContext::authorize_resource]; [caller_caps c] is what the block
    registered as [c] reports ([None]: no such block, or a native one). *)
Definition authorize_resource (caller : option string)
    (caller_caps : string -> option BlockCapabilities) (grants : list ResourceGrant)
    (admin : string) (resource : string) (rt : ResourceType.t) (access : ResourceAccess.t)
  : result unit authorize_denial :=
  match check_access caller resource access (Some rt) grants admin with
  | Err d => Err (GrantDenied d)
  | Ok _ =>
      match caller ≫= caller_caps with
      | Some caps => if capability_allows caps rt resource then Ok tt else Err CapabilityDenied
      | None => Ok tt
      end
  end.
End Enforcement.

(** * The properties of block capabilities: what intersection means, that
    overrides and load bounds only narrow, how far a network entry reaches,
    and what an authorized access has passed. *)

(** ** Paths *)

Lemma str_app_compare (x s1 y s2 : string) :
  x +:+ s1 = y +:+ s2 ->
  (exists d, y = x +:+ d /\ s1 = d +:+ s2) \/ (exists d, x = y +:+ d /\ s2 = d +:+ s1).
Proof.
  revert y; induction x as [|a x IH]; intros y; simpl; [eauto|].
  destruct y as [|b y]; simpl; [intros <-; right; by exists (String a x)|].
  intros [= <- E]. destruct (IH y E) as [(d & -> & ->)|(d & -> & ->)]; eauto.
Qed.

Definition proper_entry (e : string) : Prop := e <> "" /\ ends_with "/" e = false.

(** [r] is [e] or lies beneath it. *)
Definition beneath (e r : string) : Prop := r = e \/ exists t, r = e +:+ String "/" t.

Lemma starts_with_slash (s : string) : starts_with "/" s = true <-> exists t, s = String "/" t.
Proof. apply starts_with_spec. Qed.

Lemma path_prefix_covers_spec (e r : string) :
  path_prefix_covers e r = true <-> proper_entry e /\ beneath e r.
Proof.
  unfold path_prefix_covers, proper_entry, beneath.
  destruct (is_empty e) eqn:Ee; simpl.
  { apply is_empty_spec in Ee as ->. split; [discriminate|by intros [[? _] _]]. }
  destruct (ends_with "/" e) eqn:Es; [split; [discriminate|by intros [[_ ?] _]]|].
  assert (Hne : e <> "") by (by intros ->). rewrite orb_true_iff, eqs_true. split.
  - intros [->|Hp]; [auto|]. destruct (strip_prefix e r) as [rest|] eqn:E; [|discriminate].
    apply strip_prefix_Some in E as ->. apply starts_with_slash in Hp as [t ->]. eauto.
  - intros [_ [->|[t ->]]]; [auto|right]. rewrite strip_prefix_app. by apply starts_with_slash; eauto.
Qed.

Lemma beneath_trans (a b c : string) : beneath a b -> beneath b c -> beneath a c.
Proof.
  intros [->|[t ->]] [->|[u ->]]; unfold beneath; eauto.
  right. exists (t +:+ String "/" u). by rewrite <- str_app_assoc.
Qed.

Lemma beneath_comparable (x y r : string) :
  beneath x r -> beneath y r -> beneath x y \/ beneath y x.
Proof.
  assert (Hd : forall a r', beneath a r' -> exists s, r' = a +:+ s /\ (s = "" \/ exists t, s = String "/" t)).
  { intros a r' [->|[t ->]]; [exists ""; rewrite str_app_nil_r; auto|eauto]. }
  intros (s1 & E1 & H1)%Hd (s2 & E2 & H2)%Hd. rewrite E1 in E2.
  assert (Hgo : forall a b d s t, b = a +:+ d -> s = d +:+ t ->
    (s = "" \/ exists u, s = String "/" u) -> beneath a b).
  { intros a b d s t -> -> Hs. destruct d as [|c d]; [left; by rewrite str_app_nil_r|].
    destruct Hs as [Hs|[u Hs]]; [discriminate|]. injection Hs as -> _. right; eauto. }
  destruct (str_app_compare _ _ _ _ E2) as [(d & Hy & Hs)|(d & Hx & Hs)]; eauto.
Qed.

Lemma narrower_entry_spec (x y r : string) :
  (exists e, narrower_entry x y = Some e /\ path_prefix_covers e r = true)
  <-> path_prefix_covers x r = true /\ path_prefix_covers y r = true.
Proof.
  unfold narrower_entry.
  destruct (path_prefix_covers y x) eqn:Eyx; [|destruct (path_prefix_covers x y) eqn:Exy];
    rewrite ?path_prefix_covers_spec in *.
  - destruct Eyx as [Hy Hb]. split; [|intros [? _]; exists x; by rewrite path_prefix_covers_spec].
    intros (e & [= <-] & Hx). rewrite path_prefix_covers_spec in Hx. destruct Hx as [Hx Hr].
    eauto using beneath_trans.
  - destruct Exy as [Hx Hb]. split; [|intros [_ ?]; exists y; by rewrite path_prefix_covers_spec].
    intros (e & [= <-] & Hy). rewrite path_prefix_covers_spec in Hy. destruct Hy as [Hy Hr].
    eauto using beneath_trans.
  - split; [by intros (? & ? & _)|]. intros [[Hx Hxr] [Hy Hyr]]. exfalso.
    destruct (beneath_comparable x y r Hxr Hyr) as [Hb|Hb].
    + assert (path_prefix_covers x y = true) by (by apply path_prefix_covers_spec). congruence.
    + assert (path_prefix_covers y x = true) by (by apply path_prefix_covers_spec). congruence.
Qed.

(** ** Allowlists *)

Lemma existsb_elements (f : string -> bool) (s : gset string) :
  existsb f (elements s) = true <-> exists x, x ∈ s /\ f x = true.
Proof.
  rewrite existsb_exists. split; intros (x & Hx & Hf); exists x; split; try done;
    [by apply list_elem_of_In, elem_of_elements in Hx|by apply list_elem_of_In, elem_of_elements].
Qed.

Lemma allows_intersect (a b : Allowlist.t) (v : string) :
  Allowlist.allows (Allowlist.intersect a b) v = Allowlist.allows a v && Allowlist.allows b v.
Proof.
  destruct a as [| |sa], b as [| |sb]; simpl; rewrite ?andb_true_r, ?andb_false_r; try done.
  rewrite <- bool_decide_and. apply bool_decide_ext. set_solver.
Qed.

(** An allowlist read as path prefixes. *)
Definition prefix_allows (a : Allowlist.t) (r : string) : bool :=
  match a with
  | Allowlist.None => false
  | Allowlist.Any => true
  | Allowlist.Only s => existsb (fun e => path_prefix_covers e r) (elements s)
  end.

Lemma prefix_allows_intersect (a b : Allowlist.t) (r : string) :
  prefix_allows (intersect_path_prefix a b) r = prefix_allows a r && prefix_allows b r.
Proof.
  destruct a as [| |sa], b as [| |sb]; simpl; rewrite ?andb_true_r, ?andb_false_r; try done.
  apply eq_bool_prop_intro. rewrite !Is_true_true, andb_true_iff, !existsb_elements. split.
  - intros (e & He & Hc). rewrite elem_of_list_to_set, list_elem_of_In, in_flat_map in He.
    destruct He as (x & Hx & Hy). apply list_elem_of_In, elem_of_elements in Hx.
    apply list_elem_of_In, list_elem_of_omap in Hy as (y & Hy & Hn).
    apply elem_of_elements in Hy.
    destruct (proj1 (narrower_entry_spec x y r) ltac:(eauto)) as [? ?]. split; eauto.
  - intros [(x & Hx & Hcx) (y & Hy & Hcy)].
    destruct (proj2 (narrower_entry_spec x y r) (conj Hcx Hcy)) as (e & He & Hc).
    exists e. split; [|done]. rewrite elem_of_list_to_set, list_elem_of_In, in_flat_map.
    exists x. split; [by apply list_elem_of_In, elem_of_elements|].
    apply list_elem_of_In, list_elem_of_omap. exists y. by rewrite elem_of_elements.
Qed.

Section Url.
Context `{UrlCrate}.

Definition url_allows (a : Allowlist.t) (url : string) : bool :=
  match a with
  | Allowlist.None => false
  | Allowlist.Any => true
  | Allowlist.Only s => match url_parse url with
                        | None => false
                        | Some t => existsb (network_entry_covers t) (elements s)
                        end
  end.

Lemma url_allows_intersect (a b : Allowlist.t) (u : string) :
  url_allows (Allowlist.intersect a b) u = true -> url_allows a u = true /\ url_allows b u = true.
Proof.
  destruct a as [| |sa], b as [| |sb]; simpl; try done.
  destruct (url_parse u) as [t|]; [|done]. rewrite !existsb_elements.
  intros (x & Hx & Hc). apply elem_of_intersection in Hx as [? ?]. split; eauto.
Qed.

(** ** Capability sets *)

(** Resource types a capability set gates. *)
Definition gated (rt : ResourceType.t) : bool :=
  match rt with
  | ResourceType.Auth | ResourceType.Llm | ResourceType.Image | ResourceType.Embedding => false
  | _ => true
  end.

Lemma capability_allows_intersect (a b : BlockCapabilities) (rt : ResourceType.t) (r : string) :
  rt <> ResourceType.Network ->
  capability_allows (caps_intersect a b) rt r = capability_allows a rt r && capability_allows b rt r.
Proof.
  intros Hn. destruct rt; simpl; try done; rewrite ?andb_true_r; try apply allows_intersect.
  - repeat case_match; try done. apply allows_intersect.
  - unfold allows_storage_folder. destruct (is_traversal_safe_path r); [|done]. simpl.
    apply prefix_allows_intersect.
Qed.

Lemma capability_allows_intersect_both (a b : BlockCapabilities) (rt : ResourceType.t) (r : string) :
  capability_allows (caps_intersect a b) rt r = true ->
  capability_allows a rt r = true /\ capability_allows b rt r = true.
Proof.
  destruct (decide (rt = ResourceType.Network)) as [->|Hn].
  - apply url_allows_intersect.
  - rewrite capability_allows_intersect by done. apply andb_true_iff.
Qed.

#[local] Arguments Allowlist.intersect : simpl never.
#[local] Arguments intersect_path_prefix : simpl never.

(** Each field of the overridden set is the declared one or the intersection
    with the operator's. *)
Lemma capability_allows_overrides (c : BlockCapabilities) (o : ConfigCapabilityOverrides)
    (rt : ResourceType.t) (r : string) :
  capability_allows (apply_config_overrides c o) rt r = true ->
  capability_allows c rt r = true
  /\ capability_allows (apply_config_overrides unrestricted o) rt r = true.
Proof.
  assert (Ha : forall d ov, Allowlist.allows (narrow d ov Allowlist.intersect) r = true ->
    Allowlist.allows d r = true
    /\ Allowlist.allows (narrow Allowlist.Any ov Allowlist.intersect) r = true).
  { intros d [t|]; simpl; [|done]. rewrite !allows_intersect. simpl. by rewrite andb_true_iff. }
  assert (Hb : forall d ov, narrow d ov andb = true -> d = true /\ narrow true ov andb = true).
  { intros [] [[]|]; done. }
  assert (Hu : forall d ov, url_allows (narrow d ov Allowlist.intersect) r = true ->
    url_allows d r = true /\ url_allows (narrow Allowlist.Any ov Allowlist.intersect) r = true).
  { intros d [t|]; simpl; [|done]. intros Hu. apply url_allows_intersect in Hu as [? ?].
    by destruct t. }
  assert (Hp : forall d ov, prefix_allows (narrow d ov intersect_path_prefix) r = true ->
    prefix_allows d r = true /\ prefix_allows (narrow Allowlist.Any ov intersect_path_prefix) r = true).
  { intros d [t|]; simpl; [|done]. rewrite !prefix_allows_intersect. simpl. by rewrite andb_true_iff. }
  destruct rt; simpl; try apply Ha; try apply Hb; try apply Hu; try done.
  - repeat case_match; try apply Hb. apply Ha.
  - unfold allows_storage_folder. destruct (is_traversal_safe_path r); [apply Hp|done].
Qed.
End Url.

(** ** Header lists *)

Lemma list_contains_spec (l : list string) (x : string) : list_contains l x = true <-> In x l.
Proof.
  unfold list_contains. rewrite existsb_exists. split.
  - intros (y & Hy & E). by apply eqs_true in E as ->.
  - intros Hx. exists x. by rewrite eqs_refl.
Qed.

Section PushNew.
Variable p : string -> bool.

(** The loop of [intersect_vec] and [union_vec]: push the lower-cased name
    unless it is there. *)
Definition push_new (r : list string) (x : string) : list string :=
  let x := to_ascii_lowercase x in
  if p x && negb (list_contains r x) then r ++ [x] else r.

Lemma push_new_spec (l r : list string) :
  (forall h, In h (fold_left push_new l r)
     <-> In h r \/ exists x, In x l /\ to_ascii_lowercase x = h /\ p h = true)
  /\ (NoDup r -> NoDup (fold_left push_new l r)).
Proof.
  revert r; induction l as [|x l IH]; intros r; simpl; [naive_solver|].
  destruct (IH (push_new r x)) as [IHin IHnd].
  assert (Hs : forall h, In h (push_new r x)
    <-> In h r \/ (to_ascii_lowercase x = h /\ p h = true)).
  { intros h. unfold push_new. destruct (p (to_ascii_lowercase x)) eqn:Ep; simpl.
    - destruct (list_contains r _) eqn:Ec; simpl; [apply list_contains_spec in Ec; naive_solver|].
      rewrite in_app_iff. simpl. naive_solver.
    - naive_solver congruence. }
  split.
  - intros h. rewrite IHin, Hs. naive_solver.
  - intros Hn. apply IHnd. unfold push_new. case_match eqn:E; [|done].
    apply andb_true_iff in E as [_ E]. apply negb_true_iff in E.
    apply NoDup_app. repeat split; [done| |apply NoDup_singleton].
    intros y Hy%list_elem_of_In Hy2. apply list_elem_of_singleton in Hy2 as ->.
    apply list_contains_spec in Hy. congruence.
Qed.
End PushNew.

(** Membership up to letter case. *)
Definition names_header (l : list string) (h : string) : Prop :=
  exists x, In x l /\ to_ascii_lowercase x = h.

Lemma intersect_vec_spec (a b : list string) :
  (forall h, In h (intersect_vec a b) <-> names_header a h /\ names_header b h)
  /\ NoDup (intersect_vec a b).
Proof.
  destruct (push_new_spec (fun x => existsb (fun y => eq_ignore_ascii_case y x) b) a []) as [Hi Hn].
  split; [|apply Hn, NoDup_nil_2]. intros h. unfold intersect_vec. etransitivity; [apply Hi|].
  unfold names_header. split.
  - intros [[]|(x & Hx & <- & Hb)]. split; [eauto|]. apply existsb_exists in Hb as (y & Hy & E).
    unfold eq_ignore_ascii_case in E. apply eqs_true in E. rewrite lowercase_idem in E. eauto.
  - intros [(x & Hx & <-) (y & Hy & Hl)]. right. exists x. repeat split; [done|].
    apply existsb_exists. exists y. split; [done|]. unfold eq_ignore_ascii_case.
    apply eqs_true. by rewrite lowercase_idem.
Qed.

Lemma union_vec_spec (a b : list string) :
  (forall h, In h (union_vec a b) <-> names_header a h \/ names_header b h)
  /\ NoDup (union_vec a b).
Proof.
  destruct (push_new_spec (fun _ => true) (a ++ b) []) as [Hi Hn].
  split; [|apply Hn, NoDup_nil_2]. intros h. unfold union_vec. etransitivity; [apply Hi|].
  unfold names_header. setoid_rewrite in_app_iff. naive_solver.
Qed.

(** ** The properties *)

(** C3: intersecting two capability sets permits exactly what both permit:
    database, storage, config, crypto and vector accesses, block calls, the
    readable and writable headers (up to letter case), with the masked headers
    united. For network URLs the result permits only what both permit, but not
    all of it: the entries are URL prefixes and are intersected as strings, so
    a narrower override of a wider declaration denies everything. *)
Theorem caps_intersect_meaning `{UrlCrate} (a b : BlockCapabilities) :
  (forall rt r, rt <> ResourceType.Network ->
     capability_allows (caps_intersect a b) rt r
     = capability_allows a rt r && capability_allows b rt r)
  /\ (forall u, allows_network_url (caps_intersect a b) u = true ->
        allows_network_url a u = true /\ allows_network_url b u = true)
  /\ (forall t, allows_call_block (caps_intersect a b) t
                = allows_call_block a t && allows_call_block b t)
  /\ (forall h, (In h (readable (headers (caps_intersect a b)))
                 <-> names_header (readable (headers a)) h /\ names_header (readable (headers b)) h)
      /\ (In h (writable (headers (caps_intersect a b)))
          <-> names_header (writable (headers a)) h /\ names_header (writable (headers b)) h)
      /\ (In h (masked (headers (caps_intersect a b)))
          <-> names_header (masked (headers a)) h \/ names_header (masked (headers b)) h))
  /\ (let net p := mkCaps Allowlist.None false false false Allowlist.None false
                     (Allowlist.Only {[p]}) Allowlist.None Allowlist.None Allowlist.None
                     (mkHeaders [] [] []) in
      let wide := net "https://a.com" in let narrow := net "https://a.com/v1" in
      @allows_network_url simple_url wide "https://a.com/v1/x" = true
      /\ @allows_network_url simple_url narrow "https://a.com/v1/x" = true
      /\ @allows_network_url simple_url (caps_intersect wide narrow) "https://a.com/v1/x" = false).
Proof.
  split; [intros; by apply capability_allows_intersect|].
  split; [intros u; apply url_allows_intersect|].
  split; [intros t; apply allows_intersect|].
  split; [|by repeat split; vm_compute].
  intros h. simpl. split; [apply intersect_vec_spec|].
  split; [apply intersect_vec_spec|apply union_vec_spec].
Qed.

Lemma caps_intersect_meaning_witness :
  capability_allows (caps_intersect unrestricted none) ResourceType.Db "acme__app__t" = false
  /\ capability_allows (caps_intersect unrestricted unrestricted) ResourceType.Storage "a/b/c" = true.
Proof.
  split.
  - rewrite (proj1 (caps_intersect_meaning unrestricted none)) by discriminate. reflexivity.
  - rewrite (proj1 (caps_intersect_meaning unrestricted unrestricted)) by discriminate. reflexivity.
Defined.

(** an operator's overrides only narrow. Whatever the overridden set
    permits was declared and is permitted by the operator's own statement;
    omitted fields keep the declaration, an empty [Only] denies everything,
    masked headers stay masked and no header becomes readable or writable. *)
Theorem overrides_only_narrow `{UrlCrate} (c : BlockCapabilities) (o : ConfigCapabilityOverrides) :
  let c' := apply_config_overrides c o in
  (forall rt r, capability_allows c' rt r = true ->
     capability_allows c rt r = true
     /\ capability_allows (apply_config_overrides unrestricted o) rt r = true)
  /\ (forall t, allows_call_block c' t = true -> allows_call_block c t = true)
  /\ (forall h, (In h (readable (headers c')) -> names_header (readable (headers c)) (to_ascii_lowercase h))
      /\ (In h (writable (headers c')) -> names_header (writable (headers c)) (to_ascii_lowercase h))
      /\ (names_header (masked (headers c)) h -> names_header (masked (headers c')) h))
  /\ apply_config_overrides c no_overrides = c
  /\ (o_collections o = Some (Allowlist.Only ∅) -> forall r, allows_collection c' r = false).
Proof.
  intros c'. split; [intros rt r; apply capability_allows_overrides|]. split.
  { intros t. subst c'. unfold allows_call_block. simpl.
    destruct (o_callable_blocks o); simpl; [|done]. rewrite allows_intersect, andb_true_iff. tauto. }
  split; [|split; [by destruct c as [? ? ? ? ? ? ? ? ? ? []]|]].
  - assert (Hi : forall l ov h, In h (narrow l ov intersect_vec) -> names_header l (to_ascii_lowercase h)).
    { intros l [l'|] h; simpl.
      - intros [(x & Hx & <-) _]%(proj1 (intersect_vec_spec l l')). exists x. by rewrite lowercase_idem.
      - intros Hh. by exists h. }
    intros h. subst c'. simpl. split; [apply Hi|]. split; [apply Hi|].
    destruct (o_headers o ≫= o_masked) as [l|]; simpl; [|done].
    intros Hm. assert (Hh : to_ascii_lowercase h = h).
    { destruct Hm as (x & _ & <-). apply lowercase_idem. }
    exists h. split; [|done]. apply union_vec_spec. by left.
  - intros Ho r. subst c'. unfold allows_collection. simpl. rewrite Ho. simpl.
    rewrite allows_intersect. simpl. rewrite bool_decide_false by set_solver. apply andb_false_r.
Qed.

Definition only_users : ConfigCapabilityOverrides :=
  mkOverrides (Some (Allowlist.Only {["users"]})) None None None None None None None None None None.

Lemma overrides_only_narrow_witness :
  capability_allows unrestricted ResourceType.Db "users" = true
  /\ capability_allows (apply_config_overrides unrestricted only_users) ResourceType.Db "users" = true.
Proof.
  apply (proj1 (overrides_only_narrow unrestricted only_users)). vm_compute. reflexivity.
Defined.

(** a sealed WASM block can do no more than it declared, than the operator
    left, and than its load bound; without a declaration, or with neither a
    load bound nor an operator statement, it gets nothing. *)
Theorem wasm_effective_bounded `{UrlCrate} (declared : option BlockCapabilities)
    (o : ConfigCapabilityOverrides) (bound : option BlockCapabilities)
    (rt : ResourceType.t) (r : string) :
  gated rt = true ->
  capability_allows (effective_capabilities declared Wasm o bound) rt r = true ->
  (exists d, declared = Some d /\ capability_allows d rt r = true)
  /\ capability_allows (apply_config_overrides unrestricted o) rt r = true
  /\ match bound with
     | Some b => capability_allows b rt r = true
     | None => capability_allows (as_stated_bound o) rt r = true /\ o <> no_overrides
     end.
Proof.
  intros Hg Hc. unfold effective_capabilities in Hc.
  apply capability_allows_intersect_both in Hc as [Hb He].
  apply capability_allows_overrides in He as [Hd Ho].
  assert (Hnone : capability_allows none rt r = false).
  { destruct rt; try done; simpl; unfold allows_storage_folder; repeat case_match; done. }
  split; [destruct declared as [d|]; [eauto|congruence]|]. split; [done|].
  destruct bound as [b|]; [done|]. split; [done|]. intros ->.
  change (as_stated_bound no_overrides) with none in Hb. congruence.
Qed.

Lemma wasm_effective_bounded_witness :
  exists d, Some unrestricted = Some d /\ capability_allows d ResourceType.Db "users" = true.
Proof.
  apply (wasm_effective_bounded (Some unrestricted) only_users None ResourceType.Db "users");
    [reflexivity|vm_compute; reflexivity].
Defined.

Lemma url_path_covers_spec (p t : string) :
  url_path_covers p t = true ->
  exists rest, t = p +:+ rest /\ has_encoded_separator rest = false
    /\ (ends_with "/" p = true \/ rest = "" \/ exists u, rest = String "/" u).
Proof.
  unfold url_path_covers. destruct (ends_with "/" p) eqn:Es.
  - destruct (strip_prefix p t) as [rest|] eqn:E; [|done]. intros Hn%negb_true_iff.
    apply strip_prefix_Some in E. eauto.
  - destruct (t =s p) eqn:Et.
    + apply eqs_true in Et as ->. intros _. exists "". rewrite str_app_nil_r. auto.
    + destruct (strip_prefix p t) as [rest|] eqn:E; [|done].
      destruct (starts_with "/" rest) eqn:Ew; [|done]. intros Hn%negb_true_iff.
      apply strip_prefix_Some in E. apply starts_with_slash in Ew. eauto 6.
Qed.

(** a listed network entry reaches only its own scheme, host and port, and
    only paths that continue its path on a segment boundary without an encoded
    separator; unparsable URLs are refused. *)
Theorem network_entry_confined `{UrlCrate} (caps : BlockCapabilities) (allow : gset string)
    (url : string) :
  network caps = Allowlist.Only allow -> allows_network_url caps url = true ->
  exists entry pat target rest, entry ∈ allow
    /\ url_parse entry = Some pat /\ url_parse url = Some target
    /\ url_scheme target = url_scheme pat /\ url_host_str target = url_host_str pat
    /\ url_port_or_known_default target = url_port_or_known_default pat
    /\ url_path target = url_path pat +:+ rest /\ has_encoded_separator rest = false
    /\ (ends_with "/" (url_path pat) = true \/ rest = "" \/ exists u, rest = String "/" u).
Proof.
  intros Hn. unfold allows_network_url. rewrite Hn.
  destruct (url_parse url) as [target|]; [|done].
  intros (entry & Hin & Hc)%existsb_elements. unfold network_entry_covers in Hc.
  destruct (url_parse entry) as [pat|] eqn:Ep; [|done].
  rewrite !andb_true_iff, !bool_decide_eq_true, eqs_true in Hc. destruct Hc as [[[Hs Hh] Hp] Hc].
  apply url_path_covers_spec in Hc as (rest & Hr & He & Hb).
  exists entry, pat, target, rest. by rewrite Hs, Hh, Hp.
Qed.

Definition api_caps : BlockCapabilities :=
  mkCaps Allowlist.None false false false Allowlist.None false
    (Allowlist.Only {["https://a.com/v1/public"]}) Allowlist.None Allowlist.None Allowlist.None
    (mkHeaders [] [] []).

Lemma network_entry_confined_witness :
  allows_network_url api_caps "https://a.com/v1/public-admin" = false
  /\ exists entry pat target rest, entry ∈ ({["https://a.com/v1/public"]} : gset string)
    /\ url_parse entry = Some pat /\ url_parse "https://a.com/v1/public/x" = Some target
    /\ url_scheme target = url_scheme pat /\ url_host_str target = url_host_str pat
    /\ url_port_or_known_default target = url_port_or_known_default pat
    /\ url_path target = url_path pat +:+ rest /\ has_encoded_separator rest = false
    /\ (ends_with "/" (url_path pat) = true \/ rest = "" \/ exists u, rest = String "/" u).
Proof.
  split; [vm_compute; reflexivity|].
  apply (network_entry_confined api_caps); [reflexivity|vm_compute; reflexivity].
Defined.

(** an authorized access has passed both layers, the WRAP policy and the
    calling block's own capabilities; a storage path with an empty, [.], [..]
    or backslash segment never is. *)
Theorem authorize_resource_layers `{UnicodeLower} `{UrlCrate} (caller : option string)
    (caller_caps : string -> option BlockCapabilities) (grants : list ResourceGrant)
    (admin resource : string) (rt : ResourceType.t) (access : ResourceAccess.t) :
  (authorize_resource caller caller_caps grants admin resource rt access = Ok tt
   <-> policy resource access (Some rt) grants admin caller
       /\ forall c caps, caller = Some c -> caller_caps c = Some caps ->
          capability_allows caps rt resource = true)
  /\ (rt = ResourceType.Storage -> is_traversal_safe_path resource = false ->
      exists d, authorize_resource caller caller_caps grants admin resource rt access = Err d).
Proof.
  assert (Hiff : authorize_resource caller caller_caps grants admin resource rt access = Ok tt
   <-> policy resource access (Some rt) grants admin caller
       /\ forall c caps, caller = Some c -> caller_caps c = Some caps ->
          capability_allows caps rt resource = true).
  { rewrite <- check_access_iff_policy. unfold authorize_resource.
    destruct (check_access _ _ _ _ _ _) as [[]|d]; [|naive_solver].
    destruct caller as [c|]; simpl; [|naive_solver].
    destruct (caller_caps c) as [caps|] eqn:Ec; [|naive_solver].
    destruct (capability_allows caps rt resource) eqn:E; naive_solver congruence. }
  split; [exact Hiff|]. intros -> Hs.
  destruct (authorize_resource _ _ _ _ _ _ _) as [[]|d] eqn:E; [|eauto].
  destruct (proj1 Hiff eq_refl) as [Hp _]. exfalso. revert Hp. apply policy_not_well_formed.
  intros Hw. rewrite Hw in Hs; done.
Qed.

Lemma authorize_resource_layers_witness :
  exists d, authorize_resource (Some "my-org/admin") (fun _ => None) [] "my-org/admin"
    "site/jhg/../other" ResourceType.Storage ResourceAccess.Read = Err d.
Proof.
  apply (proj2 (authorize_resource_layers (Some "my-org/admin") (fun _ => None) [] "my-org/admin"
    "site/jhg/../other" ResourceType.Storage ResourceAccess.Read)); reflexivity.
Defined.
