(* ===== verification/Slot.v ===== *)
(** The per-block init slot ([wafer-run/src/runtime/slot.rs],
    [wafer-block/src/init_state.rs]): lazy initialization that succeeds once,
    fails permanently once, and backs off after transient failures.

    Instants and durations are nanoseconds. [get_or_init] is cut at its two
    critical sections: [begin_attempt] (the attempt lock taken, the slot found
    settled or marked in flight) and [record_outcome] (the outcome stored, the
    lock released), with [drop_in_flight] for a cancelled attempt. *)

From stdpp Require Import pretty.
From S2P Require Import Prelude CoreTypes.

#[local] Open Scope N_scope.

(** ** Data *)

Definition TRANSIENT_RETRY_BASE : N := 100000000.
Definition TRANSIENT_RETRY_MAX : N := 30000000000.

Definition CALL_BUDGET_EXHAUSTED : string := "database.call_budget_exhausted".

Record TransientFailure := mkTF { tf_message : string; tf_detail_code : option string }.

Inductive InitError :=
| Permanent (msg : string)
| Transient (failure : TransientFailure)
| Cycle (path : list string).

Abbreviation init_result := (result unit InitError).

Inductive CachedOutcome := CachedOk | CachedPermanent (msg : string).

Record TransientBackoff := mkBackoff {
  failures : N;
  retry_at : N;
  failure : TransientFailure
}.

Record SlotState := mkSlot {
  outcome : option CachedOutcome;
  backoff : option TransientBackoff;
  in_flight : bool
}.

Inductive BlockInitState :=
| NotInitialized | Initializing | Ready
| Retrying (failure : TransientFailure) (retry_in : N)
| Failed (reason : string).

(** ** Classification *)

(** [init_failure_is_transient]. *)
Definition init_failure_is_transient (code : ErrorCode.t) (detail : option string) : bool :=
  if bool_decide (detail = Some CALL_BUDGET_EXHAUSTED) then true
  else match code with
       | ErrorCode.Unavailable | ErrorCode.DeadlineExceeded
       | ErrorCode.Cancelled | ErrorCode.Aborted => true
       | _ => false
       end.

(** [InitError::from_lifecycle_error]. *)
Definition from_lifecycle_error (e : WaferError) : InitError :=
  let msg := "lifecycle init failed: " +:+ error_display e in
  if init_failure_is_transient (we_code e) (detail_code e)
  then Transient (mkTF msg (detail_code e))
  else Permanent msg.

(** ** The slot *)

(** [TransientBackoff::delay]. *)
Definition delay (failures : N) : N :=
  let doublings := N.min (failures - 1) 16 in
  N.min (TRANSIENT_RETRY_BASE * 2 ^ doublings) TRANSIENT_RETRY_MAX.

(** [TransientBackoff::pending]. *)
Definition pending (b : TransientBackoff) (now : N) : option InitError :=
  if now <? retry_at b
  then let wait := retry_at b - now in
       Some (Transient (mkTF (tf_message (failure b) +:+ " (retry backoff: "
                              +:+ pretty (wait / 1000000) +:+ " ms left)")
                             (tf_detail_code (failure b))))
  else None.

Definition cached_result (o : CachedOutcome) : init_result :=
  match o with CachedOk => Ok tt | CachedPermanent msg => Err (Permanent msg) end.

(** [SlotState::settled]; [BlockSlot::try_cached] is it at the current instant. *)
Definition settled (st : SlotState) (now : N) : option init_result :=
  match outcome st with
  | Some cached => Some (cached_result cached)
  | None => match backoff st with
            | Some b => option_map Err (pending b now)
            | None => None
            end
  end.

Definition slot_new : SlotState := mkSlot None None false.

(** [BlockSlot::pending_retry_in]. *)
Definition pending_retry_in (st : SlotState) (now : N) : option N :=
  match outcome st with
  | Some _ => None
  | None => match backoff st with
            | Some b => if now <? retry_at b then Some (retry_at b - now) else None
            | None => None
            end
  end.

(** [BlockSlot::init_state]. *)
Definition init_state (st : SlotState) (now : N) : BlockInitState :=
  match outcome st with
  | Some CachedOk => Ready
  | Some (CachedPermanent reason) => Failed reason
  | None =>
      match backoff st with
      | Some b =>
          if now <? retry_at b then Retrying (failure b) (retry_at b - now)
          else if in_flight st then Initializing
          else Retrying (failure b) 0
      | None => if in_flight st then Initializing else NotInitialized
      end
  end.

(** The first critical section of [get_or_init]: the settled answer, or the
    slot marked in flight and [None], init to be run. *)
Definition begin_attempt (st : SlotState) (now : N) : SlotState * option init_result :=
  match settled st now with
  | Some r => (st, Some r)
  | None => (mkSlot (outcome st) (backoff st) true, None)
  end.

(** The second critical section; the count of failures is a [u32]. *)
Definition record_outcome (st : SlotState) (now : N) (o : init_result)
  : SlotState * init_result :=
  match o with
  | Ok _ => (mkSlot (Some CachedOk) None false, o)
  | Err (Permanent msg) => (mkSlot (Some (CachedPermanent msg)) None false, o)
  | Err (Transient f) =>
      let n := (match backoff st with Some b => failures b | None => 0 end + 1) mod 2 ^ 32 in
      (mkSlot (outcome st) (Some (mkBackoff n (now + delay n) f)) false, o)
  | Err (Cycle _) => (mkSlot (outcome st) (backoff st) false, o)
  end.

(** [Drop for InFlight]: the attempt was cancelled. *)
Definition drop_in_flight (st : SlotState) : SlotState :=
  mkSlot (outcome st) (backoff st) false.

(** ** Callers of one slot *)

Inductive event :=
| EvStart (caller : nat) (t : N)
| EvFinish (caller : nat) (t : N) (o : init_result)
| EvCancel (caller : nat) (t : N)
| EvReturn (caller : nat) (t : N) (o : init_result).

(** The slot, the caller holding the attempt lock while its init runs, the
    clock, and what happened so far (latest first). *)
Record sys := mkSys {
  s_slot : SlotState;
  s_holder : option nat;
  s_clock : N;
  s_trace : list event
}.

Definition sys_init (t0 : N) : sys := mkSys slot_new None t0 [].

Inductive slot_step : sys -> sys -> Prop :=
| step_tick slot h t d tr :
    slot_step (mkSys slot h t tr) (mkSys slot h (t + d) tr)
| step_settled slot t tr c slot' r :
    begin_attempt slot t = (slot', Some r) ->
    slot_step (mkSys slot None t tr) (mkSys slot' None t (EvReturn c t r :: tr))
| step_run slot t tr c slot' :
    begin_attempt slot t = (slot', None) ->
    slot_step (mkSys slot None t tr) (mkSys slot' (Some c) t (EvStart c t :: tr))
| step_finish slot t tr c o slot' r :
    record_outcome slot t o = (slot', r) ->
    slot_step (mkSys slot (Some c) t tr) (mkSys slot' None t (EvFinish c t o :: tr))
| step_cancel slot t tr c :
    slot_step (mkSys slot (Some c) t tr)
              (mkSys (drop_in_flight slot) None t (EvCancel c t :: tr)).

Definition slot_reachable (s : sys) : Prop := exists t0, rtc slot_step (sys_init t0) s.

(** ** Readings of a trace *)

(** The run of consecutive transient failures at its end: their number, and
    the last one with its instant. A success or a permanent failure ends it;
    cycles, cancellations and cached answers do not count. *)
Fixpoint last_transient (tr : list event) : option (N * N * TransientFailure) :=
  match tr with
  | [] => None
  | EvFinish _ t (Err (Transient f)) :: tr' =>
      Some ((match last_transient tr' with Some (n, _, _) => n | None => 0 end + 1) mod 2 ^ 32, t, f)
  | EvFinish _ _ (Ok _) :: _ | EvFinish _ _ (Err (Permanent _)) :: _ => None
  | _ :: tr' => last_transient tr'
  end.

Definition is_start (e : event) : bool := match e with EvStart _ _ => true | _ => false end.
Definition is_end (e : event) : bool :=
  match e with EvFinish _ _ _ | EvCancel _ _ => true | _ => false end.
Definition is_final (e : event) : bool :=
  match e with
  | EvFinish _ _ (Ok _) | EvFinish _ _ (Err (Permanent _)) => true
  | _ => false
  end.

Definition count (p : event -> bool) (tr : list event) : nat := length (List.filter p tr).

(** * The properties of the init slot, over every interleaving of its callers:
    outcomes are final, attempts exclude each other, and the retry backoff is
    respected. *)

#[local] Open Scope N_scope.

(** ** The backoff delay *)

Lemma delay_pow (n : N) :
  delay n = N.min (TRANSIENT_RETRY_BASE * 2 ^ (n - 1)) TRANSIENT_RETRY_MAX.
Proof.
  unfold delay. destruct (N.le_gt_cases (n - 1) 16) as [Hle|Hgt]; [by rewrite (N.min_l (n - 1) 16)|].
  rewrite (N.min_r (n - 1) 16) by lia.
  assert (2 ^ 16 <= 2 ^ (n - 1)) by (apply N.pow_le_mono_r; lia).
  unfold TRANSIENT_RETRY_BASE, TRANSIENT_RETRY_MAX in *.
  change (2 ^ 16) with 65536 in *. lia.
Qed.

Lemma delay_bounds (n : N) : TRANSIENT_RETRY_BASE <= delay n <= TRANSIENT_RETRY_MAX.
Proof.
  rewrite delay_pow. assert (2 ^ (n - 1) <> 0) by (apply N.pow_nonzero; lia).
  unfold TRANSIENT_RETRY_BASE, TRANSIENT_RETRY_MAX. lia.
Qed.

Lemma delay_mono (m n : N) : m <= n -> delay m <= delay n.
Proof.
  intros Hmn. rewrite !delay_pow.
  assert (2 ^ (m - 1) <= 2 ^ (n - 1)) by (apply N.pow_le_mono_r; lia).
  unfold TRANSIENT_RETRY_BASE. lia.
Qed.

(** ** The invariant *)

(** Every attempt starts at or after the backoff that precedes it. *)
Fixpoint well_spaced (tr : list event) : Prop :=
  match tr with
  | [] => True
  | e :: tr' =>
      well_spaced tr'
      /\ match e, last_transient tr' with
         | EvStart _ t, Some (n, t0, _) => t0 + delay n <= t
         | _, _ => True
         end
  end.

Definition present {A} (o : option A) : bool :=
  match o with Some _ => true | None => false end.

Record slot_inv (s : sys) : Prop := {
  si_flag : in_flight (s_slot s) = present (s_holder s);
  si_final : is_Some (outcome (s_slot s)) -> s_holder s = None;
  si_backoff : backoff (s_slot s)
    = option_map (fun '(n, t, f) => mkBackoff n (t + delay n) f) (last_transient (s_trace s));
  si_once : count is_final (s_trace s) = Nat.b2n (present (outcome (s_slot s)));
  si_balance : count is_start (s_trace s)
    = (count is_end (s_trace s) + Nat.b2n (present (s_holder s)))%nat;
  si_spaced : well_spaced (s_trace s)
}.

Lemma slot_inv_init t0 : slot_inv (sys_init t0).
Proof. by split; simpl; try lia; try intros [? ?]. Qed.

Lemma settled_none (st : SlotState) (now : N) :
  settled st now = None ->
  outcome st = None /\ (forall b, backoff st = Some b -> retry_at b <= now).
Proof.
  unfold settled. destruct (outcome st) as [o|]; [discriminate|]. intros Hs. split; [done|].
  intros b Hb. rewrite Hb in Hs. unfold pending in Hs.
  destruct (now <? retry_at b) eqn:E; [discriminate|]. by apply N.ltb_ge.
Qed.

Lemma slot_inv_run slot t tr c :
  slot_inv (mkSys slot None t tr) -> settled slot t = None ->
  slot_inv (mkSys (mkSlot (outcome slot) (backoff slot) true) (Some c) t (EvStart c t :: tr)).
Proof.
  intros [Hf Hfin Hb Hone Hbal Hs] Hset. simpl in *.
  apply settled_none in Hset as [Hnone Hret].
  split; simpl; try done.
  - by intros [o Heq]; congruence.
  - unfold count in *. simpl. lia.
  - split; [done|]. destruct (last_transient tr) as [[[n t0] f]|]; [|done].
    simpl in Hb. specialize (Hret _ Hb). done.
Qed.

Lemma slot_inv_finish slot t tr c o slot' r :
  slot_inv (mkSys slot (Some c) t tr) -> record_outcome slot t o = (slot', r) ->
  slot_inv (mkSys slot' None t (EvFinish c t o :: tr)).
Proof.
  intros [Hf Hfin Hb Hone Hbal Hs] Hr. simpl in *.
  assert (Hnone : outcome slot = None).
  { destruct (outcome slot); [|done]. by specialize (Hfin (mk_is_Some _ _ eq_refl)). }
  rewrite Hnone in Hone. unfold count in *. simpl in Hone.
  destruct o as [[]|[msg|f|path]]; simpl in Hr; injection Hr as <- <-;
    split; simpl; unfold count; simpl; rewrite ?Hnone; simpl; try done; try lia.
  rewrite Hb. by destruct (last_transient tr) as [[[n t0] f']|].
Qed.

Lemma slot_inv_step s s' : slot_inv s -> slot_step s s' -> slot_inv s'.
Proof.
  intros Hi Hst. destruct Hst as [slot h t d tr|slot t tr c slot' r E|slot t tr c slot' E
    |slot t tr c o slot' r E|slot t tr c].
  - by destruct Hi; split.
  - unfold begin_attempt in E. destruct (settled slot t); [|discriminate]. injection E as <- <-.
    by destruct Hi; split.
  - unfold begin_attempt in E. destruct (settled slot t) eqn:Es; [discriminate|].
    injection E as <-. by apply slot_inv_run.
  - by eapply slot_inv_finish.
  - destruct Hi as [Hf Hfin Hb Hone Hbal Hs]. split; simpl in *; try done.
    unfold count in *. simpl. lia.
Qed.

Lemma slot_inv_reachable s : slot_reachable s -> slot_inv s.
Proof.
  intros [t0 Hr]. eapply (rtc_ind_r slot_inv (sys_init t0)); [apply slot_inv_init| |exact Hr].
  intros x y _ Hxy Hx. by eapply slot_inv_step.
Qed.

(** A settled slot answers every caller from the cache. *)
Lemma settled_final_step s s' o :
  slot_inv s -> outcome (s_slot s) = Some o -> slot_step s s' ->
  outcome (s_slot s') = Some o /\ count is_start (s_trace s') = count is_start (s_trace s).
Proof.
  intros Hi Ho Hst. destruct Hst as [slot h t d tr|slot t tr c slot' r E|slot t tr c slot' E
    |slot t tr c o' slot' r E|slot t tr c]; simpl in *; try done.
  - unfold begin_attempt in E. destruct (settled slot t); [|discriminate]. by injection E as <- <-.
  - unfold begin_attempt, settled in E. rewrite Ho in E. discriminate.
  - pose proof (si_final _ Hi) as Hf. simpl in Hf. by specialize (Hf (mk_is_Some _ _ Ho)).
Qed.

(** ** The properties *)

(** an init outcome is final. Once a success or a permanent failure is
    recorded, no later sequence of calls changes it or runs init again, every
    call is answered with it, and no slot ever records two. *)
Theorem slot_outcome_final (s s' : sys) (o : CachedOutcome) :
  slot_reachable s -> outcome (s_slot s) = Some o -> rtc slot_step s s' ->
  outcome (s_slot s') = Some o
  /\ count is_start (s_trace s') = count is_start (s_trace s)
  /\ (forall now, begin_attempt (s_slot s') now = (s_slot s', Some (cached_result o)))
  /\ count is_final (s_trace s') = 1%nat.
Proof.
  intros Hr Ho Hst.
  assert (Hend : outcome (s_slot s') = Some o
    /\ count is_start (s_trace s') = count is_start (s_trace s)).
  { apply slot_inv_reachable in Hr. induction Hst as [|x y z Hxy _ IH]; [done|].
    destruct (settled_final_step x y o Hr Ho Hxy) as [Hy Hc].
    destruct (IH (slot_inv_step _ _ Hr Hxy) Hy) as [? ?]. split; congruence. }
  destruct Hend as [He Hc]. split; [done|]. split; [done|]. split.
  - intros now. unfold begin_attempt, settled. by rewrite He.
  - destruct Hr as [t0 Hr].
    assert (Hr' : slot_reachable s') by (exists t0; by etransitivity).
    rewrite (si_once _ (slot_inv_reachable s' Hr')). by rewrite He.
Qed.

(** A run: a transient failure at 0, the retry after the backoff, a success. *)
Definition flaky : TransientFailure := mkTF "db down" None.

Definition run_trace : list event :=
  [EvFinish 1 200000000 (Ok tt); EvStart 1 200000000;
   EvFinish 0 0 (Err (Transient flaky)); EvStart 0 0].

Definition run_end : sys := mkSys (mkSlot (Some CachedOk) None false) None 200000000 run_trace.

Lemma run_reachable : slot_reachable run_end.
Proof.
  exists 0. eapply rtc_l; [by apply (step_run _ _ _ 0%nat)|].
  eapply rtc_l; [by eapply (step_finish _ _ _ _ (Err (Transient flaky)))|].
  eapply rtc_l; [apply (step_tick _ _ _ 200000000)|].
  eapply rtc_l; [apply (step_run _ _ _ 1%nat); vm_compute; reflexivity|].
  apply rtc_once. by eapply (step_finish _ _ _ 1%nat (Ok tt)).
Qed.

Lemma slot_outcome_final_witness :
  begin_attempt (s_slot run_end) 5 = (s_slot run_end, Some (Ok tt))
  /\ count is_final (s_trace run_end) = 1%nat.
Proof.
  destruct (slot_outcome_final run_end run_end CachedOk run_reachable eq_refl (rtc_refl _ _))
    as (_ & _ & H3 & H4).
  split; [apply H3|exact H4].
Defined.

(** attempts exclude each other. At every moment the attempts started are
    the attempts ended (finished or cancelled) plus the one that holds the
    attempt lock; the in-flight flag is up exactly while one runs, and a health
    report of [Initializing] means one does. *)
Theorem slot_single_attempt (s : sys) :
  slot_reachable s ->
  count is_start (s_trace s)
    = (count is_end (s_trace s) + Nat.b2n (present (s_holder s)))%nat
  /\ (in_flight (s_slot s) = true <-> exists c, s_holder s = Some c)
  /\ (forall now, init_state (s_slot s) now = Initializing -> exists c, s_holder s = Some c)
  /\ (is_Some (outcome (s_slot s)) -> s_holder s = None).
Proof.
  intros Hr. apply slot_inv_reachable in Hr as [Hf Hfin Hb Hone Hbal Hs].
  assert (Hiff : in_flight (s_slot s) = true <-> exists c, s_holder s = Some c).
  { rewrite Hf. destruct (s_holder s); simpl; [naive_solver|]. split; [done|by intros [? ?]]. }
  repeat split; try done; try apply Hiff. intros now Hi. apply Hiff.
  unfold init_state in Hi. by repeat case_match.
Qed.

Lemma slot_single_attempt_witness :
  count is_start (s_trace run_end) = (count is_end (s_trace run_end) + 0)%nat.
Proof. exact (proj1 (slot_single_attempt run_end run_reachable)). Defined.

(** the retry backoff is respected. In every trace each attempt starts no
    earlier than the delay after the last of the consecutive transient failures
    before it; the delay after [n] failures is the base doubled [n - 1] times,
    capped, so it never shrinks and stays between the base and the cap. *)
Theorem slot_backoff_respected (s : sys) (newer older : list event) (c : nat) (t n t0 : N)
    (f : TransientFailure) :
  slot_reachable s -> s_trace s = newer ++ EvStart c t :: older ->
  last_transient older = Some (n, t0, f) ->
  t0 + delay n <= t
  /\ delay n = N.min (TRANSIENT_RETRY_BASE * 2 ^ (n - 1)) TRANSIENT_RETRY_MAX
  /\ TRANSIENT_RETRY_BASE <= delay n <= TRANSIENT_RETRY_MAX
  /\ (forall m, m <= n -> delay m <= delay n).
Proof.
  intros Hr Htr Hl. split; [|split; [apply delay_pow|split; [apply delay_bounds|]]].
  - apply slot_inv_reachable in Hr. pose proof (si_spaced _ Hr) as Hs. rewrite Htr in Hs.
    clear -Hs Hl. induction newer as [|e newer IH]; simpl in Hs; [|apply IH, Hs].
    destruct Hs as [_ Hs]. by rewrite Hl in Hs.
  - intros m. apply delay_mono.
Qed.

Lemma slot_backoff_respected_witness : 0 + delay 1 <= 200000000.
Proof.
  apply (slot_backoff_respected run_end [EvFinish 1 200000000 (Ok tt)]
    [EvFinish 0 0 (Err (Transient flaky)); EvStart 0 0] 1 200000000 1 0 flaky run_reachable);
    reflexivity.
Defined.

(** the readers agree with the attempt path. Whatever [try_cached] answers
    is what a call gets, with the slot untouched; [Ready] and [Failed] are
    reported exactly for the cached outcomes; a pending retry is reported with
    the delay [pending_retry_in] names, and the call then gets a transient
    failure that keeps the detail code. *)
Theorem slot_readers_agree (st : SlotState) (now : N) :
  (forall r, settled st now = Some r -> begin_attempt st now = (st, Some r))
  /\ (init_state st now = Ready <-> settled st now = Some (Ok tt))
  /\ (forall msg, init_state st now = Failed msg <-> settled st now = Some (Err (Permanent msg)))
  /\ (forall d, pending_retry_in st now = Some d <->
        0 < d /\ exists f, init_state st now = Retrying f d)
  /\ (forall d, pending_retry_in st now = Some d ->
        exists f g, init_state st now = Retrying f d
          /\ begin_attempt st now = (st, Some (Err (Transient g)))
          /\ tf_detail_code g = tf_detail_code f).
Proof.
  unfold begin_attempt, init_state, settled, pending_retry_in, pending.
  destruct (outcome st) as [[|reason]|]; simpl; [naive_solver|naive_solver|].
  destruct (backoff st) as [b|]; simpl; [|destruct (in_flight st); naive_solver].
  destruct (now <? retry_at b) eqn:E; [apply N.ltb_lt in E|]; simpl.
  - split; [naive_solver|]. split; [split; discriminate|]. split; [intros; split; discriminate|].
    split.
    + intros d. split; [intros [= <-]; split; [lia|eauto]|]. by intros (_ & f & [= _ <-]).
    + intros d [= <-]. eexists _, _. split; [done|]. split; done.
  - split; [done|]. destruct (in_flight st); (split; [split; discriminate|]);
      (split; [intros; split; discriminate|]); (split; [|discriminate]); intros d;
      (split; [discriminate|]); intros (Hd & f & Hf); [discriminate|]. injection Hf as _ <-. lia.
Qed.

Lemma slot_readers_agree_witness :
  begin_attempt (s_slot run_end) 7 = (s_slot run_end, Some (Ok tt)).
Proof. apply (proj1 (slot_readers_agree (s_slot run_end) 7)). reflexivity. Defined.
