(* ===== verification/InitWaits.v ===== *)
(** The runtime-wide wait-for graph of in-flight block inits
    ([wafer-run/src/runtime/init_waits.rs]) and the way
    [run_init_pipeline] ([wafer-run/src/runtime.rs]) uses it. What an
    attempt's database calls saw ([InitAttemptRecord]) is not part of it. *)

From S2P Require Import Prelude CoreTypes.

#[local] Open Scope N_scope.

(** ** Data *)

Record InitAttempt := mkAttempt { at_id : N; at_block : string }.

Record WaitGraph := mkGraph {
  owners : gmap string N;
  waits : gmap N (list string)
}.

Definition waits_of (g : WaitGraph) (a : N) : list string := default [] (waits g !! a).

(** The loop over an owner's waits: push, recurse, pop. *)
Fixpoint visit (rec : string -> list string -> gset N -> option (bool * list string * gset N))
    (l path : list string) (seen : gset N) : option (bool * list string * gset N) :=
  match l with
  | [] => Some (false, path, seen)
  | next :: l' =>
      match rec next (path ++ [next]) seen with
      | None => None
      | Some (true, p, s) => Some (true, p, s)
      | Some (false, p, s) => visit rec l' (removelast p) s
      end
  end.

(** [WaitGraph::reaches] over the mutable [path] and [seen], returned with the
    answer; [None] is out of fuel. *)
Fixpoint reaches (fuel : nat) (g : WaitGraph) (block : string) (goal : N)
    (path : list string) (seen : gset N) : option (bool * list string * gset N) :=
  match fuel with
  | O => None
  | S fuel =>
      match owners g !! block with
      | None => Some (false, path, seen)
      | Some owner =>
          if owner =? goal then Some (true, path, seen)
          else if bool_decide (owner ∈ seen) then Some (false, path, seen)
          else visit (fun next => reaches fuel g next goal) (waits_of g owner)
                 path ({[owner]} ∪ seen)
      end
  end.

(** Enough for every walk: one level per owning attempt, and one more. *)
Definition reaches_fuel (g : WaitGraph) : nat := S (size (map_img (SA := gset N) (owners g))).

Record InitWaits := mkInitWaits { graph : WaitGraph; next_attempt : N }.

Definition init_waits_new : InitWaits := mkInitWaits (mkGraph ∅ ∅) 0.

(** [InitWaits::attempt]: a fresh id ([AtomicU64::fetch_add]). *)
Definition attempt (w : InitWaits) (block : string) : InitWaits * InitAttempt :=
  (mkInitWaits (graph w) ((next_attempt w + 1) mod 2 ^ 64), mkAttempt (next_attempt w) block).

(** [InitWaits::is_running]. *)
Definition is_running (w : InitWaits) (a : InitAttempt) : bool :=
  bool_decide (owners (graph w) !! at_block a = Some (at_id a)).

(** [InitWaits::own]. *)
Definition own (w : InitWaits) (a : InitAttempt) : InitWaits :=
  mkInitWaits (mkGraph (<[at_block a := at_id a]> (owners (graph w))) (waits (graph w)))
    (next_attempt w).

(** [InitWaits::wait_for]: the edge recorded, or the path of the cycle it would
    close; [None] is out of fuel. *)
Definition wait_for (w : InitWaits) (waiter : InitAttempt) (target : string)
  : option (result InitWaits (list string)) :=
  let g := graph w in
  match reaches (reaches_fuel g) g target (at_id waiter) [at_block waiter; target] ∅ with
  | None => None
  | Some (true, path, _) => Some (Err path)
  | Some (false, _, _) =>
      Some (Ok (mkInitWaits
        (mkGraph (owners g) (<[at_id waiter := waits_of g (at_id waiter) ++ [target]]> (waits g)))
        (next_attempt w)))
  end.

(** [Drop for OwnerGuard]. *)
Definition drop_owner (w : InitWaits) (a : InitAttempt) : InitWaits :=
  if is_running w a
  then mkInitWaits (mkGraph (delete (at_block a) (owners (graph w))) (waits (graph w)))
         (next_attempt w)
  else w.

(** [Vec::swap_remove] of the first element equal to [x]. *)
Fixpoint position (x : string) (l : list string) : option nat :=
  match l with
  | [] => None
  | y :: l' => if y =s x then Some O else option_map S (position x l')
  end.

Definition swap_remove (pos : nat) (l : list string) : list string :=
  match last l with
  | None => l
  | Some z => removelast (<[pos := z]> l)
  end.

(** [Drop for WaitGuard]. *)
Definition drop_wait (w : InitWaits) (waiter : N) (target : string) : InitWaits :=
  let g := graph w in
  match waits g !! waiter with
  | None => w
  | Some targets =>
      let targets := match position target targets with
                     | Some pos => swap_remove pos targets
                     | None => targets
                     end in
      mkInitWaits
        (mkGraph (owners g)
           (match targets with
            | [] => delete waiter (waits g)
            | _ => <[waiter := targets]> (waits g)
            end)) (next_attempt w)
  end.

(** ** The protocol of the init pipeline *)

(** The graph with the attempts that have not started to run. *)
Record isys := mkISys { i_waits : InitWaits; i_fresh : gmap N string }.

(** [run_init_pipeline]: an attempt is made ([istep_attempt], while ids last);
    it owns its block from when it holds the block's attempt lock - so nobody
    else owns it - and only then does code run on its behalf and wait for
    other blocks. Guards drop in any order; a wait may outlive the init
    (deferred work keeps the context). *)
Inductive istep : isys -> isys -> Prop :=
| istep_attempt w fr block w' a :
    next_attempt w + 1 < 2 ^ 64 -> attempt w block = (w', a) ->
    istep (mkISys w fr) (mkISys w' (<[at_id a := at_block a]> fr))
| istep_own w fr a :
    fr !! at_id a = Some (at_block a) -> owners (graph w) !! at_block a = None ->
    istep (mkISys w fr) (mkISys (own w a) (delete (at_id a) fr))
| istep_wait w fr a target w' :
    at_id a < next_attempt w -> fr !! at_id a = None ->
    wait_for w a target = Some (Ok w') ->
    istep (mkISys w fr) (mkISys w' fr)
| istep_drop_owner w fr a :
    istep (mkISys w fr) (mkISys (drop_owner w a) fr)
| istep_drop_wait w fr waiter target :
    istep (mkISys w fr) (mkISys (drop_wait w waiter target) fr)
| istep_abandon w fr id :
    istep (mkISys w fr) (mkISys w (delete id fr)).

Definition ireachable : isys -> Prop := rtc istep (mkISys init_waits_new ∅).

(** ** The wait-for relation *)

(** Attempt [a] waits for a block that attempt [a'] is initializing. *)
Definition edge (g : WaitGraph) (a a' : N) : Prop :=
  exists b, In b (waits_of g a) /\ owners g !! b = Some a'.

(** * The properties of the wait-for graph: the walk decides reachability within
    its fuel, a refused wait names a real cycle, and the graph of a running
    system has no cycle - so some running init can always go on. *)

#[local] Open Scope N_scope.

(** ** The walk *)

Lemma last_cons_default {A} (x d : A) (l : list A) : List.last (x :: l) d = List.last l x.
Proof.
  revert x d; induction l as [|y l IH]; intros x d; [done|].
  change (List.last (y :: l) d = List.last (y :: l) x). by rewrite (IH y d), (IH y x).
Qed.

Section Walk.
Variables (g : WaitGraph) (goal : N).

Definition ids : gset N := map_img (owners g).

(** Consecutive blocks of a path: the owner of one waits for the next. *)
Fixpoint chain (block : string) (rest : list string) : Prop :=
  match rest with
  | [] => True
  | next :: rest' =>
      (exists a, owners g !! block = Some a /\ In next (waits_of g a)) /\ chain next rest'
  end.

(** What one walk from [block] guarantees, by its answer. *)
Definition walk_ok (block : string) (path : list string) (seen : gset N)
    (res : bool * list string * gset N) : Prop :=
  match res with
  | (true, p, _) => exists rest, p = path ++ rest /\ chain block rest
      /\ owners g !! (List.last rest block) = Some goal
  | (false, p, s) => p = path /\ seen ⊆ s
      /\ (forall a, owners g !! block = Some a -> a ∈ s)
      /\ (goal ∉ seen -> goal ∉ s)
      /\ (forall a a', a ∈ s -> a ∉ seen -> edge g a a' -> a' ∈ s)
  end.

(** ... and from a list of blocks the attempt [owner] waits for. *)
Definition visit_ok (l path : list string) (seen : gset N)
    (res : bool * list string * gset N) : Prop :=
  match res with
  | (true, p, _) => exists next rest, In next l /\ p = path ++ next :: rest /\ chain next rest
      /\ owners g !! (List.last rest next) = Some goal
  | (false, p, s) => p = path /\ seen ⊆ s
      /\ (forall b a, In b l -> owners g !! b = Some a -> a ∈ s)
      /\ (goal ∉ seen -> goal ∉ s)
      /\ (forall a a', a ∈ s -> a ∉ seen -> edge g a a' -> a' ∈ s)
  end.

Lemma visit_spec rec l path seen :
  (forall next path' seen', In next l -> seen ⊆ seen' ->
     exists res, rec next path' seen' = Some res /\ walk_ok next path' seen' res) ->
  exists res, visit rec l path seen = Some res /\ visit_ok l path seen res.
Proof.
  revert seen. induction l as [|next l IH]; intros seen Hrec; simpl.
  { eexists; split; [done|]. simpl. naive_solver. }
  destruct (Hrec next (path ++ [next]) seen) as ([[b p] s] & -> & Hw); [by left|done|].
  destruct b; simpl in Hw.
  - destruct Hw as (rest & -> & Hc & Ho). eexists; split; [done|]. simpl.
    exists next, rest. rewrite <- app_assoc. auto.
  - destruct Hw as (-> & Hsub & Hown & Hgoal & Hcl). rewrite removelast_last.
    destruct (IH s) as ([[b p] s'] & -> & Hv).
    { intros n' p' s'' Hin Hs. apply Hrec; [by right|set_solver]. }
    eexists; split; [done|]. destruct b; simpl in Hv |- *.
    + destruct Hv as (n' & rest & Hin & ? & ? & ?). exists n', rest. auto.
    + destruct Hv as (-> & Hsub' & Hown' & Hgoal' & Hcl'). split; [done|].
      split; [set_solver|]. split; [|split; [auto|]].
      * intros b a [<-|Hin] Ha; [apply Hsub'; eauto|eauto].
      * intros a a' Ha Hna He. destruct (decide (a ∈ s)); [|eauto]. apply Hsub'. eauto.
Qed.

Lemma reaches_spec fuel block path seen :
  (size (ids ∖ seen) < fuel)%nat ->
  exists res, reaches fuel g block goal path seen = Some res /\ walk_ok block path seen res.
Proof.
  revert block path seen. induction fuel as [|fuel IH]; intros block path seen Hf; [lia|]. simpl.
  destruct (owners g !! block) as [owner|] eqn:Eo.
  2: { eexists; split; [done|]. simpl. rewrite Eo. naive_solver. }
  destruct (owner =? goal) eqn:Eg.
  { apply N.eqb_eq in Eg as ->. eexists; split; [done|]. simpl. exists []. simpl.
    rewrite app_nil_r. auto. }
  apply N.eqb_neq in Eg. case_bool_decide as Es.
  { eexists; split; [done|]. simpl. rewrite Eo. naive_solver. }
  assert (Hid : owner ∈ ids) by (apply elem_of_map_img; eauto).
  destruct (visit_spec (fun next => reaches fuel g next goal) (waits_of g owner) path
              ({[owner]} ∪ seen)) as ([[b p] s] & -> & Hv).
  { intros next path' seen' _ Hsub. apply IH.
    enough (size (ids ∖ seen') < size (ids ∖ seen))%nat by lia.
    apply subset_size. split; [clear -Hsub; set_solver|]. intros Hc.
    assert (Ho : owner ∈ ids ∖ seen') by (apply Hc; clear -Hid Es; set_solver).
    clear -Hsub Ho. set_solver. }
  eexists; split; [done|]. destruct b; simpl in Hv |- *.
  - destruct Hv as (next & rest & Hin & -> & Hc & Ho). exists (next :: rest).
    split; [done|]. split; [simpl; eauto|]. by rewrite last_cons_default.
  - destruct Hv as (-> & Hsub & Hown & Hgoal & Hcl). split; [done|].
    split; [set_solver|]. split; [intros a Ha; simplify_eq; set_solver|].
    split; [intros; apply Hgoal; set_solver|].
    intros a a' Ha Hna He. destruct (decide (a = owner)) as [->|Hne].
    + destruct He as (b & Hb & Hob). eauto.
    + apply (Hcl a a'); set_solver.
Qed.

(** The top-level walk decides reachability of [goal] from the block's owner. *)
Lemma reaches_decides block path :
  exists b p s, reaches (reaches_fuel g) g block goal path ∅ = Some (b, p, s)
    /\ (b = true <-> exists a, owners g !! block = Some a /\ rtc (edge g) a goal)
    /\ walk_ok block path ∅ (b, p, s).
Proof.
  destruct (reaches_spec (reaches_fuel g) block path ∅) as ([[b p] s] & Hr & Hw).
  { unfold reaches_fuel. change (map_img (owners g)) with ids.
    assert (size (ids ∖ ∅) <= size ids)%nat by (apply subseteq_size; set_solver). lia. }
  exists b, p, s. split; [done|]. split; [|done]. destruct b; simpl in Hw.
  - split; [intros _|done]. destruct Hw as (rest & _ & Hc & Ho). clear Hr p.
    revert block Hc Ho. induction rest as [|next rest IH]; intros block Hc Ho; [by exists goal|].
    simpl in Hc. destruct Hc as [(a & Ha & Hin) Hc]. rewrite last_cons_default in Ho.
    destruct (IH next Hc Ho) as (a' & Ha' & Hr). exists a. split; [done|].
    eapply rtc_l; [|done]. by exists next.
  - split; [done|]. intros (a & Ha & Hreach). exfalso.
    destruct Hw as (_ & _ & Hown & Hgoal & Hcl). apply Hgoal; [set_solver|].
    specialize (Hown a Ha). clear -Hown Hcl Hreach.
    induction Hreach as [|x y z Hxy _ IH]; [done|]. apply IH. eapply Hcl; eauto. set_solver.
Qed.
End Walk.

(** ** The invariant of the protocol *)

Record wait_inv (s : isys) : Prop := {
  wi_owner : forall b a, owners (graph (i_waits s)) !! b = Some a ->
    a < next_attempt (i_waits s) /\ i_fresh s !! a = None;
  wi_waits : forall a, waits_of (graph (i_waits s)) a <> [] ->
    a < next_attempt (i_waits s) /\ i_fresh s !! a = None;
  wi_fresh : forall a b, i_fresh s !! a = Some b -> a < next_attempt (i_waits s);
  wi_inj : forall b b' a, owners (graph (i_waits s)) !! b = Some a ->
    owners (graph (i_waits s)) !! b' = Some a -> b = b';
  wi_acyclic : forall a, ~ tc (edge (graph (i_waits s))) a a
}.

Lemma tc_mono {A} (R R' : relation A) (x y : A) :
  (forall a b, R a b -> R' a b) -> tc R x y -> tc R' x y.
Proof. intros Hs. induction 1; [apply tc_once; auto|eapply tc_l; eauto]. Qed.

Lemma tc_last_edge {A} (R : relation A) (x y : A) : tc R x y -> exists z, R z y.
Proof. induction 1; eauto. Qed.

Lemma edge_nonempty g a a' : edge g a a' -> waits_of g a <> [].
Proof. intros (b & Hb & _) E. by rewrite E in Hb. Qed.

(** An edge into a node without edges closes no cycle. *)
Lemma tc_sink {A} (R R' : relation A) (z : A) :
  (forall a b, R' a b -> R a b \/ b = z) -> (forall b, ~ R' z b) ->
  (forall a, ~ tc R a a) -> forall a, ~ tc R' a a.
Proof.
  intros Hs Hz Ha a Hc.
  assert (Hgen : forall x y, tc R' x y -> tc R x y \/ y = z).
  { intros x y Hxy. induction Hxy as [x y Hxy|x y w Hxy Hyw IH].
    - destruct (Hs x y Hxy); [left; by apply tc_once|auto].
    - destruct (Hs x y Hxy) as [Hr| ->]; [destruct IH; [left; by eapply tc_l|auto]|].
      exfalso. inversion Hyw; subst; by eapply Hz. }
  destruct (Hgen a a Hc) as [| ->]; [by eapply Ha|].
  inversion Hc; subst; by eapply Hz.
Qed.

(** A new edge [x -> y] closes no cycle when [x] is not reachable from [y]. *)
Lemma tc_new_edge {A} (R R' : relation A) (x y : A) :
  (forall a b, R' a b -> R a b \/ (a = x /\ b = y)) -> ~ rtc R y x ->
  (forall a, ~ tc R a a) -> forall a, ~ tc R' a a.
Proof.
  intros Hs Hn Ha a Hc.
  assert (Hgen : forall u v, tc R' u v -> tc R u v \/ (rtc R u x /\ rtc R' y v)).
  { intros u v Huv. induction Huv as [u v Huv|u w v Huw Hwv IH].
    - destruct (Hs u v Huv) as [|[-> ->]]; [left; by apply tc_once|right; by split].
    - destruct (Hs u w Huw) as [Hr|[-> ->]]; [|right; split; [done|by apply tc_rtc]].
      destruct IH as [?|[? ?]]; [left; by eapply tc_l|right; split; [by eapply rtc_l|done]]. }
  assert (Hback : forall v, rtc R' y v -> rtc R v x -> False).
  { intros v Hyv. apply rtc_tc in Hyv as [->|Hyv]; [done|]. intros Hvx.
    destruct (Hgen y v Hyv) as [Hyv'|[Hyx _]]; [|done].
    apply Hn. etransitivity; [by apply tc_rtc|done]. }
  destruct (Hgen a a Hc) as [?|[? ?]]; [by eapply Ha|by eapply Hback].
Qed.

Lemma in_swap_remove pos l b : In b (swap_remove pos l) -> In b l.
Proof.
  unfold swap_remove. destruct (last l) as [z|] eqn:E; [|done].
  intros Hb. assert (Hin : In b (<[pos := z]> l)).
  { destruct (<[pos := z]> l) as [|y l'] eqn:El; [done|].
    rewrite (app_removelast_last y) by done. apply in_or_app. by left. }
  apply list_elem_of_In, list_elem_of_lookup in Hin as [i Hi].
  rewrite <- list_elem_of_In. destruct (decide (i = pos)) as [->|Hne].
  - apply list_lookup_insert_Some in Hi as [(_ & <- & _)|[? _]]; [|done].
    rewrite last_lookup in E. by eapply list_elem_of_lookup_2.
  - rewrite list_lookup_insert_ne in Hi by done. by eapply list_elem_of_lookup_2.
Qed.

Lemma drop_wait_waits w waiter target a b :
  In b (waits_of (graph (drop_wait w waiter target)) a) -> In b (waits_of (graph w) a).
Proof.
  unfold drop_wait, waits_of. destruct (waits (graph w) !! waiter) as [targets|] eqn:E; [|done].
  set (l := match position target targets with
            | Some pos => swap_remove pos targets | None => targets end). simpl.
  destruct (decide (a = waiter)) as [->|Hne].
  - destruct l as [|y l'] eqn:El; [by rewrite lookup_delete_eq|].
    rewrite lookup_insert_eq, E. intros Hb. assert (Hl : In b l) by (by rewrite El).
    unfold l in Hl. simpl. destruct (position target targets); [by eapply in_swap_remove|done].
  - destruct l; [by rewrite lookup_delete_ne|by rewrite lookup_insert_ne].
Qed.

Lemma drop_wait_same w waiter target :
  owners (graph (drop_wait w waiter target)) = owners (graph w)
  /\ next_attempt (drop_wait w waiter target) = next_attempt w.
Proof. unfold drop_wait. by destruct (waits (graph w) !! waiter). Qed.

(** A step that removes owners or waits and keeps the rest. *)
Lemma wait_inv_shrink w fr w' fr' :
  wait_inv (mkISys w fr) -> next_attempt w' = next_attempt w ->
  (forall b a, owners (graph w') !! b = Some a -> owners (graph w) !! b = Some a) ->
  (forall a b, In b (waits_of (graph w') a) -> In b (waits_of (graph w) a)) ->
  (forall a b, fr' !! a = Some b -> fr !! a = Some b) ->
  wait_inv (mkISys w' fr').
Proof.
  intros [Ho Hw Hf Hi Hc] Hn Hos Hws Hfs. simpl in *.
  assert (Hfn : forall a, fr !! a = None -> fr' !! a = None).
  { intros a Ha. destruct (fr' !! a) eqn:E; [|done]. apply Hfs in E. congruence. }
  split; simpl; rewrite ?Hn.
  - intros b a Hb. destruct (Ho b a (Hos _ _ Hb)). auto.
  - intros a Ha. destruct (waits_of (graph w') a) as [|b l] eqn:E; [done|].
    assert (Hin : In b (waits_of (graph w) a)) by (apply Hws; rewrite E; by left).
    destruct (Hw a); [by intros E'; rewrite E' in Hin|]. auto.
  - eauto.
  - eauto.
  - intros a Ht. apply (Hc a). eapply tc_mono; [|exact Ht].
    intros x y (b & Hb & Hy). exists b. auto.
Qed.

Lemma wait_inv_own w fr a :
  wait_inv (mkISys w fr) -> fr !! at_id a = Some (at_block a) ->
  owners (graph w) !! at_block a = None ->
  wait_inv (mkISys (own w a) (delete (at_id a) fr)).
Proof.
  intros [Ho Hw Hf Hi Hc] Hfr Hnone. simpl in *.
  assert (Hno : waits_of (graph w) (at_id a) = []).
  { destruct (waits_of _ _) eqn:E; [done|]. destruct (Hw (at_id a)); [by rewrite E|congruence]. }
  assert (Hni : forall b, owners (graph w) !! b <> Some (at_id a)).
  { intros b Hb. destruct (Ho _ _ Hb). congruence. }
  split; simpl.
  - intros b x. destruct (decide (at_block a = b)) as [<-|Hne].
    + rewrite lookup_insert_eq. intros [= <-]. by split; [eauto|rewrite lookup_delete_eq].
    + rewrite lookup_insert_ne by done. intros Hx. destruct (Ho _ _ Hx).
      split; [done|]. by apply lookup_delete_None; right.
  - intros x Hx. destruct (Hw x Hx). split; [done|]. by apply lookup_delete_None; right.
  - intros x b [_ Hx]%lookup_delete_Some. eauto.
  - intros b b' x Hb Hb'. apply lookup_insert_Some in Hb as [[<- <-]|[Hne Hb]];
      apply lookup_insert_Some in Hb' as [[<- Hx]|[Hne' Hb']]; try done.
    + by apply Hni in Hb'.
    + subst. by apply Hni in Hb.
    + eauto.
  - apply (tc_sink (edge (graph w)) _ (at_id a)); [|intros b He|done].
    + intros x y (b & Hb & Hy). simpl in *.
      apply lookup_insert_Some in Hy as [[_ <-]|[_ Hy]]; [by right|left; by exists b].
    + apply edge_nonempty in He. unfold waits_of in *. simpl in He. congruence.
Qed.

Lemma waits_of_insert w a l x :
  waits_of (mkGraph (owners (graph w)) (<[a := l]> (waits (graph w)))) x
  = if decide (a = x) then l else waits_of (graph w) x.
Proof.
  unfold waits_of. simpl. destruct (decide (a = x)) as [<-|Hne];
    [by rewrite lookup_insert_eq|by rewrite lookup_insert_ne].
Qed.

Lemma wait_inv_wait w fr a target w' :
  wait_inv (mkISys w fr) -> at_id a < next_attempt w -> fr !! at_id a = None ->
  wait_for w a target = Some (Ok w') -> wait_inv (mkISys w' fr).
Proof.
  intros [Ho Hw Hf Hi Hc] Hlt Hfr. unfold wait_for.
  destruct (reaches_decides (graph w) (at_id a) target [at_block a; target])
    as (b & p & s & -> & Hdec & _). destruct b; [discriminate|]. intros [= <-]. simpl in *.
  split; simpl; try done.
  - intros x. rewrite waits_of_insert. case_decide; [subst; auto|apply Hw].
  - destruct (owners (graph w) !! target) as [o|] eqn:Et.
    + apply (tc_new_edge (edge (graph w)) _ (at_id a) o); [| |done].
      * intros x y (b & Hb & Hy). rewrite waits_of_insert in Hb. simpl in Hy. case_decide; subst.
        -- apply in_app_or in Hb as [Hb|[<-|[]]]; [left; by exists b|right].
           split; [done|congruence].
        -- left; by exists b.
      * intros Hr. assert (false = true) by (apply Hdec; eauto). done.
    + intros x Hx. apply (Hc x). eapply tc_mono; [|exact Hx].
      intros u v (b & Hb & Hy). rewrite waits_of_insert in Hb. simpl in Hy.
      case_decide; subst; [|by exists b].
      apply in_app_or in Hb as [Hb|[<-|[]]]; [by exists b|congruence].
Qed.

Lemma wait_inv_step s s' : wait_inv s -> istep s s' -> wait_inv s'.
Proof.
  intros Hi Hst. destruct Hst as [w fr block w' a Hn E|w fr a Hfr Hno|w fr a target w' Hlt Hfr E
    |w fr a|w fr waiter target|w fr id].
  - unfold attempt in E. injection E as <- <-. destruct Hi as [Ho Hw Hf Hinj Hc]. simpl in *.
    assert (Hm : (next_attempt w + 1) mod 2 ^ 64 = next_attempt w + 1) by (by apply N.mod_small).
    split; simpl; rewrite ?Hm; try done.
    + intros b x Hx. destruct (Ho _ _ Hx). split; [lia|]. by rewrite lookup_insert_ne by lia.
    + intros x Hx. destruct (Hw _ Hx). split; [lia|]. by rewrite lookup_insert_ne by lia.
    + intros x b Hx. apply lookup_insert_Some in Hx as [[<- _]|[_ Hx]]; [lia|].
      specialize (Hf _ _ Hx). lia.
  - by apply wait_inv_own.
  - by eapply wait_inv_wait.
  - eapply wait_inv_shrink; try done; unfold drop_owner; destruct (is_running w a); simpl; try done.
    by intros b x [_ ?]%lookup_delete_Some.
  - destruct (drop_wait_same w waiter target) as [Eo En].
    eapply wait_inv_shrink; [exact Hi|done|by rewrite Eo|apply drop_wait_waits|done].
  - eapply wait_inv_shrink; try done. by intros a b [_ ?]%lookup_delete_Some.
Qed.

Lemma wait_inv_reachable s : ireachable s -> wait_inv s.
Proof.
  intros Hr. eapply (rtc_ind_r wait_inv); [| |exact Hr].
  - split; simpl; try done. intros a Hc.
    assert (Hne : exists b, edge (mkGraph ∅ ∅) a b) by (inversion Hc; eauto).
    destruct Hne as [b (x & Hx & _)]. done.
  - intros x y _ Hxy Hx. by eapply wait_inv_step.
Qed.

(** ** Progress *)

Lemma edge_target_owns g a a' : edge g a a' -> a' ∈ ids g.
Proof. intros (b & _ & Hb). apply elem_of_map_img. eauto. Qed.

Lemma edge_dec g a : (exists a', edge g a a') \/ (forall a', ~ edge g a a').
Proof.
  destruct (existsb (fun b => bool_decide (is_Some (owners g !! b))) (waits_of g a)) eqn:E.
  - left. apply existsb_exists in E as (b & Hb & Ho). apply bool_decide_eq_true in Ho as [a' Ha'].
    exists a', b. auto.
  - right. intros a' (b & Hb & Ho). apply not_true_iff_false in E. apply E, existsb_exists.
    exists b. split; [done|]. apply bool_decide_eq_true. eauto.
Qed.

Lemma acyclic_progress g a :
  (forall x, ~ tc (edge g) x x) ->
  exists a', rtc (edge g) a a' /\ forall a'', ~ edge g a' a''.
Proof.
  intros Hac.
  assert (Hsn : sn (edge g) a).
  { apply tc_finite_sn; [exact Hac|]. exists (elements (ids g)). intros x Hx.
    apply elem_of_elements. apply tc_last_edge in Hx as [y Hy]. by eapply edge_target_owns. }
  induction Hsn as [a _ IH]. destruct (edge_dec g a) as [[b Hb]|Hn]; [|by exists a].
  destruct (IH b Hb) as (a' & Hr & Hnf). exists a'. split; [by eapply rtc_l|done].
Qed.

Lemma rtc_from_owner g a a' b :
  owners g !! b = Some a -> rtc (edge g) a a' -> exists b', owners g !! b' = Some a'.
Proof.
  intros Hb Hr. apply rtc_tc in Hr as [<-|Hr]; [eauto|].
  apply tc_last_edge in Hr as (y & x & _ & Hx). eauto.
Qed.

(** ** The properties *)

(** C4: inits never deadlock on each other. In every reachable state of the
    init protocol the wait-for relation between attempts has no cycle, and
    from every running attempt one reaches, along the waits, a running attempt
    that waits for no block another attempt is initializing. *)
Theorem init_waits_no_deadlock (s : isys) :
  ireachable s ->
  let g := graph (i_waits s) in
  (forall a, ~ tc (edge g) a a)
  /\ (forall b a, owners g !! b = Some a ->
      exists b' a', rtc (edge g) a a' /\ owners g !! b' = Some a' /\ forall a'', ~ edge g a' a'').
Proof.
  intros Hr g. apply wait_inv_reachable in Hr. split; [apply (wi_acyclic _ Hr)|].
  intros b a Hb. destruct (acyclic_progress g a (wi_acyclic _ Hr)) as (a' & Hra & Hnf).
  destruct (rtc_from_owner g a a' b Hb Hra) as [b' Hb']. eauto 6.
Qed.

(** Two inits, the first waiting for the second. *)
Definition two_inits : isys :=
  mkISys (mkInitWaits (mkGraph (<["acme/b" := 1]> (<["acme/a" := 0]> ∅)) (<[0 := ["acme/b"]]> ∅)) 2) ∅.

Lemma two_inits_reachable : ireachable two_inits.
Proof.
  unfold ireachable.
  eapply rtc_l; [by eapply (istep_attempt _ _ "acme/a"); [|reflexivity]|].
  eapply rtc_l; [by eapply (istep_attempt _ _ "acme/b"); [|reflexivity]|].
  eapply rtc_l; [by apply (istep_own _ _ (mkAttempt 0 "acme/a"))|].
  eapply rtc_l; [by apply (istep_own _ _ (mkAttempt 1 "acme/b"))|].
  apply rtc_once.
  assert (E : mkISys two_inits.(i_waits) ∅ = two_inits) by reflexivity. rewrite <- E.
  match goal with |- istep (mkISys ?w ?fr) _ =>
    assert (Hfr : fr = ∅) by (vm_compute; reflexivity); rewrite Hfr;
    apply (istep_wait w ∅ (mkAttempt 0 "acme/a") "acme/b") end; vm_compute; reflexivity.
Qed.

Lemma init_waits_no_deadlock_witness :
  exists b' a', rtc (edge (graph (i_waits two_inits))) 0 a'
    /\ owners (graph (i_waits two_inits)) !! b' = Some a'
    /\ forall a'', ~ edge (graph (i_waits two_inits)) a' a''.
Proof.
  apply (proj2 (init_waits_no_deadlock two_inits two_inits_reachable) "acme/a" 0).
  vm_compute. reflexivity.
Defined.

(** a wait is refused exactly when it would close a cycle. For an attempt
    that runs its block's init, [wait_for] always answers; it refuses exactly
    when the target's owner reaches the attempt along the recorded waits, and
    the path it reports is that cycle, from the attempt's block through the
    target back to the attempt's block, each block's owner waiting for the
    next. Otherwise it records exactly the new wait. *)
Theorem wait_for_decides_cycle (s : isys) (a : InitAttempt) (target : string) :
  ireachable s -> is_running (i_waits s) a = true ->
  let w := i_waits s in let g := graph w in
  exists r, wait_for w a target = Some r
    /\ ((exists o, owners g !! target = Some o /\ rtc (edge g) o (at_id a)) <->
        exists path, r = Err path)
    /\ (forall path, r = Err path -> exists rest, path = at_block a :: target :: rest
          /\ chain g target rest /\ List.last rest target = at_block a)
    /\ (forall w', r = Ok w' ->
          owners (graph w') = owners g /\ next_attempt w' = next_attempt w
          /\ waits (graph w') = <[at_id a := waits_of g (at_id a) ++ [target]]> (waits g)).
Proof.
  intros Hr Hrun w g. apply wait_inv_reachable in Hr. apply bool_decide_eq_true in Hrun.
  unfold wait_for. fold g.
  destruct (reaches_decides g (at_id a) target [at_block a; target])
    as (b & p & s' & -> & Hdec & Hok).
  destruct b; eexists; (split; [done|]).
  - split; [split; [eauto|intros _; by apply Hdec]|]. split; [|discriminate].
    intros path [= <-]. destruct Hok as (rest & -> & Hc & Ho). exists rest.
    split; [done|]. split; [done|]. by eapply (wi_inj _ Hr).
  - split; [split; [intros He; by apply Hdec in He|by intros [? ?]]|].
    split; [discriminate|]. by intros w' [= <-].
Qed.

Lemma wait_for_decides_cycle_witness :
  exists r, wait_for (i_waits two_inits) (mkAttempt 1 "acme/b") "acme/a" = Some r
    /\ ((exists o, owners (graph (i_waits two_inits)) !! "acme/a" = Some o
           /\ rtc (edge (graph (i_waits two_inits))) o 1) <-> exists path, r = Err path).
Proof.
  destruct (wait_for_decides_cycle two_inits (mkAttempt 1 "acme/b") "acme/a" two_inits_reachable)
    as (r & H1 & H2 & _); [vm_compute; reflexivity|].
  exists r. split; [exact H1|exact H2].
Defined.
