(* ===== verification/Dispatch.v ===== *)
(** Dispatch of one block call: the admission gates
    ([wafer-run/src/runtime/call_gates.rs], [runtime/validation.rs]), the
    runtime's own frame and the contexts it derives
    ([wafer-run/src/context.rs]), the init gate of the dispatch scaffold
    ([run_resolved] in [runtime/runner.rs]) and the errors it answers
    ([wafer-run/src/runtime.rs]).

    The trait [CallFrame] is a type class; the runtime's frame is an instance.
    What calls mutate through shared handles - the cancellation flag, the set
    of blocks already warned about - is the state [Shared]. *)

From stdpp Require Import pretty.
From S2P Require Import Prelude CoreTypes Grants Wrap BlockName Registration GrantFacts RegistrationFacts.
From S2P Require Import WrapProps RegistryProps Capabilities Slot InitWaits.

#[local] Open Scope N_scope.

(** ** Admission *)

Definition DEFAULT_MAX_CALL_DEPTH : N := 16.

Record Shared := mkShared { cancelled : bool; warned : gset string }.

Record CalleeFacts := mkFacts { cf_interface : string; cf_requires : option (list string) }.

(** An interface spec: its action names. *)
Record InterfaceSpec := mkSpec { is_actions : gset string }.

Class CallFrame (F B : Type) := {
  call_depth : F -> N;
  max_call_depth : F -> N;
  frame_deadline : F -> option N;
  frame_canonicalize : F -> string -> string;
  caller_requires : F -> option (list string);
  caller_capabilities : F -> option BlockCapabilities;
  lookup_block : F -> string -> option B;
  callee_facts : F -> string -> B -> CalleeFacts;
  interface_specs : F -> gmap string InterfaceSpec;
  unknown_interface : F -> string -> string -> Shared -> Shared
}.

Inductive ActionCheck := ActionValid | ActionInvalid (message : string) | UnknownInterface.

(** [check_action_interface]. *)
Definition check_action_interface (block_name interface_name action : string)
    (specs : gmap string InterfaceSpec) : ActionCheck :=
  match specs !! interface_name with
  | None => UnknownInterface
  | Some spec =>
      if bool_decide (is_actions spec = ∅) then ActionValid
      else if bool_decide (action ∈ is_actions spec) then ActionValid
      else ActionInvalid ("block '" +:+ block_name +:+ "' with interface '" +:+ interface_name
                          +:+ "' does not expose action '" +:+ action +:+ "'")
  end.

(** [warn_once_unknown_interface]: the state it leaves (the log line is not
    modelled). *)
Definition warn_once_unknown_interface (sh : Shared) (block_name : string) : Shared :=
  mkShared (cancelled sh) ({[block_name]} ∪ warned sh).

Record AdmittedCall (B : Type) := mkAdmitted {
  ac_resolved : string;
  ac_block : B;
  ac_requires : option (list string)
}.
Arguments mkAdmitted {_}.
Arguments ac_resolved {_}.
Arguments ac_block {_}.
Arguments ac_requires {_}.

Section Admit.
Context {F B : Type} `{CallFrame F B}.

(** The action a message asks for. *)
Definition call_action (msg : Message) : string :=
  let a := action msg in if is_empty a then msg_kind msg else a.

(** [admit_call] at the instant [now]. *)
Definition admit_call (frame : F) (now : N) (sh : Shared) (name : string) (msg : Message)
  : Shared * result (AdmittedCall B) WaferError :=
  let max := max_call_depth frame in
  if max <=? call_depth frame then
    (sh, Err (error_new ErrorCode.ResourceExhausted
           ("call_block depth exceeded maximum of " +:+ pretty max +:+ " (calling '" +:+ name +:+ "')")))
  else if match frame_deadline frame with Some d => d <=? now | None => false end then
    (mkShared true (warned sh),
     Err (error_new ErrorCode.DeadlineExceeded ("deadline exceeded before calling '" +:+ name +:+ "'")))
  else if cancelled sh then
    (sh, Err (error_new ErrorCode.Cancelled "execution cancelled"))
  else
    let resolved := frame_canonicalize frame name in
    if match caller_requires frame with
       | Some requires => negb (existsb (fun r => (r =s name) || (r =s resolved)) requires)
       | None => false
       end then
      (sh, Err (error_new ErrorCode.PermissionDenied
             ("block '" +:+ name +:+ "' not in requires list — call_block denied")))
    else if match caller_capabilities frame with
            | Some caps => negb (allows_call_block caps resolved)
            | None => false
            end then
      (sh, Err (error_new ErrorCode.PermissionDenied
             ("block capability denies call to '" +:+ name +:+ "'")))
    else match lookup_block frame resolved with
    | None => (sh, Err (error_new ErrorCode.Unimplemented
                     ("block '" +:+ name +:+ "' is not registered")))
    | Some block =>
        let facts := callee_facts frame resolved block in
        match check_action_interface resolved (cf_interface facts) (call_action msg)
                (interface_specs frame) with
        | ActionInvalid message => (sh, Err (error_new ErrorCode.Unimplemented message))
        | ActionValid => (sh, Ok (mkAdmitted resolved block (cf_requires facts)))
        | UnknownInterface =>
            (unknown_interface frame resolved (cf_interface facts) sh,
             Ok (mkAdmitted resolved block (cf_requires facts)))
        end
    end.
End Admit.

(** ** The runtime's context *)

Inductive InitWait := Await | Refuse.

Section Context_.
(** A block handle and the capabilities it reports. *)
Context {B : Type} (block_capabilities : B -> option BlockCapabilities)
  (block_info : B -> BlockInfo) {A : Type}.

(** The fields of [RuntimeContext] that dispatch reads; [A] is an attachment.
    The cancellation flag lives in [Shared], a fresh one for an Init context. *)
Record RuntimeContext := mkCtx {
  rc_flow_id : string;
  rc_node_id : string;
  rc_config : gmap string string;
  rc_config_snapshot : gmap string string;
  rc_deadline : option N;
  rc_all_blocks : gmap string (@RegisteredBlock B);
  rc_call_depth : N;
  rc_max_call_depth : N;
  rc_aliases : gmap string string;
  rc_caller_requires : option (list string);
  rc_caller_id : option string;
  rc_wrap_grants : list ResourceGrant;
  rc_wrap_admin_block : string;
  rc_attachments : gmap string A;
  rc_init_attempt : option InitAttempt;
  rc_init_wait : InitWait;
  rc_slots : gmap string SlotState;
  rc_interface_specs : gmap string InterfaceSpec
}.

(** [impl CallFrame for RuntimeContext]. *)
#[global] Instance runtime_frame : CallFrame RuntimeContext B := {
  call_depth := rc_call_depth;
  max_call_depth := rc_max_call_depth;
  frame_deadline := rc_deadline;
  frame_canonicalize ctx name := default name (rc_aliases ctx !! name);
  caller_requires := rc_caller_requires;
  caller_capabilities ctx := rc_all_blocks ctx !! rc_node_id ctx ≫= fun rb => block_capabilities (rb_block rb);
  lookup_block ctx name := rb_block <$> rc_all_blocks ctx !! name;
  callee_facts ctx resolved block :=
    match rc_all_blocks ctx !! resolved with
    | Some rb => mkFacts (bi_interface (rb_info rb)) (rb_call_allowlist rb)
    | None => mkFacts (bi_interface (block_info block)) (call_allowlist (block_info block))
    end;
  interface_specs := rc_interface_specs;
  unknown_interface _ resolved _ sh := warn_once_unknown_interface sh resolved
}.

(** [RuntimeContext::for_init]. *)
Definition for_init (self : RuntimeContext) (block_name : string)
    (registered : @RegisteredBlock B) (attempt : InitAttempt) : RuntimeContext :=
  mkCtx "" block_name ∅ (rc_config_snapshot self) None (rc_all_blocks self)
    0 (rc_max_call_depth self) (rc_aliases self) (rb_call_allowlist registered) None
    (rc_wrap_grants self) (rc_wrap_admin_block self) ∅ (Some attempt) (rc_init_wait self)
    (rc_slots self) (rc_interface_specs self).

(** The sub-context [dispatch_call] builds; depths are [u32]. *)
Definition sub_context (self : RuntimeContext) (admitted : AdmittedCall B)
    (is_wasmi_callee : bool) (attachments : option (gmap string A)) : RuntimeContext :=
  mkCtx (rc_flow_id self) (ac_resolved admitted) (rc_config self) (rc_config_snapshot self)
    (rc_deadline self) (rc_all_blocks self)
    ((rc_call_depth self + 1) mod 2 ^ 32) (rc_max_call_depth self) (rc_aliases self)
    (ac_requires admitted) (Some (rc_node_id self)) (rc_wrap_grants self)
    (rc_wrap_admin_block self)
    (if is_wasmi_callee then ∅ else default ∅ attachments)
    (rc_init_attempt self) (rc_init_wait self) (rc_slots self) (rc_interface_specs self).

(** [RuntimeContext::is_cancelled]. *)
Definition is_cancelled (self : RuntimeContext) (now : N) (sh : Shared) : Shared * bool :=
  if cancelled sh then (sh, true)
  else match rc_deadline self with
       | Some d => if d <=? now then (mkShared true (warned sh), true) else (sh, false)
       | None => (sh, false)
       end.

(** [Context::config_get]. *)
Definition config_get (self : RuntimeContext) (key : string) : option string :=
  match rc_config self !! key with Some v => Some v | None => rc_config_snapshot self !! key end.

(** [Context::check_resource_access]: the caller, not the block itself. *)
Definition check_resource_access `{UnicodeLower} `{UrlCrate} (self : RuntimeContext)
    (resource : string) (rt : ResourceType.t) (access : ResourceAccess.t)
  : result unit authorize_denial :=
  authorize_resource (rc_caller_id self)
    (fun c => rc_all_blocks self !! c ≫= fun rb => block_capabilities (rb_block rb))
    (rc_wrap_grants self) (rc_wrap_admin_block self) resource rt access.
End Context_.

Arguments RuntimeContext : clear implicits.

(** ** The init gate *)

Definition DATABASE_UNAVAILABLE : string := "database.unavailable".

(** [WaferError::with_optional_detail_code]. *)
Definition with_optional_detail_code (e : WaferError) (code : option string) : WaferError :=
  match code with Some c => with_detail_code e c | None => e end.

(** [refusal_detail]. *)
Definition refusal_detail (detail : option string) : option string :=
  if bool_decide (detail = Some DATABASE_UNAVAILABLE) then Some DATABASE_UNAVAILABLE else None.

Definition unavailable_message (block reference : string) : string :=
  "block `" +:+ block +:+ "` is temporarily unavailable (ref: " +:+ reference +:+ ")".
Definition failed_message (block reference : string) : string :=
  "block `" +:+ block +:+ "` failed to initialize (ref: " +:+ reference +:+ ")".

(** [retry_after_meta]. *)
Definition retry_after_secs (retry_in : N) : N :=
  N.max ((retry_in + 999999999) / 1000000000) 1.
Definition retry_after_meta (retry_in : N) : MetaEntry :=
  mkMeta (META_RESP_HEADER_PREFIX +:+ "Retry-After") (pretty (retry_after_secs retry_in)).

(** [init_error_to_wafer_error]; [reference] is a fresh correlation id. *)
Definition init_error_to_wafer_error (reference block : string) (e : InitError)
    (retry_in : option N) : WaferError :=
  match e with
  | Permanent _ | Cycle _ => error_new ErrorCode.FailedPrecondition (failed_message block reference)
  | Transient f =>
      let err := with_optional_detail_code
                   (error_new ErrorCode.Unavailable (unavailable_message block reference))
                   (refusal_detail (tf_detail_code f)) in
      mkError (we_code err) (we_message err)
        (we_meta err ++ match retry_in with Some d => [retry_after_meta d] | None => [] end)
  end.

(** [not_initialized_error]. *)
Definition not_initialized_error (reference block : string) (state : BlockInitState) : WaferError :=
  let detail := match state with Retrying f _ => tf_detail_code f | _ => None end in
  with_optional_detail_code
    (error_new ErrorCode.Unavailable (unavailable_message block reference))
    (refusal_detail detail).

(** [init_failure]: the dispatch error for an init failure of the slot. *)
Definition init_failure (reference resolved : string) (st : SlotState) (now : N)
    (mode : InitWait) (e : InitError) : WaferError :=
  let retry_in := match e, mode with
                  | Transient _, Await => pending_retry_in st now
                  | _, _ => None
                  end in
  init_error_to_wafer_error reference resolved e retry_in.

(** What [run_resolved] does before invoking the callee. *)
Inductive gate_decision := GateInvoke | GateRefuse (e : WaferError) | GateRunInit.

(** The match of [run_resolved] on [try_cached]; [inside] is
    [inside_running_init]. *)
Definition init_gate (reference resolved : string) (st : SlotState) (now : N)
    (mode : InitWait) (inside : bool) : gate_decision :=
  match settled st now with
  | Some (Ok _) => GateInvoke
  | Some (Err e) => GateRefuse (init_failure reference resolved st now mode e)
  | None =>
      match mode, inside with
      | Refuse, false => GateRefuse (not_initialized_error reference resolved (init_state st now))
      | _, _ => GateRunInit
      end
  end.

(** [run_resolved]: [pipeline] is the outcome of [run_init_pipeline] with the
    slot and the instant it leaves; [invoke] runs the callee. *)
Definition run_resolved {T} (reference resolved : string) (st : SlotState) (now : N)
    (mode : InitWait) (inside : bool)
    (pipeline : SlotState * N * init_result) (invoke : T) : result T WaferError :=
  match init_gate reference resolved st now mode inside with
  | GateInvoke => Ok invoke
  | GateRefuse e => Err e
  | GateRunInit =>
      match pipeline with
      | (_, _, Ok _) => Ok invoke
      | (st', now', Err e) => Err (init_failure reference resolved st' now' mode e)
      end
  end.

(** ** A block call *)

(** How [dispatch_call] ends; [DispatchPanic] is a failed [expect]. *)
Inductive dispatch_outcome (C : Type) :=
| DispatchError (e : WaferError)
| DispatchPanic
| Dispatched (ctx : C).
Arguments DispatchError {_}.
Arguments DispatchPanic {_}.
Arguments Dispatched {_}.

Section Call.
Context {B : Type} (block_capabilities : B -> option BlockCapabilities)
  (block_info : B -> BlockInfo) {A : Type}.

(** [RuntimeContext::dispatch_call] up to the callee's [handle], which runs on
    the context of [Dispatched]. *)
Definition dispatch_call (self : RuntimeContext B A) (now : N) (sh : Shared)
    (block_name : string) (msg : Message) (is_wasmi : B -> bool)
    (attachments : option (gmap string A)) (reference : string) (inside : bool)
    (pipeline : SlotState * N * init_result) : Shared * dispatch_outcome (RuntimeContext B A) :=
  match @admit_call _ _ (runtime_frame block_capabilities block_info) self now sh block_name msg with
  | (sh, Err refusal) => (sh, DispatchError refusal)
  | (sh, Ok admitted) =>
      let sub := sub_context self admitted (is_wasmi (ac_block admitted)) attachments in
      match rc_all_blocks self !! ac_resolved admitted, rc_slots self !! ac_resolved admitted with
      | Some _, Some slot =>
          match run_resolved reference (ac_resolved admitted) slot now (rc_init_wait self) inside
                  pipeline sub with
          | Ok ctx => (sh, Dispatched ctx)
          | Err e => (sh, DispatchError e)
          end
      | _, _ => (sh, DispatchPanic)
      end
  end.
End Call.

(** ** The init budget *)

Record InitBudget := mkBudget { limit : N; capped : bool }.

(** [InitBudget::of]; the declaration is in milliseconds. *)
Definition init_budget_of (info : BlockInfo) (cap : option N) : option InitBudget :=
  match option_map (fun ms => ms * 1000000) (bi_init_timeout_ms info), cap with
  | Some declared, Some c => if c <? declared then Some (mkBudget c true)
                             else Some (mkBudget declared false)
  | Some declared, None => Some (mkBudget declared false)
  | None, Some c => Some (mkBudget c true)
  | None, None => None
  end.

(** * The properties of block dispatch: the admission gates in order, the bound
    on nesting, the identity a callee runs under, and what a refused init
    tells the caller. *)

#[local] Open Scope N_scope.

(** ** The gates *)

Section Gates.
Context {F B : Type} `{CallFrame F B}.
Variables (frame : F) (now : N) (sh : Shared) (name : string) (msg : Message).

Definition action_ok (resolved : string) (block : B) : bool :=
  match check_action_interface resolved (cf_interface (callee_facts frame resolved block))
          (call_action msg) (interface_specs frame) with
  | ActionInvalid _ => false
  | _ => true
  end.

(** The seven gates with the code each refuses with. *)
Definition gates : list (bool * ErrorCode.t) :=
  let resolved := frame_canonicalize frame name in
  [(call_depth frame <? max_call_depth frame, ErrorCode.ResourceExhausted);
   (match frame_deadline frame with Some d => now <? d | None => true end,
    ErrorCode.DeadlineExceeded);
   (negb (cancelled sh), ErrorCode.Cancelled);
   (match caller_requires frame with
    | Some l => existsb (fun r => (r =s name) || (r =s resolved)) l
    | None => true
    end, ErrorCode.PermissionDenied);
   (match caller_capabilities frame with
    | Some caps => allows_call_block caps resolved
    | None => true
    end, ErrorCode.PermissionDenied);
   (match lookup_block frame resolved with Some _ => true | None => false end,
    ErrorCode.Unimplemented);
   (match lookup_block frame resolved with Some b => action_ok resolved b | None => true end,
    ErrorCode.Unimplemented)].

Fixpoint first_closed (l : list (bool * ErrorCode.t)) : option ErrorCode.t :=
  match l with
  | [] => None
  | (open, code) :: l' => if open then first_closed l' else Some code
  end.

Lemma admit_call_gates :
  match first_closed gates with
  | Some code => exists e, snd (admit_call frame now sh name msg) = Err e /\ we_code e = code
  | None => exists b, lookup_block frame (frame_canonicalize frame name) = Some b
      /\ snd (admit_call frame now sh name msg)
         = Ok (mkAdmitted (frame_canonicalize frame name) b
                 (cf_requires (callee_facts frame (frame_canonicalize frame name) b)))
  end.
Proof.
  unfold admit_call, gates, action_ok. cbn [first_closed]. rewrite (N.leb_antisym (call_depth frame)).
  destruct (call_depth frame <? max_call_depth frame); simpl; [|eauto].
  assert (Hd : match frame_deadline frame with Some d => d <=? now | None => false end
    = negb match frame_deadline frame with Some d => now <? d | None => true end).
  { destruct (frame_deadline frame); [apply N.leb_antisym|done]. }
  rewrite Hd. destruct (match frame_deadline frame with Some d => now <? d | None => true end);
    simpl; [|eauto].
  destruct (cancelled sh); simpl; [eauto|].
  destruct (caller_requires frame) as [l|]; [destruct (existsb _ l); simpl; [|eauto]|];
    (destruct (caller_capabilities frame) as [caps|];
       [destruct (allows_call_block caps _); simpl; [|eauto]|]);
    (destruct (lookup_block frame _) as [b|]; [|eauto]);
    destruct (check_action_interface _ _ _ _); simpl; eauto.
Qed.

(** A refusal changes the shared state only for a passed deadline, which sets
    the cancellation flag. *)
Lemma admit_call_refused_state e :
  snd (admit_call frame now sh name msg) = Err e ->
  fst (admit_call frame now sh name msg)
  = if bool_decide (we_code e = ErrorCode.DeadlineExceeded) then mkShared true (warned sh) else sh.
Proof.
  unfold admit_call. repeat case_match; simpl; intros [= <-]; done.
Qed.
End Gates.

(** ** Contexts of a registry *)

Section Contexts.
Context {B : Type} (block_capabilities : B -> option BlockCapabilities)
  (block_info : B -> BlockInfo) {A : Type} `{UnicodeLower}.
Abbreviation ctx := (RuntimeContext B A).
Abbreviation rt_frame := (runtime_frame (A := A) block_capabilities block_info).
Abbreviation rt_admits := (@admit_call _ _ rt_frame).

(** A context built from the sealed registry [st]. *)
Record ctx_of (st : @RegistrationCore B SlotState) (c : ctx) : Prop := {
  co_blocks : rc_all_blocks c = all_blocks st;
  co_aliases : rc_aliases c = aliases st;
  co_slots : dom (rc_slots c) = dom (slots st);
  co_depth : rc_max_call_depth c < 2 ^ 32
}.

(** One admitted call: the callee's context. *)
Inductive calls : ctx -> ctx -> Prop :=
| calls_intro c now sh name msg admitted wasmi att :
    snd (rt_admits c now sh name msg) = Ok admitted ->
    calls c (sub_context c admitted wasmi att).

Lemma admitted_shape c now sh name msg admitted :
  snd (rt_admits c now sh name msg) = Ok admitted ->
  rc_call_depth c < rc_max_call_depth c
  /\ ac_resolved admitted = default name (rc_aliases c !! name)
  /\ exists rb, rc_all_blocks c !! ac_resolved admitted = Some rb
       /\ ac_block admitted = rb_block rb /\ ac_requires admitted = rb_call_allowlist rb.
Proof.
  intros Ha. pose proof (@admit_call_gates _ _ rt_frame c now sh name msg) as Hg.
  destruct (first_closed _) as [code|] eqn:E.
  { destruct Hg as (e & Hg & _). congruence. }
  destruct Hg as (b & Hl & Hg). rewrite Hg in Ha. injection Ha as <-. simpl in *.
  split.
  - destruct (rc_call_depth c <? rc_max_call_depth c) eqn:Ed; [by apply N.ltb_lt|].
    discriminate.
  - split; [done|]. apply fmap_Some in Hl as (rb & Hrb & ->). exists rb. by rewrite Hrb.
Qed.

Lemma ctx_of_call st c c' : ctx_of st c -> calls c c' -> ctx_of st c'.
Proof. intros [Hb Ha Hs Hd] Hc. destruct Hc. by split. Qed.

Lemma call_depth_step st c c' :
  ctx_of st c -> calls c c' ->
  rc_call_depth c' = rc_call_depth c + 1 /\ rc_call_depth c' <= rc_max_call_depth c'
  /\ rc_max_call_depth c' = rc_max_call_depth c.
Proof.
  intros [_ _ _ Hd] Hc. destruct Hc as [c now sh name msg admitted wasmi att Ha].
  apply admitted_shape in Ha as (Hlt & _). simpl. rewrite N.mod_small by lia. lia.
Qed.
End Contexts.

(** ** Concrete data for the witnesses *)

Definition plain_caps (_ : unit) : option BlockCapabilities := None.
Definition plain_info (_ : unit) : BlockInfo := events_info.

Definition app_block : @RegisteredBlock unit := registered_new tt events_info.

(** A runtime with the block [acme/app] under the alias [app]. *)
Definition app_core : @RegistrationCore unit SlotState :=
  mkCore {["acme/app" := app_block]} (<["app" := app_block]> {["acme/app" := app_block]})
    {["app" := "acme/app"]} {["acme/app" := slot_new]}
    (mkWrap [grant_append "other/stats" "acme__app__events*"] [] "my-org/admin" []) true.

Definition app_ctx (depth : N) : RuntimeContext unit unit :=
  mkCtx "" "other/stats" ∅ ∅ None (all_blocks app_core) depth DEFAULT_MAX_CALL_DEPTH
    (aliases app_core) None None [] "my-org/admin" ∅ None Await
    {["acme/app" := mkSlot (Some CachedOk) None false]} ∅.

Definition ping : Message := mkMessage "ping" [].

Lemma app_core_reachable : reachable slot_new app_core.
Proof.
  unfold reachable.
  destruct (register_block_inner slot_new core_new "acme/app" tt events_info) as [s1|] eqn:E1;
    [|vm_compute in E1; discriminate].
  destruct (add_alias s1 "app" "acme/app") as [s2|] eqn:E2;
    [|vm_compute in E1; injection E1 as <-; vm_compute in E2; discriminate].
  eapply rtc_l; [by eapply step_register|]. eapply rtc_l; [by eapply step_add_alias|].
  eapply rtc_l; [apply (step_set_admin _ _ _ "my-org/admin")|]. eapply rtc_l; [apply step_seal_ok|].
  { vm_compute in E1. injection E1 as <-. vm_compute in E2. injection E2 as <-. reflexivity. }
  vm_compute in E1. injection E1 as <-. vm_compute in E2. injection E2 as <-.
  vm_compute. reflexivity.
Qed.

Lemma app_ctx_of depth : ctx_of app_core (app_ctx depth).
Proof. by split; vm_compute. Qed.

(** ** The properties *)

(** a block call passes the seven admission gates in order: the result is
    the admitted call exactly when all are open, and otherwise the code of the
    first closed one (depth, deadline, cancellation, the caller's requires
    list, its call capability, registration, the interface's actions). A
    refusal touches the shared state only for a passed deadline, which sets the
    cancellation flag. *)
Theorem admit_call_in_order {F B} `{CallFrame F B} (frame : F) (now : N) (sh : Shared)
    (name : string) (msg : Message) :
  let res := admit_call frame now sh name msg in
  match first_closed (gates frame now sh name msg) with
  | Some code => exists e, snd res = Err e /\ we_code e = code
      /\ fst res = if bool_decide (code = ErrorCode.DeadlineExceeded)
                   then mkShared true (warned sh) else sh
  | None => exists b, lookup_block frame (frame_canonicalize frame name) = Some b
      /\ snd res = Ok (mkAdmitted (frame_canonicalize frame name) b
                 (cf_requires (callee_facts frame (frame_canonicalize frame name) b)))
  end.
Proof.
  intros res. pose proof (admit_call_gates frame now sh name msg) as Hg.
  destruct (first_closed _) as [code|]; [|exact Hg].
  destruct Hg as (e & He & Hc). exists e. split; [done|]. split; [done|].
  rewrite <- Hc. by apply admit_call_refused_state.
Qed.

(** nesting is bounded. A call admitted from a frame gives the callee a
    frame exactly one deeper, never beyond the maximum and without wrapping,
    and no chain of nested calls from a top-level frame is longer than the
    maximum depth. *)
Theorem nested_calls_bounded {B A} (caps : B -> option BlockCapabilities) (info : B -> BlockInfo)
    (st : @RegistrationCore B SlotState) (c c' : RuntimeContext B A) (n : nat) :
  ctx_of st c -> rc_call_depth c = 0 -> nsteps (calls caps info) n c c' ->
  rc_call_depth c' = N.of_nat n /\ N.of_nat n <= rc_max_call_depth c.
Proof.
  intros Hc H0 Hn.
  assert (Hgen : forall m (x y : RuntimeContext B A), nsteps (calls caps info) m x y -> ctx_of st x ->
    rc_call_depth y = rc_call_depth x + N.of_nat m /\ rc_max_call_depth y = rc_max_call_depth x
    /\ (m = 0%nat \/ rc_call_depth y <= rc_max_call_depth y)).
  { clear. intros m x y Hm. induction Hm as [x|m x y z Hxy Hyz IH]; intros Hx; [split; [lia|auto]|].
    destruct (call_depth_step _ _ st x y Hx Hxy) as (Hd & Hle & Hmx).
    destruct (IH (ctx_of_call _ _ _ _ _ Hx Hxy)) as (Hd' & Hmx' & Hor).
    split; [lia|]. split; [congruence|]. right. destruct Hor as [->|]; [|done].
    inversion Hyz; subst. done. }
  destruct (Hgen n c c' Hn Hc) as (Hd & Hm & Hor). split; [lia|].
  destruct Hor as [->|]; lia.
Qed.

Definition app_callee : RuntimeContext unit unit :=
  sub_context (app_ctx 0) (mkAdmitted "acme/app" tt None) false None.

Lemma nested_calls_bounded_witness :
  rc_call_depth app_callee = N.of_nat 1 /\ N.of_nat 1 <= rc_max_call_depth (app_ctx 0).
Proof.
  apply (nested_calls_bounded plain_caps plain_info app_core (app_ctx 0) app_callee 1);
    [apply app_ctx_of|reflexivity|].
  eapply nsteps_l; [|constructor].
  apply (calls_intro plain_caps plain_info (app_ctx 0) 0 (mkShared false ∅) "app" ping).
  vm_compute. reflexivity.
Defined.

(** dispatch of a call never meets a missing registration or slot. On a
    context of a registry with checked aliases no [expect] of [dispatch_call] fails, and a
    dispatched callee runs under its canonical registered name - never the
    alias - with the calling block as its caller and its own requires list. *)
Theorem dispatch_call_safe {B A} (caps : B -> option BlockCapabilities) (info : B -> BlockInfo)
    `{UnicodeLower} (st : @RegistrationCore B SlotState) (c : RuntimeContext B A) (now : N)
    (sh : Shared) (name : string) (msg : Message) (is_wasmi : B -> bool)
    (att : option (gmap string A)) (reference : string) (inside : bool)
    (pipeline : SlotState * N * init_result) :
  reachable slot_new st -> ctx_of st c ->
  let out := snd (dispatch_call caps info c now sh name msg is_wasmi att reference inside pipeline) in
  out <> DispatchPanic
  /\ forall sub, out = Dispatched sub ->
     exists rb, blocks st !! rc_node_id sub = Some rb
       /\ rc_node_id sub = canonicalize st name
       /\ rc_caller_id sub = Some (rc_node_id c)
       /\ rc_caller_requires sub = call_allowlist (rb_info rb).
Proof.
  intros Hr Hc. pose proof (reg_inv_reachable _ _ Hr) as Hi. unfold dispatch_call.
  destruct (admit_call c now sh name msg) as [sh' res] eqn:E.
  destruct res as [admitted|e]; [|split; [done|discriminate]].
  assert (Ha : snd (@admit_call _ _ (runtime_frame caps info) c now sh name msg) = Ok admitted)
    by (by rewrite E).
  apply admitted_shape in Ha as (_ & Hres & rb & Hrb & Hblk & Hreq).
  assert (Hl : lookup_with_alias st name = Some (ac_resolved admitted, rb)).
  { unfold lookup_with_alias, canonicalize. rewrite <- (co_aliases _ _ Hc), <- Hres.
    rewrite <- (co_blocks _ _ Hc), Hrb. done. }
  apply lookup_with_alias_sound in Hl as (Hb & Hcan & _); [|done].
  assert (Hs : is_Some (rc_slots c !! ac_resolved admitted)).
  { apply elem_of_dom. rewrite (co_slots _ _ Hc), (base_slots _ (inv_base _ Hi)). apply elem_of_dom. eauto. }
  destruct Hs as [slot Hs]. rewrite Hrb, Hs. unfold run_resolved.
  assert (Hsub : forall ctx, ctx = sub_context c admitted (is_wasmi (ac_block admitted)) att ->
    exists rb0, blocks st !! rc_node_id ctx = Some rb0 /\ rc_node_id ctx = canonicalize st name
      /\ rc_caller_id ctx = Some (rc_node_id c)
      /\ rc_caller_requires ctx = call_allowlist (rb_info rb0)).
  { intros ctx ->. simpl. exists rb. split; [done|]. split.
    - unfold canonicalize. by rewrite Hres, (co_aliases _ _ Hc).
    - split; [done|]. rewrite Hreq. by destruct (base_names _ (inv_base _ Hi) _ _ Hb) as (_ & _ & _ & ->). }
  destruct (init_gate _ _ _ _ _ _); [| |destruct pipeline as [[st' now'] [[]|e]]]; simpl;
    (split; [done|]); intros sub [= <-]; by apply Hsub.
Qed.

Lemma dispatch_call_safe_witness :
  snd (dispatch_call plain_caps plain_info (app_ctx 0) 0 (mkShared false ∅) "app" ping
         (fun _ => false) None "ref" false (slot_new, 0, Ok tt)) <> DispatchPanic.
Proof.
  apply (dispatch_call_safe plain_caps plain_info app_core (app_ctx 0) 0 (mkShared false ∅)
    "app" ping (fun _ => false) None "ref" false (slot_new, 0, Ok tt));
    [apply app_core_reachable|apply app_ctx_of].
Defined.

(** a refused init never tells the caller its cause. The error depends on
    the block, the reference and, for a transient failure, only on whether the
    database was unavailable and on the retry delay; permanent failures and
    cycles are [FailedPrecondition] with no metadata at all. *)
Theorem init_errors_sanitized (reference block : string) (retry_in : option N) :
  (forall e, match e with Transient _ => False | _ => True end ->
     init_error_to_wafer_error reference block e retry_in
     = mkError ErrorCode.FailedPrecondition (failed_message block reference) [])
  /\ (forall f, let err := init_error_to_wafer_error reference block (Transient f) retry_in in
        we_code err = ErrorCode.Unavailable
        /\ we_message err = unavailable_message block reference
        /\ we_meta err = (if bool_decide (tf_detail_code f = Some DATABASE_UNAVAILABLE)
                          then [mkMeta META_ERROR_CODE DATABASE_UNAVAILABLE] else [])
                         ++ match retry_in with Some d => [retry_after_meta d] | None => [] end)
  /\ (forall s, we_code (not_initialized_error reference block s) = ErrorCode.Unavailable
        /\ we_message (not_initialized_error reference block s) = unavailable_message block reference
        /\ (we_meta (not_initialized_error reference block s) = []
            \/ we_meta (not_initialized_error reference block s)
               = [mkMeta META_ERROR_CODE DATABASE_UNAVAILABLE])).
Proof.
  split; [by intros []|]. split.
  - intros f. simpl. unfold refusal_detail. case_bool_decide; done.
  - intros s. unfold not_initialized_error, refusal_detail. case_bool_decide; simpl; auto.
Qed.

Lemma init_errors_sanitized_witness :
  init_error_to_wafer_error "r1" "acme/app" (Permanent "table users: permission denied") None
  = mkError ErrorCode.FailedPrecondition (failed_message "acme/app" "r1") [].
Proof. apply (proj1 (init_errors_sanitized "r1" "acme/app" None)). exact I. Defined.

(** the init gate. A dispatch under [Refuse] from outside every running
    Init never runs init; a settled success is invoked at once; a settled
    failure is refused without running init; and the [Retry-After] a transient
    failure names is at least one second and covers the pending backoff. *)
Theorem init_gate_behaviour (reference resolved : string) (st : SlotState) (now : N)
    (mode : InitWait) (inside : bool) :
  (mode = Refuse -> inside = false -> init_gate reference resolved st now mode inside <> GateRunInit)
  /\ (init_gate reference resolved st now mode inside = GateInvoke <-> outcome st = Some CachedOk)
  /\ (init_gate reference resolved st now mode inside = GateRunInit -> settled st now = None)
  /\ (forall d, pending_retry_in st now = Some d -> mode = Await ->
        exists e f, init_gate reference resolved st now mode inside = GateRefuse e
          /\ In (retry_after_meta d) (we_meta e) /\ init_state st now = Retrying f d
          /\ 1 <= retry_after_secs d /\ d <= retry_after_secs d * 1000000000).
Proof.
  split; [intros -> ->; unfold init_gate; repeat case_match; done|]. split.
  { unfold init_gate, settled. destruct (outcome st) as [[|]|]; simpl; [done|split; discriminate|].
    split; [|discriminate]. repeat case_match; try discriminate; simplify_eq.
    unfold option_map in *. by repeat case_match. }
  split; [unfold init_gate; repeat case_match; try discriminate; done|].
  intros d Hd ->. unfold init_gate, settled, init_failure, pending. rewrite Hd.
  unfold pending_retry_in in Hd. unfold init_state.
  destruct (outcome st); [discriminate|]. destruct (backoff st) as [b|]; [|discriminate].
  destruct (now <? retry_at b); [|discriminate]. injection Hd as <-. simpl.
  eexists _, _. split; [done|]. split; [simpl; apply in_or_app; right; by left|].
  split; [done|]. unfold retry_after_secs.
  pose proof (N.div_mod (retry_at b - now + 999999999) 1000000000 ltac:(lia)).
  pose proof (N.mod_lt (retry_at b - now + 999999999) 1000000000 ltac:(lia)). lia.
Qed.

Lemma init_gate_behaviour_witness :
  init_gate "r" "acme/app" slot_new 0 Refuse false <> GateRunInit.
Proof. apply (proj1 (init_gate_behaviour "r" "acme/app" slot_new 0 Refuse false)); reflexivity. Defined.
