(* ===== verification/Text.v ===== *)
(** Text handling shared by the parsers: quote characters, reversal and
    [str::trim] on UTF-8 bytes, with what trimming does. *)

From Stdlib Require Import SpecFloat.
From stdpp Require Import pretty.
From S2P Require Import Prelude.

(** ** Characters and trimming *)

(** The bytes 34, 39 and 92. *)
Definition DQUOTE : ascii := Ascii false true false false false true false false.
Definition SQUOTE : ascii := "'"%char.
Definition BACKSLASH : ascii := "\"%char.

Example quote_bytes : map byte_of [DQUOTE; SQUOTE; BACKSLASH] = [34; 39; 92]%N.
Proof. reflexivity. Qed.

Fixpoint rev_onto (s acc : string) : string :=
  match s with EmptyString => acc | String c s' => rev_onto s' (String c acc) end.
Definition str_rev (s : string) : string := rev_onto s "".

(** [White_Space] characters, by their UTF-8 bytes. *)
Definition ws1 (a : ascii) : bool := (9 <=? byte_of a)%N && (byte_of a <=? 13)%N || (byte_of a =? 32)%N.
Definition ws2 (a b : ascii) : bool :=
  (byte_of a =? 194)%N && ((byte_of b =? 133)%N || (byte_of b =? 160)%N).
Definition ws3 (a b c : ascii) : bool :=
  let x := byte_of b in let y := byte_of c in
  ((byte_of a =? 225)%N && (x =? 154)%N && (y =? 128)%N)
  || ((byte_of a =? 226)%N && (x =? 128)%N
      && (((128 <=? y)%N && (y <=? 138)%N) || (y =? 168)%N || (y =? 169)%N || (y =? 175)%N))
  || ((byte_of a =? 226)%N && (x =? 129)%N && (y =? 159)%N)
  || ((byte_of a =? 227)%N && (x =? 128)%N && (y =? 128)%N).

Fixpoint trim_start (s : string) : string :=
  match s with
  | EmptyString => s
  | String a s1 =>
      if ws1 a then trim_start s1
      else match s1 with
           | EmptyString => s
           | String b s2 =>
               if ws2 a b then trim_start s2
               else match s2 with
                    | EmptyString => s
                    | String c s3 => if ws3 a b c then trim_start s3 else s
                    end
           end
  end.

(** The same on the reversed text. *)
Fixpoint trim_start_rev (s : string) : string :=
  match s with
  | EmptyString => s
  | String a s1 =>
      if ws1 a then trim_start_rev s1
      else match s1 with
           | EmptyString => s
           | String b s2 =>
               if ws2 b a then trim_start_rev s2
               else match s2 with
                    | EmptyString => s
                    | String c s3 => if ws3 c b a then trim_start_rev s3 else s
                    end
           end
  end.

(** [str::trim]. *)
Definition trim (s : string) : string := str_rev (trim_start_rev (str_rev (trim_start s))).

(** ** Reversal and trimming *)

Lemma rev_onto_app (s t acc : string) : rev_onto (s +:+ t) acc = rev_onto t (rev_onto s acc).
Proof. revert acc; induction s as [|c s IH]; intros acc; simpl; auto. Qed.

Lemma rev_onto_acc (s acc : string) : rev_onto s acc = rev_onto s "" +:+ acc.
Proof.
  revert acc; induction s as [|c s IH]; intros acc; simpl; [done|].
  rewrite IH, (IH (String c "")). by rewrite <- str_app_assoc.
Qed.

Lemma str_rev_app (s t : string) : str_rev (s +:+ t) = str_rev t +:+ str_rev s.
Proof. unfold str_rev. by rewrite rev_onto_app, rev_onto_acc. Qed.

Lemma str_rev_involutive (s : string) : str_rev (str_rev s) = s.
Proof.
  induction s as [|c s IH]; [done|]. change (String c s) with (String c "" +:+ s).
  by rewrite !str_rev_app, IH.
Qed.

Lemma rev_onto_length (s acc : string) :
  String.length (rev_onto s acc) = String.length s + String.length acc.
Proof. revert acc; induction s as [|c s IH]; intros acc; simpl; [done|]. rewrite IH. simpl. lia. Qed.

Lemma str_rev_length (s : string) : String.length (str_rev s) = String.length s.
Proof. unfold str_rev. rewrite rev_onto_length. simpl. lia. Qed.

(** Induction on strings by length. *)
Lemma string_len_ind (P : string -> Prop) :
  (forall s, (forall t, String.length t < String.length s -> P t) -> P s) -> forall s, P s.
Proof.
  intros Hs s. remember (String.length s) as n eqn:Hn. revert s Hn.
  induction (lt_wf n) as [n _ IH]. intros s ->. apply Hs. intros t Ht. by eapply IH.
Qed.

Lemma trim_start_length (s : string) : String.length (trim_start s) <= String.length s.
Proof.
  induction s as [s IH] using string_len_ind. destruct s as [|a s1]; simpl; [done|].
  destruct (ws1 a); [specialize (IH s1); simpl in IH; lia|].
  destruct s1 as [|b s2]; simpl; [done|].
  destruct (ws2 a b); [specialize (IH s2); simpl in IH; lia|].
  destruct s2 as [|c s3]; simpl; [done|].
  destruct (ws3 a b c); simpl; [specialize (IH s3); simpl in IH; lia|done].
Qed.

Lemma trim_start_rev_length (s : string) : String.length (trim_start_rev s) <= String.length s.
Proof.
  induction s as [s IH] using string_len_ind. destruct s as [|a s1]; simpl; [done|].
  destruct (ws1 a); [specialize (IH s1); simpl in IH; lia|].
  destruct s1 as [|b s2]; simpl; [done|].
  destruct (ws2 b a); [specialize (IH s2); simpl in IH; lia|].
  destruct s2 as [|c s3]; simpl; [done|].
  destruct (ws3 c b a); simpl; [specialize (IH s3); simpl in IH; lia|done].
Qed.

Lemma trim_length (s : string) : String.length (trim s) <= String.length s.
Proof.
  unfold trim. rewrite str_rev_length. etransitivity; [apply trim_start_rev_length|].
  rewrite str_rev_length. apply trim_start_length.
Qed.

(** An ASCII character other than white space. *)
Definition solid (c : ascii) : bool := (byte_of c <? 128)%N && negb (ws1 c).

Lemma eqb_big (c : ascii) (n : N) :
  (byte_of c < 128 -> 128 <= n -> (byte_of c =? n) = false)%N.
Proof. intros. apply N.eqb_neq. lia. Qed.

Lemma solid_start (c : ascii) (s : string) : solid c = true -> trim_start (String c s) = String c s.
Proof.
  unfold solid. intros [Hb Hw]%andb_true_iff. apply N.ltb_lt in Hb. apply negb_true_iff in Hw.
  simpl. rewrite Hw. destruct s as [|b s]; [done|].
  assert (H2 : ws2 c b = false) by (unfold ws2; by rewrite eqb_big by lia).
  rewrite H2. destruct s as [|d s]; [done|].
  assert (H3 : ws3 c b d = false).
  { unfold ws3. by rewrite !(eqb_big c) by lia. }
  by rewrite H3.
Qed.

Lemma solid_start_rev (c : ascii) (s : string) :
  solid c = true -> trim_start_rev (String c s) = String c s.
Proof.
  unfold solid. intros [Hb Hw]%andb_true_iff. apply N.ltb_lt in Hb. apply negb_true_iff in Hw.
  simpl. rewrite Hw. destruct s as [|b s]; [done|].
  assert (H2 : ws2 b c = false).
  { unfold ws2. rewrite !(eqb_big c) by lia. apply andb_false_r. }
  rewrite H2. destruct s as [|d s]; [done|].
  assert (H3 : ws3 d b c = false).
  { unfold ws3. rewrite !(eqb_big c) by lia.
    assert (Hl : (128 <=? byte_of c)%N = false) by (apply N.leb_gt; lia). rewrite Hl.
    by rewrite !andb_false_r. }
  by rewrite H3.
Qed.

#[local] Arguments trim_start : simpl never.
#[local] Arguments trim_start_rev : simpl never.

(** Text with a solid character at both ends. *)
Definition solid_ends (s : string) : Prop :=
  (exists a s', s = String a s' /\ solid a = true)
  /\ (exists b s', s = s' +:+ String b "" /\ solid b = true).

Lemma solid_ends_app (t u v : string) : solid_ends t -> solid_ends v -> solid_ends (t +:+ u +:+ v).
Proof.
  intros [(a & s & -> & Ha) _] [_ (b & s' & -> & Hb)]. split.
  - exists a. eexists. split; [simpl; reflexivity|done].
  - exists b. exists (String a s +:+ u +:+ s'). split; [|done]. by rewrite !str_app_assoc.
Qed.

Lemma trim_solid (s : string) : solid_ends s -> trim s = s.
Proof.
  intros [(a & s1 & E1 & Ha) (b & s2 & E2 & Hb)]. unfold trim.
  rewrite E1, solid_start by done. rewrite <- E1, E2, str_rev_app. simpl.
  rewrite solid_start_rev by done. change (String b (str_rev s2)) with (str_rev (String b "") +:+ str_rev s2).
  by rewrite <- str_rev_app, str_rev_involutive.
Qed.

Lemma trim_space_after (s : string) : solid_ends s -> trim (s +:+ " ") = s.
Proof.
  intros Hs. pose proof (trim_solid s Hs) as Ht. destruct Hs as [(a & s1 & -> & Ha) _].
  unfold trim in *. simpl (String a s1 +:+ " "). rewrite solid_start by done.
  rewrite solid_start in Ht by done.
  change (String a (s1 +:+ " ")) with (String a s1 +:+ " "). rewrite str_rev_app. simpl. exact Ht.
Qed.

Lemma trim_space_before (s : string) : trim (" " +:+ s) = trim s.
Proof. reflexivity. Qed.

(** * JSON values as [serde_json] represents them, and the parts of Rust's
    number handling the flow engine uses: [str::parse] to [i64] and [f64],
    conversions to [f64] and their comparison.

    A number is a [u64], a negative [i64] or a finite [f64] (binary64 in the
    Standard Library's [SpecFloat]). An object is the list of its entries,
    with distinct keys; equality ignores their order. *)

(** ** Values *)

Definition f64 : Type := spec_float.
Definition prec : Z := 53.
Definition emax : Z := 1024.

Inductive Number := PosInt (n : N) | NegInt (z : Z) | Float (f : f64).

Inductive Value :=
| VNull
| VBool (b : bool)
| VNumber (n : Number)
| VString (s : string)
| VArray (l : list Value)
| VObject (l : list (string * Value)).

(** Induction on values, through arrays and objects. *)
Fixpoint value_ind' (P : Value -> Prop)
    (Hn : P VNull) (Hb : forall b, P (VBool b)) (Hm : forall n, P (VNumber n))
    (Hs : forall s, P (VString s)) (Ha : forall l, Forall P l -> P (VArray l))
    (Ho : forall l, Forall (fun kv => P (snd kv)) l -> P (VObject l)) (v : Value) {struct v} : P v.
Proof.
  destruct v as [|b|n|s|l|l]; [apply Hn|apply Hb|apply Hm|apply Hs|apply Ha|apply Ho].
  - induction l as [|v l IH]; constructor; [by apply value_ind'|done].
  - induction l as [|[k v] l IH]; constructor; [by apply value_ind'|done].
Defined.

Definition number_eqb (a b : Number) : bool :=
  match a, b with
  | PosInt x, PosInt y => (x =? y)%N
  | NegInt x, NegInt y => (x =? y)%Z
  | Float x, Float y => SFeqb x y
  | _, _ => false
  end.

Fixpoint assoc {A} (k : string) (l : list (string * A)) : option A :=
  match l with
  | [] => None
  | (k', v) :: l' => if k' =s k then Some v else assoc k l'
  end.

(** [Map::insert], [HashMap::insert] and [IndexMap::insert]: a new key goes last. *)
Fixpoint entry_insert {A} (l : list (string * A)) (k : string) (v : A) : list (string * A) :=
  match l with
  | [] => [(k, v)]
  | (k', v') :: l => if k' =s k then (k', v) :: l else (k', v') :: entry_insert l k v
  end.

Lemma assoc_entry_insert {A} (l : list (string * A)) k v k' :
  assoc k' (entry_insert l k v) = if k =s k' then Some v else assoc k' l.
Proof.
  induction l as [|[k0 v0] l IH]; cbn; [done|]. destruct (k0 =s k) eqn:E; cbn.
  - apply String.eqb_eq in E as ->. by destruct (k =s k').
  - rewrite IH. destruct (k =s k') eqn:E'; [|done]. apply String.eqb_eq in E' as <-. by rewrite E.
Qed.

Lemma entry_insert_new {A} (l : list (string * A)) k v : k ∉ map fst l -> entry_insert l k v = l ++ [(k, v)].
Proof.
  induction l as [|[k' v'] l IH]; simpl; [done|]. intros Hk. rewrite (proj2 (String.eqb_neq k' k)) by set_solver.
  by rewrite IH by set_solver.
Qed.

(** [Value == Value]. *)
Fixpoint value_eqb (a b : Value) : bool :=
  match a, b with
  | VNull, VNull => true
  | VBool x, VBool y => Bool.eqb x y
  | VNumber x, VNumber y => number_eqb x y
  | VString x, VString y => x =s y
  | VArray x, VArray y =>
      (fix go (x y : list Value) : bool :=
         match x, y with
         | [], [] => true
         | v :: x', w :: y' => value_eqb v w && go x' y'
         | _, _ => false
         end) x y
  | VObject x, VObject y =>
      (length x =? length y)
      && (fix go (x : list (string * Value)) : bool :=
            match x with
            | [] => true
            | (k, v) :: x' => match assoc k y with
                              | Some w => value_eqb v w && go x'
                              | None => false
                              end
            end) x
  | _, _ => false
  end.

(** ** Numbers *)

(** The nearest [f64] (ties to even) of an integer. *)
Definition f64_of_Z (z : Z) : f64 := binary_normalize prec emax z 0 false.

(** [Number::as_f64]. *)
Definition number_as_f64 (n : Number) : f64 :=
  match n with
  | PosInt n => f64_of_Z (Z.of_N n)
  | NegInt z => f64_of_Z z
  | Float f => f
  end.

Definition is_finite (f : f64) : bool :=
  match f with S754_zero _ | S754_finite _ _ _ => true | _ => false end.

Definition digit_value (c : ascii) : option Z :=
  if is_ascii_digit c then Some (Z.of_N (byte_of c - 48)) else None.

Fixpoint decimal (s : string) (acc : Z) : option Z :=
  match s with
  | EmptyString => Some acc
  | String c s' => match digit_value c with
                   | Some d => decimal s' (acc * 10 + d)
                   | None => None
                   end
  end.

(** Digits, at least one. *)
Definition digits (s : string) : option Z := if is_empty s then None else decimal s 0.

(** A leading sign: whether it is minus, and the rest. *)
Definition sign (s : string) : bool * string :=
  match s with
  | String "-" r => (true, r)
  | String "+" r => (false, r)
  | _ => (false, s)
  end.

(** [s.parse::<i64>().ok()]. *)
Definition parse_i64 (s : string) : option Z :=
  let '(neg, r) := sign s in
  match digits r with
  | None => None
  | Some n => let z := if neg then Z.opp n else n in
              if (- 2 ^ 63 <=? z)%Z && (z <? 2 ^ 63)%Z then Some z else None
  end.

(** [s.parse()] to an unsigned type below [limit]: an optional plus sign,
    then digits. *)
Definition parse_unsigned (limit : Z) (s : string) : option N :=
  let r := match s with String "+" r => r | _ => s end in
  match digits r with
  | Some z => if (z <? limit)%Z then Some (Z.to_N z) else None
  | None => None
  end.

Definition U64_MAX : N := 18446744073709551615.

(** [digits.parse::<u64>()] on decimal digits. *)
Definition parse_u64_digits (s : string) : option N :=
  match digits s with
  | Some z => if (z <=? Z.of_N U64_MAX)%Z then Some (Z.to_N z) else None
  | None => None
  end.

(** Printed numbers are decimal digits that read back. *)
Lemma pretty_N_digits (x : N) (s : string) :
  str_forallb is_ascii_digit s = true -> str_forallb is_ascii_digit (pretty_N_go x s) = true.
Proof.
  revert s. induction (N.lt_wf_0 x) as [x _ IH]. intros s Hs.
  destruct (decide (0 < x)%N) as [Hx|Hx].
  - rewrite pretty_N_go_step by done. apply IH; [apply N.div_lt; lia|]. simpl. rewrite Hs, andb_true_r.
    assert (Hm : (x mod 10 < 10)%N) by (apply N.mod_lt; lia).
    destruct (x `mod` 10)%N as [|q]; [done|]. repeat (destruct q as [q|q|]; try done; try lia).
  - assert (x = 0%N) as -> by lia. by rewrite pretty_N_go_0.
Qed.

Lemma decimal_pretty (x : N) (s : string) :
  decimal (pretty_N_go x s) 0 = decimal s (Z.of_N x).
Proof.
  revert s. induction (N.lt_wf_0 x) as [x _ IH]. intros s.
  destruct (decide (0 < x)%N) as [Hx|Hx].
  - rewrite pretty_N_go_step by done. rewrite IH by (apply N.div_lt; lia). simpl.
    assert (Hd : digit_value (pretty_N_char (x `mod` 10)) = Some (Z.of_N (x mod 10))).
    { assert (Hm : (x mod 10 < 10)%N) by (apply N.mod_lt; lia).
      destruct (x `mod` 10)%N as [|q]; [done|]. repeat (destruct q as [q|q|]; try done; try lia). }
    rewrite Hd. f_equal. pose proof (N.div_mod x 10 ltac:(lia)). lia.
  - assert (x = 0%N) as -> by lia. by rewrite pretty_N_go_0.
Qed.

Lemma pretty_N_word (x : N) :
  exists c t, pretty x = String c t /\ str_forallb is_ascii_digit (pretty x) = true
    /\ decimal (pretty x) 0 = Some (Z.of_N x).
Proof.
  destruct (decide (x = 0%N)) as [->|Hx]; [by exists "0"%char, ""|].
  assert (E : pretty x = pretty_N_go x "") by (unfold pretty, pretty_N; by rewrite decide_False).
  rewrite E. pose proof (decimal_pretty x "") as Hd. pose proof (pretty_N_digits x "" eq_refl) as Hs.
  destruct (pretty_N_go x "") as [|c t]; [|eauto].
  simpl in Hd. injection Hd as Hd. lia.
Qed.

(** [n.into()] from an [i64]. *)
Definition number_of_i64 (z : Z) : Number := if (0 <=? z)%Z then PosInt (Z.to_N z) else NegInt z.

(** The exponent part after [e]. *)
Definition exponent (s : string) : option Z :=
  let '(neg, r) := sign s in option_map (fun n => if neg then Z.opp n else n) (digits r).

(** The nearest [f64] of [m * 10^e]. *)
Definition f64_of_decimal (neg : bool) (m e : Z) : f64 :=
  match m with
  | Z0 => S754_zero neg
  | Zneg _ => S754_nan
  | Zpos p =>
      let f := if (0 <=? e)%Z then f64_of_Z (Zpos p * 10 ^ e)
               else match (10 ^ (- e))%Z with
                    | Zpos q => SFdiv prec emax (S754_finite false p 0) (S754_finite false q 0)
                    | _ => S754_nan
                    end in
      if neg then SFopp f else f
  end.

(** The mantissa before an exponent: its digits and how many follow the point. *)
Definition mantissa (s : string) : option (Z * Z) :=
  match split_once "." s with
  | None => option_map (fun n => (n, 0%Z)) (digits s)
  | Some (i, f) =>
      if is_empty i && is_empty f then None
      else option_map (fun n => (n, Z.of_nat (String.length f))) (decimal (i +:+ f) 0)
  end.

Definition is_exponent_char (c : ascii) : bool := Ascii.eqb c "e" || Ascii.eqb c "E".

Fixpoint split_exponent (s : string) : string * option string :=
  match s with
  | EmptyString => ("", None)
  | String c s' => if is_exponent_char c then ("", Some s')
                   else let '(m, e) := split_exponent s' in (String c m, e)
  end.

(** [s.parse::<f64>().ok()]. *)
Definition parse_f64 (s : string) : option f64 :=
  let '(neg, r) := sign s in
  let name := to_ascii_lowercase r in
  if (name =s "inf") || (name =s "infinity") then Some (S754_infinity neg)
  else if name =s "nan" then Some S754_nan
  else
    let '(m, e) := split_exponent r in
    match mantissa m, match e with None => Some 0%Z | Some e => exponent e end with
    | Some (n, frac), Some e => Some (f64_of_decimal neg n (e - frac))
    | _, _ => None
    end.

(** [Number::from_f64]. *)
Definition number_from_f64 (f : f64) : option Number :=
  if is_finite f then Some (Float f) else None.

Example parse_f64_half : parse_f64 "-1.5e-1" = Some (SFopp (f64_of_decimal false 15 (-2))).
Proof. reflexivity. Qed.

(** ** The crate

    Parsing and printing of JSON text belong to [serde_json]: [from_json] is
    [from_str] and [from_slice] to a value, [to_json] is [to_vec] of one and
    [display_json] its [Display]. *)
Class JsonCrate := {
  from_json : string -> option Value;
  to_json : Value -> result string string;
  display_json : Value -> string
}.

(** [{:?}] of a string: its escapes depend on Unicode tables. *)
Class DebugFormat := { debug_str : string -> string }.
