(* ===== verification/Expr.v ===== *)
(** The expression language of flow conditions ([wafer-flow/src/expr.rs]):
    the scanner that skips strings and groups, the precedence parser on top of
    it, and the evaluator.

    Source text is its UTF-8 bytes. [parse_expr] and [parse_atom] recurse on
    strictly shorter text, so the length of the text plus one is enough fuel. *)

From Stdlib Require Import SpecFloat.
From S2P Require Import Prelude Text.

(** ** Syntax *)

Module CompareOp.
Inductive t := Eq | Ne | Gt | Lt | Ge | Le.
Definition as_str (op : t) : string :=
  match op with Eq => "==" | Ne => "!=" | Gt => ">" | Lt => "<" | Ge => ">=" | Le => "<=" end.
End CompareOp.

Module LogicalOp.
Inductive t := And | Or.
End LogicalOp.

Module MembershipOp.
Inductive t := In | NotIn.
End MembershipOp.

Inductive Expr :=
| Path (segments : list string)
| Literal (v : Value)
| Compare (left : Expr) (op : CompareOp.t) (right : Expr)
| Logical (left : Expr) (op : LogicalOp.t) (right : Expr)
| Membership (value : Expr) (op : MembershipOp.t) (lst : Expr).

Inductive ExprError :=
| InvalidPath (why : string)
| UnresolvedReference (path : string)
| TypeError (why : string)
| Parse (why : string)
| OutOfFuel.

(** ** The scanner *)

(** The run of backslashes just before a position; [before] is the text before
    it, reversed. *)
Fixpoint backslash_run (before : string) : nat :=
  match before with
  | String c b => if Ascii.eqb c BACKSLASH then S (backslash_run b) else 0
  | EmptyString => 0
  end.

(** [is_escaped]. *)
Definition is_escaped (before : string) : bool := Nat.odd (backslash_run before).

Definition is_quote (c : ascii) : bool := Ascii.eqb c DQUOTE || Ascii.eqb c SQUOTE.

(** [for_each_unquoted]: the callback gets the text before the position
    (reversed) and the text from it on; [in_string] is the open delimiter. *)
Fixpoint scan {A} (f : string -> string -> A -> A) (before : string) (in_string : option ascii)
    (paren_depth : Z) (s : string) (acc : A) : A :=
  match s with
  | EmptyString => acc
  | String c s' =>
      let before' := String c before in
      match in_string with
      | Some q =>
          scan f before' (if Ascii.eqb c q && negb (is_escaped before) then None else in_string)
            paren_depth s' acc
      | None =>
          if is_quote c then scan f before' (Some c) paren_depth s' acc
          else if Ascii.eqb c "(" then scan f before' None (paren_depth + 1) s' acc
          else if Ascii.eqb c ")" then scan f before' None (Z.max (paren_depth - 1) 0) s' acc
          else if (0 <? paren_depth)%Z then scan f before' None paren_depth s' acc
          else scan f before' None paren_depth s' (f before s acc)
      end
  end.

Definition for_each_unquoted {A} (f : string -> string -> A -> A) (s : string) (acc : A) : A :=
  scan f "" None 0 s acc.

(** The loop of [strip_outer_parens]: the final depth, or [None] for a group
    closed before the last byte. *)
Fixpoint outer_depth (before : string) (in_string : option ascii) (depth : Z) (s : string)
  : option Z :=
  match s with
  | EmptyString => Some depth
  | String c s' =>
      let before' := String c before in
      match in_string with
      | Some q =>
          outer_depth before' (if Ascii.eqb c q && negb (is_escaped before) then None else in_string)
            depth s'
      | None =>
          if is_quote c then outer_depth before' (Some c) depth s'
          else if Ascii.eqb c "(" then outer_depth before' None (depth + 1) s'
          else if Ascii.eqb c ")" then
            let depth := (depth - 1)%Z in
            if (depth =? 0)%Z && negb (is_empty s') then None
            else outer_depth before' None depth s'
          else outer_depth before' None depth s'
      end
  end.

Definition first_char (s : string) : option ascii :=
  match s with String c _ => Some c | EmptyString => None end.
Definition last_char (s : string) : option ascii := first_char (str_rev s).
Definition char_is (o : option ascii) (c : ascii) : bool :=
  match o with Some d => Ascii.eqb d c | None => false end.

(** [strip_outer_parens]. *)
Definition strip_outer_parens (s : string) : option string :=
  if negb (char_is (first_char s) "(") || negb (char_is (last_char s) ")") then None
  else match outer_depth "" None 0 s with
       | None => None
       | Some depth =>
           if negb (depth =? 0)%Z then None
           else Some (trim (str_take (String.length s - 2) (str_drop 1 s)))
       end.

(** ** Operators *)

(** The rightmost top-level [&&] and [||] of [try_parse_logical]. *)
Definition logical_positions (s : string) : option nat * option nat :=
  for_each_unquoted (fun before rest '(best_and, best_or) =>
    if starts_with "&&" rest then (Some (String.length before), best_or)
    else if starts_with "||" rest then (best_and, Some (String.length before))
    else (best_and, best_or)) s (None, None).

Definition starts_ws (s : string) : bool :=
  match s with String c _ => is_ascii_whitespace c | EmptyString => true end.

(** [find_keyword]. *)
Definition find_keyword (s keyword : string) : option nat :=
  for_each_unquoted (fun before rest found =>
    match found with
    | Some _ => found
    | None =>
        if starts_with keyword rest && starts_ws before
           && starts_ws (str_drop (String.length keyword) rest)
        then Some (String.length before) else None
    end) s None.

(** [find_operator]. *)
Definition find_operator (s op : string) : option nat :=
  for_each_unquoted (fun before rest found =>
    match found with
    | Some _ => found
    | None =>
        if starts_with op rest then
          if ((op =s ">") || (op =s "<")) && starts_with "=" (str_drop 1 rest) then None
          else if (op =s "=") && existsb (char_is (first_char before)) ["!"; "="; ">"; "<"]%char
          then None
          else Some (String.length before)
        else None
    end) s None.

(** ** Paths and literals *)

(** [parse_path]. *)
Definition parse_path (s : string) : result (list string) ExprError :=
  if negb (starts_with "$." s) then
    Err (InvalidPath ("path must start with '$.' but got '" +:+ s +:+ "'"))
  else
    let rest := str_drop 2 s in
    if is_empty rest then Err (InvalidPath "path must have at least one segment after '$.'")
    else let segments := split "." rest in
         if existsb is_empty segments
         then Err (InvalidPath ("empty segment in path '" +:+ s +:+ "'"))
         else Ok segments.

Definition hex_value (c : ascii) : option N :=
  let b := byte_of c in
  if is_ascii_digit c then Some (b - 48)%N
  else if (97 <=? b)%N && (b <=? 102)%N then Some (b - 87)%N
  else if (65 <=? b)%N && (b <=? 70)%N then Some (b - 55)%N
  else None.

(** UTF-8 of a code point of the basic plane. *)
Definition utf8_bmp (code : N) : string :=
  let ch n := ascii_of_N n in
  if (code <? 128)%N then String (ch code) ""
  else if (code <? 2048)%N then
    String (ch (192 + code / 64)%N) (String (ch (128 + code mod 64)%N) "")
  else String (ch (224 + code / 4096)%N)
         (String (ch (128 + code / 64 mod 64)%N) (String (ch (128 + code mod 64)%N) "")).

(** [char::from_u32] on four hex digits: surrogates are no characters. *)
Definition is_surrogate (code : N) : bool := (55296 <=? code)%N && (code <=? 57343)%N.

(** The single-character escapes. *)
Definition simple_escape (c : ascii) : option ascii :=
  if Ascii.eqb c "n" then Some (ascii_of_nat 10)
  else if Ascii.eqb c "t" then Some (ascii_of_nat 9)
  else if Ascii.eqb c "r" then Some (ascii_of_nat 13)
  else if Ascii.eqb c "b" then Some (ascii_of_nat 8)
  else if Ascii.eqb c "f" then Some (ascii_of_nat 12)
  else if is_quote c || Ascii.eqb c BACKSLASH || Ascii.eqb c "/" then Some c
  else None.

(** [unescape_string_literal]; the messages name no character. *)
Fixpoint unescape_string_literal (s : string) : result string ExprError :=
  match s with
  | EmptyString => Ok ""
  | String c s' =>
      if negb (Ascii.eqb c BACKSLASH) then
        let? out := unescape_string_literal s' in Ok (String c out)
      else match s' with
      | EmptyString => Err (Parse "trailing backslash in string literal")
      | String e s2 =>
          match simple_escape e with
          | Some d => let? out := unescape_string_literal s2 in Ok (String d out)
          | None =>
              if Ascii.eqb e "u" then
                match s2 with
                | String h1 (String h2 (String h3 (String h4 s6))) =>
                    match hex_value h1, hex_value h2, hex_value h3, hex_value h4 with
                    | Some a, Some b, Some c, Some d =>
                        let code := (((a * 16 + b) * 16 + c) * 16 + d)%N in
                        if is_surrogate code then Err (Parse "invalid unicode code point")
                        else let? out := unescape_string_literal s6 in Ok (utf8_bmp code +:+ out)
                    | _, _, _, _ => Err (Parse "invalid hex digit in \u escape")
                    end
                | _ => if str_forallb (fun c => match hex_value c with Some _ => true | None => false end) s2
                       then Err (Parse "incomplete \u escape in string literal")
                       else Err (Parse "invalid hex digit in \u escape")
                end
              else Err (Parse "unknown escape sequence in string literal")
          end
      end
  end.

Definition quoted_by (q : ascii) (s : string) : bool :=
  (2 <=? String.length s) && char_is (first_char s) q && char_is (last_char s) q.

Section Parser.
Context `{JsonCrate}.

(** The literals of [parse_atom], after groups and paths. *)
Definition parse_literal (s : string) : result Expr ExprError :=
  if quoted_by DQUOTE s || quoted_by SQUOTE s then
    let? v := unescape_string_literal (str_take (String.length s - 2) (str_drop 1 s)) in
    Ok (Literal (VString v))
  else if s =s "true" then Ok (Literal (VBool true))
  else if s =s "false" then Ok (Literal (VBool false))
  else if s =s "null" then Ok (Literal VNull)
  else match parse_i64 s with
  | Some n => Ok (Literal (VNumber (number_of_i64 n)))
  | None =>
      match parse_f64 s ≫= number_from_f64 with
      | Some num => Ok (Literal (VNumber num))
      | None =>
          match (if char_is (first_char s) "[" && char_is (last_char s) "]"
                 then from_json s else None) with
          | Some v => Ok (Literal v)
          | None => Err (Parse ("unrecognized token: '" +:+ s +:+ "'"))
          end
      end
  end.

(** [parse_atom]; [parse_expr] is the parser of a group's inside. *)
Definition parse_atom (parse_expr : string -> result Expr ExprError) (s : string)
  : result Expr ExprError :=
  let s := trim s in
  match strip_outer_parens s with
  | Some inner =>
      if is_empty inner then Err (Parse ("empty parenthesized group in '" +:+ s +:+ "'"))
      else parse_expr inner
  | None =>
      if starts_with "$." s then let? p := parse_path s in Ok (Path p)
      else parse_literal s
  end.

(** [try_parse_logical]. *)
Definition try_parse_logical (parse_expr : string -> result Expr ExprError) (s : string)
  : result (option Expr) ExprError :=
  let '(best_and, best_or) := logical_positions s in
  let split := match best_or, best_and with
               | Some pos, _ => Some (pos, LogicalOp.Or)
               | None, Some pos => Some (pos, LogicalOp.And)
               | None, None => None
               end in
  match split with
  | Some (pos, op) =>
      let left := trim (str_take pos s) in
      let right := trim (str_drop (pos + 2) s) in
      if is_empty left || is_empty right then
        Err (Parse ("missing operand for logical operator in '" +:+ s +:+ "'"))
      else let? l := parse_expr left in
           let? r := parse_expr right in
           Ok (Some (Logical l op r))
  | None => Ok None
  end.

(** The operators in the order [try_parse_comparison] tries them. *)
Definition compare_ops : list (string * CompareOp.t) :=
  [("==", CompareOp.Eq); ("!=", CompareOp.Ne); (">=", CompareOp.Ge); ("<=", CompareOp.Le);
   (">", CompareOp.Gt); ("<", CompareOp.Lt)].

(** [try_parse_comparison]. *)
Fixpoint try_parse_comparison (parse_expr : string -> result Expr ExprError)
    (ops : list (string * CompareOp.t)) (s : string) : result (option Expr) ExprError :=
  match ops with
  | [] => Ok None
  | (token, op) :: ops' =>
      match find_operator s token with
      | Some pos =>
          let left := trim (str_take pos s) in
          let right := trim (str_drop (pos + String.length token) s) in
          if is_empty left || is_empty right then
            Err (Parse ("missing operand for '" +:+ token +:+ "' in '" +:+ s +:+ "'"))
          else let? l := parse_atom parse_expr left in
               let? r := parse_atom parse_expr right in
               Ok (Some (Compare l op r))
      | None => try_parse_comparison parse_expr ops' s
      end
  end.

Definition membership_at (parse_expr : string -> result Expr ExprError) (s keyword : string)
    (op : MembershipOp.t) (pos : nat) : result (option Expr) ExprError :=
  let left := trim (str_take pos s) in
  let right := trim (str_drop (pos + String.length keyword) s) in
  if is_empty left || is_empty right then
    Err (Parse ("missing operand for '" +:+ keyword +:+ "' in '" +:+ s +:+ "'"))
  else let? v := parse_atom parse_expr left in
       let? l := parse_atom parse_expr right in
       Ok (Some (Membership v op l)).

(** [try_parse_membership]. *)
Definition try_parse_membership (parse_expr : string -> result Expr ExprError) (s : string)
  : result (option Expr) ExprError :=
  match find_keyword s "not in" with
  | Some pos => membership_at parse_expr s "not in" MembershipOp.NotIn pos
  | None =>
      match find_keyword s "in" with
      | Some pos => membership_at parse_expr s "in" MembershipOp.In pos
      | None => Ok None
      end
  end.

(** The body of [parse_expr], over the parser of shorter text. *)
Definition parse_step (parse_expr : string -> result Expr ExprError) (s : string)
  : result Expr ExprError :=
  let s := trim s in
  if is_empty s then Err (Parse "empty expression")
  else
    let? l := try_parse_logical parse_expr s in
    match l with
    | Some e => Ok e
    | None =>
        let? c := try_parse_comparison parse_expr compare_ops s in
        match c with
        | Some e => Ok e
        | None =>
            let? m := try_parse_membership parse_expr s in
            match m with
            | Some e => Ok e
            | None => parse_atom parse_expr s
            end
        end
    end.

(** [parse_expr]. *)
Fixpoint parse_expr_fuel (fuel : nat) (s : string) : result Expr ExprError :=
  match fuel with
  | O => Err OutOfFuel
  | S fuel => parse_step (parse_expr_fuel fuel) s
  end.

Definition parse_expr (s : string) : result Expr ExprError :=
  parse_expr_fuel (S (String.length s)) s.
End Parser.

(** ** Evaluation *)

Definition type_name (v : Value) : string :=
  match v with
  | VNull => "null" | VBool _ => "boolean" | VNumber _ => "number"
  | VString _ => "string" | VArray _ => "array" | VObject _ => "object"
  end.

Definition is_zero_f64 (f : f64) : bool := SFeqb f (S754_zero false).

(** [as_bool]. *)
Definition as_bool (v : Value) : bool :=
  match v with
  | VBool b => b
  | VNull => false
  | VNumber n => negb (is_zero_f64 (number_as_f64 n))
  | VString s => negb (is_empty s)
  | VArray a => match a with [] => false | _ => true end
  | VObject o => match o with [] => false | _ => true end
  end.

(** [as_f64]. *)
Definition as_f64 (v : Value) : option f64 :=
  match v with VNumber n => Some (number_as_f64 n) | _ => None end.

(** [compare_values]. *)
Definition compare_values (left : Value) (op : CompareOp.t) (right : Value)
  : result bool ExprError :=
  let ordered (cmp : f64 -> f64 -> bool) :=
    match as_f64 left, as_f64 right with
    | Some l, Some r => Ok (cmp l r)
    | _, _ => Err (TypeError ("ordered comparison '" +:+ CompareOp.as_str op
                              +:+ "' requires numeric operands, got " +:+ type_name left
                              +:+ " and " +:+ type_name right))
    end in
  match op with
  | CompareOp.Eq => Ok (value_eqb left right)
  | CompareOp.Ne => Ok (negb (value_eqb left right))
  | CompareOp.Gt => ordered (fun l r => SFltb r l)
  | CompareOp.Lt => ordered SFltb
  | CompareOp.Ge => ordered (fun l r => SFleb r l)
  | CompareOp.Le => ordered SFleb
  end.

(** [eval]. *)
Fixpoint eval (expr : Expr) (resolve : list string -> result Value ExprError)
  : result Value ExprError :=
  match expr with
  | Path segments => resolve segments
  | Literal v => Ok v
  | Compare lhs op rhs =>
      let? lv := eval lhs resolve in
      let? rv := eval rhs resolve in
      let? b := compare_values lv op rv in
      Ok (VBool b)
  | Logical lhs op rhs =>
      let? lv := eval lhs resolve in
      let lb := as_bool lv in
      match op with
      | LogicalOp.And =>
          if negb lb then Ok (VBool false)
          else let? rv := eval rhs resolve in Ok (VBool (as_bool rv))
      | LogicalOp.Or =>
          if lb then Ok (VBool true)
          else let? rv := eval rhs resolve in Ok (VBool (as_bool rv))
      end
  | Membership value op lst =>
      let? v := eval value resolve in
      let? l := eval lst resolve in
      match l with
      | VArray arr =>
          let contains := existsb (fun x => value_eqb x v) arr in
          Ok (VBool (match op with MembershipOp.In => contains | MembershipOp.NotIn => negb contains end))
      | _ => Err (TypeError "membership test requires an array on the right side")
      end
  end.
