(* ===== verification/ExprFacts.v ===== *)
(** Lemmas on the expression parser: the scanner's positions, and that the
    parser recurses on shorter text only, so its fuel is enough and it satisfies
    its recursive equation. *)

From stdpp Require Import pretty.
From S2P Require Import Prelude Text Expr.

(** ** The scanner *)

Lemma scan_inv {A} (f : string -> string -> A -> A) (P : A -> Prop) (whole : string) :
  (forall before rest acc, rev_onto before rest = whole -> P acc -> P (f before rest acc)) ->
  forall s before q d acc, rev_onto before s = whole -> P acc -> P (scan f before q d s acc).
Proof.
  intros Hf s. induction s as [|c s IH]; intros before q d acc Hw HP; simpl; [done|].
  destruct q as [q|]; [apply IH; done|].
  repeat case_match; apply IH; try done. apply Hf; done.
Qed.

(** A position found for a token leaves room for it. *)
Lemma rev_onto_room (before rest tok whole : string) :
  rev_onto before rest = whole -> starts_with tok rest = true ->
  String.length before + String.length tok <= String.length whole.
Proof.
  intros <- Hs. apply starts_with_spec in Hs as [r ->].
  rewrite rev_onto_length, str_length_app. lia.
Qed.

Definition room (s : string) (n : nat) (o : option nat) : Prop :=
  forall pos, o = Some pos -> pos + n <= String.length s.

Lemma logical_positions_room (s : string) :
  room s 2 (fst (logical_positions s)) /\ room s 2 (snd (logical_positions s)).
Proof.
  unfold logical_positions, for_each_unquoted.
  apply (scan_inv _ (fun p => room s 2 (fst p) /\ room s 2 (snd p)) s); [|done|by split].
  intros before rest [a o] Hw [Ha Ho]. simpl in *.
  destruct (starts_with "&&" rest) eqn:E1; [|destruct (starts_with "||" rest) eqn:E2].
  - split; [|done]. intros pos [= <-]. by apply (rev_onto_room before rest "&&" s).
  - split; [done|]. intros pos [= <-]. by apply (rev_onto_room before rest "||" s).
  - done.
Qed.

Lemma find_operator_room (s op : string) : room s (String.length op) (find_operator s op).
Proof.
  unfold find_operator, for_each_unquoted.
  apply (scan_inv _ (room s (String.length op)) s); [|done|done].
  intros before rest acc Hw Ha. destruct acc as [p|]; [done|].
  destruct (starts_with op rest) eqn:E; [|done]. repeat case_match; try done.
  intros pos [= <-]. by eapply rev_onto_room.
Qed.

Lemma find_keyword_room (s kw : string) : room s (String.length kw) (find_keyword s kw).
Proof.
  unfold find_keyword, for_each_unquoted.
  apply (scan_inv _ (room s (String.length kw)) s); [|done|done].
  intros before rest acc Hw Ha. destruct acc as [p|]; [done|].
  destruct (starts_with kw rest) eqn:E; [|done]. simpl. repeat case_match; try done.
  intros pos [= <-]. by eapply rev_onto_room.
Qed.

(** The operands of a split are shorter than the text. *)
Lemma split_shorter (s : string) (pos n : nat) :
  pos + n <= String.length s -> 0 < n ->
  String.length (trim (str_take pos s)) < String.length s
  /\ String.length (trim (str_drop (pos + n) s)) < String.length s.
Proof.
  intros Hp Hn. pose proof (trim_length (str_take pos s)). pose proof (trim_length (str_drop (pos + n) s)).
  rewrite str_length_take in *. rewrite str_length_drop in *. lia.
Qed.

Lemma strip_outer_parens_shorter (s inner : string) :
  strip_outer_parens s = Some inner -> String.length inner < String.length s.
Proof.
  unfold strip_outer_parens. destruct s as [|c s]; [done|].
  intros Hs. repeat case_match; try done. injection Hs as <-.
  eapply Nat.le_lt_trans; [apply trim_length|]. rewrite str_length_take. simpl. lia.
Qed.

(** ** Recursion on shorter text *)

Section Recursion.
Context `{JsonCrate}.
Abbreviation parser := (string -> result Expr ExprError).

(** Two parsers that agree below a length. *)
Definition agree_below (n : nat) (p q : parser) : Prop :=
  forall t, String.length t < n -> p t = q t.

Lemma agree_below_le (m n : nat) (p q : parser) : m <= n -> agree_below n p q -> agree_below m p q.
Proof. intros Hmn Ha t Ht. apply Ha. lia. Qed.

Lemma parse_atom_agree (s : string) (p q : parser) :
  agree_below (String.length s) p q -> parse_atom p s = parse_atom q s.
Proof.
  intros Ha. unfold parse_atom. destruct (strip_outer_parens (trim s)) as [inner|] eqn:E; [|done].
  destruct (is_empty inner); [done|]. apply Ha.
  apply strip_outer_parens_shorter in E. pose proof (trim_length s). lia.
Qed.

Lemma operands_agree (s : string) (pos n : nat) (p q : parser) :
  pos + n <= String.length s -> 0 < n -> agree_below (String.length s) p q ->
  p (trim (str_take pos s)) = q (trim (str_take pos s))
  /\ p (trim (str_drop (pos + n) s)) = q (trim (str_drop (pos + n) s))
  /\ parse_atom p (trim (str_take pos s)) = parse_atom q (trim (str_take pos s))
  /\ parse_atom p (trim (str_drop (pos + n) s)) = parse_atom q (trim (str_drop (pos + n) s)).
Proof.
  intros Hp Hn Ha. destruct (split_shorter s pos n Hp Hn) as [Hl Hr].
  repeat split; try by apply Ha.
  all: apply parse_atom_agree; eapply agree_below_le; [|exact Ha]; lia.
Qed.

Lemma try_parse_logical_agree (s : string) (p q : parser) :
  agree_below (String.length s) p q -> try_parse_logical p s = try_parse_logical q s.
Proof.
  intros Ha. unfold try_parse_logical. destruct (logical_positions_room s) as [Hand Hor].
  destruct (logical_positions s) as [a o]. simpl in *.
  destruct o as [pos|]; [|destruct a as [pos|]; [|done]].
  - destruct (operands_agree s pos 2 p q (Hor _ eq_refl)) as (-> & -> & _); [lia|done|done].
  - destruct (operands_agree s pos 2 p q (Hand _ eq_refl)) as (-> & -> & _); [lia|done|done].
Qed.

Lemma try_parse_comparison_agree (ops : list (string * CompareOp.t)) (s : string) (p q : parser) :
  Forall (fun o => 0 < String.length (fst o)) ops ->
  agree_below (String.length s) p q ->
  try_parse_comparison p ops s = try_parse_comparison q ops s.
Proof.
  intros Hops Ha. induction Hops as [|[tok op] ops Hlen _ IH]; simpl; [done|].
  pose proof (find_operator_room s tok) as Hroom.
  destruct (find_operator s tok) as [pos|]; [|exact IH].
  destruct (operands_agree s pos (String.length tok) p q (Hroom _ eq_refl) Hlen Ha)
    as (_ & _ & -> & ->). done.
Qed.

Lemma try_parse_membership_agree (s : string) (p q : parser) :
  agree_below (String.length s) p q -> try_parse_membership p s = try_parse_membership q s.
Proof.
  intros Ha. unfold try_parse_membership, membership_at.
  pose proof (find_keyword_room s "not in") as H1. pose proof (find_keyword_room s "in") as H2.
  destruct (find_keyword s "not in") as [pos|].
  - destruct (operands_agree s pos (String.length "not in") p q (H1 _ eq_refl)) as (_ & _ & -> & ->);
      [simpl; lia|done|done].
  - destruct (find_keyword s "in") as [pos|]; [|done].
    destruct (operands_agree s pos (String.length "in") p q (H2 _ eq_refl)) as (_ & _ & -> & ->);
      [simpl; lia|done|done].
Qed.

(** The body calls the parser on strictly shorter text only. *)
Lemma parse_step_agree (s : string) (p q : parser) :
  agree_below (String.length s) p q -> parse_step p s = parse_step q s.
Proof.
  intros Ha. pose proof (agree_below_le _ _ p q (trim_length s) Ha) as Ht. unfold parse_step.
  rewrite (try_parse_logical_agree _ p q Ht), (try_parse_membership_agree _ p q Ht).
  rewrite (try_parse_comparison_agree compare_ops _ p q) by (done || (repeat constructor; simpl; lia)).
  by rewrite (parse_atom_agree _ p q Ht).
Qed.

(** Fuel above the length of the text does not matter. *)
Lemma parse_fuel_irrelevant (f g : nat) (s : string) :
  String.length s < f -> String.length s < g -> parse_expr_fuel f s = parse_expr_fuel g s.
Proof.
  revert g s. induction f as [|f IH]; intros g s Hf Hg; [lia|]. destruct g as [|g]; [lia|]. simpl.
  apply parse_step_agree. intros t Ht. apply IH; lia.
Qed.

(** The recursive equation of [parse_expr]. *)
Lemma parse_expr_eq (s : string) : parse_expr s = parse_step parse_expr s.
Proof.
  unfold parse_expr at 1. simpl. apply parse_step_agree. intros t Ht.
  unfold parse_expr. apply parse_fuel_irrelevant; lia.
Qed.
End Recursion.

(** No step of the parser makes up the out-of-fuel error. *)
Section Total.
Context `{JsonCrate}.

Definition answers {A} (r : result A ExprError) : Prop := r <> Err OutOfFuel.

Lemma answers_bind {A B} (r : result A ExprError) (k : A -> result B ExprError) :
  answers r -> (forall a, answers (k a)) -> answers (result_bind r k).
Proof. destruct r; simpl; [auto|]. intros Hr _. unfold answers in *. congruence. Qed.

Lemma parse_path_answers (s : string) : answers (parse_path s).
Proof. unfold parse_path. by repeat case_match. Qed.

Lemma unescape_answers (s : string) : answers (unescape_string_literal s).
Proof.
  induction s as [s IH] using string_len_ind. destruct s as [|c s]; simpl; [done|].
  destruct (negb _); [apply answers_bind; [apply IH; simpl; lia|done]|].
  destruct s as [|e s]; [done|].
  destruct (simple_escape e); [apply answers_bind; [apply IH; simpl; lia|done]|].
  destruct (Ascii.eqb e "u"); [|done].
  destruct s as [|h1 [|h2 [|h3 [|h4 s]]]]; try by repeat case_match.
  repeat case_match; try done. apply answers_bind; [apply IH; simpl; lia|done].
Qed.

Lemma parse_literal_answers (s : string) : answers (parse_literal s).
Proof.
  unfold parse_literal. destruct (_ || _); [apply answers_bind; [apply unescape_answers|done]|].
  by repeat case_match.
Qed.

(** Over a parser that always answers, so does the body. *)
Section Step.
Variable p : string -> result Expr ExprError.
Hypothesis p_answers : forall t, answers (p t).

Lemma parse_atom_answers (s : string) : answers (parse_atom p s).
Proof.
  unfold parse_atom. destruct (strip_outer_parens (trim s)); [destruct (is_empty _); [done|auto]|].
  destruct (starts_with "$." (trim s)); [|apply parse_literal_answers].
  apply answers_bind; [apply parse_path_answers|done].
Qed.

Lemma comparison_answers (ops : list (string * CompareOp.t)) (s : string) :
  answers (try_parse_comparison p ops s).
Proof.
  induction ops as [|[tok op] ops IH]; simpl; [done|].
  destruct (find_operator s tok); [|exact IH]. destruct (_ || _); [done|].
  repeat (apply answers_bind; [apply parse_atom_answers|intros]). done.
Qed.

Lemma parse_step_answers (s : string) : answers (parse_step p s).
Proof.
  unfold parse_step. destruct (is_empty (trim s)); [done|]. apply answers_bind.
  { unfold try_parse_logical. repeat case_match; try done; simplify_eq;
      repeat (apply answers_bind; [apply p_answers|intros]); done. }
  intros [e|]; [done|]. apply answers_bind; [apply comparison_answers|].
  intros [e|]; [done|]. apply answers_bind; [|intros [e|]; [done|apply parse_atom_answers]].
  unfold try_parse_membership, membership_at. repeat case_match; try done;
    repeat (apply answers_bind; [apply parse_atom_answers|intros]); done.
Qed.
End Step.

Lemma parse_expr_fuel_answers (f : nat) (s : string) :
  String.length s < f -> answers (parse_expr_fuel f s).
Proof.
  revert s. induction f as [|f IH]; intros s Hf; [lia|]. simpl.
  rewrite (parse_step_agree s _ (fun t => if String.length t <? String.length s
    then parse_expr_fuel f t else Err (Parse "longer"))).
  - apply parse_step_answers. intros t. destruct (_ <? _) eqn:E; [|done].
    apply Nat.ltb_lt in E. apply IH. lia.
  - intros t Ht. apply Nat.ltb_lt in Ht. by rewrite Ht.
Qed.
End Total.

(** * A printer for expressions with the fewest parentheses, and what the
    scanner does on printed text: it steps over atoms, strings and groups, and
    stops at the operators between them. *)

(** ** The printer *)

Definition quote (s : string) : string := String DQUOTE (s +:+ String DQUOTE "").

Fixpoint escape (s : string) : string :=
  match s with
  | EmptyString => ""
  | String c s' =>
      if Ascii.eqb c DQUOTE || Ascii.eqb c BACKSLASH then String BACKSLASH (String c (escape s'))
      else String c (escape s')
  end.

Definition print_number (n : Number) : string :=
  match n with
  | PosInt n => pretty n
  | NegInt z => "-" +:+ pretty (Z.to_N (- z))
  | Float _ => ""
  end.

Definition print_value (v : Value) : string :=
  match v with
  | VNull => "null"
  | VBool b => if b then "true" else "false"
  | VNumber n => print_number n
  | VString s => quote (escape s)
  | VArray _ | VObject _ => ""
  end.

Definition group (t : string) : string := "(" +:+ t +:+ ")".
Definition group_if (b : bool) (t : string) : string := if b then group t else t.

Definition logical_str (op : LogicalOp.t) : string :=
  match op with LogicalOp.And => "&&" | LogicalOp.Or => "||" end.
Definition membership_str (op : MembershipOp.t) : string :=
  match op with MembershipOp.In => "in" | MembershipOp.NotIn => "not in" end.

(** Operators apart by single spaces. *)
Definition infix (l op r : string) : string := l +:+ " " +:+ op +:+ " " +:+ r.

(** Levels: 0 an operand, 1 a comparison, 2 a conjunction, 3 a disjunction. *)
Fixpoint print (lvl : nat) (e : Expr) : string :=
  match e with
  | Path p => "$." +:+ join "." p
  | Literal v => print_value v
  | Compare l op r => group_if (lvl <? 1) (infix (print 0 l) (CompareOp.as_str op) (print 0 r))
  | Membership v op l => group_if (lvl <? 1) (infix (print 0 v) (membership_str op) (print 0 l))
  | Logical l LogicalOp.And r => group_if (lvl <? 2) (infix (print 2 l) "&&" (print 1 r))
  | Logical l LogicalOp.Or r => group_if (lvl <? 3) (infix (print 3 l) "||" (print 2 r))
  end.

Definition seg_char (c : ascii) : bool :=
  is_ascii_alphanumeric c || Ascii.eqb c "_" || Ascii.eqb c "-".

Definition wf_value (v : Value) : Prop :=
  match v with
  | VNull | VBool _ | VString _ => True
  | VNumber n => exists z, (- 2 ^ 63 <= z < 2 ^ 63)%Z /\ n = number_of_i64 z
  | VArray _ | VObject _ => False
  end.

(** Expressions the language can write: paths of plain segments; integer,
    string, boolean and null literals. *)
Fixpoint wf_expr (e : Expr) : Prop :=
  match e with
  | Path p => p <> [] /\ Forall (fun s => s <> "" /\ str_forallb seg_char s = true) p
  | Literal v => wf_value v
  | Compare l _ r | Logical l _ r | Membership l _ r => wf_expr l /\ wf_expr r
  end.

(** ** Characters *)

Definition safe (c : ascii) : bool := seg_char c || Ascii.eqb c "." || Ascii.eqb c "$".
Definition plain (c : ascii) : bool := negb (is_quote c) && negb (Ascii.eqb c "(") && negb (Ascii.eqb c ")").

Lemma safe_facts (c : ascii) :
  safe c = true ->
  plain c = true /\ solid c = true /\ is_ascii_whitespace c = false
  /\ existsb (Ascii.eqb c) ["&"; "|"; "="; "!"; ">"; "<"]%char = false.
Proof. destruct c as [[] [] [] [] [] [] [] []]; vm_compute; auto; discriminate. Qed.

Lemma plain_facts (c : ascii) :
  plain c = true -> is_quote c = false /\ Ascii.eqb c "(" = false /\ Ascii.eqb c ")" = false.
Proof.
  unfold plain. rewrite !andb_true_iff, !negb_true_iff. tauto.
Qed.

Lemma seg_char_safe (c : ascii) : seg_char c = true -> safe c = true.
Proof. unfold safe. intros ->. done. Qed.

(** ** Stepping over text inside a group *)

Definition deep_ok (t : string) : Prop :=
  (forall A (f : string -> string -> A -> A) before d rest acc, (0 < d)%Z ->
     scan f before None d (t +:+ rest) acc = scan f (rev_onto t before) None d rest acc)
  /\ (forall before d rest, (0 < d)%Z ->
     outer_depth before None d (t +:+ rest) = outer_depth (rev_onto t before) None d rest).

Lemma deep_ok_app (t u : string) : deep_ok t -> deep_ok u -> deep_ok (t +:+ u).
Proof.
  intros [Ht Ht'] [Hu Hu']. split; intros; rewrite <- str_app_assoc, rev_onto_app.
  - by rewrite Ht, Hu.
  - by rewrite Ht', Hu'.
Qed.

Lemma deep_ok_plain (t : string) : str_forallb plain t = true -> deep_ok t.
Proof.
  induction t as [|c t IH]; simpl; [done|]. intros [Hc Ht]%andb_true_iff.
  apply plain_facts in Hc as (Hq & Ho & Hcl). destruct (IH Ht) as [IHs IHo]. split; intros; simpl.
  - rewrite Hq, Ho, Hcl. assert (E : (0 <? d)%Z = true) by (by apply Z.ltb_lt).
    rewrite E. by apply IHs.
  - rewrite Hq, Ho, Hcl. by apply IHo.
Qed.

(** ** Strings *)

Lemma backslash_run_even_cases (before : string) (c : ascii) :
  Ascii.eqb c BACKSLASH = false -> backslash_run (String c before) = 0.
Proof. simpl. by intros ->. Qed.

Section InString.
Context {A : Type} (f : string -> string -> A -> A).

Lemma scan_in_string (s before rest : string) (d : Z) (acc : A) :
  Nat.odd (backslash_run before) = false ->
  scan f before (Some DQUOTE) d (escape s +:+ String DQUOTE rest) acc
  = scan f (String DQUOTE (rev_onto (escape s) before)) None d rest acc.
Proof.
  revert before. induction s as [|c s IH]; intros before Hb; simpl.
  - unfold is_escaped. by rewrite Hb.
  - destruct (Ascii.eqb c DQUOTE || Ascii.eqb c BACKSLASH) eqn:E; simpl.
    + assert (Hodd : is_escaped (String BACKSLASH before) = true).
      { unfold is_escaped. simpl. rewrite Nat.odd_succ, <- Nat.negb_odd, Hb. done. }
      rewrite Hodd, andb_false_r. apply IH.
      apply orb_true_iff in E as [E|E]; apply Ascii.eqb_eq in E as ->; [done|]. simpl.
      by rewrite Nat.odd_succ, Nat.even_succ.
    + apply orb_false_iff in E as [E1 E2]. rewrite E1. simpl. apply IH. simpl. by rewrite E2.
Qed.

Lemma outer_in_string (s before rest : string) (d : Z) :
  Nat.odd (backslash_run before) = false ->
  outer_depth before (Some DQUOTE) d (escape s +:+ String DQUOTE rest)
  = outer_depth (String DQUOTE (rev_onto (escape s) before)) None d rest.
Proof.
  revert before. induction s as [|c s IH]; intros before Hb; simpl.
  - unfold is_escaped. by rewrite Hb.
  - destruct (Ascii.eqb c DQUOTE || Ascii.eqb c BACKSLASH) eqn:E; simpl.
    + assert (Hodd : is_escaped (String BACKSLASH before) = true).
      { unfold is_escaped. simpl. rewrite Nat.odd_succ, <- Nat.negb_odd, Hb. done. }
      rewrite Hodd, andb_false_r. apply IH.
      apply orb_true_iff in E as [E|E]; apply Ascii.eqb_eq in E as ->; [done|]. simpl.
      by rewrite Nat.odd_succ, Nat.even_succ.
    + apply orb_false_iff in E as [E1 E2]. rewrite E1. simpl. apply IH. simpl. by rewrite E2.
Qed.
End InString.

Lemma scan_quote {A} (f : string -> string -> A -> A) (s before rest : string) (d : Z) (acc : A) :
  scan f before None d (quote (escape s) +:+ rest) acc
  = scan f (rev_onto (quote (escape s)) before) None d rest acc.
Proof.
  unfold quote. simpl. rewrite <- str_app_assoc. simpl. rewrite scan_in_string by done.
  by rewrite rev_onto_app.
Qed.

Lemma deep_ok_quote (s : string) : deep_ok (quote (escape s)).
Proof.
  split; intros; [apply scan_quote|].
  unfold quote. simpl. rewrite <- str_app_assoc. simpl. rewrite outer_in_string by done.
  by rewrite rev_onto_app.
Qed.

(** ** Groups *)

Lemma scan_group {A} (f : string -> string -> A -> A) (t before rest : string) (d : Z) (acc : A) :
  deep_ok t -> (0 <= d)%Z ->
  scan f before None d (group t +:+ rest) acc = scan f (rev_onto (group t) before) None d rest acc.
Proof.
  intros [Ht _] Hd. unfold group. simpl. rewrite <- str_app_assoc. rewrite Ht by lia. simpl.
  replace (Z.max (d + 1 - 1) 0) with d by lia. by rewrite rev_onto_app.
Qed.

Lemma deep_ok_group (t : string) : deep_ok t -> deep_ok (group t).
Proof.
  intros Ht. split; intros.
  - apply scan_group; [done|lia].
  - destruct Ht as [_ Ht]. unfold group. simpl. rewrite <- str_app_assoc, Ht by lia. simpl.
    replace (d + 1 - 1)%Z with d by lia.
    assert (E : (d =? 0)%Z = false) by (apply Z.eqb_neq; lia). rewrite E. simpl.
    by rewrite rev_onto_app.
Qed.

Lemma last_char_app (t : string) (c : ascii) : last_char (t +:+ String c "") = Some c.
Proof. unfold last_char. rewrite str_rev_app. done. Qed.

Lemma strip_group (t : string) : deep_ok t -> solid_ends t -> strip_outer_parens (group t) = Some t.
Proof.
  intros [_ Ht] Hs. unfold strip_outer_parens.
  assert (Hl : last_char (group t) = Some ")"%char).
  { unfold group. rewrite str_app_assoc. apply last_char_app. }
  rewrite Hl. simpl. rewrite Ht by lia. simpl. f_equal.
  rewrite str_length_app, Nat.add_1_r. simpl. rewrite Nat.sub_0_r, str_take_app.
  by apply trim_solid.
Qed.

(** ** Atoms at the top level *)

(** The character before a position is no white space. *)
Definition follows_solid (before : string) : Prop :=
  exists b bs, before = String b bs /\ is_ascii_whitespace b = false.

(** A callback that ignores the characters of atoms: no operator starts with
    one, and no keyword starts inside a word. *)
Definition quiet {A} (f : string -> string -> A -> A) : Prop :=
  forall c before rest acc, safe c = true ->
    follows_solid before \/ (c <> "i"%char /\ starts_with "not" (String c rest) = false) ->
    f before (String c rest) acc = acc.

Lemma scan_safe {A} (f : string -> string -> A -> A) (t before rest : string) (acc : A) :
  quiet f -> str_forallb safe t = true ->
  follows_solid before \/ match t with
                          | EmptyString => True
                          | String c t' => c <> "i"%char /\ starts_with "not" (t +:+ rest) = false
                          end ->
  scan f before None 0 (t +:+ rest) acc = scan f (rev_onto t before) None 0 rest acc.
Proof.
  intros Hf. revert before acc. induction t as [|c t IH]; intros before acc; simpl; [done|].
  intros [Hc Ht]%andb_true_iff Hb. destruct (safe_facts c Hc) as (Hp & _ & Hw & _).
  apply plain_facts in Hp as (-> & -> & ->). simpl.
  rewrite (Hf c before (t +:+ rest) acc Hc); [|destruct Hb as [|[? ?]]; auto].
  apply IH; [done|]. left. by exists c, before.
Qed.

(** The text of an operand: a word, a string or a group. *)
Inductive atom_text : string -> Prop :=
| atom_word t c t' :
    t = String c t' -> str_forallb safe t = true -> c <> "i"%char ->
    (forall rest, starts_with "not" (t +:+ rest) = false) -> atom_text t
| atom_string s : atom_text (quote (escape s))
| atom_group t : deep_ok t -> solid_ends t -> atom_text (group t).

Lemma scan_atom {A} (f : string -> string -> A -> A) (t before rest : string) (acc : A) :
  quiet f -> atom_text t ->
  scan f before None 0 (t +:+ rest) acc = scan f (rev_onto t before) None 0 rest acc.
Proof.
  intros Hf Ht. destruct Ht as [t c t' -> Hs Hi Hn|s|t Hd Hs].
  - apply scan_safe; [done|done|]. right. split; [done|apply Hn].
  - apply scan_quote.
  - apply scan_group; [done|lia].
Qed.

Lemma deep_ok_atom (t : string) : atom_text t -> deep_ok t.
Proof.
  intros Ht. destruct Ht as [t c t' _ Hs _ _|s|t Hd _].
  - apply deep_ok_plain. eapply str_forallb_impl; [|exact Hs]. intros x Hx. by apply safe_facts.
  - apply deep_ok_quote.
  - by apply deep_ok_group.
Qed.

Lemma solid_ends_group (t : string) : solid_ends (group t).
Proof.
  unfold group. split; [eexists _, _; split; [simpl; reflexivity|done]|].
  exists ")"%char, ("(" +:+ t). split; [by rewrite str_app_assoc|done].
Qed.

Lemma str_last_split (c : ascii) (s : string) :
  exists s' d, String c s = s' +:+ String d "" /\ (forall p, str_forallb p (String c s) = true -> p d = true).
Proof.
  revert c; induction s as [|c' s IH]; intros c.
  - exists "", c. split; [done|]. intros p. simpl. by rewrite andb_true_r.
  - destruct (IH c') as (s' & d & E & Hd). exists (String c s'), d. split; [simpl; by rewrite <- E|].
    intros p Hp. apply Hd. simpl in Hp. apply andb_true_iff in Hp as [_ Hp]. exact Hp.
Qed.

Lemma solid_ends_atom (t : string) : atom_text t -> solid_ends t.
Proof.
  intros Ht. destruct Ht as [t c t' -> Hs _ _|s|t _ _]; [| |apply solid_ends_group].
  - split.
    + exists c, t'. split; [done|]. simpl in Hs. apply andb_true_iff in Hs as [Hc _].
      by apply safe_facts.
    + destruct (str_last_split c t') as (s' & d & E & Hd). exists d, s'. split; [done|].
      apply safe_facts. by apply Hd.
  - unfold quote. split; [by exists DQUOTE, (escape s +:+ String DQUOTE "")|].
    by exists DQUOTE, (String DQUOTE (escape s)).
Qed.

(** ** The callbacks *)

Lemma starts_with_head (a c : ascii) (s t : string) :
  Ascii.eqb c a = false -> starts_with (String a t) (String c s) = false.
Proof. intros E. unfold starts_with. simpl. by rewrite Ascii.eqb_sym, E. Qed.

Lemma safe_no_op (c : ascii) (s op : string) :
  safe c = true ->
  match op with String a _ => In a ["&"; "|"; "="; "!"; ">"; "<"]%char | EmptyString => False end ->
  starts_with op (String c s) = false.
Proof.
  intros Hc Hop. destruct op as [|a op]; [done|]. apply starts_with_head.
  destruct (safe_facts c Hc) as (_ & _ & _ & He).
  destruct (Ascii.eqb c a) eqn:E; [|done]. apply Ascii.eqb_eq in E as ->.
  apply not_true_iff_false in He. exfalso. apply He, existsb_exists. exists a.
  by rewrite Ascii.eqb_refl.
Qed.

Definition logical_step (before rest : string) (p : option nat * option nat)
  : option nat * option nat :=
  let '(best_and, best_or) := p in
  if starts_with "&&" rest then (Some (String.length before), best_or)
  else if starts_with "||" rest then (best_and, Some (String.length before))
  else (best_and, best_or).

Lemma logical_step_safe (c : ascii) (before rest : string) p :
  safe c = true -> logical_step before (String c rest) p = p.
Proof.
  intros Hc. destruct p as [a o]. unfold logical_step.
  rewrite !safe_no_op by (try done; simpl; tauto). done.
Qed.

Lemma quiet_logical : quiet logical_step.
Proof. intros c before rest acc Hc _. by apply logical_step_safe. Qed.

Definition operator_step (op before rest : string) (found : option nat) : option nat :=
  match found with
  | Some _ => found
  | None =>
      if starts_with op rest then
        if ((op =s ">") || (op =s "<")) && starts_with "=" (str_drop 1 rest) then None
        else if (op =s "=") && existsb (char_is (first_char before)) ["!"; "="; ">"; "<"]%char
        then None
        else Some (String.length before)
      else None
  end.

Lemma quiet_operator (op : CompareOp.t) : quiet (operator_step (CompareOp.as_str op)).
Proof.
  intros c before rest [p|] Hc _; [done|]. unfold operator_step.
  rewrite safe_no_op; [done|done|]. destruct op; simpl; tauto.
Qed.

Definition keyword_step (keyword before rest : string) (found : option nat) : option nat :=
  match found with
  | Some _ => found
  | None =>
      if starts_with keyword rest && starts_ws before
         && starts_ws (str_drop (String.length keyword) rest)
      then Some (String.length before) else None
  end.

Lemma quiet_keyword (op : MembershipOp.t) : quiet (keyword_step (membership_str op)).
Proof.
  intros c before rest [p|] Hc Hb; [done|]. unfold keyword_step.
  destruct Hb as [(b & bs & -> & Hb)|[Hi Hn]].
  - simpl. by rewrite Hb, andb_false_r.
  - assert (E : starts_with (membership_str op) (String c rest) = false); [|by rewrite E].
    destruct op; simpl.
    + apply starts_with_head. by apply Ascii.eqb_neq.
    + destruct (starts_with "not in" (String c rest)) eqn:E; [|done].
      apply starts_with_spec in E as [r E]. rewrite E in Hn. discriminate.
Qed.

(** ** Printed text, level by level *)

Abbreviation logical_scan before s acc := (scan logical_step before None 0 s acc).

(** No top-level logical operator; at most conjunctions; anything. *)
Definition log_quiet (t : string) : Prop := forall before rest acc,
  logical_scan before (t +:+ rest) acc = logical_scan (rev_onto t before) rest acc.
Definition and_quiet (t : string) : Prop := forall before rest a o, exists a',
  logical_scan before (t +:+ rest) (a, o) = logical_scan (rev_onto t before) rest (a', o).
Definition or_any (t : string) : Prop := forall before rest acc, exists acc',
  logical_scan before (t +:+ rest) acc = logical_scan (rev_onto t before) rest acc'.

Lemma log_and (t : string) : log_quiet t -> and_quiet t.
Proof. intros Ht before rest a o. exists a. apply Ht. Qed.

Lemma and_or (t : string) : and_quiet t -> or_any t.
Proof. intros Ht before rest [a o]. destruct (Ht before rest a o) as [a' ->]. by eexists. Qed.

Lemma log_quiet_atom (t : string) : atom_text t -> log_quiet t.
Proof. intros Ht before rest acc. apply scan_atom; [apply quiet_logical|done]. Qed.

Lemma infix_app (l op r rest : string) :
  infix l op r +:+ rest = l +:+ (" " +:+ op +:+ " " +:+ (r +:+ rest)).
Proof. unfold infix. by rewrite <- !str_app_assoc. Qed.

Lemma rev_onto_infix (l op r before : string) :
  rev_onto (infix l op r) before = rev_onto r (rev_onto (" " +:+ op +:+ " ") (rev_onto l before)).
Proof. unfold infix. by rewrite !rev_onto_app. Qed.

Lemma log_quiet_infix (l op r : string) :
  log_quiet l -> log_quiet r ->
  In op ["=="; "!="; ">"; "<"; ">="; "<="; "in"; "not in"] -> log_quiet (infix l op r).
Proof.
  intros Hl Hr Hop before rest [a o]. rewrite infix_app, rev_onto_infix, Hl.
  simpl in Hop. repeat (destruct Hop as [<-|Hop]; [by cbn; rewrite Hr|]). done.
Qed.

Lemma and_scan (l r before rest : string) (a o : option nat) :
  and_quiet l -> log_quiet r ->
  logical_scan before (infix l "&&" r +:+ rest) (a, o)
  = logical_scan (rev_onto (infix l "&&" r) before) rest
      (Some (S (String.length l + String.length before)), o).
Proof.
  intros Hl Hr. rewrite infix_app, rev_onto_infix. destruct (Hl before (" " +:+ "&&" +:+ " " +:+ (r +:+ rest)) a o) as [a' ->].
  cbn. rewrite Hr. by rewrite rev_onto_length.
Qed.

Lemma or_scan (l r before rest : string) acc :
  or_any l -> and_quiet r -> exists a',
  logical_scan before (infix l "||" r +:+ rest) acc
  = logical_scan (rev_onto (infix l "||" r) before) rest
      (a', Some (S (String.length l + String.length before))).
Proof.
  intros Hl Hr. rewrite infix_app, rev_onto_infix.
  destruct (Hl before (" " +:+ "||" +:+ " " +:+ (r +:+ rest)) acc) as [[a o] ->]. cbn.
  destruct (Hr (String " " (String "|" (String "|" (String " " (rev_onto l before))))) rest a
    (Some (S (String.length (rev_onto l before))))) as [a' ->].
  exists a'. by rewrite rev_onto_length.
Qed.

Lemma deep_ok_infix (l op r : string) :
  deep_ok l -> deep_ok r -> str_forallb plain op = true -> deep_ok (infix l op r).
Proof.
  intros Hl Hr Hop. unfold infix.
  repeat (apply deep_ok_app; [try done|]); try done; try by apply deep_ok_plain.
Qed.

Lemma solid_ends_infix (l op r : string) : solid_ends l -> solid_ends r -> solid_ends (infix l op r).
Proof.
  intros Hl Hr. unfold infix. rewrite (str_app_assoc " " op), (str_app_assoc _ " " r).
  by apply solid_ends_app.
Qed.

(** The operands of an infix text. *)
Lemma infix_operands (l op r : string) :
  solid_ends l -> solid_ends r ->
  trim (str_take (S (String.length l)) (infix l op r)) = l
  /\ trim (str_drop (S (String.length l) + String.length op) (infix l op r)) = r.
Proof.
  intros Hl Hr. unfold infix. split.
  - rewrite (str_app_assoc l " "). replace (S (String.length l)) with (String.length (l +:+ " "))
      by (rewrite str_length_app; simpl; lia).
    rewrite str_take_app. by apply trim_space_after.
  - rewrite (str_app_assoc l " "), (str_app_assoc (l +:+ " ") op).
    replace (S (String.length l) + String.length op) with (String.length ((l +:+ " ") +:+ op))
      by (rewrite !str_length_app; simpl; lia).
    rewrite str_drop_app, trim_space_before. by apply trim_solid.
Qed.

(** ** Words *)

Lemma join_segments (p : list string) :
  Forall (fun s => s <> "" /\ str_forallb seg_char s = true) p ->
  str_forallb safe (join "." p) = true.
Proof.
  induction 1 as [|s p [Hne Hs] Hp IH]; [done|].
  assert (Hss : str_forallb safe s = true) by (eapply str_forallb_impl; [apply seg_char_safe|done]).
  destruct p as [|s' p]; [done|]. change (join "." (s :: s' :: p)) with (s +:+ "." +:+ join "." (s' :: p)).
  rewrite !str_forallb_app, Hss, IH. done.
Qed.
