(* ===== verification/ExprProps.v ===== *)
(** The properties of the expression language: the parser always answers
    within its fuel, reads back what the printer writes - which fixes
    precedence and associativity - and the evaluator short-circuits. *)

From stdpp Require Import pretty.
From S2P Require Import Prelude Text Expr ExprFacts.

(** ** Printed operands *)

Lemma digit_facts (c : ascii) :
  is_ascii_digit c = true -> safe c = true /\ c <> "i"%char /\ Ascii.eqb c "n" = false
    /\ Ascii.eqb c "-" = false /\ Ascii.eqb c "+" = false.
Proof.
  destruct c as [[] [] [] [] [] [] [] []]; try (vm_compute; discriminate); intros _;
    repeat split; try reflexivity; discriminate.
Qed.

Lemma sign_digit (c : ascii) (t : string) :
  is_ascii_digit c = true -> sign (String c t) = (false, String c t).
Proof.
  intros Hc. destruct (digit_facts c Hc) as (_ & _ & _ & Hm & Hp).
  destruct c as [[] [] [] [] [] [] [] []]; vm_compute in Hm, Hp; try discriminate; reflexivity.
Qed.

Lemma print_number_word (z : Z) :
  (- 2 ^ 63 <= z < 2 ^ 63)%Z ->
  let t := print_number (number_of_i64 z) in
  parse_i64 t = Some z /\ atom_text t
  /\ (exists c t', t = String c t' /\ safe c = true).
Proof.
  intros Hz t. subst t. unfold number_of_i64.
  assert (Hrange : forall x, x = z -> ((- 2 ^ 63 <=? x)%Z && (x <? 2 ^ 63)%Z) = true).
  { intros x ->. apply andb_true_iff. split; [apply Z.leb_le|apply Z.ltb_lt]; lia. }
  destruct (0 <=? z)%Z eqn:E; simpl.
  - apply Z.leb_le in E. destruct (pretty_N_word (Z.to_N z)) as (c & t & Et & Hd & Hv).
    rewrite Et in *. simpl in Hd. apply andb_true_iff in Hd as [Hc Ht].
    destruct (digit_facts c Hc) as (Hs & Hi & Hn & _ & _). split; [|split; [|eauto]].
    + unfold parse_i64, digits. rewrite sign_digit by done. simpl is_empty. cbv iota. rewrite Hv.
      rewrite Z2N.id by done. by rewrite Hrange.
    + eapply (atom_word _ c t); [done| |done|intros; by apply starts_with_head].
      simpl. rewrite Hs. eapply str_forallb_impl; [|exact Ht]. intros x Hx. by apply digit_facts.
  - apply Z.leb_gt in E. destruct (pretty_N_word (Z.to_N (- z))) as (c & t & Et & Hd & Hv).
    split; [|split; [|eexists _, _; split; [reflexivity|done]]].
    + unfold parse_i64, digits. cbn [sign String.append]. rewrite Et in *. simpl is_empty. cbv iota.
      rewrite Hv. rewrite Z2N.id by lia. rewrite Z.opp_involutive. by rewrite Hrange.
    + eapply (atom_word _ "-"%char (pretty (Z.to_N (- z)))); [done| |done|intros; by apply starts_with_head].
      simpl. eapply str_forallb_impl; [|exact Hd]. intros x Hx. by apply digit_facts.
Qed.

Lemma split_join (p : list string) :
  p <> [] -> Forall (fun s => str_forallb (fun a => negb (Ascii.eqb a ".")) s = true) p ->
  split "." (join "." p) = p.
Proof.
  intros Hne Hp. induction Hp as [|s p Hs Hp IH]; [done|].
  destruct p as [|s' p]; [by apply split_no_sep|].
  change (join "." (s :: s' :: p)) with (s +:+ String "." (join "." (s' :: p))).
  rewrite split_app_sep by done. by rewrite IH.
Qed.

Lemma unescape_escape (s : string) : unescape_string_literal (escape s) = Ok s.
Proof.
  induction s as [|c s IH]; [done|]. simpl.
  destruct (Ascii.eqb c DQUOTE || Ascii.eqb c BACKSLASH) eqn:E.
  - apply orb_true_iff in E as [E|E]; apply Ascii.eqb_eq in E as ->; simpl; by rewrite IH.
  - apply orb_false_iff in E as [_ E]. simpl. rewrite E. simpl. by rewrite IH.
Qed.

Lemma strip_not_paren (c : ascii) (s : string) :
  Ascii.eqb c "(" = false -> strip_outer_parens (String c s) = None.
Proof. intros E. unfold strip_outer_parens. simpl. by rewrite E. Qed.

Section RoundTrip.
Context `{JsonCrate}.

(** Operand text has no operator at the top: it is parsed as an atom. *)
Lemma parse_expr_atom (t : string) : atom_text t -> parse_expr t = parse_atom parse_expr t.
Proof.
  intros Ht. pose proof (solid_ends_atom t Ht) as Hs.
  assert (Hscan : forall A (f : string -> string -> A -> A) acc, quiet f -> scan f "" None 0 t acc = acc).
  { intros A f acc Hf. pose proof (scan_atom f t "" "" acc Hf Ht) as E.
    by rewrite str_app_nil_r in E. }
  assert (Hl : logical_positions t = (None, None)) by (apply (Hscan _ logical_step), quiet_logical).
  assert (Hc : forall op, find_operator t (CompareOp.as_str op) = None).
  { intros op. apply (Hscan _ (operator_step (CompareOp.as_str op))), quiet_operator. }
  assert (Hk : forall op, find_keyword t (membership_str op) = None).
  { intros op. apply (Hscan _ (keyword_step (membership_str op))), quiet_keyword. }
  rewrite parse_expr_eq. unfold parse_step. rewrite (trim_solid t Hs).
  destruct Hs as [(a & t' & Et & _) _]. rewrite Et at 1. simpl is_empty. cbv iota.
  unfold try_parse_logical. rewrite Hl. simpl result_bind.
  unfold compare_ops. cbn [try_parse_comparison].
  rewrite (Hc CompareOp.Eq : find_operator t "==" = None),
    (Hc CompareOp.Ne : find_operator t "!=" = None), (Hc CompareOp.Ge : find_operator t ">=" = None),
    (Hc CompareOp.Le : find_operator t "<=" = None), (Hc CompareOp.Gt : find_operator t ">" = None),
    (Hc CompareOp.Lt : find_operator t "<" = None). simpl result_bind.
  unfold try_parse_membership. rewrite (Hk MembershipOp.NotIn : find_keyword t "not in" = None),
    (Hk MembershipOp.In : find_keyword t "in" = None). done.
Qed.

Lemma parse_atom_path (p : list string) :
  wf_expr (Path p) -> atom_text (print 0 (Path p)) /\ parse_atom parse_expr (print 0 (Path p)) = Ok (Path p).
Proof.
  intros [Hne Hp]. change (print 0 (Path p)) with ("$." +:+ join "." p).
  assert (Ha : atom_text ("$." +:+ join "." p)).
  { eapply (atom_word _ "$"%char); [simpl; reflexivity| |done|intros; by apply starts_with_head].
    simpl. by apply join_segments. }
  split; [done|]. unfold parse_atom. rewrite (trim_solid _ (solid_ends_atom _ Ha)).
  assert (Hst : strip_outer_parens ("$." +:+ join "." p) = None) by (by apply strip_not_paren).
  rewrite Hst, starts_with_app. unfold parse_path. rewrite starts_with_app.
  change (str_drop 2 ("$." +:+ join "." p)) with (join "." p). cbv iota. simpl negb. cbv iota.
  assert (Hsp : split "." (join "." p) = p).
  { apply split_join; [done|]. eapply Forall_impl; [exact Hp|]. intros s [_ Hs].
    eapply str_forallb_impl; [|exact Hs]. intros c. by destruct c as [[] [] [] [] [] [] [] []]. }
  destruct (is_empty (join "." p)) eqn:E.
  { apply is_empty_spec in E. rewrite E in Hsp. subst p. by inversion_clear Hp as [|? ? [? _]]. }
  rewrite Hsp. destruct (existsb is_empty p) eqn:E2; [|done].
  apply existsb_exists in E2 as (s & Hin & Hs). apply is_empty_spec in Hs as ->.
  rewrite Forall_forall in Hp. destruct (Hp "") as [? _]; [by apply list_elem_of_In|done].
Qed.

Lemma parse_atom_literal (v : Value) :
  wf_value v -> atom_text (print_value v) /\ parse_atom parse_expr (print_value v) = Ok (Literal v).
Proof.
  assert (Hword : forall c t, safe c = true -> c <> "i"%char ->
    (forall rest, starts_with "not" (String c t +:+ rest) = false) ->
    str_forallb safe t = true -> atom_text (String c t)).
  { intros c t Hc Hi Hn Ht. eapply (atom_word _ c t); [done| |done|done]. simpl. by rewrite Hc. }
  destruct v as [|b|n|s|l|l]; simpl; intros Hv; try done.
  - split; [by apply Hword|done].
  - destruct b; (split; [by apply Hword|done]).
  - destruct Hv as (z & Hz & ->).
    destruct (print_number_word z Hz) as (Hp & Ha & c & t & Et & Hc). split; [done|].
    unfold parse_atom. rewrite (trim_solid _ (solid_ends_atom _ Ha)).
    destruct (safe_facts c Hc) as (Hpl & _). apply plain_facts in Hpl as (Hq & Ho & _).
    rewrite Et in *. rewrite strip_not_paren by done.
    assert (Hdollar : Ascii.eqb c "$" = false).
    { destruct (Ascii.eqb c "$") eqn:E; [|done]. apply Ascii.eqb_eq in E as ->. discriminate. }
    rewrite starts_with_head by done. unfold parse_literal, quoted_by. simpl (char_is (first_char _) _).
    unfold is_quote in Hq. apply orb_false_iff in Hq as [-> ->]. rewrite !andb_false_r. simpl orb. cbv iota.
    repeat match goal with
    | |- context [String c t =s ?w] =>
        destruct (String c t =s w) eqn:?; [exfalso; bool_to_prop;
          match goal with E : String c t = _ |- _ => rewrite E in Hp; discriminate end|]
    end. by rewrite Hp.
  - split; [apply atom_string|]. unfold parse_atom.
    rewrite (trim_solid _ (solid_ends_atom _ (atom_string s))). unfold quote.
    rewrite strip_not_paren by done. rewrite starts_with_head by done.
    unfold parse_literal, quoted_by.
    change (String DQUOTE (escape s +:+ String DQUOTE "")) with (String DQUOTE (escape s) +:+ String DQUOTE "").
    rewrite last_char_app, str_length_app. simpl String.length. rewrite Nat.add_1_r. simpl.
    rewrite Nat.sub_0_r, str_take_app. by rewrite unescape_escape.
Qed.

(** ** Printed text *)

Record text_ok (t : string) : Prop := { to_deep : deep_ok t; to_ends : solid_ends t }.

Lemma text_ok_atom (t : string) : atom_text t -> text_ok t.
Proof. intros Ht. split; [by apply deep_ok_atom|by apply solid_ends_atom]. Qed.

Lemma text_ok_infix (l op r : string) :
  text_ok l -> text_ok r -> str_forallb plain op = true -> text_ok (infix l op r).
Proof. intros [? ?] [? ?] ?. split; [by apply deep_ok_infix|by apply solid_ends_infix]. Qed.

Lemma atom_group_text (t : string) : text_ok t -> atom_text (group t).
Proof. intros [? ?]. by apply atom_group. Qed.

(** What the levels promise to the logical scan. *)
Record levels_ok (e : Expr) : Prop := {
  lo_text : text_ok (print 3 e);
  lo_atom : atom_text (print 0 e);
  lo_cmp : text_ok (print 1 e) /\ log_quiet (print 1 e);
  lo_and : text_ok (print 2 e) /\ and_quiet (print 2 e);
  lo_or : or_any (print 3 e)
}.

Lemma compare_str_in (op : CompareOp.t) :
  In (CompareOp.as_str op) ["=="; "!="; ">"; "<"; ">="; "<="; "in"; "not in"].
Proof. destruct op; simpl; tauto. Qed.

Lemma membership_str_in (op : MembershipOp.t) :
  In (membership_str op) ["=="; "!="; ">"; "<"; ">="; "<="; "in"; "not in"].
Proof. destruct op; simpl; tauto. Qed.

Lemma levels_ok_atom (e : Expr) (t : string) :
  (forall lvl, print lvl e = t) -> atom_text t -> levels_ok e.
Proof.
  intros He Ht. pose proof (text_ok_atom t Ht). pose proof (log_quiet_atom t Ht).
  split; rewrite ?He; auto using log_and, and_or.
Qed.

Lemma levels_ok_infix (e : Expr) (l op r : string) :
  print 0 e = group (infix l op r) -> (forall n, print (S n) e = infix l op r) ->
  atom_text l -> atom_text r -> str_forallb plain op = true ->
  In op ["=="; "!="; ">"; "<"; ">="; "<="; "in"; "not in"] -> levels_ok e.
Proof.
  intros H0 Hn Hl Hr Hop Hin.
  assert (Ht : text_ok (infix l op r)) by (apply text_ok_infix; auto using text_ok_atom).
  assert (Hq : log_quiet (infix l op r)) by (apply log_quiet_infix; auto using log_quiet_atom).
  split; rewrite ?H0, ?Hn; auto using log_and, and_or, atom_group_text.
Qed.

Lemma levels_ok_and (l r : Expr) : levels_ok l -> levels_ok r -> levels_ok (Logical l LogicalOp.And r).
Proof.
  intros [_ _ _ [Hlt Hla] _] [_ _ [Hrt Hrq] _ _].
  assert (Ht : text_ok (infix (print 2 l) "&&" (print 1 r))) by (by apply text_ok_infix).
  assert (Hq : and_quiet (infix (print 2 l) "&&" (print 1 r))).
  { intros before rest a o. eexists. by apply and_scan. }
  assert (Hg : atom_text (group (infix (print 2 l) "&&" (print 1 r)))) by (by apply atom_group_text).
  split; simpl; auto using text_ok_atom, log_quiet_atom, and_or.
Qed.

Lemma levels_ok_or (l r : Expr) : levels_ok l -> levels_ok r -> levels_ok (Logical l LogicalOp.Or r).
Proof.
  intros [Hlt _ _ _ Hlo] [_ _ _ [Hrt Hra] _].
  assert (Ht : text_ok (infix (print 3 l) "||" (print 2 r))) by (by apply text_ok_infix).
  assert (Hg : atom_text (group (infix (print 3 l) "||" (print 2 r)))) by (by apply atom_group_text).
  split; simpl; auto using text_ok_atom, log_quiet_atom, log_and.
  intros before rest acc. destruct (or_scan (print 3 l) (print 2 r) before rest acc Hlo Hra) as [a' ->].
  by eexists.
Qed.

Lemma levels_ok_all (e : Expr) : wf_expr e -> levels_ok e.
Proof.
  induction e as [p|v|l IHl op r IHr|l IHl op r IHr|l IHl op r IHr]; intros Hw.
  - destruct (parse_atom_path p Hw) as [Ha _]. by apply (levels_ok_atom _ (print 0 (Path p))).
  - destruct (parse_atom_literal v Hw) as [Ha _]. by apply (levels_ok_atom _ (print_value v)).
  - destruct Hw as [Hl Hr]. destruct (IHl Hl), (IHr Hr).
    eapply (levels_ok_infix _ (print 0 l) (CompareOp.as_str op) (print 0 r)); try done.
    + by destruct op.
    + apply compare_str_in.
  - destruct Hw as [Hl Hr]. destruct op; [apply levels_ok_and|apply levels_ok_or]; auto.
  - destruct Hw as [Hl Hr]. destruct (IHl Hl), (IHr Hr).
    eapply (levels_ok_infix _ (print 0 l) (membership_str op) (print 0 r)); try done.
    + by destruct op.
    + apply membership_str_in.
Qed.

(** ** Reading it back *)

Lemma parse_atom_group (t : string) :
  text_ok t -> parse_atom parse_expr (group t) = parse_expr t.
Proof.
  intros [Hd Hs]. unfold parse_atom. rewrite (trim_solid _ (solid_ends_group t)).
  rewrite strip_group by done. destruct Hs as [(a & s & -> & _) _]. done.
Qed.

(** Wherever it is printed, an expression that reads back at the outermost
    level reads back. *)
Lemma parse_any_level (e : Expr) (lvl : nat) :
  levels_ok e -> parse_expr (print 3 e) = Ok e ->
  parse_atom parse_expr (print 0 e) = Ok e ->
  (print lvl e = print 3 e \/ print lvl e = print 0 e) -> parse_expr (print lvl e) = Ok e.
Proof.
  intros Hl H3 H0 [->| ->]; [done|]. by rewrite parse_expr_atom by apply (lo_atom _ Hl).
Qed.

Lemma print_level (e : Expr) (lvl : nat) : print lvl e = print 3 e \/ print lvl e = print 0 e.
Proof.
  destruct e as [p|v|l op r|l [|] r|l op r]; simpl; auto;
    destruct lvl as [|[|[|lvl]]]; auto.
Qed.

Lemma logical_positions_quiet (t : string) : log_quiet t -> logical_positions t = (None, None).
Proof.
  intros Ht. pose proof (Ht "" "" (None, None)) as E. rewrite str_app_nil_r in E. exact E.
Qed.

Lemma find_operator_skip (tok l op r : string) :
  quiet (operator_step tok) -> atom_text l ->
  find_operator (infix l op r) tok
  = scan (operator_step tok) (rev_onto l "") None 0 (" " +:+ op +:+ " " +:+ r) None.
Proof.
  intros Hq Hl. unfold find_operator, for_each_unquoted, infix. by rewrite (scan_atom (operator_step tok)).
Qed.

Lemma find_keyword_skip (kw l op r : string) :
  quiet (keyword_step kw) -> atom_text l ->
  find_keyword (infix l op r) kw
  = scan (keyword_step kw) (rev_onto l "") None 0 (" " +:+ op +:+ " " +:+ r) None.
Proof.
  intros Hq Hl. unfold find_keyword, for_each_unquoted, infix. by rewrite (scan_atom (keyword_step kw)).
Qed.

Lemma scan_end {A} (f : string -> string -> A -> A) (t before : string) (acc : A) :
  quiet f -> atom_text t -> scan f before None 0 t acc = acc.
Proof.
  intros Hf Ht. pose proof (scan_atom f t before "" acc Hf Ht) as E. by rewrite str_app_nil_r in E.
Qed.

(** The operator between two operands is the first token found. *)
Lemma comparison_infix (l r : string) (op : CompareOp.t) :
  atom_text l -> atom_text r ->
  try_parse_comparison parse_expr compare_ops (infix l (CompareOp.as_str op) r)
  = let? x := parse_atom parse_expr l in
    let? y := parse_atom parse_expr r in Ok (Some (Compare x op y)).
Proof.
  intros Hl Hr.
  destruct (infix_operands l (CompareOp.as_str op) r) as [Et Ed]; [by apply solid_ends_atom..|].
  assert (Hne : is_empty l = false /\ is_empty r = false).
  { split; [destruct (solid_ends_atom l Hl) as [(? & ? & -> & _) _]
           |destruct (solid_ends_atom r Hr) as [(? & ? & -> & _) _]]; done. }
  destruct Hne as [Nl Nr].
  assert (Hmiss : forall tried, In (tried, op)
     [(CompareOp.Eq, CompareOp.Ne); (CompareOp.Eq, CompareOp.Ge); (CompareOp.Eq, CompareOp.Le);
      (CompareOp.Eq, CompareOp.Gt); (CompareOp.Eq, CompareOp.Lt); (CompareOp.Ne, CompareOp.Ge);
      (CompareOp.Ne, CompareOp.Le); (CompareOp.Ne, CompareOp.Gt); (CompareOp.Ne, CompareOp.Lt);
      (CompareOp.Ge, CompareOp.Le); (CompareOp.Ge, CompareOp.Gt); (CompareOp.Ge, CompareOp.Lt);
      (CompareOp.Le, CompareOp.Gt); (CompareOp.Le, CompareOp.Lt); (CompareOp.Gt, CompareOp.Lt)] ->
     find_operator (infix l (CompareOp.as_str op) r) (CompareOp.as_str tried) = None).
  { intros tried Hin. rewrite find_operator_skip by (apply quiet_operator || done).
    pose proof (scan_end (operator_step (CompareOp.as_str tried)) r) as Hend.
    simpl in Hin. repeat destruct Hin as [Hin|Hin]; simplify_eq; try done;
      cbn; apply Hend; (apply quiet_operator || done). }
  assert (Hhit : find_operator (infix l (CompareOp.as_str op) r) (CompareOp.as_str op)
                 = Some (S (String.length l))).
  { rewrite find_operator_skip by (apply quiet_operator || done).
    pose proof (scan_end (operator_step (CompareOp.as_str op)) r) as Hend.
    destruct op; cbn; rewrite Hend by (apply quiet_operator || done); f_equal;
      by rewrite rev_onto_length, Nat.add_0_r. }
  assert (Hgo : forall ops, try_parse_comparison parse_expr ((CompareOp.as_str op, op) :: ops)
                  (infix l (CompareOp.as_str op) r)
                = let? x := parse_atom parse_expr l in
                  let? y := parse_atom parse_expr r in Ok (Some (Compare x op y))).
  { intros ops. cbn [try_parse_comparison]. rewrite Hhit, Et, Ed, Nl, Nr. done. }
  assert (Hskip : forall tried ops, find_operator (infix l (CompareOp.as_str op) r)
      (CompareOp.as_str tried) = None ->
    try_parse_comparison parse_expr ((CompareOp.as_str tried, tried) :: ops)
      (infix l (CompareOp.as_str op) r)
    = try_parse_comparison parse_expr ops (infix l (CompareOp.as_str op) r)).
  { intros tried ops E. cbn [try_parse_comparison]. by rewrite E. }
  change compare_ops with (map (fun o => (CompareOp.as_str o, o))
    [CompareOp.Eq; CompareOp.Ne; CompareOp.Ge; CompareOp.Le; CompareOp.Gt; CompareOp.Lt]).
  cbn [map]. destruct op; repeat (rewrite Hskip by (apply Hmiss; simpl; tauto)); apply Hgo.
Qed.

Lemma no_comparison (l r : string) (op : MembershipOp.t) :
  atom_text l -> atom_text r ->
  try_parse_comparison parse_expr compare_ops (infix l (membership_str op) r) = Ok None.
Proof.
  intros Hl Hr.
  assert (Hmiss : forall tried,
    find_operator (infix l (membership_str op) r) (CompareOp.as_str tried) = None).
  { intros tried. rewrite find_operator_skip by (apply quiet_operator || done).
    pose proof (scan_end (operator_step (CompareOp.as_str tried)) r) as Hend.
    destruct op, tried; cbn; apply Hend; (apply quiet_operator || done). }
  unfold compare_ops. cbn [try_parse_comparison].
  rewrite (Hmiss CompareOp.Eq : find_operator _ "==" = None),
    (Hmiss CompareOp.Ne : find_operator _ "!=" = None), (Hmiss CompareOp.Ge : find_operator _ ">=" = None),
    (Hmiss CompareOp.Le : find_operator _ "<=" = None), (Hmiss CompareOp.Gt : find_operator _ ">" = None),
    (Hmiss CompareOp.Lt : find_operator _ "<" = None). done.
Qed.

Lemma membership_infix (l r : string) (op : MembershipOp.t) :
  atom_text l -> atom_text r ->
  try_parse_membership parse_expr (infix l (membership_str op) r)
  = let? x := parse_atom parse_expr l in
    let? y := parse_atom parse_expr r in Ok (Some (Membership x op y)).
Proof.
  intros Hl Hr.
  destruct (infix_operands l (membership_str op) r) as [Et Ed]; [by apply solid_ends_atom..|].
  assert (Nl : is_empty l = false) by (destruct (solid_ends_atom l Hl) as [(? & ? & -> & _) _]; done).
  assert (Nr : is_empty r = false) by (destruct (solid_ends_atom r Hr) as [(? & ? & -> & _) _]; done).
  assert (Hhit : find_keyword (infix l (membership_str op) r) (membership_str op)
                 = Some (S (String.length l))).
  { rewrite find_keyword_skip by (apply quiet_keyword || done).
    pose proof (scan_end (keyword_step (membership_str op)) r) as Hend.
    destruct op; cbn; rewrite Hend by (apply quiet_keyword || done); f_equal;
      by rewrite rev_onto_length, Nat.add_0_r. }
  assert (Hmiss : op = MembershipOp.In -> find_keyword (infix l (membership_str op) r) "not in" = None).
  { intros ->. rewrite (find_keyword_skip "not in") by (apply (quiet_keyword MembershipOp.NotIn) || done).
    cbn. apply (scan_end (keyword_step "not in")); [apply (quiet_keyword MembershipOp.NotIn)|done]. }
  unfold try_parse_membership, membership_at. destruct op.
  - rewrite Hmiss by done. rewrite (Hhit : find_keyword _ "in" = _).
    change (String.length "in") with (String.length (membership_str MembershipOp.In)).
    by rewrite Et, Ed, Nl, Nr.
  - rewrite (Hhit : find_keyword _ "not in" = _).
    change (String.length "not in") with (String.length (membership_str MembershipOp.NotIn)).
    by rewrite Et, Ed, Nl, Nr.
Qed.

(** The logical operators, split at the right place. *)
Lemma logical_infix (l r : string) (op : LogicalOp.t) :
  text_ok l -> text_ok r ->
  match op with
  | LogicalOp.And => and_quiet l /\ log_quiet r
  | LogicalOp.Or => or_any l /\ and_quiet r
  end ->
  parse_expr (infix l (logical_str op) r)
  = let? x := parse_expr l in let? y := parse_expr r in Ok (Logical x op y).
Proof.
  intros [_ Hl] [_ Hr] Hq.
  assert (Hs : solid_ends (infix l (logical_str op) r)) by (by apply solid_ends_infix).
  destruct (infix_operands l (logical_str op) r Hl Hr) as [Et Ed].
  rewrite parse_expr_eq. unfold parse_step. rewrite (trim_solid _ Hs).
  assert (Ne : is_empty (infix l (logical_str op) r) = false)
    by (destruct Hs as [(? & ? & -> & _) _]; done).
  assert (Nl : is_empty l = false) by (destruct Hl as [(? & ? & -> & _) _]; done).
  assert (Nr : is_empty r = false) by (destruct Hr as [(? & ? & -> & _) _]; done).
  rewrite Ne. unfold try_parse_logical.
  assert (Hp : exists a, logical_positions (infix l (logical_str op) r)
    = match op with
      | LogicalOp.And => (Some (S (String.length l)), None)
      | LogicalOp.Or => (a, Some (S (String.length l)))
      end).
  { destruct op, Hq as [Ha Hb].
    - exists None. pose proof (and_scan l r "" "" None None Ha Hb) as E.
      rewrite str_app_nil_r, Nat.add_0_r in E. exact E.
    - destruct (or_scan l r "" "" (None, None) Ha Hb) as [a E].
      rewrite str_app_nil_r, Nat.add_0_r in E. by exists a. }
  destruct Hp as [a ->].
  destruct op; unfold logical_str in *;
    [change (String.length "&&") with 2 in Ed|change (String.length "||") with 2 in Ed];
    cbv beta iota zeta; rewrite Et, Ed, Nl, Nr; destruct (parse_expr l); simpl; try done;
    by destruct (parse_expr r).
Qed.

(** An infix text of operands without logical operator: the comparison or the
    membership test decides. *)
Lemma parse_infix_leaf (l op r : string) (e : Expr) :
  text_ok (infix l op r) -> log_quiet (infix l op r) ->
  (try_parse_comparison parse_expr compare_ops (infix l op r) = Ok (Some e)
   \/ try_parse_comparison parse_expr compare_ops (infix l op r) = Ok None
      /\ try_parse_membership parse_expr (infix l op r) = Ok (Some e)) ->
  parse_expr (infix l op r) = Ok e.
Proof.
  intros [_ Hs] Hq Hor. rewrite parse_expr_eq. unfold parse_step. rewrite (trim_solid _ Hs).
  assert (Ne : is_empty (infix l op r) = false) by (destruct Hs as [(? & ? & -> & _) _]; done).
  assert (Hlog : try_parse_logical parse_expr (infix l op r) = Ok None)
    by (unfold try_parse_logical; by rewrite (logical_positions_quiet _ Hq)).
  rewrite Ne, Hlog. unfold result_bind at 1. destruct Hor as [->|[-> ->]]; done.
Qed.

(** Everything printed reads back, at the outermost level and as an operand. *)
Lemma parse_print_main (e : Expr) :
  wf_expr e -> parse_expr (print 3 e) = Ok e /\ parse_atom parse_expr (print 0 e) = Ok e.
Proof.
  assert (Hgroup : forall e, levels_ok e -> print 0 e = group (print 3 e) ->
    parse_expr (print 3 e) = Ok e -> parse_expr (print 3 e) = Ok e /\ parse_atom parse_expr (print 0 e) = Ok e).
  { intros e' Hok Hg H3. split; [done|]. rewrite Hg, parse_atom_group; [done|apply (lo_text _ Hok)]. }
  induction e as [p|v|l IHl op r IHr|l IHl op r IHr|l IHl op r IHr]; intros Hw.
  - destruct (parse_atom_path p Hw) as [Ha Hp]. split; [|done].
    by rewrite (parse_expr_atom _ Ha : parse_expr (print 3 (Path p)) = _).
  - destruct (parse_atom_literal v Hw) as [Ha Hp]. split; [|done].
    by rewrite (parse_expr_atom _ Ha : parse_expr (print 3 (Literal v)) = _).
  - pose proof (levels_ok_all _ Hw) as Hok. destruct Hw as [Hl Hr].
    destruct (IHl Hl) as [_ Il], (IHr Hr) as [_ Ir]. apply Hgroup; [done|done|].
    apply (parse_infix_leaf (print 0 l) (CompareOp.as_str op) (print 0 r));
      [apply (lo_text _ Hok)|apply (proj2 (lo_cmp _ Hok))|left].
    rewrite comparison_infix by (apply lo_atom; by apply levels_ok_all). by rewrite Il, Ir.
  - pose proof (levels_ok_all _ Hw) as Hok. destruct Hw as [Hl Hr].
    destruct (IHl Hl) as [Il Il0], (IHr Hr) as [Ir Ir0].
    pose proof (levels_ok_all l Hl) as Ol. pose proof (levels_ok_all r Hr) as Or.
    assert (Pl : forall n, parse_expr (print n l) = Ok l) by (intros; by apply parse_any_level, print_level).
    assert (Pr : forall n, parse_expr (print n r) = Ok r) by (intros; by apply parse_any_level, print_level).
    destruct op; (apply Hgroup; [done|done|]).
    + change (parse_expr (infix (print 2 l) (logical_str LogicalOp.And) (print 1 r)) = Ok (Logical l LogicalOp.And r)).
      rewrite logical_infix; [by rewrite Pl, Pr|apply Ol|apply Or|split; [apply Ol|apply Or]].
    + change (parse_expr (infix (print 3 l) (logical_str LogicalOp.Or) (print 2 r)) = Ok (Logical l LogicalOp.Or r)).
      rewrite logical_infix; [by rewrite Pl, Pr|apply Ol|apply Or|split; [apply Ol|apply Or]].
  - pose proof (levels_ok_all _ Hw) as Hok. destruct Hw as [Hl Hr].
    destruct (IHl Hl) as [_ Il], (IHr Hr) as [_ Ir]. apply Hgroup; [done|done|].
    apply (parse_infix_leaf (print 0 l) (membership_str op) (print 0 r));
      [apply (lo_text _ Hok)|apply (proj2 (lo_cmp _ Hok))|right].
    rewrite no_comparison, membership_infix by (apply lo_atom; by apply levels_ok_all).
    by rewrite Il, Ir.
Qed.
End RoundTrip.

(** ** The properties *)

(** the parser always answers: with fuel above the length of the text it
    never runs out, more fuel changes nothing, and so [parse_expr] satisfies
    its recursive equation - every call is on strictly shorter text. *)
Theorem parse_expr_total `{JsonCrate} (s : string) :
  parse_expr s <> Err OutOfFuel
  /\ (forall fuel, String.length s < fuel -> parse_expr_fuel fuel s = parse_expr s)
  /\ parse_expr s = parse_step parse_expr s.
Proof.
  split; [apply parse_expr_fuel_answers; lia|]. split; [|apply parse_expr_eq].
  intros fuel Hf. unfold parse_expr. apply parse_fuel_irrelevant; lia.
Qed.

#[export] Instance no_json : JsonCrate :=
  {| from_json _ := None; to_json _ := Ok ""; display_json _ := "" |}.

Lemma parse_expr_total_witness : parse_expr_fuel 100 "$.a || $.b" = parse_expr "$.a || $.b".
Proof. apply (proj1 (proj2 (parse_expr_total "$.a || $.b"))). simpl. lia. Defined.

(** C5: the parser reads back what the minimal-parentheses printer writes, for
    every expression of the language. This fixes the grammar: [||] is looser
    than [&&], which is looser than comparisons and membership; both logical
    operators associate to the left; operators and keywords inside strings and
    groups do not split; and string escapes and integers round trip. *)
Theorem parse_print_roundtrip `{JsonCrate} (e : Expr) (lvl : nat) :
  wf_expr e -> parse_expr (print lvl e) = Ok e.
Proof.
  intros Hw. destruct (parse_print_main e Hw) as [H3 H0].
  by apply parse_any_level; [apply levels_ok_all| | |apply print_level].
Qed.

(** The expression of the module documentation, with a tricky string. *)
Definition sample_expr : Expr :=
  Logical (Path ["a"]) LogicalOp.Or
    (Logical (Compare (Path ["b"; "in_1"]) CompareOp.Ge (Literal (VNumber (NegInt (-7))))) LogicalOp.And
       (Membership (Literal (VString (") || '\" +:+ String DQUOTE ""))) MembershipOp.NotIn
          (Logical (Path ["c"]) LogicalOp.Or (Literal (VBool true))))).

Lemma parse_print_roundtrip_witness : parse_expr (print 3 sample_expr) = Ok sample_expr.
Proof.
  apply (parse_print_roundtrip sample_expr 3). unfold sample_expr. cbn.
  repeat (split || constructor || discriminate || (exists (-7)%Z) || reflexivity || lia).
Defined.

(** evaluation of conditions. A false left side of [&&], or a true left side
    of [||], decides the result whatever the right side is, errors included;
    otherwise the result is the truth of the right side. The result of every
    operator is a boolean, ordered comparisons of anything but two numbers are
    type errors, and [not in] is the negation of [in]. *)
Theorem eval_logic (l r : Expr) (resolve : list string -> result Value ExprError) (v : Value) :
  eval l resolve = Ok v ->
  (as_bool v = false -> eval (Logical l LogicalOp.And r) resolve = Ok (VBool false))
  /\ (as_bool v = true -> eval (Logical l LogicalOp.Or r) resolve = Ok (VBool true))
  /\ (forall op w, eval r resolve = Ok w ->
        eval (Logical l op r) resolve
        = Ok (VBool (match op with
                     | LogicalOp.And => as_bool v && as_bool w
                     | LogicalOp.Or => as_bool v || as_bool w
                     end)))
  /\ (forall op w, eval r resolve = Ok w -> op <> CompareOp.Eq -> op <> CompareOp.Ne ->
        (exists n m, v = VNumber n /\ w = VNumber m
           /\ exists b, eval (Compare l op r) resolve = Ok (VBool b))
        \/ (exists why, eval (Compare l op r) resolve = Err (TypeError why)))
  /\ (forall arr, eval r resolve = Ok (VArray arr) -> exists b,
        eval (Membership l MembershipOp.In r) resolve = Ok (VBool b)
        /\ eval (Membership l MembershipOp.NotIn r) resolve = Ok (VBool (negb b))).
Proof.
  intros Hv. simpl. rewrite Hv. simpl. split; [by intros ->|]. split; [by intros ->|]. split.
  { intros op w Hw. rewrite Hw. by destruct op, (as_bool v). }
  split.
  - intros op w Hw Hne1 Hne2. rewrite Hw. simpl. unfold compare_values, as_f64.
    destruct op; try done; destruct v as [| |n| | |], w as [| |m| | |]; simpl; eauto 10.
  - intros arr Hr. rewrite Hr. simpl. eauto.
Qed.

Lemma eval_logic_witness :
  eval (Logical (Literal (VBool false)) LogicalOp.And (Path ["missing"]))
    (fun _ => Err (TypeError "no such path")) = Ok (VBool false).
Proof.
  apply (proj1 (eval_logic (Literal (VBool false)) (Path ["missing"])
    (fun _ => Err (TypeError "no such path")) (VBool false) eq_refl)). reflexivity.
Defined.
