(* ===== verification/FlowTypes.v ===== *)
(** The data model of flow documents ([wafer-flow/src/types.rs]): flows, steps,
    routing entries, the execution policy, and its timeouts.

    Durations are nanoseconds. Descriptive fields (names, port schemas,
    descriptions, the config routing of flows) play no part in validation or
    execution and are left out. *)

From stdpp Require Import pretty.
From S2P Require Import Prelude Text.

(** ** Timeouts *)

Definition Duration : Type := N.
Definition from_millis (n : N) : Duration := (n * 1000000)%N.
Definition from_secs (n : N) : Duration := (n * 1000000000)%N.

Definition MAX_FLOW_TIMEOUT : Duration := from_secs (24 * 60 * 60).

(** [check_timeout_range]. *)
Definition check_timeout_range (duration : Duration) : result Duration string :=
  if (duration =? 0)%N then Err "a flow timeout must be greater than zero"
  else if (MAX_FLOW_TIMEOUT <? duration)%N then Err "a flow timeout must be at most 24h"
  else Ok duration.

Record InvalidTimeout := mkInvalidTimeout { it_value : string; it_reason : string }.

Record FlowTimeout := mkFlowTimeout { ft_text : string; ft_duration : Duration }.

(** The unit suffix of a timeout: the digits, the seconds of a unit, and
    whether the unit is a millisecond. *)
Definition timeout_unit (text : string) : string * N * bool :=
  match strip_suffix "ms" text with
  | Some n => (n, 1%N, true)
  | None =>
  match strip_suffix "s" text with
  | Some n => (n, 1%N, false)
  | None =>
  match strip_suffix "m" text with
  | Some n => (n, 60%N, false)
  | None =>
  match strip_suffix "h" text with
  | Some n => (n, 3600%N, false)
  | None => (text, 1%N, false)
  end end end end.

(** [FlowTimeout::from_str]; the multiplication is checked. *)
Definition flow_timeout_from_str (text : string) : result FlowTimeout InvalidTimeout :=
  let invalid := mkInvalidTimeout text in
  let '(ds, unit_secs, is_millis) := timeout_unit text in
  if is_empty ds || negb (str_forallb is_ascii_digit ds) then
    Err (invalid ("expected a whole number followed by ms, s, m or h (e.g. "
                  +:+ String DQUOTE ("30s" +:+ String DQUOTE ")")))
  else
    let too_long := invalid "a flow timeout must be at most 24h" in
    match parse_u64_digits ds with
    | None => Err too_long
    | Some n =>
        let? duration :=
          (if is_millis then Ok (from_millis n)
           else if (n * unit_secs <=? U64_MAX)%N then Ok (from_secs (n * unit_secs))
           else Err too_long) in
        match check_timeout_range duration with
        | Ok d => Ok (mkFlowTimeout text d)
        | Err reason => Err (invalid reason)
        end
    end.

(** [FlowTimeoutMillis], the validated newtype of a [u64]. *)
Record FlowTimeoutMillis := mkFlowTimeoutMillis { ftm_millis : N }.

(** [FlowTimeoutMillis::try_from]. *)
Definition flow_timeout_millis (millis : N) : result FlowTimeoutMillis InvalidTimeout :=
  match check_timeout_range (from_millis millis) with
  | Ok _ => Ok (mkFlowTimeoutMillis millis)
  | Err reason => Err (mkInvalidTimeout (pretty millis +:+ "ms") reason)
  end.

(** ** Flows *)

Module OnError.
Inductive t := Stop | Continue.
End OnError.

Record FlowConfig := mkFlowConfig {
  fc_timeout_ms : option FlowTimeoutMillis;
  fc_timeout : option FlowTimeout;
  fc_max_steps : option N;
  fc_on_error : option OnError.t
}.

Definition default_flow_config : FlowConfig := mkFlowConfig None None None None.

(** [FlowConfig::timeout]. *)
Definition config_timeout (c : FlowConfig) : option Duration :=
  match option_map ft_duration (fc_timeout c) with
  | Some d => Some d
  | None => option_map (fun t => from_millis (ftm_millis t)) (fc_timeout_ms c)
  end.

(** [FlowConfig::on_error]. *)
Definition config_on_error (c : FlowConfig) : OnError.t := default OnError.Stop (fc_on_error c).

Record NextEntry := mkNextEntry {
  ne_when : option string;
  ne_step : option string;
  ne_flow : option string
}.

(** A branch of [parallel] is its list of steps. *)
Inductive Step := mkStep {
  st_id : string;
  st_block : string;
  st_input : option Value;
  st_next : option (list NextEntry);
  st_each : option string;
  st_parallel : option (list (list Step));
  st_config : option Value
}.

(** Where a key of the flow's configuration goes. *)
Record ConfigMapEntry := mkMapEntry { cm_target : string; cm_key : string }.

Record WaferFlow := mkWaferFlow {
  wf_id : string;
  wf_steps : list Step;
  wf_config : option FlowConfig;
  wf_config_map : option (gmap string ConfigMapEntry);
  wf_config_defaults : option (gmap string Value)
}.

(** * What the timeouts of flow documents mean. *)

(** The units a timeout may end in, with their nanoseconds. *)
Definition timeout_units : list (string * N) :=
  [("ms", 1000000%N); ("s", 1000000000%N); ("", 1000000000%N);
   ("m", 60000000000%N); ("h", 3600000000000%N)].

Lemma str_snoc_inj (a b : string) (c d : ascii) :
  a +:+ String c "" = b +:+ String d "" -> a = b /\ c = d.
Proof.
  intros H. assert (Hl : String.length a = String.length b).
  { apply (f_equal String.length) in H. rewrite !str_length_app in H. simpl in H. lia. }
  apply str_app_inj_length in H as [-> H]; [|done]. by injection H as ->.
Qed.

Lemma str_forallb_snoc (p : ascii -> bool) (a : string) (c : ascii) :
  str_forallb p (a +:+ String c "") = true -> p c = true.
Proof. rewrite str_forallb_app. simpl. rewrite andb_true_r. by intros [_ H]%andb_true_iff. Qed.

(** A text whose last character is [d] has no suffix ending in another one. *)
Lemma strip_suffix_last (p s : string) (c d : ascii) :
  c <> d -> strip_suffix (p +:+ String c "") (s +:+ String d "") = None.
Proof.
  intros Hne. destruct (strip_suffix _ _) as [r|] eqn:E; [|done].
  apply strip_suffix_Some in E. rewrite str_app_assoc in E.
  apply str_snoc_inj in E as [_ ->]. done.
Qed.

Lemma str_snoc_case (s : string) : s = "" \/ exists t c, s = t +:+ String c "".
Proof.
  induction s as [|a s [->|(t & c & ->)]]; [by left| |].
  - right. by exists "", a.
  - right. by exists (String a t), c.
Qed.

(** Decimal digits end in no unit. *)
Lemma strip_suffix_digits (p ds : string) (c : ascii) :
  is_ascii_digit c = false -> str_forallb is_ascii_digit ds = true ->
  strip_suffix (p +:+ String c "") ds = None.
Proof.
  intros Hc Hd. destruct (str_snoc_case ds) as [->|(t & d & ->)].
  - destruct (strip_suffix _ _) as [r|] eqn:E; [|done]. apply strip_suffix_Some in E.
    apply (f_equal String.length) in E. rewrite !str_length_app in E. simpl in E. lia.
  - apply strip_suffix_last. intros ->. apply str_forallb_snoc in Hd. congruence.
Qed.

Lemma strip_suffix_app (p r : string) : strip_suffix p (r +:+ p) = Some r.
Proof. by apply strip_suffix_Some. Qed.

(** A number followed by a unit is split at the unit. *)
Lemma timeout_unit_app (ds u : string) (ns : N) :
  str_forallb is_ascii_digit ds = true -> In (u, ns) timeout_units ->
  exists secs ms, timeout_unit (ds +:+ u) = (ds, secs, ms)
    /\ ns = (if ms : bool then 1000000 else secs * 1000000000)%N /\ (secs <= 3600)%N.
Proof.
  intros Hd Hin. unfold timeout_unit.
  destruct Hin as [E|[E|[E|[E|[E|[]]]]]]; injection E as <- <-.
  - rewrite strip_suffix_app. by eexists _, _.
  - replace (strip_suffix "ms" (ds +:+ "s")) with (@None string).
    2:{ symmetry. destruct (strip_suffix _ _) as [r|] eqn:E; [|done].
        apply strip_suffix_Some in E. change "ms" with ("m" +:+ String "s" "") in E.
        rewrite str_app_assoc in E. apply str_snoc_inj in E as [-> _].
        by apply str_forallb_snoc in Hd. }
    rewrite strip_suffix_app. by eexists _, _.
  - rewrite str_app_nil_r.
    assert (strip_suffix "ms" ds = None) as -> by exact (strip_suffix_digits "m" ds "s" eq_refl Hd).
    assert (strip_suffix "s" ds = None) as -> by exact (strip_suffix_digits "" ds "s" eq_refl Hd).
    assert (strip_suffix "m" ds = None) as -> by exact (strip_suffix_digits "" ds "m" eq_refl Hd).
    assert (strip_suffix "h" ds = None) as -> by exact (strip_suffix_digits "" ds "h" eq_refl Hd).
    by eexists _, _.
  - assert (strip_suffix "ms" (ds +:+ "m") = None) as -> by by apply (strip_suffix_last "m").
    assert (strip_suffix "s" (ds +:+ "m") = None) as -> by by apply (strip_suffix_last "").
    rewrite strip_suffix_app. by eexists _, _.
  - assert (strip_suffix "ms" (ds +:+ "h") = None) as -> by by apply (strip_suffix_last "m").
    assert (strip_suffix "s" (ds +:+ "h") = None) as -> by by apply (strip_suffix_last "").
    assert (strip_suffix "m" (ds +:+ "h") = None) as -> by by apply (strip_suffix_last "").
    rewrite strip_suffix_app. by eexists _, _.
Qed.

(** The split always gives back the text. *)
Lemma timeout_unit_split (text ds : string) (secs : N) (ms : bool) :
  timeout_unit text = (ds, secs, ms) ->
  exists u, text = ds +:+ u
    /\ In (u, if ms then 1000000 else secs * 1000000000)%N timeout_units.
Proof.
  unfold timeout_unit. intros H.
  destruct (strip_suffix "ms" text) as [?|] eqn:E1;
    [|destruct (strip_suffix "s" text) as [?|] eqn:E2;
      [|destruct (strip_suffix "m" text) as [?|] eqn:E3;
        [|destruct (strip_suffix "h" text) as [?|] eqn:E4]]];
    injection H as <- <- <-;
    repeat match goal with E : strip_suffix _ _ = Some _ |- _ => apply strip_suffix_Some in E as -> end.
  - exists "ms". split; [done|]. simpl. tauto.
  - exists "s". split; [done|]. simpl. tauto.
  - exists "m". split; [done|]. simpl. tauto.
  - exists "h". split; [done|]. simpl. tauto.
  - exists "". rewrite str_app_nil_r. split; [done|]. simpl. tauto.
Qed.

Lemma decimal_nonneg (s : string) (acc z : Z) :
  (0 <= acc)%Z -> decimal s acc = Some z -> (0 <= z)%Z.
Proof.
  revert acc. induction s as [|c s IH]; intros acc Ha H; simpl in H; [by injection H as <-|].
  destruct (digit_value c) as [d|] eqn:E; [|done]. apply IH in H; [done|].
  unfold digit_value in E. destruct (is_ascii_digit c); [injection E as <-; lia|done].
Qed.

Lemma check_timeout_range_ok (d d' : Duration) :
  check_timeout_range d = Ok d' <-> d' = d /\ (0 < d <= MAX_FLOW_TIMEOUT)%N.
Proof.
  unfold check_timeout_range. destruct (N.eqb_spec d 0); [split; [done|lia]|].
  destruct (N.ltb_spec MAX_FLOW_TIMEOUT d); [split; [done|lia]|].
  split; [intros [=]; split; [done|lia]|by intros [-> _]].
Qed.

(** What an accepted text says. *)
Lemma flow_timeout_ok_inv (text : string) (t : FlowTimeout) :
  flow_timeout_from_str text = Ok t ->
  exists ds u ns n,
    text = ds +:+ u /\ ds <> "" /\ str_forallb is_ascii_digit ds = true
    /\ In (u, ns) timeout_units /\ digits ds = Some (Z.of_N n)
    /\ (0 < n * ns <= MAX_FLOW_TIMEOUT)%N /\ t = mkFlowTimeout text (n * ns)%N.
Proof.
  unfold flow_timeout_from_str. destruct (timeout_unit text) as [[ds secs] ms] eqn:Eu.
  apply timeout_unit_split in Eu as (u & Ht & Hin).
  destruct (is_empty ds || _) eqn:Ed; [done|].
  apply orb_false_iff in Ed as [Hne Hd]. apply negb_false_iff in Hd.
  unfold parse_u64_digits. destruct (digits ds) as [z|] eqn:Ez; [|done].
  assert (0 <= z)%Z as Hz.
  { unfold digits in Ez. rewrite Hne in Ez. by eapply decimal_nonneg; [|exact Ez]. }
  destruct (Z.leb_spec z (Z.of_N U64_MAX)) as [_|_]; [|done]. intros H.
  exists ds, u, (if ms then 1000000 else secs * 1000000000)%N, (Z.to_N z).
  rewrite Z2N.id by done.
  destruct ms; simpl in H; [|destruct (_ <=? U64_MAX)%N; [|done]; simpl in H];
    (destruct (check_timeout_range _) as [d|] eqn:Ec; [|done]); injection H as <-;
    apply check_timeout_range_ok in Ec as [-> Hr];
    unfold from_millis, from_secs in *; rewrite ?N.mul_assoc;
    split_and!; try done; (intros -> || lia); done.
Qed.

(** Every text of that form is accepted. *)
Lemma flow_timeout_ok_intro (ds u : string) (ns n : N) :
  ds <> "" -> str_forallb is_ascii_digit ds = true -> In (u, ns) timeout_units ->
  digits ds = Some (Z.of_N n) -> (0 < n * ns <= MAX_FLOW_TIMEOUT)%N ->
  flow_timeout_from_str (ds +:+ u) = Ok (mkFlowTimeout (ds +:+ u) (n * ns)%N).
Proof.
  intros Hne Hd Hin Hn Hr. unfold flow_timeout_from_str.
  destruct (timeout_unit_app ds u ns Hd Hin) as (secs & ms & -> & Hns & Hs).
  destruct (is_empty ds) eqn:E; [by apply is_empty_spec in E|]. rewrite Hd. simpl.
  unfold parse_u64_digits. rewrite Hn.
  unfold MAX_FLOW_TIMEOUT, from_secs in Hr.
  assert (1000000 <= ns)%N as Hm.
  { destruct Hin as [[=]|[[=]|[[=]|[[=]|[[=]|[]]]]]]; lia. }
  assert (n <= 86400000)%N by (pose proof (N.mul_le_mono_l _ _ n Hm); lia).
  destruct (Z.leb_spec (Z.of_N n) (Z.of_N U64_MAX)) as [_|]; [|unfold U64_MAX in *; lia].
  rewrite N2Z.id. destruct ms; subst ns; simpl.
  - by rewrite (proj2 (check_timeout_range_ok _ (n * 1000000)%N)).
  - pose proof (N.mul_le_mono n 86400000 secs 3600 ltac:(lia) Hs).
    destruct (N.leb_spec (n * secs) U64_MAX) as [_|]; [|unfold U64_MAX in *; lia]. simpl.
    unfold from_secs. rewrite <- N.mul_assoc.
    by rewrite (proj2 (check_timeout_range_ok _ (n * (secs * 1000000000))%N)).
Qed.

(** a timeout text is accepted exactly when it is a decimal number and a
    unit whose product lies in (0, 24h], and then it stands for that product:
    numbers too wide for [u64], and products that overflow it, are refused and
    never wrap. The text is kept as written; [timeout_ms] has the same range. *)
Theorem flow_timeout_meaning (text : string) (t : FlowTimeout) (millis : N) :
  (flow_timeout_from_str text = Ok t
   <-> exists ds u ns n,
         text = ds +:+ u /\ ds <> "" /\ str_forallb is_ascii_digit ds = true
         /\ In (u, ns) timeout_units /\ digits ds = Some (Z.of_N n)
         /\ (0 < n * ns <= MAX_FLOW_TIMEOUT)%N /\ t = mkFlowTimeout text (n * ns)%N)
  /\ (is_ok (flow_timeout_millis millis) = true <-> (0 < millis <= 86400000)%N).
Proof.
  split.
  - split; [apply flow_timeout_ok_inv|].
    intros (ds & u & ns & n & -> & Hne & Hd & Hin & Hn & Hr & ->).
    by apply flow_timeout_ok_intro.
  - unfold flow_timeout_millis.
    destruct (check_timeout_range (from_millis millis)) as [d|] eqn:E; simpl.
    + apply check_timeout_range_ok in E as [_ ?]. unfold from_millis, MAX_FLOW_TIMEOUT, from_secs in *.
      split; [lia|done].
    + split; [done|]. intros Hr. exfalso.
      rewrite (proj2 (check_timeout_range_ok _ (from_millis millis))) in E; [done|].
      unfold from_millis, MAX_FLOW_TIMEOUT, from_secs. split; [done|lia].
Qed.
