(* ===== verification/Accumulator.v ===== *)
(** The state of a flow run and the expressions compiled against it
    ([wafer-flow/src/accumulator.rs], [compiled.rs]).

    The stored data of a layer is a [gmap]; a branch layer holds its frozen
    parent. Objects are lists of entries in the iteration order of the source
    map, so inserting those entries one by one keeps their order. *)

From stdpp Require Import pretty.
From S2P Require Import Prelude Text Expr.

(** ** The accumulator *)

Inductive Accumulator := mkAcc {
  parent : option Accumulator;
  data : gmap string Value
}.

Definition acc_new : Accumulator := mkAcc None ∅.
Definition branch_from (p : Accumulator) : Accumulator := mkAcc (Some p) ∅.
Definition acc_set (a : Accumulator) (step_id : string) (v : Value) : Accumulator :=
  mkAcc (parent a) (<[step_id := v]> (data a)).

(** [Accumulator::get]: this layer, then the parents. *)
Fixpoint acc_get (a : Accumulator) (step_id : string) : option Value :=
  let '(mkAcc p d) := a in
  match d !! step_id with
  | Some v => Some v
  | None => match p with Some p => acc_get p step_id | None => None end
  end.

Definition acc_remove (a : Accumulator) (step_id : string) : Accumulator :=
  mkAcc (parent a) (delete step_id (data a)).

(** [Accumulator::keys]: [seen] collects the keys of each layer once. *)
Fixpoint acc_keys_from (a : Accumulator) (seen : list string) : list string :=
  let '(mkAcc p d) := a in
  let seen := fold_left push_unique (map_to_list d).*1 seen in
  match p with Some p => acc_keys_from p seen | None => seen end.
Definition acc_keys (a : Accumulator) : list string := acc_keys_from a [].

Definition into_data (a : Accumulator) : gmap string Value := data a.

(** [seg.parse::<usize>()]. *)
Definition parse_usize : string -> option N := parse_unsigned (2 ^ 64).

Section Resolve.
Context `{JsonCrate}.

(** One hop of the path walk; [seen] are the segments up to this one. *)
Definition traverse (current : Value) (seen : list string) (seg : string)
  : result Value ExprError :=
  match current with
  | VObject m =>
      match assoc seg m with
      | Some v => Ok v
      | None => Err (UnresolvedReference ("$." +:+ join "." seen))
      end
  | VArray arr =>
      match parse_usize seg with
      | None => Err (TypeError ("cannot index array with non-numeric key '" +:+ seg +:+ "'"))
      | Some idx =>
          match arr !! N.to_nat idx with
          | Some v => Ok v
          | None => Err (UnresolvedReference ("array index " +:+ pretty idx +:+ " out of bounds"))
          end
      end
  | _ => Err (TypeError ("cannot traverse into " +:+ display_json current
                         +:+ " with key '" +:+ seg +:+ "'"))
  end.

Fixpoint walk (current : Value) (seen segments : list string) : result Value ExprError :=
  match segments with
  | [] => Ok current
  | seg :: segments =>
      let seen := seen ++ [seg] in
      let? v := traverse current seen seg in
      walk v seen segments
  end.

(** [Accumulator::resolve_segments]. *)
Definition resolve_segments (a : Accumulator) (segments : list string) : result Value ExprError :=
  match segments with
  | [] => Err (InvalidPath "empty path")
  | root_key :: rest =>
      match acc_get a root_key with
      | None => Err (UnresolvedReference ("$." +:+ root_key))
      | Some root => walk root [root_key] rest
      end
  end.

(** [Accumulator::resolve]. *)
Definition acc_resolve (a : Accumulator) (path : string) : result Value ExprError :=
  let? segments := parse_path path in resolve_segments a segments.

(** ** Compiled expressions *)

(** [CompiledPath] and [CompiledCondition] keep the parse result. *)
Record CompiledPath := mkCompiledPath { cp_inner : result (list string) ExprError }.
Record CompiledCondition := mkCompiledCondition { cc_inner : result Expr ExprError }.

Definition compile_path (path : string) : CompiledPath := mkCompiledPath (parse_path path).

Definition path_resolve (p : CompiledPath) (a : Accumulator) : result Value ExprError :=
  match cp_inner p with Ok segments => resolve_segments a segments | Err e => Err e end.

Definition compile_condition (c : string) : CompiledCondition := mkCompiledCondition (parse_expr c).

Definition condition_eval (c : CompiledCondition) (a : Accumulator) : result bool ExprError :=
  match cc_inner c with
  | Ok parsed =>
      let? result := eval parsed (resolve_segments a) in
      Ok match result with VBool b => b | VNull => false | _ => true end
  | Err e => Err e
  end.

Inductive TemplateNode :=
| TPath (segments : list string)
| TInvalidPath (e : ExprError)
| TLiteral (v : Value)
| TObject (entries : list (string * TemplateNode))
| TArray (items : list TemplateNode).

(** [has_refs]. *)
Fixpoint has_refs (v : Value) : bool :=
  match v with
  | VString s => starts_with "$." s
  | VObject m => existsb (fun '(_, v) => has_refs v) m
  | VArray arr => existsb has_refs arr
  | _ => false
  end.

(** [compile_node]. *)
Fixpoint compile_node (v : Value) : TemplateNode :=
  match v with
  | VString s =>
      if starts_with "$." s
      then match parse_path s with Ok segments => TPath segments | Err e => TInvalidPath e end
      else TLiteral v
  | VObject m =>
      if has_refs v then TObject (map (fun '(k, v) => (k, compile_node v)) m) else TLiteral v
  | VArray arr => if has_refs v then TArray (map compile_node arr) else TLiteral v
  | other => TLiteral other
  end.

(** [Map::insert]: the value of a present key is replaced. *)
Fixpoint map_insert (m : list (string * Value)) (k : string) (v : Value) : list (string * Value) :=
  match m with
  | [] => [(k, v)]
  | (k', v') :: m' => if k' =s k then (k', v) :: m' else (k', v') :: map_insert m' k v
  end.

(** The loops of [resolve_node] over the entries of an object and the items of
    an array. *)
Section Loops.
Context (f : TemplateNode -> result Value ExprError).
Fixpoint resolve_entries (entries : list (string * TemplateNode)) (m : list (string * Value))
  : result (list (string * Value)) ExprError :=
  match entries with
  | [] => Ok m
  | (k, n) :: entries => let? v := f n in resolve_entries entries (map_insert m k v)
  end.
Fixpoint resolve_items (items : list TemplateNode) (out : list Value)
  : result (list Value) ExprError :=
  match items with
  | [] => Ok out
  | n :: items => let? v := f n in resolve_items items (out ++ [v])
  end.
End Loops.

(** [resolve_node]. *)
Fixpoint resolve_node (node : TemplateNode) (a : Accumulator) : result Value ExprError :=
  match node with
  | TPath segments => resolve_segments a segments
  | TInvalidPath e => Err e
  | TLiteral v => Ok v
  | TObject entries =>
      let? m := resolve_entries (fun n => resolve_node n a) entries [] in Ok (VObject m)
  | TArray items =>
      let? out := resolve_items (fun n => resolve_node n a) items [] in Ok (VArray out)
  end.

(** [CompiledTemplate]. *)
Record CompiledTemplate := mkCompiledTemplate { ct_inner : TemplateNode }.
Definition compile_template (template : Value) : CompiledTemplate :=
  mkCompiledTemplate (compile_node template).
Definition template_resolve (t : CompiledTemplate) (a : Accumulator) : result Value ExprError :=
  resolve_node (ct_inner t) a.

(** [Accumulator::resolve_input] and [Accumulator::eval_condition]. *)
Definition resolve_input (a : Accumulator) (input : Value) : result Value ExprError :=
  template_resolve (compile_template input) a.
Definition eval_condition (a : Accumulator) (condition : string) : result bool ExprError :=
  condition_eval (compile_condition condition) a.
End Resolve.

(** * The accumulator is one map, however many layers it has, and compiling an
    input template changes nothing about its meaning. *)

(** ** Layers *)

(** What a run sees of an accumulator: its writes over those of its parents. *)
Fixpoint visible (a : Accumulator) : gmap string Value :=
  let '(mkAcc p d) := a in
  d ∪ match p with Some p => visible p | None => ∅ end.

Lemma accumulator_ind' (P : Accumulator -> Prop) :
  (forall d, P (mkAcc None d)) -> (forall p d, P p -> P (mkAcc (Some p) d)) -> forall a, P a.
Proof.
  intros H0 H1. fix IH 1. intros [[p|] d]; [apply H1, IH|apply H0].
Qed.

Lemma acc_get_visible (a : Accumulator) (k : string) : acc_get a k = visible a !! k.
Proof.
  induction a as [d|p d IH] using accumulator_ind'; simpl; rewrite lookup_union;
    destruct (d !! k) eqn:E; simpl.
  - by rewrite lookup_empty.
  - by rewrite lookup_empty.
  - by destruct (visible p !! k).
  - rewrite IH. by destruct (visible p !! k).
Qed.

Lemma visible_set (a : Accumulator) (k : string) (v : Value) :
  visible (acc_set a k v) = <[k := v]> (visible a).
Proof. destruct a as [p d]. simpl. by rewrite insert_union_l. Qed.

Lemma map_keys_elem (d : gmap string Value) (k : string) :
  k ∈ (map_to_list d).*1 <-> is_Some (d !! k).
Proof.
  rewrite list_elem_of_fmap. split.
  - intros ([k' v] & -> & H%elem_of_map_to_list). by exists v.
  - intros [v H]. exists (k, v). split; [done|]. by apply elem_of_map_to_list.
Qed.

Lemma acc_keys_from_spec (a : Accumulator) (seen : list string) :
  NoDup seen -> NoDup (acc_keys_from a seen)
    /\ (forall k, k ∈ acc_keys_from a seen <-> k ∈ seen \/ is_Some (visible a !! k)).
Proof.
  revert seen. induction a as [d|p d IH] using accumulator_ind'; intros seen Hn; simpl;
    destruct (push_unique_spec seen (map_to_list d).*1 Hn) as [H1 H2].
  - split; [done|]. intros k. by rewrite H2, map_keys_elem, map_union_empty.
  - destruct (IH _ H1) as [H3 H4]. split; [done|]. intros k.
    rewrite H4, H2, map_keys_elem, lookup_union, union_is_Some. tauto.
Qed.

Section Reads.
Context `{JsonCrate}.

Lemma resolve_segments_visible (a b : Accumulator) :
  visible a = visible b -> forall segs, resolve_segments a segs = resolve_segments b segs.
Proof.
  intros Hv [|r segs]; [done|]. simpl. by rewrite !acc_get_visible, Hv.
Qed.

Lemma eval_ext (e : Expr) (r r' : list string -> result Value ExprError) :
  (forall segs, r segs = r' segs) -> eval e r = eval e r'.
Proof. intros Hr. induction e; simpl; try done; by rewrite ?IHe1, ?IHe2, ?Hr. Qed.

Lemma condition_eval_visible (a b : Accumulator) (c : CompiledCondition) :
  visible a = visible b -> condition_eval c a = condition_eval c b.
Proof.
  intros Hv. unfold condition_eval. destruct (cc_inner c); [|done].
  by rewrite (eval_ext _ _ _ (resolve_segments_visible a b Hv)).
Qed.

Fixpoint template_ind' (P : TemplateNode -> Prop)
    (Hp : forall segs, P (TPath segs)) (Hi : forall e, P (TInvalidPath e))
    (Hl : forall v, P (TLiteral v))
    (Ho : forall l, Forall (fun kn => P (snd kn)) l -> P (TObject l))
    (Ha : forall l, Forall P l -> P (TArray l)) (n : TemplateNode) {struct n} : P n.
Proof.
  destruct n as [segs|e|v|l|l]; [apply Hp|apply Hi|apply Hl|apply Ho|apply Ha].
  - induction l as [|[k n] l IH]; constructor; [by apply template_ind'|done].
  - induction l as [|n l IH]; constructor; [by apply template_ind'|done].
Defined.

Lemma resolve_node_visible (a b : Accumulator) (n : TemplateNode) :
  visible a = visible b -> resolve_node n a = resolve_node n b.
Proof.
  intros Hv. induction n as [segs|e|v|l IH|l IH] using template_ind'; simpl; try done.
  - by apply resolve_segments_visible.
  - f_equal. generalize ([] : list (string * Value)).
    induction IH as [|[k n] l Hn _ IHl]; intros m; [done|]. simpl in *. rewrite Hn.
    destruct (resolve_node n b); simpl; [apply IHl|done].
  - f_equal. generalize ([] : list Value).
    induction IH as [|n l Hn _ IHl]; intros m; [done|]. simpl. rewrite Hn.
    destruct (resolve_node n b); simpl; [apply IHl|done].
Qed.
End Reads.

(** an accumulator behaves as the single map it shows, whatever its layers:
    lookups, listed keys, path resolution, conditions and templates all depend
    on that map alone; a new branch shows what its parent shows; a write
    updates the map and leaves the parent layer as it was; the data handed
    back is exactly what differs from the parent; removing a key uncovers the
    parent's entry. *)
Theorem accumulator_refines_map `{JsonCrate} (a p : Accumulator) (k : string) (v : Value) :
  (forall k, acc_get a k = visible a !! k)
  /\ visible acc_new = ∅
  /\ visible (branch_from p) = visible p
  /\ visible (acc_set a k v) = <[k := v]> (visible a) /\ parent (acc_set a k v) = parent a
  /\ visible (acc_remove a k)
     = match parent a ≫= fun q => visible q !! k with
       | Some w => <[k := w]> (visible a)
       | None => delete k (visible a)
       end
  /\ (NoDup (acc_keys a) /\ forall k, k ∈ acc_keys a <-> is_Some (visible a !! k))
  /\ (parent a = Some p -> visible a = into_data a ∪ visible p)
  /\ (forall b, visible a = visible b ->
        (forall path, acc_resolve a path = acc_resolve b path)
        /\ (forall c, eval_condition a c = eval_condition b c)
        /\ (forall t, resolve_input a t = resolve_input b t)).
Proof.
  split_and!; try done.
  - apply acc_get_visible.
  - simpl. by rewrite map_empty_union.
  - apply visible_set.
  - destruct a as [q d]. simpl. rewrite delete_union. destruct q as [q|]; simpl.
    + destruct (visible q !! k) as [w|] eqn:E.
      * apply map_eq. intros j. rewrite lookup_union.
        destruct (decide (j = k)) as [->|Hj].
        -- by rewrite lookup_delete_eq, E, lookup_insert_eq.
        -- by rewrite lookup_delete_ne, lookup_insert_ne, lookup_union by done.
      * by rewrite (delete_id (visible q)).
    + by rewrite delete_empty.
  - destruct (acc_keys_from_spec a [] ltac:(constructor)) as [? _]. done.
  - intros k'. destruct (acc_keys_from_spec a [] ltac:(constructor)) as [_ Hk].
    unfold acc_keys. rewrite Hk, elem_of_nil. tauto.
  - destruct a as [q d]. simpl. by intros ->.
  - intros b Hv. split_and!; intros x.
    + unfold acc_resolve. destruct (parse_path x); [|done]. by apply resolve_segments_visible.
    + by apply condition_eval_visible.
    + by apply resolve_node_visible.
Qed.

(** ** Templates *)

(** All results, or the first failure. *)
Section Results.
Context {A B E : Type} (f : A -> result B E).
Fixpoint map_results (l : list A) : result (list B) E :=
  match l with
  | [] => Ok []
  | x :: l => let? y := f x in let? l := map_results l in Ok (y :: l)
  end.
End Results.

(** The meaning of a template: every [$.] string is replaced by what it refers
    to, everything else stands for itself; the first failure in reading order
    is reported. *)
Fixpoint substitute `{JsonCrate} (a : Accumulator) (v : Value) : result Value ExprError :=
  match v with
  | VString s => if starts_with "$." s then acc_resolve a s else Ok v
  | VObject m =>
      let? m := map_results (fun '(k, v) => let? v := substitute a v in Ok (k, v)) m in
      Ok (VObject m)
  | VArray l => let? l := map_results (substitute a) l in Ok (VArray l)
  | _ => Ok v
  end.

(** The keys of every object are distinct, as the keys of a map are. *)
Fixpoint distinct_keys (v : Value) : Prop :=
  match v with
  | VObject m => NoDup m.*1 /\ foldr (fun '(_, v) P => distinct_keys v /\ P) True m
  | VArray l => foldr (fun v P => distinct_keys v /\ P) True l
  | _ => True
  end.

Section Templates.
Context `{JsonCrate} (a : Accumulator).

(** A subtree without references is its own meaning. *)
Lemma substitute_no_refs (v : Value) : has_refs v = false -> substitute a v = Ok v.
Proof.
  induction v as [|b|n|s|l IH|l IH] using value_ind'; simpl; intros Hr; try done.
  - by rewrite Hr.
  - cut (map_results (substitute a) l = Ok l); [by intros ->|].
    induction IH as [|v l Hv _ IHl]; [done|]. simpl in *.
    apply orb_false_iff in Hr as [H1 H2]. by rewrite (Hv H1), (IHl H2).
  - match goal with |- context [map_results ?f l] => cut (map_results f l = Ok l); [by intros ->|] end.
    induction IH as [|[k v] l Hv _ IHl]; [done|]. simpl in *.
    apply orb_false_iff in Hr as [H1 H2]. rewrite (Hv H1). simpl. by rewrite (IHl H2).
Qed.

Lemma map_insert_fresh (m : list (string * Value)) (k : string) (v : Value) :
  k ∉ m.*1 -> map_insert m k v = m ++ [(k, v)].
Proof.
  induction m as [|[k' v'] m IH]; simpl; intros Hk; [done|].
  rewrite not_elem_of_cons in Hk. destruct Hk as [Hk Hm].
  destruct (String.eqb_spec k' k) as [->|_]; [done|]. by rewrite IH.
Qed.

Lemma resolve_items_map (l : list Value) (out : list Value) :
  Forall (fun v => resolve_node (compile_node v) a = substitute a v) l ->
  resolve_items (fun n => resolve_node n a) (map compile_node l) out
  = let? r := map_results (substitute a) l in Ok (out ++ r).
Proof.
  intros Hl. revert out. induction Hl as [|v l Hv _ IH]; intros out; simpl; [by rewrite app_nil_r|].
  rewrite Hv. destruct (substitute a v) as [w|]; simpl; [|done]. rewrite IH.
  destruct (map_results _ l); simpl; [|done]. by rewrite <- app_assoc.
Qed.

Lemma resolve_entries_map (l : list (string * Value)) (out : list (string * Value)) :
  Forall (fun '(_, v) => resolve_node (compile_node v) a = substitute a v) l ->
  NoDup (out.*1 ++ l.*1) ->
  resolve_entries (fun n => resolve_node n a) (map (fun '(k, v) => (k, compile_node v)) l) out
  = let? r := map_results (fun '(k, v) => let? v := substitute a v in Ok (k, v)) l in Ok (out ++ r).
Proof.
  intros Hl. revert out. induction Hl as [|[k v] l Hv _ IH]; intros out Hn; simpl.
  - by rewrite app_nil_r.
  - rewrite Hv. destruct (substitute a v) as [w|]; simpl; [|done]. simpl in Hn.
    assert (k ∉ out.*1) by (apply NoDup_app in Hn as (_ & Hn & _); intros Hk;
      apply (Hn k Hk), elem_of_cons; by left).
    rewrite map_insert_fresh, IH by (done || (rewrite fmap_app, <- app_assoc; done)).
    destruct (map_results _ l); simpl; [|done]. by rewrite <- app_assoc.
Qed.

Lemma resolve_compile (v : Value) :
  distinct_keys v -> resolve_node (compile_node v) a = substitute a v.
Proof.
  induction v as [|b|n|s|l IH|l IH] using value_ind'; intros Hd; try done.
  - simpl. destruct (starts_with "$." s) eqn:E; [|done].
    unfold acc_resolve. by destruct (parse_path s).
  - simpl. destruct (existsb has_refs l) eqn:E; [|by symmetry; apply (substitute_no_refs (VArray l))].
    clear E. simpl. rewrite resolve_items_map; [by destruct (map_results _ l)|].
    induction IH; constructor; destruct Hd; auto.
  - simpl. destruct (existsb _ l) eqn:E; [|by symmetry; apply (substitute_no_refs (VObject l))].
    clear E. simpl. destruct Hd as [Hn Hd]. rewrite resolve_entries_map; [by destruct (map_results _ l)| |done].
    clear Hn. induction IH as [|[k v] l Hv _ IHl]; constructor; destruct Hd; auto.
Qed.
End Templates.

(** compiling is transparent. A compiled template - whose reference-free
    subtrees are collapsed to literals and whose paths are parsed once -
    resolves to exactly what substituting every reference in the document
    gives, failures included; compiled paths and conditions answer as parsing
    them at each use does. *)
Theorem compilation_transparent `{JsonCrate} (a : Accumulator) (input : Value) (s : string) :
  distinct_keys input ->
  resolve_input a input = substitute a input
  /\ path_resolve (compile_path s) a = acc_resolve a s
  /\ condition_eval (compile_condition s) a
     = let? e := parse_expr s in
       let? v := eval e (resolve_segments a) in
       Ok match v with VBool b => b | VNull => false | _ => true end.
Proof.
  intros Hd. split_and!.
  - by apply resolve_compile.
  - unfold path_resolve, acc_resolve. simpl. by destruct (parse_path s).
  - unfold condition_eval. simpl. by destruct (parse_expr s).
Qed.

Lemma compilation_transparent_witness :
  let json : JsonCrate := {| from_json _ := None; to_json _ := Ok ""; display_json _ := "" |} in
  let a := acc_set acc_new "input" (VObject [("name", VString "Alice")]) in
  let t := VObject [("user", VString "$.input.name"); ("plain", VArray [VNull; VBool true])] in
  resolve_input a t = substitute a t.
Proof. apply compilation_transparent with (s := ""). vm_compute. repeat constructor; set_solver. Defined.
