(* ===== verification/FlowValidate.v ===== *)
(** Semantic validation of flow documents ([wafer-flow/src/validate.rs]). The
    error vector the source pushes to is the list a function returns, in the
    order of the pushes; the set of seen ids is threaded. *)

From S2P Require Import Prelude Text Expr FlowTypes.

Inductive ValidationError :=
| DuplicateStepId (id : string)
| ReservedStepId (id : string)
| UnknownNextTarget (from target : string)
| NextEntryWithTwoTargets (step : string)
| NextInParallelBranch (step : string)
| TransferToSelf (step flow : string)
| NextEntryMissingTarget (step : string)
| MissingDefaultNext (step : string)
| InvalidExpression (step reason : string)
| ConflictingTimeouts
| EmptyFlow.

(** [ExprError]'s [Display]. *)
Definition expr_error_display (e : ExprError) : string :=
  match e with
  | InvalidPath w => "invalid path expression: " +:+ w
  | UnresolvedReference w => "unresolved reference: " +:+ w
  | TypeError w => "type error: " +:+ w
  | Parse w => "parse error: " +:+ w
  | OutOfFuel => ""
  end.

Definition is_reserved (id : string) : bool := (id =s "input") || (id =s "each").

(** The checks of [collect_step_ids] on one step. *)
Definition collect_id (st : gset string * list ValidationError) (step : Step)
  : gset string * list ValidationError :=
  let '(ids, errors) := st in
  let id := st_id step in
  let errors := if is_reserved id then errors ++ [ReservedStepId id] else errors in
  let errors := if bool_decide (id ∈ ids) then errors ++ [DuplicateStepId id] else errors in
  ({[id]} ∪ ids, errors).

(** The body of [collect_step_ids], branches included. *)
Fixpoint collect_step (st : gset string * list ValidationError) (step : Step)
  : gset string * list ValidationError :=
  let st := collect_id st step in
  match st_parallel step with
  | None => st
  | Some branches => fold_left (fun st b => fold_left collect_step b st) branches st
  end.

Definition collect_step_ids (steps : list Step) (st : gset string * list ValidationError)
  : gset string * list ValidationError := fold_left collect_step steps st.

(** An expression of a step that does not parse. *)
Definition expression_error {A} (step : string) (parsed : result A ExprError) : list ValidationError :=
  match parsed with
  | Ok _ => []
  | Err e => [InvalidExpression step (expr_error_display e)]
  end.

(** [validate_input_expressions]. *)
Fixpoint validate_input_expressions (step_id : string) (value : Value) : list ValidationError :=
  match value with
  | VString s => if starts_with "$." s then expression_error step_id (parse_path s) else []
  | VObject m => flat_map (fun '(_, v) => validate_input_expressions step_id v) m
  | VArray arr => flat_map (validate_input_expressions step_id) arr
  | _ => []
  end.

Section Validate.
Context `{JsonCrate} (flow_id : string) (jump_targets : gset string).

(** The target and condition checks of one [next] entry. *)
Definition validate_entry (step_id : string) (entry : NextEntry) : list ValidationError :=
  match ne_step entry, ne_flow entry with
  | None, None => [NextEntryMissingTarget step_id]
  | Some _, Some _ => [NextEntryWithTwoTargets step_id]
  | Some target, None =>
      if bool_decide (target ∈ jump_targets) then [] else [UnknownNextTarget step_id target]
  | None, Some target_flow =>
      if target_flow =s flow_id then [TransferToSelf step_id flow_id] else []
  end
  ++ match ne_when entry with
     | Some when_expr => expression_error step_id (parse_expr when_expr)
     | None => []
     end.

Definition is_none {A} (o : option A) : bool := match o with None => true | Some _ => false end.

Definition validate_next (in_branch : bool) (step_id : string) (next : option (list NextEntry))
  : list ValidationError :=
  match next with
  | None => []
  | Some entries =>
      (if in_branch then [NextInParallelBranch step_id] else [])
      ++ flat_map (validate_entry step_id) entries
      ++ (if existsb (fun e => is_none (ne_when e)) entries then [] else [MissingDefaultNext step_id])
  end.

(** The body of [validate_steps] on one step, without its branches. *)
Definition validate_step_self (in_branch : bool) (step : Step) : list ValidationError :=
  validate_next in_branch (st_id step) (st_next step)
  ++ match st_each step with
     | Some each_expr => expression_error (st_id step) (parse_path each_expr)
     | None => []
     end
  ++ match st_input step with
     | Some input => validate_input_expressions (st_id step) input
     | None => []
     end.

Fixpoint validate_step (in_branch : bool) (step : Step) : list ValidationError :=
  validate_step_self in_branch step
  ++ match st_parallel step with
     | Some branches => flat_map (flat_map (validate_step true)) branches
     | None => []
     end.

Definition validate_steps (steps : list Step) (in_branch : bool) : list ValidationError :=
  flat_map (validate_step in_branch) steps.
End Validate.

(** [validate]. *)
Definition validate `{JsonCrate} (flow : WaferFlow) : result unit (list ValidationError) :=
  match wf_steps flow with
  | [] => Err [EmptyFlow]
  | _ =>
      let errors := match wf_config flow with
                    | Some c => if negb (is_none (fc_timeout c)) && negb (is_none (fc_timeout_ms c))
                                then [ConflictingTimeouts] else []
                    | None => []
                    end in
      let errors := (collect_step_ids (wf_steps flow) (∅, errors)).2 in
      let jump_targets := list_to_set (map st_id (wf_steps flow)) in
      let errors := errors ++ validate_steps (wf_id flow) jump_targets (wf_steps flow) false in
      match errors with [] => Ok tt | _ => Err errors end
  end.

(** * Validation decides the well-formedness of flow documents. *)

(** ** Well-formed flows *)

(** All steps of a flow in document order, with whether each is in a branch. *)
Fixpoint flat_step (in_branch : bool) (s : Step) : list (bool * Step) :=
  (in_branch, s) :: match st_parallel s with
                    | Some branches => flat_map (flat_map (flat_step true)) branches
                    | None => []
                    end.
Definition flat_steps (in_branch : bool) (steps : list Step) : list (bool * Step) :=
  flat_map (flat_step in_branch) steps.

(** [s] is a reference of the template. *)
Inductive refers : Value -> string -> Prop :=
| refers_string s : starts_with "$." s = true -> refers (VString s) s
| refers_object m k v s : In (k, v) m -> refers v s -> refers (VObject m) s
| refers_array l v s : In v l -> refers v s -> refers (VArray l) s.

Section WellFormed.
Context `{JsonCrate} (flow : WaferFlow).

(** A routing entry names one target - a top-level step or another flow - and
    its condition parses. *)
Definition entry_ok (e : NextEntry) : Prop :=
  ((exists t, ne_step e = Some t /\ ne_flow e = None /\ In t (map st_id (wf_steps flow)))
   \/ (exists f, ne_step e = None /\ ne_flow e = Some f /\ f <> wf_id flow))
  /\ (forall w, ne_when e = Some w -> is_ok (parse_expr w) = true).

Definition step_ok (in_branch : bool) (s : Step) : Prop :=
  ~ In (st_id s) ["input"; "each"]
  /\ (forall entries, st_next s = Some entries ->
        in_branch = false /\ Forall entry_ok entries
        /\ Exists (fun e => ne_when e = None) entries)
  /\ (forall e, st_each s = Some e -> is_ok (parse_path e) = true)
  /\ (forall v r, st_input s = Some v -> refers v r -> is_ok (parse_path r) = true).

Definition flow_ok : Prop :=
  wf_steps flow <> []
  /\ (forall c, wf_config flow = Some c -> fc_timeout c = None \/ fc_timeout_ms c = None)
  /\ NoDup (map (fun bs => st_id (snd bs)) (flat_steps false (wf_steps flow)))
  /\ Forall (fun bs => step_ok (fst bs) (snd bs)) (flat_steps false (wf_steps flow)).
End WellFormed.

(** ** Steps and their branches *)

Fixpoint step_ind' (P : Step -> Prop)
    (HP : forall s, (forall branches, st_parallel s = Some branches -> Forall (Forall P) branches) -> P s)
    (s : Step) {struct s} : P s.
Proof.
  apply HP. destruct s as [id b i n e [brs|] c]; simpl; [|discriminate].
  intros ? [= <-]. induction brs as [|br brs IH]; constructor; [|done].
  induction br as [|s br IHb]; constructor; [by apply step_ind'|done].
Defined.

Lemma flat_map_flat_map {A B C} (f : B -> list C) (g : A -> list B) (l : list A) :
  flat_map f (flat_map g l) = flat_map (fun x => flat_map f (g x)) l.
Proof. induction l as [|x l IH]; [done|]. simpl. by rewrite flat_map_app, IH. Qed.

Lemma flat_map_ext_Forall {A B} (f g : A -> list B) (l : list A) :
  Forall (fun x => f x = g x) l -> flat_map f l = flat_map g l.
Proof. induction 1 as [|x l Hx _ IH]; [done|]. simpl. by rewrite Hx, IH. Qed.

Lemma flat_map_nil {A B} (f : A -> list B) (l : list A) :
  flat_map f l = [] <-> Forall (fun x => f x = []) l.
Proof.
  induction l as [|x l IH]; simpl; [done|]. rewrite Forall_cons. split.
  - intros [H1 H2]%app_eq_nil. by rewrite <- IH.
  - intros [-> H2]. by apply IH.
Qed.

Lemma collect_step_flat (s : Step) (b : bool) (st : gset string * list ValidationError) :
  collect_step st s = fold_left collect_id (map snd (flat_step b s)) st.
Proof.
  revert b st. induction s as [s IH] using step_ind'. intros b st.
  assert (E : collect_step st s = match st_parallel s with
    | None => collect_id st s
    | Some branches => fold_left (fun st b => fold_left collect_step b st) branches (collect_id st s)
    end) by by destruct s.
  rewrite E. clear E.
  assert (E : flat_step b s = (b, s) :: match st_parallel s with
    | Some branches => flat_map (flat_map (flat_step true)) branches
    | None => [] end) by by destruct s.
  rewrite E. simpl. destruct (st_parallel s) as [branches|]; [|done].
  specialize (IH branches eq_refl). generalize (collect_id st s). clear E.
  induction IH as [|br brs Hbr _ IHbrs]; intros st'; [done|]. simpl.
  rewrite IHbrs, map_app, fold_left_app. f_equal. clear IHbrs. revert st'.
  induction Hbr as [|s' br Hs _ IHb]; intros st'; [done|]. simpl.
  by rewrite IHb, map_app, fold_left_app, (Hs true).
Qed.

Lemma collect_flat (steps : list Step) (b : bool) (st : gset string * list ValidationError) :
  collect_step_ids steps st = fold_left collect_id (map snd (flat_steps b steps)) st.
Proof.
  revert st. unfold collect_step_ids, flat_steps.
  induction steps as [|s steps IH]; intros st; [done|]. simpl.
  by rewrite IH, map_app, fold_left_app, (collect_step_flat s b).
Qed.

(** The errors of the id checks. *)
Lemma collect_errors (steps : list Step) (ids : gset string) (errors : list ValidationError) :
  (fold_left collect_id steps (ids, errors)).2 = []
  <-> errors = [] /\ Forall (fun s => is_reserved (st_id s) = false) steps
      /\ NoDup (map st_id steps) /\ (forall s, In s steps -> st_id s ∉ ids).
Proof.
  revert ids errors. induction steps as [|s steps IH]; intros ids errors; simpl.
  { split; [|tauto]. intros ->. split_and!; [done|constructor|constructor|done]. }
  rewrite IH, Forall_cons, NoDup_cons. clear IH.
  set (id := st_id s). destruct (is_reserved id) eqn:Er.
  { split; [|intros (_ & [? _] & _); done]. intros [H _]. destruct (bool_decide _) in H;
    [apply app_eq_nil in H as [_ ?]; done|by apply app_eq_nil in H as [_ ?]]. }
  destruct (bool_decide (id ∈ ids)) eqn:Ei.
  { apply bool_decide_eq_true in Ei. split; [intros [[_ ?]%app_eq_nil _]; done|].
    intros (_ & _ & _ & H). exfalso. apply (H s); [by left|done]. }
  apply bool_decide_eq_false in Ei. split.
  - intros (-> & Hr & Hn & Hs). split_and!; try done.
    + intros (s' & Heq & Hin)%list_elem_of_fmap. rewrite list_elem_of_In in Hin.
      apply (Hs s' Hin). rewrite <- Heq. set_solver.
    + intros s' [<-|Hin]; [done|]. specialize (Hs s' Hin). set_solver.
  - intros (-> & [_ Hr] & [Hid Hn] & Hs). split_and!; try done.
    intros s' Hin Hx. apply elem_of_union in Hx as [Heq%elem_of_singleton|Hx].
    + apply Hid, list_elem_of_fmap. exists s'. by rewrite list_elem_of_In.
    + apply (Hs s'); [by right|done].
Qed.

Section Decides.
Context `{JsonCrate} (flow : WaferFlow).
Let targets : gset string := list_to_set (map st_id (wf_steps flow)).

Lemma validate_step_flat (s : Step) (b : bool) :
  validate_step (wf_id flow) targets b s
  = flat_map (fun bs => validate_step_self (wf_id flow) targets (fst bs) (snd bs)) (flat_step b s).
Proof.
  revert b. induction s as [s IH] using step_ind'. intros b.
  assert (E : validate_step (wf_id flow) targets b s
    = validate_step_self (wf_id flow) targets b s
      ++ match st_parallel s with
         | Some branches => flat_map (flat_map (validate_step (wf_id flow) targets true)) branches
         | None => [] end) by by destruct s.
  rewrite E. clear E.
  assert (E : flat_step b s = (b, s) :: match st_parallel s with
    | Some branches => flat_map (flat_map (flat_step true)) branches
    | None => [] end) by by destruct s.
  rewrite E. simpl. f_equal. destruct (st_parallel s) as [branches|]; [|done].
  specialize (IH branches eq_refl). rewrite flat_map_flat_map. apply flat_map_ext_Forall.
  eapply Forall_impl; [exact IH|]. intros br Hbr. simpl. rewrite flat_map_flat_map.
  apply flat_map_ext_Forall. eapply Forall_impl; [exact Hbr|]. intros s' Hs'. apply Hs'.
Qed.

Lemma validate_steps_flat (steps : list Step) (b : bool) :
  validate_steps (wf_id flow) targets steps b
  = flat_map (fun bs => validate_step_self (wf_id flow) targets (fst bs) (snd bs)) (flat_steps b steps).
Proof.
  unfold validate_steps, flat_steps. rewrite flat_map_flat_map. apply flat_map_ext_Forall.
  apply Forall_forall. intros s _. apply validate_step_flat.
Qed.

Lemma expression_error_nil {A} (id : string) (r : result A ExprError) :
  expression_error id r = [] <-> is_ok r = true.
Proof. by destruct r. Qed.

Lemma input_errors_nil (id : string) (v : Value) :
  validate_input_expressions id v = []
  <-> forall r, refers v r -> is_ok (parse_path r) = true.
Proof.
  induction v as [|b|n|s|l IH|l IH] using value_ind'; simpl.
  1-3: split; [intros _ r Hr; inversion Hr|done].
  - destruct (starts_with "$." s) eqn:E.
    + rewrite expression_error_nil. split; [intros Ho r Hr; by inversion Hr; subst|].
      intros Hr. apply Hr. by constructor.
    + split; [|done]. intros _ r Hr. inversion Hr; congruence.
  - rewrite flat_map_nil. rewrite !Forall_forall in *. split.
    + intros Hl r Hr. inversion Hr as [| |? v ? Hin Hv]; subst.
      apply list_elem_of_In in Hin. by apply (proj1 (IH v Hin) (Hl v Hin)).
    + intros Hr v Hin. apply (IH v Hin). intros r Hv. apply Hr.
      eapply refers_array; [by apply list_elem_of_In|done].
  - rewrite flat_map_nil. rewrite !Forall_forall in *. split.
    + intros Hl r Hr. inversion Hr as [|? k v ? Hin Hv|]; subst.
      apply list_elem_of_In in Hin. by apply (proj1 (IH (k, v) Hin) (Hl (k, v) Hin)).
    + intros Hr [k v] Hin. apply (IH (k, v) Hin). intros r Hv. apply Hr.
      eapply refers_object; [by apply list_elem_of_In|done].
Qed.

Lemma entry_errors_nil (id : string) (e : NextEntry) :
  validate_entry (wf_id flow) targets id e = [] <-> entry_ok flow e.
Proof.
  unfold validate_entry, entry_ok. split.
  - intros [H1 H2]%app_eq_nil. split.
    + destruct (ne_step e) as [t|] eqn:Es, (ne_flow e) as [f|] eqn:Ef; try done.
      * left. exists t. split_and!; [done..|]. destruct (bool_decide (t ∈ targets)) eqn:E; [|done].
        apply bool_decide_eq_true in E. unfold targets in E.
        by rewrite elem_of_list_to_set, list_elem_of_In in E.
      * right. exists f. split_and!; [done..|]. intros ->. by rewrite eqs_refl in H1.
    + intros w Hw. rewrite Hw in H2. by apply expression_error_nil in H2.
  - intros [Ht Hw]. apply app_nil. split.
    + destruct Ht as [(t & -> & -> & Hin)|(f & -> & -> & Hne)].
      * rewrite bool_decide_true; [done|]. unfold targets.
        by rewrite elem_of_list_to_set, list_elem_of_In.
      * apply eqs_false in Hne. by rewrite Hne.
    + destruct (ne_when e) as [w|]; [|done]. by apply expression_error_nil, Hw.
Qed.

Lemma next_errors_nil (b : bool) (id : string) (next : option (list NextEntry)) :
  validate_next (wf_id flow) targets b id next = []
  <-> forall entries, next = Some entries ->
        b = false /\ Forall (entry_ok flow) entries /\ Exists (fun e => ne_when e = None) entries.
Proof.
  unfold validate_next. destruct next as [entries|]; [|done]. split.
  - intros [H1 [H2 H3]%app_eq_nil]%app_eq_nil ? [= <-]. split_and!.
    + by destruct b.
    + apply flat_map_nil in H2. eapply Forall_impl; [exact H2|]. intros e He.
      by apply entry_errors_nil in He.
    + destruct (existsb _ entries) eqn:E; [|done]. apply existsb_exists in E as (e & Hin & He).
      apply Exists_exists. exists e. rewrite list_elem_of_In. split; [done|]. by destruct (ne_when e).
  - intros Hn. destruct (Hn entries eq_refl) as (-> & Hok & Hd). simpl. apply app_nil. split.
    + apply flat_map_nil. eapply Forall_impl; [exact Hok|]. intros e He. by apply entry_errors_nil.
    + apply Exists_exists in Hd as (e & Hin & He). apply list_elem_of_In in Hin.
      replace (existsb _ entries) with true; [done|]. symmetry. apply existsb_exists.
      exists e. split; [done|]. by rewrite He.
Qed.

Lemma step_errors_nil (b : bool) (s : Step) :
  validate_step_self (wf_id flow) targets b s = [] /\ is_reserved (st_id s) = false
  <-> step_ok flow b s.
Proof.
  unfold validate_step_self, step_ok. rewrite !app_nil, next_errors_nil.
  assert (is_reserved (st_id s) = false <-> ~ In (st_id s) ["input"; "each"]) as ->.
  { unfold is_reserved. rewrite orb_false_iff, !eqs_false. simpl. intuition congruence. }
  assert (match st_each s with
     | Some each_expr => expression_error (st_id s) (parse_path each_expr)
     | None => [] end = []
    <-> forall e, st_each s = Some e -> is_ok (parse_path e) = true) as ->.
  { destruct (st_each s) as [e|]; [|done]. rewrite expression_error_nil.
    split; [by intros ? ? [= <-]|auto]. }
  assert (match st_input s with
     | Some input => validate_input_expressions (st_id s) input
     | None => [] end = []
    <-> forall v r, st_input s = Some v -> refers v r -> is_ok (parse_path r) = true) as ->.
  { destruct (st_input s) as [v|]; [|done]. rewrite input_errors_nil.
    split; [by intros ? ? ? [= <-]; auto|eauto]. }
  tauto.
Qed.

(** All step checks together. *)
Lemma steps_errors_nil (errors : list ValidationError) :
  (collect_step_ids (wf_steps flow) (∅, errors)).2 = []
  /\ validate_steps (wf_id flow) targets (wf_steps flow) false = []
  <-> errors = []
      /\ NoDup (map (fun bs => st_id (snd bs)) (flat_steps false (wf_steps flow)))
      /\ Forall (fun bs => step_ok flow (fst bs) (snd bs)) (flat_steps false (wf_steps flow)).
Proof.
  rewrite (collect_flat _ false), collect_errors, validate_steps_flat, flat_map_nil.
  rewrite map_map, Forall_map.
  assert (Hs : Forall (fun bs => step_ok flow (fst bs) (snd bs)) (flat_steps false (wf_steps flow))
    <-> Forall (fun bs => is_reserved (st_id (snd bs)) = false) (flat_steps false (wf_steps flow))
        /\ Forall (fun bs => validate_step_self (wf_id flow) targets (fst bs) (snd bs) = [])
             (flat_steps false (wf_steps flow))).
  { rewrite <- Forall_and. apply Forall_iff. intros [b s]. rewrite <- step_errors_nil. tauto. }
  rewrite Hs. unfold compose. set_solver.
Qed.
End Decides.

Lemma validate_iff `{JsonCrate} (flow : WaferFlow) :
  validate flow = Ok tt <-> flow_ok flow.
Proof.
  unfold validate, flow_ok. destruct (wf_steps flow) as [|s0 steps0] eqn:Es; [by split; [|intros [? _]]|].
  rewrite <- Es. assert (Hne : wf_steps flow <> []) by by rewrite Es. clear s0 steps0 Es.
  set (es := match wf_config flow with Some _ => _ | None => _ end).
  assert (Hes : es = [] <-> forall c, wf_config flow = Some c -> fc_timeout c = None \/ fc_timeout_ms c = None).
  { unfold es. destruct (wf_config flow) as [c|]; [|done].
    destruct (fc_timeout c) eqn:E1, (fc_timeout_ms c) eqn:E2; simpl;
      (split; [intros Hn; try done; intros ? [= <-]; auto|]); try done.
    intros Hc. destruct (Hc c eq_refl); congruence. }
  rewrite <- Hes, <- steps_errors_nil, <- app_nil.
  destruct (_ ++ _); split; (done || by intros [_ ?]).
Qed.

(** validation accepts exactly the well-formed flows: there is a step, at
    most one timeout, step ids are distinct across all branches and not
    reserved, only top-level steps route, each routing entry names one target -
    a top-level step or another flow -, a default entry exists, and every
    condition, fan-out path and input reference parses. *)
Theorem validate_decides `{JsonCrate} (flow : WaferFlow) :
  validate flow = Ok tt <-> flow_ok flow.
Proof. apply validate_iff. Qed.
