(* ===== verification/FlowPlan.v ===== *)
(** The compiled form of flows ([wafer-run/src/waferflow/plan.rs]): dispatch
    targets, configuration, templates, conditions and jump indices computed
    once.

    [expect] on a missing slot is the [None] of [compile_step]; [usize] has 64
    bits. *)

From stdpp Require Import pretty.
From S2P Require Import Prelude CoreTypes Grants Wrap BlockName Registration GrantFacts RegistrationFacts.
From S2P Require Import WrapProps RegistryProps Text Expr FlowTypes Accumulator FlowValidate.

(** [parse_config_map] ([wafer-block/src/config.rs]). *)
Definition parse_config_map `{JsonCrate} (config : Value) : gmap string string :=
  match config with
  | VObject obj =>
      fold_left (fun cfg '(k, v) =>
        match v with
        | VString s => <[k := s]> cfg
        | VNumber _ => <[k := display_json v]> cfg
        | VBool b => <[k := if b : bool then "true" else "false"]> cfg
        | _ => cfg
        end) obj ∅
  | _ => ∅
  end.

Definition DEFAULT_MAX_STEPS : N := 1000.
Definition USIZE_MAX : N := 18446744073709551615.

Inductive NextTarget :=
| NextStep (index : nat)
| MissingStep (id : string)
| NextFlow (id : string)
| NextNone.

Record CompiledNextEntry := mkCompiledNext {
  cn_when : option (string * CompiledCondition);
  cn_target : NextTarget
}.

Record CompiledEach := mkCompiledEach { ce_raw : string; ce_path : CompiledPath }.

Section Plan.
Context {B : Type} {Slot : Type}.

Record StepTarget := mkStepTarget {
  tg_name : string;
  tg_registered : @RegisteredBlock B;
  tg_slot : Slot
}.

(** A branch is the list of its compiled steps. *)
Inductive CompiledStep := mkCompiledStep {
  cs_id : string;
  cs_block_label : string;
  cs_target : option StepTarget;
  cs_input : option CompiledTemplate;
  cs_config : gmap string string;
  cs_each : option CompiledEach;
  cs_parallel : option (list (list CompiledStep));
  cs_next : option (list CompiledNextEntry)
}.

Record CompiledFlow := mkCompiledFlow {
  cf_id : string;
  cf_timeout : option Duration;
  cf_max_steps : N;
  cf_on_error : OnError.t;
  cf_uses_accumulator : bool;
  cf_steps : list CompiledStep
}.

(** The loop that fills the jump index: the first step of an id wins. *)
Fixpoint jump_index_from (i : nat) (steps : list Step) (index : gmap string nat) : gmap string nat :=
  match steps with
  | [] => index
  | s :: steps =>
      jump_index_from (S i) steps
        match index !! st_id s with Some _ => index | None => <[st_id s := i]> index end
  end.
Definition jump_index (steps : list Step) : gmap string nat := jump_index_from 0 steps ∅.

(** The results of a list, or nothing. *)
Section MapOption.
Context {X Y : Type} (f : X -> option Y).
Fixpoint map_option (l : list X) : option (list Y) :=
  match l with
  | [] => Some []
  | x :: l => match f x, map_option l with Some y, Some l => Some (y :: l) | _, _ => None end
  end.
End MapOption.

Section Compile.
Context `{JsonCrate} (reg : @RegistrationCore B Slot) (index : gmap string nat).

Definition compile_next_entry (e : NextEntry) : CompiledNextEntry :=
  mkCompiledNext
    (option_map (fun w => (w, compile_condition w)) (ne_when e))
    match ne_step e, ne_flow e with
    | Some s, _ => match index !! s with Some i => NextStep i | None => MissingStep s end
    | None, Some f => NextFlow f
    | None, None => NextNone
    end.

(** The dispatch target of a block name; the inner [None] is the panic. *)
Definition compile_target (block : string) : option (option StepTarget) :=
  match lookup_with_alias reg block with
  | None => Some None
  | Some (resolved, registered) =>
      match slots reg !! resolved with
      | Some slot => Some (Some (mkStepTarget resolved registered slot))
      | None => None
      end
  end.

(** [compile_step]. *)
Fixpoint compile_step (step : Step) : option CompiledStep :=
  match compile_target (st_block step),
        match st_parallel step with
        | None => Some None
        | Some branches => option_map Some (map_option (map_option compile_step) branches)
        end with
  | Some target, Some parallel =>
      Some (mkCompiledStep (st_id step) (st_block step) target
              (option_map compile_template (st_input step))
              (match st_config step with Some c => parse_config_map c | None => ∅ end)
              (option_map (fun raw => mkCompiledEach raw (compile_path raw)) (st_each step))
              parallel
              (option_map (map compile_next_entry) (st_next step)))
  | _, _ => None
  end.
End Compile.

(** [steps_use_accumulator]. *)
Fixpoint step_uses_accumulator (s : Step) : bool :=
  match st_input s with Some _ => true | None => false end
  || match st_each s with Some _ => true | None => false end
  || match st_parallel s with
     | Some branches => existsb (existsb step_uses_accumulator) branches
     | None => false
     end.
Definition steps_use_accumulator (steps : list Step) : bool := existsb step_uses_accumulator steps.

(** [compile_flow]. *)
Definition compile_flow `{JsonCrate} (reg : @RegistrationCore B Slot) (flow : WaferFlow)
  : option CompiledFlow :=
  let config := default default_flow_config (wf_config flow) in
  let max_steps := match fc_max_steps config with
                   | None => DEFAULT_MAX_STEPS
                   | Some n => N.min n USIZE_MAX
                   end in
  match map_option (compile_step reg (jump_index (wf_steps flow))) (wf_steps flow) with
  | None => None
  | Some steps =>
      Some (mkCompiledFlow (wf_id flow) (config_timeout config) max_steps (config_on_error config)
              (steps_use_accumulator (wf_steps flow)) steps)
  end.
End Plan.
Arguments StepTarget : clear implicits.
Arguments CompiledStep : clear implicits.
Arguments CompiledFlow : clear implicits.

(** * Compiling a valid flow against a sealed registry gives a plan whose
    targets all exist: the executor's defensive errors cannot arise. *)

(** ** The jump index *)

Lemma jump_index_from_sound (steps : list Step) (i : nat) (index : gmap string nat) (t : string) (j : nat) :
  jump_index_from i steps index !! t = Some j ->
  index !! t = Some j \/ exists s, (i <= j) /\ steps !! (j - i) = Some s /\ st_id s = t.
Proof.
  revert i index. induction steps as [|s steps IH]; intros i index H; simpl in H; [by left|].
  apply IH in H as [H|(s' & Hle & Hs & <-)].
  - destruct (index !! st_id s) eqn:E; [by left|].
    apply lookup_insert_Some in H as [[<- <-]|[_ H]]; [|by left].
    right. exists s. rewrite Nat.sub_diag. auto.
  - right. exists s'. split_and!; [lia| |done]. replace (j - i) with (S (j - S i)) by lia. done.
Qed.

Lemma jump_index_from_complete (steps : list Step) (i : nat) (index : gmap string nat) (t : string) :
  In t (map st_id steps) \/ is_Some (index !! t) ->
  is_Some (jump_index_from i steps index !! t).
Proof.
  revert i index. induction steps as [|s steps IH]; intros i index H; simpl.
  - by destruct H as [[]|H].
  - apply IH. destruct H as [[<-|Hin]|Hs]; [|by left|].
    + right. destruct (index !! st_id s) eqn:E; [by rewrite E|]. by rewrite lookup_insert_eq.
    + right. destruct (index !! st_id s) eqn:E; [done|].
      destruct (decide (st_id s = t)) as [->|Hne]; [by rewrite lookup_insert_eq|].
      by rewrite lookup_insert_ne.
Qed.

(** A named target is the first step of that id. *)
Lemma jump_index_target (steps : list Step) (t : string) :
  In t (map st_id steps) ->
  exists i s, jump_index steps !! t = Some i /\ steps !! i = Some s /\ st_id s = t.
Proof.
  intros Hin. destruct (jump_index_from_complete steps 0 ∅ t (or_introl Hin)) as [i Hi].
  exists i. apply jump_index_from_sound in Hi as Hs. destruct Hs as [H|(s & _ & Hs & Ht)].
  - by rewrite lookup_empty in H.
  - exists s. by rewrite Nat.sub_0_r in Hs.
Qed.

Section Compiled.
Context {B Slot : Type} (new_slot : Slot) `{UnicodeLower} `{JsonCrate}.
Context (reg : @RegistrationCore B Slot) (flow : WaferFlow).

(** ** What a plan must satisfy *)

(** A compiled entry routes where the document says. *)
Definition entry_compiled (e : NextEntry) (c : CompiledNextEntry) : Prop :=
  cn_when c = option_map (fun w => (w, compile_condition w)) (ne_when e)
  /\ match ne_step e with
     | Some t => exists i s, cn_target c = NextStep i /\ wf_steps flow !! i = Some s /\ st_id s = t
     | None => exists f, ne_flow e = Some f /\ cn_target c = NextFlow f /\ f <> wf_id flow
     end.

(** A compiled step dispatches to the registered block the document names, by
    its canonical name and with its slot. *)
Definition target_compiled (block : string) (t : option (StepTarget B Slot)) : Prop :=
  match t with
  | Some t => blocks reg !! tg_name t = Some (tg_registered t)
              /\ slots reg !! tg_name t = Some (tg_slot t)
              /\ tg_name t = canonicalize reg block
  | None => all_blocks reg !! canonicalize reg block = None
  end.

Definition next_compiled (next : option (list NextEntry)) (c : option (list CompiledNextEntry)) : Prop :=
  match next, c with
  | None, None => True
  | Some es, Some cs => Forall2 entry_compiled es cs /\ Exists (fun c => cn_when c = None) cs
  | _, _ => False
  end.

Definition step_compiled (s : Step) (c : CompiledStep B Slot) : Prop :=
  cs_id c = st_id s /\ target_compiled (st_block s) (cs_target c)
  /\ next_compiled (st_next s) (cs_next c).

(** No step of a branch routes. *)
Fixpoint branches_straight (c : CompiledStep B Slot) : Prop :=
  match cs_parallel c with
  | None => True
  | Some branches =>
      foldr (fun br P => foldr (fun c P => (cs_next c = None /\ branches_straight c) /\ P) True br /\ P)
        True branches
  end.

(** ** Compilation *)

Lemma map_option_Forall2 {X Y} (f : X -> option Y) (l : list X) (l' : list Y) :
  map_option f l = Some l' -> Forall2 (fun x y => f x = Some y) l l'.
Proof.
  revert l'. induction l as [|x l IH]; intros l' H1; simpl in H1; [injection H1 as <-; constructor|].
  destruct (f x) eqn:E; [|done]. destruct (map_option f l); [|done].
  injection H1 as <-. constructor; [done|by apply IH].
Qed.

Lemma map_option_total {X Y} (f : X -> option Y) (l : list X) :
  Forall (fun x => is_Some (f x)) l -> is_Some (map_option f l).
Proof.
  induction 1 as [|x l [y Hy] _ [l' IH]]; simpl; [by eexists|]. rewrite Hy, IH. by eexists.
Qed.

Lemma compile_step_eq (index : gmap string nat) (step : Step) :
  compile_step reg index step
  = match compile_target reg (st_block step),
          match st_parallel step with
          | None => Some None
          | Some branches => option_map Some (map_option (map_option (compile_step reg index)) branches)
          end with
    | Some target, Some parallel =>
        Some (mkCompiledStep (st_id step) (st_block step) target
                (option_map compile_template (st_input step))
                (match st_config step with Some c => parse_config_map c | None => ∅ end)
                (option_map (fun raw => mkCompiledEach raw (compile_path raw)) (st_each step))
                parallel
                (option_map (map (compile_next_entry index)) (st_next step)))
    | _, _ => None
    end.
Proof. by destruct step. Qed.

Lemma compile_target_ok (block : string) :
  reg_inv reg -> exists t, compile_target reg block = Some t /\ target_compiled block t.
Proof.
  intros Hi. unfold compile_target.
  destruct (lookup_with_alias reg block) as [[res rb]|] eqn:E.
  - apply (lookup_with_alias_sound _ _ _ _ Hi) in E as Hs. destruct Hs as (Hb & _ & _).
    assert (is_Some (slots reg !! res)) as [slot Hs].
    { apply elem_of_dom. rewrite (base_slots _ (inv_base _ Hi)). apply elem_of_dom. by eexists. }
    rewrite Hs. eexists. split; [done|]. simpl. split_and!; [done|done|].
    unfold lookup_with_alias in E. destruct (all_blocks reg !! _); [|done]. by injection E.
  - exists None. split; [done|]. simpl. unfold lookup_with_alias in E. by destruct (all_blocks reg !! _).
Qed.

Lemma compile_step_total (index : gmap string nat) (s : Step) :
  reg_inv reg -> is_Some (compile_step reg index s).
Proof.
  intros Hi. induction s as [s IH] using step_ind'. rewrite compile_step_eq.
  destruct (compile_target_ok (st_block s) Hi) as (t & -> & _).
  destruct (st_parallel s) as [branches|]; [|by eexists].
  specialize (IH branches eq_refl).
  destruct (map_option_total (map_option (compile_step reg index)) branches) as [brs ->];
    [|by eexists].
  eapply Forall_impl; [exact IH|]. intros br Hbr. by apply map_option_total.
Qed.

Lemma next_compiled_ok (s : Step) :
  step_ok flow false s ->
  next_compiled (st_next s) (option_map (map (compile_next_entry (jump_index (wf_steps flow)))) (st_next s)).
Proof.
  intros (_ & Hn & _). destruct (st_next s) as [es|]; [|done].
  destruct (Hn es eq_refl) as (_ & Hok & Hd). split.
  - clear Hd Hn. induction Hok as [|e es He _ IH]; [constructor|]. simpl. constructor; [|done].
    split; [done|]. destruct He as [[(t & Ht & Hf & Hin)|(f & Hs & Hf & Hne)] _].
    + rewrite Ht. destruct (jump_index_target _ _ Hin) as (i & s' & Hi & Hs & Hid).
      exists i, s'. unfold compile_next_entry. simpl. by rewrite Ht, Hi.
    + rewrite Hs. exists f. unfold compile_next_entry. simpl. by rewrite Hs, Hf.
  - apply Exists_exists in Hd as (e & Hin & He). apply Exists_exists.
    exists (compile_next_entry (jump_index (wf_steps flow)) e). split; [|simpl; by rewrite He].
    apply list_elem_of_fmap. by exists e.
Qed.

(** Branch steps of a valid flow have no routing, at any depth. *)
Definition branch_straight (bs : bool * Step) : Prop := fst bs = true -> st_next (snd bs) = None.

Lemma Forall_flat_map {X Y} (P : Y -> Prop) (f : X -> list Y) (l : list X) :
  Forall P (flat_map f l) <-> Forall (fun x => Forall P (f x)) l.
Proof. induction l as [|x l IH]; simpl; [done|]. by rewrite Forall_app, Forall_cons, IH. Qed.

Lemma flow_steps_ok :
  flow_ok flow ->
  Forall (fun s => step_ok flow false s /\ Forall branch_straight (flat_step false s)) (wf_steps flow).
Proof.
  intros (_ & _ & _ & Hok). apply Forall_flat_map in Hok. eapply Forall_impl; [exact Hok|].
  intros s Hs. split; [destruct s; by apply Forall_cons in Hs as [Hs _]|].
  eapply Forall_impl; [exact Hs|]. intros [b s'] (_ & Hn & _) Hb. simpl in *.
  destruct (st_next s') as [es|]; [|done]. destruct (Hn es eq_refl) as [? _]. congruence.
Qed.

Lemma compile_straight (index : gmap string nat) (s : Step) (b : bool) (c : CompiledStep B Slot) :
  Forall branch_straight (flat_step b s) -> compile_step reg index s = Some c -> branches_straight c.
Proof.
  revert b c. induction s as [s IH] using step_ind'. intros b c Hf Hc.
  rewrite compile_step_eq in Hc. destruct (compile_target reg (st_block s)) as [t|]; [|done].
  assert (E : flat_step b s = (b, s) :: match st_parallel s with
    | Some branches => flat_map (flat_map (flat_step true)) branches
    | None => [] end) by by destruct s.
  rewrite E in Hf. clear E. apply Forall_cons in Hf as [_ Hf].
  destruct (st_parallel s) as [branches|]; [|by injection Hc as <-].
  destruct (map_option _ branches) as [brs|] eqn:Eb; [|done]. injection Hc as <-. simpl.
  specialize (IH branches eq_refl). apply map_option_Forall2 in Eb.
  rewrite Forall_flat_map in Hf.
  induction Eb as [|br br' branches brs Hbr _ IHb]; [done|]. simpl.
  apply Forall_cons in IH as [IH1 IH2]. apply Forall_cons in Hf as [Hf1 Hf2].
  split; [|by apply IHb]. clear IHb IH2 Hf2. apply map_option_Forall2 in Hbr.
  rewrite Forall_flat_map in Hf1.
  induction Hbr as [|x c br br' Hx _ IHbr]; [done|]. simpl.
  apply Forall_cons in IH1 as [Hx1 IH1]. apply Forall_cons in Hf1 as [Hf1 Hf3].
  split; [|by apply IHbr]. split; [|by eapply Hx1].
  rewrite compile_step_eq in Hx. destruct (compile_target reg (st_block x)); [|done].
  assert (st_next x = None) as Hn by (destruct x; by apply Forall_cons in Hf1 as [Hf1 _]; apply Hf1).
  rewrite Hn in Hx. destruct (match st_parallel x with Some _ => _ | None => _ end); [|done].
  by injection Hx as <-.
Qed.

(** One top-level step of a valid flow. *)
Lemma compile_step_ok (s : Step) (c : CompiledStep B Slot) :
  reg_inv reg -> step_ok flow false s -> Forall branch_straight (flat_step false s) ->
  compile_step reg (jump_index (wf_steps flow)) s = Some c ->
  step_compiled s c /\ branches_straight c.
Proof.
  intros Hr Hs Hb Hc. split; [|by eapply compile_straight].
  rewrite compile_step_eq in Hc.
  destruct (compile_target_ok (st_block s) Hr) as (t & Ht & Htc). rewrite Ht in Hc.
  destruct (match st_parallel s with Some _ => _ | None => _ end); [|done].
  injection Hc as <-. split_and!; [done|done|]. by apply next_compiled_ok.
Qed.
End Compiled.

(** C6: a flow that passed validation, compiled against any registry of the
    program in which names and aliases are disjoint and aliases are one hop
    (every registry whose configuration files load only aliases that
    [add_alias] takes), always gives a plan (no slot is missing), and in it
    every routing entry leads where the document says - to an existing
    top-level step or to another flow -, every routing step has a default
    entry, every dispatch target is the registered block of the step with its
    own slot (none only where the registry has no such block), no branch step
    routes, and the step budget is a positive machine word. An alias to an
    alias, which only such a file can make, breaks it: [chained_alias_panics]. *)
Theorem compile_flow_sound {B Slot} (new_slot : Slot) `{UnicodeLower} `{JsonCrate}
    (reg : @RegistrationCore B Slot) (flow : WaferFlow) :
  any_reachable new_slot reg -> well_aliased reg -> validate flow = Ok tt ->
  (forall c n, wf_config flow = Some c -> fc_max_steps c = Some n -> (0 < n)%N) ->
  exists cf, compile_flow reg flow = Some cf
    /\ Forall2 (step_compiled reg flow) (wf_steps flow) (cf_steps cf)
    /\ Forall branches_straight (cf_steps cf)
    /\ (0 < cf_max_steps cf <= USIZE_MAX)%N.
Proof.
  intros Hr%base_inv_reachable Hw Hv%validate_iff Hm. unfold compile_flow. assert (Hi : reg_inv reg) by done.
  set (index := jump_index (wf_steps flow)). apply flow_steps_ok in Hv.
  destruct (map_option_total (compile_step reg index) (wf_steps flow)) as [cs Hcs].
  { apply Forall_forall. intros s _. by apply compile_step_total. }
  rewrite Hcs. eexists. split; [done|]. apply map_option_Forall2 in Hcs. simpl.
  assert (H3 : Forall2 (fun s c => step_compiled reg flow s c /\ branches_straight c) (wf_steps flow) cs).
  { apply Forall2_same_length_lookup. split; [by eapply Forall2_length|]. intros i s c Hs Hc.
    pose proof (proj1 (Forall_lookup _ _) Hv i s Hs) as [H1' H2'].
    eapply compile_step_ok; try done. exact (Forall2_lookup_lr _ _ _ i s c Hcs Hs Hc). }
  split_and!.
  - eapply Forall2_impl; [exact H3|]. by intros s c [? _].
  - eapply Forall2_Forall_r; [exact H3|]. apply Forall_true. by intros s c [_ ?].
  - unfold default, DEFAULT_MAX_STEPS, USIZE_MAX. destruct (wf_config flow) as [c|]; simpl; [|lia].
    destruct (fc_max_steps c) as [n|] eqn:E; simpl; [|lia]. specialize (Hm c n eq_refl E). lia.
  - unfold default, DEFAULT_MAX_STEPS, USIZE_MAX. destruct (wf_config flow) as [c|]; simpl; [|lia].
    destruct (fc_max_steps c) as [n|]; simpl; lia.
Qed.

(** A flow with a fan-out of branches and a conditional jump. *)
Definition sample_flow : WaferFlow :=
  mkWaferFlow "main"
    [mkStep "fetch" "app" None None None
       (Some [[mkStep "left" "acme/app" None None None None None];
              [mkStep "right" "other/block" None None None None None]]) None;
     mkStep "route" "acme/app" (Some (VString "$.left")) 
       (Some [mkNextEntry (Some "$.route == true") (Some "fetch") None;
              mkNextEntry None None (Some "next")]) None None None]
    None None None.

Lemma compile_flow_sound_witness :
  let json : JsonCrate := {| from_json _ := None; to_json _ := Ok ""; display_json _ := "" |} in
  exists cf, compile_flow sample_core sample_flow = Some cf
    /\ Forall2 (step_compiled sample_core sample_flow) (wf_steps sample_flow) (cf_steps cf)
    /\ Forall branches_straight (cf_steps cf)
    /\ (0 < cf_max_steps cf <= USIZE_MAX)%N.
Proof.
  apply (compile_flow_sound tt sample_core sample_flow);
    [apply reachable_any, sample_reachable|by eapply inv_aliased, reg_inv_reachable, sample_reachable
    |vm_compute; reflexivity|discriminate].
Defined.

(** A registry whose file aliased "a" to "b" and "b" to a block: one hop from
    "a" is no block's name, though the snapshot has it. *)
Definition chained_core : @RegistrationCore unit unit :=
  match register_block_inner tt core_new "acme/app" tt events_info with
  | Ok st => let st' := rebuild_all_blocks (load_aliases st [("a", "b"); ("b", "acme/app")]) in
             mkCore (blocks st') (all_blocks st') (aliases st') (slots st') (wrap st') true
  | Err _ => core_new
  end.

(** Compiling a valid flow with a step of such a name ends in the [expect] of
    [compile_target]: the alias is dispatched and has no slot. *)
Lemma chained_alias_panics :
  let json : JsonCrate := {| from_json _ := None; to_json _ := Ok ""; display_json _ := "" |} in
  let flow := mkWaferFlow "main" [mkStep "only" "a" None None None None None] None None None in
  any_reachable tt chained_core /\ validate flow = Ok tt
  /\ option_map fst (lookup_with_alias chained_core "a") = Some "b" /\ compile_flow chained_core flow = None.
Proof.
  split; [|split; [vm_compute; reflexivity|split; vm_compute; reflexivity]]. unfold any_reachable, chained_core.
  destruct (register_block_inner tt core_new "acme/app" tt events_info) as [st|] eqn:E; [|constructor].
  eapply rtc_l; [by eapply step_register|]. eapply rtc_l; [by apply step_load_aliases|]. apply rtc_once, step_seal_ok.
  vm_compute in E. injection E as <-. reflexivity.
Qed.
