(* ===== verification/RestrictiveHeaders.v ===== *)
(** Response headers that only get stricter
    ([wafer-run/src/waferflow/restrictive_headers.rs]).

    A position in the text of a [Permissions-Policy] is the rest of the text.
    Its parser loops have fuel; each turn consumes text, so its length is
    enough. *)

From stdpp Require Import pretty.
From S2P Require Import Prelude Text.

(** [later] unless [earlier] ranks strictly higher. *)
Definition stricter (rank : string -> nat) (earlier later : string) : string :=
  if rank later <? rank earlier then earlier else later.

(** ** Content-Security-Policy *)

(** [split_ascii_whitespace]: the non-empty runs between whitespace. *)
Fixpoint split_ascii_whitespace_from (word : string) (s : string) : list string :=
  match s with
  | EmptyString => if is_empty word then [] else [word]
  | String c s' =>
      if is_ascii_whitespace c
      then (if is_empty word then [] else [word]) ++ split_ascii_whitespace_from "" s'
      else split_ascii_whitespace_from (word +:+ String c "") s'
  end.
Definition split_ascii_whitespace (s : string) : list string := split_ascii_whitespace_from "" s.

(** The collapsed text of one policy. *)
Definition normalize_policy (policy : string) : string := join " " (split_ascii_whitespace policy).

(** [csp_union]. *)
Definition csp_union (earlier later : string) : string :=
  join ", " (fold_left (fun policies policy =>
    let policy := normalize_policy policy in
    if is_empty policy then policies else push_unique policies policy)
    (split "," earlier ++ split "," later) []).

(** ** Ranked headers *)

(** [x_frame_options_rank]. *)
Definition x_frame_options_rank (value : string) : nat :=
  let values := fold_left push_unique
                  (map (fun v => to_ascii_lowercase (trim v)) (split "," value)) [] in
  match values with
  | [v] => if v =s "deny" then 2 else if v =s "sameorigin" then 1 else 0
  | _ => if existsb (fun v => (v =s "deny") || (v =s "allowall") || (v =s "sameorigin")) values
         then 2 else 0
  end.

(** [is_nosniff]; [true] ranks over [false]. *)
Definition is_nosniff (value : string) : bool :=
  match split "," value with
  | v :: _ => eq_ignore_ascii_case (trim v) "nosniff"
  | [] => false
  end.

Definition REFERRER_POLICIES : list string :=
  ["no-referrer"; "same-origin"; "strict-origin"; "strict-origin-when-cross-origin"; "origin";
   "origin-when-cross-origin"; "no-referrer-when-downgrade"; "unsafe-url"].

Fixpoint position {A} (f : A -> bool) (l : list A) : option nat :=
  match l with
  | [] => None
  | x :: l => if f x then Some 0 else option_map S (position f l)
  end.

Fixpoint find_map {A B} (f : A -> option B) (l : list A) : option B :=
  match l with
  | [] => None
  | x :: l => match f x with Some y => Some y | None => find_map f l end
  end.

(** [referrer_rank]. *)
Definition referrer_rank (value : string) : nat :=
  match find_map (fun token => position (fun p => eq_ignore_ascii_case p (trim token)) REFERRER_POLICIES)
          (rev (split "," value)) with
  | Some i => length REFERRER_POLICIES - i
  | None => 0
  end.

(** ** Strict-Transport-Security *)

Record Hsts := mkHsts { max_age : N; include_subdomains : bool; preload : bool }.

Record hsts_state := mkHstsState {
  hs_seen : list string;
  hs_max_age : option N;
  hs_include : bool;
  hs_preload : bool
}.

(** One quote off each end, or the text itself. *)
Definition strip_quotes (arg : string) : string :=
  default arg (strip_prefix (String DQUOTE "") arg ≫= strip_suffix (String DQUOTE "")).

(** One directive of [parse_hsts]; [None] is the early return. *)
Definition hsts_directive (st : hsts_state) (directive : string) : option hsts_state :=
  let '(name, arg) := match split_once "=" directive with
                      | Some (name, arg) => (trim name, Some (trim arg))
                      | None => (directive, None)
                      end in
  let name := to_ascii_lowercase name in
  if existsb (String.eqb name) (hs_seen st) then None
  else
    let seen := hs_seen st ++ [name] in
    if name =s "max-age" then
      match arg with
      | None => None
      | Some arg =>
          let ds := strip_quotes arg in
          if is_empty ds || negb (str_forallb is_ascii_digit ds) then None
          else Some (mkHstsState seen (Some (default U64_MAX (parse_u64_digits ds)))
                       (hs_include st) (hs_preload st))
      end
    else if name =s "includesubdomains" then
      Some (mkHstsState seen (hs_max_age st) true (hs_preload st))
    else if name =s "preload" then Some (mkHstsState seen (hs_max_age st) (hs_include st) true)
    else Some (mkHstsState seen (hs_max_age st) (hs_include st) (hs_preload st)).

Fixpoint hsts_directives (st : hsts_state) (ds : list string) : option hsts_state :=
  match ds with
  | [] => Some st
  | d :: ds => match hsts_directive st d with Some st => hsts_directives st ds | None => None end
  end.

(** [parse_hsts]. *)
Definition parse_hsts (value : string) : option Hsts :=
  match hsts_directives (mkHstsState [] None false false)
          (List.filter (fun d => negb (is_empty d)) (map trim (split ";" value))) with
  | None => None
  | Some st => option_map (fun age => mkHsts age (hs_include st) (hs_preload st)) (hs_max_age st)
  end.

Definition print_hsts (h : Hsts) : string :=
  "max-age=" +:+ pretty (max_age h)
  +:+ (if include_subdomains h then "; includeSubDomains" else "")
  +:+ (if preload h then "; preload" else "").

(** [hsts_union]. *)
Definition hsts_union (earlier later : string) : string :=
  match parse_hsts earlier, parse_hsts later with
  | Some a, Some b =>
      print_hsts (mkHsts (N.max (max_age a) (max_age b))
                    (include_subdomains a || include_subdomains b)
                    (include_subdomains a && preload a || include_subdomains b && preload b))
  | Some _, None => earlier
  | None, _ => later
  end.

(** ** Permissions-Policy *)

Module Perm.
Inductive Allowlist := All | Only (items : list string).
End Perm.

Record Permission := mkPermission { feature : string; allowlist : Perm.Allowlist }.

Definition perm_meet (a b : Perm.Allowlist) : Perm.Allowlist :=
  match a, b with
  | Perm.All, l | l, Perm.All => l
  | Perm.Only a, Perm.Only b =>
      Perm.Only (List.filter (fun item => existsb (String.eqb item) b) a)
  end.

(** [Permission::intersect]. *)
Definition perm_intersect (self : Permission) (other : Perm.Allowlist) : string :=
  match perm_meet (allowlist self) other with
  | Perm.All => feature self +:+ "=*"
  | Perm.Only items => feature self +:+ "=(" +:+ join " " items +:+ ")"
  end.

(** The longest prefix of bytes in a class, and the rest. *)
Fixpoint span (p : ascii -> bool) (s : string) : string * string :=
  match s with
  | EmptyString => ("", "")
  | String c s' => if p c then let '(a, b) := span p s' in (String c a, b) else ("", s)
  end.
Definition skip (p : ascii -> bool) (s : string) : string := snd (span p s).

Definition byte_in (set : string) (c : ascii) : bool := contains (String c "") set.
Definition is_sp (c : ascii) : bool := Ascii.eqb c " ".
Definition is_ows (c : ascii) : bool := Ascii.eqb c " " || (byte_of c =? 9)%N.
Definition is_tchar (c : ascii) : bool := is_ascii_alphanumeric c || byte_in "!#$%&'*+-.^_`|~" c.
Definition key_char (c : ascii) : bool :=
  is_ascii_lowercase c || is_ascii_digit c || byte_in "_-.*" c.

(** [parse_key]. *)
Definition parse_key (s : string) : option (string * string) :=
  match s with
  | String c s' =>
      if is_ascii_lowercase c || Ascii.eqb c "*"
      then let '(k, rest) := span key_char s' in Some (String c k, rest)
      else None
  | EmptyString => None
  end.

(** The body of a quoted string, closing quote included. *)
Fixpoint quoted_body (s : string) : option (string * string) :=
  match s with
  | EmptyString => None
  | String c s' =>
      if Ascii.eqb c BACKSLASH then
        match s' with
        | String d s'' =>
            if Ascii.eqb d DQUOTE || Ascii.eqb d BACKSLASH
            then option_map (fun '(b, rest) => (String c (String d b), rest)) (quoted_body s'')
            else None
        | EmptyString => None
        end
      else if Ascii.eqb c DQUOTE then Some (String c "", s')
      else if in_range 32 126 c
           then option_map (fun '(b, rest) => (String c b, rest)) (quoted_body s')
           else None
  end.

(** [parse_bare_item]. *)
Definition parse_bare_item (s : string) : option (string * string) :=
  match s with
  | EmptyString => None
  | String c s' =>
      if Ascii.eqb c DQUOTE then
        option_map (fun '(b, rest) => (String c b, rest)) (quoted_body s')
      else if is_ascii_alphabetic c || Ascii.eqb c "*" then
        let '(b, rest) := span (fun b => is_tchar b || Ascii.eqb b ":" || Ascii.eqb b "/") s' in
        Some (String c b, rest)
      else if is_ascii_digit c || Ascii.eqb c "-" then
        let '(b, rest) := span (fun b => is_ascii_digit b || Ascii.eqb b ".") s' in
        Some (String c b, rest)
      else if Ascii.eqb c "?" then
        match s' with
        | String d s'' => if Ascii.eqb d "0" || Ascii.eqb d "1"
                          then Some (String c (String d ""), s'') else None
        | EmptyString => None
        end
      else if Ascii.eqb c ":" then
        let '(b, rest) := span (fun b => is_ascii_alphanumeric b || byte_in "+/=" b) s' in
        match rest with
        | String ":" rest => Some (String c (b +:+ ":"), rest)
        | _ => None
        end
      else None
  end.

(** [parse_params]. *)
Fixpoint parse_params_fuel (fuel : nat) (s : string) : option string :=
  match fuel with
  | O => None
  | S fuel =>
      match strip_prefix ";" s with
      | None => Some s
      | Some s =>
          match parse_key (skip is_sp s) with
          | None => None
          | Some (_, rest) =>
              match strip_prefix "=" rest with
              | None => parse_params_fuel fuel rest
              | Some rest => match parse_bare_item rest with
                             | Some (_, rest) => parse_params_fuel fuel rest
                             | None => None
                             end
              end
          end
      end
  end.
Definition parse_params (s : string) : option string := parse_params_fuel (S (String.length s)) s.

(** [parse_inner_list], past the opening parenthesis. *)
Fixpoint parse_inner_list_fuel (fuel : nat) (s : string) (items : list string)
  : option (list string * string) :=
  match fuel with
  | O => None
  | S fuel =>
      let s := skip is_sp s in
      match strip_prefix ")" s with
      | Some rest => option_map (fun rest => (items, rest)) (parse_params rest)
      | None =>
          match parse_bare_item s with
          | None => None
          | Some (item, rest) =>
              match parse_params rest with
              | None => None
              | Some rest =>
                  if starts_with " " rest || starts_with ")" rest
                  then parse_inner_list_fuel fuel rest (items ++ [item])
                  else None
              end
          end
      end
  end.
Definition parse_inner_list (s : string) : option (list string * string) :=
  parse_inner_list_fuel (S (String.length s)) s [].

(** The value of a member: its items, and the rest. *)
Definition parse_member_value (s : string) : option (list string * string) :=
  match strip_prefix "=" s with
  | Some s =>
      match strip_prefix "(" s with
      | Some s => parse_inner_list s
      | None => match parse_bare_item s with
                | Some (item, rest) => option_map (fun rest => ([item], rest)) (parse_params rest)
                | None => None
                end
      end
  | None => option_map (fun rest => ([], rest)) (parse_params s)
  end.

Definition allowlist_of (items : list string) : Perm.Allowlist :=
  if existsb (String.eqb "*") items then Perm.All else Perm.Only items.

(** A later member of a feature replaces an earlier one. *)
Fixpoint put_member (out : list Permission) (m : Permission) : list Permission :=
  match out with
  | [] => [m]
  | x :: out => if feature x =s feature m then m :: out else x :: put_member out m
  end.

(** [parse_permissions], from a position between members. *)
Fixpoint parse_members (fuel : nat) (s : string) (out : list Permission) : option (list Permission) :=
  match fuel with
  | O => None
  | S fuel =>
      if is_empty s then Some out
      else
        match parse_key s with
        | None => None
        | Some (feature, rest) =>
            match parse_member_value rest with
            | None => None
            | Some (items, rest) =>
                let out := put_member out (mkPermission feature (allowlist_of items)) in
                let rest := skip is_ows rest in
                if is_empty rest then Some out
                else match strip_prefix "," rest with
                     | None => None
                     | Some rest =>
                         let rest := skip is_ows rest in
                         if is_empty rest then None else parse_members fuel rest out
                     end
            end
        end
  end.
Definition parse_permissions (value : string) : option (list Permission) :=
  parse_members (S (String.length value)) (skip is_ows value) [].

Definition find_feature (f : string) (l : list Permission) : option Permission :=
  List.find (fun m => feature m =s f) l.

(** [permissions_intersection]. *)
Definition permissions_intersection (earlier later : string) : string :=
  match parse_permissions earlier, parse_permissions later with
  | Some a, Some b =>
      let default_list := Perm.Only ["self"] in
      let other l m := match find_feature (feature m) l with
                       | Some m => allowlist m
                       | None => default_list
                       end in
      join ", "
        (map (fun m => perm_intersect m (other b m)) a
         ++ map (fun m => perm_intersect m default_list)
              (List.filter (fun m => negb (existsb (fun n => feature n =s feature m) a)) b))
  | Some _, None => earlier
  | None, _ => later
  end.

(** [combine]. *)
Definition combine (lower_name earlier later : string) : option string :=
  if lower_name =s "content-security-policy" then Some (csp_union earlier later)
  else if lower_name =s "x-frame-options" then Some (stricter x_frame_options_rank earlier later)
  else if lower_name =s "x-content-type-options"
       then Some (stricter (fun v => Nat.b2n (is_nosniff v)) earlier later)
  else if lower_name =s "referrer-policy" then Some (stricter referrer_rank earlier later)
  else if lower_name =s "strict-transport-security" then Some (hsts_union earlier later)
  else if lower_name =s "permissions-policy" then Some (permissions_intersection earlier later)
  else None.
