(* ===== verification/RestrictiveFacts.v ===== *)
(** Lemmas on the header values of [RestrictiveHeaders]: policies and their
    words, transport-security directives, and the structured-field parser -
    what it consumes, and that it reads back what the intersection prints. *)

From stdpp Require Import pretty.
From S2P Require Import Prelude Text RestrictiveHeaders.

(** ** Words and policies *)

Definition lacks (c : ascii) (s : string) : Prop := str_forallb (fun a => negb (Ascii.eqb a c)) s = true.
Definition no_ws (s : string) : Prop := str_forallb (fun a => negb (is_ascii_whitespace a)) s = true.

Lemma lacks_app (c : ascii) (a b : string) : lacks c (a +:+ b) <-> lacks c a /\ lacks c b.
Proof. unfold lacks. rewrite str_forallb_app. apply andb_true_iff. Qed.

(** The words of a text: not empty, no white space, and no byte it lacks. *)
Lemma split_ws_words (c : ascii) (s word : string) :
  no_ws word -> lacks c word -> lacks c s ->
  Forall (fun w => w <> "" /\ no_ws w /\ lacks c w) (split_ascii_whitespace_from word s).
Proof.
  revert word. induction s as [|a s IH]; intros word Hw Hc Hs; simpl.
  - destruct (is_empty word) eqn:E; constructor; [|constructor].
    split_and!; try done. intros ->. done.
  - unfold lacks in Hs. simpl in Hs. apply andb_true_iff in Hs as [Ha Hs].
    destruct (is_ascii_whitespace a) eqn:E.
    + apply Forall_app. split; [|by apply IH].
      destruct (is_empty word) eqn:Ew; constructor; [|constructor].
      split_and!; try done. intros ->. done.
    + apply IH; [| |done].
      * unfold no_ws in *. rewrite str_forallb_app, Hw. simpl. by rewrite E.
      * apply lacks_app. split; [done|]. unfold lacks. simpl. by rewrite Ha.
Qed.

Lemma split_ws_word (w word rest : string) :
  no_ws w -> split_ascii_whitespace_from word (w +:+ rest) = split_ascii_whitespace_from (word +:+ w) rest.
Proof.
  revert word. induction w as [|a w IH]; intros word Hw; simpl; [by rewrite str_app_nil_r|].
  unfold no_ws in Hw. simpl in Hw. apply andb_true_iff in Hw as [Ha Hw].
  apply negb_true_iff in Ha. rewrite Ha, IH by done. by rewrite <- str_app_assoc.
Qed.

(** Joined words are split again. *)
Lemma split_ws_join (ws : list string) :
  Forall (fun w => w <> "" /\ no_ws w) ws -> split_ascii_whitespace (join " " ws) = ws.
Proof.
  unfold split_ascii_whitespace. induction 1 as [|w ws [Hne Hw] Hws IH]; [done|].
  destruct ws as [|w' ws].
  - simpl. rewrite <- (str_app_nil_r w) at 1. rewrite split_ws_word by done. simpl.
    by destruct w.
  - change (join " " (w :: w' :: ws)) with (w +:+ String " " (join " " (w' :: ws))).
    rewrite split_ws_word by done.
    change (split_ascii_whitespace_from ("" +:+ w) (String " " (join " " (w' :: ws))))
      with ((if is_empty w then [] else [w]) ++ split_ascii_whitespace_from "" (join " " (w' :: ws))).
    rewrite IH. by destruct w.
Qed.

Lemma join_lacks (c : ascii) (sep : string) (ws : list string) :
  lacks c sep -> Forall (lacks c) ws -> lacks c (join sep ws).
Proof.
  intros Hs. induction 1 as [|w ws Hw Hws IH]; [done|]. destruct ws as [|w' ws]; [done|].
  change (join sep (w :: w' :: ws)) with (w +:+ sep +:+ join sep (w' :: ws)).
  rewrite !lacks_app. done.
Qed.

(** A collapsed policy. *)
Definition policy_ok (p : string) : Prop := p <> "" /\ normalize_policy p = p /\ lacks "," p.

Lemma normalize_ok (x : string) :
  lacks "," x -> normalize_policy x = "" \/ policy_ok (normalize_policy x).
Proof.
  intros Hx. pose proof (split_ws_words "," x "" eq_refl eq_refl Hx) as Hw.
  destruct (decide (normalize_policy x = "")) as [|Hne]; [by left|]. right. split_and!; [done| |].
  - unfold normalize_policy. rewrite split_ws_join; [done|].
    eapply Forall_impl; [exact Hw|]. by intros w (? & ? & ?).
  - unfold normalize_policy. apply join_lacks; [done|].
    eapply Forall_impl; [exact Hw|]. by intros w (? & ? & ?).
Qed.

(** The policies a browser enforces for a value. *)
Definition policies (value : string) : list string :=
  List.filter (fun p => negb (is_empty p)) (map normalize_policy (split "," value)).

Lemma policies_cons (p rest : string) :
  policy_ok p -> policies (p +:+ "," +:+ rest) = p :: policies rest.
Proof.
  intros (Hne & Hn & Hl). unfold policies. simpl ("," +:+ rest).
  rewrite split_app_sep by done. simpl. rewrite Hn. by destruct p.
Qed.

Lemma policies_space (s : string) : policies (" " +:+ s) = policies s.
Proof.
  unfold policies. simpl (" " +:+ s).
  assert (E : exists w ws, split "," s = w :: ws /\ split "," (String " " s) = String " " w :: ws).
  { simpl. destruct (split "," s) as [|w ws] eqn:E; [by apply split_not_nil in E|]. by exists w, ws. }
  destruct E as (w & ws & -> & ->). simpl. reflexivity.
Qed.

Lemma policies_join (ps : list string) : Forall policy_ok ps -> policies (join ", " ps) = ps.
Proof.
  induction 1 as [|p ps Hp Hps IH]; [done|]. destruct ps as [|p' ps].
  - simpl. destruct Hp as (Hne & Hn & Hl). unfold policies. rewrite split_no_sep by done. simpl.
    rewrite Hn. by destruct p.
  - change (join ", " (p :: p' :: ps)) with (p +:+ "," +:+ (" " +:+ join ", " (p' :: ps))).
    rewrite policies_cons by done. by rewrite policies_space, IH.
Qed.

Lemma split_lacks (c : ascii) (s : string) : Forall (lacks c) (split c s).
Proof.
  induction s as [|a s IH]; simpl; [by repeat constructor|].
  destruct (Ascii.eqb a c) eqn:E; [by constructor|].
  destruct (split c s) as [|w ws]; [by repeat constructor; unfold lacks; simpl; rewrite E|].
  apply Forall_cons in IH as [Hw Hws]. constructor; [|done]. unfold lacks in *. simpl. by rewrite E.
Qed.

(** The union enforces the policies of both. *)
Lemma csp_union_policies (earlier later p : string) :
  In p (policies (csp_union earlier later)) <-> In p (policies earlier) \/ In p (policies later).
Proof.
  unfold csp_union.
  assert (E : forall xs acc, Forall (lacks ",") xs -> Forall policy_ok acc ->
    let ps := fold_left (fun policies policy =>
      if is_empty (normalize_policy policy) then policies
      else push_unique policies (normalize_policy policy)) xs acc in
    Forall policy_ok ps
    /\ forall p, In p ps <-> In p acc
         \/ In p (List.filter (fun p => negb (is_empty p)) (map normalize_policy xs))).
  { induction xs as [|x xs IH]; intros acc Hx Ha; simpl; [split; [done|tauto]|].
    apply Forall_cons in Hx as [Hx Hxs].
    destruct (is_empty (normalize_policy x)) eqn:Ee; simpl; [by apply IH|].
    destruct (normalize_ok x Hx) as [E|Hok]; [by rewrite E in Ee|].
    destruct (IH (push_unique acc (normalize_policy x)) Hxs) as [H1 H2].
    { unfold push_unique. destruct (existsb _ acc); [done|]. apply Forall_app. split; [done|]. constructor; [done|constructor]. }
    split; [done|]. intros q. rewrite H2. unfold push_unique.
    destruct (existsb _ acc) eqn:Ex; [|rewrite in_app_iff; simpl; tauto].
    apply existsb_exists in Ex as (y & Hy & <-%eqs_true). split; [tauto|].
    intros [?|[<-|?]]; tauto. }
  destruct (E (split "," earlier ++ split "," later) []) as [H1 H2].
  { apply Forall_app. split; apply split_lacks. }
  { constructor. }
  simpl in *. rewrite policies_join by done. rewrite H2, map_app, List.filter_app, in_app_iff.
  unfold policies. tauto.
Qed.

(** ** Strict-Transport-Security *)

Lemma digits_solid (s : string) :
  s <> "" -> str_forallb is_ascii_digit s = true -> solid_ends s.
Proof.
  intros Hne Hd.
  assert (Hsol : forall c, is_ascii_digit c = true -> solid c = true).
  { intros [[] [] [] [] [] [] [] []]; vm_compute; done. }
  split.
  - destruct s as [|c s]; [done|]. simpl in Hd. apply andb_true_iff in Hd as [Hc _].
    exists c, s. auto.
  - induction s as [|c s IH]; [done|]. simpl in Hd. apply andb_true_iff in Hd as [Hc Hd].
    destruct s as [|c' s]; [by exists c, ""; auto|].
    destruct IH as (b & t & E & Hb); [done|done|]. exists b, (String c t). by rewrite E.
Qed.

Lemma digits_lack (c : ascii) (s : string) :
  is_ascii_digit c = false -> str_forallb is_ascii_digit s = true -> lacks c s.
Proof.
  intros Hc. apply str_forallb_impl. intros a Ha. apply negb_true_iff, Ascii.eqb_neq.
  intros ->. congruence.
Qed.

(** The [max-age] directive of a printed value. *)
Lemma hsts_max_age (n : N) (st : hsts_state) :
  (n <= U64_MAX)%N -> hs_seen st = [] ->
  hsts_directive st ("max-age=" +:+ pretty n)
  = Some (mkHstsState ["max-age"] (Some n) (hs_include st) (hs_preload st)).
Proof.
  intros Hn Hs. destruct (pretty_N_word n) as (c & t & Hc & Hd & Hv). unfold hsts_directive.
  assert (E : split_once "=" ("max-age=" +:+ pretty n) = Some ("max-age", pretty n)) by done.
  rewrite E. assert (Hsol : solid_ends (pretty n)) by (apply digits_solid; [by rewrite Hc|done]).
  rewrite (trim_solid (pretty n)) by done.
  change (to_ascii_lowercase (trim "max-age")) with "max-age". rewrite Hs. simpl.
  assert (Eq : strip_quotes (pretty n) = pretty n).
  { unfold strip_quotes. destruct (strip_prefix _ _) as [r|] eqn:Er; [|done].
    apply strip_prefix_Some in Er. rewrite Er in Hd. done. }
  assert (Ep : parse_u64_digits (pretty n) = Some n).
  { unfold parse_u64_digits, digits. rewrite Hv, Hc. simpl.
    destruct (Z.leb_spec (Z.of_N n) 18446744073709551615); [by rewrite N2Z.id|].
    unfold U64_MAX in Hn. lia. }
  rewrite Eq, Hd, Ep. by rewrite Hc.
Qed.

(** A printed value reads back. *)
Lemma parse_print_hsts (h : Hsts) : (max_age h <= U64_MAX)%N -> parse_hsts (print_hsts h) = Some h.
Proof.
  destruct h as [n i p]. intros Hn. simpl in Hn. unfold parse_hsts, print_hsts.
  cbn [max_age include_subdomains preload]. rewrite (str_app_assoc "max-age=").
  destruct (pretty_N_word n) as (c & t & Hc & Hd & Hv).
  assert (Hl : lacks ";" ("max-age=" +:+ pretty n)).
  { apply lacks_app. split; [done|]. by apply digits_lack. }
  assert (Ht : trim ("max-age=" +:+ pretty n) = "max-age=" +:+ pretty n).
  { apply trim_solid. destruct (digits_solid (pretty n)) as [_ (b & s & E & Hb)]; [by rewrite Hc|done|].
    split; [by exists "m"%char, ("ax-age=" +:+ pretty n)|].
    exists b, ("max-age=" +:+ s). by rewrite E. }
  set (m := "max-age=" +:+ pretty n) in *.
  assert (Hm : forall rest, hsts_directives (mkHstsState [] None false false) (m :: rest)
    = hsts_directives (mkHstsState ["max-age"] (Some n) false false) rest).
  { intros rest. simpl. unfold m. by rewrite (hsts_max_age n (mkHstsState [] None false false) Hn eq_refl). }
  assert (Hf : negb (is_empty m) = true) by done.
  assert (Hone : split ";" (m +:+ "" +:+ "") = [m]) by (rewrite !str_app_nil_r; by apply split_no_sep).
  assert (Hmore : forall rest, split ";" (m +:+ String ";" rest) = m :: split ";" rest)
    by (intros rest; by apply split_app_sep).
  destruct i, p.
  - change (m +:+ "; includeSubDomains" +:+ "; preload") with (m +:+ String ";" " includeSubDomains; preload").
    rewrite Hmore. cbn [map List.filter]. rewrite Ht, Hf, Hm. vm_compute. reflexivity.
  - change (m +:+ "; includeSubDomains" +:+ "") with (m +:+ String ";" " includeSubDomains").
    rewrite Hmore. cbn [map List.filter]. rewrite Ht, Hf, Hm. vm_compute. reflexivity.
  - change (m +:+ "" +:+ "; preload") with (m +:+ String ";" " preload").
    rewrite Hmore. cbn [map List.filter]. rewrite Ht, Hf, Hm. vm_compute. reflexivity.
  - rewrite Hone. cbn [map List.filter]. rewrite Ht, Hf, Hm. reflexivity.
Qed.

(** The age a browser reads is a [u64]. *)
Lemma parse_hsts_bound (v : string) (h : Hsts) : parse_hsts v = Some h -> (max_age h <= U64_MAX)%N.
Proof.
  unfold parse_hsts. set (st := mkHstsState [] None false false).
  assert (H0 : forall n, hs_max_age st = Some n -> (n <= U64_MAX)%N) by done. revert H0.
  generalize st. clear st. generalize (List.filter (fun d => negb (is_empty d)) (map trim (split ";" v))).
  induction l as [|d l IH]; intros st H0; simpl.
  - destruct (hs_max_age st) as [n|]; [|done]. intros [= <-]. by apply H0.
  - destruct (hsts_directive st d) as [st'|] eqn:E; [|done]. apply IH. clear IH.
    unfold hsts_directive in E. destruct (match split_once _ d with Some _ => _ | None => _ end) as [name arg].
    destruct (existsb _ _); [done|].
    destruct (_ =s "max-age"); [|by repeat case_match; simplify_eq].
    destruct arg as [arg|]; [|done]. destruct (_ || _); [done|]. injection E as <-. simpl.
    intros n [= <-]. unfold parse_u64_digits. destruct (digits _) as [z|]; simpl; [|lia].
    destruct (Z.leb_spec z 18446744073709551615); unfold U64_MAX in *; simpl; lia.
Qed.

(** ** The structured-field parser *)

(** The first byte of a text, if any, is not in a class. *)
Definition stops (p : ascii -> bool) (s : string) : Prop :=
  match s with EmptyString => True | String c _ => p c = false end.

Lemma span_spec (p : ascii -> bool) (s a b : string) :
  span p s = (a, b) -> s = a +:+ b /\ str_forallb p a = true /\ stops p b.
Proof.
  revert a b. induction s as [|c s IH]; intros a b H; simpl in H; [by injection H as <- <-|].
  destruct (p c) eqn:E; [|injection H as <- <-; by simpl].
  destruct (span p s) as [a' b'] eqn:Es. injection H as <- <-.
  destruct (IH a' b' eq_refl) as (-> & Ha & Hb). simpl. by rewrite E.
Qed.

Lemma span_app (p : ascii -> bool) (a b : string) :
  str_forallb p a = true -> stops p b -> span p (a +:+ b) = (a, b).
Proof.
  intros Ha Hb. induction a as [|c a IH]; simpl.
  - destruct b as [|c b]; [done|]. simpl in *. by rewrite Hb.
  - simpl in Ha. apply andb_true_iff in Ha as [Hc Ha]. by rewrite Hc, IH.
Qed.

Lemma skip_stops (p : ascii -> bool) (s : string) : stops p s -> skip p s = s.
Proof. destruct s as [|c s]; [done|]. unfold skip. simpl. by intros ->. Qed.

Lemma skip_length (p : ascii -> bool) (s : string) : String.length (skip p s) <= String.length s.
Proof.
  unfold skip. destruct (span p s) as [a b] eqn:E. apply span_spec in E as (-> & _).
  simpl. rewrite str_length_app. lia.
Qed.

(** A key: what it is, and that it is read again before an equals sign. *)
Definition key_ok (k : string) : Prop := exists c k',
  k = String c k' /\ (is_ascii_lowercase c || Ascii.eqb c "*") = true /\ str_forallb key_char k' = true.

Lemma parse_key_spec (s k rest : string) :
  parse_key s = Some (k, rest) -> s = k +:+ rest /\ key_ok k.
Proof.
  destruct s as [|c s]; simpl; [done|]. destruct (_ || _) eqn:Ec; [|done].
  destruct (span key_char s) as [k' r] eqn:E. intros [= <- <-].
  apply span_spec in E as (-> & Hk & _). split; [done|]. by exists c, k'.
Qed.

Lemma parse_key_app (k rest : string) :
  key_ok k -> stops key_char rest -> parse_key (k +:+ rest) = Some (k, rest).
Proof.
  intros (c & k' & -> & Hc & Hk) Hr. simpl. rewrite Hc. by rewrite span_app.
Qed.

(** ** Items *)

Lemma quoted_body_spec (s b rest : string) :
  quoted_body s = Some (b, rest) ->
  s = b +:+ rest /\ forall rest', quoted_body (b +:+ rest') = Some (b, rest').
Proof.
  revert b rest. induction s as [s IH] using string_len_ind. intros b rest H.
  destruct s as [|c s]; simpl in H; [done|].
  destruct (Ascii.eqb c BACKSLASH) eqn:E1.
  - destruct s as [|d s]; [done|]. destruct (_ || _) eqn:E2; [|done].
    destruct (quoted_body s) as [[b' r']|] eqn:Eq; [|done]. injection H as <- <-.
    destruct (IH s ltac:(simpl; lia) b' r' Eq) as [-> Hr]. split; [done|].
    intros rest'. simpl. by rewrite E1, E2, Hr.
  - destruct (Ascii.eqb c DQUOTE) eqn:E2.
    + injection H as <- <-. split; [done|]. intros rest'. simpl. by rewrite E1, E2.
    + destruct (in_range 32 126 c) eqn:E3; [|done].
      destruct (quoted_body s) as [[b' r']|] eqn:Eq; [|done]. injection H as <- <-.
      destruct (IH s ltac:(simpl; lia) b' r' Eq) as [-> Hr]. split; [done|].
      intros rest'. simpl. by rewrite E1, E2, E3, Hr.
Qed.

(** Where an item of a list may end. *)
Definition item_end (s : string) : Prop :=
  match s with String c _ => (Ascii.eqb c " " || Ascii.eqb c ")") = true | EmptyString => False end.

(** The text of an item is read again before the end of an item, and it is
    neither a space nor a parenthesis that starts it. *)
Definition item_ok (item : string) : Prop :=
  (forall rest, item_end rest -> parse_bare_item (item +:+ rest) = Some (item, rest))
  /\ exists c t, item = String c t /\ (Ascii.eqb c " " || Ascii.eqb c ")") = false.

Lemma span_item (p : ascii -> bool) (s a b : string) :
  (forall c, (Ascii.eqb c " " || Ascii.eqb c ")") = true -> p c = false) ->
  span p s = (a, b) -> s = a +:+ b
    /\ forall rest, item_end rest -> span p (a +:+ rest) = (a, rest).
Proof.
  intros Hp Hs. apply span_spec in Hs as (-> & Ha & _). split; [done|].
  intros [|c rest] Hr; [done|]. apply span_app; [done|]. by apply Hp.
Qed.

Lemma parse_bare_item_spec (s item rest : string) :
  parse_bare_item s = Some (item, rest) -> s = item +:+ rest /\ item_ok item.
Proof.
  destruct s as [|c s]; [done|]. intros H.
  assert (Hc : (Ascii.eqb c " " || Ascii.eqb c ")") = false).
  { destruct (_ || _) eqn:E; [|done].
    apply orb_true_iff in E as [E|E]; apply Ascii.eqb_eq in E as ->; done. }
  simpl in H. unfold item_ok.
  destruct (Ascii.eqb c DQUOTE) eqn:E1.
  { destruct (quoted_body s) as [[b r]|] eqn:Eq; [|done]. injection H as <- <-.
    apply quoted_body_spec in Eq as [-> Hr]. split; [done|]. split; [|by exists c, b].
    intros rest' _. simpl. by rewrite E1, Hr. }
  destruct (is_ascii_alphabetic c || Ascii.eqb c "*") eqn:E2.
  { destruct (span _ s) as [b r] eqn:Es. injection H as <- <-. apply span_item in Es as [-> Hr].
    - split; [done|]. split; [|by exists c, b]. intros rest' He. simpl. by rewrite E1, E2, Hr.
    - intros d [E|E]%orb_true_iff; apply Ascii.eqb_eq in E as ->; reflexivity. }
  destruct (is_ascii_digit c || Ascii.eqb c "-") eqn:E3.
  { destruct (span _ s) as [b r] eqn:Es. injection H as <- <-. apply span_item in Es as [-> Hr].
    - split; [done|]. split; [|by exists c, b]. intros rest' He. simpl. by rewrite E1, E2, E3, Hr.
    - intros d [E|E]%orb_true_iff; apply Ascii.eqb_eq in E as ->; reflexivity. }
  destruct (Ascii.eqb c "?") eqn:E4.
  { destruct s as [|d s]; [done|]. destruct (Ascii.eqb d "0" || Ascii.eqb d "1") eqn:Ed; [|done].
    injection H as <- <-. split; [done|]. split; [|by exists c, (String d "")].
    intros rest' _. simpl. by rewrite E1, E2, E3, E4, Ed. }
  destruct (Ascii.eqb c ":") eqn:E5; [|done].
  destruct (span _ s) as [b r] eqn:Es. apply span_spec in Es as (-> & Hb & _).
  destruct r as [|d r]; [done|].
  assert (d = ":"%char /\ item = String c (b +:+ ":") /\ rest = r) as (-> & -> & ->).
  { destruct d as [[] [] [] [] [] [] [] []]; try done. by injection H as <- <-. }
  split; [simpl; by rewrite <- str_app_assoc|]. split; [|by exists c, (b +:+ ":")].
  intros rest' _. simpl. rewrite E1, E2, E3, E4, E5, <- str_app_assoc. simpl.
  by rewrite span_app.
Qed.

Lemma bare_item_shorter (s item rest : string) :
  parse_bare_item s = Some (item, rest) -> String.length rest < String.length s.
Proof.
  intros [-> (_ & c & t & -> & _)]%parse_bare_item_spec. simpl. rewrite str_length_app. lia.
Qed.

Lemma key_shorter (s k rest : string) :
  parse_key s = Some (k, rest) -> String.length rest < String.length s.
Proof.
  intros [-> (c & t & -> & _)]%parse_key_spec. simpl. rewrite str_length_app. lia.
Qed.

(** ** Parameters *)

#[local] Arguments strip_prefix : simpl never.

Lemma strip_shorter (p s rest : string) :
  strip_prefix p s = Some rest -> String.length s = String.length p + String.length rest.
Proof. intros ->%strip_prefix_Some. apply str_length_app. Qed.

(** More fuel than text changes nothing. *)
Lemma params_fuel (n m : nat) (s : string) :
  String.length s < n -> String.length s < m -> parse_params_fuel n s = parse_params_fuel m s.
Proof.
  revert m s. induction n as [|n IH]; intros m s Hn Hm; [lia|]. destruct m as [|m]; [lia|]. simpl.
  destruct (strip_prefix ";" s) as [s1|] eqn:E1; [|done]. apply strip_shorter in E1. simpl in E1.
  destruct (parse_key _) as [[k s2]|] eqn:E2; [|done]. apply key_shorter in E2.
  pose proof (skip_length is_sp s1).
  destruct (strip_prefix "=" s2) as [s3|] eqn:E3; [|apply IH; lia].
  apply strip_shorter in E3. simpl in E3.
  destruct (parse_bare_item s3) as [[i s4]|] eqn:E4; [|done]. apply bare_item_shorter in E4.
  apply IH; lia.
Qed.

Lemma params_shorter (s rest : string) :
  parse_params s = Some rest -> String.length rest <= String.length s.
Proof.
  unfold parse_params. generalize (S (String.length s)). intros n. revert s.
  induction n as [|n IH]; intros s H; [done|]. simpl in H.
  destruct (strip_prefix ";" s) as [s1|] eqn:E1; [|by injection H as <-].
  apply strip_shorter in E1. simpl in E1. pose proof (skip_length is_sp s1).
  destruct (parse_key _) as [[k s2]|] eqn:E2; [|done]. apply key_shorter in E2.
  destruct (strip_prefix "=" s2) as [s3|] eqn:E3; [|apply IH in H; lia].
  apply strip_shorter in E3. simpl in E3.
  destruct (parse_bare_item s3) as [[i s4]|] eqn:E4; [|done]. apply bare_item_shorter in E4.
  apply IH in H. lia.
Qed.

Lemma params_none (s : string) : strip_prefix ";" s = None -> parse_params s = Some s.
Proof. unfold parse_params. simpl. by intros ->. Qed.

(** ** Inner lists *)

Lemma inner_list_fuel (n m : nat) (s : string) (items : list string) :
  String.length s < n -> String.length s < m ->
  parse_inner_list_fuel n s items = parse_inner_list_fuel m s items.
Proof.
  revert m s items. induction n as [|n IH]; intros m s items Hn Hm; [lia|]. destruct m as [|m]; [lia|].
  simpl. pose proof (skip_length is_sp s). destruct (strip_prefix ")" _); [done|].
  destruct (parse_bare_item _) as [[i s1]|] eqn:E1; [|done]. apply bare_item_shorter in E1.
  destruct (parse_params s1) as [s2|] eqn:E2; [|done]. apply params_shorter in E2.
  destruct (_ || _); [|done]. apply IH; lia.
Qed.

Lemma inner_list_spec (s rest : string) (out items : list string) (n : nat) :
  parse_inner_list_fuel n s items = Some (out, rest) -> Forall item_ok items ->
  Forall item_ok out /\ String.length rest < String.length s.
Proof.
  revert s items. induction n as [|n IH]; intros s items H Hi; [done|]. simpl in H.
  pose proof (skip_length is_sp s). destruct (strip_prefix ")" _) as [r|] eqn:E0.
  - apply strip_shorter in E0. simpl in E0.
    destruct (parse_params r) as [r'|] eqn:Ep; [|done]. apply params_shorter in Ep.
    injection H as <- <-. split; [done|lia].
  - destruct (parse_bare_item _) as [[i s1]|] eqn:E1; [|done].
    apply bare_item_shorter in E1 as Hl. apply parse_bare_item_spec in E1 as [_ Hok].
    destruct (parse_params s1) as [s2|] eqn:E2; [|done]. apply params_shorter in E2.
    destruct (_ || _); [|done]. apply IH in H as [? ?]; [split; [done|lia]|].
    apply Forall_app. split; [done|]. constructor; [done|constructor].
Qed.

(** The items of a list, each after a space. *)
Fixpoint spaced (items : list string) : string :=
  match items with [] => "" | i :: items => " " +:+ i +:+ spaced items end.

Lemma join_spaced (i : string) (items : list string) : join " " (i :: items) = i +:+ spaced items.
Proof.
  revert i. induction items as [|j items IH]; intros i; [simpl; by rewrite str_app_nil_r|].
  change (join " " (i :: j :: items)) with (i +:+ " " +:+ join " " (j :: items)). by rewrite IH.
Qed.

Lemma inner_list_skip (n : nat) (s : string) (acc : list string) :
  parse_inner_list_fuel n (String " " s) acc = parse_inner_list_fuel n s acc.
Proof.
  destruct n as [|n]; [done|]. cbn [parse_inner_list_fuel].
  assert (E : skip is_sp (String " " s) = skip is_sp s) by (unfold skip; simpl; by destruct (span is_sp s)).
  by rewrite E.
Qed.

Lemma spaced_end (items : list string) (tail : string) :
  item_end (spaced items +:+ ")" +:+ tail)
  /\ strip_prefix ";" (spaced items +:+ ")" +:+ tail) = None
  /\ (starts_with " " (spaced items +:+ ")" +:+ tail)
      || starts_with ")" (spaced items +:+ ")" +:+ tail)) = true.
Proof. by destruct items. Qed.

Lemma inner_list_spaced (items : list string) (tail : string) (n : nat) (acc : list string) :
  Forall item_ok items -> strip_prefix ";" tail = None -> length items < n ->
  parse_inner_list_fuel n (spaced items +:+ ")" +:+ tail) acc = Some (acc ++ items, tail).
Proof.
  intros Hi Ht. revert n acc. induction Hi as [|i items Hi Hitems IH]; intros n acc Hn;
    (destruct n as [|n]; [simpl in Hn; lia|]).
  - cbn [spaced parse_inner_list_fuel]. rewrite skip_stops by done.
    change (strip_prefix ")" ("" +:+ ")" +:+ tail)) with (Some tail). cbv iota.
    rewrite params_none by done. simpl. by rewrite app_nil_r.
  - simpl in Hn. change (spaced (i :: items) +:+ ")" +:+ tail)
      with (String " " ((i +:+ spaced items) +:+ ")" +:+ tail)).
    rewrite inner_list_skip, <- str_app_assoc. cbn [parse_inner_list_fuel].
    destruct (spaced_end items tail) as (He & Hp & Hs). destruct Hi as [Hr (c & t & -> & Hc)].
    apply orb_false_iff in Hc as [Hc1 Hc2].
    rewrite skip_stops by (simpl; unfold is_sp; done). rewrite Hr by done.
    rewrite (params_none _ Hp), Hs, IH by (done || lia).
    assert (E : strip_prefix ")" (String c t +:+ spaced items +:+ ")" +:+ tail) = None).
    { destruct (strip_prefix ")" _) as [r|] eqn:E; [|done]. apply strip_prefix_Some in E.
      injection E as -> _. done. }
    rewrite E. by rewrite <- app_assoc.
Qed.

Lemma spaced_length (items : list string) : length items <= String.length (spaced items).
Proof. induction items as [|i items IH]; simpl; [lia|]. rewrite str_length_app. lia. Qed.

(** A printed list reads back. *)
Lemma inner_list_print (items : list string) (tail : string) :
  Forall item_ok items -> strip_prefix ";" tail = None ->
  parse_inner_list (join " " items +:+ ")" +:+ tail) = Some (items, tail).
Proof.
  intros Hi Ht. unfold parse_inner_list. destruct items as [|i items].
  - by apply (inner_list_spaced []); [|done|simpl; lia].
  - rewrite join_spaced, <- inner_list_skip.
    change (String " " ((i +:+ spaced items) +:+ ")" +:+ tail)) with (spaced (i :: items) +:+ ")" +:+ tail).
    rewrite (inner_list_spaced (i :: items)); [done|done|done|]. rewrite !str_length_app. simpl.
    pose proof (spaced_length items). destruct Hi as [|? ? [_ (c & t & -> & _)] _]; simpl; lia.
Qed.

(** ** Members *)

(** What parsing makes of a member. *)
Definition member_ok (m : Permission) : Prop :=
  key_ok (feature m)
  /\ match allowlist m with
     | Perm.All => True
     | Perm.Only items => Forall item_ok items /\ ~ In "*" items
     end.

Definition members_ok (ms : list Permission) : Prop :=
  Forall member_ok ms /\ NoDup (map feature ms).

Lemma member_value_spec (s rest : string) (items : list string) :
  parse_member_value s = Some (items, rest) ->
  Forall item_ok items /\ String.length rest <= String.length s.
Proof.
  unfold parse_member_value. destruct (strip_prefix "=" s) as [s1|] eqn:E1.
  - apply strip_shorter in E1. simpl in E1. destruct (strip_prefix "(" s1) as [s2|] eqn:E2.
    + apply strip_shorter in E2. simpl in E2. intros H.
      apply inner_list_spec in H as [? ?]; [split; [done|lia]|constructor].
    + destruct (parse_bare_item s1) as [[i s2]|] eqn:E3; [|done].
      apply bare_item_shorter in E3 as Hl. apply parse_bare_item_spec in E3 as [_ Hok].
      destruct (parse_params s2) as [s3|] eqn:E4; [|done]. apply params_shorter in E4.
      intros [= <- <-]. split; [constructor; [done|constructor]|lia].
  - destruct (parse_params s) as [s3|] eqn:E4; [|done]. apply params_shorter in E4.
    intros [= <- <-]. split; [constructor|lia].
Qed.

Lemma allowlist_of_ok (f : string) (items : list string) :
  key_ok f -> Forall item_ok items -> member_ok (mkPermission f (allowlist_of items)).
Proof.
  intros Hf Hi. split; [done|]. simpl. unfold allowlist_of.
  destruct (existsb _ items) eqn:E; [done|]. split; [done|]. intros Hin.
  apply not_true_iff_false in E. apply E, existsb_exists. exists "*". by rewrite eqs_refl.
Qed.

Lemma put_member_spec (ms : list Permission) (m : Permission) :
  members_ok ms -> member_ok m ->
  members_ok (put_member ms m)
  /\ (~ In (feature m) (map feature ms) -> put_member ms m = ms ++ [m]).
Proof.
  intros [Hok Hn] Hm. induction ms as [|x ms IH]; simpl.
  - split; [|done]. split; [by constructor|]. simpl. constructor; [apply not_elem_of_nil|constructor].
  - apply Forall_cons in Hok as [Hx Hok]. simpl in Hn. rewrite NoDup_cons in Hn. destruct Hn as [Hxn Hn].
    destruct (IH Hok Hn) as [[H1 H2] H3]. destruct (String.eqb_spec (feature x) (feature m)) as [E|E].
    + split; [|intros H; exfalso; apply H; by left]. split; [by constructor|].
      simpl. rewrite <- E. by constructor.
    + split; [|intros H; rewrite H3; [done|tauto]]. split; [by constructor|]. simpl.
      constructor; [|done]. intros Hin. apply list_elem_of_fmap in Hin as (y & Hy & Hin).
      assert (Hy' : y = m \/ In y ms).
      { clear - Hin. induction ms as [|z ms IH]; simpl in Hin.
        - left. by apply list_elem_of_singleton in Hin.
        - destruct (feature z =s feature m); apply elem_of_cons in Hin as [->|Hin]; simpl; auto.
          + right. right. by apply list_elem_of_In.
          + destruct (IH Hin); auto. }
      destruct Hy' as [->|Hy']; [done|]. apply Hxn. rewrite Hy. apply list_elem_of_fmap.
      exists y. by rewrite list_elem_of_In.
Qed.

Lemma members_fuel (n m : nat) (s : string) (out : list Permission) :
  String.length s < n -> String.length s < m -> parse_members n s out = parse_members m s out.
Proof.
  revert m s out. induction n as [|n IH]; intros m s out Hn Hm; [lia|]. destruct m as [|m]; [lia|].
  simpl. destruct (is_empty s); [done|]. destruct (parse_key s) as [[f s1]|] eqn:E1; [|done].
  apply key_shorter in E1. destruct (parse_member_value s1) as [[items s2]|] eqn:E2; [|done].
  apply member_value_spec in E2 as [_ E2]. pose proof (skip_length is_ows s2).
  destruct (is_empty (skip is_ows s2)); [done|]. destruct (strip_prefix "," _) as [s3|] eqn:E3; [|done].
  apply strip_shorter in E3. simpl in E3. pose proof (skip_length is_ows s3).
  destruct (is_empty (skip is_ows s3)); [done|]. apply IH; lia.
Qed.

Lemma parse_members_ok (n : nat) (s : string) (out ms : list Permission) :
  parse_members n s out = Some ms -> members_ok out -> members_ok ms.
Proof.
  revert s out. induction n as [|n IH]; intros s out H Ho; [done|]. simpl in H.
  destruct (is_empty s); [by injection H as <-|]. destruct (parse_key s) as [[f s1]|] eqn:E1; [|done].
  apply parse_key_spec in E1 as [_ Hf].
  destruct (parse_member_value s1) as [[items s2]|] eqn:E2; [|done].
  apply member_value_spec in E2 as [Hi _].
  destruct (put_member_spec out _ Ho (allowlist_of_ok f items Hf Hi)) as [Hp _].
  destruct (is_empty (skip is_ows s2)); [by injection H as <-|].
  destruct (strip_prefix "," _) as [s3|]; [|done].
  destruct (is_empty (skip is_ows s3)); [done|]. by eapply IH.
Qed.

Definition print_member (m : Permission) : string :=
  match allowlist m with
  | Perm.All => feature m +:+ "=*"
  | Perm.Only items => feature m +:+ "=(" +:+ join " " items +:+ ")"
  end.

(** A printed member reads back before the end or a comma. *)
Lemma member_print (m : Permission) (tail : string) :
  member_ok m -> tail = "" \/ (exists t, tail = String "," t) ->
  exists rest items, parse_key (print_member m +:+ tail) = Some (feature m, rest)
    /\ parse_member_value rest = Some (items, tail) /\ allowlist_of items = allowlist m.
Proof.
  intros [Hk Ha] Ht.
  assert (Hsemi : strip_prefix ";" tail = None) by (by destruct Ht as [->|[t ->]]).
  unfold print_member. destruct (allowlist m) as [|items].
  - exists ("=*" +:+ tail), ["*"]. rewrite <- str_app_assoc, parse_key_app by done. split_and!; [done| |done].
    unfold parse_member_value. change (strip_prefix "=" ("=*" +:+ tail)) with (Some ("*" +:+ tail)).
    cbv iota. change (strip_prefix "(" ("*" +:+ tail)) with (@None string). cbv iota.
    assert (E : parse_bare_item ("*" +:+ tail) = Some ("*", tail)) by (by destruct Ht as [->|[t ->]]).
    by rewrite E, params_none.
  - destruct Ha as [Hi Hs]. exists ("=(" +:+ join " " items +:+ ")" +:+ tail), items.
    rewrite <- !str_app_assoc, parse_key_app by done. split_and!; [done| |].
    + unfold parse_member_value.
      change (strip_prefix "=" ("=(" +:+ join " " items +:+ ")" +:+ tail))
        with (Some ("(" +:+ join " " items +:+ ")" +:+ tail)). cbv iota.
      change (strip_prefix "(" ("(" +:+ join " " items +:+ ")" +:+ tail))
        with (Some (join " " items +:+ ")" +:+ tail)). cbv iota.
      by apply inner_list_print.
    + unfold allowlist_of. destruct (existsb _ items) eqn:E; [|done].
      apply existsb_exists in E as (x & Hx & <-%eqs_true). done.
Qed.

Lemma print_member_start (m : Permission) (rest : string) :
  member_ok m -> exists c t, print_member m +:+ rest = String c t /\ is_ows c = false.
Proof.
  intros [Hk _]. destruct Hk as (c & k & Hf & Hc & _).
  assert (is_ows c = false) by (destruct c as [[] [] [] [] [] [] [] []]; done).
  unfold print_member. rewrite Hf. destruct (allowlist m); simpl; eauto.
Qed.

Lemma members_print (ms out : list Permission) (n : nat) :
  members_ok (out ++ ms) -> length ms < n ->
  parse_members n (join ", " (map print_member ms)) out = Some (out ++ ms).
Proof.
  revert out n. induction ms as [|m ms IH]; intros out n Hok Hn; (destruct n as [|n]; [simpl in Hn; lia|]).
  { simpl. by rewrite app_nil_r. }
  destruct Hok as [Hok Hnd]. apply Forall_app in Hok as Hok'. destruct Hok' as [Hout Hms].
  apply Forall_cons in Hms as [Hm Hms]. rewrite map_app in Hnd. simpl in Hnd.
  assert (Hput : put_member out (mkPermission (feature m) (allowlist m)) = out ++ [m]).
  { destruct m as [f a]. apply NoDup_app in Hnd as (Hn1 & Hn2 & _).
    apply (proj2 (put_member_spec out (mkPermission f a) (conj Hout Hn1) Hm)). simpl. intros Hin.
    apply (Hn2 f); [by apply list_elem_of_In|apply elem_of_cons; by left]. }
  destruct ms as [|m' ms].
  - simpl (join _ _). destruct (member_print m "" Hm (or_introl eq_refl)) as (r & items & E1 & E2 & E3).
    rewrite str_app_nil_r in E1. destruct (print_member_start m "" Hm) as (c & t & E & _).
    rewrite str_app_nil_r in E. cbn [parse_members]. rewrite E1, E2, E3, E, Hput. reflexivity.
  - change (join ", " (map print_member (m :: m' :: ms)))
      with (print_member m +:+ String "," (" " +:+ join ", " (map print_member (m' :: ms)))).
    set (next := join ", " (map print_member (m' :: ms))) in *.
    destruct (member_print m (String "," (" " +:+ next)) Hm (or_intror (ex_intro _ _ eq_refl)))
      as (r & items & E1 & E2 & E3).
    destruct (print_member_start m (String "," (" " +:+ next)) Hm) as (c & t & E & _).
    cbn [parse_members]. rewrite E1, E2, E3, E, Hput.
    change (skip is_ows (String "," (" " +:+ next))) with (String "," (" " +:+ next)).
    change (strip_prefix "," (String "," (" " +:+ next))) with (Some (" " +:+ next)).
    assert (Hne : exists c t, next = String c t /\ is_ows c = false).
    { unfold next. destruct ms as [|m2 ms].
      - apply Forall_cons in Hms as [Hm' _]. destruct (print_member_start m' "" Hm') as (c' & t' & E' & ?).
        rewrite str_app_nil_r in E'. eauto.
      - apply Forall_cons in Hms as [Hm' _]. by apply print_member_start. }
    destruct Hne as (c' & t' & Hne & Hows).
    assert (Hskip : skip is_ows (" " +:+ next) = next).
    { rewrite Hne. unfold skip. simpl. by rewrite Hows. }
    rewrite Hskip. simpl (is_empty (String c t)). simpl (is_empty (String "," _)). cbv iota.
    rewrite Hne at 1. simpl (is_empty _). cbv iota.
    rewrite IH; [by rewrite <- app_assoc| |simpl in *; lia].
    rewrite <- app_assoc. split; [done|]. rewrite map_app. done.
Qed.

(** A printed policy reads back. *)
Lemma permissions_print (ms : list Permission) :
  members_ok ms -> parse_permissions (join ", " (map print_member ms)) = Some ms.
Proof.
  intros Hok. unfold parse_permissions.
  assert (Hl : forall ms, Forall member_ok ms ->
    length ms <= String.length (join ", " (map print_member ms))).
  { induction 1 as [|m l Hm Hl IH]; [simpl; lia|].
    destruct (print_member_start m "" Hm) as (c & t & E & _). rewrite str_app_nil_r in E.
    destruct l as [|m' l]; [simpl; rewrite E; simpl; lia|].
    change (join ", " (map print_member (m :: m' :: l)))
      with (print_member m +:+ ", " +:+ join ", " (map print_member (m' :: l))).
    rewrite !str_length_app, E. cbn [length String.length] in *. lia. }
  assert (Hs : skip is_ows (join ", " (map print_member ms)) = join ", " (map print_member ms)).
  { destruct Hok as [[|m l Hm Hl'] _]; [done|]. apply skip_stops. destruct l as [|m' l].
    - simpl. destruct (print_member_start m "" Hm) as (c & t & E & Ho). rewrite str_app_nil_r in E.
      by rewrite E.
    - change (join ", " (map print_member (m :: m' :: l)))
        with (print_member m +:+ ", " +:+ join ", " (map print_member (m' :: l))).
      destruct (print_member_start m (", " +:+ join ", " (map print_member (m' :: l))) Hm)
        as (c & t & E & Ho). by rewrite E. }
  rewrite Hs, (members_print ms []); [done|done|]. specialize (Hl ms (proj1 Hok)). lia.
Qed.

Lemma parse_permissions_ok (v : string) (ms : list Permission) :
  parse_permissions v = Some ms -> members_ok ms.
Proof. intros H. eapply parse_members_ok; [exact H|]. split; constructor. Qed.

(** * Combining two producers' security headers never loosens either. *)

(** ** Meanings *)

Lemma stricter_rank (rank : string -> nat) (earlier later : string) :
  rank (stricter rank earlier later) = Nat.max (rank earlier) (rank later).
Proof. unfold stricter. destruct (Nat.ltb_spec (rank later) (rank earlier)); lia. Qed.

(** What both of two transport-security values ask for; one a browser ignores
    asks for nothing. *)
Definition hsts_both (a b : option Hsts) : option Hsts :=
  match a, b with
  | Some a, Some b =>
      Some (mkHsts (N.max (max_age a) (max_age b)) (include_subdomains a || include_subdomains b)
              (include_subdomains a && preload a || include_subdomains b && preload b))
  | Some a, None => Some a
  | None, b => b
  end.

Lemma hsts_union_both (earlier later : string) :
  parse_hsts (hsts_union earlier later) = hsts_both (parse_hsts earlier) (parse_hsts later).
Proof.
  unfold hsts_union. destruct (parse_hsts earlier) as [a|] eqn:Ea, (parse_hsts later) as [b|] eqn:Eb; try done.
  apply parse_print_hsts. apply parse_hsts_bound in Ea, Eb. simpl. lia.
Qed.

(** The allowlist a value gives a feature, and who an allowlist admits. *)
Definition feature_list (ms : list Permission) (f : string) : option Perm.Allowlist :=
  option_map allowlist (find_feature f ms).

Definition admitted (l : Perm.Allowlist) (who : string) : Prop :=
  match l with Perm.All => True | Perm.Only items => In who items end.

(** The allowlist both values leave a feature; a feature one of them does not
    name is left at most to the page itself. *)
Definition lists_both (a b : option Perm.Allowlist) : option Perm.Allowlist :=
  match a, b with
  | Some a, Some b => Some (perm_meet a b)
  | Some a, None | None, Some a => Some (perm_meet a (Perm.Only ["self"]))
  | None, None => None
  end.

Lemma perm_meet_admitted (a b : Perm.Allowlist) (who : string) :
  admitted (perm_meet a b) who <-> admitted a who /\ admitted b who.
Proof.
  destruct a as [|a], b as [|b]; simpl; try tauto.
  rewrite List.filter_In, existsb_exists. split.
  - intros [Ha (x & Hx & ->%eqs_true)]. done.
  - intros [Ha Hb]. split; [done|]. exists who. by rewrite eqs_refl.
Qed.

(** ** The intersection of two policies *)

Lemma perm_intersect_print (m : Permission) (other : Perm.Allowlist) :
  perm_intersect m other = print_member (mkPermission (feature m) (perm_meet (allowlist m) other)).
Proof. done. Qed.

Lemma member_meet_ok (m : Permission) (other : Perm.Allowlist) :
  member_ok m -> match other with Perm.Only items => Forall item_ok items /\ ~ In "*" items | _ => True end ->
  member_ok (mkPermission (feature m) (perm_meet (allowlist m) other)).
Proof.
  intros [Hk Ha] Ho. split; [done|]. simpl. destruct (allowlist m) as [|a], other as [|b]; try done.
  destruct Ha as [Ha Hs]. split.
  - apply Forall_forall. intros x Hx. apply list_elem_of_In, List.filter_In in Hx as [Hx _].
    by apply (proj1 (Forall_forall _ _) Ha x), list_elem_of_In.
  - intros [Hin _]%List.filter_In. done.
Qed.

Lemma self_ok : Forall item_ok ["self"] /\ ~ In "*" ["self"].
Proof.
  split; [|by intros [?|[]]]. constructor; [|constructor].
  exact (proj2 (parse_bare_item_spec "self" "self" "" eq_refl)).
Qed.

(** The members the intersection prints. *)
Definition other_list (l : list Permission) (m : Permission) : Perm.Allowlist :=
  match find_feature (feature m) l with Some m => allowlist m | None => Perm.Only ["self"] end.
Definition met_members (a b : list Permission) : list Permission :=
  map (fun m => mkPermission (feature m) (perm_meet (allowlist m) (other_list b m))) a
  ++ map (fun m => mkPermission (feature m) (perm_meet (allowlist m) (Perm.Only ["self"])))
       (List.filter (fun m => negb (existsb (fun n => feature n =s feature m) a)) b).

Lemma find_feature_Some (f : string) (l : list Permission) (m : Permission) :
  find_feature f l = Some m -> In m l /\ feature m = f.
Proof. intros [Hin E]%List.find_some. by apply eqs_true in E. Qed.

Lemma find_feature_None (f : string) (l : list Permission) :
  find_feature f l = None <-> ~ In f (map feature l).
Proof.
  induction l as [|m l IH]; simpl; [tauto|].
  destruct (String.eqb_spec (feature m) f); [split; [done|tauto]|].
  unfold find_feature in IH. rewrite IH. tauto.
Qed.

Lemma find_feature_map (g : Permission -> Perm.Allowlist) (f : string) (l : list Permission) :
  find_feature f (map (fun m => mkPermission (feature m) (g m)) l)
  = option_map (fun m => mkPermission (feature m) (g m)) (find_feature f l).
Proof. induction l as [|m l IH]; simpl; [done|]. by destruct (feature m =s f). Qed.

Lemma find_feature_app (f : string) (l k : list Permission) :
  find_feature f (l ++ k) = match find_feature f l with Some m => Some m | None => find_feature f k end.
Proof. induction l as [|m l IH]; simpl; [done|]. by destruct (feature m =s f). Qed.

Lemma find_feature_filter (f : string) (a b : list Permission) :
  find_feature f a = None ->
  find_feature f (List.filter (fun m => negb (existsb (fun n => feature n =s feature m) a)) b)
  = find_feature f b.
Proof.
  intros Ha%find_feature_None. induction b as [|m b IH]; simpl; [done|].
  destruct (String.eqb_spec (feature m) f) as [<-|Hne].
  - destruct (existsb _ a) eqn:E; simpl; [|by rewrite eqs_refl].
    apply existsb_exists in E as (n & Hn & En%eqs_true). exfalso. apply Ha. rewrite <- En.
    by apply in_map.
  - destruct (negb _); simpl; [|done]. by apply eqs_false in Hne as ->.
Qed.

Lemma met_members_list (a b : list Permission) (f : string) :
  feature_list (met_members a b) f = lists_both (feature_list a f) (feature_list b f).
Proof.
  unfold feature_list, met_members. rewrite find_feature_app, !find_feature_map.
  destruct (find_feature f a) as [m|] eqn:Ea; simpl.
  - apply find_feature_Some in Ea as [_ <-]. unfold other_list.
    by destruct (find_feature (feature m) b).
  - rewrite find_feature_filter by done. by destruct (find_feature f b).
Qed.

Lemma met_members_ok (a b : list Permission) :
  members_ok a -> members_ok b -> members_ok (met_members a b).
Proof.
  intros [Ha Hna] [Hb Hnb]. unfold met_members. split.
  - apply Forall_app. split; apply Forall_map.
    + eapply Forall_impl; [exact Ha|]. intros m Hm. apply member_meet_ok; [done|]. unfold other_list.
      destruct (find_feature _ b) as [m'|] eqn:E; [|apply self_ok].
      apply find_feature_Some in E as [Hin _]. apply list_elem_of_In in Hin.
      destruct (proj1 (Forall_forall _ _) Hb m' Hin) as [_ Hm']. by destruct (allowlist m').
    + apply Forall_forall. intros m Hin. apply list_elem_of_In, List.filter_In in Hin as [Hin _].
      apply member_meet_ok; [|apply self_ok].
      by apply (proj1 (Forall_forall _ _) Hb), list_elem_of_In.
  - rewrite map_app, !map_map. simpl. apply NoDup_app. split_and!; [done| |].
    + intros f Hf Hg. apply list_elem_of_In, in_map_iff in Hg as (m & <- & Hm).
      apply List.filter_In in Hm as [_ Hm]. apply negb_true_iff, not_true_iff_false in Hm.
      apply Hm, existsb_exists. apply list_elem_of_In, in_map_iff in Hf as (n & Hn & Hin).
      exists n. by rewrite Hn, eqs_refl.
    + clear -Hnb. induction b as [|m b IH]; simpl; [constructor|].
      simpl in Hnb. rewrite NoDup_cons in Hnb. destruct Hnb as [Hm Hnb].
      destruct (negb _); simpl; [|by apply IH]. constructor; [|by apply IH].
      intros Hin. apply Hm. apply list_elem_of_In, in_map_iff in Hin as (n & Hn & Hin).
      apply List.filter_In in Hin as [Hin _]. rewrite <- Hn. by apply list_elem_of_In, in_map.
Qed.

Lemma permissions_intersection_members (earlier later : string) (a b : list Permission) :
  parse_permissions earlier = Some a -> parse_permissions later = Some b ->
  parse_permissions (permissions_intersection earlier later) = Some (met_members a b).
Proof.
  intros Ha Hb. unfold permissions_intersection. rewrite Ha, Hb.
  rewrite <- (permissions_print (met_members a b)).
  - unfold met_members. by rewrite map_app, !map_map.
  - apply met_members_ok; by eapply parse_permissions_ok.
Qed.

(** for each of the six restrictive headers, the combination of two values
    is at least as strict as each. Frame, sniffing and referrer policies rank
    as the higher of the two; every content-security policy of either is
    enforced, and no other; transport security has the longer age and keeps
    subdomains and preload; a permission is granted to exactly those both
    values grant it to, a feature only one names at most to the page itself;
    a value a browser ignores leaves the other. The parser's fuel is always
    enough. *)
Theorem combine_never_loosens (earlier later : string) :
  (exists v, combine "x-frame-options" earlier later = Some v
     /\ x_frame_options_rank v = Nat.max (x_frame_options_rank earlier) (x_frame_options_rank later))
  /\ (exists v, combine "x-content-type-options" earlier later = Some v
     /\ is_nosniff v = is_nosniff earlier || is_nosniff later)
  /\ (exists v, combine "referrer-policy" earlier later = Some v
     /\ referrer_rank v = Nat.max (referrer_rank earlier) (referrer_rank later))
  /\ (exists v, combine "content-security-policy" earlier later = Some v
     /\ forall p, In p (policies v) <-> In p (policies earlier) \/ In p (policies later))
  /\ (exists v, combine "strict-transport-security" earlier later = Some v
     /\ parse_hsts v = hsts_both (parse_hsts earlier) (parse_hsts later))
  /\ (exists v, combine "permissions-policy" earlier later = Some v
     /\ match parse_permissions earlier, parse_permissions later with
        | Some a, Some b => exists c, parse_permissions v = Some c
            /\ (forall f, feature_list c f = lists_both (feature_list a f) (feature_list b f))
        | Some _, None => v = earlier
        | None, _ => v = later
        end)
  /\ (forall a b who, admitted (perm_meet a b) who <-> admitted a who /\ admitted b who)
  /\ (forall n s out, String.length s < n ->
        parse_members n s out = parse_members (S (String.length s)) s out).
Proof.
  split_and!; try (eexists; split; [reflexivity|]).
  - apply stricter_rank.
  - pose proof (stricter_rank (fun v => Nat.b2n (is_nosniff v)) earlier later) as Hr. cbv beta in Hr.
    by destruct (is_nosniff (stricter _ _ _)), (is_nosniff earlier), (is_nosniff later).
  - apply stricter_rank.
  - apply csp_union_policies.
  - apply hsts_union_both.
  - destruct (parse_permissions earlier) as [a|] eqn:Ea, (parse_permissions later) as [b|] eqn:Eb;
      try (unfold permissions_intersection; rewrite Ea; by rewrite ?Eb).
    exists (met_members a b). split; [by apply permissions_intersection_members|].
    intros f. apply met_members_list.
  - apply perm_meet_admitted.
  - intros n s out Hn. apply members_fuel; lia.
Qed.
