(* ===== verification/HttpMeta.v ===== *)
(** Response metadata as the HTTP boundary reads it
    ([wafer-block/src/http_codec.rs]): the classification of entries, the
    identity of cookies and the streaming decision. *)

From S2P Require Import Prelude CoreTypes Text.

(** ** Classification *)

Inductive ResponseMetaPart :=
| Status (code : N)
| Header (name value : string)
| SetCookie (directive : string)
| ContentType (value : string).

Definition TRANSPORT_OWNED_RESPONSE_HEADERS : list string :=
  ["connection"; "content-length"; "keep-alive"; "proxy-connection"; "te"; "trailer";
   "transfer-encoding"; "upgrade"].

Inductive InvalidResponseMetaKind := TransportOwned | Unsendable.

Record InvalidResponseMeta := mkInvalidMeta {
  im_key : string;
  im_reason : string;
  im_kind : InvalidResponseMetaKind
}.

Definition one_of (set : string) (c : ascii) : bool := contains (String c "") set.

(** [is_field_name]. *)
Definition is_field_name (name : string) : bool :=
  negb (is_empty name)
  && str_forallb (fun b => is_ascii_alphanumeric b || one_of "!#$%&'*+-.^_`|~" b) name.

(** [is_field_value]. *)
Definition is_field_value (value : string) : bool :=
  str_forallb (fun b => (byte_of b =? 9)%N || in_range 32 126 b) value.

Definition is_listed (l : list string) (name : string) : bool :=
  existsb (fun n => eq_ignore_ascii_case n name) l.

(** [v.parse::<u16>()]. *)
Definition parse_u16 : string -> option N := parse_unsigned (2 ^ 16).

(** [classify_response_meta]. *)
Definition classify_response_meta (entry : MetaEntry)
  : result (option ResponseMetaPart) InvalidResponseMeta :=
  let k := me_key entry in
  let v := me_value entry in
  let invalid reason := mkInvalidMeta k reason Unsendable in
  let checked part :=
    if negb (is_field_value v) then Err (invalid "value holds a control or non-ASCII character")
    else Ok (Some part) in
  if k =s META_RESP_STATUS then
    match parse_u16 v with
    | Some code => if (100 <=? code)%N && (code <=? 999)%N then Ok (Some (Status code))
                   else Err (invalid "status is not an integer in 100..=999")
    | None => Err (invalid "status is not an integer in 100..=999")
    end
  else if starts_with META_RESP_COOKIE_PREFIX k then checked (SetCookie v)
  else match strip_prefix META_RESP_HEADER_PREFIX k with
  | Some name =>
      if negb (is_field_name name) then Err (invalid "header name is not an RFC 9110 token")
      else if is_listed TRANSPORT_OWNED_RESPONSE_HEADERS name
           then Err (mkInvalidMeta k "header is owned by the transport" TransportOwned)
      else checked (if eq_ignore_ascii_case name "content-type" then ContentType v
                    else if eq_ignore_ascii_case name "set-cookie" then SetCookie v
                    else Header name v)
  | None => if k =s META_RESP_CONTENT_TYPE then checked (ContentType v) else Ok None
  end.

Definition BODY_RESPONSE_HEADERS : list string :=
  ["content-encoding"; "content-disposition"; "content-language"; "content-location";
   "content-range"; "accept-ranges"; "etag"; "last-modified"; "location"].

(** ** Cookies *)

Record CookieId := mkCookieId { ck_name : string; ck_path : string; ck_domain : string }.

#[export] Instance cookie_id_eq_dec : EqDecision CookieId.
Proof. solve_decision. Defined.

(** [trim_start_matches(c)]. *)
Fixpoint trim_start_matches (c : ascii) (s : string) : string :=
  match s with
  | String a s' => if Ascii.eqb a c then trim_start_matches c s' else s
  | EmptyString => EmptyString
  end.

(** One attribute of a directive: a later [Path] or [Domain] wins. *)
Definition cookie_attr (id : CookieId) (attr : string) : CookieId :=
  let '(key, value) := default (attr, "") (split_once "=" attr) in
  let value := trim value in
  if eq_ignore_ascii_case (trim key) "path" then mkCookieId (ck_name id) value (ck_domain id)
  else if eq_ignore_ascii_case (trim key) "domain"
       then mkCookieId (ck_name id) (ck_path id) (to_ascii_lowercase (trim_start_matches "." value))
  else id.

(** [cookie_id]. *)
Definition cookie_id (directive : string) : CookieId :=
  match split ";" directive with
  | [] => mkCookieId "" "" ""
  | first :: attrs =>
      let name := trim (match split "=" first with n :: _ => n | [] => "" end) in
      fold_left cookie_attr attrs (mkCookieId name "" "")
  end.

(** [cookie_meta_key]. *)
Definition cookie_meta_key (directive : string) : string :=
  let id := cookie_id directive in
  META_RESP_COOKIE_PREFIX +:+ ck_name id
  +:+ (if is_empty (ck_domain id) then "" else ";Domain=" +:+ ck_domain id)
  +:+ (if is_empty (ck_path id) then "" else ";Path=" +:+ ck_path id).

(** ** Streaming *)

Definition META_RESP_STREAM : string := "resp.stream".
Definition STREAM_MARKER_VALUE : string := "1".
Definition META_RESP_CONTENT_LENGTH : string := "resp.content_length".

(** [is_streaming_content_type]. *)
Definition is_streaming_content_type (content_type : string) : bool :=
  let lower := to_ascii_lowercase content_type in
  starts_with "text/event-stream" lower || starts_with "application/octet-stream" lower.

Definition is_content_type_key (k : string) : bool :=
  (k =s META_RESP_CONTENT_TYPE)
  || match strip_prefix META_RESP_HEADER_PREFIX k with
     | Some name => eq_ignore_ascii_case name "content-type"
     | None => false
     end.

(** [leading_content_type]: the last content type. *)
Definition leading_content_type (meta : list MetaEntry) : option string :=
  option_map me_value (List.find (fun e => is_content_type_key (me_key e)) (rev meta)).

(** [has_stream_marker]. *)
Definition has_stream_marker (leading_meta : list MetaEntry) : bool :=
  match meta_get leading_meta META_RESP_STREAM with
  | Some v => v =s STREAM_MARKER_VALUE
  | None => false
  end.

(** [declares_streaming]. *)
Definition declares_streaming (leading_meta : list MetaEntry) : bool :=
  has_stream_marker leading_meta
  || match leading_content_type leading_meta with
     | Some ct => is_streaming_content_type ct
     | None => false
     end.
