(* ===== verification/ResponseMeta.v ===== *)
(** How response metadata combines inside a flow
    ([wafer-run/src/waferflow/response_meta.rs]). *)

From stdpp Require Import pretty.
From S2P Require Import Prelude CoreTypes Text RestrictiveHeaders HttpMeta.

Definition UNION_HEADERS : list string := ["vary"].

(** [first_unsendable]. *)
Definition unsendable (e : MetaEntry) : option InvalidResponseMeta :=
  match classify_response_meta e with
  | Err invalid => match im_kind invalid with Unsendable => Some invalid | TransportOwned => None end
  | Ok _ => None
  end.
Definition first_unsendable (entries : list MetaEntry) : option InvalidResponseMeta :=
  find_map unsendable entries.

Inductive Kind := KCookie | KHeader (name : string) | KOther.

(** [kind]. *)
Definition kind (entry : MetaEntry) : Kind :=
  match classify_response_meta entry with
  | Ok (Some (SetCookie _)) => KCookie
  | Ok (Some (Header name _)) => KHeader (to_ascii_lowercase name)
  | _ => KOther
  end.

Definition is_cookie (e : MetaEntry) : bool := match kind e with KCookie => true | _ => false end.

(** [header_name_is]. *)
Definition header_name_is (entry : MetaEntry) (lower_name : string) : bool :=
  match kind entry with KHeader name => name =s lower_name | _ => false end.

(** [union_tokens]: [None] stands for the early return of [*]. *)
Definition add_token (tokens : option (list string)) (token : string) : option (list string) :=
  match tokens with
  | None => None
  | Some tokens =>
      if token =s "*" then None
      else Some (if existsb (fun t => eq_ignore_ascii_case t token) tokens then tokens
                 else tokens ++ [token])
  end.
Definition value_tokens (value : string) : list string :=
  List.filter (fun t => negb (is_empty t)) (map trim (split "," value)).
Definition union_tokens (values : list string) : string :=
  match fold_left add_token (flat_map value_tokens values) (Some []) with
  | None => "*"
  | Some tokens => join ", " tokens
  end.

(** [fresh_cookie_key]: the search from [n], with fuel one more than the
    number of entries. *)
Fixpoint fresh_key_from (fuel : nat) (n : N) (meta : list MetaEntry) : string :=
  let key := META_RESP_COOKIE_PREFIX +:+ pretty n in
  match fuel with
  | O => key
  | S fuel =>
      if forallb (fun e => negb (me_key e =s key)) meta then key
      else fresh_key_from fuel (n + 1) meta
  end.
Definition fresh_cookie_key (meta : list MetaEntry) : string :=
  fresh_key_from (length meta) 0 meta.

Record Written := mkWritten { wr_key : string; wr_displaced : list MetaEntry }.

(** The cookies of the base each identity of [top] displaces. *)
Definition displaced_cookies (base top : list MetaEntry) : list (CookieId * list MetaEntry) :=
  fold_left (fun acc entry =>
    if is_cookie entry then
      let id := cookie_id (me_value entry) in
      if forallb (fun '(seen, _) => negb (bool_decide (seen = id))) acc
      then acc ++ [(id, List.filter (fun e => is_cookie e && bool_decide (cookie_id (me_value e) = id)) base)]
      else acc
    else acc) top [].

(** [find(...).map(take)]: the displaced entries of an identity, taken once. *)
Fixpoint take_displaced (id : CookieId) (l : list (CookieId * list MetaEntry))
  : list MetaEntry * list (CookieId * list MetaEntry) :=
  match l with
  | [] => ([], [])
  | (seen, d) :: l =>
      if bool_decide (seen = id) then (d, (seen, []) :: l)
      else let '(taken, l) := take_displaced id l in (taken, (seen, d) :: l)
  end.

(** [reduce] over the displaced values and the entry's own. *)
Definition merge_values (name : string) (earlier : list string) (own : string) : string :=
  if is_listed UNION_HEADERS name then union_tokens (earlier ++ [own])
  else match (earlier ++ [own])%list with
       | [] => own
       | v :: vs => fold_left (fun e l => default l (combine name e l)) vs v
       end.

Definition insert_at (i : nat) (e : MetaEntry) (l : list MetaEntry) : list MetaEntry :=
  take i l ++ e :: drop i l.

(** [existing.value = entry.value], else push. *)
Definition set_other (base : list MetaEntry) (entry : MetaEntry) : list MetaEntry :=
  meta_set base (me_key entry) (me_value entry).

Record overlay_state := mkOverlay {
  ov_base : list MetaEntry;
  ov_displaced : list (CookieId * list MetaEntry);
  ov_written : list Written
}.

Definition overlay_cookie (st : overlay_state) (entry : MetaEntry) : overlay_state :=
  let '(displaced, rest) := take_displaced (cookie_id (me_value entry)) (ov_displaced st) in
  let base := ov_base st in
  let key := if existsb (fun e => me_key e =s me_key entry) base
             then fresh_cookie_key base else me_key entry in
  mkOverlay (base ++ [mkMeta key (me_value entry)]) rest
    (ov_written st ++ [mkWritten key displaced]).

Definition overlay_header (st : overlay_state) (name : string) (entry : MetaEntry) : overlay_state :=
  let base := ov_base st in
  let displaced := List.filter (fun e => header_name_is e name) base in
  let value := merge_values name (map me_value displaced) (me_value entry) in
  let at_ := position (fun e => header_name_is e name) base in
  let base := List.filter (fun e => negb (header_name_is e name)) base in
  let replacement := mkMeta (me_key entry) value in
  mkOverlay
    match at_ with
    | Some i => insert_at (Nat.min i (length base)) replacement base
    | None => base ++ [replacement]
    end
    (ov_displaced st)
    (ov_written st ++ [mkWritten (me_key entry) displaced]).

Definition overlay_entry (st : overlay_state) (entry : MetaEntry) : overlay_state :=
  match kind entry with
  | KCookie => overlay_cookie st entry
  | KHeader name => overlay_header st name entry
  | KOther => mkOverlay (set_other (ov_base st) entry) (ov_displaced st) (ov_written st)
  end.

(** [overlay]. *)
Definition overlay (base top : list MetaEntry) : list MetaEntry * list Written :=
  let displaced := displaced_cookies base top in
  let base := List.filter (fun e => negb (is_cookie e)
                || forallb (fun '(id, _) => negb (bool_decide (id = cookie_id (me_value e)))) displaced) base in
  let st := fold_left overlay_entry top (mkOverlay base displaced []) in
  (ov_base st, ov_written st).

Abbreviation ResponderRecord := (gmap string (list MetaEntry)).

Definition BODY_HINTS : list string := [META_RESP_STREAM; META_RESP_CONTENT_LENGTH].

(** What an entry stands for: the middleware entries its writer displaced. *)
Definition middleware_of (record : ResponderRecord) (e : MetaEntry) : list MetaEntry :=
  default [e] (record !! me_key e).

Definition record_written (record : ResponderRecord) (w : Written) : ResponderRecord :=
  <[wr_key w := flat_map (middleware_of record) (wr_displaced w)]> record.

(** [apply_response]. *)
Definition apply_response (record : ResponderRecord) (msg_meta top : list MetaEntry)
  : ResponderRecord * list MetaEntry :=
  let msg_meta := List.filter (fun e => negb (existsb (String.eqb (me_key e)) BODY_HINTS)) msg_meta in
  let '(msg_meta, written) := overlay msg_meta top in
  (fold_left record_written written record, msg_meta).

Definition carries (e : MetaEntry) : bool :=
  match kind e with
  | KCookie => true
  | KHeader name => negb (is_listed BODY_RESPONSE_HEADERS name)
  | KOther => false
  end.

(** [carried]. *)
Definition carried (flow_meta : list MetaEntry) (record : ResponderRecord) : list MetaEntry :=
  List.filter carries (flat_map (middleware_of record) flow_meta).

(** [after_continue]. *)
Definition after_continue (record : ResponderRecord) (before next : list MetaEntry)
  : ResponderRecord :=
  filter (fun '(key, _) => is_Some (meta_get before key) /\ meta_get before key = meta_get next key) record.
