(* ===== verification/ResponseMetaFacts.v ===== *)
(** Lemmas on response metadata: what an entry is depends on its key alone once
    it can be sent, merged header values can be sent, and what laying one
    producer's entries over another's does to cookies, headers and keys. *)

From stdpp Require Import pretty.
From S2P Require Import Prelude CoreTypes Text RestrictiveHeaders RestrictiveFacts HttpMeta ResponseMeta.

(** ** Values that can be sent *)

Section Bytes.
Context (p : ascii -> bool).
#[local] Abbreviation all s := (str_forallb p s = true).
#[local] Abbreviation alls l := (Forall (fun s => str_forallb p s = true) l).

Lemma all_app (a b : string) : all (a +:+ b) <-> all a /\ all b.
Proof. rewrite str_forallb_app. apply andb_true_iff. Qed.

Lemma all_split (c : ascii) (s : string) : all s -> alls (split c s).
Proof.
  induction s as [|a s IH]; simpl; [by repeat constructor|].
  intros [Ha Hs]%andb_true_iff. specialize (IH Hs). destruct (Ascii.eqb a c); [by constructor|].
  destruct (split c s) as [|w ws]; [by repeat constructor; simpl; rewrite Ha|].
  apply Forall_cons in IH as [Hw Hws]. constructor; [simpl; by rewrite Ha|done].
Qed.

Lemma all_join (sep : string) (l : list string) : all sep -> alls l -> all (join sep l).
Proof.
  intros Hs. induction 1 as [|x l Hx Hl IH]; [done|]. destruct l as [|y l]; [done|].
  change (join sep (x :: y :: l)) with (x +:+ sep +:+ join sep (y :: l)). by rewrite !all_app.
Qed.

Lemma all_words (s word : string) : all word -> all s -> alls (split_ascii_whitespace_from word s).
Proof.
  revert word. induction s as [|a s IH]; intros word Hw Hs; simpl in *.
  - destruct (is_empty word); by repeat constructor.
  - apply andb_true_iff in Hs as [Ha Hs]. destruct (is_ascii_whitespace a).
    + apply Forall_app. split; [destruct (is_empty word); by repeat constructor|by apply IH].
    + apply IH; [|done]. apply all_app. simpl. by rewrite Ha.
Qed.

Lemma all_rev_onto (s acc : string) : all s -> all acc -> all (rev_onto s acc).
Proof.
  revert acc. induction s as [|a s IH]; intros acc Hs Ha; simpl in *; [done|].
  apply andb_true_iff in Hs as [H1 H2]. apply IH; [done|]. simpl. by rewrite H1.
Qed.

Lemma all_trim_start (s : string) : all s -> all (trim_start s).
Proof.
  induction s as [s IH] using string_len_ind. intros Hs.
  destruct s as [|a s]; [done|]. simpl in Hs. apply andb_true_iff in Hs as [Ha Hs].
  assert (Hd : all (String a s)) by (simpl; by rewrite Ha).
  simpl. destruct (ws1 a); [apply IH; simpl; [lia|done]|].
  destruct s as [|b s]; [done|]. simpl in Hs. apply andb_true_iff in Hs as [Hb Hs].
  destruct (ws2 a b); [apply IH; simpl; [lia|done]|].
  destruct s as [|c s]; [done|]. simpl in Hs. apply andb_true_iff in Hs as [Hc Hs].
  destruct (ws3 a b c); [apply IH; simpl; [lia|done]|done].
Qed.

Lemma all_trim_start_rev (s : string) : all s -> all (trim_start_rev s).
Proof.
  induction s as [s IH] using string_len_ind. intros Hs.
  destruct s as [|a s]; [done|]. simpl in Hs. apply andb_true_iff in Hs as [Ha Hs].
  assert (Hd : all (String a s)) by (simpl; by rewrite Ha).
  simpl. destruct (ws1 a); [apply IH; simpl; [lia|done]|].
  destruct s as [|b s]; [done|]. simpl in Hs. apply andb_true_iff in Hs as [Hb Hs].
  destruct (ws2 b a); [apply IH; simpl; [lia|done]|].
  destruct s as [|c s]; [done|]. simpl in Hs. apply andb_true_iff in Hs as [Hc Hs].
  destruct (ws3 c b a); [apply IH; simpl; [lia|done]|done].
Qed.

Lemma all_trim (s : string) : all s -> all (trim s).
Proof.
  intros Hs. unfold trim. apply all_rev_onto; [|done]. apply all_trim_start_rev.
  apply all_rev_onto; [|done]. by apply all_trim_start.
Qed.

Lemma all_skip (q : ascii -> bool) (s : string) : all s -> all (skip q s).
Proof.
  unfold skip. destruct (span q s) as [a b] eqn:E. apply span_spec in E as (-> & _).
  by intros [_ ?]%all_app.
Qed.

Lemma all_strip (t s rest : string) : strip_prefix t s = Some rest -> all s -> all rest.
Proof. intros ->%strip_prefix_Some. by intros [_ ?]%all_app. Qed.

Lemma all_key (s k rest : string) : parse_key s = Some (k, rest) -> all s -> all k /\ all rest.
Proof. intros [-> _]%parse_key_spec. by intros ?%all_app. Qed.

Lemma all_item (s i rest : string) : parse_bare_item s = Some (i, rest) -> all s -> all i /\ all rest.
Proof. intros [-> _]%parse_bare_item_spec. by intros ?%all_app. Qed.

Lemma all_params (n : nat) (s rest : string) : parse_params_fuel n s = Some rest -> all s -> all rest.
Proof.
  revert s. induction n as [|n IH]; intros s H Hs; [done|]. cbn [parse_params_fuel] in H.
  destruct (strip_prefix ";" s) as [s1|] eqn:E1; [|by injection H as <-].
  apply all_strip in E1; [|done].
  destruct (parse_key _) as [[k s2]|] eqn:E2; [|done].
  apply all_key in E2 as [_ E2]; [|by apply all_skip].
  destruct (strip_prefix "=" s2) as [s3|] eqn:E3; [|by apply IH in H].
  apply all_strip in E3; [|done].
  destruct (parse_bare_item s3) as [[i s4]|] eqn:E4; [|done].
  apply all_item in E4 as [_ E4]; [|done]. by apply IH in H.
Qed.

Lemma all_inner_list (n : nat) (s rest : string) (items out : list string) :
  parse_inner_list_fuel n s items = Some (out, rest) -> all s -> alls items ->
  alls out /\ all rest.
Proof.
  revert s items. induction n as [|n IH]; intros s items H Hs Hi; [done|].
  cbn [parse_inner_list_fuel] in H. apply (all_skip is_sp) in Hs.
  destruct (strip_prefix ")" _) as [r|] eqn:E0.
  - apply all_strip in E0; [|done]. destruct (parse_params r) as [r'|] eqn:Ep; [|done].
    apply all_params in Ep; [|done]. by injection H as <- <-.
  - destruct (parse_bare_item _) as [[i s1]|] eqn:E1; [|done]. apply all_item in E1 as [Hi1 Hs1]; [|done].
    destruct (parse_params s1) as [s2|] eqn:E2; [|done]. apply all_params in E2; [|done].
    destruct (_ || _); [|done]. apply IH in H; [done|done|]. apply Forall_app. by repeat constructor.
Qed.

Lemma all_member_value (s rest : string) (items : list string) :
  parse_member_value s = Some (items, rest) -> all s -> alls items /\ all rest.
Proof.
  unfold parse_member_value. intros H Hs. destruct (strip_prefix "=" s) as [s1|] eqn:E1.
  - apply all_strip in E1; [|done]. destruct (strip_prefix "(" s1) as [s2|] eqn:E2.
    + apply all_strip in E2; [|done]. eapply all_inner_list; [exact H|done|constructor].
    + destruct (parse_bare_item s1) as [[i s2]|] eqn:E3; [|done]. apply all_item in E3 as [Hi Hs2]; [|done].
      destruct (parse_params s2) as [s3|] eqn:E4; [|done]. apply all_params in E4; [|done].
      injection H as <- <-. by repeat constructor.
  - destruct (parse_params s) as [s3|] eqn:E4; [|done]. apply all_params in E4; [|done].
    injection H as <- <-. by split.
Qed.

Definition member_all (m : Permission) : Prop :=
  all (feature m) /\ match allowlist m with Perm.All => True | Perm.Only items => alls items end.

Lemma all_put_member (out : list Permission) (m : Permission) :
  Forall member_all out -> member_all m -> Forall member_all (put_member out m).
Proof.
  intros Ho Hm. induction Ho as [|x out Hx Ho IH]; simpl; [constructor; [done|constructor]|].
  destruct (feature x =s feature m); by constructor.
Qed.

Lemma all_members (n : nat) (s : string) (out ms : list Permission) :
  parse_members n s out = Some ms -> all s -> Forall member_all out -> Forall member_all ms.
Proof.
  revert s out. induction n as [|n IH]; intros s out H Hs Ho; [done|]. cbn [parse_members] in H.
  destruct (is_empty s); [by injection H as <-|].
  destruct (parse_key s) as [[f s1]|] eqn:E1; [|done]. apply all_key in E1 as [Hf Hs1]; [|done].
  destruct (parse_member_value s1) as [[items s2]|] eqn:E2; [|done].
  apply all_member_value in E2 as [Hi Hs2]; [|done].
  assert (Hput : Forall member_all (put_member out (mkPermission f (allowlist_of items)))).
  { apply all_put_member; [done|]. split; [done|]. simpl. unfold allowlist_of. by destruct (existsb _ _). }
  destruct (is_empty (skip is_ows s2)); [by injection H as <-|].
  destruct (strip_prefix "," _) as [s3|] eqn:E3; [|done].
  apply all_strip in E3; [|by apply all_skip].
  destruct (is_empty (skip is_ows s3)); [done|]. eapply IH; [exact H|by apply all_skip|done].
Qed.
End Bytes.

Definition field_byte (b : ascii) : bool := (byte_of b =? 9)%N || in_range 32 126 b.

Lemma field_digits (s : string) : str_forallb is_ascii_digit s = true -> is_field_value s = true.
Proof.
  apply str_forallb_impl. intros c. destruct c as [[] [] [] [] [] [] [] []]; vm_compute; done.
Qed.

Lemma field_print_member (m : Permission) :
  member_all field_byte m -> str_forallb field_byte (print_member m) = true.
Proof.
  intros [Hf Ha]. unfold print_member. destruct (allowlist m) as [|items]; rewrite !str_forallb_app, Hf.
  - done.
  - rewrite (all_join field_byte " " items eq_refl Ha). done.
Qed.

Lemma field_meet (m : Permission) (other : Perm.Allowlist) :
  member_all field_byte m ->
  match other with Perm.All => True | Perm.Only items => Forall (fun s => str_forallb field_byte s = true) items end ->
  member_all field_byte (mkPermission (feature m) (perm_meet (allowlist m) other)).
Proof.
  intros [Hf Ha] Ho. split; [done|]. simpl. destruct (allowlist m) as [|a], other as [|b]; try done.
  apply Forall_forall. intros x Hx. apply list_elem_of_In, List.filter_In in Hx as [Hx _].
  by apply (proj1 (Forall_forall _ _) Ha x), list_elem_of_In.
Qed.

Lemma field_permissions (earlier later : string) :
  is_field_value earlier = true -> is_field_value later = true ->
  is_field_value (permissions_intersection earlier later) = true.
Proof.
  intros He Hl. unfold permissions_intersection.
  destruct (parse_permissions earlier) as [a|] eqn:Ea, (parse_permissions later) as [b|] eqn:Eb; try done.
  unfold parse_permissions in Ea, Eb.
  apply (all_members field_byte) in Ea; [|by apply all_skip|constructor].
  apply (all_members field_byte) in Eb; [|by apply all_skip|constructor].
  apply (all_join field_byte); [done|]. apply Forall_app. split; apply Forall_map.
  - eapply Forall_impl; [exact Ea|]. intros m Hm. rewrite perm_intersect_print.
    apply field_print_member, field_meet; [done|].
    destruct (find_feature _ b) as [m'|] eqn:E; [|by repeat constructor].
    apply find_feature_Some in E as [Hin _]. apply list_elem_of_In in Hin.
    destruct (proj1 (Forall_forall _ _) Eb m' Hin) as [_ H]. by destruct (allowlist m').
  - apply Forall_forall. intros m Hin. apply list_elem_of_In, List.filter_In in Hin as [Hin _].
    rewrite perm_intersect_print. apply field_print_member, field_meet; [|by repeat constructor].
    by apply (proj1 (Forall_forall _ _) Eb), list_elem_of_In.
Qed.

Lemma field_csp (earlier later : string) :
  is_field_value earlier = true -> is_field_value later = true ->
  is_field_value (csp_union earlier later) = true.
Proof.
  intros He Hl. unfold csp_union. apply (all_join field_byte); [done|].
  assert (Hs : Forall (fun s => str_forallb field_byte s = true) (split "," earlier ++ split "," later))
    by (apply Forall_app; split; by apply all_split).
  revert Hs. generalize (split "," earlier ++ split "," later). intros l Hl'.
  assert (H0 : Forall (fun s => str_forallb field_byte s = true) []) by constructor.
  revert H0. generalize ([] : list string). induction Hl' as [|x l Hx _ IH]; intros acc Ha; simpl; [done|].
  apply IH. destruct (is_empty _); [done|]. unfold push_unique. destruct (existsb _ acc); [done|].
  apply Forall_app. split; [done|]. constructor; [|constructor].
  unfold normalize_policy. apply all_join; [done|]. by apply all_words.
Qed.

Lemma field_hsts (earlier later : string) :
  is_field_value earlier = true -> is_field_value later = true ->
  is_field_value (hsts_union earlier later) = true.
Proof.
  intros He Hl. unfold hsts_union. destruct (parse_hsts earlier) as [a|], (parse_hsts later) as [b|]; try done.
  unfold print_hsts, is_field_value. rewrite !str_forallb_app. cbn [max_age].
  destruct (pretty_N_word (N.max (max_age a) (max_age b))) as (c & t & _ & Hd & _).
  apply field_digits in Hd. unfold is_field_value in Hd. rewrite Hd.
  cbn [include_subdomains preload]. by do 2 case_match.
Qed.

Lemma field_combine (name earlier later v : string) :
  combine name earlier later = Some v ->
  is_field_value earlier = true -> is_field_value later = true -> is_field_value v = true.
Proof.
  unfold combine, stricter. intros H He Hl.
  repeat (case_match; [injection H as <-|]); try done; try (by case_match).
  - by apply field_csp.
  - by apply field_hsts.
  - by apply field_permissions.
Qed.

Lemma field_union (values : list string) :
  Forall (fun v => is_field_value v = true) values -> is_field_value (union_tokens values) = true.
Proof.
  intros Hv. unfold union_tokens.
  assert (Ht : Forall (fun s => str_forallb field_byte s = true) (flat_map value_tokens values)).
  { induction Hv as [|v values Hv _ IH]; simpl; [constructor|]. apply Forall_app. split; [|done].
    unfold value_tokens. apply Forall_forall. intros x Hx.
    apply list_elem_of_In, List.filter_In in Hx as [Hx _]. apply in_map_iff in Hx as (y & <- & Hy).
    apply all_trim. apply (proj1 (Forall_forall _ _) (all_split field_byte "," v Hv) y).
    by apply list_elem_of_In. }
  assert (Hf : forall l acc, Forall (fun s => str_forallb field_byte s = true) l ->
    match acc with Some a => Forall (fun s => str_forallb field_byte s = true) a | None => True end ->
    match fold_left add_token l acc with
    | Some a => Forall (fun s => str_forallb field_byte s = true) a | None => True end).
  { induction l as [|x l IH]; intros acc Hl Ha; [done|]. apply Forall_cons in Hl as [Hx Hl].
    apply IH; [done|]. destruct acc as [a|]; [|done]. simpl. destruct (x =s "*"); [done|].
    destruct (existsb _ a); [done|]. apply Forall_app. by repeat constructor. }
  specialize (Hf _ (Some []) Ht (List.Forall_nil _)).
  destruct (fold_left _ _ _); [by apply (all_join field_byte)|done].
Qed.

Lemma field_merge (name : string) (earlier : list string) (own : string) :
  Forall (fun v => is_field_value v = true) earlier -> is_field_value own = true ->
  is_field_value (merge_values name earlier own) = true.
Proof.
  intros He Ho. unfold merge_values. destruct (is_listed UNION_HEADERS name).
  - apply field_union, Forall_app. by repeat constructor.
  - assert (Hall : Forall (fun v => is_field_value v = true) (earlier ++ [own]))
      by (apply Forall_app; by repeat constructor).
    destruct (earlier ++ [own])%list as [|v vs]; [done|]. apply Forall_cons in Hall as [Hv Hvs].
    revert v Hv. induction Hvs as [|w vs Hw _ IH]; intros v Hv; [done|]. simpl. apply IH.
    destruct (combine name v w) as [x|] eqn:E; simpl; [|done]. by eapply field_combine.
Qed.

(** ** What an entry is *)

(** The kind a key gives an entry that can be sent. *)
Definition key_kind (k : string) : Kind :=
  if k =s META_RESP_STATUS then KOther
  else if starts_with META_RESP_COOKIE_PREFIX k then KCookie
  else match strip_prefix META_RESP_HEADER_PREFIX k with
  | Some name =>
      if negb (is_field_name name) then KOther
      else if is_listed TRANSPORT_OWNED_RESPONSE_HEADERS name then KOther
      else if eq_ignore_ascii_case name "content-type" then KOther
      else if eq_ignore_ascii_case name "set-cookie" then KCookie
      else KHeader (to_ascii_lowercase name)
  | None => KOther
  end.

Definition sendable (e : MetaEntry) : Prop := unsendable e = None.

(** The branches of the classification. *)
Ltac key_cases k :=
  destruct (k =s META_RESP_STATUS);
  [|destruct (starts_with META_RESP_COOKIE_PREFIX k);
    [|destruct (strip_prefix META_RESP_HEADER_PREFIX k) as [name|];
      [destruct (is_field_name name); cbn [negb];
       [destruct (is_listed TRANSPORT_OWNED_RESPONSE_HEADERS name);
        [|destruct (eq_ignore_ascii_case name "content-type");
          [|destruct (eq_ignore_ascii_case name "set-cookie")]]|]
      |destruct (k =s META_RESP_CONTENT_TYPE)]]].

Ltac status_cases v :=
  destruct (parse_u16 v) as [code|]; [destruct ((100 <=? code)%N && (code <=? 999)%N)|].

Lemma kind_by_key (e : MetaEntry) :
  kind e = key_kind (me_key e) \/ kind e = KOther.
Proof.
  destruct e as [k v]. unfold kind, key_kind, classify_response_meta. cbn [me_key me_value].
  key_cases k; try (status_cases v); try destruct (is_field_value v); auto.
Qed.

Lemma kind_sendable (e : MetaEntry) : sendable e -> kind e = key_kind (me_key e).
Proof.
  destruct e as [k v]. unfold sendable, unsendable, kind, key_kind, classify_response_meta.
  cbn [me_key me_value].
  key_cases k; try (status_cases v); try destruct (is_field_value v); done.
Qed.

(** An entry of a header or cookie key can be sent when its value can. *)
Lemma sendable_value (k v : string) :
  key_kind k <> KOther -> (sendable (mkMeta k v) <-> is_field_value v = true).
Proof.
  unfold sendable, unsendable, key_kind, classify_response_meta. cbn [me_key me_value].
  key_cases k; try (status_cases v); try destruct (is_field_value v); done.
Qed.

(** An entry that is neither header nor cookie by its key can be sent or not,
    but never becomes one. *)
Lemma kind_other_key (e : MetaEntry) : key_kind (me_key e) = KOther -> kind e = KOther.
Proof. intros H. destruct (kind_by_key e); congruence. Qed.

Lemma fresh_key_cookie (n : N) : key_kind (META_RESP_COOKIE_PREFIX +:+ pretty n) = KCookie.
Proof. done. Qed.

(** ** Laying entries over others *)

(** The values of a header, and the cookie directives, of some metadata. *)
Definition header_values (name : string) (meta : list MetaEntry) : list string :=
  map me_value (List.filter (fun e => header_name_is e name) meta).
Definition cookie_values (meta : list MetaEntry) : list string :=
  map me_value (List.filter is_cookie meta).

Lemma header_name_is_true (e : MetaEntry) (n : string) :
  header_name_is e n = true <-> kind e = KHeader n.
Proof.
  unfold header_name_is. destruct (kind e) as [|m|]; [done| |done]. rewrite eqs_true.
  split; [by intros ->|by intros [= ->]].
Qed.

Lemma is_cookie_true (e : MetaEntry) : is_cookie e = true <-> kind e = KCookie.
Proof. unfold is_cookie. by destruct (kind e). Qed.

(** Selections of headers and cookies do not see other entries. *)
Definition selects_parts (f : MetaEntry -> bool) : Prop := forall e, kind e = KOther -> f e = false.

Lemma selects_header (n : string) : selects_parts (fun e => header_name_is e n).
Proof. intros e He. unfold header_name_is. by rewrite He. Qed.
Lemma selects_cookie : selects_parts is_cookie.
Proof. intros e He. unfold is_cookie. by rewrite He. Qed.

Lemma filter_meta_set (f : MetaEntry -> bool) (base : list MetaEntry) (k v : string) :
  selects_parts f -> key_kind k = KOther -> List.filter f (meta_set base k v) = List.filter f base.
Proof.
  intros Hf Hk. induction base as [|e base IH]; simpl.
  - rewrite Hf; [done|]. by apply kind_other_key.
  - destruct (String.eqb_spec (me_key e) k) as [E|_]; simpl; [|by rewrite IH].
    rewrite (Hf e), (Hf (mkMeta (me_key e) v)); [done| |]; apply kind_other_key; simpl; congruence.
Qed.

Lemma filter_insert_at (f : MetaEntry -> bool) (i : nat) (e : MetaEntry) (l : list MetaEntry) :
  List.filter f (insert_at i e l)
  = List.filter f (take i l) ++ (if f e then [e] else []) ++ List.filter f (drop i l).
Proof. unfold insert_at. rewrite List.filter_app. simpl. by destruct (f e). Qed.

Lemma filter_take_drop (f : MetaEntry -> bool) (i : nat) (l : list MetaEntry) :
  List.filter f (take i l) ++ List.filter f (drop i l) = List.filter f l.
Proof. by rewrite <- List.filter_app, take_drop. Qed.

Lemma filter_filter_none (f g : MetaEntry -> bool) (l : list MetaEntry) :
  (forall e, f e = true -> g e = false) -> List.filter f (List.filter g l) = [].
Proof.
  intros H. induction l as [|e l IH]; simpl; [done|]. destruct (g e) eqn:E; simpl; [|done].
  destruct (f e) eqn:F; [|done]. apply H in F. congruence.
Qed.

Lemma filter_filter_same (f g : MetaEntry -> bool) (l : list MetaEntry) :
  (forall e, f e = true -> g e = true) -> List.filter f (List.filter g l) = List.filter f l.
Proof.
  intros H. induction l as [|e l IH]; simpl; [done|]. destruct (g e) eqn:E; simpl; rewrite IH; [done|].
  destruct (f e) eqn:F; [|done]. apply H in F. congruence.
Qed.

(** The base after a header was laid over it. *)
Definition with_header (name : string) (entry : MetaEntry) (base : list MetaEntry) : list MetaEntry :=
  ov_base (overlay_header (mkOverlay base [] []) name entry).

Lemma overlay_header_base (st : overlay_state) (name : string) (entry : MetaEntry) :
  ov_base (overlay_header st name entry) = with_header name entry (ov_base st).
Proof. done. Qed.

(** A selection of the base after a header was laid over: the selected rest
    around the new entry. *)
Lemma filter_with_header (f : MetaEntry -> bool) (name : string) (entry : MetaEntry) (base : list MetaEntry) :
  let rest := List.filter (fun e => negb (header_name_is e name)) base in
  let e := mkMeta (me_key entry) (merge_values name (header_values name base) (me_value entry)) in
  exists l r, l ++ r = List.filter f rest
    /\ List.filter f (with_header name entry base) = l ++ (if f e then [e] else []) ++ r.
Proof.
  simpl. unfold with_header, overlay_header. simpl. fold (header_values name base).
  set (rest := List.filter _ base). destruct (position _ base) as [i|].
  - eexists _, _. rewrite filter_insert_at. split; [|done]. apply filter_take_drop.
  - eexists (List.filter f rest), []. rewrite !app_nil_r, List.filter_app. simpl.
    split; [done|]. by destruct (f _).
Qed.

(** ** Fresh keys *)

Definition cookie_key (n : N) : string := META_RESP_COOKIE_PREFIX +:+ pretty n.

Lemma cookie_key_inj (n m : N) : cookie_key n = cookie_key m -> n = m.
Proof. intros H%str_app_inj_l. exact (inj pretty n m H). Qed.

Definition uses (meta : list MetaEntry) (k : string) : Prop := In k (map me_key meta).

(** Among more numbers than entries one gives an unused key. *)
Lemma fresh_key_from_unused (fuel : nat) (n : N) (meta : list MetaEntry) :
  (forall m, (m < n)%N -> uses meta (cookie_key m)) -> N.of_nat (length meta) = (n + N.of_nat fuel)%N ->
  ~ uses meta (fresh_key_from fuel n meta).
Proof.
  revert n. induction fuel as [|fuel IH]; intros n Hn Hl; simpl; fold (cookie_key n).
  - intros Hin. assert (Hinc : incl (map (fun i => cookie_key (N.of_nat i)) (seq 0 (S (length meta)))) (map me_key meta)).
    { intros k (i & <- & Hi)%in_map_iff. apply in_seq in Hi.
      destruct (decide (N.of_nat i = n)) as [->|Hne]; [done|]. apply Hn. lia. }
    apply NoDup_incl_length in Hinc; [|].
    + rewrite !length_map, length_seq in Hinc. lia.
    + apply NoDup_ListNoDup, (NoDup_fmap_2_strong (fun i => cookie_key (N.of_nat i))), NoDup_seq.
      intros i j _ _ Hij%cookie_key_inj. lia.
  - destruct (forallb _ meta) eqn:E.
    + intros (e & He & Hin)%in_map_iff. rewrite forallb_forall in E. specialize (E e Hin).
      rewrite He, eqs_refl in E. done.
    + apply IH; [|lia]. intros m Hm. destruct (decide (m = n)) as [->|Hne]; [|apply Hn; lia].
      apply not_true_iff_false in E. destruct (decide (cookie_key n ∈ map me_key meta)) as [Hin|Hout].
      * by apply list_elem_of_In in Hin.
      * exfalso. apply E, forallb_forall. intros e He. apply negb_true_iff, eqs_false. intros Hk.
        apply Hout, list_elem_of_In, in_map_iff. by exists e.
Qed.

Lemma fresh_cookie_key_unused (meta : list MetaEntry) : ~ uses meta (fresh_cookie_key meta).
Proof. apply fresh_key_from_unused; [intros m Hm; lia|lia]. Qed.

Lemma fresh_cookie_key_kind (meta : list MetaEntry) : key_kind (fresh_cookie_key meta) = KCookie.
Proof.
  unfold fresh_cookie_key. generalize 0%N. generalize (length meta).
  induction n as [|n IH]; intros m; simpl; [apply fresh_key_cookie|].
  destruct (forallb _ meta); [apply fresh_key_cookie|apply IH].
Qed.

(** ** One entry laid over a base *)

Definition keys (meta : list MetaEntry) : list string := map me_key meta.

(** What the runtime keeps of metadata: entries that can be sent, under
    distinct keys. *)
Definition meta_ok (meta : list MetaEntry) : Prop := Forall sendable meta /\ NoDup (keys meta).

Lemma field_of_part (e : MetaEntry) : sendable e -> kind e <> KOther -> is_field_value (me_value e) = true.
Proof.
  intros Hs Hk. rewrite (kind_sendable e Hs) in Hk. destruct e as [k v]. simpl in *.
  by apply (sendable_value k v) in Hk as [H _]; apply H.
Qed.

(** The key a cookie is written under, and the entry. *)
Definition cookie_slot (base : list MetaEntry) (entry : MetaEntry) : MetaEntry :=
  mkMeta (if existsb (fun e => me_key e =s me_key entry) base then fresh_cookie_key base
          else me_key entry) (me_value entry).

Lemma overlay_cookie_base (st : overlay_state) (entry : MetaEntry) :
  ov_base (overlay_cookie st entry) = ov_base st ++ [cookie_slot (ov_base st) entry].
Proof. unfold overlay_cookie. by destruct (take_displaced _ _). Qed.

Lemma cookie_slot_ok (base : list MetaEntry) (entry : MetaEntry) :
  sendable entry -> kind entry = KCookie ->
  sendable (cookie_slot base entry) /\ kind (cookie_slot base entry) = KCookie
  /\ ~ uses base (me_key (cookie_slot base entry)).
Proof.
  intros Hs Hk. assert (Hv : is_field_value (me_value entry) = true) by (apply field_of_part; congruence).
  assert (Hkk : key_kind (me_key (cookie_slot base entry)) = KCookie).
  { simpl. destruct (existsb _ base); [apply fresh_cookie_key_kind|]. by rewrite <- kind_sendable. }
  assert (Hse : sendable (cookie_slot base entry)) by (apply sendable_value; [simpl in Hkk; congruence|done]).
  split_and!; [done|by rewrite kind_sendable|]. simpl.
  destruct (existsb _ base) eqn:E; [apply fresh_cookie_key_unused|].
  intros (e & He & Hin)%in_map_iff. apply not_true_iff_false in E. apply E, existsb_exists.
  exists e. split; [done|]. by apply eqs_true.
Qed.

Lemma replacement_ok (base : list MetaEntry) (name : string) (entry : MetaEntry) :
  Forall sendable base -> sendable entry -> kind entry = KHeader name ->
  let e := mkMeta (me_key entry) (merge_values name (header_values name base) (me_value entry)) in
  sendable e /\ kind e = KHeader name.
Proof.
  intros Hb Hs Hk. simpl. rewrite (kind_sendable entry Hs) in Hk.
  set (v := merge_values _ _ _).
  assert (Hse : sendable (mkMeta (me_key entry) v)).
  { apply sendable_value; [by rewrite Hk|]. apply field_merge.
    - unfold header_values. apply Forall_map, Forall_forall. intros x Hx.
      apply list_elem_of_In, List.filter_In in Hx as [Hx Hn]. apply header_name_is_true in Hn.
      apply field_of_part; [|by rewrite Hn]. by apply (proj1 (Forall_forall _ _) Hb), list_elem_of_In.
    - apply field_of_part; [done|]. by rewrite kind_sendable, Hk. }
  split; [done|]. by rewrite kind_sendable.
Qed.

Lemma Forall_filter {A} (P : A -> Prop) (f : A -> bool) (l : list A) :
  Forall P l -> Forall P (List.filter f l).
Proof. induction 1 as [|x l Hx _ IH]; simpl; [constructor|]. destruct (f x); [by constructor|done]. Qed.

Lemma NoDup_filter_keys (f : MetaEntry -> bool) (l : list MetaEntry) :
  NoDup (keys l) -> NoDup (keys (List.filter f l)).
Proof.
  unfold keys. induction l as [|e l IH]; simpl; [done|]. rewrite NoDup_cons. intros [He Hl].
  destruct (f e); simpl; [|by apply IH]. constructor; [|by apply IH].
  intros Hin. apply He. apply list_elem_of_In, in_map_iff in Hin as (x & Hx & Hin).
  apply List.filter_In in Hin as [Hin _]. rewrite <- Hx. by apply list_elem_of_In, in_map.
Qed.

(** The base after a header was laid over it is the rest around the entry. *)
Lemma with_header_split (name : string) (entry : MetaEntry) (base : list MetaEntry) :
  exists l r, l ++ r = List.filter (fun e => negb (header_name_is e name)) base
    /\ with_header name entry base
       = l ++ mkMeta (me_key entry) (merge_values name (header_values name base) (me_value entry)) :: r.
Proof.
  unfold with_header, overlay_header. simpl. fold (header_values name base).
  destruct (position _ base) as [i|].
  - eexists _, _. split; [apply take_drop|done].
  - eexists _, []. split; [apply app_nil_r|done].
Qed.

Lemma with_header_ok (name : string) (entry : MetaEntry) (base : list MetaEntry) :
  meta_ok base -> sendable entry -> kind entry = KHeader name -> meta_ok (with_header name entry base).
Proof.
  intros [Hb Hn] Hs Hk. destruct (replacement_ok base name entry Hb Hs Hk) as [Hr _].
  destruct (with_header_split name entry base) as (l & r & Hlr & ->).
  apply (Forall_filter _ (fun e => negb (header_name_is e name))) in Hb as Hb'.
  apply (NoDup_filter_keys (fun e => negb (header_name_is e name))) in Hn. rewrite <- Hlr in Hb', Hn.
  apply Forall_app in Hb' as [Hl Hr']. split.
  - apply Forall_app. split; [done|]. by constructor.
  - unfold keys in *. rewrite map_app in *. simpl.
    rewrite <- Permutation_middle. constructor; [|done]. rewrite <- map_app, Hlr.
    intros Hin. apply list_elem_of_In, in_map_iff in Hin as (e & He & Hin).
    apply List.filter_In in Hin as [Hin Hne]. apply negb_true_iff, not_true_iff_false in Hne.
    apply Hne, header_name_is_true. apply list_elem_of_In in Hin.
    rewrite kind_sendable by by apply (proj1 (Forall_forall _ _) Hb). rewrite He.
    by rewrite <- kind_sendable.
Qed.

Lemma keys_meta_set (base : list MetaEntry) (k v : string) :
  NoDup (keys base) -> NoDup (keys (meta_set base k v))
    /\ (forall k', uses (meta_set base k v) k' <-> uses base k' \/ k' = k).
Proof.
  unfold keys, uses. induction base as [|e base IH]; simpl; intros Hn.
  - split; [constructor; [apply not_elem_of_nil|constructor]|]. intros k'. intuition congruence.
  - rewrite NoDup_cons in Hn. destruct Hn as [He Hn]. destruct (IH Hn) as [H1 H2].
    destruct (String.eqb_spec (me_key e) k) as [<-|Hne]; simpl.
    + split; [by constructor|]. intros k'. intuition congruence.
    + split; [|intros k'; rewrite H2; tauto]. constructor; [|done]. intros Hin.
      apply list_elem_of_In, H2 in Hin as [Hin|Hin]; [|done]. by apply He, list_elem_of_In.
Qed.

Lemma Forall_meta_set (base : list MetaEntry) (k v : string) :
  Forall sendable base -> sendable (mkMeta k v) -> Forall sendable (meta_set base k v).
Proof.
  intros Hb Hs. induction Hb as [|e base He Hb IH]; simpl; [constructor; [done|constructor]|].
  destruct (String.eqb_spec (me_key e) k) as [<-|_]; by constructor.
Qed.

(** Well-formed metadata stays so. *)
Lemma overlay_entry_ok (st : overlay_state) (entry : MetaEntry) :
  meta_ok (ov_base st) -> sendable entry -> meta_ok (ov_base (overlay_entry st entry)).
Proof.
  intros [Hb Hn] Hs. unfold overlay_entry. destruct (kind entry) as [|name|] eqn:Ek.
  - rewrite overlay_cookie_base. destruct (cookie_slot_ok (ov_base st) entry Hs Ek) as (H1 & _ & H3).
    split; [apply Forall_app; split; [done|constructor; [done|constructor]]|].
    unfold keys. rewrite map_app. apply NoDup_app. split_and!; [done| |apply NoDup_singleton].
    intros k Hk ->%list_elem_of_singleton. by apply H3, list_elem_of_In.
  - rewrite overlay_header_base. by apply with_header_ok.
  - simpl. destruct entry as [k v]. split; [by apply Forall_meta_set|]. by apply keys_meta_set.
Qed.

(** ** The effect of one entry *)

(** Headers of other names, and cookies, are left as they were. *)
Lemma filter_with_header_other (f : MetaEntry -> bool) (name : string) (entry : MetaEntry)
    (base : list MetaEntry) :
  Forall sendable base -> sendable entry -> kind entry = KHeader name ->
  (forall e, kind e = KHeader name -> f e = false) ->
  List.filter f (with_header name entry base) = List.filter f base.
Proof.
  intros Hb Hs Hk Hf. destruct (filter_with_header f name entry base) as (l & r & Hlr & ->).
  destruct (replacement_ok base name entry Hb Hs Hk) as [_ Hr]. rewrite (Hf _ Hr). simpl. rewrite Hlr.
  apply filter_filter_same. intros e He. apply negb_true_iff, not_true_iff_false.
  intros Hh%header_name_is_true. rewrite (Hf e Hh) in He. done.
Qed.

(** The header itself has one entry, with the merged value. *)
Lemma header_values_with_header (name : string) (entry : MetaEntry) (base : list MetaEntry) :
  Forall sendable base -> sendable entry -> kind entry = KHeader name ->
  header_values name (with_header name entry base)
  = [merge_values name (header_values name base) (me_value entry)].
Proof.
  intros Hb Hs Hk. unfold header_values at 1.
  destruct (filter_with_header (fun e => header_name_is e name) name entry base) as (l & r & Hlr & ->).
  rewrite filter_filter_none in Hlr by (intros e ->; done). apply app_eq_nil in Hlr as [-> ->].
  destruct (replacement_ok base name entry Hb Hs Hk) as [_ Hr]. apply header_name_is_true in Hr.
  by rewrite Hr.
Qed.

Lemma overlay_entry_headers (st : overlay_state) (entry : MetaEntry) (n : string) :
  Forall sendable (ov_base st) -> sendable entry ->
  header_values n (ov_base (overlay_entry st entry))
  = if header_name_is entry n
    then [merge_values n (header_values n (ov_base st)) (me_value entry)]
    else header_values n (ov_base st).
Proof.
  intros Hb Hs. unfold overlay_entry. destruct (kind entry) as [|m|] eqn:Ek.
  - rewrite overlay_cookie_base. destruct (cookie_slot_ok (ov_base st) entry Hs Ek) as (_ & Hk & _).
    unfold header_values, header_name_is at 2. rewrite Ek, List.filter_app. simpl.
    unfold header_name_is at 2. rewrite Hk. by rewrite app_nil_r.
  - rewrite overlay_header_base. unfold header_name_is at 1. rewrite Ek.
    destruct (String.eqb_spec m n) as [->|Hne]; [by apply header_values_with_header|].
    unfold header_values. f_equal. apply filter_with_header_other; try done.
    intros e He. unfold header_name_is. rewrite He. by apply eqs_false.
  - simpl. unfold header_name_is at 1. rewrite Ek. unfold header_values. f_equal.
    apply filter_meta_set; [apply selects_header|]. by rewrite <- kind_sendable.
Qed.

Lemma overlay_entry_cookies (st : overlay_state) (entry : MetaEntry) :
  Forall sendable (ov_base st) -> sendable entry ->
  cookie_values (ov_base (overlay_entry st entry))
  = cookie_values (ov_base st) ++ (if is_cookie entry then [me_value entry] else []).
Proof.
  intros Hb Hs. unfold overlay_entry. destruct (kind entry) as [|m|] eqn:Ek.
  - rewrite overlay_cookie_base. destruct (cookie_slot_ok (ov_base st) entry Hs Ek) as (_ & Hk & _).
    unfold cookie_values. rewrite List.filter_app, map_app. simpl.
    apply is_cookie_true in Hk, Ek. by rewrite Hk, Ek.
  - rewrite overlay_header_base. unfold is_cookie at 1. rewrite Ek, app_nil_r. unfold cookie_values.
    f_equal. apply filter_with_header_other; try done. intros e He. unfold is_cookie. by rewrite He.
  - simpl. unfold is_cookie at 1. rewrite Ek, app_nil_r. unfold cookie_values. f_equal.
    apply filter_meta_set; [apply selects_cookie|]. by rewrite <- kind_sendable.
Qed.

Lemma meta_get_app (a b : list MetaEntry) (k : string) :
  meta_get (a ++ b) k = match meta_get a k with Some v => Some v | None => meta_get b k end.
Proof.
  unfold meta_get. induction a as [|e a IH]; simpl; [done|]. by destruct (me_key e =s k).
Qed.

Lemma meta_get_filter (f : MetaEntry -> bool) (l : list MetaEntry) (k : string) :
  (forall e, me_key e = k -> f e = true) -> meta_get (List.filter f l) k = meta_get l k.
Proof.
  intros Hf. unfold meta_get. induction l as [|e l IH]; simpl; [done|].
  destruct (String.eqb_spec (me_key e) k) as [E|E].
  - rewrite (Hf e E). simpl. by apply eqs_true in E as ->.
  - destruct (f e); simpl; [|done]. by apply eqs_false in E as ->.
Qed.

Lemma overlay_entry_other (st : overlay_state) (entry : MetaEntry) (k : string) :
  sendable entry -> key_kind k = KOther ->
  meta_get (ov_base (overlay_entry st entry)) k
  = if me_key entry =s k then Some (me_value entry) else meta_get (ov_base st) k.
Proof.
  intros Hs Hk. unfold overlay_entry. pose proof (kind_sendable entry Hs) as Hke.
  destruct (kind entry) as [|m|] eqn:Ek.
  - assert (E : (me_key entry =s k) = false) by (apply eqs_false; congruence). rewrite E.
    rewrite overlay_cookie_base, meta_get_app. destruct (meta_get (ov_base st) k); [done|].
    destruct (cookie_slot_ok (ov_base st) entry Hs Ek) as (Hse & Hck & _).
    rewrite kind_sendable in Hck by done. unfold meta_get, List.find.
    assert (Ek2 : (me_key (cookie_slot (ov_base st) entry) =s k) = false) by (apply eqs_false; congruence).
    by rewrite Ek2.
  - assert (E : (me_key entry =s k) = false) by (apply eqs_false; congruence). rewrite E.
    rewrite overlay_header_base. destruct (with_header_split m entry (ov_base st)) as (l & r & Hlr & ->).
    rewrite meta_get_app. change (?x :: r) with ([x] ++ r). rewrite meta_get_app.
    assert (E2 : meta_get [mkMeta (me_key entry) (merge_values m (header_values m (ov_base st)) (me_value entry))] k = None).
    { unfold meta_get. simpl. by rewrite E. }
    rewrite E2, <- meta_get_app, Hlr. apply meta_get_filter. intros e He.
    apply negb_true_iff, not_true_iff_false. intros Hh%header_name_is_true.
    rewrite (kind_other_key e) in Hh; congruence.
  - simpl. unfold set_other. destruct (String.eqb_spec (me_key entry) k) as [<-|Hne].
    + apply meta_get_set_eq.
    + by apply meta_get_set_ne.
Qed.
