(* ===== verification/ResponseMetaProps.v ===== *)
(** The properties of response metadata in flows: what a responding step's
    entries do to the flow's, and what a stopped flow inherits. *)

From S2P Require Import Prelude CoreTypes BlockName Text RestrictiveHeaders RestrictiveFacts HttpMeta.
From S2P Require Import ResponseMeta ResponseMetaFacts.

(** ** Overlay *)

Lemma overlay_fold_ok (top : list MetaEntry) (st : overlay_state) :
  Forall sendable top -> meta_ok (ov_base st) ->
  let final := ov_base (fold_left overlay_entry top st) in
  meta_ok final
  /\ (forall n, header_values n final
        = fold_left (fun vs v => [merge_values n vs v]) (header_values n top) (header_values n (ov_base st)))
  /\ cookie_values final = cookie_values (ov_base st) ++ cookie_values top
  /\ (forall k, key_kind k = KOther -> meta_get final k
        = match meta_get (rev top) k with Some v => Some v | None => meta_get (ov_base st) k end).
Proof.
  intros Ht. revert st. induction Ht as [|e top He _ IH]; intros st Hok; simpl.
  { split_and!; try done. by rewrite app_nil_r. }
  pose proof (overlay_entry_ok st e Hok He) as Hok'. destruct Hok as [Hb _].
  destruct (IH _ Hok') as (H1 & H2 & H3 & H4). split_and!; [done| | |].
  - intros n. rewrite H2, overlay_entry_headers by done.
    assert (E : header_values n (e :: top)
      = if header_name_is e n then me_value e :: header_values n top else header_values n top)
      by (unfold header_values; simpl; by destruct (header_name_is e n)).
    rewrite E. by destruct (header_name_is e n).
  - rewrite H3, overlay_entry_cookies by done. rewrite <- app_assoc. f_equal.
    unfold cookie_values. simpl. by destruct (is_cookie e).
  - intros k Hk. rewrite H4, overlay_entry_other by done. rewrite meta_get_app.
    destruct (meta_get (rev top) k); [done|]. unfold meta_get at 2. simpl. by destruct (me_key e =s k).
Qed.

(** The identities whose cookies are displaced are those of the new cookies. *)
Lemma displaced_ids (base top : list MetaEntry) (id : CookieId) :
  In id (map fst (displaced_cookies base top)) <-> In id (map cookie_id (cookie_values top)).
Proof.
  unfold displaced_cookies.
  assert (H : forall top acc, In id (map fst (fold_left (fun acc entry =>
    if is_cookie entry then
      if forallb (fun '(seen, _) => negb (bool_decide (seen = cookie_id (me_value entry)))) acc
      then acc ++ [(cookie_id (me_value entry), List.filter (fun e => is_cookie e
             && bool_decide (cookie_id (me_value e) = cookie_id (me_value entry))) base)]
      else acc
    else acc) top acc)) <-> In id (map fst acc) \/ In id (map cookie_id (cookie_values top))).
  { clear top. induction top as [|e top IH]; intros acc; simpl; [tauto|]. rewrite IH.
    unfold cookie_values. simpl. destruct (is_cookie e); [|done]. simpl.
    destruct (forallb _ acc) eqn:E.
    - rewrite map_app, in_app_iff. simpl. tauto.
    - apply not_true_iff_false in E. split; [tauto|]. intros [?|[<-|?]]; [tauto| |tauto]. left.
      destruct (decide (cookie_id (me_value e) ∈ map fst acc)) as [Hin|Hout]; [by apply list_elem_of_In|].
      exfalso. apply E, forallb_forall. intros [seen d] Hin. apply negb_true_iff, bool_decide_eq_false.
      intros ->. apply Hout, list_elem_of_In, in_map_iff. by exists (cookie_id (me_value e), d). }
  specialize (H top []). simpl in H. tauto.
Qed.

(** The base once the displaced cookies are gone. *)
Definition undisplaced (base top : list MetaEntry) : list MetaEntry :=
  List.filter (fun e => negb (is_cookie e)
    || forallb (fun '(id, _) => negb (bool_decide (id = cookie_id (me_value e))))
         (displaced_cookies base top)) base.

Definition replaced_by (top : list MetaEntry) (directive : string) : bool :=
  bool_decide (cookie_id directive ∈ map cookie_id (cookie_values top)).

Lemma undisplaced_test (base top : list MetaEntry) (e : MetaEntry) :
  forallb (fun '(id, _) => negb (bool_decide (id = cookie_id (me_value e)))) (displaced_cookies base top)
  = negb (replaced_by top (me_value e)).
Proof.
  unfold replaced_by. destruct (bool_decide (_ ∈ _)) eqn:E; simpl.
  - apply bool_decide_eq_true in E. apply list_elem_of_In, (displaced_ids base) in E.
    apply in_map_iff in E as ([id d] & E & Hin). simpl in E.
    apply not_true_iff_false. rewrite forallb_forall. intros H. specialize (H _ Hin). simpl in H.
    by rewrite bool_decide_true in H.
  - apply bool_decide_eq_false in E. apply forallb_forall. intros [id d] Hin.
    apply negb_true_iff, bool_decide_eq_false. intros ->. apply E, list_elem_of_In, (displaced_ids base).
    apply in_map_iff. by exists (cookie_id (me_value e), d).
Qed.

Lemma undisplaced_eq (base top : list MetaEntry) :
  undisplaced base top
  = List.filter (fun e => negb (is_cookie e) || negb (replaced_by top (me_value e))) base.
Proof. apply List.filter_ext. intros e. f_equal. apply undisplaced_test. Qed.

Lemma undisplaced_cookies (base top : list MetaEntry) :
  cookie_values (undisplaced base top)
  = List.filter (fun v => negb (replaced_by top v)) (cookie_values base).
Proof.
  rewrite undisplaced_eq. unfold cookie_values.
  induction base as [|e base IH]; simpl; [done|].
  destruct (is_cookie e) eqn:E; simpl; [|by rewrite E].
  destruct (replaced_by top (me_value e)) eqn:R; simpl; [done|]. rewrite E. simpl. by rewrite IH.
Qed.

Lemma undisplaced_headers (base top : list MetaEntry) (n : string) :
  header_values n (undisplaced base top) = header_values n base.
Proof.
  unfold undisplaced, header_values. f_equal. apply filter_filter_same. intros e He%header_name_is_true.
  unfold is_cookie. by rewrite He.
Qed.

Lemma undisplaced_ok (base top : list MetaEntry) : meta_ok base -> meta_ok (undisplaced base top).
Proof. intros [Hb Hn]. split; [by apply Forall_filter|by apply NoDup_filter_keys]. Qed.

(** A combination that grows in an order grows over a whole merge. *)
Lemma merge_grows (name : string) (le : string -> string -> Prop) (earlier : list string) (own : string) :
  is_listed UNION_HEADERS name = false ->
  (forall a, le a a) -> (forall a b c, le a b -> le b c -> le a c) ->
  (forall a b, exists v, combine name a b = Some v /\ le a v /\ le b v) ->
  Forall (fun v => le v (merge_values name earlier own)) (earlier ++ [own]).
Proof.
  intros Hl Hr Ht Hc. unfold merge_values. rewrite Hl.
  destruct (earlier ++ [own])%list as [|v vs]; [constructor|].
  assert (H : forall vs v, le v (fold_left (fun e l => default l (combine name e l)) vs v)
    /\ Forall (fun w => le w (fold_left (fun e l => default l (combine name e l)) vs v)) vs).
  { clear v vs. induction vs as [|w vs IH]; intros v; simpl; [by split|].
    destruct (Hc v w) as (x & -> & Hv & Hw). simpl. destruct (IH x) as [H1 H2]. split; [by eapply Ht|].
    constructor; [by eapply Ht|done]. }
  destruct (H vs v) as [H1 H2]. by constructor.
Qed.

Lemma merges_grow (name : string) (le : string -> string -> Prop) (base top : list string) :
  is_listed UNION_HEADERS name = false ->
  (forall a, le a a) -> (forall a b c, le a b -> le b c -> le a c) ->
  (forall a b, exists v, combine name a b = Some v /\ le a v /\ le b v) ->
  forall v, In v (base ++ top) ->
  exists r, In r (fold_left (fun vs v => [merge_values name vs v]) top base) /\ le v r.
Proof.
  intros Hl Hr Ht Hc. revert base. induction top as [|w top IH]; intros base v Hv; simpl.
  { rewrite app_nil_r in Hv. eauto. }
  pose proof (merge_grows name le base w Hl Hr Ht Hc) as Hg. rewrite List.Forall_forall in Hg.
  assert (Hcase : In v (base ++ [w]) \/ In v top).
  { rewrite in_app_iff in *. simpl in *. tauto. }
  destruct Hcase as [Hb|Hb].
  - destruct (IH [merge_values name base w] (merge_values name base w)) as (r & Hin & Hle); [by left|].
    exists r. split; [done|]. eapply Ht; [by apply Hg|done].
  - apply IH. apply in_app_iff. by right.
Qed.

(** what laying a producer's entries over the flow's does, for metadata a
    transport can send: the result can be sent, under distinct keys; a header
    has the value its entries merge to, one after the other, and other headers
    are untouched; a cookie replaces exactly the cookies of its name, path and
    domain, whatever their keys, and all of the producer's are kept; any other
    key has the producer's last value. So framing never gets looser and no
    content-security policy is lost, whichever producers respond. *)
Theorem overlay_meaning (base top : list MetaEntry) :
  meta_ok base -> Forall sendable top ->
  let final := fst (overlay base top) in
  meta_ok final
  /\ (forall n, header_values n final
        = fold_left (fun vs v => [merge_values n vs v]) (header_values n top) (header_values n base))
  /\ cookie_values final
     = List.filter (fun v => negb (replaced_by top v)) (cookie_values base) ++ cookie_values top
  /\ (forall k, key_kind k = KOther -> meta_get final k
        = match meta_get (rev top) k with Some v => Some v | None => meta_get base k end)
  /\ (forall v, In v (header_values "x-frame-options" base ++ header_values "x-frame-options" top) ->
        exists r, In r (header_values "x-frame-options" final)
          /\ x_frame_options_rank v <= x_frame_options_rank r)
  /\ (forall v p, In v (header_values "content-security-policy" base
                        ++ header_values "content-security-policy" top) -> In p (policies v) ->
        exists r, In r (header_values "content-security-policy" final) /\ In p (policies r)).
Proof.
  intros Hb Ht. unfold overlay. cbv zeta. fold (undisplaced base top). simpl.
  set (st := mkOverlay (undisplaced base top) _ []).
  destruct (overlay_fold_ok top st Ht (undisplaced_ok base top Hb)) as (H1 & H2 & H3 & H4).
  assert (H2' : forall n, header_values n (ov_base (fold_left overlay_entry top st))
    = fold_left (fun vs v => [merge_values n vs v]) (header_values n top) (header_values n base)).
  { intros n. rewrite H2. simpl. by rewrite undisplaced_headers. }
  split_and!; [done|done| | | |].
  - rewrite H3. simpl. by rewrite undisplaced_cookies.
  - intros k Hk. rewrite H4 by done. simpl. unfold undisplaced. rewrite meta_get_filter; [done|].
    intros e He. unfold is_cookie. rewrite kind_other_key by congruence. done.
  - intros v Hv. rewrite H2'.
    apply (merges_grow "x-frame-options" (fun a b => x_frame_options_rank a <= x_frame_options_rank b));
      try done; [lia|]. intros a b. eexists. split; [reflexivity|]. rewrite stricter_rank. lia.
  - intros v p Hv Hp. rewrite H2'.
    destruct (merges_grow "content-security-policy" (fun a b => incl (policies a) (policies b))
      (header_values "content-security-policy" base) (header_values "content-security-policy" top)) with v
      as (r & Hr & Hi); try done.
    + intros a. apply incl_refl.
    + intros a b c. apply incl_tran.
    + intros a b. eexists. split; [reflexivity|].
      split; intros q Hq; apply csp_union_policies; tauto.
    + exists r. split; [done|]. by apply Hi.
Qed.

Lemma overlay_meaning_witness :
  cookie_values (fst (overlay [mkMeta "resp.set_cookie.0" "sid=a; Path=/"]
                        [mkMeta "resp.set_cookie.0" "theme=dark"]))
  = ["sid=a; Path=/"; "theme=dark"].
Proof.
  rewrite (proj1 (proj2 (proj2 (overlay_meaning [mkMeta "resp.set_cookie.0" "sid=a; Path=/"]
    [mkMeta "resp.set_cookie.0" "theme=dark"]
    ltac:(split; [repeat constructor|apply NoDup_singleton]) ltac:(repeat constructor))))).
  vm_compute. reflexivity.
Defined.

(** ** The record of responders *)

Definition is_part (e : MetaEntry) : bool := match kind e with KOther => false | _ => true end.

(** The middleware's headers and cookies behind some metadata. *)
Definition behind (record : ResponderRecord) (meta : list MetaEntry) : list MetaEntry :=
  List.filter is_part (flat_map (middleware_of record) meta).

Definition record_ok (record : ResponderRecord) : Prop :=
  forall k, is_Some (record !! k) -> key_kind k <> KOther.

Lemma behind_app (record : ResponderRecord) (a b : list MetaEntry) :
  behind record (a ++ b) = behind record a ++ behind record b.
Proof. unfold behind. by rewrite flat_map_app, List.filter_app. Qed.

Lemma filter_perm (f : MetaEntry -> bool) (a b : list MetaEntry) :
  a ≡ₚ b -> List.filter f a ≡ₚ List.filter f b.
Proof.
  induction 1 as [|x a b _ IH|x y a|a b c _ IH1 _ IH2]; simpl; [done| | |by etrans].
  - destruct (f x); [by constructor|done].
  - destruct (f x), (f y); try apply perm_swap; done.
Qed.

Lemma behind_perm (record : ResponderRecord) (a b : list MetaEntry) :
  a ≡ₚ b -> behind record a ≡ₚ behind record b.
Proof. intros H. apply filter_perm. induction H; simpl; [done|by f_equiv| |by etrans].
  rewrite !app_assoc. f_equiv. apply Permutation_app_comm. Qed.

(** Recording a key no entry has changes nothing behind them. *)
Lemma behind_insert_ne (record : ResponderRecord) (k : string) (l meta : list MetaEntry) :
  ~ uses meta k -> behind (<[k := l]> record) meta = behind record meta.
Proof.
  unfold behind, uses. intros Hk. f_equal. induction meta as [|e meta IH]; simpl; [done|].
  simpl in Hk. rewrite IH by tauto. f_equal. unfold middleware_of. rewrite lookup_insert_ne; [done|].
  intros E. apply Hk. by left.
Qed.

Lemma behind_insert_one (record : ResponderRecord) (k v : string) (d : list MetaEntry) :
  behind (<[k := flat_map (middleware_of record) d]> record) [mkMeta k v] = behind record d.
Proof.
  unfold behind. simpl. rewrite app_nil_r. unfold middleware_of at 1. simpl. by rewrite lookup_insert_eq.
Qed.

(** An entry that is no part, by its key, has nothing behind it. *)
Lemma behind_other (record : ResponderRecord) (e : MetaEntry) :
  record_ok record -> key_kind (me_key e) = KOther -> behind record [e] = [].
Proof.
  intros Hr Hk. unfold behind. simpl. rewrite app_nil_r. unfold middleware_of.
  destruct (record !! me_key e) eqn:E; [exfalso; apply (Hr (me_key e)); [by eexists|done]|].
  simpl. unfold is_part. by rewrite kind_other_key.
Qed.

Lemma behind_cons (record : ResponderRecord) (e : MetaEntry) (meta : list MetaEntry) :
  behind record (e :: meta) = behind record [e] ++ behind record meta.
Proof. apply (behind_app record [e] meta). Qed.

Lemma behind_meta_set (record : ResponderRecord) (meta : list MetaEntry) (k v : string) :
  record_ok record -> key_kind k = KOther -> behind record (meta_set meta k v) = behind record meta.
Proof.
  intros Hr Hk. induction meta as [|e meta IH]; simpl; [by apply behind_other|].
  destruct (String.eqb_spec (me_key e) k) as [E|_].
  - rewrite (behind_cons _ e meta), (behind_cons _ (mkMeta _ _) meta).
    by rewrite (behind_other _ e), (behind_other _ (mkMeta _ _)) by (done || (simpl; congruence)).
  - by rewrite (behind_cons _ e meta), (behind_cons _ e (meta_set _ _ _)), IH.
Qed.

(** ** Displaced cookies *)

Lemma filter_or_perm (f g : MetaEntry -> bool) (l : list MetaEntry) :
  (forall e, f e = true -> g e = false) ->
  List.filter (fun e => f e || g e) l ≡ₚ List.filter f l ++ List.filter g l.
Proof.
  intros H. induction l as [|e l IH]; simpl; [done|].
  destruct (f e) eqn:Ef; simpl; [by rewrite (H e Ef), IH|].
  destruct (g e); simpl; [|done]. rewrite IH. apply Permutation_middle.
Qed.

Lemma filter_split_perm (f : MetaEntry -> bool) (l : list MetaEntry) :
  l ≡ₚ List.filter f l ++ List.filter (fun e => negb (f e)) l.
Proof.
  induction l as [|e l IH]; simpl; [done|]. destruct (f e); simpl; [by rewrite <- IH|].
  rewrite <- Permutation_middle. by rewrite <- IH.
Qed.

(** The groups of displaced cookies: distinct identities, each with its cookies
    of the base. *)
Definition groups_ok (base : list MetaEntry) (gs : list (CookieId * list MetaEntry)) : Prop :=
  NoDup (map fst gs)
  /\ Forall (fun g => forall e, In e (snd g) ->
       In e base /\ is_cookie e = true /\ cookie_id (me_value e) = fst g) gs.

Lemma displaced_groups (base top : list MetaEntry) :
  groups_ok base (displaced_cookies base top)
  /\ flat_map snd (displaced_cookies base top)
     ≡ₚ List.filter (fun e => is_cookie e && replaced_by top (me_value e)) base.
Proof.
  set (sel := fun (ids : list CookieId) e => is_cookie e && bool_decide (cookie_id (me_value e) ∈ ids)).
  assert (H : forall xs acc,
    groups_ok base acc -> flat_map snd acc ≡ₚ List.filter (sel (map fst acc)) base ->
    let gs := fold_left (fun acc entry =>
      if is_cookie entry then
        if forallb (fun '(seen, _) => negb (bool_decide (seen = cookie_id (me_value entry)))) acc
        then acc ++ [(cookie_id (me_value entry), List.filter (fun e => is_cookie e
               && bool_decide (cookie_id (me_value e) = cookie_id (me_value entry))) base)]
        else acc
      else acc) xs acc in
    groups_ok base gs /\ flat_map snd gs ≡ₚ List.filter (sel (map fst gs)) base).
  { induction xs as [|x xs IH]; intros acc Hg Hp; simpl; [done|].
    destruct (is_cookie x); [|by apply IH].
    destruct (forallb _ acc) eqn:E; [|by apply IH]. set (id := cookie_id (me_value x)) in *.
    assert (Hid : id ∉ map fst acc).
    { intros Hin. apply list_elem_of_In, in_map_iff in Hin as ([seen d] & Hs & Hin).
      rewrite forallb_forall in E. specialize (E _ Hin). simpl in *. by rewrite bool_decide_true in E. }
    destruct Hg as [Hn Hf]. apply IH.
    - split.
      + rewrite map_app. apply NoDup_app. split_and!; [done| |apply NoDup_singleton].
        intros i Hi ->%list_elem_of_singleton. done.
      + apply Forall_app. split; [done|]. constructor; [|constructor]. simpl.
        intros e [Hin [Hc Hi%bool_decide_eq_true]%andb_true_iff]%List.filter_In. done.
    - rewrite flat_map_app. simpl. rewrite app_nil_r, Hp, map_app. simpl.
      rewrite <- filter_or_perm.
      + rewrite (List.filter_ext _ (sel (map fst acc ++ [id]))); [done|]. intros e. unfold sel.
        destruct (is_cookie e); simpl; [|done]. rewrite <- bool_decide_or. apply bool_decide_ext.
        rewrite elem_of_app, list_elem_of_singleton. done.
      + intros e [Hc Hin%bool_decide_eq_true]%andb_true_iff. apply andb_false_iff. right.
        apply bool_decide_eq_false. intros Heq. rewrite Heq in Hin. done. }
  destruct (H top []) as [H1 H2].
  { split; constructor. }
  { clear H. simpl. induction base as [|e base IH]; simpl; [done|]. unfold sel at 1. simpl.
    rewrite andb_false_r. done. }
  split; [exact H1|]. unfold displaced_cookies at 1. rewrite H2.
  rewrite (List.filter_ext _ (fun e => is_cookie e && replaced_by top (me_value e))); [done|].
  intros e. unfold sel. f_equal. unfold replaced_by. apply bool_decide_ext.
  rewrite !list_elem_of_In. apply (displaced_ids base top).
Qed.

(** Taking a group: its entries leave the pending ones. *)
Lemma take_displaced_spec (base : list MetaEntry) (id : CookieId) (gs gs' : list (CookieId * list MetaEntry))
    (d : list MetaEntry) :
  groups_ok base gs -> take_displaced id gs = (d, gs') ->
  groups_ok base gs' /\ flat_map snd gs ≡ₚ d ++ flat_map snd gs'
  /\ (forall e, In e (flat_map snd gs') -> cookie_id (me_value e) <> id)
  /\ map fst gs' = map fst gs.
Proof.
  intros [Hn Hf]. revert d gs'. induction gs as [|[seen x] gs IH]; intros d gs' H; simpl in H.
  { injection H as <- <-. simpl. split_and!; done. }
  simpl in Hn. rewrite NoDup_cons in Hn. destruct Hn as [Hs Hn]. apply Forall_cons in Hf as [Hx Hf].
  destruct (bool_decide (seen = id)) eqn:E.
  - apply bool_decide_eq_true in E as ->. injection H as <- <-. simpl. split_and!; try done.
    + split; [by constructor|]. by constructor.
    + intros e Hin Heq. apply in_flat_map in Hin as ([i y] & Hi & Hy). apply Hs.
      rewrite List.Forall_forall in Hf. destruct (Hf _ Hi e Hy) as (_ & _ & Hid). simpl in Hid.
      apply list_elem_of_In, in_map_iff. exists (i, y). split; [simpl; congruence|done].
  - destruct (take_displaced id gs) as [t l] eqn:Et. injection H as <- <-.
    destruct (IH Hn Hf _ _ eq_refl) as ([Hn' Hf'] & Hp & Hne & Hfst). simpl. split_and!.
    + split; [simpl; rewrite Hfst; by constructor|by constructor].
    + rewrite Hp, !app_assoc. f_equiv. apply Permutation_app_comm.
    + intros e [Hin|Hin]%in_app_iff; [|by apply Hne]. apply bool_decide_eq_false in E.
      destruct (Hx e Hin) as (_ & _ & Hid). simpl in Hid. congruence.
    + by rewrite Hfst.
Qed.

(** ** A response and what is behind the metadata *)

(** Cookie keys that identify cookies: a key of the base is given to a cookie of
    [top] only for the same cookie, and no two cookies of [top] share a key. *)
Definition keyed (base top : list MetaEntry) : Prop :=
  (forall e x, In e base -> In x top -> is_cookie e = true -> is_cookie x = true ->
     me_key e = me_key x -> cookie_id (me_value e) = cookie_id (me_value x))
  /\ NoDup (keys (List.filter is_cookie top)).

Definition recorded (record : ResponderRecord) (st : overlay_state) : ResponderRecord :=
  fold_left record_written (ov_written st) record.

Definition pending_cookies (st : overlay_state) : list MetaEntry := flat_map snd (ov_displaced st).

(** The state of the overlay loop: nothing behind the metadata is lost. *)
Record overlay_inv (base0 : list MetaEntry) (record : ResponderRecord) (st : overlay_state)
    (top : list MetaEntry) : Prop := {
  oi_ok : meta_ok (ov_base st);
  oi_groups : groups_ok base0 (ov_displaced st);
  oi_record : record_ok (recorded record st);
  oi_behind : behind (recorded record st) (ov_base st) ++ behind (recorded record st) (pending_cookies st)
              ≡ₚ behind record base0;
  oi_keys : forall x, In x top -> is_cookie x = true -> ~ uses (ov_base st) (me_key x);
  oi_pending : forall e, In e (pending_cookies st) ->
    exists x, In x top /\ is_cookie x = true /\ cookie_id (me_value x) = cookie_id (me_value e)
}.

Lemma record_ok_insert (record : ResponderRecord) (k : string) (l : list MetaEntry) :
  record_ok record -> key_kind k <> KOther -> record_ok (<[k := l]> record).
Proof.
  intros Hr Hk k' Hs. destruct (decide (k = k')) as [<-|Hne]; [done|].
  rewrite lookup_insert_ne in Hs by done. by apply Hr.
Qed.

Lemma pending_cookie (base0 : list MetaEntry) (gs : list (CookieId * list MetaEntry)) (e : MetaEntry) :
  groups_ok base0 gs -> In e (flat_map snd gs) -> In e base0 /\ is_cookie e = true.
Proof.
  intros [_ Hf] Hin. apply in_flat_map in Hin as (g & Hg & He).
  rewrite List.Forall_forall in Hf. destruct (Hf g Hg e He) as (? & ? & _). done.
Qed.

(** An entry that is no cookie displaces no cookie. *)
Lemma pending_skip (st : overlay_state) (x : MetaEntry) (top : list MetaEntry) :
  kind x <> KCookie ->
  (forall e, In e (pending_cookies st) ->
     exists y, In y (x :: top) /\ is_cookie y = true /\ cookie_id (me_value y) = cookie_id (me_value e)) ->
  forall e, In e (pending_cookies st) ->
  exists y, In y top /\ is_cookie y = true /\ cookie_id (me_value y) = cookie_id (me_value e).
Proof.
  intros Hx Hp e He. destruct (Hp e He) as (y & [<-|Hy] & Hyc & Hid); [|by exists y].
  by apply is_cookie_true in Hyc.
Qed.

Section Simulation.
Context (base0 : list MetaEntry) (record : ResponderRecord) (Hbase0 : Forall sendable base0).

Lemma overlay_inv_cookie (st : overlay_state) (x : MetaEntry) (top : list MetaEntry) :
  sendable x -> kind x = KCookie -> keyed base0 (x :: top) ->
  overlay_inv base0 record st (x :: top) -> overlay_inv base0 record (overlay_cookie st x) top.
Proof.
  intros Hs Hk [Hkey Hnd] [Hok Hg Hr Hb Hu Hpd].
  assert (Hxc : is_cookie x = true) by by apply is_cookie_true.
  assert (Hfree : existsb (fun e => me_key e =s me_key x) (ov_base st) = false).
  { apply not_true_is_false. intros (e & He & Hek%eqs_true)%existsb_exists.
    apply (Hu x (or_introl eq_refl) Hxc). rewrite <- Hek. by apply in_map. }
  pose proof (overlay_entry_ok st x Hok Hs) as Hok'. unfold overlay_entry in Hok'. rewrite Hk in Hok'.
  unfold overlay_cookie in *. rewrite Hfree in *.
  destruct (take_displaced _ (ov_displaced st)) as [d gs] eqn:Et.
  destruct (take_displaced_spec base0 _ _ _ _ Hg Et) as (Hg' & Hp & Hne & _).
  assert (Hnk : ~ uses (ov_base st) (me_key x)) by (apply Hu; [by left|done]).
  assert (Hpk : ~ uses (flat_map snd gs) (me_key x)).
  { intros (e & He & Hin)%in_map_iff. apply (Hne e Hin).
    destruct (pending_cookie base0 gs e Hg' Hin) as [Hin0 Hec]. by apply (Hkey e x); [|left| | |]. }
  assert (Hrec : recorded record (mkOverlay (ov_base st ++ [mkMeta (me_key x) (me_value x)]) gs
      (ov_written st ++ [mkWritten (me_key x) d]))
    = <[me_key x := flat_map (middleware_of (recorded record st)) d]> (recorded record st)).
  { unfold recorded. simpl. by rewrite fold_left_app. }
  split; [done|done| | | |].
  - rewrite Hrec. apply record_ok_insert; [done|]. rewrite <- kind_sendable by done. congruence.
  - rewrite Hrec. unfold pending_cookies. cbn [ov_base ov_displaced].
    rewrite behind_app, (behind_insert_ne _ _ _ (ov_base st)), (behind_insert_ne _ _ _ (flat_map snd gs)) by done.
    rewrite behind_insert_one, <- Hb. unfold pending_cookies.
    rewrite (behind_perm _ _ _ Hp), behind_app, app_assoc. done.
  - simpl. intros y Hy Hyc. unfold uses. rewrite map_app, in_app_iff. simpl. intros [Hin|[Hin|[]]].
    + by apply (Hu y (or_intror Hy) Hyc).
    + simpl in Hnd. rewrite Hxc in Hnd. simpl in Hnd. rewrite NoDup_cons in Hnd. destruct Hnd as [Hnd _].
      apply Hnd, list_elem_of_In. rewrite Hin. apply in_map, List.filter_In. done.
  - unfold pending_cookies. cbn [ov_displaced]. intros e He. destruct (Hpd e) as (y & [<-|Hy] & Hyc & Hid).
    + unfold pending_cookies. apply list_elem_of_In. rewrite Hp. apply elem_of_app. right. by apply list_elem_of_In.
    + by destruct (Hne e He).
    + by exists y.
Qed.

Lemma overlay_inv_header (st : overlay_state) (name : string) (x : MetaEntry) (top : list MetaEntry) :
  sendable x -> kind x = KHeader name -> Forall sendable top ->
  overlay_inv base0 record st (x :: top) -> overlay_inv base0 record (overlay_header st name x) top.
Proof.
  intros Hs Hk Ht [Hok Hg Hr Hb Hu Hpd].
  pose proof (with_header_ok name x (ov_base st) Hok Hs Hk) as Hok'.
  destruct (with_header_split name x (ov_base st)) as (l & r & Hlr & Hsp).
  set (d := List.filter (fun e => header_name_is e name) (ov_base st)).
  assert (Hrec : recorded record (overlay_header st name x)
    = <[me_key x := flat_map (middleware_of (recorded record st)) d]> (recorded record st)).
  { unfold recorded. simpl. by rewrite fold_left_app. }
  assert (Hkx : key_kind (me_key x) = KHeader name) by by rewrite <- kind_sendable.
  set (v := merge_values name (header_values name (ov_base st)) (me_value x)) in *.
  assert (Hperm : with_header name x (ov_base st)
    ≡ₚ mkMeta (me_key x) v :: List.filter (fun e => negb (header_name_is e name)) (ov_base st)).
  { rewrite Hsp, <- Hlr. symmetry. apply Permutation_middle. }
  assert (Hrest : ~ uses (List.filter (fun e => negb (header_name_is e name)) (ov_base st)) (me_key x)).
  { destruct Hok' as [_ Hn]. unfold keys in Hn. rewrite Hperm in Hn. simpl in Hn.
    rewrite NoDup_cons in Hn. destruct Hn as [Hn _]. intros Hin. by apply Hn, list_elem_of_In. }
  assert (Hpk : ~ uses (pending_cookies st) (me_key x)).
  { intros (e & He & Hin)%in_map_iff. destruct (pending_cookie base0 _ e Hg Hin) as [Hin0 Hec].
    apply is_cookie_true in Hec. rewrite List.Forall_forall in Hbase0.
    rewrite kind_sendable in Hec by by apply Hbase0. congruence. }
  split; [done|done| | | |apply (pending_skip st x); [by rewrite Hk|done]].
  - rewrite Hrec. apply record_ok_insert; [done|]. by rewrite Hkx.
  - rewrite Hrec, overlay_header_base. change (pending_cookies (overlay_header st name x)) with (pending_cookies st).
    rewrite (behind_perm _ _ _ Hperm), behind_cons, behind_insert_one, !behind_insert_ne by done.
    rewrite <- Hb, <- behind_app. f_equiv. apply behind_perm. symmetry. apply filter_split_perm.
  - intros y Hy Hyc (e & He & Hin)%in_map_iff. rewrite overlay_header_base in Hin.
    assert (Hin' : In e (mkMeta (me_key x) v :: List.filter (fun e => negb (header_name_is e name)) (ov_base st)))
      by (by rewrite <- list_elem_of_In, <- Hperm, list_elem_of_In).
    destruct Hin' as [<-|Hin'].
    + simpl in He. apply is_cookie_true in Hyc. rewrite List.Forall_forall in Ht.
      rewrite kind_sendable in Hyc by by apply Ht. congruence.
    + apply List.filter_In in Hin' as [Hin' _]. apply (Hu y (or_intror Hy) Hyc). rewrite <- He. by apply in_map.
Qed.

Lemma overlay_inv_other (st : overlay_state) (x : MetaEntry) (top : list MetaEntry) :
  sendable x -> kind x = KOther -> Forall sendable top ->
  overlay_inv base0 record st (x :: top) ->
  overlay_inv base0 record (mkOverlay (set_other (ov_base st) x) (ov_displaced st) (ov_written st)) top.
Proof.
  intros Hs Hk Ht [Hok Hg Hr Hb Hu Hpd].
  assert (Hkx : key_kind (me_key x) = KOther) by by rewrite <- kind_sendable.
  pose proof (overlay_entry_ok st x Hok Hs) as Hok'. unfold overlay_entry in Hok'. rewrite Hk in Hok'.
  split; [done|done|done| | |apply (pending_skip st x); [by rewrite Hk|done]].
  - change (recorded record _) with (recorded record st). simpl. unfold set_other, pending_cookies.
    by rewrite behind_meta_set.
  - intros y Hy Hyc. simpl. unfold set_other. destruct Hok as [_ Hn].
    rewrite (proj2 (keys_meta_set _ _ _ Hn)). intros [Hin|Hin].
    + by apply (Hu y (or_intror Hy) Hyc).
    + apply is_cookie_true in Hyc. rewrite List.Forall_forall in Ht.
      rewrite kind_sendable in Hyc by by apply Ht. congruence.
Qed.

Lemma overlay_inv_fold (top : list MetaEntry) (st : overlay_state) :
  Forall sendable top -> keyed base0 top -> overlay_inv base0 record st top ->
  overlay_inv base0 record (fold_left overlay_entry top st) [].
Proof.
  intros Ht. revert st. induction Ht as [|x top Hx Ht IH]; intros st Hk Hi; [done|]. simpl.
  assert (Hk' : keyed base0 top).
  { destruct Hk as [H1 H2]. split; [intros e y He Hy; apply H1; [done|by right]|].
    simpl in H2. destruct (is_cookie x); [|done]. simpl in H2. by rewrite NoDup_cons in H2; destruct H2. }
  apply IH; [done|]. unfold overlay_entry. destruct (kind x) as [|name|] eqn:E.
  - by apply overlay_inv_cookie.
  - by apply overlay_inv_header.
  - by apply overlay_inv_other.
Qed.
End Simulation.

(** ** What a stopped flow inherits *)

Definition without_hints (meta : list MetaEntry) : list MetaEntry :=
  List.filter (fun e => negb (existsb (String.eqb (me_key e)) BODY_HINTS)) meta.

Lemma behind_without_hints (record : ResponderRecord) (meta : list MetaEntry) :
  record_ok record -> behind record (without_hints meta) = behind record meta.
Proof.
  intros Hr. unfold without_hints. induction meta as [|e meta IH]; cbn [List.filter]; [done|].
  rewrite (behind_cons _ e meta), <- IH. destruct (existsb (String.eqb (me_key e)) BODY_HINTS) eqn:E; cbn [negb].
  - assert (Hk : key_kind (me_key e) = KOther).
    { apply existsb_exists in E as (k & Hin & ->%eqs_true). by destruct Hin as [<-|[<-|[]]]. }
    by rewrite (behind_other record e Hr Hk).
  - apply behind_cons.
Qed.

Lemma carried_behind (record : ResponderRecord) (meta : list MetaEntry) :
  carried meta record = List.filter carries (behind record meta).
Proof.
  unfold carried, behind. symmetry. apply filter_filter_same. intros e. unfold carries, is_part.
  by destruct (kind e).
Qed.

Lemma overlay_inv_start (record : ResponderRecord) (base top : list MetaEntry) :
  meta_ok base -> record_ok record -> Forall sendable top -> keyed base top ->
  overlay_inv base record (mkOverlay (undisplaced base top) (displaced_cookies base top) []) top.
Proof.
  intros Hb Hr Ht [Hk _]. destruct (displaced_groups base top) as [Hg Hp].
  split; [by apply undisplaced_ok|done|done| | |].
  - change (recorded record _) with record. cbn [ov_base pending_cookies ov_displaced].
    unfold pending_cookies. cbn [ov_displaced]. rewrite (behind_perm _ _ _ Hp), <- behind_app. apply behind_perm.
    rewrite undisplaced_eq, Permutation_app_comm. symmetry.
    rewrite (filter_split_perm (fun e => is_cookie e && replaced_by top (me_value e)) base) at 1.
    f_equiv. rewrite (List.filter_ext _ (fun e => negb (is_cookie e) || negb (replaced_by top (me_value e)))); [done|].
    intros e. by rewrite negb_andb.
  - simpl. intros x Hx Hxc (e & He & Hin)%in_map_iff. rewrite undisplaced_eq in Hin.
    apply List.filter_In in Hin as [Hin Hr']. destruct Hb as [Hb _]. rewrite List.Forall_forall in Hb, Ht.
    assert (Hec : is_cookie e = true).
    { apply is_cookie_true. apply is_cookie_true in Hxc. rewrite kind_sendable in Hxc |- * by auto. congruence. }
    rewrite Hec in Hr'. simpl in Hr'. apply negb_true_iff, bool_decide_eq_false in Hr'. apply Hr'.
    rewrite (Hk e x) by done. apply list_elem_of_In, in_map, in_map. by apply List.filter_In.
  - unfold pending_cookies. cbn [ov_displaced]. intros e He%list_elem_of_In. rewrite Hp in He.
    apply list_elem_of_In, List.filter_In in He as [_ [_ Hrp]%andb_true_iff].
    apply bool_decide_eq_true, list_elem_of_In, in_map_iff in Hrp as (v & Hv & Hin).
    apply in_map_iff in Hin as (x & <- & [Hx Hc]%List.filter_In). by exists x.
Qed.

(** a responding step changes nothing of what a stopped flow inherits. Its
    entries are laid over the flow's, but the headers and cookies carried onto
    an error, a halt or a drop stay those the middleware left, in whatever
    order, provided cookie keys identify cookies (as the keys of
    [cookie_meta_key] do); and the metadata and the record stay well formed, so
    this holds after any number of responses. With keys chosen by hand it
    fails: a responder that reuses the key of a middleware's cookie for another
    one, and also replaces that cookie, makes the stopped flow lose it. *)
Theorem response_leaves_carried (record : ResponderRecord) (meta top : list MetaEntry) :
  (meta_ok meta -> record_ok record -> Forall sendable top -> keyed meta top ->
   let '(record', meta') := apply_response record meta top in
   carried meta' record' ≡ₚ carried meta record /\ meta_ok meta' /\ record_ok record')
  /\ (exists mw responder,
        meta_ok mw /\ Forall sendable responder
        /\ carried mw ∅ = mw /\ mw <> []
        /\ (let '(record', meta') := apply_response ∅ mw responder in carried meta' record' = [])).
Proof.
  split.
  - intros Hb Hr Ht Hk. unfold apply_response. fold (without_hints meta). set (base := without_hints meta).
    assert (Hok : meta_ok base).
    { destruct Hb as [Hb Hn]. split; [by apply Forall_filter|by apply NoDup_filter_keys]. }
    assert (Hk' : keyed base top).
    { destruct Hk as [H1 H2]. split; [|done]. intros e x He. apply H1. by apply List.filter_In in He as [He _]. }
    unfold overlay. cbv zeta. fold (undisplaced base top).
    pose proof (overlay_inv_fold base record (proj1 Hok) top _ Ht Hk' (overlay_inv_start record base top Hok Hr Ht Hk'))
      as [Hok' Hg Hr' Hb' _ Hpd].
    fold (recorded record (fold_left overlay_entry top (mkOverlay (undisplaced base top) (displaced_cookies base top) []))).
    split_and!; [|done|done]. rewrite !carried_behind. apply filter_perm.
    rewrite <- (behind_without_hints record meta Hr). fold base. rewrite <- Hb'.
    assert (Hnil : forall (P : MetaEntry -> MetaEntry -> Prop) (l : list MetaEntry),
      (forall e, In e l -> exists y, In y [] /\ P y e) -> l = []).
    { intros P [|e l] H; [done|]. by destruct (H e (or_introl eq_refl)) as (y & [] & _). }
    rewrite (Hnil _ _ Hpd), app_nil_r. done.
  - exists [mkMeta "resp.set_cookie.0" "b=1"],
      [mkMeta "resp.set_cookie.0" "a=2"; mkMeta "resp.set_cookie.1" "b=3"].
    split_and!; [split; [by repeat constructor|apply NoDup_singleton]|by repeat constructor|done|done|].
    vm_compute. done.
Qed.

(** A responder replaces the middleware's session cookie and merges into its
    [Vary]; a stopped flow still inherits the middleware's two entries. *)
Lemma response_leaves_carried_witness :
  let mw := [mkMeta "resp.set_cookie.sid" "sid=1"; mkMeta "resp.header.Vary" "Origin"] in
  let top := [mkMeta "resp.header.Vary" "Accept"; mkMeta "resp.set_cookie.sid" "sid=2"] in
  let '(record', meta') := apply_response ∅ mw top in
  meta' = [mkMeta "resp.header.Vary" "Origin, Accept"; mkMeta "resp.set_cookie.sid" "sid=2"]
  /\ (carried meta' record' ≡ₚ mw).
Proof.
  intros mw top. assert (Hk : keyed mw top).
  { split; [|apply NoDup_singleton].
    intros e x [<-|[<-|[]]] [<-|[<-|[]]]; try done. }
  pose proof (proj1 (response_leaves_carried ∅ mw top)) as H.
  specialize (H ltac:(split; [by repeat constructor|by apply (bool_decide_unpack _)])
    ltac:(by intros k [? ?]) ltac:(by repeat constructor) Hk).
  destruct (apply_response ∅ mw top) as [record' meta'] eqn:E. destruct H as [H _]. split.
  - apply (f_equal snd) in E. simpl in E. rewrite <- E. vm_compute. done.
  - exact H.
Defined.

(** * Cookie identities and what a stopped flow inherits, over whole runs of
    responding and middleware steps. *)

(** ** Keys of cookies *)

Abbreviation plain := (lacks ";").

Lemma plain_trim (s : string) : plain s -> plain (trim s).
Proof. apply all_trim. Qed.

Lemma plain_dots (s : string) : plain s -> plain (trim_start_matches "." s).
Proof.
  unfold lacks. induction s as [|a s IH]; simpl; [done|]. intros [Ha Hs]%andb_true_iff.
  destruct (Ascii.eqb a "."); [by apply IH|]. simpl. by rewrite Ha.
Qed.

Lemma plain_lower (s : string) : plain s -> plain (to_ascii_lowercase s).
Proof.
  unfold lacks, to_ascii_lowercase. induction s as [|a s IH]; simpl; [done|].
  intros [Ha Hs]%andb_true_iff. rewrite (IH Hs), andb_true_r. clear IH Hs s.
  revert Ha. destruct a as [[] [] [] [] [] [] [] []]; vm_compute; done.
Qed.

Definition plain_id (id : CookieId) : Prop :=
  plain (ck_name id) /\ plain (ck_path id) /\ plain (ck_domain id).

Lemma cookie_attr_plain (id : CookieId) (attr : string) :
  plain_id id -> plain attr -> plain_id (cookie_attr id attr).
Proof.
  intros (Hn & Hp & Hd) Ha. unfold cookie_attr.
  assert (Hv : forall k v, default (attr, "") (split_once "=" attr) = (k, v) -> plain v).
  { intros k v. destruct (split_once "=" attr) as [[l r]|] eqn:E; simpl; [|by intros [= _ <-]].
    apply split_once_Some in E as [-> _]. apply all_app in Ha as [_ Hr]. simpl in Hr.
    by intros [= _ <-]. }
  destruct (default _ _) as [k v] eqn:E. specialize (Hv k v eq_refl).
  destruct (eq_ignore_ascii_case _ "path"); [by split_and!; [|apply plain_trim|]|].
  destruct (eq_ignore_ascii_case _ "domain"); [|done].
  split_and!; [done|done|]. by apply plain_lower, plain_dots, plain_trim.
Qed.

(** Names, paths and domains of cookies hold no semicolon. *)
Lemma cookie_id_plain (directive : string) : plain_id (cookie_id directive).
Proof.
  unfold cookie_id. pose proof (split_lacks ";" directive) as H.
  destruct (split ";" directive) as [|first attrs]; [done|]. apply Forall_cons in H as [Hf Ha].
  assert (H0 : plain_id (mkCookieId (trim (match split "=" first with n :: _ => n | [] => "" end)) "" "")).
  { split_and!; [|done|done]. apply plain_trim. pose proof (all_split _ "=" first Hf) as H.
    destruct (split "=" first); [done|]. by apply Forall_cons in H as [H _]. }
  revert H0. generalize (mkCookieId (trim (match split "=" first with n :: _ => n | [] => "" end)) "" "").
  induction Ha as [|a attrs Ha _ IH]; intros id Hid; [done|]. apply IH. by apply cookie_attr_plain.
Qed.

Definition attr_part (name value : string) : list string :=
  if is_empty value then [] else [name +:+ value].

(** The parts of a cookie's key. *)
Lemma cookie_meta_key_parts (directive : string) :
  let id := cookie_id directive in
  exists k, cookie_meta_key directive = META_RESP_COOKIE_PREFIX +:+ k
    /\ split ";" k = ck_name id :: attr_part "Domain=" (ck_domain id) ++ attr_part "Path=" (ck_path id).
Proof.
  intros id. destruct (cookie_id_plain directive) as (Hn & Hp & Hd). fold id in Hn, Hp, Hd.
  eexists. split; [done|]. fold id. unfold attr_part.
  assert (Ha : forall a v, plain a -> plain v -> plain (a +:+ v)).
  { intros a v Hpa Hpv. apply all_app. done. }
  destruct (is_empty (ck_domain id)), (is_empty (ck_path id)); simpl.
  - rewrite !str_app_nil_r. by apply split_no_sep.
  - rewrite split_app_sep by done. f_equal. apply split_no_sep. by apply (Ha "Path=").
  - rewrite str_app_nil_r, split_app_sep by done. f_equal. apply split_no_sep. by apply (Ha "Domain=").
  - rewrite split_app_sep by done. f_equal.
    etransitivity; [|apply (f_equal (cons _)), (split_no_sep ";"), (Ha "Path="); done].
    apply (split_app_sep ";" ("Domain=" +:+ ck_domain id) ("Path=" +:+ ck_path id)). by apply (Ha "Domain=").
Qed.

(** cookie keys identify cookies. Two directives get the same metadata key
    exactly when they set the same cookie: same name, same path, and the same
    domain up to case and a leading dot. So replacing an entry by its key
    replaces a cookie by a later directive for that cookie and never another
    cookie, and metadata whose cookies are kept under these keys meets what a
    response needs of them. *)
Theorem cookie_meta_key_identifies (a b : string) :
  cookie_meta_key a = cookie_meta_key b <-> cookie_id a = cookie_id b.
Proof.
  split; [|intros H; unfold cookie_meta_key; by rewrite H].
  destruct (cookie_meta_key_parts a) as (ka & -> & Ha), (cookie_meta_key_parts b) as (kb & -> & Hb).
  intros <-%(inj (String.append _)). rewrite Ha in Hb. revert Hb. unfold attr_part.
  destruct (cookie_id a) as [n p d], (cookie_id b) as [n' p' d']. simpl.
  destruct d, p, d', p'; simpl; intros; simplify_eq/=; done.
Qed.

(** ** Runs of responses and middleware steps *)

(** What a step of a flow does to the message's metadata: it responds with
    [top], or continues with the metadata [next]. *)
Inductive meta_event :=
| Responded (top : list MetaEntry)
| Continued (next : list MetaEntry).

Definition meta_event_step (s : ResponderRecord * list MetaEntry) (ev : meta_event)
  : ResponderRecord * list MetaEntry :=
  match ev with
  | Responded top => apply_response s.1 s.2 top
  | Continued next => (after_continue s.1 s.2 next, next)
  end.

(** A middleware passes an entry through when it was there and its key keeps its value. *)
Definition passed_through (before next : list MetaEntry) (e : MetaEntry) : bool :=
  bool_decide (e ∈ before) && bool_decide (meta_get before (me_key e) = meta_get next (me_key e)).

Definition decided (before next : list MetaEntry) : list MetaEntry :=
  List.filter (fun e => negb (passed_through before next e)) next.

(** The entries the middleware of a run wrote or changed. *)
Fixpoint middleware_entries (s : ResponderRecord * list MetaEntry) (evs : list meta_event)
  : list MetaEntry :=
  match evs with
  | [] => []
  | ev :: evs =>
      match ev with Continued next => decided s.2 next | Responded _ => [] end
      ++ middleware_entries (meta_event_step s ev) evs
  end.

Section Provenance.
Context (M : MetaEntry -> Prop).

Definition from_middleware (l : list MetaEntry) : Prop :=
  forall m, In m l -> carries m = true -> M m.

Definition record_from (record : ResponderRecord) : Prop :=
  forall k l, record !! k = Some l -> from_middleware l.

Definition entry_from (record : ResponderRecord) (e : MetaEntry) : Prop :=
  from_middleware (middleware_of record e).

Lemma entry_from_other (record : ResponderRecord) (e : MetaEntry) :
  record_from record -> carries e = false -> entry_from record e.
Proof.
  intros Hr He. unfold entry_from, middleware_of. destruct (record !! me_key e) as [l|] eqn:E; simpl.
  - by apply (Hr (me_key e)).
  - intros m [<-|[]]. congruence.
Qed.

Lemma record_written_from (record : ResponderRecord) (w : Written) :
  record_from record -> (forall d, In d (wr_displaced w) -> entry_from record d) ->
  record_from (record_written record w)
  /\ (forall e, entry_from record e -> entry_from (record_written record w) e)
  /\ (forall v, entry_from (record_written record w) (mkMeta (wr_key w) v)).
Proof.
  intros Hr Hd. unfold record_written. set (l := flat_map _ _).
  assert (Hl : from_middleware l).
  { intros m (d & Hin & Hm)%in_flat_map. by apply (Hd d). }
  split_and!.
  - intros k l' [[<- <-]|[_ H]]%lookup_insert_Some; [done|by apply (Hr k)].
  - intros e He. unfold entry_from, middleware_of. destruct (decide (wr_key w = me_key e)) as [E|E].
    + by rewrite <- E, lookup_insert_eq.
    + by rewrite lookup_insert_ne.
  - intros v. unfold entry_from, middleware_of. simpl. by rewrite lookup_insert_eq.
Qed.

Lemma in_meta_set (base : list MetaEntry) (k v : string) (e : MetaEntry) :
  In e (meta_set base k v) -> In e base \/ e = mkMeta k v.
Proof.
  induction base as [|b base IH]; simpl; [intros [<-|[]]; auto|].
  destruct (String.eqb_spec (me_key b) k) as [<-|_]; simpl; intros [<-|H]; auto. destruct (IH H); auto.
Qed.

Lemma in_with_header (name : string) (x : MetaEntry) (base : list MetaEntry) (e : MetaEntry) :
  In e (with_header name x base) -> In e base \/ exists v, e = mkMeta (me_key x) v.
Proof.
  destruct (with_header_split name x base) as (l & r & Hlr & ->). intros [H|[<-|H]]%in_app_iff.
  - left. assert (Hin : In e (l ++ r)) by (apply in_app_iff; auto). rewrite Hlr in Hin.
    by apply List.filter_In in Hin as [? _].
  - right. by eexists.
  - left. assert (Hin : In e (l ++ r)) by (apply in_app_iff; auto). rewrite Hlr in Hin.
    by apply List.filter_In in Hin as [? _].
Qed.

(** The overlay loop: what every entry stands for comes from the middleware. *)
Definition overlay_from (record : ResponderRecord) (st : overlay_state) : Prop :=
  record_from (recorded record st)
  /\ (forall e, In e (ov_base st) -> entry_from (recorded record st) e)
  /\ (forall e, In e (pending_cookies st) -> entry_from (recorded record st) e).

Lemma overlay_entry_from (record : ResponderRecord) (st : overlay_state) (x : MetaEntry) :
  overlay_from record st -> overlay_from record (overlay_entry st x).
Proof.
  intros (Hr & Hb & Hp). unfold overlay_entry. destruct (kind x) as [|name|] eqn:Ek.
  - unfold overlay_cookie. destruct (take_displaced _ _) as [d gs] eqn:Et.
    assert (Hin : forall e, In e d \/ In e (flat_map snd gs) -> In e (pending_cookies st)).
    { unfold pending_cookies. revert d gs Et. induction (ov_displaced st) as [|[i y] l IH]; intros d gs H; simpl in H.
      - injection H as <- <-. simpl. tauto.
      - destruct (bool_decide _); [injection H as <- <-; simpl; intros e; rewrite in_app_iff; tauto|].
        destruct (take_displaced _ l) as [t l'] eqn:Et. injection H as <- <-. simpl. intros e.
        rewrite !in_app_iff. specialize (IH _ _ eq_refl e). tauto. }
    unfold overlay_from, recorded, pending_cookies. cbn [ov_base ov_displaced ov_written]. rewrite fold_left_app.
    destruct (record_written_from (recorded record st) (mkWritten (if existsb (fun e => me_key e =s me_key x) (ov_base st)
      then fresh_cookie_key (ov_base st) else me_key x) d)) as (H1 & H2 & H3); [done|intros e He; by apply Hp, Hin; left|].
    split_and!; [done| |].
    + intros e [He|[<-|[]]]%in_app_iff; [by apply H2, Hb|apply H3].
    + intros e He. apply H2, Hp, Hin. by right.
  - unfold overlay_from. rewrite overlay_header_base. change (pending_cookies (overlay_header st name x)) with (pending_cookies st).
    unfold recorded. cbn [overlay_header ov_written]. rewrite fold_left_app.
    destruct (record_written_from (recorded record st)
      (mkWritten (me_key x) (List.filter (fun e => header_name_is e name) (ov_base st)))) as (H1 & H2 & H3);
      [done|intros e [He _]%List.filter_In; by apply Hb|].
    split_and!; [done| |].
    + intros e [He|[v ->]]%in_with_header; [by apply H2, Hb|apply H3].
    + intros e He. by apply H2, Hp.
  - split_and!; [done| |done]. change (recorded record _) with (recorded record st). simpl.
    intros e [He|He]%in_meta_set; [by apply Hb|]. apply entry_from_other; [done|].
    unfold carries. destruct x as [k v]. simpl in He. by rewrite He, Ek.
Qed.

Lemma apply_response_from (record : ResponderRecord) (meta top : list MetaEntry) :
  record_from record -> (forall e, In e meta -> entry_from record e) ->
  let s := apply_response record meta top in
  record_from s.1 /\ (forall e, In e s.2 -> entry_from s.1 e).
Proof.
  intros Hr Hm. unfold apply_response. fold (without_hints meta). set (base := without_hints meta).
  assert (Hb : forall e, In e base -> entry_from record e).
  { intros e [He _]%List.filter_In. by apply Hm. }
  unfold overlay. cbv zeta. fold (undisplaced base top). set (st := mkOverlay _ _ _).
  assert (H0 : overlay_from record st).
  { split_and!; [done| |].
    - simpl. intros e He. rewrite undisplaced_eq in He. apply List.filter_In in He as [He _]. by apply Hb.
    - intros e He. apply Hb. by eapply pending_cookie; [apply displaced_groups|exact He]. }
  clearbody st. revert st H0. induction top as [|x top IH]; intros st H0; [by destruct H0 as (? & ? & _)|].
  apply IH. by apply overlay_entry_from.
Qed.
End Provenance.

Lemma after_continue_lookup (record : ResponderRecord) (before next : list MetaEntry) (k : string) (l : list MetaEntry) :
  after_continue record before next !! k = Some l
  <-> record !! k = Some l /\ is_Some (meta_get before k) /\ meta_get before k = meta_get next k.
Proof. unfold after_continue. by rewrite map_lookup_filter_Some. Qed.

Lemma continue_from (M : MetaEntry -> Prop) (record : ResponderRecord) (before next : list MetaEntry) :
  record_from M record -> (forall e, In e before -> entry_from M record e) ->
  (forall e, In e (decided before next) -> M e) ->
  record_from M (after_continue record before next)
  /\ (forall e, In e next -> entry_from M (after_continue record before next) e).
Proof.
  intros Hr Hb Hd. split.
  - intros k l [H _]%after_continue_lookup. by apply (Hr k).
  - intros e He. unfold entry_from, middleware_of.
    destruct (after_continue record before next !! me_key e) as [l|] eqn:E; simpl.
    + apply after_continue_lookup in E as [H _]. by apply (Hr (me_key e)).
    + intros m [<-|[]] Hc. destruct (passed_through before next e) eqn:Ep.
      * apply andb_true_iff in Ep as [Hin%bool_decide_eq_true Hg%bool_decide_eq_true].
        apply list_elem_of_In in Hin. specialize (Hb e Hin). unfold entry_from, middleware_of in Hb.
        destruct (record !! me_key e) as [l|] eqn:El; [|by apply Hb; [left|]]. exfalso.
        assert (H : after_continue record before next !! me_key e = Some l); [|congruence].
        apply after_continue_lookup. split_and!; [done| |done]. clear -Hin.
        unfold meta_get. induction before as [|b before IH]; [done|]. simpl.
        destruct (String.eqb_spec (me_key b) (me_key e)); [by eexists|].
        destruct Hin as [->|Hin]; [done|by apply IH].
      * apply Hd, List.filter_In. by rewrite Ep.
Qed.

Lemma run_from (M : MetaEntry -> Prop) (evs : list meta_event) (s : ResponderRecord * list MetaEntry) :
  record_from M s.1 -> (forall e, In e s.2 -> entry_from M s.1 e) ->
  (forall e, In e (middleware_entries s evs) -> M e) ->
  let s' := fold_left meta_event_step evs s in
  record_from M s'.1 /\ (forall e, In e s'.2 -> entry_from M s'.1 e).
Proof.
  revert s. induction evs as [|ev evs IH]; intros s Hr Hb Hm; [done|]. simpl in Hm.
  assert (Hs : record_from M (meta_event_step s ev).1
    /\ (forall e, In e (meta_event_step s ev).2 -> entry_from M (meta_event_step s ev).1 e)).
  { destruct ev as [top|next]; [by apply apply_response_from|].
    apply continue_from; [done|done|]. intros e He. apply Hm, in_app_iff. by left. }
  destruct Hs as [H1 H2]. apply IH; [done|done|]. intros e He. apply Hm, in_app_iff. by right.
Qed.

(** a stopped flow inherits the middleware's headers and cookies and no
    responder's. Over any run of responding and middleware steps, whatever their
    metadata, every header and cookie carried onto an error, a halt or a drop
    was on the message the flow began with or was written or changed by a
    middleware step; and every header (other than one describing a body) and
    cookie that the last middleware step wrote or changed is carried, also
    where a responder had written that key before. *)
Theorem stopped_flow_inherits_middleware (meta : list MetaEntry) (evs : list meta_event) :
  let '(record', meta') := fold_left meta_event_step evs (∅, meta) in
  incl (carried meta' record') (meta ++ middleware_entries (∅, meta) evs)
  /\ (forall next, incl (List.filter carries (List.filter (fun e => negb (bool_decide
         (meta_get meta' (me_key e) = meta_get next (me_key e)))) next))
       (carried next (after_continue record' meta' next))).
Proof.
  destruct (fold_left _ _ _) as [record' meta'] eqn:E. split.
  - destruct (run_from (fun e => In e (meta ++ middleware_entries (∅, meta) evs)) evs (∅, meta)) as [_ H].
    + by intros k l.
    + intros e He m [<-|[]] _. apply in_app_iff. by left.
    + intros e He. apply in_app_iff. by right.
    + rewrite E in H. intros m [(e & He & Hm)%in_flat_map Hc]%List.filter_In. by apply (H e).
  - intros next e [[He Hp]%List.filter_In Hc]%List.filter_In. apply List.filter_In. split; [|done].
    apply in_flat_map. exists e. split; [done|]. unfold middleware_of.
    destruct (after_continue record' meta' next !! me_key e) as [l|] eqn:El; [|by left].
    apply after_continue_lookup in El as (_ & _ & Hg). by rewrite bool_decide_true in Hp.
Qed.
