(* ===== verification/Streams.v ===== *)
(** Output streams of blocks ([wafer-block/src/stream.rs],
    [streams/output.rs]).

    A stream is what it will yield: the events put back in front of it
    ([prelude]) and those its producer sends, in order, to the point where the
    channel closes. A rewrite applies to the events not yet read, so it is
    applied to [produced] when it is installed; the rewrites used only log
    besides, so they have no state. Bodies are byte strings. *)

From S2P Require Import Prelude CoreTypes.

Inductive StreamEvent :=
| Chunk (bytes : string)
| EvMeta (entry : MetaEntry)
| Complete (meta : list MetaEntry)
| EvError (err : WaferError)
| EvDrop (meta : list MetaEntry)
| EvHalt (body : string) (meta : list MetaEntry)
| EvContinue (msg : Message).

Record OutputStream := mkOutput {
  prelude : list StreamEvent;
  produced : list StreamEvent
}.

Definition from_events (events : list StreamEvent) : OutputStream := mkOutput [] events.

(** Everything a consumer reads. *)
Definition stream_events (o : OutputStream) : list StreamEvent := prelude o ++ produced o.

Definition respond_with_meta (bytes : string) (meta : list MetaEntry) : OutputStream :=
  if is_empty bytes then from_events [Complete meta]
  else from_events [Chunk bytes; Complete meta].

Definition output_error (err : WaferError) : OutputStream := from_events [EvError err].

Definition drop_request_with_meta (meta : list MetaEntry) : OutputStream :=
  from_events [EvDrop meta].

Definition continue_with (msg : Message) : OutputStream := from_events [EvContinue msg].

Definition halt (body : string) (meta : list MetaEntry) : OutputStream := from_events [EvHalt body meta].

Record BufferedResponse := mkBuffered { br_body : string; br_meta : list MetaEntry }.

Definition from_buffered_response (buf : BufferedResponse) : OutputStream :=
  from_events [EvHalt (br_body buf) (br_meta buf)].

(** [prepend]. *)
Definition prepend (events : list StreamEvent) (o : OutputStream) : OutputStream :=
  mkOutput (events ++ prelude o) (produced o).

(** [peek]: the next event, left in place. *)
Definition peek (o : OutputStream) : option StreamEvent * OutputStream :=
  match prelude o with
  | event :: _ => (Some event, o)
  | [] =>
      match produced o with
      | [] => (None, o)
      | event :: rest => (Some event, mkOutput [event] rest)
      end
  end.

Definition is_meta_event (e : StreamEvent) : bool := match e with EvMeta _ => true | _ => false end.

(** The loop of [take_leading_meta] that reads up to an event that is no
    metadata. *)
Fixpoint position_stream (front rest : list StreamEvent) : OutputStream :=
  match rest with
  | [] => mkOutput front []
  | event :: rest =>
      if is_meta_event event then position_stream (front ++ [event]) rest
      else mkOutput (front ++ [event]) rest
  end.

(** The loop that pops the leading metadata. *)
Fixpoint pop_meta (events : list StreamEvent) : list MetaEntry * list StreamEvent :=
  match events with
  | EvMeta entry :: events => let '(meta, rest) := pop_meta events in (entry :: meta, rest)
  | _ => ([], events)
  end.

(** [take_leading_meta]. *)
Definition take_leading_meta (o : OutputStream) : list MetaEntry * OutputStream :=
  let o := if existsb (fun e => negb (is_meta_event e)) (prelude o) then o
           else position_stream (prelude o) (produced o) in
  let '(meta, rest) := pop_meta (prelude o) in
  (meta, mkOutput rest (produced o)).

(** [rewrite_produced]. *)
Fixpoint rewrite_events (f : StreamEvent -> option StreamEvent) (events : list StreamEvent)
  : list StreamEvent :=
  match events with
  | [] => []
  | e :: events => match f e with
                   | Some e => e :: rewrite_events f events
                   | None => rewrite_events f events
                   end
  end.
Definition rewrite_produced (f : StreamEvent -> option StreamEvent) (o : OutputStream)
  : OutputStream := mkOutput (prelude o) (rewrite_events f (produced o)).

Inductive TerminalNotResponse :=
| TnError (err : WaferError)
| TnDrop (meta : list MetaEntry)
| TnHalt (buf : BufferedResponse)
| TnContinue (msg : Message)
| Malformed.

Definition halt_after_body_error : WaferError :=
  error_new ErrorCode.Internal "Halt terminal followed Chunk or Meta events (protocol violation)".

(** [collect_buffered]: the loop over the events. *)
Fixpoint collect_events (events : list StreamEvent) (body : string) (meta : list MetaEntry)
    (any_body_event : bool) : result BufferedResponse TerminalNotResponse :=
  match events with
  | [] => Err Malformed
  | Chunk bytes :: events => collect_events events (body +:+ bytes) meta true
  | EvMeta entry :: events => collect_events events body (meta ++ [entry]) true
  | Complete trailing :: _ => Ok (mkBuffered body (meta ++ trailing))
  | EvHalt halt_body halt_meta :: _ =>
      if any_body_event then Err (TnError halt_after_body_error)
      else Err (TnHalt (mkBuffered halt_body halt_meta))
  | EvError e :: _ => Err (TnError e)
  | EvDrop drop_meta :: _ => Err (TnDrop drop_meta)
  | EvContinue msg :: _ => Err (TnContinue msg)
  end.
Definition collect_buffered (o : OutputStream) : result BufferedResponse TerminalNotResponse :=
  collect_events (stream_events o) "" [] false.

(** ** Facts *)

Lemma pop_meta_spec (events : list StreamEvent) :
  let '(meta, rest) := pop_meta events in events = map EvMeta meta ++ rest.
Proof.
  induction events as [|[] events IH]; try done. simpl. destruct (pop_meta events) as [m r].
  simpl. by rewrite IH.
Qed.

Lemma position_stream_events (front rest : list StreamEvent) :
  stream_events (position_stream front rest) = front ++ rest.
Proof.
  revert front. induction rest as [|e rest IH]; intros front; simpl; [done|].
  destruct (is_meta_event e); [rewrite IH|unfold stream_events; simpl]; by rewrite <- app_assoc.
Qed.

(** Taking the leading metadata off and putting it back loses nothing. *)
Lemma take_leading_meta_events (o : OutputStream) :
  let '(meta, rest) := take_leading_meta o in
  stream_events o = map EvMeta meta ++ stream_events rest.
Proof.
  unfold take_leading_meta. set (o' := if existsb _ _ then o else _).
  assert (E : stream_events o = stream_events o').
  { subst o'. destruct (existsb _ _); [done|]. symmetry. apply position_stream_events. }
  pose proof (pop_meta_spec (prelude o')) as Hp. destruct (pop_meta (prelude o')) as [m r].
  rewrite E. unfold stream_events. simpl. by rewrite Hp, app_assoc.
Qed.

Lemma peek_events (o : OutputStream) :
  let '(e, o') := peek o in stream_events o' = stream_events o /\ e = head (stream_events o).
Proof. destruct o as [[|p ps] [|e es]]; done. Qed.
