(* ===== verification/Executor.v ===== *)
(** Execution of compiled flows ([wafer-run/src/waferflow/executor.rs], and
    the transfer loop [run_plan] of [runtime/runner.rs]).

    A run is a tree of what it does next: the accesses to the counters and
    flags its branches share, the invocations of blocks, and [join_all] over
    branches. The code is written in the continuation monad [Exec], which
    passes the mutable state of a strand and takes the [?] operator's early
    return; [exec_step] runs the trees of concurrent branches interleaved at
    every shared access.

    What a block answers is any stream: an invocation is a [Call], and its
    answer the output stream or the failure of its lazy initialization. A
    stream that never ends is not an answer. [Instant]s are nanoseconds. The
    [while] loops take fuel; a flow visit and a chain of transfers never use
    more than the step budget. *)

From stdpp Require Import pretty relations.
From S2P Require Import Prelude CoreTypes Grants Wrap Registration.
From S2P Require Import Text Expr FlowTypes Accumulator FlowValidate FlowPlan.
From S2P Require Import HttpMeta ResponseMeta Streams.

(** [Display] of [InvalidResponseMeta]. *)
Definition invalid_meta_display `{DebugFormat} (i : InvalidResponseMeta) : string :=
  "response meta " +:+ debug_str (im_key i) +:+ " refused: " +:+ im_reason i.

(** ** The chain of flows of a request *)

(** The limits of [TransferChain]; its counter and flag are in [Shared]. *)
Record TransferChain := mkChain { tc_max_steps : N; tc_deadline : option N }.

Definition chain_new : TransferChain := mkChain USIZE_MAX None.

Record Shared := mkSharedRun { steps_used : N; cancelled : bool; clock : N }.

Definition shared_new (now : N) : Shared := mkSharedRun 0 false now.

(** ** Results *)

Inductive InvocationOutcome := Responded | NoOutput.

Inductive ResponseMode := Collect | ForwardStream.

Inductive StepOutput :=
| Collected (buf : result BufferedResponse TerminalNotResponse)
| Streaming (meta : list MetaEntry) (output : OutputStream).

Inductive ShortCircuit :=
| ScError (err : WaferError)
| ScHalt (buf : BufferedResponse)
| ScDrop (meta : list MetaEntry)
| ScStream (output : OutputStream) (step : string).

(** [ExecState]. *)
Record ExecState := mkExec {
  ex_acc : Accumulator;
  ex_body : string;
  ex_msg : Message;
  ex_record : ResponderRecord
}.

Definition set_acc (st : ExecState) (acc : Accumulator) : ExecState :=
  mkExec acc (ex_body st) (ex_msg st) (ex_record st).
Definition set_body (st : ExecState) (body : string) : ExecState :=
  mkExec (ex_acc st) body (ex_msg st) (ex_record st).
Definition set_response (st : ExecState) (s : ResponderRecord * list MetaEntry) : ExecState :=
  mkExec (ex_acc st) (ex_body st) (mkMessage (msg_kind (ex_msg st)) s.2) s.1.

Definition response_meta_of (msg : Message) : list MetaEntry :=
  List.filter (fun e => starts_with "resp." (me_key e)) (msg_meta msg).

(** ** Short circuits *)

Section Output.
Context `{DebugFormat}.

(** [after_head]. *)
Definition after_head (carried_meta : list MetaEntry) (step : string) (event : StreamEvent)
  : option StreamEvent :=
  let fail error :=
    Some (EvError (mkError (we_code error) (we_message error)
                     (fst (overlay carried_meta (we_meta error))))) in
  match event with
  | Chunk _ => Some event
  | EvMeta _ => None
  | Complete _ => Some (Complete [])
  | EvError err =>
      match first_unsendable (we_meta err) with
      | None => fail err
      | Some invalid =>
          fail (error_new ErrorCode.Internal
                  (step +:+ " produced unsendable response meta: " +:+ invalid_meta_display invalid))
      end
  | EvHalt _ _ | EvDrop _ | EvContinue _ =>
      fail (error_new ErrorCode.Internal
              (step +:+ " ended its streamed response with a terminal that cannot follow a body"))
  end.

(** [ShortCircuit::into_output]. *)
Definition into_output (sc : ShortCircuit) (st : ExecState) : OutputStream :=
  let carried_meta := carried (msg_meta (ex_msg st)) (ex_record st) in
  let with_carried own := fst (overlay carried_meta own) in
  match sc with
  | ScError err => output_error (mkError (we_code err) (we_message err) (with_carried (we_meta err)))
  | ScHalt buf => from_buffered_response (mkBuffered (br_body buf) (with_carried (br_meta buf)))
  | ScDrop meta => drop_request_with_meta (with_carried meta)
  | ScStream output step =>
      prepend (map EvMeta (response_meta_of (ex_msg st)))
        (rewrite_produced (after_head carried_meta step) output)
  end.
End Output.

(** [open_terminal_output]. *)
Definition open_terminal_output (output : OutputStream) : StepOutput :=
  let '(meta, output) := take_leading_meta output in
  let collect output := Collected (collect_buffered (prepend (map EvMeta meta) output)) in
  if declares_streaming meta then
    match peek output with
    | (Some (Chunk _), output) => Streaming meta output
    | (_, output) => collect output
    end
  else collect output.

Section Run.
Context {B Slot : Type}.

(** An invocation: what the dispatched block and its context receive. *)
Record Call := mkCall {
  call_flow : string;
  call_step : string;
  call_target : StepTarget B Slot;
  call_config : gmap string string;
  call_deadline : option N;
  call_msg : Message;
  call_body : string
}.

Abbreviation Answer := (result OutputStream WaferError).
Abbreviation BranchResult := (result Accumulator ShortCircuit).

(** What a run does next. *)
Inductive prog :=
| Finish (output : OutputStream)
| BranchEnd (r : BranchResult)
| Panicked
| NoFuel
| FetchAddAtLeast (limit : N) (k : bool -> prog)
| LoadCancelled (k : bool -> prog)
| StoreCancelled (k : prog)
| Now (k : N -> prog)
| Invoke (c : Call) (k : Answer -> prog)
| JoinAll (branches : list prog) (k : list BranchResult -> prog).

(** Code of a strand: state passing with the early return of [?]. *)
Definition Exec (X : Type) : Type :=
  ExecState -> (result X ShortCircuit -> ExecState -> prog) -> prog.

Definition ret {X} (x : X) : Exec X := fun st k => k (Ok x) st.
Definition throw {X} (sc : ShortCircuit) : Exec X := fun st k => k (Err sc) st.
Definition ebind {X Y} (m : Exec X) (f : X -> Exec Y) : Exec Y :=
  fun st k => m st (fun r st => match r with Ok x => f x st k | Err sc => k (Err sc) st end).
Definition get_state : Exec ExecState := fun st k => k (Ok st) st.
Definition put_state (st : ExecState) : Exec unit := fun _ k => k (Ok tt) st.
Definition throw_error {X} (code : ErrorCode.t) (message : string) : Exec X :=
  throw (ScError (error_new code message)).
End Run.
Arguments Call : clear implicits.
Arguments prog : clear implicits.

Notation "'let!' x := m 'in' k" := (ebind m (fun x => k))
  (at level 10, x pattern, m at level 100, k at level 200) : wafer_scope.

(** ** A strand of a flow *)

Section Strand.
Context {B Slot : Type} `{JsonCrate} `{DebugFormat}.
Context (flow : CompiledFlow B Slot) (chain : TransferChain).
#[local] Abbreviation cstep := (CompiledStep B Slot).
#[local] Abbreviation Exec := (@Exec B Slot).
#[local] Abbreviation prog := (prog B Slot).

(** [check_budget]. *)
Definition check_budget : Exec unit := fun st k =>
  FetchAddAtLeast (tc_max_steps chain) (fun exhausted : bool =>
    if exhausted then
      throw_error ErrorCode.ResourceExhausted
        ("max steps (" +:+ pretty (tc_max_steps chain) +:+ ") exceeded in flow '"
         +:+ cf_id flow +:+ "'") st k
    else ret tt st k).

(** [check_cancel_deadline]. *)
Definition check_cancel_deadline : Exec unit := fun st k =>
  LoadCancelled (fun is_cancelled : bool =>
    if is_cancelled then throw_error ErrorCode.Cancelled "flow cancelled" st k
    else match tc_deadline chain with
         | None => ret tt st k
         | Some dl =>
             Now (fun now =>
               if (dl <=? now)%N then
                 StoreCancelled
                   (throw_error ErrorCode.DeadlineExceeded
                      ("flow '" +:+ cf_id flow +:+ "' timed out") st k)
               else ret tt st k)
         end).

(** [unsendable_meta_error]. *)
Definition unsendable_meta_error (step : cstep) (invalid : InvalidResponseMeta)
  : ShortCircuit :=
  ScError (error_new ErrorCode.Internal
    ("block '" +:+ cs_block_label step +:+ "' in step '" +:+ cs_id step
     +:+ "' produced unsendable response meta: " +:+ invalid_meta_display invalid)).

(** [forward_stream]. *)
Definition forward_stream (step : cstep) (st : ExecState) (meta : list MetaEntry)
    (output : OutputStream) : ShortCircuit * ExecState :=
  match first_unsendable meta with
  | Some invalid => (unsendable_meta_error step invalid, st)
  | None =>
      (ScStream output ("block '" +:+ cs_block_label step +:+ "' in step '" +:+ cs_id step +:+ "'"),
       set_response st (apply_response (ex_record st) (msg_meta (ex_msg st)) meta))
  end.

(** The input of the step's block: the resolved template, as the body. *)
Definition resolve_step_input (step : cstep) : Exec unit := fun st k =>
  match cs_input step with
  | None => ret tt st k
  | Some template =>
      match template_resolve template (ex_acc st) with
      | Err e =>
          throw_error ErrorCode.InvalidArgument
            ("input resolution failed in step '" +:+ cs_id step +:+ "': " +:+ expr_error_display e) st k
      | Ok val =>
          match to_json val with
          | Ok data => ret tt (set_body st data) k
          | Err e =>
              throw_error ErrorCode.Internal
                ("failed to serialize input for step '" +:+ cs_id step +:+ "': " +:+ e) st k
          end
      end
  end.

(** The metadata an outcome produced: all of it, and of a middleware's message
    the entries it changed. *)
Definition produced_meta (before : list MetaEntry) (buf : result BufferedResponse TerminalNotResponse)
  : list MetaEntry :=
  match buf with
  | Ok response => br_meta response
  | Err (TnError e) => we_meta e
  | Err (TnDrop meta) => meta
  | Err (TnHalt halt) => br_meta halt
  | Err (TnContinue next) => List.filter (fun e => negb (bool_decide (e ∈ before))) (msg_meta next)
  | Err Malformed => []
  end.

(** The last part of [run_invocation]: a collected outcome applied to the
    state. *)
Definition apply_outcome (step : cstep) (buf : result BufferedResponse TerminalNotResponse)
    (st : ExecState) : result InvocationOutcome ShortCircuit * ExecState :=
  match first_unsendable (produced_meta (msg_meta (ex_msg st)) buf) with
  | Some invalid => (Err (unsendable_meta_error step invalid), st)
  | None =>
      match buf with
      | Ok response =>
          let st := set_body st (br_body response) in
          (Ok Responded,
           set_response st (apply_response (ex_record st) (msg_meta (ex_msg st)) (br_meta response)))
      | Err (TnError e) =>
          match cf_on_error flow with
          | OnError.Stop => (Err (ScError e), st)
          | OnError.Continue => (Ok NoOutput, set_body st "")
          end
      | Err (TnDrop meta) => (Err (ScDrop meta), st)
      | Err (TnHalt halt) => (Err (ScHalt halt), st)
      | Err (TnContinue next) =>
          (Ok NoOutput,
           mkExec (ex_acc st) (ex_body st) next
             (after_continue (ex_record st) (msg_meta (ex_msg st)) (msg_meta next)))
      | Err Malformed =>
          (Err (ScError (error_new ErrorCode.Internal
            ("block '" +:+ cs_block_label step +:+ "' in step '" +:+ cs_id step
             +:+ "' produced malformed output stream"))), st)
      end
  end.

(** What the dispatch scaffold makes of a block's answer. *)
Definition open_output (mode : ResponseMode) (output : OutputStream) : StepOutput :=
  match mode with
  | Collect => Collected (collect_buffered output)
  | ForwardStream => open_terminal_output output
  end.

(** A block's output taken into the strand. *)
Definition settle_output (step : cstep) (mode : ResponseMode) (output : OutputStream) (st : ExecState)
  : result InvocationOutcome ShortCircuit * ExecState :=
  match open_output mode output with
  | Collected buf => apply_outcome step buf st
  | Streaming meta output => let '(sc, st) := forward_stream step st meta output in (Err sc, st)
  end.

(** The dispatch of the step's block, from its target on. *)
Definition dispatch_step (step : cstep) (mode : ResponseMode) : Exec InvocationOutcome :=
  match cs_target step with
  | None =>
      throw_error ErrorCode.Unimplemented
        ("block '" +:+ cs_block_label step +:+ "' in step '" +:+ cs_id step +:+ "' is not registered")
  | Some target => fun st k =>
      Invoke (mkCall (cf_id flow) (cs_id step) target (cs_config step) (tc_deadline chain)
                (ex_msg st) (ex_body st))
        (fun answer =>
           match answer with
           | Err init_failure => throw (ScError init_failure) st k
           | Ok output => let '(r, st) := settle_output step mode output st in k r st
           end)
  end.

(** [run_invocation]. *)
Definition run_invocation (step : cstep) (mode : ResponseMode) : Exec InvocationOutcome :=
  let! _ := check_cancel_deadline in
  let! _ := resolve_step_input step in
  dispatch_step step mode.

(** The output a step records: its body read as JSON, null where it has none. *)
Definition recorded_output (outcome : InvocationOutcome) (st : ExecState) : Value :=
  match outcome with
  | Responded => default VNull (from_json (ex_body st))
  | NoOutput => VNull
  end.

(** [json!({ "item": item, "index": index })]: the keys are sorted. *)
Definition each_binding (item : Value) (index : N) : Value :=
  VObject [("index", VNumber (PosInt index)); ("item", item)].

(** The item as the block's input, without a template. *)
Definition each_body (step : cstep) (item : Value) (index : N) : Exec unit := fun st k =>
  match cs_input step with
  | Some _ => ret tt st k
  | None =>
      match to_json item with
      | Ok bytes => ret tt (set_body st bytes) k
      | Err e =>
          throw_error ErrorCode.Internal
            ("failed to serialize each item " +:+ pretty index +:+ " for step '" +:+ cs_id step
             +:+ "': " +:+ e) st k
      end
  end.

(** The loop of [run_each] over the items. *)
Fixpoint each_items (step : cstep) (items : list Value) (index : N) (results : list Value)
  : Exec (list Value) :=
  match items with
  | [] => ret results
  | item :: items =>
      let! _ := check_budget in
      let! _ := check_cancel_deadline in
      let! _ := each_body step item index in
      let! st := get_state in
      let! _ := put_state (set_acc st (acc_set (ex_acc st) "each" (each_binding item index))) in
      let! outcome := run_invocation step Collect in
      let! st := get_state in
      each_items step items (index + 1) (results ++ [recorded_output outcome st])
  end.

(** [run_each]. *)
Definition run_each (step : cstep) (each : CompiledEach) : Exec unit :=
  let! st := get_state in
  match path_resolve (ce_path each) (ex_acc st) with
  | Ok (VArray items) =>
      let! results := each_items step items 0 [] in
      let! st := get_state in
      let st := set_acc st (acc_remove (ex_acc st) "each") in
      let! _ := put_state st in
      match to_json (VArray results) with
      | Ok bytes =>
          put_state (set_acc (set_body st bytes) (acc_set (ex_acc st) (cs_id step) (VArray results)))
      | Err e =>
          throw_error ErrorCode.Internal
            ("failed to serialize results of step '" +:+ cs_id step +:+ "': " +:+ e)
      end
  | Ok other =>
      throw_error ErrorCode.InvalidArgument
        ("each expression '" +:+ ce_raw each +:+ "' in step '" +:+ cs_id step
         +:+ "' must resolve to an array, got " +:+ display_json other)
  | Err e =>
      throw_error ErrorCode.InvalidArgument
        ("each expression '" +:+ ce_raw each +:+ "' in step '" +:+ cs_id step
         +:+ "' failed to resolve: " +:+ expr_error_display e)
  end.

(** [run_branch_steps], over the function that runs a step. *)
Section Branch.
Context (run : cstep -> Exec unit).
Fixpoint run_branch_steps (steps : list cstep) : Exec unit :=
  match steps with
  | [] => ret tt
  | step :: steps =>
      match cs_next step with
      | Some _ =>
          throw_error ErrorCode.InvalidArgument
            ("step '" +:+ cs_id step +:+ "': 'next' routing inside parallel branches is not supported — branch steps run strictly in order")
      | None => let! _ := run step in run_branch_steps steps
      end
  end.
End Branch.

(** A branch from its fork on: a delta over the frozen accumulator. *)
Definition fork_branch (body : Exec unit) (st : ExecState) : prog :=
  body (set_acc st (branch_from (ex_acc st))) (fun r st =>
    BranchEnd match r with Ok _ => Ok (ex_acc st) | Err sc => Err sc end).

Definition branch_delta (parent : Accumulator) (r : result Accumulator ShortCircuit)
  : option (gmap string Value) :=
  match r with
  | Ok acc => Some (filter (fun '(key, _) => acc_get parent key = None) (into_data acc))
  | Err _ => None
  end.

Definition branch_failure (r : result Accumulator ShortCircuit) : option ShortCircuit :=
  match r with Ok _ => None | Err sc => Some sc end.

Definition merge_delta (acc : Accumulator) (delta : gmap string Value) : Accumulator :=
  fold_left (fun acc '(key, value) => acc_set acc key value) (map_to_list delta) acc.

(** The join of [run_parallel]: the first failure in declaration order, else
    the deltas merged in that order. *)
Definition join_outcomes (outcomes : list (result Accumulator ShortCircuit)) : Exec unit := fun st k =>
  match omap branch_failure outcomes with
  | failure :: _ => throw failure st k
  | [] =>
      ret tt (set_acc st (fold_left merge_delta (omap (branch_delta (ex_acc st)) outcomes) (ex_acc st))) k
  end.

(** [run_parallel]. *)
Definition run_parallel (branches : list (Exec unit)) : Exec unit := fun st k =>
  JoinAll (map (fun body => fork_branch body st) branches)
    (fun outcomes => join_outcomes outcomes st k).

(** The step's own block: fanned out, or invoked once and recorded. *)
Definition run_own (step : cstep) (mode : ResponseMode) : Exec unit :=
  match cs_each step with
  | Some each => run_each step each
  | None =>
      let! outcome := run_invocation step mode in
      match cs_input step with
      | Some _ =>
          let! st := get_state in
          put_state (set_acc st (acc_set (ex_acc st) (cs_id step) (recorded_output outcome st)))
      | None => ret tt
      end
  end.

(** [run_step]. *)
Fixpoint run_step (step : cstep) (mode : ResponseMode) : Exec unit :=
  let! _ := check_budget in
  let! _ := check_cancel_deadline in
  let! _ := match cs_parallel step with
            | Some branches =>
                run_parallel (map (run_branch_steps (fun s => run_step s Collect)) branches)
            | None => ret tt
            end in
  run_own step mode.

(** ** A flow *)

(** How routing leaves a step. *)
Inductive routing :=
| RJump (index : nat)
| RTransfer (flow_id : string)
| RFail (err : WaferError)
| RAdvance.

(** The loop over the [next] entries. *)
Fixpoint route (step : cstep) (entries : list CompiledNextEntry) (acc : Accumulator) : routing :=
  match entries with
  | [] => RAdvance
  | entry :: entries =>
      match match cn_when entry with
            | None => Ok true
            | Some (condition, compiled) =>
                match condition_eval compiled acc with
                | Ok taken => Ok taken
                | Err e => Err (condition, e)
                end
            end with
      | Err (condition, e) =>
          RFail (error_new ErrorCode.InvalidArgument
            ("flow '" +:+ cf_id flow +:+ "' step '" +:+ cs_id step +:+ "': condition '" +:+ condition
             +:+ "' failed to evaluate: " +:+ expr_error_display e))
      | Ok false => route step entries acc
      | Ok true =>
          match cn_target entry with
          | NextStep index => RJump index
          | MissingStep target =>
              RFail (error_new ErrorCode.Unimplemented
                       ("next target step '" +:+ target +:+ "' does not exist"))
          | NextFlow target => RTransfer target
          | NextNone => RAdvance
          end
      end
  end.

(** [FlowOutcome]: the target of a transfer is still to be looked up. *)
Inductive FlowOutcome :=
| Done (output : OutputStream)
| Transfer (flow_id : string) (st : ExecState).

Definition is_none {X} (o : option X) : bool := match o with None => true | Some _ => false end.

(** Whether a step may forward its block's stream. *)
Definition is_terminal_step (step : cstep) (current : nat) (routed : bool) : bool :=
  is_none (cs_next step) && (routed || (S current =? length (cf_steps flow)))
  && is_none (cs_each step) && is_none (cs_parallel step).

Definition finish_flow (st : ExecState) : FlowOutcome :=
  Done (respond_with_meta (ex_body st) (response_meta_of (ex_msg st))).

(** The loop of [execute]. *)
Fixpoint flow_loop (fuel : nat) (current : nat) (routed : bool) (st : ExecState)
    (k : FlowOutcome -> prog) : prog :=
  match fuel with
  | O => NoFuel
  | S fuel =>
      match cf_steps flow !! current with
      | None => k (finish_flow st)
      | Some step =>
          let mode := if is_terminal_step step current routed then ForwardStream else Collect in
          run_step step mode st (fun r st =>
            match r with
            | Err sc => k (Done (into_output sc st))
            | Ok _ =>
                match cs_next step with
                | Some entries =>
                    match route step entries (ex_acc st) with
                    | RJump index => flow_loop fuel index true st k
                    | RTransfer target => k (Transfer target st)
                    | RFail err => k (Done (into_output (ScError err) st))
                    | RAdvance => flow_loop fuel (S current) false st k
                    end
                | None => if routed then k (finish_flow st)
                          else flow_loop fuel (S current) false st k
                end
            end)
      end
  end.

(** [execute]; [input] is what collecting the input gives. *)
Definition execute (fuel : nat) (msg : Message) (input : result string WaferError)
    (record : ResponderRecord) (k : FlowOutcome -> prog) : prog :=
  match input with
  | Err e => k (Done (output_error e))
  | Ok body =>
      let acc := if cf_uses_accumulator flow
                 then acc_set acc_new "input" (default VNull (from_json body)) else acc_new in
      flow_loop fuel 0 false (mkExec acc body msg record) k
  end.
End Strand.

(** [TransferChain::enter]. *)
Definition chain_enter {B Slot} (chain : TransferChain) (flow : CompiledFlow B Slot) (now : N)
  : TransferChain :=
  mkChain (N.min (tc_max_steps chain) (cf_max_steps flow))
    match option_map (fun t => now + t)%N (cf_timeout flow) with
    | None => tc_deadline chain
    | Some own => Some match tc_deadline chain with
                       | None => own
                       | Some dl => N.min dl own
                       end
    end.

Definition flow_not_found (flow_id : string) : WaferError :=
  error_new ErrorCode.Unimplemented ("flow is not registered: " +:+ flow_id).

(** ** The runtime's flows *)

(** What [flow_plan] reads: the plans compiled at seal, and the documents
    added since. *)
Record FlowTable {B Slot : Type} := mkFlowTable {
  ft_plans : gmap string (CompiledFlow B Slot);
  ft_flows : gmap string WaferFlow;
  ft_registry : @RegistrationCore B Slot
}.
Arguments FlowTable : clear implicits.

Section Chain.
Context {B Slot : Type} `{JsonCrate} `{DebugFormat} (table : FlowTable B Slot).

(** [Wafer::flow_plan]; the inner [None] is the panic of [compile_flow]. *)
Definition flow_plan (flow_id : string) : option (option (CompiledFlow B Slot)) :=
  match ft_plans table !! flow_id with
  | Some compiled => Some (Some compiled)
  | None => option_map (compile_flow (ft_registry table)) (ft_flows table !! flow_id)
  end.

(** The loop of [run_plan]; a transfer target is looked up where the flow
    transfers. *)
Fixpoint chain_loop (fuel flow_fuel : nat) (chain : TransferChain) (plan : CompiledFlow B Slot)
    (msg : Message) (input : result string WaferError) (record : ResponderRecord) : prog B Slot :=
  match fuel with
  | O => NoFuel
  | S fuel =>
      Now (fun start =>
        let chain := chain_enter chain plan start in
        execute plan chain flow_fuel msg input record (fun outcome =>
          match outcome with
          | Done output => Finish output
          | Transfer target st =>
              match flow_plan target with
              | None => Finish (into_output (ScError (flow_not_found target)) st)
              | Some None => Panicked
              | Some (Some plan) =>
                  chain_loop fuel flow_fuel chain plan (ex_msg st) (Ok (ex_body st)) (ex_record st)
              end
          end))
  end.

(** [run_plan]: one more turn of each loop than the flow's step budget. *)
Definition run_plan (plan : CompiledFlow B Slot) (msg : Message) (input : result string WaferError)
  : prog B Slot :=
  let fuel := S (N.to_nat (cf_max_steps plan)) in
  chain_loop fuel fuel chain_new plan msg input ∅.

(** [Wafer::run] of a flow, once sealed. *)
Definition run_flow (flow_id : string) (msg : Message) (input : result string WaferError)
  : prog B Slot :=
  match flow_plan flow_id with
  | None => Finish (output_error (flow_not_found flow_id))
  | Some None => Panicked
  | Some (Some plan) => run_plan plan msg input
  end.
End Chain.
