(* ===== verification/ExecutorSteps.v ===== *)
(** Runs of flow executions: the interleaving semantics of [prog], and the
    certificate [sound] that every execution carries - a strand pays a unit of
    the budget for each invocation, uses fuel only with the budget, and ends
    where it should. *)

From stdpp Require Import pretty relations.
From S2P Require Import Prelude CoreTypes Grants Wrap Registration.
From S2P Require Import Text Expr FlowTypes Accumulator FlowValidate FlowPlan.
From S2P Require Import HttpMeta ResponseMeta Streams Executor.

#[local] Open Scope nat_scope.

Create HintDb spend.

(** ** Steps *)

Section Steps.
Context {B Slot : Type}.
#[local] Abbreviation prog := (prog B Slot).
#[local] Abbreviation Call := (Call B Slot).
Context (answers : Call -> result OutputStream WaferError -> Prop).

(** A running request: the shared counter, flag and clock, how often the
    counter was charged and the invocations made, in order. *)
Record running := mkRunning {
  r_shared : Shared;
  r_charges : N;
  r_calls : list Call
}.

Definition USIZE_MOD : N := (USIZE_MAX + 1)%N.

(** [fetch_add(1) >= limit]: the counter wraps. *)
Definition charge (s : running) : running :=
  mkRunning (mkSharedRun ((steps_used (r_shared s) + 1) mod USIZE_MOD) (cancelled (r_shared s)) (clock (r_shared s)))
    (r_charges s + 1) (r_calls s).
Definition exhausted (s : running) (limit : N) : bool := (limit <=? steps_used (r_shared s))%N.

Definition tick (s : running) (now : N) : running :=
  mkRunning (mkSharedRun (steps_used (r_shared s)) (cancelled (r_shared s)) now) (r_charges s) (r_calls s).
Definition cancel (s : running) : running :=
  mkRunning (mkSharedRun (steps_used (r_shared s)) true (clock (r_shared s))) (r_charges s) (r_calls s).
Definition called (s : running) (c : Call) : running :=
  mkRunning (r_shared s) (r_charges s) (r_calls s ++ [c]).

Inductive exec_step : running * prog -> running * prog -> Prop :=
| step_charge s limit k :
    exec_step (s, FetchAddAtLeast limit k) (charge s, k (exhausted s limit))
| step_load s k : exec_step (s, LoadCancelled k) (s, k (cancelled (r_shared s)))
| step_store s k : exec_step (s, StoreCancelled k) (cancel s, k)
| step_now s now k : (clock (r_shared s) <= now)%N -> exec_step (s, Now k) (tick s now, k now)
| step_invoke s c a k : answers c a -> exec_step (s, Invoke c k) (called s c, k a)
| step_branch s s' i b b' bs k :
    bs !! i = Some b -> exec_step (s, b) (s', b') ->
    exec_step (s, JoinAll bs k) (s', JoinAll (<[i := b']> bs) k)
| step_join s rs k : exec_step (s, JoinAll (map BranchEnd rs) k) (s, k rs).

Definition run_start (now : N) : running := mkRunning (shared_new now) 0 [].

(** ** Every run ends *)

(** What a tree can become, whatever the shared state. *)
Inductive unfolds : prog -> prog -> Prop :=
| unf_charge limit k b : unfolds (FetchAddAtLeast limit k) (k b)
| unf_load k b : unfolds (LoadCancelled k) (k b)
| unf_store k : unfolds (StoreCancelled k) k
| unf_now k t : unfolds (Now k) (k t)
| unf_invoke c k a : unfolds (Invoke c k) (k a)
| unf_branch i b b' bs k :
    bs !! i = Some b -> unfolds b b' -> unfolds (JoinAll bs k) (JoinAll (<[i := b']> bs) k)
| unf_join rs k : unfolds (JoinAll (map BranchEnd rs) k) (k rs).

Lemma exec_step_unfolds (x y : running * prog) : exec_step x y -> unfolds x.2 y.2.
Proof. induction 1; simpl in *; econstructor; done. Qed.

(** One of several trees unfolds. *)
Definition unfolds_in (bs bs' : list prog) : Prop :=
  exists i b b', bs !! i = Some b /\ unfolds b b' /\ bs' = <[i := b']> bs.

Lemma unfolds_in_sn (bs : list prog) : Forall (sn unfolds) bs -> sn unfolds_in bs.
Proof.
  induction 1 as [|b bs Hb _ IH].
  { constructor. intros ? (i & b & b' & Hi & _). by rewrite lookup_nil in Hi. }
  revert bs IH. induction Hb as [b _ IHb]. intros bs Hbs. induction Hbs as [bs Hbs IHbs].
  constructor. intros ? ([|i] & x & x' & Hi & Hx & ->); simpl in *.
  - injection Hi as ->. apply IHb; [done|]. constructor. exact Hbs.
  - apply IHbs. by exists i, x, x'.
Qed.

(** Induction on trees, through the branches. *)
Lemma prog_tree_ind (P : prog -> Prop) :
  (forall p, (forall q, unfolds p q -> P q) -> (forall bs k, p <> JoinAll bs k) -> P p) ->
  (forall bs k, Forall P bs -> (forall rs, P (k rs)) -> P (JoinAll bs k)) ->
  forall p, P p.
Proof.
  intros Hn Hj. fix IH 1. intros p. destruct p as [o|r| | |limit k|k|k|k|c k|bs k].
  10: { apply Hj; [|intros rs; apply IH].
        induction bs as [|b bs IHbs]; constructor; [apply IH|exact IHbs]. }
  1-4: apply Hn; [intros q Hq; inversion Hq|done].
  1,2,4: assert (Hk : forall b, P (k b)) by (intros b; apply IH);
    apply Hn; [intros q Hq; inversion Hq; subst; apply Hk|done].
  - assert (Hk : P k) by apply IH. apply Hn; [intros q Hq; inversion Hq; subst; exact Hk|done].
  - assert (Hk : forall a, P (k a)) by (intros a; apply IH).
    apply Hn; [intros q Hq; inversion Hq; subst; apply Hk|done].
Qed.

Lemma prog_sn (p : prog) : sn unfolds p.
Proof.
  induction p as [p IH _|bs k Hbs Hk] using prog_tree_ind; [constructor; exact IH|].
  apply unfolds_in_sn in Hbs. induction Hbs as [bs _ IHbs].
  constructor. intros q Hq. inversion Hq as [| | | | |i b b' bs0 k0 Hi Hb E1 E2|rs k0 E1 E2]; subst; [|apply Hk].
  apply IHbs. by exists i, b, b'.
Qed.

(** No run of a tree is infinite. *)
Lemma exec_step_sn (x : running * prog) : sn exec_step x.
Proof.
  destruct x as [s p]. revert s. induction (prog_sn p) as [p _ IH]. intros s. constructor.
  intros [s' p'] H. apply IH. by apply exec_step_unfolds in H.
Qed.
End Steps.

(** ** The certificate *)

(** What is asked of blocks ([sp_answer]) and kept of a strand: its state, the
    terminals that stop it, and the response of the flow. *)
Record strand_spec := mkSpec {
  sp_answer : result OutputStream WaferError -> Prop;
  sp_state : ExecState -> Prop;
  sp_stop : ShortCircuit -> Prop;
  sp_output : OutputStream -> Prop
}.

Definition stops (Sp : strand_spec) {X} (r : result X ShortCircuit) : Prop :=
  match r with Ok _ => True | Err sc => sp_stop Sp sc end.

(** [sound m c n p] for a strand that has [c] units of the budget paid ahead
    and [n] turns of fuel: [m] tells the main strand from a branch; [M] bounds
    the limits of the flows from above and [L] from below; where the chain is
    not [timed], the clock plays no part. *)
Inductive sound {B Slot : Type} (Sp : strand_spec) (M L : N) (timed : bool)
  : bool -> nat -> nat -> prog B Slot -> Prop :=
| sound_finish c n o : sp_output Sp o -> sound Sp M L timed true c n (Finish o)
| sound_no_fuel c : sound Sp M L timed true c 0 NoFuel
| sound_branch_end c n r : stops Sp r -> sound Sp M L timed false c n (BranchEnd r)
| sound_charge m c n limit k :
    (L <= limit <= M)%N -> sound Sp M L timed m c n (k true) ->
    sound Sp M L timed m (S c) (pred n) (k false) ->
    sound Sp M L timed m c n (FetchAddAtLeast limit k)
| sound_load m c n k :
    (forall b, sound Sp M L timed m c n (k b)) -> sound Sp M L timed m c n (LoadCancelled k)
| sound_store m c n k :
    timed = true -> sound Sp M L timed m c n k -> sound Sp M L timed m c n (StoreCancelled k)
| sound_now m c n k :
    (timed = false -> forall t, k t = k 0%N) -> (forall t, sound Sp M L timed m c n (k t)) ->
    sound Sp M L timed m c n (Now k)
| sound_invoke m c n call k :
    (forall a, sp_answer Sp a -> sound Sp M L timed m c n (k a)) ->
    sound Sp M L timed m (S c) n (Invoke call k)
| sound_join m c c0 cs n bs k :
    Forall2 (fun c b => sound Sp M L timed false c 0 b) cs bs ->
    (forall rs, Forall (stops Sp) rs -> sound Sp M L timed m c0 n (k rs)) -> c0 + sum_list cs <= c ->
    sound Sp M L timed m c n (JoinAll bs k).

Section Certificate.
Context {B Slot : Type} (Sp : strand_spec) (M L : N) (timed : bool).
#[local] Abbreviation sound := (@sound B Slot Sp M L timed).

(** More paid ahead and less fuel claimed is weaker. *)
Lemma sound_weaken (m : bool) (c n : nat) (p : prog B Slot) :
  sound m c n p -> forall c' n', c <= c' -> n' <= n -> sound m c' n' p.
Proof.
  induction 1 as [c n o Ho|c|c n r Hr|m c n limit k Hl _ IH1 _ IH2|m c n k _ IH|m c n k Ht _ IH|m c n k Ht _ IH
    |m c n call k _ IH|m c c0 cs n bs k Hb _ IH Hc]; intros c' n' Hc' Hn'.
  - by constructor.
  - replace n' with 0 by lia. constructor.
  - by constructor.
  - constructor; [done|by apply IH1|apply IH2; lia].
  - constructor. intros b. by apply IH.
  - constructor; [done|by apply IH].
  - constructor; [done|]. intros t. by apply IH.
  - destruct c' as [|c']; [lia|]. constructor. intros a Ha. apply IH; [done|lia|done].
  - econstructor; [exact Hb|intros rs Hrs; apply IH; [exact Hrs|reflexivity|done]|lia].
Qed.

Lemma sum_list_update (cs : list nat) (i c c' : nat) :
  cs !! i = Some c -> sum_list (<[i := c']> cs) + c = sum_list cs + c'.
Proof.
  revert i. induction cs as [|x cs IH]; intros [|i] Hi; simpl in *; [done|done|injection Hi as ->; lia|].
  specialize (IH i Hi). lia.
Qed.

(** What a step does to the certificate: the budget charged covers the calls
    made and what is paid ahead, and the fuel used. *)
Definition covers (s s' : running) (c c' n n' : nat) : Prop :=
  let used s := N.to_nat (N.min (@r_charges B Slot s) M) in
  length (r_calls s') + c' + used s <= length (r_calls s) + c + used s'
  /\ n + used s <= n' + used s'.

Definition counter_ok (s : @running B Slot) : Prop :=
  (steps_used (r_shared s) = r_charges s mod USIZE_MOD)%N.

Context (answers : Call B Slot -> result OutputStream WaferError -> Prop).
Context (Hanswers : forall c a, answers c a -> sp_answer Sp a).

Lemma ends_stop (cs : list nat) (rs : list (result Accumulator ShortCircuit)) :
  Forall2 (fun c b => sound false c 0 b) cs (map BranchEnd rs) -> Forall (stops Sp) rs.
Proof.
  revert cs. induction rs as [|r rs IH]; intros cs Hf; [constructor|].
  inversion Hf as [|c ? cs' ? Hc Hf']; subst. constructor; [by inversion Hc|by eapply IH].
Qed.

Lemma step_counter (x y : running * prog B Slot) :
  exec_step answers x y -> counter_ok x.1 ->
  counter_ok y.1 /\ (r_charges x.1 <= r_charges y.1)%N.
Proof.
  induction 1 as [s limit k| | | | |s s' i b b' bs k Hi _ IH|]; simpl in *; intros Hc;
    try (split; [done|lia]); [|by apply IH].
  split; [|simpl; lia]. unfold counter_ok in *. simpl. rewrite Hc.
  by rewrite N.Div0.add_mod_idemp_l.
Qed.

Lemma sound_step (x y : running * prog B Slot) :
  exec_step answers x y -> counter_ok x.1 -> (r_charges y.1 <= USIZE_MOD)%N ->
  forall m c n, sound m c n x.2 ->
  exists c' n', sound m c' n' y.2 /\ covers x.1 y.1 c c' n n'.
Proof.
  induction 1 as [s limit k|s k|s k|s now k Hn|s call a k Ha|s s' i b b' bs k Hi Hstep IH|s rs k];
    simpl in *; intros Hc Hb m c n Hs;
    inversion Hs as [| | |? ? ? ? ? Hl Ht Hf|? ? ? ? Hk|? ? ? ? Ht Hk|? ? ? ? Ht Hk|? ? ? ? ? Hk
      |? ? c0 cs ? ? ? Hbs Hk Hle]; subst; unfold covers; simpl.
  - assert (E : steps_used (r_shared s) = r_charges s).
    { unfold counter_ok in Hc. rewrite Hc, N.mod_small; [done|]. lia. }
    unfold exhausted. rewrite E. destruct (limit <=? r_charges s)%N eqn:Ex.
    + exists c, n. split; [done|]. lia.
    + apply N.leb_gt in Ex. exists (S c), (pred n). split; [done|]. lia.
  - exists c, n. split; [done|lia].
  - exists c, n. split; [done|lia].
  - exists c, n. split; [done|lia].
  - eexists _, _. split; [by apply Hk, (Hanswers call)|]. rewrite length_app. simpl. lia.
  - destruct (Forall2_lookup_r _ _ _ _ _ Hbs Hi) as (ci & Hci & Hsi).
    destruct (IH Hc Hb false ci 0 Hsi) as (ci' & n' & Hs' & Hcov & _).
    pose proof (sum_list_update cs i ci ci' Hci) as Hsum.
    pose proof (step_counter _ _ Hstep Hc) as [_ Hmono]. simpl in Hmono.
    exists (c0 + sum_list (<[i := ci']> cs)), n. split; [|split; lia].
    econstructor; [apply Forall2_insert; [exact Hbs|]|exact Hk|done].
    eapply sound_weaken; [exact Hs'|done|lia].
  - exists c0, n. split; [by apply Hk, (ends_stop cs)|]. lia.
Qed.

Lemma sound_run (x y : running * prog B Slot) (m : bool) (c n : nat) :
  rtc (exec_step answers) x y -> counter_ok x.1 -> (r_charges y.1 <= USIZE_MOD)%N -> sound m c n x.2 ->
  exists c' n', sound m c' n' y.2 /\ covers x.1 y.1 c c' n n'.
Proof.
  intros Hr. revert c n. induction Hr as [x|x y z Hxy Hyz IH]; intros c n Hc Hb Hs.
  { exists c, n. split; [done|]. unfold covers. lia. }
  destruct (step_counter _ _ Hxy Hc) as [Hc' _].
  assert (Hmono : (r_charges y.1 <= r_charges z.1)%N).
  { clear -Hyz Hc'. induction Hyz as [|y y' z Hs _ IH]; [done|].
    apply step_counter in Hs as [Hs Hle]; [|done]. specialize (IH Hs). lia. }
  destruct (sound_step _ _ Hxy Hc ltac:(lia) m c n Hs) as (c1 & n1 & Hs1 & H1).
  destruct (IH c1 n1 Hc' Hb Hs1) as (c2 & n2 & Hs2 & H2).
  exists c2, n2. split; [done|]. unfold covers in *. lia.
Qed.

(** A tree that can end the run. *)
Definition ended (m : bool) (p : prog B Slot) : Prop :=
  if m then (exists o, p = Finish o) \/ p = NoFuel else exists r, p = BranchEnd r.

Lemma branches_ended (bs : list (prog B Slot)) :
  Forall (ended false) bs -> exists rs, bs = map BranchEnd rs.
Proof.
  induction 1 as [|b bs [r ->] _ [rs ->]]; [by exists []|]. by exists (r :: rs).
Qed.

(** Where every call is answered, a run goes on until it has ended. *)
Lemma sound_progress (p : prog B Slot) (s : running) :
  (forall c, exists a, answers c a) ->
  forall m c n, sound m c n p -> ended m p \/ exists y, exec_step answers (s, p) y.
Proof.
  intros Hans. induction p as [p IH Hj|bs k Hbs Hk] using prog_tree_ind; intros m c n Hs.
  - inversion Hs; subst; unfold ended; eauto.
    + right. eexists. constructor.
    + right. eexists. constructor.
    + right. eexists. constructor.
    + right. eexists. constructor. reflexivity.
    + right. destruct (Hans call) as [a Ha]. eexists. by constructor.
    + by destruct (Hj bs k).
  - inversion Hs as [| | | | | | | |? ? c0 cs ? ? ? Hc _ _]; subst. right.
    assert (Hall : Forall (ended false) bs
      \/ exists i b y, bs !! i = Some b /\ exec_step answers (s, b) y).
    { clear Hs. induction Hc as [|c' b cs bs Hb Hc IHc]; [by left|].
      apply Forall_cons in Hbs as [Hb' Hbs]. destruct (Hb' false _ _ Hb) as [He|[y Hy]].
      - destruct (IHc Hbs) as [Ha|(i & b1 & y & Hi & Hy)]; [left; by constructor|].
        right. by exists (S i), b1, y.
      - right. by exists 0, b, y. }
    destruct Hall as [[rs ->]%branches_ended|(i & b & [s' b'] & Hi & Hy)].
    + eexists. constructor.
    + eexists. by eapply step_branch.
Qed.
End Certificate.

(** Induction on compiled steps, through their branches. *)
Lemma compiled_step_ind' {B Slot} (P : CompiledStep B Slot -> Prop) :
  (forall step, (forall branches, cs_parallel step = Some branches -> Forall (Forall P) branches) -> P step) ->
  forall step, P step.
Proof.
  intros HP. fix IH 1. intros [id label target input config each par next]. apply HP. simpl.
  destruct par as [branches|]; [|done]. intros ? [= <-]. clear -IH.
  induction branches as [|b branches IHb]; constructor; [|exact IHb].
  induction b as [|s b IHs]; constructor; [apply IH|exact IHs].
Qed.

(** ** The executor's certificate *)

(** What the operations of a strand keep: the interface between the executor
    and the facts about response metadata. *)
Class SpecLaws (B Slot : Type) `{DebugFormat} (Sp : strand_spec) : Prop := {
  sl_acc : forall st acc, sp_state Sp st -> sp_state Sp (set_acc st acc);
  sl_body : forall st body, sp_state Sp st -> sp_state Sp (set_body st body);
  sl_error : forall code message, sp_stop Sp (ScError (error_new code message));
  sl_init : forall e, sp_answer Sp (Err e) -> sp_stop Sp (ScError e);
  sl_settle : forall (flow : CompiledFlow B Slot) step mode o st,
    sp_answer Sp (Ok o) -> sp_state Sp st ->
    stops Sp (settle_output flow step mode o st).1 /\ sp_state Sp (settle_output flow step mode o st).2;
  sl_finish : forall st, sp_state Sp st ->
    sp_output Sp (respond_with_meta (ex_body st) (response_meta_of (ex_msg st)));
  sl_stopped : forall sc st, sp_state Sp st -> sp_stop Sp sc -> sp_output Sp (into_output sc st)
}.

Section Strand.
Context {B Slot : Type} `{JsonCrate} `{DebugFormat} (Sp : strand_spec) `{!SpecLaws B Slot Sp}.
Context (M L : N) (timed : bool) (flow : CompiledFlow B Slot) (chain : TransferChain).
Context (Hlimit : (L <= tc_max_steps chain <= M)%N) (Htime : timed = false -> tc_deadline chain = None).
#[local] Abbreviation sound := (@sound B Slot Sp M L timed).

(** Code that spends what is paid ahead from [c] down to [c'], keeps the
    state's predicate and answers with [Q]. *)
Definition spends {X} (Q : X -> Prop) (e : @Exec B Slot X) (c c' : nat) : Prop :=
  forall m n st k, sp_state Sp st ->
    (forall r st', sp_state Sp st' -> match r with Ok x => Q x | Err sc => sp_stop Sp sc end ->
       sound m c' n (k r st')) ->
    sound m c n (e st k).

Lemma keep_acc (st : ExecState) (acc : Accumulator) : sp_state Sp st -> sp_state Sp (set_acc st acc).
Proof. apply (sl_acc (B:=B) (Slot:=Slot)). Qed.
Lemma keep_body (st : ExecState) (body : string) : sp_state Sp st -> sp_state Sp (set_body st body).
Proof. apply (sl_body (B:=B) (Slot:=Slot)). Qed.
Lemma stop_error code message : sp_stop Sp (ScError (error_new code message)).
Proof. apply (sl_error (B:=B) (Slot:=Slot)). Qed.

#[local] Abbreviation anything := (fun _ => True).

Lemma spends_weaken {X} (Q : X -> Prop) (e : Exec X) (c1 c2 d1 d2 : nat) :
  spends Q e c1 c2 -> c1 <= d1 -> d2 <= c2 -> spends Q e d1 d2.
Proof.
  intros He H1 H2 m n st k Hst Hk. eapply sound_weaken; [apply He; [done|]|exact H1|done].
  intros r st' Hst' Hr. eapply sound_weaken; [by apply Hk|exact H2|done].
Qed.

Lemma spends_bind {X Y} (Q : X -> Prop) (R : Y -> Prop) (e : Exec X) (f : X -> Exec Y) (c c1 c2 : nat) :
  spends Q e c c1 -> (forall x, Q x -> spends R (f x) c1 c2) -> c2 <= c1 -> spends R (ebind e f) c c2.
Proof.
  intros He Hf Hle m n st k Hst Hk. apply He; [done|]. intros [x|sc] st' Hst' Hr; [by apply (Hf x)|].
  eapply sound_weaken; [by apply Hk|exact Hle|done].
Qed.

Lemma spends_ret {X} (x : X) (c : nat) : spends anything (ret x) c c.
Proof. intros m n st k Hst Hk. by apply Hk. Qed.
Lemma spends_error {X} (Q : X -> Prop) code message (c : nat) : spends Q (throw_error code message) c c.
Proof. intros m n st k Hst Hk. apply Hk; [done|]. apply stop_error. Qed.
Lemma spends_get (c : nat) : spends (sp_state Sp) get_state c c.
Proof. intros m n st k Hst Hk. by apply Hk. Qed.
Lemma spends_put (st : ExecState) (c : nat) : sp_state Sp st -> spends anything (put_state st) c c.
Proof. intros Hp m n st' k Hst Hk. by apply Hk. Qed.

#[local] Hint Resolve spends_ret spends_error spends_get keep_acc keep_body stop_error spends_put : spend.
#[local] Ltac spend_bind := eapply spends_bind; [solve [eauto with spend]|intros ? ?|lia].

Lemma spends_cancel (c : nat) : spends anything (check_cancel_deadline flow chain) c c.
Proof.
  intros m n st k Hst Hk. unfold check_cancel_deadline. constructor. intros [|]; [apply Hk; [done|apply stop_error]|].
  destruct (tc_deadline chain) as [dl|] eqn:E; [|by apply Hk].
  assert (Ht : timed = true) by (destruct timed; [done|by specialize (Htime eq_refl)]).
  constructor; [by rewrite Ht|]. intros t. destruct (dl <=? t)%N; [|by apply Hk].
  constructor; [done|]. apply Hk; [done|apply stop_error].
Qed.

(** A charge pays one unit ahead, and uses a turn of fuel. *)
Lemma budget_sound {X} (Q : X -> Prop) (f : Exec X) (m : bool) (c c' n : nat) (st : ExecState) k :
  spends Q f (S c) c' -> c' <= c -> sp_state Sp st ->
  (forall sc st', sp_state Sp st' -> sp_stop Sp sc -> sound m c' n (k (Err sc) st')) ->
  (forall x st', sp_state Sp st' -> Q x -> sound m c' (pred n) (k (Ok x) st')) ->
  sound m c n (ebind (check_budget flow chain) (fun _ => f) st k).
Proof.
  intros Hf Hle Hst He Hk. unfold ebind, check_budget. constructor; [done| |].
  - eapply sound_weaken; [apply He; [done|apply stop_error]|done|done].
  - apply Hf; [done|]. intros [x|sc] st' Hst' Hr; [by apply Hk|].
    eapply sound_weaken; [by apply He|done|lia].
Qed.

Lemma spends_budget {X} (Q : X -> Prop) (f : Exec X) (c c' : nat) :
  spends Q f (S c) c' -> c' <= c -> spends Q (ebind (check_budget flow chain) (fun _ => f)) c c'.
Proof.
  intros Hf Hle m n st k Hst Hk. eapply budget_sound; [exact Hf|done|done| |].
  - intros sc st' Hst' Hsc. by apply Hk.
  - intros x st' Hst' Hx. eapply sound_weaken; [by apply (Hk (Ok x))|done|lia].
Qed.

Lemma spends_input (step : CompiledStep B Slot) (c : nat) : spends anything (resolve_step_input step) c c.
Proof.
  intros m n st k Hst Hk. unfold resolve_step_input.
  repeat case_match; (apply Hk; [auto with spend|try apply stop_error; done]).
Qed.

#[local] Hint Resolve spends_cancel spends_input : spend.

Lemma spends_dispatch (step : CompiledStep B Slot) (mode : ResponseMode) (c : nat) :
  spends anything (dispatch_step flow chain step mode) (S c) c.
Proof.
  unfold dispatch_step. destruct (cs_target step) as [target|].
  - intros m n st k Hst Hk. constructor. intros [output|failure] Ha; [|by apply Hk, (sl_init (B:=B) (Slot:=Slot))].
    destruct (sl_settle flow step mode output st Ha Hst) as [Hr Hst'].
    destruct (settle_output _ _ _ _ _) as [r st']. simpl in *. apply Hk; [done|]. by destruct r.
  - eapply spends_weaken; [apply spends_error|reflexivity|lia].
Qed.

Lemma spends_invocation (step : CompiledStep B Slot) (mode : ResponseMode) (c : nat) :
  spends anything (run_invocation flow chain step mode) (S c) c.
Proof. unfold run_invocation. do 2 spend_bind. apply spends_dispatch. Qed.

Lemma spends_each_body (step : CompiledStep B Slot) (item : Value) (index : N) (c : nat) :
  spends anything (each_body step item index) c c.
Proof.
  intros m n st k Hst Hk. unfold each_body.
  repeat case_match; (apply Hk; [auto with spend|try apply stop_error; done]).
Qed.

#[local] Hint Resolve spends_invocation spends_each_body : spend.

Lemma spends_each_items (step : CompiledStep B Slot) (items : list Value) (c : nat) :
  forall index results, spends anything (each_items flow chain step items index results) c c.
Proof.
  induction items as [|item items IH]; intros index results; simpl; [apply spends_ret|].
  apply spends_budget; [|done]. do 6 spend_bind. apply IH.
Qed.

#[local] Hint Resolve spends_each_items : spend.

Lemma spends_each (step : CompiledStep B Slot) (each : CompiledEach) (c : nat) :
  spends anything (run_each flow chain step each) c c.
Proof.
  unfold run_each. spend_bind.
  destruct (path_resolve _ _) as [[]|]; try apply spends_error.
  do 2 spend_bind. cbv zeta. spend_bind.
  destruct (to_json _); [|apply spends_error]. auto 6 with spend.
Qed.

Lemma spends_own (step : CompiledStep B Slot) (mode : ResponseMode) (c : nat) :
  spends anything (run_own flow chain step mode) (S c) c.
Proof.
  unfold run_own. destruct (cs_each step) as [each|].
  - eapply spends_weaken; [apply spends_each|reflexivity|lia].
  - spend_bind. destruct (cs_input step); [|apply spends_ret].
    spend_bind. auto with spend.
Qed.

(** A branch of parallel steps pays for itself. *)
Lemma branch_sound (run : CompiledStep B Slot -> Exec unit) (steps : list (CompiledStep B Slot)) (c : nat) :
  Forall (fun s => spends anything (run s) c c) steps -> spends anything (run_branch_steps run steps) c c.
Proof.
  induction 1 as [|s steps Hs _ IH]; simpl; [apply spends_ret|].
  destruct (cs_next s); [apply spends_error|].
  eapply spends_bind; [exact Hs|intros ? ?; exact IH|done].
Qed.

Lemma first_stop (rs : list (result Accumulator ShortCircuit)) :
  Forall (stops Sp) rs -> Forall (sp_stop Sp) (omap branch_failure rs).
Proof.
  induction 1 as [|[acc|sc] rs Hr _ IH]; simpl; [constructor|exact IH|]. constructor; [exact Hr|exact IH].
Qed.

Lemma spends_parallel (branches : list (Exec unit)) (c : nat) :
  Forall (fun e => spends anything e 0 0) branches -> spends anything (run_parallel branches) c c.
Proof.
  intros Hb m n st k Hst Hk. unfold run_parallel.
  apply (sound_join Sp M L timed m c c (map (fun _ => 0) branches) n).
  - clear Hk. induction Hb as [|e branches He _ IH]; simpl; constructor; [|done].
    unfold fork_branch. apply He; [auto with spend|]. intros r st' _ Hr. constructor. by destruct r.
  - intros rs Hrs%first_stop. unfold join_outcomes. destruct Hrs as [|sc scs Hsc _].
    + apply Hk; auto with spend.
    + by apply Hk.
  - assert (E : sum_list (map (fun _ => 0) branches) = 0) by (clear; induction branches; simpl; lia). lia.
Qed.

Lemma run_step_eq (step : CompiledStep B Slot) (mode : ResponseMode) :
  run_step flow chain step mode
  = (let! _ := check_budget flow chain in
     let! _ := check_cancel_deadline flow chain in
     let! _ := match cs_parallel step with
               | Some branches =>
                   run_parallel (map (run_branch_steps (fun s => run_step flow chain s Collect)) branches)
               | None => ret tt
               end in
     run_own flow chain step mode).
Proof. by destruct step. Qed.

(** A step is paid by its own charge. *)
Lemma run_step_sound (step : CompiledStep B Slot) (mode : ResponseMode) (m : bool) (c n : nat) st k :
  sp_state Sp st ->
  (forall sc st', sp_state Sp st' -> sp_stop Sp sc -> sound m c n (k (Err sc) st')) ->
  (forall st', sp_state Sp st' -> sound m c (pred n) (k (Ok tt) st')) ->
  sound m c n (run_step flow chain step mode st k).
Proof.
  revert mode m c n st k. induction step as [step IH] using compiled_step_ind'.
  intros mode m c n st k Hst He Hk.
  rewrite run_step_eq. apply (budget_sound anything _ m c c); [|done|done|done|intros [] st' Hst' _; by apply Hk].
  spend_bind. apply (spends_bind anything _ _ _ _ (S c)); [|intros ? _; apply spends_own|lia].
  destruct (cs_parallel step) as [branches|] eqn:E; [|apply spends_ret].
  apply spends_parallel, Forall_map. eapply Forall_impl; [exact (IH _ eq_refl)|]. simpl.
  intros steps Hs. apply branch_sound. eapply Forall_impl; [exact Hs|].
  simpl. intros s IHs m' n' st' k' Hst' Hk'. apply IHs; [done|intros sc st'' ? ?; by apply Hk'|].
  intros st'' Hst''. eapply sound_weaken; [by apply Hk'|done|lia].
Qed.

Lemma route_error (step : CompiledStep B Slot) (entries : list CompiledNextEntry) (acc : Accumulator) (err : WaferError) :
  route flow step entries acc = RFail err -> exists code message, err = error_new code message.
Proof.
  induction entries as [|entry entries IH]; simpl; [done|].
  repeat case_match; intros; simplify_eq; eauto.
Qed.

(** A flow visit: each turn of its loop is paid by a charge, and a transfer
    comes after at least one. *)
Lemma flow_loop_sound (fuel : nat) (current : nat) (routed : bool) (st : ExecState) (n : nat) k :
  n <= fuel -> sp_state Sp st -> (forall o n, sp_output Sp o -> sound true 0 n (k (Done o))) ->
  (forall target st', sp_state Sp st' -> sound true 0 (pred n) (k (Transfer target st'))) ->
  sound true 0 n (flow_loop flow chain fuel current routed st k).
Proof.
  intros Hn Hst Hd. revert current routed st n Hn Hst.
  induction fuel as [|fuel IH]; intros current routed st n Hn Hst Ht; simpl.
  { replace n with 0 by lia. constructor. }
  destruct (cf_steps flow !! current) as [step|]; [|by apply Hd, (sl_finish (B:=B) (Slot:=Slot))].
  assert (Hnext : forall i r st', sp_state Sp st' -> sound true 0 (pred n) (flow_loop flow chain fuel i r st' k)).
  { intros i r st' Hst'. apply IH; [lia|done|]. intros target st'' Hst''.
    eapply sound_weaken; [by apply Ht|done|lia]. }
  apply run_step_sound; [done|intros sc st' Hst' Hsc; by apply Hd, (sl_stopped (B:=B) (Slot:=Slot))|]. intros st' Hst'.
  destruct (cs_next step) as [entries|]; [|destruct routed; [by apply Hd, (sl_finish (B:=B) (Slot:=Slot))|by apply Hnext]].
  destruct (route flow step entries (ex_acc st')) as [|target|err|] eqn:E; auto.
  refine (Hd _ _ (sl_stopped (B:=B) (Slot:=Slot) (ScError err) st' Hst' _)).
  apply route_error in E as (code & message & ->). apply stop_error.
Qed.
End Strand.

(** ** The chain's certificate *)

Section Chain.
Context {B Slot : Type} `{JsonCrate} `{DebugFormat} (table : FlowTable B Slot).
Context (Sp : strand_spec) `{!SpecLaws B Slot Sp} (M L : N) (timed : bool).

(** What is asked of a flow the chain may enter. *)
Definition flow_fits (plan : CompiledFlow B Slot) : Prop :=
  (L <= cf_max_steps plan)%N /\ (timed = false -> cf_timeout plan = None).

Definition chain_fits (chain : TransferChain) (plan : CompiledFlow B Slot) : Prop :=
  (L <= tc_max_steps chain)%N /\ (N.min (tc_max_steps chain) (cf_max_steps plan) <= M)%N
  /\ (timed = false -> tc_deadline chain = None).

(** What is asked of the message, the input and the record a flow starts with. *)
Definition start_fits (msg : Message) (input : result string WaferError) (record : ResponderRecord) : Prop :=
  match input with
  | Ok body => sp_state Sp (mkExec acc_new body msg record)
  | Err e => sp_output Sp (output_error e)
  end.

Context (Htable : forall id plan, flow_plan table id = Some (Some plan) -> flow_fits plan).
Context (Hcompiles : forall id, flow_plan table id <> Some None).

Lemma chain_loop_sound (fuel flow_fuel n : nat) (chain : TransferChain) (plan : CompiledFlow B Slot)
    (msg : Message) (input : result string WaferError) (record : ResponderRecord) :
  n <= fuel -> n <= flow_fuel -> flow_fits plan -> chain_fits chain plan -> start_fits msg input record ->
  sound Sp M L timed true 0 n (chain_loop table fuel flow_fuel chain plan msg input record).
Proof.
  revert n chain plan msg input record. induction fuel as [|fuel IH];
    intros n chain plan msg input record Hf Hff [Hl Ht] (Hcl & HcM & Hct) Hin; cbn [chain_loop].
  { replace n with 0 by lia. constructor. }
  assert (Henter : timed = false -> forall t, chain_enter chain plan t = chain_enter chain plan 0).
  { intros E t. unfold chain_enter. by rewrite (Ht E). }
  constructor; [intros E t; by rewrite (Henter E t)|]. intros t.
  assert (Hlim : (L <= tc_max_steps (chain_enter chain plan t) <= M)%N) by (simpl; lia).
  assert (Htime : timed = false -> tc_deadline (chain_enter chain plan t) = None).
  { intros E. simpl. by rewrite (Ht E), (Hct E). }
  unfold execute. destruct input as [body|e]; [|by constructor]. simpl in Hin.
  apply (flow_loop_sound Sp M L timed plan _ Hlim Htime); [done| |intros; by constructor|].
  { by apply (sl_acc (B:=B) (Slot:=Slot) (mkExec acc_new body msg record)). }
  intros target st Hst. destruct (flow_plan table target) as [[plan'|]|] eqn:E.
  - apply IH; [lia|lia|by eapply Htable| |].
    + split_and!; simpl in *; [lia|lia|done].
    + by apply (sl_acc (B:=B) (Slot:=Slot) st acc_new).
  - by destruct (Hcompiles target).
  - constructor. by apply (sl_stopped (B:=B) (Slot:=Slot)), (sl_error (B:=B) (Slot:=Slot)).
Qed.

Lemma run_plan_sound (plan : CompiledFlow B Slot) (msg : Message) (input : result string WaferError) :
  flow_fits plan -> (L <= USIZE_MAX)%N -> (cf_max_steps plan <= M)%N -> start_fits msg input ∅ ->
  sound Sp M L timed true 0 (S (N.to_nat (cf_max_steps plan))) (run_plan table plan msg input).
Proof.
  intros Hp HL HM Hin. apply chain_loop_sound; [done|done|done| |done].
  unfold chain_fits, chain_new. cbn [tc_max_steps tc_deadline]. split_and!; [done|lia|done].
Qed.
End Chain.

(** Nothing asked of blocks, nothing kept but the budget. *)
Definition no_spec : strand_spec :=
  mkSpec (fun _ => True) (fun _ => True) (fun _ => True) (fun _ => True).

#[export] Instance no_spec_laws (B Slot : Type) `{DebugFormat} : SpecLaws B Slot no_spec.
Proof. split; try done. intros. split; [|done]. by destruct (_.1). Qed.

(** ** A scheduler

    The first branch that can go on does; blocks answer as a function and the
    clock stands still. *)
Section Scheduler.
Context {B Slot : Type} (answer : Call B Slot -> result OutputStream WaferError).
#[local] Abbreviation prog := (prog B Slot).

Definition end_result (b : prog) : option (result Accumulator ShortCircuit) :=
  match b with BranchEnd r => Some r | _ => None end.

Section FirstBranch.
Context (next : prog -> option (@running B Slot * prog)).
Fixpoint first_branch (bs : list prog) : option (@running B Slot * list prog) :=
  match bs with
  | [] => None
  | b :: bs =>
      match next b with
      | Some (s, b) => Some (s, b :: bs)
      | None => match first_branch bs with Some (s, bs) => Some (s, b :: bs) | None => None end
      end
  end.
End FirstBranch.

Fixpoint next_step (s : @running B Slot) (p : prog) : option (@running B Slot * prog) :=
  match p with
  | FetchAddAtLeast limit k => Some (charge s, k (exhausted s limit))
  | LoadCancelled k => Some (s, k (cancelled (r_shared s)))
  | StoreCancelled k => Some (cancel s, k)
  | Now k => Some (tick s (clock (r_shared s)), k (clock (r_shared s)))
  | Invoke c k => Some (called s c, k (answer c))
  | JoinAll bs k =>
      match first_branch (next_step s) bs with
      | Some (s, bs) => Some (s, JoinAll bs k)
      | None => match map_option end_result bs with Some rs => Some (s, k rs) | None => None end
      end
  | _ => None
  end.

Fixpoint run_steps (n : nat) (x : @running B Slot * prog) : @running B Slot * prog :=
  match n with
  | O => x
  | S n => match next_step x.1 x.2 with Some y => run_steps n y | None => x end
  end.

#[local] Abbreviation step := (exec_step (fun c a => a = answer c)).

Lemma first_branch_spec next (bs bs' : list prog) s' :
  first_branch next bs = Some (s', bs') ->
  exists i b b', bs !! i = Some b /\ next b = Some (s', b') /\ bs' = <[i := b']> bs.
Proof.
  revert bs'. induction bs as [|b bs IH]; intros bs' Hb; [done|]. simpl in Hb.
  destruct (next b) as [[s1 b1]|] eqn:E.
  - injection Hb as -> <-. by exists 0, b, b1.
  - destruct (first_branch next bs) as [[s1 bs1]|]; [|done]. injection Hb as -> <-.
    destruct (IH bs1 eq_refl) as (i & x & x' & Hi & Hx & ->). by exists (S i), x, x'.
Qed.

Lemma end_results (bs : list prog) rs : map_option end_result bs = Some rs -> bs = map BranchEnd rs.
Proof.
  revert rs. induction bs as [|b bs IH]; intros rs E; simpl in E; [by injection E as <-|].
  destruct b; try done. simpl in E. destruct (map_option end_result bs) as [rs'|]; [|done].
  injection E as <-. simpl. by rewrite <- (IH rs' eq_refl).
Qed.

Lemma next_step_exec (s : running) (p : prog) y : next_step s p = Some y -> step (s, p) y.
Proof.
  revert s y. induction p as [p IH Hj|bs k Hbs Hk] using prog_tree_ind; intros s y E.
  - destruct p; simpl in E; try done; try (injection E as <-; by constructor).
    by destruct (Hj branches k).
  - simpl in E. destruct (first_branch _ bs) as [[s' bs']|] eqn:Ef.
    + injection E as <-. apply first_branch_spec in Ef as (i & b & b' & Hi & Hn & ->).
      eapply step_branch; [exact Hi|]. exact (proj1 (Forall_lookup _ _) Hbs i b Hi _ _ Hn).
    + destruct (map_option _ bs) as [rs|] eqn:Er; [|done]. injection E as <-.
      apply end_results in Er as ->. constructor.
Qed.

Lemma run_steps_rtc (n : nat) (x : running * prog) : rtc step x (run_steps n x).
Proof.
  revert x. induction n as [|n IH]; intros [s p]; simpl; [done|].
  destruct (next_step s p) as [y|] eqn:E; [|done].
  eapply rtc_l; [by apply next_step_exec|apply IH].
Qed.
End Scheduler.

(** ** The sequential reading

    The reference: branches one after the other, no budget, no clock. It gives
    the end of a run and the steps it charges. *)
Section Sequential.
Context {B Slot : Type} (answer : Call B Slot -> result OutputStream WaferError).
#[local] Abbreviation prog := (prog B Slot).

Fixpoint seq_run (p : prog) : prog * nat :=
  match p with
  | FetchAddAtLeast _ k => let '(e, c) := seq_run (k false) in (e, S c)
  | LoadCancelled k => seq_run (k false)
  | StoreCancelled k => seq_run k
  | Now k => seq_run (k 0%N)
  | Invoke c k => seq_run (k (answer c))
  | JoinAll bs k =>
      let ends := map seq_run bs in
      let '(e, c) := seq_run (k (omap (fun x => end_result x.1) ends)) in
      (e, c + sum_list (map snd ends))
  | _ => (p, 0)
  end.

#[local] Abbreviation step := (exec_step (fun c a => a = answer c)).

Lemma seq_ends (rs : list (result Accumulator ShortCircuit)) :
  map seq_run (map BranchEnd rs) = map (fun r => (BranchEnd r, 0)) rs.
Proof. by rewrite map_map. Qed.

Lemma map_list_insert {X Y} (f : X -> Y) (l : list X) (i : nat) (x : X) :
  map f (<[i := x]> l) = <[i := f x]> (map f l).
Proof. apply list_fmap_insert. Qed.

Lemma omap_insert_same {X Y} (f : X -> option Y) (l : list X) (i : nat) (x x' : X) :
  l !! i = Some x -> f x' = f x -> omap f (<[i := x']> l) = omap f l.
Proof.
  revert i. induction l as [|y l IH]; intros [|i] Hi E; simpl in *; [done|done|injection Hi as ->; by rewrite E|].
  destruct (f y); [f_equal|]; by apply IH.
Qed.

Lemma sum_list_lookup (l : list nat) (i x : nat) : l !! i = Some x -> x <= sum_list l.
Proof.
  revert i. induction l as [|y l IH]; intros [|i] Hi; simpl in *; [done|done|injection Hi as ->; lia|].
  specialize (IH i Hi). lia.
Qed.

(** A step of any schedule keeps the sequential end, where the sequential run
    fits the smallest budget [L]. *)
Lemma seq_step (Sp : strand_spec) (M L : N) (x y : running * prog) :
  step x y -> forall m c n, sound Sp M L false m c n x.2 ->
  counter_ok x.1 -> (L < USIZE_MOD)%N -> cancelled (r_shared x.1) = false ->
  (r_charges x.1 + N.of_nat (seq_run x.2).2 <= L)%N ->
  (seq_run y.2).1 = (seq_run x.2).1
  /\ (r_charges y.1 + N.of_nat (seq_run y.2).2 = r_charges x.1 + N.of_nat (seq_run x.2).2)%N
  /\ cancelled (r_shared y.1) = false.
Proof.
  induction 1 as [s limit k|s k|s k|s now k Hn|s call a k Ha|s s' i b b' bs k Hi Hstep IH|s rs k];
    intros m c n Hs Hc HL Hcan Hle; cbn [fst snd] in *;
    inversion Hs as [| | |? ? ? ? ? Hl Ht Hf|? ? ? ? Hk|? ? ? ? Ht Hk|? ? ? ? Ht Hk|? ? ? ? ? Hk
      |? ? c0 cs ? ? ? Hbs Hk Hsum]; subst; cbn [seq_run] in *.
  - destruct (seq_run (k false)) as [e q] eqn:E. cbn [fst snd] in *.
    assert (Hu : steps_used (r_shared s) = r_charges s).
    { unfold counter_ok in Hc. rewrite Hc, N.mod_small by lia. done. }
    assert (Hex : exhausted s limit = false) by (unfold exhausted; rewrite Hu; apply N.leb_gt; lia).
    rewrite Hex, E. simpl. split_and!; [done|lia|done].
  - by rewrite Hcan.
  - done.
  - by rewrite (Ht eq_refl now).
  - done.
  - destruct (Forall2_lookup_r _ _ _ _ _ Hbs Hi) as (ci & Hci & Hsi).
    assert (Hmi : map seq_run bs !! i = Some (seq_run b)) by by rewrite list_lookup_fmap, Hi.
    assert (Hni : map snd (map seq_run bs) !! i = Some (seq_run b).2) by by rewrite list_lookup_fmap, Hmi.
    pose proof (sum_list_lookup _ _ _ Hni) as Hsi'.
    destruct (seq_run (k _)) as [e q] eqn:E. cbn [fst snd] in *.
    destruct (IH false ci 0 Hsi Hc HL Hcan ltac:(lia)) as (H1 & H2 & H3).
    rewrite map_list_insert.
    rewrite (omap_insert_same _ _ i (seq_run b)) by (done || by rewrite H1). rewrite E. cbn [fst snd].
    rewrite map_list_insert. pose proof (sum_list_update _ i _ (seq_run b').2 Hni) as Hu.
    split_and!; [done|lia|done].
  - rewrite seq_ends in *.
    assert (Eo : omap (fun x : prog * nat => end_result x.1) (map (fun r => (BranchEnd r, 0)) rs) = rs).
    { clear. induction rs as [|r rs IH]; simpl; [done|]. f_equal. exact IH. }
    assert (Es : sum_list (map snd (map (fun r => (@BranchEnd B Slot r, 0)) rs)) = 0).
    { clear. induction rs; simpl; lia. }
    rewrite Eo in *. rewrite Es in *. destruct (seq_run (k rs)) as [e q]. simpl in *.
    rewrite Nat.add_0_r in *. done.
Qed.

Lemma seq_run_keeps (Sp : strand_spec) (M L : N) (x y : running * prog) (m : bool) (c n : nat) :
  (forall c, sp_answer Sp (answer c)) -> rtc step x y -> sound Sp M L false m c n x.2 ->
  counter_ok x.1 -> (L < USIZE_MOD)%N -> cancelled (r_shared x.1) = false ->
  (r_charges x.1 + N.of_nat (seq_run x.2).2 <= L)%N ->
  (seq_run y.2).1 = (seq_run x.2).1 /\ (r_charges y.1 + N.of_nat (seq_run y.2).2 <= L)%N.
Proof.
  intros Ha Hr. revert c n. induction Hr as [x|x y z Hxy _ IH]; intros c n Hs Hc HL Hcan Hle; [done|].
  destruct (seq_step Sp M L _ _ Hxy m c n Hs Hc HL Hcan Hle) as (H1 & H2 & H3).
  destruct (step_counter _ _ _ Hxy Hc) as [Hc' _].
  assert (Ha' : forall c0 a, (fun c a => a = answer c) c0 a -> sp_answer Sp a) by (intros c0 a ->; apply Ha).
  destruct (sound_step Sp M L false _ Ha' _ _ Hxy Hc ltac:(lia) m c n Hs) as (c' & n' & Hs' & _).
  rewrite <- H1. apply (IH c' n'); try done. lia.
Qed.
End Sequential.
