(* ===== verification/ExecutorProps.v ===== *)
(** Properties of flow execution: runs end within the step budget, and what
    they answer does not depend on how concurrent branches are scheduled. *)

From stdpp Require Import relations.
From S2P Require Import Prelude CoreTypes Grants Wrap BlockName Registration GrantFacts RegistrationFacts.
From S2P Require Import WrapProps RegistryProps Text Expr ExprProps FlowTypes Accumulator FlowValidate FlowPlan.
From S2P Require Import HttpMeta ResponseMeta ResponseMetaFacts ResponseMetaProps Streams Executor ExecutorSteps.

#[local] Open Scope nat_scope.

(** Flows compile against every registry the runtime reaches. *)
Lemma compile_flow_total {B Slot} (new_slot : Slot) `{UnicodeLower} `{JsonCrate}
    (reg : @RegistrationCore B Slot) (flow : WaferFlow) :
  reachable new_slot reg -> is_Some (compile_flow reg flow).
Proof.
  intros Hr%reg_inv_reachable. unfold compile_flow.
  destruct (map_option_total (compile_step reg (jump_index (wf_steps flow))) (wf_steps flow)) as [cs ->];
    [|by eexists].
  apply Forall_forall. intros s _. by apply compile_step_total.
Qed.

Lemma flow_plan_compiles {B Slot} (new_slot : Slot) `{UnicodeLower} `{JsonCrate} (table : FlowTable B Slot)
    (id : string) :
  reachable new_slot (ft_registry table) -> flow_plan table id <> Some None.
Proof.
  intros Hr. unfold flow_plan. destruct (ft_plans table !! id); [done|].
  destruct (ft_flows table !! id) as [flow|]; [|done]. simpl.
  destruct (compile_flow_total new_slot (ft_registry table) flow Hr) as [cf ->]. done.
Qed.

Section Runs.
Context {B Slot : Type} (new_slot : Slot) `{UnicodeLower} `{JsonCrate} `{DebugFormat}.
Context (table : FlowTable B Slot) (answers : Call B Slot -> result OutputStream WaferError -> Prop).

(** The states a request through [plan] passes through. *)
Definition flow_run (plan : CompiledFlow B Slot) (msg : Message) (input : result string WaferError)
    (s : running) (p : prog B Slot) : Prop :=
  exists now, rtc (exec_step answers) (run_start now, run_plan table plan msg input) (s, p).

Lemma rtc_counter (x y : running * prog B Slot) :
  rtc (exec_step answers) x y -> counter_ok x.1 -> counter_ok y.1 /\ (r_charges x.1 <= r_charges y.1)%N.
Proof.
  induction 1 as [|x y z Hxy _ IH]; [done|]. intros Hc.
  destruct (step_counter answers _ _ Hxy Hc) as [Hc' Hle]. destruct (IH Hc'). split; [done|lia].
Qed.

Lemma flow_run_state (plan : CompiledFlow B Slot) msg input s p :
  reachable new_slot (ft_registry table) -> (forall c, exists a, answers c a) ->
  flow_run plan msg input s p -> (r_charges s <= USIZE_MOD)%N ->
  length (r_calls s) <= N.to_nat (N.min (r_charges s) (cf_max_steps plan))
  /\ ((exists o, p = Finish o) \/ exists y, exec_step answers (s, p) y).
Proof.
  intros Hr Ha [now Hrun] Hc.
  assert (Hs : sound no_spec (cf_max_steps plan) 0 true true 0 (S (N.to_nat (cf_max_steps plan)))
    (run_plan table plan msg input)).
  { apply (run_plan_sound table no_spec); [by split; [lia|]|by intros id; apply (flow_plan_compiles new_slot)|by split; [lia|]|unfold USIZE_MAX; lia|lia|by destruct input]. }
  destruct (sound_run no_spec (cf_max_steps plan) 0 true answers ltac:(done) _ _ true 0 _ Hrun eq_refl Hc Hs)
    as (c & n & Hs' & Hcov & Hn).
  cbn [fst snd] in *. cbn [run_start r_calls r_charges length] in Hcov, Hn. split; [lia|].
  destruct (sound_progress no_spec (cf_max_steps plan) 0 true answers p s Ha true c n Hs') as [[?| ->]|?]; [by left| |by right].
  inversion Hs'; subst. lia.
Qed.

End Runs.

(** C7: a request through a flow always ends, within its step budget. Whatever
    the blocks answer, however branches interleave and clocks advance, and
    whichever flows it transfers to, no run is infinite; a run is never stuck:
    until its response is known there is a next step (so neither loop runs out
    of turns, no transfer meets a missing slot); and no more blocks have been
    invoked than the first flow's [max_steps], nor than steps charged - as long
    as the counter, which wraps, was not charged [2^64] times. The registry is
    one whose configuration files load only aliases that [add_alias] takes. *)
Theorem flow_runs_end {B Slot} (new_slot : Slot) `{UnicodeLower} `{JsonCrate} `{DebugFormat}
    (table : FlowTable B Slot) answers (plan : CompiledFlow B Slot) msg input s p :
  reachable new_slot (ft_registry table) -> (forall c, exists a, answers c a) ->
  flow_run table answers plan msg input s p -> (r_charges s <= USIZE_MOD)%N ->
  sn (exec_step answers) (s, p)
  /\ ((exists o, p = Finish o) \/ exists y, exec_step answers (s, p) y)
  /\ (N.of_nat (length (r_calls s)) <= N.min (r_charges s) (cf_max_steps plan))%N.
Proof.
  intros Hr Ha Hrun Hc. destruct (flow_run_state new_slot table answers plan msg input s p Hr Ha Hrun Hc)
    as [Hcalls Hp].
  split_and!; [apply exec_step_sn|done|lia].
Qed.

(** A flow whose first step fans out into two branches. *)
Definition fan_out_flow : WaferFlow :=
  mkWaferFlow "main"
    [mkStep "fetch" "acme/app" None None None
       (Some [[mkStep "left" "acme/app" (Some (VString "l")) None None None None];
              [mkStep "right" "acme/app" None None None None None]]) None;
     mkStep "reply" "acme/app" None None None None None]
    None None None.

#[export] Instance plain_debug : DebugFormat := {| debug_str s := s |}.

Definition fan_out_plan : CompiledFlow unit unit :=
  match compile_flow sample_core fan_out_flow with
  | Some plan => plan
  | None => mkCompiledFlow "" None 0 OnError.Stop false []
  end.
Definition fan_out_table : FlowTable unit unit := mkFlowTable _ _ {["main" := fan_out_plan]} ∅ sample_core.

(** Blocks answer the id of their step. *)
Definition echo_step (c : Call unit unit) : result OutputStream WaferError :=
  Ok (respond_with_meta (call_step c) []).

Definition fan_out_end : @running unit unit * prog unit unit :=
  run_steps echo_step 100 (run_start 0, run_plan fan_out_table fan_out_plan (mkMessage "http" []) (Ok "")).

(** It ends after four calls with the last block's answer. *)
Lemma flow_runs_end_witness :
  fan_out_end.2 = Finish (respond_with_meta "reply" [])
  /\ map call_step (r_calls fan_out_end.1) = ["left"; "right"; "fetch"; "reply"]
  /\ (N.of_nat (length (r_calls fan_out_end.1)) <= N.min (r_charges fan_out_end.1) 1000)%N.
Proof.
  split; [vm_compute; reflexivity|]. split; [vm_compute; reflexivity|].
  destruct fan_out_end as [s p] eqn:E.
  apply (flow_runs_end tt fan_out_table (fun c a => a = echo_step c) fan_out_plan (mkMessage "http" []) (Ok "") s p).
  - apply sample_reachable.
  - intros c. by eexists.
  - exists 0%N. rewrite <- E. apply run_steps_rtc.
  - apply (f_equal (fun x => r_charges x.1)) in E. simpl in E. rewrite <- E. vm_compute. discriminate.
Defined.

(** ** Schedules *)

Section Schedules.
Context {B Slot : Type} (new_slot : Slot) `{UnicodeLower} `{JsonCrate} `{DebugFormat}.
Context (table : FlowTable B Slot) (answer : Call B Slot -> result OutputStream WaferError).
#[local] Abbreviation answers := (fun c a => a = answer c).

(** Flows without a timeout whose budgets are at least [L]. *)
Definition untimed (L : N) (plan : CompiledFlow B Slot) : Prop :=
  (L <= cf_max_steps plan)%N /\ cf_timeout plan = None.

Lemma scheduled_end (L : N) (plan : CompiledFlow B Slot) msg input s p :
  reachable new_slot (ft_registry table) ->
  untimed L plan -> (forall id plan', flow_plan table id = Some (Some plan') -> untimed L plan') ->
  (L <= USIZE_MAX)%N -> (N.of_nat (seq_run answer (run_plan table plan msg input)).2 <= L)%N ->
  flow_run table answers plan msg input s p ->
  (exists y, exec_step answers (s, p) y)
  \/ (exists o, p = Finish o) /\ p = (seq_run answer (run_plan table plan msg input)).1.
Proof.
  intros Hr [Hl Ht] Htab HL Hfit Hrun.
  assert (Hs : sound no_spec (cf_max_steps plan) L false true 0 (S (N.to_nat (cf_max_steps plan)))
    (run_plan table plan msg input)).
  { apply (run_plan_sound table no_spec); [|by intros id; apply (flow_plan_compiles new_slot)|by split|done|lia|by destruct input].
    intros id plan' Hp. destruct (Htab id plan' Hp). by split. }
  pose proof Hrun as [now Hrtc].
  destruct (seq_run_keeps answer no_spec (cf_max_steps plan) L _ _ true 0 _ ltac:(done) Hrtc Hs eq_refl) as [Hend Hc];
    [unfold USIZE_MOD; lia|done|exact Hfit|]. cbn [fst snd] in *.
  destruct (flow_run_state new_slot table answers plan msg input s p Hr) as [_ [[o ->]|Hy]];
    [by intros c; eexists|done|unfold USIZE_MOD, USIZE_MAX in *; lia| |by left].
  right. split; [by eexists|exact Hend].
Qed.

Lemma scheduled_reaches (L : N) (plan : CompiledFlow B Slot) msg input s p :
  reachable new_slot (ft_registry table) ->
  untimed L plan -> (forall id plan', flow_plan table id = Some (Some plan') -> untimed L plan') ->
  (L <= USIZE_MAX)%N -> (N.of_nat (seq_run answer (run_plan table plan msg input)).2 <= L)%N ->
  flow_run table answers plan msg input s p ->
  exists s' o, rtc (exec_step answers) (s, p) (s', Finish o)
    /\ Finish o = (seq_run answer (run_plan table plan msg input)).1.
Proof.
  intros Hr Hp Htab HL Hfit. pose proof (exec_step_sn answers (s, p)) as Hsn.
  remember (s, p) as x eqn:E. revert s p E. induction Hsn as [x _ IH]; intros s p -> Hrun.
  destruct (scheduled_end L plan msg input s p Hr Hp Htab HL Hfit Hrun) as [[[s' p'] Hy]|[[o ->] Ho]].
  - destruct (IH (s', p') Hy s' p' eq_refl) as (s'' & o & Hrtc & Ho).
    { destruct Hrun as [now Hrun]. exists now. by eapply rtc_r. }
    exists s'', o. split; [by eapply rtc_l|done].
  - by exists s, o.
Qed.
End Schedules.

(** C8: what a flow answers does not depend on the schedule. Where blocks
    answer as a function of what they are called with, no flow has a timeout
    and the sequential run - branches one after the other - fits the smallest
    [max_steps], there is one response, that of the sequential run: every run
    that has stopped answered it, and every run on the way can still reach it.
    So completion timing never decides which branch's failure is reported nor
    how the branches' results merge. The registry is one with checked aliases. *)
Theorem flow_schedule_independent {B Slot} (new_slot : Slot) `{UnicodeLower} `{JsonCrate} `{DebugFormat}
    (table : FlowTable B Slot) (answer : Call B Slot -> result OutputStream WaferError) (L : N)
    (plan : CompiledFlow B Slot) msg input :
  reachable new_slot (ft_registry table) ->
  untimed L plan -> (forall id plan', flow_plan table id = Some (Some plan') -> untimed L plan') ->
  (L <= USIZE_MAX)%N -> (N.of_nat (seq_run answer (run_plan table plan msg input)).2 <= L)%N ->
  exists o, (seq_run answer (run_plan table plan msg input)).1 = Finish o
    /\ forall s p, flow_run table (fun c a => a = answer c) plan msg input s p ->
         ((exists y, exec_step (fun c a => a = answer c) (s, p) y) \/ p = Finish o)
         /\ exists s', rtc (exec_step (fun c a => a = answer c)) (s, p) (s', Finish o).
Proof.
  intros Hr Hp Htab HL Hfit.
  destruct (scheduled_reaches new_slot table answer L plan msg input (run_start 0) (run_plan table plan msg input))
    as (s0 & o & _ & Ho); try done; [by exists 0%N|].
  exists o. split; [done|]. intros s p Hrun. split.
  - destruct (scheduled_end new_slot table answer L plan msg input s p) as [?|[_ ->]]; try done; [by left|by right].
  - destruct (scheduled_reaches new_slot table answer L plan msg input s p) as (s' & o' & Hrtc & Ho'); try done.
    exists s'. rewrite <- Ho in Ho'. by injection Ho' as ->.
Qed.

(** The fan-out answers the same under every schedule. *)
Lemma flow_schedule_independent_witness :
  exists o, o = respond_with_meta "reply" []
    /\ forall s p, flow_run fan_out_table (fun c a => a = echo_step c) fan_out_plan (mkMessage "http" []) (Ok "") s p ->
         (exists y, exec_step (fun c a => a = echo_step c) (s, p) y) \/ p = Finish o.
Proof.
  destruct (flow_schedule_independent tt fan_out_table echo_step 1000 fan_out_plan (mkMessage "http" []) (Ok ""))
    as (o & Ho & H).
  - apply sample_reachable.
  - split; [vm_compute; discriminate|vm_compute; reflexivity].
  - intros id plan' Hp. unfold flow_plan, fan_out_table in Hp. cbn [ft_plans ft_flows] in Hp.
    destruct (decide (id = "main")) as [->|Hne].
    + rewrite lookup_singleton_eq in Hp. apply (inj Some), (inj Some) in Hp. rewrite <- Hp.
      split; [vm_compute; discriminate|vm_compute; reflexivity].
    + rewrite lookup_singleton_ne, lookup_empty in Hp by done. discriminate.
  - vm_compute. discriminate.
  - vm_compute. discriminate.
  - exists o. split.
    + vm_compute in Ho. by injection Ho as <-.
    + intros s p Hr. apply H. exact Hr.
Defined.

(** * What a flow answers can be sent: no run puts a status, a header, a cookie
    or a content type on its response that a transport would have to refuse. *)

(** ** Metadata *)

Abbreviation sendables := (Forall sendable).

Lemma first_unsendable_None (l : list MetaEntry) : first_unsendable l = None <-> sendables l.
Proof.
  unfold first_unsendable. induction l as [|e l IH]; simpl; [by split|].
  rewrite Forall_cons, <- IH. unfold sendable. destruct (unsendable e); [split; [done|by intros [? _]]|tauto].
Qed.

Lemma overlay_entry_sendable (st : overlay_state) (x : MetaEntry) :
  sendables (ov_base st) -> sendable x -> sendables (ov_base (overlay_entry st x)).
Proof.
  intros Hb Hx. unfold overlay_entry. destruct (kind x) as [|name|] eqn:Ek.
  - rewrite overlay_cookie_base. destruct (cookie_slot_ok (ov_base st) x Hx Ek) as (H1 & _).
    apply Forall_app. by repeat constructor.
  - rewrite overlay_header_base. destruct (replacement_ok (ov_base st) name x Hb Hx Ek) as [Hr _].
    destruct (with_header_split name x (ov_base st)) as (l & r & Hlr & ->).
    apply (Forall_filter _ (fun e => negb (header_name_is e name))) in Hb. rewrite <- Hlr in Hb.
    apply Forall_app in Hb as [Hl Hr']. apply Forall_app. split; [done|by constructor].
  - simpl. destruct x as [k v]. by apply Forall_meta_set.
Qed.

(** Laying sendable metadata over sendable metadata gives sendable metadata. *)
Lemma overlay_sendable (base top : list MetaEntry) :
  sendables base -> sendables top -> sendables (overlay base top).1.
Proof.
  intros Hb Ht. unfold overlay. cbv zeta. fold (undisplaced base top).
  assert (H0 : sendables (undisplaced base top)) by (rewrite undisplaced_eq; by apply Forall_filter).
  set (st := mkOverlay _ _ _). change (undisplaced base top) with (ov_base st) in H0. clearbody st.
  simpl. revert st H0. induction Ht as [|x top Hx _ IH]; intros st H0; [done|].
  apply IH. by apply overlay_entry_sendable.
Qed.

Lemma carried_sendable (meta : list MetaEntry) (record : ResponderRecord) :
  sendables meta -> record_from sendable record -> sendables (carried meta record).
Proof.
  intros Hm Hr. apply Forall_forall. intros m Hin%list_elem_of_In.
  apply List.filter_In in Hin as [(e & He & Hin)%in_flat_map Hc].
  unfold middleware_of in Hin. destruct (record !! me_key e) as [l|] eqn:E; simpl in Hin.
  - by apply (Hr (me_key e) l).
  - destruct Hin as [<-|[]]. by apply (proj1 (Forall_forall _ _) Hm), list_elem_of_In.
Qed.

Lemma apply_response_sendable (record : ResponderRecord) (meta top : list MetaEntry) :
  sendables meta -> record_from sendable record -> sendables top ->
  sendables (apply_response record meta top).2 /\ record_from sendable (apply_response record meta top).1.
Proof.
  intros Hm Hr Ht. split.
  - unfold apply_response. fold (without_hints meta).
    pose proof (overlay_sendable (without_hints meta) top (Forall_filter _ _ _ Hm) Ht) as H.
    by destruct (overlay (without_hints meta) top).
  - apply apply_response_from; [done|]. intros e He m Hin Hc. unfold middleware_of in Hin.
    destruct (record !! me_key e) as [l|] eqn:E; [by apply (Hr (me_key e) l)|].
    destruct Hin as [<-|[]]. by apply (proj1 (Forall_forall _ _) Hm), list_elem_of_In.
Qed.

(** ** Streams *)

Definition event_sendable (e : StreamEvent) : Prop :=
  match e with
  | Chunk _ => True
  | EvMeta entry => sendable entry
  | Complete meta | EvDrop meta | EvHalt _ meta => sendables meta
  | EvError err => sendables (we_meta err)
  | EvContinue msg => sendables (msg_meta msg)
  end.

(** No metadata event follows a body chunk. *)
Fixpoint head_final (events : list StreamEvent) : Prop :=
  match events with
  | [] => True
  | Chunk _ :: events => Forall (fun e => is_meta_event e = false) events
  | _ :: events => head_final events
  end.

Lemma head_final_prefix (meta : list MetaEntry) (events : list StreamEvent) :
  head_final events -> head_final (map EvMeta meta ++ events).
Proof. by induction meta. Qed.

(** At most the leading metadata and one event after it were read ahead. *)
Definition read_ahead (o : OutputStream) : Prop :=
  exists meta rest, prelude o = map EvMeta meta ++ rest /\ length rest <= 1.

Lemma pop_meta_app (meta : list MetaEntry) (rest : list StreamEvent) :
  (forall e, In e rest -> is_meta_event e = false) -> pop_meta (map EvMeta meta ++ rest) = (meta, rest).
Proof.
  intros Hr. induction meta as [|e meta IH]; simpl; [|by rewrite IH].
  destruct rest as [|[] rest]; try done. by specialize (Hr (EvMeta entry) (or_introl eq_refl)).
Qed.

Lemma position_stream_prelude (meta : list MetaEntry) (rest : list StreamEvent) :
  exists meta' rest', prelude (position_stream (map EvMeta meta) rest) = map EvMeta meta' ++ rest'
    /\ length rest' <= 1 /\ (forall e, In e rest' -> is_meta_event e = false).
Proof.
  revert meta. induction rest as [|e rest IH]; intros meta; simpl.
  - exists meta, []. rewrite app_nil_r. by split_and!; [|simpl; lia|].
  - destruct (is_meta_event e) eqn:E.
    + destruct e as [|entry| | | | |]; try done.
      specialize (IH (meta ++ [entry])). by rewrite map_app in IH.
    + exists meta, [e]. split_and!; [done|done|]. by intros e' [<-|[]].
Qed.

(** What is left in front of a stream whose leading metadata was taken. *)
Lemma take_leading_meta_front (o : OutputStream) :
  read_ahead o -> length (prelude (take_leading_meta o).2) <= 1.
Proof.
  intros (meta & rest & Hp & Hl). unfold take_leading_meta.
  set (o' := if existsb _ _ then o else _).
  assert (H : exists meta' rest', prelude o' = map EvMeta meta' ++ rest' /\ length rest' <= 1
    /\ (forall e, In e rest' -> is_meta_event e = false)).
  { subst o'. destruct (existsb (fun e => negb (is_meta_event e)) (prelude o)) eqn:E.
    - destruct rest as [|x [|y rest]]; simpl in Hl; [|destruct (is_meta_event x) eqn:Ex|lia].
      + exists meta, []. by split_and!; [|simpl; lia|].
      + destruct x as [|entry| | | | |]; try done. exists (meta ++ [entry]), [].
        rewrite Hp, map_app, app_nil_r. by split_and!; [|simpl; lia|].
      + exists meta, [x]. split_and!; [done|done|]. by intros e [<-|[]].
    - assert (Hall : exists m, prelude o = map EvMeta m).
      { clear -E. induction (prelude o) as [|[] l IH]; try done; [by exists []|].
        simpl in E. destruct (IH E) as [m ->]. by exists (entry :: m). }
      destruct Hall as [m Hm]. rewrite Hm. apply position_stream_prelude. }
  destruct H as (m & r & Hm & Hlr & Hr). rewrite Hm, pop_meta_app by done. done.
Qed.

Lemma open_terminal_stream (o o' : OutputStream) (meta : list MetaEntry) :
  read_ahead o -> open_terminal_output o = Streaming meta o' -> exists bytes, prelude o' = [Chunk bytes].
Proof.
  intros Hr. unfold open_terminal_output. pose proof (take_leading_meta_front o Hr) as Hf.
  destruct (take_leading_meta o) as [m o1]. simpl in Hf. destruct (declares_streaming m); [|done].
  destruct o1 as [[|x [|y l]] p]; simpl in Hf; [|  |lia].
  - simpl. destruct p as [|[] p]; try done. intros [= _ <-]. by eexists.
  - simpl. destruct x; try done. intros [= _ <-]. by eexists.
Qed.

Lemma rewrite_events_Forall (P : StreamEvent -> Prop) f (events : list StreamEvent) :
  (forall e e', f e = Some e' -> P e') -> Forall P (rewrite_events f events).
Proof.
  intros Hf. induction events as [|e events IH]; simpl; [constructor|].
  destruct (f e) as [e'|] eqn:E; [|done]. constructor; [by eapply Hf|done].
Qed.

Section Sendable.
Context {B Slot : Type} `{DebugFormat}.

Lemma after_head_sendable (carried_meta : list MetaEntry) (step : string) (e e' : StreamEvent) :
  sendables carried_meta -> after_head carried_meta step e = Some e' -> event_sendable e'.
Proof.
  intros Hc. unfold after_head.
  assert (Hf : forall code m meta, sendables meta ->
    event_sendable (EvError (mkError code m (overlay carried_meta meta).1))).
  { intros code m meta He. by apply overlay_sendable. }
  pose proof (List.Forall_nil sendable) as Hnil.
  destruct e as [bytes|entry|meta|err|meta|body meta|msg]; intros E; [..|injection E as <-; exact (Hf _ _ _ Hnil)].
  - by injection E as <-.
  - done.
  - injection E as <-. exact Hnil.
  - destruct (first_unsendable (we_meta err)) eqn:Ef; injection E as <-; [exact (Hf _ _ _ Hnil)|].
    exact (Hf _ _ _ (proj1 (first_unsendable_None _) Ef)).
  - injection E as <-. exact (Hf _ _ _ Hnil).
  - injection E as <-. exact (Hf _ _ _ Hnil).
Qed.

Lemma after_head_no_meta (carried_meta : list MetaEntry) (step : string) (e e' : StreamEvent) :
  after_head carried_meta step e = Some e' -> is_meta_event e' = false.
Proof.
  unfold after_head. destruct e as [bytes|entry|meta|err|meta|body meta|msg]; intros E;
    [by injection E as <-|done|by injection E as <-| |by injection E as <-..].
  by destruct (first_unsendable (we_meta err)); injection E as <-.
Qed.

(** Everything the strand holds can be sent, when the failures of lazy
    initializations can and blocks put nothing back behind a body. *)
Definition sendable_spec : strand_spec := mkSpec
  (fun a => match a with Ok o => read_ahead o | Err e => sendables (we_meta e) end)
  (fun st => sendables (msg_meta (ex_msg st)) /\ record_from sendable (ex_record st))
  (fun sc => match sc with
             | ScError e => sendables (we_meta e)
             | ScHalt buf => sendables (br_meta buf)
             | ScDrop meta => sendables meta
             | ScStream o _ => exists bytes, prelude o = [Chunk bytes]
             end)
  (fun o => Forall event_sendable (stream_events o) /\ head_final (stream_events o)).

Lemma apply_outcome_sendable (flow : CompiledFlow B Slot) step buf st :
  sp_state sendable_spec st ->
  stops sendable_spec (apply_outcome flow step buf st).1 /\ sp_state sendable_spec (apply_outcome flow step buf st).2.
Proof.
  intros Hst. pose proof Hst as [Hm Hr]. unfold apply_outcome.
  destruct (first_unsendable _) eqn:E; [by split; [constructor|]|]. apply first_unsendable_None in E.
  destruct buf as [response|[e|meta|halt|next|]]; simpl in E.
  - split; [done|]. by apply apply_response_sendable.
  - destruct (cf_on_error flow); done.
  - done.
  - done.
  - split; [done|]. split; simpl.
    + apply Forall_forall. intros e He. destruct (decide (e ∈ msg_meta (ex_msg st))) as [Hin|Hin].
      * by apply (proj1 (Forall_forall _ _) Hm).
      * apply (proj1 (Forall_forall _ _) E), list_elem_of_In, List.filter_In.
        split; [by apply list_elem_of_In|]. by rewrite bool_decide_false.
    + intros k l [Hl _]%after_continue_lookup. by apply (Hr k).
  - split; [constructor|done].
Qed.

#[export] Instance sendable_laws : SpecLaws B Slot sendable_spec.
Proof.
  split.
  - done.
  - done.
  - constructor.
  - done.
  - intros flow step mode o st Ho Hst. unfold settle_output. destruct mode; simpl.
    { by apply apply_outcome_sendable. }
    destruct (open_terminal_output o) as [buf|meta o'] eqn:E; [by apply apply_outcome_sendable|].
    unfold forward_stream. destruct (first_unsendable meta) eqn:Ef; [by split; [constructor|]|].
    apply first_unsendable_None in Ef. destruct Hst as [Hm Hr]. split; simpl.
    + exact (open_terminal_stream o o' meta Ho E).
    + by apply apply_response_sendable.
  - intros st [Hm _]. unfold respond_with_meta, response_meta_of. simpl.
    destruct (is_empty _); (split; [|by repeat constructor]); repeat constructor; by apply Forall_filter.
  - intros sc st [Hm Hr] Hsc. pose proof (carried_sendable _ _ Hm Hr) as Hc. simpl in *.
    destruct sc as [e|buf|meta|o step]; simpl; try (split; [|done]; repeat constructor; by apply overlay_sendable).
    destruct Hsc as [bytes Hp]. unfold stream_events. simpl. rewrite Hp, <- app_assoc. split.
    + rewrite !Forall_app. split_and!.
      * apply Forall_map. eapply Forall_impl; [apply (Forall_filter _ _ _ Hm)|]. done.
      * by repeat constructor.
      * apply rewrite_events_Forall. intros e e' He. by eapply after_head_sendable.
    + apply head_final_prefix. simpl. apply rewrite_events_Forall. intros e e' He.
      by eapply after_head_no_meta.
Qed.
End Sendable.

(** C9: the response of a flow can be sent. Take blocks whose outputs put
    nothing back behind a body, and initialization failures, a message and an
    input error whose metadata can be sent. Whatever else blocks produce, under
    every interleaving and through every transfer, the response the run ends
    with holds no metadata a transport must refuse: an entry no transport can
    send is never laid over the message, merging keeps values sendable, and
    what a streaming block ends with is checked as well. And no metadata
    follows a body chunk of the response. The registry is one with checked aliases. *)
Theorem flow_answers_sendable {B Slot} (new_slot : Slot) `{UnicodeLower} `{JsonCrate} `{DebugFormat}
    (table : FlowTable B Slot) answers (plan : CompiledFlow B Slot) msg input s o :
  reachable new_slot (ft_registry table) ->
  (forall c a, answers c a ->
     match a with Ok output => read_ahead output | Err e => sendables (we_meta e) end) ->
  sendables (msg_meta msg) -> (forall e, input = Err e -> sendables (we_meta e)) ->
  flow_run table answers plan msg input s (Finish o) -> (r_charges s <= USIZE_MOD)%N ->
  Forall event_sendable (stream_events o) /\ head_final (stream_events o).
Proof.
  intros Hr Ha Hm Hi [now Hrun] Hc.
  assert (Hs : sound sendable_spec (cf_max_steps plan) 0 true true 0 (S (N.to_nat (cf_max_steps plan)))
    (run_plan table plan msg input)).
  { apply (run_plan_sound table sendable_spec);
      [by split; [lia|]|by intros id; apply (flow_plan_compiles new_slot)|by split; [lia|]|unfold USIZE_MAX; lia|lia|].
    destruct input as [body|e]; simpl; [by split; [|intros k l]|]. split; [|done].
    constructor; [by apply Hi|constructor]. }
  destruct (sound_run sendable_spec (cf_max_steps plan) 0 true answers Ha _ _ true 0 _ Hrun eq_refl Hc Hs)
    as (c & n & Hs' & _). by inversion Hs'.
Qed.

(** The last block streams, sends metadata after its first chunk and fails with
    a header that cannot be sent. *)
Definition stream_step (c : Call unit unit) : result OutputStream WaferError :=
  if call_step c =s "reply" then
    Ok (from_events [EvMeta (mkMeta "resp.content_type" "text/event-stream"); Chunk "a";
                     EvMeta (mkMeta "resp.header.X-Late" "1"); Chunk "b";
                     EvError (mkError ErrorCode.Internal "boom" [mkMeta "resp.header.bad name" "1"])])
  else Ok (respond_with_meta "" [mkMeta "resp.header.Vary" "Origin"]).

Definition stream_end : @running unit unit * prog unit unit :=
  run_steps stream_step 100
    (run_start 0, run_plan fan_out_table fan_out_plan (mkMessage "http" [mkMeta "resp.header.X-Frame-Options" "DENY"]) (Ok "")).

Lemma flow_answers_sendable_witness :
  exists o, stream_end.2 = Finish o
    /\ stream_events o
       = [EvMeta (mkMeta "resp.header.X-Frame-Options" "DENY"); EvMeta (mkMeta "resp.header.Vary" "Origin");
          EvMeta (mkMeta "resp.content_type" "text/event-stream"); Chunk "a"; Chunk "b";
          EvError (mkError ErrorCode.Internal
            "block 'acme/app' in step 'reply' produced unsendable response meta: response meta resp.header.bad name refused: header name is not an RFC 9110 token"
            [mkMeta "resp.header.X-Frame-Options" "DENY"])]
    /\ Forall event_sendable (stream_events o) /\ head_final (stream_events o).
Proof.
  assert (E : exists o, stream_end.2 = Finish o) by (eexists; vm_compute; reflexivity).
  destruct E as [o E]. exists o. split; [done|]. split.
  { assert (E' := E). vm_compute in E'. injection E' as <-. reflexivity. }
  destruct stream_end as [s p] eqn:Es. simpl in E. subst p.
  apply (flow_answers_sendable tt fan_out_table (fun c a => a = stream_step c) fan_out_plan
           (mkMessage "http" [mkMeta "resp.header.X-Frame-Options" "DENY"]) (Ok "") s o).
  - apply sample_reachable.
  - intros c a ->. unfold stream_step. destruct (call_step c =s "reply"); exists [], []; (split; [reflexivity|apply Nat.le_0_l]).
  - by repeat constructor.
  - done.
  - exists 0%N. rewrite <- Es. apply run_steps_rtc.
  - apply (f_equal (fun x => r_charges x.1)) in Es. simpl in Es. rewrite <- Es. vm_compute. discriminate.
Defined.
