(* ===== verification/HttpResponse.v ===== *)
(** Responses for an HTTP transport ([wafer-block/src/http_codec.rs]): how the
    terminal of a block's stream becomes a status, headers and a body, and how
    a streamed response is opened and its body read.

    Log lines are left out. A response body of a failed request is JSON, its
    object keys in order, as [serde_json]'s map keeps them. *)

From stdpp Require Import pretty.
From S2P Require Import Prelude CoreTypes Text HttpMeta Streams.

Definition DEFAULT_RESPONSE_CONTENT_TYPE : string := "application/json".
Definition DEFAULT_STREAMED_CONTENT_TYPE : string := "application/octet-stream".

(** ** Response parts *)

(** [classified]: a transport-owned entry is skipped, the first unsendable one
    is the error. *)
Fixpoint classified (meta : list MetaEntry) : result (list (MetaEntry * ResponseMetaPart)) InvalidResponseMeta :=
  match meta with
  | [] => Ok []
  | entry :: meta =>
      match classify_response_meta entry with
      | Ok (Some part) => let? parts := classified meta in Ok ((entry, part) :: parts)
      | Ok None => classified meta
      | Err invalid => match im_kind invalid with TransportOwned => classified meta | Unsendable => Err invalid end
      end
  end.

(** [response_meta_parts]. *)
Definition response_meta_parts (meta : list MetaEntry) : result (list ResponseMetaPart) InvalidResponseMeta :=
  let? parts := classified meta in Ok (map snd parts).

(** [response_meta_entries]. *)
Definition response_meta_entries (meta : list MetaEntry) : result (list MetaEntry) InvalidResponseMeta :=
  let? parts := classified meta in Ok (map fst parts).

Definition HeaderPair : Type := string * string.

(** [put_header]. *)
Fixpoint put_header (headers : list HeaderPair) (name value : string) : list HeaderPair :=
  match headers with
  | [] => [(name, value)]
  | h :: headers =>
      if eq_ignore_ascii_case h.1 name then (name, value) :: headers else h :: put_header headers name value
  end.

(** One part of [headers_from_meta]. *)
Definition put_part (headers : list HeaderPair) (part : ResponseMetaPart) : list HeaderPair :=
  match part with
  | Status _ => headers
  | SetCookie v => headers ++ [("Set-Cookie", v)]
  | ContentType v => put_header headers "Content-Type" v
  | Header name value => put_header headers name value
  end.

(** [headers_from_meta]. *)
Definition headers_from_meta (meta : list MetaEntry) : result (list HeaderPair) InvalidResponseMeta :=
  let? parts := response_meta_parts meta in Ok (fold_left put_part parts []).

Definition is_content_type_pair (h : HeaderPair) : bool := h.1 =s "Content-Type".

(** [non_content_type_headers_from_meta]. *)
Definition non_content_type_headers_from_meta (meta : list MetaEntry) : result (list HeaderPair) InvalidResponseMeta :=
  let? headers := headers_from_meta meta in Ok (List.filter (fun h => negb (is_content_type_pair h)) headers).

(** The header entries [unsendable_response_meta] keeps. *)
Definition kept_when_unsendable (entry : MetaEntry) : bool :=
  match classify_response_meta entry with
  | Ok (Some (Header name _)) =>
      negb (is_listed BODY_RESPONSE_HEADERS name)
      && negb (eq_ignore_ascii_case name "cache-control")
      && negb (eq_ignore_ascii_case name "expires")
  | _ => false
  end.

(** [unsendable_response_meta]. *)
Definition unsendable_response_meta (meta : list MetaEntry) : list MetaEntry :=
  List.filter kept_when_unsendable meta ++ [mkMeta (META_RESP_HEADER_PREFIX +:+ "Cache-Control") "no-store"].

(** ** Status *)

(** [error_code_to_http_status]. *)
Definition error_code_to_http_status (code : ErrorCode.t) : N :=
  match code with
  | ErrorCode.Ok => 200
  | ErrorCode.Cancelled => 499
  | ErrorCode.InvalidArgument | ErrorCode.OutOfRange => 400
  | ErrorCode.DeadlineExceeded => 504
  | ErrorCode.NotFound => 404
  | ErrorCode.AlreadyExists | ErrorCode.Aborted => 409
  | ErrorCode.PermissionDenied => 403
  | ErrorCode.ResourceExhausted => 429
  | ErrorCode.FailedPrecondition => 412
  | ErrorCode.Unimplemented => 501
  | ErrorCode.Unavailable => 503
  | ErrorCode.Unauthenticated => 401
  | ErrorCode.Unknown | ErrorCode.Internal | ErrorCode.DataLoss => 500
  end.

(** [resolve_status]. *)
Definition resolve_status (meta : list MetaEntry) (default_status : N) : N :=
  match meta_get meta META_RESP_STATUS with
  | Some v => match parse_u16 v with
              | Some code => if (100 <=? code)%N && (code <=? 999)%N then code else default_status
              | None => default_status
              end
  | None => default_status
  end.

(** [resolve_error_status]. *)
Definition resolve_error_status (err : WaferError) : N :=
  resolve_status (we_meta err) (error_code_to_http_status (we_code err)).

(** ** Buffered responses *)

Record HttpResponseParts := mkParts {
  hp_status : N;
  hp_headers : list HeaderPair;
  hp_body : string
}.

Section Render.
  Context `{JsonCrate}.

Definition default_content_type (default_type : string) (headers : list HeaderPair) : list HeaderPair :=
  if existsb is_content_type_pair headers then headers else headers ++ [("Content-Type", default_type)].

(** The JSON body of [error_to_http_response]. *)
Definition error_body (err : WaferError) : string :=
  display_json (VObject (match detail_code err with Some detail => [("code", VString detail)] | None => [] end
                         ++ [("error", VString (ErrorCode.display (we_code err))); ("message", VString (we_message err))])).

Definition internal_server_error : WaferError := error_new ErrorCode.Internal "internal server error".

(** The pairs [unsendable_response] renders of the kept entries. *)
Definition put_kept (headers : list HeaderPair) (entry : MetaEntry) : list HeaderPair :=
  match classify_response_meta entry with
  | Ok (Some (Header name value)) => put_header headers name value
  | _ => headers
  end.

(** [unsendable_response]; the error it renders has no metadata of its own. *)
Definition unsendable_response (meta : list MetaEntry) : HttpResponseParts :=
  mkParts 500 (fold_left put_kept (unsendable_response_meta meta) [] ++ [("Content-Type", DEFAULT_RESPONSE_CONTENT_TYPE)])
    (error_body internal_server_error).

(** [error_to_http_response]. *)
Definition error_to_http_response (err : WaferError) : HttpResponseParts :=
  match non_content_type_headers_from_meta (we_meta err) with
  | Err _ => unsendable_response (we_meta err)
  | Ok headers =>
      mkParts (resolve_error_status err) (headers ++ [("Content-Type", DEFAULT_RESPONSE_CONTENT_TYPE)]) (error_body err)
  end.

(** [buffered_to_http_response]. *)
Definition buffered_to_http_response (buf : BufferedResponse) : HttpResponseParts :=
  match headers_from_meta (br_meta buf) with
  | Err _ => unsendable_response (br_meta buf)
  | Ok headers =>
      mkParts (resolve_status (br_meta buf) 200) (default_content_type DEFAULT_RESPONSE_CONTENT_TYPE headers) (br_body buf)
  end.

(** [terminal_to_http_response]. *)
Definition terminal_to_http_response (terminal : result BufferedResponse TerminalNotResponse) : HttpResponseParts :=
  match terminal with
  | Ok buf | Err (TnHalt buf) => buffered_to_http_response buf
  | Err (TnError err) => error_to_http_response err
  | Err (TnDrop meta) =>
      match non_content_type_headers_from_meta meta with
      | Ok headers => mkParts 204 headers ""
      | Err _ => unsendable_response meta
      end
  | Err (TnContinue msg) =>
      match non_content_type_headers_from_meta (msg_meta msg) with
      | Ok headers => mkParts 200 (headers ++ [("Content-Type", DEFAULT_RESPONSE_CONTENT_TYPE)]) ""
      | Err _ => unsendable_response (msg_meta msg)
      end
  | Err Malformed => mkParts 500 [] "internal server error"
  end.

(** [collect_http_response]. *)
Definition collect_http_response (output : OutputStream) : HttpResponseParts :=
  terminal_to_http_response (collect_buffered output).
End Render.

(** ** Streamed responses *)

Record StreamedBody := mkStreamedBody {
  sb_output : option (list StreamEvent);
  sb_remaining : option N;
  sb_held : option string
}.

Record StreamedHttpResponse := mkStreamed {
  sr_status : N;
  sr_headers : list HeaderPair;
  sr_content_length : option N;
  sr_body : StreamedBody
}.

Inductive OpenedResponse :=
| Streamed (response : StreamedHttpResponse)
| Buffered (output : OutputStream).

Definition overrun_error : WaferError :=
  error_new ErrorCode.Internal "the streamed body overran its declared content length".

Definition length_invalid (reason : string) : InvalidResponseMeta := mkInvalidMeta META_RESP_CONTENT_LENGTH reason Unsendable.

(** [content_length]. *)
Definition content_length (meta : list MetaEntry) : result (option N) InvalidResponseMeta :=
  match meta_get meta META_RESP_CONTENT_LENGTH with
  | None => Ok None
  | Some value =>
      if is_empty value || negb (str_forallb is_ascii_digit value)
      then Err (length_invalid "content length is not a decimal u64")
      else match parse_u64_digits value with
           | Some n => Ok (Some n)
           | None => Err (length_invalid "content length is not a decimal u64")
           end
  end.

(** [unsendable_stream]. *)
Definition unsendable_stream (meta : list MetaEntry) : OutputStream :=
  output_error (mkError ErrorCode.Internal "internal server error" (unsendable_response_meta meta)).

Inductive DeclaredLength := Fits | Exceeded (invalid : InvalidResponseMeta) | NoBody.

Definition body_exceeds_content_length : InvalidResponseMeta :=
  length_invalid "the body is longer than its declared content length".

Definition byte_count (s : string) : N := N.of_nat (String.length s).

(** The stream after [n] reads. *)
Definition advance (n : nat) (o : OutputStream) : OutputStream :=
  mkOutput (skipn n (prelude o)) (skipn (n - length (prelude o)) (produced o)).

(** The loop of [check_declared_length] under a declared zero: what it finds,
    the metadata it skips and how many events it reads. *)
Fixpoint check_zero (events : list StreamEvent) : DeclaredLength * list StreamEvent * nat :=
  match events with
  | Chunk bytes :: events =>
      if is_empty bytes then let '(found, skipped, n) := check_zero events in (found, skipped, S n)
      else (Exceeded body_exceeds_content_length, [], 0)
  | EvMeta entry :: events => let '(found, skipped, n) := check_zero events in (found, EvMeta entry :: skipped, S n)
  | Complete _ :: _ => (Fits, [], 0)
  | _ => (NoBody, [], 0)
  end.

(** [check_declared_length]. *)
Definition check_declared_length (output : OutputStream) (declared : N) : DeclaredLength * OutputStream :=
  if (0 <? declared)%N then
    let '(next, output) := peek output in
    match next with
    | Some (Chunk first) =>
        if (declared <? byte_count first)%N then (Exceeded body_exceeds_content_length, output) else (Fits, output)
    | _ => (Fits, output)
    end
  else
    let '(found, skipped, n) := check_zero (stream_events output) in
    (found, prepend skipped (peek (advance n output)).2).

(** [open_response]. *)
Definition open_response (output : OutputStream) : OpenedResponse :=
  let '(meta, output) := take_leading_meta output in
  let back output := Buffered (prepend (map EvMeta meta) output) in
  if negb (declares_streaming meta) then back output
  else
    let '(next, output) := peek output in
    match next with
    | Some (Chunk _) =>
        match (let? headers := headers_from_meta meta in let? length := content_length meta in Ok (headers, length)) with
        | Err _ => Buffered (unsendable_stream meta)
        | Ok (headers, content_length) =>
            let streamed output :=
              Streamed (mkStreamed (resolve_status meta 200) (default_content_type DEFAULT_STREAMED_CONTENT_TYPE headers)
                          content_length (mkStreamedBody (Some (stream_events output)) content_length None)) in
            match content_length with
            | None => streamed output
            | Some declared =>
                let '(found, output) := check_declared_length output declared in
                match found with
                | Fits => streamed output
                | Exceeded _ => Buffered (unsendable_stream meta)
                | NoBody => back output
                end
            end
        end
    | _ => back output
    end.

(** [StreamedBody::poll_next], its producer's events all there: the next item,
    and the body after it. *)
Fixpoint poll_events (events : list StreamEvent) (remaining : option N) (held : option string) :
    option (result string WaferError) * StreamedBody :=
  let ended item := (item, mkStreamedBody None remaining held) in
  let failed text := ended (Some (Err (error_new ErrorCode.Internal text))) in
  match events with
  | Chunk bytes :: events =>
      match remaining with
      | None => (Some (Ok bytes), mkStreamedBody (Some events) None held)
      | Some owed =>
          if is_empty bytes then poll_events events remaining held
          else if (owed <? byte_count bytes)%N then ended (Some (Err overrun_error))
          else if (owed =? byte_count bytes)%N then poll_events events (Some 0%N) (Some bytes)
          else (Some (Ok bytes), mkStreamedBody (Some events) (Some (owed - byte_count bytes)%N) held)
      end
  | EvMeta _ :: events => poll_events events remaining held
  | Complete _ :: _ =>
      match held with
      | Some last => (Some (Ok last), mkStreamedBody None remaining None)
      | None =>
          match remaining with
          | Some short =>
              if (0 <? short)%N
              then failed ("the streamed body ended " +:+ pretty short +:+ " bytes short of its declared content length")
              else ended None
          | None => ended None
          end
      end
  | EvError err :: _ => ended (Some (Err err))
  | EvHalt _ _ :: _ => failed "a Halt terminal cannot follow a streamed body"
  | EvDrop _ :: _ => failed "a Drop terminal cannot follow a streamed body"
  | EvContinue _ :: _ => failed "a Continue terminal cannot follow a streamed body"
  | [] => failed "stream ended without terminal event (protocol violation)"
  end.

Definition poll_next (body : StreamedBody) : option (result string WaferError) * StreamedBody :=
  match sb_output body with
  | None => (None, body)
  | Some events => poll_events events (sb_remaining body) (sb_held body)
  end.

(** The first [n] items of a body, polled to its end. *)
Fixpoint body_items (n : nat) (body : StreamedBody) : list (result string WaferError) :=
  match n with
  | 0 => []
  | S n => match poll_next body with
           | (Some item, body) => item :: body_items n body
           | (None, _) => []
           end
  end.
