(* ===== verification/HttpResponseProps.v ===== *)
(** Properties of HTTP responses: what is rendered can be sent, a response
    with an entry that cannot fails closed, and a streamed body is never
    passed off as whole when it is not. *)

From stdpp Require Import pretty.
From S2P Require Import Prelude CoreTypes Text RestrictiveHeaders HttpMeta ResponseMeta Streams HttpResponse.

(** ** Headers *)

(** A header a transport sends: a token, visible text, and not one the
    transport sets itself; the two names rendered specially are spelled so. *)
Definition pair_sendable (h : HeaderPair) : Prop :=
  is_field_name h.1 = true /\ is_field_value h.2 = true /\ is_listed TRANSPORT_OWNED_RESPONSE_HEADERS h.1 = false
  /\ (to_ascii_lowercase h.1 = "set-cookie" -> h.1 = "Set-Cookie")
  /\ (to_ascii_lowercase h.1 = "content-type" -> h.1 = "Content-Type").

Definition is_cookie_pair (h : HeaderPair) : bool := h.1 =s "Set-Cookie".

(** The names of headers that may not repeat, in lower case. *)
Definition single_names (headers : list HeaderPair) : list string :=
  map (fun h => to_ascii_lowercase h.1) (List.filter (fun h => negb (is_cookie_pair h)) headers).

Definition headers_sendable (headers : list HeaderPair) : Prop :=
  Forall pair_sendable headers /\ NoDup (single_names headers).

(** What classification guarantees of a part. *)
Definition part_sendable (part : ResponseMetaPart) : Prop :=
  match part with
  | Status code => (100 <= code <= 999)%N
  | Header name value =>
      pair_sendable (name, value) /\ to_ascii_lowercase name <> "content-type" /\ to_ascii_lowercase name <> "set-cookie"
  | SetCookie v | ContentType v => is_field_value v = true
  end.

Lemma ignore_case (a b : string) : eq_ignore_ascii_case a b = true <-> to_ascii_lowercase a = to_ascii_lowercase b.
Proof. apply eqs_true. Qed.

Lemma classify_sendable (e : MetaEntry) (part : ResponseMetaPart) :
  classify_response_meta e = Ok (Some part) -> part_sendable part.
Proof.
  unfold classify_response_meta.
  destruct (me_key e =s META_RESP_STATUS).
  { destruct (parse_u16 _) as [code|]; [|done].
    destruct ((100 <=? code)%N && (code <=? 999)%N) eqn:E; [|done]. intros [= <-]. simpl.
    apply andb_true_iff in E as [?%N.leb_le ?%N.leb_le]. lia. }
  destruct (starts_with _ _).
  { destruct (is_field_value (me_value e)) eqn:Ev; [|done]. by intros [= <-]. }
  destruct (strip_prefix _ _) as [name|].
  - destruct (is_field_name name) eqn:En; [|done]. cbn [negb]. destruct (is_listed TRANSPORT_OWNED_RESPONSE_HEADERS name) eqn:El; [done|].
    destruct (is_field_value (me_value e)) eqn:Ev; [|done]. cbn [negb].
    destruct (eq_ignore_ascii_case name "content-type") eqn:Ect; [by intros [= <-]|].
    destruct (eq_ignore_ascii_case name "set-cookie") eqn:Esc; intros [= <-]; [done|].
    assert (to_ascii_lowercase name <> "content-type") by (intros E; by rewrite (proj2 (ignore_case name "content-type") E) in Ect).
    assert (to_ascii_lowercase name <> "set-cookie") by (intros E; by rewrite (proj2 (ignore_case name "set-cookie") E) in Esc).
    repeat split; done.
  - destruct (me_key e =s META_RESP_CONTENT_TYPE); [|done].
    destruct (is_field_value (me_value e)) eqn:Ev; [|done]. by intros [= <-].
Qed.

Lemma classified_sendable (meta : list MetaEntry) (parts : list (MetaEntry * ResponseMetaPart)) :
  classified meta = Ok parts -> Forall (fun ep => part_sendable ep.2) parts.
Proof.
  revert parts. induction meta as [|e meta IH]; intros parts; simpl; [intros [= <-]; constructor|].
  destruct (classify_response_meta e) as [[part|]|invalid] eqn:E; [|by auto|by destruct (im_kind invalid); auto].
  destruct (classified meta) as [ps|]; simpl; [|done]. intros [= <-]. constructor; [by eapply classify_sendable | by auto].
Qed.

Lemma put_header_names (hs : list HeaderPair) (name value : string) :
  Forall pair_sendable hs -> to_ascii_lowercase name <> "set-cookie" ->
  single_names (put_header hs name value)
  = if existsb (fun h => eq_ignore_ascii_case h.1 name) hs then single_names hs
    else single_names hs ++ [to_ascii_lowercase name].
Proof.
  intros Hhs Hname. assert (Hc : (name =s "Set-Cookie") = false).
  { apply eqs_false. intros ->. by apply Hname. }
  unfold single_names. induction Hhs as [|h hs Hh Hhs IH]; cbn -[eq_ignore_ascii_case].
  - unfold is_cookie_pair. simpl. by rewrite Hc.
  - destruct (eq_ignore_ascii_case h.1 name) eqn:E; cbn -[eq_ignore_ascii_case].
    + apply ignore_case in E. unfold is_cookie_pair at 1 3. simpl. rewrite Hc. simpl.
      assert (Hh' : (h.1 =s "Set-Cookie") = false).
      { apply eqs_false. intros Hh1. rewrite Hh1 in E. by apply Hname. }
      by rewrite Hh'; simpl; rewrite E.
    + destruct (negb (is_cookie_pair h)); cbn -[eq_ignore_ascii_case]; rewrite IH; by case_match.
Qed.

Lemma put_header_sendable (hs : list HeaderPair) (name value : string) :
  headers_sendable hs -> pair_sendable (name, value) -> to_ascii_lowercase name <> "set-cookie" ->
  headers_sendable (put_header hs name value).
Proof.
  intros [Hf Hn] Hp Hne. split.
  - clear Hn. induction Hf as [|h hs Hh Hf IH]; cbn -[eq_ignore_ascii_case]; [by apply Forall_singleton|].
    destruct (eq_ignore_ascii_case h.1 name); by constructor.
  - rewrite put_header_names by done. destruct (existsb (fun h => eq_ignore_ascii_case h.1 name) hs) eqn:E; [done|].
    apply NoDup_app. split_and!; [done | | apply NoDup_singleton].
    intros x Hx Hx2%list_elem_of_singleton. subst x.
    unfold single_names in Hx. apply list_elem_of_In, in_map_iff in Hx as (h & Hh & [Hin _]%filter_In).
    assert (Ht : existsb (fun h => eq_ignore_ascii_case h.1 name) hs = true).
    { apply existsb_exists. exists h. split; [done|]. by apply ignore_case. }
    by rewrite Ht in E.
Qed.

Lemma append_cookie_sendable (hs : list HeaderPair) (v : string) :
  headers_sendable hs -> is_field_value v = true -> headers_sendable (hs ++ [("Set-Cookie", v)]).
Proof.
  intros [Hf Hn] Hv. split.
  - apply Forall_app. split; [done|]. apply Forall_singleton. by repeat split.
  - unfold single_names in *. rewrite List.filter_app. simpl. by rewrite app_nil_r.
Qed.

Lemma put_part_sendable (hs : list HeaderPair) (part : ResponseMetaPart) :
  headers_sendable hs -> part_sendable part -> headers_sendable (put_part hs part).
Proof.
  intros Hhs. destruct part as [code|name value|v|v]; simpl; [done | | by apply append_cookie_sendable |].
  - intros (Hp & _ & Hc). by apply put_header_sendable.
  - intros Hv. apply put_header_sendable; [done | | done]. by repeat split.
Qed.

Lemma fold_sendable (parts : list ResponseMetaPart) (hs : list HeaderPair) :
  Forall part_sendable parts -> headers_sendable hs -> headers_sendable (fold_left put_part parts hs).
Proof. intros Hp. revert hs. induction Hp as [|p ps Hp Hps IH]; simpl; intros hs Hhs; [done|]. by apply IH, put_part_sendable. Qed.

Lemma no_headers_sendable : headers_sendable [].
Proof. split; constructor. Qed.

Lemma headers_from_meta_sendable (meta : list MetaEntry) (hs : list HeaderPair) :
  headers_from_meta meta = Ok hs -> headers_sendable hs.
Proof.
  unfold headers_from_meta, response_meta_parts. destruct (classified meta) as [parts|] eqn:E; simpl; [|done].
  intros [= <-]. apply fold_sendable; [|apply no_headers_sendable]. apply Forall_map. by apply (classified_sendable meta).
Qed.

Lemma names_without (f : HeaderPair -> bool) (hs : list HeaderPair) :
  single_names (List.filter f hs) `sublist_of` single_names hs.
Proof.
  unfold single_names. induction hs as [|h hs IH]; simpl; [done|].
  destruct (f h); simpl; destruct (negb (is_cookie_pair h)); simpl; [by apply sublist_skip | done | by apply sublist_cons | done].
Qed.

Lemma filter_sendable (f : HeaderPair -> bool) (hs : list HeaderPair) :
  headers_sendable hs -> headers_sendable (List.filter f hs).
Proof.
  intros [Hf Hn]. split.
  - apply Forall_forall. intros h Hh. apply list_elem_of_In, filter_In in Hh as [Hh _].
    by eapply Forall_forall in Hf; [|apply list_elem_of_In].
  - eapply sublist_NoDup; [exact Hn | apply names_without].
Qed.

(** A content type may be added where there is none. *)
Lemma add_content_type_sendable (hs : list HeaderPair) (v : string) :
  headers_sendable hs -> existsb is_content_type_pair hs = false -> is_field_value v = true ->
  headers_sendable (hs ++ [("Content-Type", v)]).
Proof.
  intros Hhs Hct Hv.
  assert (E : put_header hs "Content-Type" v = hs ++ [("Content-Type", v)]).
  { destruct Hhs as [Hf _]. induction Hf as [|h hs Hh Hf IH]; simpl; [done|]. simpl in Hct.
    apply orb_false_iff in Hct as [Hh1 Hct].
    destruct (eq_ignore_ascii_case h.1 "Content-Type") eqn:E; [|by rewrite IH].
    apply ignore_case in E. destruct Hh as (_ & _ & _ & _ & Hs).
    unfold is_content_type_pair in Hh1. by rewrite (proj2 (eqs_true h.1 "Content-Type") (Hs E)) in Hh1. }
  rewrite <- E. apply put_header_sendable; [done | by repeat split | done].
Qed.

Lemma no_content_type_left (hs : list HeaderPair) :
  existsb is_content_type_pair (List.filter (fun h => negb (is_content_type_pair h)) hs) = false.
Proof. induction hs as [|h hs IH]; simpl; [done|]. destruct (is_content_type_pair h) eqn:E; simpl; [done|]. by rewrite E. Qed.

Lemma non_content_type_sendable (meta : list MetaEntry) (hs : list HeaderPair) :
  non_content_type_headers_from_meta meta = Ok hs -> headers_sendable hs /\ existsb is_content_type_pair hs = false.
Proof.
  unfold non_content_type_headers_from_meta. destruct (headers_from_meta meta) as [hs'|] eqn:E; simpl; [|done].
  intros [= <-]. split; [by eapply filter_sendable, headers_from_meta_sendable | apply no_content_type_left].
Qed.

Lemma default_content_type_sendable (v : string) (hs : list HeaderPair) :
  headers_sendable hs -> is_field_value v = true -> headers_sendable (default_content_type v hs).
Proof.
  intros Hhs Hv. unfold default_content_type. destruct (existsb is_content_type_pair hs) eqn:E; [done|]. by apply add_content_type_sendable.
Qed.

(** ** Entries that cannot be sent *)

(** The value of a header as a client reads it. *)
Definition header_value (hs : list HeaderPair) (name : string) : option string :=
  option_map snd (List.find (fun h => eq_ignore_ascii_case h.1 name) hs).

(** The last value a terminal's metadata gives a header that can be sent. *)
Definition last_sendable (meta : list MetaEntry) (name : string) : option string :=
  fold_left (fun found e =>
               match classify_response_meta e with
               | Ok (Some (Header n v)) => if eq_ignore_ascii_case n name then Some v else found
               | _ => found
               end) meta None.

(** Names the answer to an unsendable response leaves out or sets itself. *)
Definition replaced_header (name : string) : bool :=
  is_listed BODY_RESPONSE_HEADERS name || eq_ignore_ascii_case name "cache-control" || eq_ignore_ascii_case name "expires"
  || eq_ignore_ascii_case name "content-type".

Lemma put_header_value (hs : list HeaderPair) (n v name : string) :
  header_value (put_header hs n v) name = if eq_ignore_ascii_case n name then Some v else header_value hs name.
Proof.
  unfold header_value. induction hs as [|h hs IH]; cbn -[eq_ignore_ascii_case]; [by destruct (eq_ignore_ascii_case n name)|].
  destruct (eq_ignore_ascii_case h.1 n) eqn:E; cbn -[eq_ignore_ascii_case].
  - assert (En : eq_ignore_ascii_case h.1 name = eq_ignore_ascii_case n name).
    { apply ignore_case in E. unfold eq_ignore_ascii_case. by rewrite E. }
    rewrite En. by destruct (eq_ignore_ascii_case n name).
  - destruct (eq_ignore_ascii_case h.1 name) eqn:E1; [|by rewrite IH]. simpl.
    destruct (eq_ignore_ascii_case n name) eqn:E2; [|done]. apply ignore_case in E1, E2.
    unfold eq_ignore_ascii_case in E. rewrite E1, E2, eqs_refl in E. done.
Qed.

Lemma header_value_app (hs1 hs2 : list HeaderPair) (name : string) :
  header_value (hs1 ++ hs2) name
  = match header_value hs1 name with Some v => Some v | None => header_value hs2 name end.
Proof.
  unfold header_value. induction hs1 as [|h hs1 IH]; cbn -[eq_ignore_ascii_case]; [done|].
  by destruct (eq_ignore_ascii_case h.1 name).
Qed.

Definition no_store_entry : MetaEntry := mkMeta (META_RESP_HEADER_PREFIX +:+ "Cache-Control") "no-store".

Lemma kept_is_header (e : MetaEntry) :
  kept_when_unsendable e = true ->
  exists name value, classify_response_meta e = Ok (Some (Header name value)) /\
    is_listed BODY_RESPONSE_HEADERS name = false /\ eq_ignore_ascii_case name "cache-control" = false
    /\ eq_ignore_ascii_case name "expires" = false.
Proof.
  unfold kept_when_unsendable. destruct (classify_response_meta e) as [[[code|name value|v|v]|]|]; try done.
  intros [[H1%negb_true_iff H2%negb_true_iff]%andb_true_iff H3%negb_true_iff]%andb_true_iff. by exists name, value.
Qed.

(** Every entry of the replacement is a header. *)
Lemma replacement_headers (meta : list MetaEntry) :
  Forall (fun e => exists name value, classify_response_meta e = Ok (Some (Header name value))) (unsendable_response_meta meta).
Proof.
  apply Forall_app. split.
  - apply Forall_forall. intros e He. apply list_elem_of_In, filter_In in He as [_ He].
    apply kept_is_header in He as (n & v & Hc & _). by exists n, v.
  - apply Forall_singleton. by exists "Cache-Control", "no-store".
Qed.

Lemma fold_kept_sendable (meta : list MetaEntry) (hs : list HeaderPair) :
  headers_sendable hs -> headers_sendable (fold_left put_kept meta hs).
Proof.
  revert hs. induction meta as [|e meta IH]; intros hs Hhs; simpl; [done|]. apply IH. unfold put_kept.
  destruct (classify_response_meta e) as [[[code|name value|v|v]|]|] eqn:E; try done.
  apply classify_sendable in E as (Hp & _ & Hc). by apply put_header_sendable.
Qed.

(** Rendering only headers never adds a content type, nor a cookie. *)
Lemma fold_kept_special (meta : list MetaEntry) (hs : list HeaderPair) (special : string) :
  special = "content-type" \/ special = "set-cookie" ->
  header_value hs special = None -> header_value (fold_left put_kept meta hs) special = None.
Proof.
  intros Hs. revert hs. induction meta as [|e meta IH]; intros hs Hhs; simpl; [done|]. apply IH. unfold put_kept.
  destruct (classify_response_meta e) as [[[code|name value|v|v]|]|] eqn:E; try done.
  apply classify_sendable in E as (_ & Hct & Hsc). rewrite put_header_value.
  destruct (eq_ignore_ascii_case name special) eqn:En; [|done]. apply ignore_case in En.
  destruct Hs as [-> | ->]; [by destruct (Hct En) | by destruct (Hsc En)].
Qed.

Lemma no_value_no_pair (hs : list HeaderPair) :
  header_value hs "content-type" = None -> existsb is_content_type_pair hs = false.
Proof.
  unfold header_value. induction hs as [|h hs IH]; cbn -[eq_ignore_ascii_case]; [done|].
  destruct (eq_ignore_ascii_case h.1 "content-type") eqn:E; [done|]. intros Hv. rewrite IH by done.
  destruct (is_content_type_pair h) eqn:Eh; [|done]. unfold is_content_type_pair in Eh. bool_to_prop.
  by rewrite Eh in E.
Qed.

Lemma replacement_sendable (meta : list MetaEntry) :
  headers_sendable (fold_left put_kept (unsendable_response_meta meta) [] ++ [("Content-Type", DEFAULT_RESPONSE_CONTENT_TYPE)]).
Proof.
  apply add_content_type_sendable; [apply fold_kept_sendable, no_headers_sendable | | done].
  apply no_value_no_pair. apply fold_kept_special; [by left | done].
Qed.

Lemma resolve_status_range (meta : list MetaEntry) (d : N) : (100 <= d <= 999)%N -> (100 <= resolve_status meta d <= 999)%N.
Proof.
  intros Hd. unfold resolve_status. destruct (meta_get meta META_RESP_STATUS) as [v|]; [|done].
  destruct (parse_u16 v) as [code|]; [|done].
  destruct ((100 <=? code)%N && (code <=? 999)%N) eqn:E; [|done].
  apply andb_true_iff in E as [?%N.leb_le ?%N.leb_le]. lia.
Qed.

Definition response_sendable (status : N) (headers : list HeaderPair) : Prop :=
  (100 <= status <= 999)%N /\ headers_sendable headers.

Section Sendable.
  Context `{JsonCrate}.

Lemma unsendable_sendable (meta : list MetaEntry) :
  response_sendable (hp_status (unsendable_response meta)) (hp_headers (unsendable_response meta)).
Proof. split; [simpl; lia | apply replacement_sendable]. Qed.

Lemma error_status_range (c : ErrorCode.t) : (100 <= error_code_to_http_status c <= 999)%N.
Proof. destruct c; simpl; lia. Qed.

Lemma terminal_sendable (terminal : result BufferedResponse TerminalNotResponse) :
  let parts := terminal_to_http_response terminal in response_sendable (hp_status parts) (hp_headers parts).
Proof.
  assert (Hbuf : forall buf, response_sendable (hp_status (buffered_to_http_response buf)) (hp_headers (buffered_to_http_response buf))).
  { intros buf. unfold buffered_to_http_response. destruct (headers_from_meta (br_meta buf)) as [hs|] eqn:E; [|apply unsendable_sendable].
    split; [apply resolve_status_range; lia|]. apply default_content_type_sendable; [by eapply headers_from_meta_sendable | done]. }
  destruct terminal as [buf|[err|meta|buf|msg|]]; simpl; try apply Hbuf.
  - unfold error_to_http_response. destruct (non_content_type_headers_from_meta (we_meta err)) as [hs|] eqn:E; [|apply unsendable_sendable].
    apply non_content_type_sendable in E as [Hhs Hct].
    split; [apply resolve_status_range, error_status_range | by apply add_content_type_sendable].
  - destruct (non_content_type_headers_from_meta meta) as [hs|] eqn:E; [|apply unsendable_sendable].
    apply non_content_type_sendable in E as [Hhs _]. split; [simpl; lia | done].
  - destruct (non_content_type_headers_from_meta (msg_meta msg)) as [hs|] eqn:E; [|apply unsendable_sendable].
    apply non_content_type_sendable in E as [Hhs Hct]. split; [simpl; lia | by apply add_content_type_sendable].
  - split; [simpl; lia | apply no_headers_sendable].
Qed.

(** ** Failing closed *)

(** The metadata a terminal is rendered with. *)
Definition terminal_meta (terminal : result BufferedResponse TerminalNotResponse) : list MetaEntry :=
  match terminal with
  | Ok buf | Err (TnHalt buf) => br_meta buf
  | Err (TnError err) => we_meta err
  | Err (TnDrop meta) => meta
  | Err (TnContinue msg) => msg_meta msg
  | Err Malformed => []
  end.

Lemma classified_unsendable (meta : list MetaEntry) :
  is_ok (classified meta) = match first_unsendable meta with Some _ => false | None => true end.
Proof.
  unfold first_unsendable. induction meta as [|e meta IH]; simpl; [done|]. unfold unsendable at 1.
  destruct (classify_response_meta e) as [[part|]|invalid]; [|done|by destruct (im_kind invalid)].
  rewrite <- IH. by destruct (classified meta).
Qed.

Lemma headers_unsendable (meta : list MetaEntry) (i : InvalidResponseMeta) :
  first_unsendable meta = Some i ->
  (exists e, headers_from_meta meta = Err e) /\ (exists e, non_content_type_headers_from_meta meta = Err e).
Proof.
  intros Hi. pose proof (classified_unsendable meta) as Hc. rewrite Hi in Hc.
  unfold non_content_type_headers_from_meta, headers_from_meta, response_meta_parts.
  destruct (classified meta) as [|e]; [done|]. split; by exists e.
Qed.

Lemma unsendable_terminal (terminal : result BufferedResponse TerminalNotResponse) (i : InvalidResponseMeta) :
  first_unsendable (terminal_meta terminal) = Some i ->
  terminal_to_http_response terminal = unsendable_response (terminal_meta terminal).
Proof.
  intros Hi. destruct (headers_unsendable _ _ Hi) as [[e1 E1] [e2 E2]].
  destruct terminal as [buf|[err|meta|buf|msg|]]; simpl in *; unfold buffered_to_http_response, error_to_http_response;
    rewrite ?E1, ?E2; done.
Qed.

Lemma fold_kept_value (meta : list MetaEntry) (hs : list HeaderPair) (name : string) (found : option string) :
  is_listed BODY_RESPONSE_HEADERS name || eq_ignore_ascii_case name "cache-control" || eq_ignore_ascii_case name "expires" = false ->
  header_value hs name = found ->
  header_value (fold_left put_kept (List.filter kept_when_unsendable meta) hs) name
  = fold_left (fun found e => match classify_response_meta e with
                              | Ok (Some (Header n v)) => if eq_ignore_ascii_case n name then Some v else found
                              | _ => found
                              end) meta found.
Proof.
  intros Hr. revert hs found. induction meta as [|e meta IH]; intros hs found Hf; cbn -[eq_ignore_ascii_case]; [done|].
  destruct (kept_when_unsendable e) eqn:Ek; cbn -[eq_ignore_ascii_case].
  - apply IH. unfold put_kept. destruct (classify_response_meta e) as [[[code|n v|v|v]|]|]; try done.
    rewrite put_header_value. by destruct (eq_ignore_ascii_case n name).
  - apply IH. unfold kept_when_unsendable in Ek. destruct (classify_response_meta e) as [[[code|n v|v|v]|]|]; try done.
    destruct (eq_ignore_ascii_case n name) eqn:En; [|done]. exfalso. apply ignore_case in En.
    unfold is_listed, eq_ignore_ascii_case in *. rewrite En in Ek.
    apply orb_false_iff in Hr as [[H1 H2]%orb_false_iff H3]. by rewrite H1, H2, H3 in Ek.
Qed.

Lemma fold_kept_none (meta : list MetaEntry) (hs : list HeaderPair) (name : string) :
  is_listed BODY_RESPONSE_HEADERS name || eq_ignore_ascii_case name "cache-control" || eq_ignore_ascii_case name "expires" = true ->
  header_value hs name = None -> header_value (fold_left put_kept (List.filter kept_when_unsendable meta) hs) name = None.
Proof.
  intros Hr. revert hs. induction meta as [|e meta IH]; intros hs Hf; cbn -[eq_ignore_ascii_case]; [done|].
  destruct (kept_when_unsendable e) eqn:Ek; cbn -[eq_ignore_ascii_case]; [|by apply IH].
  apply IH. apply kept_is_header in Ek as (n & v & Hc & H1 & H2 & H3). unfold put_kept. rewrite Hc, put_header_value.
  destruct (eq_ignore_ascii_case n name) eqn:En; [|done]. apply ignore_case in En.
  unfold is_listed, eq_ignore_ascii_case in *. rewrite En in H1, H2, H3. by rewrite H1, H2, H3 in Hr.
Qed.

Lemma replacement_value (meta : list MetaEntry) (name : string) :
  header_value (hp_headers (unsendable_response meta)) name
  = match (if eq_ignore_ascii_case "Cache-Control" name then Some "no-store"
           else header_value (fold_left put_kept (List.filter kept_when_unsendable meta) []) name) with
    | Some v => Some v
    | None => if eq_ignore_ascii_case "Content-Type" name then Some DEFAULT_RESPONSE_CONTENT_TYPE else None
    end.
Proof.
  cbn [unsendable_response hp_headers]. rewrite header_value_app. unfold unsendable_response_meta. rewrite fold_left_app.
  cbn [fold_left]. change (put_kept ?hs (mkMeta _ _)) with (put_header hs "Cache-Control" "no-store").
  rewrite put_header_value. unfold header_value at 2. cbn -[eq_ignore_ascii_case].
  by destruct (eq_ignore_ascii_case "Content-Type" name).
Qed.

(** Every response rendered of a block's answer can be sent: its status is in
    100..=999, its headers are tokens with visible text, none is one the
    transport owns, and only [Set-Cookie] repeats. *)
Theorem responses_sendable (output : OutputStream) :
  let parts := collect_http_response output in
  (100 <= hp_status parts <= 999)%N /\
  Forall (fun h => is_field_name h.1 = true /\ is_field_value h.2 = true /\
                   is_listed TRANSPORT_OWNED_RESPONSE_HEADERS h.1 = false) (hp_headers parts) /\
  NoDup (single_names (hp_headers parts)).
Proof.
  intros parts. destruct (terminal_sendable (collect_buffered output)) as [Hs [Hf Hn]]. split; [done|]. split; [|done].
  eapply Forall_impl; [exact Hf|]. intros h (H1 & H2 & H3 & _). done.
Qed.

(** C10: A terminal with an entry no transport can send fails closed: it is
    answered 500 and never stored, takes no cookie and no header of the body
    it replaces, and keeps of every other header the last value that can be
    sent. *)
Theorem unsendable_fails_closed (terminal : result BufferedResponse TerminalNotResponse) (invalid : InvalidResponseMeta) :
  first_unsendable (terminal_meta terminal) = Some invalid ->
  let parts := terminal_to_http_response terminal in
  hp_status parts = 500%N /\ hp_body parts = error_body internal_server_error /\
  header_value (hp_headers parts) "Cache-Control" = Some "no-store" /\
  header_value (hp_headers parts) "Set-Cookie" = None /\
  header_value (hp_headers parts) "Content-Type" = Some "application/json" /\
  (forall name, is_listed BODY_RESPONSE_HEADERS name = true -> header_value (hp_headers parts) name = None) /\
  (forall name, replaced_header name = false ->
     header_value (hp_headers parts) name = last_sendable (terminal_meta terminal) name).
Proof.
  intros Hi parts. subst parts. rewrite (unsendable_terminal _ _ Hi). split_and!; try done.
  - by rewrite replacement_value.
  - rewrite replacement_value. change (header_value ?hs "Set-Cookie") with (header_value hs "set-cookie").
    rewrite fold_kept_special; [done | by right | done].
  - rewrite replacement_value. change (header_value ?hs "Content-Type") with (header_value hs "content-type").
    rewrite fold_kept_special; [done | by left | done].
  - intros name Hn. rewrite replacement_value, fold_kept_none by (done || by rewrite Hn).
    unfold is_listed, eq_ignore_ascii_case in *.
    destruct (String.eqb (to_ascii_lowercase "Cache-Control") (to_ascii_lowercase name)) eqn:E1; [apply eqs_true in E1; by rewrite <- E1 in Hn|].
    destruct (String.eqb (to_ascii_lowercase "Content-Type") (to_ascii_lowercase name)) eqn:E2; [apply eqs_true in E2; by rewrite <- E2 in Hn|]. done.
  - intros name [Hn Hct]%orb_false_iff. rewrite replacement_value.
    assert (Hcc : eq_ignore_ascii_case "Cache-Control" name = false).
    { apply orb_false_iff in Hn as [[_ Hn]%orb_false_iff _]. unfold eq_ignore_ascii_case in *.
      destruct (String.eqb (to_ascii_lowercase "Cache-Control") (to_ascii_lowercase name)) eqn:E; [|done]. apply eqs_true in E. by rewrite <- E in Hn. }
    rewrite Hcc, (fold_kept_value _ [] name None Hn eq_refl). unfold last_sendable. case_match; [done|].
    unfold eq_ignore_ascii_case in *.
    destruct (String.eqb (to_ascii_lowercase "Content-Type") (to_ascii_lowercase name)) eqn:E; [|done]. apply eqs_true in E. by rewrite <- E in Hct.
Qed.
End Sendable.

(** * Properties of opened responses: a streamed body is never passed off as
    whole when it is not, and a response served buffered is the one the block
    answered. *)

(** ** Whole bodies *)

(** The body of a stream that completes; nothing of one that ends otherwise. *)
Fixpoint whole_body (events : list StreamEvent) : option string :=
  match events with
  | Chunk bytes :: events => option_map (String.append bytes) (whole_body events)
  | EvMeta _ :: events => whole_body events
  | Complete _ :: _ => Some ""
  | _ => None
  end.

Definition item_bytes (item : result string WaferError) : string := match item with Ok bytes => bytes | Err _ => "" end.
Definition received (items : list (result string WaferError)) : string := fold_right (fun i s => item_bytes i +:+ s) "" items.

(** A body read to a clean end. *)
Definition clean (items : list (result string WaferError)) : Prop := Forall (fun i => is_ok i = true) items.
(** A body cut by an error, its last item. *)
Definition cut (items : list (result string WaferError)) : Prop :=
  exists oks e, items = oks ++ [Err e] /\ clean oks.

(** What reading a body to its end may give, under what is owed of a declared
    length: everything, or less with an error. *)
Definition honest (remaining : option N) (body : option string) (items : list (result string WaferError)) : Prop :=
  match body with
  | Some b => if match remaining with Some owed => (byte_count b =? owed)%N | None => true end
              then clean items /\ received items = b
              else cut items
  | None => cut items
  end /\
  (cut items -> match remaining with Some owed => (byte_count (received items) < owed)%N | None => True end).

Lemma clean_not_cut (items : list (result string WaferError)) : clean items -> ~ cut items.
Proof. intros Hc (oks & e & -> & _). apply Forall_app in Hc as [_ Hc]. by apply Forall_inv in Hc. Qed.

Lemma ended_items (n : nat) (r : option N) (h : option string) : body_items n (mkStreamedBody None r h) = [].
Proof. by destruct n. Qed.

Lemma cut_single (e : WaferError) : cut [Err e].
Proof. exists [], e. split; [done | constructor]. Qed.

Lemma byte_count_app (a b : string) : byte_count (a +:+ b) = (byte_count a + byte_count b)%N.
Proof. unfold byte_count. rewrite str_length_app. lia. Qed.

Lemma byte_count_empty (s : string) : is_empty s = false -> (0 < byte_count s)%N.
Proof. destruct s; [done|]. unfold byte_count. simpl. lia. Qed.

(** The chunk that meets the length is held: it is served only before a
    [Complete] that no byte precedes. *)
Lemma held_items (events : list StreamEvent) (bytes : string) (n : nat) :
  length events < n ->
  let items := body_items n (mkStreamedBody (Some events) (Some 0%N) (Some bytes)) in
  (whole_body events = Some "" -> items = [Ok bytes]) /\ (whole_body events <> Some "" -> exists e, items = [Err e]).
Proof.
  destruct n as [|n]; [lia|]. intros Hn items. subst items. clear Hn.
  induction events as [|[chunk|entry|meta|err|meta|b meta|msg] events IH]; cbn [body_items poll_next sb_output sb_remaining sb_held poll_events whole_body] in *;
    try (rewrite !ended_items); try (split; [done | intros _; by eexists]); try exact IH.
  - destruct chunk as [|c chunk]; cbn [is_empty].
    + destruct (whole_body events); exact IH.
    + rewrite (proj2 (N.ltb_lt 0 (byte_count (String c chunk)))) by by apply byte_count_empty. rewrite !ended_items.
      split; [by destruct (whole_body events) | intros _; by eexists].
  - split; done.
Qed.

Lemma honest_ok (r : option N) (bytes : string) (body : option string) (items : list (result string WaferError)) :
  match r with Some owed => (byte_count bytes < owed)%N | None => True end ->
  honest (option_map (fun owed => owed - byte_count bytes)%N r) body items ->
  honest r (option_map (String.append bytes) body) (Ok bytes :: items).
Proof.
  intros Hr [Hb Hc].
  assert (Hcut : cut (Ok bytes :: items) <-> cut items).
  { split.
    - intros (oks & e & E & Ho). destruct oks as [|o oks]; [done|]. injection E as <- ->. exists oks, e.
      split; [done | by inversion Ho].
    - intros (oks & e & -> & Ho). exists (Ok bytes :: oks), e. split; [done | by constructor]. }
  split.
  - destruct body as [b|]; simpl; [|by apply Hcut].
    assert (E : (match r with Some owed => byte_count (bytes +:+ b) =? owed | None => true end)%N
                = match option_map (fun owed => owed - byte_count bytes)%N r with Some owed => (byte_count b =? owed)%N | None => true end).
    { destruct r as [owed|]; [|done]. simpl. rewrite byte_count_app.
      destruct (N.eqb_spec (byte_count b) (owed - byte_count bytes)); [apply N.eqb_eq | apply N.eqb_neq]; lia. }
    rewrite E. destruct (option_map _ r); [destruct (_ =? _)%N|]; [| by apply Hcut |];
      destruct Hb as [Hcl <-]; (split; [by constructor | done]).
  - rewrite Hcut. intros Hx. specialize (Hc Hx). destruct r as [owed|]; [|done]. simpl in *.
    rewrite byte_count_app. lia.
Qed.

Lemma honest_cut (r : option N) (body : option string) (e : WaferError) :
  match r with Some owed => (0 < owed)%N | None => True end ->
  match body with Some b => match r with Some owed => byte_count b <> owed | None => False end | None => True end ->
  honest r body [Err e].
Proof.
  intros Hr Hb. split; [|by intros _].
  destruct body as [b|]; [|apply cut_single]. destruct r as [owed|]; [|done].
  rewrite (proj2 (N.eqb_neq _ _) Hb). apply cut_single.
Qed.

(** Reading a body to its end, nothing held yet and a length still owed. *)
Lemma body_honest (events : list StreamEvent) (r : option N) (n : nat) :
  length events < n -> match r with Some owed => (0 < owed)%N | None => True end ->
  honest r (whole_body events) (body_items n (mkStreamedBody (Some events) r None)).
Proof.
  revert r n. induction events as [|[chunk|entry|meta|err|meta|b meta|msg] events IH]; intros r n Hn Hr;
    (destruct n as [|n]; [simpl in Hn; lia|]); cbn [length] in Hn;
    try (cbn [body_items poll_next sb_output sb_remaining sb_held poll_events whole_body]; rewrite ended_items; by apply honest_cut).
  - destruct r as [owed|].
    + destruct (is_empty chunk) eqn:Ee.
      { destruct chunk; [|done]. assert (Hs : forall o, option_map (String.append "") o = o) by by intros [].
        cbn [whole_body]. rewrite Hs. exact (IH (Some owed) (S n) ltac:(lia) Hr). }
      cbn [body_items poll_next sb_output sb_remaining sb_held poll_events whole_body]. rewrite Ee.
      destruct (N.ltb_spec owed (byte_count chunk)) as [Hlt|Hge].
      { rewrite ended_items. apply honest_cut; [done|]. destruct (whole_body events) as [b|]; simpl; [|done].
        rewrite byte_count_app. lia. }
      destruct (N.eqb_spec owed (byte_count chunk)) as [->|Hne].
      { destruct (held_items events chunk (S n) ltac:(lia)) as [H1 H2].
        cbn [body_items poll_next sb_output sb_remaining sb_held] in H1, H2.
        destruct (decide (whole_body events = Some "")) as [Hw|Hw].
        - rewrite (H1 Hw), Hw. cbn [option_map]. rewrite str_app_nil_r. split.
          + rewrite N.eqb_refl. split; [by repeat constructor | simpl; apply str_app_nil_r].
          + intros Hc. exfalso. apply (clean_not_cut [Ok chunk]); [by repeat constructor | done].
        - destruct (H2 Hw) as (e & ->). apply honest_cut; [done|].
          destruct (whole_body events) as [b|]; simpl; [|done]. rewrite byte_count_app.
          destruct b; [done|]. unfold byte_count at 2. simpl. lia. }
      apply honest_ok; [lia|]. simpl. apply IH; [lia|lia].
    + cbn [body_items poll_next sb_output sb_remaining sb_held poll_events whole_body].
      apply honest_ok; [done|]. apply (IH None); [lia | done].
  - exact (IH r (S n) ltac:(lia) Hr).
  - cbn [body_items poll_next sb_output sb_remaining sb_held poll_events whole_body].
    destruct r as [owed|].
    + rewrite (proj2 (N.ltb_lt _ _) Hr), ended_items. apply honest_cut; [done|]. unfold byte_count. simpl. lia.
    + split; [by repeat constructor|]. intros Hc. by apply clean_not_cut in Hc; [|constructor].
Qed.

(** ** Opening *)

Lemma stream_of_peek (o : OutputStream) : stream_events (peek o).2 = stream_events o.
Proof. pose proof (peek_events o) as H. destruct (peek o). tauto. Qed.

Lemma stream_of_advance (n : nat) (o : OutputStream) : stream_events (advance n o) = skipn n (stream_events o).
Proof. unfold stream_events, advance. simpl. by rewrite skipn_app. Qed.

Lemma stream_of_prepend (events : list StreamEvent) (o : OutputStream) :
  stream_events (prepend events o) = events ++ stream_events o.
Proof. unfold stream_events, prepend. simpl. by rewrite app_assoc. Qed.

(** What is left of a stream checked under a declared zero. *)
Lemma check_zero_spec (events : list StreamEvent) :
  let '(found, skipped, n) := check_zero events in
  let left_ := skipped ++ skipn n events in
  whole_body left_ = whole_body events /\ length left_ <= length events /\
  (forall body meta, collect_events left_ body meta true = collect_events events body meta true) /\
  (found = Fits -> forall m, body_items m (mkStreamedBody (Some left_) (Some 0%N) None) = [] /\ whole_body events = Some "").
Proof.
  induction events as [|[chunk|entry|meta|err|meta|b meta|msg] events IH]; simpl; try (split_and!; done).
  - destruct chunk as [|c chunk]; simpl; [|split_and!; done].
    destruct (check_zero events) as [[found skipped] n]. destruct IH as (H1 & H2 & H3 & H4).
    cbn [skipn]. split_and!; [|lia| |].
    + rewrite H1. by destruct (whole_body events).
    + intros body meta. by rewrite H3, str_app_nil_r.
    + intros Hf m. destruct (H4 Hf m) as [Hi ->]. done.
  - destruct (check_zero events) as [[found skipped] n]. destruct IH as (H1 & H2 & H3 & H4).
    cbn [skipn app whole_body length collect_events]. split_and!; [done | lia | auto |].
    intros Hf m. destruct (H4 Hf m) as [Hi Hw]. split; [|done]. destruct m; [done|]. exact Hi.
  - split_and!; [done | lia | done |]. intros _ [|m]; done.
Qed.

Lemma whole_body_metas (meta : list MetaEntry) (events : list StreamEvent) :
  whole_body (map EvMeta meta ++ events) = whole_body events.
Proof. by induction meta. Qed.

(** The body a buffered rendering would have. *)
Definition collected_body (o : OutputStream) : option string :=
  match collect_buffered o with Ok buf => Some (br_body buf) | Err _ => None end.

Lemma collect_whole (events : list StreamEvent) (body : string) (meta : list MetaEntry) (any : bool) :
  match collect_events events body meta any with Ok buf => Some (br_body buf) | Err _ => None end
  = option_map (String.append body) (whole_body events).
Proof.
  revert body meta any. induction events as [|[chunk|entry|m|err|m|b m|msg] events IH]; intros body meta any; simpl; try done.
  - rewrite IH. destruct (whole_body events); simpl; [|done]. by rewrite str_app_assoc.
  - by rewrite str_app_nil_r.
  - by destruct any.
Qed.

Lemma collected_whole (o : OutputStream) : collected_body o = whole_body (stream_events o).
Proof. unfold collected_body, collect_buffered. rewrite collect_whole. by destruct (whole_body _). Qed.

(** What a check of the declared length leaves of the stream. *)
Lemma checked_stream (o : OutputStream) (declared : N) :
  let '(found, o') := check_declared_length o declared in
  found = Fits ->
  whole_body (stream_events o') = whole_body (stream_events o) /\ length (stream_events o') <= length (stream_events o) /\
  (declared = 0%N -> forall n,
     body_items n (mkStreamedBody (Some (stream_events o')) (Some 0%N) None) = [] /\ whole_body (stream_events o) = Some "").
Proof.
  unfold check_declared_length. destruct (N.ltb_spec 0 declared) as [Hd|Hd].
  - pose proof (stream_of_peek o) as Hp. destruct (peek o) as [next o2]. cbn [snd] in Hp.
    assert (Hf : whole_body (stream_events o2) = whole_body (stream_events o) /\ length (stream_events o2) <= length (stream_events o) /\
                 (declared = 0%N -> forall n,
                    body_items n (mkStreamedBody (Some (stream_events o2)) (Some 0%N) None) = [] /\ whole_body (stream_events o) = Some "")).
    { rewrite Hp. split_and!; [done.. | lia]. }
    destruct next as [[first| | | | | |]|]; try done. by destruct (declared <? byte_count first)%N.
  - pose proof (check_zero_spec (stream_events o)) as Hz.
    destruct (check_zero (stream_events o)) as [[found skipped] n]. destruct Hz as (H1 & H2 & _ & H4). intros Hf.
    rewrite stream_of_prepend, stream_of_peek, stream_of_advance. split_and!; [done.. | by intros _ m; apply H4].
Qed.

(** What opening as a stream says of the answer's events. *)
Lemma opened_streamed (o : OutputStream) (r : StreamedHttpResponse) :
  open_response o = Streamed r ->
  exists events,
    sr_body r = mkStreamedBody (Some events) (sr_content_length r) None /\
    whole_body events = whole_body (stream_events o) /\ length events <= length (stream_events o) /\
    declares_streaming (take_leading_meta o).1 = true /\ response_sendable (sr_status r) (sr_headers r) /\
    (sr_content_length r = Some 0%N ->
     forall n, body_items n (sr_body r) = [] /\ whole_body (stream_events o) = Some "").
Proof.
  unfold open_response. pose proof (take_leading_meta_events o) as Hm. destruct (take_leading_meta o) as [meta o1].
  destruct (declares_streaming meta) eqn:Ed; [|done]. cbn [negb].
  pose proof (stream_of_peek o1) as Hp. destruct (peek o1) as [next o2]. cbn [snd] in Hp.
  assert (Hw : whole_body (stream_events o) = whole_body (stream_events o2)) by by rewrite Hm, whole_body_metas, Hp.
  assert (Hl : length (stream_events o2) <= length (stream_events o)) by (rewrite Hm, Hp, length_app; lia).
  destruct next as [[chunk| | | | | |]|]; try done.
  destruct (headers_from_meta meta) as [hs|] eqn:Eh; cbn -[stream_events check_declared_length]; [|done].
  assert (Hs : response_sendable (resolve_status meta 200) (default_content_type DEFAULT_STREAMED_CONTENT_TYPE hs)).
  { split; [apply resolve_status_range; lia|]. apply default_content_type_sendable; [by eapply headers_from_meta_sendable | done]. }
  destruct (content_length meta) as [[declared|]|]; cbn -[stream_events check_declared_length]; [| |done].
  - pose proof (checked_stream o2 declared) as Hc. destruct (check_declared_length o2 declared) as [[| |] o3]; try done.
    destruct (Hc eq_refl) as (H1 & H2 & H3). intros [= <-]. exists (stream_events o3). cbn -[stream_events].
    split_and!; try done; [congruence | lia |]. rewrite Hw. intros [= ->]. by apply H3.
  - intros [= <-]. exists (stream_events o2). cbn -[stream_events]. by split_and!.
Qed.

(** C11: A streamed body is served as whole only when it is: read to its end, it
    gives exactly the body a buffered rendering would have, and that body has
    the declared length; otherwise its last item is an error, and the bytes
    before it stay below the declared length, so that a transport that stops
    reading once it has them never takes a cut body for a whole one. The head
    it is served under can be sent. *)
Theorem streamed_body_honest (o : OutputStream) (r : StreamedHttpResponse) (n : nat) :
  open_response o = Streamed r -> length (stream_events o) < n ->
  honest (sr_content_length r) (collected_body o) (body_items n (sr_body r)) /\
  declares_streaming (take_leading_meta o).1 = true /\ response_sendable (sr_status r) (sr_headers r).
Proof.
  intros Ho Hn. destruct (opened_streamed o r Ho) as (events & Hb & Hw & Hl & Hd & Hs & Hz). split; [|done].
  rewrite collected_whole. destruct (decide (sr_content_length r = Some 0%N)) as [E|E].
  - destruct (Hz E n) as [-> ->]. rewrite E. split; [split; [constructor | done]|].
    intros Hc. exfalso. by eapply clean_not_cut; [constructor | exact Hc].
  - rewrite Hb, <- Hw. apply body_honest; [lia|]. destruct (sr_content_length r) as [[|p]|]; [done | lia | done].
Qed.

(** ** Served buffered *)

Section Buffered.
  Context `{JsonCrate}.

Definition headers_only (meta : list MetaEntry) : Prop :=
  Forall (fun e => exists name value, classify_response_meta e = Ok (Some (Header name value))) meta.

Lemma headers_only_classified (meta : list MetaEntry) (hs : list HeaderPair) :
  headers_only meta ->
  exists parts, classified meta = Ok parts /\ fold_left put_part (map snd parts) hs = fold_left put_kept meta hs.
Proof.
  intros Hm. revert hs. induction Hm as [|e meta (name & value & He) Hm IH]; intros hs; simpl; [by exists []|].
  rewrite He. destruct (IH (put_header hs name value)) as (parts & -> & Hp). simpl.
  exists ((e, Header name value) :: parts). split; [done|]. simpl. unfold put_kept at 2. by rewrite He.
Qed.

Lemma headers_only_get (meta : list MetaEntry) (key : string) :
  headers_only meta -> (forall v name value, classify_response_meta (mkMeta key v) <> Ok (Some (Header name value))) ->
  meta_get meta key = None.
Proof.
  intros Hm Hk. unfold meta_get. induction Hm as [|e meta (name & value & He) Hm IH]; simpl; [done|].
  destruct (me_key e =s key) eqn:E; [|done]. apply eqs_true in E. destruct e as [k v]. simpl in E. subst k. by destruct (Hk v name value).
Qed.

Lemma no_content_type_filtered (hs : list HeaderPair) :
  existsb is_content_type_pair hs = false -> List.filter (fun h => negb (is_content_type_pair h)) hs = hs.
Proof.
  induction hs as [|h hs IH]; simpl; [done|]. intros [Hh Hhs]%orb_false_iff. rewrite Hh. simpl. by rewrite IH.
Qed.

(** The error stream that stands for an unsendable answer renders as one. *)
Lemma unsendable_stream_renders (meta : list MetaEntry) :
  collect_http_response (unsendable_stream meta) = unsendable_response meta.
Proof.
  unfold collect_http_response, unsendable_stream, collect_buffered. cbn [stream_events output_error from_events prelude produced app collect_events].
  cbn [terminal_to_http_response]. unfold error_to_http_response, unsendable_response. cbn [we_meta].
  pose proof (replacement_headers meta) as Hm. set (kept := unsendable_response_meta meta) in *.
  destruct (headers_only_classified kept [] Hm) as (parts & Hc & Hf).
  unfold non_content_type_headers_from_meta, headers_from_meta, response_meta_parts. rewrite Hc. cbn [result_bind]. rewrite Hf.
  rewrite no_content_type_filtered by (apply no_value_no_pair, fold_kept_special; [by left | done]).
  unfold resolve_error_status, resolve_status, error_body, detail_code. cbn [we_meta we_code we_message].
  rewrite (headers_only_get kept META_ERROR_CODE) by done. rewrite (headers_only_get kept META_RESP_STATUS); [done..|].
  intros v name value. unfold classify_response_meta. cbn [me_key me_value]. rewrite eqs_refl.
  destruct (parse_u16 v) as [code|]; [|done]. by destruct (_ && _).
Qed.

(** All the bytes before the terminal. *)
Fixpoint chunk_bytes (events : list StreamEvent) : string :=
  match events with
  | Chunk bytes :: events => bytes +:+ chunk_bytes events
  | EvMeta _ :: events => chunk_bytes events
  | _ => ""
  end.

Lemma chunk_bytes_metas (meta : list MetaEntry) (events : list StreamEvent) :
  chunk_bytes (map EvMeta meta ++ events) = chunk_bytes events.
Proof. by induction meta. Qed.

Lemma check_zero_exceeds (events : list StreamEvent) (i : InvalidResponseMeta) :
  (check_zero events).1.1 = Exceeded i -> (0 < byte_count (chunk_bytes events))%N.
Proof.
  induction events as [|[chunk|entry|meta|err|meta|b meta|msg] events IH]; simpl; try done.
  - destruct chunk as [|c chunk]; simpl; [|unfold byte_count; simpl; lia].
    by destruct (check_zero events) as [[found skipped] n].
  - by destruct (check_zero events) as [[found skipped] n].
Qed.

Lemma collect_metas (meta : list MetaEntry) (events : list StreamEvent) (body : string) (got : list MetaEntry) (any : bool) :
  collect_events (map EvMeta meta ++ events) body got any
  = collect_events events body (got ++ meta) (any || negb (bool_decide (length meta = 0))).
Proof.
  revert got any. induction meta as [|e meta IH]; intros got any; simpl.
  - by rewrite app_nil_r, orb_false_r.
  - rewrite IH, <- app_assoc. simpl. f_equal. by destruct any.
Qed.

(** What the check of a declared length finds, and how the stream collects
    after it. *)
Lemma checked_collects (o : OutputStream) (declared : N) (body : string) (got : list MetaEntry) :
  let '(found, o') := check_declared_length o declared in
  collect_events (stream_events o') body got true = collect_events (stream_events o) body got true /\
  (forall i, found = Exceeded i -> (exists bytes rest, stream_events o = Chunk bytes :: rest) ->
     (declared < byte_count (chunk_bytes (stream_events o)))%N).
Proof.
  unfold check_declared_length. destruct (N.ltb_spec 0 declared) as [Hd|Hd].
  - pose proof (peek_events o) as Hp. destruct (peek o) as [next o2]. destruct Hp as [Hp Hn].
    destruct next as [[first| | | | | |]|]; try (by rewrite Hp).
    destruct (N.ltb_spec declared (byte_count first)); rewrite Hp; [|done]. split; [done|].
    intros i _ (bytes & rest & E). rewrite E in *. injection Hn as <-. simpl. rewrite byte_count_app. lia.
  - assert (declared = 0%N) as -> by lia. pose proof (check_zero_spec (stream_events o)) as Hz.
    pose proof (check_zero_exceeds (stream_events o)) as Hx.
    destruct (check_zero (stream_events o)) as [[found skipped] n]. destruct Hz as (_ & _ & H3 & _).
    rewrite stream_of_prepend, stream_of_peek, stream_of_advance. split; [apply H3|]. intros i -> _. by eapply Hx.
Qed.

(** A response served buffered is the one the block answered, except when it
    declared a stream whose head cannot be sent, whose length is no number, or
    whose body is longer than declared: then it is the failed-closed answer to
    its leading metadata. *)
Theorem open_response_transparent (o o' : OutputStream) :
  open_response o = Buffered o' ->
  let meta := (take_leading_meta o).1 in
  collect_http_response o' = collect_http_response o \/
  (declares_streaming meta = true /\ collect_http_response o' = unsendable_response meta /\
   ((exists e, headers_from_meta meta = Err e) \/ (exists e, content_length meta = Err e) \/
    (exists declared, content_length meta = Ok (Some declared) /\
       (declared < byte_count (chunk_bytes (stream_events o)))%N))).
Proof.
  unfold open_response. pose proof (take_leading_meta_events o) as Hm. destruct (take_leading_meta o) as [meta o1].
  cbn [fst]. assert (Hback : forall o2, stream_events o2 = stream_events o1 ->
                       collect_http_response (prepend (map EvMeta meta) o2) = collect_http_response o).
  { intros o2 H2. unfold collect_http_response, collect_buffered. by rewrite stream_of_prepend, H2, <- Hm. }
  destruct (declares_streaming meta) eqn:Ed; [|intros [= <-]; left; by apply Hback]. cbn [negb].
  pose proof (peek_events o1) as Hp. destruct (peek o1) as [next o2]. destruct Hp as [Hp Hn].
  destruct next as [[chunk| | | | | |]|]; try (intros [= <-]; left; by apply Hback).
  destruct (headers_from_meta meta) as [hs|e] eqn:Eh; cbn -[stream_events check_declared_length].
  2: { intros [= <-]. right. rewrite unsendable_stream_renders. split_and!; [done.. | by left; eexists]. }
  destruct (content_length meta) as [[declared|]|e] eqn:Ec; cbn -[stream_events check_declared_length]; [|done|].
  2: { intros [= <-]. right. rewrite unsendable_stream_renders. split_and!; [done.. | right; left; by eexists]. }
  pose proof (checked_collects o2 declared "" meta) as Hc. destruct (check_declared_length o2 declared) as [found o3].
  destruct Hc as [Hc Hx]. destruct found as [|i|]; [done | |].
  - intros [= <-]. right. rewrite unsendable_stream_renders. split_and!; [done.. | right; right].
    exists declared. split; [done|]. rewrite Hm, chunk_bytes_metas, <- Hp. apply (Hx i); [done|].
    rewrite Hp. destruct (stream_events o1) as [|ev evs]; [done|]. injection Hn as <-. by eexists _, _.
  - intros [= <-]. left. unfold collect_http_response, collect_buffered.
    rewrite stream_of_prepend, Hm, !collect_metas. cbn [app orb]. destruct meta as [|e meta]; [done|].
    cbn [length bool_decide]. rewrite <- Hp. f_equal. exact Hc.
Qed.
End Buffered.

(** ** On concrete streams *)

Definition sized (length : string) (events : list StreamEvent) : OutputStream :=
  from_events (EvMeta (mkMeta META_RESP_STREAM "1") :: EvMeta (mkMeta META_RESP_CONTENT_LENGTH length) :: events).

(** A body of the declared length, and one that overruns it after meeting it. *)
Lemma streamed_body_honest_witness :
  let o := sized "3" [Chunk "ab"; Chunk "c"; Chunk "d"; Complete []] in
  exists r, open_response o = Streamed r /\
    honest (sr_content_length r) (collected_body o) (body_items 10 (sr_body r)) /\
    body_items 10 (sr_body r) = [Ok "ab"; Err overrun_error].
Proof.
  eexists. split; [reflexivity|]. split; [|reflexivity].
  refine (proj1 (streamed_body_honest (sized "3" [Chunk "ab"; Chunk "c"; Chunk "d"; Complete []]) _ 10 eq_refl _)).
  simpl; lia.
Defined.

#[local] Instance plain_json : JsonCrate := {| from_json _ := None; to_json _ := Ok ""; display_json _ := "{}" |}.

Lemma open_response_transparent_witness :
  let o := sized "0" [Chunk ""; EvHalt "whole" []] in
  exists o', open_response o = Buffered o' /\
    (collect_http_response o' = collect_http_response o \/
     (declares_streaming (take_leading_meta o).1 = true /\
      collect_http_response o' = unsendable_response (take_leading_meta o).1 /\
      ((exists e, headers_from_meta (take_leading_meta o).1 = Err e) \/
       (exists e, content_length (take_leading_meta o).1 = Err e) \/
       (exists declared, content_length (take_leading_meta o).1 = Ok (Some declared) /\
          (declared < byte_count (chunk_bytes (stream_events o)))%N)))).
Proof.
  eexists. split; [reflexivity|].
  exact (open_response_transparent (sized "0" [Chunk ""; EvHalt "whole" []]) _ eq_refl).
Defined.

Definition middleware_and_broken : result BufferedResponse TerminalNotResponse :=
  Ok (mkBuffered "body" [mkMeta "resp.header.X-Frame-Options" "DENY"; mkMeta "resp.status" "99"]).

Lemma unsendable_fails_closed_witness :
  let parts := terminal_to_http_response middleware_and_broken in
  hp_status parts = 500%N /\ header_value (hp_headers parts) "x-frame-options" = Some "DENY".
Proof.
  destruct (unsendable_fails_closed middleware_and_broken _ eq_refl) as (Hs & _ & _ & _ & _ & _ & Hv).
  split; [exact Hs | exact (Hv "x-frame-options" eq_refl)].
Defined.
