(* ===== verification/StreamChannel.v ===== *)
(** The producing end of an output stream ([wafer-block/src/streams/output.rs]):
    the sink, its bounded channel with the slot kept for the terminal, and the
    consumer that may leave at any time.

    Sends interleave freely: [send_chunk] and [send_meta] borrow the sink, so
    any number may wait at once and each may be given up; a terminal consumes
    the sink, so none waits then. The channel is [tokio]'s: it holds its
    capacity of events, a reserved slot counts as taken, and what is sent to a
    consumer that left is discarded. *)

From stdpp Require Import relations.
From S2P Require Import Prelude CoreTypes Streams.

Inductive SinkSendError := Closed | BodyAlreadySent (terminal : string).

Definition is_terminal (e : StreamEvent) : bool :=
  match e with Chunk _ | EvMeta _ => false | _ => true end.

(** ** The sink *)

Record OutputSink := mkSink {
  terminal_permit : bool;
  any_body_sent : bool;
  sends : list StreamEvent
}.

(** A stream in use; [received] is what its consumer has read, and [asked] the
    terminal the producer got accepted. *)
Record Channel := mkChannel {
  slots : nat;
  queue : list StreamEvent;
  received : list StreamEvent;
  receiver_open : bool;
  cancelled : bool;
  sink : option OutputSink;
  asked : option StreamEvent
}.

(** [new_streaming_channel]. *)
Definition new_streaming_channel (capacity : nat) : Channel :=
  mkChannel (capacity + 1) [] [] true false (Some (mkSink true false [])) None.

(** [new_streaming]. *)
Definition new_streaming : Channel := new_streaming_channel 16.

Definition reserved_slots (ch : Channel) : nat :=
  match sink ch with Some s => if terminal_permit s then 1 else 0 | None => 0 end.

(** Room for one more body event. *)
Definition has_room (ch : Channel) : bool := (length (queue ch) + reserved_slots ch <? slots ch)%nat.

Definition with_sink (ch : Channel) (s : option OutputSink) : Channel :=
  mkChannel (slots ch) (queue ch) (received ch) (receiver_open ch) (cancelled ch) s (asked ch).

(** An event sent through a slot: discarded when the consumer left. *)
Definition deliver (ch : Channel) (event : StreamEvent) : Channel :=
  mkChannel (slots ch) (if receiver_open ch then queue ch ++ [event] else queue ch) (received ch) (receiver_open ch)
    (cancelled ch) (sink ch) (asked ch).

Definition accepted (ch : Channel) (event : StreamEvent) : Channel :=
  mkChannel (slots ch) (queue ch) (received ch) (receiver_open ch) (cancelled ch) (sink ch) (Some event).

(** [OutputSink::send_terminal]. *)
Definition send_terminal (ch : Channel) (s : OutputSink) (event : StreamEvent) : Channel * result unit SinkSendError :=
  (accepted (deliver (with_sink ch (Some (mkSink false (any_body_sent s) (sends s)))) event) event,
   if receiver_open ch then Ok tt else Err Closed).

Definition dropped_error (panicking : bool) : StreamEvent :=
  EvError (error_new ErrorCode.Internal
    ("output stream ended without a terminal event: "
     +:+ (if panicking then "the producer panicked" else "the producer was cancelled or returned without a terminal"))).

(** [OutputSink::drop]. *)
Definition sink_drop (ch : Channel) (panicking : bool) : Channel :=
  match sink ch with
  | None => ch
  | Some s =>
      if terminal_permit s
      then with_sink (deliver (with_sink ch (Some (mkSink false (any_body_sent s) (sends s)))) (dropped_error panicking)) None
      else with_sink ch None
  end.

(** The terminal methods; each consumes the sink, so it is dropped after. *)
Inductive TerminalCall :=
| CallComplete (meta : list MetaEntry)
| CallError (err : WaferError)
| CallDropRequest (meta : list MetaEntry)
| CallContinue (msg : Message)
| CallHalt (body : string) (meta : list MetaEntry).

(** [complete], [error], [drop_request_with_meta], [continue_with], [halt]. *)
Definition terminal_body (ch : Channel) (s : OutputSink) (c : TerminalCall) : Channel * result unit SinkSendError :=
  match c with
  | CallComplete meta => send_terminal ch s (Complete meta)
  | CallError err => send_terminal ch s (EvError err)
  | CallDropRequest meta => if any_body_sent s then (ch, Err (BodyAlreadySent "Drop")) else send_terminal ch s (EvDrop meta)
  | CallContinue msg => if any_body_sent s then (ch, Err (BodyAlreadySent "Continue")) else send_terminal ch s (EvContinue msg)
  | CallHalt body meta => if any_body_sent s then (ch, Err (BodyAlreadySent "Halt")) else send_terminal ch s (EvHalt body meta)
  end.

Definition call_terminal (ch : Channel) (s : OutputSink) (c : TerminalCall) : Channel * result unit SinkSendError :=
  let '(ch, r) := terminal_body ch s c in (sink_drop ch false, r).

(** ** Steps *)

Definition start_send (ch : Channel) (s : OutputSink) (e : StreamEvent) : Channel :=
  with_sink ch (Some (mkSink (terminal_permit s) true (sends s ++ [e]))).

Definition end_send (ch : Channel) (s : OutputSink) (rest : list StreamEvent) : Channel :=
  with_sink ch (Some (mkSink (terminal_permit s) (any_body_sent s) rest)).

Inductive channel_step : Channel -> Channel -> Prop :=
| step_send ch s e :
    sink ch = Some s -> is_terminal e = false -> channel_step ch (start_send ch s e)
| step_sent ch s l1 e l2 :
    sink ch = Some s -> sends s = l1 ++ e :: l2 -> receiver_open ch = true -> has_room ch = true ->
    channel_step ch (deliver (end_send ch s (l1 ++ l2)) e)
| step_send_failed ch s l1 e l2 :
    sink ch = Some s -> sends s = l1 ++ e :: l2 -> receiver_open ch = false ->
    channel_step ch (end_send ch s (l1 ++ l2))
| step_send_dropped ch s l1 e l2 :
    sink ch = Some s -> sends s = l1 ++ e :: l2 -> channel_step ch (end_send ch s (l1 ++ l2))
| step_terminal ch s c :
    sink ch = Some s -> sends s = [] -> channel_step ch (call_terminal ch s c).1
| step_sink_dropped ch s panicking :
    sink ch = Some s -> sends s = [] -> channel_step ch (sink_drop ch panicking)
| step_receive ch e q :
    receiver_open ch = true -> queue ch = e :: q ->
    channel_step ch (mkChannel (slots ch) q (received ch ++ [e]) true (cancelled ch) (sink ch) (asked ch))
| step_consumer_left ch :
    channel_step ch (mkChannel (slots ch) [] (received ch) false true (sink ch) (asked ch)).

Definition channel_reachable (capacity : nat) : Channel -> Prop := rtc channel_step (new_streaming_channel capacity).

(** ** Consumers *)

(** [body_stream_or_error], polled to its end: its items. *)
Fixpoint body_stream (events : list StreamEvent) (any_body_event : bool) : list (result string WaferError) :=
  match events with
  | [] => [Err (error_new ErrorCode.Internal "stream ended without terminal event (protocol violation)")]
  | Chunk bytes :: events => Ok bytes :: body_stream events true
  | EvMeta _ :: events => body_stream events true
  | EvError e :: _ => [Err e]
  | EvHalt body _ :: _ =>
      if any_body_event then [Err halt_after_body_error]
      else if is_empty body then [] else [Ok body]
  | _ => []
  end.
Definition body_stream_or_error (o : OutputStream) : list (result string WaferError) := body_stream (stream_events o) false.

(** [from_result]. *)
Definition from_result (r : result string WaferError) : OutputStream :=
  match r with Ok bytes => from_events [Chunk bytes; Complete []] | Err e => output_error e end.

(** [InputStream::poll_next], polled to its end: what follows an error is
    never read. *)
Fixpoint input_items (items : list (result string WaferError)) : list (result string WaferError) :=
  match items with
  | [] => []
  | Ok chunk :: items => Ok chunk :: input_items items
  | Err e :: _ => [Err e]
  end.

(** [InputStream::collect_to_bytes]. *)
Fixpoint collect_to_bytes (items : list (result string WaferError)) : result string WaferError :=
  match items with
  | [] => Ok ""
  | Ok chunk :: items => let? rest := collect_to_bytes items in Ok (chunk +:+ rest)
  | Err e :: _ => Err e
  end.

(** ** The invariant *)

(** A terminal that may follow the body events before it. *)
Definition may_follow (body : list StreamEvent) (t : StreamEvent) : Prop :=
  match t with
  | Complete _ | EvError _ => True
  | EvDrop _ | EvContinue _ | EvHalt _ _ => body = []
  | _ => False
  end.

Definition body_events (l : list StreamEvent) : Prop := Forall (fun e => is_terminal e = false) l.

(** What a terminal is: the one the producer asked for, or the error of a sink
    let go without one. *)
Definition ends_with (ch : Channel) (t : StreamEvent) : Prop :=
  asked ch = Some t \/ (asked ch = None /\ exists panicking, t = dropped_error panicking).

Definition channel_inv (ch : Channel) : Prop :=
  length (queue ch) + reserved_slots ch <= slots ch /\
  match sink ch with
  | Some s =>
      terminal_permit s = true /\ asked ch = None /\ body_events (sends s) /\ body_events (received ch ++ queue ch) /\
      (any_body_sent s = false -> sends s = [] /\ received ch ++ queue ch = [])
  | None =>
      if receiver_open ch
      then exists body t, received ch ++ queue ch = body ++ [t] /\ body_events body /\ may_follow body t /\ ends_with ch t
      else queue ch = [] /\
           (body_events (received ch) \/
            exists body t, received ch = body ++ [t] /\ body_events body /\ may_follow body t /\ ends_with ch t)
  end /\
  (receiver_open ch = false -> queue ch = []).

Lemma channel_inv_new (capacity : nat) : channel_inv (new_streaming_channel capacity).
Proof. unfold channel_inv, reserved_slots, body_events; simpl. split_and!; try done; lia. Qed.

Lemma body_app (l1 l2 : list StreamEvent) : body_events (l1 ++ l2) <-> body_events l1 /\ body_events l2.
Proof. apply Forall_app. Qed.

Lemma body_remove (l1 l2 : list StreamEvent) (e : StreamEvent) :
  body_events (l1 ++ e :: l2) -> is_terminal e = false /\ body_events (l1 ++ l2).
Proof. rewrite !body_app. intros [H1 H2]. inversion H2; subst. by repeat split. Qed.

(** A terminal sent while a sink is held ends the stream well. *)
Lemma inv_terminal (ch : Channel) (s : OutputSink) (t : StreamEvent) (asking : option StreamEvent) :
  channel_inv ch -> sink ch = Some s -> may_follow (received ch ++ queue ch) t ->
  (asking = Some t \/ (asking = None /\ exists panicking, t = dropped_error panicking)) ->
  channel_inv (mkChannel (slots ch) (if receiver_open ch then queue ch ++ [t] else queue ch) (received ch)
                 (receiver_open ch) (cancelled ch) None asking).
Proof.
  intros (Hlen & Hs & Hq) Es Ht Ha. unfold reserved_slots in Hlen. rewrite Es in *. destruct Hs as (Hp & _ & _ & Hb & _).
  rewrite Hp in Hlen. unfold channel_inv, reserved_slots; simpl. destruct (receiver_open ch) eqn:Er; simpl; split_and!; try done.
  - rewrite length_app; simpl; lia.
  - exists (received ch ++ queue ch), t. rewrite app_assoc. done.
  - lia.
  - by apply Hq.
  - left. rewrite (Hq eq_refl), app_nil_r in Hb. done.
Qed.

(** Dropping the sink after its terminal only lets it go. *)
Lemma call_terminal_shape (ch : Channel) (s : OutputSink) (c : TerminalCall) :
  sink ch = Some s -> terminal_permit s = true ->
  exists t asking,
    (call_terminal ch s c).1
    = mkChannel (slots ch) (if receiver_open ch then queue ch ++ [t] else queue ch) (received ch) (receiver_open ch)
        (cancelled ch) None asking /\
    (asking = Some t /\ (any_body_sent s = true -> may_follow [Chunk ""] t) /\ is_terminal t = true
     \/ asking = asked ch /\ t = dropped_error false).
Proof.
  intros Es Hp. unfold call_terminal. destruct c; simpl; unfold sink_drop;
    try (destruct (any_body_sent s) eqn:Eb; simpl); rewrite ?Es, ?Hp; simpl;
    by eexists _, _; split; [reflexivity | first [left; done | right; done]].
Qed.

Lemma drop_shape (ch : Channel) (s : OutputSink) (panicking : bool) :
  sink ch = Some s -> terminal_permit s = true ->
  sink_drop ch panicking
  = mkChannel (slots ch) (if receiver_open ch then queue ch ++ [dropped_error panicking] else queue ch) (received ch)
      (receiver_open ch) (cancelled ch) None (asked ch).
Proof. intros Es Hp. unfold sink_drop. rewrite Es, Hp. reflexivity. Qed.

Lemma inv_end_send (ch : Channel) (s : OutputSink) (l1 l2 : list StreamEvent) (e : StreamEvent) :
  channel_inv ch -> sink ch = Some s -> sends s = l1 ++ e :: l2 -> channel_inv (end_send ch s (l1 ++ l2)).
Proof.
  intros (Hlen & Hs & Hq) Es El. unfold reserved_slots in Hlen. rewrite Es in *. destruct Hs as (Hp & Ha & Hb & Hr & Hn).
  unfold channel_inv, end_send, with_sink, reserved_slots; cbn. split_and!; try done.
  - rewrite El in Hb. by apply body_remove in Hb as [_ Hb].
  - intros Hf. destruct (Hn Hf) as [Hs _]. rewrite Hs in El. by destruct l1.
Qed.

Lemma inv_step (ch ch' : Channel) : channel_inv ch -> channel_step ch ch' -> channel_inv ch'.
Proof.
  intros Hinv Hstep. pose proof Hinv as (Hlen & Hs & Hq). destruct Hstep as
    [ch s e Es He | ch s l1 e l2 Es El Eo Hroom | ch s l1 e l2 Es El Eo | ch s l1 e l2 Es El | ch s c Es El
    | ch s panicking Es El | ch e q Eo Eq | ch].
  - unfold reserved_slots in Hlen. rewrite Es in *. destruct Hs as (Hp & Ha & Hb & Hr & Hn).
    unfold channel_inv, start_send, with_sink, reserved_slots; cbn. split_and!; try done.
    rewrite body_app. split; [done | by apply Forall_singleton].
  - pose proof (inv_end_send ch s l1 l2 e Hinv Es El) as (_ & Hs' & _). simpl in Hs'.
    destruct Hs' as (Hp & Ha & Hb & Hr & _). rewrite Es, El in Hs. destruct Hs as (_ & _ & Hse & _ & Hn).
    apply body_remove in Hse as [He _]. unfold has_room, reserved_slots in Hroom. rewrite Es, Hp in Hroom. apply Nat.ltb_lt in Hroom.
    unfold channel_inv, deliver, end_send, with_sink, reserved_slots; cbn. rewrite Eo, Hp. split_and!; try done.
    + rewrite length_app; simpl; lia.
    + rewrite app_assoc, body_app. split; [done | by apply Forall_singleton].
    + intros Hf. destruct (Hn Hf) as [Hx _]. by destruct l1.
  - by eapply inv_end_send.
  - by eapply inv_end_send.
  - rewrite Es in Hs. destruct Hs as (Hp & Ha & _ & Hb & Hn).
    destruct (call_terminal_shape ch s c Es Hp) as (t & asking & -> & Ht). apply (inv_terminal ch s t asking Hinv Es).
    + destruct Ht as [(_ & Hm & Ht) | [_ ->]]; [|done].
      destruct (any_body_sent s) eqn:Eb; [by specialize (Hm eq_refl); destruct t|].
      destruct (Hn eq_refl) as [_ ->]. by destruct t.
    + destruct Ht as [(-> & _) | [-> ->]]; [by left | right]. split; [done | by eexists].
  - rewrite Es in Hs. destruct Hs as (Hp & Ha & _). rewrite (drop_shape ch s panicking Es Hp).
    apply (inv_terminal ch s _ _ Hinv Es); [done|]. right. split; [done | by eexists].
  - assert (E : (received ch ++ [e]) ++ q = received ch ++ queue ch) by by rewrite Eq, <- app_assoc.
    unfold channel_inv, reserved_slots in *; cbn. rewrite Eo in Hs. split_and!; [rewrite Eq in Hlen; simpl in Hlen; lia | | done].
    destruct (sink ch) as [s|]; rewrite E; [exact Hs | exact Hs].
  - unfold channel_inv, reserved_slots in *; cbn. split_and!; [lia | | done].
    destruct (sink ch) as [s|].
    + rewrite app_nil_r. destruct Hs as (Hp & Ha & Hb & Hr & Hn). apply body_app in Hr as [Hr _]. split_and!; try done; intros Hf.
      destruct (Hn Hf) as [Hs Hx]. split; [done|]. by apply app_eq_nil in Hx as [-> _].
    + split; [done|]. destruct (receiver_open ch); [|by destruct Hs].
      destruct Hs as (body & t & E & Hb & Hm & He).
      destruct (queue ch) as [|x q] eqn:Eq using rev_ind; [rewrite app_nil_r in E; right; by exists body, t|].
      rewrite app_assoc in E. apply app_inj_tail in E as [E _]. left. rewrite <- E in Hb. by apply body_app in Hb as [Hb _].
Qed.

Lemma inv_reachable (capacity : nat) (ch : Channel) : channel_reachable capacity ch -> channel_inv ch.
Proof.
  intros H. unfold channel_reachable in H. remember (new_streaming_channel capacity) as c0 eqn:E.
  assert (H0 : channel_inv c0) by (subst; apply channel_inv_new). clear E. induction H as [|a b c Hab Hbc IH]; [done|].
  apply IH. by eapply inv_step.
Qed.

(** ** Properties *)

Lemma slots_step (ch ch' : Channel) : channel_step ch ch' -> slots ch' = slots ch.
Proof.
  destruct 1; try done.
  - unfold call_terminal, sink_drop.
    destruct c; simpl; try (destruct (any_body_sent s); simpl); try done; rewrite H; by destruct (terminal_permit s).
  - unfold sink_drop. rewrite H. by destruct (terminal_permit s).
Qed.

Lemma slots_reachable (capacity : nat) (ch : Channel) : channel_reachable capacity ch -> slots ch = capacity + 1.
Proof.
  intros H. unfold channel_reachable in H. remember (new_streaming_channel capacity) as c0 eqn:E.
  assert (H0 : slots c0 = capacity + 1) by (subst; done). clear E.
  induction H as [|a b c Hab Hbc IH]; [done|]. apply IH. by rewrite (slots_step _ _ Hab).
Qed.

Lemma collect_body (body : list StreamEvent) (t : StreamEvent) (b : string) (m : list MetaEntry) (any : bool) :
  body_events body -> exists b' m' any', collect_events (body ++ [t]) b m any = collect_events [t] b' m' any'.
Proof.
  intros Hb. revert b m any. induction Hb as [|e body He Hb IH]; intros b m any; [by eexists _, _, _|].
  destruct e; try done; apply IH.
Qed.

(** C12: Whatever the producer and the consumer do, and however their sends
    interleave: the channel never holds more than its capacity and a terminal;
    once the sink is gone the stream is body events and one terminal, the one
    the producer asked for or the error of a sink let go, and none that claims
    to be the whole response follows a body event; collecting it is never
    malformed, and a response is complete only if its producer completed it. *)
Theorem sink_streams_well_formed (capacity : nat) (ch : Channel) :
  channel_reachable capacity ch ->
  length (queue ch) <= capacity + 1 /\
  (sink ch = None -> receiver_open ch = true ->
   (exists body t, received ch ++ queue ch = body ++ [t] /\ body_events body /\ may_follow body t /\ ends_with ch t) /\
   collect_buffered (from_events (received ch ++ queue ch)) <> Err Malformed /\
   (forall buf, collect_buffered (from_events (received ch ++ queue ch)) = Ok buf ->
      exists meta, asked ch = Some (Complete meta))).
Proof.
  intros H. pose proof (slots_reachable _ _ H) as Hsl. apply inv_reachable in H as (Hlen & Hs & _).
  split; [lia|]. intros Es Eo. rewrite Es, Eo in Hs. destruct Hs as (body & t & E & Hb & Hm & He).
  split; [by exists body, t|]. unfold collect_buffered. change (stream_events (from_events ?l)) with l. rewrite E.
  destruct (collect_body body t "" [] false Hb) as (b' & m' & any' & ->). split.
  - destruct t; simpl; try done. by destruct any'.
  - intros buf. destruct t; simpl; try done; [|by destruct any'].
    intros _. destruct He as [-> | (_ & p & Hp)]; [by eexists | discriminate Hp].
Qed.

Lemma drain_sends (n : nat) (ch : Channel) (s : OutputSink) :
  sink ch = Some s -> length (sends s) = n ->
  exists s', rtc channel_step ch (with_sink ch (Some s')) /\ sends s' = [] /\ terminal_permit s' = terminal_permit s.
Proof.
  revert ch s. induction n as [|n IH]; intros ch s Es Hn.
  - exists s. split; [|split; [by destruct (sends s) | done]]. destruct ch; simpl in *. subst. apply rtc_refl.
  - destruct (sends s) as [|e l] eqn:El; [done|]. simpl in Hn. injection Hn as Hn.
    pose proof (step_send_dropped ch s [] e l Es El) as Hstep. simpl in Hstep.
    destruct (IH (end_send ch s l) (mkSink (terminal_permit s) (any_body_sent s) l) eq_refl Hn) as (s' & Hs & He & Hp).
    exists s'. split; [|done]. eapply rtc_l; [exact Hstep | exact Hs].
Qed.

Lemma drain_queue (ch : Channel) :
  receiver_open ch = true ->
  rtc channel_step ch (mkChannel (slots ch) [] (received ch ++ queue ch) true (cancelled ch) (sink ch) (asked ch)).
Proof.
  destruct ch as [sl q rc o ca sk a]. simpl. intros ->. revert rc. induction q as [|e q IH]; intros rc.
  - rewrite app_nil_r. apply rtc_refl.
  - eapply rtc_l; [exact (step_receive (mkChannel sl (e :: q) rc true ca sk a) e q eq_refl eq_refl)|]. simpl.
    specialize (IH (rc ++ [e])). by rewrite <- app_assoc in IH.
Qed.

(** A consumer that stays always comes to a terminal: from every reachable
    state the producer can let go, and the consumer then reads what is queued,
    ending in exactly one terminal - a full channel never keeps it back. *)
Theorem terminals_always_arrive (capacity : nat) (ch : Channel) :
  channel_reachable capacity ch -> receiver_open ch = true ->
  exists ch' body t,
    rtc channel_step ch ch' /\ sink ch' = None /\ queue ch' = [] /\
    received ch' = body ++ [t] /\ body_events body /\ may_follow body t.
Proof.
  intros H Eo. assert (Hgone : exists ch1, rtc channel_step ch ch1 /\ sink ch1 = None /\ receiver_open ch1 = true).
  { destruct (sink ch) as [s|] eqn:Es; [|by exists ch].
    destruct (drain_sends _ ch s Es eq_refl) as (s' & Hs & He & _).
    exists (sink_drop (with_sink ch (Some s')) false). split; [|unfold sink_drop; simpl; by destruct (terminal_permit s')].
    eapply rtc_r; [exact Hs|]. by eapply step_sink_dropped. }
  destruct Hgone as (ch1 & H1 & Es & Eo1). pose proof (drain_queue ch1 Eo1) as H2.
  set (ch2 := mkChannel _ _ _ _ _ _ _) in H2.
  assert (Hr : channel_reachable capacity ch2) by (unfold channel_reachable; by do 2 (etrans; [eassumption|])).
  apply inv_reachable in Hr as (_ & Hs & _). simpl in Hs. rewrite Es, app_nil_r in Hs.
  destruct Hs as (body & t & E & Hb & Hm & _). exists ch2, body, t. split_and!; try done. by etrans.
Qed.

(** A full channel of one slot: a chunk waits, its producer gives up and is
    dropped, and the consumer still reads an error. *)
Lemma full_channel :
  exists ch, channel_reachable 1 ch /\ sink ch = None /\ receiver_open ch = true /\
    queue ch = [Chunk "a"; dropped_error false].
Proof.
  pose (c0 := new_streaming_channel 1).
  assert (H1 : channel_reachable 1 (start_send c0 (mkSink true false []) (Chunk "a"))) by (apply rtc_once; by constructor).
  pose proof (step_sent (start_send c0 (mkSink true false []) (Chunk "a")) (mkSink true true [Chunk "a"]) [] (Chunk "a") []
                eq_refl eq_refl eq_refl eq_refl) as H2.
  pose proof (rtc_r _ _ _ H1 H2) as H3.
  eexists. split; [|split_and!; [| |]].
  { eapply rtc_r; [exact H3|]. by apply (step_sink_dropped _ (mkSink true true []) false). }
  all: done.
Qed.

Lemma sink_streams_well_formed_witness :
  exists ch, length (queue ch) = 2 /\ length (queue ch) <= 1 + 1 /\
    collect_buffered (from_events (received ch ++ queue ch)) <> Err Malformed.
Proof.
  destruct full_channel as (ch & Hr & Es & Eo & Eq). exists ch. split; [by rewrite Eq|].
  destruct (sink_streams_well_formed 1 ch Hr) as [Hl Hc]. split; [exact Hl | exact (proj1 (proj2 (Hc Es Eo)))].
Defined.

Lemma terminals_always_arrive_witness :
  exists ch' body t, rtc channel_step (new_streaming_channel 1) ch' /\ received ch' = body ++ [t].
Proof.
  destruct (terminals_always_arrive 1 (new_streaming_channel 1) (rtc_refl _ _) eq_refl) as (ch' & body & t & H1 & _ & _ & H2 & _).
  exists ch', body, t. split; [exact H1 | exact H2].
Defined.
