(* ===== verification/NetSecurity.v ===== *)
(** Outbound address checks ([wafer-net-security/src/lib.rs]): which URLs and
    which resolved addresses a fetcher refuses.

    Addresses are their numbers, of 32 and of 128 bits; octets and segments are
    read off by shifting. Parsing of URLs belongs to the [url] crate. The
    modelled build is the enforcing one: the feature that disables the checks
    is off by default. *)

From Stdlib Require Import ZArith ZifyN ZifyBool Btauto.
From S2P Require Import Prelude.

#[local] Open Scope N_scope.

(** ** Addresses *)

Definition Ipv4Addr : Type := N.
Definition Ipv6Addr : Type := N.
Inductive IpAddr := V4 (ip : Ipv4Addr) | V6 (ip : Ipv6Addr).

(** [Ipv4Addr::octets] and [Ipv6Addr::segments]. *)
Definition octet (ip : Ipv4Addr) (i : N) : N := N.shiftr ip (8 * (3 - i)) mod 256.
Definition segment (ip : Ipv6Addr) (i : N) : N := N.shiftr ip (16 * (7 - i)) mod 65536.

(** [Ipv4Addr::new]. *)
Definition ipv4_new (a b c d : N) : Ipv4Addr := a * 2 ^ 24 + b * 2 ^ 16 + c * 2 ^ 8 + d.

(** [Ipv4Addr::is_multicast], [is_broadcast] and [Ipv6Addr::is_multicast]. *)
Definition ipv4_is_multicast (ip : Ipv4Addr) : bool := (224 <=? octet ip 0) && (octet ip 0 <=? 239).
Definition ipv4_is_broadcast (ip : Ipv4Addr) : bool := ip =? 2 ^ 32 - 1.
Definition ipv6_is_multicast (ip : Ipv6Addr) : bool := N.land (segment ip 0) 65280 =? 65280.

(** ** The checks *)

(** [is_blocked_ipv4]. *)
Definition is_blocked_ipv4 (ip : Ipv4Addr) : bool :=
  let o i := octet ip i in
  if o 0 =? 0 then true
  else if o 0 =? 127 then true
  else if o 0 =? 10 then true
  else if (o 0 =? 172) && ((16 <=? o 1) && (o 1 <=? 31)) then true
  else if (o 0 =? 192) && (o 1 =? 168) then true
  else if (o 0 =? 169) && (o 1 =? 254) then true
  else if (o 0 =? 100) && ((64 <=? o 1) && (o 1 <=? 127)) then true
  else if (o 0 =? 192) && (o 1 =? 0) && (o 2 =? 0) then true
  else if (o 0 =? 198) && ((o 1 =? 18) || (o 1 =? 19)) then true
  else if ipv4_is_multicast ip then true
  else if 240 <=? o 0 then true
  else if ipv4_is_broadcast ip then true
  else false.

(** [embedded_v4]. *)
Definition embedded_v4 (hi lo : N) : Ipv4Addr :=
  ipv4_new (N.shiftr hi 8) (N.land hi 255) (N.shiftr lo 8) (N.land lo 255).

Definition segments_zero (ip : Ipv6Addr) (from upto : nat) : bool :=
  forallb (fun i => segment ip (N.of_nat i) =? 0) (seq from (upto - from)).

(** [is_blocked_ipv6]. *)
Definition is_blocked_ipv6 (ip : Ipv6Addr) : bool :=
  let s i := segment ip i in
  if ip =? 1 then true
  else if ip =? 0 then true
  else if N.land (s 0) 65472 =? 65152 then true
  else if N.land (s 0) 65024 =? 64512 then true
  else if ipv6_is_multicast ip then true
  else if segments_zero ip 0 5 && (s 5 =? 65535) then is_blocked_ipv4 (embedded_v4 (s 6) (s 7))
  else if (s 0 =? 100) && (s 1 =? 65435) && segments_zero ip 2 6
       then is_blocked_ipv4 (embedded_v4 (s 6) (s 7))
  else if segments_zero ip 0 6 then is_blocked_ipv4 (embedded_v4 (s 6) (s 7))
  else if s 0 =? 8194 then is_blocked_ipv4 (embedded_v4 (s 1) (s 2))
  else false.

(** [is_blocked_ip]. *)
Definition is_blocked_ip (ip : IpAddr) : bool :=
  match ip with V4 ip => is_blocked_ipv4 ip | V6 ip => is_blocked_ipv6 ip end.

(** ** URLs and resolution *)

Inductive Host := Domain (domain : string) | HostV4 (ip : Ipv4Addr) | HostV6 (ip : Ipv6Addr).

(** [url::Url::parse] with [scheme] and [host]; [None] is its error. *)
Class UrlHosts := { parse_url_host : string -> option (string * option Host) }.

(** [is_blocked_url]. *)
Definition is_blocked_url `{UrlHosts} (raw : string) : bool :=
  match parse_url_host raw with
  | None => true
  | Some (scheme, host) =>
      if (scheme =s "http") || (scheme =s "https") then
        match host with
        | None => true
        | Some (Domain domain) => eq_ignore_ascii_case domain "localhost"
        | Some (HostV4 ip) => is_blocked_ipv4 ip
        | Some (HostV6 ip) => is_blocked_ipv6 ip
        end
      else true
  end.

Record SocketAddr := mkSocket { sock_ip : IpAddr; sock_port : N }.

(** [filter_resolved]. *)
Definition filter_resolved (host : string) (resolved : list SocketAddr)
  : result (list SocketAddr) string :=
  let filtered := List.filter (fun s => negb (is_blocked_ip (sock_ip s))) resolved in
  match filtered with
  | [] => Err ("DNS resolution for " +:+ host
               +:+ " returned no public IPs (blocked: private/loopback/link-local)")
  | _ => Ok filtered
  end.

(** [SsrfFilteringResolver::resolve], over what the system resolver answers. *)
Definition resolve (lookup_host : string -> result (list SocketAddr) string) (host : string)
  : result (list SocketAddr) string :=
  let? resolved := lookup_host host in filter_resolved host resolved.

(** ** Networks *)

(** The addresses of [bits] bits in [base/len]. *)
Definition in_net (bits : N) (net : N * N) (ip : N) : Prop :=
  let '(base, len) := net in ip / 2 ^ (bits - len) = base / 2 ^ (bits - len).

Definition v4 (a b c d : N) : Ipv4Addr := ipv4_new a b c d.

(** The special-purpose networks an outbound request must not reach. *)
Definition INTERNAL_V4 : list (N * N) :=
  [(v4 0 0 0 0, 8); (v4 127 0 0 0, 8); (v4 10 0 0 0, 8); (v4 172 16 0 0, 12);
   (v4 192 168 0 0, 16); (v4 169 254 0 0, 16); (v4 100 64 0 0, 10); (v4 192 0 0 0, 24);
   (v4 198 18 0 0, 15); (v4 224 0 0 0, 4); (v4 240 0 0 0, 4)].

Definition seg (i v : N) : N := v * 2 ^ (16 * (7 - i)).
Definition INTERNAL_V6 : list (N * N) :=
  [(1, 128); (0, 128); (seg 0 65152, 10); (seg 0 64512, 7); (seg 0 65280, 8)].

(** The IPv6 addresses that stand for an IPv4 address: mapped, NAT64,
    compatible, and 6to4 with any lower part. *)
Inductive embeds : Ipv6Addr -> Ipv4Addr -> Prop :=
| embeds_mapped ip4 : embeds (seg 5 65535 + ip4) ip4
| embeds_nat64 ip4 : embeds (seg 0 100 + seg 1 65435 + ip4) ip4
| embeds_compatible ip4 : embeds ip4 ip4
| embeds_6to4 ip4 low : low < 2 ^ 80 -> embeds (seg 0 8194 + ip4 * 2 ^ 80 + low) ip4.

(** * Properties of the outbound address checks: the octet and segment tests are
    exactly membership in the special-purpose networks, in every spelling of
    an IPv4 address. *)

#[local] Open Scope N_scope.

(** [lia] also decides quotients and remainders by constants. *)
#[local] Ltac Zify.zify_post_hook ::= Z.div_mod_to_equations.

(** ** Reading addresses *)

Lemma octet_div (ip i : N) : octet ip i = ip / 2 ^ (8 * (3 - i)) mod 256.
Proof. unfold octet. by rewrite N.shiftr_div_pow2. Qed.

Lemma segment_div (ip i : N) : segment ip i = ip / 2 ^ (16 * (7 - i)) mod 65536.
Proof. unfold segment. by rewrite N.shiftr_div_pow2. Qed.

Lemma octet_0 (ip : N) : octet ip 0 = ip / 16777216 mod 256.
Proof. apply octet_div. Qed.
Lemma octet_1 (ip : N) : octet ip 1 = ip / 65536 mod 256.
Proof. apply octet_div. Qed.
Lemma octet_2 (ip : N) : octet ip 2 = ip / 256 mod 256.
Proof. apply octet_div. Qed.

Lemma ipv4_octets (ip : Ipv4Addr) :
  ip < 2 ^ 32 ->
  exists a b c d, a < 256 /\ b < 256 /\ c < 256 /\ d < 256 /\ ip = ipv4_new a b c d
    /\ octet ip 0 = a /\ octet ip 1 = b /\ octet ip 2 = c.
Proof.
  intros H. change (2 ^ 32) with 4294967296 in H.
  exists (ip / 16777216), (ip / 65536 mod 256), (ip / 256 mod 256), (ip mod 256).
  unfold ipv4_new. rewrite octet_0, octet_1, octet_2.
  change (2 ^ 24) with 16777216. change (2 ^ 16) with 65536. change (2 ^ 8) with 256. split_and!; lia.
Qed.

(** Membership in a network, decided. *)
Definition in_netb (bits : N) (net : N * N) (ip : N) : bool :=
  ip / 2 ^ (bits - net.2) =? net.1 / 2 ^ (bits - net.2).

Lemma in_netb_spec (bits : N) (nets : list (N * N)) (ip : N) :
  existsb (fun net => in_netb bits net ip) nets = true <-> Exists (fun net => in_net bits net ip) nets.
Proof.
  rewrite existsb_exists, List.Exists_exists. unfold in_netb.
  split; intros ([base len] & Hin & E); exists (base, len); (split; [done|]); by apply N.eqb_eq.
Qed.

(** One network against the test of its octets: both are read off the octets. *)
Ltac net_octets :=
  match goal with H : ?ip < 2 ^ 32 |- _ =>
    destruct (ipv4_octets ip H) as (a & b & c & d & Ha & Hb & Hc & Hd & E & E0 & E1 & E2);
    unfold in_netb; rewrite ?E0, ?E1, ?E2, ?E; clear E0 E1 E2 E H; unfold v4, ipv4_new; cbn [fst snd];
    apply Bool.eq_iff_eq_true; rewrite ?andb_true_iff, ?orb_true_iff, ?N.leb_le, ?N.eqb_eq;
    repeat match goal with |- context [2 ^ ?n] => let v := eval vm_compute in (2 ^ n) in change (2 ^ n) with v end;
    lia
  end.

Section Ipv4Nets.
  Context (ip : Ipv4Addr) (H : ip < 2 ^ 32).
Lemma net_8 (o : N) : o < 256 -> in_netb 32 (v4 o 0 0 0, 8) ip = (octet ip 0 =? o).
Proof using H. intros Ho. net_octets. Qed.
Lemma net_172_16 : in_netb 32 (v4 172 16 0 0, 12) ip
  = (octet ip 0 =? 172) && ((16 <=? octet ip 1) && (octet ip 1 <=? 31)).
Proof using H. net_octets. Qed.
Lemma net_16 (o p : N) : o < 256 -> p < 256 ->
  in_netb 32 (v4 o p 0 0, 16) ip = (octet ip 0 =? o) && (octet ip 1 =? p).
Proof using H. intros Ho Hp. net_octets. Qed.
Lemma net_100_64 : in_netb 32 (v4 100 64 0 0, 10) ip
  = (octet ip 0 =? 100) && ((64 <=? octet ip 1) && (octet ip 1 <=? 127)).
Proof using H. net_octets. Qed.
Lemma net_192_0_0 : in_netb 32 (v4 192 0 0 0, 24) ip
  = (octet ip 0 =? 192) && (octet ip 1 =? 0) && (octet ip 2 =? 0).
Proof using H. net_octets. Qed.
Lemma net_198_18 : in_netb 32 (v4 198 18 0 0, 15) ip
  = (octet ip 0 =? 198) && ((octet ip 1 =? 18) || (octet ip 1 =? 19)).
Proof using H. net_octets. Qed.
Lemma net_224 : in_netb 32 (v4 224 0 0 0, 4) ip = ipv4_is_multicast ip.
Proof using H. unfold ipv4_is_multicast. net_octets. Qed.
Lemma net_240 : in_netb 32 (v4 240 0 0 0, 4) ip = (240 <=? octet ip 0) || ipv4_is_broadcast ip.
Proof using H. unfold ipv4_is_broadcast. net_octets. Qed.

(** The octet tests are membership in the networks they are named after. *)
Lemma is_blocked_ipv4_nets :
  is_blocked_ipv4 ip = true <-> Exists (fun net => in_net 32 net ip) INTERNAL_V4.
Proof using H.
  rewrite <- in_netb_spec. unfold INTERNAL_V4. cbn [existsb].
  rewrite net_172_16, net_100_64, net_192_0_0, net_198_18, net_224, net_240, !net_8, !net_16 by done.
  rewrite orb_false_r. unfold is_blocked_ipv4. cbv zeta. by destruct (ipv4_is_broadcast ip).
Qed.
End Ipv4Nets.

(** ** IPv6 *)

(** A mask of the upper bits of a segment is a test of its quotient. *)
Lemma land_upper (s k v : N) :
  s < 2 ^ 16 -> k <= 16 -> v mod 2 ^ k = 0 ->
  (N.land s (N.ldiff (N.ones 16) (N.ones k)) =? v) = (s / 2 ^ k =? v / 2 ^ k).
Proof.
  intros Hs Hk Hv.
  assert (N.land s (N.ldiff (N.ones 16) (N.ones k)) = s / 2 ^ k * 2 ^ k) as ->.
  { rewrite <- N.shiftr_div_pow2, <- N.shiftl_mul_pow2, <- N.ldiff_ones_r.
    transitivity (N.ldiff (N.land s (N.ones 16)) (N.ones k));
      [|by rewrite N.land_ones, N.mod_small by done].
    apply N.bits_inj. intros n. rewrite !N.land_spec, !N.ldiff_spec, N.land_spec. btauto. }
  assert (2 ^ k <> 0) as Hp by (by apply N.pow_nonzero).
  pose proof (N.div_mod v (2 ^ k) Hp) as Ev. rewrite Hv in Ev.
  apply Bool.eq_iff_eq_true. rewrite !N.eqb_eq. split; [|lia].
  intros E. rewrite <- E. by rewrite N.div_mul.
Qed.

Lemma segment_lt (ip i : N) : segment ip i < 65536.
Proof. unfold segment. by apply N.mod_upper_bound. Qed.

Lemma segment_step (ip i : N) :
  i < 8 -> ip / 2 ^ (16 * (7 - i)) = ip / 2 ^ (16 * (8 - i)) * 65536 + segment ip i.
Proof.
  intros Hi. rewrite segment_div. replace (16 * (8 - i)) with (16 * (7 - i) + 16) by lia.
  rewrite N.pow_add_r, <- N.Div0.div_div. change (2 ^ 16) with 65536.
  rewrite (N.mul_comm _ 65536). by apply N.div_mod.
Qed.

(** The two segments an address of the older family is spelled with. *)
Lemma embedded_v4_value (hi lo : N) :
  hi < 65536 -> lo < 65536 -> embedded_v4 hi lo = hi * 65536 + lo.
Proof.
  intros Hhi Hlo. unfold embedded_v4, ipv4_new.
  change 255 with (N.ones 8). rewrite !N.land_ones, !N.shiftr_div_pow2.
  change (2 ^ 24) with 16777216. change (2 ^ 16) with 65536. change (2 ^ 8) with 256. lia.
Qed.

(** Where an address of the older family lies in one of the newer. *)
Definition NAT64 : N := 100 * 2 ^ 80 + 65435 * 2 ^ 64.

Section Ipv6Nets.
  Context (ip : Ipv6Addr) (H : ip < 2 ^ 128).
Let s (i : N) : N := segment ip i.

Lemma segment_0 : ip / 2 ^ 112 = s 0.
Proof using H.
  unfold s. rewrite segment_div. change (16 * (7 - 0)) with 112. symmetry. apply N.mod_small.
  by apply N.Div0.div_lt_upper_bound.
Qed.

(** The upper 96 bits. *)
Lemma upper_segments :
  ip / 2 ^ 32 = ((((s 0 * 65536 + s 1) * 65536 + s 2) * 65536 + s 3) * 65536 + s 4) * 65536 + s 5.
Proof using H.
  rewrite <- segment_0. unfold s.
  by rewrite (segment_step ip 5 eq_refl : ip / 2 ^ 32 = ip / 2 ^ 48 * 65536 + segment ip 5),
    (segment_step ip 4 eq_refl : ip / 2 ^ 48 = ip / 2 ^ 64 * 65536 + segment ip 4),
    (segment_step ip 3 eq_refl : ip / 2 ^ 64 = ip / 2 ^ 80 * 65536 + segment ip 3),
    (segment_step ip 2 eq_refl : ip / 2 ^ 80 = ip / 2 ^ 96 * 65536 + segment ip 2),
    (segment_step ip 1 eq_refl : ip / 2 ^ 96 = ip / 2 ^ 112 * 65536 + segment ip 1).
Qed.

Lemma lower_segments : embedded_v4 (s 6) (s 7) = ip mod 2 ^ 32.
Proof using.
  clear H. rewrite embedded_v4_value by apply segment_lt.
  unfold s. apply (N.mod_unique _ _ (ip / 2 ^ 32)).
  - pose proof (segment_lt ip 6). pose proof (segment_lt ip 7). change (2 ^ 32) with 4294967296. lia.
  - rewrite <- (N.div_1_r ip) at 1. change 1 with (2 ^ 0).
    rewrite (segment_step ip 7 eq_refl : ip / 2 ^ 0 = ip / 2 ^ 16 * 65536 + segment ip 7),
      (segment_step ip 6 eq_refl : ip / 2 ^ 16 = ip / 2 ^ 32 * 65536 + segment ip 6).
    change (2 ^ 32) with (65536 * 65536). generalize (ip / (65536 * 65536)). lia.
Qed.

Lemma upper_6to4 : embedded_v4 (s 1) (s 2) = ip / 2 ^ 80 mod 2 ^ 32.
Proof using H.
  rewrite embedded_v4_value by apply segment_lt.
  unfold s. apply (N.mod_unique _ _ (ip / 2 ^ 112)).
  - pose proof (segment_lt ip 1). pose proof (segment_lt ip 2). change (2 ^ 32) with 4294967296. lia.
  - rewrite (segment_step ip 2 eq_refl : ip / 2 ^ 80 = ip / 2 ^ 96 * 65536 + segment ip 2),
      (segment_step ip 1 eq_refl : ip / 2 ^ 96 = ip / 2 ^ 112 * 65536 + segment ip 1).
    change (2 ^ 32) with (65536 * 65536). generalize (ip / 2 ^ 112). lia.
Qed.

(** The tests of the upper six segments, as one number. *)
Ltac upper_test :=
  rewrite upper_segments; unfold segments_zero, NAT64; cbn [seq Nat.sub forallb];
  change (N.of_nat 0) with 0; change (N.of_nat 1) with 1; change (N.of_nat 2) with 2;
  change (N.of_nat 3) with 3; change (N.of_nat 4) with 4; change (N.of_nat 5) with 5;
  pose proof (segment_lt ip 5); pose proof (segment_lt ip 4); pose proof (segment_lt ip 3);
  pose proof (segment_lt ip 2); pose proof (segment_lt ip 1); unfold s;
  generalize dependent (segment ip 5); generalize dependent (segment ip 4);
  generalize dependent (segment ip 3); generalize dependent (segment ip 2);
  generalize dependent (segment ip 1); generalize (segment ip 0); intros;
  apply Bool.eq_iff_eq_true; rewrite ?andb_true_iff, ?N.eqb_eq;
  change (2 ^ 80) with (65536 * 65536 * 65536 * 65536 * 65536);
  change (2 ^ 64) with (65536 * 65536 * 65536 * 65536); clear H; lia.

Lemma mapped_test : segments_zero ip 0 5 && (s 5 =? 65535) = (ip / 2 ^ 32 =? 65535).
Proof using H. upper_test. Qed.
Lemma nat64_test :
  (s 0 =? 100) && (s 1 =? 65435) && segments_zero ip 2 6 = (ip / 2 ^ 32 =? NAT64).
Proof using H. upper_test. Qed.
Lemma compatible_test : segments_zero ip 0 6 = (ip / 2 ^ 32 =? 0).
Proof using H. upper_test. Qed.

Lemma upper_net (k v : N) :
  k <= 16 -> v mod 2 ^ k = 0 ->
  in_netb 128 (seg 0 v, 16 - k) ip = (N.land (s 0) (N.ldiff (N.ones 16) (N.ones k)) =? v).
Proof using H.
  intros Hk Hv. rewrite land_upper by (done || apply segment_lt).
  rewrite <- segment_0, N.Div0.div_div, <- N.pow_add_r. unfold in_netb, seg. cbn [fst snd].
  replace (128 - (16 - k)) with (112 + k) by (clear H; lia). change (16 * (7 - 0)) with 112.
  rewrite (N.pow_add_r 2 112 k), <- (N.Div0.div_div (v * 2 ^ 112)). by rewrite N.div_mul.
Qed.

(** What the address carried by an IPv6 address decides. *)
Definition carried_blocked : bool :=
  if ip / 2 ^ 32 =? 65535 then is_blocked_ipv4 (ip mod 2 ^ 32)
  else if ip / 2 ^ 32 =? NAT64 then is_blocked_ipv4 (ip mod 2 ^ 32)
  else if ip / 2 ^ 32 =? 0 then is_blocked_ipv4 (ip mod 2 ^ 32)
  else if ip / 2 ^ 112 =? 8194 then is_blocked_ipv4 (ip / 2 ^ 80 mod 2 ^ 32)
  else false.

Lemma is_blocked_ipv6_value :
  is_blocked_ipv6 ip = existsb (fun net => in_netb 128 net ip) INTERNAL_V6 || carried_blocked.
Proof using H.
  unfold is_blocked_ipv6, INTERNAL_V6. cbn [existsb].
  rewrite (upper_net 6 65152 ltac:(done) eq_refl : in_netb 128 (seg 0 65152, 10) ip = _).
  rewrite (upper_net 9 64512 ltac:(done) eq_refl : in_netb 128 (seg 0 64512, 7) ip = _).
  rewrite (upper_net 8 65280 ltac:(done) eq_refl : in_netb 128 (seg 0 65280, 8) ip = _).
  cbv zeta. fold (s 0) (s 1) (s 2) (s 5) (s 6) (s 7). rewrite mapped_test, nat64_test, compatible_test.
  rewrite lower_segments, upper_6to4. unfold carried_blocked, in_netb, ipv6_is_multicast. rewrite segment_0.
  cbn [fst snd]. change (2 ^ (128 - 128)) with 1. rewrite !N.div_1_r, orb_false_r, <- !orb_assoc. done.
Qed.
End Ipv6Nets.

(** No special network of the newer family starts below [fc00]. *)
Lemma nets_v6_off (ip : Ipv6Addr) :
  2 <= ip -> ip / 2 ^ 112 < 64512 -> existsb (fun net => in_netb 128 net ip) INTERNAL_V6 = false.
Proof.
  intros H2 Hq. unfold INTERNAL_V6, in_netb, seg. cbn [existsb fst snd]. rewrite !orb_false_iff, !N.eqb_neq.
  change (2 ^ (128 - 128)) with 1. rewrite !N.div_1_r.
  change (2 ^ (128 - 10)) with (2 ^ 112 * 64). change (2 ^ (128 - 7)) with (2 ^ 112 * 512).
  change (2 ^ (128 - 8)) with (2 ^ 112 * 256). rewrite <- !N.Div0.div_div.
  change (16 * (7 - 0)) with 112. rewrite !N.div_mul by done.
  generalize dependent (ip / 2 ^ 112). intros q Hq. split_and!; try done; lia.
Qed.

Lemma embeds_parts (ip ip4 : N) :
  embeds ip ip4 -> ip4 < 2 ^ 32 ->
  (ip / 2 ^ 32 ∈ [65535; NAT64; 0] /\ ip mod 2 ^ 32 = ip4)
  \/ (ip / 2 ^ 112 = 8194 /\ ip / 2 ^ 80 mod 2 ^ 32 = ip4).
Proof.
  intros He H4.
  assert (forall a, (a * 2 ^ 32 + ip4) / 2 ^ 32 = a /\ (a * 2 ^ 32 + ip4) mod 2 ^ 32 = ip4) as Hsum.
  { intros a. rewrite N.div_add_l, (N.add_comm (a * _)), N.Div0.mod_add by done.
    by rewrite N.div_small, N.mod_small, N.add_0_r by done. }
  destruct He as [ip4 | ip4 | ip4 | ip4 low Hlow]; [left..|right].
  - change (seg 5 65535) with (65535 * 2 ^ 32). destruct (Hsum 65535) as [-> ->]. split; [set_solver|done].
  - change (seg 0 100 + seg 1 65435) with (NAT64 * 2 ^ 32). destruct (Hsum NAT64) as [-> ->].
    split; [set_solver|done].
  - destruct (Hsum 0) as [E1 E2]. rewrite N.mul_0_l, N.add_0_l in E1, E2. rewrite E1, E2.
    split; [set_solver|done].
  - assert ((seg 0 8194 + ip4 * 2 ^ 80 + low) / 2 ^ 80 = 8194 * 2 ^ 32 + ip4) as E.
    { change (seg 0 8194) with (8194 * 2 ^ 32 * 2 ^ 80). rewrite <- N.mul_add_distr_r.
      by rewrite N.div_add_l, (N.div_small low), N.add_0_r by done. }
    rewrite E. destruct (Hsum 8194) as [E1 E2]. split; [|done].
    change (2 ^ 112) with (2 ^ 80 * 2 ^ 32). by rewrite <- N.Div0.div_div, E.
Qed.

(** Spelling an address of the older family in the newer one never changes
    the verdict. *)
Lemma embeds_verdict (ip ip4 : N) :
  ip < 2 ^ 128 -> embeds ip ip4 -> ip4 < 2 ^ 32 -> is_blocked_ipv6 ip = is_blocked_ipv4 ip4.
Proof.
  intros H He H4. rewrite (is_blocked_ipv6_value ip H).
  destruct (N.lt_ge_cases ip 2) as [Hsmall|Hge].
  - assert (ip = 0 \/ ip = 1) as [-> | ->] by lia;
      destruct (embeds_parts _ _ He H4) as [[_ <-]|[Hq _]]; done.
  - pose proof (embeds_parts _ _ He H4) as Hp. rewrite nets_v6_off; [|done|].
    + unfold carried_blocked. destruct Hp as [[Hin ->] | [Hq ->]].
      * rewrite !elem_of_cons in Hin. destruct Hin as [-> | [-> | [-> | []%elem_of_nil]]]; done.
      * rewrite Hq.
        assert (ip / 2 ^ 32 = ip / 2 ^ 112 * 2 ^ 80 + ip / 2 ^ 32 mod 2 ^ 80) as ->.
        { change (2 ^ 112) with (2 ^ 32 * 2 ^ 80). rewrite <- N.Div0.div_div.
          rewrite (N.mul_comm _ (2 ^ 80)). by apply N.div_mod. }
        rewrite Hq. set (r := _ mod _).
        assert (8194 * 2 ^ 80 + r <> 65535 /\ 8194 * 2 ^ 80 + r <> NAT64 /\ 8194 * 2 ^ 80 + r <> 0)
          as (N1 & N2 & N3).
        { unfold NAT64. change (2 ^ 80) with 1208925819614629174706176.
          change (2 ^ 64) with 18446744073709551616. generalize r. lia. }
        apply N.eqb_neq in N1, N2, N3. by rewrite N1, N2, N3.
    + destruct Hp as [[Hin _] | [-> _]]; [|done].
      change (2 ^ 112) with (2 ^ 32 * 2 ^ 80). rewrite <- N.Div0.div_div.
      rewrite !elem_of_cons in Hin. destruct Hin as [-> | [-> | [-> | []%elem_of_nil]]]; done.
Qed.

(** ** Public addresses *)

Definition public_v4 (ip : Ipv4Addr) : Prop := ~ Exists (fun net => in_net 32 net ip) INTERNAL_V4.

(** Outside every special network, and standing for no internal address of the
    older family. *)
Definition public_ip (ip : IpAddr) : Prop :=
  match ip with
  | V4 ip => public_v4 ip
  | V6 ip => ~ Exists (fun net => in_net 128 net ip) INTERNAL_V6
             /\ forall ip4, ip4 < 2 ^ 32 -> embeds ip ip4 -> public_v4 ip4
  end.

(** Addresses have their width. *)
Definition ip_ok (ip : IpAddr) : Prop :=
  match ip with V4 ip => ip < 2 ^ 32 | V6 ip => ip < 2 ^ 128 end.

Lemma is_blocked_ipv4_public (ip : Ipv4Addr) :
  ip < 2 ^ 32 -> (is_blocked_ipv4 ip = false <-> public_v4 ip).
Proof.
  intros H. unfold public_v4. rewrite <- (is_blocked_ipv4_nets ip H). by rewrite not_true_iff_false.
Qed.

(** An address the carried part decides is a spelling of that part. *)
Lemma carried_public (ip : Ipv6Addr) :
  ip < 2 ^ 128 -> (forall ip4, ip4 < 2 ^ 32 -> embeds ip ip4 -> public_v4 ip4) ->
  carried_blocked ip = false.
Proof.
  intros H Hp. assert (forall x, x mod 2 ^ 32 < 2 ^ 32) as Hm by (intros x; by apply N.mod_upper_bound).
  assert (ip = ip / 2 ^ 32 * 2 ^ 32 + ip mod 2 ^ 32) as E by (rewrite (N.mul_comm _ (2 ^ 32)); by apply N.div_mod).
  unfold carried_blocked.
  destruct (N.eqb_spec (ip / 2 ^ 32) 65535) as [E1|_];
    [|destruct (N.eqb_spec (ip / 2 ^ 32) NAT64) as [E1|_];
      [|destruct (N.eqb_spec (ip / 2 ^ 32) 0) as [E1|_];
        [|destruct (N.eqb_spec (ip / 2 ^ 112) 8194) as [E1|_]; [|done]]]];
    (apply is_blocked_ipv4_public; [apply Hm|]); apply Hp; try apply Hm.
  1-3: rewrite E1 in E.
  - rewrite E at 1. apply embeds_mapped.
  - rewrite E at 1. apply embeds_nat64.
  - rewrite N.mul_0_l, N.add_0_l in E. rewrite E at 1. apply embeds_compatible.
  - assert (ip = seg 0 8194 + ip / 2 ^ 80 mod 2 ^ 32 * 2 ^ 80 + ip mod 2 ^ 80) as E2.
    { change (2 ^ 112) with (2 ^ 80 * 2 ^ 32) in E1. rewrite <- N.Div0.div_div in E1.
      change (seg 0 8194) with (8194 * 2 ^ 32 * 2 ^ 80). rewrite <- N.mul_add_distr_r, <- E1.
      rewrite (N.mul_comm _ (2 ^ 32)), <- N.div_mod, (N.mul_comm _ (2 ^ 80)) by done. by apply N.div_mod. }
    rewrite E2 at 1. apply embeds_6to4. by apply N.mod_upper_bound.
Qed.

Lemma is_blocked_ip_public (ip : IpAddr) : ip_ok ip -> (is_blocked_ip ip = false <-> public_ip ip).
Proof.
  destruct ip as [ip|ip]; intros H; [by apply is_blocked_ipv4_public|]. cbn [is_blocked_ip public_ip].
  rewrite <- in_netb_spec, not_true_iff_false. split.
  - intros Hb. split.
    + rewrite (is_blocked_ipv6_value ip H), orb_false_iff in Hb. apply Hb.
    + intros ip4 H4 He. apply is_blocked_ipv4_public; [done|]. by rewrite <- (embeds_verdict ip ip4).
  - intros [Hn Hp]. by rewrite (is_blocked_ipv6_value ip H), Hn, carried_public.
Qed.

(** ** Fetching *)

(** The hosts a URL may name. *)
Definition public_host (h : Host) : Prop :=
  match h with
  | Domain d => to_ascii_lowercase d <> "localhost"
  | HostV4 ip => public_ip (V4 ip)
  | HostV6 ip => public_ip (V6 ip)
  end.
Definition host_ok (h : Host) : Prop :=
  match h with Domain _ => True | HostV4 ip => ip_ok (V4 ip) | HostV6 ip => ip_ok (V6 ip) end.

Lemma is_blocked_url_public `{UrlHosts} (raw : string) :
  (forall scheme h, parse_url_host raw = Some (scheme, Some h) -> host_ok h) ->
  (is_blocked_url raw = false <->
   exists scheme h, parse_url_host raw = Some (scheme, Some h)
     /\ (scheme = "http" \/ scheme = "https") /\ public_host h).
Proof.
  intros Hok. unfold is_blocked_url. destruct (parse_url_host raw) as [[scheme host]|];
    [|split; [done|by intros (? & ? & ? & _)]].
  destruct ((scheme =s "http") || (scheme =s "https")) eqn:Es.
  - rewrite orb_true_iff, !eqs_true in Es. destruct host as [h|];
      [|split; [done|by intros (? & ? & ? & _)]].
    assert (match h with
            | Domain d => eq_ignore_ascii_case d "localhost"
            | HostV4 ip => is_blocked_ipv4 ip
            | HostV6 ip => is_blocked_ipv6 ip
            end = false <-> public_host h) as ->.
    { specialize (Hok scheme h eq_refl). destruct h as [d|ip|ip]; cbn in *.
      - unfold eq_ignore_ascii_case. by rewrite eqs_false.
      - by apply is_blocked_ipv4_public.
      - by apply (is_blocked_ip_public (V6 ip)). }
    split; [naive_solver|]. intros (? & ? & [= <- <-] & _ & Hp). done.
  - rewrite orb_false_iff, !eqs_false in Es. split; [done|].
    intros (? & ? & [= <- _] & [-> | ->] & _); naive_solver.
Qed.

Lemma filter_resolved_public (host : string) (resolved : list SocketAddr) :
  Forall (fun a => ip_ok (sock_ip a)) resolved ->
  match filter_resolved host resolved with
  | Ok addrs => addrs <> [] /\ forall a, a ∈ addrs <-> a ∈ resolved /\ public_ip (sock_ip a)
  | Err _ => forall a, a ∈ resolved -> ~ public_ip (sock_ip a)
  end.
Proof.
  intros Hok. rewrite List.Forall_forall in Hok. unfold filter_resolved.
  assert (forall a, a ∈ List.filter (fun s => negb (is_blocked_ip (sock_ip s))) resolved
            <-> a ∈ resolved /\ public_ip (sock_ip a)) as Hin.
  { intros a. rewrite !list_elem_of_In, List.filter_In, negb_true_iff.
    split; intros [Ha Hp]; (split; [done|]); by apply (is_blocked_ip_public _ (Hok a Ha)). }
  destruct (List.filter _ _) eqn:E; [|by split].
  intros a Ha Hp. by apply (not_elem_of_nil a), Hin.
Qed.

(** C13: What a fetcher may reach. Resolution answers exactly the addresses of the
    system resolver that are public: outside every special-purpose network
    (loopback, private, link-local, shared, benchmarking, multicast, reserved)
    and, for IPv6, spelling no internal IPv4 address as a mapped, compatible,
    NAT64 or 6to4 address; it answers an error when none is left, and passes
    errors of the resolver on. A URL passes the check exactly when it parses,
    is [http] or [https], and names a public address or a domain other than
    [localhost] in any case. *)
Theorem outbound_addresses_public `{UrlHosts} (lookup : string -> result (list SocketAddr) string)
    (host raw : string) :
  (forall resolved, lookup host = Ok resolved -> Forall (fun a => ip_ok (sock_ip a)) resolved) ->
  (forall scheme h, parse_url_host raw = Some (scheme, Some h) -> host_ok h) ->
  match lookup host, resolve lookup host with
  | Ok resolved, Ok addrs =>
      addrs <> [] /\ forall a, a ∈ addrs <-> a ∈ resolved /\ public_ip (sock_ip a)
  | Ok resolved, Err _ => forall a, a ∈ resolved -> ~ public_ip (sock_ip a)
  | Err e, r => r = Err e
  end
  /\ (is_blocked_url raw = false <->
      exists scheme h, parse_url_host raw = Some (scheme, Some h)
        /\ (scheme = "http" \/ scheme = "https") /\ public_host h).
Proof.
  intros Hl Hu. split; [|by apply is_blocked_url_public].
  unfold resolve. destruct (lookup host) as [resolved|e]; cbn; [|done].
  by apply filter_resolved_public, Hl.
Qed.

(** A resolver that answers one public and one internal address, the second
    in its NAT64 spelling, and a parser that knows one URL. *)
Definition sample_lookup (host : string) : result (list SocketAddr) string :=
  Ok [mkSocket (V4 (v4 93 184 216 34)) 443;
      mkSocket (V6 (seg 0 100 + seg 1 65435 + v4 10 0 0 5)) 443].
Definition sample_urls : UrlHosts :=
  {| parse_url_host raw := if raw =s "http://10.0.0.5/" then Some ("http", Some (HostV4 (v4 10 0 0 5))) else None |}.

Lemma outbound_addresses_public_witness :
  resolve sample_lookup "example.com" = Ok [mkSocket (V4 (v4 93 184 216 34)) 443]
  /\ @is_blocked_url sample_urls "http://10.0.0.5/" = true
  /\ public_ip (V4 (v4 93 184 216 34)).
Proof.
  split; [vm_compute; reflexivity|]. split; [vm_compute; reflexivity|].
  destruct (@outbound_addresses_public sample_urls sample_lookup "example.com" "http://10.0.0.5/") as [H _].
  - intros resolved [= <-]. repeat constructor.
  - intros scheme h E. cbv in E. injection E as <- <-. reflexivity.
  - cbn [sample_lookup] in H. destruct H as [_ H].
    apply (H (mkSocket (V4 (v4 93 184 216 34)) 443)). left.
Defined.
