(* ===== verification/Lifecycle.v ===== *)
(** Lifecycle events and block configuration ([wafer-block/src/core_types.rs],
    [config.rs]): what a block reads of its configuration at [Init]. *)

From S2P Require Import Prelude CoreTypes Text.

Module LifecycleType.
Inductive t := Init | Start | Stop.
#[global] Instance t_eq_dec : EqDecision t.
Proof. solve_decision. Defined.
End LifecycleType.

Record LifecycleEvent := mkEvent { event_type : LifecycleType.t; event_data : string }.

(** [Value::get] with a string key, [Value::as_str] and [Value::as_array]. *)
Definition value_get (v : Value) (key : string) : option Value :=
  match v with VObject l => assoc key l | _ => None end.
Definition as_str (v : Value) : option string := match v with VString s => Some s | _ => None end.
Definition as_array (v : Value) : option (list Value) := match v with VArray l => Some l | _ => None end.

Record BlockConfig := mkConfig { inner : option Value }.

Section Config.
  Context `{JsonCrate}.

(** [BlockConfig::from_event]. *)
Definition from_event (event : LifecycleEvent) : BlockConfig :=
  mkConfig (if negb (is_empty (event_data event)) then from_json (event_data event) else None).
End Config.

(** [BlockConfig::get]. *)
Definition block_config_get (c : BlockConfig) (key : string) : option Value :=
  match inner c with Some v => value_get v key | None => None end.

(** [BlockConfig::str] and [str_or]. *)
Definition config_str (c : BlockConfig) (key : string) : string :=
  default "" (match block_config_get c key with Some v => as_str v | None => None end).
Definition config_str_or (c : BlockConfig) (key dflt : string) : string :=
  let v := config_str c key in if is_empty v then dflt else v.

(** [BlockConfig::bool]. *)
Definition config_bool (c : BlockConfig) (key : string) : option bool :=
  match block_config_get c key with
  | Some (VBool b) => Some b
  | Some (VString s) => if s =s "true" then Some true else if s =s "false" then Some false else None
  | _ => None
  end.

(** [BlockConfig::str_array]: entries that are no strings are dropped. *)
Definition config_str_array (c : BlockConfig) (key : string) : option (list string) :=
  match block_config_get c key with
  | Some v => option_map (omap as_str) (as_array v)
  | None => None
  end.

(** [BlockConfig::as_value]. *)
Definition as_value (c : BlockConfig) : Value := default VNull (inner c).

Inductive DispatchTarget := TargetFlow (flow : string) | TargetBlock (block : string).

(** [DispatchTarget::from_config]. *)
Definition dispatch_target_from_config (config : option Value) : option DispatchTarget :=
  let key k := default "" (match config with
                           | Some c => match value_get c k with Some v => as_str v | None => None end
                           | None => None
                           end) in
  if negb (is_empty (key "block")) then Some (TargetBlock (key "block"))
  else if negb (is_empty (key "flow")) then Some (TargetFlow (key "flow"))
  else None.
