(* ===== verification/Requests.v ===== *)
(** Requests as messages: the accessors of [wafer-block/src/types/message_ext.rs]
    and the request half of [wafer-block/src/http_codec.rs], which builds the
    message of an HTTP request head.

    Case mapping beyond ASCII and the decoding of query strings (the [url]
    crate) are parameters. *)

From S2P Require Import Prelude CoreTypes Text Accumulator.

(** [url::form_urlencoded::parse]: the decoded pairs, in order. *)
Class FormUrlencoded := { form_parse : string -> list (string * string) }.

(** ** Keys ([meta.rs], [http_codec.rs]) *)

Definition META_REQ_RESOURCE : string := "req.resource".
Definition META_REQ_PARAM_PREFIX : string := "req.param.".
Definition META_REQ_QUERY_PREFIX : string := "req.query.".
Definition META_REQ_CLIENT_IP : string := "req.client.ip".
Definition META_REQ_CONTENT_TYPE : string := "req.content_type".
Definition META_AUTH_USER_ID : string := "auth.user_id".
Definition META_HTTP_METHOD : string := "http.method".
Definition META_HTTP_PATH : string := "http.path".
Definition META_HTTP_RAW_QUERY : string := "http.raw_query".
Definition META_HTTP_REMOTE_ADDR : string := "http.remote_addr".
Definition META_HTTP_CONTENT_TYPE : string := "http.content_type".
Definition META_HTTP_HOST : string := "http.host".
Definition META_HTTP_HEADER_PREFIX : string := "http.header.".
Definition META_HTTP_QUERY_PREFIX : string := "http.query.".

(** ** Accessors *)

(** [Message::new] and [Message::set_meta]. *)
Definition message_new (kind : string) : Message := mkMessage kind [].
Definition set_meta (m : Message) (key value : string) : Message :=
  mkMessage (msg_kind m) (meta_set (msg_meta m) key value).

Definition path (m : Message) : string := get_meta m META_REQ_RESOURCE.
Definition user_id (m : Message) : string := get_meta m META_AUTH_USER_ID.
Definition remote_addr (m : Message) : string := get_meta m META_REQ_CLIENT_IP.
Definition var (m : Message) (name : string) : string := get_meta m (META_REQ_PARAM_PREFIX +:+ name).
Definition query (m : Message) (name : string) : string := get_meta m (META_REQ_QUERY_PREFIX +:+ name).

(** [Message::header]. *)
Definition header `{UnicodeLower} (m : Message) (name : string) : string :=
  let val := get_meta m ("http.header." +:+ name) in
  if negb (is_empty val) then val else get_meta m ("http.header." +:+ to_lowercase name).

(** The loop of [Message::cookie]. *)
Fixpoint cookie_of (parts : list string) (name : string) : string :=
  match parts with
  | [] => ""
  | part :: parts =>
      match split_once "=" (trim part) with
      | Some (key, value) => if key =s name then value else cookie_of parts name
      | None => cookie_of parts name
      end
  end.

(** [Message::cookie]. *)
Definition cookie `{UnicodeLower} (m : Message) (name : string) : string :=
  let cookies := header m "cookie" in
  if is_empty cookies then "" else cookie_of (split ";" cookies) name.

(** [Message::query_params]: a later entry replaces an earlier one. *)
Definition query_params (m : Message) : gmap string string :=
  fold_left (fun params e =>
    match strip_prefix META_REQ_QUERY_PREFIX (me_key e) with
    | Some name => <[name := me_value e]> params
    | None => params
    end) (msg_meta m) ∅.

(** [usize] arithmetic that saturates. *)
Definition usize_saturating_mul (a b : N) : N := N.min (a * b) (2 ^ 64 - 1).
Definition clamp (lo hi n : N) : N := if (n <? lo)%N then lo else if (hi <? n)%N then hi else n.

(** [Message::pagination_params]: the page, its size and its offset. *)
Definition pagination_params (m : Message) (default_page_size : N) : N * N * N :=
  let page := N.max (default 1%N (parse_usize (query m "page"))) 1 in
  let page_size :=
    clamp 1 100 (match parse_usize (query m "page_size") with
                 | Some n => if (0 <? n)%N then n else default_page_size
                 | None => default_page_size
                 end) in
  (page, page_size, usize_saturating_mul (page - 1) page_size).

(** ** HTTP methods *)

Module RequestAction.
Inductive t := Retrieve | Create | Update | Delete | Execute.
Definition as_str (a : t) : string :=
  match a with
  | Retrieve => "retrieve" | Create => "create" | Update => "update"
  | Delete => "delete" | Execute => "execute"
  end.
End RequestAction.

(** [try_action_for_http_method]. *)
Definition try_action_for_http_method (token : string) : option string :=
  let t := to_ascii_uppercase token in
  if (t =s "GET") || (t =s "HEAD") then Some (RequestAction.as_str RequestAction.Retrieve)
  else if t =s "POST" then Some (RequestAction.as_str RequestAction.Create)
  else if (t =s "PUT") || (t =s "PATCH") then Some (RequestAction.as_str RequestAction.Update)
  else if t =s "DELETE" then Some (RequestAction.as_str RequestAction.Delete)
  else if t =s "OPTIONS" then Some (RequestAction.as_str RequestAction.Execute)
  else None.

(** [action_for_http_method]. *)
Definition action_for_http_method (method : string) : string :=
  default (RequestAction.as_str RequestAction.Execute) (try_action_for_http_method method).

(** ** Building the message *)

Section Build.
  Context `{UnicodeLower} `{FormUrlencoded}.

(** One field line onto the joined headers. *)
Fixpoint join_header (header_meta : list (string * string)) (name value : string)
  : list (string * string) :=
  match header_meta with
  | [] => [(name, value)]
  | (seen, joined) :: rest =>
      if seen =s name
      then (seen, joined +:+ (if name =s "cookie" then "; " else ", ") +:+ value) :: rest
      else (seen, joined) :: join_header rest name value
  end.

Definition join_headers (headers : list (string * string)) : list (string * string) :=
  fold_left (fun acc '(name, value) => join_header acc (to_lowercase name) value) headers [].

Definition joined (header_meta : list (string * string)) (wanted : string) : string :=
  default "" (assoc wanted header_meta).

Definition set_headers (m : Message) (header_meta : list (string * string)) : Message :=
  fold_left (fun m '(name, value) => set_meta m (META_HTTP_HEADER_PREFIX +:+ name) value) header_meta m.

Definition set_query (m : Message) (raw_query : string) : Message :=
  if negb (is_empty raw_query) then
    fold_left (fun m '(key, value) =>
      set_meta (set_meta m (META_HTTP_QUERY_PREFIX +:+ key) value) (META_REQ_QUERY_PREFIX +:+ key) value)
      (form_parse raw_query) m
  else m.

(** [build_http_message]. *)
Definition build_http_message (method path raw_query remote_addr : string)
    (headers : list (string * string)) : Message :=
  let method := to_ascii_uppercase method in
  let msg := message_new (method +:+ ":" +:+ path) in
  let header_meta := join_headers headers in
  let content_type := joined header_meta "content-type" in
  let host := joined header_meta "host" in
  let msg := set_meta msg META_HTTP_METHOD method in
  let msg := set_meta msg META_HTTP_PATH path in
  let msg := set_meta msg META_HTTP_RAW_QUERY raw_query in
  let msg := set_meta msg META_HTTP_REMOTE_ADDR remote_addr in
  let msg := set_meta msg META_HTTP_CONTENT_TYPE content_type in
  let msg := set_meta msg META_HTTP_HOST host in
  let msg := set_meta msg META_REQ_ACTION (action_for_http_method method) in
  let msg := set_meta msg META_REQ_RESOURCE path in
  let msg := set_meta msg META_REQ_CLIENT_IP remote_addr in
  let msg := set_meta msg META_REQ_CONTENT_TYPE content_type in
  set_query (set_headers msg header_meta) raw_query.
End Build.

Definition SINGLETON_REQUEST_HEADERS : list string :=
  ["authorization"; "content-length"; "content-type"; "host"].

(** The loop of [repeated_singleton_header]; [seen] are the names met. *)
Fixpoint repeated_singleton (seen names : list string) : option string :=
  match names with
  | [] => None
  | name :: names =>
      match List.find (fun s => eq_ignore_ascii_case s name) SINGLETON_REQUEST_HEADERS with
      | Some s => if existsb (String.eqb s) seen then Some s else repeated_singleton (s :: seen) names
      | None => repeated_singleton seen names
      end
  end.

(** [repeated_singleton_header]. *)
Definition repeated_singleton_header (names : list string) : option string := repeated_singleton [] names.

(** * Properties of request messages: the metadata of a request message is a
    function of the request, which no header and no query parameter bends. *)

(** ** Sequences of [set_meta] *)

Definition sets (l : list (string * string)) (m : Message) : Message :=
  fold_left (fun m kv => set_meta m kv.1 kv.2) l m.

(** The value the last setting of [k] gives. *)
Fixpoint last_value (k : string) (l : list (string * string)) : option string :=
  match l with
  | [] => None
  | (k', v) :: l => match last_value k l with
                    | Some v => Some v
                    | None => if k' =s k then Some v else None
                    end
  end.

Lemma sets_app (l1 l2 : list (string * string)) (m : Message) : sets (l1 ++ l2) m = sets l2 (sets l1 m).
Proof. apply fold_left_app. Qed.

Lemma sets_get (l : list (string * string)) (m : Message) (k : string) :
  meta_get (msg_meta (sets l m)) k
  = match last_value k l with Some v => Some v | None => meta_get (msg_meta m) k end.
Proof.
  revert m. induction l as [|[k' v] l IH]; intros m; [done|]. cbn [sets fold_left last_value fst snd].
  fold (sets l (set_meta m k' v)). rewrite IH. destruct (last_value k l); [done|].
  unfold set_meta. cbn [msg_meta]. destruct (k' =s k) eqn:E.
  - apply eqs_true in E as ->. apply meta_get_set_eq.
  - apply eqs_false in E. by apply meta_get_set_ne.
Qed.

Lemma last_value_app (k : string) (l1 l2 : list (string * string)) :
  last_value k (l1 ++ l2) = match last_value k l2 with Some v => Some v | None => last_value k l1 end.
Proof.
  induction l1 as [|[k' v] l1 IH]; cbn; [by destruct (last_value k l2)|]. rewrite IH.
  by destruct (last_value k l2).
Qed.

(** Settings of other keys. *)
Lemma last_value_none (k : string) (l : list (string * string)) :
  (forall k', k' ∈ l.*1 -> k' <> k) -> last_value k l = None.
Proof.
  induction l as [|[k' v] l IH]; intros Hk; [done|]. cbn. rewrite IH.
  - assert (k' <> k) as N by (apply Hk; left). by apply eqs_false in N as ->.
  - intros k0 Hin. apply Hk. by right.
Qed.

Lemma last_value_prefixed (p k : string) (l : list (string * string)) :
  last_value (p +:+ k) ((fun '(n, v) => (p +:+ n, v)) <$> l) = last_value k l.
Proof.
  induction l as [|[n v] l IH]; [done|]. cbn. rewrite IH. destruct (last_value k l); [done|].
  destruct (n =s k) eqn:E.
  - apply eqs_true in E as ->. by rewrite eqs_refl.
  - assert (p +:+ n <> p +:+ k) as N by (intros Hn; apply eqs_false in E; by apply (inj (String.append p)) in Hn).
    by apply eqs_false in N as ->.
Qed.

Lemma prefixed_keys (p k : string) (l : list (string * string)) :
  starts_with p k = false -> last_value k ((fun '(n, v) => (p +:+ n, v)) <$> l) = None.
Proof.
  intros Hp. apply last_value_none. intros k'. rewrite list_elem_of_fmap. intros ([k0 v0] & -> & Hin).
  rewrite list_elem_of_fmap in Hin. destruct Hin as ([n v] & [= -> ->] & _). cbn.
  intros <-. by rewrite starts_with_app in Hp.
Qed.

(** A list of distinct keys. *)
Lemma last_value_assoc (k : string) (l : list (string * string)) :
  NoDup l.*1 -> last_value k l = assoc k l.
Proof.
  induction l as [|[k' v] l IH]; [done|]. cbn. intros [Hn Hd]%NoDup_cons. rewrite (IH Hd).
  destruct (k' =s k) eqn:E; [|by destruct (assoc k l)].
  apply eqs_true in E as ->. rewrite <- (IH Hd), last_value_none; [done|].
  intros k0 Hk ->. done.
Qed.

Lemma meta_set_keys (m : list MetaEntry) (k v : string) :
  NoDup (me_key <$> m) -> NoDup (me_key <$> meta_set m k v)
  /\ forall k', k' ∈ me_key <$> meta_set m k v <-> k' ∈ me_key <$> m \/ k' = k.
Proof.
  induction m as [|e m IH]; cbn [meta_set fmap list_fmap].
  - intros _. split; [apply NoDup_singleton|]. set_solver.
  - intros [Hn Hd]%NoDup_cons. destruct (me_key e =s k) eqn:E.
    + apply eqs_true in E. cbn. split; [by constructor|]. set_solver.
    + apply eqs_false in E. destruct (IH Hd) as [H1 H2]. cbn. split.
      * constructor; [|done]. rewrite H2. naive_solver.
      * intros k'. rewrite !elem_of_cons, H2. tauto.
Qed.

Lemma sets_keys (l : list (string * string)) (m : Message) :
  NoDup (me_key <$> msg_meta m) -> NoDup (me_key <$> msg_meta (sets l m)).
Proof.
  revert m. induction l as [|[k v] l IH]; intros m Hm; [done|]. apply IH. by apply meta_set_keys.
Qed.

(** ** Repeated headers *)

Section Headers.
  Context `{UnicodeLower} `{FormUrlencoded}.

Definition separator (name : string) : string := if name =s "cookie" then "; " else ", ".

Lemma join_snoc (sep : string) (l : list string) (x : string) :
  l <> [] -> join sep (l ++ [x]) = join sep l +:+ sep +:+ x.
Proof.
  induction l as [|y [|z l] IH]; intros Hl; [done|done|].
  change (y +:+ sep +:+ join sep ((z :: l) ++ [x]) = (y +:+ sep +:+ join sep (z :: l)) +:+ sep +:+ x).
  rewrite IH by done. by rewrite <- !str_app_assoc.
Qed.

Lemma assoc_join_header (n name value : string) (acc : list (string * string)) :
  assoc n (join_header acc name value)
  = if name =s n
    then Some (match assoc n acc with Some j => j +:+ separator n +:+ value | None => value end)
    else assoc n acc.
Proof.
  induction acc as [|[seen j] acc IH]; cbn; [done|].
  destruct (seen =s name) eqn:E.
  - apply eqs_true in E as ->. cbn. destruct (name =s n) eqn:E; [|done]. by apply eqs_true in E as ->.
  - cbn. rewrite IH. destruct (seen =s n) eqn:E2; [|done].
    apply eqs_true in E2 as ->. by rewrite (String.eqb_sym name n), E.
Qed.

Lemma join_header_keys (name value : string) (acc : list (string * string)) :
  NoDup acc.*1 -> NoDup (join_header acc name value).*1
  /\ forall k, k ∈ (join_header acc name value).*1 <-> k ∈ acc.*1 \/ k = name.
Proof.
  induction acc as [|[seen j] acc IH]; cbn.
  - intros _. split; [apply NoDup_singleton|]. set_solver.
  - intros [Hn Hd]%NoDup_cons. destruct (seen =s name) eqn:E; cbn.
    + apply eqs_true in E. split; [by constructor|]. set_solver.
    + apply eqs_false in E. destruct (IH Hd) as [H1 H2]. split.
      * constructor; [|done]. rewrite H2. naive_solver.
      * intros k. rewrite !elem_of_cons, H2. tauto.
Qed.

(** The values of the field lines of a name, in wire order. *)
Definition field_lines (n : string) (headers : list (string * string)) : list string :=
  omap (fun '(name, value) => if to_lowercase name =s n then Some value else None) headers.

Definition joined_lines (n : string) (headers : list (string * string)) : option string :=
  match field_lines n headers with [] => None | vs => Some (join (separator n) vs) end.

Lemma join_headers_snoc (headers : list (string * string)) (name value : string) :
  join_headers (headers ++ [(name, value)]) = join_header (join_headers headers) (to_lowercase name) value.
Proof. unfold join_headers. by rewrite fold_left_app. Qed.

Lemma join_headers_spec (headers : list (string * string)) :
  NoDup (join_headers headers).*1 /\ forall n, assoc n (join_headers headers) = joined_lines n headers.
Proof.
  induction headers as [|[name value] headers [IHn IH]] using rev_ind.
  - split; [constructor|done].
  - rewrite join_headers_snoc. split; [by apply join_header_keys|].
    intros n. rewrite assoc_join_header, IH. unfold joined_lines, field_lines. rewrite omap_app. cbn.
    destruct (to_lowercase name =s n); [|by rewrite app_nil_r].
    set (vs := omap _ headers). destruct vs as [|w ws] eqn:E; [done|].
    change (Some (join (separator n) (w :: ws) +:+ separator n +:+ value)
            = Some (join (separator n) ((w :: ws) ++ [value]))). by rewrite join_snoc.
Qed.

(** ** The message *)

(** What the request line fixes. *)
Definition fixed_meta (method path raw_query remote_addr : string) (headers : list (string * string))
  : list (string * string) :=
  let method := to_ascii_uppercase method in
  let content_type := default "" (joined_lines "content-type" headers) in
  [(META_HTTP_METHOD, method); (META_HTTP_PATH, path); (META_HTTP_RAW_QUERY, raw_query);
   (META_HTTP_REMOTE_ADDR, remote_addr); (META_HTTP_CONTENT_TYPE, content_type);
   (META_HTTP_HOST, default "" (joined_lines "host" headers));
   (META_REQ_ACTION, action_for_http_method method); (META_REQ_RESOURCE, path);
   (META_REQ_CLIENT_IP, remote_addr); (META_REQ_CONTENT_TYPE, content_type)].

Definition query_pairs (raw_query : string) : list (string * string) :=
  if is_empty raw_query then [] else form_parse raw_query.

Definition query_meta (pairs : list (string * string)) : list (string * string) :=
  flat_map (fun '(k, v) => [(META_HTTP_QUERY_PREFIX +:+ k, v); (META_REQ_QUERY_PREFIX +:+ k, v)]) pairs.

Lemma build_sets (method path raw_query remote_addr : string) (headers : list (string * string)) :
  build_http_message method path raw_query remote_addr headers
  = sets (fixed_meta method path raw_query remote_addr headers
          ++ ((fun '(n, v) => (META_HTTP_HEADER_PREFIX +:+ n, v)) <$> join_headers headers)
          ++ query_meta (query_pairs raw_query))
      (message_new (to_ascii_uppercase method +:+ ":" +:+ path)).
Proof.
  assert (forall l m, set_headers m l = sets ((fun '(n, v) => (META_HTTP_HEADER_PREFIX +:+ n, v)) <$> l) m) as Hh.
  { induction l as [|[n v] l IH]; intros m; [done|]. apply IH. }
  assert (forall m, set_query m raw_query = sets (query_meta (query_pairs raw_query)) m) as Hq.
  { unfold set_query, query_pairs. destruct (is_empty raw_query); [done|]. cbn [negb].
    induction (form_parse raw_query) as [|[k v] l IH]; intros m; [done|]. apply IH. }
  rewrite !sets_app. unfold build_http_message, fixed_meta, joined. rewrite Hq, Hh.
  by rewrite !(proj2 (join_headers_spec headers)).
Qed.

Lemma query_meta_get (p k : string) (pairs : list (string * string)) :
  p = META_HTTP_QUERY_PREFIX \/ p = META_REQ_QUERY_PREFIX ->
  last_value (p +:+ k) (query_meta pairs) = last_value k pairs.
Proof.
  intros Hp. induction pairs as [|[k' v] pairs IH]; [done|]. cbn [query_meta flat_map app].
  fold (query_meta pairs). cbn [last_value]. rewrite IH. destruct (last_value k pairs); [done|].
  destruct Hp as [-> | ->]; cbn; destruct (k' =s k); done.
Qed.

Lemma query_meta_other (k : string) (pairs : list (string * string)) :
  starts_with META_HTTP_QUERY_PREFIX k = false -> starts_with META_REQ_QUERY_PREFIX k = false ->
  last_value k (query_meta pairs) = None.
Proof.
  intros H1 H2. apply last_value_none. intros k' Hin ->.
  apply list_elem_of_fmap in Hin as ([k0 v0] & -> & Hin).
  apply list_elem_of_In, in_flat_map in Hin as ([k1 v1] & _ & Hin).
  destruct Hin as [E | [E | []]]; apply (f_equal fst) in E; cbn [fst] in *; subst k0.
  - by rewrite starts_with_app in H1.
  - by rewrite starts_with_app in H2.
Qed.
End Headers.

(** Distinct settings. *)
Lemma fixed_get `{UnicodeLower} (method path raw_query remote_addr : string)
    (headers : list (string * string)) (k v : string) :
  (k, v) ∈ fixed_meta method path raw_query remote_addr headers ->
  last_value k (fixed_meta method path raw_query remote_addr headers) = Some v
  /\ Forall (fun p => starts_with p k = false)
       [META_HTTP_HEADER_PREFIX; META_HTTP_QUERY_PREFIX; META_REQ_QUERY_PREFIX].
Proof.
  intros Hin. unfold fixed_meta in *. cbv zeta in *. rewrite !elem_of_cons, elem_of_nil in Hin.
  repeat destruct Hin as [[= -> ->] | Hin]; try done; (split; [reflexivity|repeat constructor]).
Qed.

Lemma build_fixed `{UnicodeLower} `{FormUrlencoded} (method path raw_query remote_addr : string)
    (headers : list (string * string)) (k v : string) :
  (k, v) ∈ fixed_meta method path raw_query remote_addr headers ->
  get_meta (build_http_message method path raw_query remote_addr headers) k = v.
Proof.
  intros Hin. apply fixed_get in Hin as [Hv Hp]. rewrite !Forall_cons in Hp.
  destruct Hp as (P1 & P2 & P3 & _). unfold get_meta. rewrite build_sets, sets_get, !last_value_app.
  by rewrite query_meta_other, prefixed_keys, Hv by done.
Qed.

(** A name a header is stored under is lower case. *)
Lemma joined_lines_lower `{UnicodeLower} (n v : string) (headers : list (string * string)) :
  Forall (fun h => is_ascii h.1 = true) headers -> joined_lines n headers = Some v ->
  to_ascii_lowercase n = n.
Proof.
  unfold joined_lines. destruct (field_lines n headers) as [|x xs] eqn:E; [done|]. intros Ha _.
  assert (x ∈ field_lines n headers) as Hx by (rewrite E; left).
  apply list_elem_of_omap in Hx as ([name value] & Hin & Hx).
  destruct (to_lowercase name =s n) eqn:En; [|done]. apply eqs_true in En as <-.
  rewrite Forall_forall in Ha. rewrite to_lowercase_ascii by apply (Ha (name, value) Hin).
  apply lowercase_idem.
Qed.

(** The metadata of an HTTP request's message is a function of the request,
    and each entry is one thing of it. Keys are distinct. The request line,
    the peer address and the content type are where blocks read them, whatever
    headers and query parameters the request carries: a parameter or a header
    never replaces an entry of another kind. A header is the field lines of
    its name in any case, joined in wire order (with ["; "] for cookies and
    [", "] otherwise); a query parameter is the last value of its key; and
    reading a header finds it in any ASCII case. *)
Theorem http_message_faithful `{UnicodeLower} `{FormUrlencoded}
    (method path raw_query remote_addr : string) (headers : list (string * string)) :
  let m := build_http_message method path raw_query remote_addr headers in
  NoDup (me_key <$> msg_meta m)
  /\ Requests.path m = path /\ Requests.remote_addr m = remote_addr
  /\ action m = action_for_http_method (to_ascii_uppercase method)
  /\ (forall k v, (k, v) ∈ fixed_meta method path raw_query remote_addr headers -> get_meta m k = v)
  /\ (forall n, meta_get (msg_meta m) (META_HTTP_HEADER_PREFIX +:+ n) = joined_lines n headers)
  /\ (forall k, meta_get (msg_meta m) (META_REQ_QUERY_PREFIX +:+ k) = last_value k (query_pairs raw_query))
  /\ (Forall (fun h => is_ascii h.1 = true) headers -> forall name, is_ascii name = true ->
      header m name = default "" (joined_lines (to_ascii_lowercase name) headers)).
Proof.
  cbv zeta. set (m := build_http_message _ _ _ _ _).
  assert (forall k v, (k, v) ∈ fixed_meta method path raw_query remote_addr headers -> get_meta m k = v) as Hf
    by apply build_fixed.
  assert (forall n, meta_get (msg_meta m) (META_HTTP_HEADER_PREFIX +:+ n) = joined_lines n headers) as Hh.
  { intros n. unfold m. rewrite build_sets, sets_get, !last_value_app.
    rewrite query_meta_other, last_value_prefixed, last_value_assoc by (done || apply join_headers_spec).
    rewrite (proj2 (join_headers_spec headers)). by destruct (joined_lines n headers). }
  split_and!; [|apply Hf; unfold fixed_meta; set_solver..|done|done| |].
  - unfold m. rewrite build_sets. apply sets_keys. constructor.
  - intros k. unfold m. rewrite build_sets, sets_get, !last_value_app.
    rewrite query_meta_get by auto. destruct (last_value k _); [done|].
    rewrite prefixed_keys by done. reflexivity.
  - intros Ha name Hn. unfold header, get_meta.
    change "http.header." with META_HTTP_HEADER_PREFIX. rewrite !Hh, to_lowercase_ascii by done.
    destruct (joined_lines name headers) as [v|] eqn:E; [|done].
    rewrite (joined_lines_lower _ _ _ Ha E), E. by destruct v.
Qed.

(** Case mapping and decoding on plain ASCII text. *)
Lemma lowercase_app (a r : string) :
  to_ascii_lowercase (a +:+ r) = to_ascii_lowercase a +:+ to_ascii_lowercase r.
Proof. apply str_map_app. Qed.

Definition plain_case : UnicodeLower :=
  {| to_lowercase := to_ascii_lowercase; to_lowercase_ascii s _ := eq_refl;
     to_lowercase_ascii_prefix a r _ := ex_intro _ _ (lowercase_app a r) |}.
Definition plain_form : FormUrlencoded :=
  {| form_parse s := map (fun p => default (p, "") (split_once "=" p)) (split "&" s) |}.
#[local] Existing Instance plain_case.
#[local] Existing Instance plain_form.

Lemma http_message_faithful_witness :
  let m := build_http_message "get" "/a" "x=1&x=2" "10.0.0.1:80"
             [("Cookie", "a=1"); ("X-Tag", "u"); ("COOKIE", "b=2"); ("x-tag", "v")] in
  header m "x-TAG" = "u, v" /\ header m "Cookie" = "a=1; b=2"
  /\ action m = "retrieve" /\ query m "x" = "2" /\ NoDup (me_key <$> msg_meta m).
Proof.
  pose proof (http_message_faithful "get" "/a" "x=1&x=2" "10.0.0.1:80"
    [("Cookie", "a=1"); ("X-Tag", "u"); ("COOKIE", "b=2"); ("x-tag", "v")])
    as (Hd & _ & _ & _ & _ & _ & _ & Hh).
  specialize (Hh ltac:(repeat constructor)).
  cbv zeta. split_and!; [exact (Hh "x-TAG" eq_refl)|exact (Hh "Cookie" eq_refl)|reflexivity|reflexivity|exact Hd].
Defined.
