(* ===== verification/Routing.v ===== *)
(** Routing: path patterns ([wafer-block/src/executor.rs]), the router block
    ([wafer-block-router/src/lib.rs]) and the readonly guard
    ([wafer-block-readonly-guard/src/lib.rs]).

    A handler is a function of what the context answers ([config_get],
    [call_block]); the state of a block that is written once at [Init] (a
    [OnceLock]) is an option. *)

From stdpp Require Import pretty.
From S2P Require Import Prelude CoreTypes Text Lifecycle Requests Streams.

(** The byte of a string at an index. *)
Fixpoint byte_at (n : nat) (s : string) : option ascii :=
  match n, s with
  | _, EmptyString => None
  | 0, String c _ => Some c
  | S n, String _ s => byte_at n s
  end.
Definition byte_is (s : string) (n : nat) (c : ascii) : bool :=
  match byte_at n s with Some a => Ascii.eqb a c | None => false end.

(** ** Path patterns *)

Definition is_placeholder (pp : string) : bool := starts_with "{" pp && ends_with "}" pp.

(** The loop of [match_path] over two lists of the same length. *)
Fixpoint match_segments (pattern_parts path_parts : list string) : bool :=
  match pattern_parts, path_parts with
  | pp :: pattern_parts, actual :: path_parts =>
      if is_placeholder pp then
        if is_empty actual then false else match_segments pattern_parts path_parts
      else if negb (pp =s actual) then false
      else match_segments pattern_parts path_parts
  | _, _ => true
  end.

(** [match_path]. *)
Definition match_path (pattern path : string) : bool :=
  if pattern =s path then true
  else match strip_suffix "/**" pattern with
  | Some prefix =>
      (path =s prefix)
      || (String.length prefix <? String.length path) && starts_with prefix path
         && byte_is path (String.length prefix) "/"
  | None =>
      let pattern_parts := split "/" pattern in
      let path_parts := split "/" path in
      if negb (length pattern_parts =? length path_parts) then false
      else match_segments pattern_parts path_parts
  end.

(** [matches_pattern]. *)
Definition matches_pattern (pattern message_kind : string) : bool :=
  let below prefix :=
    (String.length prefix <? String.length message_kind) && starts_with prefix message_kind
    && byte_is message_kind (String.length prefix) "." in
  if is_empty pattern || (pattern =s "*") then true
  else match find ":/" pattern with
  | Some idx =>
      match find ":/" message_kind with
      | None => false
      | Some msg_idx =>
          let pattern_method := str_take idx pattern in
          if negb (pattern_method =s "*") && negb (pattern_method =s str_take msg_idx message_kind)
          then false
          else match_path (str_drop (idx + 1) pattern) (str_drop (msg_idx + 1) message_kind)
      end
  | None =>
      if pattern =s message_kind then true
      else match strip_suffix ".**" pattern with
      | Some prefix => below prefix
      | None =>
          match strip_suffix ".*" pattern with
          | Some prefix =>
              if negb (below prefix) then false
              else negb (contains "." (str_drop (String.length prefix + 1) message_kind))
          | None => false
          end
      end
  end.

(** The name between the braces of a placeholder. *)
Definition placeholder_name (pp : string) : string := str_take (String.length pp - 2) (str_drop 1 pp).

(** The loop of [extract_path_vars]. *)
Fixpoint extract_vars (pattern_parts path_parts : list string) (m : Message) : Message :=
  match pattern_parts, path_parts with
  | pp :: pattern_parts, part :: path_parts =>
      let m := if is_placeholder pp
               then set_meta m (META_REQ_PARAM_PREFIX +:+ placeholder_name pp) part else m in
      extract_vars pattern_parts path_parts m
  | _, _ => m
  end.

(** [extract_path_vars]. *)
Definition extract_path_vars (pattern path : string) (m : Message) : Message :=
  let pattern := default pattern (strip_suffix "/**" pattern) in
  extract_vars (split "/" pattern) (split "/" path) m.

(** [shape_of]: a segment without the name of its placeholder. *)
Definition shape_of (segment : string) : string :=
  match match strip_prefix "{" segment with Some inner => strip_suffix "}" inner | None => None end with
  | Some inner => if (3 <? String.length inner) && ends_with "..." inner then "{...}" else "{}"
  | None => segment
  end.

(** [route_shape]. *)
Definition route_shape (pattern : string) : string :=
  if ends_with "/**" pattern || forallb (fun s => shape_of s =s s) (split "/" pattern) then pattern
  else join "/" (map shape_of (split "/" pattern)).

(** ** The router *)

Record Route := mkRoute {
  rt_path : string;
  rt_actions : list string;
  rt_raw_actions : list string;
  rt_block : string
}.

Record RouteConfigError := mkRouteError { re_index : option N; re_reason : string }.

(** [Display for RouteConfigError]. *)
Definition route_error_display (e : RouteConfigError) : string :=
  match re_index e with
  | Some i => "routes[" +:+ pretty i +:+ "]: " +:+ re_reason e
  | None => "routes: " +:+ re_reason e
  end.

Definition backquoted (s : string) : string := "`" +:+ s +:+ "`".

(** [Iterator::collect] into an option. *)
Fixpoint collect_options {A} (l : list (option A)) : option (list A) :=
  match l with
  | [] => Some []
  | Some a :: l => option_map (cons a) (collect_options l)
  | None :: _ => None
  end.

Section Router.
  Context `{JsonCrate} `{UnicodeLower}.

(** [normalize_action]. *)
Definition normalize_action (s : string) : string :=
  match try_action_for_http_method s with Some a => a | None => to_lowercase s end.

Definition required (entry : Value) (key : string) : result string string :=
  let refused := Err (backquoted key +:+ " must be a non-empty string in " +:+ display_json entry) in
  match match value_get entry key with Some v => as_str v | None => None end with
  | Some s => if negb (is_empty s) then Ok s else refused
  | None => refused
  end.

(** [parse_route]. *)
Definition parse_route (entry : Value) : result Route string :=
  match entry with
  | VObject _ =>
      let? path := required entry "path" in
      let? block := required entry "block" in
      let strings list :=
        match match as_array list with
              | Some arr => collect_options (map as_str arr)
              | None => None
              end with
        | Some raw => Ok raw
        | None => Err ("`actions`/`methods` must be an array of strings in " +:+ display_json entry)
        end in
      let? raw_actions :=
        match value_get entry "actions", value_get entry "methods" with
        | Some _, Some _ => Err ("`actions` and `methods` are the same setting; give one, in "
                                 +:+ display_json entry)
        | Some list, None | None, Some list => strings list
        | None, None => Ok []
        end in
      Ok (mkRoute path (map normalize_action raw_actions) raw_actions block)
  | _ => Err ("expected an object, got " +:+ display_json entry)
  end.

(** The entries from index [i] on: the first refused one is the error. *)
Fixpoint parse_entries (i : N) (entries : list Value) : result (list Route) RouteConfigError :=
  match entries with
  | [] => Ok []
  | entry :: entries =>
      let? route := match parse_route entry with
                    | Ok route => Ok route
                    | Err reason => Err (mkRouteError (Some i) reason)
                    end in
      let? routes := parse_entries (i + 1) entries in
      Ok (route :: routes)
  end.

(** [parse_routes]. *)
Definition parse_routes (config : Value) : result (list Route) RouteConfigError :=
  match value_get config "routes" with
  | None => Ok []
  | Some routes =>
      match as_array routes with
      | None => Err (mkRouteError None ("expected a JSON array, got " +:+ display_json routes))
      | Some entries => parse_entries 0 entries
      end
  end.

(** [RouterBlock]. *)
Record RouterBlock := mkRouter { routes : option (list Route) }.
Definition router_new : RouterBlock := mkRouter None.

(** Whether the loop of [handle] stops at a route. *)
Definition route_matches (route : Route) (action path : string) : bool :=
  (match rt_actions route with [] => true | actions => existsb (String.eqb action) actions end)
  && match_path (rt_path route) path.

Section Handle.
  Context {Input : Type} (call_block : string -> Message -> Input -> OutputStream).

Fixpoint route_loop (routes : list Route) (msg : Message) (input : Input) : OutputStream :=
  match routes with
  | [] => output_error (mkError ErrorCode.NotFound "no matching route" [])
  | route :: routes =>
      if route_matches route (action msg) (path msg)
      then call_block (rt_block route) (extract_path_vars (rt_path route) (path msg) msg) input
      else route_loop routes msg input
  end.

(** [RouterBlock::handle]. *)
Definition router_handle (self : RouterBlock) (msg : Message) (input : Input) : OutputStream :=
  route_loop (default [] (routes self)) msg input.
End Handle.

(** [RouterBlock::lifecycle]. *)
Definition router_lifecycle (self : RouterBlock) (event : LifecycleEvent)
  : RouterBlock * result unit WaferError :=
  match event_type event, routes self with
  | LifecycleType.Init, None =>
      match parse_routes (as_value (from_event event)) with
      | Ok routes => (mkRouter (Some routes), Ok tt)
      | Err e => (self, Err (mkError ErrorCode.InvalidArgument
                               ("wafer-run/router: " +:+ route_error_display e) []))
      end
  | _, _ => (self, Ok tt)
  end.

Record BlockConfigRef := mkConfigRef { cr_target : string; cr_location : string; cr_detail : option string }.

(** [RouterBlock::collect_block_refs]. *)
Definition collect_block_refs (config : Value) : list BlockConfigRef :=
  map (fun route =>
    mkConfigRef (rt_block route) ("route " +:+ rt_path route)
      (match rt_raw_actions route with [] => None | raw => Some (join " " raw) end))
    (match parse_routes config with Ok routes => routes | Err _ => [] end).
End Router.

(** ** The readonly guard *)

Section Readonly.
  Context `{JsonCrate} `{DebugFormat}.

(** [parse_readonly]. *)
Definition parse_readonly (value : option string) : result bool WaferError :=
  match value with
  | None => Ok false
  | Some v =>
      if (v =s "") || (v =s "false") || (v =s "0") then Ok false
      else if (v =s "true") || (v =s "1") then Ok true
      else Err (mkError ErrorCode.InvalidArgument
                  ("wafer-run/readonly-guard: `readonly` must be true, 1, false or 0, got "
                   +:+ debug_str v) [])
  end.

(** [is_read]. *)
Definition is_read (msg : Message) : bool :=
  (action msg =s RequestAction.as_str RequestAction.Retrieve)
  || (action msg =s "list")
  || (action msg =s RequestAction.as_str RequestAction.Execute)
     && eq_ignore_ascii_case (get_meta msg META_HTTP_METHOD) "OPTIONS".

(** [ReadonlyGuardBlock::handle]. *)
Definition readonly_handle (config : string -> option string) (msg : Message) : OutputStream :=
  match parse_readonly (config "readonly") with
  | Err e => output_error e
  | Ok readonly =>
      if negb readonly || is_read msg then continue_with msg
      else output_error (mkError ErrorCode.PermissionDenied
             "This instance is in read-only mode. Write operations are not allowed." [])
  end.

(** [ReadonlyGuardBlock::lifecycle]. *)
Definition readonly_lifecycle (event : LifecycleEvent) : result unit WaferError :=
  match event_type event with
  | LifecycleType.Init =>
      let checked s := match parse_readonly (Some s) with Ok _ => Ok tt | Err e => Err e end in
      match value_get (as_value (from_event event)) "readonly" with
      | None => Ok tt
      | Some (VString s) => checked s
      | Some (VBool b) => checked (if b then "true" else "false")
      | Some (VNumber n) => checked (display_json (VNumber n))
      | Some other =>
          Err (mkError ErrorCode.InvalidArgument
                 ("wafer-run/readonly-guard: `readonly` must be true, 1, false or 0, got "
                  +:+ display_json other) [])
      end
  | _ => Ok tt
  end.
End Readonly.
