(* ===== verification/RoutingProps.v ===== *)
(** Properties of routing: what a pattern matches, that its shape decides it,
    that the router dispatches to the first route that matches, and what the
    readonly guard lets through. *)

From S2P Require Import Prelude CoreTypes Text Accumulator Lifecycle Requests.
From S2P Require Import FlowTypes FlowPlan Streams Routing.

(** ** What a pattern matches *)

Definition no_slash (s : string) : bool := str_forallb (fun a => negb (Ascii.eqb a "/")) s.

Definition segment_matches (pp actual : string) : Prop :=
  if is_placeholder pp then actual <> "" else pp = actual.

(** A path is below a prefix when it goes on with a slash. *)
Definition below (prefix path : string) : Prop := exists rest, path = prefix +:+ "/" +:+ rest.

Definition pattern_matches (pattern path : string) : Prop :=
  match strip_suffix "/**" pattern with
  | Some prefix => path = prefix \/ below prefix path
  | None => Forall2 segment_matches (split "/" pattern) (split "/" path)
  end.

Lemma match_segments_spec (l l' : list string) :
  length l = length l' -> (match_segments l l' = true <-> Forall2 segment_matches l l').
Proof.
  revert l'. induction l as [|pp l IH]; intros [|a l'] Hl; try done. injection Hl as Hl. cbn.
  rewrite Forall2_cons. unfold segment_matches at 1.
  destruct (is_placeholder pp).
  - rewrite <- (IH l' Hl). destruct a; cbn; naive_solver.
  - rewrite <- (IH l' Hl). destruct (pp =s a) eqn:E; cbn.
    + apply eqs_true in E. naive_solver.
    + apply eqs_false in E. naive_solver.
Qed.

Lemma byte_at_app (p r : string) : byte_at (String.length p) (p +:+ r) = byte_at 0 r.
Proof. induction p as [|c p IH]; [by destruct r|done]. Qed.

Lemma below_spec (prefix path : string) :
  (String.length prefix <? String.length path) && starts_with prefix path
    && byte_is path (String.length prefix) "/" = true <-> below prefix path.
Proof.
  rewrite !andb_true_iff, starts_with_spec. split.
  - intros [[Hl [r ->]] Hb]. unfold byte_is in Hb. rewrite byte_at_app in Hb.
    destruct r as [|c r]; [done|]. cbn in Hb. apply Ascii.eqb_eq in Hb as ->. by exists r.
  - intros [r ->]. split_and!.
    + apply Nat.ltb_lt. rewrite str_length_app. cbn. lia.
    + eauto.
    + unfold byte_is. by rewrite byte_at_app.
Qed.

Lemma segment_matches_refl (s : string) : segment_matches s s.
Proof.
  unfold segment_matches. destruct (is_placeholder s) eqn:E; [|done]. by intros ->.
Qed.

Lemma match_path_spec (pattern path : string) : match_path pattern path = true <-> pattern_matches pattern path.
Proof.
  unfold match_path, pattern_matches. destruct (pattern =s path) eqn:E.
  - apply eqs_true in E as <-. split; [intros _|done].
    destruct (strip_suffix "/**" pattern) as [prefix|] eqn:Es.
    + apply strip_suffix_Some in Es. right. by exists "**".
    + induction (split "/" pattern); constructor; auto using segment_matches_refl.
  - destruct (strip_suffix "/**" pattern) as [prefix|] eqn:Es.
    + rewrite orb_true_iff, eqs_true, below_spec. done.
    + destruct (length (split "/" pattern) =? length (split "/" path)) eqn:El; cbn [negb].
      * apply match_segments_spec. by apply Nat.eqb_eq.
      * split; [done|]. intros Hf%Forall2_length. apply Nat.eqb_neq in El. done.
Qed.

(** ** Segments *)

Lemma split_segments (s : string) : Forall (fun w => no_slash w = true) (split "/" s).
Proof.
  induction s as [|c s IH]; cbn; [by repeat constructor|].
  destruct (Ascii.eqb c "/") eqn:E; [by constructor|].
  destruct (split "/" s) as [|w ws]; [by constructor; [unfold no_slash; cbn; rewrite E|]|].
  apply Forall_cons in IH as [Hw Hs]. constructor; [|done]. unfold no_slash in *. cbn. by rewrite E.
Qed.

Lemma split_join_path (l : list string) :
  l <> [] -> Forall (fun w => no_slash w = true) l -> split "/" (join "/" l) = l.
Proof.
  induction l as [|w [|w' l] IH]; intros Hl Hf; [done| |].
  - apply Forall_cons in Hf as [Hw _]. by apply split_no_sep.
  - apply Forall_cons in Hf as [Hw Hf].
    change (split "/" (w +:+ String "/" (join "/" (w' :: l))) = w :: w' :: l).
    rewrite split_app_sep by done. by rewrite IH.
Qed.

(** The segment without the name of its placeholder, whatever the placeholder. *)
Definition single_of (s : string) : string := if is_placeholder s then "{}" else s.

Lemma placeholder_spec (s : string) :
  is_placeholder s = true <-> exists inner, s = "{" +:+ inner +:+ "}".
Proof.
  unfold is_placeholder. rewrite andb_true_iff, starts_with_spec, ends_with_spec. split.
  - intros [[r ->] [r' E]]. destruct r' as [|c r']; [done|]. injection E as <- ->. by exists r'.
  - intros [inner ->]. split; [eauto|]. by exists ("{" +:+ inner).
Qed.

Lemma shape_of_spec (s : string) :
  match match strip_prefix "{" s with Some inner => strip_suffix "}" inner | None => None end with
  | Some inner => s = "{" +:+ inner +:+ "}" /\ is_placeholder s = true
  | None => is_placeholder s = false
  end.
Proof.
  destruct (strip_prefix "{" s) as [r|] eqn:E1.
  - apply strip_prefix_Some in E1. destruct (strip_suffix "}" r) as [inner|] eqn:E2.
    + apply strip_suffix_Some in E2. subst r. split; [done|]. apply placeholder_spec. eauto.
    + apply not_true_iff_false. intros [inner Hi]%placeholder_spec. rewrite Hi in E1.
      injection E1 as E1. rewrite <- E1 in E2. by rewrite (proj2 (strip_suffix_Some "}" _ inner) eq_refl) in E2.
  - apply not_true_iff_false. intros [inner ->]%placeholder_spec. done.
Qed.

Lemma single_shape (s : string) : single_of (shape_of s) = single_of s.
Proof.
  pose proof (shape_of_spec s) as H. unfold shape_of. destruct (match strip_prefix "{" s with _ => _ end).
  - destruct H as [_ H]. unfold single_of. rewrite H. by destruct (_ && _).
  - done.
Qed.

(** A segment that is no rest placeholder has its single shape. *)
Lemma shape_single (s : string) : shape_of s <> "{...}" -> shape_of s = single_of s.
Proof.
  pose proof (shape_of_spec s) as H. unfold shape_of, single_of.
  destruct (match strip_prefix "{" s with _ => _ end).
  - destruct H as [_ ->]. by destruct (_ && _).
  - by rewrite H.
Qed.

Lemma shape_no_slash (s : string) : no_slash s = true -> no_slash (shape_of s) = true.
Proof. intros H. unfold shape_of. by repeat case_match. Qed.

Lemma shape_literal (s w : string) : shape_of s = w -> is_placeholder w = false -> s = w.
Proof. intros E H. unfold shape_of in E. repeat case_match; by subst. Qed.

Lemma segment_matches_single (pp a : string) : segment_matches (single_of pp) a <-> segment_matches pp a.
Proof. unfold segment_matches, single_of. destruct (is_placeholder pp) eqn:E; [done|by rewrite E]. Qed.

Lemma template_single (l l' segs : list string) :
  map single_of l = map single_of l' -> Forall2 segment_matches l segs -> Forall2 segment_matches l' segs.
Proof.
  intros E H. revert l' E. induction H as [|s a l segs Hs H IH]; intros [|s' l'] E; try done.
  injection E as E1 E2. constructor; [|auto]. apply segment_matches_single. rewrite <- E1.
  by apply segment_matches_single.
Qed.

(** ** Patterns ending in a wildcard *)

Lemma split_app (a b : string) : split "/" (a +:+ "/" +:+ b) = split "/" a ++ split "/" b.
Proof.
  induction a as [|c a IH]; [done|]. cbn -[String.append] in *. change (String c a +:+ "/" +:+ b) with (String c (a +:+ "/" +:+ b)).
  cbn [split]. rewrite IH. destruct (Ascii.eqb c "/"); [done|].
  by destruct (split "/" a) as [|w ws] eqn:E; [destruct (split_not_nil "/" a)|].
Qed.

Lemma ends_with_rest (p : string) :
  ends_with "/**" p = true <-> exists l, l <> [] /\ split "/" p = l ++ ["**"].
Proof.
  rewrite ends_with_spec. split.
  - intros [r ->]. exists (split "/" r). split; [apply split_not_nil|]. apply (split_app r "**").
  - intros (l & Hl & E). exists (join "/" l).
    by rewrite <- (join_split "/" p), E, (join_snoc "/" l "**" Hl).
Qed.

Lemma route_shape_segments (p : string) :
  ends_with "/**" p = false -> route_shape p = join "/" (map shape_of (split "/" p)).
Proof.
  intros Hp. unfold route_shape. rewrite Hp. cbn [orb]. destruct (forallb _ _) eqn:E; [|done].
  rewrite <- (join_split "/" p) at 1. f_equal. revert E.
  induction (split "/" p) as [|s l IH]; [done|]. cbn. intros [Hs Hl]%andb_true_iff.
  apply eqs_true in Hs. by rewrite Hs, <- IH.
Qed.

Lemma split_shape (p : string) :
  ends_with "/**" p = false -> split "/" (route_shape p) = map shape_of (split "/" p).
Proof.
  intros Hp. rewrite route_shape_segments by done. apply split_join_path.
  - pose proof (split_not_nil "/" p). by destruct (split "/" p).
  - apply Forall_map. eapply Forall_impl; [apply split_segments|]. apply shape_no_slash.
Qed.

Lemma route_shape_rest (p : string) : ends_with "/**" (route_shape p) = ends_with "/**" p.
Proof.
  destruct (ends_with "/**" p) eqn:E; [by unfold route_shape; rewrite E|].
  apply not_true_iff_false. rewrite ends_with_rest, split_shape by done. intros (l & Hl & Em).
  apply map_eq_app in Em as (l1 & l2 & Es & <- & Em2). destruct l2 as [|s [|]]; try done.
  injection Em2 as Hs. apply shape_literal in Hs as ->; [|done].
  apply not_true_iff_false in E. apply E, ends_with_rest. exists l1. split; [|done]. by intros ->.
Qed.

Lemma strip_rest (p : string) : strip_suffix "/**" p = None <-> ends_with "/**" p = false.
Proof. unfold ends_with. by destruct (strip_suffix "/**" p). Qed.

(** Patterns of the same shape match the same paths. *)
Lemma same_shape_matches (p q path : string) :
  route_shape p = route_shape q -> pattern_matches p path -> pattern_matches q path.
Proof.
  intros E. pose proof (route_shape_rest p) as Hp. pose proof (route_shape_rest q) as Hq.
  rewrite <- E, Hp in Hq. unfold pattern_matches. destruct (ends_with "/**" p) eqn:Ep.
  - symmetry in Hq. unfold route_shape in E. rewrite Ep, Hq in E. cbn in E. by rewrite E.
  - symmetry in Hq. rewrite (proj2 (strip_rest p)), (proj2 (strip_rest q)) by done.
    apply template_single. apply (f_equal (split "/")) in E. rewrite !split_shape in E by done.
    apply (f_equal (map single_of)) in E. rewrite !map_map in E.
    by rewrite !(map_ext _ single_of single_shape) in E.
Qed.

(** ** Telling patterns apart *)

Fixpoint xs (n : nat) : string := match n with 0 => "" | S n => String "x" (xs n) end.

Lemma xs_facts (n : nat) : String.length (xs n) = n /\ no_slash (xs n) = true.
Proof. induction n as [|n [IH1 IH2]]; [done|]. split; [cbn; lia|done]. Qed.

Lemma split_length (p s : string) : s ∈ split "/" p -> String.length s <= String.length p.
Proof.
  revert s. induction p as [|c p IH]; intros s; cbn.
  - rewrite list_elem_of_singleton. by intros ->.
  - destruct (Ascii.eqb c "/").
    + rewrite elem_of_cons. intros [-> | Hs%IH]; cbn; lia.
    + destruct (split "/" p) as [|w ws]; [by rewrite list_elem_of_singleton; intros ->; cbn; lia|].
      rewrite elem_of_cons. intros [-> | Hs].
      * assert (String.length w <= String.length p) by (apply IH; left). cbn. lia.
      * assert (String.length s <= String.length p) by (apply IH; by right). lia.
Qed.

(** A template with a word in its placeholders. *)
Definition instantiate (w : string) (l : list string) : list string :=
  map (fun s => if is_placeholder s then w else s) l.

Lemma instantiate_matches (w : string) (l : list string) :
  w <> "" -> Forall2 segment_matches l (instantiate w l).
Proof.
  intros Hw. induction l as [|s l IH]; constructor; [|done]. unfold segment_matches.
  by destruct (is_placeholder s).
Qed.

(** An instance with a word that is no segment of [l'] tells its literals. *)
Lemma instance_literals (w : string) (l l' : list string) :
  w ∉ l' -> Forall2 segment_matches l' (instantiate w l) ->
  Forall2 (fun s s' => is_placeholder s' = false -> s = s') l l'.
Proof.
  revert l'. induction l as [|s l IH]; intros l' Hw; cbn.
  - intros ->%Forall2_nil_inv_r. constructor.
  - intros (s' & l0 & Hs & H & ->)%Forall2_cons_inv_r. apply not_elem_of_cons in Hw as [Hw Hw'].
    constructor; [|by apply IH]. intros Hl. unfold segment_matches in Hs. rewrite Hl in Hs.
    by destruct (is_placeholder s).
Qed.

Lemma literals_single (l l' : list string) :
  Forall2 (fun s s' => is_placeholder s' = false -> s = s') l l' ->
  Forall2 (fun s s' => is_placeholder s' = false -> s = s') l' l -> map single_of l = map single_of l'.
Proof.
  intros H. induction H as [|s s' l l' Hs H IH]; [done|]. intros [Hs' H']%Forall2_cons. cbn.
  f_equal; [|auto]. unfold single_of.
  destruct (is_placeholder s) eqn:E, (is_placeholder s') eqn:E'; auto.
  - specialize (Hs eq_refl). subst. congruence.
  - specialize (Hs' eq_refl). subst. congruence.
Qed.

Lemma pattern_matches_template (p path : string) :
  ends_with "/**" p = false -> pattern_matches p path = Forall2 segment_matches (split "/" p) (split "/" path).
Proof. intros H. unfold pattern_matches. by rewrite (proj2 (strip_rest p)). Qed.

(** Templates that match the same paths have the same segments, names apart. *)
Lemma templates_told_apart (p q : string) :
  ends_with "/**" p = false -> ends_with "/**" q = false ->
  (forall path, pattern_matches p path -> pattern_matches q path) ->
  forall w, w <> "" -> no_slash w = true -> w ∉ split "/" q ->
  Forall2 (fun s s' => is_placeholder s' = false -> s = s') (split "/" p) (split "/" q).
Proof.
  intros Hp Hq H w Hw Hn Hin. apply (instance_literals w); [done|].
  set (l := instantiate w (split "/" p)).
  assert (split "/" (join "/" l) = l) as E.
  { apply split_join_path.
    - unfold l, instantiate. pose proof (split_not_nil "/" p). by destruct (split "/" p).
    - apply Forall_map. eapply Forall_impl; [apply split_segments|]. intros s Hs.
      cbn. by destruct (is_placeholder s). }
  specialize (H (join "/" l)). rewrite !pattern_matches_template, E in H by done.
  apply H. by apply instantiate_matches.
Qed.

Lemma wildcards_told_apart (a b : string) :
  (a = b \/ below b a) -> (b = a \/ below a b) -> a = b.
Proof.
  intros [->|[r E]] [E'|[r' E']]; try done.
  apply (f_equal String.length) in E, E'. rewrite str_length_app in E, E'. cbn in E, E'. lia.
Qed.

(** A wildcard matches paths of different lengths, a template does not. *)
Lemma wildcard_no_template (p q : string) :
  ends_with "/**" p = true -> ends_with "/**" q = false ->
  ~ (forall path, pattern_matches p path -> pattern_matches q path).
Proof.
  intros [r ->]%ends_with_spec Hq H.
  assert (strip_suffix "/**" (r +:+ "/**") = Some r) as Es by (by apply strip_suffix_Some).
  pose proof (H r) as H1. pose proof (H (r +:+ "/" +:+ "x")) as H2.
  rewrite (pattern_matches_template q) in H1, H2 by done. unfold pattern_matches in H1, H2. rewrite Es in H1, H2.
  specialize (H1 (or_introl eq_refl)). specialize (H2 (or_intror (ex_intro _ "x" eq_refl))).
  apply Forall2_length in H1, H2. rewrite split_app, length_app in H2. cbn in H2. lia.
Qed.

(** Segments that are no rest placeholders. *)
Definition no_rest (p : string) : Prop := Forall (fun s => shape_of s <> "{...}") (split "/" p).

Lemma shapes_single (l : list string) :
  Forall (fun s => shape_of s <> "{...}") l -> map shape_of l = map single_of l.
Proof. induction 1 as [|s l Hs _ IH]; [done|]. cbn. by rewrite shape_single, IH. Qed.

Lemma same_matches_shape (p q : string) :
  (forall path, pattern_matches p path <-> pattern_matches q path) -> no_rest p -> no_rest q ->
  route_shape p = route_shape q.
Proof.
  intros H Rp Rq.
  destruct (ends_with "/**" p) eqn:Ep, (ends_with "/**" q) eqn:Eq.
  - unfold route_shape. rewrite Ep, Eq. cbn.
    apply ends_with_spec in Ep as [a ->], Eq as [b ->]. f_equal.
    assert (forall r, strip_suffix "/**" (r +:+ "/**") = Some r) as Es by (intros; by apply strip_suffix_Some).
    unfold pattern_matches in H. rewrite !Es in H. apply wildcards_told_apart; apply H; by left.
  - exfalso. apply (wildcard_no_template p q); try done. apply H.
  - exfalso. apply (wildcard_no_template q p); try done. apply H.
  - rewrite !route_shape_segments, !shapes_single by done. f_equal.
    set (n := S (String.length p + String.length q)). destruct (xs_facts n) as [Hl Hs].
    assert (forall r, String.length r < n -> xs n ∉ split "/" r) as Hout.
    { intros r Hr Hin%split_length. lia. }
    apply literals_single; (eapply templates_told_apart with (w := xs n); try done; [intros; by apply H|]);
      apply Hout; lia.
Qed.

(** The shape of a pattern decides what it matches. Patterns of the same shape
    match exactly the same paths, and without rest placeholders (which only
    the serving block tells from single ones) patterns that match the same
    paths have the same shape: matching ignores the names of placeholders and
    nothing else. A wildcard pattern matches its prefix and everything below
    it; any other pattern matches segment by segment, a placeholder matching
    one non-empty segment. *)
Theorem route_shape_decides (p q : string) :
  (forall path, match_path p path = true <-> pattern_matches p path)
  /\ (route_shape p = route_shape q -> forall path, match_path p path = match_path q path)
  /\ (no_rest p -> no_rest q -> (forall path, match_path p path = match_path q path) ->
      route_shape p = route_shape q).
Proof.
  split; [apply match_path_spec|]. split.
  - intros E path. apply eq_true_iff_eq. rewrite !match_path_spec.
    split; by apply same_shape_matches.
  - intros Hp Hq H. apply same_matches_shape; try done.
    intros path. by rewrite <- !match_path_spec, H.
Qed.

Lemma route_shape_decides_witness :
  match_path "/items/{id}/tags" "/items/7/tags" = true
  /\ match_path "/items/{id}/tags" "/items/7/tags" = match_path "/items/{item}/tags" "/items/7/tags"
  /\ ~ forall path, match_path "/items/{id}" path = match_path "/items/new" path.
Proof.
  split; [reflexivity|]. split.
  - apply (route_shape_decides "/items/{id}/tags" "/items/{item}/tags"). reflexivity.
  - intros H. pose proof (proj2 (proj2 (route_shape_decides "/items/{id}" "/items/new"))) as Hs.
    assert (route_shape "/items/{id}" = route_shape "/items/new") as E; [|discriminate E].
    apply Hs; [repeat constructor; discriminate..|exact H].
Defined.

(** ** The router *)

(** The placeholders of a template with the segments they met, in order. *)
Definition bindings (pattern_parts path_parts : list string) : list (string * string) :=
  omap (fun '(pp, part) => if is_placeholder pp then Some (placeholder_name pp, part) else None)
    (zip pattern_parts path_parts).

Lemma extract_vars_sets (l l' : list string) (m : Message) :
  extract_vars l l' m = sets ((fun '(n, v) => (META_REQ_PARAM_PREFIX +:+ n, v)) <$> bindings l l') m.
Proof.
  revert l' m. induction l as [|pp l IH]; intros [|part l'] m; try done. cbn [extract_vars].
  rewrite IH. unfold bindings. cbn [zip zip_with omap list_omap]. by destruct (is_placeholder pp).
Qed.

(** The placeholders of a pattern at a path. *)
Definition path_bindings (pattern path : string) : list (string * string) :=
  bindings (split "/" (default pattern (strip_suffix "/**" pattern))) (split "/" path).

Lemma extract_path_vars_get (pattern path : string) (m : Message) :
  (forall name, meta_get (msg_meta (extract_path_vars pattern path m)) (META_REQ_PARAM_PREFIX +:+ name)
     = match last_value name (path_bindings pattern path) with
       | Some v => Some v
       | None => meta_get (msg_meta m) (META_REQ_PARAM_PREFIX +:+ name)
       end)
  /\ (forall key, starts_with META_REQ_PARAM_PREFIX key = false ->
      meta_get (msg_meta (extract_path_vars pattern path m)) key = meta_get (msg_meta m) key).
Proof.
  unfold extract_path_vars. fold (path_bindings pattern path). rewrite extract_vars_sets.
  split; intros k; [by rewrite sets_get, last_value_prefixed|].
  intros Hk. rewrite sets_get. by rewrite prefixed_keys.
Qed.

Lemma str_map_idem (f : ascii -> ascii) (s : string) :
  (forall c, f (f c) = f c) -> str_map f (str_map f s) = str_map f s.
Proof. intros Hf. induction s as [|c s IH]; [done|]. cbn. by rewrite Hf, IH. Qed.

Lemma uppercase_idem (s : string) : to_ascii_uppercase (to_ascii_uppercase s) = to_ascii_uppercase s.
Proof. apply str_map_idem. intros c. by destruct c as [[] [] [] [] [] [] [] []]. Qed.

Lemma uppercase_lowercase (s : string) : to_ascii_uppercase (to_ascii_lowercase s) = to_ascii_uppercase s.
Proof.
  induction s as [|c s IH]; [done|]. cbn. f_equal; [|apply IH]. by destruct c as [[] [] [] [] [] [] [] []].
Qed.

Lemma try_action_upper (t : string) : try_action_for_http_method (to_ascii_uppercase t) = try_action_for_http_method t.
Proof. unfold try_action_for_http_method. by rewrite uppercase_idem. Qed.

Section RouterFacts.
  Context `{JsonCrate} `{UnicodeLower}.

Lemma route_matches_spec (r : Route) (a p : string) :
  route_matches r a p = true <-> (rt_actions r = [] \/ a ∈ rt_actions r) /\ pattern_matches (rt_path r) p.
Proof.
  unfold route_matches. rewrite andb_true_iff, match_path_spec. apply and_iff_compat_r.
  destruct (rt_actions r) as [|x l]; [naive_solver|]. rewrite existsb_exists. split.
  - intros (y & Hy & ->%eqs_true). right. by apply list_elem_of_In.
  - intros [|Ha]; [done|]. exists a. split; [by apply list_elem_of_In|apply eqs_refl].
Qed.

Lemma parse_entries_ok (i : N) (entries : list Value) (rs : list Route) :
  parse_entries i entries = Ok rs <-> Forall2 (fun e r => parse_route e = Ok r) entries rs.
Proof.
  revert i rs. induction entries as [|e entries IH]; intros i rs; cbn.
  - split; [by intros [= <-]|by intros ->%Forall2_nil_inv_l].
  - split.
    + destruct (parse_route e) as [r|] eqn:E; [|done]. cbn.
      destruct (parse_entries (i + 1) entries) as [rs'|] eqn:E'; [|done]. cbn. intros [= <-].
      constructor; [done|]. by apply (IH (i + 1)%N).
    + intros (r & rs' & Er & Hf & ->)%Forall2_cons_inv_l. rewrite Er. cbn.
      by rewrite (proj2 (IH (i + 1)%N rs') Hf).
Qed.

(** The routes of a configuration: every entry of it, in order. *)
Definition configured (config : Value) (rs : list Route) : Prop :=
  match value_get config "routes" with
  | None => rs = []
  | Some (VArray entries) => Forall2 (fun e r => parse_route e = Ok r) entries rs
  | Some _ => False
  end.

Lemma parse_routes_configured (config : Value) (rs : list Route) :
  parse_routes config = Ok rs <-> configured config rs.
Proof.
  unfold parse_routes, configured. destruct (value_get config "routes") as [v|].
  - destruct v; cbn; try (split; [done|by intros []]). apply parse_entries_ok.
  - split; [by intros [= <-]|by intros ->].
Qed.

Lemma route_loop_first {Input} (call : string -> Message -> Input -> OutputStream)
    (rs : list Route) (msg : Message) (input : Input) :
  (exists pre r post, rs = pre ++ r :: post
     /\ Forall (fun r' => route_matches r' (action msg) (path msg) = false) pre
     /\ route_matches r (action msg) (path msg) = true
     /\ route_loop call rs msg input
        = call (rt_block r) (extract_path_vars (rt_path r) (path msg) msg) input)
  \/ (Forall (fun r' => route_matches r' (action msg) (path msg) = false) rs
      /\ route_loop call rs msg input = output_error (mkError ErrorCode.NotFound "no matching route" [])).
Proof.
  induction rs as [|r rs IH]; [by right|]. cbn.
  destruct (route_matches r (action msg) (path msg)) eqn:E.
  - left. by exists [], r, rs.
  - destruct IH as [(pre & r' & post & -> & Hp & Hr & Hc) | [Hf Hc]].
    + left. exists (r :: pre), r', post. split_and!; try done. by constructor.
    + right. split; [by constructor|done].
Qed.
End RouterFacts.

(** The router dispatches a request to the first configured route that
    matches it. An accepted [Init] keeps every entry of the configuration, in
    order, and no later event changes the table. A request goes to the block
    of the first route whose actions include its action (no actions meaning
    all) and whose pattern matches its path, with the path's variables set
    from the segments their placeholders met and nothing else changed; when
    no route matches the answer is NotFound. A route given an HTTP method
    takes the action that an HTTP request of that method carries. *)
Theorem router_dispatches_first `{JsonCrate} `{UnicodeLower} (event : LifecycleEvent) (self : RouterBlock) :
  event_type event = LifecycleType.Init ->
  router_lifecycle router_new event = (self, Ok tt) ->
  exists rs, routes self = Some rs
  /\ configured (as_value (from_event event)) rs
  /\ (forall event', router_lifecycle self event' = (self, Ok tt))
  /\ (forall Input (call : string -> Message -> Input -> OutputStream) msg input,
      (exists pre r post, rs = pre ++ r :: post
        /\ Forall (fun r' => ~ ((rt_actions r' = [] \/ action msg ∈ rt_actions r')
                                /\ pattern_matches (rt_path r') (path msg))) pre
        /\ (rt_actions r = [] \/ action msg ∈ rt_actions r) /\ pattern_matches (rt_path r) (path msg)
        /\ exists routed, router_handle call self msg input = call (rt_block r) routed input
           /\ (forall name, var routed name
                 = default (var msg name) (last_value name (path_bindings (rt_path r) (path msg))))
           /\ (forall key, starts_with META_REQ_PARAM_PREFIX key = false -> get_meta routed key = get_meta msg key))
      \/ (Forall (fun r' => ~ ((rt_actions r' = [] \/ action msg ∈ rt_actions r')
                               /\ pattern_matches (rt_path r') (path msg))) rs
          /\ router_handle call self msg input
             = output_error (mkError ErrorCode.NotFound "no matching route" [])))
  /\ (forall (F : FormUrlencoded) method a p q addr headers, try_action_for_http_method method = Some a ->
      normalize_action method = action (build_http_message method p q addr headers)).
Proof.
  intros He Hl. unfold router_lifecycle in Hl. rewrite He in Hl. cbn [router_new routes] in Hl.
  destruct (parse_routes (as_value (from_event event))) as [rs|] eqn:Er; [|done]. injection Hl as <-.
  assert (forall r msg, route_matches r (action msg) (path msg) = false ->
    ~ ((rt_actions r = [] \/ action msg ∈ rt_actions r) /\ pattern_matches (rt_path r) (path msg))) as Hno.
  { intros r msg Hm Hs%route_matches_spec. congruence. }
  exists rs. split_and!; [done|by apply parse_routes_configured| | |].
  - intros event'. unfold router_lifecycle. by destruct (event_type event').
  - intros Input call msg input. unfold router_handle. cbn [routes default].
    destruct (route_loop_first call rs msg input) as [(pre & r & post & E & Hp & Hr & Hc) | [Hf Hc]].
    + left. exists pre, r, post. apply route_matches_spec in Hr as [Ha Hm].
      split_and!; try done; [eapply Forall_impl; [apply Hp|]; intros r'; apply Hno|].
      eexists. split; [apply Hc|]. destruct (extract_path_vars_get (rt_path r) (path msg) msg) as [H1 H2].
      split; [|intros key Hk; unfold get_meta; by rewrite H2].
      intros name. unfold var, get_meta. rewrite H1. by destruct (last_value name _).
    + right. split; [|done]. eapply Forall_impl; [apply Hf|]. intros r'. apply Hno.
  - intros Hf method a p q addr headers Ha. unfold normalize_action. rewrite Ha.
    unfold action. rewrite (build_fixed method p q addr headers META_REQ_ACTION
      (action_for_http_method (to_ascii_uppercase method))) by (unfold fixed_meta; set_solver).
    unfold action_for_http_method. by rewrite try_action_upper, Ha.
Qed.

(** ** The readonly guard *)

Section ReadonlyFacts.
  Context `{JsonCrate} `{DebugFormat}.

(** What the flattened configuration keeps of a value. *)
Definition flat_value (v : Value) : option string :=
  match v with
  | VString s => Some s
  | VNumber _ => Some (display_json v)
  | VBool b => Some (if b : bool then "true" else "false")
  | _ => None
  end.

Lemma parse_config_map_get (obj : list (string * Value)) (k : string) :
  NoDup obj.*1 ->
  parse_config_map (VObject obj) !! k = match assoc k obj with Some v => flat_value v | None => None end.
Proof.
  intros Hd. cbn [parse_config_map].
  assert (forall cfg : gmap string string, (forall k, k ∈ obj.*1 -> cfg !! k = None) ->
    fold_left (fun cfg '(k, v) => match flat_value v with Some s => <[k := s]> cfg | None => cfg end) obj cfg !! k
    = match assoc k obj with Some v => flat_value v | None => cfg !! k end) as G.
  { induction obj as [|[k' v] obj IH]; intros cfg Hc; [done|]. cbn in Hd. apply NoDup_cons in Hd as [Hn Hd].
    cbn. rewrite (IH Hd).
    - destruct (k' =s k) eqn:E.
      + apply eqs_true in E as ->. assert (assoc k obj = None) as ->.
        { clear -Hn. induction obj as [|[k0 v0] obj IH]; [done|]. cbn in *.
          apply not_elem_of_cons in Hn as [N Hn]. assert (k0 <> k) as N' by done.
          apply eqs_false in N' as ->. auto. }
        destruct (flat_value v); [by rewrite lookup_insert_eq|]. apply Hc. left.
      + apply eqs_false in E. destruct (assoc k obj); [done|].
        destruct (flat_value v); [by rewrite lookup_insert_ne|done].
    - intros k0 Hk. destruct (flat_value v); [|apply Hc; by right].
      rewrite lookup_insert_ne by (intros ->; done). apply Hc. by right. }
  etransitivity; [|etransitivity; [apply (G ∅)|]]; [|intros; apply lookup_empty|by rewrite lookup_empty].
  f_equal. clear. generalize (∅ : gmap string string) as cfg.
  induction obj as [|[k' v] obj IH]; intros cfg; [done|]. cbn. rewrite <- IH. by destruct v.
Qed.

(** The values that turn the guard on. *)
Definition turns_on (config : Value) : Prop :=
  exists v s, value_get config "readonly" = Some v /\ flat_value v = Some s /\ (s = "true" \/ s = "1").

Lemma parse_readonly_on (v : option string) :
  parse_readonly v = Ok true <-> exists s, v = Some s /\ (s = "true" \/ s = "1").
Proof.
  destruct v as [s|]; cbn; [|split; [done|by intros (? & ? & _)]].
  split.
  - destruct ((s =s "") || (s =s "false") || (s =s "0")); [done|].
    destruct ((s =s "true") || (s =s "1")) eqn:E; [|done]. intros _.
    rewrite orb_true_iff, !eqs_true in E. eauto.
  - by intros (? & [= <-] & [-> | ->]).
Qed.
End ReadonlyFacts.

(** Over HTTP the requests that only read are those of three methods. *)
Lemma is_read_http `{UnicodeLower} `{FormUrlencoded} (method p q addr : string) (headers : list (string * string)) :
  is_read (build_http_message method p q addr headers) = true
  <-> to_ascii_uppercase method ∈ ["GET"; "HEAD"; "OPTIONS"].
Proof.
  unfold is_read, action.
  rewrite (build_fixed method p q addr headers META_REQ_ACTION
    (action_for_http_method (to_ascii_uppercase method))) by (unfold fixed_meta; set_solver).
  rewrite (build_fixed method p q addr headers META_HTTP_METHOD (to_ascii_uppercase method))
    by (unfold fixed_meta; set_solver).
  unfold action_for_http_method, try_action_for_http_method. rewrite uppercase_idem.
  set (t := to_ascii_uppercase method).
  rewrite !elem_of_cons, elem_of_nil.
  repeat match goal with |- context [t =s ?x] =>
    let E := fresh in destruct (t =s x) eqn:E;
    [apply eqs_true in E; rewrite E; cbn; naive_solver|apply eqs_false in E] end.
  cbn. split; [|naive_solver]. intros E.
  assert (to_ascii_uppercase t = to_ascii_uppercase "OPTIONS") as E2; [|unfold t in *; rewrite uppercase_idem in E2; naive_solver].
  unfold eq_ignore_ascii_case in E. apply eqs_true in E. rewrite <- (uppercase_lowercase t), E. reflexivity.
Qed.

(** What the readonly guard lets through. A configuration its [Init] accepts
    reads as one mode, on exactly for [true] and [1] as a string, a boolean or
    a number; with the guard off every request goes on unchanged, with it on
    exactly the requests that only read do and every other is denied; a flag
    that does not parse denies every request. An HTTP request only reads when
    its method is GET, HEAD or OPTIONS in any case. *)
Theorem readonly_guard_decides `{JsonCrate} `{DebugFormat} (event : LifecycleEvent) :
  event_type event = LifecycleType.Init ->
  readonly_lifecycle event = Ok tt ->
  (forall obj, as_value (from_event event) = VObject obj -> NoDup obj.*1) ->
  let config := as_value (from_event event) in
  (exists on, (on = true <-> turns_on config)
    /\ forall msg, readonly_handle (fun k => parse_config_map config !! k) msg
       = if negb on || is_read msg then continue_with msg
         else output_error (mkError ErrorCode.PermissionDenied
           "This instance is in read-only mode. Write operations are not allowed." []))
  /\ (forall get msg e, parse_readonly (get "readonly") = Err e -> readonly_handle get msg = output_error e)
  /\ (forall (U : UnicodeLower) (F : FormUrlencoded) method p q addr headers,
      is_read (build_http_message method p q addr headers) = true
      <-> to_ascii_uppercase method ∈ ["GET"; "HEAD"; "OPTIONS"]).
Proof.
  intros He Hl Hd. cbv zeta. set (config := as_value (from_event event)) in *.
  split_and!; [|intros get msg e E; unfold readonly_handle; by rewrite E|intros; apply is_read_http].
  assert (parse_config_map config !! "readonly"
          = match value_get config "readonly" with Some v => flat_value v | None => None end) as Eg.
  { destruct config as [| | | | |obj]; try done. by apply parse_config_map_get, Hd. }
  assert (exists on, parse_readonly (parse_config_map config !! "readonly") = Ok on) as [on Eon].
  { rewrite Eg. unfold readonly_lifecycle in Hl. rewrite He in Hl. fold config in Hl.
    destruct (value_get config "readonly") as [[| | | | |]|]; cbn [flat_value]; try done; try by eexists.
    all: destruct (parse_readonly _) as [on|]; [by exists on|done]. }
  exists on. split; [|intros msg; unfold readonly_handle; by rewrite Eon].
  rewrite Eg in Eon. transitivity (parse_readonly (match value_get config "readonly" with
    Some v => flat_value v | None => None end) = Ok true); [rewrite Eon; naive_solver|].
  rewrite parse_readonly_on. unfold turns_on. destruct (value_get config "readonly"); naive_solver.
Qed.

(** A configuration text and its value. *)
Definition sample_routes : Value :=
  VObject [("routes", VArray [
    VObject [("path", VString "/users/{id}"); ("block", VString "get-user"); ("methods", VArray [VString "GET"])];
    VObject [("path", VString "/**"); ("block", VString "site")]])].
Definition sample_json : JsonCrate :=
  {| from_json s := if s =s "cfg" then Some sample_routes else None;
     to_json _ := Err "unused"; display_json _ := "value" |}.
#[local] Existing Instance sample_json.
#[local] Existing Instance plain_case.

Lemma router_dispatches_first_witness :
  let self := fst (router_lifecycle router_new (mkEvent LifecycleType.Init "cfg")) in
  let call (b : string) (m : Message) (_ : unit) := from_events [EvContinue (mkMessage b (msg_meta m))] in
  let m := mkMessage "" [mkMeta META_REQ_ACTION "retrieve"; mkMeta META_REQ_RESOURCE "/users/42"] in
  router_handle call self m tt
    = from_events [EvContinue (mkMessage "get-user" (msg_meta m ++ [mkMeta "req.param.id" "42"]))]
  /\ exists rs, routes self = Some rs /\ length rs = 2
     /\ configured sample_routes rs.
Proof.
  cbv zeta. split; [vm_compute; reflexivity|].
  destruct (router_dispatches_first (mkEvent LifecycleType.Init "cfg")
              (fst (router_lifecycle router_new (mkEvent LifecycleType.Init "cfg"))) eq_refl)
    as (rs & Hr & Hc & _); [vm_compute; reflexivity|].
  exists rs. split; [exact Hr|]. split; [|exact Hc].
  vm_compute in Hr. injection Hr as <-. reflexivity.
Defined.

Definition sample_flag : JsonCrate :=
  {| from_json s := if s =s "on" then Some (VObject [("readonly", VBool true)]) else None;
     to_json _ := Err "unused"; display_json _ := "value" |}.
Definition plain_debug : DebugFormat := {| debug_str s := s |}.

Lemma readonly_guard_decides_witness :
  let config := as_value (@from_event sample_flag (mkEvent LifecycleType.Init "on")) in
  let get k := @parse_config_map sample_flag config !! k in
  @readonly_handle plain_debug get (build_http_message (H0 := plain_form) "options" "/a" "" "::1" [])
  = continue_with (build_http_message (H0 := plain_form) "options" "/a" "" "::1" []).
Proof.
  cbv zeta.
  destruct (@readonly_guard_decides sample_flag plain_debug (mkEvent LifecycleType.Init "on") eq_refl eq_refl)
    as ((on & _ & Hh) & _ & Hr).
  - intros obj [= <-]. repeat constructor; set_solver.
  - rewrite Hh. rewrite (proj2 (Hr plain_case plain_form "options" "/a" "" "::1" [])).
    + by rewrite orb_true_r.
    + vm_compute. right. right. left.
Defined.
