(* ===== verification/Cors.v ===== *)
(** The CORS middleware ([wafer-block-cors/src/lib.rs]).

    The allow-list cached at [Init] (a [OnceLock]) is an option; what the
    block only logs (unknown keys, dropped entries) is left out. *)

From stdpp Require Import pretty.
From S2P Require Import Prelude CoreTypes Text Streams Lifecycle Requests Routing.

Definition DEFAULT_MAX_AGE_SECONDS : N := 86400.
Definition DEFAULT_ALLOWED_METHODS : string := "GET, POST, PUT, PATCH, DELETE, OPTIONS".
Definition DEFAULT_ALLOWED_HEADERS : string := "Content-Type, Authorization, X-Requested-With".

Module OriginMatch.
Inductive t := Listed | Wildcard.
End OriginMatch.

Definition is_vary (key : string) : bool :=
  match strip_prefix META_RESP_HEADER_PREFIX key with
  | Some name => eq_ignore_ascii_case name "vary"
  | None => false
  end.

(** The fields a response varies on so far. *)
Definition vary_fields (meta : list MetaEntry) : list string :=
  List.filter (fun f => negb (is_empty f))
    (map trim (flat_map (fun m => split "," (me_value m)) (List.filter (fun m => is_vary (me_key m)) meta))).

(** [vary_on_origin]. *)
Definition vary_on_origin (msg : Message) : Message :=
  let fields := vary_fields (msg_meta msg) in
  let fields := if negb (existsb (fun f => (f =s "*") || eq_ignore_ascii_case f "origin") fields)
                then fields ++ ["Origin"] else fields in
  let msg := mkMessage (msg_kind msg) (List.filter (fun m => negb (is_vary (me_key m))) (msg_meta msg)) in
  set_meta msg (META_RESP_HEADER_PREFIX +:+ "Vary") (join ", " fields).

(** [match_origin]. *)
Definition match_origin (allowed origin : string) : option OriginMatch.t :=
  if is_empty origin then None
  else if trim allowed =s "*" then Some OriginMatch.Wildcard
  else if existsb (fun o => trim o =s origin) (split "," allowed) then Some OriginMatch.Listed
  else None.

(** [CorsBlock]. *)
Record CorsBlock := mkCors { allowed_origins : option string }.
Definition cors_new : CorsBlock := mkCors None.

Section Cors.
  Context `{JsonCrate} `{UnicodeLower}.

(** The allow-list branch of [handle]: the message, and whether credentials
    are allowed. *)
Definition apply_origins (origins : option string) (origin : string) (out_msg : Message) : Message * bool :=
  match origins with
  | None => (out_msg, false)
  | Some allowed =>
      let out_msg := vary_on_origin out_msg in
      match match_origin allowed origin with
      | Some OriginMatch.Listed =>
          (set_meta out_msg "resp.header.Access-Control-Allow-Origin" origin, true)
      | Some OriginMatch.Wildcard =>
          (set_meta out_msg "resp.header.Access-Control-Allow-Origin" origin, false)
      | None => (out_msg, false)
      end
  end.

(** [CorsBlock::handle]. *)
Definition cors_handle (self : CorsBlock) (config : string -> option string) (msg : Message) : OutputStream :=
  let origins := match config "allowed_origins" with
                 | Some o => Some o
                 | None => allowed_origins self
                 end in
  let methods := default DEFAULT_ALLOWED_METHODS (config "allowed_methods") in
  let headers := default DEFAULT_ALLOWED_HEADERS (config "allowed_headers") in
  let max_age := default (pretty DEFAULT_MAX_AGE_SECONDS) (config "max_age") in
  let origin := header msg "Origin" in
  let '(out_msg, credentials) := apply_origins origins origin msg in
  let out_msg := set_meta out_msg "resp.header.Access-Control-Allow-Methods" methods in
  let out_msg := set_meta out_msg "resp.header.Access-Control-Allow-Headers" headers in
  let out_msg := if credentials : bool
                 then set_meta out_msg "resp.header.Access-Control-Allow-Credentials" "true" else out_msg in
  let out_msg := set_meta out_msg "resp.header.Access-Control-Max-Age" max_age in
  if get_meta out_msg "http.method" =s "OPTIONS"
  then halt "" (msg_meta (set_meta out_msg "resp.status" "204"))
  else continue_with out_msg.


End Cors.

(** * Properties of the CORS middleware: which origins it answers, when it
    allows credentials, and that caches key on the origin. *)

(** ** Response headers in metadata *)

Definition header_key (name key : string) : bool :=
  match strip_prefix META_RESP_HEADER_PREFIX key with
  | Some n => eq_ignore_ascii_case n name
  | None => false
  end.

(** The values a response sends for a header, its name in any case. *)
Definition header_values (name : string) (meta : list MetaEntry) : list string :=
  map me_value (List.filter (fun e => header_key name (me_key e)) meta).






Definition ACAO : string := "access-control-allow-origin".

(** The metadata of a middleware's answer. *)
Definition answer_meta (o : OutputStream) : list MetaEntry :=
  match produced o with
  | [EvHalt _ meta] => meta
  | [EvContinue m] => msg_meta m
  | _ => []
  end.

(** ** The handler *)




(** An origin named in the list, or any origin under a lone star. *)
Definition listed (allowed origin : string) : Prop :=
  origin <> "" /\ trim allowed <> "*" /\ origin ∈ map trim (split "," allowed).
Definition admitted_by_star (allowed origin : string) : Prop := origin <> "" /\ trim allowed = "*".

Lemma match_origin_spec (allowed origin : string) :
  match match_origin allowed origin with
  | Some OriginMatch.Listed => listed allowed origin /\ ~ admitted_by_star allowed origin
  | Some OriginMatch.Wildcard => admitted_by_star allowed origin /\ ~ listed allowed origin
  | None => ~ listed allowed origin /\ ~ admitted_by_star allowed origin
  end.
Proof.
  unfold match_origin, listed, admitted_by_star.
  destruct (is_empty origin) eqn:Eo; [destruct origin; naive_solver|].
  assert (origin <> "") by (by intros ->).
  destruct (trim allowed =s "*") eqn:Es; [apply eqs_true in Es; naive_solver|apply eqs_false in Es].
  destruct (existsb _ _) eqn:Ee.
  - split; [|naive_solver]. split_and!; try done. apply existsb_exists in Ee as (o & Ho & Eo').
    apply eqs_true in Eo' as <-. apply list_elem_of_In. by apply in_map.
  - split; [|naive_solver]. intros (_ & _ & Hin). apply not_true_iff_false in Ee. apply Ee.
    apply list_elem_of_In, in_map_iff in Hin as (o & <- & Ho). apply existsb_exists. exists o.
    split; [done|apply eqs_refl].
Qed.

(** The origins a configured list allows, and those it allows credentials. *)
Definition origin_allowed (origins : option string) (origin : string) : Prop :=
  exists allowed, origins = Some allowed /\ (listed allowed origin \/ admitted_by_star allowed origin).





(** ** The rest of the handler *)










(** A header an earlier block set for another origin is sent to a refused one. *)
Lemma refused_origin_keeps_header :
  let self := mkCors (Some "https://a.example") in
  let msg := mkMessage "GET:/x" [mkMeta "http.method" "GET"; mkMeta "http.header.origin" "https://evil.example";
                                 mkMeta "resp.header.access-control-allow-origin" "https://evil.example"] in
  header_values ACAO (answer_meta (@cors_handle plain_case self (fun _ => None) msg)) = ["https://evil.example"]
  /\ ~ origin_allowed (allowed_origins self) "https://evil.example".
Proof.
  cbv zeta. split; [vm_compute; reflexivity|].
  pose proof (match_origin_spec "https://a.example" "https://evil.example") as [Hl Hs].
  intros (allowed & [= <-] & [H|H]); auto.
Qed.
