(* ===== verification/RateLimit.v ===== *)
(** The per-client rate limiter ([wafer-block-ip-rate-limit/src/lib.rs]).

    The shards are a list of maps; a request holds the lock of one shard from
    its lookup to its count, so [record] is one step. [Instant]s and
    [Duration]s are nanoseconds, and [duration_since] saturates at zero. The
    count is a [u32] that wraps, as the release build does. The text of IP
    addresses and the seeded hash are parameters. *)

From stdpp Require Import pretty.
From stdpp Require Import pretty sorting.
From S2P Require Import Prelude CoreTypes Text FlowPlan Streams NetSecurity Lifecycle Requests Routing.

Definition DEFAULT_MAX_REQUESTS : N := 1000.
Definition DEFAULT_WINDOW_SECONDS : N := 60.
Definition DEFAULT_IPV6_PREFIX : N := 64.

(** [IpAddr] and [SocketAddr] as text, and [Display] of the two families. *)
Class IpText := {
  parse_ip : string -> option IpAddr;
  parse_socket : string -> option SocketAddr;
  show_v4 : Ipv4Addr -> string;
  show_v6 : Ipv6Addr -> string
}.

(** ** Settings *)

Record Limits := mkLimits { max_requests : N; window : N; ipv6_prefix : N }.

Definition NANOS_PER_SEC : N := 1000000000.
Definition duration_from_secs (secs : N) : N := secs * NANOS_PER_SEC.

Definition invalid_config (detail : string) : WaferError :=
  error_new ErrorCode.InvalidArgument ("wafer-run/ip-rate-limit: " +:+ detail).

Section Settings.
  Context `{DebugFormat}.

(** [setting]; [parse] is [str::parse] at the type of the setting. *)
Definition setting (parse : string -> option N) (raw : option string) (key : string) (dflt : N)
    (valid : N -> bool) (expected : string) : result N WaferError :=
  match option_map trim raw with
  | None => Ok dflt
  | Some value =>
      if is_empty value then Ok dflt
      else match match parse value with
                 | Some v => if valid v then Some v else None
                 | None => None
                 end with
           | Some v => Ok v
           | None => Err (invalid_config (backquoted key +:+ " must be " +:+ expected +:+ ", got "
                                          +:+ debug_str value))
           end
  end.

(** [Limits::read]. *)
Definition limits_read (get : string -> option string) : result Limits WaferError :=
  let? max := setting (parse_unsigned (2 ^ 32)) (get "max_requests") "max_requests" DEFAULT_MAX_REQUESTS
                (fun _ => true) "a non-negative integer (0 disables the limiter)" in
  let? secs := setting (parse_unsigned (2 ^ 64)) (get "window_seconds") "window_seconds"
                 DEFAULT_WINDOW_SECONDS (fun secs => (0 <? secs)%N) "a positive integer number of seconds" in
  let? prefix := setting (parse_unsigned (2 ^ 8)) (get "ipv6_prefix") "ipv6_prefix" DEFAULT_IPV6_PREFIX
                   (fun len => (1 <=? len)%N && (len <=? 128)%N) "an integer prefix length from 1 to 128" in
  Ok (mkLimits max (duration_from_secs secs) prefix).
End Settings.

(** ** Clients *)

(** [Ipv6Addr::to_ipv4_mapped]. *)
Definition to_ipv4_mapped (ip : Ipv6Addr) : option Ipv4Addr :=
  if segments_zero ip 0 5 && (segment ip 5 =? 65535)%N
  then Some (embedded_v4 (segment ip 6) (segment ip 7)) else None.

Definition U128_MAX : N := 2 ^ 128 - 1.
Definition u128_shl (n k : N) : N := (N.shiftl n k mod 2 ^ 128)%N.

(** [client_network]. *)
Definition client_network `{IpText} (remote_addr : string) (ipv6_prefix : N) : option string :=
  let value := trim remote_addr in
  match match parse_ip value with
        | Some ip => Some ip
        | None => option_map sock_ip (parse_socket value)
        end with
  | None => None
  | Some (V4 v4) => Some (show_v4 v4)
  | Some (V6 v6) =>
      match to_ipv4_mapped v6 with
      | Some v4 => Some (show_v4 v4)
      | None =>
          let mask := u128_shl U128_MAX (128 - ipv6_prefix) in
          Some (show_v6 (N.land v6 mask) +:+ "/" +:+ pretty ipv6_prefix)
      end
  end.

(** ** Buckets *)

Record BucketKey := mkKey { bk_client : string; bk_max_requests : N; bk_window : N }.
Record RateBucket := mkBucket { count : N; window_start : N }.

#[export] Instance bucket_key_eq_dec : EqDecision BucketKey.
Proof. solve_decision. Defined.
#[export] Instance bucket_key_countable : Countable BucketKey.
Proof.
  refine (inj_countable' (fun k => (bk_client k, bk_max_requests k, bk_window k))
            (fun '(c, m, w) => mkKey c m w) _). by intros [].
Defined.

Abbreviation Shard := (gmap BucketKey RateBucket).

(** [BucketKey::expired] and [throttled]. *)
Definition expired (key : BucketKey) (bucket : RateBucket) (now : N) : bool :=
  (bk_window key <? now - window_start bucket)%N.
Definition throttled (key : BucketKey) (bucket : RateBucket) : bool :=
  (bk_max_requests key <=? count bucket)%N.

Definition SHARD_COUNT : nat := 16.
Definition HARD_CAP : N := 100000.

(** The tuple the victims are sorted by: compared field by field. *)
Definition Victim : Type := bool * N * N * BucketKey.

Definition then_compare (c d : comparison) : comparison := match c with Eq => d | _ => c end.
Definition compare_bool (a b : bool) : comparison :=
  match a, b with false, true => Lt | true, false => Gt | _, _ => Eq end.
Definition compare_key (a b : BucketKey) : comparison :=
  then_compare (String.compare (bk_client a) (bk_client b))
    (then_compare (bk_max_requests a ?= bk_max_requests b)%N (bk_window a ?= bk_window b)%N).
Definition compare_victim (a b : Victim) : comparison :=
  let '(t, c, s, k) := a in let '(t', c', s', k') := b in
  then_compare (compare_bool t t') (then_compare (c ?= c')%N (then_compare (s ?= s')%N (compare_key k k'))).

Definition victim_leb (a b : Victim) : bool := match compare_victim a b with Gt => false | _ => true end.

Fixpoint insert_victim (v : Victim) (l : list Victim) : list Victim :=
  match l with
  | [] => [v]
  | w :: l' => if victim_leb v w then v :: l else w :: insert_victim v l'
  end.
(** [sort_unstable] on tuples whose order is total. *)
Definition sort_victims (l : list Victim) : list Victim := foldr insert_victim [] l.

Definition victim_of (kb : BucketKey * RateBucket) : Victim :=
  (throttled kb.1 kb.2, count kb.2, window_start kb.2, kb.1).

(** [evict_for_new_key]. *)
Definition evict_for_new_key (buckets : Shard) (capacity : nat) (now : N) : Shard :=
  let buckets := filter (fun kb => expired kb.1 kb.2 now = false) buckets in
  let target := capacity - capacity / 10 in
  if size buckets <? target then buckets
  else
    let excess := size buckets + 1 - target in
    let victims := sort_victims (map victim_of (map_to_list buckets)) in
    fold_left (fun buckets v => delete (snd v) buckets) (take excess victims) buckets.

(** [ShardedBuckets], with its seeded hash. *)
Record ShardedBuckets := mkBuckets {
  hasher : string -> N;
  shards : list Shard;
  shard_capacity : nat
}.

Definition with_shard_capacity (hash : string -> N) (shard_capacity : nat) : ShardedBuckets :=
  mkBuckets hash (replicate SHARD_COUNT ∅) shard_capacity.
Definition buckets_new (hash : string -> N) : ShardedBuckets :=
  with_shard_capacity hash (N.to_nat (HARD_CAP / N.of_nat SHARD_COUNT)).

(** [shard_index]. *)
Definition shard_index (self : ShardedBuckets) (client : string) : nat :=
  N.to_nat (hasher self client mod N.of_nat SHARD_COUNT).

Definition u32_wrap (n : N) : N := (n mod 2 ^ 32)%N.

(** What [record] does to the shard it locks. *)
Definition record_in (buckets : Shard) (capacity : nat) (key : BucketKey) (now : N) : Shard * (N * N) :=
  let buckets := if (capacity <=? size buckets) && negb (bool_decide (is_Some (buckets !! key)))
                 then evict_for_new_key buckets capacity now else buckets in
  let fresh := match buckets !! key with Some b => expired key b now | None => false end in
  let bucket := default (mkBucket 0 now) (buckets !! key) in
  let bucket := if fresh then mkBucket 0 now else bucket in
  let bucket := mkBucket (u32_wrap (count bucket + 1)) (window_start bucket) in
  (<[key := bucket]> buckets, (count bucket, window_start bucket)).

(** [ShardedBuckets::record]; [None] would be an index out of range. *)
Definition record (self : ShardedBuckets) (client : string) (now : N) (limits : Limits)
  : option (ShardedBuckets * (N * N)) :=
  let i := shard_index self client in
  match shards self !! i with
  | None => None
  | Some buckets =>
      let key := mkKey client (max_requests limits) (window limits) in
      let '(buckets, answer) := record_in buckets (shard_capacity self) key now in
      Some (mkBuckets (hasher self) (<[i := buckets]> (shards self)) (shard_capacity self), answer)
  end.

(** ** The block *)

Section Block.
  Context `{JsonCrate} `{DebugFormat} `{IpText}.

(** The answer to a counted request. *)
Definition rate_answer (limits : Limits) (now count window_start : N) (msg : Message) : OutputStream :=
  let max := max_requests limits in
  if (max <? count)%N then
    let remaining := (window limits - (now - window_start))%N in
    output_error (mkError ErrorCode.ResourceExhausted "Too many requests"
      [mkMeta "resp.header.Retry-After" (pretty (remaining / NANOS_PER_SEC)%N);
       mkMeta "resp.header.X-RateLimit-Limit" (pretty max);
       mkMeta "resp.header.X-RateLimit-Remaining" "0"])
  else
    let out := set_meta msg "resp.header.X-RateLimit-Limit" (pretty max) in
    continue_with (set_meta out "resp.header.X-RateLimit-Remaining" (pretty (max - count)%N)).

(** [RateLimitBlock::handle] at the instant [now]. *)
Definition rate_handle (self : ShardedBuckets) (config : string -> option string) (now : N) (msg : Message)
  : option (ShardedBuckets * OutputStream) :=
  match limits_read config with
  | Err e => Some (self, output_error e)
  | Ok limits =>
      if (max_requests limits =? 0)%N then Some (self, continue_with msg)
      else match client_network (remote_addr msg) (ipv6_prefix limits) with
      | None => Some (self, output_error (mkError ErrorCode.InvalidArgument
                                            "Client IP could not be determined" []))
      | Some client =>
          match record self client now limits with
          | None => None
          | Some (self, (count, window_start)) => Some (self, rate_answer limits now count window_start msg)
          end
      end
  end.

(** The shapes [lifecycle] accepts. *)
Fixpoint check_shapes (config : BlockConfig) (keys : list string) : result unit WaferError :=
  match keys with
  | [] => Ok tt
  | key :: keys =>
      match block_config_get config key with
      | None | Some (VString _) | Some (VNumber _) | Some (VBool _) => check_shapes config keys
      | Some other => Err (invalid_config (backquoted key +:+ " must be a number, got " +:+ display_json other))
      end
  end.

(** [RateLimitBlock::lifecycle]. *)
Definition rate_lifecycle (event : LifecycleEvent) : result unit WaferError :=
  match event_type event with
  | LifecycleType.Init =>
      let config := from_event event in
      let? _ := check_shapes config ["max_requests"; "window_seconds"; "ipv6_prefix"] in
      let flat := parse_config_map (as_value config) in
      let? _ := limits_read (fun key => flat !! key) in
      Ok tt
  | _ => Ok tt
  end.
End Block.

(** * Properties of the rate limiter: the budget of a window, the bound on its
    memory, and which buckets give way to a new client. *)

(** ** The order of eviction *)

(** [a] goes no later than [b], by throttling, count and window. *)
Definition cheaper (a b : Victim) : Prop :=
  let '(t, c, s, _) := a in let '(t', c', s', _) := b in
  (t = false /\ t' = true) \/ (t = t' /\ ((c < c')%N \/ (c = c' /\ (s <= s')%N))).

Lemma cheaper_trans (a b c : Victim) : cheaper a b -> cheaper b c -> cheaper a c.
Proof.
  destruct a as [[[t1 c1] s1] k1], b as [[[t2 c2] s2] k2], c as [[[t3 c3] s3] k3]. cbn.
  destruct t1, t2, t3; intuition (try congruence; try lia).
Qed.

Lemma victim_leb_cheaper (a b : Victim) : if victim_leb a b then cheaper a b else cheaper b a.
Proof.
  destruct a as [[[t c] s] k], b as [[[t' c'] s'] k']. unfold victim_leb, compare_victim, cheaper.
  destruct t, t'; cbn [compare_bool then_compare]; try (by left);
    destruct (N.compare_spec c c'); cbn [then_compare]; try (right; split; [done|lia]);
    destruct (N.compare_spec s s'); cbn [then_compare]; try (right; split; [done|lia]);
    destruct (compare_key k k'); right; (split; [done|lia]).
Qed.

Lemma insert_victim_perm (v : Victim) (l : list Victim) : insert_victim v l ≡ₚ v :: l.
Proof.
  induction l as [|w l IH]; [done|]. cbn. destruct (victim_leb v w); [done|]. by rewrite IH, Permutation_swap.
Qed.

Lemma sort_victims_perm (l : list Victim) : sort_victims l ≡ₚ l.
Proof. induction l as [|v l IH]; [done|]. cbn. by rewrite insert_victim_perm, IH. Qed.

Lemma insert_victim_sorted (v : Victim) (l : list Victim) :
  StronglySorted cheaper l -> StronglySorted cheaper (insert_victim v l).
Proof.
  induction 1 as [|w l Hl IH Hw]; cbn; [repeat constructor|].
  pose proof (victim_leb_cheaper v w) as Hc. destruct (victim_leb v w).
  - constructor; [by constructor|]. constructor; [done|].
    eapply Forall_impl; [apply Hw|]. intros x. by apply cheaper_trans.
  - constructor; [done|]. rewrite insert_victim_perm. by constructor.
Qed.

Lemma sort_victims_sorted (l : list Victim) : StronglySorted cheaper (sort_victims l).
Proof. induction l as [|v l IH]; [constructor|]. by apply insert_victim_sorted. Qed.

Lemma sorted_take_drop (n : nat) (l : list Victim) (a b : Victim) :
  StronglySorted cheaper l -> a ∈ take n l -> b ∈ drop n l -> cheaper a b.
Proof.
  intros Hs. revert n. induction Hs as [|v l Hl IH Hv]; intros [|n]; cbn; try (by intros ?%elem_of_nil).
  rewrite elem_of_cons. intros [-> | Ha] Hb; [|by eapply IH].
  rewrite Forall_forall in Hv. apply Hv. by apply (subseteq_drop n).
Qed.

(** ** Eviction *)

Lemma delete_all (l : list Victim) (m : Shard) :
  (forall k, fold_left (fun m v => delete (snd v) m) l m !! k
     = if decide (k ∈ map snd l) then None else m !! k)
  /\ (NoDup (map snd l) -> (forall k, k ∈ map snd l -> is_Some (m !! k)) ->
      size (fold_left (fun m v => delete (snd v) m) l m) + length l = size m).
Proof.
  revert m. induction l as [|v l IH]; intros m.
  - split; [done|]. intros _ _. cbn. lia.
  - cbn [fold_left map length]. destruct (IH (delete v.2 m)) as [H1 H2]. split.
    + intros k. rewrite H1. destruct (decide (k ∈ map snd l)).
      * by rewrite decide_True by (by right).
      * destruct (decide (k = v.2)) as [->|Hk].
        -- rewrite decide_True by left. apply lookup_delete_eq.
        -- rewrite decide_False by (rewrite elem_of_cons; naive_solver). by apply lookup_delete_ne.
    + intros [Hn Hd]%NoDup_cons Hin. specialize (H2 Hd).
      assert (forall k, k ∈ map snd l -> is_Some (delete v.2 m !! k)) as Hin'.
      { intros k Hk. rewrite lookup_delete_ne by (intros <-; done). apply Hin. by right. }
      specialize (H2 Hin'). destruct (Hin v.2) as [b Hb]; [left|].
      rewrite map_size_delete, Hb in H2. assert (size m <> 0) by (intros Hz%map_size_empty_inv; subst; done). lia.
Qed.

(** The shard without its expired buckets. *)
Definition live (m : Shard) (now : N) : Shard := filter (fun kb => expired kb.1 kb.2 now = false) m.

Lemma live_lookup (m : Shard) (now : N) (k : BucketKey) (b : RateBucket) :
  live m now !! k = Some b <-> m !! k = Some b /\ expired k b now = false.
Proof. unfold live. by rewrite map_lookup_filter_Some. Qed.

Lemma victims_keys (m : Shard) : map snd (map victim_of (map_to_list m)) = (map_to_list m).*1.
Proof. rewrite map_map. done. Qed.

(** Eviction keeps buckets as they are, makes room for one, and drops live
    buckets cheapest first. *)
Lemma evict_spec (m : Shard) (capacity : nat) (now : N) :
  1 <= capacity ->
  let m' := evict_for_new_key m capacity now in
  (forall k b, m' !! k = Some b -> m !! k = Some b)
  /\ size m' < capacity
  /\ (forall k b k' b', live m now !! k = Some b -> m' !! k = None -> m' !! k' = Some b' ->
      cheaper (victim_of (k, b)) (victim_of (k', b'))).
Proof.
  intros Hcap. cbv zeta. unfold evict_for_new_key. fold (live m now).
  set (target := capacity - capacity / 10).
  assert (1 <= target <= capacity) as Ht.
  { assert (capacity / 10 < capacity) by (apply Nat.div_lt; lia). unfold target. lia. }
  destruct (Nat.ltb_spec (size (live m now)) target) as [Hlt|Hge].
  - split_and!; [by intros k b [Hm _]%live_lookup|lia|]. intros k b k' b' Hk Hn. congruence.
  - set (vs := sort_victims _). set (n := _ + 1 - target).
    assert (vs ≡ₚ map victim_of (map_to_list (live m now))) as Hp by apply sort_victims_perm.
    assert (map snd vs ≡ₚ (map_to_list (live m now)).*1) as Hk by (by rewrite Hp, victims_keys).
    destruct (delete_all (take n vs) (live m now)) as [H1 H2]. set (m' := fold_left _ _ _) in *.
    assert (Hsub : forall k b, m' !! k = Some b -> live m now !! k = Some b).
    { intros k b Hkb. rewrite H1 in Hkb. by destruct (decide _). }
    assert (Hvs : forall k b, live m now !! k = Some b <-> victim_of (k, b) ∈ vs).
    { intros k b. rewrite Hp, <- elem_of_map_to_list. split; [intros Hin; by apply list_elem_of_fmap_2|].
      intros ([k0 b0] & E & Hin)%list_elem_of_fmap. unfold victim_of in E. cbn in E.
      destruct b as [c s], b0 as [c0 s0]. cbn in E. by injection E as _ <- <- <-. }
    split_and!.
    + by intros k b [? _]%Hsub%live_lookup.
    + assert (NoDup (map snd vs)) as Hnd by (rewrite Hk; apply NoDup_fst_map_to_list).
      rewrite <- (take_drop n vs), map_app, NoDup_app in Hnd. destruct Hnd as (Hnd & _ & _).
      assert (length (take n vs) = n) as Hl.
      { rewrite length_take, Hp, length_map. rewrite length_map_to_list. unfold n. lia. }
      rewrite Hl in H2. specialize (H2 Hnd). cut (size m' + n = size (live m now)); [unfold n; lia|].
      apply H2. intros k Hin. assert (k ∈ map snd vs) as Hin2
        by (rewrite <- (take_drop n vs), map_app; apply elem_of_app; by left).
      rewrite Hk in Hin2. apply list_elem_of_fmap in Hin2 as ([k0 b0] & -> & Hb).
      apply elem_of_map_to_list in Hb. by exists b0.
    + intros k b k' b' Hb Hn Hb'. apply (sorted_take_drop n vs); [apply sort_victims_sorted| |].
      * rewrite H1 in Hn. destruct (decide (k ∈ map snd (take n vs))) as [Hin|]; [|congruence].
        apply list_elem_of_fmap in Hin as (v & -> & Hv).
        assert (v ∈ vs) as Hv' by (by apply (subseteq_take n)). rewrite Hp in Hv'.
        apply list_elem_of_fmap in Hv' as ([k0 b0] & -> & Hin). apply elem_of_map_to_list in Hin.
        cbn in Hb. rewrite Hb in Hin. by injection Hin as <-.
      * pose proof (proj1 (Hvs k' b') (Hsub k' b' Hb')) as Hin. rewrite <- (take_drop n vs) in Hin.
        apply elem_of_app in Hin as [Hin|]; [|done]. exfalso. rewrite H1 in Hb'.
        rewrite decide_True in Hb'; [done|]. by apply (list_elem_of_fmap_2 snd) in Hin.
Qed.

(** ** One request *)

(** What counting a request leaves in its bucket. *)
Definition counted (key : BucketKey) (now : N) (old : option RateBucket) : RateBucket :=
  match old with
  | Some b => if expired key b now then mkBucket 1 now else mkBucket (u32_wrap (count b + 1)) (window_start b)
  | None => mkBucket 1 now
  end.

Lemma record_in_spec (m m' : Shard) (capacity : nat) (key : BucketKey) (now c s : N) :
  1 <= capacity -> size m <= capacity ->
  record_in m capacity key now = (m', (c, s)) ->
  mkBucket c s = counted key now (m !! key)
  /\ m' !! key = Some (mkBucket c s)
  /\ (forall k, k <> key -> m' !! k = m !! k \/ m' !! k = None)
  /\ size m' <= capacity
  /\ (forall k b, k <> key -> m !! k = Some b -> m' !! k = None ->
      size m = capacity /\ m !! key = None
      /\ (expired k b now = false -> forall k' b', k' <> key -> m' !! k' = Some b' ->
          cheaper (victim_of (k, b)) (victim_of (k', b')))).
Proof.
  intros Hcap Hsize. unfold record_in.
  set (m1 := if (capacity <=? size m) && _ then _ else m).
  assert ((m1 = m /\ (size m < capacity \/ is_Some (m !! key)))
    \/ (m1 = evict_for_new_key m capacity now /\ size m = capacity /\ m !! key = None)) as Hm1.
  { unfold m1. destruct (Nat.leb_spec capacity (size m)); cbn [andb]; [|left; auto].
    case_bool_decide as Hs; cbn [negb]; [by left; auto|right]. split_and!; [done|lia|by apply eq_None_not_Some]. }
  assert (m1 !! key = m !! key) as Ek.
  { destruct Hm1 as [[-> _] | (-> & _ & Hn)]; [done|]. rewrite Hn.
    destruct (evict_for_new_key m capacity now !! key) as [b|] eqn:E; [|done].
    apply (evict_spec m capacity now Hcap) in E. congruence. }
  rewrite Ek. 
  set (b1 := if match m !! key with Some b => expired key b now | None => false end
             then mkBucket 0 now else default (mkBucket 0 now) (m !! key)). intros [= <- <- <-].
  assert (mkBucket (u32_wrap (count b1 + 1)) (window_start b1) = counted key now (m !! key)) as Eb.
  { unfold b1, counted. destruct (m !! key) as [b|]; [|done]. cbn. by destruct (expired key b now). }
  split_and!.
  - done.
  - rewrite Eb. by rewrite lookup_insert_eq.
  - intros k Hk. rewrite lookup_insert_ne by done. destruct Hm1 as [[-> _] | (-> & _)]; [by left|].
    destruct (evict_for_new_key m capacity now !! k) as [b|] eqn:E; [|by right].
    left. by apply (evict_spec m capacity now Hcap) in E.
  - rewrite map_size_insert, Ek. destruct Hm1 as [[-> Hs] | (-> & _ & Hn)].
    + destruct (m !! key) as [b|] eqn:Eb2; [done|]. destruct Hs as [Hs|[? Hs]]; [lia|congruence].
    + rewrite Hn. destruct (evict_spec m capacity now Hcap) as (_ & Hs & _). lia.
  - intros k b Hk Hb Hn. rewrite lookup_insert_ne in Hn by done.
    destruct Hm1 as [[E _] | (E & Hs & Hkn)]; [congruence|]. split_and!; try done.
    intros Hl k' b' Hk' Hb'. rewrite lookup_insert_ne in Hb' by done. rewrite E in Hn, Hb'.
    eapply (evict_spec m capacity now Hcap); [by apply live_lookup|done|done].
Qed.

(** ** The sharded table *)

(** Sixteen shards, none above capacity, each holding its own clients. *)
Definition table_ok (self : ShardedBuckets) : Prop :=
  length (shards self) = SHARD_COUNT /\ 1 <= shard_capacity self
  /\ Forall (fun m => size m <= shard_capacity self) (shards self).

Definition shard_of (self : ShardedBuckets) (key : BucketKey) : Shard :=
  default ∅ (shards self !! shard_index self (bk_client key)).
Definition bucket_of (self : ShardedBuckets) (key : BucketKey) : option RateBucket := shard_of self key !! key.

Lemma shard_index_lt (self : ShardedBuckets) (client : string) : shard_index self client < SHARD_COUNT.
Proof.
  unfold shard_index. change (N.of_nat SHARD_COUNT) with 16%N.
  assert (hasher self client mod 16 < 16)%N by (by apply N.mod_upper_bound). unfold SHARD_COUNT. lia.
Qed.

Definition key_of (client : string) (limits : Limits) : BucketKey :=
  mkKey client (max_requests limits) (window limits).

(** Counting always succeeds; it changes the bucket of the request as a fixed
    window does, and no other unless it is evicted. *)
Lemma record_spec (self : ShardedBuckets) (client : string) (now : N) (limits : Limits) :
  table_ok self ->
  let key := key_of client limits in
  exists self' c s, record self client now limits = Some (self', (c, s)) /\ table_ok self'
  /\ mkBucket c s = counted key now (bucket_of self key)
  /\ bucket_of self' key = Some (mkBucket c s)
  /\ (forall k, k <> key -> bucket_of self' k = bucket_of self k \/ bucket_of self' k = None)
  /\ (forall k b, k <> key -> bucket_of self k = Some b -> bucket_of self' k = None ->
      shard_index self (bk_client k) = shard_index self client
      /\ size (shard_of self k) = shard_capacity self /\ bucket_of self key = None
      /\ (expired k b now = false -> forall k' b', k' <> key -> shard_of self' k !! k' = Some b' ->
          cheaper (victim_of (k, b)) (victim_of (k', b')))).
Proof.
  intros (Hlen & Hcap & Hsz). cbv zeta. set (key := key_of client limits).
  assert (shard_index self client < length (shards self)) as Hi by (rewrite Hlen; apply shard_index_lt).
  apply lookup_lt_is_Some in Hi as [m Hm]. unfold record. rewrite Hm. fold (key_of client limits). fold key.
  destruct (record_in m (shard_capacity self) key now) as [m' [c s]] eqn:Er.
  assert (size m <= shard_capacity self) as Hms by (rewrite Forall_lookup in Hsz; by eapply Hsz).
  destruct (record_in_spec _ _ _ _ _ _ _ Hcap Hms Er) as (R1 & R2 & R3 & R4 & R5).
  set (self' := mkBuckets _ _ _). exists self', c, s.
  assert (forall k, shard_index self' (bk_client k) = shard_index self (bk_client k)) as Hidx by done.
  assert (forall k, shard_index self (bk_client k) = shard_index self client ->
    shard_of self k = m /\ shard_of self' k = m') as Hin.
  { intros k E. unfold shard_of. rewrite Hidx, E, Hm. cbn [shards self'].
    rewrite list_lookup_insert_eq by (by eapply lookup_lt_Some). done. }
  assert (forall k, shard_index self (bk_client k) <> shard_index self client ->
    shard_of self' k = shard_of self k) as Hout.
  { intros k E. unfold shard_of. rewrite Hidx. cbn [shards self']. by rewrite list_lookup_insert_ne. }
  destruct (Hin key eq_refl) as [Ek Ek']. unfold bucket_of. rewrite Ek, Ek'. split_and!; try done.
  - unfold table_ok, self'. cbn [shards shard_capacity]. rewrite length_insert. split_and!; try done.
    by apply Forall_insert.
  - intros k Hk. destruct (decide (shard_index self (bk_client k) = shard_index self client)) as [E|E].
    + destruct (Hin k E) as [-> ->]. by apply R3.
    + left. by rewrite (Hout k E).
  - intros k b Hk Hb Hn.
    destruct (decide (shard_index self (bk_client k) = shard_index self client)) as [E|E];
      [|rewrite (Hout k E) in Hn; congruence].
    destruct (Hin k E) as [Es Es']. rewrite Es in Hb. rewrite Es' in Hn. rewrite Es, Es'.
    destruct (R5 k b Hk Hb Hn) as (S1 & S2 & S3). split_and!; auto.
Qed.

(** ** Runs *)

Lemma new_table_ok (hash : string -> N) (capacity : nat) :
  1 <= capacity -> table_ok (with_shard_capacity hash capacity).
Proof.
  intros Hc. split_and!; [done|done|]. apply Forall_replicate. by rewrite map_size_empty; lia.
Qed.

(** The tables of a run from empty shards, and the answers [(now, count,
    window_start)] of one bucket in it while it is not evicted. The clock
    never goes back. *)
Inductive served (hash : string -> N) (capacity : nat) (K : BucketKey)
  : N -> ShardedBuckets -> list (N * N * N) -> Prop :=
| served_new t : served hash capacity K t (with_shard_capacity hash capacity) []
| served_step t self answers client now limits self' c s :
    served hash capacity K t self answers -> (t <= now)%N ->
    record self client now limits = Some (self', (c, s)) ->
    (is_Some (bucket_of self K) -> is_Some (bucket_of self' K)) ->
    served hash capacity K now self'
      (if bool_decide (key_of client limits = K) then answers ++ [(now, c, s)] else answers).

(** The counts of a window, in order. *)
Definition window_counts (w : N) (answers : list (N * N * N)) : list N :=
  omap (fun '(_, c, s) => if (s =? w)%N then Some c else None) answers.

(** The first [n] counts. *)
Definition upto (n : nat) : list N := map N.of_nat (seq 1 n).

Record run_ok (K : BucketKey) (answers : list (N * N * N)) : Prop := {
  run_counts w : window_counts w answers = upto (length (window_counts w answers));
  run_times now c s : (now, c, s) ∈ answers -> (s <= now /\ now <= s + bk_window K)%N;
  run_gaps now c s now' c' s' : (now, c, s) ∈ answers -> (now', c', s') ∈ answers ->
    (s < s')%N -> (s + bk_window K < s')%N
}.

Definition bucket_agrees (t : N) (answers : list (N * N * N)) (old : option RateBucket) : Prop :=
  match old with
  | None => answers = []
  | Some b => (window_start b <= t)%N /\ count b = N.of_nat (length (window_counts (window_start b) answers))
              /\ (forall now c s, (now, c, s) ∈ answers -> (s <= window_start b)%N)
              /\ (exists now c, (now, c, window_start b) ∈ answers)
  end.

Lemma window_counts_snoc (w now c s : N) (answers : list (N * N * N)) :
  window_counts w (answers ++ [(now, c, s)])
  = window_counts w answers ++ (if (s =? w)%N then [c] else []).
Proof. unfold window_counts. rewrite omap_app. cbn. by destruct (s =? w)%N. Qed.

Lemma window_counts_length (w : N) (answers : list (N * N * N)) :
  length (window_counts w answers) <= length answers.
Proof.
  induction answers as [|[[now c] s] l IH]; [done|]. cbn. destruct (s =? w)%N; cbn; unfold window_counts in IH; lia.
Qed.

Lemma window_counts_none (w : N) (answers : list (N * N * N)) :
  (forall now c s, (now, c, s) ∈ answers -> (s < w)%N) -> window_counts w answers = [].
Proof.
  induction answers as [|[[now c] s] l IH]; intros Hs; [done|]. cbn.
  assert (s < w)%N as H by (eapply Hs; left). replace (s =? w)%N with false by (symmetry; apply N.eqb_neq; lia).
  apply IH. intros now' c' s' Hin. eapply Hs. by right.
Qed.

Lemma upto_snoc (n : nat) : upto n ++ [N.of_nat (n + 1)] = upto (n + 1).
Proof. unfold upto. rewrite seq_app, map_app. cbn. do 3 f_equal. lia. Qed.

(** The answer of a request extends the run. *)
Lemma counted_run (K : BucketKey) (t now : N) (old : option RateBucket) (answers : list (N * N * N)) :
  run_ok K answers -> bucket_agrees t answers old -> (t <= now)%N ->
  (N.of_nat (length answers) + 1 < 2 ^ 32)%N ->
  let b := counted K now old in
  run_ok K (answers ++ [(now, count b, window_start b)])
  /\ bucket_agrees now (answers ++ [(now, count b, window_start b)]) (Some b).
Proof.
  intros [Rc Rt Rg] Ha Ht Hlen. cbv zeta.
  assert (forall b : RateBucket,
    (window_counts (window_start b) answers ++ [count b] = upto (length (window_counts (window_start b) answers) + 1)) ->
    (window_start b <= now /\ now <= window_start b + bk_window K)%N ->
    (forall now' c s, (now', c, s) ∈ answers ->
       s = window_start b \/ (s + bk_window K < window_start b)%N) ->
    run_ok K (answers ++ [(now, count b, window_start b)])
    /\ bucket_agrees now (answers ++ [(now, count b, window_start b)]) (Some b)) as G.
  { intros b Hc Hw Hs. split.
    - split.
      + intros w. rewrite window_counts_snoc, length_app.
        destruct (N.eqb_spec (window_start b) w) as [<-|_]; [done|]. rewrite app_nil_r, Nat.add_0_r. apply Rc.
      + intros now' c s [Hin|[= -> -> ->]%list_elem_of_singleton]%elem_of_app; [by apply (Rt now' c s)|done].
      + intros n1 c1 s1 n2 c2 s2 [H1|[= -> -> ->]%list_elem_of_singleton]%elem_of_app
          [H2|[= -> -> ->]%list_elem_of_singleton]%elem_of_app Hlt; [by eapply Rg| | |lia].
        * destruct (Hs _ _ _ H1) as [->|]; [lia|done].
        * destruct (Hs _ _ _ H2) as [->|]; lia.
    - cbn. split_and!; [lia| | |do 2 eexists; apply elem_of_app; right; apply list_elem_of_singleton; done].
      + rewrite window_counts_snoc, N.eqb_refl, Hc. unfold upto. rewrite length_map, length_seq.
        rewrite <- upto_snoc in Hc. apply app_inj_tail in Hc as [_ ->]. done.
      + intros now' c s [Hin|[= -> -> ->]%list_elem_of_singleton]%elem_of_app; [|lia].
        destruct (Hs _ _ _ Hin) as [->|]; lia. }
  unfold counted. destruct old as [b|]; cbn in Ha.
  - destruct Ha as (Hst & Hcnt & Hall & Hlast). destruct (expired K b now) eqn:Ee; unfold expired in Ee.
    + apply N.ltb_lt in Ee. apply G; cbn.
      * rewrite window_counts_none; [done|]. intros n c s Hin. specialize (Hall n c s Hin). lia.
      * lia.
      * intros n c s Hin. right. specialize (Hall n c s Hin). lia.
    + apply N.ltb_ge in Ee. apply G; cbn.
      * rewrite Hcnt, (Rc (window_start b)) at 1. rewrite <- upto_snoc. do 2 f_equal. unfold u32_wrap.
        pose proof (window_counts_length (window_start b) answers). rewrite N.mod_small by lia. lia.
      * lia.
      * intros n c s Hin. pose proof (Hall n c s Hin) as Hle.
        destruct (N.eq_dec s (window_start b)) as [->|Hne]; [by left|right].
        destruct Hlast as (n' & c' & Hin'). apply (Rg _ _ _ _ _ _ Hin Hin'). lia.
  - subst answers. apply G; cbn; [done|lia|]. by intros n c s ?%elem_of_nil.
Qed.

Lemma served_facts (hash : string -> N) (capacity : nat) (K : BucketKey) (t : N) (self : ShardedBuckets)
    (answers : list (N * N * N)) :
  1 <= capacity -> served hash capacity K t self answers -> (N.of_nat (length answers) < 2 ^ 32)%N ->
  table_ok self /\ run_ok K answers /\ bucket_agrees t answers (bucket_of self K).
Proof.
  intros Hcap. induction 1 as [t|t self answers client now limits self' c s Hr IH Ht Hrec Hkeep].
  - intros _. split_and!; [by apply new_table_ok| |].
    + split; [done|by intros ? ? ? ?%elem_of_nil|by intros ? ? ? ? ? ? ?%elem_of_nil].
    + unfold bucket_of, shard_of, with_shard_capacity. cbn [shards].
      rewrite lookup_replicate_2 by apply shard_index_lt. cbn. by rewrite lookup_empty.
  - intros Hlen.
    assert (N.of_nat (length answers) < 2 ^ 32)%N as Hlen0.
    { destruct (bool_decide _); [rewrite length_app in Hlen; cbn in Hlen|]; lia. }
    destruct (IH Hlen0) as (Hok & Hrun & Hb).
    destruct (record_spec self client now limits Hok) as (self1 & c1 & s1 & E & Hok' & R1 & R2 & R3 & _).
    rewrite Hrec in E. injection E as <- <- <-. split; [done|].
    case_bool_decide as Ek.
    + rewrite Ek in *. rewrite length_app in Hlen. cbn in Hlen.
      destruct (counted_run K t now (bucket_of self K) answers Hrun Hb Ht) as [G1 G2]; [lia|].
      rewrite <- R1 in G1, G2. by rewrite R2.
    + split; [done|]. assert (K <> key_of client limits) as HK by congruence.
      destruct (R3 K HK) as [->|HN].
      * destruct (bucket_of self K); cbn in *; [|done]. destruct Hb as (? & ? & ? & ?). split_and!; try done. lia.
      * rewrite HN. cbn. destruct (bucket_of self K) as [b|]; [|done].
        destruct Hkeep as [x Hx]; [by eexists|]. congruence.
Qed.

(** How many of the first counts a budget admits. *)
Lemma upto_admitted (max : N) (n : nat) :
  length (List.filter (fun c => (c <=? max)%N) (upto n)) = Nat.min n (N.to_nat max).
Proof.
  induction n as [|n IH]; [done|]. replace (S n) with (n + 1) by lia. rewrite <- upto_snoc, List.filter_app, length_app, IH.
  cbn. destruct (N.leb_spec (N.of_nat (n + 1)) max); cbn; lia.
Qed.

(** ** The block *)

Section Handler.
  Context `{JsonCrate} `{DebugFormat} `{IpText}.

(** The bucket a request is charged to, when the limiter counts it. *)
Definition charged (config : string -> option string) (msg : Message) : option (string * Limits) :=
  match limits_read config with
  | Ok limits =>
      if (max_requests limits =? 0)%N then None
      else option_map (fun client => (client, limits)) (client_network (remote_addr msg) (ipv6_prefix limits))
  | Err _ => None
  end.

Definition passes (o : OutputStream) : bool :=
  match produced o with [EvContinue _] => true | _ => false end.

Lemma rate_handle_charged (self : ShardedBuckets) (config : string -> option string) (now : N) (msg : Message)
    (client : string) (limits : Limits) :
  charged config msg = Some (client, limits) ->
  rate_handle self config now msg
  = match record self client now limits with
    | Some (self', (c, s)) => Some (self', rate_answer limits now c s msg)
    | None => None
    end.
Proof.
  unfold charged, rate_handle. destruct (limits_read config) as [l|]; [|done].
  destruct (max_requests l =? 0)%N; [done|]. by destruct (client_network _ _); intros [= <- <-].
Qed.

Lemma rate_answer_passes (limits : Limits) (now c s : N) (msg : Message) :
  passes (rate_answer limits now c s msg) = (c <=? max_requests limits)%N.
Proof.
  unfold rate_answer. rewrite N.leb_antisym. by destruct (max_requests limits <? c)%N.
Qed.

(** C15: The budget of a fixed window. Over any run of requests in which a bucket
    is not evicted (and is charged fewer than 2^32 times): the requests
    charged to it in one window are counted one by one, so that the window
    lets through exactly the first [max_requests] of them; the requests of a
    window lie within its length, and two windows start further apart than
    that. The handler always answers a request it counts, and lets it through
    exactly when its count is within the budget. *)
Theorem rate_limit_budget (hash : string -> N) (capacity : nat) (K : BucketKey) (t : N)
    (self : ShardedBuckets) (answers : list (N * N * N)) :
  1 <= capacity -> served hash capacity K t self answers -> (N.of_nat (length answers) < 2 ^ 32)%N ->
  (forall w, window_counts w answers = upto (length (window_counts w answers))
     /\ length (List.filter (fun c => (c <=? bk_max_requests K)%N) (window_counts w answers))
        = Nat.min (length (window_counts w answers)) (N.to_nat (bk_max_requests K)))
  /\ (forall now c s, (now, c, s) ∈ answers -> (s <= now <= s + bk_window K)%N)
  /\ (forall now c s now' c' s', (now, c, s) ∈ answers -> (now', c', s') ∈ answers ->
      (s < s')%N -> (s + bk_window K < s')%N)
  /\ (forall config now msg client limits, charged config msg = Some (client, limits) ->
      exists self' c s, record self client now limits = Some (self', (c, s))
        /\ rate_handle self config now msg = Some (self', rate_answer limits now c s msg)
        /\ passes (rate_answer limits now c s msg) = (c <=? max_requests limits)%N).
Proof.
  intros Hcap Hs Hlen. destruct (served_facts _ _ _ _ _ _ Hcap Hs Hlen) as (Hok & [Rc Rt Rg] & _).
  split_and!; [|exact Rt|exact Rg|].
  - intros w. split; [apply Rc|]. rewrite (Rc w) at 1. apply upto_admitted.
  - intros config now msg client limits Hc.
    destruct (record_spec self client now limits Hok) as (self' & c & s & E & _).
    exists self', c, s. rewrite (rate_handle_charged self config now msg client limits Hc), E.
    split_and!; [done|done|apply rate_answer_passes].
Qed.
End Handler.

(** The tables of any run. *)
Inductive reached (hash : string -> N) (capacity : nat) : ShardedBuckets -> Prop :=
| reached_new : reached hash capacity (with_shard_capacity hash capacity)
| reached_step self client now limits self' answer :
    reached hash capacity self -> record self client now limits = Some (self', answer) ->
    reached hash capacity self'.

Lemma reached_ok (hash : string -> N) (capacity : nat) (self : ShardedBuckets) :
  1 <= capacity -> reached hash capacity self -> table_ok self /\ shard_capacity self = capacity.
Proof.
  intros Hc. induction 1 as [|self client now limits self' answer _ [Hok Hcap] Hr]; [by split; [apply new_table_ok|]|].
  destruct (record_spec self client now limits Hok) as (self1 & c & s & E & Hok' & _).
  rewrite Hr in E. injection E as <- _. split; [done|].
  unfold record in Hr. destruct (shards self !! _); [|done].
  destruct (record_in _ _ _ _). by injection Hr as <- _.
Qed.

(** Memory is bounded and throttled clients keep their counters. In every run
    no shard holds more than its capacity. A request drops the bucket of
    another client only when it is new to a full shard; a live bucket dropped
    is no dearer than any kept, so that a throttled bucket goes only when all
    that stay are throttled too, and no other bucket changes. *)
Theorem rate_table_bounded (hash : string -> N) (capacity : nat) (self : ShardedBuckets)
    (client : string) (now : N) (limits : Limits) :
  1 <= capacity -> reached hash capacity self ->
  let key := key_of client limits in
  length (shards self) = SHARD_COUNT /\ Forall (fun m => size m <= capacity) (shards self)
  /\ exists self' answer, record self client now limits = Some (self', answer)
  /\ (forall k, k <> key -> bucket_of self' k = bucket_of self k \/ bucket_of self' k = None)
  /\ (forall k b, k <> key -> bucket_of self k = Some b -> bucket_of self' k = None ->
      size (shard_of self k) = capacity /\ bucket_of self key = None
      /\ (expired k b now = false -> forall k' b', k' <> key -> shard_of self' k !! k' = Some b' ->
          (throttled k b = true -> throttled k' b' = true)
          /\ (throttled k' b' = throttled k b -> (count b <= count b')%N))).
Proof.
  intros Hc Hr. cbv zeta. destruct (reached_ok _ _ _ Hc Hr) as [Hok Hcap].
  pose proof Hok as (Hl & _ & Hsz). rewrite Hcap in Hsz. split_and!; [done|done|].
  destruct (record_spec self client now limits Hok) as (self' & c & s & E & _ & _ & _ & R3 & R4).
  exists self', (c, s). split_and!; try done. intros k b Hk Hb Hn.
  destruct (R4 k b Hk Hb Hn) as (_ & S1 & S2 & S3). rewrite Hcap in S1. split_and!; try done.
  intros He k' b' Hk' Hb'. specialize (S3 He k' b' Hk' Hb'). unfold cheaper, victim_of in S3. cbn in S3.
  destruct (throttled k b), (throttled k' b'); naive_solver lia.
Qed.

(** ** Sample runs *)

Definition sample_limits : Limits := mkLimits 1 (duration_from_secs 60) 64.
Definition sample_step (self : ShardedBuckets) (client : string) (now : N) : ShardedBuckets :=
  match record self client now sample_limits with Some (self', _) => self' | None => self end.
Definition sample_table : ShardedBuckets :=
  sample_step (sample_step (with_shard_capacity (fun _ => 0%N) 2) "a" 5) "a" 6.

Definition sample_ip : IpText :=
  {| parse_ip s := if s =s "10.0.0.1" then Some (V4 (v4 10 0 0 1)) else None;
     parse_socket _ := None; show_v4 _ := "10.0.0.1"; show_v6 _ := "::" |}.

Lemma rate_limit_budget_witness :
  served (fun _ => 0%N) 2 (key_of "a" sample_limits) 6 sample_table [(5, 1, 5); (6, 2, 5)]%N
  /\ length (List.filter (fun c => (c <=? 1)%N) (window_counts 5 [(5, 1, 5); (6, 2, 5)]%N)) = 1.
Proof.
  assert (served (fun _ => 0%N) 2 (key_of "a" sample_limits) 6 sample_table [(5, 1, 5); (6, 2, 5)]%N) as Hs.
  { apply (served_step (fun _ => 0%N) 2 (key_of "a" sample_limits) 5 (sample_step (with_shard_capacity (fun _ => 0%N) 2) "a" 5) [(5, 1, 5)%N]
             "a" 6 sample_limits _ 2 5); [|lia|vm_compute; reflexivity|intros _; vm_compute; eauto].
    apply (served_step (fun _ => 0%N) 2 (key_of "a" sample_limits) 0 (with_shard_capacity (fun _ => 0%N) 2) [] "a" 5 sample_limits _ 1 5);
      [constructor|lia|vm_compute; reflexivity|intros _; vm_compute; eauto]. }
  split; [exact Hs|].
  destruct (@rate_limit_budget {| debug_str s := s |} sample_ip (fun _ => 0%N) 2
    (key_of "a" sample_limits) 6 sample_table _ ltac:(lia) Hs eq_refl) as (Hw & _).
  exact (proj2 (Hw 5%N)).
Defined.

Lemma rate_table_bounded_witness :
  Forall (fun m => size m <= 2) (shards sample_table)
  /\ exists self' answer, record sample_table "b" 7 sample_limits = Some (self', answer).
Proof.
  assert (reached (fun _ => 0%N) 2 sample_table) as Hr.
  { apply (reached_step _ _ (sample_step (with_shard_capacity (fun _ => 0%N) 2) "a" 5) "a" 6 sample_limits _ (2, 5)%N);
      [|vm_compute; reflexivity].
    apply (reached_step _ _ (with_shard_capacity (fun _ => 0%N) 2) "a" 5 sample_limits _ (1, 5)%N);
      [constructor|vm_compute; reflexivity]. }
  destruct (rate_table_bounded (fun _ => 0%N) 2 sample_table "b" 7 sample_limits ltac:(lia) Hr)
    as (_ & Hb & self' & answer & E & _).
  split; [exact Hb|]. exists self', answer. exact E.
Defined.
