(* ===== verification/ConfigExpand.v ===== *)
(** Expansion of block configurations ([wafer-run/src/runtime/config_expand.rs]),
    the first phase of sealing: composite configurations, the declarative
    routing of flows, contributions through [uses], and keying every
    configuration by the block it configures.

    Hash maps are [gmap]s; the order a loop visits one in is not specified and
    is a parameter, [HashOrder]. An expander is a function of the embedder. *)

From stdpp Require Import sorting.
From S2P Require Import Prelude CoreTypes Text FlowTypes Lifecycle.

(** The order hash maps are visited in. *)
Class HashOrder := {
  hash_entries : forall {A}, gmap string A -> list (string * A);
  hash_entries_perm : forall {A} (m : gmap string A), hash_entries m ≡ₚ map_to_list m
}.

(** ** Merging *)

(** Replace the value of a key of an object. *)
Fixpoint assoc_set (k : string) (v : Value) (l : list (string * Value)) : list (string * Value) :=
  match l with
  | [] => []
  | (k', v') :: l => if k' =s k then (k', v) :: l else (k', v') :: assoc_set k v l
  end.

(** [deep_merge]: [dst] after the merge of [src]. *)
Fixpoint deep_merge (dst src : Value) {struct src} : Value :=
  match dst, src with
  | VObject dst_map, VObject src_map =>
      VObject ((fix go (src_map dst_map : list (string * Value)) : list (string * Value) :=
        match src_map with
        | [] => dst_map
        | (key, src_val) :: src_map =>
            go src_map (match assoc key dst_map with
                        | Some dst_val => assoc_set key (deep_merge dst_val src_val) dst_map
                        | None => dst_map ++ [(key, src_val)]
                        end)
        end) src_map dst_map)
  | _, _ => dst
  end.

Abbreviation Configs := (gmap string Value).

(** [entry(name).or_insert_with(empty object)], then [deep_merge]. *)
Definition merge_into (cfgs : Configs) (name : string) (val : Value) : Configs :=
  <[name := deep_merge (default (VObject []) (cfgs !! name)) val]> cfgs.

Definition merge_all (cfgs : Configs) (l : list (string * Value)) : Configs :=
  fold_left (fun cfgs '(name, val) => merge_into cfgs name val) l cfgs.

(** [entry(key).or_default().push(a)], over a list. *)
Definition group {K} `{Countable K} {A} (l : list (K * A)) : gmap K (list A) :=
  fold_left (fun m '(key, a) => <[key := default [] (m !! key) ++ [a]]> m) l ∅.

(** ** The passes *)

Section Expand.
  Context `{HashOrder} (canonicalize : string -> string).

(** [expand_composite_configs]. *)
Definition expand_composite_configs (expanders : gmap string (Value -> list (string * Value)))
    (cfgs : Configs) : Configs :=
  let keys := List.filter (fun k => bool_decide (is_Some (expanders !! k))) (hash_entries cfgs).*1 in
  fold_left (fun cfgs key =>
    match cfgs !! key, expanders !! key with
    | Some config, Some expander => merge_all (delete key cfgs) (expander config)
    | Some _, None => delete key cfgs
    | None, _ => cfgs
    end) keys cfgs.

(** A flow whose configuration is routed: it has a map that is not empty, and
    a configuration under its id. *)
Definition eligible (cfgs : Configs) (f : WaferFlow) : bool :=
  match wf_config_map f with
  | Some m => negb (bool_decide (m = ∅)) && bool_decide (is_Some (cfgs !! wf_id f))
  | None => false
  end.

(** The entry of [config_map] for a key of the flow's configuration. *)
Definition route_key (flow_config : Value) (cfgs : Configs) (entry : string * ConfigMapEntry) : Configs :=
  let '(user_key, mapping) := entry in
  match value_get flow_config user_key with
  | Some value => merge_into cfgs (cm_target mapping) (VObject [(cm_key mapping, value)])
  | None => cfgs
  end.

(** One flow of [expand_declarative_flow_configs]. *)
Definition expand_flow_config (cfgs : Configs) (f : WaferFlow) : Configs :=
  match cfgs !! wf_id f with
  | None => cfgs
  | Some flow_config =>
      let cfgs := delete (wf_id f) cfgs in
      let cfgs := merge_all cfgs (hash_entries (default ∅ (wf_config_defaults f))) in
      match flow_config with
      | VObject _ => fold_left (route_key flow_config) (hash_entries (default ∅ (wf_config_map f))) cfgs
      | _ => cfgs
      end
  end.

(** [expand_declarative_flow_configs]. *)
Definition expand_declarative_flow_configs (flows : gmap string WaferFlow) (cfgs : Configs) : Configs :=
  fold_left expand_flow_config (List.filter (eligible cfgs) (hash_entries flows).*2) cfgs.

(** The contributions of [gather_uses_configs]. *)
Definition uses_of (config : Value) : list (string * Value) :=
  match value_get config "uses" with Some (VObject uses) => uses | _ => [] end.

Definition without_key (key : string) (v : Value) : Value :=
  match v with VObject l => VObject (List.filter (fun kv => negb (kv.1 =s key)) l) | _ => v end.

(** [gather_uses_configs]. *)
Definition gather_uses_configs (cfgs : Configs) : Configs :=
  let contributions := flat_map (fun kv => uses_of kv.2) (hash_entries cfgs) in
  without_key "uses" <$> merge_all cfgs (map (fun '(target, contrib) => (canonicalize target, contrib)) contributions).

(** The names a target's configurations are registered under. *)
Definition by_target (cfgs : Configs) : gmap string (list string) :=
  group (map (fun name => (canonicalize name, name)) (hash_entries cfgs).*1).

(** The entries of a map in key order, as a [BTreeMap] visits them. *)
Definition sorted_entries {A} (m : gmap string A) : list (string * A) := merge_sort key_le (map_to_list m).

(** Two configurations of one block: the target and the sorted names. *)
Record ConfigCollision := mkCollision { cc_target : string; cc_names : list string }.

(** The loop of [key_block_configs_by_target]. *)
Fixpoint key_targets (targets : list (string * list string)) (cfgs : Configs) : Configs * result unit ConfigCollision :=
  match targets with
  | [] => (cfgs, Ok tt)
  | (target, names) :: targets =>
      match names with
      | [name] =>
          key_targets targets
            (if negb (name =s target) then
               match cfgs !! name with
               | Some config => <[target := config]> (delete name cfgs)
               | None => cfgs
               end
             else cfgs)
      | [] => key_targets targets cfgs
      | _ => (cfgs, Err (mkCollision target (merge_sort String.le names)))
      end
  end.

(** [key_block_configs_by_target]. *)
Definition key_block_configs_by_target (cfgs : Configs) : Configs * result unit ConfigCollision :=
  key_targets (sorted_entries (by_target cfgs)) cfgs.
End Expand.

(** [RuntimeError::Config] of a collision. *)
Definition collision_message (c : ConfigCollision) : string :=
  "block `" +:+ cc_target c +:+ "` has a config registered under each of "
  +:+ join ", " (map (fun n => "`" +:+ n +:+ "`") (cc_names c))
  +:+ "; register it once, under one name".

(** * Properties of configuration expansion: what merging keeps, which source of
    a value wins, and that every configuration ends up under its block. *)

(** ** Association lists and groups *)

Lemma assoc_set_get (k k' : string) (v : Value) (l : list (string * Value)) :
  is_Some (assoc k l) -> assoc k' (assoc_set k v l) = if k =s k' then Some v else assoc k' l.
Proof.
  intros Hs. induction l as [|[k0 v0] l IH]; cbn in *; [by destruct Hs|].
  destruct (k0 =s k) eqn:E.
  - apply eqs_true in E as ->. cbn. by destruct (k =s k').
  - cbn. rewrite (IH Hs). destruct (k0 =s k') eqn:E'; [|done].
    apply eqs_true in E' as ->. by rewrite String.eqb_sym, E.
Qed.

Lemma assoc_app {A} (k : string) (l l' : list (string * A)) :
  assoc k (l ++ l') = match assoc k l with Some v => Some v | None => assoc k l' end.
Proof. induction l as [|[k0 v0] l IH]; [done|]. cbn. by destruct (k0 =s k). Qed.

Lemma assoc_In {A} (k : string) (v : A) (l : list (string * A)) : assoc k l = Some v -> (k, v) ∈ l.
Proof.
  induction l as [|[k0 v0] l IH]; [done|]. cbn. destruct (k0 =s k) eqn:E.
  - intros [= ->]. apply eqs_true in E as ->. left.
  - intros H. right. auto.
Qed.

Lemma assoc_key_none {A} (k : string) (l : list (string * A)) : k ∉ l.*1 -> assoc k l = None.
Proof.
  destruct (assoc k l) as [v|] eqn:E; [|done]. intros Hn. exfalso. apply Hn.
  by apply (list_elem_of_fmap_2 fst _ (k, v)), assoc_In.
Qed.

(** The groups of a list: the values of each key, in order. *)
Lemma group_lookup {K} `{Countable K} {A} (l : list (K * A)) (k : K) :
  group l !! k = match omap (fun '(k', a) => if decide (k' = k) then Some a else None) l with
                 | [] => None
                 | vs => Some vs
                 end.
Proof.
  unfold group. induction l as [|[k' a] l IH] using rev_ind; [apply lookup_empty|].
  rewrite fold_left_app, omap_app. cbn. destruct (decide (k' = k)) as [->|Hk].
  - rewrite lookup_insert_eq, IH. by destruct (omap _ l).
  - by rewrite lookup_insert_ne, IH, app_nil_r.
Qed.

Lemma group_Some {K} `{Countable K} {A} (l : list (K * A)) (k : K) (vs : list A) :
  group l !! k = Some vs -> vs = omap (fun '(k', a) => if decide (k' = k) then Some a else None) l.
Proof. rewrite group_lookup. by destruct (omap _ l); [|intros [= <-]]. Qed.

(** When no group has two members the keys are distinct. *)
Lemma group_short_NoDup {K} `{Countable K} {A} (l : list (K * A)) :
  (forall k vs, group l !! k = Some vs -> length vs <= 1) -> NoDup l.*1.
Proof.
  intros Hs. induction l as [|[k a] l IH]; cbn; [constructor|]. constructor.
  - intros Hin. apply list_elem_of_fmap in Hin as ([k' a'] & E & Hin). cbn [fst] in E. subst k'.
    specialize (Hs k). rewrite group_lookup in Hs. cbn in Hs. rewrite decide_True in Hs by done.
    specialize (Hs _ eq_refl). cbn in Hs.
    assert (a' ∈ omap (fun '(k0, a0) => if decide (k0 = k) then Some a0 else None) l) as Ho.
    { apply list_elem_of_omap. exists (k, a'). by rewrite decide_True. }
    destruct (omap _ l); [by apply elem_of_nil in Ho|cbn in Hs; lia].
  - apply IH. intros k0 vs Hg. rewrite group_lookup in Hg. specialize (Hs k0). rewrite group_lookup in Hs. cbn in Hs.
    destruct (decide (k = k0)) as [->|]; [|by apply Hs; rewrite Hg].
    specialize (Hs _ eq_refl). cbn in Hs. destruct (omap _ l) eqn:E; [done|]. injection Hg as <-. cbn in Hs. lia.
Qed.

Lemma group_keys {K} `{Countable K} {A} (l : list (K * A)) (k : K) (a : A) :
  (k, a) ∈ l -> is_Some (group l !! k).
Proof.
  intros Hin. rewrite group_lookup.
  assert (a ∈ omap (fun '(k', a) => if decide (k' = k) then Some a else None) l) as Ho.
  { apply list_elem_of_omap. exists (k, a). by rewrite decide_True. }
  destruct (omap _ l); [by apply elem_of_nil in Ho|by eexists].
Qed.

(** ** Merging *)

(** Two settings of a key: the first is merged into. *)
Definition merge_opt (d s : option Value) : option Value :=
  match d, s with
  | Some d, Some s => Some (deep_merge d s)
  | Some d, None => Some d
  | None, s => s
  end.

Lemma deep_merge_get (d s : list (string * Value)) (k : string) :
  NoDup s.*1 -> exists l, deep_merge (VObject d) (VObject s) = VObject l
  /\ assoc k l = merge_opt (assoc k d) (assoc k s).
Proof.
  cbn [deep_merge]. intros Hn. eexists. split; [reflexivity|].
  revert d. induction s as [|[key sv] s IH]; intros d; [by destruct (assoc k d)|].
  cbn in Hn. apply NoDup_cons in Hn as [Hnk Hn]. rewrite (IH Hn). cbn [assoc].
  destruct (key =s k) eqn:E.
  - apply eqs_true in E as ->. rewrite (assoc_key_none k s Hnk).
    destruct (assoc k d) as [dv|] eqn:Ed.
    + by rewrite assoc_set_get, eqs_refl by (by rewrite Ed).
    + rewrite assoc_app, Ed. cbn. by rewrite eqs_refl.
  - destruct (assoc key d) as [dv|] eqn:Ed.
    + by rewrite assoc_set_get, E by (by rewrite Ed).
    + rewrite assoc_app. cbn. rewrite E. by destruct (assoc k d).
Qed.

Fixpoint get_path (v : Value) (p : list string) : option Value :=
  match p with
  | [] => Some v
  | k :: p => match value_get v k with Some v => get_path v p | None => None end
  end.

Definition is_object (v : Value) : bool := match v with VObject _ => true | _ => false end.

(** The keys of every object are distinct. *)
Fixpoint keys_distinct (v : Value) : Prop :=
  match v with
  | VObject m => NoDup m.*1 /\ foldr (fun '(_, v) P => keys_distinct v /\ P) True m
  | _ => True
  end.

Lemma keys_distinct_get (v w : Value) (k : string) : keys_distinct v -> value_get v k = Some w -> keys_distinct w.
Proof.
  destruct v as [| | | | |m]; try done. cbn. intros [_ Hm] E. revert Hm E.
  induction m as [|[k' v'] m IH]; [done|]. cbn. intros [Hv Hm]. destruct (k' =s k); [by intros [= <-]|auto].
Qed.

Lemma deep_merge_value_get (d s : Value) (k : string) :
  keys_distinct s ->
  value_get (deep_merge d s) k
  = if is_object d && is_object s then merge_opt (value_get d k) (value_get s k) else value_get d k.
Proof.
  intros Hs. destruct d as [| | | | |d]; try (destruct s; done). destruct s as [| | | | |s]; try done.
  destruct Hs as [Hs _]. destruct (deep_merge_get d s k Hs) as (l & -> & E). exact E.
Qed.

Lemma deep_merge_object (d s : Value) : is_object (deep_merge d s) = is_object d.
Proof. destruct d, s; try done. Qed.

Lemma deep_merge_leaf (d s : Value) : is_object d = false \/ is_object s = false -> deep_merge d s = d.
Proof. destruct d, s; intros [|]; done. Qed.

(** Below every path of the target that is defined, and no deeper than a leaf. *)
Definition open_path (v : Value) (p : list string) : Prop :=
  forall p1 k p2 w, p = p1 ++ k :: p2 -> get_path v p1 = Some w -> is_object w = true.

(** Merging fills in and never overrides. Whatever is set in the target and is
    no object stays as it is; what the target leaves open is taken from the
    contribution; and nothing else appears. *)
Theorem deep_merge_fills_in (d s : Value) (p : list string) :
  keys_distinct s -> is_object d = true -> is_object s = true ->
  (forall v, get_path d p = Some v -> is_object v = false -> get_path (deep_merge d s) p = Some v)
  /\ (get_path d p = None -> open_path d p -> get_path (deep_merge d s) p = get_path s p)
  /\ (forall v, get_path (deep_merge d s) p = Some v -> is_object v = false ->
      get_path d p = Some v \/ get_path s p = Some v).
Proof.
  revert d s. induction p as [|k p IH]; intros d s Hk Hd Hs.
  - cbn. split_and!; [intros v [= <-]; congruence|done|].
    intros v [= <-]. rewrite deep_merge_object. congruence.
  - cbn [get_path]. rewrite deep_merge_value_get, Hd, Hs by done. cbn [andb].
    destruct (value_get d k) as [dv|] eqn:Ed, (value_get s k) as [sv|] eqn:Es; cbn [merge_opt].
    + pose proof (keys_distinct_get _ _ _ Hk Es) as Hk'.
      destruct (is_object dv) eqn:Eod, (is_object sv) eqn:Eos;
        [|rewrite deep_merge_leaf by auto..].
      * destruct (IH dv sv Hk' Eod Eos) as (I1 & I2 & I3). split_and!; [done| |done].
        intros Hn Ho. apply I2; [done|]. intros p1 k1 p2 w -> Hw. apply (Ho (k :: p1) k1 p2 w); [done|].
        cbn. by rewrite Ed.
      * split_and!; [done| |naive_solver]. intros Hn Ho. rewrite Hn.
        destruct p as [|k' p]; [done|]. cbn. by destruct sv.
      * split_and!; [done| |naive_solver]. intros Hn Ho. destruct p as [|k' p]; [done|].
        specialize (Ho [k] k' p dv eq_refl). cbn in Ho. rewrite Ed in Ho. rewrite Ho in Eod by done. done.
      * split_and!; [done| |naive_solver]. intros Hn Ho. destruct p as [|k' p]; [done|].
        specialize (Ho [k] k' p dv eq_refl). cbn in Ho. rewrite Ed in Ho. rewrite Ho in Eod by done. done.
    + split_and!; [done|done|naive_solver].
    + split_and!; [done|done|naive_solver].
    + split_and!; done.
Qed.

Lemma deep_merge_fills_in_witness :
  let d := VObject [("mode", VString "own"); ("db", VObject [("host", VString "h")])] in
  let s := VObject [("mode", VString "other"); ("db", VObject [("port", VNull)])] in
  get_path (deep_merge d s) ["mode"] = Some (VString "own")
  /\ get_path (deep_merge d s) ["db"; "port"] = Some VNull.
Proof.
  cbv zeta. split.
  - eapply (deep_merge_fills_in _ _ ["mode"]); try reflexivity.
    repeat (constructor || set_solver).
  - rewrite (proj1 (proj2 (deep_merge_fills_in
      (VObject [("mode", VString "own"); ("db", VObject [("host", VString "h")])])
      (VObject [("mode", VString "other"); ("db", VObject [("port", VNull)])]) ["db"; "port"]
      ltac:(cbn; split_and!; repeat constructor; set_solver) eq_refl eq_refl))); [reflexivity|reflexivity|].
    intros p1 k p2 w E Hw. destruct p1 as [|a [|b p1]]; cbn in E; [injection E as <- <-; by injection Hw as <-| |].
    + injection E as <- <- <-. by injection Hw as <-.
    + injection E as _ _ E. by destruct p1.
Defined.

(** ** The routing of a flow's configuration *)

Definition objects_at (cfgs : Configs) (name : string) : Prop :=
  match cfgs !! name with Some v => is_object v = true | None => True end.

(** The value of a key in the configuration of a block. *)
Definition setting_of (cfgs : Configs) (name key : string) : option Value :=
  match cfgs !! name with Some v => value_get v key | None => None end.

Lemma merge_into_setting (cfgs : Configs) (name T k : string) (val : Value) :
  objects_at cfgs T -> keys_distinct val -> is_object val = true ->
  objects_at (merge_into cfgs name val) T
  /\ setting_of (merge_into cfgs name val) T k
     = if name =s T then merge_opt (setting_of cfgs T k) (value_get val k) else setting_of cfgs T k.
Proof.
  intros Ho Hk Hv. unfold merge_into, objects_at, setting_of in *. destruct (name =s T) eqn:E.
  - apply eqs_true in E as ->. rewrite lookup_insert_eq. split.
    + rewrite deep_merge_object. by destruct (cfgs !! T).
    + rewrite deep_merge_value_get by done. rewrite Hv, andb_true_r.
      by destruct (cfgs !! T) as [v|]; cbn; [rewrite Ho|].
  - apply eqs_false in E. by rewrite lookup_insert_ne.
Qed.

Section Routing.
  Context `{HashOrder}.

Lemma hash_entries_In {A} (m : gmap string A) (k : string) (a : A) : (k, a) ∈ hash_entries m <-> m !! k = Some a.
Proof. by rewrite hash_entries_perm, elem_of_map_to_list. Qed.

Lemma hash_entries_NoDup {A} (m : gmap string A) : NoDup (hash_entries m).*1.
Proof. rewrite hash_entries_perm. apply NoDup_fst_map_to_list. Qed.

(** Merging the defaults. *)
Lemma merge_defaults (l : list (string * Value)) (cfgs : Configs) (T k : string) :
  NoDup l.*1 -> (forall n v, (n, v) ∈ l -> keys_distinct v /\ is_object v = true) -> objects_at cfgs T ->
  objects_at (merge_all cfgs l) T
  /\ setting_of (merge_all cfgs l) T k
     = merge_opt (setting_of cfgs T k) (match assoc T l with Some v => value_get v k | None => None end).
Proof.
  unfold merge_all. revert cfgs. induction l as [|[n v] l IH]; intros cfgs Hn Hl Ho.
  - split; [done|]. cbn [fold_left assoc]. by destruct (setting_of cfgs T k).
  - cbn in Hn. apply NoDup_cons in Hn as [Hn Hd]. cbn [fold_left assoc].
    destruct (Hl n v) as [Hk Hv]; [left|].
    destruct (merge_into_setting cfgs n T k v Ho Hk Hv) as [Ho' E].
    destruct (IH (merge_into cfgs n v) Hd) as [Ho'' E'']; [intros n0 v0 Hin; apply (Hl n0 v0); by right|done|].
    split; [done|]. rewrite E'', E. destruct (n =s T) eqn:En; [|done].
    apply eqs_true in En as ->. rewrite (assoc_key_none T l Hn).
    by destruct (merge_opt (setting_of cfgs T k) (value_get v k)).
Qed.

(** Routing the keys of the flow's configuration. *)
Lemma route_keys (flow_config : Value) (T k u : string) (l : list (string * ConfigMapEntry)) (cfgs : Configs) :
  NoDup l.*1 -> (u, mkMapEntry T k) ∈ l ->
  (forall u' e, (u', e) ∈ l -> cm_target e = T -> cm_key e = k -> u' = u) ->
  (forall u', match value_get flow_config u' with Some v => keys_distinct v | None => True end) ->
  objects_at cfgs T ->
  setting_of (fold_left (route_key flow_config) l cfgs) T k
  = merge_opt (setting_of cfgs T k) (value_get flow_config u).
Proof.
  intros Hn Hin Hu Hd.
  assert (forall l cfgs, (forall u' e, (u', e) ∈ l -> ~ (cm_target e = T /\ cm_key e = k)) -> objects_at cfgs T ->
    setting_of (fold_left (route_key flow_config) l cfgs) T k = setting_of cfgs T k
    /\ objects_at (fold_left (route_key flow_config) l cfgs) T) as Hskip.
  { clear -Hd. induction l as [|[u' e] l IH]; intros cfgs Hl Ho; [done|]. cbn [fold_left].
    assert (setting_of (route_key flow_config cfgs (u', e)) T k = setting_of cfgs T k
      /\ objects_at (route_key flow_config cfgs (u', e)) T) as [E Ho'].
    { unfold route_key. specialize (Hd u'). destruct (value_get flow_config u') as [v|]; [|done].
      assert (keys_distinct (VObject [(cm_key e, v)])) as Hk by (cbn; split_and!; [apply NoDup_singleton|done|done]).
      destruct (merge_into_setting cfgs (cm_target e) T k _ Ho Hk eq_refl) as [Ho' E]. split; [|done].
      rewrite E. destruct (cm_target e =s T) eqn:Et; [|done]. cbn. destruct (cm_key e =s k) eqn:Ek.
      - apply eqs_true in Et, Ek. exfalso. apply (Hl u' e); [left|done].
      - by destruct (setting_of cfgs T k). }
    rewrite <- E. apply IH; [|done]. intros u0 e0 Hin. apply (Hl u0 e0). by right. }
  revert cfgs. induction l as [|[u' e] l IH]; intros cfgs Ho; [by apply elem_of_nil in Hin|].
  cbn in Hn. apply NoDup_cons in Hn as [Hnk Hn]. cbn [fold_left].
  apply elem_of_cons in Hin as [[= <- <-]|Hin].
  - assert (forall u' e, (u', e) ∈ l -> ~ (cm_target e = T /\ cm_key e = k)) as Hl.
    { intros u' e Hin [Et Ek]. apply Hnk. rewrite <- (Hu u' e) by (done || by right).
      by apply (list_elem_of_fmap_2 fst) in Hin. }
    unfold route_key at 2. specialize (Hd u). destruct (value_get flow_config u) as [v|]; cbn [cm_target cm_key].
    + assert (keys_distinct (VObject [(k, v)])) as Hk by (cbn; split_and!; [apply NoDup_singleton|done|done]).
      destruct (merge_into_setting cfgs T T k _ Ho Hk eq_refl) as [Ho' E].
      destruct (Hskip l (merge_into cfgs T (VObject [(k, v)])) Hl Ho') as [-> _].
      rewrite E, eqs_refl. cbn. by rewrite eqs_refl.
    + destruct (Hskip l cfgs Hl Ho) as [-> _]. by destruct (setting_of cfgs T k).
  - assert (u' <> u) as Hne by (intros ->; apply Hnk; by apply (list_elem_of_fmap_2 fst) in Hin).
    assert (~ (cm_target e = T /\ cm_key e = k)) as He.
    { intros [Et Ek]. apply Hne. apply (Hu u' e); [left|done|done]. }
    destruct (Hskip [(u', e)] cfgs) as [E Ho']; [|done|].
    { intros u0 e0 [= -> ->]%list_elem_of_singleton. done. }
    cbn [fold_left] in E, Ho'. rewrite <- E. apply IH; try done. intros u0 e0 Hin0. apply (Hu u0 e0). by right.
Qed.
End Routing.

(** A map of flow settings that a witness and an operator can read: what a
    flow declares. *)
Definition routes_to (f : WaferFlow) (u T k : string) : Prop :=
  exists m, wf_config_map f = Some m /\ m !! u = Some (mkMapEntry T k)
  /\ forall u' e, m !! u' = Some e -> cm_target e = T -> cm_key e = k -> u' = u.

Definition defaults_ok (f : WaferFlow) : Prop :=
  forall n v, default ∅ (wf_config_defaults f) !! n = Some v -> keys_distinct v /\ is_object v = true.

Definition default_of (f : WaferFlow) (T k : string) : option Value :=
  match default ∅ (wf_config_defaults f) !! T with Some v => value_get v k | None => None end.

Lemma assoc_elem {A} (k : string) (v : A) (l : list (string * A)) :
  NoDup l.*1 -> (k, v) ∈ l -> assoc k l = Some v.
Proof.
  intros Hn Hin. induction l as [|[k' a'] l IH]; [by apply elem_of_nil in Hin|].
  cbn in Hn. apply NoDup_cons in Hn as [Hnk Hn]. cbn. apply elem_of_cons in Hin as [[= <- <-]|Hin].
  - by rewrite eqs_refl.
  - destruct (k' =s k) eqn:Ek; [|auto]. apply eqs_true in Ek as ->. exfalso. apply Hnk.
    by apply (list_elem_of_fmap_2 fst) in Hin.
Qed.

Lemma assoc_hash_entries `{HashOrder} {A} (m : gmap string A) (k : string) : assoc k (hash_entries m) = m !! k.
Proof.
  destruct (m !! k) as [a|] eqn:E.
  - apply assoc_elem; [apply hash_entries_NoDup|by apply hash_entries_In].
  - apply assoc_key_none. intros Hin. apply list_elem_of_fmap in Hin as ([k' a] & -> & Hin).
    apply hash_entries_In in Hin. cbn in E. congruence.
Qed.

(** Which source of a routed value wins. When a flow's configuration is
    routed, the value of a target's key is the target's own, into which the
    flow's default is merged, into which the operator's value for the mapped
    key is merged - in every order the maps are visited in. As merging never
    overrides, a default that is no object is kept over the value the operator
    configured. *)
Theorem config_routing_precedence `{HashOrder} (cfgs : Configs) (f : WaferFlow) (u T k : string)
    (conf : list (string * Value)) :
  cfgs !! wf_id f = Some (VObject conf) -> T <> wf_id f -> objects_at cfgs T ->
  keys_distinct (VObject conf) -> defaults_ok f -> routes_to f u T k ->
  let after := expand_flow_config cfgs f in
  setting_of after T k = merge_opt (merge_opt (setting_of cfgs T k) (default_of f T k)) (assoc u conf)
  /\ (forall d, default_of f T k = Some d -> setting_of cfgs T k = None -> is_object d = false ->
      setting_of after T k = Some d).
Proof.
  intros Hf HT Ho Hk Hd (m & Hm & Hu & Huniq). cbv zeta.
  assert (setting_of (expand_flow_config cfgs f) T k
    = merge_opt (merge_opt (setting_of cfgs T k) (default_of f T k)) (assoc u conf)) as E.
  { unfold expand_flow_config. rewrite Hf, Hm. cbn [default].
    assert (objects_at (delete (wf_id f) cfgs) T) as Ho' by (unfold objects_at; by rewrite lookup_delete_ne).
    destruct (merge_defaults (hash_entries (default ∅ (wf_config_defaults f))) (delete (wf_id f) cfgs) T k)
      as [Ho'' Ed]; [apply hash_entries_NoDup|intros n v Hin; by apply (Hd n v), hash_entries_In|done|].
    rewrite (route_keys _ T k u).
    - rewrite Ed, assoc_hash_entries. cbn [value_get]. f_equal. f_equal.
      unfold setting_of. by rewrite lookup_delete_ne.
    - apply hash_entries_NoDup.
    - by apply hash_entries_In.
    - intros u' e Hin. apply Huniq. by apply hash_entries_In.
    - intros u'. destruct (value_get (VObject conf) u') as [v|] eqn:Ev; [|done]. by eapply keys_distinct_get.
    - done. }
  split; [exact E|]. intros d Hdef Hown Hleaf. rewrite E, Hdef, Hown. cbn.
  destruct (assoc u conf) as [v|]; cbn; [|done]. by rewrite deep_merge_leaf by auto.
Qed.

(** Hash maps visited in the order of their lists. *)
Definition list_order : HashOrder := {| hash_entries A m := map_to_list m; hash_entries_perm A m := reflexivity _ |}.

Definition listen_flow : WaferFlow :=
  mkWaferFlow "server" [] None (Some {["port" := mkMapEntry "listener" "port"]})
    (Some {["listener" := VObject [("port", VString "8080")]]}).

Lemma config_routing_precedence_witness :
  let cfgs : Configs := {["server" := VObject [("port", VString "443")]]} in
  setting_of (@expand_flow_config list_order cfgs listen_flow) "listener" "port" = Some (VString "8080").
Proof.
  cbv zeta.
  apply (@config_routing_precedence list_order {["server" := VObject [("port", VString "443")]]} listen_flow
           "port" "listener" "port" [("port", VString "443")]); try reflexivity.
  - discriminate.
  - repeat constructor; set_solver.
  - intros n v E. cbn in E. apply lookup_singleton_Some in E as [_ <-].
    repeat constructor; set_solver.
  - eexists. split; [reflexivity|]. split; [reflexivity|].
    intros u' e E _ _. by apply lookup_singleton_Some in E as [<- _].
Defined.

(** ** Keying configurations by their blocks *)

Section Keying.
  Context `{HashOrder} (canon : string -> string) (canon_idem : forall n, canon (canon n) = canon n).

Lemma sorted_entries_lookup {A} (m : gmap string A) (k : string) (a : A) :
  (k, a) ∈ sorted_entries m <-> m !! k = Some a.
Proof using. unfold sorted_entries. by rewrite merge_sort_Permutation, elem_of_map_to_list. Qed.

Lemma sorted_entries_NoDup {A} (m : gmap string A) : NoDup (sorted_entries m).*1.
Proof using. unfold sorted_entries. rewrite merge_sort_Permutation. apply NoDup_fst_map_to_list. Qed.

Lemma assoc_sorted_entries {A} (m : gmap string A) (k : string) : assoc k (sorted_entries m) = m !! k.
Proof using.
  destruct (m !! k) as [a|] eqn:E.
  - apply assoc_elem; [apply sorted_entries_NoDup|by apply sorted_entries_lookup].
  - apply assoc_key_none. intros Hin. apply list_elem_of_fmap in Hin as ([k' a] & -> & Hin).
    apply sorted_entries_lookup in Hin. cbn in E. congruence.
Qed.

(** A move of each named configuration to its target. *)
Lemma key_targets_ok (targets : list (string * list string)) (cfgs cfgs' : Configs) :
  NoDup targets.*1 ->
  (forall t names n, (t, names) ∈ targets -> n ∈ names -> canon n = t /\ is_Some (cfgs !! n)) ->
  key_targets targets cfgs = (cfgs', Ok tt) ->
  (forall t names, (t, names) ∈ targets -> length names <= 1)
  /\ (forall t n, (t, [n]) ∈ targets -> cfgs' !! t = cfgs !! n)
  /\ (forall t n, (t, [n]) ∈ targets -> n <> t -> cfgs' !! n = None)
  /\ (forall x, (forall t n, (t, [n]) ∈ targets -> x <> t /\ x <> n) -> cfgs' !! x = cfgs !! x).
Proof using canon_idem.
  revert cfgs. induction targets as [|[t names] targets IH]; intros cfgs Hn Hl E; cbn in E.
  - injection E as <-. split_and!; try done; by intros ? ? ?%elem_of_nil.
  - cbn in Hn. apply NoDup_cons in Hn as [Hnt Hn].
    assert (forall t' names', (t', names') ∈ targets -> t' <> t) as Hne.
    { intros t' names' Hin ->. apply Hnt. by apply (list_elem_of_fmap_2 fst) in Hin. }
    assert (forall cfgs0 : Configs, (forall x, canon x <> t -> cfgs0 !! x = cfgs !! x) ->
      forall t0 names0 n0, (t0, names0) ∈ targets -> n0 ∈ names0 -> canon n0 = t0 /\ is_Some (cfgs0 !! n0)) as Hl'.
    { intros cfgs0 Hc t0 names0 n0 Hin Hn0. destruct (Hl t0 names0 n0) as [H1 H2]; [by right|done|].
      split; [done|]. rewrite Hc; [done|]. rewrite H1. by apply (Hne t0 names0). }
    destruct names as [|n [|n2 names]]; [| |done].
    + destruct (IH cfgs Hn (Hl' cfgs (fun x _ => eq_refl)) E) as (I1 & I2 & I3 & I4).
      split_and!.
      * intros t0 names0 [[= -> ->]|Hin]%elem_of_cons; [cbn; lia|by eapply I1].
      * intros t0 n0 [[=]|Hin]%elem_of_cons; by apply I2.
      * intros t0 n0 [[=]|Hin]%elem_of_cons; by apply (I3 t0).
      * intros x Hx. apply I4. intros t0 n0 Hin. apply Hx. by right.
    + destruct (Hl t [n] n) as [Hcn [v Hv]]; [left|left|].
      assert (canon t = t) as Hct by (rewrite <- Hcn; apply canon_idem).
      set (cfgs1 := if negb (n =s t) then _ else _) in E.
      assert (cfgs1 !! t = Some v /\ (n <> t -> cfgs1 !! n = None)
        /\ (forall x, x <> t -> x <> n -> cfgs1 !! x = cfgs !! x)) as (E1 & E2 & E3).
      { unfold cfgs1. destruct (n =s t) eqn:Ent; cbn [negb].
        - apply eqs_true in Ent as ->. split_and!; done.
        - apply eqs_false in Ent. rewrite Hv. split_and!.
          + apply lookup_insert_eq.
          + intros _. rewrite lookup_insert_ne by done. apply lookup_delete_eq.
          + intros x Hx Hx'. by rewrite lookup_insert_ne, lookup_delete_ne by done. }
      assert (forall x, canon x <> t -> cfgs1 !! x = cfgs !! x) as Hc1.
      { intros x Hx. apply E3; intros ->; congruence. }
      destruct (IH cfgs1 Hn (Hl' cfgs1 Hc1) E) as (I1 & I2 & I3 & I4).
      assert (forall x, canon x = t -> forall t0 n0, (t0, [n0]) ∈ targets -> x <> t0 /\ x <> n0) as Hoff.
      { intros x Hx t0 n0 Hin. destruct (Hl t0 [n0] n0) as [H1 _]; [by right|left|].
        pose proof (Hne _ _ Hin). split; intros ->; [|congruence].
        rewrite <- H1, canon_idem in Hx. congruence. }
      split_and!.
      * intros t0 names0 [[= -> ->]|Hin]%elem_of_cons; [cbn; lia|by eapply I1].
      * intros t0 n0 [[= -> ->]|Hin]%elem_of_cons.
        -- rewrite I4 by (by apply Hoff). by rewrite E1, Hv.
        -- rewrite (I2 t0 n0 Hin). apply Hc1. destruct (Hl t0 [n0] n0) as [-> _]; [by right|left|].
           by apply (Hne _ _ Hin).
      * intros t0 n0 [[= -> ->]|Hin]%elem_of_cons Hd; [rewrite I4 by (by apply Hoff); by apply E2|by apply (I3 t0)].
      * intros x Hx. rewrite I4 by (intros; apply Hx; by right).
        destruct (Hx t n) as [? ?]; [left|]. by apply E3.
Qed.

Lemma by_target_spec (cfgs : Configs) (t : string) (names : list string) :
  by_target canon cfgs !! t = Some names -> forall n, n ∈ names <-> is_Some (cfgs !! n) /\ canon n = t.
Proof using.
  intros ->%group_Some n.
  rewrite list_elem_of_omap. split.
  - intros ([k' a] & Hin & E). destruct (decide (k' = t)) as [->|]; [|done]. injection E as ->.
    apply list_elem_of_fmap in Hin as (x & E & Hin).
    injection E as -> ->. apply list_elem_of_fmap in Hin as ([x' v] & -> & Hin). apply hash_entries_In in Hin.
    by split; [eexists|].
  - intros [[v Hv] <-]. exists (canon n, n). split; [|by rewrite decide_True].
    apply (list_elem_of_fmap_2 (fun name => (canon name, name))).
    apply (list_elem_of_fmap_2 fst _ (n, v)). by apply hash_entries_In.
Qed.

Lemma by_target_total (cfgs : Configs) (n : string) :
  is_Some (cfgs !! n) -> is_Some (by_target canon cfgs !! canon n).
Proof using.
  intros [v Hv]. apply (group_keys _ _ n). apply (list_elem_of_fmap_2 (fun name => (canon name, name))).
  apply (list_elem_of_fmap_2 fst _ (n, v)). by apply hash_entries_In.
Qed.

Lemma by_target_NoDup (cfgs : Configs) (t : string) (names : list string) :
  by_target canon cfgs !! t = Some names -> NoDup names.
Proof using.
  intros ->%group_Some.
  pose proof (hash_entries_NoDup cfgs) as Hd. induction (hash_entries cfgs).*1 as [|x l IH]; [constructor|].
  apply NoDup_cons in Hd as [Hx Hd]. cbn. destruct (decide (canon x = t)); [|auto].
  constructor; [|auto]. rewrite list_elem_of_omap. intros ([k' a] & Hin & E).
  apply list_elem_of_fmap in Hin as (y & [= -> ->] & Hin). destruct (decide _); [|done]. by injection E as ->.
Qed.
End Keying.

(** Keying succeeds only when no two names configure one block; it then leaves
    every configuration, unchanged, under its block's own name and no other. *)
Lemma key_block_configs_ok `{HashOrder} (canon : string -> string) (cfgs cfgs' : Configs) :
  (forall n, canon (canon n) = canon n) ->
  key_block_configs_by_target canon cfgs = (cfgs', Ok tt) ->
  (forall n n', is_Some (cfgs !! n) -> is_Some (cfgs !! n') -> canon n = canon n' -> n = n')
  /\ (forall n, is_Some (cfgs !! n) -> cfgs' !! canon n = cfgs !! n)
  /\ (forall t, is_Some (cfgs' !! t) -> canon t = t).
Proof.
  intros Hc E. unfold key_block_configs_by_target in E.
  destruct (key_targets_ok canon Hc (sorted_entries (by_target canon cfgs)) cfgs cfgs') as (I1 & I2 & I3 & I4).
  { apply sorted_entries_NoDup. }
  { intros t names n Hin Hn. apply sorted_entries_lookup in Hin.
    by destruct (proj1 (by_target_spec canon cfgs t names Hin n) Hn). }
  { exact E. }
  assert (forall n, is_Some (cfgs !! n) -> (canon n, [n]) ∈ sorted_entries (by_target canon cfgs)) as Hall.
  { intros n Hn. destruct (by_target_total canon cfgs n Hn) as [names Hb].
    pose proof (proj2 (by_target_spec canon cfgs _ _ Hb n) (conj Hn eq_refl)) as Hin.
    apply sorted_entries_lookup. rewrite Hb. f_equal.
    pose proof (I1 (canon n) names (proj2 (sorted_entries_lookup _ _ _) Hb)) as Hl.
    destruct names as [|x [|y names]]; cbn in Hl; [by apply elem_of_nil in Hin| |lia].
    by apply list_elem_of_singleton in Hin as ->. }
  split_and!.
  - intros n n' Hn Hn' E'. apply Hall in Hn, Hn'. rewrite E' in Hn.
    apply sorted_entries_lookup in Hn, Hn'. rewrite Hn in Hn'. by injection Hn'.
  - intros n Hn. by apply I2, Hall.
  - intros t Ht. destruct (decide (canon t = t)) as [|Hne]; [done|]. exfalso.
    destruct (decide (is_Some (cfgs !! t))) as [Hs|Hs].
    + rewrite (I3 (canon t) t (Hall t Hs)) in Ht by done. by destruct Ht.
    + rewrite I4 in Ht; [done|]. intros t0 n0 Hin. apply sorted_entries_lookup in Hin.
      pose proof (proj1 (by_target_spec canon cfgs _ _ Hin n0) (list_elem_of_here _ _)) as [Hn0 Ec].
      split; intros ->; [|done]. rewrite <- Ec, Hc in Hne. done.
Qed.
