(* ===== verification/Seal.v ===== *)
(** Sealing ([wafer-run/src/runtime/seal.rs]): the phases that end the
    configuration of a runtime, and the checks that refuse a boot.

    The modelled build has neither the [wasm] nor the [wasmi] feature, in which
    sealing downloads nothing and pools nothing. What a block implementation
    answers at seal is the interface [SealBlock]; reading the [capabilities]
    subkey is a parameter ([serde]). Log lines are left out. *)

From stdpp Require Import sorting pretty.
From S2P Require Import Prelude CoreTypes Grants Wrap BlockName Registration Capabilities.
From S2P Require Import Text Expr FlowTypes Accumulator FlowValidate FlowPlan Lifecycle.
From S2P Require Import Streams Requests Routing ConfigExpand.

(** ** Errors *)

Inductive BlockReferenceSource :=
| RefFlow (flow_id : string) (step_index : nat) (step_id : string) (parallel_path : option (list (nat * nat)))
| RefBlockConfig (from_block location : string) (detail : option string)
| RefRequires (from_block : string).

Record BlockReferenceError := mkReferenceError { bre_name : string; bre_sources : list BlockReferenceSource }.

Record AgentToolClaimant := mkToolClaimant { tc_block : string; tc_method : HttpMethod.t; tc_path : string }.
Record DuplicateToolNameError := mkDuplicateTool { dt_name : string; dt_claimants : list AgentToolClaimant }.
Record RouteClaimant := mkRouteClaimant { rc_block : string; rc_path : string }.
Record DuplicateEndpointRouteError := mkDuplicateRoute {
  de_method : HttpMethod.t; de_route : string; de_claimants : list RouteClaimant
}.

Inductive SealError :=
| AlreadySealed
| SealConfig (message : string)
| BlocksNotFound (missing : list BlockReferenceError)
| SealGrantsRejected (errs : list GrantValidationError)
| DuplicateToolNames (duplicates : list DuplicateToolNameError)
| DuplicateEndpointRoutes (duplicates : list DuplicateEndpointRouteError).

(** [SealState]; a failure keeps the error it renders. *)
Inductive SealState := Unsealed | SealedOk | SealFailed (e : SealError).

(** ** What sealing asks of blocks *)

Class SealBlock (B : Type) := {
  block_refs : B -> Value -> list BlockConfigRef;
  declared_capabilities : B -> option BlockCapabilities;
  block_runtime : B -> BlockRuntime;
  capability_bound : B -> option BlockCapabilities;
  enforced_capabilities : B -> BlockCapabilities -> option BlockCapabilities
}.

(** [ConfigCapabilityOverrides] of a JSON value. *)
Class OverridesJson := { parse_overrides : Value -> result ConfigCapabilityOverrides string }.

(** ** Order *)

(** Lexicographic order of tuples of strings. *)
Fixpoint strings_le (a b : list string) : Prop :=
  match a, b with
  | [], _ => True
  | _ :: _, [] => False
  | x :: a, y :: b => x <> y /\ String.le x y \/ x = y /\ strings_le a b
  end.
#[export] Instance strings_le_dec : RelDecision strings_le.
Proof. intros a. induction a as [|x a IH]; intros [|y b]; cbn; apply _. Defined.

(** ** The runtime *)

Section Seal.
  Context {B Slot : Type} `{SealBlock B} `{HashOrder} `{JsonCrate} `{OverridesJson}.

Record Wafer := mkWafer {
  w_registration : @RegistrationCore B Slot;
  w_flows : gmap string WaferFlow;
  w_block_configs : Configs;
  w_expanders : gmap string (Value -> list (string * Value));
  w_locked : list (string * string);
  w_effective : gmap string BlockCapabilities;
  w_state : SealState
}.

Definition with_configs (self : Wafer) (cfgs : Configs) : Wafer :=
  mkWafer (w_registration self) (w_flows self) cfgs (w_expanders self) (w_locked self) (w_effective self)
    (w_state self).
Definition with_registration (self : Wafer) (reg : @RegistrationCore B Slot) : Wafer :=
  mkWafer reg (w_flows self) (w_block_configs self) (w_expanders self) (w_locked self) (w_effective self)
    (w_state self).
Definition with_state (self : Wafer) (state : SealState) : Wafer :=
  mkWafer (w_registration self) (w_flows self) (w_block_configs self) (w_expanders self) (w_locked self)
    (w_effective self) state.

Definition registered (self : Wafer) (name : string) : bool :=
  bool_decide (is_Some (blocks (w_registration self) !! name)).

(** [load_blocks_json], of the parsed file: its aliases ([load_aliases]), then
    the other entries as configurations, each over the one of its name. *)
Definition string_entries (aliases_obj : list (string * Value)) : list (string * string) :=
  omap (fun '(alias, target) => (fun target_str => (alias, target_str)) <$> as_str target) aliases_obj.

Definition load_blocks_json (self : Wafer) (file : Configs) : Wafer :=
  let reg := w_registration self in
  let reg := match file !! "aliases" with
             | Some (VObject aliases_obj) => load_aliases reg (string_entries aliases_obj)
             | _ => reg
             end in
  with_configs (with_registration self reg) (delete "aliases" file ∪ w_block_configs self).

(** [refuse_locked_admin_block]; a locked package is its name and version. *)
Definition refuse_locked_admin_block (self : Wafer) : result unit SealError :=
  let admin_block := w_admin_block (wrap (w_registration self)) in
  if is_empty admin_block then Ok tt
  else match List.find (fun p => p.1 =s admin_block) (w_locked self) with
  | Some (name, version) =>
      Err (SealConfig ("wafer.lock pins " +:+ name +:+ "@" +:+ version
        +:+ ", which is the admin block; the admin block is registered by the embedder, never loaded from a registry"))
  | None => Ok tt
  end.

(** ** References *)

(** [collect_flow_step_refs] of one step: its block and those of its branches. *)
Fixpoint step_refs (flow_id : string) (parallel_path : list (nat * nat)) (step_index : nat) (step : Step)
  : list (string * BlockReferenceSource) :=
  (st_block step,
   RefFlow flow_id step_index (st_id step) (match parallel_path with [] => None | _ => Some parallel_path end))
  :: match st_parallel step with
     | None => []
     | Some branches =>
         (fix each_branch (branch_index : nat) (branches : list (list Step)) :=
            match branches with
            | [] => []
            | branch :: branches =>
                (fix each_step (i : nat) (steps : list Step) :=
                   match steps with
                   | [] => []
                   | s :: steps => step_refs flow_id (parallel_path ++ [(step_index, branch_index)]) i s
                                   ++ each_step (S i) steps
                   end) 0 branch
                ++ each_branch (S branch_index) branches
            end) 0 branches
     end.

Definition flow_refs (flow_id : string) (steps : list Step) : list (string * BlockReferenceSource) :=
  concat (imap (step_refs flow_id []) steps).

(** The references a block's own configuration holds. *)
Definition config_refs (self : Wafer) (entry : string * Value) : list (string * BlockReferenceSource) :=
  let '(block_name, config) := entry in
  match blocks (w_registration self) !! canonicalize (w_registration self) block_name with
  | None => []
  | Some registered =>
      map (fun r => (cr_target r, RefBlockConfig block_name (cr_location r) (cr_detail r)))
        (block_refs (rb_block registered) config)
  end.

Definition references (self : Wafer) : list (string * BlockReferenceSource) :=
  map (fun '(name, source) => (canonicalize (w_registration self) name, source))
    (flat_map (fun '(flow_id, flow) => flow_refs flow_id (wf_steps flow)) (hash_entries (w_flows self))
     ++ flat_map (config_refs self) (hash_entries (w_block_configs self))).

(** [unregistered_block_references]. *)
Definition unregistered_block_references (self : Wafer) : list BlockReferenceError :=
  map (fun '(name, sources) => mkReferenceError name sources)
    (List.filter (fun '(canonical, _) => negb (registered self canonical))
       (sorted_entries (group (references self)))).

(** [missing.iter_mut().find(..)], or a new entry. *)
Fixpoint add_missing (missing : list BlockReferenceError) (name : string) (source : BlockReferenceSource)
  : list BlockReferenceError :=
  match missing with
  | [] => [mkReferenceError name [source]]
  | e :: missing =>
      if bre_name e =s name then mkReferenceError name (bre_sources e ++ [source]) :: missing
      else e :: add_missing missing name source
  end.

Definition missing_le (a b : BlockReferenceError) : Prop := String.le (bre_name a) (bre_name b).
#[export] Instance missing_le_dec : RelDecision missing_le.
Proof. intros a b. unfold missing_le. apply _. Defined.

(** The requirements of the registered blocks, by requiring block. *)
Definition requirements (self : Wafer) : list (string * string) :=
  flat_map (fun '(from_block, registered) =>
    map (fun required => (from_block, canonicalize (w_registration self) required)) (bi_requires (rb_info registered)))
    (sorted_entries (blocks (w_registration self))).

(** [collect_unmet_requires]. *)
Definition collect_unmet_requires (self : Wafer) (missing : list BlockReferenceError) : list BlockReferenceError :=
  merge_sort missing_le
    (fold_left (fun missing '(from_block, canonical) =>
       if registered self canonical then missing else add_missing missing canonical (RefRequires from_block))
       (requirements self) missing).

(** [fail_on_rejected_grants]: the errors are taken out. *)
Definition fail_on_rejected_grants (self : Wafer) : Wafer * result unit SealError :=
  let reg := w_registration self in
  let w := wrap reg in
  match w_validation_errors w with
  | [] => (self, Ok tt)
  | errors =>
      (with_registration self
         (mkCore (blocks reg) (all_blocks reg) (aliases reg) (slots reg)
            (mkWrap (w_grants w) (w_grants_external w) (w_admin_block w) []) (Registration.sealed reg)),
       Err (SealGrantsRejected errors))
  end.

(** ** Capabilities *)

(** [take_capability_overrides]: the overrides, and the configuration without
    the subkey. *)
Definition take_capability_overrides (name : string) (cfg : option Value)
  : option Value * result ConfigCapabilityOverrides SealError :=
  match cfg with
  | Some (VObject obj) =>
      match assoc "capabilities" obj with
      | None => (cfg, Ok no_overrides)
      | Some raw =>
          (Some (without_key "capabilities" (VObject obj)),
           match parse_overrides raw with
           | Ok o => Ok o
           | Err e => Err (SealConfig ("block " +:+ name +:+ ": invalid `capabilities` config: " +:+ e))
           end)
      end
  | _ => (cfg, Ok no_overrides)
  end.

(** The loop of [compute_effective_capabilities]. *)
Fixpoint compute_capabilities (entries : list (string * @RegisteredBlock B)) (cfgs : Configs)
    (eff : gmap string BlockCapabilities) : Configs * result (gmap string BlockCapabilities) SealError :=
  match entries with
  | [] => (cfgs, Ok eff)
  | (name, registered) :: entries =>
      let block := rb_block registered in
      let '(cfg, overrides) := take_capability_overrides name (cfgs !! name) in
      let cfgs := match cfg with Some cfg => <[name := cfg]> cfgs | None => cfgs end in
      match overrides with
      | Err e => (cfgs, Err e)
      | Ok overrides =>
          let effective := effective_capabilities (declared_capabilities block) (block_runtime block) overrides
                             (capability_bound block) in
          compute_capabilities entries cfgs
            (<[name := default effective (enforced_capabilities block effective)]> eff)
      end
  end.

(** [compute_effective_capabilities]. *)
Definition compute_effective_capabilities (self : Wafer) : Wafer * result unit SealError :=
  let '(cfgs, r) := compute_capabilities (hash_entries (blocks (w_registration self))) (w_block_configs self) ∅ in
  let self := with_configs self cfgs in
  match r with
  | Err e => (self, Err e)
  | Ok eff => (mkWafer (w_registration self) (w_flows self) (w_block_configs self) (w_expanders self)
                 (w_locked self) eff (w_state self), Ok tt)
  end.

(** ** Endpoints *)

(** Every endpoint, with the block that declares it. *)
Definition all_endpoints (self : Wafer) : list (string * BlockEndpoint) :=
  flat_map (fun '(_, registered) => map (fun ep => (bi_name (rb_info registered), ep)) (bi_endpoints (rb_info registered)))
    (hash_entries (blocks (w_registration self))).

Definition tool_claimant_le (a b : AgentToolClaimant) : Prop :=
  strings_le [tc_block a; HttpMethod.display (tc_method a); tc_path a]
    [tc_block b; HttpMethod.display (tc_method b); tc_path b].
#[export] Instance tool_claimant_le_dec : RelDecision tool_claimant_le.
Proof. intros a b. unfold tool_claimant_le. apply _. Defined.

Definition tool_claims (self : Wafer) : list (string * AgentToolClaimant) :=
  omap (fun '(block, ep) =>
    match ep_agent_tool ep with
    | Some tool => if is_valid_name tool then Some (tool, mkToolClaimant block (ep_method ep) (ep_path ep)) else None
    | None => None
    end) (all_endpoints self).

(** [fail_on_duplicate_tool_names]. *)
Definition fail_on_duplicate_tool_names (self : Wafer) : result unit SealError :=
  let duplicates :=
    map (fun '(name, claimants) => mkDuplicateTool name (merge_sort tool_claimant_le claimants))
      (List.filter (fun '(_, claimants) => 1 <? length claimants) (sorted_entries (group (tool_claims self)))) in
  match duplicates with [] => Ok tt | _ => Err (DuplicateToolNames duplicates) end.

Definition route_claimant_le (a b : RouteClaimant) : Prop :=
  strings_le [rc_block a; rc_path a] [rc_block b; rc_path b].
#[export] Instance route_claimant_le_dec : RelDecision route_claimant_le.
Proof. intros a b. unfold route_claimant_le. apply _. Defined.

(** The claims of routes, by shape and method. *)
Definition route_claims (self : Wafer) : list (string * string * (HttpMethod.t * RouteClaimant)) :=
  map (fun '(block, ep) =>
    (route_shape (ep_path ep), HttpMethod.display (ep_method ep), (ep_method ep, mkRouteClaimant block (ep_path ep))))
    (all_endpoints self).

Definition RouteGroup : Type := string * string * list (HttpMethod.t * RouteClaimant).
Definition route_key_le (a b : RouteGroup) : Prop := strings_le [a.1.1; a.1.2] [b.1.1; b.1.2].
#[export] Instance route_key_le_dec : RelDecision route_key_le.
Proof. intros a b. unfold route_key_le. apply _. Defined.

(** An entry of the map as its error: the method is the first claimant's. *)
Definition duplicate_route (g : RouteGroup) : list DuplicateEndpointRouteError :=
  match g.2 with
  | (method, _) :: _ :: _ => [mkDuplicateRoute method g.1.1 (merge_sort route_claimant_le g.2.*2)]
  | _ => []
  end.

(** [fail_on_duplicate_endpoint_routes]. *)
Definition fail_on_duplicate_endpoint_routes (self : Wafer) : result unit SealError :=
  let duplicates :=
    flat_map duplicate_route (merge_sort route_key_le (map_to_list (group (route_claims self)))) in
  match duplicates with [] => Ok tt | _ => Err (DuplicateEndpointRoutes duplicates) end.

(** ** The pipeline *)

(** [finalize_snapshot]: dispatch sees the registry it rebuilds. The snapshot and
    the plan it also takes are copies and functions of this state:
    [compile_plan]. *)
Definition finalize_snapshot (self : Wafer) : Wafer :=
  with_registration self (rebuild_all_blocks (w_registration self)).

(** The configuration phases. *)
Definition expand_configs (self : Wafer) : Wafer * result unit SealError :=
  let canon := canonicalize (w_registration self) in
  let cfgs := expand_composite_configs (w_expanders self) (w_block_configs self) in
  let cfgs := expand_declarative_flow_configs (w_flows self) cfgs in
  let cfgs := gather_uses_configs canon cfgs in
  let '(cfgs, r) := key_block_configs_by_target canon cfgs in
  (with_configs self cfgs, match r with Ok _ => Ok tt | Err c => Err (SealConfig (collision_message c)) end).

(** Continue with the state of a phase, or stop with its error. *)
Definition phase (r : Wafer * result unit SealError) (k : Wafer -> Wafer * result unit SealError)
  : Wafer * result unit SealError :=
  match r with (self, Ok _) => k self | (self, Err e) => (self, Err e) end.

(** [seal_once]. *)
Definition seal_once (self : Wafer) : Wafer * result unit SealError :=
  phase (self, refuse_locked_admin_block self) (fun self =>
  phase (expand_configs self) (fun self =>
  match collect_unmet_requires self (unregistered_block_references self) with
  | [] =>
      phase (fail_on_rejected_grants self) (fun self =>
      phase (compute_effective_capabilities self) (fun self =>
      phase (self, fail_on_duplicate_tool_names self) (fun self =>
      phase (self, fail_on_duplicate_endpoint_routes self) (fun self =>
      (finalize_snapshot self, Ok tt)))))
  | missing => (self, Err (BlocksNotFound missing))
  end)).

Definition close_registry (self : Wafer) : Wafer :=
  let reg := w_registration self in
  with_registration self (mkCore (blocks reg) (all_blocks reg) (aliases reg) (slots reg) (wrap reg) true).

(** [Wafer::seal]. *)
Definition seal (self : Wafer) : Wafer * result unit SealError :=
  match w_state self with
  | Unsealed =>
      let '(self, r) := seal_once self in
      let self := close_registry self in
      (with_state self (match r with Ok _ => SealedOk | Err e => SealFailed e end), r)
  | _ => (self, Err AlreadySealed)
  end.

(** [compile_plan]: the flows compiled at the end; [None] is the panic of a
    missing slot. *)
Definition compile_plan (self : Wafer) : gmap string (option (CompiledFlow B Slot)) :=
  fold_left (fun m flow => <[wf_id flow := compile_flow (w_registration self) flow]> m)
    (hash_entries (w_flows self)).*2 ∅.
End Seal.
