(* ===== verification/SealProps.v ===== *)
(** Properties of sealing: a sealed runtime has every block its flows,
    configurations and blocks name; a refused boot names exactly the missing
    ones; and every block runs under its computed capabilities. *)

From stdpp Require Import sorting.
From S2P Require Import Prelude CoreTypes Grants Wrap BlockName Registration GrantFacts RegistrationFacts WrapProps RegistryProps Capabilities.
From S2P Require Import Text Expr FlowTypes Accumulator FlowValidate FlowPlan Lifecycle.
From S2P Require Import Streams Requests Routing ConfigExpand Seal.

(** ** The registry after sealing *)

Section Registry.
Context {B Slot : Type} (new_slot : Slot) `{UnicodeLower}.

(** [finalize_snapshot], then the registry closes. *)
Definition sealed_registry (st : @RegistrationCore B Slot) : @RegistrationCore B Slot :=
  let st' := rebuild_all_blocks st in
  mkCore (blocks st') (all_blocks st') (aliases st') (slots st') (wrap st') true.

Lemma canonicalize_idem (st : @RegistrationCore B Slot) (n : string) :
  reg_inv st -> canonicalize st (canonicalize st n) = canonicalize st n.
Proof.
  intros Hi. unfold canonicalize. destruct (aliases st !! n) as [t|] eqn:E; cbn.
  - by rewrite (inv_one_hop _ Hi _ _ E).
  - by rewrite E.
Qed.

Lemma sealed_inv (st : @RegistrationCore B Slot) :
  reg_inv st -> Registration.sealed st = false -> reg_inv (sealed_registry st).
Proof. intros Hi Hs. by apply (reg_inv_step new_slot st), step_seal_ok. Qed.

(** A name whose canonical form is registered is dispatched, and has a slot. *)
Lemma sealed_target (st : @RegistrationCore B Slot) (n : string) :
  reg_inv st -> Registration.sealed st = false ->
  is_Some (blocks st !! canonicalize st n) ->
  exists t, compile_target (sealed_registry st) n = Some (Some t).
Proof.
  intros Hi Hs [rb Hb]. pose proof (sealed_inv st Hi Hs) as Hi'.
  pose proof (lookup_with_alias_complete (sealed_registry st) (canonicalize st n) rb Hi' eq_refl Hb) as Hl.
  assert (E : lookup_with_alias (sealed_registry st) n = Some (canonicalize st n, rb)).
  { rewrite <- Hl. unfold lookup_with_alias.
    change (canonicalize (sealed_registry st)) with (canonicalize st). by rewrite canonicalize_idem. }
  unfold compile_target. rewrite E.
  assert (is_Some (slots (sealed_registry st) !! canonicalize st n)) as [slot ->].
  { apply elem_of_dom. rewrite (base_slots _ (inv_base _ Hi')). apply elem_of_dom. by eexists. }
  by eexists.
Qed.
End Registry.

(** ** References *)

(** Concatenation with positions. *)
Section ConcatFrom.
Context {X Y : Type} (f : nat -> X -> list Y).

Fixpoint concat_from (i : nat) (l : list X) : list Y :=
  match l with [] => [] | x :: l => f i x ++ concat_from (S i) l end.

Lemma concat_from_elem (Q : Y -> Prop) (x : X) (l : list X) (i : nat) :
  In x l -> (forall j, exists y, y ∈ f j x /\ Q y) -> exists y, y ∈ concat_from i l /\ Q y.
Proof.
  intros Hin Hf. revert i. induction l as [|x' l IH]; intros i; [done|]. cbn.
  destruct Hin as [->|Hin].
  - destruct (Hf i) as (y & Hy & HQ). exists y. split; [|done]. apply elem_of_app. by left.
  - destruct (IH Hin (S i)) as (y & Hy & HQ). exists y. split; [|done]. apply elem_of_app. by right.
Qed.
End ConcatFrom.

Lemma step_refs_eq (fid : string) (path : list (nat * nat)) (i : nat) (s : Step) :
  step_refs fid path i s
  = (st_block s, RefFlow fid i (st_id s) (match path with [] => None | _ => Some path end))
    :: match st_parallel s with
       | None => []
       | Some branches =>
           concat_from (fun bi => concat_from (step_refs fid (path ++ [(i, bi)])) 0) 0 branches
       end.
Proof. by destruct s. Qed.

(** Every step, however nested, is referenced. *)
Lemma step_refs_cover (fid : string) (s : Step) (b : bool) (path : list (nat * nat)) (i : nat) (bs : bool * Step) :
  In bs (flat_step b s) -> exists r, r ∈ step_refs fid path i s /\ r.1 = st_block (snd bs).
Proof.
  revert b path i bs. induction s as [s IH] using step_ind'. intros b path i bs Hin. rewrite step_refs_eq.
  assert (E : flat_step b s = (b, s) :: match st_parallel s with
    | Some branches => flat_map (flat_map (flat_step true)) branches
    | None => [] end) by by destruct s.
  rewrite E in Hin. destruct Hin as [<-|Hin]; [eexists; split; [left|done]|].
  destruct (st_parallel s) as [branches|]; [|done]. specialize (IH branches eq_refl).
  apply in_flat_map in Hin as (br & Hbr & Hin). apply in_flat_map in Hin as (s' & Hs' & Hin).
  rewrite List.Forall_forall in IH. specialize (IH br Hbr). rewrite List.Forall_forall in IH.
  destruct (concat_from_elem (fun bi => concat_from (step_refs fid (path ++ [(i, bi)])) 0)
    (fun r => r.1 = st_block bs.2) br branches 0 Hbr) as (r & Hr & Er).
  { intros bi. apply (concat_from_elem _ _ s'); [done|]. intros j. by apply (IH s' Hs' true). }
  exists r. split; [by right|done].
Qed.

Lemma flow_refs_cover (fid : string) (steps : list Step) (b : bool) (s : Step) :
  In (b, s) (flat_steps false steps) -> exists src, (st_block s, src) ∈ flow_refs fid steps.
Proof.
  unfold flat_steps, flow_refs. intros (s0 & Hin & Hs)%in_flat_map.
  apply list_elem_of_In, list_elem_of_lookup in Hin as [i Hi].
  destruct (step_refs_cover fid s0 false [] i _ Hs) as ([n src] & Hsrc & E). cbn in E. subst n.
  exists src. apply list_elem_of_In, in_concat.
  exists (step_refs fid [] i s0). split; [|by apply list_elem_of_In].
  apply list_elem_of_In, list_elem_of_lookup. exists i. by rewrite list_lookup_imap, Hi.
Qed.

(** ** Missing references *)

(** [src] is a reason given for the missing block [n]. *)
Definition reported (missing : list BlockReferenceError) (n : string) (src : BlockReferenceSource) : Prop :=
  exists e, e ∈ missing /\ bre_name e = n /\ src ∈ bre_sources e.

Lemma reported_nil (n : string) (src : BlockReferenceSource) : ~ reported [] n src.
Proof. intros (e & Hin & _). by apply elem_of_nil in Hin. Qed.

Lemma reported_cons (e : BlockReferenceError) (m : list BlockReferenceError) (n : string) (src : BlockReferenceSource) :
  reported (e :: m) n src <-> (bre_name e = n /\ src ∈ bre_sources e) \/ reported m n src.
Proof.
  unfold reported. split.
  - intros (e' & [->|Hin]%elem_of_cons & Hr); [by left|right; eauto].
  - intros [Hr|(e' & Hin & Hr)]; [exists e|exists e']; (split; [|done]); [by left|by right].
Qed.

Lemma reported_perm (m m' : list BlockReferenceError) (n : string) (src : BlockReferenceSource) :
  m ≡ₚ m' -> reported m n src <-> reported m' n src.
Proof. intros Hp. unfold reported. by setoid_rewrite Hp. Qed.

Lemma add_missing_reported (m : list BlockReferenceError) (name n : string) (s src : BlockReferenceSource) :
  reported (add_missing m name s) n src <-> reported m n src \/ (n = name /\ src = s).
Proof.
  induction m as [|e m IH]; cbn.
  - rewrite reported_cons. cbn. rewrite list_elem_of_singleton. split.
    + intros [[-> ->]|Hr]; [by right|by apply reported_nil in Hr].
    + intros [Hr|[-> ->]]; [by apply reported_nil in Hr|by left].
  - destruct (bre_name e =s name) eqn:E; rewrite !reported_cons; cbn.
    + apply eqs_true in E as <-. rewrite elem_of_app, list_elem_of_singleton. naive_solver.
    + rewrite IH. naive_solver.
Qed.

Lemma add_missing_names (m : list BlockReferenceError) (name : string) (s : BlockReferenceSource) :
  map bre_name (add_missing m name s)
  = if bool_decide (name ∈ map bre_name m) then map bre_name m else map bre_name m ++ [name].
Proof.
  induction m as [|e m IH]; [done|]. cbn. destruct (bre_name e =s name) eqn:E.
  - apply eqs_true in E as <-. rewrite bool_decide_true; [done|by left].
  - apply String.eqb_neq in E. cbn. rewrite IH. case_bool_decide as Hm.
    + rewrite bool_decide_true; [done|by right].
    + rewrite bool_decide_false; [done|]. intros [?|?]%elem_of_cons; congruence.
Qed.

Lemma add_missing_NoDup (m : list BlockReferenceError) (name : string) (s : BlockReferenceSource) :
  NoDup (map bre_name m) -> NoDup (map bre_name (add_missing m name s)).
Proof.
  rewrite add_missing_names. case_bool_decide as Hm; [done|]. intros Hd. apply NoDup_app. split_and!; [done| |apply NoDup_singleton].
  intros x Hx ->%list_elem_of_singleton. done.
Qed.

Section Missing.
Context {B Slot : Type} `{SealBlock B} `{HashOrder}.
Implicit Types self : @Wafer B Slot.

Lemma unregistered_reported self (n : string) (src : BlockReferenceSource) :
  reported (unregistered_block_references self) n src
  <-> registered self n = false /\ (n, src) ∈ references self.
Proof.
  unfold reported, unregistered_block_references. split.
  - intros (e & Hin & <- & Hs). apply list_elem_of_fmap in Hin as ([name srcs] & -> & Hin).
    apply list_elem_of_In, filter_In in Hin as [Hin Hr]. apply list_elem_of_In, sorted_entries_lookup, group_Some in Hin as ->.
    split; [by apply negb_true_iff in Hr|]. cbn in *.
    apply list_elem_of_omap in Hs as ([k a] & Hin & E). destruct (decide (k = name)) as [->|]; [|done]. by injection E as ->.
  - intros [Hr Hin]. destruct (group_keys _ _ _ Hin) as [vs Hg]. exists (mkReferenceError n vs). split_and!; [|done|].
    + apply (list_elem_of_fmap_2 (fun '(name, sources) => mkReferenceError name sources) _ (n, vs)).
      apply list_elem_of_In, filter_In. split; [|by rewrite Hr]. by apply list_elem_of_In, sorted_entries_lookup.
    + cbn. apply group_Some in Hg as ->. apply list_elem_of_omap. exists (n, src). by rewrite decide_True.
Qed.

Lemma unregistered_names self : NoDup (map bre_name (unregistered_block_references self)).
Proof.
  unfold unregistered_block_references. rewrite map_map.
  pose proof (sorted_entries_NoDup (group (references self))) as Hd.
  induction (sorted_entries (group (references self))) as [|[k vs] l IH]; cbn; [constructor|].
  cbn in Hd. apply NoDup_cons in Hd as [Hk Hd]. destruct (negb (registered self k)); [|by apply IH].
  cbn. constructor; [|by apply IH]. intros Hin. apply Hk.
  apply list_elem_of_fmap in Hin as ([k' vs'] & -> & Hin). cbn.
  apply list_elem_of_In, filter_In in Hin as [Hin _].
  apply (list_elem_of_fmap_2 fst _ (k', vs')). by apply list_elem_of_In.
Qed.

(** Why a sealed runtime needs a block. *)
Definition needs self (n : string) (src : BlockReferenceSource) : Prop :=
  (n, src) ∈ references self \/ exists from, src = RefRequires from /\ (from, n) ∈ requirements self.

Lemma unmet_fold self (reqs : list (string * string)) (m : list BlockReferenceError) :
  let m' := fold_left (fun missing '(from_block, canonical) =>
    if registered self canonical then missing else add_missing missing canonical (RefRequires from_block)) reqs m in
  (NoDup (map bre_name m) -> NoDup (map bre_name m'))
  /\ forall n src, reported m' n src
     <-> reported m n src \/ (registered self n = false /\ exists from, src = RefRequires from /\ (from, n) ∈ reqs).
Proof.
  revert m. induction reqs as [|[from c] reqs IH]; intros m; cbn.
  - split; [done|]. intros n src. split; [by left|]. intros [?|(_ & from & _ & Hin)]; [done|by apply elem_of_nil in Hin].
  - destruct (registered self c) eqn:E.
    + destruct (IH m) as [I1 I2]. split; [done|]. intros n src. rewrite I2. setoid_rewrite elem_of_cons. naive_solver congruence.
    + destruct (IH (add_missing m c (RefRequires from))) as [I1 I2].
      split; [intros Hd; by apply I1, add_missing_NoDup|].
      intros n src. rewrite I2, add_missing_reported. setoid_rewrite elem_of_cons. naive_solver congruence.
Qed.

Lemma missing_reported self (n : string) (src : BlockReferenceSource) :
  reported (collect_unmet_requires self (unregistered_block_references self)) n src
  <-> registered self n = false /\ needs self n src.
Proof.
  unfold collect_unmet_requires. rewrite (reported_perm _ _ _ _ (merge_sort_Permutation missing_le _)).
  rewrite (proj2 (unmet_fold self _ _)), unregistered_reported. unfold needs. naive_solver.
Qed.

Lemma missing_names self :
  NoDup (map bre_name (collect_unmet_requires self (unregistered_block_references self))).
Proof.
  unfold collect_unmet_requires.
  pose proof (merge_sort_Permutation missing_le
    (fold_left (fun missing '(from_block, canonical) =>
       if registered self canonical then missing else add_missing missing canonical (RefRequires from_block))
       (requirements self) (unregistered_block_references self))) as Hp.
  apply (Permutation_map bre_name) in Hp. rewrite Hp. apply (proj1 (unmet_fold self _ _)), unregistered_names.
Qed.

Lemma nothing_missing self (n : string) (src : BlockReferenceSource) :
  collect_unmet_requires self (unregistered_block_references self) = [] -> needs self n src -> registered self n = true.
Proof.
  intros E Hn. destruct (registered self n) eqn:Hr; [done|].
  exfalso. apply (reported_nil n src). rewrite <- E. by apply missing_reported.
Qed.

(** *** What is needed *)

Lemma flow_needs self (fid : string) (flow : WaferFlow) (b : bool) (s : Step) :
  w_flows self !! fid = Some flow -> In (b, s) (flat_steps false (wf_steps flow)) ->
  exists src, needs self (canonicalize (w_registration self) (st_block s)) src.
Proof.
  intros Hf Hs. destruct (flow_refs_cover fid _ _ _ Hs) as [src Hin]. exists src. left. unfold references.
  apply (list_elem_of_fmap_2 (fun '(name, source) => (canonicalize (w_registration self) name, source)) _ (st_block s, src)).
  apply elem_of_app. left. apply list_elem_of_In, in_flat_map. exists (fid, flow).
  split; [by apply list_elem_of_In, hash_entries_In|by apply list_elem_of_In].
Qed.

Lemma config_needs self (name : string) (cfg : Value) (rb : @RegisteredBlock B) (r : BlockConfigRef) :
  w_block_configs self !! name = Some cfg ->
  blocks (w_registration self) !! canonicalize (w_registration self) name = Some rb ->
  In r (block_refs (rb_block rb) cfg) ->
  needs self (canonicalize (w_registration self) (cr_target r)) (RefBlockConfig name (cr_location r) (cr_detail r)).
Proof.
  intros Hc Hb Hr. left. unfold references.
  apply (list_elem_of_fmap_2 (fun '(name, source) => (canonicalize (w_registration self) name, source)) _
    (cr_target r, RefBlockConfig name (cr_location r) (cr_detail r))).
  apply elem_of_app. right. apply list_elem_of_In, in_flat_map. exists (name, cfg).
  split; [by apply list_elem_of_In, hash_entries_In|]. unfold config_refs. rewrite Hb.
  apply (in_map (fun r => (cr_target r, RefBlockConfig name (cr_location r) (cr_detail r)))), Hr.
Qed.

Lemma requires_needs self (from dep : string) (rb : @RegisteredBlock B) :
  blocks (w_registration self) !! from = Some rb -> In dep (bi_requires (rb_info rb)) ->
  needs self (canonicalize (w_registration self) dep) (RefRequires from).
Proof.
  intros Hb Hd. right. exists from. split; [done|]. unfold requirements.
  apply list_elem_of_In, in_flat_map. exists (from, rb).
  split; [by apply list_elem_of_In, sorted_entries_lookup|].
  by apply (in_map (fun required => (from, canonicalize (w_registration self) required))).
Qed.
End Missing.

(** ** The pipeline *)

Section Pipeline.
Context {B Slot : Type} (new_slot : Slot) `{UnicodeLower} `{SealBlock B} `{HashOrder} `{OverridesJson}.
Implicit Types self : @Wafer B Slot.

Lemma phase_ok (r : @Wafer B Slot * result unit SealError) k self' :
  phase r k = (self', Ok tt) -> exists s, r = (s, Ok tt) /\ k s = (self', Ok tt).
Proof. destruct r as [s [[]|e]]; cbn; [|done]. eauto. Qed.

Lemma expand_configs_shape self s1 :
  expand_configs self = (s1, Ok tt) ->
  exists cfgs1, s1 = with_configs self cfgs1
  /\ key_block_configs_by_target (canonicalize (w_registration self))
       (gather_uses_configs (canonicalize (w_registration self))
          (expand_declarative_flow_configs (w_flows self)
             (expand_composite_configs (w_expanders self) (w_block_configs self)))) = (cfgs1, Ok tt).
Proof.
  unfold expand_configs. destruct (key_block_configs_by_target _ _) as [cfgs1 [[]|c]] eqn:E; [|done].
  intros [= <-]. eauto.
Qed.

Definition with_sealed self (cfgs : Configs) (eff : gmap string BlockCapabilities) : @Wafer B Slot :=
  mkWafer (sealed_registry (w_registration self)) (w_flows self) cfgs (w_expanders self) (w_locked self) eff SealedOk.

(** What a successful seal did. *)
Lemma seal_ok_inv self self' :
  seal self = (self', Ok tt) ->
  w_state self = Unsealed /\ exists cfgs1 cfgs2 eff,
    expand_configs self = (with_configs self cfgs1, Ok tt)
    /\ collect_unmet_requires (with_configs self cfgs1) (unregistered_block_references (with_configs self cfgs1)) = []
    /\ compute_capabilities (hash_entries (blocks (w_registration self))) cfgs1 ∅ = (cfgs2, Ok eff)
    /\ fail_on_duplicate_tool_names self' = Ok tt
    /\ fail_on_duplicate_endpoint_routes self' = Ok tt
    /\ self' = with_sealed self cfgs2 eff.
Proof.
  unfold seal. destruct (w_state self) eqn:Es; [|done..].
  destruct (seal_once self) as [s r] eqn:E. intros [= <- ->]. split; [done|].
  unfold seal_once in E. apply phase_ok in E as (? & [= <- _] & E). apply phase_ok in E as (s1 & E1 & E).
  pose proof (expand_configs_shape _ _ E1) as (cfgs1 & -> & _).
  destruct (collect_unmet_requires _ _) eqn:Em; [|done].
  apply phase_ok in E as (s2 & E2 & E). unfold fail_on_rejected_grants in E2.
  destruct (w_validation_errors _); [|done]. injection E2 as <-.
  apply phase_ok in E as (s3 & E3 & E). unfold compute_effective_capabilities in E3. cbn in E3.
  destruct (compute_capabilities _ _ _) as [cfgs2 [eff|e]] eqn:Ec; [|done]. injection E3 as <-.
  apply phase_ok in E as (? & [= <- Et] & E). apply phase_ok in E as (? & [= <- Er] & E). injection E as <-.
  exists cfgs1, cfgs2, eff. split_and!; done.
Qed.

(** *** Capabilities *)

Lemma compute_capabilities_spec (entries : list (string * @RegisteredBlock B)) (cfgs cfgs' : Configs)
    (eff eff' : gmap string BlockCapabilities) :
  NoDup entries.*1 -> compute_capabilities entries cfgs eff = (cfgs', Ok eff') ->
  (forall n, n ∉ entries.*1 -> cfgs' !! n = cfgs !! n /\ eff' !! n = eff !! n)
  /\ (forall n rb, (n, rb) ∈ entries -> exists o,
        (take_capability_overrides n (cfgs !! n)).2 = Ok o
        /\ cfgs' !! n = (take_capability_overrides n (cfgs !! n)).1
        /\ let e := effective_capabilities (declared_capabilities (rb_block rb)) (block_runtime (rb_block rb)) o
                      (capability_bound (rb_block rb)) in
           eff' !! n = Some (default e (enforced_capabilities (rb_block rb) e))).
Proof.
  revert cfgs eff. induction entries as [|[name rb0] entries IH]; intros cfgs eff Hd; cbn.
  - intros [= <- <-]. split; [done|]. intros n rb Hin. by apply elem_of_nil in Hin.
  - cbn in Hd. apply NoDup_cons in Hd as [Hn Hd].
    destruct (take_capability_overrides name (cfgs !! name)) as [cfg [o|e]] eqn:Et; [|done].
    intros E. apply IH in E as [I1 I2]; [|done].
    assert (Hcfg : forall n, (match cfg with Some cfg => <[name:=cfg]> cfgs | None => cfgs end) !! n
                    = if decide (n = name) then cfg else cfgs !! n).
    { intros n. destruct (decide (n = name)) as [->|Hne].
      - destruct cfg as [cfg|]; [by rewrite lookup_insert_eq|]. destruct (cfgs !! name) as [[]|] eqn:Ec; try done.
        cbn in Et. destruct (assoc _ _); [|done]. by destruct (parse_overrides _).
      - destruct cfg; [by rewrite lookup_insert_ne|done]. }
    split.
    + intros n [Hne Hni]%not_elem_of_cons. destruct (I1 n Hni) as [-> ->]. rewrite Hcfg, decide_False by done.
      by rewrite lookup_insert_ne.
    + intros n rb [[= -> ->]|Hin]%elem_of_cons.
      * destruct (I1 name Hn) as [-> ->]. exists o. rewrite Hcfg, decide_True, Et, lookup_insert_eq by done. done.
      * assert (n <> name) by (intros ->; by apply Hn, (list_elem_of_fmap_2 fst _ (name, rb))).
        destruct (I2 n rb Hin) as (o' & Ho). exists o'. by rewrite Hcfg, decide_False in Ho.
Qed.

(** Computing the capabilities fails only on an override that does not parse. *)
Lemma compute_capabilities_err (entries : list (string * @RegisteredBlock B)) (cfgs cfgs' : Configs)
    (eff : gmap string BlockCapabilities) (missing : list BlockReferenceError) :
  compute_capabilities entries cfgs eff <> (cfgs', Err (BlocksNotFound missing)).
Proof.
  revert cfgs eff. induction entries as [|[name rb0] entries IH]; intros cfgs eff; cbn; [done|].
  destruct (take_capability_overrides name (cfgs !! name)) as [cfg [o|e]] eqn:Et; [apply IH|].
  intros [= _ ->]. destruct (cfgs !! name) as [v|]; [|done]. destruct v; cbn in Et; try done.
  destruct (assoc "capabilities" _); [|done]. by destruct (parse_overrides _).
Qed.

Lemma assoc_without (k : string) (m : list (string * Value)) :
  assoc k (List.filter (fun kv => negb (kv.1 =s k)) m) = None.
Proof.
  induction m as [|[k' w] m IH]; [done|]. cbn. destruct (k' =s k) eqn:E; cbn; [done|by rewrite E].
Qed.

Lemma take_capability_stripped (n : string) (c : option Value) (v : Value) :
  (take_capability_overrides n c).1 = Some v -> value_get v "capabilities" = None.
Proof.
  destruct c as [w|]; [|done]. destruct w; cbn; try by intros [= <-].
  destruct (assoc "capabilities" _) eqn:E; intros [= <-]; [|done]. apply assoc_without.
Qed.

Lemma take_capability_some (n : string) (c : option Value) :
  is_Some (take_capability_overrides n c).1 -> is_Some c.
Proof. destruct c as [[]|]; cbn; try done. Qed.

(** *** Uniqueness of claims *)

Lemma tool_names_unique self : fail_on_duplicate_tool_names self = Ok tt -> NoDup (tool_claims self).*1.
Proof.
  intros E. apply group_short_NoDup. intros k vs Hg. apply Nat.nlt_ge. intros Hl.
  unfold fail_on_duplicate_tool_names in E.
  assert (Hin : In (k, vs) (List.filter (fun '(_, claimants) => 1 <? length claimants) (sorted_entries (group (tool_claims self))))).
  { apply filter_In. split; [by apply list_elem_of_In, sorted_entries_lookup|by apply Nat.ltb_lt]. }
  by destruct (List.filter _ _).
Qed.

Lemma routes_unique self : fail_on_duplicate_endpoint_routes self = Ok tt -> NoDup (route_claims self).*1.
Proof.
  intros E. apply group_short_NoDup. intros k vs Hg. apply Nat.nlt_ge. intros Hl.
  unfold fail_on_duplicate_endpoint_routes in E.
  destruct (flat_map _ _) eqn:Ef in E; [|done]. rewrite flat_map_nil, List.Forall_forall in Ef.
  specialize (Ef (k, vs)). destruct vs as [|[m c] [|x vs]]; cbn in Hl; [lia|lia|].
  discriminate Ef. apply list_elem_of_In. rewrite merge_sort_Permutation. by apply elem_of_map_to_list.
Qed.

Lemma block_entry self (name : string) (rb : @RegisteredBlock B) :
  (name, rb) ∈ hash_entries (blocks (w_registration self)) <-> blocks (w_registration self) !! name = Some rb.
Proof. apply hash_entries_In. Qed.

(** The configurations of a sealed runtime are its expanded ones. *)
Lemma sealed_config_keys self cfgs1 cfgs2 eff :
  compute_capabilities (hash_entries (blocks (w_registration self))) cfgs1 ∅ = (cfgs2, Ok eff) ->
  forall n, is_Some (cfgs2 !! n) -> is_Some (cfgs1 !! n).
Proof.
  intros Ec n Hn. destruct (compute_capabilities_spec _ _ _ _ _ (hash_entries_NoDup _) Ec) as [C1 C2].
  destruct (blocks (w_registration self) !! n) as [rb|] eqn:Eb.
  - apply block_entry in Eb. destruct (C2 _ _ Eb) as (o & _ & E & _). rewrite E in Hn. by eapply take_capability_some.
  - destruct (C1 n) as [E _]; [|by rewrite E in Hn]. intros ([k rb] & -> & Hin)%list_elem_of_fmap.
    apply block_entry in Hin. cbn in Eb. congruence.
Qed.
End Pipeline.

(** ** The properties *)

(** C16: a successful seal closes a registry in which every block named by a step of
    a flow (however nested), by a configuration or by the requirements of a
    block is dispatched, through an alias or not; no tool name and no route is
    claimed twice; every configuration is under its block's own name; and the
    runtime is never sealed again. The registry is one whose configuration
    files loaded only aliases that [add_alias] takes. *)
Theorem seal_sound {B Slot} (new_slot : Slot) `{UnicodeLower} `{SealBlock B} `{HashOrder} `{OverridesJson}
    (self self' : @Wafer B Slot) :
  reachable new_slot (w_registration self) -> Registration.sealed (w_registration self) = false ->
  seal self = (self', Ok tt) ->
  let dispatched n := exists t, compile_target (w_registration self') n = Some (Some t) in
  reachable new_slot (w_registration self') /\ Registration.sealed (w_registration self') = true
  /\ (forall fid flow b s, w_flows self' !! fid = Some flow -> In (b, s) (flat_steps false (wf_steps flow)) ->
        dispatched (st_block s))
  /\ (exists cfgs, expand_configs self = (with_configs self cfgs, Ok tt)
       /\ forall name cfg rb r, cfgs !! name = Some cfg -> blocks (w_registration self') !! name = Some rb ->
            In r (block_refs (rb_block rb) cfg) -> dispatched (cr_target r))
  /\ (forall from rb dep, blocks (w_registration self') !! from = Some rb -> In dep (bi_requires (rb_info rb)) ->
        dispatched dep)
  /\ NoDup (tool_claims self').*1 /\ NoDup (route_claims self').*1
  /\ (forall n, is_Some (w_block_configs self' !! n) -> canonicalize (w_registration self') n = n)
  /\ seal self' = (self', Err AlreadySealed).
Proof.
  intros Hr Hs Hseal. apply seal_ok_inv in Hseal as (_ & cfgs1 & cfgs2 & eff & Ex & Em & Ec & Et & Eroutes & ->).
  pose proof (reg_inv_reachable _ _ Hr) as Hi. cbv zeta.
  assert (Hd : forall n src, needs (with_configs self cfgs1) (canonicalize (w_registration self) n) src ->
    exists t, compile_target (sealed_registry (w_registration self)) n = Some (Some t)).
  { intros n src Hn. apply (sealed_target new_slot); [done|done|].
    apply (nothing_missing _ _ _ Em) in Hn. by apply bool_decide_eq_true in Hn. }
  split; [eapply rtc_r; [exact Hr|by apply step_seal_ok]|]. split; [done|].
  split. { intros fid flow b s Hf Hin. destruct (flow_needs (with_configs self cfgs1) fid flow b s Hf Hin) as [src Hn]. by eapply Hd. }
  split. { exists cfgs1. split; [exact Ex|]. intros name cfg rb r Hc Hb Hin.
    apply (Hd _ (RefBlockConfig name (cr_location r) (cr_detail r))), (config_needs (with_configs self cfgs1) name cfg rb);
      [done| |done]. cbn. unfold canonicalize. by rewrite (inv_disjoint _ Hi) by eauto. }
  split. { intros from rb dep Hb Hin. apply (Hd _ (RefRequires from)). by apply (requires_needs (with_configs self cfgs1) from dep rb). }
  split; [by apply tool_names_unique|]. split; [by apply routes_unique|]. split; [|done].
  intros n Hn. apply expand_configs_shape in Ex as (c & E & Ek). injection E as <-.
  apply (key_block_configs_ok (canonicalize (w_registration self)) _ _ (fun n => canonicalize_idem _ n Hi) Ek).
  by eapply sealed_config_keys.
Qed.

(** A runtime about to be sealed: an application that requires its database by
    an alias, a flow through both, and a router configuration. *)
Definition app_info : BlockInfo :=
  mkInfo "acme/app" "http-handler@v1" ["db"] [] [] [] []
    [mkEndpoint HttpMethod.Get "/b/app/items/{id}" (Some "get_item");
     mkEndpoint HttpMethod.Delete "/b/app/items/{item}" (Some "drop_item")] None.
Definition db_info : BlockInfo := mkInfo "acme/db" "database@v1" [] [] [] [] [] [] None.

Definition boot_ops : result (@RegistrationCore unit unit) RuntimeError :=
  match register_block_inner tt core_new "acme/app" tt app_info with
  | Ok st => match register_block_inner tt st "acme/db" tt db_info with
             | Ok st => match add_alias st "db" "acme/db" with
                        | Ok st => Ok st
                        | Err _ => Err RegisteredAfterSeal
                        end
             | Err e => Err e
             end
  | Err e => Err e
  end.
Definition boot_core : @RegistrationCore unit unit := match boot_ops with Ok st => st | Err _ => core_new end.

Lemma boot_reachable : reachable tt boot_core.
Proof.
  unfold reachable, boot_core, boot_ops.
  destruct (register_block_inner _ core_new _ _ _) as [s1|] eqn:E1; [|constructor].
  destruct (register_block_inner _ s1 _ _ _) as [s2|] eqn:E2; [|constructor].
  destruct (add_alias s2 _ _) as [s3|] eqn:E3; [|constructor].
  eapply rtc_l; [by eapply step_register|]. eapply rtc_l; [by eapply step_register|].
  by eapply rtc_once, step_add_alias.
Qed.

(** Blocks whose configuration names one target each, and no overrides. *)
Definition target_blocks : SealBlock unit := {|
  block_refs _ cfg := match value_get cfg "target" with Some (VString t) => [mkConfigRef t "target" None] | _ => [] end;
  declared_capabilities _ := None;
  block_runtime _ := Native;
  capability_bound _ := None;
  enforced_capabilities _ _ := None
|}.
Definition no_override_json : OverridesJson := {| parse_overrides _ := Ok no_overrides |}.

Definition boot_wafer (block : string) : @Wafer unit unit :=
  mkWafer boot_core
    {["main" := mkWaferFlow "main"
        [mkStep "fetch" "acme/app" None None None (Some [[mkStep "left" block None None None None None]]) None]
        None None None]}
    {["db" := VObject [("target", VString "acme/app"); ("capabilities", VObject [])]]} ∅ [] ∅ Unsealed.

Definition boot (block : string) : @Wafer unit unit * result unit SealError :=
  @seal unit unit target_blocks list_order no_override_json (boot_wafer block).

Lemma seal_sound_witness :
  (boot "db").2 = Ok tt
  /\ (exists t, compile_target (w_registration (boot "db").1) "db" = Some (Some t))
  /\ NoDup (@route_claims unit unit list_order (boot "db").1).*1.
Proof.
  assert (E : (boot "db").2 = Ok tt) by (vm_compute; reflexivity).
  assert (E' : boot "db" = ((boot "db").1, Ok tt)) by (rewrite <- E; by destruct (boot "db")).
  destruct (@seal_sound unit unit tt _ target_blocks list_order no_override_json (boot_wafer "db") _
    boot_reachable eq_refl E') as (_ & _ & Hf & _ & _ & _ & Hroutes & _).
  split; [exact E|]. split; [|exact Hroutes].
  refine (Hf "main" _ true (mkStep "left" "db" None None None None None) _ _); [vm_compute; reflexivity|].
  right. by left.
Defined.

(** a boot refused for missing blocks keeps the expanded configuration and a
    closed registry, and its error lists every missing block once, in name
    order, with all and only the reasons it is needed: no reference to an
    unregistered block is left out and no registered block is listed. *)
Theorem missing_blocks_exact {B Slot} `{SealBlock B} `{HashOrder} `{OverridesJson} (self self' : @Wafer B Slot)
    (missing : list BlockReferenceError) :
  seal self = (self', Err (BlocksNotFound missing)) ->
  missing <> [] /\ NoDup (map bre_name missing) /\ Sorted missing_le missing
  /\ Registration.sealed (w_registration self') = true /\ w_state self' = SealFailed (BlocksNotFound missing)
  /\ expand_configs self = (with_configs self (w_block_configs self'), Ok tt)
  /\ forall n src, reported missing n src
     <-> registered self' n = false /\ needs (with_configs self (w_block_configs self')) n src.
Proof.
  unfold seal. destruct (w_state self) eqn:Es; [|done..].
  destruct (seal_once self) as [s r] eqn:E. intros [= <- ->].
  unfold seal_once, phase in E. destruct (refuse_locked_admin_block self) eqn:Er.
  2: { injection E as <- ->. unfold refuse_locked_admin_block in Er. destruct (is_empty _); [done|].
       by destruct (List.find _ _) as [[]|]. }
  destruct (expand_configs self) as [s1 [[]|e1]] eqn:Ex.
  2: { injection E as <- ->. unfold expand_configs in Ex. by destruct (key_block_configs_by_target _ _) as [? []]. }
  destruct (expand_configs_shape _ _ Ex) as (cfgs1 & -> & _).
  pose proof (missing_reported (with_configs self cfgs1)) as Hrep. pose proof (missing_names (with_configs self cfgs1)) as Hd.
  assert (Hsort : Sorted missing_le (collect_unmet_requires (with_configs self cfgs1)
    (unregistered_block_references (with_configs self cfgs1)))).
  { apply Sorted_merge_sort. intros e e'. apply String.le_total. }
  destruct (collect_unmet_requires _ _) as [|e0 es] eqn:Em.
  - exfalso. unfold fail_on_rejected_grants in E. destruct (w_validation_errors _); [|done].
    unfold compute_effective_capabilities in E. destruct (compute_capabilities _ _ _) as [cfgs2 [eff|e]] eqn:Ec.
    + destruct (fail_on_duplicate_tool_names _) eqn:Et; [|injection E as <- ->; unfold fail_on_duplicate_tool_names in Et; by destruct (map _ _)].
      destruct (fail_on_duplicate_endpoint_routes _) eqn:Et'; [done|]. injection E as <- ->.
      unfold fail_on_duplicate_endpoint_routes in Et'. by destruct (flat_map _ _).
    + injection E as <- ->. by eapply compute_capabilities_err.
  - injection E as <- <-. by split_and!.
Qed.

Lemma missing_blocks_exact_witness :
  (boot "ghost/block").2
    = Err (BlocksNotFound [mkReferenceError "ghost/block" [RefFlow "main" 0 "left" (Some [(0, 0)])]])
  /\ w_state (boot "ghost/block").1
     = SealFailed (BlocksNotFound [mkReferenceError "ghost/block" [RefFlow "main" 0 "left" (Some [(0, 0)])]])
  /\ registered (boot "ghost/block").1 "ghost/block" = false.
Proof.
  assert (E : (boot "ghost/block").2
    = Err (BlocksNotFound [mkReferenceError "ghost/block" [RefFlow "main" 0 "left" (Some [(0, 0)])]]))
    by (vm_compute; reflexivity).
  assert (E' : boot "ghost/block" = ((boot "ghost/block").1,
    Err (BlocksNotFound [mkReferenceError "ghost/block" [RefFlow "main" 0 "left" (Some [(0, 0)])]])))
    by (rewrite <- E; by destruct (boot "ghost/block")).
  destruct (@missing_blocks_exact unit unit target_blocks list_order no_override_json (boot_wafer "ghost/block") _ _ E')
    as (_ & _ & _ & _ & Hst & _ & Hr).
  split; [exact E|]. split; [exact Hst|].
  apply (proj1 (Hr "ghost/block" (RefFlow "main" 0 "left" (Some [(0, 0)])))).
  eexists. split; [by left|]. split; [done|by left].
Defined.

(** after a successful seal every registered block, and no other, has a
    recorded capability set: what it reports enforcing once handed its effective
    set (declared, narrowed by the operator and, for a WASM block, within its
    bound), or that set; and no configuration keeps the subkey it was read from. *)
Theorem sealed_capabilities {B Slot} `{SealBlock B} `{HashOrder} `{OverridesJson} (self self' : @Wafer B Slot) :
  seal self = (self', Ok tt) ->
  exists cfgs, expand_configs self = (with_configs self cfgs, Ok tt)
  /\ (forall name rb, blocks (w_registration self') !! name = Some rb -> exists o,
        (take_capability_overrides name (cfgs !! name)).2 = Ok o
        /\ let effective := effective_capabilities (declared_capabilities (rb_block rb)) (block_runtime (rb_block rb)) o
                              (capability_bound (rb_block rb)) in
           w_effective self' !! name = Some (default effective (enforced_capabilities (rb_block rb) effective))
           /\ forall v, w_block_configs self' !! name = Some v -> value_get v "capabilities" = None)
  /\ (forall name, blocks (w_registration self') !! name = None ->
        w_effective self' !! name = None /\ w_block_configs self' !! name = cfgs !! name).
Proof.
  intros Hseal. apply seal_ok_inv in Hseal as (_ & cfgs1 & cfgs2 & eff & Ex & _ & Ec & _ & _ & ->).
  exists cfgs1. split; [exact Ex|].
  destruct (compute_capabilities_spec _ _ _ _ _ (hash_entries_NoDup _) Ec) as [C1 C2]. split.
  - intros name rb Hb%hash_entries_In. destruct (C2 _ _ Hb) as (o & Ho & Hc & He). exists o. split; [done|]. cbv zeta. split; [done|].
    intros v Hv. cbn in Hv. rewrite Hc in Hv. by eapply take_capability_stripped.
  - intros name Hb. cbn in *. destruct (C1 name) as [E1 E2]; [|by rewrite E2, lookup_empty].
    intros ([k rb] & -> & Hin)%list_elem_of_fmap. apply hash_entries_In in Hin. cbn in *. congruence.
Qed.

Lemma sealed_capabilities_witness :
  w_effective (boot "db").1 !! "acme/db" = Some unrestricted
  /\ w_block_configs (boot "db").1 !! "acme/db" = Some (VObject [("target", VString "acme/app")]).
Proof.
  assert (E' : boot "db" = ((boot "db").1, Ok tt)) by (vm_compute; reflexivity).
  destruct (@sealed_capabilities unit unit target_blocks list_order no_override_json (boot_wafer "db") _ E')
    as (cfgs & Ex & Hb & _).
  assert (Ec : cfgs = w_block_configs (@expand_configs unit unit list_order (boot_wafer "db")).1) by by rewrite Ex.
  subst cfgs. clear Ex.
  split; [|vm_compute; reflexivity].
  destruct (Hb "acme/db" (registered_new tt db_info)) as (o & Ho & He & _); [vm_compute; reflexivity|].
  rewrite He. vm_compute in Ho. injection Ho as <-. vm_compute. reflexivity.
Defined.

(** loading a configuration file with an alias entry that names a registered
    block redirects that block's name: once sealed, dispatch to it reaches the
    other block, although registering the same alias is refused and a name is
    meant to be a block or an alias, never both. *)
Theorem blocks_json_redirects {B Slot} (self : @Wafer B Slot) (block target : string) (rb rb' : @RegisteredBlock B) :
  block <> target -> blocks (w_registration self) !! block = Some rb ->
  blocks (w_registration self) !! target = Some rb' -> aliases (w_registration self) !! target = None ->
  let self' := load_blocks_json self {["aliases" := VObject [(block, VString target)]]} in
  lookup_with_alias (sealed_registry (w_registration self')) block = Some (target, rb')
  /\ ~ reg_inv (w_registration self')
  /\ is_ok (add_alias (w_registration self) block target) = false.
Proof.
  intros Hne Hb Ht Ha. cbv zeta.
  assert (El : w_registration (load_blocks_json self {["aliases" := VObject [(block, VString target)]]})
              = load_aliases (w_registration self) [(block, target)]).
  { unfold load_blocks_json. by rewrite lookup_singleton_eq. }
  rewrite El. assert (E : aliases (load_aliases (w_registration self) [(block, target)]) = <[block := target]> (aliases (w_registration self))) by done.
  split_and!.
  - unfold lookup_with_alias, canonicalize, sealed_registry, rebuild_all_blocks. cbn [aliases all_blocks blocks].
    rewrite E, lookup_insert_eq. cbn [default].
    change (blocks (load_aliases (w_registration self) [(block, target)])) with (blocks (w_registration self)).
    fold (snapshot_fold (blocks (w_registration self)) (<[block := target]> (aliases (w_registration self)))).
    rewrite snapshot_lookup, lookup_insert_ne by done. unfold id. by rewrite Ha, Ht.
  - intros Hi. pose proof (inv_disjoint _ Hi block) as Hd. rewrite E, lookup_insert_eq in Hd.
    specialize (Hd (ex_intro _ rb Hb)). done.
  - unfold add_alias. destruct (Registration.sealed _); [done|]. destruct (block =s target); [done|].
    destruct (aliases _ !! block); [done|]. case_bool_decide; [done|]. destruct (existsb _ _); [done|].
    by rewrite bool_decide_true by (by eexists).
Qed.

Lemma blocks_json_redirects_witness :
  let self' := load_blocks_json (boot_wafer "db") {["aliases" := VObject [("acme/app", VString "acme/db")]]} in
  option_map fst (lookup_with_alias (sealed_registry (w_registration self')) "acme/app") = Some "acme/db".
Proof.
  destruct (blocks_json_redirects (boot_wafer "db") "acme/app" "acme/db" (registered_new tt app_info) (registered_new tt db_info))
    as [E _]; [discriminate|vm_compute; reflexivity..|].
  cbv zeta in *. by rewrite E.
Defined.
