(* ===== verification/Csp.v ===== *)
(** The security-headers block: merging of Content-Security-Policy directives
    ([wafer-block-security-headers/src/csp.rs]) and the block itself
    ([lib.rs]).

    A [BTreeMap] is a [gmap] visited in key order. Resolving a [report-uri]
    against an origin belongs to the [url] crate; the rendering of a single
    character ([{:?}]) is a parameter. Log lines are left out. *)

From stdpp Require Import sorting pretty.
From S2P Require Import Prelude CoreTypes Text FlowTypes Lifecycle Requests Streams RestrictiveHeaders ConfigExpand.

(** [origin_join base uri]: whether [uri] resolves against [base] to the same
    origin ([Url::join], [Url::origin]); [false] when it does not parse. *)
Class SameOrigin := { joins_same_origin : string -> bool }.

(** [{c:?}] of a character given by its bytes. *)
Class CharDebug := { char_debug : string -> string }.

(** ** Names *)

Definition SCRIPT_DIRECTIVES : list string :=
  ["default-src"; "script-src"; "script-src-elem"; "script-src-attr"; "worker-src"; "child-src"].
Definition NARROW_ONLY_DIRECTIVES : list string := ["base-uri"; "form-action"].
Definition FRAME_ANCESTORS : string := "frame-ancestors".
Definition REPORT_URI : string := "report-uri".
Definition REPORT_TO : string := "report-to".

Definition list_has (l : list string) (x : string) : bool := existsb (fun y => y =s x) l.

Record Refusal := mkRefusal { rf_directive : string; rf_source : option string; rf_reason : string }.
Record CspMerge := mkMerge { cm_policy : string; cm_refused : list Refusal }.

Abbreviation Directives := (gmap string (list string)).

(** ** Tokens *)

Definition is_name_byte (b : ascii) : bool := is_ascii_alphanumeric b || Ascii.eqb b "-".

(** [is_directive_name]. *)
Definition is_directive_name (s : string) : bool := negb (is_empty s) && str_forallb is_name_byte s.

Definition is_value_byte (b : ascii) : bool :=
  in_range 33 126 b && negb (Ascii.eqb b ",") && negb (Ascii.eqb b ";").

(** [is_value_token]. *)
Definition is_value_token (s : string) : bool := str_forallb is_value_byte s.

(** ** Source expressions *)

Module Host.
Inductive t := Any | Subdomains | Exact.
End Host.

Module Source.
Inductive t := Wildcard | Scheme | Host (scheme : option string) (host : Host.t) | Invalid.
End Source.

(** [is_scheme]. *)
Definition is_scheme (s : string) : bool :=
  match s with
  | EmptyString => false
  | String b s => is_ascii_alphabetic b
      && str_forallb (fun b => is_ascii_alphanumeric b || Ascii.eqb b "+" || Ascii.eqb b "-" || Ascii.eqb b ".") s
  end.

(** [is_host_labels]. *)
Definition is_host_labels (s : string) : bool :=
  negb (is_empty s)
  && forallb (fun label => negb (is_empty label) && str_forallb is_name_byte label) (split "." s).

(** [s.split_at(s.find(p).unwrap_or(s.len()))] for a predicate on bytes. *)
Fixpoint split_at_byte (p : ascii -> bool) (s : string) : string * string :=
  match s with
  | EmptyString => (EmptyString, EmptyString)
  | String a s' => if p a then (EmptyString, s)
                   else let '(l, r) := split_at_byte p s' in (String a l, r)
  end.

(** [s.split_once(p)] for a text. *)
Definition split_once_str (p s : string) : option (string * string) :=
  match find p s with
  | Some i => Some (str_take i s, str_drop (i + String.length p) s)
  | None => None
  end.

(** The path after the host and its port, if they are valid. *)
Definition source_path (after_host : string) : option string :=
  match strip_prefix ":" after_host with
  | Some port_and_path =>
      let '(port, path) := split_at_byte (fun b => Ascii.eqb b "/") port_and_path in
      if negb (port =s "*") && (is_empty port || negb (str_forallb is_ascii_digit port)) then None
      else Some path
  | None => Some after_host
  end.

(** [parse_source]. *)
Definition parse_source (s : string) : Source.t :=
  if s =s "*" then Source.Wildcard
  else match strip_suffix ":" s with
  | Some scheme => if is_scheme scheme then Source.Scheme else Source.Invalid
  | None =>
      match match split_once_str "://" s with
            | Some (scheme, rest) => if is_scheme scheme then Some (Some scheme, rest) else None
            | None => Some (None, s)
            end with
      | None => Source.Invalid
      | Some (scheme, rest) =>
          let '(host, after_host) := split_at_byte (fun b => Ascii.eqb b ":" || Ascii.eqb b "/") rest in
          match source_path after_host with
          | None => Source.Invalid
          | Some path =>
              if negb (is_empty path || starts_with "/" path) then Source.Invalid
              else if host =s "*" then Source.Host scheme Host.Any
              else match strip_prefix "*." host with
                   | Some suffix => if is_host_labels suffix then Source.Host scheme Host.Subdomains else Source.Invalid
                   | None => if is_host_labels host then Source.Host scheme Host.Exact else Source.Invalid
                   end
          end
      end
  end.

(** [v.trim_end_matches(c)]. *)
Fixpoint trim_end_matches (c : ascii) (v : string) : string :=
  match v with
  | EmptyString => EmptyString
  | String a v => let r := trim_end_matches c v in
                  if is_empty r && Ascii.eqb a c then EmptyString else String a r
  end.

(** [is_base64_value]. *)
Definition is_base64_value (v : string) : bool :=
  let body := trim_end_matches "=" v in
  negb (is_empty body) && (String.length v - String.length body <=? 2)
  && str_forallb (fun b => is_ascii_alphanumeric b || Ascii.eqb b "+" || Ascii.eqb b "/" || Ascii.eqb b "-" || Ascii.eqb b "_") body.

Definition SAFE_KEYWORDS : list string :=
  ["'self'"; "'none'"; "'unsafe-inline'"; "'unsafe-hashes'"; "'strict-dynamic'"; "'wasm-unsafe-eval'"; "'report-sample'"].
Definition VALUE_PREFIXES : list string := ["nonce-"; "sha256-"; "sha384-"; "sha512-"].

(** [iter().find_map(f)]. *)
Fixpoint find_map {A B} (f : A -> option B) (l : list A) : option B :=
  match l with
  | [] => None
  | x :: l => match f x with Some b => Some b | None => find_map f l end
  end.

(** [keyword_refusal]. *)
Definition keyword_refusal (s : string) : option string :=
  if list_has SAFE_KEYWORDS s then None
  else if s =s "'unsafe-eval'" then Some "`'unsafe-eval'` lets any string run as script"
  else
    let inner := match strip_prefix "'" s with Some s => strip_suffix "'" s | None => None end in
    let value := match inner with
                 | Some inner => find_map (fun prefix => strip_prefix prefix inner) VALUE_PREFIXES
                 | None => None
                 end in
    match value with
    | Some v => if is_base64_value v then None else Some "not a recognised keyword, nonce or hash source"
    | None => Some "not a recognised keyword, nonce or hash source"
    end.

(** [script_source_refusal]. *)
Definition script_source_refusal (source : string) : option string :=
  let s := to_ascii_lowercase source in
  if starts_with "'" s then keyword_refusal s
  else match parse_source s with
  | Source.Wildcard => Some "`*` admits script from any origin"
  | Source.Scheme =>
      Some "a scheme-only source admits script from every host on that scheme, or (data:, blob:, filesystem:) from strings the page builds"
  | Source.Host _ Host.Any => Some "a `*` host admits script from any origin"
  | Source.Host _ Host.Subdomains =>
      Some "a host wildcard admits script from every subdomain, and under a public suffix (`*.github.io`, `*.co.uk`) anyone can register one; list the hosts"
  | Source.Host (Some scheme) _ =>
      if negb (scheme =s "https")
      then Some "script fetched over a scheme other than https can be replaced in transit" else None
  | Source.Host None _ => None
  | Source.Invalid => Some "not a valid CSP source expression"
  end.

(** [navigation_source_refusal]. *)
Definition navigation_source_refusal (source : string) : option string :=
  let s := to_ascii_lowercase source in
  let well_formed :=
    if (s =s "'self'") || (s =s "'none'") then true
    else if starts_with "'" s then false
    else match parse_source s with Source.Invalid => false | _ => true end in
  if well_formed then None else Some "not a valid source for this directive".

(** [report_uri_refusal]. *)
Definition report_uri_refusal `{SameOrigin} (uri : string) : option string :=
  let REASON := "reports carry page URLs and script samples; only a path on this origin is allowed" in
  if negb (starts_with "/" uri) || starts_with "//" uri || contains (String BACKSLASH "") uri then Some REASON
  else if joins_same_origin uri then None else Some REASON.

(** ** Policies *)

(** The tokens of a directive: the valid ones, and the others refused. *)
Definition keep_tokens (written : string) (tokens : list string) (refused : list Refusal)
  : list string * list Refusal :=
  fold_left (fun '(sources, refused) token =>
    if is_value_token token then (sources ++ [token], refused)
    else (sources, refused ++ [mkRefusal written (Some token)
                                 "not a valid CSP token (comma, control or non-ASCII character)"]))
    tokens ([], refused).

(** One directive of [parse]. *)
Definition parse_directive (st : Directives * list Refusal) (raw : string) : Directives * list Refusal :=
  let '(out, refused) := st in
  match split_ascii_whitespace raw with
  | [] => (out, refused)
  | written :: tokens =>
      if negb (is_directive_name written)
      then (out, refused ++ [mkRefusal written None "not a valid directive name"])
      else
        let name := to_ascii_lowercase written in
        if bool_decide (is_Some (out !! name))
        then (out, refused ++ [mkRefusal written None "duplicate directive; browsers use only the first"])
        else
          let '(sources, refused) := keep_tokens written tokens refused in
          match tokens, sources with
          | _ :: _, [] => (out, refused)
          | _, _ => (<[name := sources]> out, refused)
          end
  end.

(** [parse]. *)
Definition csp_parse (input : string) (refused : list Refusal) : Directives * list Refusal :=
  fold_left parse_directive (split ";" input) (∅, refused).

Definition is_none_source (s : string) : bool := eq_ignore_ascii_case s "'none'".

(** [narrow]. *)
Definition narrow_list (name : string) (base sources : list string) (refused : list Refusal)
  : list string * list Refusal :=
  let '(kept, refused) :=
    fold_left (fun '(kept, refused) source =>
      if is_none_source source || existsb (fun b => eq_ignore_ascii_case b source) base
      then (kept ++ [source], refused)
      else (kept, refused ++ [mkRefusal name (Some source) "can only narrow the baseline for this directive"]))
      sources ([], refused) in
  if existsb is_none_source kept then (["'none'"], refused)
  else match kept with [] => (base, refused) | _ => (kept, refused) end.

(** [add_source]. *)
Definition add_source (l : list string) (source : string) : list string :=
  if existsb (fun s => eq_ignore_ascii_case s source) l then l
  else if is_none_source source then match l with [] => [source] | _ => l end
  else List.filter (fun s => negb (is_none_source s)) l ++ [source].

(** An entry of a policy, and [serialize]. *)
Definition directive_text (d : string * list string) : string :=
  match d.2 with [] => d.1 | _ => d.1 +:+ " " +:+ join " " d.2 end.
Definition csp_serialize (directives : Directives) : string :=
  join "; " (map directive_text (sorted_entries directives)).

(** The sources a rule accepts, and the refusals of the others. *)
Definition accept (name : string) (rule : string -> option string) (sources : list string) (refused : list Refusal)
  : list string * list Refusal :=
  fold_left (fun '(accepted, refused) source =>
    match rule source with
    | Some reason => (accepted, refused ++ [mkRefusal name (Some source) reason])
    | None => (accepted ++ [source], refused)
    end) sources ([], refused).

Section Merge.
  Context `{SameOrigin}.

Definition rule_of (name : string) : string -> option string :=
  if list_has SCRIPT_DIRECTIVES name then script_source_refusal
  else if list_has NARROW_ONLY_DIRECTIVES name then navigation_source_refusal
  else if name =s REPORT_URI then report_uri_refusal
  else fun _ => None.

(** One operator directive of [merge_csp]. *)
Definition merge_directive (st : Directives * list Refusal) (d : string * list string) : Directives * list Refusal :=
  let '(merged, refused) := st in
  let '(name, sources) := d in
  if name =s FRAME_ANCESTORS
  then (merged, refused ++ [mkRefusal name None "set by the `frame_ancestors` config key, not the CSP"])
  else match (if list_has NARROW_ONLY_DIRECTIVES name then merged !! name else None) with
  | Some base =>
      let '(base, refused) := narrow_list name base sources refused in (<[name := base]> merged, refused)
  | None =>
      if (name =s REPORT_TO) && (1 <? length sources)
      then (merged, refused ++ [mkRefusal name None "takes exactly one reporting group name"])
      else
        let '(accepted, refused) := accept name (rule_of name) sources refused in
        match accepted, sources, merged !! name with
        | [], _ :: _, None => (merged, refused)
        | _, _, entry => (<[name := fold_left add_source accepted (default [] entry)]> merged, refused)
        end
  end.

Definition merge_directives (baseline custom : string) : Directives * list Refusal :=
  let '(merged, refused) := csp_parse baseline [] in
  let '(directives, refused) := csp_parse custom refused in
  fold_left merge_directive (sorted_entries directives) (merged, refused).

(** [merge_csp]. *)
Definition merge_csp (baseline custom : string) : CspMerge :=
  let '(merged, refused) := merge_directives baseline custom in mkMerge (csp_serialize merged) refused.
End Merge.

(** ** The block ([lib.rs]) *)

Definition DEFAULT_CSP : string :=
  "default-src 'self'; script-src 'self' 'unsafe-inline'; style-src 'self' 'unsafe-inline'; img-src 'self' data: blob: https:; font-src 'self' https:; connect-src 'self'; frame-ancestors 'none'; base-uri 'self'; form-action 'self'".

Module FrameAncestors.
Inductive t := None | SelfOrigin.
Definition csp_source (fa : t) : string := match fa with None => "'none'" | SelfOrigin => "'self'" end.
Definition x_frame_options (fa : t) : string := match fa with None => "DENY" | SelfOrigin => "SAMEORIGIN" end.
End FrameAncestors.

Module CrossOriginIsolation.
Inductive t := None | Credentialless | RequireCorp.
Definition coep_value (c : t) : option string :=
  match c with
  | None => Datatypes.None
  | Credentialless => Some "credentialless"
  | RequireCorp => Some "require-corp"
  end.
End CrossOriginIsolation.

(** [SecurityHeadersBlock]: three cells written once. *)
Record SecurityHeadersBlock := mkSecurityHeaders {
  sh_csp : option string;
  sh_frame_ancestors : option FrameAncestors.t;
  sh_isolation : option CrossOriginIsolation.t
}.
Definition security_headers_new : SecurityHeadersBlock := mkSecurityHeaders None None None.

(** [OnceLock::set]. *)
Definition once_set {A} (cell : option A) (v : A) : option A := match cell with Some _ => cell | None => Some v end.

Definition effective_csp (self : SecurityHeadersBlock) : string := default DEFAULT_CSP (sh_csp self).
Definition effective_frame_ancestors (self : SecurityHeadersBlock) : FrameAncestors.t :=
  default FrameAncestors.None (sh_frame_ancestors self).
Definition effective_isolation (self : SecurityHeadersBlock) : CrossOriginIsolation.t :=
  default CrossOriginIsolation.None (sh_isolation self).

(** [SecurityHeadersBlock::handle]. *)
Definition security_headers_handle (self : SecurityHeadersBlock) (msg : Message) : OutputStream :=
  let out_msg := set_meta msg "resp.header.X-Content-Type-Options" "nosniff" in
  let out_msg := set_meta out_msg "resp.header.X-Frame-Options"
                   (FrameAncestors.x_frame_options (effective_frame_ancestors self)) in
  let out_msg := set_meta out_msg "resp.header.Referrer-Policy" "strict-origin-when-cross-origin" in
  let out_msg := set_meta out_msg "resp.header.Content-Security-Policy" (effective_csp self) in
  let out_msg := set_meta out_msg "resp.header.Strict-Transport-Security" "max-age=31536000; includeSubDomains; preload" in
  let out_msg := set_meta out_msg "resp.header.Permissions-Policy" "camera=(), microphone=(), geolocation=()" in
  let out_msg := match CrossOriginIsolation.coep_value (effective_isolation self) with
                 | Some coep =>
                     let out_msg := set_meta out_msg "resp.header.Cross-Origin-Opener-Policy" "same-origin" in
                     set_meta out_msg "resp.header.Cross-Origin-Embedder-Policy" coep
                 | None => out_msg
                 end in
  continue_with out_msg.

(** *** The configured policy *)

(** The hexadecimal digits of a number, at least [w] of them. *)
Definition hex_digit (n : N) : ascii := ascii_of_N (if (n <? 10)%N then 48 + n else 55 + n).
Fixpoint hex_digits (w : nat) (n : N) : string :=
  match w with
  | 0 => EmptyString
  | S w => hex_digits w (n / 16) +:+ String (hex_digit (n mod 16)) ""
  end.
Definition hex_04 (n : N) : string :=
  hex_digits (if (n <? 65536)%N then 4 else if (n <? 1048576)%N then 5 else 6) n.

(** The bytes of the first character of a text, and its code point. *)
Definition is_continuation (b : ascii) : bool := in_range 128 191 b.
Definition first_char (s : string) : string :=
  match s with
  | EmptyString => EmptyString
  | String b s => String b (split_at_byte (fun b => negb (is_continuation b)) s).1
  end.
Fixpoint code_point_rest (acc : N) (s : string) : N :=
  match s with EmptyString => acc | String b s => code_point_rest (acc * 64 + (byte_of b - 128)) s end.
Definition code_point (c : string) : N :=
  match c with
  | EmptyString => 0
  | String b s =>
      let lead := byte_of b in
      code_point_rest (if lead <? 128 then lead else if lead <? 224 then lead - 192
                       else if lead <? 240 then lead - 224 else lead - 240)%N s
  end.

(** A byte of a character that a policy may hold. *)
Definition is_policy_byte (c : ascii) : bool := in_range 33 126 c || is_ascii_whitespace c.

Section Block.
  Context `{SameOrigin} `{CharDebug} `{JsonCrate}.

(** [check_csp_characters]. *)
Definition check_csp_characters (csp : string) : result unit WaferError :=
  let '(before, rest) := split_at_byte (fun c => negb (is_policy_byte c)) csp in
  match rest with
  | EmptyString => Ok tt
  | _ =>
      let c := first_char rest in
      Err (error_new ErrorCode.InvalidArgument
             ("security-headers: `csp` config has " +:+ char_debug c +:+ " (U+" +:+ hex_04 (code_point c)
              +:+ ") at byte " +:+ pretty (String.length before)
              +:+ "; a Content-Security-Policy may only contain visible ASCII and spaces"))
  end.

(** [allow_blob_workers]. *)
Definition allow_blob_workers (config : BlockConfig) : result bool WaferError :=
  match block_config_get config "allow_blob_workers" with
  | None => Ok false
  | Some _ =>
      match config_bool config "allow_blob_workers" with
      | Some b => Ok b
      | None => Err (error_new ErrorCode.InvalidArgument
                       "security-headers: `allow_blob_workers` must be true or false")
      end
  end.

(** The directives of a policy text. *)
Definition policy_pieces (csp : string) : list string :=
  List.filter (fun d => negb (is_empty d)) (map trim (split ";" csp)).

Definition sources_of (directives : list (string * list string)) (name : string) : option (list string) :=
  option_map snd (List.find (fun d => d.1 =s name) directives).

(** Add [blob:] to the first [worker-src]. *)
Fixpoint add_blob (directives : list (string * list string)) : list (string * list string) :=
  match directives with
  | [] => []
  | d :: directives =>
      if d.1 =s "worker-src"
      then (d.1, if list_has d.2 "blob:" then d.2 else d.2 ++ ["blob:"]) :: directives
      else d :: add_blob directives
  end.

(** The list half of [with_blob_workers]. *)
Definition blob_workers (directives : list (string * list string)) : list (string * list string) :=
  if existsb (fun d => d.1 =s "worker-src") directives then add_blob directives
  else
    let sources := default [] (find_map (sources_of directives) ["child-src"; "script-src"; "default-src"]) in
    directives ++ [("worker-src", sources ++ ["blob:"])].

(** [with_blob_workers]. *)
Definition with_blob_workers (csp : string) : string :=
  let directives := map (fun d => match split_ascii_whitespace d with
                                  | [] => ("", [])
                                  | name :: tokens => (name, tokens)
                                  end) (policy_pieces csp) in
  join "; " (map directive_text (blob_workers directives)).

(** [with_frame_ancestors]. *)
Definition with_frame_ancestors (csp : string) (fa : FrameAncestors.t) : string :=
  join "; " (map (fun d => match split_ascii_whitespace d with
                           | name :: _ => if name =s "frame-ancestors"
                                          then "frame-ancestors " +:+ FrameAncestors.csp_source fa else d
                           | [] => d
                           end) (policy_pieces csp)).

(** The settings [Init] reads, and the policy it composes. *)
Definition cfg_frame_ancestors (config : BlockConfig) : FrameAncestors.t :=
  if config_str_or config "frame_ancestors" "none" =s "self" then FrameAncestors.SelfOrigin else FrameAncestors.None.
Definition cfg_isolation (config : BlockConfig) : CrossOriginIsolation.t :=
  let v := config_str_or config "cross_origin_isolation" "none" in
  if v =s "credentialless" then CrossOriginIsolation.Credentialless
  else if v =s "require-corp" then CrossOriginIsolation.RequireCorp
  else CrossOriginIsolation.None.
Definition composed_csp (custom : string) (blob : bool) (fa : FrameAncestors.t) : string :=
  let merged := cm_policy (merge_csp DEFAULT_CSP custom) in
  with_frame_ancestors (if blob then with_blob_workers merged else merged) fa.

(** [SecurityHeadersBlock::lifecycle]. *)
Definition security_headers_lifecycle (self : SecurityHeadersBlock) (event : LifecycleEvent)
  : SecurityHeadersBlock * result unit WaferError :=
  match event_type event with
  | LifecycleType.Init =>
      let config := from_event event in
      let frame_ancestors := cfg_frame_ancestors config in
      match allow_blob_workers config with
      | Err e => (self, Err e)
      | Ok blob =>
          let custom_csp := config_str_or config "csp" "" in
          match check_csp_characters custom_csp with
          | Err e => (self, Err e)
          | Ok _ =>
              (mkSecurityHeaders
                 (once_set (sh_csp self) (composed_csp custom_csp blob frame_ancestors))
                 (once_set (sh_frame_ancestors self) frame_ancestors)
                 (once_set (sh_isolation self) (cfg_isolation config)), Ok tt)
          end
      end
  | _ => (self, Ok tt)
  end.
End Block.
