(* ===== verification/CspProps.v ===== *)
(** Properties of the security-headers block: the policy it sends reads back as
    the merged directives, no script directive admits more than named hosts,
    nonces, hashes and safe keywords, and the two framing headers agree. *)

From stdpp Require Import sorting pretty.
From S2P Require Import Prelude CoreTypes Text FlowTypes Lifecycle Requests Streams RestrictiveHeaders RestrictiveFacts ConfigExpand Csp.

(** ** Texts *)

Lemma list_has_elem (l : list string) (x : string) : list_has l x = true <-> x ∈ l.
Proof.
  unfold list_has. rewrite existsb_exists, list_elem_of_In. split.
  - intros (y & Hy & ->%eqs_true). done.
  - intros Hx. exists x. split; [done|apply eqs_refl].
Qed.

Lemma split_at_byte_spec (p : ascii -> bool) (s l r : string) :
  split_at_byte p s = (l, r) ->
  s = l +:+ r /\ str_forallb (fun a => negb (p a)) l = true
  /\ (r = "" \/ exists a r', r = String a r' /\ p a = true).
Proof.
  revert l. induction s as [|a s IH]; intros l; cbn.
  - intros [= <- <-]. split_and!; [done|done|by left].
  - destruct (p a) eqn:E.
    + intros [= <- <-]. split_and!; [done|done|right; eauto].
    + destruct (split_at_byte p s) as [l' r'] eqn:Es. intros [= <- ->].
      destruct (IH l' eq_refl) as (-> & Hl & Hr). cbn. rewrite E. by split_and!.
Qed.

Lemma split_once_str_Some (p s l r : string) : split_once_str p s = Some (l, r) -> s = l +:+ p +:+ r.
Proof.
  unfold split_once_str. destruct (find p s) as [i|] eqn:E; [|done]. intros [= <- <-].
  apply find_Some in E as (a & b & -> & <-). rewrite str_take_app. f_equal.
  rewrite str_drop_app_plus. by rewrite str_drop_app.
Qed.

(** Pieces joined by [; ] are split again. *)
Lemma split_join_pieces (p : string) (ps : list string) :
  Forall (lacks ";") (p :: ps) -> split ";" (join "; " (p :: ps)) = p :: map (String " ") ps.
Proof.
  revert p. induction ps as [|q ps IH]; intros p [Hp Hps]%Forall_cons.
  - cbn. by apply split_no_sep.
  - change (join "; " (p :: q :: ps)) with (p +:+ String ";" (String " " (join "; " (q :: ps)))).
    rewrite split_app_sep by done. f_equal. cbn [split]. rewrite IH by done. reflexivity.
Qed.

(** ** Directives that serialize faithfully *)

Definition word (s : string) : Prop := s <> "" /\ no_ws s /\ lacks ";" s /\ str_forallb solid s = true.

Definition wf_dir (d : string * list string) : Prop :=
  is_directive_name d.1 = true /\ to_ascii_lowercase d.1 = d.1
  /\ Forall (fun s => s <> "" /\ is_value_token s = true) d.2.

Lemma str_forallb_word (p : ascii -> bool) (s : string) :
  s <> "" -> str_forallb p s = true ->
  (forall a, p a = true -> negb (is_ascii_whitespace a) = true /\ negb (Ascii.eqb a ";") = true /\ solid a = true) ->
  word s.
Proof.
  intros Hne Hs Hp. split_and!; [done|..]; (eapply str_forallb_impl; [|exact Hs]); intros a Ha; apply (Hp a Ha).
Qed.

Lemma name_word (s : string) : is_directive_name s = true -> word s.
Proof.
  unfold is_directive_name. intros [Hne Hs]%andb_true_iff. apply (str_forallb_word is_name_byte).
  - by intros ->.
  - done.
  - intros a. destruct a as [[] [] [] [] [] [] [] []]; by vm_compute.
Qed.

Lemma value_word (s : string) : s <> "" -> is_value_token s = true -> word s.
Proof.
  intros Hne Hs. apply (str_forallb_word is_value_byte); [done|done|].
  intros a. destruct a as [[] [] [] [] [] [] [] []]; by vm_compute.
Qed.

Lemma wf_words (d : string * list string) : wf_dir d -> Forall word (d.1 :: d.2).
Proof.
  intros (Hn & _ & Hs). constructor; [by apply name_word|].
  eapply Forall_impl; [exact Hs|]. intros s [? ?]. by apply value_word.
Qed.

Lemma directive_text_join (d : string * list string) : directive_text d = join " " (d.1 :: d.2).
Proof. by destruct d as [n [|x l]]. Qed.

Lemma directive_tokens (d : string * list string) :
  wf_dir d -> split_ascii_whitespace (directive_text d) = d.1 :: d.2.
Proof.
  intros Hw%wf_words. rewrite directive_text_join. apply split_ws_join.
  eapply Forall_impl; [exact Hw|]. by intros s (? & ? & _).
Qed.

Lemma directive_lacks (d : string * list string) : wf_dir d -> lacks ";" (directive_text d).
Proof.
  intros Hw%wf_words. rewrite directive_text_join. apply join_lacks; [done|].
  eapply Forall_impl; [exact Hw|]. by intros s (_ & _ & ? & _).
Qed.

Lemma solid_word (s : string) : s <> "" -> str_forallb solid s = true -> solid_ends s.
Proof.
  intros Hne Hs. split.
  - destruct s as [|a s]; [done|]. cbn in Hs. apply andb_true_iff in Hs as [Ha _]. eauto.
  - induction s as [|a s IH]; [done|]. cbn in Hs. apply andb_true_iff in Hs as [Ha Hs].
    destruct s as [|b s]; [by exists a, ""|].
    destruct IH as (c & s' & E & Hc); [done|done|]. exists c, (String a s'). by rewrite E.
Qed.

Lemma join_solid (w : string) (ws : list string) : Forall word (w :: ws) -> solid_ends (join " " (w :: ws)).
Proof.
  revert w. induction ws as [|w' ws IH]; intros w [(Hne & _ & _ & Hw) Hws]%Forall_cons; [by apply solid_word|].
  change (join " " (w :: w' :: ws)) with (w +:+ " " +:+ join " " (w' :: ws)).
  apply solid_ends_app; [by apply solid_word|by apply IH].
Qed.

Lemma directive_solid (d : string * list string) : wf_dir d -> solid_ends (directive_text d).
Proof. intros Hw%wf_words. rewrite directive_text_join. by apply join_solid. Qed.

Lemma solid_ends_ne (s : string) : solid_ends s -> is_empty s = false.
Proof. by intros [(a & s' & -> & _) _]. Qed.

(** The text of a list of directives. *)
Definition policy_text (l : list (string * list string)) : string := join "; " (map directive_text l).

Lemma policy_pieces_text (l : list (string * list string)) :
  Forall wf_dir l -> policy_pieces (policy_text l) = map directive_text l.
Proof.
  intros Hl. unfold policy_pieces, policy_text. destruct l as [|d l]; [done|]. cbn [map].
  rewrite split_join_pieces.
  2: { apply Forall_cons in Hl as [Hd Hl]. constructor; [by apply directive_lacks|].
       apply Forall_map. eapply Forall_impl; [exact Hl|]. apply directive_lacks. }
  cbn [map]. rewrite map_map. rewrite (map_ext (fun x => trim (String " " x)) trim) by reflexivity.
  rewrite <- (map_cons trim), <- (map_cons directive_text). clear -Hl.
  induction Hl as [|d' l' Hd _ IH]; [done|]. cbn. pose proof (directive_solid _ Hd) as Hs.
  rewrite trim_solid, solid_ends_ne by done. cbn. by rewrite IH.
Qed.

(** ** Reading a policy back *)

Lemma keep_tokens_eq (written : string) (tokens acc : list string) (r : list Refusal) :
  exists r', fold_left (fun '(sources, refused) token =>
    if is_value_token token then (sources ++ [token], refused)
    else (sources, refused ++ [mkRefusal written (Some token)
                                 "not a valid CSP token (comma, control or non-ASCII character)"])) tokens (acc, r)
    = (acc ++ List.filter is_value_token tokens, r') /\ (Forall (fun t => is_value_token t = true) tokens -> r' = r).
Proof.
  revert acc r. induction tokens as [|t tokens IH]; intros acc r; cbn.
  - exists r. by rewrite app_nil_r.
  - destruct (is_value_token t) eqn:E.
    + destruct (IH (acc ++ [t]) r) as (r' & -> & Hr). exists r'. rewrite <- app_assoc. split; [done|].
      intros [_ ?]%Forall_cons. auto.
    + destruct (IH acc (r ++ [mkRefusal written (Some t) "not a valid CSP token (comma, control or non-ASCII character)"]))
        as (r' & -> & _). exists r'. split; [done|]. intros [Ht _]%Forall_cons. congruence.
Qed.

Lemma filter_all {A} (f : A -> bool) (l : list A) : Forall (fun x => f x = true) l -> List.filter f l = l.
Proof. induction 1 as [|x l Hx _ IH]; [done|]. cbn. by rewrite Hx, IH. Qed.

Lemma parse_directive_text (out : Directives) (r : list Refusal) (d : string * list string) :
  wf_dir d -> out !! d.1 = None -> parse_directive (out, r) (directive_text d) = (<[d.1 := d.2]> out, r).
Proof.
  intros Hw Hout. unfold parse_directive. rewrite directive_tokens by done. destruct Hw as (Hn & Hl & Hs).
  rewrite Hn. cbn [negb]. cbv zeta. rewrite Hl. case_bool_decide as Hb; [rewrite Hout in Hb; by destruct Hb|]. unfold keep_tokens.
  assert (Hv : Forall (fun t => is_value_token t = true) d.2) by (eapply Forall_impl; [exact Hs|]; by intros ? [_ ?]).
  destruct (keep_tokens_eq d.1 d.2 [] r) as (r' & -> & Hr). rewrite Hr by done.
  cbn. rewrite filter_all by done. by destruct d.2.
Qed.

Lemma parse_texts (l : list (string * list string)) (out : Directives) (r : list Refusal) :
  Forall wf_dir l -> NoDup l.*1 -> (forall k, k ∈ l.*1 -> out !! k = None) ->
  exists out', fold_left parse_directive (map directive_text l) (out, r) = (out', r)
  /\ forall k, out' !! k = match assoc k l with Some v => Some v | None => out !! k end.
Proof.
  revert out. induction l as [|d l IH]; intros out Hw Hn Ho; [by exists out|].
  apply Forall_cons in Hw as [Hd Hw]. cbn in Hn. apply NoDup_cons in Hn as [Hnd Hn]. cbn [map fold_left].
  rewrite parse_directive_text; [|done|apply Ho; by left].
  destruct (IH (<[d.1 := d.2]> out)) as (out' & E & Hout'); [done|done|..].
  { intros k Hk. rewrite lookup_insert_ne; [apply Ho; by right|]. intros E. by rewrite <- E in Hk. }
  exists out'. split; [done|]. intros k. rewrite Hout'. destruct d as [n ss]. cbn [fst snd assoc] in *.
  destruct (n =s k) eqn:Ek.
  - apply eqs_true in Ek as ->. rewrite (assoc_key_none k l Hnd). by rewrite lookup_insert_eq.
  - apply eqs_false in Ek. by rewrite lookup_insert_ne.
Qed.

(** A text of distinct well-formed directives reads back as them. *)
Lemma parse_policy_text (l : list (string * list string)) (r : list Refusal) :
  Forall wf_dir l -> NoDup l.*1 ->
  exists D, csp_parse (policy_text l) r = (D, r) /\ forall k, D !! k = assoc k l.
Proof.
  intros Hw Hn. unfold csp_parse, policy_text.
  assert (E : fold_left parse_directive (split ";" (join "; " (map directive_text l))) (∅, r)
              = fold_left parse_directive (map directive_text l) (∅, r)).
  { destruct l as [|d l]; [done|]. cbn [map]. rewrite split_join_pieces.
    - cbn [fold_left]. generalize (parse_directive (∅, r) (directive_text d)).
      induction (map directive_text l) as [|p ps IH]; intros st; [done|]. cbn. apply IH.
    - apply Forall_cons in Hw as [Hd Hl]. constructor; [by apply directive_lacks|].
      apply Forall_map. eapply Forall_impl; [exact Hl|]. apply directive_lacks. }
  rewrite E. destruct (parse_texts l ∅ r Hw Hn) as (D & ED & HD); [intros k _; apply lookup_empty|].
  exists D. split; [done|]. intros k. rewrite HD, lookup_empty. by destruct (assoc k l).
Qed.

(** ** What parsing gives *)

(** Well-formed entries, each under its own name. *)
Definition wf_map (D : Directives) : Prop := forall k ss, D !! k = Some ss -> wf_dir (k, ss).

Lemma name_lower (s : string) : is_directive_name s = true -> is_directive_name (to_ascii_lowercase s) = true.
Proof.
  unfold is_directive_name, to_ascii_lowercase. intros [Hne Hs]%andb_true_iff. apply andb_true_iff. split; [by destruct s|].
  clear Hne. induction s as [|a s IH]; [done|]. cbn in *. apply andb_true_iff in Hs as [Ha Hs]. rewrite IH, andb_true_r by done.
  revert Ha. destruct a as [[] [] [] [] [] [] [] []]; by vm_compute.
Qed.

Lemma wf_insert (D : Directives) (k : string) (ss : list string) :
  wf_map D -> wf_dir (k, ss) -> wf_map (<[k := ss]> D).
Proof. intros HD Hk k' ss' [[<- <-]|[_ H]]%lookup_insert_Some; [done|by apply HD]. Qed.

Lemma split_ws_nonempty (s word : string) : Forall (fun w => w <> "") (split_ascii_whitespace_from word s).
Proof.
  revert word. induction s as [|a s IH]; intros word; cbn [split_ascii_whitespace_from].
  - destruct word; repeat constructor; done.
  - destruct (is_ascii_whitespace a); [|by apply IH]. apply Forall_app. split; [|apply IH].
    destruct word; repeat constructor; done.
Qed.

Lemma parse_directive_wf (D : Directives) (r : list Refusal) (raw : string) :
  wf_map D -> wf_map (parse_directive (D, r) raw).1.
Proof.
  intros HD. unfold parse_directive. pose proof (split_ws_nonempty raw "") as Hne.
  unfold split_ascii_whitespace. destruct (split_ascii_whitespace_from "" raw) as [|written tokens]; [done|].
  apply Forall_cons in Hne as [_ Hne]. destruct (is_directive_name written) eqn:En; [|done]. cbn [negb]. cbv zeta.
  case_bool_decide; [done|]. unfold keep_tokens.
  destruct (keep_tokens_eq written tokens [] r) as (r' & -> & _). cbn [app].
  assert (Hw : wf_dir (to_ascii_lowercase written, List.filter is_value_token tokens)).
  { split_and!; [by apply name_lower|apply lowercase_idem|]. cbn. rewrite List.Forall_forall.
    rewrite List.Forall_forall in Hne. intros s [Hin Hv]%filter_In. auto. }
  destruct tokens, (List.filter _ _); cbn; auto using wf_insert.
Qed.

Lemma csp_parse_wf (input : string) (r : list Refusal) : wf_map (csp_parse input r).1.
Proof.
  unfold csp_parse. assert (HD : wf_map ∅) by (intros k ss; by rewrite lookup_empty).
  revert HD. generalize (∅ : Directives). revert r.
  induction (split ";" input) as [|raw pieces IH]; intros r D HD; [done|]. cbn [fold_left].
  pose proof (parse_directive_wf D r raw HD) as Hw. destruct (parse_directive (D, r) raw) as [D' r']. by apply IH.
Qed.

(** A map serializes to a text that reads back as the same map. *)
Lemma serialize_text (D : Directives) : csp_serialize D = policy_text (sorted_entries D).
Proof. reflexivity. Qed.

Lemma wf_sorted (D : Directives) : wf_map D -> Forall wf_dir (sorted_entries D).
Proof. intros HD. apply Forall_forall. intros [k ss] Hin. by apply HD, sorted_entries_lookup. Qed.

Lemma parse_serialize (D : Directives) (r : list Refusal) : wf_map D -> csp_parse (csp_serialize D) r = (D, r).
Proof.
  intros HD. rewrite serialize_text.
  destruct (parse_policy_text (sorted_entries D) r) as (D' & -> & E); [by apply wf_sorted|apply sorted_entries_NoDup|].
  f_equal. apply map_eq. intros k. by rewrite E, assoc_sorted_entries.
Qed.

(** ** Merging *)

Lemma accept_eq (name : string) (rule : string -> option string) (sources acc : list string) (r : list Refusal) :
  exists r', fold_left (fun '(accepted, refused) source =>
    match rule source with
    | Some reason => (accepted, refused ++ [mkRefusal name (Some source) reason])
    | None => (accepted ++ [source], refused)
    end) sources (acc, r)
  = (acc ++ List.filter (fun s => negb (is_some (rule s))) sources, r').
Proof.
  revert acc r. induction sources as [|s sources IH]; intros acc r; cbn; [exists r; by rewrite app_nil_r|].
  destruct (rule s); cbn.
  - apply IH.
  - destruct (IH (acc ++ [s]) r) as (r' & ->). exists r'. by rewrite <- app_assoc.
Qed.

Lemma narrow_eq (name : string) (base sources acc : list string) (r : list Refusal) :
  exists r', fold_left (fun '(kept, refused) source =>
      if is_none_source source || existsb (fun b => eq_ignore_ascii_case b source) base
      then (kept ++ [source], refused)
      else (kept, refused ++ [mkRefusal name (Some source) "can only narrow the baseline for this directive"]))
      sources (acc, r)
  = (acc ++ List.filter (fun s => is_none_source s || existsb (fun b => eq_ignore_ascii_case b s) base) sources, r').
Proof.
  revert acc r. induction sources as [|s sources IH]; intros acc r; cbn; [exists r; by rewrite app_nil_r|].
  destruct (is_none_source s || _).
  - destruct (IH (acc ++ [s]) r) as (r' & ->). exists r'. by rewrite <- app_assoc.
  - apply IH.
Qed.

(** The list of a narrow-only directive: at most the baseline's. *)
Lemma narrow_list_spec (name : string) (base sources : list string) (r : list Refusal) (s : string) :
  s ∈ (narrow_list name base sources r).1 ->
  s ∈ base \/ s = "'none'" \/ (s ∈ sources /\ exists b, b ∈ base /\ eq_ignore_ascii_case b s = true).
Proof.
  unfold narrow_list. destruct (narrow_eq name base sources [] r) as (r' & ->). cbn [app].
  set (kept := List.filter _ sources). assert (Hk : s ∈ kept -> is_none_source s = true
    \/ (s ∈ sources /\ exists b, b ∈ base /\ eq_ignore_ascii_case b s = true)).
  { intros [Hin Hs]%list_elem_of_In%filter_In. apply orb_true_iff in Hs as [Hs|Hs]; [by left|right].
    split; [by apply list_elem_of_In|]. apply existsb_exists in Hs as (b & Hb & E). exists b. by rewrite list_elem_of_In. }
  destruct (existsb is_none_source kept) eqn:En; cbn.
  - intros ->%list_elem_of_singleton. by right; left.
  - assert (Hn : s ∈ kept -> is_none_source s = false).
    { intros Hin. destruct (is_none_source s) eqn:E; [|done]. exfalso. apply not_true_iff_false in En. apply En.
      apply existsb_exists. exists s. by rewrite <- list_elem_of_In. }
    destruct kept as [|x kept'] eqn:Ek; cbn; [by left|]. intros Hin. right. right.
    destruct (Hk Hin) as [E|?]; [|done]. rewrite (Hn Hin) in E. done.
Qed.

Lemma add_source_elem (l : list string) (x s : string) : s ∈ add_source l x -> s ∈ l \/ s = x.
Proof.
  unfold add_source. destruct (existsb _ l); [by left|]. destruct (is_none_source x).
  - destruct l; [intros ->%list_elem_of_singleton; by right|by left].
  - rewrite elem_of_app, list_elem_of_singleton, !list_elem_of_In, filter_In. naive_solver.
Qed.

Lemma add_sources_elem (acc l : list string) (s : string) : s ∈ fold_left add_source acc l -> s ∈ l \/ s ∈ acc.
Proof.
  revert l. induction acc as [|x acc IH]; intros l; cbn; [by left|]. intros [Hin|Hin]%IH.
  - apply add_source_elem in Hin as [?| ->]; [by left|right; by left].
  - right. by right.
Qed.

(** A source other than ['none'] is never dropped from a list that is added to. *)
Lemma add_source_keeps (l : list string) (x s : string) : is_none_source s = false -> s ∈ l -> s ∈ add_source l x.
Proof.
  intros Hn Hin. unfold add_source. destruct (existsb _ l); [done|]. destruct (is_none_source x).
  - destruct l; [by apply elem_of_nil in Hin|done].
  - apply elem_of_app. left. apply list_elem_of_In, filter_In. rewrite Hn. split; [by apply list_elem_of_In|done].
Qed.

Lemma add_sources_keep (acc l : list string) (s : string) :
  is_none_source s = false -> s ∈ l -> s ∈ fold_left add_source acc l.
Proof. revert l. induction acc as [|x acc IH]; intros l Hn Hin; cbn; auto using add_source_keeps. Qed.

Section Merge.
Context `{SameOrigin}.

(** Where the sources of a merged directive come from. *)
Lemma merge_directive_elem (M : Directives) (r : list Refusal) (d : string * list string) (k s : string) (ss : list string) :
  (merge_directive (M, r) d).1 !! k = Some ss -> s ∈ ss ->
  (exists old, M !! k = Some old /\ s ∈ old)
  \/ (k = d.1 /\ k <> FRAME_ANCESTORS /\
      (if list_has NARROW_ONLY_DIRECTIVES k && is_some (M !! k)
       then s = "'none'" \/ exists old b, M !! k = Some old /\ b ∈ old /\ s ∈ d.2 /\ eq_ignore_ascii_case b s = true
       else s ∈ d.2 /\ rule_of k s = None)).
Proof.
  destruct d as [name sources]. cbn [merge_directive fst snd].
  destruct (name =s FRAME_ANCESTORS) eqn:Ef; [intros; left; eauto|]. apply eqs_false in Ef.
  destruct (if list_has NARROW_ONLY_DIRECTIVES name then M !! name else None) as [base|] eqn:Eb.
  - destruct (list_has NARROW_ONLY_DIRECTIVES name) eqn:Hn; [|done].
    destruct (narrow_list name base sources r) as [base' r'] eqn:E. cbn [fst].
    intros [[<- <-]|[_ Hk]]%lookup_insert_Some Hin; [|left; eauto].
    pose proof (narrow_list_spec name base sources r s) as Hs. rewrite E in Hs. rewrite Hn, Eb. cbn [andb is_some].
    destruct (Hs Hin) as [?|[?|(? & b & ? & ?)]]; [left; eauto|right; eauto|right]. split_and!; [done|done|right; eauto 6].
  - assert (Hif : list_has NARROW_ONLY_DIRECTIVES name && is_some (M !! name) = false).
    { destruct (list_has _ name); [by rewrite Eb|done]. }
    destruct ((name =s REPORT_TO) && _); [intros; left; eauto|]. unfold accept.
    destruct (accept_eq name (rule_of name) sources [] r) as (r' & ->). cbn [app].
    set (acc := List.filter _ sources).
    assert (Hcase : forall D' : Directives, (D' = M \/ D' = <[name := fold_left add_source acc (default [] (M !! name))]> M) ->
      D' !! k = Some ss -> s ∈ ss -> (exists old, M !! k = Some old /\ s ∈ old) \/ (k = name /\ k <> FRAME_ANCESTORS /\
        (if list_has NARROW_ONLY_DIRECTIVES k && is_some (M !! k)
         then s = "'none'" \/ exists old b, M !! k = Some old /\ b ∈ old /\ s ∈ sources /\ eq_ignore_ascii_case b s = true
         else s ∈ sources /\ rule_of k s = None))).
    { intros D' [->| ->]; [intros; left; eauto|]. intros [[<- <-]|[_ Hk]]%lookup_insert_Some Hin; [|left; eauto].
      apply add_sources_elem in Hin as [Hin|Hin].
      - left. destruct (M !! name) as [old|]; [eauto|by apply elem_of_nil in Hin].
      - right. rewrite Hif. apply list_elem_of_In, filter_In in Hin as [Hin Hr].
        split_and!; [done|done|by apply list_elem_of_In|by destruct (rule_of name s)]. }
    destruct acc as [|x acc'] eqn:Ea, sources as [|y sources'] eqn:Es, (M !! name) as [old|] eqn:Em; cbn [fst];
      (apply Hcase; first [by left|by right; rewrite ?Em]).
Qed.
End Merge.

(** ** Script sources *)

(** One named host: labels of letters, digits and hyphens. *)
Definition exact_host (host : string) : Prop :=
  exists labels, labels <> [] /\ host = join "." labels
  /\ Forall (fun l => l <> "" /\ str_forallb is_name_byte l = true) labels.

Definition port_ok (port : string) : Prop :=
  port = "" \/ port = ":*" \/ exists d, port = ":" +:+ d /\ d <> "" /\ str_forallb is_ascii_digit d = true.

(** What a script directive may list, in lower case: safe keywords, nonces and
    hashes, and one named host over https (or the page's own scheme). *)
Inductive safe_script_source : string -> Prop :=
| safe_keyword k : k ∈ SAFE_KEYWORDS -> safe_script_source k
| safe_value p v : p ∈ VALUE_PREFIXES -> is_base64_value v = true -> safe_script_source ("'" +:+ p +:+ v +:+ "'")
| safe_host scheme host port path :
    scheme = "" \/ scheme = "https://" -> exact_host host -> port_ok port ->
    path = "" \/ (exists p, path = "/" +:+ p) ->
    safe_script_source (scheme +:+ host +:+ port +:+ path).

Lemma find_map_Some {A B} (f : A -> option B) (l : list A) (b : B) :
  find_map f l = Some b -> exists a, a ∈ l /\ f a = Some b.
Proof.
  induction l as [|x l IH]; [done|]. cbn. destruct (f x) eqn:E.
  - intros [= ->]. exists x. split; [by left|done].
  - intros H. destruct (IH H) as (a & Hin & Ha). exists a. split; [by right|done].
Qed.

Lemma host_labels_exact (s : string) : is_host_labels s = true -> exact_host s.
Proof.
  unfold is_host_labels. intros [_ Hl]%andb_true_iff. exists (split "." s).
  split_and!; [apply split_not_nil|by rewrite join_split|].
  rewrite List.Forall_forall. rewrite forallb_forall in Hl. intros l Hin. apply Hl in Hin.
  apply andb_true_iff in Hin as [Hne Hl']. split; [by intros ->|done].
Qed.

Lemma keyword_safe (s : string) : keyword_refusal s = None -> safe_script_source s.
Proof.
  unfold keyword_refusal. destruct (list_has SAFE_KEYWORDS s) eqn:E; [intros _; by apply safe_keyword, list_has_elem|].
  destruct (s =s "'unsafe-eval'"); [done|]. destruct (strip_prefix "'" s) as [x|] eqn:E1; [|done].
  destruct (strip_suffix "'" x) as [inner|] eqn:E2; [|done].
  destruct (find_map _ _) as [v|] eqn:E3; [|done]. destruct (is_base64_value v) eqn:Ev; [|done]. intros _.
  apply strip_prefix_Some in E1 as ->. apply strip_suffix_Some in E2 as ->.
  apply find_map_Some in E3 as (p & Hp & Ep). apply strip_prefix_Some in Ep as ->.
  rewrite <- str_app_assoc. by apply safe_value.
Qed.

(** The text of a host source. *)
Lemma parse_source_host (s : string) (scheme : option string) :
  parse_source s = Source.Host scheme Host.Exact ->
  exists host port path, s = match scheme with Some sc => sc +:+ "://" | None => "" end +:+ host +:+ port +:+ path
  /\ exact_host host /\ port_ok port /\ (path = "" \/ exists p, path = "/" +:+ p).
Proof.
  unfold parse_source. destruct (s =s "*"); [done|]. destruct (strip_suffix ":" s) as [sc|]; [by destruct (is_scheme sc)|].
  set (split_scheme := match split_once_str "://" s with
            | Some (scheme, rest) => if is_scheme scheme then Some (Some scheme, rest) else None
            | None => Some (None, s) end).
  assert (Hsplit : forall sc rest, split_scheme = Some (sc, rest) ->
    s = match sc with Some sc => sc +:+ "://" | None => "" end +:+ rest).
  { intros sc rest. unfold split_scheme. destruct (split_once_str "://" s) as [[l r]|] eqn:E.
    - apply split_once_str_Some in E. destruct (is_scheme l); [|done]. intros [= <- <-]. by rewrite <- str_app_assoc.
    - by intros [= <- <-]. }
  destruct split_scheme as [[sc rest]|]; [|done]. rewrite (Hsplit sc rest eq_refl).
  destruct (split_at_byte _ rest) as [host after] eqn:Eh. apply split_at_byte_spec in Eh as (-> & _ & _).
  destruct (source_path after) as [path|] eqn:Ep; [|done].
  destruct (is_empty path || starts_with "/" path) eqn:Epath; cbn [negb]; [|done].
  destruct (host =s "*"); [done|]. destruct (strip_prefix "*." host); [by destruct (is_host_labels _)|].
  destruct (is_host_labels host) eqn:Ehl; [|done]. intros [= ->].
  assert (Hport : exists port, after = port +:+ path /\ port_ok port).
  { unfold source_path in Ep. destruct (strip_prefix ":" after) as [pp|] eqn:E.
    - apply strip_prefix_Some in E as ->. destruct (split_at_byte _ pp) as [port path'] eqn:E.
      apply split_at_byte_spec in E as (-> & _ & _).
      destruct (port =s "*") eqn:Es; cbn [negb andb] in Ep.
      + injection Ep as <-. apply eqs_true in Es as ->. exists ":*". split; [done|by right; left].
      + destruct (is_empty port || negb (str_forallb is_ascii_digit port)) eqn:Ed; [done|]. injection Ep as <-.
        apply orb_false_iff in Ed as [Ene Ed]. exists (":" +:+ port). split; [done|]. right. right. exists port.
        split_and!; [done|by intros ->|by apply negb_false_iff].
    - injection Ep as <-. exists "". split; [done|by left]. }
  destruct Hport as (port & -> & Hport). exists host, port, path. split_and!; [done|by apply host_labels_exact|done|].
  apply orb_true_iff in Epath as [E|E]; [left; by apply is_empty_spec|right; by apply starts_with_spec].
Qed.

Lemma script_source_safe (source : string) :
  script_source_refusal source = None -> safe_script_source (to_ascii_lowercase source).
Proof.
  unfold script_source_refusal. destruct (starts_with "'" (to_ascii_lowercase source)); [apply keyword_safe|].
  destruct (parse_source (to_ascii_lowercase source)) as [| |scheme host|] eqn:E; try done.
  destruct host; try by destruct scheme. intros Hr.
  apply parse_source_host in E as (host & port & path & -> & Hh & Hp & Hpath).
  apply safe_host; [|done..]. destruct scheme as [sc|]; [|by left].
  destruct (sc =s "https") eqn:Es; [|done]. apply eqs_true in Es as ->. by right.
Qed.

(** ** The merged policy *)

Section Merged.
Context `{SameOrigin}.

(** Every script source of a map is safe. *)
Definition script_ok (D : Directives) : Prop :=
  forall k ss s, D !! k = Some ss -> k ∈ SCRIPT_DIRECTIVES -> s ∈ ss -> script_source_refusal s = None.

Lemma rule_of_script (k : string) : k ∈ SCRIPT_DIRECTIVES -> rule_of k = script_source_refusal.
Proof. intros Hk%list_has_elem. unfold rule_of. by rewrite Hk. Qed.

Lemma script_not_narrow (k : string) : k ∈ SCRIPT_DIRECTIVES -> list_has NARROW_ONLY_DIRECTIVES k = false.
Proof. intros Hk. repeat (apply elem_of_cons in Hk as [->|Hk]; [reflexivity|]). by apply elem_of_nil in Hk. Qed.

Lemma merge_directive_script (M : Directives) (r : list Refusal) (d : string * list string) :
  script_ok M -> script_ok (merge_directive (M, r) d).1.
Proof.
  intros HM k ss s Hk Hs Hin. destruct (merge_directive_elem M r d k s ss Hk Hin) as [(old & Ho & Hin')|(-> & _ & Hc)].
  - by eapply HM.
  - rewrite script_not_narrow, rule_of_script in Hc by done. by destruct Hc.
Qed.

(** A directive of the map: it exists, and holds at least these sources. *)
Definition keeps (D : Directives) (k : string) (base : list string) : Prop :=
  exists ss, D !! k = Some ss /\ forall s, s ∈ base -> is_none_source s = false -> s ∈ ss.

Lemma merge_directive_keeps (M : Directives) (r : list Refusal) (d : string * list string) (k : string) (base : list string) :
  list_has NARROW_ONLY_DIRECTIVES k = false -> keeps M k base -> keeps (merge_directive (M, r) d).1 k base.
Proof.
  intros Hn (old & Hold & Hkeep). assert (HM : keeps M k base) by (exists old; done).
  destruct d as [name sources]. cbn [merge_directive]. destruct (name =s FRAME_ANCESTORS); [done|].
  destruct (if list_has NARROW_ONLY_DIRECTIVES name then M !! name else None) as [b|] eqn:Eb.
  - destruct (narrow_list name b sources r) as [b' r']. cbn [fst]. exists old. split; [|done].
    rewrite lookup_insert_ne; [done|]. intros ->. by rewrite Hn in Eb.
  - destruct ((name =s REPORT_TO) && _); [done|]. destruct (accept name (rule_of name) sources r) as [acc r'].
    assert (Hins : keeps (<[name := fold_left add_source acc (default [] (M !! name))]> M) k base).
    { destruct (decide (name = k)) as [->|Hne].
      - eexists. split; [apply lookup_insert_eq|]. rewrite Hold. intros s Hs Hns. apply add_sources_keep; [done|]. by apply Hkeep.
      - exists old. by rewrite lookup_insert_ne. }
    destruct acc, sources, (M !! name); cbn [fst]; done.
Qed.

(** A narrow-only directive of the baseline: only narrower. *)
Definition narrowed (D : Directives) (k : string) (base : list string) : Prop :=
  exists ss, D !! k = Some ss
  /\ forall s, s ∈ ss -> is_none_source s = true \/ exists b, b ∈ base /\ eq_ignore_ascii_case b s = true.

Lemma eq_ignore_case_trans (a b c : string) :
  eq_ignore_ascii_case a b = true -> eq_ignore_ascii_case b c = true -> eq_ignore_ascii_case a c = true.
Proof. unfold eq_ignore_ascii_case. rewrite !eqs_true. congruence. Qed.

Lemma merge_directive_narrowed (M : Directives) (r : list Refusal) (d : string * list string) (k : string) (base : list string) :
  k ∈ NARROW_ONLY_DIRECTIVES -> narrowed M k base -> narrowed (merge_directive (M, r) d).1 k base.
Proof.
  intros Hk (old & Hold & Hs).
  assert (Hex : exists ss, (merge_directive (M, r) d).1 !! k = Some ss).
  { destruct d as [name sources]. cbn [merge_directive]. destruct (name =s FRAME_ANCESTORS); [by exists old|].
    destruct (if list_has NARROW_ONLY_DIRECTIVES name then M !! name else None) as [b|].
    - destruct (narrow_list name b sources r) as [b' r']. cbn [fst].
      destruct (decide (name = k)) as [->|]; [by rewrite lookup_insert_eq; eauto|by rewrite lookup_insert_ne; eauto].
    - destruct ((name =s REPORT_TO) && _); [by eauto|]. destruct (accept name (rule_of name) sources r) as [acc r'].
      assert (Hins : exists ss, <[name := fold_left add_source acc (default [] (M !! name))]> M !! k = Some ss).
      { destruct (decide (name = k)) as [->|]; [by rewrite lookup_insert_eq; eauto|by rewrite lookup_insert_ne; eauto]. }
      destruct acc, sources, (M !! name); cbn [fst]; eauto. }
  destruct Hex as [ss Hss]. exists ss. split; [done|]. intros s Hin.
  destruct (merge_directive_elem M r d k s ss Hss Hin) as [(old' & Ho & Hin')|(_ & _ & Hc)].
  - rewrite Hold in Ho. injection Ho as <-. by apply Hs.
  - apply list_has_elem in Hk. rewrite Hk, Hold in Hc. cbn [andb is_some] in Hc.
    destruct Hc as [->|(old' & b & Ho & Hb & _ & E)]; [by left|]. injection Ho as <-.
    destruct (Hs b Hb) as [Hb'|(b' & Hb' & E')].
    + left. unfold is_none_source, eq_ignore_ascii_case in *. rewrite eqs_true in *. congruence.
    + right. exists b'. split; [done|]. by eapply eq_ignore_case_trans.
Qed.
(** Names: the map's, and the directive's own. *)
Lemma merge_directive_dom (M : Directives) (r : list Refusal) (d : string * list string) (k : string) :
  (merge_directive (M, r) d).1 !! k = M !! k \/ (k = d.1 /\ k <> FRAME_ANCESTORS).
Proof.
  destruct (decide (k = d.1 /\ k <> FRAME_ANCESTORS)) as [|Hn]; [by right|left].
  destruct d as [name sources]. cbn [merge_directive fst] in *. destruct (name =s FRAME_ANCESTORS) eqn:Ef; [done|].
  apply eqs_false in Ef. assert (Hk : name <> k) by (intros ->; by apply Hn).
  destruct (if list_has NARROW_ONLY_DIRECTIVES name then M !! name else None) as [b|].
  - destruct (narrow_list name b sources r) as [b' r']. cbn [fst]. by rewrite lookup_insert_ne.
  - destruct ((name =s REPORT_TO) && _); [done|]. destruct (accept name (rule_of name) sources r) as [acc r'].
    destruct acc, sources, (M !! name); cbn [fst]; rewrite ?lookup_insert_ne by done; done.
Qed.

Lemma merge_directive_wf (M : Directives) (r : list Refusal) (d : string * list string) :
  wf_map M -> wf_dir d -> wf_map (merge_directive (M, r) d).1.
Proof.
  intros HM Hd k ss Hk.
  assert (Hname : is_directive_name k = true /\ to_ascii_lowercase k = k).
  { destruct (merge_directive_dom M r d k) as [E|[-> _]].
    - rewrite E in Hk. apply HM in Hk. by destruct Hk as (? & ? & _).
    - by destruct Hd as (? & ? & _). }
  destruct Hname as [Hn Hl]. split_and!; [done|done|]. cbn [snd]. apply Forall_forall. intros s Hin.
  assert (Hsrc : s ∈ d.2 -> s <> "" /\ is_value_token s = true).
  { destruct Hd as (_ & _ & Hd). rewrite Forall_forall in Hd. apply Hd. }
  destruct (merge_directive_elem M r d k s ss Hk Hin) as [(old & Ho & Hin')|(_ & _ & Hc)].
  - apply HM in Ho as (_ & _ & Ho). cbn in Ho. rewrite Forall_forall in Ho. by apply Ho.
  - destruct (_ && _) in Hc; [|destruct Hc; auto]. destruct Hc as [->|(? & ? & _ & _ & ? & _)]; [by vm_compute|auto].
Qed.

(** An invariant of the merge holds of its result. *)
Lemma merge_ind (P : Directives -> Prop) (l : list (string * list string)) (M : Directives) (r : list Refusal) :
  Forall wf_dir l -> (forall M r d, wf_dir d -> P M -> P (merge_directive (M, r) d).1) -> P M ->
  P (fold_left merge_directive l (M, r)).1.
Proof.
  intros Hl Hstep. revert M r. induction Hl as [|d l Hd _ IH]; intros M r HM; [done|]. cbn [fold_left].
  pose proof (Hstep M r d Hd HM) as HM'. destruct (merge_directive (M, r) d) as [M' r']. by apply IH.
Qed.

Lemma merge_directives_ind (P : Directives -> Prop) (baseline custom : string) :
  P (csp_parse baseline []).1 -> (forall M r d, wf_dir d -> P M -> P (merge_directive (M, r) d).1) ->
  P (merge_directives baseline custom).1.
Proof.
  intros HP Hstep. unfold merge_directives. destruct (csp_parse baseline []) as [M r].
  pose proof (csp_parse_wf custom r) as Hw. destruct (csp_parse custom r) as [D r'].
  apply merge_ind; [by apply wf_sorted|done|done].
Qed.

Lemma merge_directives_wf (baseline custom : string) : wf_map (merge_directives baseline custom).1.
Proof. apply merge_directives_ind; [apply csp_parse_wf|]. intros M r d Hd HM. by apply merge_directive_wf. Qed.

(** ** The composed policy *)

(** What [frame_ancestors] does to a list of directives. *)
Definition set_ancestors (fa : FrameAncestors.t) (l : list (string * list string)) : list (string * list string) :=
  map (fun d => if d.1 =s FRAME_ANCESTORS then (FRAME_ANCESTORS, [FrameAncestors.csp_source fa]) else d) l.

Lemma with_blob_workers_text (l : list (string * list string)) :
  Forall wf_dir l -> with_blob_workers (policy_text l) = policy_text (blob_workers l).
Proof.
  intros Hl. unfold with_blob_workers. rewrite policy_pieces_text by done. unfold policy_text. do 2 f_equal. f_equal.
  rewrite map_map. induction Hl as [|d l Hd _ IH]; [done|]. cbn [map]. rewrite directive_tokens, IH by done. by destruct d.
Qed.

Lemma with_frame_ancestors_text (fa : FrameAncestors.t) (l : list (string * list string)) :
  Forall wf_dir l -> with_frame_ancestors (policy_text l) fa = policy_text (set_ancestors fa l).
Proof.
  intros Hl. unfold with_frame_ancestors. rewrite policy_pieces_text by done. unfold policy_text, set_ancestors. f_equal.
  rewrite !map_map. induction Hl as [|d l Hd _ IH]; [done|]. cbn [map]. rewrite directive_tokens, IH by done. f_equal.
  by destruct (d.1 =s "frame-ancestors") eqn:E; unfold FRAME_ANCESTORS; rewrite E.
Qed.

Lemma set_ancestors_ok (fa : FrameAncestors.t) (l : list (string * list string)) :
  Forall wf_dir l -> NoDup l.*1 ->
  Forall wf_dir (set_ancestors fa l) /\ NoDup (set_ancestors fa l).*1
  /\ forall k, assoc k (set_ancestors fa l)
       = if k =s FRAME_ANCESTORS then option_map (fun _ => [FrameAncestors.csp_source fa]) (assoc k l) else assoc k l.
Proof.
  intros Hl Hn. assert (Hkeys : (set_ancestors fa l).*1 = l.*1).
  { clear. unfold set_ancestors. induction l as [|[n ss] l IH]; [done|]. cbn.
    destruct (n =s FRAME_ANCESTORS) eqn:E; cbn; [apply eqs_true in E as ->|]; f_equal; exact IH. }
  rewrite Hkeys. split_and!; [|done|].
  - clear Hn Hkeys. induction Hl as [|d l Hd _ IH]; [constructor|]. cbn. constructor; [|done].
    destruct (d.1 =s FRAME_ANCESTORS); [|done]. destruct fa; split_and!; vm_compute; try done; repeat constructor; done.
  - intros k. clear. unfold set_ancestors. generalize FRAME_ANCESTORS as fan. intros fan.
    induction l as [|[n ss] l IH]; [by destruct (k =s fan)|]. cbn.
    destruct (n =s fan) eqn:E; cbn.
    + apply eqs_true in E as ->. destruct (fan =s k) eqn:Ek; [|by rewrite IH].
      apply eqs_true in Ek as <-. by rewrite eqs_refl.
    + destruct (n =s k) eqn:Ek; [|by rewrite IH]. apply eqs_true in Ek as <-. by rewrite E.
Qed.

Lemma sources_of_assoc (l : list (string * list string)) (k : string) : sources_of l k = assoc k l.
Proof.
  unfold sources_of. induction l as [|[n ss] l IH]; [done|]. cbn. by destruct (n =s k).
Qed.

Definition WORKER_SRC : string := "worker-src".

(** The sources workers had: [worker-src], or what it falls back to. *)
Definition worker_sources (f : string -> option (list string)) : list string :=
  default [] (find_map f [WORKER_SRC; "child-src"; "script-src"; "default-src"]).

Lemma existsb_assoc (l : list (string * list string)) :
  existsb (fun d => d.1 =s "worker-src") l = true -> is_Some (assoc WORKER_SRC l).
Proof.
  unfold WORKER_SRC. induction l as [|[n ss] l IH]; [done|]. cbn [existsb assoc fst].
  destruct (n =s "worker-src"); [by eexists|]. exact IH.
Qed.

Lemma add_blob_assoc (l : list (string * list string)) (k : string) :
  assoc k (add_blob l) = if k =s WORKER_SRC
                         then option_map (fun ss => if list_has ss "blob:" then ss else ss ++ ["blob:"]) (assoc k l)
                         else assoc k l.
Proof.
  unfold WORKER_SRC. induction l as [|[n ss] l IH]; cbn [add_blob assoc fst snd]; [by destruct (k =s _)|].
  destruct (n =s "worker-src") eqn:E; cbn [assoc].
  - apply eqs_true in E as ->. rewrite (String.eqb_sym _ k). by destruct (k =s "worker-src").
  - destruct (n =s k) eqn:Ek; [|done]. apply eqs_true in Ek as <-. by rewrite E.
Qed.

Lemma blob_workers_ok (l : list (string * list string)) :
  Forall wf_dir l -> NoDup l.*1 ->
  Forall wf_dir (blob_workers l) /\ NoDup (blob_workers l).*1
  /\ forall k, assoc k (blob_workers l)
       = if k =s WORKER_SRC
         then Some (let ss := worker_sources (fun k => assoc k l) in
                    if is_some (assoc WORKER_SRC l) && list_has ss "blob:" then ss else ss ++ ["blob:"])
         else assoc k l.
Proof.
  intros Hl Hn. assert (Hblob : "blob:" <> "" /\ is_value_token "blob:" = true) by by vm_compute.
  unfold blob_workers. destruct (existsb _ l) eqn:Ex.
  - assert (Hkeys : (add_blob l).*1 = l.*1).
    { clear. induction l as [|[n ss] l IH]; [done|]. cbn. destruct (n =s "worker-src"); cbn; [done|by rewrite IH]. }
    rewrite Hkeys. split_and!; [|done|].
    + clear -Hl Hblob. induction Hl as [|d l Hd Hl IH]; [constructor|]. cbn.
      destruct (d.1 =s "worker-src"); [|by constructor]. constructor; [|done].
      destruct Hd as (? & ? & Hs). split_and!; [done|done|]. cbn. destruct (list_has d.2 "blob:"); [done|].
      apply Forall_app. split; [done|by repeat constructor].
    + intros k. rewrite add_blob_assoc. destruct (k =s WORKER_SRC) eqn:Ek; [|done]. apply eqs_true in Ek as ->.
      destruct (existsb_assoc l Ex) as [ss Hss]. unfold worker_sources. cbn [find_map default is_some andb].
      rewrite Hss. change (default [] (Some ss)) with ss. cbn [option_map andb is_some]. by destruct (list_has ss "blob:").
  - assert (Hw : assoc WORKER_SRC l = None).
    { clear -Ex. unfold WORKER_SRC. induction l as [|[n ss] l IH]; [done|]. cbn [existsb assoc fst] in *.
      apply orb_false_iff in Ex as [-> Ex]. auto. }
    set (srcs := default [] _).
    assert (Hsrcs : srcs = worker_sources (fun k => assoc k l)).
    { unfold srcs, worker_sources. cbn [find_map]. rewrite Hw, !sources_of_assoc. reflexivity. }
    clearbody srcs.
    split_and!.
    + apply Forall_app. split; [done|]. constructor; [|constructor]. split_and!; [done|done|]. cbn [snd].
      apply Forall_app. split; [|by repeat constructor]. rewrite Hsrcs. unfold worker_sources.
      destruct (find_map _ _) as [ss|] eqn:E; [|constructor]. apply find_map_Some in E as (k & _ & E).
      apply assoc_In in E. rewrite Forall_forall in Hl. by apply (Hl _ E).
    + rewrite fmap_app. apply NoDup_app. split_and!; [done| |apply NoDup_singleton].
      intros x Hx ->%list_elem_of_singleton. cbn in Hx.
      apply list_elem_of_fmap in Hx as ([n ss] & En & Hin). cbn in En. subst n.
      by unfold WORKER_SRC in Hw; rewrite (assoc_elem _ _ _ Hn Hin) in Hw.
    + intros k. rewrite assoc_app. cbn [assoc].
      destruct (k =s WORKER_SRC) eqn:Ek.
      * apply eqs_true in Ek as ->. rewrite Hw. cbn. by rewrite Hsrcs.
      * rewrite (String.eqb_sym "worker-src" k). unfold WORKER_SRC in Ek. rewrite Ek. by destruct (assoc k l).
Qed.
End Merged.

Section Composed.
Context `{SameOrigin}.

(** The directives of a composed policy. *)
Definition composed_directives (M : Directives) (blob : bool) (fa : FrameAncestors.t) (k : string) : option (list string) :=
  if k =s FRAME_ANCESTORS then option_map (fun _ => [FrameAncestors.csp_source fa]) (M !! k)
  else if blob && (k =s WORKER_SRC)
  then Some (let ss := worker_sources (fun k => M !! k) in
             if is_some (M !! WORKER_SRC) && list_has ss "blob:" then ss else ss ++ ["blob:"])
  else M !! k.

Lemma composed_csp_parse (custom : string) (blob : bool) (fa : FrameAncestors.t) :
  exists D, csp_parse (composed_csp custom blob fa) [] = (D, [])
  /\ forall k, D !! k = composed_directives (merge_directives DEFAULT_CSP custom).1 blob fa k.
Proof.
  unfold composed_csp, merge_csp. pose proof (merge_directives_wf DEFAULT_CSP custom) as Hw.
  destruct (merge_directives DEFAULT_CSP custom) as [M r]. cbn [fst cm_policy] in *. rewrite serialize_text.
  pose proof (wf_sorted M Hw) as Hl. pose proof (sorted_entries_NoDup M) as Hn.
  assert (Hw0 : worker_sources (fun k => assoc k (sorted_entries M)) = worker_sources (fun k => M !! k)).
  { unfold worker_sources. cbn [find_map]. by rewrite !assoc_sorted_entries. }
  destruct blob.
  - destruct (blob_workers_ok _ Hl Hn) as (Hl' & Hn' & Ha'). rewrite with_blob_workers_text, with_frame_ancestors_text by done.
    destruct (set_ancestors_ok fa _ Hl' Hn') as (Hl'' & Hn'' & Ha'').
    destruct (parse_policy_text _ [] Hl'' Hn'') as (D & -> & HD). exists D. split; [done|]. intros k.
    rewrite HD, Ha'', Ha', Hw0, !assoc_sorted_entries. unfold composed_directives. cbn [andb].
    destruct (k =s FRAME_ANCESTORS) eqn:Ek; [|done]. apply eqs_true in Ek as ->. done.
  - rewrite with_frame_ancestors_text by done.
    destruct (set_ancestors_ok fa _ Hl Hn) as (Hl'' & Hn'' & Ha'').
    destruct (parse_policy_text _ [] Hl'' Hn'') as (D & -> & HD). exists D. split; [done|]. intros k.
    rewrite HD, Ha'', !assoc_sorted_entries. done.
Qed.

(** The baseline of the block. *)
Definition BASELINE : Directives := (csp_parse DEFAULT_CSP []).1.

Lemma baseline_lookup :
  BASELINE !! "default-src" = Some ["'self'"] /\ BASELINE !! "script-src" = Some ["'self'"; "'unsafe-inline'"]
  /\ BASELINE !! FRAME_ANCESTORS = Some ["'none'"].
Proof. split_and!; vm_compute; reflexivity. Qed.

Lemma baseline_script_ok : script_ok BASELINE.
Proof.
  assert (E : forallb (fun d => negb (list_has SCRIPT_DIRECTIVES d.1)
                || forallb (fun s => negb (is_some (script_source_refusal s))) d.2) (map_to_list BASELINE) = true)
    by (vm_compute; reflexivity).
  rewrite forallb_forall in E. intros k ss s Hk Hs Hin.
  specialize (E (k, ss)). cbn [fst snd] in E. apply list_has_elem in Hs. rewrite Hs in E. cbn [negb orb] in E.
  rewrite forallb_forall in E. specialize (E (proj1 (list_elem_of_In _ _) (proj2 (elem_of_map_to_list _ _ _) Hk)) s).
  specialize (E (proj1 (list_elem_of_In _ _) Hin)). by destruct (script_source_refusal s).
Qed.

Lemma merged_script_ok (custom : string) : script_ok (merge_directives DEFAULT_CSP custom).1.
Proof.
  apply merge_directives_ind; [apply baseline_script_ok|]. intros M r d _ HM. by apply merge_directive_script.
Qed.

Lemma merged_keeps (baseline custom k : string) (base : list string) :
  list_has NARROW_ONLY_DIRECTIVES k = false -> (csp_parse baseline []).1 !! k = Some base ->
  keeps (merge_directives baseline custom).1 k base.
Proof.
  intros Hn Hb. apply merge_directives_ind; [by exists base|]. intros M r d _ HM. by apply merge_directive_keeps.
Qed.

Lemma merged_narrowed (baseline custom k : string) (base : list string) :
  list_has NARROW_ONLY_DIRECTIVES k = true -> (csp_parse baseline []).1 !! k = Some base ->
  narrowed (merge_directives baseline custom).1 k base.
Proof.
  intros Hn Hb. apply merge_directives_ind.
  - exists base. split; [done|]. intros s Hs. right. exists s. split; [done|]. apply eqs_refl.
  - intros M r d _ HM. apply merge_directive_narrowed; [by apply list_has_elem|done].
Qed.

Lemma merged_frame_ancestors (baseline custom : string) :
  (merge_directives baseline custom).1 !! FRAME_ANCESTORS = (csp_parse baseline []).1 !! FRAME_ANCESTORS.
Proof.
  apply (merge_directives_ind (fun M => M !! FRAME_ANCESTORS = (csp_parse baseline []).1 !! FRAME_ANCESTORS)); [done|].
  intros M r d _ HM. destruct (merge_directive_dom M r d FRAME_ANCESTORS) as [E|[_ Hne]]; [by rewrite E|done].
Qed.
End Composed.

(** The composed policy: whatever the operator writes, it reads back as
    directives with safe script sources only. *)
Lemma composed_scripts_confined `{SameOrigin} (custom : string) (blob : bool) (fa : FrameAncestors.t) :
  exists D, csp_parse (composed_csp custom blob fa) [] = (D, [])
  /\ (forall k ss s, D !! k = Some ss -> k ∈ SCRIPT_DIRECTIVES -> s ∈ ss ->
        safe_script_source (to_ascii_lowercase s) \/ (blob = true /\ k = "worker-src" /\ s = "blob:"))
  /\ is_Some (D !! "default-src") /\ is_Some (D !! "script-src")
  /\ D !! "frame-ancestors" = Some [FrameAncestors.csp_source fa].
Proof.
  destruct (composed_csp_parse custom blob fa) as (D & EP & HD). exists D. split; [exact EP|]. clear EP.
  pose proof (merged_script_ok custom) as Hok.
  pose proof (merged_keeps DEFAULT_CSP custom "default-src" _ eq_refl (proj1 baseline_lookup)) as (sd & Hd & _).
  pose proof (merged_keeps DEFAULT_CSP custom "script-src" _ eq_refl (proj1 (proj2 baseline_lookup))) as (sc & Hsc & _).
  pose proof (merged_frame_ancestors DEFAULT_CSP custom) as Hfa.
  change (csp_parse DEFAULT_CSP []).1 with BASELINE in Hfa. rewrite (proj2 (proj2 baseline_lookup)) in Hfa.
  destruct (merge_directives DEFAULT_CSP custom) as [M r]. cbn [fst] in *. clear r.
  assert (Hfrom : forall k ss s, M !! k = Some ss -> k ∈ SCRIPT_DIRECTIVES -> s ∈ ss ->
    safe_script_source (to_ascii_lowercase s)) by (intros; by eapply script_source_safe, Hok).
  split_and!.
  - intros k ss s Hk Hs Hin. rewrite HD in Hk. unfold composed_directives in Hk.
    destruct (k =s FRAME_ANCESTORS) eqn:Ef.
    { apply eqs_true in Ef as ->. by repeat (apply elem_of_cons in Hs as [Hs|Hs]; [discriminate Hs|]); apply elem_of_nil in Hs. }
    destruct (blob && (k =s WORKER_SRC)) eqn:Eb; [|left; by eapply Hfrom].
    apply andb_true_iff in Eb as [-> Ek]. apply eqs_true in Ek as ->. injection Hk as <-.
    assert (Hw : s ∈ worker_sources (fun k => M !! k) -> safe_script_source (to_ascii_lowercase s)).
    { unfold worker_sources. destruct (find_map _ _) as [ss|] eqn:E; [|by intros ?%elem_of_nil].
      apply find_map_Some in E as (k & Hk & Hss). intros Hin'. eapply Hfrom; [exact Hss| |done].
      repeat (apply elem_of_cons in Hk as [->|Hk]; [by apply list_has_elem|]). by apply elem_of_nil in Hk. }
    destruct (_ && _); [by left; apply Hw|]. apply elem_of_app in Hin as [Hin| ->%list_elem_of_singleton]; [by left; apply Hw|by right].
  - rewrite HD. exists sd. unfold composed_directives. change ("default-src" =s FRAME_ANCESTORS) with false.
    change ("default-src" =s WORKER_SRC) with false. by rewrite andb_false_r.
  - rewrite HD. exists sc. unfold composed_directives. change ("script-src" =s FRAME_ANCESTORS) with false.
    change ("script-src" =s WORKER_SRC) with false. by rewrite andb_false_r.
  - rewrite HD. unfold composed_directives. change ("frame-ancestors" =s FRAME_ANCESTORS) with true. cbn iota.
    change "frame-ancestors" with FRAME_ANCESTORS. by rewrite Hfa.
Qed.

(** ** The properties *)

(** merging an operator policy into any baseline: the text sent reads back as
    the merged directives; every directive of the baseline survives, with all
    its sources (other than ['none']) or, for [base-uri] and [form-action], with
    no source it did not list; [frame-ancestors] is the baseline's. *)
Theorem csp_merge_keeps_baseline `{SameOrigin} (baseline custom : string) :
  let base := (csp_parse baseline []).1 in
  let merged := (merge_directives baseline custom).1 in
  csp_parse (cm_policy (merge_csp baseline custom)) [] = (merged, [])
  /\ (forall k ss, base !! k = Some ss ->
        if list_has NARROW_ONLY_DIRECTIVES k then narrowed merged k ss else keeps merged k ss)
  /\ merged !! FRAME_ANCESTORS = base !! FRAME_ANCESTORS.
Proof.
  cbv zeta. split_and!.
  - unfold merge_csp. pose proof (merge_directives_wf baseline custom) as Hw.
    destruct (merge_directives baseline custom) as [M r]. by apply parse_serialize.
  - intros k ss Hk. destruct (list_has NARROW_ONLY_DIRECTIVES k) eqn:E; [by apply merged_narrowed|by apply merged_keeps].
  - apply merged_frame_ancestors.
Qed.

Section BlockProps.
Context `{SameOrigin} `{CharDebug} `{JsonCrate}.

(** The block after a sequence of lifecycle events. *)
Definition after_events (events : list LifecycleEvent) : SecurityHeadersBlock :=
  fold_left (fun self event => (security_headers_lifecycle self event).1) events security_headers_new.

(** The cells are filled together, by one successful Init. *)
Definition cells_agree (self : SecurityHeadersBlock) : Prop :=
  (sh_csp self = None /\ sh_frame_ancestors self = None)
  \/ exists custom blob fa, sh_csp self = Some (composed_csp custom blob fa) /\ sh_frame_ancestors self = Some fa.

Lemma after_events_agree (events : list LifecycleEvent) : cells_agree (after_events events).
Proof.
  unfold after_events. assert (Hn : cells_agree security_headers_new) by by left.
  revert Hn. generalize security_headers_new. induction events as [|e events IH]; intros self Hs; [done|]. cbn [fold_left].
  apply IH. unfold security_headers_lifecycle. destruct (event_type e); [|done..].
  destruct (allow_blob_workers _) as [blob|]; [|done]. destruct (check_csp_characters _); [|done]. cbn [fst].
  right. destruct Hs as [[E1 E2]|(custom & b & fa & E1 & E2)]; cbn; rewrite E1, E2; cbn; eauto.
Qed.

(** The effective policy reads back with safe script sources and the framing
    the block announces. *)
Lemma effective_policy (self : SecurityHeadersBlock) :
  cells_agree self -> exists D, csp_parse (effective_csp self) [] = (D, [])
  /\ (forall k ss s, D !! k = Some ss -> k ∈ SCRIPT_DIRECTIVES -> s ∈ ss ->
        safe_script_source (to_ascii_lowercase s) \/ (k = "worker-src" /\ s = "blob:"))
  /\ is_Some (D !! "default-src") /\ is_Some (D !! "script-src")
  /\ D !! "frame-ancestors" = Some [FrameAncestors.csp_source (effective_frame_ancestors self)].
Proof.
  intros [[E1 E2]|(custom & blob & fa & E1 & E2)]; unfold effective_csp, effective_frame_ancestors; rewrite E1, E2.
  - exists BASELINE. split; [vm_compute; reflexivity|]. split.
    { intros k ss s Hk Hs Hin. left. by eapply script_source_safe, baseline_script_ok. }
    change "frame-ancestors" with FRAME_ANCESTORS.
    destruct baseline_lookup as (-> & -> & ->). split_and!; by eexists.
  - destruct (composed_scripts_confined custom blob fa) as (D & E & Hs & Hrest). exists D. split; [exact E|]. split; [|exact Hrest].
    intros k ss s Hk Hk' Hin. destruct (Hs k ss s Hk Hk' Hin) as [?|(_ & ?)]; auto.
Qed.
End BlockProps.

(** Reading a key of a message after others were set. *)
Ltac read_meta :=
  unfold set_meta, get_meta; cbn [msg_meta];
  repeat (rewrite meta_get_set_eq || (rewrite meta_get_set_ne by discriminate)).

(** C17: whatever configurations its lifecycle events carried, what the block adds to
    a response holds: the policy reads back, token by token, as directives of
    which every source that decides which script runs is a safe keyword, a
    nonce, a hash or one named host (over https or the page's own scheme), but
    for [blob:] in [worker-src]; [default-src] and [script-src] are there; the
    policy and [X-Frame-Options] agree on who may frame the page; and the two
    isolation headers are set together or left as they were. *)
Theorem security_headers_hold `{SameOrigin} `{CharDebug} `{JsonCrate} (events : list LifecycleEvent) (msg : Message) :
  let self := after_events events in
  exists out D fa, security_headers_handle self msg = continue_with out
  /\ csp_parse (get_meta out "resp.header.Content-Security-Policy") [] = (D, [])
  /\ (forall k ss s, D !! k = Some ss -> k ∈ SCRIPT_DIRECTIVES -> s ∈ ss ->
        safe_script_source (to_ascii_lowercase s) \/ (k = "worker-src" /\ s = "blob:"))
  /\ is_Some (D !! "default-src") /\ is_Some (D !! "script-src")
  /\ D !! "frame-ancestors" = Some [FrameAncestors.csp_source fa]
  /\ get_meta out "resp.header.X-Frame-Options" = FrameAncestors.x_frame_options fa
  /\ get_meta out "resp.header.X-Content-Type-Options" = "nosniff"
  /\ match CrossOriginIsolation.coep_value (effective_isolation self) with
     | Some coep => get_meta out "resp.header.Cross-Origin-Opener-Policy" = "same-origin"
                    /\ get_meta out "resp.header.Cross-Origin-Embedder-Policy" = coep
     | None => get_meta out "resp.header.Cross-Origin-Opener-Policy" = get_meta msg "resp.header.Cross-Origin-Opener-Policy"
               /\ get_meta out "resp.header.Cross-Origin-Embedder-Policy" = get_meta msg "resp.header.Cross-Origin-Embedder-Policy"
     end.
Proof.
  cbv zeta. destruct (effective_policy _ (after_events_agree events)) as (D & EP & Hs & Hd & Hsc & Hfa).
  generalize dependent (after_events events). intros self EP Hfa.
  unfold security_headers_handle. eexists _, D, (effective_frame_ancestors self). split; [reflexivity|].
  destruct (CrossOriginIsolation.coep_value (effective_isolation self)) as [coep|];
    (split; [read_meta; exact EP|]); (split_and!; [exact Hs|exact Hd|exact Hsc|exact Hfa|..]); read_meta; done.
Qed.
