(* ===== verification/Handlers.v ===== *)
(** What service handlers share ([wafer-core/src/interfaces/handler_util.rs]):
    decoding together with authorization, encoded answers, and the two-frame
    streaming answer. The authorization surface a handler is given is a
    [CallContext]; the runtime's own ([wafer-run/src/context.rs]) is an
    instance of it.

    The codec (MessagePack, a library) is a parameter of each handler, as is
    the rendering of a string by [{:?}]. A consumer that goes away is not
    modelled: nobody reads what follows. *)

From S2P Require Import Prelude CoreTypes Grants Wrap Capabilities Text Streams.

(** ** Denials as errors ([wrap.rs], [context.rs]) *)

Definition type_debug (rt : ResourceType.t) : string :=
  match rt with
  | ResourceType.Db => "Db" | ResourceType.Config => "Config" | ResourceType.Storage => "Storage"
  | ResourceType.Crypto => "Crypto" | ResourceType.Network => "Network" | ResourceType.Vector => "Vector"
  | ResourceType.Auth => "Auth" | ResourceType.Llm => "Llm" | ResourceType.Image => "Image"
  | ResourceType.Embedding => "Embedding"
  end.

Section Denials.
  Context `{DebugFormat}.

Definition debug_option (o : option string) : string :=
  match o with Some s => "Some(" +:+ debug_str s +:+ ")" | None => "None" end.

(** The message of each refusal of [check_access]. *)
Definition denial_message (d : denial) (caller : option string) (resource : string) (rt : option ResourceType.t)
    (admin : string) : string :=
  let who := debug_option caller in
  match d with
  | RawSqlDenied => "WRAP: raw SQL access denied (caller: " +:+ who +:+ ", admin: " +:+ admin +:+ ")"
  | DdlAnonymous =>
      "WRAP: " +:+ (if resource =s DDL_RESOURCE then "DDL" else "schema ops")
      +:+ " requires an attributable caller (caller: None)"
  | AuthCredentialAnonymous =>
      "WRAP: auth credential op '" +:+ resource +:+ "' requires an attributable caller (caller: None)"
  | SharedWriteDenied => "WRAP: only admin can write WAFER_RUN_SHARED__ resources (caller: " +:+ who +:+ ")"
  | SharedReadAnonymous =>
      "WRAP: WAFER_RUN_SHARED__ read denied for anonymous caller (resource: " +:+ resource +:+ ")"
  | Unnamespaced => "WRAP: unnamespaced resource '" +:+ resource +:+ "' denied (caller: " +:+ who +:+ ")"
  | NamespaceDenied => "WRAP: access denied on '" +:+ resource +:+ "' (caller: " +:+ who +:+ ")"
  | ListAllDenied =>
      "WRAP: storage.list_folders (list-all) is admin-only (caller: " +:+ who +:+ ", admin: " +:+ admin +:+ ")"
  | UnsafePath =>
      "WRAP: storage path '" +:+ resource +:+ "' has an empty, `.` or `..` segment or a `\` (caller: " +:+ who +:+ ")"
  | DefaultDeny =>
      "WRAP: access denied on '" +:+ resource +:+ "' (caller: " +:+ who +:+ ", type: "
      +:+ match rt with Some rt => "Some(" +:+ type_debug rt +:+ ")" | None => "None" end +:+ ")"
  end.

(** ** The context of a call *)

Record CallContext := mkCallContext {
  caller_id : option string;
  check_resource_access : string -> ResourceType.t -> ResourceAccess.t -> result unit WaferError;
  resource_access_admitted : string -> ResourceType.t -> ResourceAccess.t -> bool
}.

(** [RuntimeContext] as a handler sees it. *)
Definition runtime_context `{UnicodeLower} `{UrlCrate} (caller : option string)
    (caller_caps : string -> option BlockCapabilities) (grants : list ResourceGrant) (admin : string) : CallContext :=
  mkCallContext caller
    (fun resource rt access =>
       match authorize_resource caller caller_caps grants admin resource rt access with
       | Ok _ => Ok tt
       | Err (GrantDenied d) =>
           Err (error_new ErrorCode.PermissionDenied (denial_message d caller resource (Some rt) admin))
       | Err CapabilityDenied =>
           Err (error_new ErrorCode.PermissionDenied
                  ("block capability denies access to " +:+ ResourceType.display rt +:+ " '" +:+ resource +:+ "'"))
       end)
    (fun resource rt access => is_ok (authorize_resource caller caller_caps grants admin resource rt access)).
End Denials.

(** ** Decoding and authorizing *)

(** A resource to authorize. *)
Definition Resource : Type := string * ResourceType.t * ResourceAccess.t.

Definition check_resource (ctx : CallContext) (r : Resource) : result unit WaferError :=
  check_resource_access ctx r.1.1 r.1.2 r.2.

(** The decoded request; [DecodeError]'s text is the codec's. *)
Definition decode_request {T} (decode : string -> result T string) (body op_name : string) : result T OutputStream :=
  match decode body with
  | Ok r => Ok r
  | Err e => Err (output_error (error_new ErrorCode.InvalidArgument ("invalid " +:+ op_name +:+ " request: " +:+ e)))
  end.

(** [decode_and_authorize_checked]. *)
Definition decode_and_authorize_checked {T P} (ctx : CallContext) (decode : string -> result T string)
    (body op_name : string) (resolve : T -> result (P * Resource) WaferError) : result (T * P) OutputStream :=
  let? req := decode_request decode body op_name in
  match resolve req with
  | Err e => Err (output_error e)
  | Ok (resolved, r) =>
      match check_resource ctx r with
      | Err e => Err (output_error e)
      | Ok _ => Ok (req, resolved)
      end
  end.

(** [decode_and_authorize]. *)
Definition decode_and_authorize {T} (ctx : CallContext) (decode : string -> result T string)
    (body op_name : string) (resource : T -> Resource) : result T OutputStream :=
  match decode_and_authorize_checked ctx decode body op_name (fun req => Ok (tt, resource req)) with
  | Ok (req, _) => Ok req
  | Err e => Err e
  end.

(** The checks of [decode_and_authorize_all], in order. *)
Fixpoint check_all (ctx : CallContext) (rs : list Resource) : result unit WaferError :=
  match rs with
  | [] => Ok tt
  | r :: rs => match check_resource ctx r with Err e => Err e | Ok _ => check_all ctx rs end
  end.

(** [decode_and_authorize_all]. *)
Definition decode_and_authorize_all {T} (ctx : CallContext) (decode : string -> result T string)
    (body op_name : string) (resources : T -> result (list Resource) WaferError) : result T OutputStream :=
  let? req := decode_request decode body op_name in
  match resources req with
  | Err e => Err (output_error e)
  | Ok rs => match check_all ctx rs with Err e => Err (output_error e) | Ok _ => Ok req end
  end.

(** ** Answers *)

(** [OutputStream::respond]. *)
Definition respond (bytes : string) : OutputStream := from_events [Chunk bytes; Complete []].

(** [to_output], of the encoded value. *)
Definition to_output (encoded : result string WaferError) : OutputStream :=
  match encoded with Ok bytes => respond bytes | Err e => output_error e end.

(** [raw_frames_marker]. *)
Definition FRAME_ENCODING_META : string := "frame.encoding".
Definition FRAME_ENCODING_RAW : string := "raw".
Definition raw_frames_marker : MetaEntry := mkMeta FRAME_ENCODING_META FRAME_ENCODING_RAW.

(** The loop of [stream_with_header]: what follows the header. *)
Fixpoint relay (context : string) (body : list StreamEvent) : list StreamEvent :=
  match body with
  | [] => [EvError (error_new ErrorCode.Internal (context +:+ ": body stream ended without a terminal event"))]
  | Chunk bytes :: body => Chunk bytes :: relay context body
  | EvMeta entry :: body => EvMeta entry :: relay context body
  | Complete meta :: _ => [Complete meta]
  | EvError e :: _ => [EvError e]
  | (EvDrop _ | EvContinue _ | EvHalt _ _) :: _ =>
      [EvError (error_new ErrorCode.Internal
                  (context +:+ ": body producer emitted a non-body terminal after the header frame"))]
  end.

(** [stream_with_header], of the encoded header. *)
Definition stream_with_header (header : result string WaferError) (body : OutputStream) (context : string) : OutputStream :=
  match header with
  | Err e =>
      from_events [EvError (error_new ErrorCode.Internal (context +:+ ": encoding header frame: " +:+ we_message e))]
  | Ok bytes => from_events (Chunk bytes :: EvMeta raw_frames_marker :: relay context (stream_events body))
  end.
