(* ===== verification/StorageHandler.v ===== *)
(** The storage handler ([wafer-core/src/interfaces/storage/handler.rs]): how a
    caller's folder becomes a backend path, what each operation authorizes, and
    the one call it makes to the service.

    A handler answers at once or calls the service once and maps its answer
    ([Ask]); [run_storage] runs it against a service with state. Timestamps
    belong to the [chrono] crate and the codec is a library: both are
    parameters ([StorageCodec]). *)

From S2P Require Import Prelude CoreTypes Grants Wrap Text Streams Handlers.

(** ** Requests and answers ([wire/storage.rs], [storage/service.rs]) *)

Record PutRequest := mkPut { put_folder : string; put_key : string; put_data : string; put_content_type : string }.
Record PutStreamingHeader := mkPutHeader { ph_folder : string; ph_key : string; ph_content_type : string }.
Record GetRequest := mkGet { get_folder : string; get_key : string }.
Record DeleteRequest := mkDelete { del_folder : string; del_key : string }.
Record ListRequest := mkList {
  lr_folder : string; lr_prefix : string; lr_limit : Z; lr_offset : Z; lr_cursor : option string
}.
Record CreateFolderRequest := mkCreateFolder { cf_name : string; cf_public : bool }.
Record DeleteFolderRequest := mkDeleteFolder { df_name : string }.

Record ListOptions := mkListOptions {
  lo_prefix : string; lo_limit : Z; lo_offset : Z; lo_cursor : option string
}.

(** Service and wire types are field-identical. *)
Record ObjectInfo {DateTime : Type} := mkObjectInfo {
  oi_key : string; oi_size : Z; oi_content_type : string; oi_last_modified : DateTime
}.
Arguments ObjectInfo : clear implicits.
Arguments mkObjectInfo {DateTime} _ _ _ _.
Record ObjectList {DateTime : Type} := mkObjectList {
  ol_objects : list (ObjectInfo DateTime); ol_total_count : Z; ol_next_cursor : option string
}.
Arguments ObjectList : clear implicits.
Arguments mkObjectList {DateTime} _ _ _.
Record FolderInfo {DateTime : Type} := mkFolderInfo { fi_name : string; fi_public : bool; fi_created_at : DateTime }.
Arguments FolderInfo : clear implicits.
Arguments mkFolderInfo {DateTime} _ _ _.

Inductive StorageError :=
| NotFound | TooLarge (msg : string) | InvalidArgument (msg : string) | Body (err : WaferError)
| Internal (msg : string) | Other (display : string).

(** The codec of the requests and answers. *)
Class StorageCodec (DateTime : Type) := {
  decode_put : string -> result PutRequest string;
  decode_put_header : string -> result PutStreamingHeader string;
  decode_get : string -> result GetRequest string;
  decode_delete : string -> result DeleteRequest string;
  decode_list : string -> result ListRequest string;
  decode_create_folder : string -> result CreateFolderRequest string;
  decode_delete_folder : string -> result DeleteFolderRequest string;
  encode_object_info : ObjectInfo DateTime -> result string WaferError;
  encode_object_list : ObjectList DateTime -> result string WaferError;
  encode_folders : list (FolderInfo DateTime) -> result string WaferError
}.

(** [ServiceOp]. *)
Definition STORAGE_PUT : string := "storage.put".
Definition STORAGE_PUT_STREAMING : string := "storage.put_streaming".
Definition STORAGE_GET : string := "storage.get".
Definition STORAGE_GET_STREAMING : string := "storage.get_streaming".
Definition STORAGE_DELETE : string := "storage.delete".
Definition STORAGE_LIST : string := "storage.list".
Definition STORAGE_CREATE_FOLDER : string := "storage.create_folder".
Definition STORAGE_DELETE_FOLDER : string := "storage.delete_folder".
Definition STORAGE_LIST_FOLDERS : string := "storage.list_folders".

(** The frames of a request body that streams. *)
Definition InputStream : Type := list (result string WaferError).

(** [StorageService]: its calls, and what each answers. *)
Inductive StorageCall :=
| CallPut (folder key data content_type : string)
| CallPutStreaming (folder key : string) (data : InputStream) (content_type : string)
| CallGet (folder key : string)
| CallGetStreaming (folder key : string)
| CallDelete (folder key : string)
| CallList (folder : string) (opts : ListOptions)
| CallCreateFolder (name : string) (public : bool)
| CallDeleteFolder (name : string)
| CallListFolders.

Section Handler.
  Context {DateTime : Type} `{StorageCodec DateTime} `{DebugFormat}.

Definition StorageAnswer (c : StorageCall) : Type :=
  match c with
  | CallGet _ _ => result (string * ObjectInfo DateTime) StorageError
  | CallGetStreaming _ _ => result (OutputStream * ObjectInfo DateTime) StorageError
  | CallList _ _ => result (ObjectList DateTime) StorageError
  | CallListFolders => result (list (FolderInfo DateTime)) StorageError
  | _ => result unit StorageError
  end.

Inductive Handled :=
| Reply (out : OutputStream)
| Ask (c : StorageCall) (k : StorageAnswer c -> OutputStream).

(** A service with its state. *)
Definition StorageService (S : Type) : Type := forall c : StorageCall, S -> S * StorageAnswer c.

Definition run_storage {S} (service : StorageService S) (h : Handled) (s : S) : S * OutputStream :=
  match h with
  | Reply out => (s, out)
  | Ask c k => let '(s, a) := service c s in (s, k a)
  end.

(** [storage_error_to_wafer]. *)
Definition storage_error_to_wafer (e : StorageError) : WaferError :=
  match e with
  | NotFound => error_new ErrorCode.NotFound "object not found"
  | TooLarge msg => error_new ErrorCode.ResourceExhausted msg
  | InvalidArgument msg => error_new ErrorCode.InvalidArgument msg
  | Body err => err
  | Internal msg => error_new ErrorCode.Internal msg
  | Other display => error_new ErrorCode.Internal display
  end.

(** ** Paths *)

(** [check_path]. *)
Definition check_path (op what sent path : string) : result unit WaferError :=
  if is_traversal_safe_path path then Ok tt
  else Err (error_new ErrorCode.InvalidArgument
         ("invalid " +:+ op +:+ " request: `" +:+ what
          +:+ "` must be a plain `/`-separated path with no empty, `.` or `..` segment and no `\` (got "
          +:+ debug_str sent +:+ ")")).

(** [resolve_folder]. *)
Definition resolve_folder (ctx : CallContext) (op what folder : string) : result string WaferError :=
  let? resolved :=
    match strip_prefix "@" folder with
    | Some explicit => Ok explicit
    | None =>
        match caller_id ctx with
        | None => Err (error_new ErrorCode.PermissionDenied
            (op +:+ ": `" +:+ what +:+ "` " +:+ debug_str folder
             +:+ " is relative to the calling block's namespace, and this call has no calling block"))
        | Some caller => Ok (if is_empty folder then caller else caller +:+ "/" +:+ folder)
        end
    end in
  let? _ := check_path op what folder resolved in
  Ok resolved.

Record ObjectPath := mkObjectPath { op_folder : string; op_resource : string }.

(** [resolve_object]. *)
Definition resolve_object (ctx : CallContext) (op folder key : string) : result ObjectPath WaferError :=
  let? folder := resolve_folder ctx op "folder" folder in
  let? _ := check_path op "key" key key in
  Ok (mkObjectPath folder (folder +:+ "/" +:+ key)).

(** What an arm resolves and authorizes: an object, or a folder. *)
Definition object_of (ctx : CallContext) (op folder key : string) (access : ResourceAccess.t)
  : result (ObjectPath * Resource) WaferError :=
  let? path := resolve_object ctx op folder key in
  Ok (path, (op_resource path, ResourceType.Storage, access)).
Definition folder_of (ctx : CallContext) (op what folder : string) (access : ResourceAccess.t)
  : result (string * Resource) WaferError :=
  let? folder := resolve_folder ctx op what folder in
  Ok (folder, (folder, ResourceType.Storage, access)).

(** ** The handler *)

(** The arm of an authorized request, or its refusal. *)
Definition authorized {A} (r : result A OutputStream) (arm : A -> Handled) : Handled :=
  match r with Err out => Reply out | Ok a => arm a end.

(** An operation with an empty acknowledgement. *)
Definition acknowledge (r : result unit StorageError) : OutputStream :=
  match r with Ok _ => respond "" | Err e => output_error (storage_error_to_wafer e) end.

(** The buffered two-frame answer of [storage.get]. *)
Definition get_answer (data : string) (info : ObjectInfo DateTime) : OutputStream :=
  match encode_object_info info with
  | Err e => output_error (error_new ErrorCode.Internal ("encoding storage GET header: " +:+ we_message e))
  | Ok header =>
      from_events (Chunk header :: EvMeta raw_frames_marker
                   :: (if is_empty data then [] else [Chunk data]) ++ [Complete []])
  end.

(** [handle_message]. *)
Definition storage_handle (ctx : CallContext) (msg : Message) (body : string) : Handled :=
  let kind := msg_kind msg in
  if kind =s STORAGE_PUT then
    authorized (decode_and_authorize_checked ctx decode_put body "storage.put"
      (fun r => object_of ctx "storage.put" (put_folder r) (put_key r) ResourceAccess.Write))
      (fun '(req, path) => Ask (CallPut (op_folder path) (put_key req) (put_data req) (put_content_type req)) acknowledge)
  else if kind =s STORAGE_GET then
    authorized (decode_and_authorize_checked ctx decode_get body "storage.get"
      (fun r => object_of ctx "storage.get" (get_folder r) (get_key r) ResourceAccess.Read))
      (fun '(req, path) => Ask (CallGet (op_folder path) (get_key req)) (fun a =>
         match a with
         | Ok (data, info) => get_answer data info
         | Err e => output_error (storage_error_to_wafer e)
         end))
  else if kind =s STORAGE_GET_STREAMING then
    authorized (decode_and_authorize_checked ctx decode_get body "storage.get_streaming"
      (fun r => object_of ctx "storage.get_streaming" (get_folder r) (get_key r) ResourceAccess.Read))
      (fun '(req, path) => Ask (CallGetStreaming (op_folder path) (get_key req)) (fun a =>
         match a with
         | Ok (body_stream, info) => stream_with_header (encode_object_info info) body_stream "storage.get_streaming"
         | Err e => output_error (storage_error_to_wafer e)
         end))
  else if kind =s STORAGE_DELETE then
    authorized (decode_and_authorize_checked ctx decode_delete body "storage.delete"
      (fun r => object_of ctx "storage.delete" (del_folder r) (del_key r) ResourceAccess.Write))
      (fun '(req, path) => Ask (CallDelete (op_folder path) (del_key req)) acknowledge)
  else if kind =s STORAGE_LIST then
    authorized (decode_and_authorize_checked ctx decode_list body "storage.list"
      (fun r => folder_of ctx "storage.list" "folder" (lr_folder r) ResourceAccess.Read))
      (fun '(req, folder) =>
         Ask (CallList folder (mkListOptions (lr_prefix req) (lr_limit req) (lr_offset req) (lr_cursor req))) (fun a =>
         match a with
         | Ok l => to_output (encode_object_list l)
         | Err e => output_error (storage_error_to_wafer e)
         end))
  else if kind =s STORAGE_CREATE_FOLDER then
    authorized (decode_and_authorize_checked ctx decode_create_folder body "storage.create_folder"
      (fun r => folder_of ctx "storage.create_folder" "name" (cf_name r) ResourceAccess.Write))
      (fun '(req, name) => Ask (CallCreateFolder name (cf_public req)) acknowledge)
  else if kind =s STORAGE_DELETE_FOLDER then
    authorized (decode_and_authorize_checked ctx decode_delete_folder body "storage.delete_folder"
      (fun r => folder_of ctx "storage.delete_folder" "name" (df_name r) ResourceAccess.Write))
      (fun '(_, name) => Ask (CallDeleteFolder name) acknowledge)
  else if kind =s STORAGE_LIST_FOLDERS then
    match check_resource_access ctx STORAGE_LIST_ALL_RESOURCE ResourceType.Storage ResourceAccess.Read with
    | Err e => Reply (output_error e)
    | Ok _ => Ask CallListFolders (fun a =>
        match a with
        | Ok folders => to_output (encode_folders folders)
        | Err e => output_error (storage_error_to_wafer e)
        end)
    end
  else Reply (output_error (error_new ErrorCode.Unimplemented ("unknown storage operation: " +:+ kind))).

(** [handle_put_streaming]. *)
Definition storage_handle_put_streaming (ctx : CallContext) (input : InputStream) : Handled :=
  match input with
  | [] => Reply (output_error (error_new ErrorCode.InvalidArgument
            "storage.put_streaming: request stream ended before the header frame"))
  | Err e :: _ => Reply (output_error e)
  | Ok header_bytes :: input =>
      authorized (decode_and_authorize_checked ctx decode_put_header header_bytes "storage.put_streaming"
        (fun h => object_of ctx "storage.put_streaming" (ph_folder h) (ph_key h) ResourceAccess.Write))
        (fun '(header, path) =>
           Ask (CallPutStreaming (op_folder path) (ph_key header) input (ph_content_type header)) acknowledge)
  end.
End Handler.
