(* ===== verification/StorageHandlerProps.v ===== *)
(** Properties of the storage handler: the path a service is handed is the path
    the runtime admitted, and a streamed answer ends as its body did. *)

From S2P Require Import Prelude CoreTypes Grants Wrap BlockName WrapGlob GrantFacts WrapPolicy WrapProps Capabilities Text Streams Handlers StorageHandler.

(** ** What a call touches *)

(** The backend path of a call, and the access it needs. *)
Definition call_path (c : StorageCall) : string :=
  match c with
  | CallPut f k _ _ | CallPutStreaming f k _ _ | CallGet f k | CallGetStreaming f k | CallDelete f k => f +:+ "/" +:+ k
  | CallList f _ | CallCreateFolder f _ | CallDeleteFolder f => f
  | CallListFolders => STORAGE_LIST_ALL_RESOURCE
  end.
Definition call_access (c : StorageCall) : ResourceAccess.t :=
  match c with
  | CallPut _ _ _ _ | CallPutStreaming _ _ _ _ | CallDelete _ _ | CallCreateFolder _ _ | CallDeleteFolder _ =>
      ResourceAccess.Write
  | _ => ResourceAccess.Read
  end.

Section Handler.
Context {DateTime : Type} `{StorageCodec DateTime} `{DebugFormat} (ctx : CallContext).

Definition admitted (path : string) (access : ResourceAccess.t) : Prop :=
  check_resource_access ctx path ResourceType.Storage access = Ok tt.

(** Handled safely: refused with one error, or the one call it makes is
    admitted, on a plain path. *)
Definition safe (h : @Handled DateTime) : Prop :=
  match h with
  | Reply out => exists e, out = output_error e
  | Ask c _ => admitted (call_path c) (call_access c)
               /\ (c = CallListFolders \/ is_traversal_safe_path (call_path c) = true)
  end.

(** ** Decoding and authorizing *)

Lemma checked_spec {T P} (decode : string -> result T string) (body op : string)
    (resolve : T -> result (P * Resource) WaferError) :
  match decode_and_authorize_checked ctx decode body op resolve with
  | Ok (req, p) => decode body = Ok req
      /\ exists r, resolve req = Ok (p, r) /\ check_resource ctx r = Ok tt
  | Err out => exists e, out = output_error e
  end.
Proof.
  unfold decode_and_authorize_checked, decode_request. destruct (decode body) as [req|]; cbn; [|eauto].
  destruct (resolve req) as [[p r]|] eqn:E; [|eauto].
  destruct (check_resource ctx r) as [[]|] eqn:Ec; [|eauto]. split; [done|]. eauto.
Qed.

Lemma authorized_safe {T P} (decode : string -> result T string) (body op : string)
    (resolve : T -> result (P * Resource) WaferError) (arm : T * P -> Handled) :
  (forall req p r, decode body = Ok req -> resolve req = Ok (p, r) -> check_resource ctx r = Ok tt -> safe (arm (req, p))) ->
  safe (authorized (decode_and_authorize_checked ctx decode body op resolve) arm).
Proof.
  intros Harm. pose proof (checked_spec decode body op resolve) as Hc.
  destruct (decode_and_authorize_checked _ _ _ _ _) as [[req p]|out]; [|done].
  destruct Hc as (Hd & r & Hr & Hok). by eapply Harm.
Qed.

(** ** Paths *)

(** Where a folder lies: beneath its caller, or where it says. *)
Definition located (folder path : string) : Prop :=
  (exists explicit, folder = "@" +:+ explicit /\ path = explicit)
  \/ (strip_prefix "@" folder = None /\ exists c, caller_id ctx = Some c
      /\ path = if is_empty folder then c else c +:+ "/" +:+ folder).

Lemma check_path_Ok (op what sent path : string) :
  check_path op what sent path = Ok tt <-> is_traversal_safe_path path = true.
Proof. unfold check_path. by destruct (is_traversal_safe_path path). Qed.

Lemma resolve_folder_Ok (op what folder path : string) :
  resolve_folder ctx op what folder = Ok path <-> located folder path /\ is_traversal_safe_path path = true.
Proof.
  unfold resolve_folder, located, check_path. destruct (strip_prefix "@" folder) as [ex|] eqn:E; cbn.
  - apply strip_prefix_Some in E as ->. destruct (is_traversal_safe_path ex) eqn:Es; cbn.
    + split; [intros [= <-]; eauto|]. intros [[(e' & [= ->] & ->)|[? _]] _]; done.
    + split; [done|]. intros [[(e' & [= ->] & ->)|[? _]] Hs]; congruence.
  - assert (Hno : forall e', folder <> "@" +:+ e') by (intros e' ->; by rewrite strip_prefix_app in E).
    destruct (caller_id ctx) as [c|]; cbn.
    + set (p := if is_empty folder then c else c +:+ String "/" folder).
      destruct (is_traversal_safe_path p) eqn:Es; cbn.
      * split; [intros [= <-]; split; [right; eauto|done]|]. intros [[(e' & E' & _)|(_ & c' & [= <-] & ->)] _]; [by apply Hno in E'|done].
      * split; [done|]. intros [[(e' & E' & _)|(_ & c' & [= <-] & ->)] Hs]; [by apply Hno in E'|]. unfold p in Es. congruence.
    + split; [done|]. intros [[(e' & E' & _)|(_ & c' & ? & _)] _]; [by apply Hno in E'|done].
Qed.

(** Joining plain paths gives a plain path. *)
Lemma split_app_slash (a b : string) : split "/" (a +:+ "/" +:+ b) = split "/" a ++ split "/" b.
Proof.
  induction a as [|x a IH]; [done|]. cbn [String.append]. cbn [split]. change (String "/" b) with ("/" +:+ b).
  destruct (Ascii.eqb x "/"); [by rewrite IH|]. rewrite IH.
  destruct (split "/" a) as [|w ws] eqn:E; [by apply split_not_nil in E|done].
Qed.

Lemma safe_path_app (a b : string) :
  is_traversal_safe_path (a +:+ "/" +:+ b) = is_traversal_safe_path a && is_traversal_safe_path b.
Proof. unfold is_traversal_safe_path. by rewrite split_app_slash, existsb_app, negb_orb. Qed.

Lemma object_of_Ok (op folder key : string) (access : ResourceAccess.t) (p : ObjectPath) (r : Resource) :
  object_of ctx op folder key access = Ok (p, r) ->
  located folder (op_folder p) /\ op_resource p = op_folder p +:+ "/" +:+ key
  /\ r = (op_resource p, ResourceType.Storage, access) /\ is_traversal_safe_path (op_resource p) = true.
Proof.
  unfold object_of, resolve_object. destruct (resolve_folder ctx op "folder" folder) as [f|] eqn:Ef; cbn; [|done].
  apply resolve_folder_Ok in Ef as [Hl Hf]. destruct (check_path op "key" key key) as [[]|] eqn:Ek; cbn; [|done].
  apply check_path_Ok in Ek. intros [= <- <-]. split_and!; [done|done|done|]. cbn [op_resource].
  change (f +:+ String "/" key) with (f +:+ "/" +:+ key). by rewrite safe_path_app, Hf, Ek.
Qed.

Lemma folder_of_Ok (op what folder : string) (access : ResourceAccess.t) (p : string) (r : Resource) :
  folder_of ctx op what folder access = Ok (p, r) ->
  located folder p /\ r = (p, ResourceType.Storage, access) /\ is_traversal_safe_path p = true.
Proof.
  unfold folder_of. destruct (resolve_folder ctx op what folder) as [f|] eqn:Ef; cbn; [|done].
  apply resolve_folder_Ok in Ef as [Hl Hf]. by intros [= <- <-].
Qed.

(** ** The handler *)

Ltac object_arm :=
  apply authorized_safe; intros req p r Hd Hr Hc; apply object_of_Ok in Hr as (_ & Ep & -> & Hs);
  unfold check_resource in Hc; cbn in Hc; rewrite Ep in Hc, Hs; split; [exact Hc|right; exact Hs].
Ltac folder_arm :=
  apply authorized_safe; intros req p r Hd Hr Hc; apply folder_of_Ok in Hr as (_ & -> & Hs);
  split; [exact Hc|right; exact Hs].

Lemma storage_handle_safe (msg : Message) (body : string) : safe (storage_handle ctx msg body).
Proof.
  unfold storage_handle.
  destruct (_ =s STORAGE_PUT); [object_arm|]. destruct (_ =s STORAGE_GET); [object_arm|].
  destruct (_ =s STORAGE_GET_STREAMING); [object_arm|]. destruct (_ =s STORAGE_DELETE); [object_arm|].
  destruct (_ =s STORAGE_LIST); [folder_arm|]. destruct (_ =s STORAGE_CREATE_FOLDER); [folder_arm|].
  destruct (_ =s STORAGE_DELETE_FOLDER); [folder_arm|]. destruct (_ =s STORAGE_LIST_FOLDERS); [|by eexists].
  destruct (check_resource_access _ _ _ _) as [[]|] eqn:E; [|by eexists]. split; [exact E|by left].
Qed.

Lemma storage_put_streaming_safe (input : InputStream) : safe (storage_handle_put_streaming ctx input).
Proof.
  unfold storage_handle_put_streaming. destruct input as [|[header|e] input]; [by eexists| |by eexists]. object_arm.
Qed.
End Handler.

(** ** The runtime's context *)

Section Runtime.
Context {DateTime : Type} `{StorageCodec DateTime} `{DebugFormat} `{UnicodeLower} `{UrlCrate}.

Lemma runtime_admits (caller : option string) (caps : string -> option BlockCapabilities) (grants : list ResourceGrant)
    (admin path : string) (access : ResourceAccess.t) :
  admitted (runtime_context caller caps grants admin) path access
  <-> authorize_resource caller caps grants admin path ResourceType.Storage access = Ok tt.
Proof.
  unfold admitted, runtime_context. cbn [check_resource_access].
  by destruct (authorize_resource _ _ _ _ _ _ _) as [[]|[d|]].
Qed.

(** What a call may touch: everything below its caller, what a grant opens, and
    the list of all folders for the admin block alone - in each case within the
    caller's own capabilities, by a path without climbing segments. *)
Definition confined (caller : option string) (caps : string -> option BlockCapabilities) (grants : list ResourceGrant)
    (admin : string) (h : @Handled DateTime) : Prop :=
  match h with
  | Reply out => exists e, out = output_error e
  | Ask c _ =>
      let path := call_path c in
      (c = CallListFolders /\ caller = Some admin)
      \/ (Forall (fun seg => seg <> "" /\ seg <> "." /\ seg <> ".." /\ contains "\" seg = false) (split "/" path)
          /\ exists b, caller = Some b
          /\ (b = admin \/ path = b \/ starts_with (b +:+ "/") path = true
              \/ exists g, In g grants /\ grant_allows g b path (call_access c) (Some ResourceType.Storage) = true)
          /\ forall cs, caps b = Some cs -> allows_storage_folder cs path = true)
  end.

Lemma storage_owner_under (path o : string) :
  storage_resource_owner path = Some o -> path = o \/ starts_with (o +:+ "/") path = true.
Proof.
  intros (org & block & -> & _ & _ & _ & [[-> _]|(rest & -> & _)])%storage_owner_shape; [by left|right].
  apply starts_with_spec. exists rest. by rewrite <- !str_app_assoc.
Qed.

Lemma safe_confined (caller : option string) (caps : string -> option BlockCapabilities) (grants : list ResourceGrant)
    (admin : string) (h : @Handled DateTime) :
  safe (runtime_context caller caps grants admin) h -> confined caller caps grants admin h.
Proof.
  destruct h as [out|c k]; [done|]. intros [Ha Hs]. unfold confined. apply runtime_admits in Ha.
  unfold authorize_resource in Ha. destruct (check_access _ _ _ _ _ _) as [[]|] eqn:Ec; [|done].
  apply check_access_iff_policy in Ec.
  destruct Hs as [->|Hs].
  - left. split; [done|]. cbn in Ec. inversion Ec as [|c' [Hn _]|c' Hr _ _|c' g Hr _ _ _]; subst; [done|done|..];
      exfalso; apply Hr; by right.
  - right. split; [by apply traversal_safe_segments|]. inversion Ec as [|c' [Hn _]|c' Hr _ Ho|c' g Hr _ Hg Hallow]; subst; [|done|..].
    + exists admin. split; [done|]. split; [by left|]. intros cs Hcs. cbn in Ha. rewrite Hcs in Ha. by destruct (allows_storage_folder _ _).
    + exists c'. split; [done|]. split; [right; destruct (storage_owner_under _ _ Ho); auto|].
      intros cs Hcs. cbn in Ha. rewrite Hcs in Ha. by destruct (allows_storage_folder _ _).
    + exists c'. split; [done|]. split; [right; right; right; eauto|].
      intros cs Hcs. cbn in Ha. rewrite Hcs in Ha. by destruct (allows_storage_folder _ _).
Qed.

(** A relative object lies below its caller. *)
Lemma relative_object (caller : string) (caps : string -> option BlockCapabilities) (grants : list ResourceGrant)
    (admin op folder key : string) (access : ResourceAccess.t) (p : ObjectPath) (r : Resource) :
  valid_block_name caller -> strip_prefix "@" folder = None ->
  object_of (runtime_context (Some caller) caps grants admin) op folder key access = Ok (p, r) ->
  storage_resource_owner (op_resource p) = Some caller /\ is_traversal_safe_path (op_resource p) = true
  /\ r = (op_resource p, ResourceType.Storage, access).
Proof.
  intros Hv Hf (Hl & Er & -> & Hs)%object_of_Ok. split_and!; [|done|done]. rewrite Er.
  destruct Hl as [(e & -> & _)|(_ & c & [= <-] & ->)]; [by rewrite strip_prefix_app in Hf|].
  destruct (valid_block_name_shape _ Hv) as (org & block & -> & Ho & Hb).
  pose proof (segment_lacks _ "/" Ho eq_refl) as Hlo. pose proof (segment_lacks _ "/" Hb eq_refl) as Hlb.
  assert (Hown : forall rest, storage_resource_owner ((org +:+ "/" +:+ block) +:+ "/" +:+ rest) = Some (org +:+ "/" +:+ block)).
  { intros rest. rewrite <- !str_app_assoc. apply storage_owner_intro; [done|done|apply Ho|apply Hb]. }
  destruct (is_empty folder); [apply Hown|]. rewrite <- (str_app_assoc (org +:+ "/" +:+ block)).
  change ("/" +:+ folder) with (String "/" folder). apply (Hown (folder +:+ "/" +:+ key)).
Qed.
End Runtime.

(** ** The properties *)

(** C18: whatever message or upload a block sends, the storage handler answers one
    error or makes one call to the service, on a path without climbing segments
    that lies below the calling block, or that a grant opens to it (or the
    caller is the admin block), within the caller's own capabilities; the list
    of all folders is the admin block's alone. *)
Theorem storage_service_confined {DateTime} `{StorageCodec DateTime} `{DebugFormat} `{UnicodeLower} `{UrlCrate}
    (caller : option string) (caps : string -> option BlockCapabilities) (grants : list ResourceGrant) (admin : string)
    (msg : Message) (body : string) (input : InputStream) :
  let ctx := runtime_context caller caps grants admin in
  confined caller caps grants admin (storage_handle ctx msg body)
  /\ confined caller caps grants admin (storage_handle_put_streaming ctx input).
Proof. split; apply safe_confined; [apply storage_handle_safe|apply storage_put_streaming_safe]. Qed.

(** objects addressed relative to the caller are private: each is authorized
    without any grant (when the caller's capabilities are not restricted), and
    no relative request of another block resolves to the same path. *)
Theorem relative_objects_private {DateTime} `{StorageCodec DateTime} `{DebugFormat} `{UnicodeLower} `{UrlCrate}
    (b b' admin op op' folder folder' key key' : string) (access access' : ResourceAccess.t)
    (p p' : ObjectPath) (r r' : Resource) :
  let ctx b := runtime_context (Some b) (fun _ => None) [] admin in
  valid_block_name b -> valid_block_name b' ->
  strip_prefix "@" folder = None -> strip_prefix "@" folder' = None ->
  object_of (ctx b) op folder key access = Ok (p, r) ->
  object_of (ctx b') op' folder' key' access' = Ok (p', r') ->
  check_resource (ctx b) r = Ok tt /\ (b <> b' -> op_resource p <> op_resource p').
Proof.
  cbv zeta. intros Hb Hb' Hf Hf' Ho Ho'.
  apply relative_object in Ho as (Hown & Hs & ->); [|done..]. apply relative_object in Ho' as (Hown' & _ & _); [|done..].
  split; [|congruence]. unfold check_resource. cbn [fst snd]. apply runtime_admits. unfold authorize_resource.
  assert (Hc : check_access (Some b) (op_resource p) access (Some ResourceType.Storage) [] admin = Ok tt).
  { apply check_access_iff_policy, policy_own; [|by intros _|exact Hown].
    intros [[Hn _]|[_ E]]; [done|]. rewrite E in Hown. by vm_compute in Hown. }
  by rewrite Hc.
Qed.

(** A codec that reads nothing and writes nothing. *)
Definition void_storage_codec : StorageCodec unit := {|
  decode_put _ := Err ""; decode_put_header _ := Err ""; decode_get _ := Err ""; decode_delete _ := Err "";
  decode_list _ := Err ""; decode_create_folder _ := Err ""; decode_delete_folder _ := Err "";
  encode_object_info _ := Ok ""; encode_object_list _ := Ok ""; encode_folders _ := Ok "" |}.

Lemma relative_objects_private_witness :
  let ctx b := runtime_context (H := {| debug_str s := s |}) (Some b) (fun _ => None) [] "acme/admin" in
  let path b := mkObjectPath (b +:+ "/img") (b +:+ "/img/a.png") in
  check_resource (ctx "acme/app") ("acme/app/img/a.png", ResourceType.Storage, ResourceAccess.Write) = Ok tt
  /\ ("acme/app" <> "acme/db" -> op_resource (path "acme/app") <> op_resource (path "acme/db")).
Proof.
  apply (@relative_objects_private unit void_storage_codec {| debug_str s := s |} _ _
    "acme/app" "acme/db" "acme/admin" "storage.put" "storage.get" "img" "img" "a.png" "a.png"
    ResourceAccess.Write ResourceAccess.Read
    (mkObjectPath "acme/app/img" "acme/app/img/a.png") (mkObjectPath "acme/db/img" "acme/db/img/a.png")
    ("acme/app/img/a.png", ResourceType.Storage, ResourceAccess.Write)
    ("acme/db/img/a.png", ResourceType.Storage, ResourceAccess.Read)); vm_compute; reflexivity.
Defined.

(** ** Streamed answers *)

(** What a consumer may see of a body: its chunks and metadata up to its end. *)
Definition is_body_event (e : StreamEvent) : bool := match e with Chunk _ | EvMeta _ => true | _ => false end.

(** The end of a relayed body: its own, when it is the end of a body. *)
Definition body_end (context : string) (rest : list StreamEvent) : StreamEvent :=
  match rest with
  | Complete meta :: _ => Complete meta
  | EvError e :: _ => EvError e
  | [] => EvError (error_new ErrorCode.Internal (context +:+ ": body stream ended without a terminal event"))
  | _ => EvError (error_new ErrorCode.Internal
                    (context +:+ ": body producer emitted a non-body terminal after the header frame"))
  end.

Lemma relay_spec (context : string) (body rest : list StreamEvent) :
  forallb is_body_event body = true ->
  match rest with e :: _ => is_body_event e = false | [] => True end ->
  relay context (body ++ rest) = body ++ [body_end context rest].
Proof.
  induction body as [|e body IH]; cbn [app forallb]; intros Hb Hr.
  - destruct rest as [|[] rest]; done.
  - apply andb_prop in Hb as [He Hb]. by destruct e; try done; cbn [relay]; rewrite IH.
Qed.

(** A stream is body events and then its end. *)
Lemma stream_parts (es : list StreamEvent) :
  exists body rest, es = body ++ rest /\ forallb is_body_event body = true
    /\ match rest with e :: _ => is_body_event e = false | [] => True end.
Proof.
  induction es as [|e es (body & rest & -> & Hb & Hr)]; [by exists [], []|].
  destruct (is_body_event e) eqn:E; [exists (e :: body), rest; cbn; by rewrite E|by exists [], (e :: body ++ rest)].
Qed.

(** an object streamed to a caller is a header frame, the marker of raw
    frames, every chunk of the object in order, and then one terminal, which
    reports success exactly when the body itself completed: a body that is cut
    short, fails or ends in another way is never passed off as whole. *)
Theorem streamed_object_faithful (header context : string) (stream : OutputStream) :
  exists body rest, stream_events stream = body ++ rest /\ forallb is_body_event body = true
    /\ stream_events (stream_with_header (Ok header) stream context)
       = Chunk header :: EvMeta raw_frames_marker :: body ++ [body_end context rest]
    /\ is_body_event (body_end context rest) = false
    /\ (forall meta, body_end context rest = Complete meta <-> exists after, stream_events stream = body ++ Complete meta :: after).
Proof.
  destruct (stream_parts (stream_events stream)) as (body & rest & E & Hb & Hr). exists body, rest.
  split_and!; [done|done| |by destruct rest as [|[] rest]|].
  - cbn. by rewrite E, relay_spec.
  - intros meta. rewrite E. split.
    + destruct rest as [|[] rest]; cbn; try done. intros [= <-]. eauto.
    + by intros (after & ->%app_inv_head).
Qed.
