(* ===== verification/FileSystem.v ===== *)
(** The part of [std] the local storage block stands on: Unix paths
    ([std::path]), UTF-8 validation, and a file system as its programs see it.

    A program is a tree of file-system calls ([Prog]). [fs_call] says what a
    call may answer and do: it may always fail, other programs run between
    calls, and a [crash] (power loss) keeps, for every name, one of the entries
    it has had since its directory was last synced, and of every file that was
    not synced, anything. *)

From stdpp Require Import pretty.
From S2P Require Import Prelude.

(** ** Paths *)

(** [std::path::Component]; [Prefix] exists on Windows only. *)
Inductive Component := RootDir | CurDir | ParentDir | Normal (name : string).
#[export] Instance Component_eq_dec : EqDecision Component.
Proof. solve_decision. Defined.

(** A path is its components: that is how [Path] compares. *)
Definition Path : Type := list Component.

Fixpoint components_of (segments : list string) : Path :=
  match segments with
  | [] => []
  | seg :: rest =>
      if is_empty seg || (seg =s ".") then components_of rest
      else (if seg =s ".." then ParentDir else Normal seg) :: components_of rest
  end.

(** [Path::components]: only a leading [.] is kept. *)
Definition components (s : string) : Path :=
  match split "/" s with
  | "" :: (_ :: _) as rest => RootDir :: components_of rest
  | "." :: rest => CurDir :: components_of rest
  | rest => components_of rest
  end.

(** [Path::join], of a path that is not empty. *)
Definition path_join (p : Path) (s : string) : Path :=
  if starts_with "/" s then components s else p ++ components_of (split "/" s).

Definition is_absolute (p : Path) : bool := match p with RootDir :: _ => true | _ => false end.

(** [Path::parent]. *)
Fixpoint parent (p : Path) : option Path :=
  match p with
  | [] | [RootDir] => None
  | [_] => Some []
  | c :: p => option_map (cons c) (parent p)
  end.

(** [Path::file_name]. *)
Definition file_name (p : Path) : option string :=
  match last p with Some (Normal name) => Some name | _ => None end.

(** [Path::strip_prefix] and [Path::starts_with]. *)
Fixpoint path_strip_prefix (base p : Path) : option Path :=
  match base, p with
  | [], p => Some p
  | b :: base, c :: p => if decide (b = c) then path_strip_prefix base p else None
  | _ :: _, [] => None
  end.
Definition path_starts_with (p base : Path) : bool := is_some (path_strip_prefix base p).

Definition component_str (c : Component) : string :=
  match c with RootDir => "/" | CurDir => "." | ParentDir => ".." | Normal name => name end.

(** The text of a path built from components. *)
Definition path_str (p : Path) : string :=
  match p with
  | RootDir :: p => "/" +:+ Prelude.join "/" (map component_str p)
  | p => Prelude.join "/" (map component_str p)
  end.

(** ** UTF-8 ([std::str::from_utf8]) *)

Record Utf8Error := mkUtf8Error { valid_up_to : N; error_len : option N }.

Definition utf8_display (e : Utf8Error) : string :=
  match error_len e with
  | Some n => "invalid utf-8 sequence of " +:+ pretty n +:+ " bytes from index " +:+ pretty (valid_up_to e)
  | None => "incomplete utf-8 byte sequence from index " +:+ pretty (valid_up_to e)
  end.

Definition is_continuation (c : ascii) : bool := in_range 128 191 c.

(** The second bytes a leading byte of a wide sequence admits. *)
Definition second_ok (first second : ascii) : bool :=
  let f := byte_of first in
  if (f =? 0xE0)%N then in_range 0xA0 0xBF second
  else if (f =? 0xED)%N then in_range 0x80 0x9F second
  else if (f =? 0xF0)%N then in_range 0x90 0xBF second
  else if (f =? 0xF4)%N then in_range 0x80 0x8F second
  else is_continuation second.

(** [run_utf8_validation]; [at_] is the index of the next byte. *)
Fixpoint utf8_check (at_ : N) (s : string) : option Utf8Error :=
  let bad n := Some (mkUtf8Error at_ (Some n)) in
  let cut := Some (mkUtf8Error at_ None) in
  match s with
  | EmptyString => None
  | String a s1 =>
      if is_ascii_char a then utf8_check (at_ + 1) s1
      else if in_range 0xC2 0xDF a then
        match s1 with
        | EmptyString => cut
        | String b s2 => if is_continuation b then utf8_check (at_ + 2) s2 else bad 1%N
        end
      else if in_range 0xE0 0xEF a then
        match s1 with
        | EmptyString => cut
        | String b s2 =>
            if second_ok a b then
              match s2 with
              | EmptyString => cut
              | String c s3 => if is_continuation c then utf8_check (at_ + 3) s3 else bad 2%N
              end
            else bad 1%N
        end
      else if in_range 0xF0 0xF4 a then
        match s1 with
        | EmptyString => cut
        | String b s2 =>
            if second_ok a b then
              match s2 with
              | EmptyString => cut
              | String c s3 =>
                  if is_continuation c then
                    match s3 with
                    | EmptyString => cut
                    | String d s4 => if is_continuation d then utf8_check (at_ + 4) s4 else bad 3%N
                    end
                  else bad 2%N
              end
            else bad 1%N
        end
      else bad 1%N
  end.

(** [String::from_utf8]. *)
Definition from_utf8 (s : string) : result string Utf8Error :=
  match utf8_check 0 s with None => Ok s | Some e => Err e end.

(** ** Calls *)

Inductive IoKind := IoNotFound | IoCrossesDevices | IoOther.
#[export] Instance IoKind_eq_dec : EqDecision IoKind.
Proof. solve_decision. Defined.
Record IoError := mkIoError { io_kind : IoKind; io_display : string }.

(** An open file: its inode, or a directory. *)
Definition Handle : Type := option N.

Section Calls.
  Context {DateTime : Type}.

Record FileMeta := mkFileMeta { fm_len : N; fm_modified : DateTime }.

(** What a directory holds, as reading it finds it. A symbolic link is not
    followed; [te_is_staging] is [same_file]'s answer. *)
Record EntryMeta := mkEntryMeta {
  em_is_dir : bool; em_is_symlink : bool; em_len : N; em_modified : DateTime; em_created : DateTime
}.
Inductive Tree :=
| BadEntry (e : IoError)
| TreeEntry (name : string) (te_is_staging : bool) (meta : result EntryMeta IoError)
    (below : result (list Tree) IoError).

Inductive FsCall :=
| Canonicalize (p : Path)
| SameFile (p q : Path)
| CreateDirAll (p : Path)
| RemoveDirAll (p : Path)
| CreateFile (p : Path)
| WriteAll (fd : N) (data : string)
| Flush (fd : N)
| SyncAll (fd : N)
| RemoveFile (p : Path)
| Rename (p q : Path)
| SyncDir (p : Path)
| StatPath (p : Path)
| ReadPath (p : Path)
| OpenFile (p : Path)
| StatHandle (h : Handle)
| ReadHandle (h : Handle) (pos : nat)
| ReadTree (p : Path)
| NextSeq.

Definition FsAnswer (c : FsCall) : Type :=
  match c with
  | Canonicalize _ => result Path IoError
  | SameFile _ _ => bool
  | CreateFile _ => result N IoError
  | StatPath _ | StatHandle _ => result FileMeta IoError
  | ReadPath _ | ReadHandle _ _ => result string IoError
  | OpenFile _ => result Handle IoError
  | ReadTree _ => result (list Tree) IoError
  | NextSeq => N
  | _ => result unit IoError
  end.

(** ** Programs *)

Inductive Prog (A : Type) : Type :=
| Ret (a : A)
| Call (c : FsCall) (k : FsAnswer c -> Prog A).
Arguments Ret {A} a.
Arguments Call {A} c k.

Fixpoint bind {A B} (p : Prog A) (k : A -> Prog B) : Prog B :=
  match p with Ret a => k a | Call c f => Call c (fun r => bind (f r) k) end.

Definition call (c : FsCall) : Prog (FsAnswer c) := Call c Ret.

(** ** The file system *)

Record Inode := mkInode { i_data : string; i_synced : bool }.
Inductive Entry := EDir | EFile (ino : N).

(** A name's entry, and those it had since its directory was last synced. *)
Record Async := mkAsync { latest : option Entry; pending : list (option Entry) }.

Record World := mkWorld {
  names : Path -> Async; inodes : N -> Inode; next_ino : N; seq : N
}.

Definition set_entry (p : Path) (e : option Entry) (w : World) : World :=
  mkWorld (fun q => if decide (q = p) then mkAsync e (latest (names w p) :: pending (names w p)) else names w q)
    (inodes w) (next_ino w) (seq w).
Definition set_inode (i : N) (n : Inode) (w : World) : World :=
  mkWorld (names w) (fun j => if decide (j = i) then n else inodes w j) (next_ino w) (seq w).

(** [w'] has some of the directories on the way to [p] that [w] lacks. *)
Definition made_dirs (p : Path) (w w' : World) : Prop :=
  inodes w' = inodes w /\ next_ino w' = next_ino w /\ seq w' = seq w
  /\ forall q, names w' q = names w q
       \/ (q `prefix_of` p /\ latest (names w q) = None
           /\ names w' q = mkAsync (Some EDir) (None :: pending (names w q))).

(** [w'] lacks some of what [w] has at [p] and below. *)
Definition removed_below (p : Path) (w w' : World) : Prop :=
  inodes w' = inodes w /\ next_ino w' = next_ino w /\ seq w' = seq w
  /\ forall q, names w' q = names w q
       \/ (p `prefix_of` q
           /\ names w' q = mkAsync None (latest (names w q) :: pending (names w q))).

Definition sync_names (p : Path) (w : World) : World :=
  mkWorld (fun q => if decide (parent q = Some p) then mkAsync (latest (names w q)) [] else names w q)
    (inodes w) (next_ino w) (seq w).

(** What a call may answer, and the file system it leaves. *)
Definition fs_call (w : World) (c : FsCall) : FsAnswer c -> World -> Prop :=
  match c with
  | Canonicalize p => fun r w' => w' = w /\ match r with Ok q => q = p | Err _ => True end
  | CreateDirAll p => fun r w' => made_dirs p w w'
      /\ match r with Ok _ => forall q, q `prefix_of` p -> q <> [] -> latest (names w' q) = Some EDir | Err _ => True end
  | RemoveDirAll p => fun r w' => removed_below p w w'
      /\ match r with
         | Ok _ => forall q, p `prefix_of` q -> latest (names w' q) = None
         | Err e => io_kind e = IoNotFound -> forall q, p `prefix_of` q -> latest (names w q) = None
         end
  | CreateFile p => fun r w' =>
      match r with
      | Ok fd => (latest (names w p) = None /\ fd = next_ino w
            /\ w' = set_entry p (Some (EFile fd))
                      (set_inode fd (mkInode "" false) (mkWorld (names w) (inodes w) (fd + 1) (seq w))))
          \/ (latest (names w p) = Some (EFile fd) /\ w' = set_inode fd (mkInode "" false) w)
      | Err _ => w' = w
      end
  | WriteAll fd data => fun r w' => exists written,
      w' = set_inode fd (mkInode (i_data (inodes w fd) +:+ written) false) w
      /\ match r with Ok _ => written = data | Err _ => starts_with written data = true end
  | SyncAll fd => fun r w' =>
      match r with Ok _ => w' = set_inode fd (mkInode (i_data (inodes w fd)) true) w | Err _ => w' = w end
  | RemoveFile p => fun r w' =>
      match r with
      | Ok _ => (exists i, latest (names w p) = Some (EFile i)) /\ w' = set_entry p None w
      | Err _ => w' = w
      end
  | Rename p q => fun r w' =>
      match r with
      | Ok _ => exists i, latest (names w p) = Some (EFile i) /\ latest (names w q) <> Some EDir
          /\ w' = set_entry q (Some (EFile i)) (set_entry p None w)
      | Err _ => w' = w
      end
  | SyncDir p => fun r w' => match r with Ok _ => w' = sync_names p w | Err _ => w' = w end
  | StatPath p => fun r w' => w' = w /\
      match r with
      | Ok m => match latest (names w p) with
                | Some (EFile i) => fm_len m = N.of_nat (String.length (i_data (inodes w i)))
                | Some EDir => True
                | None => False
                end
      | Err e => io_kind e = IoNotFound -> latest (names w p) = None
      end
  | ReadPath p => fun r w' => w' = w /\
      match r with Ok d => exists i, latest (names w p) = Some (EFile i) /\ d = i_data (inodes w i) | Err _ => True end
  | OpenFile p => fun r w' => w' = w /\
      match r with
      | Ok (Some i) => latest (names w p) = Some (EFile i)
      | Ok None => latest (names w p) = Some EDir
      | Err e => io_kind e = IoNotFound -> latest (names w p) = None
      end
  | StatHandle h => fun r w' => w' = w /\
      match h, r with
      | Some i, Ok m => fm_len m = N.of_nat (String.length (i_data (inodes w i)))
      | _, _ => True
      end
  | ReadHandle h pos => fun r w' => w' = w /\
      match h, r with
      | Some i, Ok d => exists n, d = str_take n (str_drop pos (i_data (inodes w i)))
          /\ (d = "" -> String.length (i_data (inodes w i)) <= pos)
      | None, Ok _ => False
      | _, Err _ => True
      end
  | NextSeq => fun r w' => r = (seq w mod 2 ^ 64)%N /\ w' = mkWorld (names w) (inodes w) (next_ino w) (seq w + 1)
  | Flush _ | SameFile _ _ | ReadTree _ => fun _ w' => w' = w
  end.

(** A power loss: what is found when the machine is back. *)
Definition crash (w w' : World) : Prop :=
  next_ino w' = next_ino w /\ seq w' = 0%N
  /\ (forall i, i_synced (inodes w i) = true -> inodes w' i = inodes w i)
  /\ forall p, pending (names w' p) = []
       /\ (latest (names w' p) = latest (names w p) \/ latest (names w' p) ∈ pending (names w p)
           \/ (latest (names w' p) = None
               /\ exists q, q `prefix_of` p /\ q <> p /\ latest (names w' q) <> Some EDir)).
End Calls.
Arguments Tree : clear implicits.
Arguments Ret {DateTime A} a.
Arguments Call {DateTime A} c k.
Arguments Prog : clear implicits.

Notation "'let!' x := c 'in' k" := (bind c (fun x => k))
  (at level 10, x pattern, c at level 100, k at level 200) : wafer_scope.

(** [?] in a program. *)
Definition try_bind {DateTime A B E} (p : Prog DateTime (result A E)) (k : A -> Prog DateTime (result B E))
  : Prog DateTime (result B E) :=
  bind p (fun r => match r with Ok a => k a | Err e => Ret (Err e) end).
Notation "'let!?' x := c 'in' k" := (try_bind c (fun x => k))
  (at level 10, x pattern, c at level 100, k at level 200) : wafer_scope.

(** A call whose failure is mapped and returned. *)
Definition io {DateTime A E} (c : Prog DateTime (result A IoError)) (f : IoError -> E) : Prog DateTime (result A E) :=
  bind c (fun r => Ret match r with Ok a => Ok a | Err e => Err (f e) end).
