(* ===== verification/LocalStorage.v ===== *)
(** The storage block on a local file system
    ([wafer-block-local-storage/src/service.rs]), every operation a program of
    file-system calls.

    Object bodies are read to their end before the answer is given, so that a
    stream is what it yields; the base64 of list cursors is a third-party crate
    ([CursorCodec]). [same_file] and the walk of a directory answer what the
    file system shows them. *)

From stdpp Require Import sorting pretty.
From S2P Require Import Prelude CoreTypes Text Streams Handlers StorageHandler FileSystem.

(** The base64 alphabet of cursors. *)
Class CursorCodec := {
  base64_encode : string -> string;
  base64_decode : string -> result string string;
  base64_back : forall s, base64_decode (base64_encode s) = Ok s;
  base64_empty : base64_encode "" = ""
}.

(** ** Content types ([wafer-core/src/mime.rs]) *)

Definition UNKNOWN : string := "application/octet-stream".

(** [Path::extension], of a file name. *)
Definition extension (name : string) : string :=
  match split_once "." (str_rev name) with
  | Some (ext, stem) => if is_empty stem || (name =s "..") then "" else str_rev ext
  | None => ""
  end.

Definition mime_for_ext_str (ext : string) : string :=
  let e := to_ascii_lowercase ext in
  let one_of l := existsb (String.eqb e) l in
  if one_of ["html"; "htm"] then "text/html; charset=utf-8"
  else if one_of ["css"] then "text/css; charset=utf-8"
  else if one_of ["js"; "mjs"] then "application/javascript; charset=utf-8"
  else if one_of ["json"; "map"] then "application/json; charset=utf-8"
  else if one_of ["xml"] then "application/xml; charset=utf-8"
  else if one_of ["svg"] then "image/svg+xml; charset=utf-8"
  else if one_of ["png"] then "image/png"
  else if one_of ["jpg"; "jpeg"] then "image/jpeg"
  else if one_of ["gif"] then "image/gif"
  else if one_of ["webp"] then "image/webp"
  else if one_of ["avif"] then "image/avif"
  else if one_of ["ico"] then "image/x-icon"
  else if one_of ["woff"] then "font/woff"
  else if one_of ["woff2"] then "font/woff2"
  else if one_of ["ttf"] then "font/ttf"
  else if one_of ["otf"] then "font/otf"
  else if one_of ["eot"] then "application/vnd.ms-fontobject"
  else if one_of ["pdf"] then "application/pdf"
  else if one_of ["zip"] then "application/zip"
  else if one_of ["wasm"] then "application/wasm"
  else if one_of ["txt"; "rs"; "toml"] then "text/plain; charset=utf-8"
  else if one_of ["md"] then "text/markdown; charset=utf-8"
  else if one_of ["csv"] then "text/csv; charset=utf-8"
  else if one_of ["mp4"] then "video/mp4"
  else if one_of ["webm"] then "video/webm"
  else if one_of ["mp3"] then "audio/mpeg"
  else if one_of ["ogg"] then "audio/ogg"
  else UNKNOWN.

Definition mime_for_ext (p : Path) : string :=
  mime_for_ext_str match file_name p with Some name => extension name | None => "" end.

(** [guess_content_type]. *)
Definition guess_content_type (key : string) : string := mime_for_ext (components key).

(** ** Paths under the root *)

(** [normalize_lexical]; [out] is reversed. *)
Fixpoint normalize (out : Path) (p : Path) : option Path :=
  match p with
  | [] => Some (rev out)
  | CurDir :: p => normalize out p
  | ParentDir :: p => match out with Normal _ :: out => normalize out p | _ => None end
  | c :: p => normalize (c :: out) p
  end.
Definition normalize_lexical (p : Path) : option Path := normalize [] p.

Definition STAGING_DIR : string := ".wafer-staging".

(** The name is the staging directory's, in some case. *)
Definition named_staging (name : string) : bool := eq_ignore_ascii_case name STAGING_DIR.

Definition DEFAULT_MAX_OBJECT_BYTES : N := 100 * 1024 * 1024.

Section Service.
  Context {DateTime : Type} `{DebugFormat} `{CursorCodec} (root : Path) (pid : N).
  Abbreviation Prog := (Prog DateTime).

Definition debug_path (p : Path) : string := debug_str (path_str p).

(** [is_staging]. *)
Definition is_staging (path staging : Path) : Prog bool :=
  match file_name path with
  | Some name => if named_staging name then Ret true else call (SameFile path staging)
  | None => call (SameFile path staging)
  end.

Definition staging_path : Path := root ++ [Normal STAGING_DIR].
Definition folder_path (folder : string) : Path := path_join root folder.
Definition object_path (folder key : string) : Path := path_join (path_join root folder) key.

Definition escapes_root : StorageError := InvalidArgument "path traversal: resolved path escapes storage root".

(** [validate_path]. *)
Definition validate_path (path : Path) : Prog (result Path StorageError) :=
  let!? canon_root := io (call (Canonicalize root)) (fun e =>
      Internal ("canonicalize root " +:+ debug_path root +:+ ": " +:+ io_display e)) in
  let absolute := if is_absolute path then path else canon_root ++ path in
  match normalize_lexical absolute with
  | None => Ret (Err escapes_root)
  | Some normalized =>
      match path_strip_prefix canon_root normalized with
      | None => Ret (Err escapes_root)
      | Some (first :: _) =>
          let! reserved := is_staging (canon_root ++ [first]) (canon_root ++ [Normal STAGING_DIR]) in
          if reserved then Ret (Err (InvalidArgument (STAGING_DIR +:+ " is reserved for staged writes")))
          else Ret (Ok normalized)
      | Some [] => Ret (Ok normalized)
      end
  end.

(** ** Writing *)

(** [staged_temp_path]. *)
Definition temp_name (n : N) : string := pretty pid +:+ "." +:+ pretty n +:+ ".tmp".
Definition staged_temp_path (staging : Path) : Prog Path :=
  let! n := call NextSeq in Ret (staging ++ [Normal (temp_name n)]).

(** The block that fills and syncs the temporary file. *)
Definition fill_temp (tmp : Path) (fill : N -> Prog (result unit StorageError)) : Prog (result unit StorageError) :=
  let!? fd := io (call (CreateFile tmp)) (fun e => Internal ("create temp " +:+ debug_path tmp +:+ ": " +:+ io_display e)) in
  let!? _ := fill fd in
  let!? _ := io (call (Flush fd)) (fun e => Internal ("flush temp " +:+ debug_path tmp +:+ ": " +:+ io_display e)) in
  io (call (SyncAll fd)) (fun e => Internal ("fsync temp " +:+ debug_path tmp +:+ ": " +:+ io_display e)).

Definition remove_temp (tmp : Path) (e : StorageError) : Prog (result unit StorageError) :=
  let! _ := call (RemoveFile tmp) in Ret (Err e).

(** Why a rename failed. *)
Definition rename_error (tmp path : Path) (e : IoError) : StorageError :=
  match io_kind e with
  | IoCrossesDevices => Internal
      ("cannot store " +:+ debug_path path +:+ ": its folder is on a different filesystem than the storage root "
       +:+ debug_path root +:+ " (a mount point or a symlink under the root); LocalStorageService needs every folder on the root's filesystem")
  | _ => Internal ("rename " +:+ debug_path tmp +:+ " -> " +:+ debug_path path +:+ ": " +:+ io_display e)
  end.

Definition fsync_error (p path : Path) (e : IoError) : StorageError :=
  Internal ("fsync directory " +:+ debug_path p +:+ " after writing " +:+ debug_path path
            +:+ " (the object is in place but may not survive a power loss): " +:+ io_display e).

(** [atomic_write]. *)
Definition atomic_write (path : Path) (fill : N -> Prog (result unit StorageError)) : Prog (result unit StorageError) :=
  let!? _ := match parent path with
             | Some p => io (call (CreateDirAll p)) (fun e =>
                 Internal ("create dirs for " +:+ debug_path path +:+ ": " +:+ io_display e))
             | None => Ret (Ok tt)
             end in
  let!? _ := io (call (CreateDirAll staging_path)) (fun e =>
      Internal ("create staging directory " +:+ debug_path staging_path +:+ ": " +:+ io_display e)) in
  let! tmp := staged_temp_path staging_path in
  let! filled := fill_temp tmp fill in
  match filled with
  | Err e => remove_temp tmp e
  | Ok _ =>
      let! renamed := call (Rename tmp path) in
      match renamed with
      | Err e => remove_temp tmp (rename_error tmp path e)
      | Ok _ => match parent path with
                | Some p => io (call (SyncDir p)) (fsync_error p path)
                | None => Ret (Ok tt)
                end
      end
  end.

Definition write_error (path : Path) (e : IoError) : StorageError :=
  Internal ("write " +:+ debug_path path +:+ ": " +:+ io_display e).

(** [put]. *)
Definition put (folder key data : string) : Prog (result unit StorageError) :=
  let!? path := validate_path (object_path folder key) in
  atomic_write path (fun fd => io (call (WriteAll fd data)) (write_error path)).

(** The loop of [put_streaming]. *)
Fixpoint write_stream (path : Path) (fd : N) (data : InputStream) : Prog (result unit StorageError) :=
  match data with
  | [] => Ret (Ok tt)
  | Err e :: _ => Ret (Err (Body e))
  | Ok chunk :: data =>
      let!? _ := io (call (WriteAll fd chunk)) (write_error path) in
      write_stream path fd data
  end.

(** [put_streaming]. *)
Definition put_streaming (folder key : string) (data : InputStream) : Prog (result unit StorageError) :=
  let!? path := validate_path (object_path folder key) in
  atomic_write path (fun fd => write_stream path fd data).

(** ** Reading and deleting *)

(** [check_object_size]. *)
Definition check_object_size (path : Path) (len : N) : result unit StorageError :=
  if (DEFAULT_MAX_OBJECT_BYTES <? len)%N then
    Err (TooLarge ("file " +:+ debug_path path +:+ " is " +:+ pretty len +:+ " bytes, exceeds limit of "
                   +:+ pretty DEFAULT_MAX_OBJECT_BYTES +:+ " bytes"))
  else Ok tt.

Definition not_found_or (what : string) (path : Path) (e : IoError) : StorageError :=
  match io_kind e with
  | IoNotFound => NotFound
  | _ => Internal (what +:+ " " +:+ debug_path path +:+ ": " +:+ io_display e)
  end.

(** [metadata_or_not_found]. *)
Definition metadata_or_not_found (path : Path) : Prog (result FileMeta StorageError) :=
  io (call (StatPath path)) (not_found_or "metadata" path).

Definition object_info (key : string) (len : Z) (modified : DateTime) : ObjectInfo DateTime :=
  mkObjectInfo key len (guess_content_type key) modified.

(** [get]. *)
Definition get (folder key : string) : Prog (result (string * ObjectInfo DateTime) StorageError) :=
  let!? path := validate_path (object_path folder key) in
  let!? m := metadata_or_not_found path in
  let!? _ := Ret (check_object_size path (fm_len m)) in
  let!? data := io (call (ReadPath path)) (fun e => Internal ("read " +:+ debug_path path +:+ ": " +:+ io_display e)) in
  Ret (Ok (data, object_info key (Z.of_nat (String.length data)) (fm_modified m))).

(** The read loop of [get_streaming]: what its producer sends. *)
Fixpoint read_chunks (fuel : nat) (path : Path) (h : Handle) (pos : nat) : Prog (list StreamEvent) :=
  match fuel with
  | 0 => Ret []
  | S fuel =>
      let! read := call (ReadHandle h pos) in
      match read with
      | Ok "" => Ret [Complete []]
      | Ok chunk =>
          let! rest := read_chunks fuel path h (pos + String.length chunk) in
          Ret (Chunk chunk :: rest)
      | Err e => Ret [EvError (error_new ErrorCode.Internal ("read " +:+ debug_path path +:+ ": " +:+ io_display e))]
      end
  end.

(** [get_streaming]: the file grows no more, so it has at most as many chunks
    as bytes. *)
Definition get_streaming (folder key : string) : Prog (result (OutputStream * ObjectInfo DateTime) StorageError) :=
  let!? path := validate_path (object_path folder key) in
  let!? h := io (call (OpenFile path)) (not_found_or "open" path) in
  let!? m := io (call (StatHandle h)) (fun e => Internal ("metadata " +:+ debug_path path +:+ ": " +:+ io_display e)) in
  let!? _ := Ret (check_object_size path (fm_len m)) in
  let! events := read_chunks (S (N.to_nat (fm_len m))) path h 0 in
  Ret (Ok (from_events events, object_info key (Z.of_N (fm_len m)) (fm_modified m))).

(** [delete]. *)
Definition delete (folder key : string) : Prog (result unit StorageError) :=
  let!? path := validate_path (object_path folder key) in
  let!? _ := metadata_or_not_found path in
  io (call (RemoveFile path)) (fun e => Internal ("delete " +:+ debug_path path +:+ ": " +:+ io_display e)).

(** [create_folder]. *)
Definition create_folder (name : string) : Prog (result unit StorageError) :=
  let!? path := validate_path (folder_path name) in
  io (call (CreateDirAll path)) (fun e => Internal ("create folder " +:+ debug_path path +:+ ": " +:+ io_display e)).

(** [delete_folder]. *)
Definition delete_folder (name : string) : Prog (result unit StorageError) :=
  let!? path := validate_path (folder_path name) in
  let!? _ := metadata_or_not_found path in
  io (call (RemoveDirAll path)) (fun e => Internal ("delete folder " +:+ debug_path path +:+ ": " +:+ io_display e)).

(** ** Listing *)

(** [encode_cursor] and [decode_cursor]. *)
Definition encode_cursor (key : string) : string := base64_encode key.
Definition decode_cursor (cursor : string) : result string StorageError :=
  match base64_decode cursor with
  | Err e => Err (InvalidArgument ("invalid storage list cursor: " +:+ e))
  | Ok bytes =>
      match from_utf8 bytes with
      | Err e => Err (InvalidArgument ("invalid storage list cursor (not utf-8): " +:+ utf8_display e))
      | Ok key => Ok key
      end
  end.

(** [partition_point], of a list whose leading elements satisfy [p]. *)
Fixpoint partition_point {A} (p : A -> bool) (l : list A) : nat :=
  match l with [] => 0 | x :: l => if p x then S (partition_point p l) else 0 end.

(** [cursor_start_index]. *)
Definition cursor_start_index (objects : list (ObjectInfo DateTime)) (cursor : string) : result nat StorageError :=
  if is_empty cursor then Ok 0
  else
    let? last_key := decode_cursor cursor in
    Ok (partition_point (fun o => String.leb (oi_key o) last_key) objects).

(** [list_recursive], of one entry of [dir]; [rel] is [dir] below the listed folder. *)
Fixpoint list_entry (dir rel : Path) (prefix : string) (t : Tree DateTime) (objects : list (ObjectInfo DateTime))
  : result (list (ObjectInfo DateTime)) StorageError :=
  match t with
  | BadEntry e => Err (Internal ("read entry: " +:+ io_display e))
  | TreeEntry name te_is_staging meta below =>
      let path := dir ++ [Normal name] in
      let rel := rel ++ [Normal name] in
      match meta with
      | Err e => Err (Internal ("metadata: " +:+ io_display e))
      | Ok m =>
          if (em_is_dir m || em_is_symlink m) && (named_staging name || te_is_staging) then Ok objects
          else if em_is_dir m then
            match below with
            | Err e => Err (Internal ("read dir " +:+ debug_path path +:+ ": " +:+ io_display e))
            | Ok ts =>
                (fix list_all (ts : list (Tree DateTime)) (objects : list (ObjectInfo DateTime)) :=
                   match ts with
                   | [] => Ok objects
                   | t :: ts => let? objects := list_entry path rel prefix t objects in list_all ts objects
                   end) ts objects
            end
          else
            let key := path_str rel in
            if negb (is_empty prefix) && negb (starts_with prefix key) then Ok objects
            else Ok (objects ++ [object_info key (Z.of_N (em_len m)) (em_modified m)])
      end
  end.

Fixpoint list_recursive (dir rel : Path) (prefix : string) (ts : list (Tree DateTime)) (objects : list (ObjectInfo DateTime))
  : result (list (ObjectInfo DateTime)) StorageError :=
  match ts with
  | [] => Ok objects
  | t :: ts => let? objects := list_entry dir rel prefix t objects in list_recursive dir rel prefix ts objects
  end.

(** [a.key.cmp(&b.key)]. *)
Definition key_le (a b : ObjectInfo DateTime) : Prop := String.le (oi_key a) (oi_key b).
#[export] Instance key_le_dec : RelDecision key_le.
Proof. intros a b. unfold key_le. apply _. Defined.

Definition usize (z : Z) : Z := z mod 2 ^ 64.

(** The page of the sorted objects that a request asks for. *)
Definition page (objects : list (ObjectInfo DateTime)) (opts : ListOptions) : result (ObjectList DateTime) StorageError :=
  let len := List.length objects in
  let page_limit := if (0 <? lo_limit opts)%Z then lo_limit opts else Z.of_nat len in
  let? start := match lo_cursor opts with
                | Some token => cursor_start_index objects token
                | None => Ok (Z.to_nat (Z.min (usize (lo_offset opts)) (Z.of_nat len)))
                end in
  let end_ := Z.to_nat (Z.min (Z.min (Z.of_nat start + page_limit) (2 ^ 64 - 1)) (Z.of_nat len)) in
  let window := firstn (end_ - start) (skipn start objects) in
  let next_cursor :=
    if is_some (lo_cursor opts) && (end_ <? len) then option_map (fun o => encode_cursor (oi_key o)) (last window)
    else None in
  Ok (mkObjectList window (Z.of_nat len) next_cursor).

(** [list]. *)
Definition list_objects (folder : string) (opts : ListOptions) : Prog (result (ObjectList DateTime) StorageError) :=
  let!? dir := validate_path (folder_path folder) in
  let! exists_ := call (StatPath dir) in
  match exists_ with
  | Err _ => Ret (Ok (mkObjectList [] 0 None))
  | Ok _ =>
      let!? ts := io (call (ReadTree dir)) (fun e => Internal ("read dir " +:+ debug_path dir +:+ ": " +:+ io_display e)) in
      Ret (let? objects := list_recursive dir [] (lo_prefix opts) ts [] in
           page (merge_sort key_le objects) opts)
  end.

(** The loop of [list_folders]. *)
Fixpoint folders_of (ts : list (Tree DateTime)) : result (list (FolderInfo DateTime)) StorageError :=
  match ts with
  | [] => Ok []
  | BadEntry e :: _ => Err (Internal ("read entry: " +:+ io_display e))
  | TreeEntry name te_is_staging meta _ :: ts =>
      match meta with
      | Err e => Err (Internal ("metadata: " +:+ io_display e))
      | Ok m =>
          let? folders := folders_of ts in
          Ok (if em_is_dir m && negb (named_staging name || te_is_staging)
              then mkFolderInfo name false (em_created m) :: folders else folders)
      end
  end.

(** [list_folders]. *)
Definition list_folders : Prog (result (list (FolderInfo DateTime)) StorageError) :=
  let!? ts := io (call (ReadTree root)) (fun e => Internal ("read dir " +:+ debug_path root +:+ ": " +:+ io_display e)) in
  Ret (folders_of ts).

(** ** The service *)

(** [LocalStorageService] as a [StorageService]. *)
Definition local_storage (c : StorageCall) : Prog (@StorageAnswer DateTime c) :=
  match c with
  | CallPut folder key data _ => put folder key data
  | CallPutStreaming folder key data _ => put_streaming folder key data
  | CallGet folder key => get folder key
  | CallGetStreaming folder key => get_streaming folder key
  | CallDelete folder key => delete folder key
  | CallList folder opts => list_objects folder opts
  | CallCreateFolder name _ => create_folder name
  | CallDeleteFolder name => delete_folder name
  | CallListFolders => list_folders
  end.
End Service.

(** [LocalStorageService::new]: the canonical root of the service. *)
Definition new_storage {DateTime} `{DebugFormat} (root : Path) : Prog DateTime (result Path StorageError) :=
  let!? _ := io (call (CreateDirAll root)) (fun e =>
      Internal ("create storage root " +:+ debug_path root +:+ ": " +:+ io_display e)) in
  let!? root := io (call (Canonicalize root)) (fun e =>
      Internal ("canonicalize storage root " +:+ debug_path root +:+ ": " +:+ io_display e)) in
  let staging := staging_path root in
  let! cleared := call (RemoveDirAll staging) in
  let!? _ := match cleared with
             | Ok _ => Ret (Ok tt)
             | Err e => match io_kind e with
                        | IoNotFound => Ret (Ok tt)
                        | _ => Ret (Err (Internal ("clear staging directory " +:+ debug_path staging +:+ ": " +:+ io_display e)))
                        end
             end in
  let!? _ := io (call (CreateDirAll staging)) (fun e =>
      Internal ("create staging directory " +:+ debug_path staging +:+ ": " +:+ io_display e)) in
  Ret (Ok root).
