(* ===== verification/StorageSteps.v ===== *)
(** Concurrent use of a storage root: calls of the service interleave at every
    file-system call, any number run at once, and the power may go at any
    moment, after which a new process opens the root.

    Programs are checked against a typestate ([obeys]): each knows what it owns
    of the staging directory ([Ghost]) and may make only the calls its state
    permits. [world_ok] is the invariant that all typed programs keep. *)

From stdpp Require Import pretty relations.
From S2P Require Import Prelude CoreTypes Text Streams StorageHandler FileSystem LocalStorage.

Section System.
  Context {DateTime : Type} `{DebugFormat} `{CursorCodec} (root : Path).
  (** What each path may hold, as a whole. *)
  Variable Allowed : Path -> string -> Prop.
  Abbreviation Prog := (Prog DateTime).

(** ** The system *)

Inductive Task := mkTask (c : StorageCall) (p : Prog (@StorageAnswer DateTime c)).
Inductive Mode :=
| Booting (p : Prog (result Path StorageError))
| Running (opened : Path) (pid : N) (tasks : gmap nat Task).

(** The path an object of a request lies at. *)
Definition object_at (folder key : string) : option Path := normalize_lexical (object_path root folder key).

(** The content of a body that ends well. *)
Fixpoint stream_content (data : InputStream) : option string :=
  match data with
  | [] => Some ""
  | Ok chunk :: data => option_map (String.append chunk) (stream_content data)
  | Err _ :: _ => None
  end.

(** The calls considered: what they store is allowed where they store it. *)
Definition allowed_call (c : StorageCall) : Prop :=
  match c with
  | CallPut folder key data _ => forall p, object_at folder key = Some p -> Allowed p data
  | CallPutStreaming folder key data _ =>
      forall p d, object_at folder key = Some p -> stream_content data = Some d -> Allowed p d
  | _ => True
  end.

(** One step; a process begins fewer than 2^64 writes. *)
Inductive sys_step : World * Mode -> World * Mode -> Prop :=
| step_boot w c k r w' :
    fs_call w c r w' -> sys_step (w, Booting (Call c k)) (w', Booting (k r))
| step_opened w opened pid :
    sys_step (w, Booting (Ret (Ok opened))) (w, Running opened pid ∅)
| step_retry w e : sys_step (w, Booting (Ret (Err e))) (w, Booting (new_storage root))
| step_start w opened pid tasks t c :
    tasks !! t = None -> allowed_call c ->
    sys_step (w, Running opened pid tasks) (w, Running opened pid (<[t := mkTask c (local_storage opened pid c)]> tasks))
| step_call w opened pid tasks t c fc k r w' :
    tasks !! t = Some (mkTask c (Call fc k)) -> (seq w < 2 ^ 64)%N -> fs_call w fc r w' ->
    sys_step (w, Running opened pid tasks) (w', Running opened pid (<[t := mkTask c (k r)]> tasks))
| step_finish w opened pid tasks t c a :
    tasks !! t = Some (mkTask c (Ret a)) ->
    sys_step (w, Running opened pid tasks) (w, Running opened pid (base.delete t tasks))
| step_crash w m w' : crash w w' -> sys_step (w, m) (w', Booting (new_storage root)).

(** ** Typestates *)

Definition staged (q : Path) : Prop := staging_path root `prefix_of` q.
Definition temp (pid s : N) : Path := staging_path root ++ [Normal (temp_name pid s)].

(** What a program owns: nothing; a number for a name; a file being written,
    with its content; the file when synced; the content of a file it reads; and
    for the program that opens the root, whether staging is cleared. *)
Inductive Ghost :=
| Idle
| Drawn (s : N)
| Writing (s i : N) (d : string)
| Synced (s i : N) (d : string)
| Reading (i : N) (d : string)
| Boot
| Clean.

Section Typing.
Variable pid : N.

Definition drawn (g : Ghost) : option N :=
  match g with Drawn s | Writing s _ _ | Synced s _ _ => Some s | _ => None end.
Definition owned (g : Ghost) : option N :=
  match g with Writing _ i _ | Synced _ i _ => Some i | _ => None end.
Definition used (g : Ghost) : option N :=
  match g with Writing _ i _ | Synced _ i _ | Reading i _ => Some i | _ => None end.

(** The calls a state permits. *)
Definition permitted (g : Ghost) (c : FsCall) : Prop :=
  match c with
  | CreateDirAll p => p = staging_path root \/ ~ staged p
  | CreateFile p => exists s, g = Drawn s /\ p = temp pid s
  | WriteAll fd _ | Flush fd | SyncAll fd => exists s d, g = Writing s fd d
  | RemoveFile p => (g = Idle /\ ~ staged p) \/ exists s, drawn g = Some s /\ p = temp pid s
  | Rename p q => exists s i d, g = Synced s i d /\ p = temp pid s /\ ~ staged q /\ Allowed q d
  | ReadPath p => ~ staged p
  | OpenFile p => g = Idle /\ ~ staged p
  | StatHandle h | ReadHandle h _ => match h with Some i => exists d, g = Reading i d | None => True end
  | NextSeq => g = Idle
  | Canonicalize _ | SameFile _ _ | RemoveDirAll _ | SyncDir _ | StatPath _ | ReadTree _ => True
  end.

(** The state after an answer, and what the answer tells. *)
Definition moves (g : Ghost) (c : FsCall) : @FsAnswer DateTime c -> Ghost -> Prop :=
  match c return @FsAnswer DateTime c -> Ghost -> Prop with
  | Canonicalize p => fun r g' => g' = g /\ match r with Ok q => q = p | Err _ => True end
  | RemoveDirAll p => fun r g' =>
      g' = match g, r with
           | Boot, Ok _ => if decide (p = staging_path root) then Clean else g
           | Boot, Err e => if decide (p = staging_path root /\ io_kind e = IoNotFound) then Clean else g
           | _, _ => g
           end
  | CreateFile _ => fun r g' =>
      match g, r with Drawn s, Ok fd => g' = Writing s fd "" | _, _ => g' = g end
  | WriteAll _ data => fun r g' =>
      match g, r with
      | Writing s i d, Ok _ => g' = Writing s i (d +:+ data)
      | Writing s i d, Err _ => exists d', g' = Writing s i d'
      | _, _ => g' = g
      end
  | SyncAll _ => fun r g' =>
      match g, r with Writing s i d, Ok _ => g' = Synced s i d | _, _ => g' = g end
  | RemoveFile _ => fun _ g' => g' = Idle
  | Rename _ _ => fun r g' => g' = match r with Ok _ => Idle | Err _ => g end
  | ReadPath p => fun r g' => g' = g /\ match r with Ok d => Allowed p d | Err _ => True end
  | OpenFile p => fun r g' =>
      match r with Ok (Some i) => exists d, Allowed p d /\ g' = Reading i d | _ => g' = g end
  | StatHandle h => fun r g' => g' = g /\
      match h, g, r with Some _, Reading _ d, Ok m => fm_len m = N.of_nat (String.length d) | _, _, _ => True end
  | ReadHandle h pos => fun r g' => g' = g /\
      match h, g, r with
      | Some _, Reading _ d, Ok chunk => exists n, chunk = str_take n (str_drop pos d)
          /\ (chunk = "" -> String.length d <= pos)
      | None, _, Ok _ => False
      | _, _, _ => True
      end
  | NextSeq => fun s g' => g' = Drawn s
  | _ => fun _ g' => g' = g
  end.

(** A program makes only permitted calls, and ends as [Q] says. *)
Fixpoint obeys {A} (Q : Ghost -> A -> Prop) (g : Ghost) (p : Prog A) : Prop :=
  match p with
  | Ret a => Q g a
  | Call c k => permitted g c /\ forall r g', moves g c r g' -> obeys Q g' (k r)
  end.

Lemma obeys_bind {A B} (Q : Ghost -> B -> Prop) (k : A -> Prog B) (g : Ghost) (p : Prog A) :
  obeys (fun g a => obeys Q g (k a)) g p -> obeys Q g (bind p k).
Proof.
  revert g; induction p as [a|c f IH]; intros g; [done|]. cbn [obeys bind]. intros [Hc Hk]. split; [done|].
  intros r g' Hm. by apply IH, Hk.
Qed.

Lemma obeys_mono {A} (Q Q' : Ghost -> A -> Prop) (g : Ghost) (p : Prog A) :
  (forall g a, Q g a -> Q' g a) -> obeys Q g p -> obeys Q' g p.
Proof.
  intros HQ. revert g; induction p as [a|c f IH]; intros g; [apply HQ|]. cbn. intros [Hc Hk]. split; [done|].
  intros r g' Hm. by apply IH, Hk.
Qed.

Lemma obeys_try {A B E} (Q : Ghost -> result B E -> Prop) (k : A -> Prog (result B E)) (g : Ghost) (p : Prog (result A E)) :
  obeys (fun g r => match r with Ok a => obeys Q g (k a) | Err e => Q g (Err e) end) g p -> obeys Q g (try_bind p k).
Proof.
  intros Hp. unfold try_bind. apply obeys_bind. revert Hp. apply obeys_mono. by intros g' [a|e].
Qed.

Lemma obeys_io {A E} (Q : Ghost -> result A E -> Prop) (f : IoError -> E) (g : Ghost) (p : Prog (result A IoError)) :
  obeys (fun g r => Q g match r with Ok a => Ok a | Err e => Err (f e) end) g p -> obeys Q g (io p f).
Proof. intros Hp. unfold io. apply obeys_bind. revert Hp. by apply obeys_mono. Qed.

(** One call. *)
Lemma obeys_call (c : FsCall) (Q : Ghost -> @FsAnswer DateTime c -> Prop) (g : Ghost) :
  permitted g c -> (forall r g', moves g c r g' -> Q g' r) -> obeys Q g (call c).
Proof. by split. Qed.

(** A call whose failure is returned. *)
Lemma obeys_try_io {A B E} (Q : Ghost -> result B E -> Prop) (f : IoError -> E) (k : A -> Prog (result B E)) (g : Ghost)
    (p : Prog (result A IoError)) :
  obeys (fun g r => match r with Ok a => obeys Q g (k a) | Err e => Q g (Err (f e)) end) g p ->
  obeys Q g (try_bind (io p f) k).
Proof. intros Hp. apply obeys_try, obeys_io. revert Hp. apply obeys_mono. by intros g' [a|e]. Qed.

(** ** The invariant *)

Definition candidates (w : World) (q : Path) : list (option Entry) := latest (names w q) :: pending (names w q).

Definition ghost_ok (w : World) (g : Ghost) : Prop :=
  match g with
  | Idle | Boot => True
  | Drawn s => (s < seq w)%N /\ latest (names w (temp pid s)) = None
  | Writing s i d | Synced s i d =>
      (s < seq w)%N /\ (i < next_ino w)%N
      /\ (latest (names w (temp pid s)) = None \/ latest (names w (temp pid s)) = Some (EFile i))
      /\ i_data (inodes w i) = d /\ match g with Synced _ _ _ => i_synced (inodes w i) = true | _ => True end
  | Reading i d => (i < next_ino w)%N /\ i_data (inodes w i) = d
  | Clean => forall q, staged q -> q <> staging_path root -> latest (names w q) = None
  end.

(** Two programs share no name and no file one of them writes; nobody writes
    while the root is opened. *)
Definition booting (g : Ghost) : bool := match g with Boot | Clean => true | _ => false end.
Definition apart (g g' : Ghost) : Prop :=
  (forall s, drawn g = Some s -> drawn g' <> Some s) /\ (forall i, owned g = Some i -> used g' <> Some i)
  /\ (booting g' = true -> drawn g = None).

(** No temporary name still to be drawn is in use. *)
Definition undrawn (w : World) : Prop := forall s, (seq w <= s < 2 ^ 64)%N -> latest (names w (temp pid s)) = None.

Record world_ok (w : World) (G : nat -> Ghost) : Prop := {
  ok_bound : forall q i, Some (EFile i) ∈ candidates w q -> (i < next_ino w)%N;
  ok_objects : forall q i, ~ staged q -> Some (EFile i) ∈ candidates w q ->
    i_synced (inodes w i) = true /\ Allowed q (i_data (inodes w i)) /\ forall t, owned (G t) <> Some i;
  ok_ghosts : forall t, ghost_ok w (G t);
  ok_apart : forall t t', t <> t' -> apart (G t) (G t')
}.

Definition upd (G : nat -> Ghost) (t : nat) (g : Ghost) : nat -> Ghost := fun u => if decide (u = t) then g else G u.

(** ** Calls keep the invariant *)

Lemma temp_staged (s : N) : staged (temp pid s) /\ temp pid s <> staging_path root.
Proof.
  split; [by eexists|]. unfold temp. intros E. apply (f_equal List.length) in E. rewrite length_app in E. cbn in E. lia.
Qed.

Lemma temp_inj (s s' : N) : temp pid s = temp pid s' -> s = s'.
Proof.
  unfold temp, temp_name. intros [= E]%app_inv_head. apply str_app_inj_l in E.
  apply (str_app_inj_l ".") in E.
  assert (Hrev : forall x y z : string, x +:+ z = y +:+ z -> x = y).
  { intros x y z E'. apply (str_app_inj_length x z y z); [done|].
    apply (f_equal String.length) in E'. rewrite !str_length_app in E'. lia. }
  apply Hrev in E. by apply (inj pretty) in E.
Qed.

(** Calls that add no file to a name and no entry to the staging directory. *)
Record quiet (w w' : World) : Prop := {
  quiet_inodes : inodes w' = inodes w;
  quiet_next : next_ino w' = next_ino w;
  quiet_seq : seq w' = seq w;
  quiet_names : forall q i, Some (EFile i) ∈ candidates w' q -> Some (EFile i) ∈ candidates w q;
  quiet_staged : forall q, staged q -> q <> staging_path root ->
    latest (names w' q) = latest (names w q) \/ latest (names w' q) = None
}.

Lemma quiet_ghost (w w' : World) (g : Ghost) : quiet w w' -> ghost_ok w g -> ghost_ok w' g.
Proof.
  intros [Ei En Es _ Hs].
  assert (Ht : forall s e, latest (names w (temp pid s)) = None \/ latest (names w (temp pid s)) = e ->
                           latest (names w' (temp pid s)) = None \/ latest (names w' (temp pid s)) = e).
  { intros s e. destruct (temp_staged s) as [H1 H2]. destruct (Hs _ H1 H2) as [->| ->]; auto. }
  destruct g as [|s|s i d|s i d|i d| |]; cbn; rewrite ?Ei, ?En, ?Es; try done.
  - intros [Hd Hl]. split; [done|]. destruct (Ht s None (or_introl Hl)); done.
  - intros (H1 & H2 & H3 & H4 & H5). split_and!; auto.
  - intros (H1 & H2 & H3 & H4 & H5). split_and!; auto.
  - intros Hc q Hq Hne. destruct (Hs q Hq Hne) as [->|]; auto.
Qed.

Lemma quiet_ok (w w' : World) (G : nat -> Ghost) :
  quiet w w' -> world_ok w G -> world_ok w' G /\ (undrawn w -> undrawn w').
Proof.
  intros Hq [Hb Ho Hg Ha]. pose proof Hq as [Ei En Es Hn Hs]. split; [split|].
  - intros q i Hin. rewrite En. eauto.
  - intros q i Hst Hin. rewrite Ei. eauto.
  - intros t. by eapply quiet_ghost.
  - done.
  - intros Hu s Hr. rewrite Es in Hr. destruct (temp_staged s) as [H1 H2].
    destruct (Hs _ H1 H2) as [->|]; auto.
Qed.

Lemma quiet_refl (w : World) : quiet w w.
Proof. split; auto. Qed.

(** A task's state changes over the same world. *)
Lemma ghost_change (w : World) (G : nat -> Ghost) (t : nat) (g : Ghost) :
  world_ok w G -> ghost_ok w g ->
  (forall u, u <> t -> apart g (G u) /\ apart (G u) g) ->
  (forall q i, ~ staged q -> Some (EFile i) ∈ candidates w q -> owned g <> Some i) ->
  world_ok w (upd G t g).
Proof.
  intros [Hb Ho Hg Ha] Hgok Hap Hown. unfold upd. split; [done| | |].
  - intros q i Hst Hin. destruct (Ho q i Hst Hin) as (H1 & H2 & H3). split_and!; [done|done|].
    intros u. destruct (decide (u = t)); [by eapply Hown|apply H3].
  - intros u. by destruct (decide (u = t)).
  - intros u v Huv. destruct (decide (u = t)) as [->|], (decide (v = t)) as [->|]; try done.
    + by apply Hap.
    + by apply Hap.
    + by apply Ha.
Qed.

Lemma upd_same (w : World) (G : nat -> Ghost) (t : nat) : world_ok w G -> world_ok w (upd G t (G t)).
Proof.
  intros Hw. apply ghost_change; [done|apply Hw| |].
  - intros u Hu. split; apply (ok_apart _ _ Hw); congruence.
  - intros q i Hst Hin. by apply (ok_objects _ _ Hw q i Hst Hin).
Qed.

(** Giving things up. *)
Lemma release (w : World) (G : nat -> Ghost) (t : nat) (g : Ghost) :
  world_ok w G -> ghost_ok w g -> drawn g = None -> owned g = None -> used g = None ->
  (booting g = true -> booting (G t) = true) -> world_ok w (upd G t g).
Proof.
  intros Hw Hg Hd Ho Hu Hbo. apply ghost_change; [done|done| |congruence].
  intros u Hut. split; split_and!; try (intros x Hx; congruence); [done|].
  intros Hb. by apply (ok_apart _ _ Hw u t Hut), Hbo.
Qed.

(** Calls that write no file. *)
Definition is_quiet (c : FsCall) : bool :=
  match c with CreateFile _ | WriteAll _ _ | SyncAll _ | Rename _ _ | NextSeq => false | _ => true end.

Lemma made_dirs_quiet (p : Path) (w w' : World) :
  p = staging_path root \/ ~ staged p -> made_dirs p w w' -> quiet w w'.
Proof.
  intros Hp (Ei & En & Es & Hn). split; try done.
  - intros q i. unfold candidates. destruct (Hn q) as [->|(_ & _ & ->)]; [done|]. cbn.
    intros [?|[?|Hin]%elem_of_cons]%elem_of_cons; [done|done|]. by apply elem_of_cons; right.
  - intros q Hq Hne. destruct (Hn q) as [->|(Hpre & _ & _)]; [auto|]. exfalso. destruct Hp as [->|Hp].
    + apply Hne. by apply (anti_symm prefix).
    + apply Hp. unfold staged in *. by etransitivity.
Qed.

Lemma removed_below_quiet (p : Path) (w w' : World) : removed_below p w w' -> quiet w w'.
Proof.
  intros (Ei & En & Es & Hn). split; try done.
  - intros q i. unfold candidates. destruct (Hn q) as [->|(_ & ->)]; [done|]. cbn. intros [?|Hin]%elem_of_cons; done.
  - intros q _ _. destruct (Hn q) as [->|(_ & ->)]; auto.
Qed.

Lemma set_none_quiet (p : Path) (w : World) : quiet w (set_entry p None w).
Proof.
  split; try done.
  - intros q i. unfold candidates, set_entry. cbn. destruct (decide (q = p)) as [->|]; [|done].
    cbn. by intros [?|Hin]%elem_of_cons.
  - intros q _ _. unfold set_entry. cbn. destruct (decide (q = p)); auto.
Qed.

Lemma sync_names_quiet (p : Path) (w : World) : quiet w (sync_names p w).
Proof.
  split; try done.
  - intros q i. unfold candidates, sync_names. cbn. destruct (decide (parent q = Some p)) as [E|]; [|done]. cbn.
    rewrite list_elem_of_singleton. intros ->. by left.
  - intros q _ _. unfold sync_names. cbn. destruct (decide (parent q = Some p)); auto.
Qed.

Lemma quiet_call (w w' : World) (g : Ghost) (c : FsCall) (r : @FsAnswer DateTime c) :
  is_quiet c = true -> permitted g c -> fs_call w c r w' -> quiet w w'.
Proof.
  destruct c; intros Hc Hp Hf; try discriminate Hc; cbn in Hf; try (destruct Hf as [-> _]); try subst w';
    try apply quiet_refl.
  - eapply made_dirs_quiet; [exact Hp|apply Hf].
  - eapply removed_below_quiet, Hf.
  - destruct r; [|subst; apply quiet_refl]. destruct Hf as [_ ->]. apply set_none_quiet.
  - destruct r; subst; [apply sync_names_quiet|apply quiet_refl].
Qed.

(** What such a call tells, and the state after it. *)
Lemma quiet_moves (w w' : World) (G : nat -> Ghost) (t : nat) (c : FsCall) (r : @FsAnswer DateTime c) :
  is_quiet c = true -> world_ok w G -> permitted (G t) c -> fs_call w c r w' ->
  exists g', moves (G t) c r g' /\ world_ok w' (upd G t g').
Proof.
  intros Hc Hw Hp Hf. destruct (quiet_ok _ _ G (quiet_call _ _ _ _ _ Hc Hp Hf) Hw) as [Hw' _].
  pose proof (ok_ghosts _ _ Hw t) as Hg. pose proof (upd_same _ _ t Hw') as Hsame.
  destruct c; try discriminate Hc; cbn in Hp, Hf; cbn [moves]; try (by exists (G t)); try by (exists (G t); destruct Hf).
  - (* RemoveDirAll *)
    assert (Hclean : p = staging_path root -> (forall q, p `prefix_of` q -> latest (names w' q) = None) ->
                     G t = Boot -> world_ok w' (upd G t Clean)).
    { intros -> Hn Eb. apply release; try done; [|by rewrite Eb]. intros q Hq _. by apply Hn. }
    destruct (G t) eqn:Eg; try (eexists; split; [reflexivity|done]). destruct r as [[]|e]; destruct Hf as [Hr Hf].
    + eexists; split; [done|]. destruct (decide _); [|done]. by apply Hclean.
    + eexists; split; [done|]. destruct (decide _) as [[? Ek]|]; [|done]. apply Hclean; [done| |done]. intros q Hq.
      destruct Hr as (_ & _ & _ & Hn). destruct (Hn q) as [->|(_ & ->)]; [by apply Hf|done].
  - (* RemoveFile *) exists Idle. split; [done|]. by apply release.
  - (* ReadPath *) exists (G t). split; [|done]. split; [done|]. destruct r as [d|]; [|done].
    destruct Hf as (_ & i & Hl & ->). apply (ok_objects _ _ Hw p i Hp). rewrite <- Hl. by left.
  - (* OpenFile *) destruct Hp as [Ei Hp]. destruct Hf as [-> Hf]. destruct r as [[i|]|e]; try by (exists (G t)).
    assert (Hin : Some (EFile i) ∈ candidates w p) by (rewrite <- Hf; by left).
    destruct (ok_objects _ _ Hw p i Hp Hin) as (_ & Ha & Ho).
    exists (Reading i (i_data (inodes w i))). split; [by eexists|]. apply ghost_change; try done.
    + split; [by eapply (ok_bound _ _ Hw)|done].
    + intros u Hu. split; split_and!; try done. cbn. intros j Hj [= <-]. by apply (Ho u).
  - (* StatHandle *) exists (G t). split; [|done]. split; [done|]. destruct h as [j|]; [|done].
    destruct Hp as (d & Eg). rewrite Eg in Hg |- *. destruct r as [m|]; [|done]. destruct Hf as [_ Hf]. destruct Hg as [_ <-]. exact Hf.
  - (* ReadHandle *) exists (G t). split; [|done]. split; [done|]. destruct Hf as [_ Hf]. destruct h as [j|].
    + destruct Hp as (d & Eg). rewrite Eg in Hg |- *. destruct r as [chunk|]; [|done]. destruct Hg as [_ <-]. exact Hf.
    + by destruct r.
Qed.

(** A file only its writer knows is written; nothing else changes. *)
Lemma write_own (w : World) (G : nat -> Ghost) (t : nat) (s i : N) (d : string) (n : Inode) (g : Ghost) :
  world_ok w G -> G t = Writing s i d ->
  (g = Writing s i (i_data n) \/ (g = Synced s i (i_data n) /\ i_synced n = true)) ->
  world_ok (set_inode i n w) (upd G t g) /\ (undrawn w -> undrawn (set_inode i n w)).
Proof.
  intros [Hb Ho Hg Ha] Et Hs. split; [|done].
  assert (Hother : forall u, u <> t -> used (G u) <> Some i).
  { intros u Hu. apply (Ha t u); [congruence|]. by rewrite Et. }
  assert (Hcand : forall q j, ~ staged q -> Some (EFile j) ∈ candidates w q -> j <> i).
  { intros q j Hq Hin ->. destruct (Ho q i Hq Hin) as (_ & _ & Hown). apply (Hown t). by rewrite Et. }
  pose proof (Hg t) as Ht. rewrite Et in Ht. destruct Ht as (H1 & H2 & H3 & _).
  assert (Hdr : drawn g = Some s /\ owned g = Some i /\ used g = Some i /\ booting g = false) by (destruct Hs as [->|[-> _]]; done).
  split.
  - done.
  - intros q j Hq Hin. destruct (Ho q j Hq Hin) as (Hsy & Hal & Hown). cbn. rewrite decide_False by eauto.
    split_and!; [done|done|]. intros u. unfold upd. destruct (decide (u = t)) as [->|]; [|done].
    destruct Hdr as (_ & -> & _). intros [= <-]. by eapply Hcand.
  - intros u. unfold upd. destruct (decide (u = t)) as [->|Hu].
    + destruct Hs as [->|[-> Hsy]]; cbn; rewrite decide_True by done; by split_and!.
    + pose proof (Hg u) as Hgu. specialize (Hother u Hu). destruct (G u); cbn in *; rewrite ?decide_False by congruence; done.
  - intros u v Huv. unfold upd. destruct Hdr as (Hd1 & Hd2 & Hd3 & Hd4).
    destruct (decide (u = t)) as [->|Hu], (decide (v = t)) as [->|Hv]; try done; [| |by apply Ha].
    + specialize (Ha t v ltac:(congruence)). rewrite Et in Ha. unfold apart. rewrite Hd1, Hd2. apply Ha.
    + specialize (Ha u t Hu). rewrite Et in Ha. unfold apart. rewrite Hd1, Hd3, Hd4. apply Ha.
Qed.

(** A new temporary file. *)
Lemma create_own (w : World) (G : nat -> Ghost) (t : nat) (s : N) :
  let fd := next_ino w in
  let w' := set_entry (temp pid s) (Some (EFile fd))
              (set_inode fd (mkInode "" false) (mkWorld (names w) (inodes w) (fd + 1)%N (seq w))) in
  world_ok w G -> G t = Drawn s -> world_ok w' (upd G t (Writing s fd "")) /\ (undrawn w -> undrawn w').
Proof.
  intros fd w' [Hb Ho Hg Ha] Et. pose proof (Hg t) as Ht. rewrite Et in Ht. destruct Ht as [Hs Hl].
  destruct (temp_staged s) as [Hst Hne].
  assert (Hold : forall u i, used (G u) = Some i -> (i < fd)%N).
  { intros u i Hu. pose proof (Hg u) as Hgu. destruct (G u); cbn in *; destruct_and?; by simplify_eq. }
  assert (Hcand : forall q i, Some (EFile i) ∈ candidates w' q -> q = temp pid s /\ i = fd \/ Some (EFile i) ∈ candidates w q).
  { intros q i. unfold candidates, w', set_entry. cbn. destruct (decide (q = temp pid s)) as [->|]; [|by right].
    cbn. intros [[= ->]|?]%elem_of_cons; [by left|by right]. }
  assert (Hsub : forall g i, owned g = Some i -> used g = Some i) by (by intros []).
  split; [split|].
  - intros q i [[_ ->]|Hin]%Hcand; cbn; [lia|]. specialize (Hb q i Hin). fold fd in Hb. lia.
  - intros q i Hq [[-> _]|Hin]%Hcand; [by destruct Hq|]. destruct (Ho q i Hq Hin) as (H1 & H2 & H3).
    specialize (Hb q i Hin). fold fd in Hb. cbn. rewrite decide_False by lia. split_and!; [done|done|].
    intros u. unfold upd. destruct (decide (u = t)); [|done]. cbn. intros [= <-]. lia.
  - intros u. unfold upd. destruct (decide (u = t)) as [->|Hu].
    + cbn. rewrite !decide_True by done. cbn. split_and!; auto; lia.
    + pose proof (Hg u) as Hgu. pose proof (Hold u) as Hou. destruct (Ha u t Hu) as [Had _]. destruct (Ha t u ltac:(congruence)) as (_ & _ & Hbo). rewrite Et in Had, Hbo.
      destruct (G u) as [|s'|s' i d|s' i d|i d| |] eqn:Eu; cbn in *; try done.
      * rewrite decide_False; [done|]. intros E%temp_inj. subst s'. by apply (Had s).
      * specialize (Hou i eq_refl). rewrite (decide_False (P := i = fd)) by lia. rewrite decide_False; [split_and!; try apply Hgu; lia|].
        intros E%temp_inj. subst s'. by apply (Had s).
      * specialize (Hou i eq_refl). rewrite (decide_False (P := i = fd)) by lia. rewrite decide_False; [split_and!; try apply Hgu; lia|].
        intros E%temp_inj. subst s'. by apply (Had s).
      * specialize (Hou i eq_refl). rewrite decide_False by lia. split; [lia|apply Hgu].
      * by specialize (Hbo eq_refl).
  - intros u v Huv. unfold upd. destruct (decide (u = t)) as [->|Hu], (decide (v = t)) as [->|Hv]; try done; [| |by apply Ha].
    + destruct (Ha t v ltac:(congruence)) as (Had & _ & Hbo). rewrite Et in Had, Hbo. split_and!; [exact Had| |exact Hbo].
      cbn. intros i [= <-] Hu. specialize (Hold v _ Hu). lia.
    + destruct (Ha u t Hu) as [Had _]. rewrite Et in Had. split_and!; [exact Had| |done]. cbn. intros i Hi [= <-].
      specialize (Hold u _ (Hsub _ _ Hi)). lia.
  - intros Hu s' Hr. cbn in Hr. cbn. rewrite decide_False; [by apply Hu|]. intros E%temp_inj. subst s'. lia.
Qed.

(** A whole file appears at an object's name. *)
Lemma publish (w : World) (G : nat -> Ghost) (q : Path) (i : N) :
  world_ok w G -> (i < next_ino w)%N -> ~ staged q -> i_synced (inodes w i) = true -> Allowed q (i_data (inodes w i)) ->
  (forall u, owned (G u) <> Some i) ->
  world_ok (set_entry q (Some (EFile i)) w) G /\ (undrawn w -> undrawn (set_entry q (Some (EFile i)) w)).
Proof.
  intros [Hb Ho Hg Ha] Hi Hq Hsy Hal Hown.
  assert (Hcand : forall p j, Some (EFile j) ∈ candidates (set_entry q (Some (EFile i)) w) p ->
            p = q /\ j = i \/ Some (EFile j) ∈ candidates w p).
  { intros p j. unfold candidates, set_entry. cbn. destruct (decide (p = q)) as [->|]; [|by right]. cbn.
    intros [[= ->]|?]%elem_of_cons; [by left|by right]. }
  assert (Hst : forall p, staged p -> latest (names (set_entry q (Some (EFile i)) w) p) = latest (names w p)).
  { intros p Hp. cbn. by rewrite decide_False by (intros ->; done). }
  split; [split|].
  - intros p j [[_ ->]|Hin]%Hcand; [done|]. by eapply Hb.
  - intros p j Hp [[-> ->]|Hin]%Hcand; [by split_and!|]. by apply Ho.
  - intros u. pose proof (Hg u) as Hgu.
    destruct (G u); cbn [ghost_ok] in *; rewrite ?Hst by apply temp_staged; try done.
    intros p Hp Hne. rewrite Hst by done. by apply Hgu.
  - done.
  - intros Hu s Hr. rewrite Hst by apply temp_staged. by apply Hu.
Qed.

Lemma rename_own (w : World) (G : nat -> Ghost) (t : nat) (s i : N) (d : string) (q : Path) :
  let w' := set_entry q (Some (EFile i)) (set_entry (temp pid s) None w) in
  world_ok w G -> G t = Synced s i d -> ~ staged q -> Allowed q d ->
  world_ok w' (upd G t Idle) /\ (undrawn w -> undrawn w').
Proof.
  intros w' Hw Et Hq Hal. pose proof (ok_ghosts _ _ Hw t) as Ht. rewrite Et in Ht. destruct Ht as (_ & Hi & _ & Hd & Hsy).
  destruct (quiet_ok w (set_entry (temp pid s) None w) (upd G t Idle)) as [Hw1 Hu1];
    [apply set_none_quiet|by apply release|].
  destruct (publish _ _ q i Hw1) as [Hw2 Hu2]; cbn [set_entry next_ino inodes]; [done|done|done|by rewrite Hd| |by auto].
  intros u. unfold upd. destruct (decide (u = t)) as [->|Hu]; [done|].
  destruct (ok_apart _ _ Hw t u) as (_ & Hown & _); [congruence|]. rewrite Et in Hown. intros E.
  apply (Hown i eq_refl). by destruct (G u).
Qed.

Lemma draw_own (w : World) (G : nat -> Ghost) (t : nat) :
  let w' := mkWorld (names w) (inodes w) (next_ino w) (seq w + 1)%N in
  world_ok w G -> undrawn w -> (seq w < 2 ^ 64)%N -> G t = Idle -> (forall u, booting (G u) = false) ->
  world_ok w' (upd G t (Drawn (seq w))) /\ undrawn w'.
Proof.
  intros w' [Hb Ho Hg Ha] Hu Hlt Et Hnb. split; [|intros s Hr; apply Hu; cbn in Hr; lia].
  assert (Hold : forall u s, drawn (G u) = Some s -> (s < seq w)%N).
  { intros u s Hs. pose proof (Hg u) as Hgu. destruct (G u); cbn in *; destruct_and?; by simplify_eq. }
  apply ghost_change.
  - split; [done|done| |done]. intros u. pose proof (Hg u) as Hgu. destruct (G u); cbn in *; try done.
    + split; [lia|apply Hgu].
    + split_and!; try apply Hgu. lia.
    + split_and!; try apply Hgu. lia.
  - cbn. split; [lia|]. apply Hu. lia.
  - intros u Hut. split; split_and!; try done.
    + cbn. intros s [= <-] Hs. specialize (Hold u _ Hs). lia.
    + intros Hbo. rewrite (Hnb u) in Hbo. done.
    + cbn. intros s Hs [= <-]. specialize (Hold u _ Hs). lia.
  - done.
Qed.

(** Every permitted call keeps the invariant, whatever it answers. *)
Lemma typed_call (w w' : World) (G : nat -> Ghost) (t : nat) (c : FsCall) (r : @FsAnswer DateTime c) :
  world_ok w G -> permitted (G t) c -> fs_call w c r w' ->
  (c = NextSeq -> undrawn w /\ (seq w < 2 ^ 64)%N /\ forall u, booting (G u) = false) ->
  exists g', moves (G t) c r g' /\ world_ok w' (upd G t g') /\ (undrawn w -> undrawn w').
Proof.
  intros Hw Hp Hf Hn. destruct (is_quiet c) eqn:Eq.
  { destruct (quiet_moves _ _ _ _ _ _ Eq Hw Hp Hf) as (g' & Hm & Hw'). exists g'. split_and!; [done|done|].
    apply (quiet_ok _ _ G); [by eapply quiet_call|done]. }
  pose proof (ok_ghosts _ _ Hw t) as Ht. pose proof (upd_same _ _ t Hw) as Hsame.
  destruct c; try discriminate Eq; cbn in Hp, Hf |- *.
  - destruct Hp as (s & Et & ->). rewrite Et in *. destruct r as [fd|]; [|subst w'; by exists (Drawn s)].
    destruct Ht as [_ Hl]. destruct Hf as [(_ & -> & ->)|[Hl' _]]; [|by rewrite Hl in Hl'].
    exists (Writing s (next_ino w) ""). split; [done|]. by apply create_own.
  - destruct Hp as (s & d & Et). rewrite Et in *. destruct Ht as (_ & _ & _ & Hd & _). destruct Hf as (wr & -> & Hr).
    exists (Writing s fd (d +:+ wr)). split.
    + destruct r; [by subst wr|by eexists].
    + eapply write_own; [done|done|]. left. cbn. by rewrite Hd.
  - destruct Hp as (s & d & Et). rewrite Et in *. destruct Ht as (_ & _ & _ & Hd & _).
    destruct r as [[]|]; subst w'; [|by exists (Writing s fd d)]. exists (Synced s fd d). split; [done|].
    eapply write_own; [done|done|]. right. cbn. by rewrite Hd.
  - destruct Hp as (s & i & d & Et & -> & Hq & Hal). rewrite Et in *. destruct Ht as (_ & _ & Hl & _).
    destruct r as [[]|]; [|subst w'; by exists (Synced s i d)]. destruct Hf as (j & Hj & _ & ->).
    exists Idle. split; [done|]. destruct Hl as [Hl|Hl]; rewrite Hl in Hj; [done|]. injection Hj as <-. by eapply rename_own.
  - destruct (Hn eq_refl) as (Hu & Hlt & Hnb). destruct Hf as [-> ->]. exists (Drawn (seq w)).
    split; [by rewrite N.mod_small|]. pose proof (draw_own w G t) as Hd. cbn in Hd. naive_solver.
Qed.
End Typing.
End System.
