(* ===== verification/LocalStorageProps.v ===== *)
(** Properties of the local storage block: every operation keeps the typestate
    of [StorageSteps], so objects are only ever whole, under any interleaving
    and any loss of power; where paths lead; and what listing shows. *)

From stdpp Require Import sorting pretty relations.
From stdpp Require Import pretty relations.
From S2P Require Import Prelude CoreTypes Text Streams Handlers StorageHandler FileSystem LocalStorage.
From S2P Require Import StorageSteps.

(** ** Paths *)

Lemma path_strip_prefix_Some (base p rest : Path) : path_strip_prefix base p = Some rest <-> p = base ++ rest.
Proof.
  revert p; induction base as [|b base IH]; intros p; cbn.
  - split; congruence.
  - destruct p as [|c p]; [done|]. destruct (decide (b = c)) as [->|]; [rewrite IH|]; split; congruence.
Qed.

Lemma parent_prefix (p q : Path) : parent p = Some q -> exists c, p = q ++ [c].
Proof.
  revert q; induction p as [|c p IH]; [done|]. intros q. destruct p as [|d p].
  - destruct c; cbn; try done; intros [= <-]; eauto.
  - assert (Hc : parent (c :: d :: p) = option_map (cons c) (parent (d :: p))) by (by destruct c). rewrite Hc.
    destruct (parent (d :: p)) as [q'|]; [|done]. destruct (IH q' eq_refl) as [e ->]. intros [= <-]. by exists e.
Qed.

(** A canonical path: absolute and without [.] or [..]. *)
Definition canonical (p : Path) : Prop := exists names, p = RootDir :: map Normal names.

Lemma normalize_canonical (out p q : Path) :
  (exists names, rev out = RootDir :: map Normal names) -> ~ RootDir ∈ p -> normalize out p = Some q -> canonical q.
Proof.
  revert out; induction p as [|c p IH]; intros out Ho Hp; cbn; [by intros [= <-]|].
  rewrite not_elem_of_cons in Hp. destruct Hp as [Hc Hp]. destruct c as [| | |name]; [done|by apply IH| |].
  - destruct out as [|[| | |name] out]; try done. intros E. eapply IH; [|done|exact E]. cbn in Ho.
    destruct Ho as [names Hn]. destruct names as [|n0 names _] using rev_ind.
    + by apply (app_inj_2 _ [] ) in Hn as [_ ?].
    + rewrite map_app in Hn. cbn in Hn. exists names. change (RootDir :: map Normal names ++ [Normal n0])
        with ((RootDir :: map Normal names) ++ [Normal n0]) in Hn. by apply app_inj_tail in Hn as [-> _].
  - intros E. eapply IH; [|done|exact E]. destruct Ho as [names Hn]. exists (names ++ [name]).
    cbn. by rewrite Hn, map_app.
Qed.

Section Ops.
  Context {DateTime : Type} `{DebugFormat} `{CursorCodec} (root : Path).
  Context (Hroot : canonical root).
  Variable Allowed : Path -> string -> Prop.
  Variable pid : N.
  Abbreviation Prog := (Prog DateTime).
  Abbreviation obeys := (@obeys DateTime root Allowed pid).
  Abbreviation staged := (staged root).

Lemma root_absolute (rest : Path) : is_absolute (root ++ rest) = true.
Proof. by destruct Hroot as [names ->]. Qed.

Lemma path_join_absolute (p : Path) (s : string) : is_absolute p = true -> is_absolute (path_join p s) = true.
Proof.
  unfold path_join. intros Hp. destruct (starts_with "/" s) eqn:E; [|by destruct p as [|[] p]].
  apply starts_with_spec in E as [r ->]. unfold components. cbn. destruct (split "/" r) as [|w ws] eqn:Er; [|done].
  by apply split_not_nil in Er.
Qed.

Lemma object_path_absolute (folder key : string) : is_absolute (object_path root folder key) = true.
Proof. apply path_join_absolute, path_join_absolute. rewrite <- (app_nil_r root). apply root_absolute. Qed.
Lemma folder_path_absolute (folder : string) : is_absolute (folder_path root folder) = true.
Proof. apply path_join_absolute. rewrite <- (app_nil_r root). apply root_absolute. Qed.

(** ** Validation *)

(** Where a validated path may lie. *)
Definition inside (p : Path) : Prop := root `prefix_of` p /\ ~ staged p.

Lemma staged_reserved (c : Component) (rest : Path) : staged (root ++ c :: rest) -> c = Normal STAGING_DIR.
Proof. intros [k E]. unfold staging_path in E. rewrite <- app_assoc in E. by apply app_inv_head in E as [= -> _]. Qed.

(** A program that only asks about paths, and what it answers. *)
Fixpoint asks {A} (Q : A -> Prop) (p : Prog A) : Prop :=
  match p with
  | Ret a => Q a
  | Call (Canonicalize p) k => asks Q (k (Ok p)) /\ forall e, asks Q (k (Err e))
  | Call (SameFile _ _) k => forall r, asks Q (k r)
  | _ => False
  end.

Lemma asks_obeys {A} (Q : A -> Prop) (g : Ghost) (p : Prog A) : asks Q p -> obeys (fun g' a => g' = g /\ Q a) g p.
Proof.
  induction p as [a|c k IH]; [done|]. destruct c; cbn; try done.
  - intros [Hok Herr]. split; [done|]. intros [q|e] g' [-> Hq]; [subst q|]; by apply IH.
  - intros Hr. split; [done|]. intros r g' ->. by apply IH.
Qed.

Lemma validate_asks (path : Path) :
  is_absolute path = true ->
  asks (fun r => match r with Ok p => normalize_lexical path = Some p /\ inside p | Err _ => True end)
    (validate_path root path).
Proof.
  intros Habs. unfold validate_path, call. cbn. split; [|done]. rewrite Habs.
  destruct (normalize_lexical path) as [p|] eqn:En; [|done].
  destruct (path_strip_prefix root p) as [rest|] eqn:Es; [|done]. apply path_strip_prefix_Some in Es as ->.
  destruct rest as [|first rest]; cbn.
  { split; [done|]. split; [by eexists|]. intros [k E]. unfold staging_path in E. rewrite <- app_assoc in E.
    by apply (app_inv_head root _ (_ :: k)) in E. }
  assert (Hin : first <> Normal STAGING_DIR -> inside (root ++ first :: rest)).
  { intros Hne. split; [by eexists|]. by intros ->%staged_reserved. }
  unfold is_staging, file_name. rewrite last_snoc.
  destruct first as [| | |name]; try (cbn; intros [|]; [done|]; split; [done|]; by apply Hin).
  destruct (named_staging name) eqn:Ename; cbn; [done|]. intros [|]; [done|]. split; [done|]. apply Hin.
  intros [= ->]. by vm_compute in Ename.
Qed.

(** ** Writing *)

Lemma not_staged_prefix (p q : Path) : p `prefix_of` q -> ~ staged q -> ~ staged p.
Proof. intros Hp Hq Hs. apply Hq. unfold StorageSteps.staged in *. by etransitivity. Qed.

Lemma parent_not_staged (p q : Path) : parent p = Some q -> ~ staged p -> ~ staged q.
Proof. intros [c ->]%parent_prefix. apply not_staged_prefix. by eexists. Qed.

(** A failing write leaves its file, whatever is in it. *)
Definition filling (s fd : N) (full : string -> Prop) (g : Ghost) (r : result unit StorageError) : Prop :=
  exists d, g = Writing s fd d /\ match r with Ok _ => full d | Err _ => True end.

Lemma write_obeys (s fd : N) (d data : string) (f : IoError -> StorageError) :
  obeys (filling s fd (eq (d +:+ data))) (Writing s fd d) (io (call (WriteAll fd data)) f).
Proof.
  apply obeys_io, obeys_call; [by eexists _, _|]. intros [[]|e] g'; [intros ->; by eexists|intros [d' ->]; by eexists].
Qed.

Lemma write_stream_obeys (path : Path) (s fd : N) (data : InputStream) (d : string) :
  obeys (filling s fd (fun all => option_map (String.append d) (stream_content data) = Some all))
    (Writing s fd d) (write_stream path fd data).
Proof.
  revert d; induction data as [|[chunk|e] data IH]; intros d; cbn [write_stream].
  - exists d. split; [done|]. cbn. by rewrite str_app_nil_r.
  - apply obeys_try. eapply obeys_mono; [|apply write_obeys]. intros g [u|e] (d' & -> & Hd); [|by exists d'].
    cbn in Hd. subst d'. eapply obeys_mono; [|apply IH]. intros g r (d' & -> & Hd). exists d'. split; [done|].
    destruct r; [|done]. cbn [stream_content]. destruct (stream_content data); cbn in Hd |- *; [|done].
    by rewrite str_app_assoc.
  - by exists d.
Qed.

Lemma fill_temp_obeys (s : N) (full : string -> Prop) (fill : N -> Prog (result unit StorageError)) :
  (forall fd, obeys (filling s fd full) (Writing s fd "") (fill fd)) ->
  obeys (fun g r => drawn g = Some s /\ match r with Ok _ => exists fd d, g = Synced s fd d /\ full d | Err _ => True end)
    (Drawn s) (fill_temp (temp root pid s) fill).
Proof.
  intros Hfill. unfold fill_temp. apply obeys_try_io, obeys_call; [by eexists|].
  intros [fd|e] g' Hm; cbn in Hm; [subst g'|by subst g']. apply obeys_try. eapply obeys_mono; [|apply Hfill].
  intros g [u|e] (d & -> & Hd); [|done]. apply obeys_try_io, obeys_call; [by eexists _, _|].
  intros [u'|e] g' ->; [|done]. apply obeys_io, obeys_call; [by eexists _, _|].
  intros [u''|e] g' ->; cbn; [|done]. split; [done|]. by eexists _, _.
Qed.

Lemma remove_temp_obeys (Q : Ghost -> result unit StorageError -> Prop) (s : N) (g : Ghost) (e : StorageError) :
  drawn g = Some s -> Q Idle (Err e) -> obeys Q g (remove_temp (temp root pid s) e).
Proof. intros Hg HQ. apply obeys_bind, obeys_call; [right; by exists s|]. by intros r g' ->. Qed.

Lemma atomic_write_obeys (path : Path) (fill : N -> Prog (result unit StorageError)) :
  inside path -> (forall s fd, obeys (filling s fd (Allowed path)) (Writing s fd "") (fill fd)) ->
  obeys (fun g _ => g = Idle) Idle (atomic_write root pid path fill).
Proof.
  intros [_ Hin] Hfill. unfold atomic_write. apply obeys_try.
  eapply obeys_mono with (Q := fun g r => g = Idle).
  2: { destruct (parent path) as [p|] eqn:Ep; [|done]. apply obeys_io, obeys_call; [right; by eapply parent_not_staged|].
       by intros [u|e] g' ->. }
  intros g [u|e] ->; [|done]. apply obeys_try_io, obeys_call; [by left|].
  intros [u'|e] g' ->; [|done]. apply obeys_bind, obeys_bind, obeys_call; [done|]. intros s g' ->. cbn [obeys].
  apply obeys_bind. eapply obeys_mono; [|by apply fill_temp_obeys, Hfill].
  intros g' [u''|e] [Hdr Hr]; [|by eapply remove_temp_obeys]. destruct Hr as (fd & d & -> & Hal).
  apply obeys_bind, obeys_call; [by eexists _, _, _|]. intros [x|e] g' ->; [|by eapply remove_temp_obeys].
  destruct (parent path); [|done]. apply obeys_io, obeys_call; [done|]. by intros r g' ->.
Qed.

(** ** Reading *)

Definition flatten (chunks : list string) : string := foldr String.append "" chunks.

Lemma str_drop_drop (a b : nat) (s : string) : str_drop (a + b) s = str_drop b (str_drop a s).
Proof. revert s; induction a as [|a IH]; intros [|c s]; cbn; try done. by destruct b. Qed.

(** A body read in pieces: what it yields, and whether it was read to its end. *)
Definition yields (events : list StreamEvent) (body : string) : Prop :=
  exists chunks e, events = map Chunk chunks ++ [e] /\
    match e with
    | Complete m => m = [] /\ flatten chunks = body
    | EvError _ => starts_with (flatten chunks) body = true
    | _ => False
    end.

Lemma read_chunks_obeys (fuel : nat) (path : Path) (i : N) (d : string) (pos : nat) :
  pos <= String.length d < pos + fuel ->
  obeys (fun _ events => yields events (str_drop pos d)) (Reading i d) (read_chunks fuel path (Some i) pos).
Proof.
  revert pos; induction fuel as [|fuel IH]; intros pos Hf; [lia|].
  cbn [read_chunks]. apply obeys_bind, obeys_call; [by eexists|]. intros [chunk|e] g' [-> Hm]; [|by exists [], (EvError (error_new ErrorCode.Internal ("read " +:+ debug_path path +:+ ": " +:+ io_display e)))].
  cbn in Hm. destruct Hm as (n & En & Hend). destruct chunk as [|c chunk].
  - exists [], (Complete []). split; [done|]. split; [done|]. specialize (Hend eq_refl).
    assert (Hl : String.length (str_drop pos d) = 0) by (rewrite str_length_drop; lia). by destruct (str_drop pos d).
  - set (ch := String c chunk) in *.
    assert (Hd : str_drop pos d = ch +:+ str_drop (pos + String.length ch) d).
    { rewrite str_drop_drop. pose proof (str_take_drop n (str_drop pos d)) as E. rewrite <- En in E.
      rewrite <- E at 2. by rewrite str_drop_app. }
    assert (Hlen : pos + String.length ch <= String.length d).
    { apply (f_equal String.length) in Hd. rewrite str_length_app, str_length_drop in Hd. lia. }
    apply obeys_bind. eapply obeys_mono; [|apply IH; subst ch; cbn in *; lia].
    intros g events (chunks & e & -> & He). exists (ch :: chunks), e. split; [done|]. rewrite Hd. cbn [flatten foldr].
    destruct e; try done.
    + destruct He as [-> <-]. done.
    + apply starts_with_spec in He as [r ->]. apply starts_with_spec. exists r. by rewrite str_app_assoc.
Qed.

(** ** The operations *)

(** What an answer may show of an object: all of it, or, when reading failed on
    the way, its beginning. *)
Definition whole_answer (c : StorageCall) : @StorageAnswer DateTime c -> Prop :=
  match c with
  | CallGet folder key => fun a =>
      match a with
      | Ok (data, info) => exists p, object_at root folder key = Some p /\ inside p /\ Allowed p data
          /\ oi_key info = key /\ oi_size info = Z.of_nat (String.length data)
      | Err _ => True
      end
  | CallGetStreaming folder key => fun a =>
      match a with
      | Ok (out, info) => exists p, object_at root folder key = Some p /\ inside p /\
          ((exists data, Allowed p data /\ yields (stream_events out) data /\ oi_key info = key
                         /\ oi_size info = Z.of_nat (String.length data))
           \/ exists e, stream_events out = [EvError e])
      | Err _ => True
      end
  | _ => fun _ => True
  end.

Lemma with_path {A} (Q : Ghost -> result A StorageError -> Prop) (path : Path) (k : Path -> Prog (result A StorageError)) :
  is_absolute path = true -> (forall e, Q Idle (Err e)) ->
  (forall p, normalize_lexical path = Some p -> inside p -> obeys Q Idle (k p)) ->
  obeys Q Idle (try_bind (validate_path root path) k).
Proof.
  intros Habs He Hk. apply obeys_try. eapply obeys_mono; [|by apply asks_obeys, validate_asks].
  intros g [p|e] [-> Hp]; [|apply He]. destruct Hp as [Hn Hin]. by apply Hk.
Qed.

Lemma put_obeys (folder key content_type data : string) :
  allowed_call root Allowed (CallPut folder key data content_type) ->
  obeys (fun _ _ => True) Idle (put (DateTime := DateTime) root pid folder key data).
Proof.
  intros Ha. apply with_path; [apply object_path_absolute|done|]. intros p Hn Hin.
  eapply obeys_mono; [|apply atomic_write_obeys; [done|]]; [done|]. intros s fd.
  eapply obeys_mono; [|apply write_obeys]. intros g [u|e] (d & -> & Hd); exists d; [|done]. cbn in Hd. subst d.
  split; [done|]. by apply Ha.
Qed.

Lemma put_streaming_obeys (folder key content_type : string) (data : InputStream) :
  allowed_call root Allowed (CallPutStreaming folder key data content_type) ->
  obeys (fun _ _ => True) Idle (put_streaming (DateTime := DateTime) root pid folder key data).
Proof.
  intros Ha. apply with_path; [apply object_path_absolute|done|]. intros p Hn Hin.
  eapply obeys_mono; [|apply atomic_write_obeys; [done|]]; [done|]. intros s fd.
  eapply obeys_mono; [|apply write_stream_obeys]. intros g [u|e] (d & -> & Hd); exists d; [|done].
  split; [done|]. apply Ha; [done|]. destruct (stream_content data); cbn in Hd; [|done]. by injection Hd as ->.
Qed.

Lemma metadata_obeys (Q : Ghost -> result FileMeta StorageError -> Prop) (p : Path) :
  (forall r, Q Idle r) -> obeys Q Idle (metadata_or_not_found p).
Proof. intros HQ. apply obeys_io, obeys_call; [done|]. intros r g' ->. apply HQ. Qed.

Lemma get_obeys (folder key : string) :
  obeys (fun _ a => whole_answer (CallGet folder key) a) Idle (get root folder key).
Proof.
  apply with_path; [apply object_path_absolute|done|]. intros p Hn Hin.
  apply obeys_try, metadata_obeys. intros [m|e]; [|done]. apply obeys_try. cbn [obeys].
  destruct (check_object_size p (fm_len m)) as [u|e]; [|done].
  apply obeys_try_io, obeys_call; [apply Hin|]. intros [d|e] g' [-> Hd]; [|done]. exists p. by split_and!.
Qed.

Lemma get_streaming_obeys (folder key : string) :
  obeys (fun _ a => whole_answer (CallGetStreaming folder key) a) Idle (get_streaming root folder key).
Proof.
  apply with_path; [apply object_path_absolute|done|]. intros p Hn Hin.
  apply obeys_try_io, obeys_call; [by split; [|apply Hin]|]. intros [[i|]|e] g' Hm; cbn in Hm; [| |by subst g'].
  - destruct Hm as (d & Hal & ->). apply obeys_try_io, obeys_call; [by eexists|].
    intros [m|e] g' [-> Hlen]; [|done]. cbn in Hlen. apply obeys_try. cbn [obeys].
    destruct (check_object_size p (fm_len m)) as [u|e]; [|done].
    apply obeys_bind. eapply obeys_mono; [|apply read_chunks_obeys; rewrite Hlen; lia].
    intros g events Hy. exists p. split; [done|]. split; [done|]. left. exists d. split; [done|]. split; [exact Hy|].
    split; [done|]. cbn. rewrite Hlen. lia.
  - subst g'. apply obeys_try_io, obeys_call; [done|]. intros [m|e] g' [-> _]; [|done]. apply obeys_try. cbn [obeys].
    destruct (check_object_size p (fm_len m)) as [u|e]; [|done]. cbn [read_chunks].
    apply obeys_bind, obeys_bind, obeys_call; [done|]. intros [d|e] g' [-> Hr]; [done|].
    exists p. split; [done|]. split; [done|]. right. by eexists.
Qed.

(** Every call of the service keeps the typestate. *)
Lemma local_storage_obeys (c : StorageCall) :
  allowed_call root Allowed c -> obeys (fun _ a => whole_answer c a) Idle (local_storage root pid c).
Proof.
  intros Ha. destruct c; cbn [local_storage].
  - by eapply put_obeys.
  - by eapply put_streaming_obeys.
  - apply get_obeys.
  - apply get_streaming_obeys.
  - apply with_path; [apply object_path_absolute|done|]. intros p Hn Hin.
    apply obeys_try, metadata_obeys. intros [m|e]; [|done]. apply obeys_io, obeys_call; [left; split; [done|apply Hin]|done].
  - apply with_path; [apply folder_path_absolute|done|]. intros p Hn Hin.
    apply obeys_bind, obeys_call; [done|]. intros [m|e] g' ->; [|done].
    apply obeys_try_io, obeys_call; [done|]. by intros [ts|e] g' ->.
  - apply with_path; [apply folder_path_absolute|done|]. intros p Hn Hin.
    apply obeys_io, obeys_call; [right; apply Hin|done].
  - apply with_path; [apply folder_path_absolute|done|]. intros p Hn Hin.
    apply obeys_try, metadata_obeys. intros [m|e]; [|done]. by apply obeys_io, obeys_call.
  - apply obeys_try_io, obeys_call; [done|]. by intros [ts|e] g' ->.
Qed.

(** Opening the root leaves the staging directory empty. *)
Lemma new_storage_obeys :
  obeys (fun g r => match r with Ok opened => g = Clean /\ opened = root | Err _ => True end) Boot (new_storage root).
Proof.
  assert (Hns : ~ staged root).
  { intros [k E]. unfold staging_path in E. rewrite <- app_assoc in E. rewrite <- (app_nil_r root) in E at 1.
    by apply app_inv_head in E. }
  unfold new_storage. apply obeys_try_io, obeys_call; [by right|]. intros [u|e] g' ->; [|done].
  apply obeys_try_io, obeys_call; [done|]. intros [opened|e] g' [-> Ho]; [subst opened|done].
  apply obeys_bind, obeys_call; [done|]. intros [u'|e] g' Hm; cbn in Hm.
  - rewrite decide_True in Hm by done. subst g'. apply obeys_try. cbn [obeys]. apply obeys_try_io, obeys_call; [by left|].
    by intros [u''|e] g' ->.
  - destruct (io_kind e) eqn:Ek; [|by apply obeys_try..]. rewrite decide_True in Hm by done. subst g'.
    apply obeys_try. cbn [obeys]. apply obeys_try_io, obeys_call; [by left|]. by intros [u''|e'] g' ->.
Qed.
End Ops.

(** ** Every reachable state *)

Section Reachable.
  Context {DateTime : Type} `{DebugFormat} `{CursorCodec} (root : Path) (Hroot : canonical root).
  Variable Allowed : Path -> string -> Prop.
  Abbreviation Mode := (@Mode DateTime).

(** The objects of a root, now and after any loss of power, are whole. *)
Definition objects_whole (w : World) : Prop :=
  forall p i, ~ staged root p -> Some (EFile i) ∈ candidates w p ->
    (i < next_ino w)%N /\ i_synced (inodes w i) = true /\ Allowed p (i_data (inodes w i)).

Definition files_known (w : World) : Prop := forall p i, Some (EFile i) ∈ candidates w p -> (i < next_ino w)%N.

Definition alone (g : Ghost) : nat -> Ghost := upd (fun _ => Idle) 0 g.

Definition sys_inv (st : World * Mode) : Prop :=
  exists pid G, world_ok root Allowed pid st.1 G /\
    match st.2 with
    | Booting p => (forall u, u <> 0 -> G u = Idle) /\ booting (G 0) = true
        /\ obeys root Allowed pid (fun g r => match r with Ok opened => g = Clean /\ opened = root | Err _ => True end) (G 0) p
    | Running opened pid' tasks =>
        pid' = pid /\ opened = root /\ undrawn root pid st.1 /\ (forall u, booting (G u) = false)
        /\ forall t, match tasks !! t with
                     | Some (mkTask c p) => obeys root Allowed pid (fun _ a => whole_answer root Allowed c a) (G t) p
                     | None => G t = Idle
                     end
    end.

Lemma alone_ok (pid : N) (w : World) (g : Ghost) :
  files_known w -> objects_whole w -> g = Idle \/ g = Boot -> world_ok root Allowed pid w (alone g).
Proof.
  intros Hf Ho Hg. unfold alone, upd. split.
  - exact Hf.
  - intros q i Hq Hin. destruct (Ho q i Hq Hin) as (_ & H1 & H2). split_and!; [done|done|].
    intros t. destruct (decide (t = 0)), Hg as [->| ->]; done.
  - intros t. destruct (decide (t = 0)), Hg as [->| ->]; done.
  - intros t t' _. destruct (decide (t = 0)), (decide (t' = 0)), Hg as [->| ->]; done.
Qed.

Lemma boot_inv (pid : N) (w : World) : files_known w -> objects_whole w -> sys_inv (w, Booting (new_storage root)).
Proof.
  intros Hf Ho. exists pid, (alone Boot). split; [by apply alone_ok; [| |right]|]. split; [by intros [|u]|]. split; [done|].
  by apply new_storage_obeys.
Qed.

Lemma world_ok_objects (pid : N) (w : World) (G : nat -> Ghost) :
  world_ok root Allowed pid w G -> files_known w /\ objects_whole w.
Proof.
  intros [Hb Ho _ _]. split; [done|]. intros p i Hp Hin. destruct (Ho p i Hp Hin) as (H1 & H2 & _). eauto.
Qed.

Lemma crash_objects (w w' : World) :
  crash w w' -> files_known w -> objects_whole w -> files_known w' /\ objects_whole w'.
Proof.
  intros (En & _ & Hs & Hc) Hf Ho.
  assert (Hcand : forall p i, Some (EFile i) ∈ candidates w' p -> Some (EFile i) ∈ candidates w p).
  { intros p i. destruct (Hc p) as [Hp Hl]. unfold candidates. rewrite Hp, list_elem_of_singleton. intros E.
    rewrite <- E in Hl. destruct Hl as [->|[Hin|[? _]]]; [by left|by right|done]. }
  split.
  - intros p i Hin. rewrite En. eauto.
  - intros p i Hp Hin. destruct (Ho p i Hp (Hcand p i Hin)) as (H1 & H2 & H3). rewrite En, (Hs i H2). eauto.
Qed.

Lemma booting_moves (pid : N) (g g' : Ghost) (c : FsCall) (r : @FsAnswer DateTime c) :
  booting g = true -> permitted root Allowed pid g c -> moves root Allowed g c r g' -> booting g' = true /\ c <> NextSeq.
Proof.
  intros Hb Hp Hm. destruct g; try done; destruct c; cbn in Hp, Hm; destruct_and?; subst; repeat case_match;
    try done; naive_solver.
Qed.

Lemma running_moves (pid : N) (g g' : Ghost) (c : FsCall) (r : @FsAnswer DateTime c) :
  booting g = false -> permitted root Allowed pid g c -> moves root Allowed g c r g' -> booting g' = false.
Proof.
  intros Hb Hp Hm. destruct c; cbn in Hp, Hm; destruct_and?; subst; repeat case_match; subst; try done; naive_solver.
Qed.

Lemma sys_step_inv (st st' : World * Mode) : sys_step root Allowed st st' -> sys_inv st -> sys_inv st'.
Proof.
  intros Hstep (pid & G & Hw & Hm).
  destruct Hstep as [w c k r w' Hf|w opened pid'|w e|w opened pid' tasks t c Hnone Hal|w opened pid' tasks t c fc k r w' Ht Hlt Hf
                    |w opened pid' tasks t c a Ht|w m w' Hcr]; cbn [fst snd] in *.
  - destruct Hm as (Hidle & Hb & Hp & Hk).
    destruct (typed_call root Allowed pid w w' G 0 c r Hw Hp Hf) as (g' & Hmv & Hw' & _).
    { intros ->. cbn in Hp. by rewrite Hp in Hb. }
    exists pid, (upd G 0 g'). split; [done|]. cbn. split; [by intros [|u]; [|apply Hidle]|].
    split; [by eapply booting_moves|]. by apply Hk.
  - destruct Hm as (Hidle & Hb & Hg & ->). exists pid', (fun _ => Idle).
    pose proof (ok_ghosts _ _ _ _ _ Hw 0) as Hclean. rewrite Hg in Hclean. split; [|split_and!; try done].
    + destruct (world_ok_objects _ _ _ Hw) as [Hf Ho]. split; [done| |done|done].
      intros p i Hp Hin. by destruct (Ho p i Hp Hin) as (_ & H1 & H2).
    + intros s _. by apply Hclean; apply temp_staged.
  - destruct (world_ok_objects _ _ _ Hw) as [Hf Ho]. by apply (boot_inv pid).
  - destruct Hm as (-> & -> & Hu & Hnb & Ht). exists pid, G. split; [done|]. split_and!; try done.
    intros t'. destruct (decide (t' = t)) as [->|Hne]; [|rewrite lookup_insert_ne by done; apply Ht].
    rewrite lookup_insert_eq. specialize (Ht t). rewrite Hnone in Ht. rewrite Ht. by apply local_storage_obeys.
  - destruct Hm as (-> & -> & Hu & Hnb & Htasks). pose proof (Htasks t) as Hp. rewrite Ht in Hp. destruct Hp as [Hp Hk].
    destruct (typed_call root Allowed pid w w' G t fc r Hw Hp Hf) as (g' & Hmv & Hw' & Hu'); [done|].
    exists pid, (upd G t g'). split; [done|]. split_and!; [done|done|by apply Hu'| |].
    + intros u. unfold upd. destruct (decide (u = t)); [|done]. eapply running_moves; [apply (Hnb t)|exact Hp|exact Hmv].
    + intros t'. unfold upd. destruct (decide (t' = t)) as [->|Hne]; [|rewrite lookup_insert_ne by done; apply Htasks].
      rewrite lookup_insert_eq. by apply Hk.
  - destruct Hm as (-> & -> & Hu & Hnb & Htasks). exists pid, (upd G t Idle). split; [by apply release|].
    split_and!; [done|done|done| |].
    + intros u. unfold upd. by destruct (decide (u = t)).
    + intros t'. unfold upd. destruct (decide (t' = t)) as [->|Hne]; [by rewrite lookup_delete_eq|].
      rewrite lookup_delete_ne by done. apply Htasks.
  - destruct (world_ok_objects _ _ _ Hw) as [Hf Ho]. destruct (crash_objects _ _ Hcr Hf Ho). by apply (boot_inv pid).
Qed.
End Reachable.

(** ** The properties *)

(** C19: whatever calls run at once on a storage root, however their file-system
    calls interleave or fail, and whenever the power is lost and the root opened
    again, every object - as it stands, and as any further loss of power may
    leave it - is the whole content of some write to its path; and what a read
    answers is such an object, with its size, or for a stream that fails, its
    beginning. *)
Theorem objects_only_whole {DateTime} `{DebugFormat} `{CursorCodec} (root : Path) (Allowed : Path -> string -> Prop)
    (w : World) (st : World * @Mode DateTime) :
  canonical root -> files_known w -> objects_whole root Allowed w ->
  rtc (sys_step root Allowed) (w, Booting (new_storage root)) st ->
  objects_whole root Allowed st.1
  /\ match st.2 with
     | Running opened _ tasks => opened = root
         /\ forall t c a, tasks !! t = Some (mkTask c (Ret a)) -> whole_answer root Allowed c a
     | Booting _ => True
     end.
Proof.
  intros Hroot Hf Ho Hsteps. pose proof (boot_inv (DateTime := DateTime) root Allowed 0 w Hf Ho) as Hinv.
  assert (Hst : sys_inv root Allowed st).
  { clear Hf Ho. revert Hinv. induction Hsteps as [st|st st' st'' Hs _ IH]; [done|]. intros Hi. by eapply IH, sys_step_inv. }
  destruct Hst as (pid & G & Hw & Hm). split; [by eapply world_ok_objects|].
  destruct st.2 as [p|opened pid' tasks]; [done|]. destruct Hm as (_ & -> & _ & _ & Ht). split; [done|].
  intros t c a E. specialize (Ht t). by rewrite E in Ht.
Qed.

(** * A single client of the local storage block: what a write leaves behind,
    whatever the file system answers ([wp]), and a file system that always
    succeeds, on which the operations run ([exec]). *)

(** ** Every outcome of a program *)

Section Wp.
  Context {DateTime : Type}.
  Abbreviation Prog := (Prog DateTime).

Fixpoint wp {A} (p : Prog A) (Q : A -> World -> Prop) (w : World) : Prop :=
  match p with
  | Ret a => Q a w
  | Call c k => forall r w', fs_call w c r w' -> wp (k r) Q w'
  end.

Lemma wp_mono {A} (p : Prog A) (Q Q' : A -> World -> Prop) (w : World) :
  (forall a w, Q a w -> Q' a w) -> wp p Q w -> wp p Q' w.
Proof. intros HQ. revert w; induction p as [a|c k IH]; intros w; cbn; [apply HQ|]. intros Hk r w' Hf. by apply IH, Hk. Qed.

Lemma wp_bind {A B} (p : Prog A) (k : A -> Prog B) (Q : B -> World -> Prop) (w : World) :
  wp p (fun a w => wp (k a) Q w) w -> wp (bind p k) Q w.
Proof. revert w; induction p as [a|c f IH]; intros w; cbn; [done|]. intros Hk r w' Hf. by apply IH, Hk. Qed.

Lemma wp_try {A B E} (p : Prog (result A E)) (k : A -> Prog (result B E)) (Q : result B E -> World -> Prop) (w : World) :
  wp p (fun r w => match r with Ok a => wp (k a) Q w | Err e => Q (Err e) w end) w -> wp (try_bind p k) Q w.
Proof. intros Hp. apply wp_bind. revert Hp. apply wp_mono. by intros [a|e] w'. Qed.

Lemma wp_io {A E} (p : Prog (result A IoError)) (f : IoError -> E) (Q : result A E -> World -> Prop) (w : World) :
  wp p (fun r w => Q match r with Ok a => Ok a | Err e => Err (f e) end w) w -> wp (io p f) Q w.
Proof. intros Hp. apply wp_bind. revert Hp. by apply wp_mono. Qed.

Lemma wp_try_io {A B E} (p : Prog (result A IoError)) (f : IoError -> E) (k : A -> Prog (result B E))
    (Q : result B E -> World -> Prop) (w : World) :
  wp p (fun r w => match r with Ok a => wp (k a) Q w | Err e => Q (Err (f e)) w end) w -> wp (try_bind (io p f) k) Q w.
Proof. intros Hp. apply wp_try, wp_io. revert Hp. apply wp_mono. by intros [a|e]. Qed.

Lemma wp_call (c : FsCall) (Q : @FsAnswer DateTime c -> World -> Prop) (w : World) :
  (forall r w', fs_call w c r w' -> Q r w') -> wp (call c) Q w.
Proof. done. Qed.

Lemma asks_wp {A} (Q : A -> Prop) (p : Prog A) (w : World) : asks Q p -> wp p (fun a w' => w' = w /\ Q a) w.
Proof.
  induction p as [a|c k IH]; [done|]. destruct c; cbn; try done.
  - intros [Hok Herr] [q|e] w' [-> Hq]; [subst q|]; by apply IH.
  - intros Hr r w' ->. by apply IH.
Qed.
End Wp.

(** ** What a write leaves *)

(** The object at a path. *)
Definition content_at (w : World) (q : Path) : option string :=
  match latest (names w q) with Some (EFile i) => Some (i_data (inodes w i)) | _ => None end.

Lemma sync_latest (p q : Path) (w : World) : latest (names (sync_names p w) q) = latest (names w q).
Proof. unfold sync_names. cbn. by destruct (decide (parent q = Some p)). Qed.

Lemma sync_content (p q : Path) (w : World) : content_at (sync_names p w) q = content_at w q.
Proof. unfold content_at. by rewrite sync_latest. Qed.

Lemma sync_pending (p q : Path) (w : World) : parent q = Some p -> pending (names (sync_names p w) q) = [].
Proof. intros E. unfold sync_names. cbn. by rewrite decide_True. Qed.

Section Write.
  Context {DateTime : Type} `{DebugFormat} `{CursorCodec} (root : Path) (pid : N) (w0 : World).
  Abbreviation Prog := (Prog DateTime).
  Hypothesis Hknown : files_known w0.
  Hypothesis Hundrawn : undrawn root pid w0.
  Hypothesis Hseq : (seq w0 < 2 ^ 64)%N.

(** The objects are as they were. *)
Definition untouched (w : World) : Prop := forall q, ~ staged root q -> content_at w q = content_at w0 q.

(** The state in which a write names its file [n] and has written [d]: nobody
    else has the file. *)
Record in_temp (s fd : N) (d : string) (w : World) : Prop := {
  it_same : untouched w;
  it_temp : latest (names w (temp root pid s)) = Some (EFile fd);
  it_data : i_data (inodes w fd) = d;
  it_mine : forall q, ~ staged root q -> latest (names w q) <> Some (EFile fd)
}.

(** Nothing but directories was added. *)
Record prepared (w : World) : Prop := {
  pr_inodes : inodes w = inodes w0; pr_next : next_ino w = next_ino w0; pr_seq : seq w = seq w0;
  pr_files : forall q i, latest (names w q) = Some (EFile i) <-> latest (names w0 q) = Some (EFile i);
  pr_temp : latest (names w (temp root pid (seq w0))) = None
}.

Lemma prepared_start : prepared w0.
Proof. split; try done. apply Hundrawn. lia. Qed.

Lemma prepared_untouched (w : World) : prepared w -> untouched w.
Proof.
  intros [Ei _ _ Hf _] q _. unfold content_at. rewrite Ei.
  destruct (latest (names w q)) as [[|i]|] eqn:E; [|by apply Hf in E as ->|];
    (destruct (latest (names w0 q)) as [[|j]|] eqn:E0; [done|apply Hf in E0; congruence|done]).
Qed.

Lemma prepared_dirs (p : Path) (w w' : World) :
  p = staging_path root \/ ~ staged root p -> made_dirs p w w' -> prepared w -> prepared w'.
Proof.
  intros Hp Hmd [Ei En Es Hf Ht]. pose proof (made_dirs_quiet root p w w' Hp Hmd) as [_ _ _ _ Hst].
  destruct Hmd as (Ei' & En' & Es' & Hn). split; [congruence..| |].
  - intros q i. rewrite <- Hf. destruct (Hn q) as [->|(_ & El & ->)]; [done|]. by rewrite El.
  - destruct (temp_staged root pid (seq w0)) as [H1 H2]. destruct (Hst _ H1 H2) as [->|]; done.
Qed.

Lemma create_in_temp (w : World) :
  prepared w -> let fd := next_ino w in
  in_temp (seq w0) fd "" (set_entry (temp root pid (seq w0)) (Some (EFile fd))
    (set_inode fd (mkInode "" false) (mkWorld (names w) (inodes w) (fd + 1)%N (seq w + 1)%N))).
Proof.
  intros Hp fd. pose proof (prepared_untouched w Hp) as Hu. destruct Hp as [Ei En Es Hf Ht].
  destruct (temp_staged root pid (seq w0)) as [Hst _].
  assert (Hfresh : forall q i, latest (names w q) = Some (EFile i) -> i <> fd).
  { intros q i El%Hf Efd. assert (i < next_ino w0)%N; [|unfold fd in Efd; lia].
    apply (Hknown q). unfold candidates. rewrite El. by left. }
  split.
  - intros q Hq. rewrite <- (Hu q Hq). unfold content_at. cbn. rewrite decide_False by (intros ->; done).
    destruct (latest (names w q)) as [[|i]|] eqn:El; try done. by rewrite decide_False by (by eapply Hfresh).
  - cbn. by rewrite decide_True.
  - cbn. by rewrite decide_True.
  - intros q Hq. cbn. rewrite decide_False by (intros ->; done). intros El. by apply (Hfresh q _ El).
Qed.

Lemma write_in_temp (s fd : N) (d : string) (n : Inode) (w : World) :
  in_temp s fd d w -> in_temp s fd (i_data n) (set_inode fd n w).
Proof.
  intros [Hs Ht Hd Hm]. split; [|done| |done].
  - intros q Hq. rewrite <- (Hs q Hq). unfold content_at. cbn. specialize (Hm q Hq).
    destruct (latest (names w q)) as [[|i]|]; try done. by rewrite decide_False by congruence.
  - cbn. by rewrite decide_True.
Qed.

Definition fills (full : string -> Prop) (s fd : N) (r : result unit StorageError) (w : World) : Prop :=
  exists d, in_temp s fd d w /\ match r with Ok _ => full d | Err _ => True end.

Lemma write_wp (s fd : N) (d data : string) (f : IoError -> StorageError) (w : World) :
  in_temp s fd d w -> wp (io (call (DateTime := DateTime) (WriteAll fd data)) f) (fills (eq (d +:+ data)) s fd) w.
Proof.
  intros Hw. apply wp_io, wp_call. intros r w' (wr & -> & Hr). exists (d +:+ wr). split.
  - pose proof Hw as [_ _ Hd _]. rewrite Hd. by apply (write_in_temp s fd d (mkInode (d +:+ wr) false)).
  - destruct r; [by subst|done].
Qed.

Lemma write_stream_wp (path : Path) (s fd : N) (data : InputStream) (d : string) (w : World) :
  in_temp s fd d w ->
  wp (write_stream (DateTime := DateTime) path fd data)
    (fills (fun all => option_map (String.append d) (stream_content data) = Some all) s fd) w.
Proof.
  revert d w; induction data as [|[chunk|e] data IH]; intros d w Hw; cbn [write_stream].
  - exists d. split; [done|]. cbn. by rewrite str_app_nil_r.
  - apply wp_try. eapply wp_mono; [|by apply write_wp]. intros [u|e] w' (d' & Hw' & Hd); [|by exists d']. subst d'.
    eapply wp_mono; [|by apply IH]. intros r w'' (d' & Hw'' & Hd). exists d'. split; [done|]. destruct r; [|done].
    cbn [stream_content]. destruct (stream_content data); cbn in Hd |- *; [|done]. by rewrite str_app_assoc.
  - by exists d.
Qed.

(** What a write leaves, by its answer. *)
Definition written (path : Path) (d : string) (w : World) : Prop :=
  content_at w path = Some d /\ forall q, ~ staged root q -> q <> path -> content_at w q = content_at w0 q.
Definition on_disk (path : Path) (w : World) : Prop :=
  exists i, latest (names w path) = Some (EFile i) /\ i_synced (inodes w i) = true
    /\ (parent path <> None -> pending (names w path) = []).
(** After a loss of power the object is there, unless a folder of it is gone. *)
Definition durable (path : Path) (d : string) (w : World) : Prop :=
  forall w', crash w w' -> content_at w' path = Some d
    \/ exists q, q `prefix_of` path /\ q <> path /\ latest (names w' q) <> Some EDir.
Definition all_or_nothing (path : Path) (full : string -> Prop) (r : result unit StorageError) (w : World) : Prop :=
  match r with
  | Ok _ => exists d, full d /\ written path d w /\ on_disk path w
  | Err e => untouched w
      \/ exists d p io, full d /\ written path d w /\ parent path = Some p /\ e = fsync_error p path io
  end.

Lemma on_disk_durable (path : Path) (d : string) (w : World) :
  parent path <> None -> content_at w path = Some d -> on_disk path w -> durable path d w.
Proof.
  intros Hpar Hc (i & Hl & Hsy & Hp) w' (_ & _ & Hs & Hn). destruct (Hn path) as [_ Hp']. rewrite (Hp Hpar) in Hp'.
  destruct Hp' as [Hl'|[Hin|(_ & q & Hq)]]; [left| |right; by exists q].
  - unfold content_at in *. rewrite Hl', Hl, (Hs i Hsy). by rewrite Hl in Hc.
  - by apply elem_of_nil in Hin.
Qed.

Lemma remove_temp_wp (path : Path) (full : string -> Prop) (tmp : Path) (e : StorageError) (w : World) :
  staged root tmp -> untouched w -> wp (remove_temp (DateTime := DateTime) tmp e) (all_or_nothing path full) w.
Proof.
  intros Ht Hu. apply wp_bind, wp_call. intros r w' Hf. left. destruct r; cbn in Hf; [|by subst w'].
  destruct Hf as [_ ->]. intros q Hq. rewrite <- (Hu q Hq). unfold content_at. cbn. by rewrite decide_False by (intros ->; done).
Qed.

Lemma fill_temp_wp (full : string -> Prop) (fill : N -> Prog (result unit StorageError)) (w : World) :
  (forall fd w, in_temp (seq w0) fd "" w -> wp (fill fd) (fills full (seq w0) fd) w) -> prepared w ->
  wp (fill_temp (temp root pid (seq w0)) fill)
    (fun r w => untouched w /\ match r with
       | Ok _ => exists fd d, in_temp (seq w0) fd d w /\ full d /\ i_synced (inodes w fd) = true
       | Err _ => True
       end) (mkWorld (names w) (inodes w) (next_ino w) (seq w + 1)%N).
Proof.
  intros Hfill Hp. unfold fill_temp. apply wp_try_io, wp_call. intros r w' Hf.
  destruct r as [fd|e]; cbn in Hf; [|subst w'; split; [exact (prepared_untouched w Hp)|done]].
  destruct Hf as [(_ & -> & ->)|[Hl _]]; [|rewrite (pr_temp w Hp) in Hl; done].
  apply wp_try. eapply wp_mono; [|apply Hfill, (create_in_temp w Hp)].
  intros [u|e] w' (d & Hw' & Hd); [|split; [apply Hw'|done]].
  apply wp_try_io, wp_call. intros r w'' ->. destruct r as [u'|e]; [|split; [apply Hw'|done]].
  apply wp_io, wp_call. intros r w'' Hf. destruct r as [u''|e]; cbn in Hf; subst w''; [|split; [apply Hw'|done]].
  pose proof (write_in_temp _ _ _ (mkInode (i_data (inodes w' (next_ino w))) true) _ Hw') as Hw''.
  split; [apply Hw''|]. exists (next_ino w), d. split; [|split; [done|cbn; by rewrite decide_True]].
  destruct Hw' as [_ _ Edata _]. cbn in Hw''. by rewrite Edata in Hw'' |- *.
Qed.

Lemma atomic_write_wp (path : Path) (full : string -> Prop) (fill : N -> Prog (result unit StorageError)) :
  ~ staged root path ->
  (forall fd w, in_temp (seq w0) fd "" w -> wp (fill fd) (fills full (seq w0) fd) w) ->
  wp (atomic_write root pid path fill) (all_or_nothing path full) w0.
Proof.
  intros Hpath Hfill. destruct (temp_staged root pid (seq w0)) as [Hst _]. unfold atomic_write. apply wp_try.
  eapply wp_mono with (Q := fun _ w => prepared w).
  2: { destruct (parent path) as [p|] eqn:Ep; [|apply prepared_start].
       apply wp_io, wp_call. intros r w [Hmd _]. eapply prepared_dirs; [right|exact Hmd|apply prepared_start].
       by eapply parent_not_staged. }
  intros [u|e] w Hw; [|left; by apply prepared_untouched].
  apply wp_try_io, wp_call. intros r w' [Hmd _]. assert (Hw' : prepared w') by (eapply prepared_dirs; [by left|done|done]).
  destruct r as [u'|e]; [|left; by apply prepared_untouched].
  apply wp_bind, wp_bind, wp_call. intros s w'' [-> ->]. cbn [wp]. rewrite (pr_seq w' Hw').
  rewrite N.mod_small by done. change (staging_path root ++ [Normal (temp_name pid (seq w0))]) with (temp root pid (seq w0)).
  apply wp_bind. rewrite <- (pr_seq w' Hw') at 2. eapply wp_mono; [|by apply fill_temp_wp].
  intros [u''|e] w3 [Hu Hr]; [|by apply remove_temp_wp]. destruct Hr as (fd & d & Hin & Hd & Hsy).
  apply wp_bind, wp_call. intros [u3|e] w4 Hf; cbn in Hf; [|subst w4; by apply remove_temp_wp].
  destruct Hf as (i & Hl & _ & ->). rewrite (it_temp _ _ _ _ Hin) in Hl. injection Hl as <-.
  set (w4 := set_entry path _ _).
  assert (Hwr : written path d w4 /\ latest (names w4 path) = Some (EFile fd) /\ i_synced (inodes w4 fd) = true).
  { split; [split|by unfold w4; cbn; rewrite decide_True].
    - unfold content_at, w4. cbn. rewrite decide_True by done. cbn. f_equal. apply Hin.
    - intros q Hq Hne. rewrite <- (Hu q Hq). unfold content_at, w4. cbn. rewrite !decide_False; [done|intros ->; done|done]. }
  destruct Hwr as (Hwr & Hl & Hsy'). destruct (parent path) as [p|] eqn:Ep.
  - apply wp_io, wp_call. intros [u4|e] w5 Hf; cbn in Hf; subst w5.
    + exists d. split; [done|]. split.
      * destruct Hwr as [Hc Ho]. split; [by rewrite sync_content|]. intros q Hq Hne. rewrite sync_content. by apply Ho.
      * exists fd. rewrite sync_latest. split; [done|]. split; [done|]. intros _. by apply sync_pending.
    + right. exists d, p, e. done.
  - exists d. split; [done|]. split; [done|]. exists fd. split; [done|]. split; [done|]. by rewrite Ep.
Qed.

End Write.

(** What an upload leaves, when it stores what [full] says. *)
Definition upload_outcome `{DebugFormat} (root : Path) (folder key : string) (full : string -> Prop) (w : World)
    (r : result unit StorageError) (w' : World) : Prop :=
  match r with
  | Ok _ => exists path d, object_at root folder key = Some path /\ inside root path /\ full d
      /\ written root w path d w' /\ (parent path <> None -> durable path d w')
  | Err e => untouched root w w'
      \/ exists path d p io, object_at root folder key = Some path /\ full d /\ written root w path d w'
           /\ parent path = Some p /\ e = fsync_error p path io
  end.

Lemma upload_wp {DateTime} `{DebugFormat} `{CursorCodec} (root : Path) (pid : N) (w : World) (folder key : string)
    (full : string -> Prop) (fill : Path -> N -> Prog DateTime (result unit StorageError)) :
  canonical root -> files_known w -> undrawn root pid w -> (seq w < 2 ^ 64)%N ->
  (forall path fd w', in_temp root pid w (seq w) fd "" w' -> wp (fill path fd) (fills root pid w full (seq w) fd) w') ->
  wp (let!? path := validate_path root (object_path root folder key) in atomic_write root pid path (fill path))
    (upload_outcome root folder key full w) w.
Proof.
  intros Hroot Hk Hu Hs Hfill. apply wp_try.
  eapply wp_mono; [|apply asks_wp, validate_asks, object_path_absolute, Hroot].
  intros [path|e] w' [-> Hp]; [|left; by intros q _]. destruct Hp as [Hn Hin].
  eapply wp_mono; [|eapply atomic_write_wp; [done|done|done|apply Hin|by apply Hfill]].
  intros [u|e] w' Hr; cbn in Hr |- *.
  - destruct Hr as (d & Hd & Hw & Hdisk). exists path, d. split_and!; try done; [apply Hin..|].
    intros Hpar. apply on_disk_durable; [done|apply Hw|done].
  - destruct Hr as [Hr|(d & p & io & Hd & Hw & Hp & ->)]; [by left|right]. by exists path, d, p, io.
Qed.

(** an upload is all or nothing: if it answers success, its object holds
    exactly the body (for a stream: of one that ended well), every other object
    is as it was, and after a loss of power the object is still there unless a
    folder of it is gone; if it answers an error, no object changed, unless the
    error says that the object is in place but its folder was not synced. *)
Theorem upload_all_or_nothing {DateTime} `{DebugFormat} `{CursorCodec} (root : Path) (pid : N) (w : World)
    (folder key : string) :
  canonical root -> files_known w -> undrawn root pid w -> (seq w < 2 ^ 64)%N ->
  (forall data, wp (put (DateTime := DateTime) root pid folder key data) (upload_outcome root folder key (eq data) w) w)
  /\ (forall stream, wp (put_streaming (DateTime := DateTime) root pid folder key stream)
        (upload_outcome root folder key (fun d => stream_content stream = Some d) w) w).
Proof.
  intros Hroot Hk Hu Hs. split.
  - intros data. apply upload_wp; try done. intros path fd w' Hw. exact (write_wp root pid w (seq w) fd "" data (write_error path) w' Hw).
  - intros stream. apply upload_wp; try done. intros path fd w' Hw.
    eapply wp_mono; [|exact (write_stream_wp root pid w path (seq w) fd stream "" w' Hw)].
    intros r w'' (d & Hin & Hd). exists d. split; [done|]. destruct r; [|done].
    destruct (stream_content stream); cbn in Hd; [|done]. by injection Hd as ->.
Qed.

(** ** A file system that succeeds *)

Definition dirs_to (p : Path) (w : World) : World :=
  mkWorld (fun q => if decide (q `prefix_of` p /\ latest (names w q) = None)
                    then mkAsync (Some EDir) (None :: pending (names w q)) else names w q)
    (inodes w) (next_ino w) (seq w).

Definition no_entry : IoError := mkIoError IoNotFound "No such file or directory (os error 2)".

(** The directories on the way hold: no file lies among them. *)
Definition no_file_on (p : Path) (w : World) : bool :=
  forallb (fun n => match latest (names w (firstn n p)) with Some (EFile _) => false | _ => true end) (List.seq 1 (List.length p)).

(** [FsCall] answered by a file system that fails only where it must. *)
Definition perform {DateTime} (now : DateTime) (w : World) (c : FsCall) : @FsAnswer DateTime c * World :=
  match c return @FsAnswer DateTime c * World with
  | Canonicalize p => (Ok p, w)
  | SameFile _ _ => (false, w)
  | CreateDirAll p => if no_file_on p w then (Ok tt, dirs_to p w) else (Err (mkIoError IoOther "Not a directory (os error 20)"), w)
  | RemoveDirAll p =>
      (Ok tt, mkWorld (fun q => if decide (p `prefix_of` q) then mkAsync None (latest (names w q) :: pending (names w q)) else names w q)
                (inodes w) (next_ino w) (seq w))
  | CreateFile p =>
      match latest (names w p) with
      | Some (EFile i) => (Ok i, set_inode i (mkInode "" false) w)
      | Some EDir => (Err (mkIoError IoOther "Is a directory (os error 21)"), w)
      | None => (Ok (next_ino w), set_entry p (Some (EFile (next_ino w)))
                   (set_inode (next_ino w) (mkInode "" false) (mkWorld (names w) (inodes w) (next_ino w + 1)%N (seq w))))
      end
  | WriteAll fd data => (Ok tt, set_inode fd (mkInode (i_data (inodes w fd) +:+ data) false) w)
  | Flush _ => (Ok tt, w)
  | SyncAll fd => (Ok tt, set_inode fd (mkInode (i_data (inodes w fd)) true) w)
  | RemoveFile p => match latest (names w p) with
                    | Some (EFile _) => (Ok tt, set_entry p None w)
                    | _ => (Err no_entry, w)
                    end
  | Rename p q => match latest (names w p), latest (names w q) with
                  | Some (EFile i), Some EDir => (Err (mkIoError IoOther "Is a directory (os error 21)"), w)
                  | Some (EFile i), _ => (Ok tt, set_entry q (Some (EFile i)) (set_entry p None w))
                  | _, _ => (Err no_entry, w)
                  end
  | SyncDir p => (Ok tt, sync_names p w)
  | StatPath p => match latest (names w p) with
                  | Some (EFile i) => (Ok (mkFileMeta (N.of_nat (String.length (i_data (inodes w i)))) now), w)
                  | Some EDir => (Ok (mkFileMeta 4096 now), w)
                  | None => (Err no_entry, w)
                  end
  | ReadPath p => match latest (names w p) with
                  | Some (EFile i) => (Ok (i_data (inodes w i)), w)
                  | _ => (Err no_entry, w)
                  end
  | OpenFile p => match latest (names w p) with
                  | Some (EFile i) => (Ok (Some i), w)
                  | Some EDir => (Ok None, w)
                  | None => (Err no_entry, w)
                  end
  | StatHandle h => (Ok (mkFileMeta match h with Some i => N.of_nat (String.length (i_data (inodes w i))) | None => 4096%N end now), w)
  | ReadHandle h pos => match h with
                        | Some i => (Ok (str_take 4 (str_drop pos (i_data (inodes w i)))), w)
                        | None => (Err (mkIoError IoOther "Is a directory (os error 21)"), w)
                        end
  | ReadTree _ => (Ok [], w)
  | NextSeq => ((seq w mod 2 ^ 64)%N, mkWorld (names w) (inodes w) (next_ino w) (seq w + 1)%N)
  end.

(** A program run on it. *)
Fixpoint exec {DateTime A} (now : DateTime) (p : Prog DateTime A) (w : World) : A * World :=
  match p with
  | Ret a => (a, w)
  | Call c k => let '(r, w) := perform now w c in exec now (k r) w
  end.

(** What it does is what a file system may do. *)
Lemma no_file_on_spec (p q : Path) (w : World) :
  no_file_on p w = true -> q `prefix_of` p -> q <> [] -> forall i, latest (names w q) <> Some (EFile i).
Proof.
  intros Hn [k ->] Hq i E. unfold no_file_on in Hn. rewrite forallb_forall in Hn.
  specialize (Hn (List.length q)). rewrite firstn_app, Nat.sub_diag, firstn_all, app_nil_r, E in Hn.
  assert (false = true); [|done]. apply Hn. apply in_seq. rewrite length_app. destruct q; cbn; [done|lia].
Qed.

Lemma perform_ok {DateTime} (now : DateTime) (w : World) (c : FsCall) : fs_call w c (perform now w c).1 (perform now w c).2.
Proof.
  destruct c; cbn [perform]; try done.
  - destruct (no_file_on p w) eqn:En; cbn.
    + split.
      * split_and!; try done. intros q. cbn. destruct (decide _) as [[H1 H2]|]; [right|by left]. by rewrite H2.
      * intros q Hq Hne. destruct (decide _) as [|Hd]; [done|]. cbn.
        destruct (latest (names w q)) as [[|i]|] eqn:El; [done| |by destruct Hd].
        by destruct (no_file_on_spec p q w En Hq Hne i).
    + split; [|done]. split_and!; try done. by left.
  - cbn. split.
    + split_and!; try done. intros q. cbn. destruct (decide _); [by right|by left].
    + intros q Hq. by rewrite decide_True.
  - destruct (latest (names w p)) as [[|i]|] eqn:El; cbn; [done|by right|by left].
  - by exists data.
  - destruct (latest (names w p)) as [[|i]|] eqn:El; cbn; [done| |done]. split; [by eexists|done].
  - destruct (latest (names w p)) as [[|i]|] eqn:El; cbn; [done| |done].
    destruct (latest (names w q)) as [[|j]|] eqn:Eq; cbn; [done|by exists i..].
  - destruct (latest (names w p)) as [[|i]|] eqn:El; cbn; by rewrite ?El.
  - destruct (latest (names w p)) as [[|i]|] eqn:El; cbn; [done| |done]. split; [done|]. by exists i.
  - destruct (latest (names w p)) as [[|i]|] eqn:El; cbn; by rewrite ?El.
  - by destruct h.
  - destruct h as [i|]; cbn; [|done]. split; [done|]. exists 4. split; [done|]. intros E.
    assert (Hl : str_take 4 (str_drop pos (i_data (inodes w i))) = "") by exact E. apply (f_equal String.length) in Hl.
    rewrite str_length_take, str_length_drop in Hl. change (String.length "") with 0 in Hl. lia.
Qed.

Lemma wp_exec {DateTime A} (now : DateTime) (p : Prog DateTime A) (Q : A -> World -> Prop) (w : World) :
  wp p Q w -> Q (exec now p w).1 (exec now p w).2.
Proof.
  revert w; induction p as [a|c k IH]; intros w; cbn; [done|]. intros Hk. pose proof (perform_ok now w c) as Hc.
  destruct (perform now w c) as [r w']. by apply IH, Hk.
Qed.

(** ** Runs *)

(** A fresh disk with nothing but its root directory. *)
Definition fresh_disk : World :=
  mkWorld (fun q => mkAsync (if decide (q = [RootDir]) then Some EDir else None) []) (fun _ => mkInode "" false) 0 0.
Definition srv : Path := components "/srv/data".
Definition plain_text : DebugFormat := {| debug_str s := s |}.
Definition plain_cursor : CursorCodec := {| base64_encode s := s; base64_decode s := Ok s; base64_back _ := eq_refl; base64_empty := eq_refl |}.
Definition opened : World := (exec tt (new_storage (H := plain_text) srv) fresh_disk).2.

Example put_then_get :
  let '(r, w) := exec tt (put (H := plain_text) srv 7 "acme/app" "img/a.png" "hello") opened in
  let '(g, w') := exec tt (get (H := plain_text) srv "acme/app" "img/a.png") w in
  let '(s, _) := exec tt (get_streaming (H := plain_text) srv "acme/app" "img/a.png") w' in
  r = Ok tt
  /\ g = Ok ("hello", mkObjectInfo "img/a.png" 5 "image/png" tt)
  /\ s = Ok (from_events [Chunk "hell"; Chunk "o"; Complete []], mkObjectInfo "img/a.png" 5 "image/png" tt).
Proof. vm_compute. auto. Qed.

Example paths_do_not_climb :
  (exec tt (get (H := plain_text) srv "acme/../.." "etc/passwd") opened).1
    = Err (InvalidArgument "path traversal: resolved path escapes storage root")
  /\ (exec tt (get (H := plain_text) srv "acme/.." ".WAFER-staging/7.0.tmp") opened).1
    = Err (InvalidArgument ".wafer-staging is reserved for staged writes").
Proof. vm_compute. auto. Qed.

Lemma exec_boot {DateTime} `{DebugFormat} `{CursorCodec} (root : Path) (Allowed : Path -> string -> Prop) (now : DateTime)
    (p : Prog DateTime (result Path StorageError)) (w : World) :
  rtc (sys_step root Allowed) (w, Booting p) ((exec now p w).2, Booting (Ret (exec now p w).1)).
Proof.
  revert w; induction p as [a|c k IH]; intros w; cbn; [done|]. pose proof (perform_ok now w c) as Hc.
  destruct (perform now w c) as [r w']. eapply rtc_l; [by eapply step_boot|apply IH].
Qed.

Lemma fresh_files (q : Path) (i : N) : Some (EFile i) ∉ candidates fresh_disk q.
Proof. unfold candidates, fresh_disk. cbn. rewrite list_elem_of_singleton. by destruct (decide (q = [RootDir])). Qed.

Lemma fresh_known : files_known fresh_disk.
Proof. intros q i Hin. by apply fresh_files in Hin. Qed.

Lemma objects_only_whole_witness :
  let Allowed := fun (p : Path) (d : string) => d = "hello" in
  let upload := CallPut "acme/app" "a.png" "hello" "image/png" in
  let tasks : gmap nat (@Task unit) :=
    <[0 := mkTask upload (local_storage (DateTime := unit) (H := plain_text) (H0 := plain_cursor) srv 7 upload)]> ∅ in
  objects_whole srv Allowed opened
  /\ (srv = srv /\ forall t c a, tasks !! t = Some (mkTask c (Ret a)) -> whole_answer srv Allowed c a).
Proof.
  intros Allowed upload tasks.
  refine (@objects_only_whole unit plain_text plain_cursor srv Allowed fresh_disk (opened, Running srv 7 tasks) _ fresh_known _ _).
  - by exists ["srv"; "data"].
  - intros p i _ Hin. by apply fresh_files in Hin.
  - etrans; [apply (exec_boot srv Allowed tt)|]. eapply rtc_l; [apply step_opened|].
    eapply rtc_once. apply (step_start srv Allowed opened srv 7 ∅ 0 upload); [done|]. by intros p _.
Defined.

Lemma upload_all_or_nothing_witness :
  (seq fresh_disk < 2 ^ 64)%N
  /\ wp (put (DateTime := unit) (H := plain_text) srv 7 "acme/app" "a.png" "hello")
       (upload_outcome (H := plain_text) srv "acme/app" "a.png" (eq "hello") fresh_disk) fresh_disk.
Proof.
  split; [done|]. refine (proj1 (@upload_all_or_nothing unit plain_text plain_cursor srv 7 fresh_disk "acme/app" "a.png" _ fresh_known _ _) "hello").
  - by exists ["srv"; "data"].
  - intros s _. cbn. rewrite decide_False; [done|]. by vm_compute.
  - done.
Defined.
