(* ===== verification/StorageStack.v ===== *)
(** The storage handler on top of the local storage block: the path a caller
    was admitted to is the path the file system is asked for, and what paging
    through a listing shows. *)

From stdpp Require Import sorting pretty relations.
From S2P Require Import Prelude CoreTypes Grants Wrap Text Streams Handlers StorageHandler StorageHandlerProps FileSystem LocalStorage StorageSteps LocalStorageProps.

(** ** Paths *)

Definition plain_segments (p : string) : Path := map Normal (split "/" p).

Lemma components_of_plain (segs : list string) :
  existsb unsafe_segment segs = false -> components_of segs = map Normal segs.
Proof.
  induction segs as [|seg segs IH]; [done|]. cbn. intros [Hs Hr]%orb_false_iff.
  unfold unsafe_segment in Hs. apply orb_false_iff in Hs as [Hs _]. apply orb_false_iff in Hs as [Hs H2].
  rewrite Hs, H2. by rewrite IH.
Qed.

Lemma normalize_plain (out : Path) (segs : list string) : normalize out (map Normal segs) = Some (rev out ++ map Normal segs).
Proof.
  revert out; induction segs as [|seg segs IH]; intros out; cbn; [by rewrite app_nil_r|].
  rewrite IH. cbn. by rewrite <- app_assoc.
Qed.

Lemma path_join_plain (base : Path) (p : string) :
  is_traversal_safe_path p = true -> path_join base p = base ++ plain_segments p.
Proof.
  unfold is_traversal_safe_path. intros Hs%negb_true_iff. unfold path_join. destruct (starts_with "/" p) eqn:E.
  - apply starts_with_spec in E as [r ->]. done.
  - by rewrite components_of_plain.
Qed.

Lemma normalize_root (root : Path) (segs : list string) :
  canonical root -> normalize_lexical (root ++ map Normal segs) = Some (root ++ map Normal segs).
Proof.
  intros [names ->]. unfold normalize_lexical. cbn. rewrite <- map_app, normalize_plain. cbn. by rewrite map_app.
Qed.

Lemma map_Normal_inj (l l' : list string) : map Normal l = map Normal l' -> l = l'.
Proof. revert l'; induction l as [|x l IH]; intros [|y l']; cbn; try done. intros [= -> E]. by rewrite (IH l' E). Qed.

Lemma plain_segments_inj (p q : string) : plain_segments p = plain_segments q -> p = q.
Proof.
  unfold plain_segments. intros E%map_Normal_inj. rewrite <- (join_split "/" p), <- (join_split "/" q). by rewrite E.
Qed.

(** Where on the file system a call of the service works. *)
Definition call_target (root : Path) (c : StorageCall) : option Path :=
  match c with
  | CallPut f k _ _ | CallPutStreaming f k _ _ | CallGet f k | CallGetStreaming f k | CallDelete f k => object_at root f k
  | CallList f _ | CallCreateFolder f _ | CallDeleteFolder f => normalize_lexical (folder_path root f)
  | CallListFolders => Some root
  end.

Lemma object_at_plain (root : Path) (folder key : string) :
  canonical root -> is_traversal_safe_path (folder +:+ "/" +:+ key) = true ->
  object_at root folder key = Some (root ++ plain_segments (folder +:+ "/" +:+ key)).
Proof.
  intros Hr Hs. unfold object_at, object_path, plain_segments. rewrite split_app_slash, map_app, app_assoc.
  rewrite safe_path_app in Hs. apply andb_prop in Hs as [Hf Hk].
  rewrite (path_join_plain root folder Hf), (path_join_plain _ key Hk). unfold plain_segments.
  rewrite <- app_assoc, <- map_app. by apply normalize_root.
Qed.

Lemma folder_at_plain (root : Path) (folder : string) :
  canonical root -> is_traversal_safe_path folder = true ->
  normalize_lexical (folder_path root folder) = Some (root ++ plain_segments folder).
Proof. intros Hr Hs. unfold folder_path. rewrite path_join_plain by done. by apply normalize_root. Qed.

Lemma target_plain (root : Path) (c : StorageCall) :
  canonical root -> c <> CallListFolders -> is_traversal_safe_path (call_path c) = true ->
  call_target root c = Some (root ++ plain_segments (call_path c)).
Proof.
  intros Hr Hc Hs. destruct c; cbn [call_path call_target] in *; try done;
    solve [by apply object_at_plain|by apply folder_at_plain].
Qed.

(** what is authorized is what is touched: when the handler calls the
    service for an object or a folder, the runtime admitted the caller to the
    path of that very call, and the service on a local file system works at the
    file of that path below its root - a file no other path has. *)
Theorem authorized_file_is_touched {DateTime} `{StorageCodec DateTime} `{DebugFormat} (root : Path) (ctx : CallContext)
    (msg : Message) (body : string) (c : StorageCall) (k : @StorageAnswer DateTime c -> OutputStream) :
  canonical root -> c <> CallListFolders -> storage_handle ctx msg body = Ask c k ->
  check_resource_access ctx (call_path c) ResourceType.Storage (call_access c) = Ok tt
  /\ call_target root c = Some (root ++ plain_segments (call_path c))
  /\ forall c', call_target root c' = call_target root c -> c' <> CallListFolders ->
       is_traversal_safe_path (call_path c') = true -> call_path c' = call_path c.
Proof.
  intros Hr Hc Eh. pose proof (storage_handle_safe ctx msg body) as Hs. rewrite Eh in Hs. destruct Hs as [Ha [|Hs]]; [done|].
  pose proof (target_plain root c Hr Hc Hs) as Ht. split; [exact Ha|]. split; [done|].
  intros c' E Hc' Hs'. rewrite Ht, (target_plain root c' Hr Hc' Hs') in E. injection E as E%app_inv_head.
  by apply plain_segments_inj.
Qed.

(** ** Listings *)

Section Listing.
  Context {DateTime : Type} `{DebugFormat} `{CursorCodec}.
  Abbreviation Tree := (Tree DateTime).
  Abbreviation ObjectInfo := (ObjectInfo DateTime).

(** The files a walk finds: everything below but the staging directory (under
    any of its names), through directories only. *)
Definition reserved_entry (name : string) (same : bool) (m : @EntryMeta DateTime) : bool :=
  (em_is_dir m || em_is_symlink m) && (named_staging name || same).

Inductive file_at : list Tree -> Path -> @EntryMeta DateTime -> Prop :=
| file_here ts name same m below :
    In (TreeEntry name same (Ok m) below) ts -> em_is_dir m = false -> reserved_entry name same m = false ->
    file_at ts [Normal name] m
| file_below ts name same m ts' p m' :
    In (TreeEntry name same (Ok m) (Ok ts')) ts -> em_is_dir m = true -> reserved_entry name same m = false ->
    file_at ts' p m' -> file_at ts (Normal name :: p) m'.

(** The object a file is listed as. *)
Definition info_of (rel : Path) (m : @EntryMeta DateTime) : ObjectInfo :=
  object_info (path_str rel) (Z.of_N (em_len m)) (em_modified m).
Definition matches_prefix (prefix key : string) : bool := is_empty prefix || starts_with prefix key.

Lemma list_entry_below (dir rel : Path) (prefix name : string) (same : bool) (m : EntryMeta) (ts : list Tree) objects :
  reserved_entry name same m = false -> em_is_dir m = true ->
  list_entry dir rel prefix (TreeEntry name same (Ok m) (Ok ts)) objects
  = list_recursive (dir ++ [Normal name]) (rel ++ [Normal name]) prefix ts objects.
Proof.
  intros Hr Hd. cbn [list_entry]. unfold reserved_entry in Hr. rewrite Hr, Hd.
  revert objects. induction ts as [|t ts IH]; intros objects; [done|]. cbn [list_recursive].
  destruct (list_entry _ _ _ t objects); cbn; [apply IH|done].
Qed.

Fixpoint tree_size (t : Tree) : nat :=
  match t with
  | BadEntry _ => 1
  | TreeEntry _ _ _ (Ok ts) => S (list_sum (map tree_size ts))
  | TreeEntry _ _ _ (Err _) => 1
  end.

Lemma file_at_nil (p : Path) (m : EntryMeta) : ~ file_at [] p m.
Proof. by inversion 1. Qed.

Lemma file_at_cons (t : Tree) (ts : list Tree) (p : Path) (m : EntryMeta) :
  file_at (t :: ts) p m <-> file_at [t] p m \/ file_at ts p m.
Proof.
  split.
  - inversion 1 as [? name same ? below Hin Hd Hr|? name same mm ts' p' ? Hin Hd Hr Hf]; subst; destruct Hin as [->|Hin].
    + left. econstructor; [by left|done|done].
    + right. by econstructor.
    + left. econstructor; [by left|done|done|done].
    + right. by econstructor.
  - intros [Hf|Hf]; inversion Hf as [? name same ? below Hin Hd Hr|? name same mm ts' p' ? Hin Hd Hr Hf']; subst.
    + destruct Hin as [->|[]]. econstructor; [by left|done|done].
    + destruct Hin as [->|[]]. econstructor; [by left|done|done|done].
    + econstructor; [by right|done|done].
    + econstructor; [by right|done|done|done].
Qed.

Lemma file_at_one (name : string) (same : bool) (m m' : EntryMeta) (below : result (list Tree) IoError) (p : Path) :
  file_at [TreeEntry name same (Ok m) below] p m' <->
  reserved_entry name same m = false
  /\ if em_is_dir m then exists ts' p', below = Ok ts' /\ p = Normal name :: p' /\ file_at ts' p' m'
     else p = [Normal name] /\ m' = m.
Proof.
  split.
  - inversion 1 as [? n1 s1 ? b1 Hin Hd Hr|? n1 s1 mm ts' p' ? Hin Hd Hr Hf]; subst;
      (destruct Hin as [E|[]]; injection E as -> -> -> ->); rewrite Hd; [done|]. split; [done|]. by exists ts', p'.
  - intros [Hr Hd]. destruct (em_is_dir m) eqn:Ed.
    + destruct Hd as (ts' & p' & -> & -> & Hf). econstructor; [by left|done|done|done].
    + destruct Hd as [-> ->]. econstructor; [by left|done|done].
Qed.

(** A walk that ends well appends exactly the matching files. *)
Lemma list_recursive_spec (n : nat) (dir rel : Path) (prefix : string) (ts : list Tree) (objects out : list ObjectInfo) :
  list_sum (map tree_size ts) <= n -> list_recursive dir rel prefix ts objects = Ok out ->
  forall o, In o out <-> In o objects \/ exists p m, file_at ts p m /\ o = info_of (rel ++ p) m
                                           /\ matches_prefix prefix (path_str (rel ++ p)) = true.
Proof.
  revert dir rel ts objects out. induction n as [|n IHn]; intros dir rel ts; induction ts as [|t ts IH]; intros objects out Hn.
  1, 3: cbn; intros [= <-] o; split; [by left|]; intros [?|(p & m & Hf & _)]; [done|]; by apply file_at_nil in Hf.
  { exfalso. cbn in Hn. destruct t as [|? ? ? [ts'|]]; cbn in Hn; lia. }
  cbn [list_recursive map list_sum foldr] in *. intros E o.
  destruct (list_entry dir rel prefix t objects) as [mid|] eqn:Et; [|done]. cbn in E.
  assert (Hts : list_sum (map tree_size ts) <= S n) by (unfold list_sum; lia).
  rewrite (IH mid out Hts E o).
  enough (Hmid : In o mid <-> In o objects \/ exists p m, file_at [t] p m /\ o = info_of (rel ++ p) m
                                              /\ matches_prefix prefix (path_str (rel ++ p)) = true).
  { rewrite Hmid. split.
    - intros [[?|(p & m & Hf & R)]|(p & m & Hf & R)]; [by left|right; exists p, m..]; rewrite file_at_cons; auto.
    - intros [?|(p & m & Hf & R)]; [auto|]. apply file_at_cons in Hf as [Hf|Hf]; [left; right|right]; by exists p, m. }
  clear IH E. destruct t as [e|name same [m|e] below]; [done| |done]. setoid_rewrite file_at_one.
  unfold reserved_entry in *. destruct ((em_is_dir m || em_is_symlink m) && (named_staging name || same)) eqn:Hr.
  { cbn in Et. rewrite Hr in Et. injection Et as <-. split; [by left|]. intros [?|(p & m' & [? _] & _)]; done. }
  destruct (em_is_dir m) eqn:Hd.
  - destruct below as [ts'|e]; [|cbn in Et; rewrite Hd, Hr in Et; done].
    rewrite list_entry_below in Et by (unfold reserved_entry; by rewrite ?Hd). cbn [tree_size] in Hn.
    assert (Hle : list_sum (map tree_size ts') <= n) by lia.
    rewrite (IHn _ _ _ _ _ Hle Et o). split; (intros [?|(p & m' & Hf & -> & Hp)]; [by left|right]).
    + exists (Normal name :: p), m'. rewrite <- app_assoc in Hp |- *. split; [|done]. split; [done|]. by exists ts', p.
    + destruct Hf as (_ & ts2 & p' & [= ->] & -> & Hf). exists p', m'. rewrite <- app_assoc. by split.
  - cbn in Et. rewrite Hd, Hr in Et.
    assert (Hpre : negb (is_empty prefix) && negb (starts_with prefix (path_str (rel ++ [Normal name])))
                   = negb (matches_prefix prefix (path_str (rel ++ [Normal name])))).
    { unfold matches_prefix. by destruct (is_empty prefix). }
    rewrite Hpre in Et. clear Hpre. destruct (matches_prefix prefix (path_str (rel ++ [Normal name]))) eqn:Ep; injection Et as <-.
    + rewrite in_app_iff. split.
      * intros [?|[<-|[]]]; [by left|right]. by exists [Normal name], m.
      * intros [?|(p & m' & (_ & -> & ->) & -> & _)]; [by left|right; by left].
    + split; [by left|]. intros [?|(p & m' & (_ & -> & ->) & _ & Hp)]; [done|congruence].
Qed.
End Listing.

(** ** Paging *)

Section Paging.
  Context {DateTime : Type} `{CursorCodec}.
  Abbreviation ObjectInfo := (ObjectInfo DateTime).

(** Following the cursors of a listing from [cursor] on, in at most [fuel]
    requests. *)
Fixpoint follow_cursors (fuel : nat) (objects : list ObjectInfo) (prefix : string) (limit : Z) (cursor : string)
  : option (list ObjectInfo) :=
  match fuel with
  | 0 => None
  | S fuel =>
      match page objects (mkListOptions prefix limit 0 (Some cursor)) with
      | Err _ => None
      | Ok l => match ol_next_cursor l with
                | None => Some (ol_objects l)
                | Some c => option_map (app (ol_objects l)) (follow_cursors fuel objects prefix limit c)
                end
      end
  end.

(** Keys a cursor can carry. *)
Definition cursor_key (k : string) : Prop := k <> "" /\ from_utf8 k = Ok k.

Definition key_lt (a b : ObjectInfo) : Prop := String.le (oi_key a) (oi_key b) /\ oi_key a <> oi_key b.

Lemma partition_sorted (a b : list ObjectInfo) (x : ObjectInfo) :
  StronglySorted key_lt (a ++ x :: b) ->
  partition_point (fun o => String.leb (oi_key o) (oi_key x)) (a ++ x :: b) = S (List.length a).
Proof.
  induction a as [|y a IH]; cbn; intros Hs.
  - assert (Hx : String.leb (oi_key x) (oi_key x) = true) by (destruct (String.leb_total (oi_key x) (oi_key x)); done).
    rewrite Hx. f_equal. destruct b as [|z b]; [done|]. cbn.
    apply StronglySorted_inv in Hs as [_ Hf]. apply Forall_cons in Hf as [[Hle Hne] _].
    destruct (String.leb (oi_key z) (oi_key x)) eqn:E; [|done]. exfalso. apply Hne. apply String.leb_antisym; [|done].
    by apply Is_true_eq_true in Hle.
  - apply StronglySorted_inv in Hs as [Hs Hf]. rewrite IH by done.
    rewrite Forall_app, Forall_cons in Hf. destruct Hf as (_ & [Hle _] & _). apply Is_true_eq_true in Hle.
    by rewrite Hle.
Qed.

Lemma page_at (objects : list ObjectInfo) (prefix cursor : string) (limit : Z) (s : nat) :
  (0 < limit)%Z -> (Z.of_nat (List.length objects) < 2 ^ 64)%Z ->
  cursor_start_index objects cursor = Ok s -> s <= List.length objects ->
  let e := Nat.min (s + Z.to_nat limit) (List.length objects) in
  page objects (mkListOptions prefix limit 0 (Some cursor))
  = Ok (mkObjectList (firstn (e - s) (skipn s objects)) (Z.of_nat (List.length objects))
          (if e <? List.length objects then option_map (fun o => encode_cursor (oi_key o)) (last (firstn (e - s) (skipn s objects))) else None)).
Proof.
  intros Hl Hlen Hc Hs e. unfold page. cbn [lo_limit lo_cursor lo_offset is_some andb]. rewrite Hc. cbn [result_bind].
  assert (E : Z.to_nat (Z.min (Z.min (Z.of_nat s + (if (0 <? limit)%Z then limit else Z.of_nat (List.length objects))) (2 ^ 64 - 1))
                          (Z.of_nat (List.length objects))) = e).
  { destruct (Z.ltb_spec 0 limit); [|lia]. unfold e. lia. }
  by rewrite E.
Qed.

Lemma follow_from (fuel : nat) (objects : list ObjectInfo) (prefix cursor : string) (limit : Z) (s : nat) :
  (0 < limit)%Z -> (Z.of_nat (List.length objects) < 2 ^ 64)%Z -> StronglySorted key_lt objects ->
  Forall (fun o => cursor_key (oi_key o)) objects ->
  cursor_start_index objects cursor = Ok s -> s <= List.length objects -> List.length objects - s < fuel ->
  follow_cursors fuel objects prefix limit cursor = Some (skipn s objects).
Proof.
  intros Hl Hlen Hsort Hkeys. revert cursor s; induction fuel as [|fuel IH]; intros cursor s Hc Hs Hf; [lia|].
  cbn [follow_cursors]. rewrite (page_at objects prefix cursor limit s) by done.
  set (e := Nat.min (s + Z.to_nat limit) (List.length objects)). cbn [ol_next_cursor ol_objects].
  destruct (Nat.ltb_spec e (List.length objects)) as [He|He].
  - assert (Hes : s < e) by lia.
    destruct (lookup_lt_is_Some_2 objects (e - 1)) as [x Hx]; [lia|].
    assert (Hlast : last (firstn (e - s) (skipn s objects)) = Some x).
    { rewrite last_lookup, length_firstn, length_skipn, Nat.min_l by lia.
      rewrite lookup_take_lt by lia. rewrite lookup_drop. rewrite <- Hx. f_equal. lia. }
    rewrite Hlast. cbn [option_map]. rewrite (IH (encode_cursor (oi_key x)) e); [|..|lia|lia].
    + cbn [option_map]. f_equal. rewrite <- (firstn_skipn (e - s) (skipn s objects)) at 2. f_equal.
      rewrite skipn_skipn. f_equal. lia.
    + assert (Hkx : cursor_key (oi_key x)) by (rewrite Forall_lookup in Hkeys; by eapply Hkeys).
      destruct Hkx as [Hne Hu]. unfold cursor_start_index, encode_cursor, decode_cursor. rewrite base64_back, Hu. cbn.
      destruct (base64_encode (oi_key x)) as [|c t] eqn:Eb.
      { exfalso. apply Hne. pose proof (base64_back (oi_key x)) as H1. pose proof (base64_back "") as H2.
        rewrite Eb in H1. rewrite base64_empty in H2. congruence. }
      cbn. f_equal. rewrite <- (take_drop_middle objects (e - 1) x Hx).
      rewrite partition_sorted; [|by rewrite take_drop_middle]. rewrite length_take. lia.
  - f_equal. rewrite firstn_all2; [done|]. rewrite length_skipn. lia.
Qed.
End Paging.

Lemma strict_sorted {DateTime} (l : list (ObjectInfo DateTime)) :
  NoDup (map oi_key l) -> StronglySorted key_lt (merge_sort key_le l).
Proof.
  intros Hnd. assert (Htr : Transitive (@key_le DateTime)) by (intros a b c; unfold key_le; apply transitivity).
  assert (Htot : Total (@key_le DateTime)) by (intros a b; unfold key_le; apply total; apply _).
  pose proof (StronglySorted_merge_sort key_le l) as Hs.
  assert (Hnd' : NoDup (map oi_key (merge_sort key_le l))).
  { by rewrite (Permutation_map oi_key (merge_sort_Permutation key_le l)). }
  clear Hnd. induction Hs as [|o os Hs IH Hf]; constructor.
  - apply IH. by apply NoDup_cons in Hnd' as [_ ?].
  - apply NoDup_cons in Hnd' as [Hni _]. rewrite Forall_forall in Hf |- *. intros y Hy.
    split; [by apply Hf|]. intros E. apply Hni. rewrite E. by apply list_elem_of_fmap_2.
Qed.

(** a client that follows the cursors of a listing, from the empty one and
    with any positive limit, is done after at most one request per object and
    one more, and has then seen every matching file once, in key order: exactly
    the files below the folder that no staging directory holds. *)
Theorem listing_complete {DateTime} `{DebugFormat} `{CursorCodec} (dir : Path) (prefix : string) (ts : list (Tree DateTime))
    (objects : list (ObjectInfo DateTime)) (limit : Z) :
  list_recursive dir [] prefix ts [] = Ok objects ->
  NoDup (map oi_key objects) -> Forall (fun o => cursor_key (oi_key o)) objects ->
  (Z.of_nat (List.length objects) < 2 ^ 64)%Z -> (0 < limit)%Z ->
  exists seen, follow_cursors (S (List.length objects)) (merge_sort key_le objects) prefix limit "" = Some seen
    /\ StronglySorted key_lt seen
    /\ forall o, In o seen <-> exists p m, file_at ts p m /\ o = info_of p m /\ matches_prefix prefix (path_str p) = true.
Proof.
  intros Hlist Hnd Hkeys Hlen Hlimit. pose proof (merge_sort_Permutation key_le objects) as Hperm.
  exists (merge_sort key_le objects). split_and!; [|by apply strict_sorted|].
  - rewrite (follow_from _ _ prefix "" limit 0); try done; try lia.
    + by rewrite Hperm.
    + by apply strict_sorted.
    + by rewrite Hperm.
    + rewrite Hperm. lia.
  - intros o. transitivity (In o objects).
    { split; apply Permutation_in; [done|by symmetry]. }
    rewrite (list_recursive_spec _ dir [] prefix ts [] objects (le_n _) Hlist o). cbn. split; [intros [[]|?]; done|by right].
Qed.

Definition sample_tree : list (Tree unit) :=
  let meta d n := mkEntryMeta d false n tt tt in
  [TreeEntry "b.txt" false (Ok (meta false 2%N)) (Ok []);
   TreeEntry ".wafer-staging" true (Ok (meta true 0%N)) (Ok [TreeEntry "7.0.tmp" false (Ok (meta false 1%N)) (Ok [])]);
   TreeEntry "img" false (Ok (meta true 0%N))
     (Ok [TreeEntry "z.png" false (Ok (meta false 3%N)) (Ok []); TreeEntry "a.png" false (Ok (meta false 5%N)) (Ok [])])].
Definition sample_objects : list (ObjectInfo unit) :=
  [mkObjectInfo "b.txt" 2 "text/plain; charset=utf-8" tt; mkObjectInfo "img/z.png" 3 "image/png" tt;
   mkObjectInfo "img/a.png" 5 "image/png" tt].

Lemma listing_complete_witness :
  list_recursive (H := plain_text) srv [] "" sample_tree [] = Ok sample_objects
  /\ exists seen, follow_cursors (H := plain_cursor) 4 (merge_sort key_le sample_objects) "" 2 "" = Some seen
    /\ StronglySorted key_lt seen
    /\ forall o, In o seen <-> exists p m, file_at sample_tree p m /\ o = info_of p m /\ matches_prefix "" (path_str p) = true.
Proof.
  split; [reflexivity|].
  refine (@listing_complete unit plain_text plain_cursor srv "" sample_tree sample_objects 2 _ _ _ _ _).
  - reflexivity.
  - by apply (bool_decide_unpack _).
  - by repeat constructor.
  - reflexivity.
  - reflexivity.
Defined.

Lemma authorized_file_is_touched_witness :
  let ctx := mkCallContext (Some "acme/app") (fun _ _ _ => Ok tt) (fun _ _ _ => true) in
  let codec : StorageCodec unit := {| decode_put _ := Err ""; decode_put_header _ := Err "";
                  decode_get _ := Err ""; decode_delete _ := Err ""; decode_list _ := Err "";
                  decode_create_folder name := Ok (mkCreateFolder name false); decode_delete_folder _ := Err "";
                  encode_object_info _ := Ok ""; encode_object_list _ := Ok ""; encode_folders _ := Ok "" |} in
  let c := CallCreateFolder "acme/app/img" false in
  check_resource_access ctx (call_path c) ResourceType.Storage (call_access c) = Ok tt
  /\ call_target srv c = Some (srv ++ plain_segments (call_path c))
  /\ forall c', call_target srv c' = call_target srv c -> c' <> CallListFolders ->
       is_traversal_safe_path (call_path c') = true -> call_path c' = call_path c.
Proof.
  intros ctx codec c.
  refine (@authorized_file_is_touched unit codec plain_text srv ctx (mkMessage STORAGE_CREATE_FOLDER []) "img" c acknowledge _ _ _).
  - by exists ["srv"; "data"].
  - done.
  - reflexivity.
Defined.
