(* ===== verification/InitAttempts.v ===== *)
(** What one init attempt's database calls saw
    ([wafer-block/src/init_attempt.rs]) and how the runtime classes the
    attempt's failure by it ([settle_attempt], [InitBudget] of
    [wafer-run/src/runtime.rs]).

    A record is shared ([Arc]) by the contexts of its attempt and, through
    [parent], by the attempts nested in it. [parent] never changes, so a
    record here is the chain of the addresses of its [Mutex]es and the
    states live in a store. The locks are taken one record at a time, a
    record's own lock being held while the outer ones are updated: [attempt_step]
    interleaves at that grain. [in_flight] is a [usize] counting calls held in
    memory, so it does not overflow and is a natural number here. *)

From S2P Require Import Prelude CoreTypes Slot Dispatch Text.

(** ** Answers *)

Inductive DatabaseAnswer := Contended | CallBudgetExhausted | Unavailable.

#[global] Instance DatabaseAnswer_eq_dec : EqDecision DatabaseAnswer.
Proof. solve_decision. Defined.

Definition DATABASE_UNAVAILABLE : string := "database.unavailable".
Definition DATABASE_CONTENDED : string := "database.contended".

(** The derived [Ord]: the order of the constructors. *)
Definition answer_rank (a : DatabaseAnswer) : nat :=
  match a with Contended => 0 | CallBudgetExhausted => 1 | Unavailable => 2 end.

Definition answer_max (a b : DatabaseAnswer) : DatabaseAnswer :=
  if (answer_rank a <=? answer_rank b)%nat then b else a.

(** [Ord] on options: [None] is least. *)
Definition worst_max (w : option DatabaseAnswer) (a : DatabaseAnswer) : option DatabaseAnswer :=
  Some (match w with Some b => answer_max b a | None => a end).

(** [DatabaseAnswer::detail_code]. *)
Definition answer_detail_code (a : DatabaseAnswer) : string :=
  match a with
  | Contended => DATABASE_CONTENDED
  | CallBudgetExhausted => CALL_BUDGET_EXHAUSTED
  | Unavailable => DATABASE_UNAVAILABLE
  end.

(** [DatabaseAnswer::from_detail_code]. *)
Definition from_detail_code (code : string) : option DatabaseAnswer :=
  List.find (fun a => answer_detail_code a =s code) [Contended; CallBudgetExhausted; Unavailable].

(** ** Records *)

Record RecordState := mkRecordState {
  worst : option DatabaseAnswer;
  in_flight : N;
  closed : bool
}.

Definition record_default : RecordState := mkRecordState None 0 false.

Inductive InitAttemptRecord := mkRecord (state : N) (parent : option InitAttemptRecord).

Definition own_state (r : InitAttemptRecord) : N := let '(mkRecord c _) := r in c.

(** [InitAttemptRecord::lineage]: this record's state and those it runs inside. *)
Fixpoint lineage (r : InitAttemptRecord) : list N :=
  let '(mkRecord c parent) := r in
  c :: match parent with Some p => lineage p | None => [] end.

Definition outer_lineage (r : InitAttemptRecord) : list N :=
  let '(mkRecord _ parent) := r in match parent with Some p => lineage p | None => [] end.

(** The states, each made by [Mutex::default]. *)
Abbreviation Store := (gmap N RecordState).

Definition state_at (s : Store) (c : N) : RecordState := default record_default (s !! c).

Definition with_state (s : Store) (c : N) (f : RecordState -> RecordState) : Store := <[c := f (state_at s c)]> s.

(** The two updates of a lineage: a call starts, a call failed. *)
Inductive Update := CallStarts | Noted (a : DatabaseAnswer).

Definition apply_update (u : Update) (st : RecordState) : RecordState :=
  match u with
  | CallStarts => mkRecordState (worst st) (in_flight st + 1) (closed st)
  | Noted a => mkRecordState (worst_max (worst st) a) (in_flight st) (closed st)
  end.

(** An outer record is updated unless it is closed. *)
Definition update_outer (u : Update) (s : Store) (c : N) : Store :=
  if closed (state_at s c) then s else with_state s c (apply_update u).

(** [InitAttemptRecord::update_lineage]. *)
Definition update_lineage (s : Store) (r : InitAttemptRecord) (u : Update) : Store * bool :=
  if closed (state_at s (own_state r)) then (s, false)
  else (foldl (update_outer u) (with_state s (own_state r) (apply_update u)) (outer_lineage r), true).

(** [DatabaseCall]. *)
Record DatabaseCall := mkCall { call_record : InitAttemptRecord; counted : bool }.

(** [InitAttemptRecord::call]. *)
Definition call (s : Store) (r : InitAttemptRecord) : Store * DatabaseCall :=
  let '(s', counted) := update_lineage s r CallStarts in (s', mkCall r counted).

(** One record of the loop of [Drop for DatabaseCall]; [N.pred] of 0 is 0, as
    [saturating_sub]. *)
Definition answered (st : RecordState) : RecordState := mkRecordState (worst st) (N.pred (in_flight st)) (closed st).

(** [Drop for DatabaseCall]. *)
Definition drop_call (s : Store) (c : DatabaseCall) : Store :=
  if counted c then foldl (fun s r => with_state s r answered) s (lineage (call_record c)) else s.

(** [InitAttemptRecord::note]. *)
Definition note (s : Store) (r : InitAttemptRecord) (a : DatabaseAnswer) : Store := (update_lineage s r (Noted a)).1.

(** [InitAttemptRecord::note_unanswered]. *)
Definition note_unanswered (s : Store) (r : InitAttemptRecord) : Store :=
  if (0 <? in_flight (state_at s (own_state r)))%N then note s r Unavailable else s.

(** [InitAttemptRecord::close]. *)
Definition close (s : Store) (r : InitAttemptRecord) : Store * option DatabaseAnswer :=
  (with_state s (own_state r) (fun st => mkRecordState (worst st) (in_flight st) true), worst (state_at s (own_state r))).

(** ** Settling ([runtime.rs]) *)

(** [settle_attempt]. *)
Definition settle_attempt (s : Store) (r : InitAttemptRecord) (outcome : init_result) : Store * init_result :=
  let '(s', seen) := close s r in
  (s', match outcome, seen with
       | Err (Transient failure), Some seen =>
           let own := match tf_detail_code failure with Some code => from_detail_code code | None => None end in
           let class := match own with Some own => answer_max own seen | None => seen end in
           Err (Transient (mkTF (tf_message failure) (Some (answer_detail_code class))))
       | _, _ => outcome
       end).

Section Exceeded.
  (** [{:?}] of a [Duration]. *)
  Context `{DebugFormat} (duration_debug : N -> string).

(** [Display for InitError]. *)
Definition init_error_display (e : InitError) : string :=
  match e with
  | Permanent msg => "permanent init failure: " +:+ msg
  | Transient failure => "transient init failure: " +:+ tf_message failure
  | Cycle path => "init cycle detected: [" +:+ join ", " (map debug_str path) +:+ "]"
  end.

(** [InitBudget::exceeded]. *)
Definition exceeded (b : InitBudget) (name : string) (failed : option InitError) : InitError :=
  let source := if capped b then "the runtime's init_timeout cap" else "declared by the block" in
  let msg := "block `" +:+ name +:+ "` init did not finish within its init budget of " +:+ duration_debug (limit b)
             +:+ " (" +:+ source +:+ "); the attempt was abandoned then, and work it had started outside the runtime "
             +:+ "(a database statement, an outbound request) may still be running" in
  let msg := match failed with
             | Some e => msg +:+ "; it failed after the budget passed: " +:+ init_error_display e
             | None => msg
             end in
  Transient (mkTF msg (match failed with Some (Transient failure) => tf_detail_code failure | _ => None end)).

(** How an attempt ended: it returned, with the budget when it has one whose
    deadline had passed by then, or the budget's timer fired first. *)
Inductive Race := Returned (outcome : init_result) (late : option InitBudget) | TimedOut (budget : InitBudget).

(** The end of [run_init_pipeline]'s attempt. *)
Definition finish_attempt (s : Store) (r : InitAttemptRecord) (name : string) (race : Race) : Store * init_result :=
  match race with
  | Returned (Err e) (Some b) => settle_attempt s r (Err (exceeded b name (Some e)))
  | Returned outcome _ => settle_attempt s r outcome
  | TimedOut b => settle_attempt (note_unanswered s r) r (Err (exceeded b name None))
  end.
End Exceeded.

(** ** Attempts and their calls, interleaved *)

(** A call of [update_lineage] under way, holding [r]'s own lock with [rest]
    still to visit; an unanswered call that was counted; one being dropped. *)
Inductive Thread :=
| Updating (r : InitAttemptRecord) (u : Update) (rest : list N)
| Waiting (r : InitAttemptRecord)
| Dropping (rest : list N).

Record AttemptSys := mkAttempts {
  store : Store;
  records : list InitAttemptRecord;
  threads : list Thread
}.

Definition holds (c : N) (t : Thread) : Prop :=
  match t with Updating r _ _ => own_state r = c | _ => False end.

Definition unlocked (c : N) (ts : list Thread) : Prop := Forall (fun t => ~ holds c t) ts.

(** What follows an update once every record is visited. *)
Definition after_update (r : InitAttemptRecord) (u : Update) : list Thread :=
  match u with CallStarts => [Waiting r] | Noted _ => [] end.

Inductive attempt_step : AttemptSys -> AttemptSys -> Prop :=
| as_new s rs ts c parent :
    s !! c = None -> (forall p, parent = Some p -> p ∈ rs) ->
    attempt_step (mkAttempts s rs ts) (mkAttempts (<[c := record_default]> s) (mkRecord c parent :: rs) ts)
| as_start s rs ts r u :
    r ∈ rs -> unlocked (own_state r) ts -> closed (state_at s (own_state r)) = false ->
    attempt_step (mkAttempts s rs ts)
      (mkAttempts (with_state s (own_state r) (apply_update u)) rs (Updating r u (outer_lineage r) :: ts))
| as_outer s rs ts1 r u c rest ts2 :
    unlocked c (ts1 ++ Updating r u (c :: rest) :: ts2) ->
    attempt_step (mkAttempts s rs (ts1 ++ Updating r u (c :: rest) :: ts2))
      (mkAttempts (update_outer u s c) rs (ts1 ++ Updating r u rest :: ts2))
| as_end s rs ts1 r u ts2 :
    attempt_step (mkAttempts s rs (ts1 ++ Updating r u [] :: ts2))
      (mkAttempts s rs (ts1 ++ after_update r u ++ ts2))
| as_drop s rs ts1 r ts2 :
    attempt_step (mkAttempts s rs (ts1 ++ Waiting r :: ts2)) (mkAttempts s rs (ts1 ++ Dropping (lineage r) :: ts2))
| as_answered s rs ts1 c rest ts2 :
    unlocked c (ts1 ++ Dropping (c :: rest) :: ts2) ->
    attempt_step (mkAttempts s rs (ts1 ++ Dropping (c :: rest) :: ts2))
      (mkAttempts (with_state s c answered) rs (ts1 ++ Dropping rest :: ts2))
| as_close s rs ts r :
    r ∈ rs -> unlocked (own_state r) ts ->
    attempt_step (mkAttempts s rs ts) (mkAttempts (close s r).1 rs ts).

Definition attempts_init : AttemptSys := mkAttempts ∅ [] [].
Definition attempts_reachable : AttemptSys -> Prop := rtc attempt_step attempts_init.

(** A call the state at [c] counts in flight. *)
Definition counts (c : N) (t : Thread) : bool :=
  match t with
  | Updating r CallStarts rest => bool_decide (c ∈ lineage r) && negb (bool_decide (c ∈ rest))
  | Updating _ (Noted _) _ => false
  | Waiting r => bool_decide (c ∈ lineage r)
  | Dropping rest => bool_decide (c ∈ rest)
  end.

Definition calls_in_flight (c : N) (ts : list Thread) : nat := length (filter (fun t => counts c t = true) ts).

(** * Facts about init attempt records: the count of calls in flight is exact
    for every open attempt however calls, drops and closes interleave; the
    nested locking never deadlocks; and a timed-out attempt with a database
    call still waiting is classed as the database being unavailable. *)

(** ** Lineages *)

Lemma lineage_cons (r : InitAttemptRecord) : lineage r = own_state r :: outer_lineage r.
Proof. destruct r as [c [p|]]; reflexivity. Qed.

Lemma own_in_lineage (r : InitAttemptRecord) : own_state r ∈ lineage r.
Proof. rewrite lineage_cons. left. Qed.

Lemma lineage_not_nil (r : InitAttemptRecord) : lineage r <> [].
Proof. rewrite lineage_cons. done. Qed.

(** Every state of a lineage belongs to a record of it, whose own lineage is
    the rest. *)
Lemma lineage_split (rs : list InitAttemptRecord) :
  (forall c p, mkRecord c (Some p) ∈ rs -> p ∈ rs) ->
  forall r l1 c' l2, r ∈ rs -> lineage r = l1 ++ c' :: l2 ->
  exists r', r' ∈ rs /\ own_state r' = c' /\ lineage r' = c' :: l2.
Proof.
  intros Hcl. fix IH 1. intros [c parent] l1 c' l2 Hin Heq.
  destruct l1 as [|c1 l1]; simpl in Heq; injection Heq as <- Heq.
  - exists (mkRecord c parent). split_and!; [done | done | simpl; by rewrite Heq].
  - destruct parent as [p|]; [|by destruct l1].
    exact (IH p l1 c' l2 (Hcl _ _ Hin) Heq).
Qed.

(** ** The store *)

Lemma state_with_same (s : Store) (c : N) f : state_at (with_state s c f) c = f (state_at s c).
Proof. unfold state_at, with_state. by rewrite lookup_insert_eq. Qed.

Lemma state_with_other (s : Store) (c c' : N) f : c' <> c -> state_at (with_state s c f) c' = state_at s c'.
Proof. intros H. unfold state_at, with_state. by rewrite lookup_insert_ne. Qed.


Lemma state_with (s : Store) (c c' : N) f :
  state_at (with_state s c f) c' = if bool_decide (c' = c) then f (state_at s c) else state_at s c'.
Proof. case_bool_decide; subst; [apply state_with_same | by apply state_with_other]. Qed.

Lemma update_closed (u : Update) (st : RecordState) : closed (apply_update u st) = closed st.
Proof. by destruct u. Qed.

Lemma with_state_dom (s : Store) (c c' : N) f : is_Some (s !! c') -> is_Some (with_state s c f !! c').
Proof.
  intros H. unfold with_state. destruct (decide (c' = c)) as [->|Hne].
  - rewrite lookup_insert_eq. by eexists.
  - by rewrite lookup_insert_ne.
Qed.

Lemma update_outer_dom (u : Update) (s : Store) (c c' : N) : is_Some (s !! c') -> is_Some (update_outer u s c !! c').
Proof. unfold update_outer. destruct (closed _); [done | apply with_state_dom]. Qed.

(** ** The invariant *)

Definition thread_ok (rs : list InitAttemptRecord) (t : Thread) : Prop :=
  match t with
  | Updating r _ rest => r ∈ rs /\ exists pre, outer_lineage r = pre ++ rest
  | Waiting r => r ∈ rs
  | Dropping rest => exists r pre, r ∈ rs /\ lineage r = pre ++ rest
  end.

Record attempts_inv (x : AttemptSys) : Prop := mkInv {
  inv_parents : forall c p, mkRecord c (Some p) ∈ records x -> p ∈ records x;
  inv_own : forall r r', r ∈ records x -> r' ∈ records x -> own_state r = own_state r' -> r = r';
  inv_nodup : forall r, r ∈ records x -> NoDup (lineage r);
  inv_dom : forall r c, r ∈ records x -> c ∈ lineage r -> is_Some (store x !! c);
  inv_threads : forall t, t ∈ threads x -> thread_ok (records x) t;
  inv_count : forall c, closed (state_at (store x) c) = false ->
                        in_flight (state_at (store x) c) = N.of_nat (calls_in_flight c (threads x))
}.

Lemma calls_app (c : N) (ts1 ts2 : list Thread) :
  calls_in_flight c (ts1 ++ ts2) = calls_in_flight c ts1 + calls_in_flight c ts2.
Proof. unfold calls_in_flight. by rewrite filter_app, length_app. Qed.

Lemma calls_cons (c : N) (t : Thread) (ts : list Thread) :
  calls_in_flight c (t :: ts) = (if counts c t then 1 else 0) + calls_in_flight c ts.
Proof. unfold calls_in_flight. rewrite filter_cons. by destruct (counts c t). Qed.

Lemma calls_swap (c : N) (ts1 ts2 : list Thread) (t t' : Thread) :
  counts c t = counts c t' ->
  calls_in_flight c (ts1 ++ t :: ts2) = calls_in_flight c (ts1 ++ t' :: ts2).
Proof. intros H. by rewrite !calls_app, !calls_cons, H. Qed.

Lemma calls_zero (c : N) (ts : list Thread) : (forall t, t ∈ ts -> counts c t = false) -> calls_in_flight c ts = 0%nat.
Proof.
  induction ts as [|t ts IH]; intros H; [done|].
  rewrite calls_cons, (H t) by left. apply IH. intros t' Ht'. apply H. by right.
Qed.

Lemma counts_lineage (rs : list InitAttemptRecord) (c : N) (t : Thread) :
  thread_ok rs t -> counts c t = true -> exists r, r ∈ rs /\ c ∈ lineage r.
Proof.
  destruct t as [r [|a] rest | r | rest]; simpl; [|done| |].
  - intros [Hr _] [H _]%andb_prop. apply bool_decide_eq_true_1 in H. eauto.
  - intros Hr H%bool_decide_eq_true_1. eauto.
  - intros (r & pre & Hr & Heq) H%bool_decide_eq_true_1. exists r. rewrite Heq. set_solver.
Qed.

(** A thread of the list, replaced by others that are well formed. *)
Lemma threads_replace (rs : list InitAttemptRecord) (ts1 ts ts2 : list Thread) (t : Thread) :
  (forall t', t' ∈ ts1 ++ t :: ts2 -> thread_ok rs t') -> (forall t', t' ∈ ts -> thread_ok rs t') ->
  forall t', t' ∈ ts1 ++ ts ++ ts2 -> thread_ok rs t'.
Proof. intros H Ht t'. rewrite !elem_of_app. intros [?|[?|?]]; [apply H | by apply Ht | apply H]; set_solver. Qed.

(** A step that leaves the records alone and keeps the states made. *)
Lemma inv_update (s s' : Store) (rs : list InitAttemptRecord) (ts ts' : list Thread) :
  attempts_inv (mkAttempts s rs ts) ->
  (forall c, is_Some (s !! c) -> is_Some (s' !! c)) ->
  (forall t, t ∈ ts' -> thread_ok rs t) ->
  (forall c, closed (state_at s' c) = false ->
             closed (state_at s c) = false /\
             in_flight (state_at s' c) + N.of_nat (calls_in_flight c ts)
             = in_flight (state_at s c) + N.of_nat (calls_in_flight c ts'))%N ->
  attempts_inv (mkAttempts s' rs ts').
Proof.
  intros [Hp Ho Hn Hd Ht Hc] Hdom Hts Hcount. split; simpl in *; try done.
  - intros r c Hr Hin. eauto.
  - intros c Hopen. destruct (Hcount c Hopen) as [Hopen' Heq]. specialize (Hc c Hopen'). lia.
Qed.

Lemma nodup_rest (rs : list InitAttemptRecord) (r : InitAttemptRecord) (pre : list N) (c : N) (rest : list N) :
  NoDup (lineage r) -> outer_lineage r = pre ++ c :: rest ->
  c <> own_state r /\ c ∈ lineage r /\ c ∉ rest.
Proof.
  rewrite lineage_cons. intros Hn Heq. rewrite Heq in *.
  apply NoDup_cons in Hn as [Hown Hn]. apply NoDup_app in Hn as (_ & _ & Hn).
  apply NoDup_cons in Hn as [Hrest _]. set_solver.
Qed.

Lemma inv_new s rs ts c parent :
  s !! c = None -> (forall p, parent = Some p -> p ∈ rs) -> attempts_inv (mkAttempts s rs ts) ->
  attempts_inv (mkAttempts (<[c := record_default]> s) (mkRecord c parent :: rs) ts).
Proof.
  intros Hfresh Hparent [Hp Ho Hn Hd Ht Hc]; simpl in *.
  assert (Hout : forall r, r ∈ rs -> c ∉ lineage r).
  { intros r Hr Hin. destruct (Hd r c Hr Hin) as [? ?]. congruence. }
  assert (Hown : forall r, r ∈ rs -> own_state r <> c).
  { intros r Hr <-. apply (Hout r Hr), own_in_lineage. }
  split; simpl.
  - intros c' p [[= -> <-] | Hin]%elem_of_cons; right; [by apply Hparent | by eapply Hp].
  - intros r r' [-> | Hr]%elem_of_cons [-> | Hr']%elem_of_cons Heq; simpl in Heq; try done.
    + by destruct (Hown r' Hr').
    + by destruct (Hown r Hr).
    + by apply Ho.
  - intros r [-> | Hr]%elem_of_cons; [|by apply Hn]. simpl. destruct parent as [p|].
    + apply NoDup_cons. split; [apply Hout | apply Hn]; by apply Hparent.
    + apply NoDup_singleton.
  - intros r c' Hr Hin. destruct (decide (c' = c)) as [-> | Hne]; [rewrite lookup_insert_eq; by eexists|].
    rewrite lookup_insert_ne by done. apply elem_of_cons in Hr as [-> | Hr]; [|eauto].
    simpl in Hin. destruct parent as [p|]; [|set_solver].
    apply (Hd p); [by apply Hparent | set_solver].
  - intros t Hin. specialize (Ht t Hin). destruct t as [r u rest | r | rest]; simpl in *; [set_solver.. |].
    destruct Ht as (r & pre & Hr & Heq). exists r, pre. set_solver.
  - intros c' Hop. unfold state_at in *. destruct (decide (c' = c)) as [-> | Hne].
    + rewrite lookup_insert_eq. simpl. rewrite calls_zero; [done|].
      intros t Hin. destruct (counts c t) eqn:E; [|done].
      destruct (counts_lineage rs c t (Ht t Hin) E) as (r & Hr & Hc'). by destruct (Hout r Hr).
    + rewrite lookup_insert_ne in * by done. by apply Hc.
Qed.

Lemma inv_start s rs ts r u :
  r ∈ rs -> closed (state_at s (own_state r)) = false -> attempts_inv (mkAttempts s rs ts) ->
  attempts_inv (mkAttempts (with_state s (own_state r) (apply_update u)) rs (Updating r u (outer_lineage r) :: ts)).
Proof.
  intros Hr Hop Hinv. pose proof (inv_nodup _ Hinv r Hr) as Hn. rewrite lineage_cons in Hn.
  apply NoDup_cons in Hn as [Hn _]. eapply inv_update; [done | | |].
  - intros c. apply with_state_dom.
  - intros t [-> | Hin]%elem_of_cons; [|by apply (inv_threads _ Hinv)]. split; [done|]. by exists [].
  - intros c. rewrite state_with, calls_cons.
    assert (Hcounts : counts c (Updating r u (outer_lineage r))
                      = bool_decide (c = own_state r) && match u with CallStarts => true | _ => false end).
    { destruct u as [|a]; simpl; [|by rewrite andb_false_r]. rewrite lineage_cons, andb_true_r.
      repeat case_bool_decide; set_solver. }
    rewrite Hcounts. case_bool_decide as Heq; [subst c | simpl; intros ?; split; [done | lia]].
    rewrite update_closed. intros _. split; [done|]. destruct u; simpl; lia.
Qed.

Lemma inv_outer s rs ts1 r u c rest ts2 :
  attempts_inv (mkAttempts s rs (ts1 ++ Updating r u (c :: rest) :: ts2)) ->
  attempts_inv (mkAttempts (update_outer u s c) rs (ts1 ++ Updating r u rest :: ts2)).
Proof.
  intros Hinv. pose proof (inv_threads _ Hinv) as Ht; simpl in Ht.
  destruct (Ht (Updating r u (c :: rest))) as [Hr [pre Hpre]]; [set_solver|].
  destruct (nodup_rest rs r pre c rest (inv_nodup _ Hinv r Hr) Hpre) as (Hne & Hin & Hout).
  eapply inv_update; [done | | |].
  - intros c'. apply update_outer_dom.
  - eapply (threads_replace _ _ [_]); [done|]. intros t ->%list_elem_of_singleton.
    split; [done|]. exists (pre ++ [c]). by rewrite <- app_assoc.
  - intros c'. unfold update_outer. rewrite !calls_app, !calls_cons.
    assert (Hcounts : c' <> c -> counts c' (Updating r u (c :: rest)) = counts c' (Updating r u rest)).
    { intros Hc'. destruct u; simpl; [|done]. repeat case_bool_decide; set_solver. }
    destruct (closed (state_at s c)) eqn:Hcl.
    + intros Hop. split; [done|]. rewrite Hcounts by congruence. lia.
    + rewrite state_with. case_bool_decide as Heq; [subst c'|].
      * intros _. split; [done|]. destruct u; simpl; [|lia].
        rewrite (bool_decide_eq_true_2 (c ∈ lineage r)), (bool_decide_eq_true_2 (c ∈ c :: rest)),
          (bool_decide_eq_false_2 (c ∈ rest)) by set_solver. simpl. lia.
      * intros Hop. split; [done|]. rewrite Hcounts by done. lia.
Qed.

Lemma inv_end s rs ts1 r u ts2 :
  attempts_inv (mkAttempts s rs (ts1 ++ Updating r u [] :: ts2)) ->
  attempts_inv (mkAttempts s rs (ts1 ++ after_update r u ++ ts2)).
Proof.
  intros Hinv. pose proof (inv_threads _ Hinv) as Ht; simpl in Ht.
  destruct (Ht (Updating r u [])) as [Hr _]; [set_solver|].
  eapply inv_update; [done | done | |].
  - eapply threads_replace; [done|]. intros t. destruct u; simpl; [|set_solver].
    by intros ->%list_elem_of_singleton.
  - intros c Hop. split; [done|]. destruct u; [|by rewrite !calls_app, calls_cons].
    simpl. rewrite (calls_swap c ts1 ts2 (Updating r CallStarts []) (Waiting r)); [done|].
    simpl. by rewrite andb_true_r.
Qed.

Lemma inv_drop s rs ts1 r ts2 :
  attempts_inv (mkAttempts s rs (ts1 ++ Waiting r :: ts2)) ->
  attempts_inv (mkAttempts s rs (ts1 ++ Dropping (lineage r) :: ts2)).
Proof.
  intros Hinv. pose proof (inv_threads _ Hinv) as Ht; simpl in Ht.
  eapply inv_update; [done | done | |].
  - eapply (threads_replace _ _ [_]); [done|]. intros t ->%list_elem_of_singleton.
    exists r, []. split; [|done]. apply (Ht (Waiting r)). set_solver.
  - intros c Hop. split; [done|]. by rewrite (calls_swap c ts1 ts2 (Waiting r) (Dropping (lineage r))).
Qed.

Lemma inv_answered s rs ts1 c rest ts2 :
  attempts_inv (mkAttempts s rs (ts1 ++ Dropping (c :: rest) :: ts2)) ->
  attempts_inv (mkAttempts (with_state s c answered) rs (ts1 ++ Dropping rest :: ts2)).
Proof.
  intros Hinv. pose proof (inv_threads _ Hinv) as Ht; simpl in Ht.
  destruct (Ht (Dropping (c :: rest))) as (r & pre & Hr & Hpre); [set_solver|].
  pose proof (inv_nodup _ Hinv r Hr) as Hn. rewrite Hpre in Hn.
  apply NoDup_app in Hn as (_ & _ & [Hout _]%NoDup_cons).
  eapply inv_update; [done | | |].
  - intros c'. apply with_state_dom.
  - eapply (threads_replace _ _ [_]); [done|]. intros t ->%list_elem_of_singleton.
    exists r, (pre ++ [c]). by rewrite <- app_assoc.
  - intros c'. rewrite state_with. case_bool_decide as Heq; [subst c'|]; intros Hop; (split; [done|]).
    + pose proof (inv_count _ Hinv c Hop) as Hcount; simpl in Hcount, Hop.
      rewrite !calls_app, !calls_cons in *. simpl in *.
      rewrite (bool_decide_eq_true_2 (c ∈ c :: rest)) in * by set_solver.
      rewrite bool_decide_eq_false_2 by done. lia.
    + rewrite (calls_swap c' ts1 ts2 (Dropping (c :: rest)) (Dropping rest)); [done|].
      simpl. apply bool_decide_ext. set_solver.
Qed.

Lemma inv_close s rs ts r :
  attempts_inv (mkAttempts s rs ts) -> attempts_inv (mkAttempts (close s r).1 rs ts).
Proof.
  intros Hinv. eapply inv_update; [done | | |].
  - intros c. apply with_state_dom.
  - apply (inv_threads _ Hinv).
  - intros c. simpl. rewrite state_with. by case_bool_decide.
Qed.

Lemma attempts_inv_step (x y : AttemptSys) : attempts_inv x -> attempt_step x y -> attempts_inv y.
Proof. destruct 2; eauto using inv_new, inv_start, inv_outer, inv_end, inv_drop, inv_answered, inv_close. Qed.

Lemma attempts_inv_init : attempts_inv attempts_init.
Proof. split; simpl; try set_solver. Qed.

Lemma attempts_inv_rtc (x y : AttemptSys) : rtc attempt_step x y -> attempts_inv x -> attempts_inv y.
Proof. induction 1; eauto using attempts_inv_step. Qed.

Lemma attempts_inv_reachable (x : AttemptSys) : attempts_reachable x -> attempts_inv x.
Proof. intros H. exact (attempts_inv_rtc _ _ H attempts_inv_init). Qed.

(** ** Progress *)

#[local] Instance holds_dec (c : N) (t : Thread) : Decision (holds c t).
Proof. destruct t; simpl; apply _. Defined.

(** What is left to visit by the updates and drops under way. *)
Definition remaining (t : Thread) : nat :=
  match t with Updating _ _ rest => S (length rest) | Waiting _ => 0 | Dropping rest => length rest end.

Definition work (ts : list Thread) : nat := sum_list_with remaining ts.

Definition advances (x : AttemptSys) : Prop := exists y, attempt_step x y /\ work (threads y) < work (threads x).

Lemma work_app (ts1 ts2 : list Thread) : work (ts1 ++ ts2) = work ts1 + work ts2.
Proof. apply sum_list_with_app. Qed.

Lemma locked_by (c : N) (ts : list Thread) :
  ~ unlocked c ts -> exists r u rest, Updating r u rest ∈ ts /\ own_state r = c.
Proof.
  intros (t & Ht & H)%not_Forall_Exists%Exists_exists; [|intros t; apply _].
  apply dec_stable in H. destruct t as [r u rest | |]; simpl in H; [|done..]. by exists r, u, rest.
Qed.

(** Whoever holds an outer record's lock has a shorter lineage. *)
Lemma update_advances (x : AttemptSys) (n : nat) :
  attempts_inv x -> forall r u rest, Updating r u rest ∈ threads x -> length (lineage r) < n -> advances x.
Proof.
  destruct x as [s rs ts]. intros Hinv. induction n as [|n IH]; intros r u rest Hin Hlen; [lia|]. simpl in Hin.
  destruct (inv_threads _ Hinv _ Hin) as [Hr [pre Hpre]]. simpl in Hr.
  destruct rest as [|c rest].
  - apply list_elem_of_split in Hin as (ts1 & ts2 & ->). eexists. split; [apply as_end|].
    simpl. rewrite !work_app. destruct u; unfold work; simpl; lia.
  - destruct (decide (unlocked c ts)) as [Hul|Hl].
    + apply list_elem_of_split in Hin as (ts1 & ts2 & ->). eexists. split; [by apply as_outer|].
      simpl. rewrite !work_app. unfold work. simpl. lia.
    + destruct (locked_by c ts Hl) as (r' & u' & rest' & Hin' & Hc).
      destruct (inv_threads _ Hinv _ Hin') as [Hr' _].
      destruct (lineage_split rs (inv_parents _ Hinv) r (own_state r :: pre) c rest Hr) as (r'' & Hr'' & Hc'' & Hlin).
      { by rewrite lineage_cons, Hpre. }
      assert (r'' = r') as -> by (apply (inv_own _ Hinv); simpl; [done | done | congruence]).
      apply (IH r' u' rest' Hin'). rewrite Hlin. rewrite lineage_cons, Hpre in Hlen.
      simpl in Hlen. rewrite length_app in Hlen. simpl in *. lia.
Qed.

Definition is_updating (t : Thread) : Prop := match t with Updating _ _ _ => True | _ => False end.

#[local] Instance is_updating_dec (t : Thread) : Decision (is_updating t).
Proof. destruct t; simpl; apply _. Defined.

Lemma idle_unlocked (c : N) (ts : list Thread) : Forall (fun t => ~ is_updating t) ts -> unlocked c ts.
Proof. intros H. unfold unlocked. apply (Forall_impl _ _ _ H). intros [] Ht; simpl in *; tauto. Qed.

Lemma work_some (ts : list Thread) : work ts <> 0%nat -> exists t, t ∈ ts /\ remaining t <> 0%nat.
Proof.
  induction ts as [|t ts IH]; intros H; [done|]. unfold work in H. simpl in H.
  destruct (decide (remaining t = 0%nat)) as [H0|H0].
  - destruct IH as (t' & Ht' & Hr); [unfold work; lia|]. exists t'. set_solver.
  - exists t. set_solver.
Qed.

Lemma work_advances (x : AttemptSys) : attempts_inv x -> work (threads x) <> 0%nat -> advances x.
Proof.
  intros Hinv Hw. destruct (decide (Exists is_updating (threads x))) as [He|He].
  - apply Exists_exists in He as (t & Hin & Ht). destruct t as [r u rest| |]; [|done..].
    eapply (update_advances x (S (length (lineage r)))); [done..| lia].
  - destruct x as [s rs ts]; simpl in *. apply not_Exists_Forall in He; [|intros t; apply _].
    destruct (work_some ts Hw) as (t & Hin & Hr). pose proof (proj1 (Forall_forall _ _) He t Hin) as Ht.
    destruct t as [| | [|c rest]]; [by simpl in Ht | by simpl in Hr | by simpl in Hr |].
    apply list_elem_of_split in Hin as (ts1 & ts2 & ->). eexists. split.
    + apply as_answered, idle_unlocked, He.
    + simpl. rewrite !work_app. unfold work. simpl. lia.
Qed.

(** ** Settling *)

Lemma update_outer_frame (u : Update) (cs : list N) (s : Store) (c : N) :
  c ∉ cs -> state_at (foldl (update_outer u) s cs) c = state_at s c.
Proof.
  revert s. induction cs as [|c' cs IH]; intros s Hc; [done|]. simpl. rewrite IH by set_solver.
  unfold update_outer. destruct (closed _); [done|]. apply state_with_other. set_solver.
Qed.

(** An open record after a note of its own. *)
Lemma note_own (s : Store) (r : InitAttemptRecord) (a : DatabaseAnswer) :
  NoDup (lineage r) -> closed (state_at s (own_state r)) = false ->
  worst (state_at (note s r a) (own_state r)) = worst_max (worst (state_at s (own_state r))) a.
Proof.
  rewrite lineage_cons. intros [Hn _]%NoDup_cons Hop. unfold note, update_lineage. rewrite Hop. simpl.
  rewrite update_outer_frame by done. by rewrite state_with_same.
Qed.

Lemma worst_unavailable (w : option DatabaseAnswer) : worst_max w Unavailable = Some Unavailable.
Proof. by destruct w as [[]|]. Qed.

Lemma from_detail_code_detail (a : DatabaseAnswer) : from_detail_code (answer_detail_code a) = Some a.
Proof. by destruct a. Qed.

(** The record of an open attempt counts exactly the database calls of
    the attempt, and of those nested in it, that wait for their answer -
    whichever way calls, their drops and closes interleave. *)
Theorem in_flight_exact (x : AttemptSys) (c : N) :
  attempts_reachable x -> closed (state_at (store x) c) = false ->
  in_flight (state_at (store x) c) = N.of_nat (calls_in_flight c (threads x)).
Proof. intros Hx. apply (inv_count x (attempts_inv_reachable x Hx)). Qed.

(** C40: The record locks never deadlock: from any reachable state every
    update and every drop under way can run to its end without a new one
    starting. *)
Theorem updates_complete (x : AttemptSys) :
  attempts_reachable x -> exists y, rtc attempt_step x y /\ work (threads y) = 0%nat.
Proof.
  intros Hx%attempts_inv_reachable. remember (work (threads x)) as n eqn:Hn. revert x Hn Hx.
  induction n as [n IH] using lt_wf_ind. intros x -> Hx.
  destruct (decide (work (threads x) = 0%nat)) as [H0|H0]; [by exists x|].
  destruct (work_advances x Hx H0) as (y & Hstep & Hlt).
  destruct (IH _ Hlt y eq_refl (attempts_inv_step _ _ Hx Hstep)) as (z & Hyz & Hz).
  exists z. split; [by eapply rtc_l | done].
Qed.

Section Settling.
  Context `{DebugFormat} (duration_debug : N -> string).

(** An attempt cut off by its init budget fails transiently, and its
    class is [database.unavailable] exactly when one of its database calls
    still waits or it saw that answer; otherwise it is the worst answer its
    calls got, and none when they got none. *)
Theorem timed_out_class (x : AttemptSys) (r : InitAttemptRecord) (name : string) (b : InitBudget) :
  attempts_reachable x -> r ∈ records x -> closed (state_at (store x) (own_state r)) = false ->
  exists failure,
    (finish_attempt duration_debug (store x) r name (TimedOut b)).2 = Err (Transient failure) /\
    tf_detail_code failure
    = option_map answer_detail_code
        (if (calls_in_flight (own_state r) (threads x) =? 0)%nat then worst (state_at (store x) (own_state r))
         else Some Unavailable).
Proof.
  intros Hx%attempts_inv_reachable Hr Hop. unfold finish_attempt, settle_attempt, note_unanswered. simpl.
  rewrite (inv_count x Hx _ Hop).
  destruct (Nat.eqb_spec (calls_in_flight (own_state r) (threads x)) 0) as [->|Hne]; simpl.
  - destruct (worst _) as [a|]; eexists; split; reflexivity.
  - rewrite (proj2 (N.ltb_lt _ _)) by lia.
    rewrite note_own, worst_unavailable by (done || by apply (inv_nodup x Hx)). eexists; split; reflexivity.
Qed.

(** Settling never downgrades: a transient failure keeps its message, is
    classed by the greater of its own database class and what its calls saw,
    and keeps its own code when they saw nothing; every other outcome stands. *)
Theorem settle_class (s : Store) (r : InitAttemptRecord) (outcome : init_result) :
  (settle_attempt s r outcome).2
  = match outcome with
    | Err (Transient f) =>
        let own := match tf_detail_code f with Some code => from_detail_code code | None => None end in
        Err (Transient (mkTF (tf_message f)
          (match worst (state_at s (own_state r)), own with
           | None, _ => tf_detail_code f
           | Some seen, Some own =>
               Some (answer_detail_code (if (answer_rank own <? answer_rank seen)%nat then seen else own))
           | Some seen, None => Some (answer_detail_code seen)
           end)))
    | _ => outcome
    end.
Proof.
  unfold settle_attempt, close. simpl. generalize (worst (state_at s (own_state r))) as seen. intros seen.
  destruct outcome as [[]|[|[msg code]|]]; [by destruct seen.. | | by destruct seen].
  destruct seen as [seen|]; [|done]. simpl. destruct code as [code|]; [|done].
  destruct (from_detail_code code) as [own|]; [|done]. by destruct own, seen.
Qed.
End Settling.

(** ** An attempt nested in another, its database call waiting *)

Definition outer_attempt : InitAttemptRecord := mkRecord 0 None.
Definition nested_attempt : InitAttemptRecord := mkRecord 1 (Some outer_attempt).

Definition waiting_store : Store :=
  (call (<[1%N := record_default]> (<[0%N := record_default]> ∅)) nested_attempt).1.
Definition waiting : AttemptSys := mkAttempts waiting_store [nested_attempt; outer_attempt] [Waiting nested_attempt].

Lemma waiting_reachable : attempts_reachable waiting.
Proof.
  eapply rtc_l; [apply (as_new _ _ _ 0%N None); [reflexivity | done]|].
  eapply rtc_l; [apply (as_new _ _ _ 1%N (Some outer_attempt)); [reflexivity|]; intros p [= <-]; left|].
  eapply rtc_l; [apply (as_start _ _ _ nested_attempt CallStarts); [left | by apply Forall_nil | reflexivity]|].
  eapply rtc_l; [apply (as_outer _ _ [] nested_attempt CallStarts 0%N [] [])|].
  { apply Forall_singleton. simpl. done. }
  apply rtc_once. apply (as_end _ _ [] nested_attempt CallStarts []).
Qed.

Lemma in_flight_exact_witness :
  closed (state_at waiting_store 0) = false /\ in_flight (state_at waiting_store 0) = 1%N.
Proof. split; [reflexivity|]. exact (in_flight_exact waiting 0 waiting_reachable eq_refl). Defined.

Lemma updates_complete_witness : exists y, rtc attempt_step waiting y /\ work (threads y) = 0%nat.
Proof. exact (updates_complete waiting waiting_reachable). Defined.

Lemma timed_out_class_witness :
  let _ := Build_DebugFormat id in
  exists failure,
    (finish_attempt (fun _ => "5s") waiting_store outer_attempt "acme/app" (TimedOut (mkBudget 5000000000 false))).2
    = Err (Transient failure) /\ tf_detail_code failure = Some DATABASE_UNAVAILABLE.
Proof.
  intros fmt. apply (timed_out_class (fun _ => "5s") waiting outer_attempt "acme/app" (mkBudget 5000000000 false)).
  - exact waiting_reachable.
  - right. left.
  - reflexivity.
Defined.
