(* ===== verification/DatabaseTypes.v ===== *)
(** The data of the database interface: query types ([wafer-block/src/db.rs]),
    wire requests and answers ([wafer-block/src/wire/database.rs]), the
    service's specifications and calls
    ([wafer-core/src/interfaces/database/service.rs],
    [wafer-sql-utils]) and the schema types ([wafer-schema/src/types.rs]).

    A [HashMap] is the list of its entries in its iteration order, which Rust
    leaves open; an [IndexMap] is its list of entries. A record and a record
    list have the same fields on the wire and in the service, and are one
    type here. *)

From S2P Require Import Prelude CoreTypes Grants BlockName Text InitAttempts.

(** ** Names and filters ([db.rs]) *)

(** [is_plain_ident]; [MAX_IDENT_LEN] is in [BlockName]. *)
Definition is_plain_ident (name : string) : bool :=
  negb (is_empty name) && (String.length name <=? MAX_IDENT_LEN)%nat
  && str_forallb (fun b => is_ascii_lowercase b || is_ascii_digit b || Ascii.eqb b "_") name.

Module FilterOp.
Inductive t :=
| Equal | NotEqual | GreaterThan | GreaterEqual | LessThan | LessEqual
| Like | ContainsIgnoreCase | StartsWith | In | IsNull | IsNotNull.

Section Wire.
  Context `{DebugFormat}.

(** [FilterOp::parse_wire]. *)
Definition parse_wire (op : string) : result t WaferError :=
  if (op =s "eq") || (op =s "=") || (op =s "equal") then Ok Equal
  else if (op =s "neq") || (op =s "!=") || (op =s "not_equal") then Ok NotEqual
  else if (op =s "gt") || (op =s ">") || (op =s "greater_than") then Ok GreaterThan
  else if (op =s "gte") || (op =s ">=") || (op =s "greater_equal") then Ok GreaterEqual
  else if (op =s "lt") || (op =s "<") || (op =s "less_than") then Ok LessThan
  else if (op =s "lte") || (op =s "<=") || (op =s "less_equal") then Ok LessEqual
  else if op =s "like" then Ok Like
  else if op =s "contains_ignore_case" then Ok ContainsIgnoreCase
  else if op =s "starts_with" then Ok StartsWith
  else if op =s "in" then Ok In
  else if op =s "is_null" then Ok IsNull
  else if op =s "is_not_null" then Ok IsNotNull
  else Err (error_new ErrorCode.InvalidArgument ("unknown filter operator: " +:+ debug_str op)).
End Wire.

(** [FilterOp::as_wire]. *)
Definition as_wire (op : t) : string :=
  match op with
  | Equal => "eq" | NotEqual => "neq" | GreaterThan => "gt" | GreaterEqual => "gte"
  | LessThan => "lt" | LessEqual => "lte" | Like => "like"
  | ContainsIgnoreCase => "contains_ignore_case" | StartsWith => "starts_with"
  | In => "in" | IsNull => "is_null" | IsNotNull => "is_not_null"
  end.
End FilterOp.

Module ColumnCompareOp.
Inductive t := Equal | NotEqual | GreaterThan | GreaterEqual | LessThan | LessEqual.

(** [ColumnCompareOp::from_filter_op]. *)
Definition from_filter_op (op : FilterOp.t) : option t :=
  match op with
  | FilterOp.Equal => Some Equal
  | FilterOp.NotEqual => Some NotEqual
  | FilterOp.GreaterThan => Some GreaterThan
  | FilterOp.GreaterEqual => Some GreaterEqual
  | FilterOp.LessThan => Some LessThan
  | FilterOp.LessEqual => Some LessEqual
  | FilterOp.Like | FilterOp.ContainsIgnoreCase | FilterOp.StartsWith
  | FilterOp.In | FilterOp.IsNull | FilterOp.IsNotNull => None
  end.

(** [ColumnCompareOp::as_filter_op]. *)
Definition as_filter_op (op : t) : FilterOp.t :=
  match op with
  | Equal => FilterOp.Equal
  | NotEqual => FilterOp.NotEqual
  | GreaterThan => FilterOp.GreaterThan
  | GreaterEqual => FilterOp.GreaterEqual
  | LessThan => FilterOp.LessThan
  | LessEqual => FilterOp.LessEqual
  end.
End ColumnCompareOp.

Record Filter := mkFilter { f_field : string; f_operator : FilterOp.t; f_value : Value }.
Record ColumnFilter := mkColumnFilter { cf_field : string; cf_operator : ColumnCompareOp.t; cf_column : string }.

Module FilterTree.
Inductive t :=
| Leaf (f : Filter)
| ColumnCompare (f : ColumnFilter)
| All (children : list t)
| Any (children : list t).
End FilterTree.

Record SortField := mkSortField { sf_field : string; sf_desc : bool }.

Record ListOptions := mkListOptions {
  lo_filters : list Filter;
  lo_sort : list SortField;
  lo_limit : option N;
  lo_offset : Z;
  lo_skip_count : bool;
  lo_filter_tree : option (list FilterTree.t);
  lo_columns : option (list string)
}.

(** [ListOptions::default]. *)
Definition list_options_default : ListOptions := mkListOptions [] [] None 0 false None None.

(** A [HashMap<String, Value>]. *)
Abbreviation Data := (list (string * Value)).

(** ** Wire requests ([wire/database.rs]) *)

Record FilterDef := mkFilterDef {
  fd_field : string; fd_operator : string; fd_value : Value; fd_column : option string
}.

Module FilterNode.
Inductive t :=
| Leaf (f : FilterDef)
| All (all : list t)
| Any (any : list t).
End FilterNode.

Record SortFieldDef := mkSortFieldDef { sd_field : string; sd_desc : bool }.

Module OnConflict.
Inductive t :=
| SetColumns (cols : list string)
| WindowedCounter (count_field window_field : string) (now window_cutoff : Z)
    (created_fields updated_fields : list string).
End OnConflict.

Record UpsertRequest := mkUpsertRequest {
  up_collection : string;
  up_data : list (string * Value);
  up_conflict_columns : list string;
  up_on_conflict : OnConflict.t
}.

Module BatchWrite.
Inductive t :=
| Create (collection : string) (data : Data)
| Update (collection id : string) (data : Data)
| Delete (collection id : string)
| UpdateWhere (collection : string) (filters : list FilterNode.t) (data : Data)
| DeleteWhere (collection : string) (filters : list FilterNode.t)
| Upsert (req : UpsertRequest).

(** [BatchWrite::collection], [BatchWrite::access]. *)
Definition collection (w : t) : string :=
  match w with
  | Create c _ | Update c _ _ | Delete c _ | UpdateWhere c _ _ | DeleteWhere c _ => c
  | Upsert req => up_collection req
  end.

Definition access (w : t) : ResourceAccess.t :=
  match w with
  | Create _ _ => ResourceAccess.Append
  | Update _ _ _ | Delete _ _ | UpdateWhere _ _ _ | DeleteWhere _ _ | Upsert _ => ResourceAccess.Write
  end.
End BatchWrite.

Definition MAX_WRITE_GUARDS : nat := 16.

Module CapGuardDef.
(** [wire::CapGuard]. *)
Inductive t :=
| CountBelow (filters : list FilterNode.t) (cap : Z)
| SumAtMost (field : string) (filters : list FilterNode.t) (add cap : Z).
End CapGuardDef.

Module AggregateColumnDef.
Inductive t :=
| Count (alias : string)
| Sum (field alias : string) (cast_as : option string)
| Avg (field alias : string) (cast_as : option string)
| Max (field alias : string)
| CaseWhenSum (when : list FilterNode.t) (alias : string)
| SumWhere (field : string) (when : list FilterNode.t) (alias : string) (cast_as : option string)
| CountGroups (alias : string).
End AggregateColumnDef.

Module GroupByDef.
Inductive t := Column (c : string) | DateBucket (field : string).
End GroupByDef.

Record AggregateRequest := mkAggregateRequest {
  ar_collection : string;
  ar_select_columns : list string;
  ar_aggregates : list AggregateColumnDef.t;
  ar_filters : list FilterNode.t;
  ar_group_by : list GroupByDef.t;
  ar_sort : list SortFieldDef;
  ar_limit : Z;
  ar_having : list FilterNode.t;
  ar_offset : Z
}.

Record RawStatement := mkRawStatement { rs_query : string; rs_args : list Value }.

Record DefaultDef := mkDefaultDef { dd_kind : string; dd_value : Value }.
Record ColumnDef := mkColumnDef {
  cd_name : string; cd_kind : string; cd_nullable : bool; cd_primary_key : bool;
  cd_auto_increment : bool; cd_unique : bool; cd_default : option DefaultDef
}.
Record IndexDef := mkIndexDef { id_name : string; id_columns : list string; id_unique : bool }.
Record TableDef := mkTableDef {
  td_name : string; td_columns : list ColumnDef; td_indexes : list IndexDef;
  td_primary_key : list string; td_unique_keys : list (list string)
}.

Record GetRequest := mkGet { get_collection : string; get_id : string }.
Record ListRequest := mkList {
  list_collection : string; list_filters : list FilterNode.t; list_sort : list SortFieldDef;
  list_limit : option N; list_offset : Z; list_skip_count : bool; list_columns : option (list string)
}.
Record CreateRequest := mkCreate { create_collection : string; create_data : Data }.
Record CreateManyRequest := mkCreateMany { cm_collection : string; cm_rows : list Data }.
Record UpdateRequest := mkUpdate { update_collection : string; update_id : string; update_data : Data }.
Record DeleteRequest := mkDelete { delete_collection : string; delete_id : string }.
(** [CountRequest], [DeleteWhereRequest], [DeleteWhereCountRequest] and
    [TakeWhereRequest]; [UpdateWhereRequest] and [UpdateWhereCountRequest]:
    the same fields. *)
Record WhereRequest := mkWhere { wh_collection : string; wh_filters : list FilterNode.t }.
Record UpdateWhereRequest := mkUpdateWhere { uw_collection : string; uw_filters : list FilterNode.t; uw_data : Data }.
Record SumRequest := mkSum { sum_collection : string; sum_field : string; sum_filters : list FilterNode.t }.
(** [QueryRawRequest] and [ExecRawRequest]. *)
Record RawRequest := mkRaw { raw_query : string; raw_args : list Value }.
Record DdlTransactionRequest := mkDdlTransaction { dt_statements : list RawStatement }.
Record AddColumnRequest := mkAddColumn { ac_table : string; ac_column : ColumnDef }.
(** [DropTableRequest], [TableExistsRequest], [CatalogColumnsRequest] and
    [CatalogRowCountRequest]. *)
Record TableRequest := mkTableRequest { tr_table : string }.
Record IncrementFieldWhereRequest := mkIncrement {
  if_collection : string; if_col : string; if_delta : Z; if_filters : list FilterNode.t
}.
Record BatchRequest := mkBatch { br_ops : list BatchWrite.t }.
Record InsertGuardedRequest := mkInsertGuarded {
  ig_collection : string; ig_data : Data; ig_guards : list CapGuardDef.t
}.
Record UpdateGuardedRequest := mkUpdateGuarded {
  ug_collection : string; ug_filters : list FilterNode.t; ug_data : Data; ug_guards : list CapGuardDef.t
}.

(** ** Records *)

Record DbRecord := mkDbRecord { dr_id : string; dr_data : list (string * Value) }.
Record RecordList := mkRecordList { rl_records : list DbRecord; rl_total_count : Z; rl_page : Z; rl_page_size : Z }.
Record CatalogColumn := mkCatalogColumn {
  cc_name : string; cc_decl_type : string; cc_not_null : bool; cc_default_value : option string;
  cc_primary_key_position : option N
}.

(** ** The service ([service.rs]) *)

Inductive DatabaseError :=
| NotFound | AlreadyExists (msg : string) | InvalidArgument (msg : string) | Unavailable (msg : string)
| Contended (msg : string) | CallBudgetExhausted (msg : string) | Internal (msg : string) | Other (display : string).

(** [DatabaseError::code], [attempt_answer], [detail_code]. *)
Definition database_error_code (e : DatabaseError) : ErrorCode.t :=
  match e with
  | NotFound => ErrorCode.NotFound
  | AlreadyExists _ => ErrorCode.AlreadyExists
  | InvalidArgument _ => ErrorCode.InvalidArgument
  | Unavailable _ | Contended _ => ErrorCode.Unavailable
  | CallBudgetExhausted _ => ErrorCode.ResourceExhausted
  | Internal _ | Other _ => ErrorCode.Internal
  end.

Definition attempt_answer (e : DatabaseError) : option DatabaseAnswer :=
  match e with
  | Unavailable _ => Some InitAttempts.Unavailable
  | Contended _ => Some InitAttempts.Contended
  | CallBudgetExhausted _ => Some InitAttempts.CallBudgetExhausted
  | NotFound | AlreadyExists _ | InvalidArgument _ | Internal _ | Other _ => None
  end.

Definition database_detail_code (e : DatabaseError) : option string := option_map answer_detail_code (attempt_answer e).

Record TransactionError := mkTransactionError { te_statement : option nat; te_error : DatabaseError }.

Module UpsertConflict.
Inductive t :=
| SetColumns (cols : list string)
| WindowedCounter (count_field window_field : string) (now window_cutoff : Z)
    (created_fields updated_fields : list string).
End UpsertConflict.

Record UpsertSpec := mkUpsertSpec {
  us_data : list (string * Value); us_conflict_columns : list string; us_on_conflict : UpsertConflict.t
}.

Module WriteOp.
Inductive t :=
| Create (collection : string) (data : Data)
| Update (collection id : string) (data : Data)
| Delete (collection id : string)
| UpdateWhere (collection : string) (filters : list Filter) (data : Data)
| DeleteWhere (collection : string) (filters : list Filter)
| Upsert (collection : string) (spec : UpsertSpec).

(** [WriteOp::collection]. *)
Definition collection (w : t) : string :=
  match w with
  | Create c _ | Update c _ _ | Delete c _ | UpdateWhere c _ _ | DeleteWhere c _ | Upsert c _ => c
  end.
End WriteOp.

(** [WriteOutcome] and [wire::BatchWriteResult]. *)
Module WriteOutcome.
Inductive t :=
| Created (r : DbRecord) | Updated (r : option DbRecord) | Deleted (rows_affected : Z)
| UpdatedWhere (rows_affected : Z) | DeletedWhere (rows_affected : Z) | Upserted (rows_affected : Z).
End WriteOutcome.

(** [GuardedInsert] and [wire::InsertGuardedResponse]; [GuardedUpdate] and
    [wire::UpdateGuardedResponse]. *)
Module GuardedInsert.
Inductive t := Inserted (record : DbRecord) | Refused (guard : nat).
End GuardedInsert.

Module GuardedUpdate.
Inductive t := Updated (rows_affected : Z) | Refused (guard : nat) | NoMatch.
End GuardedUpdate.

Module CapGuard.
(** [wafer_sql_utils::guard::CapGuard]. *)
Inductive t :=
| CountBelow (filters : list Filter) (cap : Z)
| SumAtMost (field : string) (filters : list Filter) (add cap : Z).
End CapGuard.

Module CastType.
Inductive t := BigInt | Double.

#[global] Instance eq_dec : EqDecision t.
Proof. solve_decision. Defined.

Definition ALL : list t := [BigInt; Double].

(** [CastType::as_sql], [CastType::parse]. *)
Definition as_sql (c : t) : string := match c with BigInt => "BIGINT" | Double => "DOUBLE PRECISION" end.
Definition parse (name : string) : option t := List.find (fun c => eq_ignore_ascii_case (as_sql c) name) ALL.
End CastType.

Module AggregateColumnSpec.
Inductive t :=
| Count (alias : string)
| Sum (field alias : string) (cast_as : option CastType.t)
| Avg (field alias : string) (cast_as : option CastType.t)
| Max (field alias : string)
| CaseWhenSum (when : list FilterTree.t) (alias : string)
| SumWhere (field : string) (when : list FilterTree.t) (alias : string) (cast_as : option CastType.t)
| CountGroups (alias : string).

(** [AggregateColumnSpec::alias]. *)
Definition alias (a : t) : string :=
  match a with
  | Count alias | Sum _ alias _ | Avg _ alias _ | Max _ alias
  | CaseWhenSum _ alias | SumWhere _ _ alias _ | CountGroups alias => alias
  end.
End AggregateColumnSpec.

Module GroupBySpec.
Inductive t := Column (c : string) | DateBucket (field : string).
End GroupBySpec.

Record AggregateSpec := mkAggregateSpec {
  as_select_columns : list string;
  as_aggregates : list AggregateColumnSpec.t;
  as_filters : list Filter;
  as_group_by : list GroupBySpec.t;
  as_sort : list SortField;
  as_limit : Z;
  as_having : list Filter;
  as_offset : Z
}.

(** [AggregateSpec::aliases], [AggregateSpec::read_columns]. *)
Definition aliases (s : AggregateSpec) : list string := map AggregateColumnSpec.alias (as_aggregates s).

Fixpoint node_columns (node : FilterTree.t) : list string :=
  match node with
  | FilterTree.Leaf f => [f_field f]
  | FilterTree.ColumnCompare f => [cf_field f; cf_column f]
  | FilterTree.All children | FilterTree.Any children => flat_map node_columns children
  end.

Definition tree_columns (nodes : list FilterTree.t) : list string := flat_map node_columns nodes.

Definition aggregate_columns (a : AggregateColumnSpec.t) : list string :=
  match a with
  | AggregateColumnSpec.Count _ | AggregateColumnSpec.CountGroups _ => []
  | AggregateColumnSpec.Sum field _ _ | AggregateColumnSpec.Avg field _ _ | AggregateColumnSpec.Max field _ => [field]
  | AggregateColumnSpec.CaseWhenSum when _ => tree_columns when
  | AggregateColumnSpec.SumWhere field when _ _ => field :: tree_columns when
  end.

Definition group_column (g : GroupBySpec.t) : string :=
  match g with GroupBySpec.Column c => c | GroupBySpec.DateBucket field => field end.

Definition read_columns (s : AggregateSpec) : list string :=
  as_select_columns s ++ flat_map aggregate_columns (as_aggregates s)
  ++ map group_column (as_group_by s) ++ map f_field (as_filters s).

(** ** Tables ([wafer-schema]) *)

Module DataType.
Inductive t := String | Text | Int | Int64 | Float | Bool | DateTime | Json | Blob.
End DataType.

Inductive DefaultVal := DefaultString (s : string) | DefaultInt (z : Z) | DefaultFloat (f : f64) | DefaultBool (b : bool).
Inductive DefaultValue := DefaultNull | DefaultNow | DefaultLiteral (v : DefaultVal).

Record Reference := mkReference {
  ref_table : string; ref_column : string; ref_on_delete : string; ref_on_update : string
}.
Record Index := mkIndex { ix_name : string; ix_columns : list string; ix_unique : bool }.
Record Column := mkColumn {
  co_name : string; co_data_type : DataType.t; co_nullable : bool; co_primary_key : bool;
  co_auto_increment : bool; co_unique : bool; co_default : option DefaultValue; co_references : option Reference
}.
Record Table := mkTable {
  ta_name : string; ta_columns : list Column; ta_indexes : list Index;
  ta_primary_key : list string; ta_unique_keys : list (list string)
}.

(** [Column::new]. *)
Definition column_new (name : string) (data_type : DataType.t) : Column :=
  mkColumn name data_type false false false false None None.

(** ** The service's calls and their answers *)

Inductive ServiceCall :=
| CallGet (collection id : string)
| CallList (collection : string) (opts : ListOptions)
| CallCreate (collection : string) (data : Data)
| CallCreateMany (collection : string) (rows : list Data)
| CallBatch (ops : list WriteOp.t)
| CallInsertGuarded (collection : string) (data : Data) (guards : list CapGuard.t)
| CallUpdateGuarded (collection : string) (filters : list Filter) (data : Data) (guards : list CapGuard.t)
| CallUpdate (collection id : string) (data : Data)
| CallDelete (collection id : string)
| CallCount (collection : string) (filters : list Filter)
| CallSum (collection field : string) (filters : list Filter)
| CallQueryRaw (query : string) (args : list Value)
| CallExecRaw (query : string) (args : list Value)
| CallExecRawTransaction (statements : list RawStatement)
| CallDeleteWhere (collection : string) (filters : list Filter)
| CallDeleteWhereCount (collection : string) (filters : list Filter)
| CallTakeWhere (collection : string) (filters : list Filter)
| CallUpdateWhere (collection : string) (filters : list Filter) (data : Data)
| CallUpdateWhereCount (collection : string) (filters : list Filter) (data : Data)
| CallIncrementFieldWhere (collection col : string) (delta : Z) (filters : list Filter)
| CallUpsert (collection : string) (spec : UpsertSpec)
| CallAggregate (collection : string) (spec : AggregateSpec)
| CallEnsureSchemaTable (table : Table)
| CallSchemaTableExists (table : string)
| CallSchemaColumns (table : string)
| CallSchemaDropTable (table : string)
| CallSchemaAddColumn (table : string) (column : Column)
| CallCatalogTables
| CallCatalogColumns (table : string)
| CallCatalogRowCount (table : string).

(** What a call yields when it succeeds. *)
Definition ServiceValue (c : ServiceCall) : Type :=
  match c with
  | CallGet _ _ | CallCreate _ _ | CallUpdate _ _ _ => DbRecord
  | CallList _ _ => RecordList
  | CallBatch _ => list WriteOutcome.t
  | CallInsertGuarded _ _ _ => GuardedInsert.t
  | CallUpdateGuarded _ _ _ _ => GuardedUpdate.t
  | CallCreateMany _ _ | CallCount _ _ | CallExecRaw _ _ | CallDeleteWhereCount _ _
  | CallUpdateWhereCount _ _ _ | CallIncrementFieldWhere _ _ _ _ | CallCatalogRowCount _ => Z
  | CallSum _ _ _ => f64
  | CallQueryRaw _ _ | CallTakeWhere _ _ | CallAggregate _ _ => list DbRecord
  | CallExecRawTransaction _ => list Z
  | CallUpsert _ _ => option DbRecord
  | CallSchemaTableExists _ => bool
  | CallSchemaColumns _ | CallCatalogTables => list string
  | CallCatalogColumns _ => list CatalogColumn
  | CallDelete _ _ | CallDeleteWhere _ _ | CallUpdateWhere _ _ _ | CallEnsureSchemaTable _
  | CallSchemaDropTable _ | CallSchemaAddColumn _ _ => unit
  end.

(** Only a transaction's failure names a statement. *)
Definition ServiceFailure (c : ServiceCall) : Type :=
  match c with CallExecRawTransaction _ => TransactionError | _ => DatabaseError end.

Abbreviation ServiceAnswer c := (result (ServiceValue c) (ServiceFailure c)).

(** ** Answers on the wire *)

Inductive DbResponse :=
| RespRecord (r : DbRecord)
| RespRecordList (l : RecordList)
| RespRecords (rs : list DbRecord)
| RespCreateMany (rows_affected : Z)
| RespBatch (results : list WriteOutcome.t)
| RespInsertGuarded (outcome : GuardedInsert.t)
| RespUpdateGuarded (outcome : GuardedUpdate.t)
| RespCount (count : Z)
| RespSum (sum : f64)
| RespExecRaw (rows_affected : Z)
| RespDdlTransaction (rows_affected : list Z)
| RespDeleteWhereCount (count : Z)
| RespUpdateWhereCount (count : Z)
| RespTakeWhere (records : list DbRecord)
| RespUpsert (rows_affected : Z) (record : option DbRecord)
| RespSchemaOp (table : string)
| RespTableExists (table : string) (exists_ : bool)
| RespCatalogTables (tables : list string)
| RespCatalogColumns (table : string) (columns : list CatalogColumn)
| RespCatalogRowCount (table : string) (count : Z).

(** The codec (MessagePack). *)
Class DatabaseCodec := {
  decode_get : string -> result GetRequest string;
  decode_list : string -> result ListRequest string;
  decode_create : string -> result CreateRequest string;
  decode_create_many : string -> result CreateManyRequest string;
  decode_batch : string -> result BatchRequest string;
  decode_insert_guarded : string -> result InsertGuardedRequest string;
  decode_update_guarded : string -> result UpdateGuardedRequest string;
  decode_update : string -> result UpdateRequest string;
  decode_delete : string -> result DeleteRequest string;
  decode_where : string -> result WhereRequest string;
  decode_sum : string -> result SumRequest string;
  decode_raw : string -> result RawRequest string;
  decode_ddl_transaction : string -> result DdlTransactionRequest string;
  decode_update_where : string -> result UpdateWhereRequest string;
  decode_increment : string -> result IncrementFieldWhereRequest string;
  decode_upsert : string -> result UpsertRequest string;
  decode_aggregate : string -> result AggregateRequest string;
  decode_ensure_table : string -> result TableDef string;
  decode_add_column : string -> result AddColumnRequest string;
  decode_table : string -> result TableRequest string;
  decode_catalog_tables : string -> result unit string;
  encode_response : DbResponse -> result string WaferError
}.
