(* ===== verification/SqlQuery.v ===== *)
(** The SQL builders of [wafer-sql-utils]: identifiers ([ident.rs]), bound
    values ([value.rs]) and the row statements ([query.rs]).

    [sea_query], which the builders call, is third-party: a statement is the
    term its builder assembles, and turning a term into SQL text and bound
    values is the class [SeaQuery]. A [Cond] is an [Expr.t] made of [All] and
    [Any]. *)

From stdpp Require Import pretty.
From S2P Require Import Prelude CoreTypes BlockName Text InitAttempts DatabaseTypes.

Module Backend.
Inductive t := Sqlite | Postgres.

#[global] Instance eq_dec : EqDecision t.
Proof. solve_decision. Defined.
End Backend.

(** [SqlBuildError] and its [Display]. *)
Module SqlBuildError.
Inductive t :=
| InvalidFkAction (action : string) | InvalidIdentifier (value : string) | InvalidDefault (reason : string)
| ZeroLimit | OffsetWithoutLimit (offset : Z) | DuplicateColumn (column : string) | InvalidHaving (alias : string).
End SqlBuildError.

Definition sql_build_error_text `{DebugFormat} (e : SqlBuildError.t) : string :=
  match e with
  | SqlBuildError.InvalidFkAction action =>
      "invalid foreign-key referential action: " +:+ debug_str action
      +:+ " (allowed: CASCADE, SET NULL, SET DEFAULT, NO ACTION, RESTRICT)"
  | SqlBuildError.InvalidIdentifier value =>
      "identifier " +:+ debug_str value
      +:+ " is not a plain identifier (1 to 63 of: lowercase ASCII letters, digits, underscore)"
  | SqlBuildError.InvalidDefault reason => "invalid column default: " +:+ reason
  | SqlBuildError.ZeroLimit => "limit must be at least 1; omit it to return every row"
  | SqlBuildError.OffsetWithoutLimit offset => "offset " +:+ pretty offset +:+ " needs a limit"
  | SqlBuildError.DuplicateColumn column =>
      "column " +:+ debug_str column +:+ " is named for more than one role in the statement"
  | SqlBuildError.InvalidHaving alias =>
      "HAVING filter " +:+ debug_str alias +:+ " does not name one of the query's aggregates"
  end.

(** [validate_ident]. *)
Definition validate_ident (name : string) : result string SqlBuildError.t :=
  if is_plain_ident name then Ok name else Err (SqlBuildError.InvalidIdentifier name).

(** ** Bound values ([value.rs])

    [sea_query::Value]: its integer variants share [Integer], which keeps the
    integer, and the variants the code does not name are [Unnamed]. *)
Module SeaValue.
Inductive t :=
| Bool (b : option bool) | Integer (z : option Z) | BigInt (z : option Z) | Float (f : option f64) | Double (f : option f64)
| String (s : option string) | Json (v : option Value) | Unnamed.
End SeaValue.

(** [serde_json::json!] of an integer and of a float. *)
Definition json_of_Z (z : Z) : Value := VNumber (number_of_i64 z).
Definition json_of_f64 (f : f64) : Value :=
  match number_from_f64 f with Some n => VNumber n | None => VNull end.

(** [sea_value_to_json], [sea_values_to_json]. *)
Definition sea_value_to_json (v : SeaValue.t) : Value :=
  match v with
  | SeaValue.Bool (Some b) => VBool b
  | SeaValue.Integer (Some i) | SeaValue.BigInt (Some i) => json_of_Z i
  | SeaValue.Float (Some f) | SeaValue.Double (Some f) => json_of_f64 f
  | SeaValue.String (Some s) => VString s
  | SeaValue.Json (Some j) => j
  | _ => VNull
  end.

Definition sea_values_to_json (values : list SeaValue.t) : list Value := map sea_value_to_json values.

(** [Number::as_i64]. *)
Definition number_as_i64 (n : Number) : option Z :=
  match n with
  | PosInt n => if (n <? 2 ^ 63)%N then Some (Z.of_N n) else None
  | NegInt z => Some z
  | Float _ => None
  end.

(** [json_to_sea_value]. Every [Number] has an [f64], so its last branch is
    never taken. *)
Definition json_to_sea_value (v : Value) : SeaValue.t :=
  match v with
  | VNull => SeaValue.String None
  | VBool b => SeaValue.Bool (Some b)
  | VNumber n => match number_as_i64 n with
                 | Some i => SeaValue.BigInt (Some i)
                 | None => SeaValue.Double (Some (number_as_f64 n))
                 end
  | VString s => SeaValue.String (Some s)
  | VArray _ | VObject _ => SeaValue.Json (Some v)
  end.

(** ** Statements as terms *)

Module BinOper.
Inductive t := Eq | Ne | Gt | Gte | Lt | Lte | Add | LikeOp | Glob | Escape.
End BinOper.

Module Func.
Inductive t := Lower | Count | Sum | Avg | Max | Min | Coalesce.
End Func.

Module Expr.
Inductive t :=
| Col (column : string)
| TableCol (table column : string)
| Asterisk
| Val (v : SeaValue.t)
| Constant (v : SeaValue.t)
| Cust (sql : string)
| IsNull (e : t)
| IsNotNull (e : t)
| IsIn (e : t) (values : list SeaValue.t)
| Binary (l : t) (op : BinOper.t) (r : t)
| Like (e : t) (pattern : string) (escape : ascii)
| Call (f : Func.t) (args : list t)
| CastAs (e : t) (type : string)
| Case (condition then_ else_ : t)
| All (items : list t)
| Any (items : list t)
| SubQuery (selected : t) (from : string) (wheres : list t).
End Expr.

Record SelectStatement := mkSelect {
  se_selects : list (Expr.t * option string);
  se_from : option string;
  se_wheres : list Expr.t;
  se_groups : list Expr.t;
  se_havings : list Expr.t;
  se_orders : list (string * bool);
  se_limit : option N;
  se_offset : option N
}.

Definition select_new : SelectStatement := mkSelect [] None [] [] [] [] None None.

Definition add_select (q : SelectStatement) (e : Expr.t) (alias : option string) : SelectStatement :=
  mkSelect (se_selects q ++ [(e, alias)]) (se_from q) (se_wheres q) (se_groups q) (se_havings q) (se_orders q)
    (se_limit q) (se_offset q).
Definition set_from (q : SelectStatement) (table : string) : SelectStatement :=
  mkSelect (se_selects q) (Some table) (se_wheres q) (se_groups q) (se_havings q) (se_orders q) (se_limit q) (se_offset q).
Definition cond_where (q : SelectStatement) (c : Expr.t) : SelectStatement :=
  mkSelect (se_selects q) (se_from q) (se_wheres q ++ [c]) (se_groups q) (se_havings q) (se_orders q) (se_limit q)
    (se_offset q).
Definition add_group (q : SelectStatement) (e : Expr.t) : SelectStatement :=
  mkSelect (se_selects q) (se_from q) (se_wheres q) (se_groups q ++ [e]) (se_havings q) (se_orders q) (se_limit q)
    (se_offset q).
Definition cond_having (q : SelectStatement) (c : Expr.t) : SelectStatement :=
  mkSelect (se_selects q) (se_from q) (se_wheres q) (se_groups q) (se_havings q ++ [c]) (se_orders q) (se_limit q)
    (se_offset q).
Definition order_by (q : SelectStatement) (column : string) (desc : bool) : SelectStatement :=
  mkSelect (se_selects q) (se_from q) (se_wheres q) (se_groups q) (se_havings q) (se_orders q ++ [(column, desc)])
    (se_limit q) (se_offset q).
Definition set_limit (q : SelectStatement) (n : N) : SelectStatement :=
  mkSelect (se_selects q) (se_from q) (se_wheres q) (se_groups q) (se_havings q) (se_orders q) (Some n) (se_offset q).
Definition set_offset (q : SelectStatement) (n : N) : SelectStatement :=
  mkSelect (se_selects q) (se_from q) (se_wheres q) (se_groups q) (se_havings q) (se_orders q) (se_limit q) (Some n).

(** What an insert takes its rows from, and what it does on a conflict. *)
Inductive InsertSource := InsertValues (values : list Expr.t) | InsertSelect (q : SelectStatement).
Inductive ConflictAction := DoNothing | DoUpdate (set : list (string * option Expr.t)).
Record OnConflictClause := mkOnConflict { oc_columns : list string; oc_action : ConflictAction }.

Record InsertStatement := mkInsert {
  in_table : string; in_columns : list string; in_source : InsertSource; in_on_conflict : option OnConflictClause;
  in_returning : bool
}.
Record UpdateStatement := mkUpdateStatement {
  up_table : string; up_set : list (string * Expr.t); up_wheres : list Expr.t; up_returning : bool
}.
Record DeleteStatement := mkDeleteStatement { de_table : string; de_wheres : list Expr.t; de_returning : bool }.

(** [render_select], [render_insert], [render_update], [render_delete]: the
    crate's builder for the backend. *)
Class SeaQuery := {
  render_select : SelectStatement -> Backend.t -> string * list SeaValue.t;
  render_insert : InsertStatement -> Backend.t -> string * list SeaValue.t;
  render_update : UpdateStatement -> Backend.t -> string * list SeaValue.t;
  render_delete : DeleteStatement -> Backend.t -> string * list SeaValue.t
}.

(** [Statement]. *)
Record Statement := mkStatement { st_sql : string; st_values : list SeaValue.t; st_collection : string }.

(** [Statement::new] of a rendered term. *)
Definition statement_new (rendered : string * list SeaValue.t) (collection : string) : Statement :=
  mkStatement rendered.1 rendered.2 collection.

(** ** Filters as predicates ([query.rs]) *)

Definition escape_char : ascii := "\".

(** [escape_like], also of [vector.rs]. *)
Definition like_meta (c : ascii) : bool := Ascii.eqb c "\" || Ascii.eqb c "%" || Ascii.eqb c "_".

Fixpoint escape_like (text : string) : string :=
  match text with
  | EmptyString => EmptyString
  | String c text => if like_meta c then String escape_char (String c (escape_like text)) else String c (escape_like text)
  end.

(** [escape_glob]. *)
Definition glob_meta (c : ascii) : bool := Ascii.eqb c "*" || Ascii.eqb c "?" || Ascii.eqb c "[".

Fixpoint escape_glob (text : string) : string :=
  match text with
  | EmptyString => EmptyString
  | String c text =>
      if glob_meta c then String "[" (String c (String "]" (escape_glob text))) else String c (escape_glob text)
  end.

(** The always-false predicate of a malformed operand. *)
Definition never : Expr.t := Expr.Cust "1=0".

Definition nul : ascii := ascii_of_N 0.
Definition has_nul (s : string) : bool := negb (str_forallb (fun c => negb (Ascii.eqb c nul)) s).

Definition compare_val (op : BinOper.t) (col : Expr.t) (v : Value) : Expr.t :=
  Expr.Binary col op (Expr.Val (json_to_sea_value v)).

(** [predicate_on]. *)
Definition predicate_on (col : Expr.t) (filter : Filter) (backend : Backend.t) : Expr.t :=
  match f_operator filter with
  | FilterOp.IsNull => Expr.IsNull col
  | FilterOp.IsNotNull => Expr.IsNotNull col
  | FilterOp.In =>
      match f_value filter with
      | VArray arr => Expr.IsIn col (map json_to_sea_value arr)
      | _ => never
      end
  | FilterOp.Equal => compare_val BinOper.Eq col (f_value filter)
  | FilterOp.NotEqual => compare_val BinOper.Ne col (f_value filter)
  | FilterOp.GreaterThan => compare_val BinOper.Gt col (f_value filter)
  | FilterOp.GreaterEqual => compare_val BinOper.Gte col (f_value filter)
  | FilterOp.LessThan => compare_val BinOper.Lt col (f_value filter)
  | FilterOp.LessEqual => compare_val BinOper.Lte col (f_value filter)
  | FilterOp.ContainsIgnoreCase =>
      match f_value filter with
      | VString text =>
          let pattern := Expr.Call Func.Lower [Expr.Val (SeaValue.String (Some ("%" +:+ escape_like text +:+ "%")))] in
          let escaped := Expr.Binary pattern BinOper.Escape
                           (Expr.Constant (SeaValue.String (Some (String escape_char "")))) in
          Expr.Binary (Expr.Call Func.Lower [col]) BinOper.LikeOp escaped
      | _ => never
      end
  | FilterOp.StartsWith =>
      match f_value filter with
      | VString text =>
          if has_nul text then never
          else match backend with
               | Backend.Sqlite =>
                   Expr.Binary col BinOper.Glob (Expr.Val (SeaValue.String (Some (escape_glob text +:+ "*"))))
               | Backend.Postgres => Expr.Like col (escape_like text +:+ "%") escape_char
               end
      | _ => never
      end
  | FilterOp.Like =>
      match f_value filter with
      | VString pattern => Expr.Like col pattern escape_char
      | _ => never
      end
  end.

(** [leaf_expr]. *)
Definition leaf_expr (filter : Filter) (backend : Backend.t) : Expr.t :=
  predicate_on (Expr.Col (f_field filter)) filter backend.

(** [column_compare_expr]. *)
Definition column_compare_expr (filter : ColumnFilter) : Expr.t :=
  Expr.Binary (Expr.Col (cf_field filter))
    match cf_operator filter with
    | ColumnCompareOp.Equal => BinOper.Eq
    | ColumnCompareOp.NotEqual => BinOper.Ne
    | ColumnCompareOp.GreaterThan => BinOper.Gt
    | ColumnCompareOp.GreaterEqual => BinOper.Gte
    | ColumnCompareOp.LessThan => BinOper.Lt
    | ColumnCompareOp.LessEqual => BinOper.Lte
    end
    (Expr.Col (cf_column filter)).

(** [build_condition]. *)
Definition build_condition (filters : list Filter) (backend : Backend.t) : option Expr.t :=
  match filters with
  | [] => None
  | _ => Some (Expr.All (map (fun f => leaf_expr f backend) filters))
  end.

(** [node_to_cond]. *)
Fixpoint node_to_cond (backend : Backend.t) (node : FilterTree.t) : Expr.t :=
  match node with
  | FilterTree.Leaf f => Expr.All [leaf_expr f backend]
  | FilterTree.ColumnCompare f => Expr.All [column_compare_expr f]
  | FilterTree.All children => Expr.All (map (node_to_cond backend) children)
  | FilterTree.Any children => Expr.Any (map (node_to_cond backend) children)
  end.

(** [build_condition_tree]. *)
Definition build_condition_tree (nodes : list FilterTree.t) (backend : Backend.t) : option Expr.t :=
  match nodes with
  | [] => None
  | _ => Some (Expr.All (map (node_to_cond backend) nodes))
  end.

(** [tree_to_simple_expr]. *)
Definition tree_to_simple_expr (nodes : list FilterTree.t) (backend : Backend.t) : Expr.t :=
  default (Expr.All []) (build_condition_tree nodes backend).

(** ** Ordering and pages *)

(** [apply_order]. *)
Definition apply_order (query : SelectStatement) (sort : list SortField) : SelectStatement :=
  fold_left (fun q s => order_by q (sf_field s) (sf_desc s)) sort query.

(** [orders_rows]. *)
Definition orders_rows (opts : ListOptions) : bool :=
  negb (match lo_sort opts with [] => true | _ => false end) || is_some (lo_limit opts) || (0 <? lo_offset opts)%Z.

(** [apply_order_with_unique_key]. *)
Definition apply_order_with_unique_key (query : SelectStatement) (opts : ListOptions) (unique_key : list string) :
    SelectStatement :=
  if negb (orders_rows opts) then query
  else
    let query := apply_order query (lo_sort opts) in
    let desc := match last (lo_sort opts) with Some s => sf_desc s | None => false end in
    fold_left (fun q col => if existsb (fun s => sf_field s =s col) (lo_sort opts) then q else order_by q col desc)
      unique_key query.

(** [check_pagination]. *)
Definition check_pagination (limit : option N) (offset : Z) : result unit SqlBuildError.t :=
  match limit with
  | Some 0%N => Err SqlBuildError.ZeroLimit
  | None => if (0 <? offset)%Z then Err (SqlBuildError.OffsetWithoutLimit offset) else Ok tt
  | Some _ => Ok tt
  end.

Definition limit_and_offset (query : SelectStatement) (limit : option N) (offset : Z) : SelectStatement :=
  let query := match limit with Some n => set_limit query n | None => query end in
  if (0 <? offset)%Z then set_offset query (Z.to_N offset) else query.

(** [apply_pagination]. *)
Definition apply_pagination (query : SelectStatement) (limit : option N) (offset : Z) :
    result SelectStatement SqlBuildError.t :=
  let? _ := check_pagination limit offset in Ok (limit_and_offset query limit offset).

Definition where_option (query : SelectStatement) (c : option Expr.t) : SelectStatement :=
  match c with Some c => cond_where query c | None => query end.

Definition of_option {A} (o : option A) : list A := match o with Some a => [a] | None => [] end.

(** ** Row statements *)

Section Statements.
  Context `{SeaQuery}.

(** [select_with_projection], up to rendering. *)
Definition projection_query (table : string) (columns : option (list string)) (opts : ListOptions)
    (extra_condition : option Expr.t) (unique_key : list string) (backend : Backend.t) :
    result SelectStatement SqlBuildError.t :=
  let query := match columns with
               | Some cols => fold_left (fun q col => add_select q (Expr.Col col) None) cols select_new
               | None => add_select select_new Expr.Asterisk None
               end in
  let query := set_from query table in
  let query := where_option query (build_condition (lo_filters opts) backend) in
  let query := where_option query extra_condition in
  let query := apply_order_with_unique_key query opts unique_key in
  apply_pagination query (lo_limit opts) (lo_offset opts).

Definition select_with_projection (table : string) (columns : option (list string)) (opts : ListOptions)
    (extra_condition : option Expr.t) (unique_key : list string) (backend : Backend.t) : result Statement SqlBuildError.t :=
  let? query := projection_query table columns opts extra_condition unique_key backend in
  Ok (statement_new (render_select query backend) table).

Definition build_select_with_condition (table : string) (opts : ListOptions) (extra_condition : option Expr.t)
    (unique_key : list string) (backend : Backend.t) : result Statement SqlBuildError.t :=
  select_with_projection table None opts extra_condition unique_key backend.

Definition build_select (table : string) (opts : ListOptions) (unique_key : list string) (backend : Backend.t) :
    result Statement SqlBuildError.t :=
  build_select_with_condition table opts None unique_key backend.

Definition build_select_columns (table : string) (columns : list string) (opts : ListOptions)
    (extra_condition : option Expr.t) (unique_key : list string) (backend : Backend.t) : result Statement SqlBuildError.t :=
  select_with_projection table (Some columns) opts extra_condition unique_key backend.

Definition bound (v : Value) : Expr.t := Expr.Val (json_to_sea_value v).

(** [insert_query]. *)
Definition insert_query (table : string) (data : list (string * Value)) : InsertStatement :=
  mkInsert table (map fst data) (InsertValues (map (fun kv => bound kv.2) data)) None false.

Definition insert_returning_all (q : InsertStatement) : InsertStatement :=
  mkInsert (in_table q) (in_columns q) (in_source q) (in_on_conflict q) true.

Definition build_insert (table : string) (data : list (string * Value)) (backend : Backend.t) : Statement :=
  statement_new (render_insert (insert_query table data) backend) table.

Definition build_insert_returning (table : string) (data : list (string * Value)) (backend : Backend.t) : Statement :=
  statement_new (render_insert (insert_returning_all (insert_query table data)) backend) table.

(** The condition [id = ?] and its literal. *)
Definition id_is (id : string) : Expr.t :=
  Expr.Binary (Expr.Col "id") BinOper.Eq (Expr.Val (SeaValue.String (Some id))).

Definition select_by_id_query (table id : string) : SelectStatement :=
  cond_where (set_from (add_select select_new Expr.Asterisk None) table) (id_is id).

Definition build_select_by_id (table id : string) (backend : Backend.t) : Statement :=
  statement_new (render_select (select_by_id_query table id) backend) table.

Definition set_data (data : list (string * Value)) : list (string * Expr.t) := map (fun kv => (kv.1, bound kv.2)) data.

(** [update_by_id_query]. *)
Definition update_by_id_query (table id : string) (data : list (string * Value)) : UpdateStatement :=
  mkUpdateStatement table (set_data data) [id_is id] false.

Definition build_update_by_id (table id : string) (data : list (string * Value)) (backend : Backend.t) : Statement :=
  statement_new (render_update (update_by_id_query table id data) backend) table.

Definition update_returning_all (q : UpdateStatement) : UpdateStatement :=
  mkUpdateStatement (up_table q) (up_set q) (up_wheres q) true.

Definition build_update_by_id_returning (table id : string) (data : list (string * Value)) (backend : Backend.t) : Statement :=
  statement_new (render_update (update_returning_all (update_by_id_query table id data)) backend) table.

Definition update_where_query (table : string) (data : list (string * Value)) (filters : list Filter) (backend : Backend.t) :
    UpdateStatement :=
  mkUpdateStatement table (set_data data) (of_option (build_condition filters backend)) false.

Definition build_update_where (table : string) (data : list (string * Value)) (filters : list Filter)
    (backend : Backend.t) : Statement :=
  statement_new (render_update (update_where_query table data filters backend) backend) table.

Definition increment_query (table col : string) (delta : Z) (filters : list Filter) (backend : Backend.t) : UpdateStatement :=
  mkUpdateStatement table
    [(col, Expr.Binary (Expr.Col col) BinOper.Add (Expr.Val (SeaValue.BigInt (Some delta))))]
    (of_option (build_condition filters backend)) false.

Definition build_increment_field_where (table col : string) (delta : Z) (filters : list Filter) (backend : Backend.t) :
    Statement :=
  statement_new (render_update (increment_query table col delta filters backend) backend) table.

Definition delete_by_id_query (table id : string) : DeleteStatement := mkDeleteStatement table [id_is id] false.

Definition build_delete_by_id (table id : string) (backend : Backend.t) : Statement :=
  statement_new (render_delete (delete_by_id_query table id) backend) table.

Definition delete_where_query (table : string) (filters : list Filter) (backend : Backend.t) (returning : bool) :
    DeleteStatement :=
  mkDeleteStatement table (of_option (build_condition filters backend)) returning.

Definition build_delete_where (table : string) (filters : list Filter) (backend : Backend.t) : Statement :=
  statement_new (render_delete (delete_where_query table filters backend false) backend) table.

Definition build_delete_where_returning (table : string) (filters : list Filter) (backend : Backend.t) : Statement :=
  statement_new (render_delete (delete_where_query table filters backend true) backend) table.
End Statements.
