(* ===== verification/DatabaseConvert.v ===== *)
(** From wire requests to the service's specifications
    ([wafer-core/src/interfaces/database/handler.rs], its helpers;
    [schema_wire.rs]; [windowed_counter_row] of [exec.rs]): every name is
    checked, filter trees are bounded, and what an operation cannot represent
    is refused. *)

From stdpp Require Import pretty.
From S2P Require Import Prelude CoreTypes Text InitAttempts DatabaseTypes SqlQuery.

Definition MAX_FILTER_DEPTH : nat := 16.
Definition MAX_FILTER_NODES : nat := 256.

Definition invalid (msg : string) : WaferError := error_new ErrorCode.InvalidArgument msg.

(** [iter().try_for_each]. *)
Fixpoint try_for_each {A E} (f : A -> result unit E) (l : list A) : result unit E :=
  match l with
  | [] => Ok tt
  | a :: l => match f a with Ok _ => try_for_each f l | Err e => Err e end
  end.

(** [map(f).collect::<Result<Vec<_>, _>>()]. *)
Fixpoint try_map {A B E} (f : A -> result B E) (l : list A) : result (list B) E :=
  match l with
  | [] => Ok []
  | a :: l => let? b := f a in let? bs := try_map f l in Ok (b :: bs)
  end.

Section Convert.
  Context `{DebugFormat} `{JsonCrate}.

(** [check_name]. *)
Definition check_name (name : string) : result unit WaferError :=
  if is_plain_ident name then Ok tt
  else Err (invalid (debug_str name +:+ " is not a collection or column name (1 to 63 of: lowercase letters, digits "
                     +:+ "and `_`)")).

(** [check_data_names]. *)
Definition check_data_names (data : Data) : result unit WaferError := try_for_each check_name (map fst data).

(** ** Filters *)

(** [convert_leaf]. *)
Definition convert_leaf (f : FilterDef) : result FilterTree.t WaferError :=
  let? operator := match FilterOp.parse_wire (fd_operator f) with
                   | Ok op => Ok op
                   | Err e => Err (invalid (error_display e))
                   end in
  let? _ := check_name (fd_field f) in
  match fd_column f with
  | None => Ok (FilterTree.Leaf (mkFilter (fd_field f) operator (fd_value f)))
  | Some column =>
      match fd_value f with
      | VNull =>
          match ColumnCompareOp.from_filter_op operator with
          | None => Err (invalid ("filter operator " +:+ debug_str (fd_operator f) +:+ " cannot compare two columns"))
          | Some operator =>
              let? _ := check_name column in
              Ok (FilterTree.ColumnCompare (mkColumnFilter (fd_field f) operator column))
          end
      | _ => Err (invalid "a filter compares its field to either `value` or `column`, not both")
      end
  end.

(** A list of nodes, the count threaded through it. *)
Definition convert_nodes (convert : FilterNode.t -> nat -> result (FilterTree.t * nat) WaferError) :
    list FilterNode.t -> nat -> result (list FilterTree.t * nat) WaferError :=
  fix go nodes count :=
    match nodes with
    | [] => Ok ([], count)
    | node :: nodes =>
        let? r := convert node count in
        let? rs := go nodes r.2 in
        Ok (r.1 :: rs.1, rs.2)
    end.

(** [convert_node], with [count] before and after. *)
Fixpoint convert_node (node : FilterNode.t) (depth count : nat) : result (FilterTree.t * nat) WaferError :=
  if (MAX_FILTER_DEPTH <? depth)%nat then Err (invalid "filter tree too deep")
  else
    let count := S count in
    if (MAX_FILTER_NODES <? count)%nat then Err (invalid "filter tree has too many nodes")
    else
      match node with
      | FilterNode.Leaf f => let? t := convert_leaf f in Ok (t, count)
      | FilterNode.All all =>
          match all with
          | [] => Err (invalid "filter group must have at least one child")
          | _ :: _ =>
              let? r := convert_nodes (fun c count => convert_node c (S depth) count) all count in
              Ok (FilterTree.All r.1, r.2)
          end
      | FilterNode.Any any =>
          match any with
          | [] => Err (invalid "filter group must have at least one child")
          | _ :: _ =>
              let? r := convert_nodes (fun c count => convert_node c (S depth) count) any count in
              Ok (FilterTree.Any r.1, r.2)
          end
      end.

(** [convert_filter_tree]. *)
Definition convert_filter_tree (nodes : list FilterNode.t) : result (list FilterTree.t) WaferError :=
  let? r := convert_nodes (fun n count => convert_node n 1 count) nodes 0 in Ok r.1.

(** [flatten_leaves]. *)
Fixpoint flatten_leaves (tree : list FilterTree.t) : result (list Filter) WaferError :=
  match tree with
  | [] => Ok []
  | FilterTree.Leaf f :: tree => let? fs := flatten_leaves tree in Ok (f :: fs)
  | FilterTree.ColumnCompare _ :: _ => Err (invalid "operation does not support column-to-column filters")
  | (FilterTree.All _ | FilterTree.Any _) :: _ => Err (invalid "operation does not support filter groups")
  end.

(** [convert_filter_tree], then [flatten_leaves]. *)
Definition flat_filters (nodes : list FilterNode.t) : result (list Filter) WaferError :=
  let? tree := convert_filter_tree nodes in flatten_leaves tree.

(** ** Upserts and guards *)

Record WindowedCounterRow := mkWindowedCounterRow { wc_id : string; wc_conflict_column : string; wc_conflict_value : string }.

(** The loop of [windowed_counter_row] over [data]. *)
Fixpoint windowed_counter_values (conflict_column : string) (data : list (string * Value))
    (id conflict_value : option string) : result (option string * option string) DatabaseError :=
  match data with
  | [] => Ok (id, conflict_value)
  | (column, value) :: data =>
      let fill (slot : option string) (set : string -> result (option string * option string) DatabaseError) :=
        match slot with
        | Some _ => Err (InvalidArgument ("windowed-counter upsert data names `" +:+ column +:+ "` twice"))
        | None =>
            match value with
            | VString v => set v
            | _ => Err (InvalidArgument ("windowed-counter upsert requires a string `" +:+ column +:+ "` value in data"))
            end
        end in
      if column =s "id" then fill id (fun v => windowed_counter_values conflict_column data (Some v) conflict_value)
      else if column =s conflict_column
      then fill conflict_value (fun v => windowed_counter_values conflict_column data id (Some v))
      else Err (InvalidArgument ("windowed-counter upsert writes only `id` and the conflict column `" +:+ conflict_column
                                 +:+ "` from data; `" +:+ column +:+ "` would not be written"))
  end.

(** [windowed_counter_row]. *)
Definition windowed_counter_row (data : list (string * Value)) (conflict_columns : list string) :
    result WindowedCounterRow DatabaseError :=
  let? conflict_column :=
    match conflict_columns with
    | [only] =>
        if only =s "id"
        then Err (InvalidArgument ("windowed-counter upsert cannot key the counter by `id`: `id` is the "
                                   +:+ "per-call row id, not the counter's key"))
        else Ok only
    | _ => Err (InvalidArgument ("windowed-counter upsert requires exactly one conflict column, got "
                                 +:+ pretty (length conflict_columns)))
    end in
  let? values := windowed_counter_values conflict_column data None None in
  let missing (column : string) :=
    InvalidArgument ("windowed-counter upsert requires a string `" +:+ column +:+ "` value in data") in
  match values with
  | (None, _) => Err (missing "id")
  | (Some _, None) => Err (missing conflict_column)
  | (Some id, Some conflict_value) => Ok (mkWindowedCounterRow id conflict_column conflict_value)
  end.

(** [to_cap_guards]. *)
Definition to_cap_guard (guard : CapGuardDef.t) : result CapGuard.t WaferError :=
  match guard with
  | CapGuardDef.CountBelow filters cap => let? filters := flat_filters filters in Ok (CapGuard.CountBelow filters cap)
  | CapGuardDef.SumAtMost field filters add cap =>
      let? _ := check_name field in
      let? filters := flat_filters filters in
      Ok (CapGuard.SumAtMost field filters add cap)
  end.

Definition to_cap_guards (guards : list CapGuardDef.t) : result (list CapGuard.t) WaferError :=
  if (MAX_WRITE_GUARDS <? length guards)%nat
  then Err (invalid (pretty (length guards) +:+ " guards; at most " +:+ pretty MAX_WRITE_GUARDS +:+ " per call"))
  else try_map to_cap_guard guards.

(** ** Aggregates *)

(** [convert_when]. *)
Definition convert_when (when : list FilterNode.t) (kind : string) : result (list FilterTree.t) WaferError :=
  let? tree := convert_filter_tree when in
  match tree with
  | [] => Err (invalid (kind +:+ " aggregate requires at least one predicate in `when`"))
  | _ :: _ => Ok tree
  end.

(** [parse_cast]; a slice prints as [{:?}] does. *)
Definition parse_cast (cast_as : option string) (allowed : list CastType.t) : result (option CastType.t) WaferError :=
  match cast_as with
  | None => Ok None
  | Some name =>
      match CastType.parse name with
      | Some t =>
          if bool_decide (t ∈ allowed) then Ok (Some t)
          else Err (invalid ("aggregate cast_as " +:+ debug_str name +:+ " is not one of ["
                             +:+ join ", " (map (fun t => debug_str (CastType.as_sql t)) allowed) +:+ "]"))
      | None => Err (invalid ("aggregate cast_as " +:+ debug_str name +:+ " is not one of ["
                              +:+ join ", " (map (fun t => debug_str (CastType.as_sql t)) allowed) +:+ "]"))
      end
  end.

(** [convert_sort]. *)
Definition convert_sort_field (s : SortFieldDef) : result SortField WaferError :=
  let? _ := check_name (sd_field s) in Ok (mkSortField (sd_field s) (sd_desc s)).
Definition convert_sort (defs : list SortFieldDef) : result (list SortField) WaferError := try_map convert_sort_field defs.

(** One aggregate column of [to_aggregate_spec]. *)
Definition to_aggregate_column (agg : AggregateColumnDef.t) : result AggregateColumnSpec.t WaferError :=
  match agg with
  | AggregateColumnDef.Count alias => let? _ := check_name alias in Ok (AggregateColumnSpec.Count alias)
  | AggregateColumnDef.Sum field alias cast_as =>
      let? _ := check_name field in
      let? _ := check_name alias in
      let? cast_as := parse_cast cast_as CastType.ALL in
      Ok (AggregateColumnSpec.Sum field alias cast_as)
  | AggregateColumnDef.Avg field alias cast_as =>
      let? _ := check_name field in
      let? _ := check_name alias in
      let? cast_as := parse_cast cast_as [CastType.Double] in
      Ok (AggregateColumnSpec.Avg field alias cast_as)
  | AggregateColumnDef.Max field alias =>
      let? _ := check_name field in
      let? _ := check_name alias in
      Ok (AggregateColumnSpec.Max field alias)
  | AggregateColumnDef.CaseWhenSum when alias =>
      let? _ := check_name alias in
      let? when := convert_when when "case-when-sum" in
      Ok (AggregateColumnSpec.CaseWhenSum when alias)
  | AggregateColumnDef.SumWhere field when alias cast_as =>
      let? _ := check_name field in
      let? _ := check_name alias in
      let? when := convert_when when "sum-where" in
      let? cast_as := parse_cast cast_as CastType.ALL in
      Ok (AggregateColumnSpec.SumWhere field when alias cast_as)
  | AggregateColumnDef.CountGroups alias => let? _ := check_name alias in Ok (AggregateColumnSpec.CountGroups alias)
  end.

Definition to_group_by (g : GroupByDef.t) : result GroupBySpec.t WaferError :=
  match g with
  | GroupByDef.Column c => let? _ := check_name c in Ok (GroupBySpec.Column c)
  | GroupByDef.DateBucket field => let? _ := check_name field in Ok (GroupBySpec.DateBucket field)
  end.

(** A [having] filter must name an aggregate other than the group count. *)
Definition names_an_aggregate (aggregates : list AggregateColumnSpec.t) (filter : Filter) : bool :=
  existsb (fun a => match a with AggregateColumnSpec.CountGroups _ => false | _ => AggregateColumnSpec.alias a =s f_field filter end)
    aggregates.

Definition check_having (aggregates : list AggregateColumnSpec.t) (filter : Filter) : result unit WaferError :=
  if names_an_aggregate aggregates filter then Ok tt
  else Err (invalid ("having filter " +:+ debug_str (f_field filter) +:+ " does not name one of the request's aggregates")).

(** [u32::try_from(limit).unwrap_or(u32::MAX)] of a positive [limit]. *)
Definition clamp_limit (limit : Z) : option N :=
  if (0 <? limit)%Z then Some (if (limit <? 2 ^ 32)%Z then Z.to_N limit else 4294967295%N) else None.

(** [to_aggregate_spec]. *)
Definition to_aggregate_spec (req : AggregateRequest) : result (string * AggregateSpec) WaferError :=
  let? _ := try_for_each check_name (ar_select_columns req) in
  let? aggregates := try_map to_aggregate_column (ar_aggregates req) in
  let? group_by := try_map to_group_by (ar_group_by req) in
  let? filters := flat_filters (ar_filters req) in
  let? having := flat_filters (ar_having req) in
  let? _ := try_for_each (check_having aggregates) having in
  let? _ := match check_pagination (clamp_limit (ar_limit req)) (ar_offset req) with
            | Ok _ => Ok tt
            | Err e => Err (invalid (sql_build_error_text e))
            end in
  let? sort := convert_sort (ar_sort req) in
  Ok (ar_collection req,
      mkAggregateSpec (ar_select_columns req) aggregates filters group_by sort (ar_limit req) having (ar_offset req)).

(** ** Schemas ([schema_wire.rs]) *)

(** [data_type_from_kind]. *)
Definition data_type_from_kind (kind : string) : result DataType.t WaferError :=
  if kind =s "string" then Ok DataType.String
  else if kind =s "text" then Ok DataType.Text
  else if kind =s "int" then Ok DataType.Int
  else if kind =s "int64" then Ok DataType.Int64
  else if kind =s "float" then Ok DataType.Float
  else if kind =s "bool" then Ok DataType.Bool
  else if kind =s "datetime" then Ok DataType.DateTime
  else if kind =s "json" then Ok DataType.Json
  else if kind =s "blob" then Ok DataType.Blob
  else Err (invalid ("unknown column kind `" +:+ kind +:+ "`")).

(** [default_from_def]. *)
Definition default_from_def (def : DefaultDef) : result DefaultValue WaferError :=
  if dd_kind def =s "null" then Ok DefaultNull
  else if dd_kind def =s "now" then Ok DefaultNow
  else if dd_kind def =s "value" then
    let? value :=
      match dd_value def with
      | VString s => Ok (DefaultString s)
      | VBool b => Ok (DefaultBool b)
      | VNumber (PosInt n) =>
          if (n <? 2 ^ 63)%N then Ok (DefaultInt (Z.of_N n)) else Ok (DefaultFloat (number_as_f64 (PosInt n)))
      | VNumber (NegInt z) => Ok (DefaultInt z)
      | VNumber (Float f) => Ok (DefaultFloat f)
      | other => Err (invalid ("unsupported default value " +:+ display_json other))
      end in
    Ok (DefaultLiteral value)
  else Err (invalid ("unknown default kind `" +:+ dd_kind def +:+ "`")).

(** [column_from_def]. *)
Definition column_from_def (def : ColumnDef) : result Column WaferError :=
  let? _ := check_name (cd_name def) in
  let? data_type := data_type_from_kind (cd_kind def) in
  let? default := match cd_default def with
                  | None => Ok None
                  | Some d => let? v := default_from_def d in Ok (Some v)
                  end in
  Ok (mkColumn (cd_name def) data_type (cd_nullable def) (cd_primary_key def) (cd_auto_increment def)
        (cd_unique def) default None).

(** [table_from_def]. *)
Definition table_from_def (def : TableDef) : result Table WaferError :=
  let? _ := check_name (td_name def) in
  match td_columns def with
  | [] => Err (invalid ("table `" +:+ td_name def +:+ "` declares no columns"))
  | _ :: _ =>
      let? columns := try_map column_from_def (td_columns def) in
      let? _ := try_for_each (fun i => if is_empty (id_name i) then Ok tt else check_name (id_name i)) (td_indexes def) in
      let? _ := try_for_each check_name
                  (flat_map id_columns (td_indexes def) ++ td_primary_key def ++ concat (td_unique_keys def)) in
      Ok (mkTable (td_name def) columns (map (fun i => mkIndex (id_name i) (id_columns i) (id_unique i)) (td_indexes def))
            (td_primary_key def) (td_unique_keys def))
  end.
End Convert.
