(* ===== verification/DatabaseHandler.v ===== *)
(** The database handler ([wafer-core/src/interfaces/database/handler.rs],
    [handle_message]): what each operation authorizes, the calls it makes to
    the service, what it notes in the init attempt it runs under and what it
    answers.

    An operation is a tree of its service calls and notes ([DbProg]), so what
    a proof says holds whatever the service answers; [run_db] runs it against
    a service with state. Logging is not modelled. *)

From stdpp Require Import pretty.
From S2P Require Import Prelude CoreTypes Grants Wrap Dispatch Text Streams Handlers InitAttempts DatabaseTypes DatabaseConvert.

(** ** Programs *)

Inductive DbProg (A : Type) :=
| Done (a : A)
| Ask (c : ServiceCall) (k : ServiceAnswer c -> DbProg A)
| NoteAnswer (answer : DatabaseAnswer) (p : DbProg A).
Arguments Done {A} a.
Arguments Ask {A} c k.
Arguments NoteAnswer {A} answer p.

Fixpoint db_bind {A B} (p : DbProg A) (k : A -> DbProg B) : DbProg B :=
  match p with
  | Done a => k a
  | Ask c k' => Ask c (fun r => db_bind (k' r) k)
  | NoteAnswer answer p => NoteAnswer answer (db_bind p k)
  end.

Notation "'do!' x := p 'in' k" := (db_bind p (fun x => k))
  (at level 200, x pattern, p at level 100, k at level 200) : wafer_scope.

(** Steps of an operation that may answer early: [?] on a [WaferError], and
    [return OutputStream::error(e)]. *)
Definition or_answer {A E} (r : result A E) (refuse : E -> OutputStream) (k : A -> DbProg OutputStream) :
    DbProg OutputStream :=
  match r with Ok a => k a | Err e => Done (refuse e) end.

Notation "'let??' x := r 'in' k" := (or_answer r output_error (fun x => k))
  (at level 200, x pattern, r at level 100, k at level 200) : wafer_scope.
Notation "'let!!' x := r 'in' k" := (or_answer r id (fun x => k))
  (at level 200, x pattern, r at level 100, k at level 200) : wafer_scope.

(** A service with its state, and the store of attempt records. *)
Definition DatabaseService (S : Type) : Type := forall c : ServiceCall, S -> S * ServiceAnswer c.

Fixpoint run_db {S A} (service : DatabaseService S) (record : option InitAttemptRecord) (p : DbProg A) (s : S)
    (h : Store) : S * Store * A :=
  match p with
  | Done a => (s, h, a)
  | Ask c k => let '(s, a) := service c s in run_db service record (k a) s h
  | NoteAnswer answer p =>
      run_db service record p s (match record with Some r => note h r answer | None => h end)
  end.

Section Handler.
  Context `{DatabaseCodec} `{DebugFormat} `{JsonCrate}.

(** ** Failures *)

Definition PRESERVED_DB_ERROR_SUBSTRINGS : list string := ["duplicate column name"; "already exists"].

(** [is_preserved_db_error]. *)
Definition is_preserved_db_error (msg : string) : bool :=
  existsb (fun needle => contains needle (to_ascii_lowercase msg)) PRESERVED_DB_ERROR_SUBSTRINGS.

(** [scrubbed]. *)
Definition scrubbed (answer : DatabaseAnswer) : string :=
  match answer with
  | InitAttempts.Unavailable | InitAttempts.CallBudgetExhausted => "database temporarily unavailable"
  | InitAttempts.Contended => "database busy, retry"
  end.

(** [observed]. *)
Definition observed (e : DatabaseError) : DbProg DatabaseError :=
  match attempt_answer e with Some answer => NoteAnswer answer (Done e) | None => Done e end.

(** The message [db_error_to_wafer] answers with. *)
Definition scrubbed_message (e : DatabaseError) : string :=
  match e with
  | NotFound => "record not found"
  | AlreadyExists _ => "a record with this key already exists"
  | InvalidArgument msg | CallBudgetExhausted msg => msg
  | Unavailable _ => scrubbed InitAttempts.Unavailable
  | Contended _ => scrubbed InitAttempts.Contended
  | Internal msg | Other msg => if is_preserved_db_error msg then msg else "internal database error"
  end.

(** [db_error_to_wafer]. *)
Definition db_error_to_wafer (e : DatabaseError) : DbProg WaferError :=
  do! e := observed e in
  Done (with_optional_detail_code (error_new (database_error_code e) (scrubbed_message e)) (database_detail_code e)).

Definition META_FAILED_STATEMENT_INDEX : string := "database.failed_statement_index".

(** The message [transaction_error_to_wafer] answers with. *)
Definition transaction_message (e : DatabaseError) : string :=
  match e with
  | NotFound => "record not found"
  | AlreadyExists msg | InvalidArgument msg | CallBudgetExhausted msg | Internal msg | Other msg => msg
  | Unavailable _ => scrubbed InitAttempts.Unavailable
  | Contended _ => scrubbed InitAttempts.Contended
  end.

(** [transaction_error_to_wafer]. *)
Definition transaction_error_to_wafer (failed : TransactionError) : DbProg WaferError :=
  do! error := observed (te_error failed) in
  let err := with_optional_detail_code (error_new (database_error_code error) (transaction_message error))
               (database_detail_code error) in
  Done (match te_statement failed with
        | Some index =>
            mkError (we_code err) (we_message err) (meta_set (we_meta err) META_FAILED_STATEMENT_INDEX (pretty index))
        | None => err
        end).

(** A failed call as an error: a transaction's names its statement. *)
Definition failure (c : ServiceCall) : ServiceFailure c -> DbProg WaferError :=
  match c with CallExecRawTransaction _ => transaction_error_to_wafer | _ => db_error_to_wafer end.

(** The end of most operations: one call, answered. *)
Definition answer (c : ServiceCall) (ok : ServiceValue c -> OutputStream) : DbProg OutputStream :=
  Ask c (fun r => match r with
                  | Ok v => Done (ok v)
                  | Err e => do! err := failure c e in Done (output_error err)
                  end).

Definition reply (r : DbResponse) : OutputStream := to_output (encode_response r).

(** ** Upserts and batches *)

(** [to_upsert_spec]. *)
Definition to_upsert_spec (req : UpsertRequest) : DbProg (result (string * UpsertSpec) WaferError) :=
  let finish (on_conflict : UpsertConflict.t) :=
    Done (Ok (up_collection req, mkUpsertSpec (up_data req) (up_conflict_columns req) on_conflict)) in
  let checked :=
    let? _ := try_for_each check_name (map fst (up_data req)) in
    let? _ := try_for_each check_name (up_conflict_columns req) in
    match up_on_conflict req with
    | OnConflict.SetColumns cols => try_for_each check_name cols
    | OnConflict.WindowedCounter count_field window_field _ _ created_fields updated_fields =>
        let? _ := check_name count_field in
        let? _ := check_name window_field in
        try_for_each check_name (created_fields ++ updated_fields)
    end in
  match checked, up_on_conflict req with
  | Err e, _ => Done (Err e)
  | Ok _, OnConflict.SetColumns cols => finish (UpsertConflict.SetColumns cols)
  | Ok _, OnConflict.WindowedCounter count_field window_field now window_cutoff created_fields updated_fields =>
      match windowed_counter_row (up_data req) (up_conflict_columns req) with
      | Err e => do! err := db_error_to_wafer e in Done (Err err)
      | Ok _ =>
          finish (UpsertConflict.WindowedCounter count_field window_field now window_cutoff created_fields updated_fields)
      end
  end.

(** [to_write_op]. *)
Definition to_write_op (write : BatchWrite.t) : DbProg (result WriteOp.t WaferError) :=
  match write with
  | BatchWrite.Create collection data =>
      Done (let? _ := check_data_names data in Ok (WriteOp.Create collection data))
  | BatchWrite.Update collection id data =>
      Done (let? _ := check_data_names data in Ok (WriteOp.Update collection id data))
  | BatchWrite.Delete collection id => Done (Ok (WriteOp.Delete collection id))
  | BatchWrite.UpdateWhere collection filters data =>
      Done (let? _ := check_data_names data in
            let? filters := flat_filters filters in
            Ok (WriteOp.UpdateWhere collection filters data))
  | BatchWrite.DeleteWhere collection filters =>
      Done (let? filters := flat_filters filters in Ok (WriteOp.DeleteWhere collection filters))
  | BatchWrite.Upsert req =>
      do! r := to_upsert_spec req in
      Done (let? cs := r in Ok (WriteOp.Upsert cs.1 cs.2))
  end.

(** [map(to_write_op).collect()]. *)
Fixpoint to_write_ops (writes : list BatchWrite.t) : DbProg (result (list WriteOp.t) WaferError) :=
  match writes with
  | [] => Done (Ok [])
  | w :: writes =>
      do! r := to_write_op w in
      match r with
      | Err e => Done (Err e)
      | Ok op => do! rs := to_write_ops writes in Done (let? ops := rs in Ok (op :: ops))
      end
  end.

(** ** Authorization *)

(** [op_checks]. *)
Definition op_checks (op resource : string) : result (list Resource) WaferError :=
  let? _ := check_name resource in
  match database_op_access op with
  | Some (DatabaseOpAccess.On accesses) => Ok (map (fun access => (resource, ResourceType.Db, access)) accesses)
  | Some DatabaseOpAccess.PerWrite | None =>
      Err (error_new ErrorCode.Internal
             ("BUG: DATABASE_OP_ACCESS names no single-resource access for `" +:+ op +:+ "`"))
  end.

(** [decode_and_authorize_op]. *)
Definition decode_and_authorize_op {T} (ctx : CallContext) (decode : string -> result T string) (body op : string)
    (resource : T -> string) : result T OutputStream :=
  decode_and_authorize_all ctx decode body op (fun req => op_checks op (resource req)).

(** ** Append-only inserts *)

Definition SERVER_OWNED_COLUMNS : list string := ["id"; "created_at"; "updated_at"].

(** [inserts_append_only]. *)
Definition inserts_append_only (ctx : CallContext) (collection : string) : bool :=
  negb (resource_access_admitted ctx collection ResourceType.Db ResourceAccess.Write).

(** One key of the rows of [check_append_only_rows]. *)
Fixpoint append_only_names (collection : string) (keys named : list string) : result (list string) WaferError :=
  match keys with
  | [] => Ok named
  | key :: keys =>
      let? _ := check_name key in
      if bool_decide (key ∈ SERVER_OWNED_COLUMNS)
      then Err (error_new ErrorCode.PermissionDenied
             ("an append-only insert into `" +:+ collection +:+ "` cannot set `" +:+ key
              +:+ "`; the server assigns it"))
      else append_only_names collection keys (push_unique named key)
  end.

(** [check_append_only_rows]. *)
Definition check_append_only_rows (collection : string) (rows : list Data) : DbProg (result unit WaferError) :=
  match append_only_names collection (flat_map (map fst) rows) [] with
  | Err e => Done (Err e)
  | Ok named =>
      Ask (CallSchemaColumns collection) (fun answer =>
        match answer with
        | Err e => do! err := db_error_to_wafer e in Done (Err err)
        | Ok existing =>
            Done (match List.find (fun c => negb (bool_decide (c ∈ existing))) (SERVER_OWNED_COLUMNS ++ named) with
                  | Some column =>
                      Err (error_new ErrorCode.PermissionDenied
                             ("`" +:+ collection +:+ "` has no column `" +:+ column
                              +:+ "`, and an append-only insert cannot add one"))
                  | None => Ok tt
                  end)
        end)
  end.

(** The append-only rules, for a caller that may only append. *)
Definition append_only_rules (ctx : CallContext) (collection : string) (rows : list Data) :
    DbProg (result unit WaferError) :=
  if inserts_append_only ctx collection then check_append_only_rows collection rows else Done (Ok tt).

(** ** The operations ([handle_op]) *)

Definition op_get (ctx : CallContext) (body : string) : DbProg OutputStream :=
  let!! req := decode_and_authorize_op ctx decode_get body "database.get" get_collection in
  answer (CallGet (get_collection req) (get_id req)) (fun record => reply (RespRecord record)).

Definition check_columns (columns : option (list string)) : result unit WaferError :=
  match columns with
  | Some [] => Err (invalid "columns must be non-empty when specified")
  | Some cs => try_for_each check_name cs
  | None => Ok tt
  end.

Definition op_list (ctx : CallContext) (body : string) : DbProg OutputStream :=
  let!! req := decode_and_authorize_op ctx decode_list body "database.list" list_collection in
  let?? tree := convert_filter_tree (list_filters req) in
  let?? sort := convert_sort (list_sort req) in
  let?? _ := check_columns (list_columns req) in
  let opts := mkListOptions [] sort (list_limit req) (list_offset req) (list_skip_count req) (Some tree)
                (list_columns req) in
  answer (CallList (list_collection req) opts) (fun l => reply (RespRecordList l)).

Definition op_create (ctx : CallContext) (body : string) : DbProg OutputStream :=
  let!! req := decode_and_authorize_op ctx decode_create body "database.create" create_collection in
  let?? _ := check_data_names (create_data req) in
  do! rules := append_only_rules ctx (create_collection req) [create_data req] in
  let?? _ := rules in
  answer (CallCreate (create_collection req) (create_data req)) (fun record => reply (RespRecord record)).

Definition op_create_many (ctx : CallContext) (body : string) : DbProg OutputStream :=
  let!! req := decode_and_authorize_op ctx decode_create_many body "database.create_many" cm_collection in
  let?? _ := try_for_each check_data_names (cm_rows req) in
  do! rules := append_only_rules ctx (cm_collection req) (cm_rows req) in
  let?? _ := rules in
  answer (CallCreateMany (cm_collection req) (cm_rows req)) (fun n => reply (RespCreateMany n)).

(** The checks of a batch: one per write, without repeats. *)
Fixpoint batch_checks (ops : list BatchWrite.t) (checks : list Resource) : result (list Resource) WaferError :=
  match ops with
  | [] => Ok checks
  | op :: ops =>
      let? _ := check_name (BatchWrite.collection op) in
      let check := (BatchWrite.collection op, ResourceType.Db, BatchWrite.access op) in
      batch_checks ops (if bool_decide (check ∈ checks) then checks else checks ++ [check])
  end.

Definition batch_resources (req : BatchRequest) : result (list Resource) WaferError :=
  match database_op_access "database.batch" with
  | Some DatabaseOpAccess.PerWrite => batch_checks (br_ops req) []
  | _ => Err (error_new ErrorCode.Internal "BUG: DATABASE_OP_ACCESS does not classify database.batch per write")
  end.

(** The collections a batch creates rows in that the caller may only append
    to, in order of first use. *)
Fixpoint append_only_collections (ctx : CallContext) (ops : list BatchWrite.t) (seen : list string) : list string :=
  match ops with
  | [] => seen
  | BatchWrite.Create collection _ :: ops =>
      append_only_collections ctx ops
        (if negb (bool_decide (collection ∈ seen)) && inserts_append_only ctx collection
         then seen ++ [collection] else seen)
  | _ :: ops => append_only_collections ctx ops seen
  end.

Definition created_rows (collection : string) (ops : list BatchWrite.t) : list Data :=
  flat_map (fun op => match op with
                      | BatchWrite.Create c data => if c =s collection then [data] else []
                      | _ => []
                      end) ops.

Fixpoint check_append_only_collections (collections : list string) (ops : list BatchWrite.t) :
    DbProg (result unit WaferError) :=
  match collections with
  | [] => Done (Ok tt)
  | collection :: collections =>
      do! r := check_append_only_rows collection (created_rows collection ops) in
      match r with
      | Err e => Done (Err e)
      | Ok _ => check_append_only_collections collections ops
      end
  end.

Definition op_batch (ctx : CallContext) (body : string) : DbProg OutputStream :=
  let!! req := decode_and_authorize_all ctx decode_batch body "database.batch" batch_resources in
  do! rules := check_append_only_collections (append_only_collections ctx (br_ops req) []) (br_ops req) in
  let?? _ := rules in
  do! ops := to_write_ops (br_ops req) in
  let?? ops := ops in
  answer (CallBatch ops) (fun outcomes => reply (RespBatch outcomes)).

Definition op_insert_guarded (ctx : CallContext) (body : string) : DbProg OutputStream :=
  let!! req := decode_and_authorize_op ctx decode_insert_guarded body "database.insert_guarded" ig_collection in
  let?? guards := to_cap_guards (ig_guards req) in
  let?? _ := check_data_names (ig_data req) in
  do! rules := append_only_rules ctx (ig_collection req) [ig_data req] in
  let?? _ := rules in
  answer (CallInsertGuarded (ig_collection req) (ig_data req) guards) (fun outcome => reply (RespInsertGuarded outcome)).

Definition op_update_guarded (ctx : CallContext) (body : string) : DbProg OutputStream :=
  let!! req := decode_and_authorize_op ctx decode_update_guarded body "database.update_guarded" ug_collection in
  let?? filters := flat_filters (ug_filters req) in
  let?? guards := to_cap_guards (ug_guards req) in
  let?? _ := check_data_names (ug_data req) in
  answer (CallUpdateGuarded (ug_collection req) filters (ug_data req) guards)
    (fun outcome => reply (RespUpdateGuarded outcome)).

Definition op_update (ctx : CallContext) (body : string) : DbProg OutputStream :=
  let!! req := decode_and_authorize_op ctx decode_update body "database.update" update_collection in
  let?? _ := check_data_names (update_data req) in
  answer (CallUpdate (update_collection req) (update_id req) (update_data req)) (fun record => reply (RespRecord record)).

Definition op_delete (ctx : CallContext) (body : string) : DbProg OutputStream :=
  let!! req := decode_and_authorize_op ctx decode_delete body "database.delete" delete_collection in
  answer (CallDelete (delete_collection req) (delete_id req)) (fun _ => respond "").

Definition op_count (ctx : CallContext) (body : string) : DbProg OutputStream :=
  let!! req := decode_and_authorize_op ctx decode_where body "database.count" wh_collection in
  let?? filters := flat_filters (wh_filters req) in
  answer (CallCount (wh_collection req) filters) (fun n => reply (RespCount n)).

Definition op_query_raw (ctx : CallContext) (body : string) : DbProg OutputStream :=
  let!! req := decode_and_authorize_op ctx decode_raw body "database.query_raw" (fun _ => RAW_SQL_RESOURCE) in
  answer (CallQueryRaw (raw_query req) (raw_args req)) (fun records => reply (RespRecords records)).

Definition op_sum (ctx : CallContext) (body : string) : DbProg OutputStream :=
  let!! req := decode_and_authorize_op ctx decode_sum body "database.sum" sum_collection in
  let?? filters := flat_filters (sum_filters req) in
  let?? _ := check_name (sum_field req) in
  answer (CallSum (sum_collection req) (sum_field req) filters) (fun sum => reply (RespSum sum)).

Definition op_exec_raw (ctx : CallContext) (body : string) : DbProg OutputStream :=
  let!! req := decode_and_authorize_op ctx decode_raw body "database.exec_raw" (fun _ => RAW_SQL_RESOURCE) in
  answer (CallExecRaw (raw_query req) (raw_args req)) (fun n => reply (RespExecRaw n)).

Definition op_ddl (ctx : CallContext) (body : string) : DbProg OutputStream :=
  let!! req := decode_and_authorize_op ctx decode_raw body "database.ddl" (fun _ => DDL_RESOURCE) in
  answer (CallExecRaw (raw_query req) (raw_args req)) (fun n => reply (RespExecRaw n)).

Definition op_ddl_transaction (ctx : CallContext) (body : string) : DbProg OutputStream :=
  let!! req := decode_and_authorize_op ctx decode_ddl_transaction body "database.ddl_transaction" (fun _ => DDL_RESOURCE) in
  answer (CallExecRawTransaction (dt_statements req)) (fun ns => reply (RespDdlTransaction ns)).

Definition op_delete_where (ctx : CallContext) (body : string) : DbProg OutputStream :=
  let!! req := decode_and_authorize_op ctx decode_where body "database.delete_where" wh_collection in
  let?? filters := flat_filters (wh_filters req) in
  answer (CallDeleteWhere (wh_collection req) filters) (fun _ => respond "").

Definition op_delete_where_count (ctx : CallContext) (body : string) : DbProg OutputStream :=
  let!! req := decode_and_authorize_op ctx decode_where body "database.delete_where_count" wh_collection in
  let?? filters := flat_filters (wh_filters req) in
  answer (CallDeleteWhereCount (wh_collection req) filters) (fun n => reply (RespDeleteWhereCount n)).

Definition op_take_where (ctx : CallContext) (body : string) : DbProg OutputStream :=
  let!! req := decode_and_authorize_op ctx decode_where body "database.take_where" wh_collection in
  let?? filters := flat_filters (wh_filters req) in
  answer (CallTakeWhere (wh_collection req) filters) (fun records => reply (RespTakeWhere records)).

Definition op_update_where (ctx : CallContext) (body : string) : DbProg OutputStream :=
  let!! req := decode_and_authorize_op ctx decode_update_where body "database.update_where" uw_collection in
  let?? filters := flat_filters (uw_filters req) in
  let?? _ := check_data_names (uw_data req) in
  answer (CallUpdateWhere (uw_collection req) filters (uw_data req)) (fun _ => respond "").

Definition op_update_where_count (ctx : CallContext) (body : string) : DbProg OutputStream :=
  let!! req := decode_and_authorize_op ctx decode_update_where body "database.update_where_count" uw_collection in
  let?? filters := flat_filters (uw_filters req) in
  let?? _ := check_data_names (uw_data req) in
  answer (CallUpdateWhereCount (uw_collection req) filters (uw_data req)) (fun n => reply (RespUpdateWhereCount n)).

Definition op_increment_field_where (ctx : CallContext) (body : string) : DbProg OutputStream :=
  let!! req := decode_and_authorize_op ctx decode_increment body "database.increment_field_where" if_collection in
  let?? filters := flat_filters (if_filters req) in
  let?? _ := check_name (if_col req) in
  answer (CallIncrementFieldWhere (if_collection req) (if_col req) (if_delta req) filters)
    (fun rows => reply (RespExecRaw rows)).

Definition op_upsert (ctx : CallContext) (body : string) : DbProg OutputStream :=
  let!! req := decode_and_authorize_op ctx decode_upsert body "database.upsert" up_collection in
  do! r := to_upsert_spec req in
  let?? cs := r in
  answer (CallUpsert cs.1 cs.2) (fun record => reply (RespUpsert (if is_some record then 1 else 0) record)).

Definition op_aggregate (ctx : CallContext) (body : string) : DbProg OutputStream :=
  let!! req := decode_and_authorize_op ctx decode_aggregate body "database.aggregate" ar_collection in
  match ar_aggregates req with
  | [] => Done (output_error (invalid "aggregate requires at least one aggregate column"))
  | _ :: _ =>
      let?? cs := to_aggregate_spec req in
      answer (CallAggregate cs.1 cs.2) (fun records => reply (RespRecords records))
  end.

(** The second check of the operations that change a schema. *)
Definition schema_access (ctx : CallContext) : result unit WaferError :=
  check_resource_access ctx SCHEMA_RESOURCE ResourceType.Db ResourceAccess.Write.

Definition op_ensure_table (ctx : CallContext) (body : string) : DbProg OutputStream :=
  let!! table_def := decode_and_authorize_op ctx decode_ensure_table body "database.ensure_table" td_name in
  let?? _ := schema_access ctx in
  let?? table := table_from_def table_def in
  answer (CallEnsureSchemaTable table) (fun _ => reply (RespSchemaOp (td_name table_def))).

Definition op_add_column (ctx : CallContext) (body : string) : DbProg OutputStream :=
  let!! req := decode_and_authorize_op ctx decode_add_column body "database.add_column" ac_table in
  let?? _ := schema_access ctx in
  let?? column := column_from_def (ac_column req) in
  answer (CallSchemaAddColumn (ac_table req) column) (fun _ => reply (RespSchemaOp (ac_table req))).

Definition op_drop_table (ctx : CallContext) (body : string) : DbProg OutputStream :=
  let!! req := decode_and_authorize_op ctx decode_table body "database.drop_table" tr_table in
  let?? _ := schema_access ctx in
  answer (CallSchemaDropTable (tr_table req)) (fun _ => reply (RespSchemaOp (tr_table req))).

Definition op_table_exists (ctx : CallContext) (body : string) : DbProg OutputStream :=
  let!! req := decode_and_authorize_op ctx decode_table body "database.table_exists" tr_table in
  answer (CallSchemaTableExists (tr_table req)) (fun b => reply (RespTableExists (tr_table req) b)).

Definition op_catalog_tables (ctx : CallContext) (body : string) : DbProg OutputStream :=
  let!! _ := decode_and_authorize_op ctx decode_catalog_tables body "database.catalog_tables" (fun _ => RAW_SQL_RESOURCE) in
  answer CallCatalogTables (fun tables => reply (RespCatalogTables tables)).

Definition op_catalog_columns (ctx : CallContext) (body : string) : DbProg OutputStream :=
  let!! req := decode_and_authorize_op ctx decode_table body "database.catalog_columns" (fun _ => RAW_SQL_RESOURCE) in
  answer (CallCatalogColumns (tr_table req)) (fun columns => reply (RespCatalogColumns (tr_table req) columns)).

Definition op_catalog_row_count (ctx : CallContext) (body : string) : DbProg OutputStream :=
  let!! req := decode_and_authorize_op ctx decode_table body "database.catalog_row_count" (fun _ => RAW_SQL_RESOURCE) in
  answer (CallCatalogRowCount (tr_table req)) (fun n => reply (RespCatalogRowCount (tr_table req) n)).

(** [handle_op]'s dispatch. *)
Definition DB_OPS : list (string * (CallContext -> string -> DbProg OutputStream)) :=
  [("database.get", op_get); ("database.list", op_list); ("database.create", op_create);
   ("database.create_many", op_create_many); ("database.batch", op_batch);
   ("database.insert_guarded", op_insert_guarded); ("database.update_guarded", op_update_guarded);
   ("database.update", op_update); ("database.delete", op_delete); ("database.count", op_count);
   ("database.query_raw", op_query_raw); ("database.sum", op_sum); ("database.exec_raw", op_exec_raw);
   ("database.ddl", op_ddl); ("database.ddl_transaction", op_ddl_transaction);
   ("database.delete_where", op_delete_where); ("database.delete_where_count", op_delete_where_count);
   ("database.take_where", op_take_where); ("database.update_where", op_update_where);
   ("database.update_where_count", op_update_where_count);
   ("database.increment_field_where", op_increment_field_where); ("database.upsert", op_upsert);
   ("database.aggregate", op_aggregate); ("database.ensure_table", op_ensure_table);
   ("database.add_column", op_add_column); ("database.drop_table", op_drop_table);
   ("database.table_exists", op_table_exists); ("database.catalog_tables", op_catalog_tables);
   ("database.catalog_columns", op_catalog_columns); ("database.catalog_row_count", op_catalog_row_count)].

Definition handle_op (ctx : CallContext) (msg : Message) (body : string) : DbProg OutputStream :=
  match assoc (msg_kind msg) DB_OPS with
  | Some op => op ctx body
  | None => Done (output_error (error_new ErrorCode.Unimplemented ("unknown database operation: " +:+ msg_kind msg)))
  end.

(** [handle_message]: one call of the attempt it runs under, in flight until
    it is answered. *)
Definition handle_message {S} (service : DatabaseService S) (record : option InitAttemptRecord) (ctx : CallContext)
    (msg : Message) (body : string) (s : S) (h : Store) : S * Store * OutputStream :=
  match record with
  | None => run_db service None (handle_op ctx msg body) s h
  | Some r =>
      let '(h, c) := call h r in
      let '(s, h, out) := run_db service (Some r) (handle_op ctx msg body) s h in
      (s, drop_call h c, out)
  end.
End Handler.
