(* ===== verification/DatabaseFacts.v ===== *)
(** Facts about the conversions of the database handler: a filter forest is
    accepted exactly within its bounds, and every name in what a conversion
    yields is a plain identifier. *)

From stdpp Require Import pretty.
From S2P Require Import Prelude CoreTypes Text InitAttempts DatabaseTypes DatabaseConvert.

(** ** Filter forests *)

(** Induction on filter nodes, through groups. *)
Fixpoint node_ind' (P : FilterNode.t -> Prop) (Hl : forall f, P (FilterNode.Leaf f))
    (Ha : forall l, Forall P l -> P (FilterNode.All l)) (Hy : forall l, Forall P l -> P (FilterNode.Any l))
    (n : FilterNode.t) {struct n} : P n.
Proof.
  destruct n as [f|l|l]; [apply Hl | apply Ha | apply Hy];
    (induction l as [|n l IH]; constructor; [by apply node_ind' | done]).
Defined.

Fixpoint node_size (n : FilterNode.t) : nat :=
  match n with
  | FilterNode.Leaf _ => 1
  | FilterNode.All l | FilterNode.Any l => S (sum_list_with node_size l)
  end.

Fixpoint node_depth (n : FilterNode.t) : nat :=
  match n with
  | FilterNode.Leaf _ => 1
  | FilterNode.All l | FilterNode.Any l => S (max_list (map node_depth l))
  end.

Definition forest_size (nodes : list FilterNode.t) : nat := sum_list_with node_size nodes.
Definition forest_depth (nodes : list FilterNode.t) : nat := max_list (map node_depth nodes).

Section Facts.
  Context `{DebugFormat} `{JsonCrate}.

(** What a node means, without bounds. *)
Fixpoint reference_node (n : FilterNode.t) : result FilterTree.t WaferError :=
  match n with
  | FilterNode.Leaf f => convert_leaf f
  | FilterNode.All [] | FilterNode.Any [] => Err (invalid "filter group must have at least one child")
  | FilterNode.All l => let? ts := try_map reference_node l in Ok (FilterTree.All ts)
  | FilterNode.Any l => let? ts := try_map reference_node l in Ok (FilterTree.Any ts)
  end.

Lemma max_list_le (l : list nat) (b : nat) : max_list l <= b <-> Forall (fun x => x <= b) l.
Proof.
  induction l as [|x l IH]; simpl; [split; [constructor | lia]|].
  rewrite Forall_cons, <- IH. lia.
Qed.

Definition node_spec (n : FilterNode.t) : Prop :=
  forall d c t c', c <= MAX_FILTER_NODES ->
  convert_node n d c = Ok (t, c') <->
  c' = c + node_size n /\ c' <= MAX_FILTER_NODES /\ d + node_depth n <= S MAX_FILTER_DEPTH /\ reference_node n = Ok t.

Lemma nodes_spec (l : list FilterNode.t) :
  Forall node_spec l -> forall d c ts c', c <= MAX_FILTER_NODES ->
  convert_nodes (fun n c => convert_node n d c) l c = Ok (ts, c') <->
  c' = c + forest_size l /\ c' <= MAX_FILTER_NODES /\ Forall (fun n => d + node_depth n <= S MAX_FILTER_DEPTH) l
  /\ try_map reference_node l = Ok ts.
Proof.
  induction 1 as [|n l Hn Hl IH]; intros d c ts c' Hc; simpl.
  - unfold forest_size; simpl. rewrite Nat.add_0_r. split; [intros [= <- <-] | intros (-> & _ & _ & [= <-])]; done.
  - unfold forest_size in *; simpl. split.
    + destruct (convert_node n d c) as [[t c1]|] eqn:E; simpl; [|done].
      apply Hn in E as (-> & Hc1 & Hd & Hr); [|done].
      destruct (convert_nodes _ l _) as [[ts' c2]|] eqn:E2; simpl; [|done].
      apply IH in E2 as (-> & Hc2 & Hd2 & Hr2); [|done]. intros [= <- <-].
      rewrite Hr, Hr2. simpl. split_and!; [lia | lia | by constructor | done].
    + intros (-> & Hb & [Hd Hds]%Forall_cons & Hr).
      destruct (reference_node n) as [t|] eqn:E; simpl in Hr; [|done].
      destruct (try_map reference_node l) as [ts'|] eqn:E2; simpl in Hr; [|done]. injection Hr as <-.
      assert (H1 : convert_node n d c = Ok (t, c + node_size n)) by (apply Hn; [lia | split_and!; (done || lia)]).
      rewrite H1. simpl.
      assert (H2 : convert_nodes (fun n c => convert_node n d c) l (c + node_size n)
                   = Ok (ts', c + node_size n + sum_list_with node_size l)).
      { apply IH; [lia|]. split_and!; (done || lia). }
      rewrite H2. simpl. by rewrite Nat.add_assoc.
Qed.

Lemma group_spec (l : list FilterNode.t) (d c c' : nat) (ts : list FilterTree.t) :
  Forall node_spec l -> S c <= MAX_FILTER_NODES ->
  convert_nodes (fun n c => convert_node n (S d) c) l (S c) = Ok (ts, c') <->
  c' = c + S (sum_list_with node_size l) /\ c' <= MAX_FILTER_NODES
  /\ Forall (fun n => S d + node_depth n <= S MAX_FILTER_DEPTH) l /\ try_map reference_node l = Ok ts.
Proof.
  intros Hl Hc. rewrite (nodes_spec l Hl (S d) (S c)) by done. unfold forest_size.
  rewrite Nat.add_succ_r, <- Nat.add_succ_l. done.
Qed.

(** Both kinds of group. *)
Lemma group_node_spec (mk : list FilterNode.t -> FilterNode.t) (mk' : list FilterTree.t -> FilterTree.t)
    (n : FilterNode.t) (l : list FilterNode.t) :
  (forall ts ts', mk' ts = mk' ts' -> ts = ts') ->
  (forall d c, convert_node (mk (n :: l)) d c
               = if (MAX_FILTER_DEPTH <? d)%nat then Err (invalid "filter tree too deep")
                 else if (MAX_FILTER_NODES <? S c)%nat then Err (invalid "filter tree has too many nodes")
                 else let? r := convert_nodes (fun n c => convert_node n (S d) c) (n :: l) (S c) in Ok (mk' r.1, r.2)) ->
  node_size (mk (n :: l)) = S (sum_list_with node_size (n :: l)) ->
  node_depth (mk (n :: l)) = S (max_list (map node_depth (n :: l))) ->
  reference_node (mk (n :: l)) = (let? ts := try_map reference_node (n :: l) in Ok (mk' ts)) ->
  Forall node_spec (n :: l) -> node_spec (mk (n :: l)).
Proof.
  intros Hinj Hconvert Hsize Hdepth Href Hl d c t c' Hc. rewrite Hconvert, Hsize, Hdepth, Href.
  set (nodes := n :: l) in *. clearbody nodes.
  destruct (Nat.ltb_spec MAX_FILTER_DEPTH d); [split; [done | lia]|].
  destruct (Nat.ltb_spec MAX_FILTER_NODES (S c)); [split; [done | lia]|].
  assert (Hmax : d + S (max_list (map node_depth nodes)) <= S MAX_FILTER_DEPTH
                 <-> Forall (fun n => S d + node_depth n <= S MAX_FILTER_DEPTH) nodes).
  { transitivity (max_list (map node_depth nodes) <= MAX_FILTER_DEPTH - d); [lia|].
    rewrite max_list_le, Forall_map. apply Forall_iff. intros x. simpl. lia. }
  rewrite Hmax. split.
  - destruct (convert_nodes _ nodes (S c)) as [[ts c1]|] eqn:E; simpl; [|done]. intros [= <- <-].
    apply group_spec in E as (-> & Hb & Hd & ->); [|done..]. done.
  - intros (-> & Hb & Hd & Hr). destruct (try_map reference_node nodes) as [ts|] eqn:E; simpl in Hr; [|done].
    injection Hr as <-.
    assert (Hs : convert_nodes (fun n c => convert_node n (S d) c) nodes (S c)
                 = Ok (ts, c + S (sum_list_with node_size nodes))) by by apply group_spec.
    by rewrite Hs.
Qed.

Lemma empty_group_spec (mk : list FilterNode.t -> FilterNode.t) :
  (forall d c, is_ok (convert_node (mk []) d c) = false) -> is_ok (reference_node (mk [])) = false -> node_spec (mk []).
Proof.
  intros Hc Hr d c t c' _. specialize (Hc d c). split.
  - intros E. by rewrite E in Hc.
  - intros (_ & _ & _ & E). by rewrite E in Hr.
Qed.

Lemma empty_group_refused (d c : nat) (e : WaferError) :
  is_ok (if (MAX_FILTER_DEPTH <? d)%nat then Err (invalid "filter tree too deep")
         else if (MAX_FILTER_NODES <? S c)%nat then Err (invalid "filter tree has too many nodes")
         else @Err (FilterTree.t * nat) WaferError e) = false.
Proof. by destruct (MAX_FILTER_DEPTH <? d)%nat, (MAX_FILTER_NODES <? S c)%nat. Qed.

Lemma node_spec_all (n : FilterNode.t) : node_spec n.
Proof.
  induction n as [f|l Hl|l Hl] using node_ind'.
  - intros d c t c' Hc. simpl. destruct (Nat.ltb_spec MAX_FILTER_DEPTH d); [split; [done | lia]|].
    destruct (Nat.ltb_spec MAX_FILTER_NODES (S c)); [split; [done | lia]|].
    destruct (convert_leaf f) as [t'|]; simpl; [|split; [done | intros (_ & _ & _ & ?); done]].
    split; [intros [= -> <-]; split_and!; (done || lia) | intros (-> & _ & _ & [= ->])]. by rewrite Nat.add_1_r.
  - destruct l as [|n l]; [apply (empty_group_spec FilterNode.All); [intros; apply empty_group_refused | done]|].
    apply (group_node_spec FilterNode.All FilterTree.All); try done. by intros ts ts' [= ->].
  - destruct l as [|n l]; [apply (empty_group_spec FilterNode.Any); [intros; apply empty_group_refused | done]|].
    apply (group_node_spec FilterNode.Any FilterTree.Any); try done. by intros ts ts' [= ->].
Qed.

(** A forest converts exactly when it is within bounds and every node of it
    means something; what it converts to is what the nodes mean. *)
Lemma convert_filter_tree_spec (nodes : list FilterNode.t) (ts : list FilterTree.t) :
  convert_filter_tree nodes = Ok ts <->
  forest_size nodes <= MAX_FILTER_NODES /\ forest_depth nodes <= MAX_FILTER_DEPTH
  /\ try_map reference_node nodes = Ok ts.
Proof.
  assert (Hall : Forall node_spec nodes) by (apply Forall_forall; intros; apply node_spec_all).
  assert (Hdepth : forest_depth nodes <= MAX_FILTER_DEPTH
                   <-> Forall (fun n => 1 + node_depth n <= S MAX_FILTER_DEPTH) nodes).
  { unfold forest_depth. rewrite max_list_le, Forall_map. apply Forall_iff. intros x. simpl. lia. }
  rewrite Hdepth. unfold convert_filter_tree. split.
  - destruct (convert_nodes _ nodes 0) as [[ts' c]|] eqn:E; simpl; [|done]. intros [= <-].
    apply (nodes_spec nodes Hall 1 0) in E as (-> & ? & ? & ?); [done | unfold MAX_FILTER_NODES; lia].
  - intros (Hs & Hd & Hr).
    assert (E : convert_nodes (fun n c => convert_node n 1 c) nodes 0 = Ok (ts, 0 + forest_size nodes)).
    { apply nodes_spec; [done | unfold MAX_FILTER_NODES; lia | done]. }
    by rewrite E.
Qed.

(** ** Names *)

Definition plain (names : list string) : Prop := Forall (fun n => is_plain_ident n = true) names.

Lemma plain_app (l1 l2 : list string) : plain (l1 ++ l2) <-> plain l1 /\ plain l2.
Proof. apply Forall_app. Qed.

Lemma plain_cons (n : string) (l : list string) : plain (n :: l) <-> is_plain_ident n = true /\ plain l.
Proof. unfold plain. by rewrite Forall_cons. Qed.

Lemma plain_flat_map {A} (f : A -> list string) (l : list A) : plain (flat_map f l) <-> Forall (fun a => plain (f a)) l.
Proof. induction l as [|a l IH]; simpl; [split; constructor|]. by rewrite plain_app, Forall_cons, IH. Qed.

Lemma check_name_ok (n : string) : check_name n = Ok tt -> is_plain_ident n = true.
Proof. unfold check_name. by destruct (is_plain_ident n). Qed.

Lemma try_for_each_ok {A E} (f : A -> result unit E) (l : list A) :
  try_for_each f l = Ok tt -> Forall (fun a => f a = Ok tt) l.
Proof. induction l as [|a l IH]; simpl; [constructor|]. destruct (f a) as [[]|] eqn:Hf; [|done]. constructor; auto. Qed.

Lemma try_map_ok {A B E} (f : A -> result B E) (l : list A) (bs : list B) :
  try_map f l = Ok bs -> Forall2 (fun a b => f a = Ok b) l bs.
Proof.
  revert bs. induction l as [|a l IH]; simpl; intros bs.
  - intros [= <-]. constructor.
  - destruct (f a) as [b|] eqn:Hf; simpl; [|done]. destruct (try_map f l) as [bs'|]; simpl; [|done].
    intros [= <-]. constructor; auto.
Qed.

(** What each element of a collected list satisfies. *)
Lemma try_map_forall {A B E} (f : A -> result B E) (P : B -> Prop) (l : list A) (bs : list B) :
  (forall a b, a ∈ l -> f a = Ok b -> P b) -> try_map f l = Ok bs -> Forall P bs.
Proof.
  intros HP Hl%try_map_ok. induction Hl as [|a b l bs Hf Hl IH]; constructor.
  - apply (HP a); [left | done].
  - apply IH. intros a' b' Ha'. apply HP. by right.
Qed.

Lemma check_names_ok (l : list string) : try_for_each check_name l = Ok tt -> plain l.
Proof. intros Hl%try_for_each_ok. eapply Forall_impl; [exact Hl|]. apply check_name_ok. Qed.

Lemma data_names (data : Data) : check_data_names data = Ok tt -> plain (map fst data).
Proof. apply check_names_ok. Qed.

Lemma leaf_names (f : FilterDef) (t : FilterTree.t) : convert_leaf f = Ok t -> plain (node_columns t).
Proof.
  unfold convert_leaf. destruct (FilterOp.parse_wire (fd_operator f)) as [op|]; simpl; [|done].
  destruct (check_name (fd_field f)) as [[]|] eqn:Hf; simpl; [|done]. apply check_name_ok in Hf.
  destruct (fd_column f) as [column|]; [|intros [= <-]; by repeat constructor].
  destruct (fd_value f); try done. destruct (ColumnCompareOp.from_filter_op op) as [op'|]; [|done].
  destruct (check_name column) as [[]|] eqn:Hc; simpl; [|done]. apply check_name_ok in Hc.
  intros [= <-]. by repeat constructor.
Qed.

Lemma group_names (l : list FilterNode.t) (ts : list FilterTree.t) :
  Forall (fun n => forall t, reference_node n = Ok t -> plain (node_columns t)) l ->
  try_map reference_node l = Ok ts -> plain (tree_columns ts).
Proof.
  intros Hl Hts. apply plain_flat_map. eapply try_map_forall; [|exact Hts].
  intros a b Ha Hb. rewrite Forall_forall in Hl. by apply (Hl a).
Qed.

Lemma reference_all (n : FilterNode.t) (l : list FilterNode.t) :
  reference_node (FilterNode.All (n :: l)) = let? ts := try_map reference_node (n :: l) in Ok (FilterTree.All ts).
Proof. reflexivity. Qed.

Lemma reference_any (n : FilterNode.t) (l : list FilterNode.t) :
  reference_node (FilterNode.Any (n :: l)) = let? ts := try_map reference_node (n :: l) in Ok (FilterTree.Any ts).
Proof. reflexivity. Qed.

Lemma reference_names (n : FilterNode.t) (t : FilterTree.t) : reference_node n = Ok t -> plain (node_columns t).
Proof.
  revert t. induction n as [f|[|n l] Hl|[|n l] Hl] using node_ind'; intros t; try done.
  - apply leaf_names.
  - rewrite reference_all. destruct (try_map reference_node (n :: l)) as [ts|] eqn:E; simpl; [|done].
    intros [= <-]. by apply (group_names (n :: l)).
  - rewrite reference_any. destruct (try_map reference_node (n :: l)) as [ts|] eqn:E; simpl; [|done].
    intros [= <-]. by apply (group_names (n :: l)).
Qed.

Lemma tree_names (nodes : list FilterNode.t) (ts : list FilterTree.t) :
  convert_filter_tree nodes = Ok ts -> plain (tree_columns ts).
Proof.
  intros (_ & _ & Hts)%convert_filter_tree_spec. apply (group_names nodes); [|done].
  apply Forall_forall. intros n _. apply reference_names.
Qed.

Lemma flatten_names (ts : list FilterTree.t) (fs : list Filter) :
  flatten_leaves ts = Ok fs -> plain (tree_columns ts) -> plain (map f_field fs).
Proof.
  revert fs. induction ts as [|[f|f|l|l] ts IH]; simpl; intros fs; try done; [by intros [= <-]|].
  destruct (flatten_leaves ts) as [fs'|]; simpl; [|done]. intros [= <-] [Hf Hts]%plain_cons.
  simpl. apply plain_cons. auto.
Qed.

Lemma flat_names (nodes : list FilterNode.t) (fs : list Filter) : flat_filters nodes = Ok fs -> plain (map f_field fs).
Proof.
  unfold flat_filters. destruct (convert_filter_tree nodes) as [ts|] eqn:E; simpl; [|done].
  intros Hf. eapply flatten_names; [exact Hf|]. by apply (tree_names nodes).
Qed.

(** The names in a guard, an upsert, a write of a batch, an aggregation and a
    table. *)
Definition guard_names (g : CapGuard.t) : list string :=
  match g with
  | CapGuard.CountBelow filters _ => map f_field filters
  | CapGuard.SumAtMost field filters _ _ => field :: map f_field filters
  end.

Definition upsert_names (spec : UpsertSpec) : list string :=
  map fst (us_data spec) ++ us_conflict_columns spec ++
  match us_on_conflict spec with
  | UpsertConflict.SetColumns cols => cols
  | UpsertConflict.WindowedCounter count_field window_field _ _ created_fields updated_fields =>
      count_field :: window_field :: created_fields ++ updated_fields
  end.

Definition write_names (w : WriteOp.t) : list string :=
  WriteOp.collection w ::
  match w with
  | WriteOp.Create _ data | WriteOp.Update _ _ data => map fst data
  | WriteOp.Delete _ _ => []
  | WriteOp.UpdateWhere _ filters data => map f_field filters ++ map fst data
  | WriteOp.DeleteWhere _ filters => map f_field filters
  | WriteOp.Upsert _ spec => upsert_names spec
  end.

Definition aggregate_names (s : AggregateSpec) : list string :=
  read_columns s ++ aliases s ++ map sf_field (as_sort s) ++ map f_field (as_having s).

Definition table_names (t : Table) : list string :=
  ta_name t :: map co_name (ta_columns t) ++ List.filter (fun n => negb (is_empty n)) (map ix_name (ta_indexes t))
  ++ flat_map ix_columns (ta_indexes t) ++ ta_primary_key t ++ concat (ta_unique_keys t).

Lemma guards_names (defs : list CapGuardDef.t) (gs : list CapGuard.t) :
  to_cap_guards defs = Ok gs -> length gs <= MAX_WRITE_GUARDS /\ plain (flat_map guard_names gs).
Proof.
  unfold to_cap_guards. destruct (Nat.ltb_spec MAX_WRITE_GUARDS (length defs)); [done|]. intros E. split.
  - apply try_map_ok, Forall2_length in E. lia.
  - apply plain_flat_map. eapply try_map_forall; [|exact E]. intros [filters cap|field filters add cap] g _; simpl.
    + destruct (flat_filters filters) as [fs|] eqn:Hf; simpl; [|done]. intros [= <-]. by apply (flat_names filters).
    + destruct (check_name field) as [[]|] eqn:Hn; simpl; [|done].
      destruct (flat_filters filters) as [fs|] eqn:Hf; simpl; [|done]. intros [= <-]. simpl.
      apply plain_cons. split; [by apply check_name_ok | by apply (flat_names filters)].
Qed.

Lemma sort_names (defs : list SortFieldDef) (sort : list SortField) :
  convert_sort defs = Ok sort -> plain (map sf_field sort).
Proof.
  intros E. apply Forall_map. eapply try_map_forall; [|exact E]. intros d s _. unfold convert_sort_field.
  destruct (check_name (sd_field d)) as [[]|] eqn:Hn; simpl; [|done]. intros [= <-]. by apply check_name_ok.
Qed.

Lemma when_names (nodes : list FilterNode.t) (kind : string) (ts : list FilterTree.t) :
  convert_when nodes kind = Ok ts -> ts <> [] /\ plain (tree_columns ts).
Proof.
  unfold convert_when. destruct (convert_filter_tree nodes) as [[|t ts']|] eqn:E; simpl; [done| |done].
  intros [= <-]. split; [done|]. by apply (tree_names nodes).
Qed.

End Facts.

(** A sequence of [let?] that succeeded: each step did. *)
Ltac all_ok :=
  repeat match goal with
    | |- result_bind ?r _ = Ok _ -> _ =>
        let E := fresh "E" in destruct r eqn:E; cbn [result_bind]; [|discriminate]
    | u : unit |- _ => destruct u
    | E : check_name _ = Ok tt |- _ => apply check_name_ok in E
    | E : try_for_each check_name _ = Ok tt |- _ => apply check_names_ok in E
    | E : check_data_names _ = Ok tt |- _ => apply data_names in E
    | E : flat_filters _ = Ok _ |- _ => apply flat_names in E
    | E : convert_when _ _ = Ok _ |- _ => apply when_names in E as [? ?]
    end.

(** Splits a list of names to check. *)
Ltac names :=
  repeat match goal with
    | |- plain [] => constructor
    | |- plain (_ :: _) => apply plain_cons; split
    | |- plain (_ ++ _) => apply plain_app; split
    | |- _ => assumption
    end.

Section Specs.
  Context `{DebugFormat} `{JsonCrate}.

Lemma aggregate_column_names (d : AggregateColumnDef.t) (a : AggregateColumnSpec.t) :
  to_aggregate_column d = Ok a -> plain (aggregate_columns a) /\ is_plain_ident (AggregateColumnSpec.alias a) = true.
Proof. destruct d; simpl; all_ok; intros [= <-]; simpl; split; names. Qed.

Lemma group_by_name (d : GroupByDef.t) (g : GroupBySpec.t) :
  to_group_by d = Ok g -> is_plain_ident (group_column g) = true.
Proof. destruct d; simpl; all_ok; by intros [= <-]. Qed.

Lemma aggregate_spec_names (req : AggregateRequest) (collection : string) (s : AggregateSpec) :
  to_aggregate_spec req = Ok (collection, s) -> collection = ar_collection req /\ plain (aggregate_names s).
Proof.
  unfold to_aggregate_spec. all_ok. intros [= <- <-]. split; [done|].
  unfold aggregate_names, read_columns, aliases; simpl.
  assert (Ha : Forall (fun a => plain (aggregate_columns a) /\ is_plain_ident (AggregateColumnSpec.alias a) = true) a0).
  { eapply try_map_forall; [|exact E0]. intros d a' _. apply aggregate_column_names. }
  assert (Hg : Forall (fun g => is_plain_ident (group_column g) = true) a1).
  { eapply try_map_forall; [|exact E1]. intros d g _. apply group_by_name. }
  names.
  - apply plain_flat_map. eapply Forall_impl; [exact Ha|]. by intros ? [].
  - by apply Forall_map.
  - apply Forall_map. eapply Forall_impl; [exact Ha|]. by intros ? [].
  - by eapply sort_names.
Qed.

Lemma column_name (d : ColumnDef) (c : Column) : column_from_def d = Ok c -> is_plain_ident (co_name c) = true.
Proof. unfold column_from_def. all_ok. by intros [= <-]. Qed.

Lemma index_names (l : list IndexDef) :
  try_for_each (fun i => if is_empty (id_name i) then Ok tt else check_name (id_name i)) l = Ok tt ->
  plain (List.filter (fun n => negb (is_empty n)) (map id_name l)).
Proof.
  intros Hl%try_for_each_ok. induction Hl as [|i l Hi Hl IH]; simpl; [constructor|].
  destruct (is_empty (id_name i)); simpl; [done|]. apply plain_cons. split; [by apply check_name_ok | done].
Qed.

Lemma table_from_def_names (d : TableDef) (t : Table) :
  table_from_def d = Ok t -> ta_name t = td_name d /\ ta_columns t <> [] /\ plain (table_names t).
Proof.
  unfold table_from_def. all_ok. destruct (td_columns d) as [|c cs] eqn:Hc; [done|]. all_ok.
  intros [= <-]. split; [done|]. split; [apply try_map_ok, Forall2_length in E0; simpl; by intros ->|].
  rewrite !plain_app in E2. destruct E2 as (? & ? & ?).
  unfold table_names; simpl. rewrite map_map. simpl. names.
  - apply Forall_map. eapply try_map_forall; [|exact E0]. intros d' c' _. apply column_name.
  - by apply index_names.
  - apply plain_flat_map, Forall_map. simpl. by apply plain_flat_map.
Qed.
End Specs.
