(* ===== verification/DatabaseProps.v ===== *)
(** The database handler's guarantees, whatever the service answers: every
    service call is authorized and names only plain identifiers; inserts by a
    caller that may only append never set a column the server owns nor a
    column that does not exist; every failed answer is noted in the init
    attempt; and a driver's text reaches no caller unless it is one of the
    preserved outcomes. *)

From stdpp Require Import pretty.
From S2P Require Import Prelude CoreTypes Grants Wrap Text Streams Handlers InitAttempts DatabaseTypes.
From S2P Require Import DatabaseConvert DatabaseHandler DatabaseFacts.

(** ** Reasoning about programs *)

(** A call with its answer. *)
Definition Event : Type := sigT (fun c : ServiceCall => ServiceAnswer c).

(** Every call satisfies [P] and every result [Q], given the calls before. *)
Fixpoint sat {A} (P : list Event -> ServiceCall -> Prop) (Q : list Event -> A -> Prop) (l : list Event)
    (p : DbProg A) : Prop :=
  match p with
  | Done a => Q l a
  | Ask c k => P l c /\ forall r, sat P Q (l ++ [existT c r]) (k r)
  | NoteAnswer _ p => sat P Q l p
  end.

Lemma sat_bind {A B} P (Q : list Event -> A -> Prop) (R : list Event -> B -> Prop) (k : A -> DbProg B) p :
  forall l, sat P Q l p -> (forall l' a, Q l' a -> sat P R l' (k a)) -> sat P R l (db_bind p k).
Proof. induction p as [a|c k' IH|n p IH]; simpl; intros l Hp Hk; [auto | | auto]. destruct Hp as [HP Hp]. split; auto. Qed.

Lemma sat_mono {A} P (Q Q' : list Event -> A -> Prop) p :
  forall l, sat P Q l p -> (forall l' a, Q l' a -> Q' l' a) -> sat P Q' l p.
Proof. induction p as [a|c k IH|n p IH]; simpl; intros l Hp HQ; [auto | | auto]. destruct Hp. split; auto. Qed.

Lemma sat_or_answer {A E} P (Q : list Event -> OutputStream -> Prop) (r : result A E) refuse k l :
  (forall e, Q l (refuse e)) -> (forall a, r = Ok a -> sat P Q l (k a)) -> sat P Q l (or_answer r refuse k).
Proof. destruct r; simpl; auto. Qed.

(** The calls a program can make, with those before. *)
Inductive asks {A} : DbProg A -> list Event -> ServiceCall -> Prop :=
| asks_here c k : asks (Ask c k) [] c
| asks_later c k r l c' : asks (k r) l c' -> asks (Ask c k) (existT c r :: l) c'
| asks_note n p l c : asks p l c -> asks (NoteAnswer n p) l c.

Lemma sat_asks {A} P (Q : list Event -> A -> Prop) p l c :
  asks p l c -> forall l0, sat P Q l0 p -> P (l0 ++ l) c.
Proof.
  induction 1 as [c k | c k r l c' Ha IH | n p l c Ha IH]; simpl; intros l0 Hs.
  - by rewrite app_nil_r; destruct Hs.
  - destruct Hs as [_ Hs]. specialize (IH _ (Hs r)). by rewrite <- app_assoc in IH.
  - auto.
Qed.

(** Unfolds the operation at hand. *)
Ltac head t := match t with ?f _ => head f | _ => t end.
Ltac unfold_op := match goal with |- sat _ _ _ ?t => let op := head t in unfold op end.

Section Props.
  Context `{DatabaseCodec} `{DebugFormat} `{JsonCrate} (ctx : CallContext).

Abbreviation trivially := (fun _ _ => True).

(** ** Authorization *)

Definition admitted (resource : string) (access : ResourceAccess.t) : Prop :=
  check_resource_access ctx resource ResourceType.Db access = Ok tt.

(** What a call needs. *)
Definition call_authorized (c : ServiceCall) : Prop :=
  match c with
  | CallGet t _ | CallList t _ | CallCount t _ | CallSum t _ _ | CallAggregate t _ | CallSchemaTableExists t =>
      admitted t ResourceAccess.Read
  | CallCreate t _ | CallCreateMany t _ | CallSchemaColumns t => admitted t ResourceAccess.Append
  | CallInsertGuarded t _ _ => admitted t ResourceAccess.Append /\ admitted t ResourceAccess.Read
  | CallBatch ops =>
      Forall (fun w => admitted (WriteOp.collection w)
                         (match w with WriteOp.Create _ _ => ResourceAccess.Append | _ => ResourceAccess.Write end)) ops
  | CallUpdateGuarded t _ _ _ | CallUpdate t _ _ | CallDelete t _ | CallDeleteWhere t _ | CallDeleteWhereCount t _
  | CallTakeWhere t _ | CallUpdateWhere t _ _ | CallUpdateWhereCount t _ _ | CallIncrementFieldWhere t _ _ _
  | CallUpsert t _ => admitted t ResourceAccess.Write
  | CallEnsureSchemaTable t => admitted (ta_name t) ResourceAccess.Write /\ admitted SCHEMA_RESOURCE ResourceAccess.Write
  | CallSchemaDropTable t | CallSchemaAddColumn t _ =>
      admitted t ResourceAccess.Write /\ admitted SCHEMA_RESOURCE ResourceAccess.Write
  | CallQueryRaw _ _ | CallCatalogTables | CallCatalogColumns _ | CallCatalogRowCount _ =>
      admitted RAW_SQL_RESOURCE ResourceAccess.Read
  | CallExecRaw _ _ => admitted RAW_SQL_RESOURCE ResourceAccess.Write \/ admitted DDL_RESOURCE ResourceAccess.Write
  | CallExecRawTransaction _ => admitted DDL_RESOURCE ResourceAccess.Write
  end.

(** The table, column and alias names a call brings into a statement. *)
Definition call_names (c : ServiceCall) : list string :=
  match c with
  | CallGet t _ | CallDelete t _ | CallSchemaTableExists t | CallSchemaColumns t | CallSchemaDropTable t => [t]
  | CallList t opts =>
      t :: map f_field (lo_filters opts) ++ map sf_field (lo_sort opts)
      ++ tree_columns (default [] (lo_filter_tree opts)) ++ default [] (lo_columns opts)
  | CallCreate t data | CallUpdate t _ data => t :: map fst data
  | CallCreateMany t rows => t :: flat_map (map fst) rows
  | CallBatch ops => flat_map write_names ops
  | CallInsertGuarded t data guards => t :: map fst data ++ flat_map guard_names guards
  | CallUpdateGuarded t filters data guards =>
      t :: map f_field filters ++ map fst data ++ flat_map guard_names guards
  | CallCount t filters | CallDeleteWhere t filters | CallDeleteWhereCount t filters | CallTakeWhere t filters =>
      t :: map f_field filters
  | CallSum t field filters => t :: field :: map f_field filters
  | CallUpdateWhere t filters data | CallUpdateWhereCount t filters data => t :: map f_field filters ++ map fst data
  | CallIncrementFieldWhere t col _ filters => t :: col :: map f_field filters
  | CallUpsert t spec => t :: upsert_names spec
  | CallAggregate t spec => t :: aggregate_names spec
  | CallEnsureSchemaTable t => table_names t
  | CallSchemaAddColumn t column => [t; co_name column]
  | CallQueryRaw _ _ | CallExecRaw _ _ | CallExecRawTransaction _ | CallCatalogTables | CallCatalogColumns _
  | CallCatalogRowCount _ => []
  end.

Definition confined (_ : list Event) (c : ServiceCall) : Prop := call_authorized c /\ plain (call_names c).

Lemma check_all_ok (rs : list Resource) : check_all ctx rs = Ok tt -> Forall (fun r => check_resource ctx r = Ok tt) rs.
Proof. induction rs as [|r rs IH]; simpl; [constructor|]. destruct (check_resource ctx r) as [[]|] eqn:E; [|done]. constructor; auto. Qed.

(** A request obtained was checked on everything its operation lists. *)
Lemma authorize_all_ok {T} (decode : string -> result T string) body op resources req :
  decode_and_authorize_all ctx decode body op resources = Ok req ->
  exists rs, resources req = Ok rs /\ Forall (fun r => check_resource ctx r = Ok tt) rs.
Proof.
  unfold decode_and_authorize_all. destruct (decode_request decode body op) as [req'|]; simpl; [|done].
  destruct (resources req') as [rs|] eqn:E; [|done].
  destruct (check_all ctx rs) as [[]|] eqn:Hc; [|done]. intros [= <-]. eauto using check_all_ok.
Qed.

Lemma authorize_op_ok {T} (decode : string -> result T string) body op resource accesses req :
  database_op_access op = Some (DatabaseOpAccess.On accesses) ->
  decode_and_authorize_op ctx decode body op resource = Ok req ->
  is_plain_ident (resource req) = true /\ Forall (admitted (resource req)) accesses.
Proof.
  intros Hop (rs & Hrs & Hall)%authorize_all_ok. unfold op_checks in Hrs.
  destruct (check_name (resource req)) as [[]|] eqn:Hn; simpl in Hrs; [|done].
  rewrite Hop in Hrs. injection Hrs as <-. split; [by apply check_name_ok|].
  by rewrite Forall_map in Hall.
Qed.

(** ** Calls *)

(** Failures make no call. *)
Lemma sat_db_error {Q} P e l : (forall err, Q l err) -> sat P Q l (db_error_to_wafer e).
Proof. unfold db_error_to_wafer, observed. destruct (attempt_answer e); simpl; auto. Qed.

Lemma sat_transaction_error {Q} P e l : (forall err, Q l err) -> sat P Q l (transaction_error_to_wafer e).
Proof. unfold transaction_error_to_wafer, observed. destruct (attempt_answer (te_error e)); simpl; auto. Qed.

Lemma sat_failure {Q} P c (e : ServiceFailure c) l : (forall err, Q l err) -> sat P Q l (failure c e).
Proof. intros HQ. destruct c; simpl in *; (apply sat_db_error || apply sat_transaction_error); exact HQ. Qed.

Lemma sat_answer P c ok l : P l c -> sat P trivially l (answer c ok).
Proof.
  intros Hc. split; [done|]. intros [v|e]; simpl; [done|].
  eapply sat_bind; [by apply (sat_failure (Q := trivially)) | done].
Qed.

Lemma upsert_spec_ok req l :
  sat confined (fun _ r => forall cs, r = Ok cs -> cs.1 = up_collection req /\ plain (upsert_names cs.2)) l
    (to_upsert_spec req).
Proof.
  unfold to_upsert_spec. destruct (try_for_each check_name (map fst (up_data req))) as [[]|] eqn:E1; [|done].
  destruct (try_for_each check_name (up_conflict_columns req)) as [[]|] eqn:E2; [|done].
  apply check_names_ok in E1, E2.
  destruct (up_on_conflict req) as [cols|cf wf now cutoff created updated]; simpl.
  - destruct (try_for_each check_name cols) as [[]|] eqn:E3; [|done]. apply check_names_ok in E3.
    intros cs [= <-]. split; [done|]. unfold upsert_names; simpl. names.
  - destruct (check_name cf) as [[]|] eqn:E3; [|done]. destruct (check_name wf) as [[]|] eqn:E4; [|done]. simpl.
    destruct (try_for_each check_name (created ++ updated)) as [[]|] eqn:E5; [|done].
    apply check_names_ok in E5. apply check_name_ok in E3, E4. apply plain_app in E5 as [].
    destruct (windowed_counter_row _ _) as [row|e].
    + intros cs [= <-]. split; [done|]. unfold upsert_names; simpl. names.
    + eapply sat_bind; [by apply (sat_db_error (Q := trivially)) | done].
Qed.

Lemma write_op_ok (w : BatchWrite.t) l :
  is_plain_ident (BatchWrite.collection w) = true -> admitted (BatchWrite.collection w) (BatchWrite.access w) ->
  sat confined (fun _ r => forall op, r = Ok op ->
    WriteOp.collection op = BatchWrite.collection w /\ plain (write_names op) /\
    admitted (WriteOp.collection op)
      (match op with WriteOp.Create _ _ => ResourceAccess.Append | _ => ResourceAccess.Write end)) l (to_write_op w).
Proof.
  intros Hn Ha. destruct w as [c data|c id data|c id|c filters data|c filters|req]; simpl in *;
    try (intros op; all_ok; intros [= <-]; unfold write_names; simpl; split_and!; [done | names | done]).
  eapply sat_bind; [apply upsert_spec_ok|]. intros l' [[c spec]|e] Hr; simpl; [|done].
  destruct (Hr _ eq_refl) as [Hc Hs]. simpl in *. subst c. intros op [= <-].
  unfold write_names; simpl. split_and!; [done | names | done].
Qed.

Definition op_ok (op : WriteOp.t) : Prop :=
  plain (write_names op) /\
  admitted (WriteOp.collection op) (match op with WriteOp.Create _ _ => ResourceAccess.Append | _ => ResourceAccess.Write end).

Lemma write_ops_ok (ws : list BatchWrite.t) l :
  Forall (fun w => is_plain_ident (BatchWrite.collection w) = true
                   /\ admitted (BatchWrite.collection w) (BatchWrite.access w)) ws ->
  sat confined (fun _ r => forall ops, r = Ok ops -> Forall op_ok ops) l (to_write_ops ws).
Proof.
  intros Hws. revert l. induction Hws as [|w ws [Hn Ha] Hws IH]; intros l; simpl; [by intros ops [= <-]|].
  eapply sat_bind; [by apply write_op_ok|]. intros l' [op|e] Hr; [|done].
  eapply sat_bind; [apply IH|]. intros l2 [ops|e] Hrs; simpl; [|done].
  intros ops' [= <-]. destruct (Hr _ eq_refl) as (_ & ? & ?). constructor; [by split | by apply Hrs].
Qed.

Lemma batch_checks_ok (ws : list BatchWrite.t) (seen checks : list Resource) :
  batch_checks ws seen = Ok checks ->
  (forall r, r ∈ seen -> r ∈ checks) /\
  Forall (fun w => is_plain_ident (BatchWrite.collection w) = true
                   /\ (BatchWrite.collection w, ResourceType.Db, BatchWrite.access w) ∈ checks) ws.
Proof.
  revert seen. induction ws as [|w ws IH]; simpl; intros seen; [by intros [= <-]|].
  destruct (check_name (BatchWrite.collection w)) as [[]|] eqn:Hn; simpl; [|done]. apply check_name_ok in Hn.
  intros [Hsub Hall]%IH. case_bool_decide as Hin; (split; [|constructor]); auto.
  - intros r Hr. apply Hsub. set_solver.
  - split; [done|]. apply Hsub. set_solver.
Qed.

Lemma append_only_rows_ok (t : string) (rows : list Data) l :
  is_plain_ident t = true -> admitted t ResourceAccess.Append -> sat confined trivially l (check_append_only_rows t rows).
Proof.
  intros Hn Ha. unfold check_append_only_rows. destruct (append_only_names _ _ _) as [named|]; simpl; [|done].
  split; [split; simpl; [done | names]|]. intros [existing|e]; simpl; [done|].
  eapply sat_bind; [by apply (sat_db_error (Q := trivially)) | done].
Qed.

Lemma append_only_rules_ok (t : string) (rows : list Data) l :
  is_plain_ident t = true -> admitted t ResourceAccess.Append -> sat confined trivially l (append_only_rules ctx t rows).
Proof. intros. unfold append_only_rules. destruct (inserts_append_only ctx t); [by apply append_only_rows_ok | done]. Qed.

Lemma append_only_collections_sub (ws : list BatchWrite.t) (seen : list string) t :
  t ∈ append_only_collections ctx ws seen ->
  t ∈ seen \/ exists w, w ∈ ws /\ BatchWrite.collection w = t /\ BatchWrite.access w = ResourceAccess.Append.
Proof.
  revert seen. induction ws as [|w ws IH]; simpl; intros seen; [auto|].
  destruct w as [c data| | | | |];
    try (intros [?|(w' & ? & ?)]%IH; [by left | right; exists w'; split; [by right | done]]).
  intros [Hin|(w' & ? & ?)]%IH; [|right; exists w'; split; [by right | done]].
  destruct (negb _ && _); [|by left]. apply elem_of_app in Hin as [?|Heq%list_elem_of_singleton]; [by left|]. subst t.
  right. exists (BatchWrite.Create c data). split; [left | done].
Qed.

Lemma collections_rows_ok (ts : list string) (ws : list BatchWrite.t) l :
  Forall (fun t => is_plain_ident t = true /\ admitted t ResourceAccess.Append) ts ->
  sat confined trivially l (check_append_only_collections ts ws).
Proof.
  intros Hts. revert l. induction Hts as [|t ts [Hn Ha] Hts IH]; intros l; simpl; [done|].
  eapply sat_bind; [by apply append_only_rows_ok|]. intros l' [[]|e] _; simpl; [apply IH | done].
Qed.

(** Steps an operation shares: a request decoded and authorized, a conversion
    or check that succeeded, the last call. *)
Ltac op_request :=
  apply sat_or_answer; [done|];
  let req := fresh "req" in let Hreq := fresh "Hreq" in
  intros req Hreq; eapply authorize_op_ok in Hreq; [|reflexivity];
  let Hn := fresh "Hn" in let Ha := fresh "Ha" in destruct Hreq as [Hn Ha];
  repeat match goal with
    | Ha : Forall _ (_ :: _) |- _ => apply Forall_cons in Ha; destruct Ha
    | Ha : Forall _ [] |- _ => clear Ha
    end.
Ltac op_step :=
  apply sat_or_answer; [done|];
  let a := fresh "a" in let E := fresh "E" in intros a E; try (match type of a with unit => destruct a end);
  match type of E with
  | check_name _ = _ => apply check_name_ok in E
  | check_data_names _ = _ => apply data_names in E
  | flat_filters _ = _ => apply flat_names in E
  | to_cap_guards _ = _ => apply guards_names in E as [_ E]
  | convert_sort _ = _ => apply sort_names in E
  | convert_filter_tree _ = _ => apply tree_names in E
  | _ => idtac
  end.
Ltac op_answer := apply sat_answer; split; simpl; [auto | names; done].
Ltac op_simple := intros; op_request; repeat op_step; op_answer.

Lemma op_list_ok body l : sat confined trivially l (op_list ctx body).
Proof.
  unfold op_list. op_request. repeat op_step. apply sat_answer. split; simpl; [auto|].
  assert (Hc : plain (default [] (list_columns req))).
  { destruct (list_columns req) as [[|c cs]|]; simpl in *; [done | by apply (check_names_ok (c :: cs)) | constructor]. }
  names.
Qed.

(** An insert after the append-only rules. *)
Lemma op_rules_ok (t : string) (rows : list Data) (k : unit -> DbProg OutputStream) l :
  is_plain_ident t = true -> admitted t ResourceAccess.Append -> (forall l', sat confined trivially l' (k tt)) ->
  sat confined trivially l (do! rules := append_only_rules ctx t rows in or_answer rules output_error k).
Proof.
  intros Hn Ha Hk. eapply sat_bind; [by apply append_only_rules_ok|]. intros l' [[]|e] _; simpl; [apply Hk | done].
Qed.

Lemma op_create_ok body l : sat confined trivially l (op_create ctx body).
Proof. unfold op_create. op_request. op_step. apply op_rules_ok; [done..|]. intros l'. op_answer. Qed.

Lemma op_create_many_ok body l : sat confined trivially l (op_create_many ctx body).
Proof.
  unfold op_create_many. op_request. op_step. apply op_rules_ok; [done..|]. intros l'.
  apply try_for_each_ok in E. apply sat_answer. split; simpl; [done|]. names.
  apply plain_flat_map. eapply Forall_impl; [exact E|]. apply data_names.
Qed.

Lemma op_insert_guarded_ok body l : sat confined trivially l (op_insert_guarded ctx body).
Proof. unfold op_insert_guarded. op_request. repeat op_step. apply op_rules_ok; [done..|]. intros l'. op_answer. Qed.

Lemma op_batch_ok body l : sat confined trivially l (op_batch ctx body).
Proof.
  unfold op_batch. apply sat_or_answer; [done|]. intros req (rs & Hrs & Hall)%authorize_all_ok.
  assert (Hws : Forall (fun w => is_plain_ident (BatchWrite.collection w) = true
                   /\ admitted (BatchWrite.collection w) (BatchWrite.access w)) (br_ops req)).
  { apply batch_checks_ok in Hrs as [_ Hws]. eapply Forall_impl; [exact Hws|]. intros w [Hn Hin].
    split; [done|]. rewrite Forall_forall in Hall. exact (Hall _ Hin). }
  eapply sat_bind.
  { apply collections_rows_ok, Forall_forall. intros t Hin.
    apply append_only_collections_sub in Hin as [?|(w & Hin & <- & Hacc)]; [set_solver|].
    rewrite Forall_forall in Hws. destruct (Hws w Hin) as [Hn Ha]. split; [done|]. by rewrite <- Hacc. }
  intros l' [[]|e] _; simpl; [|done].
  eapply sat_bind; [by apply write_ops_ok|]. intros l2 [ops|e] Hops; simpl; [|done].
  specialize (Hops _ eq_refl). apply sat_answer. split; simpl.
  - eapply Forall_impl; [exact Hops|]. by intros w [].
  - apply plain_flat_map. eapply Forall_impl; [exact Hops|]. by intros w [].
Qed.

Lemma op_upsert_ok body l : sat confined trivially l (op_upsert ctx body).
Proof.
  unfold op_upsert. op_request. eapply sat_bind; [apply upsert_spec_ok|].
  intros l' [[c spec]|e] Hr; simpl; [|done]. destruct (Hr _ eq_refl) as [Hc Hs]. simpl in *. subst c. op_answer.
Qed.

Lemma op_aggregate_ok body l : sat confined trivially l (op_aggregate ctx body).
Proof.
  unfold op_aggregate. op_request. destruct (ar_aggregates req); [done|]. op_step.
  destruct a as [c spec]. apply aggregate_spec_names in E as [-> E]. op_answer.
Qed.

(** An operation that changes a schema. *)
Lemma op_ensure_table_ok body l : sat confined trivially l (op_ensure_table ctx body).
Proof.
  unfold op_ensure_table. op_request. repeat op_step. apply table_from_def_names in E0 as (Ht & _ & Hnames).
  apply sat_answer. split; simpl; [|done]. by rewrite Ht.
Qed.

Lemma op_add_column_ok body l : sat confined trivially l (op_add_column ctx body).
Proof. unfold op_add_column. op_request. repeat op_step. apply column_name in E0. op_answer. Qed.

Lemma all_ops_ok : Forall (fun op => forall body l, sat confined trivially l (op.2 ctx body)) DB_OPS.
Proof.
  unfold DB_OPS. repeat first [ apply List.Forall_nil | apply List.Forall_cons ]; intros body l; cbn [snd];
    solve [ apply op_list_ok | apply op_create_ok | apply op_create_many_ok | apply op_batch_ok
          | apply op_insert_guarded_ok | apply op_upsert_ok | apply op_aggregate_ok | apply op_ensure_table_ok
          | apply op_add_column_ok
          | unfold_op; op_simple ].
Qed.

Lemma handle_op_sat (P : list Event -> ServiceCall -> Prop) msg body :
  Forall (fun op => forall body l, sat P trivially l (op.2 ctx body)) DB_OPS ->
  sat P trivially [] (handle_op ctx msg body).
Proof.
  intros Hall. unfold handle_op. generalize DB_OPS, Hall. intros ops.
  induction 1 as [|[name op] ops Hop Hops IH]; simpl; [done|]. destruct (name =s msg_kind msg); [apply Hop | apply IH].
Qed.

(** C20: Whatever a database service answers, every call the handler makes of
    it was admitted for its caller - for the access that call takes, on the
    table it names, and for a raw statement, the DDL channel, a schema change
    or the catalog on that channel too - and every table, column and alias
    name the call brings into a statement is a plain identifier. *)
Theorem database_service_confined (msg : Message) (body : string) (before : list Event) (c : ServiceCall) :
  asks (handle_op ctx msg body) before c -> call_authorized c /\ plain (call_names c).
Proof. intros Ha. exact (sat_asks _ _ _ _ _ Ha [] (handle_op_sat _ _ _ all_ops_ok)). Qed.
End Props.

(** * Inserts through an append-only grant: a caller without [Write] on a table
    never sets a column the server owns, nor one the service did not report
    as existing, whichever operation inserts. *)

(** Logs only grow. *)
Lemma sat_extends {A} P (Q : list Event -> A -> Prop) p :
  forall l, sat P Q l p -> sat P (fun l' a => Q l' a /\ forall e, e ∈ l -> e ∈ l') l p.
Proof.
  induction p as [a|c k IH|n p IH]; simpl; intros l Hp; [auto | | auto]. destruct Hp as [HP Hp]. split; [done|].
  intros r. eapply sat_mono; [apply IH, Hp|]. intros l' a [HQ Hl]. split; [done|].
  intros e He. apply Hl, elem_of_app. by left.
Qed.

Section Append.
  Context `{DatabaseCodec} `{DebugFormat} `{JsonCrate} (ctx : CallContext).

Abbreviation trivially := (fun _ _ => True).

(** A call inserts a row of [data] into table [t]. *)
Definition creates (c : ServiceCall) (t : string) (data : Data) : Prop :=
  match c with
  | CallCreate t' data' | CallInsertGuarded t' data' _ => t' = t /\ data' = data
  | CallCreateMany t' rows => t' = t /\ data ∈ rows
  | CallBatch ops => WriteOp.Create t data ∈ ops
  | _ => False
  end.

(** What an append-only insert into [t] may write, given the calls before. *)
Definition row_ok (t : string) (l : list Event) (data : Data) : Prop :=
  (forall k, k ∈ map fst data -> k ∉ SERVER_OWNED_COLUMNS) /\
  exists existing : list string, existT (CallSchemaColumns t) (Ok existing) ∈ l /\
    forall k, k ∈ SERVER_OWNED_COLUMNS ++ map fst data -> k ∈ existing.

Definition append_safe (l : list Event) (c : ServiceCall) : Prop :=
  forall t data, creates c t data -> inserts_append_only ctx t = true -> row_ok t l data.

Lemma row_ok_mono t l l' data : (forall e, e ∈ l -> e ∈ l') -> row_ok t l data -> row_ok t l' data.
Proof. intros Hl [Hk (existing & He & Hex)]. split; [done|]. exists existing. auto. Qed.

Lemma push_unique_elem (seen : list string) (k k' : string) : k' ∈ push_unique seen k <-> k' ∈ seen \/ k' = k.
Proof.
  unfold push_unique. destruct (existsb (String.eqb k) seen) eqn:E.
  - apply existsb_exists in E as (k0 & Hin & <-%eqs_true). apply list_elem_of_In in Hin. intuition congruence.
  - rewrite elem_of_app, list_elem_of_singleton. done.
Qed.

Lemma append_names_ok (t : string) (keys named0 named : list string) :
  append_only_names t keys named0 = Ok named ->
  (forall k, k ∈ named0 -> k ∈ named) /\ (forall k, k ∈ keys -> k ∉ SERVER_OWNED_COLUMNS /\ k ∈ named).
Proof.
  revert named0. induction keys as [|key keys IH]; simpl; intros named0; [intros [= <-]; split; [done | set_solver]|].
  destruct (check_name key) as [[]|]; simpl; [|done]. case_bool_decide as Hown; [done|].
  intros [Hsub Hkeys]%IH. split.
  - intros k Hk. apply Hsub, push_unique_elem. by left.
  - intros k [-> | Hk]%elem_of_cons; [|by apply Hkeys]. split; [done|]. apply Hsub, push_unique_elem. by right.
Qed.

Lemma check_rows_ok (t : string) (rows : list Data) l :
  sat append_safe (fun l' r => r = Ok tt -> Forall (row_ok t l') rows) l (check_append_only_rows t rows).
Proof.
  unfold check_append_only_rows.
  destruct (append_only_names t (flat_map (map fst) rows) []) as [named|] eqn:E; [|simpl; discriminate].
  apply append_names_ok in E as [_ Hkeys]. split; [intros t' data []|]. intros [existing|e]; cbn [sat].
  - destruct (List.find _ _) as [column|] eqn:Hfind; [discriminate|]. intros _. apply Forall_forall. intros data Hdata.
    assert (Hdk : forall k, k ∈ map fst data -> k ∈ flat_map (map fst) rows).
    { intros k Hk. rewrite !list_elem_of_In in *. apply in_flat_map. eauto. }
    split; [intros k Hk; by apply Hkeys, Hdk|]. exists existing. split; [set_solver|]. intros k Hk.
    assert (Hin : List.In k (SERVER_OWNED_COLUMNS ++ named)).
    { apply list_elem_of_In. apply elem_of_app in Hk as [Hk|Hk]; apply elem_of_app; [by left|].
      right. by apply Hkeys, Hdk. }
    pose proof (List.find_none _ _ Hfind k Hin) as Hk'. by apply negb_false_iff, bool_decide_eq_true_1 in Hk'.
  - eapply sat_bind; [by apply (sat_db_error (Q := trivially)) | done].
Qed.

Lemma rules_ok (t : string) (rows : list Data) l :
  sat append_safe (fun l' r => r = Ok tt -> inserts_append_only ctx t = true -> Forall (row_ok t l') rows) l
    (append_only_rules ctx t rows).
Proof.
  unfold append_only_rules. destruct (inserts_append_only ctx t); [|done].
  eapply sat_mono; [apply check_rows_ok|]. auto.
Qed.

(** An insert of [rows] into [t] after its rules. *)
Lemma op_rules_safe (t : string) (rows : list Data) c ok l :
  (forall t' data, creates c t' data -> t' = t /\ data ∈ rows) ->
  sat append_safe trivially l
    (do! rules := append_only_rules ctx t rows in or_answer rules output_error (fun _ => answer c ok)).
Proof.
  intros Hc. eapply sat_bind; [apply rules_ok|]. intros l' [[]|e] Hr; simpl; [|done].
  apply sat_answer. intros t' data [-> Hin]%Hc Hw. specialize (Hr eq_refl Hw). rewrite Forall_forall in Hr. auto.
Qed.

(** ** Batches *)

Lemma collections_complete (ws : list BatchWrite.t) (seen : list string) t :
  inserts_append_only ctx t = true ->
  t ∈ seen \/ (exists data, BatchWrite.Create t data ∈ ws) -> t ∈ append_only_collections ctx ws seen.
Proof.
  intros Ht. revert seen. induction ws as [|w ws IH]; simpl; intros seen Hin; [set_solver|].
  destruct w as [c data| | | | |];
    try (apply IH; destruct Hin as [?|(d & [Heq|?]%elem_of_cons)]; [by left | done | right; eauto]).
  apply IH. destruct Hin as [Hin|(d & [Heq|Hin]%elem_of_cons)]; [| |right; eauto]; left.
  - destruct (negb _ && _); set_solver.
  - injection Heq as <- <-. rewrite Ht, andb_true_r. case_bool_decide; simpl; set_solver.
Qed.

Lemma created_rows_complete (ws : list BatchWrite.t) t data : BatchWrite.Create t data ∈ ws -> data ∈ created_rows t ws.
Proof.
  rewrite !list_elem_of_In. intros Hin. apply in_flat_map. exists (BatchWrite.Create t data).
  split; [done|]. rewrite eqs_refl. by left.
Qed.

Lemma check_collections_ok (ts : list string) (ws : list BatchWrite.t) l :
  sat append_safe (fun l' r => r = Ok tt -> forall t, t ∈ ts -> Forall (row_ok t l') (created_rows t ws)) l
    (check_append_only_collections ts ws).
Proof.
  revert l. induction ts as [|t ts IH]; intros l; simpl; [set_solver|].
  eapply sat_bind; [apply check_rows_ok|]. intros l' [[]|e] Hr; simpl; [|done].
  eapply sat_mono; [apply sat_extends, IH|]. intros l2 r [Hts Hsub] Hok t' [-> | Ht']%elem_of_cons; [|by apply Hts].
  eapply Forall_impl; [exact (Hr eq_refl)|]. intros data. by apply row_ok_mono.
Qed.

Lemma upsert_spec_safe req l : sat append_safe trivially l (to_upsert_spec req).
Proof.
  unfold to_upsert_spec. destruct (let? _ := _ in _) as [[]|]; [|done].
  destruct (up_on_conflict req); [done|]. destruct (windowed_counter_row _ _); [done|].
  eapply sat_bind; [by apply (sat_db_error (Q := trivially)) | done].
Qed.

(** Converting a write makes no call and keeps what it creates. *)
Lemma write_op_creates (w : BatchWrite.t) l :
  sat append_safe (fun _ r => forall t data, r = Ok (WriteOp.Create t data) -> w = BatchWrite.Create t data) l (to_write_op w).
Proof.
  destruct w as [c data|c id data|c id|c filters data|c filters|req]; simpl;
    try (intros t d; all_ok; congruence).
  eapply sat_bind; [apply upsert_spec_safe|]. intros l' [cs|e] _; simpl; [|done]. intros t d. congruence.
Qed.

Lemma write_ops_creates (ws : list BatchWrite.t) l :
  sat append_safe (fun _ r => forall ops t data, r = Ok ops -> WriteOp.Create t data ∈ ops -> BatchWrite.Create t data ∈ ws) l
    (to_write_ops ws).
Proof.
  revert l. induction ws as [|w ws IH]; intros l; simpl; [intros ops t data [= <-]; set_solver|].
  eapply sat_bind; [apply write_op_creates|]. intros l' [op|e] Hop; [|done].
  eapply sat_bind; [apply IH|]. intros l2 [ops|e] Hops; simpl; [|done].
  intros ops' t data [= <-] [Heq|Hin]%elem_of_cons; [|right; by eapply Hops].
  subst op. rewrite (Hop t data eq_refl). left.
Qed.

Lemma op_batch_safe body l : sat append_safe trivially l (op_batch ctx body).
Proof.
  unfold op_batch. apply sat_or_answer; [done|]. intros req _.
  eapply sat_bind; [apply check_collections_ok|]. intros l' [[]|e] Hrows; simpl; [|done].
  specialize (Hrows eq_refl). eapply sat_bind; [apply sat_extends, write_ops_creates|].
  intros l2 [ops|e] [Hops Hsub]; simpl; [|done]. apply sat_answer. intros t data Hin Hw. simpl in Hin.
  apply (Hops ops t data eq_refl) in Hin. eapply row_ok_mono; [exact Hsub|].
  specialize (Hrows t (collections_complete _ _ t Hw (or_intror (ex_intro _ data Hin)))).
  rewrite Forall_forall in Hrows. by apply Hrows, created_rows_complete.
Qed.

(** ** Every operation *)

Ltac no_insert :=
  repeat (apply sat_or_answer; [done|]; intros ? ?);
  apply sat_answer; intros ? ? [].

Lemma op_upsert_safe body l : sat append_safe trivially l (op_upsert ctx body).
Proof.
  unfold op_upsert. apply sat_or_answer; [done|]. intros req _. eapply sat_bind; [apply upsert_spec_safe|].
  intros l' [cs|e] _; simpl; [|done]. no_insert.
Qed.

Lemma op_aggregate_safe body l : sat append_safe trivially l (op_aggregate ctx body).
Proof. unfold op_aggregate. apply sat_or_answer; [done|]. intros req _. destruct (ar_aggregates req); [done|]. no_insert. Qed.

Lemma op_create_safe body l : sat append_safe trivially l (op_create ctx body).
Proof.
  unfold op_create. do 2 (apply sat_or_answer; [done|]; intros ? _). apply op_rules_safe.
  intros t data [<- <-]. set_solver.
Qed.

Lemma op_create_many_safe body l : sat append_safe trivially l (op_create_many ctx body).
Proof.
  unfold op_create_many. do 2 (apply sat_or_answer; [done|]; intros ? _). apply op_rules_safe.
  intros t data [<- Hin]. done.
Qed.

Lemma op_insert_guarded_safe body l : sat append_safe trivially l (op_insert_guarded ctx body).
Proof.
  unfold op_insert_guarded. do 3 (apply sat_or_answer; [done|]; intros ? _). apply op_rules_safe.
  intros t data [<- <-]. set_solver.
Qed.

Lemma all_ops_safe : Forall (fun op => forall body l, sat append_safe trivially l (op.2 ctx body)) DB_OPS.
Proof.
  unfold DB_OPS. repeat first [ apply List.Forall_nil | apply List.Forall_cons ]; intros body l; cbn [snd];
    solve [ apply op_batch_safe | apply op_upsert_safe | apply op_aggregate_safe | apply op_create_safe
          | apply op_create_many_safe | apply op_insert_guarded_safe
          | match goal with |- sat _ _ _ ?t => let op := head t in unfold op end; no_insert ].
Qed.

(** A caller that may append to a table but not write it inserts rows -
    singly, in bulk, guarded or in a batch - only after the service reported
    the table's columns, only with columns it reported, and never a value for
    [id], [created_at] or [updated_at], which the report includes. *)
Theorem append_only_inserts (msg : Message) (body : string) (before : list Event) (c : ServiceCall) (t : string)
    (data : Data) :
  asks (handle_op ctx msg body) before c -> creates c t data ->
  resource_access_admitted ctx t ResourceType.Db ResourceAccess.Write = false ->
  (forall k, k ∈ map fst data -> k ∉ ["id"; "created_at"; "updated_at"]) /\
  exists existing : list string, existT (CallSchemaColumns t) (Ok existing) ∈ before /\
    forall k, k ∈ ["id"; "created_at"; "updated_at"] ++ map fst data -> k ∈ existing.
Proof.
  intros Ha Hc Hw. apply (sat_asks _ _ _ _ _ Ha [] (handle_op_sat ctx _ _ _ all_ops_safe) t data Hc).
  unfold inserts_append_only. by rewrite Hw.
Qed.
End Append.
