(* ===== verification/DatabaseErrors.v ===== *)
(** How the database handler reports failures: what two services' hidden
    texts differ in never shows in an answer, and each failure the runtime
    classes inits by is noted in the attempt the handler runs under. *)

From S2P Require Import Prelude CoreTypes Grants Wrap Slot Text Streams Handlers InitAttempts DatabaseTypes.
From S2P Require Import DatabaseConvert DatabaseHandler DatabaseFacts DatabaseProps.

Section Errors.
  Context `{DatabaseCodec} `{DebugFormat} `{JsonCrate} (ctx : CallContext).

(** ** Confidentiality *)

(** The outcomes of schema statements a caller is told in the driver's own
    words: a text that has one of two phrases in it, in whatever case. *)
Definition phrase_in (phrase msg : string) : Prop := exists before after, to_ascii_lowercase msg = before +:+ phrase +:+ after.
Definition schema_outcome (msg : string) : Prop := phrase_in "duplicate column name" msg \/ phrase_in "already exists" msg.

(** Two failures that differ only in text a caller must not see: a
    constraint's, a connection's, another session's, or an internal one that
    is no schema outcome. What an argument's failure and a spent budget say is
    for the caller. *)
Definition same_but_hidden (e e' : DatabaseError) : Prop :=
  match e, e' with
  | NotFound, NotFound | AlreadyExists _, AlreadyExists _ | Unavailable _, Unavailable _ | Contended _, Contended _ => True
  | InvalidArgument msg, InvalidArgument msg' | CallBudgetExhausted msg, CallBudgetExhausted msg' => msg = msg'
  | (Internal msg | Other msg), (Internal msg' | Other msg') =>
      msg = msg' \/ (~ schema_outcome msg /\ ~ schema_outcome msg')
  | _, _ => False
  end.

(** A DDL transaction hides only a connection's and another session's text: a
    failed statement's, a constraint's included, is answered as it is. *)
Definition same_transaction (e e' : TransactionError) : Prop :=
  te_statement e = te_statement e' /\
  match te_error e, te_error e' with
  | Unavailable _, Unavailable _ | Contended _, Contended _ => True
  | error, error' => error = error'
  end.

Definition failures_agree (c : ServiceCall) : ServiceFailure c -> ServiceFailure c -> Prop :=
  match c with CallExecRawTransaction _ => same_transaction | _ => same_but_hidden end.

Definition answers_agree (c : ServiceCall) (r r' : ServiceAnswer c) : Prop :=
  match r, r' with
  | Ok v, Ok v' => v = v'
  | Err e, Err e' => failures_agree c e e'
  | _, _ => False
  end.

(** A program that tells no two agreeing answers apart. *)
Fixpoint discreet {A} (p : DbProg A) : Prop :=
  match p with
  | Done _ => True
  | Ask c k => (forall r r', answers_agree c r r' -> k r = k r') /\ forall r, discreet (k r)
  | NoteAnswer _ p => discreet p
  end.

Lemma discreet_bind {A B} (p : DbProg A) (k : A -> DbProg B) :
  discreet p -> (forall a, discreet (k a)) -> discreet (db_bind p k).
Proof.
  induction p as [a|c k' IH|n p IH]; simpl; intros Hp Hk; [auto | | auto]. destruct Hp as [Heq Hp].
  split; [|auto]. intros r r' Hr. by rewrite (Heq r r').
Qed.

Lemma discreet_or_answer {A E} (r : result A E) refuse k :
  (forall a, discreet (k a)) -> discreet (or_answer r refuse k).
Proof. destruct r; simpl; auto. Qed.

Lemma preserved_outcome msg : is_preserved_db_error msg = true <-> schema_outcome msg.
Proof.
  unfold is_preserved_db_error, schema_outcome, phrase_in, PRESERVED_DB_ERROR_SUBSTRINGS. cbn [existsb].
  by rewrite orb_false_r, orb_true_iff, !contains_spec.
Qed.

Lemma hidden_not_preserved msg : ~ schema_outcome msg -> is_preserved_db_error msg = false.
Proof. intros Hn. apply not_true_iff_false. by rewrite preserved_outcome. Qed.

Lemma db_error_hides e e' : same_but_hidden e e' -> db_error_to_wafer e = db_error_to_wafer e'.
Proof.
  unfold db_error_to_wafer, observed.
  destruct e, e'; simpl; try done; try (by intros ->);
    (intros [-> | [H3%hidden_not_preserved H4%hidden_not_preserved]]; [done | unfold scrubbed_message; by rewrite H3, H4]).
Qed.

Lemma transaction_error_hides e e' : same_transaction e e' -> transaction_error_to_wafer e = transaction_error_to_wafer e'.
Proof.
  destruct e as [i e], e' as [i' e']. intros [Hi He]. simpl in *. subst i'.
  unfold transaction_error_to_wafer, observed; simpl. by destruct e, e'; simplify_eq.
Qed.

Lemma failure_hides c e e' : failures_agree c e e' -> failure c e = failure c e'.
Proof. destruct c; simpl in *; (apply db_error_hides || apply transaction_error_hides). Qed.

Lemma discreet_db_error e : discreet (db_error_to_wafer e).
Proof. unfold db_error_to_wafer, observed. by destruct (attempt_answer e). Qed.

Lemma discreet_failure c e : discreet (failure c e).
Proof.
  destruct c; simpl in *; try apply discreet_db_error.
  unfold transaction_error_to_wafer, observed. by destruct (attempt_answer (te_error e)).
Qed.

Lemma discreet_answer c ok : discreet (answer c ok).
Proof.
  split.
  - intros [v|e] [v'|e']; simpl; try done; [by intros -> | intros He; by rewrite (failure_hides c e e')].
  - intros [v|e]; simpl; [done|]. by apply discreet_bind; [apply discreet_failure|].
Qed.

Lemma discreet_rows t rows : discreet (check_append_only_rows t rows).
Proof.
  unfold check_append_only_rows. destruct (append_only_names _ _ _); [|done]. split.
  - intros [v|e] [v'|e']; cbn; try done; [by intros -> | intros He; by rewrite (db_error_hides e e')].
  - intros [v|e]; [done|]. by apply discreet_bind; [apply discreet_db_error|].
Qed.

Lemma discreet_rules t rows : discreet (append_only_rules ctx t rows).
Proof. unfold append_only_rules. destruct (inserts_append_only ctx t); [apply discreet_rows | done]. Qed.

Lemma discreet_collections ts ws : discreet (check_append_only_collections ts ws).
Proof.
  induction ts as [|t ts IH]; simpl; [done|]. apply discreet_bind; [apply discreet_rows|]. by intros [[]|].
Qed.

Lemma discreet_upsert_spec req : discreet (to_upsert_spec req).
Proof.
  unfold to_upsert_spec. destruct (let? _ := _ in _) as [[]|]; [|done]. destruct (up_on_conflict req); [done|].
  destruct (windowed_counter_row _ _); [done|]. by apply discreet_bind; [apply discreet_db_error|].
Qed.

Lemma discreet_write_op w : discreet (to_write_op w).
Proof. destruct w; simpl; try done. by apply discreet_bind; [apply discreet_upsert_spec|]. Qed.

Lemma discreet_write_ops ws : discreet (to_write_ops ws).
Proof.
  induction ws as [|w ws IH]; simpl; [done|]. apply discreet_bind; [apply discreet_write_op|].
  intros [op|e]; [|done]. by apply discreet_bind.
Qed.

Create HintDb discreet.
Hint Resolve discreet_bind discreet_or_answer discreet_answer discreet_rules discreet_collections
  discreet_upsert_spec discreet_write_ops : discreet.

Lemma all_ops_discreet : Forall (fun op => forall body, discreet (op.2 ctx body)) DB_OPS.
Proof.
  unfold DB_OPS. repeat first [ apply List.Forall_nil | apply List.Forall_cons ]; intros body; cbn [snd];
    match goal with |- discreet ?t => let op := head t in unfold op end; eauto 12 with discreet.
  apply discreet_or_answer. intros req. destruct (ar_aggregates req); [done|]. eauto with discreet.
Qed.

(** The operation a message names. *)
Lemma handle_op_all (P : DbProg OutputStream -> Prop) msg body :
  (forall out, P (Done out)) -> Forall (fun op => forall body, P (op.2 ctx body)) DB_OPS -> P (handle_op ctx msg body).
Proof.
  intros Hd Hall. unfold handle_op. induction Hall as [|[name op] ops Hop Hops IH]; simpl; [apply Hd|].
  destruct (name =s msg_kind msg); [apply Hop | apply IH].
Qed.

Lemma discreet_run {S S' A} (R : S -> S' -> Prop) (service : DatabaseService S) (service' : DatabaseService S')
    record (p : DbProg A) :
  (forall s s' c, R s s' -> R (service c s).1 (service' c s').1 /\ answers_agree c (service c s).2 (service' c s').2) ->
  discreet p -> forall s s' h, R s s' ->
  (run_db service record p s h).1.2 = (run_db service' record p s' h).1.2 /\
  (run_db service record p s h).2 = (run_db service' record p s' h).2.
Proof.
  intros Hserv. induction p as [a|c k IH|n p IH]; simpl; intros Hp s s' h HR; [done | | by apply IH].
  destruct Hp as [Heq Hp]. destruct (Hserv s s' c HR) as [HR' Hans].
  destruct (service c s) as [s1 r], (service' c s') as [s1' r']. simpl in *. rewrite (Heq r r' Hans). by apply IH.
Qed.

(** C21: Hidden texts stay hidden. Against two services that answer alike, but
    for the text of failures a caller must not see - a violated constraint's, a
    connection's, a busy session's, and any internal one that has neither
    "duplicate column name" nor "already exists" in it, in whatever case - the
    handler answers every message alike and notes alike; an internal failure
    with one of those phrases is answered with its own text. Nothing is hidden
    of what a failure says of the caller's arguments or of a spent budget, and
    of a DDL transaction's failure only a connection's and a busy session's
    text. *)
Theorem hidden_errors_stay_hidden {S S'} (R : S -> S' -> Prop) (service : DatabaseService S) (service' : DatabaseService S')
    (msg : Message) (body : string) (record : option InitAttemptRecord) (s : S) (s' : S') (h : Store) :
  (forall s s' c, R s s' -> R (service c s).1 (service' c s').1 /\ answers_agree c (service c s).2 (service' c s').2) ->
  R s s' ->
  (handle_message service record ctx msg body s h).1.2 = (handle_message service' record ctx msg body s' h).1.2 /\
  (handle_message service record ctx msg body s h).2 = (handle_message service' record ctx msg body s' h).2 /\
  (forall text, schema_outcome text ->
     db_error_to_wafer (Internal text) = Done (error_new ErrorCode.Internal text) /\
     db_error_to_wafer (Other text) = Done (error_new ErrorCode.Internal text)).
Proof.
  intros Hserv HR. apply and_assoc. split.
  2: { intros text Ht%preserved_outcome. unfold db_error_to_wafer, observed. cbn [attempt_answer db_bind]. unfold scrubbed_message. by rewrite Ht. }
 pose proof (handle_op_all discreet msg body (fun _ => I) all_ops_discreet) as Hd.
  unfold handle_message. destruct record as [r|]; [|by apply (discreet_run R)].
  destruct (call h r) as [h1 c].
  destruct (discreet_run R service service' (Some r) _ Hserv Hd s s' h1 HR) as [Hh Hout].
  destruct (run_db service (Some r) _ s h1) as [[s1 h2] out], (run_db service' (Some r) _ s' h1) as [[s1' h2'] out'].
  simpl in *. by rewrite Hh.
Qed.
End Errors.

(** * The database handler under an init attempt: it notes exactly the answers
    its calls failed with, one by one, and its call is no longer in flight
    once it is answered. *)

(** The error a failed call carries. *)
Definition failure_error (c : ServiceCall) : ServiceFailure c -> DatabaseError :=
  match c with CallExecRawTransaction _ => te_error | _ => id end.

(** What an answer says about the database. *)
Definition event_answer (e : Event) : option DatabaseAnswer :=
  match projT2 e with Ok _ => None | Err f => attempt_answer (failure_error _ f) end.

(** The calls of a run, with their answers. *)
Fixpoint run_log {S A} (service : DatabaseService S) (p : DbProg A) (s : S) : list Event :=
  match p with
  | Done _ => []
  | Ask c k => let '(s, r) := service c s in existT c r :: run_log service (k r) s
  | NoteAnswer _ p => run_log service p s
  end.

(** A program that notes what it owes, and each answer a call fails with,
    before it calls again or ends. *)
Fixpoint noted {A} (owed : option DatabaseAnswer) (p : DbProg A) : Prop :=
  match p with
  | Done _ => owed = None
  | Ask c k => owed = None /\ forall r, noted (event_answer (existT c r)) (k r)
  | NoteAnswer answer p => owed = Some answer /\ noted None p
  end.

Lemma noted_bind {A B} owed (p : DbProg A) (k : A -> DbProg B) :
  noted owed p -> (forall a, noted None (k a)) -> noted owed (db_bind p k).
Proof.
  revert owed. induction p as [a|c k' IH|n p IH]; simpl; intros owed Hp Hk.
  - subst owed. apply Hk.
  - destruct Hp as [-> Hp]. auto.
  - destruct Hp as [-> Hp]. auto.
Qed.

Lemma noted_or_answer {A E} (r : result A E) refuse k : (forall a, noted None (k a)) -> noted None (or_answer r refuse k).
Proof. destruct r; simpl; auto. Qed.

(** ** Runs *)

Definition worst_of (w : option DatabaseAnswer) (l : list DatabaseAnswer) : option DatabaseAnswer := foldl worst_max w l.

Definition owes (owed : option DatabaseAnswer) : list DatabaseAnswer := match owed with Some a => [a] | None => [] end.

Lemma update_open (s : Store) (r : InitAttemptRecord) (u : Update) :
  NoDup (lineage r) -> closed (state_at s (own_state r)) = false ->
  state_at (update_lineage s r u).1 (own_state r) = apply_update u (state_at s (own_state r)).
Proof.
  rewrite lineage_cons. intros [Hn _]%NoDup_cons Hop. unfold update_lineage. rewrite Hop. simpl.
  rewrite update_outer_frame by done. by rewrite state_with_same.
Qed.

Lemma note_open (s : Store) (r : InitAttemptRecord) (a : DatabaseAnswer) :
  NoDup (lineage r) -> closed (state_at s (own_state r)) = false ->
  state_at (note s r a) (own_state r)
  = mkRecordState (worst_max (worst (state_at s (own_state r))) a) (in_flight (state_at s (own_state r))) false.
Proof. intros Hn Hop. unfold note. rewrite update_open by done. unfold apply_update. by rewrite Hop. Qed.

Lemma run_db_notes {S A} (service : DatabaseService S) (r : InitAttemptRecord) (p : DbProg A) :
  NoDup (lineage r) -> forall owed s h, noted owed p -> closed (state_at h (own_state r)) = false ->
  state_at (run_db service (Some r) p s h).1.2 (own_state r)
  = mkRecordState (worst_of (worst (state_at h (own_state r))) (owes owed ++ omap event_answer (run_log service p s)))
      (in_flight (state_at h (own_state r))) false.
Proof.
  intros Hn. induction p as [a|c k IH|n p IH]; simpl; intros owed s h Hp Hop.
  - subst owed. simpl. rewrite <- Hop. by destruct (state_at h (own_state r)).
  - destruct Hp as [-> Hp]. destruct (service c s) as [s' a]. rewrite (IH a _ s' h (Hp a) Hop). simpl.
    f_equal. by destruct (event_answer (existT c a)).
  - destruct Hp as [-> Hp]. rewrite (IH None) by (done || by rewrite note_open). by rewrite note_open.
Qed.

Section Attempts.
  Context `{DatabaseCodec} `{DebugFormat} `{JsonCrate} (ctx : CallContext).

Lemma noted_db_error e : noted (attempt_answer e) (db_error_to_wafer e).
Proof. unfold db_error_to_wafer, observed. by destruct (attempt_answer e). Qed.

Lemma noted_failure c (e : ServiceFailure c) : noted (attempt_answer (failure_error c e)) (failure c e).
Proof.
  destruct c; simpl in *; try apply noted_db_error.
  unfold transaction_error_to_wafer, observed. by destruct (attempt_answer (te_error e)).
Qed.

Lemma noted_answer c ok : noted None (answer c ok).
Proof. split; [done|]. intros [v|e]; simpl; [done|]. by apply noted_bind; [apply noted_failure|]. Qed.

Lemma noted_rows t rows : noted None (check_append_only_rows t rows).
Proof.
  unfold check_append_only_rows. destruct (append_only_names _ _ _); [|done]. split; [done|].
  intros [v|e]; [done|]. by apply noted_bind; [apply noted_db_error|].
Qed.

Lemma noted_rules t rows : noted None (append_only_rules ctx t rows).
Proof. unfold append_only_rules. destruct (inserts_append_only ctx t); [apply noted_rows | done]. Qed.

Lemma noted_collections ts ws : noted None (check_append_only_collections ts ws).
Proof. induction ts as [|t ts IH]; simpl; [done|]. apply noted_bind; [apply noted_rows|]. by intros [[]|]. Qed.

Lemma counter_values_error column data id value e :
  windowed_counter_values column data id value = Err e -> attempt_answer e = None.
Proof.
  revert id value. induction data as [|[c v] data IH]; simpl; intros id value; [done|].
  destruct (c =s "id"); [|destruct (c =s column)]; [destruct id | destruct value | by intros [= <-]];
    try (by intros [= <-]); destruct v; try (by intros [= <-]); apply IH.
Qed.

Lemma counter_row_error data columns e : windowed_counter_row data columns = Err e -> attempt_answer e = None.
Proof.
  unfold windowed_counter_row. destruct columns as [|only [|c cs]]; simpl; try (by intros [= <-]).
  destruct (only =s "id"); simpl; [by intros [= <-]|].
  destruct (windowed_counter_values only data None None) as [[[id|] [v|]]|e'] eqn:E; simpl; intros Heq;
    try discriminate; injection Heq as <-; try done. by apply counter_values_error in E.
Qed.

Lemma noted_upsert_spec req : noted None (to_upsert_spec req).
Proof.
  unfold to_upsert_spec. destruct (let? _ := _ in _) as [[]|]; [|done]. destruct (up_on_conflict req); [done|].
  destruct (windowed_counter_row _ _) as [|e] eqn:E; [done|]. apply noted_bind; [|done].
  rewrite <- (counter_row_error _ _ _ E). apply noted_db_error.
Qed.

Lemma noted_write_op w : noted None (to_write_op w).
Proof. destruct w; simpl; try done. by apply noted_bind; [apply noted_upsert_spec|]. Qed.

Lemma noted_write_ops ws : noted None (to_write_ops ws).
Proof.
  induction ws as [|w ws IH]; simpl; [done|]. apply noted_bind; [apply noted_write_op|].
  intros [op|e]; [|done]. by apply noted_bind.
Qed.

Create HintDb noted.
Hint Resolve noted_bind noted_or_answer noted_answer noted_rules noted_collections noted_upsert_spec noted_write_ops : noted.

Lemma all_ops_noted : Forall (fun op => forall body, noted None (op.2 ctx body)) DB_OPS.
Proof.
  unfold DB_OPS. repeat first [ apply List.Forall_nil | apply List.Forall_cons ]; intros body; cbn [snd];
    match goal with |- noted _ ?t => let op := head t in unfold op end; eauto 12 with noted.
  apply noted_or_answer. intros req. destruct (ar_aggregates req); [done|]. eauto with noted.
Qed.

(** Run under an open init attempt, the handler leaves the attempt's worst
    answer as the greatest of what it was and every answer one of its calls
    failed with - missing none, adding none - and leaves no call in flight. *)
Theorem attempt_sees_failures {S} (service : DatabaseService S) (r : InitAttemptRecord) (msg : Message) (body : string)
    (s : S) (h : Store) :
  NoDup (lineage r) -> closed (state_at h (own_state r)) = false ->
  let after := state_at (handle_message service (Some r) ctx msg body s h).1.2 (own_state r) in
  let log := run_log service (handle_op ctx msg body) s in
  worst after = worst_of (worst (state_at h (own_state r))) (omap event_answer log) /\
  in_flight after = in_flight (state_at h (own_state r)).
Proof.
  intros Hn Hop. unfold handle_message, call.
  pose proof (update_open h r CallStarts Hn Hop) as Hstart.
  assert (Hc : (update_lineage h r CallStarts).2 = true) by (unfold update_lineage; by rewrite Hop).
  destruct (update_lineage h r CallStarts) as [h1 c]. simpl in Hstart, Hc. subst c.
  pose proof (handle_op_all ctx (noted None) msg body (fun _ => eq_refl) all_ops_noted) as Hp.
  pose proof (run_db_notes service r _ Hn None s h1 Hp) as Hrun. rewrite Hstart in Hrun. simpl in Hrun.
  specialize (Hrun Hop). destruct (run_db service (Some r) _ s h1) as [[s' h2] out]. simpl in *.
  unfold drop_call. simpl. rewrite lineage_cons. simpl.
  assert (Hframe : forall cs h', own_state r ∉ cs ->
            state_at (foldl (fun s r => with_state s r answered) h' cs) (own_state r) = state_at h' (own_state r)).
  { induction cs as [|c cs IH]; intros h' Hc; simpl; [done|]. rewrite IH by set_solver.
    apply state_with_other. set_solver. }
  rewrite lineage_cons in Hn. apply NoDup_cons in Hn as [Hn _].
  rewrite Hframe, state_with_same, Hrun by done. simpl. split; [done | lia].
Qed.
End Attempts.
