(* ===== verification/ServiceClients.v ===== *)
(** What service clients share ([wafer-core/src/clients/mod.rs], the native
    path): the request message with its WRAP metadata, a buffered call, and
    reading a header frame and a typed stream of frames off an answer.

    The path inside a WASM guest, and typed clients that forward a received
    message, are not modelled here. *)

From S2P Require Import Prelude CoreTypes Streams Requests.

Definition META_WRAP_RESOURCE : string := "wrap.resource".
Definition META_WRAP_ACCESS : string := "wrap.access".
Definition META_WRAP_RESOURCE_TYPE : string := "wrap.resource_type".

(** [apply_wrap_meta]. *)
Definition apply_wrap_meta (msg : Message) (resource : option string) (is_write : bool)
    (resource_type : option string) : Message :=
  match resource with
  | None => msg
  | Some res =>
      let msg := set_meta msg META_WRAP_RESOURCE res in
      let msg := set_meta msg META_WRAP_ACCESS (if is_write then "write" else "read") in
      match resource_type with Some rt => set_meta msg META_WRAP_RESOURCE_TYPE rt | None => msg end
  end.

(** [build_service_message]. *)
Definition build_service_message (kind : string) (resource : option string) (is_write : bool)
    (resource_type : option string) : Message :=
  apply_wrap_meta (set_meta (message_new kind) META_REQ_ACTION kind) resource is_write resource_type.

(** [collect_response_body]. *)
Definition collect_response_body (out : OutputStream) : result string WaferError :=
  match collect_buffered out with
  | Ok buf => Ok (br_body buf)
  | Err (TnError e) => Err e
  | Err (TnDrop _) => Err (error_new ErrorCode.Internal "block returned Drop")
  | Err (TnHalt _) =>
      Err (error_new ErrorCode.Internal "block returned Halt (service clients do not short-circuit flows)")
  | Err (TnContinue _) => Err (error_new ErrorCode.Internal "block returned Continue")
  | Err Malformed => Err (error_new ErrorCode.Internal "malformed output stream")
  end.

(** [decode]; the codec's error as text. *)
Definition decode_reply {T} (decode : string -> result T string) (data : string) : result T WaferError :=
  match decode data with
  | Ok v => Ok v
  | Err e => Err (error_new ErrorCode.Internal ("decode error: " +:+ e))
  end.

(** ** Calls *)

Section Calls.
  (** [Context::call_block], over the state of whoever answers. *)
  Context {S : Type} (call_block : string -> Message -> string -> S -> S * OutputStream).

Definition Client (A : Type) : Type := S -> S * result A WaferError.

Definition client_ret {A} (r : result A WaferError) : Client A := fun s => (s, r).
Definition client_bind {A B} (c : Client A) (k : A -> Client B) : Client B := fun s =>
  match c s with (s, Ok a) => k a s | (s, Err e) => (s, Err e) end.

(** [call_service_streaming]. *)
Definition call_service_streaming (block kind : string) (payload : result string WaferError) (resource : option string)
    (is_write : bool) (resource_type : option string) : Client OutputStream := fun s =>
  match payload with
  | Err e => (s, Err e)
  | Ok payload =>
      let '(s, out) := call_block block (build_service_message kind resource is_write resource_type) payload s in
      (s, Ok out)
  end.

(** [call_service]. *)
Definition call_service (block kind : string) (payload : result string WaferError) (resource : option string)
    (is_write : bool) (resource_type : option string) : Client string :=
  client_bind (call_service_streaming block kind payload resource is_write resource_type)
    (fun out => client_ret (collect_response_body out)).
End Calls.

(** ** Frames *)

(** [read_header_frame]: the header, and the events after it. *)
Fixpoint read_header_frame {H} (decode : string -> result H string) (events : list StreamEvent) (context : string) :
    result (H * list StreamEvent) WaferError :=
  let internal text := error_new ErrorCode.Internal (context +:+ text) in
  match events with
  | [] => Err (internal ": stream ended before header frame")
  | Chunk bytes :: events =>
      match decode bytes with
      | Ok h => Ok (h, events)
      | Err e => Err (internal (" header decode: " +:+ e))
      end
  | EvMeta _ :: events => read_header_frame decode events context
  | EvError e :: _ => Err e
  | EvDrop _ :: _ => Err (internal ": block dropped before header frame")
  | EvContinue msg :: _ => Err (internal (": unexpected Continue before header frame (kind: " +:+ msg_kind msg +:+ ")"))
  | EvHalt _ _ :: _ => Err (internal ": block halted before header frame")
  | Complete _ :: _ => Err (internal ": stream complete before header frame")
  end.

(** The body loop of [buffered_header_and_body]. *)
Fixpoint buffered_body (events : list StreamEvent) (body context : string) : result string WaferError :=
  let internal text := error_new ErrorCode.Internal (context +:+ text) in
  match events with
  | [] => Err (internal ": stream ended without terminal event")
  | Chunk bytes :: events => buffered_body events (body +:+ bytes) context
  | EvMeta _ :: events => buffered_body events body context
  | Complete _ :: _ => Ok body
  | EvError e :: _ => Err e
  | EvDrop _ :: _ => Err (internal ": block dropped")
  | EvHalt _ _ :: _ => Err (internal ": block halted")
  | EvContinue msg :: _ => Err (internal (": unexpected Continue (kind: " +:+ msg_kind msg +:+ ")"))
  end.

(** [buffered_header_and_body]. *)
Definition buffered_header_and_body {H} (decode : string -> result H string) (out : OutputStream) (context : string) :
    result (H * string) WaferError :=
  let? header := read_header_frame decode (stream_events out) context in
  let? body := buffered_body header.2 "" context in
  Ok (header.1, body).

(** [NativeTypedFrameStream::poll_next], polled to its end: the items it
    yields. A frame that does not decode is an item, and the stream goes on. *)
Fixpoint typed_frames {T} (decode : string -> result T string) (events : list StreamEvent) (context : string) :
    list (result T WaferError) :=
  let internal text := Err (error_new ErrorCode.Internal (context +:+ text)) in
  match events with
  | [] => [internal ": stream ended without terminal event"]
  | Chunk bytes :: events =>
      match decode bytes with
      | Ok v => Ok v
      | Err e => internal (" frame decode: " +:+ e)
      end :: typed_frames decode events context
  | EvMeta _ :: events => typed_frames decode events context
  | Complete _ :: _ => []
  | EvError e :: _ => [Err e]
  | EvDrop _ :: _ => [internal ": handler returned Drop"]
  | EvContinue msg :: _ => [internal (": handler returned Continue (kind: " +:+ msg_kind msg +:+ ")")]
  | EvHalt _ _ :: _ => [internal ": handler returned Halt"]
  end.
