(* ===== verification/DatabaseClient.v ===== *)
(** The database client ([wafer-core/src/clients/database.rs]): each function
    as the request it sends and the reply it reads, and the helpers built on
    them. *)

From stdpp Require Import pretty.
From S2P Require Import Prelude CoreTypes Grants Wrap Text Streams ServiceClients InitAttempts DatabaseTypes.

Definition BLOCK : string := "wafer-run/database".
Definition LIST_ALL_MAX_ROWS : N := 10000.

(** ** To the wire *)

Definition leaf_def (f : Filter) : FilterNode.t :=
  FilterNode.Leaf (mkFilterDef (f_field f) (FilterOp.as_wire (f_operator f)) (f_value f) None).

(** [to_wire_filters]. *)
Definition to_wire_filters (filters : list Filter) : list FilterNode.t := map leaf_def filters.

(** [filter_tree_to_wire_node]. *)
Fixpoint filter_tree_to_wire_node (tree : FilterTree.t) : FilterNode.t :=
  match tree with
  | FilterTree.Leaf f => leaf_def f
  | FilterTree.ColumnCompare f =>
      FilterNode.Leaf (mkFilterDef (cf_field f) (FilterOp.as_wire (ColumnCompareOp.as_filter_op (cf_operator f)))
                         VNull (Some (cf_column f)))
  | FilterTree.All children => FilterNode.All (map filter_tree_to_wire_node children)
  | FilterTree.Any children => FilterNode.Any (map filter_tree_to_wire_node children)
  end.

(** [list_wire_filters]. *)
Definition list_wire_filters (opts : ListOptions) : list FilterNode.t :=
  to_wire_filters (lo_filters opts)
  ++ match lo_filter_tree opts with Some tree => map filter_tree_to_wire_node tree | None => [] end.

(** [to_wire_guards]. *)
Definition to_wire_guard (guard : CapGuard.t) : CapGuardDef.t :=
  match guard with
  | CapGuard.CountBelow filters cap => CapGuardDef.CountBelow (to_wire_filters filters) cap
  | CapGuard.SumAtMost field filters add cap => CapGuardDef.SumAtMost field (to_wire_filters filters) add cap
  end.
Definition to_wire_guards (guards : list CapGuard.t) : list CapGuardDef.t := map to_wire_guard guards.

(** [to_wire_sort]. *)
Definition to_wire_sort (sort : list SortField) : list SortFieldDef :=
  map (fun s => mkSortFieldDef (sf_field s) (sf_desc s)) sort.

(** ** The codec, from the client's side *)

Inductive DbRequest :=
| ReqGet (r : GetRequest) | ReqList (r : ListRequest) | ReqCreate (r : CreateRequest) | ReqCreateMany (r : CreateManyRequest)
| ReqBatch (r : BatchRequest) | ReqInsertGuarded (r : InsertGuardedRequest) | ReqUpdateGuarded (r : UpdateGuardedRequest)
| ReqUpdate (r : UpdateRequest) | ReqDelete (r : DeleteRequest) | ReqWhere (r : WhereRequest) | ReqSum (r : SumRequest)
| ReqRaw (r : RawRequest) | ReqDdlTransaction (r : DdlTransactionRequest) | ReqUpdateWhere (r : UpdateWhereRequest)
| ReqIncrement (r : IncrementFieldWhereRequest) | ReqUpsert (r : UpsertRequest) | ReqAggregate (r : AggregateRequest)
| ReqEnsureTable (table : TableDef) | ReqAddColumn (r : AddColumnRequest) | ReqTable (r : TableRequest) | ReqCatalogTables.

Class DatabaseClientCodec := {
  encode_request : DbRequest -> result string WaferError;
  decode_record : string -> result DbRecord string;
  decode_record_list : string -> result RecordList string;
  decode_records : string -> result (list DbRecord) string;
  decode_batch_response : string -> result (list WriteOutcome.t) string;
  decode_insert_guarded_response : string -> result GuardedInsert.t string;
  decode_update_guarded_response : string -> result GuardedUpdate.t string;
  (** [CreateManyResponse], [ExecRawResponse]: [rows_affected]. *)
  decode_rows_affected : string -> result Z string;
  (** [CountResponse], [DeleteWhereCountResponse], [UpdateWhereCountResponse]: [count]. *)
  decode_count : string -> result Z string;
  decode_sum_response : string -> result f64 string;
  decode_ddl_transaction_response : string -> result (list Z) string;
  decode_take_where_response : string -> result (list DbRecord) string;
  decode_upsert_response : string -> result (Z * option DbRecord) string;
  decode_schema_op : string -> result string string;
  decode_table_exists : string -> result bool string;
  decode_catalog_tables_response : string -> result (list string) string;
  decode_catalog_columns_response : string -> result (list CatalogColumn) string;
  decode_catalog_row_count : string -> result Z string
}.

Section Client.
  Context `{DatabaseClientCodec} {S : Type} (call_block : string -> Message -> string -> S -> S * OutputStream).

(** [svc!]: the resource's type is always the database's. *)
Definition svc (kind : string) (req : DbRequest) (resource : option string) (is_write : bool) : Client (S := S) string :=
  call_service call_block BLOCK kind (encode_request req) resource is_write (Some "db").

Definition read_reply {T} (decode : string -> result T string) (c : Client string) : Client (S := S) T :=
  client_bind c (fun data => client_ret (decode_reply decode data)).

Definition ignore_reply (c : Client string) : Client (S := S) unit := client_bind c (fun _ => client_ret (Ok tt)).

Definition get (collection id : string) : Client DbRecord :=
  read_reply decode_record (svc "database.get" (ReqGet (mkGet collection id)) (Some collection) false).

Definition list_ (collection : string) (opts : ListOptions) : Client RecordList :=
  read_reply decode_record_list
    (svc "database.list"
       (ReqList (mkList collection (list_wire_filters opts) (to_wire_sort (lo_sort opts)) (lo_limit opts)
                   (lo_offset opts) (lo_skip_count opts) (lo_columns opts)))
       (Some collection) false).

Definition create (collection : string) (data : Data) : Client DbRecord :=
  read_reply decode_record (svc "database.create" (ReqCreate (mkCreate collection data)) (Some collection) true).

Definition create_many (collection : string) (rows : list Data) : Client Z :=
  read_reply decode_rows_affected
    (svc "database.create_many" (ReqCreateMany (mkCreateMany collection rows)) (Some collection) true).

Definition batch (ops : list BatchWrite.t) : Client (list WriteOutcome.t) :=
  read_reply decode_batch_response (svc "database.batch" (ReqBatch (mkBatch ops)) None true).

Definition insert_guarded (collection : string) (data : Data) (guards : list CapGuard.t) : Client GuardedInsert.t :=
  read_reply decode_insert_guarded_response
    (svc "database.insert_guarded" (ReqInsertGuarded (mkInsertGuarded collection data (to_wire_guards guards)))
       (Some collection) true).

Definition update_guarded (collection : string) (filters : list Filter) (data : Data) (guards : list CapGuard.t) :
    Client GuardedUpdate.t :=
  read_reply decode_update_guarded_response
    (svc "database.update_guarded"
       (ReqUpdateGuarded (mkUpdateGuarded collection (to_wire_filters filters) data (to_wire_guards guards)))
       (Some collection) true).

Definition update (collection id : string) (data : Data) : Client DbRecord :=
  read_reply decode_record (svc "database.update" (ReqUpdate (mkUpdate collection id data)) (Some collection) true).

Definition delete_ (collection id : string) : Client unit :=
  ignore_reply (svc "database.delete" (ReqDelete (mkDelete collection id)) (Some collection) true).

Definition count (collection : string) (filters : list Filter) : Client Z :=
  read_reply decode_count
    (svc "database.count" (ReqWhere (mkWhere collection (to_wire_filters filters))) (Some collection) false).

Definition sum (collection field : string) (filters : list Filter) : Client f64 :=
  read_reply decode_sum_response
    (svc "database.sum" (ReqSum (mkSum collection field (to_wire_filters filters))) (Some collection) false).

Definition query_raw (query : string) (args : list Value) : Client (list DbRecord) :=
  read_reply decode_records (svc "database.query_raw" (ReqRaw (mkRaw query args)) (Some RAW_SQL_RESOURCE) false).

Definition exec_raw (query : string) (args : list Value) : Client Z :=
  read_reply decode_rows_affected (svc "database.exec_raw" (ReqRaw (mkRaw query args)) (Some RAW_SQL_RESOURCE) true).

Definition ddl (statement : string) : Client Z :=
  read_reply decode_rows_affected (svc "database.ddl" (ReqRaw (mkRaw statement [])) (Some DDL_RESOURCE) true).

Definition ddl_transaction (statements : list RawStatement) : Client (list Z) :=
  read_reply decode_ddl_transaction_response
    (svc "database.ddl_transaction" (ReqDdlTransaction (mkDdlTransaction statements)) (Some DDL_RESOURCE) true).

Definition ensure_table (table : TableDef) : Client string :=
  read_reply decode_schema_op (svc "database.ensure_table" (ReqEnsureTable table) (Some (td_name table)) true).

Definition add_column (table : string) (column : ColumnDef) : Client string :=
  read_reply decode_schema_op (svc "database.add_column" (ReqAddColumn (mkAddColumn table column)) (Some table) true).

Definition drop_table (table : string) : Client string :=
  read_reply decode_schema_op (svc "database.drop_table" (ReqTable (mkTableRequest table)) (Some table) true).

Definition table_exists (table : string) : Client bool :=
  read_reply decode_table_exists (svc "database.table_exists" (ReqTable (mkTableRequest table)) (Some table) false).

Definition catalog_tables : Client (list string) :=
  read_reply decode_catalog_tables_response
    (svc "database.catalog_tables" ReqCatalogTables (Some RAW_SQL_RESOURCE) false).

Definition catalog_columns (table : string) : Client (list CatalogColumn) :=
  read_reply decode_catalog_columns_response
    (svc "database.catalog_columns" (ReqTable (mkTableRequest table)) (Some RAW_SQL_RESOURCE) false).

Definition catalog_row_count (table : string) : Client Z :=
  read_reply decode_catalog_row_count
    (svc "database.catalog_row_count" (ReqTable (mkTableRequest table)) (Some RAW_SQL_RESOURCE) false).

Definition upsert_request (collection : string) (data : list (string * Value)) (conflict_columns : list string)
    (on_conflict : OnConflict.t) : Client (Z * option DbRecord) :=
  read_reply decode_upsert_response
    (svc "database.upsert" (ReqUpsert (mkUpsertRequest collection data conflict_columns on_conflict))
       (Some collection) true).

Definition upsert collection data conflict_columns on_conflict : Client Z :=
  client_bind (upsert_request collection data conflict_columns on_conflict) (fun resp => client_ret (Ok resp.1)).

Definition upsert_returning collection data conflict_columns on_conflict : Client (option DbRecord) :=
  client_bind (upsert_request collection data conflict_columns on_conflict) (fun resp => client_ret (Ok resp.2)).

Definition aggregate (req : AggregateRequest) : Client (list DbRecord) :=
  read_reply decode_records (svc "database.aggregate" (ReqAggregate req) (Some (ar_collection req)) false).

Definition delete_by_filters (collection : string) (filters : list Filter) : Client unit :=
  ignore_reply
    (svc "database.delete_where" (ReqWhere (mkWhere collection (to_wire_filters filters))) (Some collection) true).

Definition delete_by_filters_count (collection : string) (filters : list Filter) : Client Z :=
  read_reply decode_count
    (svc "database.delete_where_count" (ReqWhere (mkWhere collection (to_wire_filters filters))) (Some collection) true).

Definition take_by_filters (collection : string) (filters : list Filter) : Client (list DbRecord) :=
  read_reply decode_take_where_response
    (svc "database.take_where" (ReqWhere (mkWhere collection (to_wire_filters filters))) (Some collection) true).

Definition update_by_filters (collection : string) (filters : list Filter) (data : Data) : Client unit :=
  ignore_reply
    (svc "database.update_where" (ReqUpdateWhere (mkUpdateWhere collection (to_wire_filters filters) data))
       (Some collection) true).

Definition update_by_filters_count (collection : string) (filters : list Filter) (data : Data) : Client Z :=
  read_reply decode_count
    (svc "database.update_where_count" (ReqUpdateWhere (mkUpdateWhere collection (to_wire_filters filters) data))
       (Some collection) true).

Definition increment_field_where (collection col : string) (delta : Z) (filters : list Filter) : Client Z :=
  read_reply decode_rows_affected
    (svc "database.increment_field_where" (ReqIncrement (mkIncrement collection col delta (to_wire_filters filters)))
       (Some collection) true).

(** ** Helpers *)

Definition field_equals (field : string) (value : Value) : Filter := mkFilter field FilterOp.Equal value.

Definition get_by_field (collection field : string) (value : Value) : Client DbRecord :=
  client_bind
    (list_ collection (mkListOptions [field_equals field value] [] (Some 1%N) 0 true None None))
    (fun result => client_ret (match rl_records result with
                               | r :: _ => Ok r
                               | [] => Err (error_new ErrorCode.NotFound "record not found")
                               end)).

Definition upsert_by_field (collection field : string) (value : Value) (data : Data) : Client DbRecord := fun s =>
  match get_by_field collection field value s with
  | (s, Ok existing) => update collection (dr_id existing) data s
  | (s, Err e) => match we_code e with ErrorCode.NotFound => create collection data s | _ => (s, Err e) end
  end.

Definition list_within_cap (collection : string) (filters : list Filter) (sort : list SortField) : Client (list DbRecord) :=
  client_bind (list_ collection (mkListOptions filters sort (Some (LIST_ALL_MAX_ROWS + 1)%N) 0 true None None))
    (fun result =>
       client_ret (if (LIST_ALL_MAX_ROWS <? N.of_nat (length (rl_records result)))%N
                   then Err (error_new ErrorCode.OutOfRange
                          ("more than " +:+ pretty LIST_ALL_MAX_ROWS +:+ " rows of " +:+ collection
                           +:+ " match; read them with paginated_list"))
                   else Ok (rl_records result))).

Definition list_all (collection : string) (filters : list Filter) : Client (list DbRecord) :=
  list_within_cap collection filters [].
Definition list_sorted (collection : string) (filters : list Filter) (sort : list SortField) : Client (list DbRecord) :=
  list_within_cap collection filters sort.

(** [i64::saturating_mul] of two positive numbers. *)
Definition saturating_mul (a b : Z) : Z := Z.min (a * b) (2 ^ 63 - 1).

Definition paginated_list (collection : string) (page page_size : Z) (filters : list Filter) (sort : list SortField) :
    Client RecordList :=
  let page := if (page <? 1)%Z then 1%Z else page in
  let page_size := if (page_size <? 1)%Z then 20%Z else page_size in
  if (page_size <? 2 ^ 32)%Z
  then list_ collection
         (mkListOptions filters sort (Some (Z.to_N page_size)) (saturating_mul (page - 1) page_size) false None None)
  else client_ret (Err (error_new ErrorCode.InvalidArgument
                          ("page_size " +:+ pretty page_size +:+ " is larger than a list can return"))).

(** [now] is the instant as RFC 3339 text. *)
Definition soft_delete (now : string) (collection id : string) : Client DbRecord :=
  update collection id [("deleted_at", VString now)].

Definition delete_by_field (collection field : string) (value : Value) : Client unit :=
  delete_by_filters collection [field_equals field value].

Definition count_by_field (collection field : string) (value : Value) : Client Z :=
  count collection [field_equals field value].
End Client.
