(* ===== verification/DatabaseClientProps.v ===== *)
(** The database client over the handler: filter trees survive the wire, and
    a client's call is the service's own call, made once, with the same
    arguments and the same result. *)

From stdpp Require Import pretty.
From S2P Require Import Prelude CoreTypes Grants Wrap Slot Dispatch Text Streams Requests Handlers InitAttempts.
From S2P Require Import DatabaseTypes DatabaseConvert DatabaseHandler DatabaseFacts DatabaseProps.
From S2P Require Import DatabaseErrors ServiceClients DatabaseClient.

Section Wire.
  Context `{DebugFormat} `{JsonCrate}.

(** ** Filters survive the wire *)

Lemma as_wire_parses (op : FilterOp.t) : FilterOp.parse_wire (FilterOp.as_wire op) = Ok op.
Proof. by destruct op. Qed.

Lemma column_op_converts (op : ColumnCompareOp.t) :
  ColumnCompareOp.from_filter_op (ColumnCompareOp.as_filter_op op) = Some op.
Proof. by destruct op. Qed.

Lemma check_name_plain (n : string) : is_plain_ident n = true -> check_name n = Ok tt.
Proof. unfold check_name. by intros ->. Qed.

Lemma check_names_plain (l : list string) : plain l -> try_for_each check_name l = Ok tt.
Proof. induction 1 as [|n l Hn Hl IH]; simpl; [done|]. by rewrite check_name_plain. Qed.

Lemma try_map_map {A B E} (f : B -> result A E) (g : A -> B) (l : list A) :
  Forall (fun a => f (g a) = Ok a) l -> try_map f (map g l) = Ok l.
Proof. induction 1 as [|a l Ha Hl IH]; simpl; [done|]. by rewrite Ha, IH. Qed.

Lemma leaf_converts (f : Filter) : is_plain_ident (f_field f) = true -> reference_node (leaf_def f) = Ok (FilterTree.Leaf f).
Proof.
  intros Hf. unfold leaf_def. simpl. unfold convert_leaf; simpl. rewrite as_wire_parses. simpl.
  rewrite check_name_plain by done. by destruct f.
Qed.

(** Induction on filter trees, through groups. *)
Fixpoint tree_ind' (P : FilterTree.t -> Prop) (Hl : forall f, P (FilterTree.Leaf f))
    (Hc : forall f, P (FilterTree.ColumnCompare f))
    (Ha : forall l, Forall P l -> P (FilterTree.All l)) (Hy : forall l, Forall P l -> P (FilterTree.Any l))
    (t : FilterTree.t) {struct t} : P t.
Proof.
  destruct t as [f|f|l|l]; [apply Hl | apply Hc | apply Ha | apply Hy];
    (induction l as [|t l IH]; constructor; [by apply tree_ind' | done]).
Defined.

(** No group of the tree is empty. *)
Fixpoint groups_nonempty (t : FilterTree.t) : Prop :=
  match t with
  | FilterTree.Leaf _ | FilterTree.ColumnCompare _ => True
  | FilterTree.All l | FilterTree.Any l => l <> [] /\ fold_right and True (map groups_nonempty l)
  end.

Lemma all_nonempty (l : list FilterTree.t) : fold_right and True (map groups_nonempty l) <-> Forall groups_nonempty l.
Proof. induction l as [|t l IH]; simpl; [split; constructor|]. by rewrite Forall_cons, IH. Qed.

Lemma group_converts (l : list FilterTree.t) :
  Forall (fun t => plain (node_columns t) -> groups_nonempty t -> reference_node (filter_tree_to_wire_node t) = Ok t) l ->
  plain (flat_map node_columns l) -> Forall groups_nonempty l ->
  try_map reference_node (map filter_tree_to_wire_node l) = Ok l.
Proof.
  intros Hl Hn Hg. apply try_map_map. apply plain_flat_map in Hn. rewrite !Forall_forall in *. intros t Ht. eauto.
Qed.

Lemma tree_converts (t : FilterTree.t) :
  plain (node_columns t) -> groups_nonempty t -> reference_node (filter_tree_to_wire_node t) = Ok t.
Proof.
  induction t as [f|f|l Hl|l Hl] using tree_ind'; cbn [filter_tree_to_wire_node node_columns groups_nonempty].
  - intros [Hf _]%plain_cons _. by apply leaf_converts.
  - intros [Hf [Hc _]%plain_cons]%plain_cons _. simpl. unfold convert_leaf; simpl. rewrite as_wire_parses. simpl.
    rewrite check_name_plain by done. simpl. rewrite column_op_converts. rewrite check_name_plain by done. by destruct f.
  - intros Hn [Hne Hg%all_nonempty]. pose proof (group_converts l Hl Hn Hg) as E.
    destruct l as [|t l]; [done|]. cbn [map] in *. rewrite reference_all, E. done.
  - intros Hn [Hne Hg%all_nonempty]. pose proof (group_converts l Hl Hn Hg) as E.
    destruct l as [|t l]; [done|]. cbn [map] in *. rewrite reference_any, E. done.
Qed.

Lemma forest_converts (ts : list FilterTree.t) :
  plain (tree_columns ts) -> Forall groups_nonempty ts ->
  forest_size (map filter_tree_to_wire_node ts) <= MAX_FILTER_NODES ->
  forest_depth (map filter_tree_to_wire_node ts) <= MAX_FILTER_DEPTH ->
  convert_filter_tree (map filter_tree_to_wire_node ts) = Ok ts.
Proof.
  intros Hn Hg Hs Hd. apply convert_filter_tree_spec. split_and!; [done | done|].
  apply group_converts; [apply Forall_forall; intros t _; apply tree_converts | done | done].
Qed.

Lemma flatten_leaf_trees (fs : list Filter) : flatten_leaves (map FilterTree.Leaf fs) = Ok fs.
Proof. induction fs as [|f fs IH]; simpl; [done|]. by rewrite IH. Qed.

Lemma filters_size (fs : list Filter) : forest_size (to_wire_filters fs) = length fs.
Proof. induction fs as [|f fs IH]; simpl; [done|]. unfold forest_size in *. simpl. by rewrite IH. Qed.

Lemma filters_depth (fs : list Filter) : forest_depth (to_wire_filters fs) <= 1.
Proof. apply max_list_le, Forall_map, Forall_map, Forall_forall. intros f _. simpl. lia. Qed.

(** Flat filters survive the wire. *)
Lemma flat_converts (fs : list Filter) :
  plain (map f_field fs) -> length fs <= MAX_FILTER_NODES -> flat_filters (to_wire_filters fs) = Ok fs.
Proof.
  intros Hn Hl. unfold flat_filters.
  assert (E : convert_filter_tree (to_wire_filters fs) = Ok (map FilterTree.Leaf fs)).
  { apply convert_filter_tree_spec. split_and!.
    - by rewrite filters_size.
    - pose proof (filters_depth fs). unfold MAX_FILTER_DEPTH. lia.
    - unfold plain in Hn. rewrite Forall_map in Hn. induction Hn as [|f fs Hf Hn IH]; [done|].
      cbn [to_wire_filters map try_map]. rewrite leaf_converts by done. simpl in Hl. simpl.
      unfold to_wire_filters in IH. rewrite IH by lia. done. }
  rewrite E. apply flatten_leaf_trees.
Qed.

Definition guard_bounded (g : CapGuard.t) : Prop :=
  match g with CapGuard.CountBelow fs _ | CapGuard.SumAtMost _ fs _ _ => length fs <= MAX_FILTER_NODES end.

Lemma guards_convert (gs : list CapGuard.t) :
  plain (flat_map guard_names gs) -> length gs <= MAX_WRITE_GUARDS -> Forall guard_bounded gs ->
  to_cap_guards (to_wire_guards gs) = Ok gs.
Proof.
  intros Hn Hl Hb. unfold to_cap_guards, to_wire_guards. rewrite length_map.
  rewrite (proj2 (Nat.ltb_ge _ _) Hl). apply try_map_map.
  apply plain_flat_map in Hn. rewrite !Forall_forall in *. intros g Hg. specialize (Hn g Hg). specialize (Hb g Hg).
  destruct g as [fs cap|field fs add cap]; simpl in *.
  - by rewrite flat_converts.
  - apply plain_cons in Hn as [Hf Hn]. rewrite check_name_plain by done. simpl. by rewrite flat_converts.
Qed.

Lemma sort_converts (sort : list SortField) : plain (map sf_field sort) -> convert_sort (to_wire_sort sort) = Ok sort.
Proof.
  intros Hn. unfold convert_sort, to_wire_sort. apply try_map_map. unfold plain in Hn. rewrite Forall_map in Hn.
  eapply Forall_impl; [exact Hn|]. intros s Hs. unfold convert_sort_field. simpl. rewrite check_name_plain by done.
  by destruct s.
Qed.
End Wire.

(** ** The client over the handler *)

(** The error a failed call is reported with. *)
Definition reported (c : ServiceCall) : ServiceFailure c -> WaferError :=
  match c with
  | CallExecRawTransaction _ => fun failed =>
      let e := te_error failed in
      let err := with_optional_detail_code (error_new (database_error_code e) (transaction_message e))
                   (database_detail_code e) in
      match te_statement failed with
      | Some index =>
          mkError (we_code err) (we_message err) (meta_set (we_meta err) META_FAILED_STATEMENT_INDEX (pretty index))
      | None => err
      end
  | _ => fun e => with_optional_detail_code (error_new (database_error_code e) (scrubbed_message e)) (database_detail_code e)
  end.

Section Stack.
  Context `{DatabaseCodec} `{DatabaseClientCodec} `{DebugFormat} `{JsonCrate} (ctx : CallContext).
  Context {S : Type} (service : DatabaseService S) (call_block : string -> Message -> string -> S -> S * OutputStream).
  (** The runtime dispatches the database block's messages to its handler. *)
  Context (Hblock : forall msg body s,
    call_block BLOCK msg body s
    = let '(s', _, out) := DatabaseHandler.handle_message service None ctx msg body s ∅ in (s', out)).

(** A request decodes, at the handler, to what was sent. *)
Definition request_decodes (r : DbRequest) (body : string) : Prop :=
  match r with
  | ReqGet r => decode_get body = Ok r
  | ReqList r => decode_list body = Ok r
  | ReqCreate r => decode_create body = Ok r
  | ReqCreateMany r => decode_create_many body = Ok r
  | ReqBatch r => decode_batch body = Ok r
  | ReqInsertGuarded r => decode_insert_guarded body = Ok r
  | ReqUpdateGuarded r => decode_update_guarded body = Ok r
  | ReqUpdate r => decode_update body = Ok r
  | ReqDelete r => decode_delete body = Ok r
  | ReqWhere r => decode_where body = Ok r
  | ReqSum r => decode_sum body = Ok r
  | ReqRaw r => decode_raw body = Ok r
  | ReqDdlTransaction r => decode_ddl_transaction body = Ok r
  | ReqUpdateWhere r => decode_update_where body = Ok r
  | ReqIncrement r => decode_increment body = Ok r
  | ReqUpsert r => decode_upsert body = Ok r
  | ReqAggregate r => decode_aggregate body = Ok r
  | ReqEnsureTable t => decode_ensure_table body = Ok t
  | ReqAddColumn r => decode_add_column body = Ok r
  | ReqTable r => decode_table body = Ok r
  | ReqCatalogTables => decode_catalog_tables body = Ok tt
  end.

(** The request a call travels as, and the client's function for it. *)
Definition client_call (c : ServiceCall) : option (DbRequest * Client (S := S) (ServiceValue c)) :=
  match c with
  | CallGet t id => Some (ReqGet (mkGet t id), get call_block t id)
  | CallList t opts =>
      Some (ReqList (mkList t (list_wire_filters opts) (to_wire_sort (lo_sort opts)) (lo_limit opts) (lo_offset opts)
                       (lo_skip_count opts) (lo_columns opts)), list_ call_block t opts)
  | CallCreate t data => Some (ReqCreate (mkCreate t data), create call_block t data)
  | CallCreateMany t rows => Some (ReqCreateMany (mkCreateMany t rows), create_many call_block t rows)
  | CallInsertGuarded t data guards =>
      Some (ReqInsertGuarded (mkInsertGuarded t data (to_wire_guards guards)), insert_guarded call_block t data guards)
  | CallUpdateGuarded t fs data guards =>
      Some (ReqUpdateGuarded (mkUpdateGuarded t (to_wire_filters fs) data (to_wire_guards guards)),
            update_guarded call_block t fs data guards)
  | CallUpdate t id data => Some (ReqUpdate (mkUpdate t id data), update call_block t id data)
  | CallDelete t id => Some (ReqDelete (mkDelete t id), delete_ call_block t id)
  | CallCount t fs => Some (ReqWhere (mkWhere t (to_wire_filters fs)), count call_block t fs)
  | CallSum t field fs => Some (ReqSum (mkSum t field (to_wire_filters fs)), sum call_block t field fs)
  | CallQueryRaw q args => Some (ReqRaw (mkRaw q args), query_raw call_block q args)
  | CallExecRaw q args => Some (ReqRaw (mkRaw q args), exec_raw call_block q args)
  | CallExecRawTransaction stmts => Some (ReqDdlTransaction (mkDdlTransaction stmts), ddl_transaction call_block stmts)
  | CallDeleteWhere t fs => Some (ReqWhere (mkWhere t (to_wire_filters fs)), delete_by_filters call_block t fs)
  | CallDeleteWhereCount t fs => Some (ReqWhere (mkWhere t (to_wire_filters fs)), delete_by_filters_count call_block t fs)
  | CallTakeWhere t fs => Some (ReqWhere (mkWhere t (to_wire_filters fs)), take_by_filters call_block t fs)
  | CallUpdateWhere t fs data =>
      Some (ReqUpdateWhere (mkUpdateWhere t (to_wire_filters fs) data), update_by_filters call_block t fs data)
  | CallUpdateWhereCount t fs data =>
      Some (ReqUpdateWhere (mkUpdateWhere t (to_wire_filters fs) data), update_by_filters_count call_block t fs data)
  | CallIncrementFieldWhere t col delta fs =>
      Some (ReqIncrement (mkIncrement t col delta (to_wire_filters fs)), increment_field_where call_block t col delta fs)
  | CallSchemaTableExists t => Some (ReqTable (mkTableRequest t), table_exists call_block t)
  | CallCatalogTables => Some (ReqCatalogTables, catalog_tables call_block)
  | CallCatalogColumns t => Some (ReqTable (mkTableRequest t), catalog_columns call_block t)
  | CallCatalogRowCount t => Some (ReqTable (mkTableRequest t), catalog_row_count call_block t)
  | _ => None
  end.

(** The answer to a call, encoded by the handler, reads back at the client. *)
Definition carried {T} (r : DbResponse) (decode : string -> result T string) (v : T) : Prop :=
  exists bytes, encode_response r = Ok bytes /\ decode bytes = Ok v.

Definition answer_carried (c : ServiceCall) : ServiceValue c -> Prop :=
  match c with
  | CallGet _ _ | CallCreate _ _ | CallUpdate _ _ _ => fun v => carried (RespRecord v) decode_record v
  | CallList _ _ => fun v => carried (RespRecordList v) decode_record_list v
  | CallCreateMany _ _ => fun v => carried (RespCreateMany v) decode_rows_affected v
  | CallInsertGuarded _ _ _ => fun v => carried (RespInsertGuarded v) decode_insert_guarded_response v
  | CallUpdateGuarded _ _ _ _ => fun v => carried (RespUpdateGuarded v) decode_update_guarded_response v
  | CallCount _ _ => fun v => carried (RespCount v) decode_count v
  | CallSum _ _ _ => fun v => carried (RespSum v) decode_sum_response v
  | CallQueryRaw _ _ => fun v => carried (RespRecords v) decode_records v
  | CallExecRaw _ _ | CallIncrementFieldWhere _ _ _ _ => fun v => carried (RespExecRaw v) decode_rows_affected v
  | CallExecRawTransaction _ => fun v => carried (RespDdlTransaction v) decode_ddl_transaction_response v
  | CallDeleteWhereCount _ _ => fun v => carried (RespDeleteWhereCount v) decode_count v
  | CallTakeWhere _ _ => fun v => carried (RespTakeWhere v) decode_take_where_response v
  | CallUpdateWhereCount _ _ _ => fun v => carried (RespUpdateWhereCount v) decode_count v
  | CallSchemaTableExists t => fun v => carried (RespTableExists t v) decode_table_exists v
  | CallCatalogTables => fun v => carried (RespCatalogTables v) decode_catalog_tables_response v
  | CallCatalogColumns t => fun v => carried (RespCatalogColumns t v) decode_catalog_columns_response v
  | CallCatalogRowCount t => fun v => carried (RespCatalogRowCount t v) decode_catalog_row_count v
  | _ => fun _ => True
  end.

(** What the handler admits: filters within its bounds, given as a tree in a
    listing; at least one column when any is named. *)
Definition within_bounds (c : ServiceCall) : Prop :=
  match c with
  | CallList _ opts =>
      lo_filters opts = [] /\ lo_columns opts <> Some [] /\
      exists tree, lo_filter_tree opts = Some tree /\ Forall groups_nonempty tree /\
        forest_size (map filter_tree_to_wire_node tree) <= MAX_FILTER_NODES /\
        forest_depth (map filter_tree_to_wire_node tree) <= MAX_FILTER_DEPTH
  | CallInsertGuarded _ _ guards => length guards <= MAX_WRITE_GUARDS /\ Forall guard_bounded guards
  | CallUpdateGuarded _ fs _ guards =>
      length fs <= MAX_FILTER_NODES /\ length guards <= MAX_WRITE_GUARDS /\ Forall guard_bounded guards
  | CallCount _ fs | CallSum _ _ fs | CallDeleteWhere _ fs | CallDeleteWhereCount _ fs | CallTakeWhere _ fs
  | CallUpdateWhere _ fs _ | CallUpdateWhereCount _ fs _ | CallIncrementFieldWhere _ _ _ fs =>
      length fs <= MAX_FILTER_NODES
  | _ => True
  end.

(** What the call's operation requires of the caller: a raw statement goes
    through the raw channel, and an insert is made with the right to write. *)
Definition permitted (c : ServiceCall) : Prop :=
  match c with CallExecRaw _ _ => admitted ctx RAW_SQL_RESOURCE ResourceAccess.Write | _ => call_authorized ctx c end /\
  match c with
  | CallCreate t _ | CallCreateMany t _ | CallInsertGuarded t _ _ => inserts_append_only ctx t = false
  | _ => True
  end.

Lemma message_kind kind resource w rt : msg_kind (build_service_message kind resource w rt) = kind.
Proof. unfold build_service_message, apply_wrap_meta. destruct resource, rt; reflexivity. Qed.

Lemma run_failure c (e : ServiceFailure c) s h :
  run_db service None (do! err := failure c e in Done (output_error err)) s h = (s, h, output_error (reported c e)).
Proof.
  destruct c; simpl in *; unfold db_error_to_wafer, transaction_error_to_wafer, observed;
    match goal with |- context [attempt_answer ?x] => destruct (attempt_answer x) end; reflexivity.
Qed.

(** A request whose operation comes down to one call. *)
Lemma svc_runs kind req body resource w c ok s :
  encode_request req = Ok body ->
  (forall msg, msg_kind msg = kind -> handle_op ctx msg body = answer c ok) ->
  svc call_block kind req resource w s
  = let '(s', r) := service c s in
    (s', match r with Ok v => collect_response_body (ok v) | Err e => Err (reported c e) end).
Proof.
  intros Hreq Hop. unfold svc, call_service, call_service_streaming, client_bind. rewrite Hreq, Hblock.
  unfold DatabaseHandler.handle_message. rewrite (Hop _ (message_kind _ _ _ _)). cbn [run_db answer].
  destruct (service c s) as [s' [v|e]]; [done|]. by rewrite run_failure.
Qed.

Lemma authorize_op_complete {T} (decode : string -> result T string) body op resource accesses req :
  decode body = Ok req -> database_op_access op = Some (DatabaseOpAccess.On accesses) ->
  is_plain_ident (resource req) = true -> Forall (admitted ctx (resource req)) accesses ->
  decode_and_authorize_op ctx decode body op resource = Ok req.
Proof.
  intros Hd Hop Hn Ha. unfold decode_and_authorize_op, decode_and_authorize_all, decode_request, op_checks.
  rewrite Hd. simpl. rewrite check_name_plain by done. simpl. rewrite Hop.
  assert (E : check_all ctx (map (fun a => (resource req, ResourceType.Db, a)) accesses) = Ok tt).
  { clear Hop. induction Ha as [|a accesses Ha1 Ha IH]; simpl; [done|]. unfold check_resource. simpl.
    unfold admitted in Ha1. rewrite Ha1. exact IH. }
  by rewrite E.
Qed.

Lemma reply_read {T} (r : DbResponse) (decode : string -> result T string) (v : T) :
  carried r decode v ->
  match collect_response_body (reply r) with Ok data => decode_reply decode data | Err e => Err e end = Ok v.
Proof.
  intros (bytes & He & Hd). unfold reply, to_output. rewrite He. unfold collect_response_body; simpl.
  unfold decode_reply. by rewrite Hd.
Qed.

(** An operation's steps, each known to pass. *)
Lemma or_answer_ok {A E} (r : result A E) refuse k a : r = Ok a -> or_answer r refuse k = k a.
Proof. by intros ->. Qed.

Lemma rules_pass (t : string) (rows : list Data) (k : result unit WaferError -> DbProg OutputStream) :
  inserts_append_only ctx t = false -> (do! rules := append_only_rules ctx t rows in k rules) = k (Ok tt).
Proof. intros Hw. unfold append_only_rules. by rewrite Hw. Qed.

(** The handler's side of a call: its operation comes down to the call. *)
Definition op_of (c : ServiceCall) : string :=
  match c with
  | CallGet _ _ => "database.get" | CallList _ _ => "database.list" | CallCreate _ _ => "database.create"
  | CallCreateMany _ _ => "database.create_many" | CallInsertGuarded _ _ _ => "database.insert_guarded"
  | CallUpdateGuarded _ _ _ _ => "database.update_guarded" | CallUpdate _ _ _ => "database.update"
  | CallDelete _ _ => "database.delete" | CallCount _ _ => "database.count" | CallSum _ _ _ => "database.sum"
  | CallQueryRaw _ _ => "database.query_raw" | CallExecRaw _ _ => "database.exec_raw"
  | CallExecRawTransaction _ => "database.ddl_transaction" | CallDeleteWhere _ _ => "database.delete_where"
  | CallDeleteWhereCount _ _ => "database.delete_where_count" | CallTakeWhere _ _ => "database.take_where"
  | CallUpdateWhere _ _ _ => "database.update_where" | CallUpdateWhereCount _ _ _ => "database.update_where_count"
  | CallIncrementFieldWhere _ _ _ _ => "database.increment_field_where"
  | CallSchemaTableExists _ => "database.table_exists" | CallCatalogTables => "database.catalog_tables"
  | CallCatalogColumns _ => "database.catalog_columns" | CallCatalogRowCount _ => "database.catalog_row_count"
  | _ => ""
  end.

(** How the handler answers a call that succeeded. *)
Definition answer_output (c : ServiceCall) : ServiceValue c -> OutputStream :=
  match c with
  | CallGet _ _ | CallCreate _ _ | CallUpdate _ _ _ => fun v => reply (RespRecord v)
  | CallList _ _ => fun v => reply (RespRecordList v)
  | CallCreateMany _ _ => fun v => reply (RespCreateMany v)
  | CallInsertGuarded _ _ _ => fun v => reply (RespInsertGuarded v)
  | CallUpdateGuarded _ _ _ _ => fun v => reply (RespUpdateGuarded v)
  | CallCount _ _ => fun v => reply (RespCount v)
  | CallSum _ _ _ => fun v => reply (RespSum v)
  | CallQueryRaw _ _ => fun v => reply (RespRecords v)
  | CallExecRaw _ _ | CallIncrementFieldWhere _ _ _ _ => fun v => reply (RespExecRaw v)
  | CallExecRawTransaction _ => fun v => reply (RespDdlTransaction v)
  | CallDeleteWhereCount _ _ => fun v => reply (RespDeleteWhereCount v)
  | CallTakeWhere _ _ => fun v => reply (RespTakeWhere v)
  | CallUpdateWhereCount _ _ _ => fun v => reply (RespUpdateWhereCount v)
  | CallSchemaTableExists t => fun v => reply (RespTableExists t v)
  | CallCatalogTables => fun v => reply (RespCatalogTables v)
  | CallCatalogColumns t => fun v => reply (RespCatalogColumns t v)
  | CallCatalogRowCount t => fun v => reply (RespCatalogRowCount t v)
  | _ => fun _ => respond ""
  end.

Lemma op_named msg body name op :
  assoc name DB_OPS = Some op -> msg_kind msg = name -> handle_op ctx msg body = op ctx body.
Proof. unfold handle_op. by intros Ho ->; rewrite Ho. Qed.

Ltac op_passes :=
  repeat match goal with
    | |- or_answer (decode_and_authorize_op _ _ _ _ _) _ _ = _ =>
        erewrite or_answer_ok by (eapply authorize_op_complete;
          [eassumption | reflexivity | simpl; first [assumption | reflexivity] | simpl; repeat constructor; tauto])
    | |- or_answer (flat_filters _) _ _ = _ => erewrite or_answer_ok by (apply flat_converts; assumption)
    | |- or_answer (to_cap_guards _) _ _ = _ => erewrite or_answer_ok by (apply guards_convert; assumption)
    | |- or_answer (check_data_names _) _ _ = _ => erewrite or_answer_ok by (apply check_names_plain; assumption)
    | |- or_answer (check_name _) _ _ = _ => erewrite or_answer_ok by (apply check_name_plain; assumption)
    | |- or_answer (convert_sort _) _ _ = _ => erewrite or_answer_ok by (apply sort_converts; assumption)
    | |- db_bind (append_only_rules _ _ _) _ = _ => rewrite rules_pass by assumption; cbn [or_answer]
    end; reflexivity.

Lemma op_comes_down (c : ServiceCall) req call body msg :
  client_call c = Some (req, call) -> request_decodes req body -> permitted c -> plain (call_names c) -> within_bounds c ->
  msg_kind msg = op_of c -> handle_op ctx msg body = answer c (answer_output c).
Proof.
  intros Hcall Hd [Ha Hw] Hn Hb Hk. destruct c; try discriminate Hcall;
    injection Hcall as <- _; simpl in Hd, Ha, Hw, Hn, Hb; rewrite ?plain_cons, ?plain_app in Hn;
    destruct_and?;
    match type of Hk with _ = ?name => let n := eval cbn in name in rewrite (op_named msg body n _ eq_refl Hk) end;
    cbn [answer_output];
    match goal with |- ?t = _ => let op := head t in unfold op end; try solve [op_passes].
  - destruct opts as [fs sort limit offset skip tree columns]. simpl in *. subst fs.
    destruct H6 as (ts & -> & Hts & Hs & Hdep). simpl in *.
    erewrite or_answer_ok by (eapply authorize_op_complete;
      [eassumption | reflexivity | done | by repeat constructor]). simpl.
    unfold list_wire_filters. simpl. rewrite (or_answer_ok _ _ _ _ (forest_converts ts H9 Hts Hs Hdep)).
    rewrite (or_answer_ok _ _ _ _ (sort_converts sort H7)).
    rewrite (or_answer_ok _ _ _ tt); [done|]. destruct columns as [[|c cs]|]; simpl; [done | | done].
    by apply (check_names_plain (c :: cs)).
  - erewrite or_answer_ok by (eapply authorize_op_complete;
      [eassumption | reflexivity | done | by repeat constructor]). simpl.
    rewrite (or_answer_ok _ _ _ tt); [by rewrite rules_pass|].
    match goal with Hr : plain (flat_map (map fst) rows) |- _ => apply plain_flat_map in Hr; rename Hr into Hrows; clear - Hrows end.
    induction Hrows as [|row rows Hrow Hr IH]; simpl; [done|]. unfold check_data_names at 1.
    by rewrite check_names_plain.
Qed.

(** What the client makes of an answer. *)
Lemma answer_read (c : ServiceCall) req call body s :
  client_call c = Some (req, call) -> encode_request req = Ok body ->
  (forall msg, msg_kind msg = op_of c -> handle_op ctx msg body = answer c (answer_output c)) ->
  (forall s' v, service c s = (s', Ok v) -> answer_carried c v) ->
  call s = let '(s', r) := service c s in (s', match r with Ok v => Ok v | Err e => Err (reported c e) end).
Proof.
  intros Hcall Hreq Hop Hans. destruct c; try discriminate Hcall; injection Hcall as <- <-;
    match goal with |- ?f s = _ => let op := head f in unfold op, read_reply, ignore_reply, client_bind, client_ret end;
    rewrite (svc_runs _ _ body _ _ _ _ s Hreq Hop);
    (match goal with |- context [service ?c s] => destruct (service c s) as [s' [v|e]] end;
     [try solve [destruct v; reflexivity] | reflexivity]);
    specialize (Hans s' v eq_refl); simpl in Hans; pose proof (reply_read _ _ _ Hans) as Hr;
    cbn [answer_output]; (destruct (collect_response_body _); [by rewrite Hr | discriminate Hr]).
Qed.

(** C22: Between a client and the database service, the wire and the handler
    change nothing: for a caller with the right to make it, a call naming
    plain identifiers and within the handler's bounds, whose request and
    answer the codec carries, the client's function calls the service once,
    with the same arguments, and returns the service's value, or its failure
    as reported. *)
Theorem client_refines_service (c : ServiceCall) (req : DbRequest) (call : Client (ServiceValue c)) (body : string) (s : S) :
  client_call c = Some (req, call) -> permitted c -> plain (call_names c) -> within_bounds c ->
  encode_request req = Ok body -> request_decodes req body ->
  (forall s' v, service c s = (s', Ok v) -> answer_carried c v) ->
  call s = let '(s', r) := service c s in (s', match r with Ok v => Ok v | Err e => Err (reported c e) end).
Proof.
  intros Hcall Hp Hn Hb Hreq Hd Hans. apply (answer_read c req call body s Hcall Hreq); [|done].
  intros msg Hk. by apply (op_comes_down c req call).
Qed.
End Stack.

(** ** Listing everything *)

(** [list_all] and [list_sorted] return every row or refuse, never a part:
    over a service that answers a listing with the first rows that match, up
    to the limit, they return them all when there are at most 10000, and
    [OutOfRange] otherwise. *)
Theorem list_all_never_truncates `{DatabaseClientCodec} {S} (call_block : string -> Message -> string -> S -> S * OutputStream)
    (collection : string) (filters : list Filter) (sort : list SortField) (rows : list DbRecord) (s : S) :
  (forall limit s, exists total page size, list_ call_block collection (mkListOptions filters sort (Some limit) 0 true None None) s
     = (s, Ok (mkRecordList (take (N.to_nat limit) rows) total page size))) ->
  (list_sorted call_block collection filters sort s).2
  = if (N.of_nat (length rows) <=? 10000)%N then Ok rows
    else Err (error_new ErrorCode.OutOfRange
                ("more than 10000 rows of " +:+ collection +:+ " match; read them with paginated_list")).
Proof.
  intros Hlist. unfold list_sorted, list_within_cap, client_bind.
  destruct (Hlist (LIST_ALL_MAX_ROWS + 1)%N s) as (total & page & size & ->). unfold client_ret. simpl rl_records.
  rewrite length_take. unfold LIST_ALL_MAX_ROWS.
  destruct (N.leb_spec (N.of_nat (length rows)) 10000) as [Hle|Hgt].
  - rewrite (proj2 (N.ltb_ge _ _)) by lia. cbn [snd]. f_equal. apply take_ge. lia.
  - rewrite (proj2 (N.ltb_lt _ _)) by lia. cbn [snd]. by rewrite str_app_assoc.
Qed.

(** * The types of filter trees: which trees of a request are well formed, and
    that the handler's conversion accepts those and no others. *)

Section Filters.
  Context `{DebugFormat} `{JsonCrate}.

(** A known operator on a plain column, against a value, or, when the
    operator compares columns, against a plain column and no value. *)
Definition leaf_well_formed (f : FilterDef) : bool :=
  match FilterOp.parse_wire (fd_operator f) with
  | Err _ => false
  | Ok op =>
      is_plain_ident (fd_field f) &&
      match fd_column f, fd_value f with
      | None, _ => true
      | Some column, VNull => bool_decide (is_Some (ColumnCompareOp.from_filter_op op)) && is_plain_ident column
      | Some _, _ => false
      end
  end.

(** Leaves well formed, groups not empty. *)
Fixpoint node_well_formed (n : FilterNode.t) : bool :=
  match n with
  | FilterNode.Leaf f => leaf_well_formed f
  | FilterNode.All l | FilterNode.Any l => negb (bool_decide (length l = 0)) && forallb node_well_formed l
  end.

Definition invalid_argument {A} (r : result A WaferError) : Prop :=
  match r with Ok _ => True | Err e => we_code e = ErrorCode.InvalidArgument end.

Lemma leaf_typed (f : FilterDef) : is_ok (convert_leaf f) = leaf_well_formed f /\ invalid_argument (convert_leaf f).
Proof.
  unfold convert_leaf, leaf_well_formed. destruct (FilterOp.parse_wire (fd_operator f)) as [op|e]; simpl; [|done].
  unfold check_name. destruct (is_plain_ident (fd_field f)); simpl; [|done].
  destruct (fd_column f) as [column|]; [|done]. destruct (fd_value f); try done.
  destruct (ColumnCompareOp.from_filter_op op); simpl; [|done]. by destruct (is_plain_ident column).
Qed.

Lemma try_map_is_ok {A B E} (f : A -> result B E) (P : A -> bool) (l : list A) :
  Forall (fun a => is_ok (f a) = P a) l -> is_ok (try_map f l) = forallb P l.
Proof.
  induction 1 as [|a l Ha Hl IH]; simpl; [done|]. rewrite <- Ha, <- IH. destruct (f a); [|done]. by destruct (try_map f l).
Qed.

Lemma node_typed (n : FilterNode.t) : is_ok (reference_node n) = node_well_formed n.
Proof.
  induction n as [f|[|n l] Hl|[|n l] Hl] using node_ind'; try done; [apply leaf_typed| |];
    [rewrite reference_all | rewrite reference_any]; apply try_map_is_ok in Hl;
    cbn [node_well_formed]; rewrite <- Hl; by destruct (try_map reference_node (n :: l)).
Qed.

Lemma forest_typed (nodes : list FilterNode.t) : is_ok (try_map reference_node nodes) = forallb node_well_formed nodes.
Proof. apply try_map_is_ok, Forall_forall. intros n _. apply node_typed. Qed.

(** Refusals are [InvalidArgument]. *)
Lemma nodes_refuse (l : list FilterNode.t) :
  Forall (fun n => forall d c, invalid_argument (convert_node n d c)) l ->
  forall d c, invalid_argument (convert_nodes (fun n c => convert_node n d c) l c).
Proof.
  induction 1 as [|n l Hn Hl IH]; intros d c; simpl; [done|]. specialize (Hn d c).
  destruct (convert_node n d c) as [[t c1]|e]; simpl; [|done]. specialize (IH d c1).
  fold (convert_nodes (fun n c => convert_node n d c)). by destruct (convert_nodes _ l c1) as [[ts c2]|e].
Qed.

Lemma node_refuses (n : FilterNode.t) (d c : nat) : invalid_argument (convert_node n d c).
Proof.
  revert d c. induction n as [f|l Hl|l Hl] using node_ind'; intros d c; simpl;
    (destruct (MAX_FILTER_DEPTH <? d)%nat; [done|]); (destruct (MAX_FILTER_NODES <? S c)%nat; [done|]).
  - pose proof (proj2 (leaf_typed f)) as Hf. by destruct (convert_leaf f).
  - destruct l as [|n l]; [done|]. pose proof (nodes_refuse (n :: l) Hl (S d) (S c)) as Hr.
    by destruct (convert_nodes _ (n :: l) (S c)).
  - destruct l as [|n l]; [done|]. pose proof (nodes_refuse (n :: l) Hl (S d) (S c)) as Hr.
    by destruct (convert_nodes _ (n :: l) (S c)).
Qed.

(** What a node means is as large as the node, and has no empty group. *)
Definition same_shape (n : FilterNode.t) (t : FilterTree.t) : Prop :=
  node_size (filter_tree_to_wire_node t) = node_size n /\ node_depth (filter_tree_to_wire_node t) = node_depth n
  /\ groups_nonempty t.

Lemma shapes_of_group (l : list FilterNode.t) (ts : list FilterTree.t) :
  Forall (fun n => forall t, reference_node n = Ok t -> same_shape n t) l -> try_map reference_node l = Ok ts ->
  forest_size (map filter_tree_to_wire_node ts) = forest_size l
  /\ forest_depth (map filter_tree_to_wire_node ts) = forest_depth l /\ Forall groups_nonempty ts.
Proof.
  unfold forest_size, forest_depth. intros Hl Hts%try_map_ok.
  induction Hts as [|n t l ts Hn Hts IH]; simpl; [done|].
  apply Forall_cons in Hl as [H1 Hl]. destruct (H1 t Hn) as (-> & -> & Hg). destruct (IH Hl) as (-> & -> & Hgs).
  split_and!; [done | done | by constructor].
Qed.

Lemma group_shape (l : list FilterNode.t) (ts : list FilterTree.t) :
  l <> [] -> Forall (fun n => forall t, reference_node n = Ok t -> same_shape n t) l -> try_map reference_node l = Ok ts ->
  same_shape (FilterNode.All l) (FilterTree.All ts) /\ same_shape (FilterNode.Any l) (FilterTree.Any ts).
Proof.
  intros Hne Hl Hts. destruct (shapes_of_group l ts Hl Hts) as (Hs & Hd & Hg). unfold forest_size, forest_depth in *.
  assert (Hn : ts <> []) by (apply try_map_ok in Hts; destruct Hts; done).
  unfold same_shape. cbn [filter_tree_to_wire_node node_size node_depth groups_nonempty].
  rewrite all_nonempty, Hs, Hd. done.
Qed.

Lemma reference_shape (n : FilterNode.t) (t : FilterTree.t) : reference_node n = Ok t -> same_shape n t.
Proof.
  revert t. induction n as [f|[|n l] Hl|[|n l] Hl] using node_ind'; intros t; try done.
  - cbn [reference_node]. unfold convert_leaf. destruct (FilterOp.parse_wire _) as [op|]; simpl; [|done].
    destruct (check_name _) as [[]|]; simpl; [|done]. destruct (fd_column f); [|by intros [= <-]].
    destruct (fd_value f); try done. destruct (ColumnCompareOp.from_filter_op op); [|done].
    destruct (check_name _) as [[]|]; simpl; [|done]. by intros [= <-].
  - rewrite reference_all. destruct (try_map reference_node (n :: l)) as [ts|] eqn:E; simpl; [|done].
    intros [= <-]. by apply (group_shape (n :: l)).
  - rewrite reference_any. destruct (try_map reference_node (n :: l)) as [ts|] eqn:E; simpl; [|done].
    intros [= <-]. by apply (group_shape (n :: l)).
Qed.

(** C23: The handler takes exactly the well-formed filter trees of at most 256
    nodes and 16 levels; what it takes them for is typed - plain columns, no
    empty group - and converts to itself when sent again; every other tree is
    an [InvalidArgument]. *)
Theorem filter_trees_typed (nodes : list FilterNode.t) :
  match convert_filter_tree nodes with
  | Ok ts =>
      forallb node_well_formed nodes = true /\ forest_size nodes <= 256 /\ forest_depth nodes <= 16 /\
      plain (tree_columns ts) /\ Forall groups_nonempty ts /\
      convert_filter_tree (map filter_tree_to_wire_node ts) = Ok ts
  | Err e =>
      we_code e = ErrorCode.InvalidArgument /\
      ~ (forallb node_well_formed nodes = true /\ forest_size nodes <= 256 /\ forest_depth nodes <= 16)
  end.
Proof.
  destruct (convert_filter_tree nodes) as [ts|e] eqn:E.
  - pose proof (tree_names _ _ E) as Hn. apply convert_filter_tree_spec in E as (Hs & Hd & Hr).
    destruct (shapes_of_group nodes ts) as (Hs' & Hd' & Hg);
      [apply Forall_forall; intros n _; apply reference_shape | done |].
    rewrite <- forest_typed, Hr. split_and!; try done. apply forest_converts; [done | done | lia | lia].
  - split.
    + unfold convert_filter_tree in E.
      assert (Hi := nodes_refuse nodes). specialize (Hi ltac:(by apply Forall_forall; intros n _; apply node_refuses) 1 0).
      destruct (convert_nodes _ nodes 0) as [[ts c]|e']; simpl in *; [done | by injection E as <-].
    + intros (Hw & Hs & Hd). rewrite <- forest_typed in Hw. destruct (try_map reference_node nodes) as [ts|] eqn:Hr; [|done].
      assert (convert_filter_tree nodes = Ok ts) by (apply convert_filter_tree_spec; done). congruence.
Qed.
End Filters.

(** * The database handler run on concrete requests: the witnesses of its
    guarantees. A caller may append to one table; the codec decodes one
    request of each kind used here. *)

Definition NOTES : string := "acme__app__notes".

Definition refused {A} (_ : string) : result A string := Err "unused".

#[local] Instance notes_codec : DatabaseCodec := {|
  decode_get id := Ok (mkGet NOTES id);
  decode_list := refused;
  decode_create title := Ok (mkCreate NOTES [("title", VString title)]);
  decode_create_many := refused; decode_batch := refused; decode_insert_guarded := refused;
  decode_update_guarded := refused; decode_update := refused; decode_delete := refused; decode_where := refused;
  decode_sum := refused; decode_raw := refused; decode_ddl_transaction := refused; decode_update_where := refused;
  decode_increment := refused; decode_upsert := refused; decode_aggregate := refused; decode_ensure_table := refused;
  decode_add_column := refused; decode_table := refused; decode_catalog_tables := refused;
  encode_response r := Ok (match r with RespRecord r => dr_id r | _ => "" end)
|}.
#[local] Instance notes_debug : DebugFormat := {| debug_str := id |}.
#[local] Instance notes_json : JsonCrate := {| from_json _ := None; to_json _ := Ok ""; display_json _ := "" |}.

(** A caller that may read and append, not write. *)
Definition appender : CallContext :=
  mkCallContext (Some "acme/app")
    (fun _ _ access => match access with
                       | ResourceAccess.Write => Err (error_new ErrorCode.PermissionDenied "denied")
                       | _ => Ok tt
                       end)
    (fun _ _ access => match access with ResourceAccess.Write => false | _ => true end).

Definition create_message : Message := mkMessage "database.create" [].
Definition get_message : Message := mkMessage "database.get" [].

Definition note_columns : list string := ["id"; "title"; "created_at"; "updated_at"].
Definition note_row : Data := [("title", VString "hello")].

Lemma create_asks :
  asks (handle_op appender create_message "hello")
    [existT (CallSchemaColumns NOTES) (Ok note_columns)] (CallCreate NOTES note_row).
Proof.
  apply (asks_later (CallSchemaColumns NOTES) _ (Ok note_columns) []). apply (asks_here (CallCreate NOTES note_row)).
Qed.

Lemma database_service_confined_witness :
  asks (handle_op appender create_message "hello")
    [existT (CallSchemaColumns NOTES) (Ok note_columns)] (CallCreate NOTES note_row)
  /\ call_authorized appender (CallCreate NOTES note_row) /\ plain [NOTES; "title"].
Proof.
  split; [apply create_asks|].
  exact (database_service_confined appender create_message "hello" _ _ create_asks).
Defined.

Lemma append_only_inserts_witness :
  (forall k, k ∈ ["title"] -> k ∉ ["id"; "created_at"; "updated_at"]) /\
  exists existing : list string,
    existT (CallSchemaColumns NOTES) (Ok existing) ∈ [existT (CallSchemaColumns NOTES) (Ok note_columns) : Event] /\
    forall k, k ∈ ["id"; "created_at"; "updated_at"] ++ ["title"] -> k ∈ existing.
Proof.
  exact (append_only_inserts appender create_message "hello" _ _ NOTES note_row create_asks
           (conj eq_refl eq_refl) eq_refl).
Defined.

(** A database that is down, with its driver's own words. *)
Definition down (text : string) : DatabaseService unit := fun c s =>
  (s, Err (match c return ServiceFailure c with
           | CallExecRawTransaction _ => mkTransactionError None (Unavailable text)
           | _ => Unavailable text
           end)).

Lemma down_agrees (text text' : string) (s s' : unit) (c : ServiceCall) :
  True -> True /\ answers_agree c (down text c s).2 (down text' c s').2.
Proof. intros _. split; [done|]. by destruct c. Qed.

Lemma hidden_errors_stay_hidden_witness :
  (handle_message (down "host db-1.internal refused") None appender get_message "7" tt ∅).2
  = (handle_message (down "") None appender get_message "7" tt ∅).2.
Proof.
  exact (proj1 (proj2 (hidden_errors_stay_hidden appender (fun _ _ => True) (down "host db-1.internal refused") (down "")
                  get_message "7" None tt tt ∅ (fun s s' c => down_agrees _ _ s s' c) I))).
Defined.

Lemma attempt_sees_failures_witness :
  NoDup (lineage outer_attempt) /\
  worst (state_at (handle_message (down "") (Some outer_attempt) appender get_message "7" tt ∅).1.2 0)
  = Some InitAttempts.Unavailable.
Proof.
  split; [apply (bool_decide_unpack _); exact I|].
  refine (proj1 (attempt_sees_failures appender (down "") outer_attempt get_message "7" tt ∅ _ eq_refl)).
  apply (bool_decide_unpack _). exact I.
Defined.

(** ** A client of it *)

#[local] Instance notes_client : DatabaseClientCodec := {|
  encode_request r := match r with
                      | ReqGet r => Ok (get_id r)
                      | _ => Err (error_new ErrorCode.Internal "unused")
                      end;
  decode_record id := Ok (mkDbRecord id []);
  decode_record_list := refused; decode_records := refused; decode_batch_response := refused;
  decode_insert_guarded_response := refused; decode_update_guarded_response := refused; decode_rows_affected := refused;
  decode_count := refused; decode_sum_response := refused; decode_ddl_transaction_response := refused;
  decode_take_where_response := refused; decode_upsert_response := refused; decode_schema_op := refused;
  decode_table_exists := refused; decode_catalog_tables_response := refused;
  decode_catalog_columns_response := refused; decode_catalog_row_count := refused
|}.

(** A service that finds every row it is asked for, and nothing else. *)
Definition finding : DatabaseService nat := fun c n =>
  (S n, match c return ServiceAnswer c with
        | CallGet _ id => Ok (mkDbRecord id [])
        | CallExecRawTransaction _ => Err (mkTransactionError None NotFound)
        | _ => Err NotFound
        end).

Definition to_handler (block : string) (msg : Message) (body : string) (n : nat) : nat * OutputStream :=
  let '(n, _, out) := DatabaseHandler.handle_message finding None appender msg body n ∅ in (n, out).

Lemma client_refines_service_witness :
  get to_handler NOTES "7" 0 = (1, Ok (mkDbRecord "7" [])).
Proof.
  refine (client_refines_service appender finding to_handler (fun _ _ _ => eq_refl) (CallGet NOTES "7")
            (ReqGet (mkGet NOTES "7")) (get to_handler NOTES "7") "7" 0 eq_refl (conj eq_refl I) _ I eq_refl eq_refl _).
  - repeat constructor.
  - intros s' v [= _ <-]. exists "7". split; reflexivity.
Defined.
