(* ===== verification/SchemaCache.v ===== *)
(** The schema cache of a SQL backend
    ([wafer-core/src/interfaces/database/schema_cache.rs]): what is memoized
    about a table, the generation that guards racing write-backs, and why no
    interleaving of probes, schema changes and invalidations leaves a fact in
    the cache that the database no longer has.

    Every operation is one critical section of the cache's lock. The step
    relation [cache_step] interleaves any number of callers at that grain. *)

From S2P Require Import Prelude.

(** ** The cache *)

(** [introspect::IdPolicy]. *)
Module IdPolicy.
Inductive t := Mint | Database | Caller.

#[global] Instance eq_dec : EqDecision t.
Proof. solve_decision. Defined.
End IdPolicy.

(** [JsonColumns] is the list of its names. *)
Record TableColumns := mkTableColumns { tc_names : list string; tc_json : list string }.

#[global] Instance table_columns_eq_dec : EqDecision TableColumns.
Proof. solve_decision. Defined.

Record TableSchema := mkTableSchema {
  ts_present : bool;
  ts_columns : option TableColumns;
  ts_primary_key : option (list string);
  ts_id_policy : option IdPolicy.t
}.

(** [TableSchema::default]. *)
Definition table_schema_default : TableSchema := mkTableSchema false None None None.

(** [Inner] behind its lock; the generation is a [u64]. *)
Record SchemaCache := mkSchemaCache { sc_generation : N; sc_tables : gmap string TableSchema }.

Definition u64_wrap (n : N) : N := n mod 2 ^ 64.

Definition schema_cache_new : SchemaCache := mkSchemaCache 0 ∅.

(** [generation], [table_known_present], [columns], [primary_key],
    [id_policy]. *)
Definition generation (c : SchemaCache) : N := sc_generation c.
Definition table_known_present (c : SchemaCache) (table : string) : bool :=
  match sc_tables c !! table with Some t => ts_present t | None => false end.
Definition cached_columns (c : SchemaCache) (table : string) : option TableColumns :=
  sc_tables c !! table ≫= ts_columns.
Definition cached_primary_key (c : SchemaCache) (table : string) : option (list string) :=
  sc_tables c !! table ≫= ts_primary_key.
Definition cached_id_policy (c : SchemaCache) (table : string) : option IdPolicy.t :=
  sc_tables c !! table ≫= ts_id_policy.

(** [inner.tables.entry(table).or_default()], then its update. *)
Definition entry (c : SchemaCache) (table : string) : TableSchema :=
  default table_schema_default (sc_tables c !! table).
Definition with_entry (c : SchemaCache) (table : string) (t : TableSchema) : SchemaCache :=
  mkSchemaCache (sc_generation c) (<[table := t]> (sc_tables c)).

Definition mark_table_present_if_gen (c : SchemaCache) (table : string) (expected_gen : N) : SchemaCache :=
  if negb (sc_generation c =? expected_gen)%N then c
  else let t := entry c table in
       with_entry c table (mkTableSchema true (ts_columns t) (ts_primary_key t) (ts_id_policy t)).

Definition set_columns_if_gen (c : SchemaCache) (table : string) (columns : TableColumns) (expected_gen : N) : SchemaCache :=
  match tc_names columns with
  | [] => c
  | _ =>
      if negb (sc_generation c =? expected_gen)%N then c
      else let t := entry c table in
           with_entry c table (mkTableSchema true (Some columns) (ts_primary_key t) (ts_id_policy t))
  end.

(** An empty key for a table not known to exist leaves the (possibly new)
    entry as it is. *)
Definition set_primary_key_if_gen (c : SchemaCache) (table : string) (key : list string) (expected_gen : N) : SchemaCache :=
  if negb (sc_generation c =? expected_gen)%N then c
  else let t := entry c table in
       match key with
       | [] => if ts_present t
               then with_entry c table (mkTableSchema true (ts_columns t) (Some []) (ts_id_policy t))
               else with_entry c table t
       | _ => with_entry c table (mkTableSchema true (ts_columns t) (Some key) (ts_id_policy t))
       end.

Definition set_id_policy_if_gen (c : SchemaCache) (table : string) (policy : IdPolicy.t) (expected_gen : N) : SchemaCache :=
  if negb (sc_generation c =? expected_gen)%N then c
  else let t := entry c table in
       with_entry c table (mkTableSchema true (ts_columns t) (ts_primary_key t) (Some policy)).

Definition invalidate (c : SchemaCache) (table : string) : SchemaCache :=
  mkSchemaCache (u64_wrap (sc_generation c + 1)) (delete table (sc_tables c)).

Definition clear (c : SchemaCache) : SchemaCache :=
  mkSchemaCache (u64_wrap (sc_generation c + 1)) ∅.

(** ** Callers

    The database's own facts about its tables, and what a probe asks. *)
Record TableFacts := mkTableFacts { fa_columns : TableColumns; fa_key : list string; fa_policy : IdPolicy.t }.
Abbreviation Catalog := (string -> option TableFacts).

Inductive Question := AskPresent | AskColumns | AskKey | AskPolicy.

(** What came back: the answer to a question about a table that is missing is
    "absent", no columns, no key, no policy. *)
Inductive Fact :=
| FactPresent (b : bool) | FactColumns (c : TableColumns) | FactKey (k : list string) | FactPolicy (p : option IdPolicy.t).

Definition read_fact (db : Catalog) (table : string) (q : Question) : Fact :=
  match q, db table with
  | AskPresent, o => FactPresent (is_some o)
  | AskColumns, Some f => FactColumns (fa_columns f)
  | AskColumns, None => FactColumns (mkTableColumns [] [])
  | AskKey, Some f => FactKey (fa_key f)
  | AskKey, None => FactKey []
  | AskPolicy, o => FactPolicy (fa_policy <$> o)
  end.

(** What the executor does with an answer: it records presence and policies
    only of tables that exist. *)
Definition write_back (c : SchemaCache) (table : string) (fact : Fact) (gen : N) : SchemaCache :=
  match fact with
  | FactPresent true => mark_table_present_if_gen c table gen
  | FactPresent false => c
  | FactColumns cols => set_columns_if_gen c table cols gen
  | FactKey key => set_primary_key_if_gen c table key gen
  | FactPolicy (Some policy) => set_id_policy_if_gen c table policy gen
  | FactPolicy None => c
  end.

(** A probe under way: the generation it took before it asked, and what it has
    been told since. *)
Record Probe := mkProbe { pr_table : string; pr_gen : N; pr_read : list Fact }.

(** [ss_pending] are the schema changes made and not yet followed by their
    invalidation. *)
Record SchemaState := mkSchemaState {
  ss_db : Catalog; ss_cache : SchemaCache; ss_probes : list Probe; ss_pending : list string
}.

(** With [foreign], another process may create a table this process has not
    seen; nothing here learns of it. *)
Inductive cache_step (foreign : bool) : SchemaState -> SchemaState -> Prop :=
| step_begin db c ps pend t :
    cache_step foreign (mkSchemaState db c ps pend) (mkSchemaState db c (mkProbe t (generation c) [] :: ps) pend)
| step_read db c ps1 p ps2 pend q :
    cache_step foreign (mkSchemaState db c (ps1 ++ p :: ps2) pend)
      (mkSchemaState db c (ps1 ++ mkProbe (pr_table p) (pr_gen p) (read_fact db (pr_table p) q :: pr_read p) :: ps2) pend)
| step_write db c ps1 p ps2 pend fact :
    fact ∈ pr_read p ->
    cache_step foreign (mkSchemaState db c (ps1 ++ p :: ps2) pend)
      (mkSchemaState db (write_back c (pr_table p) fact (pr_gen p)) (ps1 ++ p :: ps2) pend)
| step_end db c ps1 p ps2 pend :
    cache_step foreign (mkSchemaState db c (ps1 ++ p :: ps2) pend) (mkSchemaState db c (ps1 ++ ps2) pend)
| step_change db c ps pend t facts :
    cache_step foreign (mkSchemaState db c ps pend)
      (mkSchemaState (fun t' => if t' =s t then facts else db t') c ps (t :: pend))
| step_create db c ps pend t facts :
    foreign = true -> db t = None ->
    cache_step foreign (mkSchemaState db c ps pend)
      (mkSchemaState (fun t' => if t' =s t then Some facts else db t') c ps pend)
| step_invalidate db c ps pend1 t pend2 :
    (generation c + 1 < 2 ^ 64)%N ->
    cache_step foreign (mkSchemaState db c ps (pend1 ++ t :: pend2)) (mkSchemaState db (invalidate c t) ps (pend1 ++ pend2))
| step_evict db c ps pend t :
    (generation c + 1 < 2 ^ 64)%N ->
    cache_step foreign (mkSchemaState db c ps pend) (mkSchemaState db (invalidate c t) ps pend)
| step_clear db c ps pend1 t pend2 :
    (generation c + 1 < 2 ^ 64)%N ->
    cache_step foreign (mkSchemaState db c ps (pend1 ++ t :: pend2)) (mkSchemaState db (clear c) ps (pend1 ++ pend2)).

Definition cache_run (foreign : bool) : SchemaState -> SchemaState -> Prop := rtc (cache_step foreign).

Definition schema_start (db : Catalog) : SchemaState := mkSchemaState db schema_cache_new [] [].

(** ** Coherence *)

Section Coherence.
  Variable foreign : bool.

(** An empty key is told apart from a missing table's only while nothing
    outside the process creates tables. *)
Definition key_settled (key : list string) : Prop := foreign = false \/ key <> [].

Definition has (db : Catalog) (t : string) (P : TableFacts -> Prop) : Prop := exists f, db t = Some f /\ P f.

Definition fact_ok (db : Catalog) (t : string) (fact : Fact) : Prop :=
  match fact with
  | FactPresent b => b = true -> has db t (fun _ => True)
  | FactColumns c => tc_names c <> [] -> has db t (fun f => fa_columns f = c)
  | FactKey k => (k <> [] -> has db t (fun f => fa_key f = k))
                 /\ (key_settled k -> forall f, db t = Some f -> fa_key f = k)
  | FactPolicy o => forall p, o = Some p -> has db t (fun f => fa_policy f = p)
  end.

Definition entry_ok (db : Catalog) (t : string) (e : TableSchema) : Prop :=
  (ts_present e = true -> has db t (fun _ => True))
  /\ (forall c, ts_columns e = Some c -> has db t (fun f => fa_columns f = c))
  /\ (forall k, ts_primary_key e = Some k -> key_settled k -> has db t (fun f => fa_key f = k))
  /\ (forall p, ts_id_policy e = Some p -> has db t (fun f => fa_policy f = p)).

Lemma read_fact_ok db t q : fact_ok db t (read_fact db t q).
Proof.
  destruct q; simpl; destruct (db t) as [f|] eqn:E; simpl; try split; unfold has; try naive_solver.
Qed.

Lemma entry_default_ok db t : entry_ok db t table_schema_default.
Proof. by repeat split. Qed.

Lemma fact_ok_ext db db' t fact : db t = db' t -> fact_ok db t fact -> fact_ok db' t fact.
Proof. unfold fact_ok, has. intros E. by rewrite E. Qed.

Lemma entry_ok_ext db db' t e : db t = db' t -> entry_ok db t e -> entry_ok db' t e.
Proof. unfold entry_ok, has. intros E. by rewrite E. Qed.

(** What was known of a table stays true when another process creates it:
    everything known implied that it existed. *)
Lemma fact_ok_created (db : Catalog) t facts fact :
  foreign = true -> db t = None ->
  fact_ok db t fact -> fact_ok (fun t' => if t' =s t then Some facts else db t') t fact.
Proof.
  unfold fact_ok, has, key_settled. intros Hf Hn. rewrite String.eqb_refl, Hn.
  destruct fact; [naive_solver|naive_solver| |naive_solver]. intros [H1 _]. split; [naive_solver|].
  intros [?|Hk]; [congruence|]. naive_solver.
Qed.

Lemma entry_ok_created (db : Catalog) t facts e :
  db t = None -> entry_ok db t e -> entry_ok (fun t' => if t' =s t then Some facts else db t') t e.
Proof. unfold entry_ok, has. intros Hn. rewrite String.eqb_refl, Hn. naive_solver. Qed.

(** ** The invariant *)

Definition table_ok (s : SchemaState) (t : string) : Prop :=
  entry_ok (ss_db s) t (entry (ss_cache s) t)
  /\ Forall (fun p => pr_table p = t -> pr_gen p = generation (ss_cache s) -> Forall (fact_ok (ss_db s) t) (pr_read p))
       (ss_probes s).

Definition schema_inv (s : SchemaState) : Prop :=
  Forall (fun p => (pr_gen p <= generation (ss_cache s))%N) (ss_probes s)
  /\ forall t, t ∉ ss_pending s -> table_ok s t.

Lemma entry_with_entry c t e t' : entry (with_entry c t e) t' = if t =s t' then e else entry c t'.
Proof.
  unfold entry, with_entry. simpl. destruct (String.eqb_spec t t') as [->|Hne].
  - by rewrite lookup_insert_eq.
  - by rewrite lookup_insert_ne.
Qed.

Lemma write_back_generation c t fact gen : generation (write_back c t fact gen) = generation c.
Proof.
  destruct fact as [[]|cols|[|k ks]|[p|]]; simpl; unfold mark_table_present_if_gen, set_columns_if_gen,
    set_primary_key_if_gen, set_id_policy_if_gen; repeat case_match; done.
Qed.

(** A write-back touches its table's entry only, and only in its generation. *)
Lemma write_back_entry c t fact gen t' :
  t <> t' \/ gen <> generation c -> entry (write_back c t fact gen) t' = entry c t'.
Proof.
  intros Hc.
  assert (Hw : forall e, t <> t' -> entry (with_entry c t e) t' = entry c t').
  { intros e Hne. rewrite entry_with_entry. by destruct (String.eqb_spec t t'). }
  destruct fact as [[]|cols|[|k ks]|[p|]]; simpl; try done;
    unfold mark_table_present_if_gen, set_columns_if_gen, set_primary_key_if_gen, set_id_policy_if_gen;
    repeat case_match; try done; (destruct Hc as [Hne|Hg]; [by apply Hw|]);
    match goal with H : negb _ = false |- _ => apply negb_false_iff, N.eqb_eq in H; unfold generation in Hg; congruence end.
Qed.

(** A write-back of a fact that holds leaves a true entry. *)
Lemma write_back_ok db c t fact gen :
  fact_ok db t fact -> entry_ok db t (entry c t) -> entry_ok db t (entry (write_back c t fact gen) t).
Proof.
  intros Hf He. pose proof He as (Hp & Hc & Hk & Hi).
  assert (Hw : forall e, entry_ok db t e -> entry_ok db t (entry (with_entry c t e) t)).
  { intros e He'. by rewrite entry_with_entry, String.eqb_refl. }
  destruct fact as [[]|cols|key|[p|]]; simpl in *; try exact He.
  - unfold mark_table_present_if_gen. case_match; [exact He|]. apply Hw. repeat split; simpl; auto.
  - unfold set_columns_if_gen. destruct (tc_names cols) eqn:En; [exact He|].
    case_match; [exact He|]. apply Hw.
    destruct (Hf ltac:(done)) as (f & Hdb & Hfc). repeat split; simpl; auto; [by exists f|].
    intros c' [= <-]. by exists f.
  - unfold set_primary_key_if_gen. case_match; [exact He|]. destruct key as [|k ks].
    + case_match; [|by apply Hw]. apply Hw. repeat split; simpl; auto.
      intros k [= <-] Hs. destruct (Hp ltac:(done)) as (f & Hdb & _). exists f. split; [done|]. by apply Hf.
    + apply Hw. destruct Hf as [Hf _]. destruct (Hf ltac:(done)) as (f & Hdb & Hfk).
      repeat split; simpl; auto; [by exists f|]. intros k' [= <-] _. by exists f.
  - unfold set_id_policy_if_gen. case_match; [exact He|]. apply Hw.
    destruct (Hf p eq_refl) as (f & Hdb & Hfp). repeat split; simpl; auto. by exists f.
Qed.

Lemma generation_bumped c (f : SchemaCache -> SchemaCache) :
  (generation c + 1 < 2 ^ 64)%N -> generation (f c) = u64_wrap (sc_generation c + 1) -> (generation c < generation (f c))%N.
Proof.
  intros Hb ->. unfold u64_wrap. rewrite N.mod_small by (unfold generation in Hb; lia). unfold generation. lia.
Qed.

(** After the generation moved on, no probe under way is heard. *)
Lemma inv_bumped db c (f : SchemaCache -> SchemaCache) ps pend pend' :
  (generation c + 1 < 2 ^ 64)%N -> generation (f c) = u64_wrap (sc_generation c + 1) ->
  schema_inv (mkSchemaState db c ps pend) ->
  (forall t, t ∉ pend' -> entry (f c) t = table_schema_default \/ (t ∉ pend /\ entry (f c) t = entry c t)) ->
  schema_inv (mkSchemaState db (f c) ps pend').
Proof.
  intros Hb Hg [Hgen Hok] He. pose proof (generation_bumped c f Hb Hg) as Hlt. split; simpl in *.
  - eapply Forall_impl; [exact Hgen|]. intros p Hp; simpl in Hp. lia.
  - intros t Ht. split; simpl.
    + destruct (He t Ht) as [->|[Ht' ->]]; [apply entry_default_ok|]. exact (proj1 (Hok t Ht')).
    + eapply Forall_impl; [exact Hgen|]. intros p Hp _ Hpg; simpl in Hp. lia.
Qed.

Lemma entry_invalidate c t t' : entry (invalidate c t) t' = if t =s t' then table_schema_default else entry c t'.
Proof.
  unfold entry, invalidate. simpl. destruct (String.eqb_spec t t') as [->|Hne].
  - by rewrite lookup_delete_eq.
  - by rewrite lookup_delete_ne.
Qed.

Lemma schema_step_inv s s' : cache_step foreign s s' -> schema_inv s -> schema_inv s'.
Proof.
  destruct 1 as [db c ps pend t | db c ps1 p ps2 pend q | db c ps1 p ps2 pend fact Hfact | db c ps1 p ps2 pend
    | db c ps pend t facts | db c ps pend t facts Hf Hn | db c ps pend1 t pend2 Hb | db c ps pend t Hb
    | db c ps pend1 t pend2 Hb]; intros Hinv.
  - destruct Hinv as [Hg Hok]. split; simpl in *; [by constructor|]. intros t' Ht. destruct (Hok t' Ht) as [He Hp].
    split; simpl in *; [done|]. by constructor.
  - destruct Hinv as [Hg Hok]; simpl in *. split; simpl.
    + rewrite Forall_app, Forall_cons in *. done.
    + intros t' Ht. destruct (Hok t' Ht) as [He Hp]; simpl in *. split; simpl; [done|].
      rewrite Forall_app, Forall_cons in *. destruct Hp as (H1 & H2 & H3). split_and!; [done| |done]. simpl.
      intros <- Hpg. constructor; [apply read_fact_ok|auto].
  - destruct Hinv as [Hg Hok]; simpl in *.
    assert (Hgn := write_back_generation c (pr_table p) fact (pr_gen p)). split; simpl.
    + by rewrite Hgn.
    + intros t' Ht. destruct (Hok t' Ht) as [He Hp]; simpl in *. split; simpl; [|by rewrite Hgn].
      destruct (decide (pr_table p = t' /\ pr_gen p = generation c)) as [[<- Hpg]|Hne].
      * apply write_back_ok; [|done]. rewrite Forall_app, Forall_cons in Hp. destruct Hp as (_ & Hp & _).
        specialize (Hp eq_refl Hpg). rewrite Forall_forall in Hp. by apply Hp.
      * rewrite write_back_entry; [done|]. destruct (decide (pr_table p = t')); [right|left]; naive_solver.
  - destruct Hinv as [Hg Hok]; simpl in *. rewrite Forall_app, Forall_cons in Hg. split; simpl.
    + rewrite Forall_app. tauto.
    + intros t' Ht. destruct (Hok t' Ht) as [He Hp]; simpl in *. rewrite Forall_app, Forall_cons in Hp.
      split; simpl; [done|]. rewrite Forall_app. tauto.
  - destruct Hinv as [Hg Hok]; simpl in *. split; simpl; [done|]. intros t' [Hne Ht]%not_elem_of_cons.
    destruct (Hok t' Ht) as [He Hp]; simpl in *.
    assert (Ed : db t' = if t' =s t then facts else db t') by (by destruct (String.eqb_spec t' t)).
    split; simpl; [by eapply entry_ok_ext|]. eapply Forall_impl; [exact Hp|]. intros p H1 H2 H3.
    eapply Forall_impl; [by apply H1|]. intros fact. by apply fact_ok_ext.
  - destruct Hinv as [Hg Hok]; simpl in *. split; simpl; [done|]. intros t' Ht.
    destruct (Hok t' Ht) as [He Hp]; simpl in *. destruct (decide (t' = t)) as [->|Hne].
    + split; simpl; [by apply entry_ok_created|]. eapply Forall_impl; [exact Hp|]. intros p H1 H2 H3.
      eapply Forall_impl; [by apply H1|]. intros fact. by apply fact_ok_created.
    + assert (Ed : db t' = if t' =s t then Some facts else db t') by (by destruct (String.eqb_spec t' t)).
      split; simpl; [by eapply entry_ok_ext|]. eapply Forall_impl; [exact Hp|]. intros p H1 H2 H3.
      eapply Forall_impl; [by apply H1|]. intros fact. by apply fact_ok_ext.
  - apply (inv_bumped db c (fun c => invalidate c t) ps (pend1 ++ t :: pend2)); [done..|].
    intros t' Ht. rewrite entry_invalidate. destruct (String.eqb_spec t t') as [->|Hne]; [by left|right].
    split; [|done]. rewrite elem_of_app, elem_of_cons in *. naive_solver.
  - apply (inv_bumped db c (fun c => invalidate c t) ps pend); [done..|].
    intros t' Ht. rewrite entry_invalidate. destruct (String.eqb_spec t t') as [->|Hne]; [by left|by right].
  - apply (inv_bumped db c clear ps (pend1 ++ t :: pend2)); [done..|]. intros t' _. left.
    unfold entry, clear. simpl. by rewrite lookup_empty.
Qed.

Lemma schema_start_inv db : schema_inv (schema_start db).
Proof.
  split; simpl; [constructor|]. intros t _. split; simpl; [|constructor].
  unfold entry. simpl. rewrite lookup_empty. apply entry_default_ok.
Qed.

Lemma schema_run_inv s s' : cache_run foreign s s' -> schema_inv s -> schema_inv s'.
Proof. induction 1; eauto using schema_step_inv. Qed.
End Coherence.

Lemma entry_lookup c t {A} (field : TableSchema -> option A) a :
  sc_tables c !! t ≫= field = Some a -> field (entry c t) = Some a.
Proof. unfold entry. by destruct (sc_tables c !! t). Qed.

(** C28: in every state that probes, schema changes and invalidations reach in
    any order, whatever the cache says of a table with no change awaiting its
    invalidation is what the database says now - its existence, columns, id
    policy and primary key - except that an empty key may be stale when other
    processes create tables. *)
Theorem cache_coherent (foreign : bool) (db : Catalog) (s : SchemaState) (t : string) :
  cache_run foreign (schema_start db) s -> t ∉ ss_pending s ->
  (table_known_present (ss_cache s) t = true -> is_some (ss_db s t) = true)
  /\ (forall c, cached_columns (ss_cache s) t = Some c -> fa_columns <$> ss_db s t = Some c)
  /\ (forall p, cached_id_policy (ss_cache s) t = Some p -> fa_policy <$> ss_db s t = Some p)
  /\ (forall k, cached_primary_key (ss_cache s) t = Some k -> foreign = false \/ k <> [] ->
        fa_key <$> ss_db s t = Some k).
Proof.
  intros Hrun Ht. pose proof (schema_run_inv foreign _ _ Hrun (schema_start_inv foreign db)) as [_ Hok].
  destruct (Hok t Ht) as [(Hp & Hc & Hk & Hi) _]. split_and!.
  - unfold table_known_present. intros Hpres. destruct (sc_tables (ss_cache s) !! t) as [e|] eqn:E; [|done].
    destruct Hp as (f & -> & _); [|done]. unfold entry. by rewrite E.
  - intros c E. apply entry_lookup, Hc in E as (f & -> & <-). done.
  - intros p E. apply entry_lookup, Hi in E as (f & -> & <-). done.
  - intros k E Hs. apply entry_lookup, Hk in E as (f & -> & <-); done.
Qed.

(** ** Two runs *)

Definition facts_of (columns key : list string) : TableFacts := mkTableFacts (mkTableColumns columns []) key IdPolicy.Mint.


(** A column list read before a column is added and written back after its
    invalidation is dropped; the next probe records the new one. *)
Definition added_column : SchemaState :=
  mkSchemaState (fun t' => if t' =s "t" then Some (facts_of ["id"; "n"] ["id"]) else Some (facts_of ["id"] ["id"]))
    (set_columns_if_gen
       (write_back (invalidate schema_cache_new "t") "t" (FactColumns (mkTableColumns ["id"] [])) 0)
       "t" (mkTableColumns ["id"; "n"] []) 1)
    [mkProbe "t" 1 [FactColumns (mkTableColumns ["id"; "n"] [])]; mkProbe "t" 0 [FactColumns (mkTableColumns ["id"] [])]] [].

Lemma added_column_run : cache_run false (schema_start (fun _ => Some (facts_of ["id"] ["id"]))) added_column.
Proof.
  unfold schema_start, added_column.
  eapply rtc_l; [apply (step_begin false _ _ _ _ "t")|].
  eapply rtc_l; [apply (step_read false _ _ [] _ [] _ AskColumns)|].
  eapply rtc_l; [apply (step_change false _ _ _ _ "t" (Some (facts_of ["id"; "n"] ["id"])))|].
  eapply rtc_l; [apply (step_invalidate false _ _ _ [] "t" []); vm_compute; reflexivity|].
  eapply rtc_l; [apply (step_write false _ _ [] _ [] _ (FactColumns (mkTableColumns ["id"] []))); repeat constructor|].
  eapply rtc_l; [apply (step_begin false _ _ _ _ "t")|].
  eapply rtc_l; [apply (step_read false _ _ [] _ _ _ AskColumns)|].
  eapply rtc_l; [apply (step_write false _ _ [] _ _ _ (FactColumns (mkTableColumns ["id"; "n"] []))); repeat constructor|].
  apply rtc_refl.
Qed.

Lemma cache_coherent_witness :
  cached_columns (ss_cache added_column) "t" = Some (mkTableColumns ["id"; "n"] [])
  /\ fa_columns <$> ss_db added_column "t" = Some (mkTableColumns ["id"; "n"] []).
Proof.
  split; [reflexivity|].
  apply (cache_coherent false (fun _ => Some (facts_of ["id"] ["id"])) added_column "t");
    [exact added_column_run | apply not_elem_of_nil | reflexivity].
Defined.

(** A table another process creates between the key's introspection and the
    existence probe is left with an empty key in the cache, though it has
    one. *)
Theorem empty_key_race : exists s,
  cache_run true (schema_start (fun _ => None)) s /\ ss_pending s = [] /\
  cached_primary_key (ss_cache s) "t" = Some [] /\ fa_key <$> ss_db s "t" = Some ["id"].
Proof.
  eexists. split.
  - unfold schema_start.
    eapply rtc_l; [apply (step_begin true _ _ _ _ "t")|].
    eapply rtc_l; [apply (step_read true _ _ [] _ [] _ AskKey)|].
    eapply rtc_l; [by apply (step_create true _ _ _ _ "t" (facts_of ["id"] ["id"]))|].
    eapply rtc_l; [apply (step_read true _ _ [] _ [] _ AskPresent)|].
    eapply rtc_l; [apply (step_write true _ _ [] _ [] _ (FactPresent true)); repeat constructor|].
    eapply rtc_l; [apply (step_write true _ _ [] _ [] _ (FactKey [])); repeat constructor|].
    apply rtc_refl.
  - by repeat split.
Qed.
