(* ===== verification/SqlStatements.v ===== *)
(** The SQL builders of [wafer-sql-utils] beyond row statements: upserts
    ([upsert.rs]), guarded writes ([guard.rs]) and aggregates
    ([aggregate.rs], [AggregateSpec::into_grouped_config] of
    [wafer-core/src/interfaces/database/service.rs]). *)

From Stdlib Require Import SpecFloat.
From stdpp Require Import pretty.
From S2P Require Import Prelude CoreTypes BlockName Text InitAttempts DatabaseTypes DatabaseConvert SqlQuery.

Module AggFunc.
Inductive t := Count | Sum | SumOrZero | Avg | Max | Min | CountGroups | Coalesce (default : Value).
End AggFunc.

Section Builders.
  Context `{SeaQuery}.

(** ** Upserts ([upsert.rs]) *)

(** [upsert_query]. *)
Definition upsert_query (table : string) (data : list (string * Value)) (conflict_columns update_columns : list string) :
    InsertStatement :=
  mkInsert table (map fst data) (InsertValues (map (fun kv => bound kv.2) data))
    (Some (mkOnConflict conflict_columns
             (match update_columns with [] => DoNothing | _ => DoUpdate (map (fun c => (c, None)) update_columns) end)))
    false.

Definition build_upsert (table : string) (data : list (string * Value)) (conflict_columns update_columns : list string)
    (backend : Backend.t) : Statement :=
  statement_new (render_insert (upsert_query table data conflict_columns update_columns) backend) table.

Definition build_upsert_returning (table : string) (data : list (string * Value))
    (conflict_columns update_columns : list string) (backend : Backend.t) : Statement :=
  statement_new (render_insert (insert_returning_all (upsert_query table data conflict_columns update_columns)) backend) table.

(** The first name that an earlier one repeats. *)
Fixpoint repeated (seen names : list string) : option string :=
  match names with
  | [] => None
  | name :: names => if existsb (String.eqb name) seen then Some name else repeated (seen ++ [name]) names
  end.

Definition bigint (z : Z) : Expr.t := Expr.Val (SeaValue.BigInt (Some z)).
Definition text (s : string) : Expr.t := bound (VString s).

(** [windowed_counter_upsert_query]. *)
Definition windowed_counter_upsert_query (table conflict_column id conflict_value count_field window_field : string)
    (created_fields updated_fields : list string) (stamped_at : string) (now window_cutoff : Z) :
    result InsertStatement SqlBuildError.t :=
  let? conflict_column := validate_ident conflict_column in
  let? count_field := validate_ident count_field in
  let? window_field := validate_ident window_field in
  let? created_fields := try_map validate_ident created_fields in
  let? updated_fields := try_map validate_ident updated_fields in
  let column_names := ["id"; conflict_column; count_field; window_field] ++ created_fields ++ updated_fields in
  match repeated [] column_names with
  | Some column => Err (SqlBuildError.DuplicateColumn column)
  | None =>
      let stamps := map (fun _ => text stamped_at) in
      let values := [text id; text conflict_value; bound (json_of_Z 1); bound (json_of_Z now)]
                    ++ stamps created_fields ++ stamps updated_fields in
      let stored (field : string) := Expr.TableCol table field in
      let expired := Expr.Binary (stored window_field) BinOper.Lt (bigint window_cutoff) in
      let count_case :=
        Expr.Case expired (bigint 1)
          (Expr.Binary (stored count_field) BinOper.Add (Expr.Val (SeaValue.Integer (Some 1%Z)))) in
      let window_case := Expr.Case expired (bigint now) (stored window_field) in
      let set := [(count_field, Some count_case); (window_field, Some window_case)]
                 ++ map (fun field => (field, Some (text stamped_at))) updated_fields in
      Ok (mkInsert table column_names (InsertValues values)
            (Some (mkOnConflict [conflict_column] (DoUpdate set))) false)
  end.

Definition build_windowed_counter_upsert (table conflict_column id conflict_value count_field window_field : string)
    (created_fields updated_fields : list string) (stamped_at : string) (now window_cutoff : Z) (backend : Backend.t) :
    result Statement SqlBuildError.t :=
  let? query := windowed_counter_upsert_query table conflict_column id conflict_value count_field window_field
                  created_fields updated_fields stamped_at now window_cutoff in
  Ok (statement_new (render_insert query backend) table).

Definition build_windowed_counter_upsert_returning
    (table conflict_column id conflict_value count_field window_field : string)
    (created_fields updated_fields : list string) (stamped_at : string) (now window_cutoff : Z) (backend : Backend.t) :
    result Statement SqlBuildError.t :=
  let? query := windowed_counter_upsert_query table conflict_column id conflict_value count_field window_field
                  created_fields updated_fields stamped_at now window_cutoff in
  Ok (statement_new (render_insert (insert_returning_all query) backend) table).

(** ** Guarded writes ([guard.rs]) *)

Definition count_all : Expr.t := Expr.Call Func.Count [Expr.Asterisk].

(** [aggregate_subquery]. *)
Definition aggregate_subquery (table : string) (aggregate : Expr.t) (filters : list Filter) (backend : Backend.t) : Expr.t :=
  Expr.SubQuery aggregate table (of_option (build_condition filters backend)).

(** [guard_holds]. *)
Definition guard_holds (table : string) (guard : CapGuard.t) (backend : Backend.t) : result Expr.t SqlBuildError.t :=
  match guard with
  | CapGuard.CountBelow filters cap =>
      Ok (Expr.Binary (aggregate_subquery table count_all filters backend) BinOper.Lt (bigint cap))
  | CapGuard.SumAtMost field filters add cap =>
      let? field := validate_ident field in
      let sum := Expr.Call Func.Coalesce [Expr.Call Func.Sum [Expr.Col field]; bigint 0] in
      Ok (Expr.Binary
            (Expr.Binary (aggregate_subquery table sum filters backend) BinOper.Add (bigint add)) BinOper.Lte (bigint cap))
  end.

(** [guard_condition]. *)
Definition guard_condition (table : string) (guards : list CapGuard.t) (backend : Backend.t) :
    result (option Expr.t) SqlBuildError.t :=
  match guards with
  | [] => Ok None
  | _ => let? items := try_map (fun g => guard_holds table g backend) guards in Ok (Some (Expr.All items))
  end.

(** [guard_probe_column]. *)
Definition guard_probe_column (index : nat) : string := "g" +:+ pretty index.

(** The verdict columns of [build_guard_probe], from the [index]th guard on. *)
Fixpoint guard_verdicts (table : string) (index : nat) (guards : list CapGuard.t) (backend : Backend.t) :
    result (list (Expr.t * option string)) SqlBuildError.t :=
  match guards with
  | [] => Ok []
  | guard :: guards =>
      let? holds := guard_holds table guard backend in
      let? verdicts := guard_verdicts table (S index) guards backend in
      Ok ((Expr.Case holds (Expr.Cust "1") (Expr.Cust "0"), Some (guard_probe_column index)) :: verdicts)
  end.

Definition guard_probe_query (table : string) (guards : list CapGuard.t) (backend : Backend.t) :
    result SelectStatement SqlBuildError.t :=
  let? verdicts := guard_verdicts table 0 guards backend in
  Ok (fold_left (fun q v => add_select q v.1 v.2) verdicts select_new).

Definition build_guard_probe (table : string) (guards : list CapGuard.t) (backend : Backend.t) :
    result Statement SqlBuildError.t :=
  let? query := guard_probe_query table guards backend in
  Ok (statement_new (render_select query backend) table).

Definition insert_guarded_query (table : string) (data : list (string * Value)) (guards : list CapGuard.t)
    (backend : Backend.t) : result InsertStatement SqlBuildError.t :=
  let select := fold_left (fun q kv => add_select q (bound kv.2) None) data select_new in
  let? cond := guard_condition table guards backend in
  Ok (mkInsert table (map fst data) (InsertSelect (where_option select cond)) None true).

Definition build_insert_guarded (table : string) (data : list (string * Value)) (guards : list CapGuard.t)
    (backend : Backend.t) : result Statement SqlBuildError.t :=
  let? query := insert_guarded_query table data guards backend in
  Ok (statement_new (render_insert query backend) table).

Definition update_guarded_query (table : string) (data : list (string * Value)) (filters : list Filter)
    (guards : list CapGuard.t) (backend : Backend.t) : result UpdateStatement SqlBuildError.t :=
  let? cond := guard_condition table guards backend in
  Ok (mkUpdateStatement table (set_data data) (of_option (build_condition filters backend) ++ of_option cond) false).

Definition build_update_guarded (table : string) (data : list (string * Value)) (filters : list Filter)
    (guards : list CapGuard.t) (backend : Backend.t) : result Statement SqlBuildError.t :=
  let? query := update_guarded_query table data filters guards backend in
  Ok (statement_new (render_update query backend) table).

Definition GUARD_LOCK_NAMESPACE : string := "wafer.guarded_write".

(** [build_guard_preamble]. *)
Definition build_guard_preamble (table : string) (backend : Backend.t) : list Statement :=
  match backend with
  | Backend.Sqlite => []
  | Backend.Postgres =>
      [ mkStatement "SET TRANSACTION ISOLATION LEVEL READ COMMITTED" [] table;
        mkStatement "SELECT pg_advisory_xact_lock(hashtext($1), hashtext($2))"
          [SeaValue.String (Some GUARD_LOCK_NAMESPACE); SeaValue.String (Some table)] table ]
  end.

(** ** Aggregates ([aggregate.rs]) *)

Definition agg_select_query (table : string) (expr : Expr.t) (alias : string) (filters : list Filter)
    (extra_condition : option Expr.t) (backend : Backend.t) : SelectStatement :=
  where_option
    (where_option (set_from (add_select select_new expr (Some alias)) table) (build_condition filters backend))
    extra_condition.

(** [agg_select]. *)
Definition agg_select (table : string) (expr : Expr.t) (alias : string) (filters : list Filter)
    (extra_condition : option Expr.t) (backend : Backend.t) : Statement :=
  statement_new (render_select (agg_select_query table expr alias filters extra_condition backend) backend) table.

Definition build_count_with_condition (table : string) (filters : list Filter) (extra_condition : option Expr.t)
    (backend : Backend.t) : Statement :=
  agg_select table count_all "cnt" filters extra_condition backend.

Definition build_count (table : string) (filters : list Filter) (backend : Backend.t) : Statement :=
  build_count_with_condition table filters None backend.

(** The [0.0] of a missing sum. *)
Definition double_zero : Expr.t := Expr.Val (SeaValue.Double (Some (S754_zero false))).

Definition sum_expr (field : string) : Expr.t :=
  Expr.Call Func.Coalesce
    [Expr.CastAs (Expr.Call Func.Sum [Expr.Col field]) (CastType.as_sql CastType.Double); double_zero].

Definition build_sum (table field : string) (filters : list Filter) (backend : Backend.t) : Statement :=
  agg_select table (sum_expr field) "total" filters None backend.

Definition dquote : string := String (ascii_of_N 34) "".

(** [date_bucket_expr]. *)
Definition date_bucket_expr (field : string) (backend : Backend.t) : result Expr.t SqlBuildError.t :=
  let? field := validate_ident field in
  Ok (Expr.Cust match backend with
                | Backend.Sqlite => "date(" +:+ dquote +:+ field +:+ dquote +:+ ")"
                | Backend.Postgres => "to_char(CAST(" +:+ dquote +:+ field +:+ dquote +:+ " AS DATE), 'YYYY-MM-DD')"
                end).

Definition build_daily_count (table date_field : string) (filters : list Filter) (backend : Backend.t) :
    result Statement SqlBuildError.t :=
  let? date_expr := date_bucket_expr date_field backend in
  let query := add_select (add_select select_new date_expr (Some "day")) count_all (Some "cnt") in
  let query := where_option (set_from query table) (build_condition filters backend) in
  let query := order_by (add_group query date_expr) "day" false in
  Ok (statement_new (render_select query backend) table).

Definition build_avg (table field : string) (filters : list Filter) (backend : Backend.t) : Statement :=
  agg_select table (Expr.Call Func.Avg [Expr.Col field]) "avg_val" filters None backend.

Record AggregateColumn := mkAggregateColumn {
  ac_func : AggFunc.t; ac_field : option string; ac_alias : string; ac_cast_as : option CastType.t;
  ac_inner_expr : option Expr.t
}.

(** [AggregateColumn::count_groups], [case_when_sum], [sum_where]. *)
Definition count_groups (alias : string) : AggregateColumn := mkAggregateColumn AggFunc.CountGroups None alias None None.
Definition case_when_sum (alias : string) (when : Expr.t) : AggregateColumn :=
  mkAggregateColumn AggFunc.SumOrZero None alias None (Some (Expr.Case when (Expr.Cust "1") (Expr.Cust "0"))).
Definition sum_where (alias field : string) (when : Expr.t) : AggregateColumn :=
  mkAggregateColumn AggFunc.SumOrZero None alias None (Some (Expr.Case when (Expr.Col field) (Expr.Cust "0"))).

Record DateBucketGroup := mkDateBucketGroup { db_field : string; db_alias : string }.

Record GroupedQueryConfig := mkGroupedQueryConfig {
  gq_table : string; gq_select_columns : list string; gq_aggregates : list AggregateColumn; gq_filters : list Filter;
  gq_group_by : list string; gq_date_buckets : list DateBucketGroup; gq_having : list Filter;
  gq_order_by : list SortField; gq_limit : option Z; gq_offset : Z
}.

(** An aggregate's expression. *)
Definition aggregate_expr (agg : AggregateColumn) : Expr.t :=
  let inner := match ac_inner_expr agg, ac_field agg with
               | Some expr, _ => expr
               | None, Some f => Expr.Col f
               | None, None => Expr.Asterisk
               end in
  let agg_expr :=
    match ac_func agg with
    | AggFunc.Count => Expr.Call Func.Count [inner]
    | AggFunc.Sum => Expr.Call Func.Sum [inner]
    | AggFunc.SumOrZero => Expr.Call Func.Coalesce [Expr.Call Func.Sum [inner]; Expr.Cust "0"]
    | AggFunc.Avg => Expr.Call Func.Avg [inner]
    | AggFunc.Max => Expr.Call Func.Max [inner]
    | AggFunc.Min => Expr.Call Func.Min [inner]
    | AggFunc.Coalesce default => Expr.Call Func.Coalesce [inner; bound default]
    | AggFunc.CountGroups => Expr.Cust "COUNT(*) OVER ()"
    end in
  match ac_cast_as agg with
  | Some cast_type => Expr.CastAs agg_expr (CastType.as_sql cast_type)
  | None => agg_expr
  end.

Definition is_count_groups (f : AggFunc.t) : bool := match f with AggFunc.CountGroups => true | _ => false end.

(** The predicates of [HAVING], each on its aggregate's expression. *)
Definition having_predicate (aggregates : list AggregateColumn) (backend : Backend.t) (filter : Filter) :
    result Expr.t SqlBuildError.t :=
  match List.find (fun agg => ac_alias agg =s f_field filter)
          (List.filter (fun agg => negb (is_count_groups (ac_func agg))) aggregates) with
  | Some agg => Ok (predicate_on (aggregate_expr agg) filter backend)
  | None => Err (SqlBuildError.InvalidHaving (f_field filter))
  end.

Fixpoint add_date_buckets (q : SelectStatement) (buckets : list DateBucketGroup) (backend : Backend.t) :
    result SelectStatement SqlBuildError.t :=
  match buckets with
  | [] => Ok q
  | bucket :: buckets =>
      let? expr := date_bucket_expr (db_field bucket) backend in
      add_date_buckets (add_group (add_select q expr (Some (db_alias bucket))) expr) buckets backend
  end.

(** [u32::try_from(limit).unwrap_or(u32::MAX)] of a positive limit. *)
Definition positive_limit (limit : option Z) : option N :=
  match limit with
  | Some l => if (0 <? l)%Z then Some (N.min (Z.to_N l) (2 ^ 32 - 1)) else None
  | None => None
  end.

Definition grouped_query (cfg : GroupedQueryConfig) (backend : Backend.t) : result SelectStatement SqlBuildError.t :=
  let limit := positive_limit (gq_limit cfg) in
  let? _ := check_pagination limit (gq_offset cfg) in
  let query := set_from select_new (gq_table cfg) in
  let query := fold_left (fun q col => add_select q (Expr.Col col) None) (gq_select_columns cfg) query in
  let query := fold_left (fun q agg => add_select q (aggregate_expr agg) (Some (ac_alias agg))) (gq_aggregates cfg) query in
  let query := where_option query (build_condition (gq_filters cfg) backend) in
  let query := fold_left (fun q col => add_group q (Expr.Col col)) (gq_group_by cfg) query in
  let? query := add_date_buckets query (gq_date_buckets cfg) backend in
  let? query := match gq_having cfg with
                | [] => Ok query
                | having => let? items := try_map (having_predicate (gq_aggregates cfg) backend) having in
                            Ok (cond_having query (Expr.All items))
                end in
  Ok (limit_and_offset (apply_order query (gq_order_by cfg)) limit (gq_offset cfg)).

(** [build_grouped_query]. *)
Definition build_grouped_query (cfg : GroupedQueryConfig) (backend : Backend.t) : result Statement SqlBuildError.t :=
  let? query := grouped_query cfg backend in
  Ok (statement_new (render_select query backend) (gq_table cfg)).

(** [AggregateSpec::into_grouped_config]. *)
Definition into_aggregate_column (backend : Backend.t) (a : AggregateColumnSpec.t) : AggregateColumn :=
  match a with
  | AggregateColumnSpec.Count alias => mkAggregateColumn AggFunc.Count None alias None None
  | AggregateColumnSpec.Sum field alias cast_as => mkAggregateColumn AggFunc.Sum (Some field) alias cast_as None
  | AggregateColumnSpec.Avg field alias cast_as => mkAggregateColumn AggFunc.Avg (Some field) alias cast_as None
  | AggregateColumnSpec.Max field alias => mkAggregateColumn AggFunc.Max (Some field) alias None None
  | AggregateColumnSpec.CaseWhenSum when alias => case_when_sum alias (tree_to_simple_expr when backend)
  | AggregateColumnSpec.SumWhere field when alias cast_as =>
      let column := sum_where alias field (tree_to_simple_expr when backend) in
      mkAggregateColumn (ac_func column) (ac_field column) (ac_alias column) cast_as (ac_inner_expr column)
  | AggregateColumnSpec.CountGroups alias => count_groups alias
  end.

Definition into_grouped_config (spec : AggregateSpec) (table : string) (backend : Backend.t) : GroupedQueryConfig :=
  mkGroupedQueryConfig table (as_select_columns spec) (map (into_aggregate_column backend) (as_aggregates spec))
    (as_filters spec)
    (flat_map (fun g => match g with GroupBySpec.Column c => [c] | GroupBySpec.DateBucket _ => [] end) (as_group_by spec))
    (flat_map (fun g => match g with
                        | GroupBySpec.Column _ => []
                        | GroupBySpec.DateBucket field => [mkDateBucketGroup field field]
                        end) (as_group_by spec))
    (as_having spec) (as_sort spec) (if (0 <? as_limit spec)%Z then Some (as_limit spec) else None) (as_offset spec).
End Builders.
