(* ===== verification/SqlText.v ===== *)
(** The SQL texts [wafer-sql-utils] writes itself: schema statements
    ([ddl.rs]) and introspection ([introspect.rs]).

    The [Display] of a float is the class [FloatFormat]. *)

From stdpp Require Import pretty.
From S2P Require Import Prelude CoreTypes BlockName Text InitAttempts DatabaseTypes SqlQuery DatabaseConvert SchemaCache.

(** [f64]'s [Display]. *)
Class FloatFormat := { display_f64 : f64 -> string }.

Definition dq : string := String (ascii_of_N 34) "".

(** A text between double quotes. *)
Definition quoted (s : string) : string := dq +:+ s +:+ dq.

Definition ascii_upper (c : ascii) : ascii := if is_ascii_lowercase c then ascii_of_N (byte_of c - 32) else c.
Definition to_ascii_uppercase (s : string) : string := str_map ascii_upper s.

(** ** Schema statements ([ddl.rs]) *)

Section Ddl.
  Context `{FloatFormat} `{DebugFormat}.

(** [quote_ident]. *)
Definition quote_ident (name : string) : result string SqlBuildError.t :=
  let? name := validate_ident name in Ok (quoted name).

(** [validate_fk_action]. *)
Definition validate_fk_action (action : string) : result string SqlBuildError.t :=
  let a := to_ascii_uppercase (trim action) in
  if a =s "CASCADE" then Ok "CASCADE"
  else if a =s "SET NULL" then Ok "SET NULL"
  else if a =s "SET DEFAULT" then Ok "SET DEFAULT"
  else if a =s "NO ACTION" then Ok "NO ACTION"
  else if a =s "RESTRICT" then Ok "RESTRICT"
  else Err (SqlBuildError.InvalidFkAction action).

Definition SQLITE_JSON_TYPE : string := "JSON TEXT".

(** [data_type_to_sql]. *)
Definition data_type_to_sql (dt : DataType.t) (backend : Backend.t) : string :=
  match backend with
  | Backend.Sqlite =>
      match dt with
      | DataType.String | DataType.Text => "TEXT"
      | DataType.Int | DataType.Int64 => "INTEGER"
      | DataType.Float => "REAL"
      | DataType.Bool => "INTEGER"
      | DataType.DateTime => "DATETIME"
      | DataType.Json => SQLITE_JSON_TYPE
      | DataType.Blob => "BLOB"
      end
  | Backend.Postgres =>
      match dt with
      | DataType.String | DataType.Text => "TEXT"
      | DataType.Int => "INTEGER"
      | DataType.Int64 => "BIGINT"
      | DataType.Float => "DOUBLE PRECISION"
      | DataType.Bool => "BOOLEAN"
      | DataType.DateTime => "TIMESTAMPTZ"
      | DataType.Json => "JSONB"
      | DataType.Blob => "BYTEA"
      end
  end.

(** [string_literal]. *)
Definition string_literal (s : string) (backend : Backend.t) : result string SqlBuildError.t :=
  if has_nul s then Err (SqlBuildError.InvalidDefault "a string default cannot contain a NUL character")
  else Ok match backend with
          | Backend.Sqlite => "'" +:+ replace_char "'" "''" s +:+ "'"
          | Backend.Postgres => "E'" +:+ replace_char "'" "''" (replace_char "\" "\\" s) +:+ "'"
          end.

(** [default_to_sql]. *)
Definition default_to_sql (d : DefaultValue) (backend : Backend.t) : result string SqlBuildError.t :=
  match d with
  | DefaultNull => Ok "NULL"
  | DefaultNow => Ok match backend with Backend.Sqlite => "CURRENT_TIMESTAMP" | Backend.Postgres => "NOW()" end
  | DefaultLiteral (DefaultString s) => string_literal s backend
  | DefaultLiteral (DefaultInt i) => Ok (pretty i)
  | DefaultLiteral (DefaultFloat f) =>
      if is_finite f then Ok (display_f64 f)
      else Err (SqlBuildError.InvalidDefault (display_f64 f +:+ " has no SQL literal"))
  | DefaultLiteral (DefaultBool b) =>
      Ok match backend with
         | Backend.Sqlite => if b then "1" else "0"
         | Backend.Postgres => if b then "TRUE" else "FALSE"
         end
  end.

(** The tail of a column's definition from its nullability on. *)
Definition column_tail (sql : string) (col : Column) (backend : Backend.t) : result string SqlBuildError.t :=
  let sql := if negb (co_nullable col) && negb (co_primary_key col) then sql +:+ " NOT NULL" else sql in
  let sql := if co_unique col && negb (co_primary_key col) then sql +:+ " UNIQUE" else sql in
  match co_default col with
  | Some default => let? d := default_to_sql default backend in Ok (sql +:+ " DEFAULT " +:+ d)
  | None => Ok sql
  end.

(** [column_to_sql]. *)
Definition column_to_sql (col : Column) (backend : Backend.t) : result string SqlBuildError.t :=
  let? qname := quote_ident (co_name col) in
  let sql := qname +:+ " " +:+ data_type_to_sql (co_data_type col) backend in
  let sql := if co_primary_key col && negb (co_auto_increment col) then sql +:+ " PRIMARY KEY" else sql in
  if co_auto_increment col then
    match backend with
    | Backend.Sqlite => column_tail (qname +:+ " INTEGER PRIMARY KEY AUTOINCREMENT") col backend
    | Backend.Postgres =>
        let s := qname +:+ " SERIAL PRIMARY KEY" in
        match co_default col with
        | Some default => let? d := default_to_sql default backend in Ok (s +:+ " DEFAULT " +:+ d)
        | None => Ok s
        end
    end
  else column_tail sql col backend.

Definition newline : string := String (ascii_of_N 10) "".

(** The clause of a key's columns. *)
Definition key_clause (word : string) (key : list string) : result string SqlBuildError.t :=
  let? quoted := try_map quote_ident key in
  Ok ("," +:+ newline +:+ "    " +:+ word +:+ "(" +:+ join ", " quoted +:+ ")").

(** A referential action, if there is one. *)
Definition fk_action_clause (word action : string) : result string SqlBuildError.t :=
  if is_empty action then Ok "" else let? a := validate_fk_action action in Ok (word +:+ a).

Definition foreign_key_clause (col : Column) : result string SqlBuildError.t :=
  match co_references col with
  | None => Ok ""
  | Some refs =>
      let? name := quote_ident (co_name col) in
      let? table := quote_ident (ref_table refs) in
      let? column := quote_ident (ref_column refs) in
      let? on_delete := fk_action_clause " ON DELETE " (ref_on_delete refs) in
      let? on_update := fk_action_clause " ON UPDATE " (ref_on_update refs) in
      Ok ("," +:+ newline +:+ "    FOREIGN KEY (" +:+ name +:+ ") REFERENCES " +:+ table +:+ "(" +:+ column +:+ ")"
          +:+ on_delete +:+ on_update)
  end.

(** The text of every piece, in order; the first failure ends it. *)
Fixpoint concat_results (l : list (result string SqlBuildError.t)) : result string SqlBuildError.t :=
  match l with
  | [] => Ok ""
  | r :: l => let? s := r in let? rest := concat_results l in Ok (s +:+ rest)
  end.

Definition column_lines (backend : Backend.t) (columns : list Column) : result (list string) SqlBuildError.t :=
  try_map (fun col => let? c := column_to_sql col backend in Ok ("    " +:+ c)) columns.

(** [build_create_table]. *)
Definition build_create_table (table : Table) (backend : Backend.t) : result Statement SqlBuildError.t :=
  let? qtable := quote_ident (ta_name table) in
  let? lines := column_lines backend (ta_columns table) in
  let? primary_key := match ta_primary_key table with [] => Ok "" | key => key_clause "PRIMARY KEY" key end in
  let? unique_keys := concat_results (map (key_clause "UNIQUE") (ta_unique_keys table)) in
  let? foreign_keys := concat_results (map foreign_key_clause (ta_columns table)) in
  Ok (mkStatement
        ("CREATE TABLE IF NOT EXISTS " +:+ qtable +:+ " (" +:+ newline +:+ join ("," +:+ newline) lines
         +:+ primary_key +:+ unique_keys +:+ foreign_keys +:+ newline +:+ ")")
        [] (ta_name table)).

(** The name an index without one gets: [_] and a column at a time. *)
Fixpoint index_name_columns (columns : list string) : result string SqlBuildError.t :=
  match columns with
  | [] => Ok ""
  | col :: columns =>
      let? col := validate_ident col in let? rest := index_name_columns columns in Ok ("_" +:+ col +:+ rest)
  end.

(** [build_create_index]. *)
Definition build_create_index (table_name : string) (idx : Index) (backend : Backend.t) : result Statement SqlBuildError.t :=
  let? name :=
    if is_empty (ix_name idx) then
      let? table := validate_ident table_name in
      let? columns := index_name_columns (ix_columns idx) in
      Ok ("idx_" +:+ table +:+ columns)
    else validate_ident (ix_name idx) in
  let? qtable := quote_ident table_name in
  let? quoted_cols := try_map quote_ident (ix_columns idx) in
  Ok (mkStatement
        ("CREATE " +:+ (if ix_unique idx then "UNIQUE " else "") +:+ "INDEX IF NOT EXISTS " +:+ name +:+ " ON " +:+ qtable
         +:+ "(" +:+ join ", " quoted_cols +:+ ")")
        [] table_name).

(** [build_fk_indexes]. *)
Definition build_fk_indexes (table : Table) (backend : Backend.t) : result (list Statement) SqlBuildError.t :=
  try_map (fun col => build_create_index (ta_name table) (mkIndex "" [co_name col] false) backend)
    (List.filter (fun col => is_some (co_references col)) (ta_columns table)).

(** [build_add_column]. *)
Definition build_add_column (table_name : string) (col : Column) (backend : Backend.t) : result Statement SqlBuildError.t :=
  let? qtable := quote_ident table_name in
  let? column := column_to_sql col backend in
  Ok (mkStatement ("ALTER TABLE " +:+ qtable +:+ " ADD COLUMN " +:+ column) [] table_name).

(** [build_drop_table]. *)
Definition build_drop_table (table_name : string) (backend : Backend.t) : result Statement SqlBuildError.t :=
  let? qtable := quote_ident table_name in
  Ok (mkStatement ("DROP TABLE IF EXISTS " +:+ qtable) [] table_name).
End Ddl.

(** ** Introspection ([introspect.rs]) *)

Definition PG_TABLE_KINDS : string := "('r','p','f','v')".
Definition PG_NOT_SYSTEM_SCHEMA : string := "n.nspname NOT IN ('pg_catalog', 'information_schema')".
Definition SQLITE_RESERVED_TABLE_PREFIXES : list string := ["sqlite_"; "_cf_"].

(** [sqlite_not_reserved]. *)
Definition sqlite_not_reserved : string :=
  String.concat "" (map (fun prefix => " AND name NOT LIKE '" +:+ escape_like prefix +:+ "%' ESCAPE '\'")
                      SQLITE_RESERVED_TABLE_PREFIXES).

(** The tables Postgres lists. *)
Definition pg_visible_tables : string :=
  "SELECT c.relname::text AS name FROM pg_catalog.pg_class c JOIN pg_catalog.pg_namespace n ON n.oid = c.relnamespace WHERE c.relkind IN "
  +:+ PG_TABLE_KINDS +:+ " AND pg_catalog.pg_table_is_visible(c.oid) AND " +:+ PG_NOT_SYSTEM_SCHEMA.

(** [build_list_tables]. *)
Definition build_list_tables (backend : Backend.t) : string :=
  match backend with
  | Backend.Sqlite => "SELECT name FROM sqlite_master WHERE type='table'" +:+ sqlite_not_reserved +:+ " ORDER BY name"
  | Backend.Postgres => pg_visible_tables +:+ " ORDER BY c.relname"
  end.

(** A statement and its bound parameters. *)
Abbreviation Query := (string * list Value)%type.

(** [build_list_tables_like]. *)
Definition build_list_tables_like (prefix : string) (backend : Backend.t) : Query :=
  let pattern := escape_like prefix +:+ "%" in
  match backend with
  | Backend.Sqlite =>
      ("SELECT name FROM sqlite_master WHERE type='table'" +:+ sqlite_not_reserved
       +:+ " AND name LIKE ?1 ESCAPE '\' ORDER BY name", [VString pattern])
  | Backend.Postgres => (pg_visible_tables +:+ " AND c.relname LIKE $1 ESCAPE E'\\' ORDER BY c.relname", [VString pattern])
  end.

(** [build_table_exists]. *)
Definition build_table_exists (table : string) (backend : Backend.t) : Query :=
  (match backend with
   | Backend.Sqlite => "SELECT EXISTS(SELECT 1 FROM sqlite_master WHERE type='table' AND name=?1) AS present"
   | Backend.Postgres =>
       "SELECT CASE WHEN EXISTS(SELECT 1 FROM pg_catalog.pg_class c WHERE c.oid = to_regclass(quote_ident($1)) AND c.relkind IN "
       +:+ PG_TABLE_KINDS +:+ ") THEN 1::int8 ELSE 0::int8 END AS present"
   end, [VString table]).

(** [build_list_columns]. *)
Definition build_list_columns (table : string) (backend : Backend.t) : Query :=
  (match backend with
   | Backend.Sqlite => "SELECT name, type AS decl_type FROM pragma_table_info(?1) ORDER BY cid"
   | Backend.Postgres =>
       "SELECT a.attname::text AS name, pg_catalog.format_type(a.atttypid, NULL) AS decl_type FROM pg_catalog.pg_attribute a WHERE a.attrelid = to_regclass(quote_ident($1)) AND a.attnum > 0 AND NOT a.attisdropped ORDER BY a.attnum"
   end, [VString table]).

(** [is_json_decl_type]. *)
Definition is_json_decl_type (decl_type : string) : bool :=
  existsb (eq_ignore_ascii_case (trim decl_type)) ["json"; "jsonb"; SQLITE_JSON_TYPE].

(** [build_list_primary_key]. *)
Definition build_list_primary_key (table : string) (backend : Backend.t) : Query :=
  (match backend with
   | Backend.Sqlite => "SELECT name FROM pragma_table_info(?1) WHERE pk > 0 ORDER BY pk"
   | Backend.Postgres =>
       "SELECT a.attname::text AS name FROM pg_catalog.pg_index i CROSS JOIN LATERAL unnest(i.indkey::int2[]) WITH ORDINALITY AS k(attnum, ord) JOIN pg_catalog.pg_attribute a ON a.attrelid = i.indrelid AND a.attnum = k.attnum WHERE i.indisprimary AND k.ord <= i.indnkeyatts AND i.indrelid = to_regclass(quote_ident($1)) ORDER BY k.ord"
   end, [VString table]).

(** [IdPolicy::from_code]. *)
Definition id_policy_from_code (code : Z) : option IdPolicy.t :=
  if (code =? 0)%Z then Some IdPolicy.Mint
  else if (code =? 1)%Z then Some IdPolicy.Database
  else if (code =? 2)%Z then Some IdPolicy.Caller
  else None.

(** [IdPolicyProbe]: a table's policy, or no table. *)
Module IdPolicyProbe.
Inductive t := Table (policy : IdPolicy.t) | NoTable.

(** [IdPolicyProbe::from_code]. *)
Definition from_code (code : Z) : option t :=
  if (code =? 3)%Z then Some NoTable else Table <$> id_policy_from_code code.
End IdPolicyProbe.

(** [build_id_policy]. *)
Definition build_id_policy (table : string) (backend : Backend.t) : Query :=
  (match backend with
   | Backend.Sqlite =>
       "SELECT CASE WHEN NOT EXISTS(SELECT 1 FROM sqlite_master WHERE type='table' AND name=?1) THEN 3 WHEN EXISTS(SELECT 1 FROM pragma_table_info(?1) WHERE pk = 1 AND name = 'id' COLLATE NOCASE) AND NOT EXISTS(SELECT 1 FROM pragma_table_info(?1) WHERE pk > 1) AND NOT EXISTS(SELECT 1 FROM pragma_index_list(?1) WHERE origin = 'pk') THEN 1 WHEN EXISTS(SELECT 1 FROM pragma_table_info(?1) WHERE name = 'id' COLLATE NOCASE AND upper(type) LIKE '%INT%') THEN 2 ELSE 0 END AS id_policy"
   | Backend.Postgres =>
       "SELECT CASE WHEN NOT EXISTS(SELECT 1 FROM pg_catalog.pg_class c WHERE c.oid = to_regclass(quote_ident($1)) AND c.relkind IN "
       +:+ PG_TABLE_KINDS
       +:+ ") THEN 3::int8 WHEN a.attidentity <> '' OR pg_catalog.pg_get_expr(d.adbin, d.adrelid) LIKE 'nextval(%' THEN 1::int8 WHEN a.atttypid IN ('int2'::regtype, 'int4'::regtype, 'int8'::regtype) THEN 2::int8 ELSE 0::int8 END AS id_policy FROM (SELECT 1) AS one LEFT JOIN pg_catalog.pg_attribute a ON a.attrelid = to_regclass(quote_ident($1)) AND a.attname = 'id' AND NOT a.attisdropped LEFT JOIN pg_catalog.pg_attrdef d ON d.adrelid = a.attrelid AND d.adnum = a.attnum"
   end, [VString table]).

(** [validate_catalog_name]. *)
Definition validate_catalog_name (table : string) : result string SqlBuildError.t :=
  if is_empty table || has_nul table then Err (SqlBuildError.InvalidIdentifier table) else Ok table.

(** [build_table_info]. *)
Definition build_table_info (table : string) (backend : Backend.t) : result Query SqlBuildError.t :=
  let? name := validate_catalog_name table in
  Ok (match backend with
      | Backend.Sqlite =>
          "SELECT name, type AS decl_type, " +:+ quoted "notnull"
          +:+ " AS not_null, dflt_value AS default_value, pk FROM pragma_table_xinfo(?1) WHERE hidden <> 1 ORDER BY cid"
      | Backend.Postgres =>
          "SELECT a.attname::text AS name, pg_catalog.format_type(a.atttypid, a.atttypmod) AS decl_type, CASE WHEN a.attnotnull THEN 1::int8 ELSE 0::int8 END AS not_null, CASE WHEN a.attgenerated = '' THEN pg_catalog.pg_get_expr(d.adbin, d.adrelid) END AS default_value, COALESCE((SELECT k.ord FROM pg_catalog.pg_index i CROSS JOIN LATERAL unnest(i.indkey::int2[]) WITH ORDINALITY AS k(attnum, ord) WHERE i.indrelid = a.attrelid AND i.indisprimary AND k.ord <= i.indnkeyatts AND k.attnum = a.attnum), 0)::int8 AS pk FROM pg_catalog.pg_attribute a JOIN pg_catalog.pg_class c ON c.oid = a.attrelid JOIN pg_catalog.pg_namespace n ON n.oid = c.relnamespace LEFT JOIN pg_catalog.pg_attrdef d ON d.adrelid = a.attrelid AND d.adnum = a.attnum WHERE a.attrelid = to_regclass(quote_ident($1)) AND c.relkind IN "
          +:+ PG_TABLE_KINDS +:+ " AND " +:+ PG_NOT_SYSTEM_SCHEMA +:+ " AND a.attnum > 0 AND NOT a.attisdropped ORDER BY a.attnum"
      end, [VString name]).

(** [build_catalog_table_exists]. *)
Definition build_catalog_table_exists (table : string) (backend : Backend.t) : result Query SqlBuildError.t :=
  let? name := validate_catalog_name table in
  Ok (match backend with
      | Backend.Sqlite =>
          "SELECT EXISTS(SELECT 1 FROM sqlite_master WHERE type='table'" +:+ sqlite_not_reserved +:+ " AND name=?1) AS present"
      | Backend.Postgres =>
          "SELECT CASE WHEN EXISTS(SELECT 1 FROM pg_catalog.pg_class c JOIN pg_catalog.pg_namespace n ON n.oid = c.relnamespace WHERE c.oid = to_regclass(quote_ident($1)) AND c.relkind IN "
          +:+ PG_TABLE_KINDS +:+ " AND " +:+ PG_NOT_SYSTEM_SCHEMA +:+ ") THEN 1::int8 ELSE 0::int8 END AS present"
      end, [VString name]).

(** [build_table_row_count]. *)
Definition build_table_row_count (table : string) (backend : Backend.t) : result string SqlBuildError.t :=
  let? safe := validate_ident table in Ok ("SELECT COUNT(*) AS cnt FROM " +:+ quoted safe).

(** [build_catalog_table_row_count]. *)
Definition build_catalog_table_row_count (table : string) (backend : Backend.t) : result string SqlBuildError.t :=
  let? name := validate_catalog_name table in
  Ok ("SELECT COUNT(*) AS cnt FROM " +:+ quoted (replace_char (ascii_of_N 34) (dq +:+ dq) name)).
