(* ===== verification/SqlTextProps.v ===== *)
(** What a database reads in the texts of [SqlText]: a reference reader of
    literals and quoted names, and a scanner of statements that follows the
    quoting rules of each dialect. A literal reads back as its string; a
    schema statement is one statement whatever its names and defaults hold. *)

From Stdlib Require Import SpecFloat.
From stdpp Require Import pretty.
From S2P Require Import Prelude CoreTypes BlockName Text InitAttempts DatabaseTypes SqlQuery DatabaseConvert SchemaCache SqlText.

Definition dq_char : ascii := ascii_of_N 34.
Definition sq_char : ascii := "'".

(** ** Reading literals *)

(** The content of a quoted text after its opening quote [q], and what follows
    its closing quote. A doubled quote is one; with [escapes], so is a doubled
    backslash, and no other escape is read. *)
Fixpoint read_quoted (q : ascii) (escapes : bool) (s : string) : option (string * string) :=
  match s with
  | EmptyString => None
  | String c s =>
      if Ascii.eqb c q then
        match s with
        | String d t => if Ascii.eqb d q then (fun r => (String q r.1, r.2)) <$> read_quoted q escapes t else Some ("", s)
        | EmptyString => Some ("", "")
        end
      else if escapes && Ascii.eqb c "\" then
        match s with
        | String d t => if Ascii.eqb d "\" then (fun r => (String "\" r.1, r.2)) <$> read_quoted q escapes t else None
        | EmptyString => None
        end
      else (fun r => (String c r.1, r.2)) <$> read_quoted q escapes s
  end.

(** A string literal of a dialect: SQLite has no escapes; PostgreSQL's [E'']
    form has them whatever its settings. *)
Definition read_literal (backend : Backend.t) (s : string) : option (string * string) :=
  match backend, s with
  | Backend.Sqlite, String "'" s => read_quoted sq_char false s
  | Backend.Postgres, String "E" (String "'" s) => read_quoted sq_char true s
  | _, _ => None
  end.

(** A quoted name, the same in both. *)
Definition read_name (s : string) : option (string * string) :=
  match s with
  | String c s => if Ascii.eqb c dq_char then read_quoted dq_char false s else None
  | EmptyString => None
  end.

Definition no_quote_start (q : ascii) (s : string) : bool :=
  match s with String c _ => negb (Ascii.eqb c q) | EmptyString => true end.

Definition one (c : ascii) : string := String c "".
Definition two (c : ascii) : string := String c (String c "").

Lemma read_quoted_end (q : ascii) (escapes : bool) (rest : string) :
  no_quote_start q rest = true -> read_quoted q escapes (String q rest) = Some ("", rest).
Proof.
  simpl. rewrite Ascii.eqb_refl. destruct rest as [|c rest]; simpl; [done|]. by destruct (Ascii.eqb c q).
Qed.

Lemma two_app (c : ascii) (r t : string) : (two c +:+ r) +:+ t = String c (String c (r +:+ t)).
Proof. reflexivity. Qed.

Lemma read_quoted_doubled (q : ascii) (s rest : string) :
  no_quote_start q rest = true ->
  read_quoted q false (replace_char q (two q) s +:+ String q rest) = Some (s, rest).
Proof.
  intros Hr. induction s as [|c s IH]; [by apply read_quoted_end|].
  cbn [replace_char]. destruct (Ascii.eqb_spec c q) as [->|Hne].
  - rewrite two_app. cbn [read_quoted]. rewrite !Ascii.eqb_refl. by rewrite IH.
  - rewrite str_cons_app. cbn [read_quoted]. rewrite (proj2 (Ascii.eqb_neq c q)) by done. cbn [andb]. by rewrite IH.
Qed.

Lemma read_quoted_escaped (s rest : string) :
  no_quote_start sq_char rest = true ->
  read_quoted sq_char true (replace_char "'" (two "'") (replace_char "\" (two "\") s) +:+ String sq_char rest)
  = Some (s, rest).
Proof.
  intros Hr. induction s as [|c s IH]; [by apply read_quoted_end|].
  cbn [replace_char]. destruct (Ascii.eqb_spec c "\") as [->|Hne].
  - change (replace_char "'" (two "'") (two "\" +:+ replace_char "\" (two "\") s))
      with (two "\" +:+ replace_char "'" (two "'") (replace_char "\" (two "\") s)).
    rewrite two_app. cbn [read_quoted]. change (Ascii.eqb "\" sq_char) with false. change (Ascii.eqb "\" "\") with true.
    cbn [andb]. by rewrite IH.
  - cbn [replace_char]. destruct (Ascii.eqb_spec c "'") as [->|Hq].
    + rewrite two_app. cbn [read_quoted]. change (Ascii.eqb "'" sq_char) with true. cbn iota. by rewrite IH.
    + rewrite str_cons_app. cbn [read_quoted]. unfold sq_char at 1. rewrite (proj2 (Ascii.eqb_neq c "'")) by done.
      rewrite (proj2 (Ascii.eqb_neq c "\")) by done. cbn [andb]. by rewrite IH.
Qed.

Lemma string_literal_reads (s : string) (backend : Backend.t) (literal rest : string) :
  string_literal s backend = Ok literal -> no_quote_start sq_char rest = true ->
  read_literal backend (literal +:+ rest) = Some (s, rest).
Proof.
  unfold string_literal. destruct (has_nul s); [done|]. intros [= <-] Hr. destruct backend.
  - change (read_quoted sq_char false ((replace_char sq_char (two sq_char) s +:+ "'") +:+ rest) = Some (s, rest)).
    rewrite <- str_app_assoc. by apply read_quoted_doubled.
  - change (read_quoted sq_char true ((replace_char "'" (two "'") (replace_char "\" (two "\") s) +:+ "'") +:+ rest)
            = Some (s, rest)).
    rewrite <- str_app_assoc. by apply read_quoted_escaped.
Qed.

(** every string default is written as a literal the database reads back
    as exactly that string, and every catalog name as a quoted name it reads
    back as that name, whatever follows; only a NUL is refused (and, as a
    name, the empty text). *)
Theorem literals_read_back (s : string) (backend : Backend.t) (rest : string) :
  (if has_nul s then exists e, string_literal s backend = Err e
   else exists literal, string_literal s backend = Ok literal
        /\ (no_quote_start sq_char rest = true -> read_literal backend (literal +:+ rest) = Some (s, rest)))
  /\ (if is_empty s || has_nul s then exists e, build_catalog_table_row_count s backend = Err e
      else exists name, build_catalog_table_row_count s backend = Ok ("SELECT COUNT(*) AS cnt FROM " +:+ name)
           /\ (no_quote_start dq_char rest = true -> read_name (name +:+ rest) = Some (s, rest))).
Proof.
  split.
  - destruct (has_nul s) eqn:E; [unfold string_literal; rewrite E; eauto|].
    assert (exists literal, string_literal s backend = Ok literal) as [literal El]
      by (unfold string_literal; rewrite E; eauto).
    exists literal. split; [done|]. by apply string_literal_reads.
  - unfold build_catalog_table_row_count, validate_catalog_name. destruct (is_empty s || has_nul s); [eauto|].
    eexists. split; [done|]. intros Hr. unfold quoted.
    change (read_name ((dq +:+ replace_char (ascii_of_N 34) (dq +:+ dq) s +:+ dq) +:+ rest))
      with (read_quoted dq_char false ((replace_char dq_char (two dq_char) s +:+ dq) +:+ rest)).
    rewrite <- str_app_assoc. by apply read_quoted_doubled.
Qed.

(** ** Scanning statements

    [scan_sql] walks a statement outside and inside quotes, by the dialect's
    rules: [true] when it meets no statement separator, comment, other quoting
    or NUL outside a quoted text and every quote is closed. The argument is
    the character before. *)
Inductive Mode := Code (prev : ascii) | Quoted (q : ascii) (escapes : bool).

Definition foreign_char (c : ascii) : bool :=
  existsb (Ascii.eqb c) [";"; "`"; "["; "$"; ascii_of_N 0]%char.

(** Characters that begin a comment: [--] and [/*]. *)
Definition comment (prev c : ascii) : bool :=
  (Ascii.eqb prev "-" && Ascii.eqb c "-") || (Ascii.eqb prev "/" && Ascii.eqb c "*").

Fixpoint scan_sql (backend : Backend.t) (m : Mode) (s : string) : bool :=
  match s with
  | EmptyString => match m with Code _ => true | Quoted _ _ => false end
  | String c s =>
      match m with
      | Code prev =>
          if foreign_char c || comment prev c then false
          else if Ascii.eqb c sq_char then
            scan_sql backend (Quoted sq_char (match backend with Backend.Sqlite => false
                                          | Backend.Postgres => Ascii.eqb (ascii_lower prev) "e" end)) s
          else if Ascii.eqb c dq_char then scan_sql backend (Quoted dq_char false) s
          else scan_sql backend (Code c) s
      | Quoted q escapes =>
          if Ascii.eqb c q then
            match s with
            | String d t => if Ascii.eqb d q then scan_sql backend (Quoted q escapes) t else scan_sql backend (Code q) s
            | EmptyString => true
            end
          else if escapes && Ascii.eqb c "\" then
            match s with String _ t => scan_sql backend (Quoted q escapes) t | EmptyString => false end
          else scan_sql backend (Quoted q escapes) s
      end
  end.

Definition one_statement (backend : Backend.t) (sql : string) : bool := scan_sql backend (Code " ") sql.

Example one_statement_yes : one_statement Backend.Postgres "ALTER TABLE t ADD COLUMN c TEXT DEFAULT E'\\''; DROP TABLE u; --'" = true.
Proof. reflexivity. Qed.
Example one_statement_no : one_statement Backend.Postgres "ALTER TABLE t ADD COLUMN c TEXT DEFAULT E'\''; DROP TABLE u; --'" = false
  /\ one_statement Backend.Sqlite "DROP TABLE t; DROP TABLE u" = false.
Proof. split; reflexivity. Qed.

(** ** Pieces of statements

    A piece is scanned from code to code, before anything that does not open
    with a quote. *)

Definition calm (c : ascii) : bool := negb (Ascii.eqb c "-") && negb (Ascii.eqb c "/").
Definition opens_no_quote (s : string) : bool := no_quote_start sq_char s && no_quote_start dq_char s.

Definition piece (backend : Backend.t) (s : string) : Prop :=
  forall p rest, calm p = true -> opens_no_quote rest = true ->
  exists p', calm p' = true /\ scan_sql backend (Code p) (s +:+ rest) = scan_sql backend (Code p') rest.

(** Text without quotes, separators or comments. *)
Definition plain_char (c : ascii) : bool :=
  negb (foreign_char c) && calm c && negb (Ascii.eqb c sq_char) && negb (Ascii.eqb c dq_char).
Definition plain_code (s : string) : bool := str_forallb plain_char s.

Lemma scan_plain backend p c s :
  calm p = true -> plain_char c = true -> scan_sql backend (Code p) (String c s) = scan_sql backend (Code c) s.
Proof.
  unfold plain_char, calm. intros Hp Hc. cbn [scan_sql].
  rewrite !andb_true_iff, !negb_true_iff in *. destruct Hp as [Hp1 Hp2], Hc as [[[-> _] ->] ->].
  unfold comment. by rewrite Hp1, Hp2.
Qed.

Lemma plain_calm c : plain_char c = true -> calm c = true.
Proof. unfold plain_char. rewrite !andb_true_iff. tauto. Qed.

Lemma plain_text_scan backend t : plain_code t = true -> forall p rest, calm p = true ->
  exists p', calm p' = true /\ scan_sql backend (Code p) (t +:+ rest) = scan_sql backend (Code p') rest.
Proof.
  unfold plain_code. induction t as [|c t IH]; simpl; intros Ht p rest Hp; [eauto|].
  apply andb_true_iff in Ht as [Hc Ht]. pose proof (scan_plain backend p c (t +:+ rest) Hp Hc) as E. simpl in E. rewrite E.
  apply IH; [done|]. by apply plain_calm.
Qed.

Lemma piece_plain backend t : plain_code t = true -> piece backend t.
Proof. intros Ht p rest Hp _. by apply plain_text_scan. Qed.

Lemma piece_text backend t s : plain_code t = true -> piece backend s -> piece backend (t +:+ s).
Proof.
  intros Ht Hs p rest Hp Hr. rewrite <- str_app_assoc.
  destruct (plain_text_scan backend t Ht p (s +:+ rest) Hp) as (p' & Hp' & ->). by apply Hs.
Qed.

Lemma opens_app a b : opens_no_quote a = true -> opens_no_quote b = true -> opens_no_quote (a +:+ b) = true.
Proof. destruct a; simpl; auto. Qed.

Lemma piece_app backend a b : piece backend a -> piece backend b -> opens_no_quote b = true -> piece backend (a +:+ b).
Proof.
  intros Ha Hb Hn p rest Hp Hr. rewrite <- str_app_assoc.
  destruct (Ha p (b +:+ rest) Hp) as (p' & Hp' & ->); [by apply opens_app|]. by apply Hb.
Qed.

Lemma piece_one_statement backend s : piece backend s -> one_statement backend s = true.
Proof.
  intros Hs. destruct (Hs " "%char "" eq_refl eq_refl) as (p' & _ & E). rewrite str_app_nil_r in E.
  unfold one_statement. by rewrite E.
Qed.

(** Quoted texts: the scanner leaves them where the reader does. *)
Lemma scan_quoted backend q escapes s : forall content rest p,
  read_quoted q escapes s = Some (content, rest) -> p = q ->
  scan_sql backend (Quoted q escapes) s = scan_sql backend (Code p) rest.
Proof.
  assert (Hl : forall n s content rest, String.length s <= n -> read_quoted q escapes s = Some (content, rest) ->
            scan_sql backend (Quoted q escapes) s = scan_sql backend (Code q) rest).
  { induction n as [|n IH]; intros [|c t] content rest Hn E; try done; simpl in Hn; [lia|].
    cbn [read_quoted] in E. cbn [scan_sql]. destruct (Ascii.eqb c q) eqn:Ec.
    - destruct t as [|d t]; [by injection E as _ <-|]. simpl in Hn. destruct (Ascii.eqb d q).
      + destruct (read_quoted q escapes t) as [[c' r']|] eqn:E'; [|done]. injection E as _ <-.
        eapply IH; [|exact E']. lia.
      + by injection E as _ <-.
    - destruct (escapes && Ascii.eqb c "\") eqn:Ee.
      + destruct t as [|d t]; [done|]. simpl in Hn. destruct (Ascii.eqb d "\"); [|done].
        destruct (read_quoted q escapes t) as [[c' r']|] eqn:E'; [|done]. injection E as _ <-.
        eapply IH; [|exact E']. lia.
      + destruct (read_quoted q escapes t) as [[c' r']|] eqn:E'; [|done]. injection E as _ <-.
        eapply IH; [|exact E']. lia. }
  intros content rest p E ->. by eapply Hl.
Qed.

Lemma opens_quotes rest : opens_no_quote rest = true -> no_quote_start sq_char rest = true /\ no_quote_start dq_char rest = true.
Proof. apply andb_true_iff. Qed.

Lemma scan_dq backend p s :
  scan_sql backend (Code p) (String dq_char s) = scan_sql backend (Quoted dq_char false) s.
Proof. cbn [scan_sql]. assert (Hc : comment p dq_char = false) by (unfold comment; by rewrite !andb_false_r). by rewrite Hc. Qed.

Lemma replace_char_id c r s : str_forallb (fun a => negb (Ascii.eqb a c)) s = true -> replace_char c r s = s.
Proof. apply replace_char_absent. Qed.

Lemma plain_ident_no_quote name : is_plain_ident name = true -> str_forallb (fun a => negb (Ascii.eqb a dq_char)) name = true.
Proof.
  unfold is_plain_ident. rewrite !andb_true_iff. intros [_ H]. revert H.
  induction name as [|c name IH]; simpl; [done|]. rewrite !andb_true_iff. intros [Hc Hn]. split; [|auto].
  destruct (Ascii.eqb_spec c dq_char) as [->|]; done.
Qed.

Lemma piece_quoted_name backend name : is_plain_ident name = true -> piece backend (quoted name).
Proof.
  intros Hn p rest Hp [_ Hr]%opens_quotes. exists dq_char. split; [done|].
  change (quoted name +:+ rest) with (String dq_char ((name +:+ dq) +:+ rest)). rewrite scan_dq.
  apply (scan_quoted _ _ _ _ name); [|done]. rewrite <- str_app_assoc.
  rewrite <- (replace_char_id dq_char (two dq_char) name) at 1 by by apply plain_ident_no_quote.
  by apply read_quoted_doubled.
Qed.

Lemma piece_string_literal backend s literal : string_literal s backend = Ok literal -> piece backend literal.
Proof.
  intros E p rest Hp Hr. exists sq_char. split; [done|].
  destruct (opens_quotes rest Hr) as [Hq _].
  pose proof (string_literal_reads s backend literal rest E Hq) as H. unfold string_literal in E.
  destruct (has_nul s); [done|]. injection E as <-. destruct backend.
  - set (t := (replace_char "'" "''" s +:+ "'") +:+ rest).
    change (read_quoted sq_char false t = Some (s, rest)) in H. change (scan_sql Backend.Sqlite (Code p) (String sq_char t)
      = scan_sql Backend.Sqlite (Code sq_char) rest).
    cbn [scan_sql]. assert (Ec : comment p sq_char = false) by (unfold comment; by rewrite !andb_false_r). rewrite Ec.
    change (foreign_char sq_char) with false. cbn [orb]. cbn iota.
    change (Ascii.eqb sq_char sq_char) with true. cbn iota. by eapply scan_quoted.
  - set (t := (replace_char "'" "''" (replace_char "\" "\\" s) +:+ "'") +:+ rest).
    change (read_quoted sq_char true t = Some (s, rest)) in H.
    change (scan_sql Backend.Postgres (Code p) (String "E" (String sq_char t)) = scan_sql Backend.Postgres (Code sq_char) rest).
    rewrite scan_plain by done. cbn [scan_sql]. change (foreign_char sq_char || comment "E" sq_char) with false. cbn iota.
    change (Ascii.eqb sq_char sq_char) with true. change (Ascii.eqb (ascii_lower "E") "e") with true. cbn iota.
    by eapply scan_quoted.
Qed.

(** ** Schema statements *)

Lemma piece_nil backend : piece backend "".
Proof. intros p rest Hp _. by exists p. Qed.

(** Numbers: an optional sign, then digits and points. *)
Definition number_char (c : ascii) : bool := is_ascii_digit c || Ascii.eqb c ".".
Definition number_text (s : string) : bool :=
  match s with
  | String "-" (String c s) => number_char c && str_forallb number_char s
  | String c s => number_char c && str_forallb number_char s
  | EmptyString => false
  end.

Lemma number_char_plain c : number_char c = true -> plain_char c = true /\ comment "-" c = false.
Proof. destruct c as [[] [] [] [] [] [] [] []]; vm_compute; auto. Qed.

Lemma number_chars_plain s : str_forallb number_char s = true -> plain_code s = true.
Proof.
  unfold plain_code. induction s as [|c s IH]; simpl; [done|]. rewrite !andb_true_iff. intros [Hc Hs].
  split; [by apply number_char_plain in Hc as [? _] | auto].
Qed.

Lemma scan_minus backend p d s :
  calm p = true -> number_char d = true -> scan_sql backend (Code p) (String "-" (String d s)) = scan_sql backend (Code d) s.
Proof.
  intros Hp [Hd Hc]%number_char_plain. unfold calm in Hp. apply andb_true_iff in Hp as [Hp%negb_true_iff _].
  assert (E : comment p "-" = false) by (unfold comment; rewrite Hp; by rewrite !andb_false_r).
  unfold plain_char in Hd. rewrite !andb_true_iff, !negb_true_iff in Hd. destruct Hd as [[[Hf _] Hs] Hq].
  cbn [scan_sql]. rewrite E. change (foreign_char "-") with false. change (Ascii.eqb "-" sq_char) with false.
  change (Ascii.eqb "-" dq_char) with false. cbn [orb]. cbn iota. by rewrite Hf, Hc, Hs, Hq.
Qed.

Lemma piece_number backend s : number_text s = true -> piece backend s.
Proof.
  destruct s as [|c s]; [done|]. intros H. destruct (Ascii.eqb_spec c "-") as [->|Hne].
  - destruct s as [|d s]; [done|]. simpl in H. apply andb_true_iff in H as [Hd Hs].
    intros p rest Hp Hr. change (String "-" (String d s) +:+ rest) with (String "-" (String d (s +:+ rest))).
    rewrite scan_minus by done. apply plain_text_scan; [by apply number_chars_plain|].
    apply plain_calm. by apply number_char_plain in Hd as [? _].
  - apply piece_plain, number_chars_plain. simpl.
    destruct c as [[] [] [] [] [] [] [] []]; simpl in H; done.
Qed.

(** Integers print as numbers. *)
Lemma digits_number s : str_forallb is_ascii_digit s = true -> str_forallb number_char s = true.
Proof.
  induction s as [|c s IH]; simpl; [done|]. rewrite !andb_true_iff. intros [Hc Hs]. split; [|auto].
  unfold number_char. by rewrite Hc.
Qed.

Lemma pretty_Z_number (z : Z) : number_text (pretty z) = true.
Proof.
  assert (Hn : forall n : N, exists c t, pretty n = String c t /\ Ascii.eqb c "-" = false
            /\ number_char c && str_forallb number_char t = true).
  { intros n. destruct (pretty_N_word n) as (c & t & E & Hd & _). exists c, t. rewrite E in Hd.
    pose proof (digits_number _ Hd) as Hnum. simpl in Hnum. split_and!; [done| |done].
    apply andb_true_iff in Hnum as [Hc _]. destruct (Ascii.eqb_spec c "-") as [->|]; done. }
  destruct z as [|p|p].
  - done.
  - destruct (Hn (Npos p)) as (c & t & E & Hc & H). change (pretty (Zpos p)) with (pretty (Npos p)).
    rewrite E. simpl. destruct c as [[] [] [] [] [] [] [] []]; done.
  - destruct (Hn (Npos p)) as (c & t & E & Hc & H). change (pretty (Zneg p)) with ("-" +:+ pretty (Npos p)).
    by rewrite E.
Qed.

Section DdlStatements.
Context `{FloatFormat} `{DebugFormat}.
(** A finite float prints as an optional sign, digits and a point: [f64]'s
    [Display] uses no exponent. *)
Hypothesis finite_text : forall f, is_finite f = true -> number_text (display_f64 f) = true.

Lemma quote_ident_plain name q : quote_ident name = Ok q -> is_plain_ident name = true /\ q = quoted name.
Proof. unfold quote_ident, validate_ident. destruct (is_plain_ident name); [by intros [= <-]|done]. Qed.

Lemma validate_ident_plain name n : validate_ident name = Ok n -> is_plain_ident name = true /\ n = name.
Proof. unfold validate_ident. destruct (is_plain_ident name); [by intros [= <-]|done]. Qed.

Lemma piece_quote_ident backend name q : quote_ident name = Ok q -> piece backend q.
Proof. intros [Hn ->]%quote_ident_plain. by apply piece_quoted_name. Qed.

Lemma plain_ident_code name : is_plain_ident name = true -> plain_code name = true.
Proof.
  unfold is_plain_ident, plain_code. rewrite !andb_true_iff. intros [_ Hn]. revert Hn.
  induction name as [|c name IH]; simpl; [done|]. rewrite !andb_true_iff. intros [Hc Hn]. split; [|auto].
  revert Hc. clear. destruct c as [[] [] [] [] [] [] [] []]; vm_compute; auto.
Qed.

Lemma piece_default backend d s : default_to_sql d backend = Ok s -> piece backend s.
Proof.
  destruct d as [| |[t|z|f|b]]; simpl.
  - intros [= <-]. by apply piece_plain.
  - intros [= <-]. apply piece_plain. by destruct backend.
  - apply piece_string_literal.
  - intros [= <-]. apply piece_number, pretty_Z_number.
  - destruct (is_finite f) eqn:E; [|done]. intros [= <-]. apply piece_number. by apply finite_text.
  - intros [= <-]. apply piece_plain. by destruct backend, b.
Qed.

Lemma piece_column_tail backend sql col s : piece backend sql -> column_tail sql col backend = Ok s -> piece backend s.
Proof.
  unfold column_tail. intros Hs.
  assert (Hn : forall b : bool, piece backend (if b then sql +:+ " NOT NULL" else sql)).
  { intros []; [|done]. apply piece_app; [done | by apply piece_plain | done]. }
  specialize (Hn (negb (co_nullable col) && negb (co_primary_key col))).
  set (sql1 := if negb (co_nullable col) && negb (co_primary_key col) then _ else _) in *. clearbody sql1.
  assert (Hu : forall b : bool, piece backend (if b then sql1 +:+ " UNIQUE" else sql1)).
  { intros []; [|done]. apply piece_app; [done | by apply piece_plain | done]. }
  specialize (Hu (co_unique col && negb (co_primary_key col))).
  set (sql2 := if co_unique col && negb (co_primary_key col) then _ else _) in *. clearbody sql2.
  destruct (co_default col) as [d|]; [|by intros [= <-]].
  destruct (default_to_sql d backend) as [t|] eqn:E; simpl; [|done]. intros [= <-].
  apply piece_app; [done | | done]. apply (piece_text backend " DEFAULT "); [done|]. by apply (piece_default backend d).
Qed.

Lemma data_type_plain dt backend : plain_code (data_type_to_sql dt backend) = true.
Proof. by destruct dt, backend. Qed.

Lemma piece_column backend col s : column_to_sql col backend = Ok s -> piece backend s.
Proof.
  unfold column_to_sql. destruct (quote_ident (co_name col)) as [q|] eqn:Eq; simpl; [|done].
  apply piece_quote_ident with (backend := backend) in Eq.
  assert (Ht : forall t, plain_code t = true -> opens_no_quote t = true -> piece backend (q +:+ t)).
  { intros t Hp Ho. apply piece_app; [done | by apply piece_plain | done]. }
  destruct (co_auto_increment col).
  - destruct backend; [apply piece_column_tail; by apply Ht|].
    destruct (co_default col) as [d|]; [|intros [= <-]; by apply Ht].
    destruct (default_to_sql d Backend.Postgres) as [t|] eqn:E; simpl; [|done]. intros [= <-].
    apply piece_app; [by apply Ht | | done]. apply (piece_text _ " DEFAULT "); [done|].
    by apply (piece_default _ d).
  - apply piece_column_tail. rewrite andb_true_r.
    assert (Hb : piece backend (q +:+ " " +:+ data_type_to_sql (co_data_type col) backend)).
    { apply Ht; [|done]. simpl. apply data_type_plain. }
    destruct (co_primary_key col); [|done]. apply piece_app; [done | by apply piece_plain | done].
Qed.

(** Lists of pieces. *)
Lemma try_map_all {A B E} (P : B -> Prop) (f : A -> result B E) l bs :
  (forall a b, f a = Ok b -> P b) -> try_map f l = Ok bs -> Forall P bs.
Proof.
  intros Hf. revert bs. induction l as [|a l IH]; simpl; intros bs; [by intros [= <-]|].
  destruct (f a) eqn:E1; simpl; [|done]. destruct (try_map f l) eqn:E2; simpl; [|done]. intros [= <-]. eauto.
Qed.

Lemma piece_join backend sep l :
  plain_code sep = true -> opens_no_quote sep = true -> is_empty sep = false -> Forall (piece backend) l ->
  piece backend (join sep l).
Proof.
  intros Hs Ho Hne. induction 1 as [|s l Hp Hl IH]; [apply piece_nil|]. destruct l as [|t l]; [done|].
  change (join sep (s :: t :: l)) with (s +:+ sep +:+ join sep (t :: l)).
  apply piece_app; [done | by apply piece_text |]. by destruct sep.
Qed.

Lemma piece_key_clause backend word key s :
  plain_code word = true -> key_clause word key = Ok s -> piece backend s /\ opens_no_quote s = true.
Proof.
  unfold key_clause. intros Hw. destruct (try_map quote_ident key) as [qs|] eqn:E; simpl; [|done]. intros [= <-].
  split; [|done]. apply (piece_text backend ","); [done|]. apply (piece_text backend newline); [done|].
  apply (piece_text backend "    "); [done|]. apply (piece_text backend word); [done|].
  apply (piece_text backend "("); [done|]. apply piece_app; [|by apply piece_plain | done].
  apply piece_join; [done..|]. by eapply try_map_all, E; intros; eapply piece_quote_ident.
Qed.

Lemma fk_action_plain a s : validate_fk_action a = Ok s -> plain_code s = true.
Proof. unfold validate_fk_action. repeat case_match; by intros [= <-]. Qed.

Lemma piece_fk_action backend word action s :
  plain_code word = true -> opens_no_quote word = true -> is_empty word = false ->
  fk_action_clause word action = Ok s -> piece backend s /\ opens_no_quote s = true.
Proof.
  unfold fk_action_clause. intros Hw Ho Hne. destruct (is_empty action); [intros [= <-]; split; [apply piece_nil|done]|].
  destruct (validate_fk_action action) as [a|] eqn:E; simpl; [|done]. intros [= <-]. split; [|by destruct word].
  apply piece_text; [done|]. apply piece_plain. by eapply fk_action_plain.
Qed.

Lemma piece_foreign_key backend col s : foreign_key_clause col = Ok s -> piece backend s /\ opens_no_quote s = true.
Proof.
  unfold foreign_key_clause. destruct (co_references col) as [r|]; [|intros [= <-]; split; [apply piece_nil|done]].
  destruct (quote_ident (co_name col)) as [n|] eqn:E1; simpl; [|done].
  destruct (quote_ident (ref_table r)) as [t|] eqn:E2; simpl; [|done].
  destruct (quote_ident (ref_column r)) as [c|] eqn:E3; simpl; [|done].
  destruct (fk_action_clause " ON DELETE " _) as [d|] eqn:E4; simpl; [|done].
  destruct (fk_action_clause " ON UPDATE " _) as [u|] eqn:E5; simpl; [|done]. intros [= <-].
  apply (piece_fk_action backend) in E4 as [Hd Hod]; [|done..].
  apply (piece_fk_action backend) in E5 as [Hu Hou]; [|done..].
  apply (piece_quote_ident backend) in E1, E2, E3. split; [|done].
  apply (piece_text backend ","); [done|]. apply (piece_text backend newline); [done|].
  apply (piece_text backend "    FOREIGN KEY ("); [done|]. apply piece_app; [done| |done].
  apply (piece_text backend ") REFERENCES "); [done|]. apply piece_app; [done| |done].
  apply (piece_text backend "("); [done|]. apply piece_app; [done| |done].
  apply (piece_text backend ")"); [done|]. by apply piece_app.
Qed.

Lemma piece_concat backend (rs : list (result string SqlBuildError.t)) s :
  Forall (fun r => forall t, r = Ok t -> piece backend t /\ opens_no_quote t = true) rs ->
  concat_results rs = Ok s -> piece backend s /\ opens_no_quote s = true.
Proof.
  intros Hall. revert s. induction Hall as [|r rs Hr Hrs IH]; simpl; intros s; [intros [= <-]; split; [apply piece_nil|done]|].
  destruct r as [t|]; simpl; [|done]. destruct (concat_results rs) as [u|]; simpl; [|done]. intros [= <-].
  destruct (Hr t eq_refl) as [Hp Ho]. destruct (IH u eq_refl) as [Hp' Ho']. split; [by apply piece_app | by apply opens_app].
Qed.

Lemma forall_map_all {A B} (P : B -> Prop) (f : A -> B) l : (forall a, P (f a)) -> Forall P (map f l).
Proof. intros Hf. induction l; simpl; auto. Qed.

Lemma create_table_one_statement backend table st :
  build_create_table table backend = Ok st -> one_statement backend (st_sql st) = true.
Proof.
  unfold build_create_table. destruct (quote_ident (ta_name table)) as [q|] eqn:E1; simpl; [|done].
  destruct (column_lines backend (ta_columns table)) as [lines|] eqn:E2; simpl; [|done].
  destruct (match ta_primary_key table with [] => Ok "" | key => key_clause "PRIMARY KEY" key end) as [pk|] eqn:E3;
    simpl; [|done].
  destruct (concat_results (map (key_clause "UNIQUE") _)) as [uk|] eqn:E4; simpl; [|done].
  destruct (concat_results (map foreign_key_clause _)) as [fk|] eqn:E5; simpl; [|done]. intros [= <-]. simpl.
  apply (piece_quote_ident backend) in E1.
  assert (Hl : Forall (piece backend) lines).
  { unfold column_lines in E2. eapply try_map_all; [|exact E2]. intros col l. simpl.
    destruct (column_to_sql col backend) as [c|] eqn:Ec; simpl; [|done]. intros [= <-].
    apply (piece_text backend "    "); [done|]. by eapply piece_column. }
  assert (Hp : piece backend pk /\ opens_no_quote pk = true).
  { destruct (ta_primary_key table) as [|k key]; [injection E3 as <-; split; [apply piece_nil | done]|].
    by eapply piece_key_clause, E3. }
  apply (piece_concat backend) in E4 as [Hu Hou];
    [|apply forall_map_all; intros key s; by apply piece_key_clause].
  apply (piece_concat backend) in E5 as [Hf Hof];
    [|apply forall_map_all; intros col s; by apply piece_foreign_key].
  destruct Hp as [Hp Hop]. apply piece_one_statement.
  apply (piece_text backend "CREATE TABLE IF NOT EXISTS "); [done|]. apply piece_app; [done| |done].
  apply (piece_text backend " ("); [done|]. apply (piece_text backend newline); [done|].
  assert (Hend : piece backend (newline +:+ ")")) by by apply piece_plain.
  assert (Hj : piece backend (join ("," +:+ newline) lines)) by by apply piece_join.
  apply piece_app; [done| |by repeat apply opens_app].
  apply piece_app; [done| |by repeat apply opens_app].
  apply piece_app; [done| |by repeat apply opens_app]. by apply piece_app.
Qed.

Lemma create_index_one_statement backend table idx st :
  build_create_index table idx backend = Ok st -> one_statement backend (st_sql st) = true.
Proof.
  unfold build_create_index.
  destruct (if is_empty (ix_name idx) then _ else _) as [name|] eqn:E1; simpl; [|done].
  destruct (quote_ident table) as [q|] eqn:E2; simpl; [|done].
  destruct (try_map quote_ident (ix_columns idx)) as [cols|] eqn:E3; simpl; [|done]. intros [= <-]. simpl.
  apply (piece_quote_ident backend) in E2.
  assert (Hn : plain_code name = true).
  { destruct (is_empty (ix_name idx)).
    - destruct (validate_ident table) as [t|] eqn:Et; simpl in E1; [|done].
      destruct (index_name_columns (ix_columns idx)) as [c|] eqn:Ec; simpl in E1; [|done]. injection E1 as <-.
      apply validate_ident_plain in Et as [Ht ->].
      assert (Hc : plain_code c = true).
      { revert c Ec. generalize (ix_columns idx) as l. induction l as [|k ks IH]; simpl; intros c; [by intros [= <-]|].
        destruct (validate_ident k) as [k'|] eqn:Ek; simpl; [|done].
        destruct (index_name_columns ks) as [r|]; simpl; [|done]. intros [= <-].
        apply validate_ident_plain in Ek as [Hk ->]. unfold plain_code in *. simpl. rewrite str_forallb_app.
        rewrite (IH r eq_refl), andb_true_r. by apply plain_ident_code. }
      unfold plain_code in *. simpl. rewrite str_forallb_app, Hc, andb_true_r. by apply plain_ident_code.
    - apply validate_ident_plain in E1 as [Hi ->]. by apply plain_ident_code. }
  apply piece_one_statement. apply (piece_text backend "CREATE "); [done|].
  apply piece_text; [by destruct (ix_unique idx)|]. apply (piece_text backend "INDEX IF NOT EXISTS "); [done|].
  apply piece_text; [done|]. apply (piece_text backend " ON "); [done|]. apply piece_app; [done| |done].
  apply (piece_text backend "("); [done|]. apply piece_app; [|by apply piece_plain | done].
  apply piece_join; [done..|]. by eapply try_map_all, E3; intros; eapply piece_quote_ident.
Qed.

(** C27: whatever names, defaults and referential actions a schema holds,
    each statement built of it is exactly one statement to the dialect's
    reader: nothing in it ends a literal or a name early, begins a comment
    or starts a second statement. *)
Theorem schema_statements_single (backend : Backend.t) (table : Table) (name : string) (col : Column) (idx : Index)
    (st : Statement) :
  build_create_table table backend = Ok st \/ build_add_column name col backend = Ok st
  \/ build_create_index name idx backend = Ok st \/ build_drop_table name backend = Ok st
  \/ (exists sts, build_fk_indexes table backend = Ok sts /\ st ∈ sts) ->
  one_statement backend (st_sql st) = true.
Proof.
  intros [E|[E|[E|[E|(sts & E & Hin)]]]].
  - by eapply create_table_one_statement.
  - unfold build_add_column in E. destruct (quote_ident name) as [q|] eqn:E1; simpl in E; [|done].
    destruct (column_to_sql col backend) as [c|] eqn:E2; simpl in E; [|done]. injection E as <-. simpl.
    apply piece_one_statement, (piece_text backend "ALTER TABLE "); [done|]. apply (piece_quote_ident backend) in E1.
    apply piece_app; [done| |done]. apply (piece_text backend " ADD COLUMN "); [done|]. by eapply piece_column.
  - by eapply create_index_one_statement.
  - unfold build_drop_table in E. destruct (quote_ident name) as [q|] eqn:E1; simpl in E; [|done]. injection E as <-.
    simpl. apply piece_one_statement, (piece_text backend "DROP TABLE IF EXISTS "); [done|]. by eapply piece_quote_ident.
  - assert (Hall : Forall (fun st => one_statement backend (st_sql st) = true) sts).
    { eapply try_map_all; [|exact E]. intros c s. simpl. apply create_index_one_statement. }
    rewrite Forall_forall in Hall. by apply Hall.
Qed.
End DdlStatements.

(** ** A schema to scan_sql *)

(** A [Display] that prints the whole part of a float. *)
Definition whole_part (f : f64) : Z :=
  match f with
  | S754_finite s m e => (if s then Z.opp else id) (Z.shiftl (Zpos m) e)
  | _ => 0
  end%Z.
Definition whole_format : FloatFormat := {| display_f64 f := pretty (whole_part f) |}.

Definition hostile_table : Table :=
  mkTable "notes"
    [column_new "id" DataType.Int64;
     mkColumn "title" DataType.String true false false false
       (Some (DefaultLiteral (DefaultString "\'; DROP TABLE notes; --"))) None;
     mkColumn "owner" DataType.String false false false false None (Some (mkReference "users" "id" " cascade" ""))]
    [] ["id"] [["title"; "owner"]].

Lemma schema_statements_single_witness : exists st,
  @build_create_table whole_format hostile_table Backend.Postgres = Ok st
  /\ one_statement Backend.Postgres (st_sql st) = true.
Proof.
  destruct (@build_create_table whole_format hostile_table Backend.Postgres) as [st|] eqn:E; [|vm_compute in E; discriminate E].
  exists st. split; [reflexivity|].
  exact (@schema_statements_single whole_format (fun f _ => pretty_Z_number (whole_part f)) Backend.Postgres
           hostile_table "" (column_new "" DataType.Int) (mkIndex "" [] false) st (or_introl E)).
Defined.

Lemma literals_read_back_witness :
  read_literal Backend.Postgres ("E'it''s \\n'" +:+ ", c)") = Some ("it's \n", ", c)")
  /\ (exists literal, string_literal "it's \n" Backend.Postgres = Ok literal
      /\ (no_quote_start sq_char ", c)" = true -> read_literal Backend.Postgres (literal +:+ ", c)") = Some ("it's \n", ", c)"))).
Proof. split; [reflexivity|]. exact (proj1 (literals_read_back "it's \n" Backend.Postgres ", c)")). Defined.
