(* ===== verification/SqlMeaning.v ===== *)
(** What the statements of [SqlQuery] and [SqlStatements] mean to a database:
    a reference evaluator of their terms over tables of rows, by the documented
    meaning of each construct, and the theorems that filters, guards and
    counters mean what they are for.

    A row is a function from columns to values, a predicate is [VBool] or, when
    unknown, [VNull]. What differs between the dialects is written out: [LIKE]
    ignores ASCII case on SQLite and D1 and not on PostgreSQL, and SQLite reads
    patterns up to the first NUL. What an engine decides - how two values
    compare, what [LOWER] folds, how it adds values that are not integers - is
    the class [SqlEngine]. Integers are unbounded: an engine whose sum leaves
    64 bits fails the statement or compares a greater number. *)

From stdpp Require Import pretty.
From S2P Require Import Prelude CoreTypes BlockName Text InitAttempts DatabaseTypes SqlQuery DatabaseConvert.
From S2P Require Import SqlStatements.

Abbreviation Row := (string -> Value).
Abbreviation Database := (string -> list Row).

(** No pattern character in a text. *)
Definition meta_free (s : string) : bool := str_forallb (fun c => negb (like_meta c)) s.

Definition is_null (v : Value) : bool := match v with VNull => true | _ => false end.

(** What an engine of a dialect leaves open: how two values compare
    ([NULL] is unknown), a value as text for pattern matching, [LOWER] - on
    SQLite of the letters of ASCII, on PostgreSQL of those its locale knows,
    acting on the text between pattern characters and making none -, and [SUM]
    and [+], which on integers (and [NULL], which [SUM] skips) are the sum. *)
Class SqlEngine (backend : Backend.t) := {
  compare_values : Value -> Value -> option comparison;
  text_of : Value -> option string;
  sql_lower : string -> string;
  sql_sum : list Value -> Value;
  sql_add : Value -> Value -> Value;
  compare_null_l : forall v, compare_values VNull v = None;
  compare_null_r : forall v, compare_values v VNull = None;
  compare_integers : forall x y, compare_values (json_of_Z x) (json_of_Z y) = Some (x ?= y)%Z;
  compare_text : forall s, compare_values (VString s) (VString s) = Some Eq;
  text_of_string : forall s, text_of (VString s) = Some s;
  text_of_null : text_of VNull = None;
  sql_lower_sqlite : backend = Backend.Sqlite -> forall s, sql_lower s = to_ascii_lowercase s;
  sql_lower_nil : sql_lower "" = "";
  sql_lower_meta : forall a c b, like_meta c = true -> sql_lower (a +:+ String c b) = sql_lower a +:+ String c (sql_lower b);
  sql_lower_free : forall a, meta_free a = true -> meta_free (sql_lower a) = true;
  sql_sum_integers : forall l zs, Forall2 (fun v z => v = json_of_Z z) (List.filter (fun v => negb (is_null v)) l) zs ->
    sql_sum l = match zs with [] => VNull | _ => json_of_Z (foldr Z.add 0%Z zs) end;
  sql_add_integers : forall x y, sql_add (json_of_Z x) (json_of_Z y) = json_of_Z (x + y)
}.

(** ** Patterns *)

(** The text after its first character: its bytes above [0x7F] that continue
    one go with it. *)
Definition is_continuation (c : ascii) : bool := in_range 128 191 c.
Fixpoint skip_continuation (s : string) : string :=
  match s with String c t => if is_continuation c then skip_continuation t else s | EmptyString => "" end.

(** SQLite and D1 read a pattern, and the text it is matched with, up to the
    first NUL; PostgreSQL text holds none. *)
Fixpoint up_to_nul (s : string) : string :=
  match s with String c t => if Ascii.eqb c nul then "" else String c (up_to_nul t) | EmptyString => "" end.
Definition pattern_text (backend : Backend.t) (s : string) : string :=
  match backend with Backend.Sqlite => up_to_nul s | Backend.Postgres => s end.

(** [LIKE] ignores the case of ASCII letters on SQLite and D1, and no case on
    PostgreSQL. *)
Definition like_fold (backend : Backend.t) (c : ascii) : ascii :=
  match backend with Backend.Sqlite => ascii_lower c | Backend.Postgres => c end.

(** Some tail of a text. *)
Fixpoint some_tail (f : string -> bool) (s : string) : bool :=
  f s || match s with String _ t => some_tail f t | EmptyString => false end.

(** [LIKE] with [\] as its escape: [%] matches any text, [_] one character,
    an escaped character itself. *)
Section Like.
  Variable backend : Backend.t.

Fixpoint like_pattern (pattern : string) : string -> bool :=
  match pattern with
  | EmptyString => is_empty
  | String c pattern =>
      let literal d pattern s :=
        match s with
        | String e s => Ascii.eqb (like_fold backend d) (like_fold backend e) && like_pattern pattern s
        | EmptyString => false
        end in
      if Ascii.eqb c "\" then
        match pattern with EmptyString => fun _ => false | String d pattern => literal d pattern end
      else if Ascii.eqb c "%" then some_tail (like_pattern pattern)
      else if Ascii.eqb c "_" then
        fun s => match s with String _ s => like_pattern pattern (skip_continuation s) | EmptyString => false end
      else literal c pattern
  end.

Definition like_match (pattern s : string) : bool := like_pattern (pattern_text backend pattern) (pattern_text backend s).
End Like.

(** [GLOB], with the classes of one character the builder writes; any other
    class is not read. *)
Fixpoint glob_pattern (pattern : string) : string -> bool :=
  match pattern with
  | EmptyString => is_empty
  | String c pattern =>
      if Ascii.eqb c "[" then
        match pattern with
        | String d (String "]" pattern) =>
            fun s => match s with String e s => Ascii.eqb d e && glob_pattern pattern s | EmptyString => false end
        | _ => fun _ => false
        end
      else if Ascii.eqb c "*" then some_tail (glob_pattern pattern)
      else if Ascii.eqb c "?" then
        fun s => match s with String _ s => glob_pattern pattern (skip_continuation s) | EmptyString => false end
      else fun s => match s with String e s => Ascii.eqb c e && glob_pattern pattern s | EmptyString => false end
  end.

Definition glob_match (pattern s : string) : bool := glob_pattern (up_to_nul pattern) (up_to_nul s).

(** An escaped text matches itself up to the folding of its characters, then
    what the rest of the pattern does. *)
Fixpoint after_prefix (f : ascii -> ascii) (t : string) (k : string -> bool) (s : string) : bool :=
  match t, s with
  | EmptyString, _ => k s
  | String a t, String b s => Ascii.eqb (f a) (f b) && after_prefix f t k s
  | String _ _, EmptyString => false
  end.

Lemma like_escaped backend t rest s :
  like_pattern backend (escape_like t +:+ rest) s = after_prefix (like_fold backend) t (like_pattern backend rest) s.
Proof.
  revert s. induction t as [|c t IH]; intros s; [by destruct s|]. cbn [escape_like]. unfold like_meta.
  destruct (Ascii.eqb_spec c "\") as [->|H1]; [|destruct (Ascii.eqb_spec c "%") as [->|H2];
    [|destruct (Ascii.eqb_spec c "_") as [->|H3]]]; cbn [orb].
  1-3: rewrite !str_cons_app; destruct s as [|e s]; [done|]; simpl; by rewrite IH.
  rewrite str_cons_app. cbn [like_pattern]. rewrite (proj2 (Ascii.eqb_neq c _) H1), (proj2 (Ascii.eqb_neq c _) H2),
    (proj2 (Ascii.eqb_neq c _) H3). destruct s as [|e s]; [done|]. simpl. by rewrite IH.
Qed.

Lemma glob_escaped t rest s : glob_pattern (escape_glob t +:+ rest) s = after_prefix id t (glob_pattern rest) s.
Proof.
  revert s. induction t as [|c t IH]; intros s; [by destruct s|]. cbn [escape_glob]. unfold glob_meta.
  destruct (Ascii.eqb_spec c "*") as [->|H1]; [|destruct (Ascii.eqb_spec c "?") as [->|H2];
    [|destruct (Ascii.eqb_spec c "[") as [->|H3]]]; cbn [orb].
  1-3: rewrite !str_cons_app; destruct s as [|e s]; [done|]; simpl; by rewrite IH.
  rewrite str_cons_app. cbn [glob_pattern]. rewrite (proj2 (Ascii.eqb_neq c _) H1), (proj2 (Ascii.eqb_neq c _) H2),
    (proj2 (Ascii.eqb_neq c _) H3). destruct s as [|e s]; [done|]. simpl. by rewrite IH.
Qed.

Lemma some_tail_true f s : f "" = true -> some_tail f s = true.
Proof. intros Hf. induction s as [|c s IH]; simpl; [by rewrite Hf|]. rewrite IH. apply orb_true_r. Qed.

Lemma some_tail_ext f g s : (forall s, f s = g s) -> some_tail f s = some_tail g s.
Proof. intros E. induction s as [|c s IH]; simpl; rewrite E; [done|]. by rewrite IH. Qed.

Lemma some_tail_map f g s : some_tail (fun s => f (str_map g s)) s = some_tail f (str_map g s).
Proof. induction s as [|c s IH]; simpl; [done|]. by rewrite IH. Qed.

Lemma after_prefix_starts f t k s : (forall s, k s = true) -> after_prefix f t k s = starts_with (str_map f t) (str_map f s).
Proof.
  unfold starts_with. intros Hk. revert s. induction t as [|a t IH]; intros s; simpl; [by rewrite Hk; destruct (str_map f s)|].
  destruct s as [|b s]; [done|]. simpl. destruct (Ascii.eqb (f a) (f b)); simpl; [apply IH|done].
Qed.

Lemma after_prefix_whole f t s : after_prefix f t is_empty s = (str_map f t =s str_map f s).
Proof.
  revert s. induction t as [|a t IH]; intros [|b s]; simpl; try done. rewrite IH.
  by destruct (Ascii.eqb (f a) (f b)).
Qed.

Lemma str_map_id s : str_map id s = s.
Proof. induction s as [|c s IH]; simpl; [done|]. by rewrite IH. Qed.

Lemma like_prefix backend t s :
  like_pattern backend (escape_like t +:+ "%") s = starts_with (str_map (like_fold backend) t) (str_map (like_fold backend) s).
Proof. rewrite like_escaped. apply after_prefix_starts. intros s'. by apply some_tail_true. Qed.

Lemma glob_prefix t s : glob_pattern (escape_glob t +:+ "*") s = starts_with t s.
Proof.
  rewrite glob_escaped, <- (str_map_id t), <- (str_map_id s) at 1. rewrite !str_map_id.
  rewrite after_prefix_starts; [by rewrite !str_map_id|]. intros s'. by apply some_tail_true.
Qed.

Lemma some_tail_contains t s : some_tail (starts_with t) s = contains t s.
Proof.
  unfold contains. induction s as [|c s IH].
  - simpl. by destruct (starts_with t "").
  - cbn [some_tail]. rewrite find_cons. destruct (starts_with t (String c s)); [done|]. simpl. rewrite IH.
    by destruct (find t s).
Qed.

Lemma some_tail_ends t s : some_tail (fun s => t =s s) s = ends_with t s.
Proof.
  apply eq_true_iff_eq. rewrite ends_with_spec. split.
  - induction s as [|c s IH]; simpl; rewrite orb_true_iff, eqs_true; [intros [->|]; [by exists ""|done]|].
    intros [->|[r ->]%IH]; [by exists ""|by exists (String c r)].
  - intros [r ->]. induction r as [|c r IH]; [change ("" +:+ t) with t; destruct t; cbn [some_tail]; by rewrite eqs_refl|].
    rewrite str_cons_app. simpl. rewrite IH. apply orb_true_r.
Qed.

Lemma like_contains backend t s :
  like_pattern backend ("%" +:+ escape_like t +:+ "%") s
  = contains (str_map (like_fold backend) t) (str_map (like_fold backend) s).
Proof.
  rewrite <- some_tail_contains, <- some_tail_map.
  change (like_pattern backend ("%" +:+ escape_like t +:+ "%") s)
    with (some_tail (like_pattern backend (escape_like t +:+ "%")) s). apply some_tail_ext. intros s'. apply like_prefix.
Qed.

Lemma like_ends backend t s :
  like_pattern backend ("%" +:+ escape_like t) s
  = ends_with (str_map (like_fold backend) t) (str_map (like_fold backend) s).
Proof.
  rewrite <- some_tail_ends, <- (some_tail_map (fun u => str_map (like_fold backend) t =s u)).
  change (like_pattern backend ("%" +:+ escape_like t) s) with (some_tail (like_pattern backend (escape_like t)) s).
  apply some_tail_ext. intros s'. rewrite <- after_prefix_whole. rewrite <- (str_app_nil_r (escape_like t)). apply like_escaped.
Qed.

(** *** Texts up to a NUL *)

Lemma has_nul_cons c s : has_nul (String c s) = Ascii.eqb c nul || has_nul s.
Proof. unfold has_nul. simpl. rewrite negb_andb. by rewrite negb_involutive. Qed.

Lemma has_nul_app a b : has_nul (a +:+ b) = has_nul a || has_nul b.
Proof. induction a as [|c a IH]; [done|]. rewrite str_cons_app, !has_nul_cons, IH. apply orb_assoc. Qed.

Lemma up_to_nul_id s : has_nul s = false -> up_to_nul s = s.
Proof.
  induction s as [|c s IH]; [done|]. rewrite has_nul_cons, orb_false_iff. intros [Hc Hs]. simpl. rewrite Hc. by rewrite IH.
Qed.

Lemma meta_not_nul c : like_meta c = true -> Ascii.eqb c nul = false.
Proof. unfold like_meta. rewrite !orb_true_iff, !Ascii.eqb_eq. by intros [[-> | ->] | ->]. Qed.

Lemma glob_meta_not_nul c : glob_meta c = true -> Ascii.eqb c nul = false.
Proof. unfold glob_meta. rewrite !orb_true_iff, !Ascii.eqb_eq. by intros [[-> | ->] | ->]. Qed.

Lemma has_nul_escape_like t : has_nul (escape_like t) = has_nul t.
Proof.
  induction t as [|c t IH]; [done|]. cbn [escape_like]. destruct (like_meta c) eqn:E; rewrite !has_nul_cons, IH; [|done].
  by rewrite (meta_not_nul c E).
Qed.

Lemma has_nul_escape_glob t : has_nul (escape_glob t) = has_nul t.
Proof.
  induction t as [|c t IH]; [done|]. cbn [escape_glob]. destruct (glob_meta c) eqn:E; rewrite !has_nul_cons, IH; [|done].
  by rewrite (glob_meta_not_nul c E).
Qed.

Lemma up_to_nul_escaped t rest : has_nul t = true -> up_to_nul (escape_like t +:+ rest) = escape_like (up_to_nul t).
Proof.
  induction t as [|c t IH]; [done|]. rewrite has_nul_cons. cbn [escape_like up_to_nul].
  destruct (Ascii.eqb c nul) eqn:En.
  - intros _. destruct (like_meta c) eqn:E; [by rewrite (meta_not_nul c E) in En|]. rewrite str_cons_app. simpl. by rewrite En.
  - intros Ht. cbn [escape_like]. destruct (like_meta c); rewrite !str_cons_app; simpl; rewrite En, IH by done; done.
Qed.

Lemma starts_with_readable t s : has_nul t = false -> starts_with t (up_to_nul s) = starts_with t s.
Proof.
  unfold starts_with. revert s. induction t as [|a t IH]; intros s; [by destruct s, (up_to_nul _)|].
  rewrite has_nul_cons, orb_false_iff. intros [Ha Ht]. destruct s as [|b s]; [done|]. simpl.
  destruct (Ascii.eqb_spec b nul) as [->|Hb]; simpl.
  - destruct (Ascii.eqb_spec a nul); [by subst|done].
  - destruct (Ascii.eqb a b); [by apply IH|done].
Qed.

Lemma up_to_nul_lower s : up_to_nul (to_ascii_lowercase s) = to_ascii_lowercase (up_to_nul s).
Proof.
  unfold to_ascii_lowercase. induction s as [|c s IH]; [done|]. simpl.
  assert (E : Ascii.eqb (ascii_lower c) nul = Ascii.eqb c nul) by (by destruct c as [[] [] [] [] [] [] [] []]).
  rewrite E. destruct (Ascii.eqb c nul); [done|]. simpl. by rewrite IH.
Qed.

Lemma has_nul_lower s : has_nul (to_ascii_lowercase s) = has_nul s.
Proof.
  unfold to_ascii_lowercase. induction s as [|c s IH]; [done|]. simpl. rewrite !has_nul_cons, IH.
  by destruct c as [[] [] [] [] [] [] [] []].
Qed.

(** Folding the case of an escaped text escapes the folded text. *)
Lemma escape_like_app a b : escape_like (a +:+ b) = escape_like a +:+ escape_like b.
Proof. induction a as [|c a IH]; [done|]. rewrite str_cons_app. simpl. rewrite IH. by destruct (like_meta c). Qed.

Lemma escape_like_free a : meta_free a = true -> escape_like a = a.
Proof.
  unfold meta_free. induction a as [|c a IH]; simpl; [done|]. rewrite andb_true_iff, negb_true_iff.
  intros [-> Ha]. by rewrite IH.
Qed.

(** A text up to its first pattern character. *)
Lemma meta_split t : meta_free t = true \/ exists a c b, t = a +:+ String c b /\ meta_free a = true /\ like_meta c = true.
Proof.
  unfold meta_free. induction t as [|c t IH]; [by left|]. destruct (like_meta c) eqn:Ec.
  - right. by exists "", c, t.
  - destruct IH as [H|(a & d & b & -> & Ha & Hd)]; [left; simpl; by rewrite Ec|].
    right. exists (String c a), d, b. simpl. by rewrite Ec.
Qed.

Lemma lower_escape {backend} `{SqlEngine backend} t : sql_lower (escape_like t) = escape_like (sql_lower t).
Proof.
  remember (String.length t) as n eqn:En. revert t En. induction n as [n IH] using lt_wf_ind. intros t ->.
  destruct (meta_split t) as [Hf|(a & c & b & -> & Ha & Hc)].
  - rewrite (escape_like_free t Hf). symmetry. by apply escape_like_free, sql_lower_free.
  - rewrite escape_like_app, (escape_like_free a Ha). cbn [escape_like]. rewrite Hc.
    rewrite !sql_lower_meta by done. change (String c (escape_like b)) with ("" +:+ String c (escape_like b)).
    rewrite sql_lower_meta by done. rewrite sql_lower_nil. rewrite escape_like_app.
    rewrite (escape_like_free (sql_lower a)) by by apply sql_lower_free. cbn [escape_like]. rewrite Hc.
    rewrite (IH (String.length b)); [done| |done]. rewrite str_length_app. simpl. lia.
Qed.

Lemma lower_pattern {backend} `{SqlEngine backend} t :
  sql_lower ("%" +:+ escape_like t +:+ "%") = "%" +:+ escape_like (sql_lower t) +:+ "%".
Proof.
  change ("%" +:+ escape_like t +:+ "%") with ("" +:+ String "%" (escape_like t +:+ "%")).
  rewrite sql_lower_meta, sql_lower_nil by done. change (escape_like t +:+ "%") with (escape_like t +:+ String "%" "").
  by rewrite sql_lower_meta, sql_lower_nil, lower_escape by done.
Qed.

(** The search of [ContainsIgnoreCase]: the lowered text in the lowered field.
    On SQLite the field is read up to its first NUL, and a text is matched up
    to its first NUL, without what the pattern has after it: the text before
    the NUL ends the field. *)
Definition contains_lowered {backend} `{SqlEngine backend} (t s : string) : bool :=
  match backend with
  | Backend.Sqlite =>
      if has_nul t then ends_with (sql_lower (up_to_nul t)) (sql_lower (up_to_nul s))
      else contains (sql_lower t) (sql_lower (up_to_nul s))
  | Backend.Postgres => contains (sql_lower t) (sql_lower s)
  end.

Lemma lower_contains {backend} `{SqlEngine backend} t s :
  like_match backend (sql_lower ("%" +:+ escape_like t +:+ "%")) (sql_lower s) = contains_lowered t s.
Proof.
  rewrite lower_pattern. unfold like_match, contains_lowered. destruct backend eqn:Eb; cbn [pattern_text].
  - rewrite !(sql_lower_sqlite eq_refl), up_to_nul_lower.
    change ("%" +:+ escape_like (to_ascii_lowercase t) +:+ "%") with (String "%" (escape_like (to_ascii_lowercase t) +:+ "%")).
    destruct (has_nul t) eqn:En.
    + change (up_to_nul (String "%" ?r)) with (String "%" (up_to_nul r)). rewrite up_to_nul_escaped by by rewrite has_nul_lower.
      rewrite up_to_nul_lower. change (String "%" (escape_like ?r)) with ("%" +:+ escape_like r). rewrite (like_ends Backend.Sqlite). change (like_fold Backend.Sqlite) with ascii_lower.
      fold (to_ascii_lowercase (to_ascii_lowercase (up_to_nul t))).
      fold (to_ascii_lowercase (to_ascii_lowercase (up_to_nul s))). by rewrite !lowercase_idem.
    + rewrite up_to_nul_id by (by rewrite has_nul_cons, has_nul_app, has_nul_escape_like, has_nul_lower, En).
      change (String "%" ?r) with ("%" +:+ r). rewrite (like_contains Backend.Sqlite). change (like_fold Backend.Sqlite) with ascii_lower.
      fold (to_ascii_lowercase (to_ascii_lowercase t)).
      fold (to_ascii_lowercase (to_ascii_lowercase (up_to_nul s))). by rewrite !lowercase_idem.
  - rewrite like_contains. change (like_fold Backend.Postgres) with (fun c : ascii => c). by rewrite !(str_map_id).
Qed.

(** ** Evaluation *)

(** SQL's three-valued connectives. *)
Definition and3 (a b : Value) : Value :=
  match a, b with
  | VBool false, _ | _, VBool false => VBool false
  | VBool true, VBool true => VBool true
  | _, _ => VNull
  end.
Definition or3 (a b : Value) : Value :=
  match a, b with
  | VBool true, _ | _, VBool true => VBool true
  | VBool false, VBool false => VBool false
  | _, _ => VNull
  end.
Definition all3 (l : list Value) : Value := fold_right and3 (VBool true) l.
Definition any3 (l : list Value) : Value := fold_right or3 (VBool false) l.

Definition holds (v : Value) : bool := match v with VBool b => b | _ => false end.

Definition integer_of (v : Value) : option Z :=
  match v with VNumber (PosInt n) => Some (Z.of_N n) | VNumber (NegInt z) => Some z | _ => None end.

Lemma json_of_Z_integer (z : Z) : integer_of (json_of_Z z) = Some z.
Proof.
  unfold json_of_Z, number_of_i64. destruct (0 <=? z)%Z eqn:E; simpl; [|done]. apply Z.leb_le in E. by rewrite Z2N.id.
Qed.

Section Evaluation.
  Context {backend : Backend.t} `{!SqlEngine backend}.

Definition compare3 (p : comparison -> bool) (a b : Value) : Value :=
  match compare_values a b with Some c => VBool (p c) | None => VNull end.
Definition is_eq (c : comparison) : bool := match c with Eq => true | _ => false end.
Definition is_lt (c : comparison) : bool := match c with Lt => true | _ => false end.
Definition is_gt (c : comparison) : bool := match c with Gt => true | _ => false end.

Definition text3 (p : string -> bool) (v : Value) : Value :=
  match text_of v with Some s => VBool (p s) | None => VNull end.


(** The aggregates of the guards, over the rows selected. *)
Definition eval_aggregate (rows : list Row) (e : Expr.t) : Value :=
  match e with
  | Expr.Call Func.Count [Expr.Asterisk] => json_of_Z (Z.of_nat (length rows))
  | Expr.Call Func.Coalesce [Expr.Call Func.Sum [Expr.Col c]; Expr.Val d] =>
      let s := sql_sum (map (fun r : Row => r c) rows) in
      if is_null s then sea_value_to_json d else s
  | _ => VNull
  end.

Variable db : Database.

(** The value of an expression on a row. Windows and the raw text of date
    buckets and casts are not read. *)
Fixpoint eval_sql (e : Expr.t) (row : Row) : Value :=
  match e with
  | Expr.Col c | Expr.TableCol _ c => row c
  | Expr.Val v | Expr.Constant v => sea_value_to_json v
  | Expr.Cust sql =>
      if sql =s "1=0" then VBool false else if sql =s "1" then json_of_Z 1 else if sql =s "0" then json_of_Z 0 else VNull
  | Expr.IsNull e => VBool (is_null (eval_sql e row))
  | Expr.IsNotNull e => VBool (negb (is_null (eval_sql e row)))
  | Expr.IsIn e vs => any3 (map (fun v => compare3 is_eq (eval_sql e row) (sea_value_to_json v)) vs)
  | Expr.Binary l op r =>
      match op with
      | BinOper.Eq => compare3 is_eq (eval_sql l row) (eval_sql r row)
      | BinOper.Ne => compare3 (fun c => negb (is_eq c)) (eval_sql l row) (eval_sql r row)
      | BinOper.Gt => compare3 is_gt (eval_sql l row) (eval_sql r row)
      | BinOper.Gte => compare3 (fun c => negb (is_lt c)) (eval_sql l row) (eval_sql r row)
      | BinOper.Lt => compare3 is_lt (eval_sql l row) (eval_sql r row)
      | BinOper.Lte => compare3 (fun c => negb (is_gt c)) (eval_sql l row) (eval_sql r row)
      | BinOper.Add => sql_add (eval_sql l row) (eval_sql r row)
      | BinOper.LikeOp =>
          match r with
          | Expr.Binary p BinOper.Escape _ =>
              match eval_sql p row with VString p => text3 (like_match backend p) (eval_sql l row) | _ => VNull end
          | _ => VNull
          end
      | BinOper.Glob => match eval_sql r row with VString p => text3 (glob_match p) (eval_sql l row) | _ => VNull end
      | BinOper.Escape => VNull
      end
  | Expr.Like e p _ => text3 (like_match backend p) (eval_sql e row)
  | Expr.Call f args =>
      match f, map (fun a => eval_sql a row) args with
      | Func.Lower, [v] => match text_of v with Some s => VString (sql_lower s) | None => VNull end
      | Func.Coalesce, [a; b] => if is_null a then b else a
      | _, _ => VNull
      end
  | Expr.Case c a b => if holds (eval_sql c row) then eval_sql a row else eval_sql b row
  | Expr.All l => all3 (map (fun a => eval_sql a row) l)
  | Expr.Any l => any3 (map (fun a => eval_sql a row) l)
  | Expr.SubQuery agg table wheres =>
      eval_aggregate (List.filter (fun r => forallb (fun w => holds (eval_sql w r)) wheres) (db table)) agg
  | Expr.Asterisk | Expr.CastAs _ _ => VNull
  end.

(** The rows a [WHERE] keeps. *)
Definition selected (wheres : list Expr.t) (rows : list Row) : list Row :=
  List.filter (fun r => forallb (fun w => holds (eval_sql w r)) wheres) rows.
End Evaluation.

(** ** Filters *)

(** A value a statement binds as it is: an integer of 64 bits, a finite float,
    or no number. *)
Definition bindable (v : Value) : bool :=
  match v with
  | VNumber (PosInt n) => (n <? 2 ^ 63)%N
  | VNumber (NegInt z) => (z <? 0)%Z
  | VNumber (Float f) => is_finite f
  | _ => true
  end.

Lemma bound_back v : bindable v = true -> sea_value_to_json (json_to_sea_value v) = v.
Proof.
  destruct v as [|b|[n|z|f]|s|l|l]; simpl; try done.
  - intros Hn. rewrite Hn. simpl. unfold json_of_Z, number_of_i64. rewrite (proj2 (Z.leb_le 0 _)) by lia. by rewrite N2Z.id.
  - intros Hz%Z.ltb_lt. unfold json_of_Z, number_of_i64. by rewrite (proj2 (Z.leb_gt 0 z)) by lia.
  - intros Hf. unfold json_of_f64, number_from_f64. by rewrite Hf.
Qed.

Definition filter_bindable (f : Filter) : bool :=
  bindable (f_value f) && match f_value f with VArray l => forallb bindable l | _ => true end.

Create HintDb truth.

Section Filters.
  Context {backend : Backend.t} `{!SqlEngine backend}.

(** What a filter asks of a row: the same on every dialect but for [Like],
    whose pattern is the dialect's, and for what [LOWER] folds. *)
Definition filter_value (f : Filter) (row : Row) : Value :=
  let col := row (f_field f) in
  let v := f_value f in
  match f_operator f with
  | FilterOp.IsNull => VBool (is_null col)
  | FilterOp.IsNotNull => VBool (negb (is_null col))
  | FilterOp.In => match v with VArray arr => any3 (map (compare3 is_eq col) arr) | _ => VBool false end
  | FilterOp.Equal => compare3 is_eq col v
  | FilterOp.NotEqual => compare3 (fun c => negb (is_eq c)) col v
  | FilterOp.GreaterThan => compare3 is_gt col v
  | FilterOp.GreaterEqual => compare3 (fun c => negb (is_lt c)) col v
  | FilterOp.LessThan => compare3 is_lt col v
  | FilterOp.LessEqual => compare3 (fun c => negb (is_gt c)) col v
  | FilterOp.ContainsIgnoreCase =>
      match v with VString t => text3 (contains_lowered t) col | _ => VBool false end
  | FilterOp.StartsWith =>
      match v with VString t => if has_nul t then VBool false else text3 (starts_with t) col | _ => VBool false end
  | FilterOp.Like => match v with VString p => text3 (like_match backend p) col | _ => VBool false end
  end.




Definition truth (v : Value) : Prop := v = VNull \/ exists b, v = VBool b.

Lemma compare3_truth p a b : truth (compare3 p a b).
Proof. unfold compare3, truth. destruct (compare_values a b); eauto. Qed.
Lemma text3_truth p v : truth (text3 p v).
Proof. unfold text3, truth. destruct (text_of v); eauto. Qed.
Lemma and3_truth a b : truth (and3 a b).
Proof. unfold and3, truth. destruct a as [|[]| | | |], b as [|[]| | | |]; eauto. Qed.
Lemma or3_truth a b : truth (or3 a b).
Proof. unfold or3, truth. destruct a as [|[]| | | |], b as [|[]| | | |]; eauto. Qed.
Lemma all3_truth l : truth (all3 l).
Proof. destruct l; [right; by exists true | apply and3_truth]. Qed.
Lemma any3_truth l : truth (any3 l).
Proof. destruct l; [right; by exists false | apply or3_truth]. Qed.
Lemma bool_truth b : truth (VBool b).
Proof. right. eauto. Qed.

#[local] Hint Resolve compare3_truth text3_truth all3_truth any3_truth bool_truth : truth.



(** A predicate of a filter means what the filter asks. *)
Lemma leaf_means db f row : filter_bindable f = true -> eval_sql db (leaf_expr f backend) row = filter_value f row.
Proof.
  unfold filter_bindable, leaf_expr, predicate_on, filter_value. intros [Hv Ha]%andb_true_iff.
  destruct (f_operator f); simpl; try (by rewrite ?bound_back); try done.
  - destruct (f_value f); try done.
  - destruct (f_value f) as [| | |t| |]; try done. simpl. rewrite text_of_string. unfold text3 at 2. destruct (text_of (row (f_field f))) as [s|] eqn:E.
    + unfold text3. rewrite text_of_string. change (String "%" ?r) with ("%" +:+ r). by rewrite lower_contains.
    + unfold text3. by rewrite text_of_null.
  - destruct (f_value f) as [| | |t| |]; try done. destruct (has_nul t) eqn:En; [done|].
    enough (G : forall b, b = backend -> eval_sql db match b with
        | Backend.Sqlite => Expr.Binary (Expr.Col (f_field f)) BinOper.Glob (Expr.Val (SeaValue.String (Some (escape_glob t +:+ "*"))))
        | Backend.Postgres => Expr.Like (Expr.Col (f_field f)) (escape_like t +:+ "%") escape_char
        end row = text3 (starts_with t) (row (f_field f))) by by apply G.
    intros b Eb. unfold text3. destruct b; simpl; unfold text3; destruct (text_of _); try done; f_equal.
    + unfold glob_match. rewrite (up_to_nul_id (_ +:+ _)) by (by rewrite has_nul_app, has_nul_escape_glob, En).
      rewrite glob_prefix. by apply starts_with_readable.
    + rewrite <- Eb. unfold like_match. cbn [pattern_text]. rewrite like_prefix. change (like_fold Backend.Postgres) with (fun c : ascii => c).
      by rewrite !(str_map_id).
  - destruct (f_value f) as [| | | |l|]; try done. simpl. f_equal. rewrite map_map. apply map_ext_in.
    intros v Hin. rewrite bound_back; [done|]. rewrite forallb_forall in Ha. by apply Ha.
Qed.




(** The rows that filters keep. *)
Definition filters_keep (filters : list Filter) (row : Row) : bool := forallb (fun f => holds (filter_value f row)) filters.

Lemma holds_and3 a b : holds (and3 a b) = holds a && holds b.
Proof. by destruct a as [|[]| | | |], b as [|[]| | | |]. Qed.

Lemma holds_all3 l : holds (all3 l) = forallb holds l.
Proof. induction l as [|v l IH]; [done|]. change (all3 (v :: l)) with (and3 v (all3 l)). by rewrite holds_and3, IH. Qed.

Lemma holds_or3 a b : holds (or3 a b) = holds a || holds b.
Proof. by destruct a as [|[]| | | |], b as [|[]| | | |]. Qed.

Lemma holds_any3 l : holds (any3 l) = existsb holds l.
Proof. induction l as [|v l IH]; [done|]. change (any3 (v :: l)) with (or3 v (any3 l)). by rewrite holds_or3, IH. Qed.

Lemma leaves_keep db row l :
  forallb filter_bindable l = true ->
  forallb holds (map (fun f => eval_sql db (leaf_expr f backend) row) l) = filters_keep l row.
Proof.
  unfold filters_keep. induction l as [|g l IH]; [done|]. cbn [map forallb]. intros [Hg Hl]%andb_true_iff.
  rewrite leaf_means by done. by rewrite IH.
Qed.

Lemma condition_keeps db filters row :
  forallb filter_bindable filters = true ->
  forallb (fun w => holds (eval_sql db w row)) (of_option (build_condition filters backend)) = filters_keep filters row.
Proof.
  intros Hb. rewrite <- (leaves_keep db row filters Hb). destruct filters as [|f fs]; [done|].
  cbn [build_condition of_option forallb]. rewrite andb_true_r.
  change (eval_sql db (Expr.All (map (fun f => leaf_expr f backend) (f :: fs))) row)
    with (all3 (map (fun a => eval_sql db a row) (map (fun f => leaf_expr f backend) (f :: fs)))).
  by rewrite holds_all3, map_map.
Qed.

End Filters.

(** ** An engine *)

(** Text, integers and booleans compare among themselves, the letters of ASCII
    fold, and numbers are integers. *)
Definition ascii_compare (a b : Value) : option comparison :=
  match a, b with
  | VNumber _, VNumber _ =>
      match integer_of a, integer_of b with Some x, Some y => Some (x ?= y)%Z | _, _ => None end
  | VString s, VString t => Some (String.compare s t)
  | VBool x, VBool y => Some (if Bool.eqb x y then Eq else if x then Gt else Lt)
  | _, _ => None
  end.

(** A text before its first pattern character folds on its own. *)
Lemma lower_app a b : to_ascii_lowercase (a +:+ b) = to_ascii_lowercase a +:+ to_ascii_lowercase b.
Proof. unfold to_ascii_lowercase. induction a as [|c a IH]; simpl; [done|]. by rewrite IH. Qed.

#[export, refine] Instance ascii_engine backend : SqlEngine backend := {|
  compare_values := ascii_compare;
  text_of v := match v with VString s => Some s | _ => None end;
  sql_lower := to_ascii_lowercase;
  sql_sum l := match omap integer_of l with [] => VNull | zs => json_of_Z (foldr Z.add 0%Z zs) end;
  sql_add a b := match integer_of a, integer_of b with Some x, Some y => json_of_Z (x + y) | _, _ => VNull end
|}.
Proof.
  - by intros [].
  - by intros [].
  - intros x y. unfold ascii_compare. rewrite !json_of_Z_integer. by destruct (json_of_Z x) eqn:E, (json_of_Z y) eqn:F.
  - intros s. unfold ascii_compare. f_equal. induction s as [|c s IH]; [done|]. simpl.
    unfold Ascii.compare. by rewrite N.compare_refl.
  - done.
  - done.
  - done.
  - done.
  - intros a c b Hc. rewrite lower_app. f_equal. unfold to_ascii_lowercase. simpl. f_equal.
    unfold like_meta in Hc. rewrite !orb_true_iff, !Ascii.eqb_eq in Hc. by destruct Hc as [[-> | ->] | ->].
  - unfold meta_free, to_ascii_lowercase. induction a as [|c a IH]; simpl; [done|]. rewrite !andb_true_iff.
    intros [Hc Ha]. split; [|auto]. revert Hc. clear. destruct c as [[] [] [] [] [] [] [] []]; vm_compute; auto.
  - intros l zs Hl. assert (E : omap integer_of l = zs); [|by rewrite E; destruct zs].
    revert zs Hl. induction l as [|v l IH]; intros zs; simpl; [by intros ->%Forall2_nil_inv_l|].
    destruct (is_null v) eqn:Ev; simpl; [destruct v; try done; apply IH|].
    intros (z & zs' & -> & Hl & ->)%Forall2_cons_inv_l. rewrite json_of_Z_integer. f_equal. by apply IH.
  - intros x y. by rewrite !json_of_Z_integer.
Defined.

Definition row_of (l : list (string * Value)) : Row := fun c => default VNull (assoc c l).


(** The same pattern on the two dialects. *)
Example like_folds_on_sqlite : like_match Backend.Sqlite "A\%b_" "a%BC" = true /\ like_match Backend.Postgres "A\%b_" "a%BC" = false.
Proof. done. Qed.

(** A search for a text with a NUL finds, on SQLite, a field that ends with
    what precedes the NUL and does not hold the text. *)
Lemma contains_nul_cut :
  let t := String.append "x" (String nul "y") in
  let e backend := leaf_expr (mkFilter "name" FilterOp.ContainsIgnoreCase (VString t)) backend in
  let row := row_of [("name", VString "max")] in
  contains t "max" = false
  /\ eval_sql (backend := Backend.Sqlite) (fun _ => []) (e Backend.Sqlite) row = VBool true
  /\ eval_sql (backend := Backend.Postgres) (fun _ => []) (e Backend.Postgres) row = VBool false.
Proof. done. Qed.

(** * What the write statements of [SqlStatements] do to a table, by the
    reference evaluator: guarded writes keep their caps, and a windowed counter
    counts the calls of its window. *)

(** ** Executing a statement *)

Definition no_row : Row := fun _ => VNull.
Definition row_with (columns : list string) (values : list Value) : Row := row_of (combine columns values).
Definition with_rows (db : Database) (table : string) (rows : list Row) : Database :=
  fun t => if t =s table then rows else db t.

Section Execute.
  Context {backend : Backend.t} `{!SqlEngine backend}.

(** The rows an insert takes in: of a [SELECT] without a [FROM], one if its
    conditions hold. *)
Definition source_rows (db : Database) (source : InsertSource) : list (list Value) :=
  match source with
  | InsertValues values => [map (fun e => eval_sql db e no_row) values]
  | InsertSelect q =>
      if forallb (fun w => holds (eval_sql db w no_row)) (se_wheres q)
      then [map (fun s => eval_sql db s.1 no_row) (se_selects q)] else []
  end.

(** Two rows agree on the columns of a unique key. *)
Definition same_key (columns : list string) (a b : Row) : bool :=
  forallb (fun c => holds (compare3 is_eq (a c) (b c))) columns.

(** The stored row after [DO UPDATE SET]: a column set to [excluded] takes the
    new row's value. *)
Definition updated_row (db : Database) (set : list (string * option Expr.t)) (stored new : Row) : Row :=
  fun c => match assoc c set with
           | Some (Some e) => eval_sql db e stored
           | Some None => new c
           | None => stored c
           end.

Fixpoint update_first (p : Row -> bool) (f : Row -> Row) (rows : list Row) : list Row :=
  match rows with
  | [] => []
  | r :: rows => if p r then f r :: rows else r :: update_first p f rows
  end.

(** The rows after one row comes in, and what it returns. *)
Definition take_in (db : Database) (on_conflict : option OnConflictClause) (rows : list Row) (new : Row) :
    list Row * list Row :=
  match on_conflict with
  | Some clause =>
      let hit := same_key (oc_columns clause) new in
      match List.find hit rows with
      | Some stored =>
          match oc_action clause with
          | DoNothing => (rows, [])
          | DoUpdate set =>
              (update_first hit (fun r => updated_row db set r new) rows, [updated_row db set stored new])
          end
      | None => (rows ++ [new], [new])
      end
  | None => (rows ++ [new], [new])
  end.

(** The database after an insert, and the rows it returns. *)
Definition exec_insert (db : Database) (q : InsertStatement) : Database * list Row :=
  let step acc values :=
    let '(rows, out) := acc in
    let '(rows', out') := take_in db (in_on_conflict q) rows (row_with (in_columns q) values) in (rows', out ++ out') in
  let '(rows, out) := fold_left step (source_rows db (in_source q)) (db (in_table q), []) in
  (with_rows db (in_table q) rows, out).

(** The database after an update, and how many rows it touched. *)
Definition exec_update (db : Database) (q : UpdateStatement) : Database * nat :=
  let hit (r : Row) := forallb (fun w => holds (eval_sql db w r)) (up_wheres q) in
  let new (r : Row) : Row := fun c => match assoc c (up_set q) with Some e => eval_sql db e r | None => r c end in
  (with_rows db (up_table q) (map (fun r => if hit r then new r else r) (db (up_table q))),
   length (List.filter hit (db (up_table q)))).

(** ** Guards *)

(** [COALESCE(SUM(field), 0)] of rows. *)
Definition table_sum (field : string) (rows : list Row) : Value :=
  let s := sql_sum (map (fun r : Row => r field) rows) in if is_null s then json_of_Z 0 else s.

(** What a guard asks of the table as it stands: the engine's count or sum of
    the rows its filters keep. *)
Definition guard_met (db : Database) (table : string) (g : CapGuard.t) : bool :=
  match g with
  | CapGuard.CountBelow filters cap =>
      (Z.of_nat (length (List.filter (filters_keep filters) (db table))) <? cap)%Z
  | CapGuard.SumAtMost field filters add cap =>
      holds (compare3 (fun c => negb (is_gt c))
               (sql_add (table_sum field (List.filter (filters_keep filters) (db table))) (json_of_Z add)) (json_of_Z cap))
  end.

Definition guard_filters (g : CapGuard.t) : list Filter :=
  match g with CapGuard.CountBelow filters _ | CapGuard.SumAtMost _ filters _ _ => filters end.
Definition guard_bindable (g : CapGuard.t) : bool := forallb filter_bindable (guard_filters g).

Lemma selected_keeps db filters rows :
  forallb filter_bindable filters = true ->
  List.filter (fun r => forallb (fun w => holds (eval_sql db w r)) (of_option (build_condition filters backend))) rows
  = List.filter (filters_keep filters) rows.
Proof. intros Hb. apply filter_ext. intros r. by apply condition_keeps. Qed.

Lemma sum_or_zero rows field :
  eval_aggregate rows (Expr.Call Func.Coalesce [Expr.Call Func.Sum [Expr.Col field]; bigint 0]) = table_sum field rows.
Proof. reflexivity. Qed.

Lemma guard_means db table g e row :
  guard_bindable g = true -> guard_holds table g backend = Ok e -> holds (eval_sql db e row) = guard_met db table g.
Proof.
  unfold guard_bindable. intros Hb. destruct g as [filters cap|field filters add cap]; simpl in *.
  - intros [= <-]. simpl. rewrite selected_keeps by done. unfold compare3. by rewrite compare_integers.
  - unfold validate_ident. destruct (is_plain_ident field); simpl; [|done]. intros [= <-].
    change (eval_sql db (Expr.Binary (Expr.Binary (aggregate_subquery table
        (Expr.Call Func.Coalesce [Expr.Call Func.Sum [Expr.Col field]; bigint 0]) filters backend) BinOper.Add (bigint add))
        BinOper.Lte (bigint cap)) row)
      with (compare3 (fun c => negb (is_gt c))
              (sql_add (eval_aggregate
                 (List.filter (fun r => forallb (fun w => holds (eval_sql db w r)) (of_option (build_condition filters backend)))
                    (db table)) (Expr.Call Func.Coalesce [Expr.Call Func.Sum [Expr.Col field]; bigint 0])) (json_of_Z add))
              (json_of_Z cap)).
    by rewrite selected_keeps, sum_or_zero.
Qed.

Lemma guards_mean db table guards items row :
  forallb guard_bindable guards = true -> try_map (fun g => guard_holds table g backend) guards = Ok items ->
  forallb holds (map (fun e => eval_sql db e row) items) = forallb (guard_met db table) guards.
Proof.
  revert items. induction guards as [|g gs IH]; intros items; cbn [forallb try_map]; [by intros _ [= <-]|].
  intros [Hg Hgs]%andb_true_iff. destruct (guard_holds table g backend) as [e|] eqn:E; simpl; [|done].
  destruct (try_map _ gs) as [es|] eqn:E2; simpl; [|done]. intros [= <-]. simpl.
  rewrite (guard_means db table g e row) by done. f_equal. by apply IH.
Qed.

Lemma condition_met db table guards cond row :
  forallb guard_bindable guards = true -> guard_condition table guards backend = Ok cond ->
  forallb (fun w => holds (eval_sql db w row)) (of_option cond) = forallb (guard_met db table) guards.
Proof.
  unfold guard_condition. intros Hb. destruct guards as [|g gs]; [by intros [= <-]|].
  destruct (try_map _ (g :: gs)) as [items|] eqn:E; simpl; [|done]. intros [= <-]. cbn [of_option forallb].
  rewrite andb_true_r. change (eval_sql db (Expr.All items) row) with (all3 (map (fun e => eval_sql db e row) items)).
  rewrite holds_all3. exact (guards_mean db table (g :: gs) items row Hb E).
Qed.

(** A guarded insert puts its row in exactly when every guard is met. *)
Lemma insert_guarded_exact db table data guards q :
  forallb guard_bindable guards = true -> insert_guarded_query table data guards backend = Ok q ->
  exec_insert db q =
  if forallb (guard_met db table) guards
  then let row := row_with (map fst data) (map (fun kv => sea_value_to_json (json_to_sea_value kv.2)) data) in
       (with_rows db table (db table ++ [row]), [row])
  else (with_rows db table (db table), []).
Proof.
  unfold insert_guarded_query. intros Hb. destruct (guard_condition table guards backend) as [cond|] eqn:E; simpl; [|done].
  intros [= <-]. unfold exec_insert. simpl.
  set (select := fold_left (fun q kv => add_select q (bound kv.2) None) data select_new).
  assert (Hw : se_wheres (where_option select cond) = of_option cond /\ se_selects (where_option select cond) = se_selects select).
  { assert (Hs : se_wheres select = []) by (unfold select; generalize select_new as q0, (eq_refl : se_wheres select_new = []);
      induction data as [|kv data IH]; simpl; auto). destruct cond; simpl; rewrite ?Hs; done. }
  destruct Hw as [-> ->]. rewrite (condition_met db table guards cond no_row) by done.
  assert (Hv : map (fun s => eval_sql db s.1 no_row) (se_selects select)
               = map (fun kv => sea_value_to_json (json_to_sea_value kv.2)) data).
  { unfold select.
    assert (Hg : forall q0, map (fun s => eval_sql db s.1 no_row) (se_selects (fold_left (fun q kv => add_select q (bound kv.2) None) data q0))
      = map (fun s => eval_sql db s.1 no_row) (se_selects q0) ++ map (fun kv => sea_value_to_json (json_to_sea_value kv.2)) data).
    { induction data as [|kv data IH]; intros q0; simpl; [by rewrite app_nil_r|]. rewrite IH. simpl.
      rewrite map_app. by rewrite <- app_assoc. }
    by rewrite Hg. }
  destruct (forallb (guard_met db table) guards); simpl; [|done]. by rewrite Hv.
Qed.
End Execute.

(** ** Caps *)

Section Caps.
  Context {backend : Backend.t} `{!SqlEngine backend}.

Abbreviation GuardedWrite := (list (string * Value) * list CapGuard.t)%type.

Definition written_row (data : list (string * Value)) : Row :=
  row_with (map fst data) (map (fun kv => sea_value_to_json (json_to_sea_value kv.2)) data).

(** Guarded inserts into a table, one transaction after another. *)
Fixpoint run_inserts (db : Database) (table : string) (writes : list GuardedWrite) :
    result Database SqlBuildError.t :=
  match writes with
  | [] => Ok db
  | w :: writes =>
      let? q := insert_guarded_query table w.1 w.2 backend in
      run_inserts (exec_insert db q).1 table writes
  end.

Definition matching (filters : list Filter) (rows : list Row) : list Row := List.filter (filters_keep filters) rows.

(** A value of an integer column: an integer, or [NULL]. *)
Definition whole_number (v : Value) : Prop := v = VNull \/ exists z, v = json_of_Z z.

(** The sum of a column whose values are all [whole_number]. *)
Definition total (field : string) (rows : list Row) : Z := foldr Z.add 0%Z (omap integer_of (map (fun r => r field) rows)).

(** What a row of such a column adds to a guarded sum. *)
Definition contribution (field : string) (filters : list Filter) (row : Row) : Z :=
  if filters_keep filters row then default 0%Z (integer_of (row field)) else 0%Z.

Lemma json_of_Z_not_null z : is_null (json_of_Z z) = false.
Proof. unfold json_of_Z, number_of_i64. by destruct (0 <=? z)%Z. Qed.

(** The engine's sum of such a column is its total. *)
Lemma table_sum_total field rows : Forall (fun r : Row => whole_number (r field)) rows -> table_sum field rows = json_of_Z (total field rows).
Proof.
  intros Hw. unfold table_sum, total.
  rewrite (sql_sum_integers _ (omap integer_of (map (fun r : Row => r field) rows))).
  - destruct (omap _ _); [done|]. by rewrite json_of_Z_not_null.
  - induction Hw as [|r rows [E|[z E]] Hw IH]; [constructor| |]; cbn [map List.filter]; rewrite E; [exact IH|].
    rewrite json_of_Z_not_null. cbn [negb].
    change (omap integer_of (?v :: ?l)) with (match integer_of v with Some z => z :: omap integer_of l | None => omap integer_of l end).
    rewrite json_of_Z_integer. by constructor.
Qed.

(** On an integer column a sum guard compares the total. *)
Lemma sum_met db table field filters add cap :
  Forall (fun r : Row => whole_number (r field)) (matching filters (db table)) ->
  guard_met db table (CapGuard.SumAtMost field filters add cap) = (total field (matching filters (db table)) + add <=? cap)%Z.
Proof.
  intros Hw. cbn [guard_met]. fold (matching filters (db table)). rewrite table_sum_total, sql_add_integers by done.
  unfold compare3. rewrite compare_integers. simpl. unfold is_gt, Z.leb. by destruct (_ ?= _)%Z.
Qed.

Lemma total_app field a b : total field (a ++ b) = (total field a + total field b)%Z.
Proof.
  unfold total. rewrite map_app, omap_app. generalize (omap integer_of (map (fun r : Row => r field) a)) as l.
  induction l as [|z l IH]; [done|]. cbn [app foldr]. rewrite IH. lia.
Qed.

Lemma total_one field filters row : total field (matching filters [row]) = contribution field filters row.
Proof.
  unfold contribution, matching, total. simpl. destruct (filters_keep filters row); simpl; [|done].
  destruct (integer_of (row field)); simpl; lia.
Qed.

Lemma matching_forall (P : Row -> Prop) filters rows : Forall P rows -> Forall P (matching filters rows).
Proof. unfold matching. induction 1 as [|r rows Hr Hrows IH]; simpl; [constructor|]. destruct (filters_keep filters r); [by constructor|done]. Qed.

Lemma guard_met_in db table guards g : forallb (guard_met db table) guards = true -> g ∈ guards -> guard_met db table g = true.
Proof. rewrite forallb_forall. intros Hall Hin. apply Hall. by apply list_elem_of_In. Qed.

(** C25: however many guarded inserts run, one transaction after another, a cap
    that each of them carries is never exceeded: neither a number of rows, nor
    the sum of an integer column (every row counted holds an integer or [NULL]
    there, in the table and among the rows inserted) of which each insert
    states at least its own share; other tables are untouched. *)
Theorem guarded_inserts_keep_caps (db db' : Database) (table : string) (writes : list GuardedWrite) :
  Forall (fun w => forallb guard_bindable w.2 = true) writes ->
  run_inserts db table writes = Ok db' ->
  (forall filters cap, Forall (fun w => CapGuard.CountBelow filters cap ∈ w.2) writes ->
     (Z.of_nat (length (matching filters (db table))) <= cap)%Z ->
     (Z.of_nat (length (matching filters (db' table))) <= cap)%Z)
  /\ (forall field filters cap,
     Forall (fun r : Row => whole_number (r field)) (matching filters (db table ++ map (fun w => written_row w.1) writes)) ->
     Forall (fun w => exists add, CapGuard.SumAtMost field filters add cap ∈ w.2
                      /\ (contribution field filters (written_row w.1) <= add)%Z) writes ->
     (total field (matching filters (db table)) <= cap)%Z -> (total field (matching filters (db' table)) <= cap)%Z)
  /\ (forall t, t <> table -> db' t = db t).
Proof.
  intros Hb. revert db. induction Hb as [|w ws Hw Hws IH]; cbn [run_inserts]; intros db; [by intros [= <-]|].
  destruct (insert_guarded_query table w.1 w.2 backend) as [q|] eqn:E; simpl; [|done].
  rewrite (insert_guarded_exact db table w.1 w.2 q) by done. cbn zeta.
  destruct (forallb (guard_met db table) w.2) eqn:Eg; simpl; intros Hrun; apply IH in Hrun as (Hc & Hs & Ho); split_and!.
  - intros filters cap [Hg Hgs]%Forall_cons Hle. apply Hc; [done|]. unfold with_rows. rewrite String.eqb_refl.
    pose proof (guard_met_in _ _ _ _ Eg Hg) as Hm. simpl in Hm. apply Z.ltb_lt in Hm.
    unfold matching in *. rewrite List.filter_app, length_app. fold (written_row w.1). simpl.
    destruct (filters_keep filters (written_row w.1)); simpl; lia.
  - intros field filters cap Hwhole [(add & Hg & Hadd) Hgs]%Forall_cons Hle. apply Hs; [|done|]; unfold with_rows; rewrite String.eqb_refl;
      fold (written_row w.1).
    + by rewrite <- app_assoc.
    + pose proof (guard_met_in _ _ _ _ Eg Hg) as Hm. unfold matching in Hwhole. rewrite List.filter_app in Hwhole.
      apply Forall_app in Hwhole as [Hold _]. rewrite sum_met in Hm by done. apply Z.leb_le in Hm.
      unfold matching in *. rewrite List.filter_app, total_app. fold (matching filters [written_row w.1]). rewrite total_one. lia.
  - intros t Hne. rewrite Ho by done. unfold with_rows. by rewrite (proj2 (String.eqb_neq t table)).
  - intros filters cap [Hg Hgs]%Forall_cons Hle. apply Hc; [done|]. unfold with_rows. by rewrite String.eqb_refl.
  - intros field filters cap Hwhole [Hg Hgs]%Forall_cons Hle. apply Hs; [|done|]; unfold with_rows; rewrite String.eqb_refl; [|done].
    unfold matching in *. rewrite List.filter_app in *. apply Forall_app in Hwhole as [Hold Hnew]. apply Forall_app. split; [done|].
    simpl in Hnew. destruct (filters_keep filters (written_row w.1)); [by apply Forall_cons in Hnew as [_ ?]|done].
  - intros t Hne. rewrite Ho by done. unfold with_rows. by rewrite (proj2 (String.eqb_neq t table)).
Qed.
End Caps.

Definition bob : Filter := mkFilter "owner" FilterOp.Equal (VString "bob").
Definition bob_write (size : Z) : list (string * Value) * list CapGuard.t :=
  ([("owner", VString "bob"); ("size", json_of_Z size)],
   [CapGuard.CountBelow [bob] 2; CapGuard.SumAtMost "size" [bob] size 10]).

Definition bob_writes : list (list (string * Value) * list CapGuard.t) := [bob_write 6; bob_write 6; bob_write 4; bob_write 0].

Lemma guarded_inserts_keep_caps_witness : exists db',
  run_inserts (backend := Backend.Sqlite) (fun _ => []) "files" bob_writes = Ok db'
  /\ length (db' "files") = 2
  /\ (total "size" (matching (backend := Backend.Sqlite) [bob] (db' "files")) <= 10)%Z.
Proof.
  destruct (run_inserts (backend := Backend.Sqlite) (fun _ => []) "files" bob_writes) as [db'|] eqn:E; [|vm_compute in E; discriminate E].
  exists db'. split; [reflexivity|]. split; [vm_compute in E; injection E as <-; reflexivity|].
  assert (Hb : Forall (fun w => forallb guard_bindable w.2 = true) bob_writes) by (repeat constructor).
  destruct (guarded_inserts_keep_caps (fun _ => []) db' "files" bob_writes Hb E) as (_ & Hs & _).
  apply Hs.
  - apply matching_forall. unfold bob_writes. cbn [map app].
    repeat (apply Forall_cons; split; [right; first [by exists 6%Z|by exists 4%Z|by exists 0%Z]|]). constructor.
  - repeat constructor; eexists; (split; [apply list_elem_of_further, list_elem_of_here | vm_compute; discriminate]).
  - vm_compute. discriminate.
Defined.

(** ** Windowed counters *)

(** The names of the counter's columns. *)
Record CounterColumns := mkCounterColumns {
  cc_key : string; cc_count : string; cc_window : string; cc_created : list string; cc_updated : list string
}.

(** One call: the id it brings, its stamp, its time and the cutoff. *)
Record CounterCall := mkCounterCall { call_id : string; call_stamp : string; call_now : Z; call_cutoff : Z }.

(** What a counter is: the specification its row implements. *)
Record Counter := mkCounter {
  co_id : string; co_count : Z; co_window : Z; co_created : string; co_updated : string
}.

Definition count_call (counter : option Counter) (call : CounterCall) : Counter :=
  match counter with
  | None => mkCounter (call_id call) 1 (call_now call) (call_stamp call) (call_stamp call)
  | Some c =>
      if (co_window c <? call_cutoff call)%Z
      then mkCounter (co_id c) 1 (call_now call) (co_created c) (call_stamp call)
      else mkCounter (co_id c) (co_count c + 1) (co_window c) (co_created c) (call_stamp call)
  end.

Section Counters.
  Context {backend : Backend.t} `{!SqlEngine backend} (table : string) (cols : CounterColumns) (key : string).

Definition counter_query (call : CounterCall) : result InsertStatement SqlBuildError.t :=
  windowed_counter_upsert_query table (cc_key cols) (call_id call) key (cc_count cols) (cc_window cols)
    (cc_created cols) (cc_updated cols) (call_stamp call) (call_now call) (call_cutoff call).

(** The row a call returns, and the table it leaves. *)
Definition run_call (rows : list Row) (call : CounterCall) : result (list Row * list Row) SqlBuildError.t :=
  let? q := counter_query call in
  let '(db, out) := exec_insert (with_rows (fun _ => []) table rows) (insert_returning_all q) in Ok (db table, out).

Fixpoint run_calls (rows : list Row) (calls : list CounterCall) : result (list Row * list (list Row)) SqlBuildError.t :=
  match calls with
  | [] => Ok (rows, [])
  | call :: calls =>
      let? r := run_call rows call in let? rest := run_calls r.1 calls in Ok (rest.1, r.2 :: rest.2)
  end.

(** The row of the counter's key. *)
Definition keyed (row : Row) : bool := holds (compare3 is_eq (VString key) (row (cc_key cols))).

Definition represents (row : Row) (c : Counter) : Prop :=
  row "id" = VString (co_id c) /\ row (cc_key cols) = VString key /\ row (cc_count cols) = json_of_Z (co_count c)
  /\ row (cc_window cols) = json_of_Z (co_window c)
  /\ Forall (fun f => row f = VString (co_created c)) (cc_created cols)
  /\ Forall (fun f => row f = VString (co_updated c)) (cc_updated cols).

Definition all_columns : list string := ["id"; cc_key cols; cc_count cols; cc_window cols] ++ cc_created cols ++ cc_updated cols.

Lemma repeated_none seen names : repeated seen names = None -> NoDup names /\ Forall (fun n => n ∉ seen) names.
Proof.
  revert seen. induction names as [|n ns IH]; intros seen; simpl; [repeat constructor|].
  destruct (existsb (String.eqb n) seen) eqn:E; [done|]. intros [Hd Hf]%IH. rewrite List.Forall_forall in Hf.
  assert (Hn : n ∉ seen).
  { intros Hin. apply not_true_iff_false in E. apply E, existsb_exists. exists n. split; [by apply list_elem_of_In|].
    apply String.eqb_refl. }
  split; constructor; try done.
  - intros Hin. apply (Hf n); [by apply list_elem_of_In|]. set_solver.
  - rewrite List.Forall_forall. intros m Hm Hin. apply (Hf m Hm). set_solver.
Qed.

Lemma try_map_validate l bs : try_map validate_ident l = Ok bs -> bs = l.
Proof.
  revert bs. induction l as [|n l IH]; simpl; intros bs; [by intros [= <-]|]. unfold validate_ident at 1.
  destruct (is_plain_ident n); simpl; [|done]. destruct (try_map validate_ident l) as [bs'|]; simpl; [|done].
  intros [= <-]. f_equal. by apply IH.
Qed.

(** The term of a call, when its names are accepted. *)
Lemma counter_query_shape call q : counter_query call = Ok q ->
  NoDup all_columns /\
  exists stamps_c stamps_u, length stamps_c = length (cc_created cols) /\ length stamps_u = length (cc_updated cols)
  /\ Forall (eq (text (call_stamp call))) (stamps_c ++ stamps_u) /\
  let expired := Expr.Binary (Expr.TableCol table (cc_window cols)) BinOper.Lt (bigint (call_cutoff call)) in
  q = mkInsert table all_columns
        (InsertValues ([text (call_id call); text key; bound (json_of_Z 1); bound (json_of_Z (call_now call))] ++ stamps_c ++ stamps_u))
        (Some (mkOnConflict [cc_key cols] (DoUpdate
           ([(cc_count cols, Some (Expr.Case expired (bigint 1)
                (Expr.Binary (Expr.TableCol table (cc_count cols)) BinOper.Add (Expr.Val (SeaValue.Integer (Some 1%Z))))));
             (cc_window cols, Some (Expr.Case expired (bigint (call_now call)) (Expr.TableCol table (cc_window cols))))]
            ++ map (fun f => (f, Some (text (call_stamp call)))) (cc_updated cols))))) false.
Proof.
  unfold counter_query, windowed_counter_upsert_query.
  destruct (validate_ident (cc_key cols)) as [k|] eqn:E1; cbn [result_bind]; [|done].
  destruct (validate_ident (cc_count cols)) as [c|] eqn:E2; cbn [result_bind]; [|done].
  destruct (validate_ident (cc_window cols)) as [w|] eqn:E3; cbn [result_bind]; [|done].
  destruct (try_map validate_ident (cc_created cols)) as [cr|] eqn:E4; cbn [result_bind]; [|done].
  destruct (try_map validate_ident (cc_updated cols)) as [up|] eqn:E5; cbn [result_bind]; [|done].
  assert (Hv : forall n m, validate_ident n = Ok m -> m = n)
    by (intros n m; unfold validate_ident; destruct (is_plain_ident n); [by intros [= <-]|done]).
  apply Hv in E1, E2, E3. apply try_map_validate in E4, E5. subst k c w cr up.
  fold all_columns.
  destruct (repeated [] all_columns) as [x|] eqn:E; [done|]. intros [= <-].
  apply repeated_none in E as [Hd _]. split; [exact Hd|].
  exists (map (fun _ => text (call_stamp call)) (cc_created cols)), (map (fun _ => text (call_stamp call)) (cc_updated cols)).
  rewrite !length_map. split_and!; [done..| |done].
  rewrite List.Forall_forall. intros e. rewrite in_app_iff, !in_map_iff. naive_solver.
Qed.

(** Lookups in a row written by columns. *)
Lemma row_with_lookup (cs : list string) (vs : list Value) i f v : NoDup cs -> cs !! i = Some f -> vs !! i = Some v -> row_with cs vs f = v.
Proof.
  unfold row_with, row_of. intros Hd. revert vs i. induction Hd as [|c cs Hc Hd IH]; intros [|w vs] [|i]; simpl; try done.
  - intros [= ->] [= ->]. by rewrite String.eqb_refl.
  - intros Hf Hv. destruct (String.eqb_spec c f) as [->|Hne]; [|by apply (IH vs i)].
    exfalso. apply Hc. by eapply list_elem_of_lookup_2.
Qed.

Lemma stamp_lookup (cs : list string) (vs : list Value) f v :
  f ∈ cs -> length vs = length cs -> Forall (eq v) vs -> exists i, cs !! i = Some f /\ vs !! i = Some v.
Proof.
  intros [i Hi]%list_elem_of_lookup_1 Hl Hv. exists i. split; [done|].
  destruct (vs !! i) as [w|] eqn:E.
  - rewrite List.Forall_forall in Hv. f_equal. symmetry. apply Hv. apply list_elem_of_In. by eapply list_elem_of_lookup_2.
  - apply lookup_ge_None in E. apply lookup_lt_Some in Hi. lia.
Qed.

Lemma bindable_Z z : (z < 2 ^ 63)%Z -> bindable (json_of_Z z) = true.
Proof.
  intros Hz. unfold json_of_Z, number_of_i64. destruct (0 <=? z)%Z eqn:E; simpl.
  - apply Z.leb_le in E. apply N.ltb_lt. lia.
  - by apply Z.leb_gt in E; apply Z.ltb_lt.
Qed.

Lemma eval_text db s row : eval_sql db (text s) row = VString s.
Proof. reflexivity. Qed.

Lemma eval_bound db v row : bindable v = true -> eval_sql db (bound v) row = v.
Proof. apply bound_back. Qed.

Lemma stamps_values db stamps s : Forall (eq (text s)) stamps -> Forall (eq (VString s)) (map (fun e => eval_sql db e no_row) stamps).
Proof. induction 1 as [|e es <- Hes IH]; simpl; constructor; done. Qed.

(** The row a first call brings in. *)
Lemma new_row_represents db call stamps :
  NoDup all_columns -> (call_now call < 2 ^ 63)%Z -> length stamps = length (cc_created cols ++ cc_updated cols) ->
  Forall (eq (text (call_stamp call))) stamps ->
  represents
    (row_with all_columns
       (map (fun e => eval_sql db e no_row)
          ([text (call_id call); text key; bound (json_of_Z 1); bound (json_of_Z (call_now call))] ++ stamps)))
    (count_call None call).
Proof.
  intros Hd Hnow Hl Hs. apply (stamps_values db) in Hs.
  unfold all_columns in *. cbn [app map]. set (vs := map (fun e => eval_sql db e no_row) stamps) in *.
  assert (Hlv : length vs = length (cc_created cols ++ cc_updated cols)) by (unfold vs; by rewrite length_map). clearbody vs.
  rewrite !eval_text, eval_bound by done. rewrite eval_bound by by apply bindable_Z.
  assert (Ht : forall f, f ∈ cc_created cols ++ cc_updated cols ->
            row_with ("id" :: cc_key cols :: cc_count cols :: cc_window cols :: cc_created cols ++ cc_updated cols)
              (VString (call_id call) :: VString key :: json_of_Z 1 :: json_of_Z (call_now call) :: vs) f
            = VString (call_stamp call)).
  { intros f (i & H1 & H2)%(stamp_lookup _ vs f (VString (call_stamp call))); [|done..].
    by apply (row_with_lookup _ _ (4 + i)). }
  unfold represents. simpl. split_and!.
  - by apply (row_with_lookup _ _ 0).
  - by apply (row_with_lookup _ _ 1).
  - by apply (row_with_lookup _ _ 2).
  - by apply (row_with_lookup _ _ 3).
  - rewrite List.Forall_forall. intros f Hf. apply Ht. apply elem_of_app. left. by apply list_elem_of_In.
  - rewrite List.Forall_forall. intros f Hf. apply Ht. apply elem_of_app. right. by apply list_elem_of_In.
Qed.

(** The update of a conflicting call. *)
Definition counter_set (call : CounterCall) : list (string * option Expr.t) :=
  let expired := Expr.Binary (Expr.TableCol table (cc_window cols)) BinOper.Lt (bigint (call_cutoff call)) in
  [(cc_count cols, Some (Expr.Case expired (bigint 1)
       (Expr.Binary (Expr.TableCol table (cc_count cols)) BinOper.Add (Expr.Val (SeaValue.Integer (Some 1%Z))))));
   (cc_window cols, Some (Expr.Case expired (bigint (call_now call)) (Expr.TableCol table (cc_window cols))))]
  ++ map (fun f => (f, Some (text (call_stamp call)))) (cc_updated cols).

Lemma assoc_map_same {A} f (x : A) l : assoc f (map (fun g => (g, x)) l) = if bool_decide (f ∈ l) then Some x else None.
Proof.
  induction l as [|g l IH]; simpl; [done|]. destruct (String.eqb_spec g f) as [->|Hne].
  - by rewrite bool_decide_true by set_solver.
  - rewrite IH. apply (f_equal (fun b : bool => if b then Some x else None)). apply bool_decide_ext. set_solver.
Qed.

Lemma columns_differ (i j : nat) a b :
  NoDup all_columns -> all_columns !! i = Some a -> all_columns !! j = Some b -> i <> j -> a <> b.
Proof. intros Hd Ha Hb Hij ->. apply Hij. by eapply NoDup_lookup. Qed.

Lemma created_at f : f ∈ cc_created cols -> exists i, all_columns !! (4 + i) = Some f /\ i < length (cc_created cols).
Proof.
  intros [i Hi]%list_elem_of_lookup_1. exists i. split; [|by eapply lookup_lt_Some].
  unfold all_columns. simpl. by apply lookup_app_l_Some.
Qed.

Lemma updated_at f : f ∈ cc_updated cols -> exists i, all_columns !! (4 + length (cc_created cols) + i) = Some f.
Proof.
  intros [i Hi]%list_elem_of_lookup_1. exists i. unfold all_columns. simpl.
  by rewrite lookup_app_r, Nat.add_comm, Nat.add_sub by lia.
Qed.

(** Columns the update leaves. *)
Lemma set_leaves call f i :
  NoDup all_columns -> all_columns !! i = Some f -> i = 0 \/ i = 1 \/ (4 <= i < 4 + length (cc_created cols)) ->
  assoc f (counter_set call) = None.
Proof.
  intros Hd Hf Hi. unfold counter_set. simpl.
  rewrite (proj2 (String.eqb_neq (cc_count cols) f)) by (apply (columns_differ 2 i); [done..|lia]).
  rewrite (proj2 (String.eqb_neq (cc_window cols) f)) by (apply (columns_differ 3 i); [done..|lia]).
  rewrite assoc_map_same, bool_decide_false; [done|]. intros (j & Hj)%updated_at.
  eapply (columns_differ _ _ f f); [done | exact Hj | exact Hf | lia | done].
Qed.

Lemma update_represents db call stored c new :
  NoDup all_columns -> represents stored c ->
  represents (updated_row db (counter_set call) stored new) (count_call (Some c) call).
Proof.
  intros Hd (Hid & Hk & Hc & Hw & Hcr & Hup).
  assert (Hex : eval_sql db (Expr.Binary (Expr.TableCol table (cc_window cols)) BinOper.Lt (bigint (call_cutoff call))) stored
                = VBool (co_window c <? call_cutoff call)%Z).
  { simpl. rewrite Hw. unfold compare3. by rewrite compare_integers. }
  assert (Hcount : updated_row db (counter_set call) stored new (cc_count cols)
                   = if (co_window c <? call_cutoff call)%Z then json_of_Z 1 else json_of_Z (co_count c + 1)).
  { unfold updated_row, counter_set. simpl assoc. rewrite String.eqb_refl.
    change (eval_sql db (Expr.Case ?e ?a ?b) stored) with (if holds (eval_sql db e stored) then eval_sql db a stored else eval_sql db b stored).
    rewrite Hex. simpl. destruct (_ <? _)%Z; [done|]. rewrite Hc. apply (sql_add_integers (co_count c) 1). }
  assert (Hwindow : updated_row db (counter_set call) stored new (cc_window cols)
                   = if (co_window c <? call_cutoff call)%Z then json_of_Z (call_now call) else json_of_Z (co_window c)).
  { unfold updated_row, counter_set. simpl assoc.
    rewrite (proj2 (String.eqb_neq (cc_count cols) (cc_window cols))) by (by apply (columns_differ 2 3)).
    rewrite String.eqb_refl.
    change (eval_sql db (Expr.Case ?e ?a ?b) stored) with (if holds (eval_sql db e stored) then eval_sql db a stored else eval_sql db b stored).
    rewrite Hex. simpl. by destruct (_ <? _)%Z. }
  assert (Hleft : forall f i, all_columns !! i = Some f -> i = 0 \/ i = 1 \/ (4 <= i < 4 + length (cc_created cols)) ->
             updated_row db (counter_set call) stored new f = stored f).
  { intros f i Hf Hi. unfold updated_row. by rewrite (set_leaves call f i). }
  assert (Hupd : forall f, f ∈ cc_updated cols -> updated_row db (counter_set call) stored new f = VString (call_stamp call)).
  { intros f Hf. destruct (updated_at f Hf) as (i & Hi). unfold updated_row, counter_set. simpl assoc.
    rewrite (proj2 (String.eqb_neq (cc_count cols) f)) by (eapply (columns_differ 2); [done..|exact Hi|lia]).
    rewrite (proj2 (String.eqb_neq (cc_window cols) f)) by (eapply (columns_differ 3); [done..|exact Hi|lia]).
    by rewrite assoc_map_same, bool_decide_true. }
  unfold represents, count_call.
  replace (co_id (if (co_window c <? call_cutoff call)%Z then _ else _)) with (co_id c) by (by destruct (_ <? _)%Z).
  replace (co_created (if (co_window c <? call_cutoff call)%Z then _ else _)) with (co_created c) by (by destruct (_ <? _)%Z).
  replace (co_updated (if (co_window c <? call_cutoff call)%Z then _ else _)) with (call_stamp call) by (by destruct (_ <? _)%Z).
  split_and!.
  - by rewrite (Hleft _ 0) by (done || lia).
  - by rewrite (Hleft _ 1) by (done || lia).
  - rewrite Hcount. by destruct (_ <? _)%Z.
  - rewrite Hwindow. by destruct (_ <? _)%Z.
  - rewrite List.Forall_forall in *. intros f Hf. rewrite <- (Hcr f Hf).
    destruct (created_at f) as (i & Hi & Hl); [by apply list_elem_of_In|]. apply (Hleft f (4 + i)); [done|lia].
  - rewrite List.Forall_forall. intros f Hf. apply Hupd. by apply list_elem_of_In.
Qed.

(** The row [DO UPDATE] finds is the counter's. *)
Lemma counter_hit new r : new (cc_key cols) = VString key -> same_key [cc_key cols] new r = keyed r.
Proof. intros Hn. unfold same_key, keyed. simpl. by rewrite Hn, andb_true_r. Qed.

Lemma represents_keyed r c : represents r c -> keyed r = true.
Proof. intros (_ & Hk & _). unfold keyed, compare3. by rewrite Hk, compare_text. Qed.

Lemma find_none {A} (p : A -> bool) l : Forall (fun x => p x = false) l -> List.find p l = None.
Proof. induction 1 as [|x l Hx Hl IH]; simpl; [done|]. by rewrite Hx. Qed.

Lemma find_middle {A} (p : A -> bool) l1 x l2 : Forall (fun x => p x = false) l1 -> p x = true -> List.find p (l1 ++ x :: l2) = Some x.
Proof. intros Hl Hx. induction Hl as [|y l1 Hy Hl IH]; simpl; [by rewrite Hx|]. by rewrite Hy. Qed.

Lemma update_middle p f l1 x l2 :
  Forall (fun x => p x = false) l1 -> p x = true -> update_first p f (l1 ++ x :: l2) = l1 ++ f x :: l2.
Proof. intros Hl Hx. induction Hl as [|y l1 Hy Hl IH]; simpl; [by rewrite Hx|]. by rewrite Hy, IH. Qed.

(** A call is one insert of the row [new], which becomes the counter's row or
    updates it. *)
Lemma run_call_takes_in rows call rows' out : (call_now call < 2 ^ 63)%Z -> run_call rows call = Ok (rows', out) ->
  NoDup all_columns /\
  exists db new, represents new (count_call None call)
  /\ take_in db (Some (mkOnConflict [cc_key cols] (DoUpdate (counter_set call)))) rows new = (rows', out).
Proof.
  intros Hnow. unfold run_call. destruct (counter_query call) as [q|] eqn:E; cbn [result_bind]; [|done].
  apply counter_query_shape in E as (Hd & sc & su & Hlc & Hlu & Hs & ->). unfold exec_insert.
  cbn [insert_returning_all in_source in_table in_columns in_on_conflict source_rows fold_left].
  set (db := with_rows (fun _ => []) table rows). set (new := row_with all_columns _). fold (counter_set call).
  replace (db table) with rows by (unfold db, with_rows; by rewrite String.eqb_refl).
  destruct (take_in db _ rows new) as [rs os] eqn:Et. cbn [app]. unfold with_rows. rewrite String.eqb_refl.
  intros [= <- <-]. split; [exact Hd|]. exists db, new. split; [|exact Et].
  apply new_row_represents; [done..| |done]. by rewrite !length_app, Hlc, Hlu.
Qed.

(** A table of one row of the key that stands for the counter, the others as
    they were. *)
Definition holds_counter (others : list Row) (c : Counter) (rows : list Row) (row : Row) : Prop :=
  exists l1 l2, rows = l1 ++ row :: l2 /\ others = l1 ++ l2 /\ represents row c.

Lemma first_call rows call rows' out : Forall (fun r => keyed r = false) rows -> (call_now call < 2 ^ 63)%Z ->
  run_call rows call = Ok (rows', out) ->
  exists row, out = [row] /\ holds_counter rows (count_call None call) rows' row.
Proof.
  intros Hk Hnow (Hd & db & new & Hnew & Ht)%run_call_takes_in; [|done]. revert Ht. unfold take_in. cbn [oc_columns oc_action].
  rewrite (find_none _ rows); [|eapply Forall_impl; [exact Hk|]; cbv beta; intros r Hr; rewrite counter_hit; [done|apply Hnew]].
  intros [= <- <-]. exists new. split; [done|]. exists rows, []. by rewrite app_nil_r.
Qed.

Lemma next_call others c rows row call rows' out :
  Forall (fun r => keyed r = false) others -> (call_now call < 2 ^ 63)%Z -> holds_counter others c rows row ->
  run_call rows call = Ok (rows', out) ->
  exists row', out = [row'] /\ holds_counter others (count_call (Some c) call) rows' row'.
Proof.
  intros Hk Hnow (l1 & l2 & -> & -> & Hr) (Hd & db & new & Hnew & Ht)%run_call_takes_in; [|done].
  apply Forall_app in Hk as [Hk1 Hk2]. revert Ht. unfold take_in. cbn [oc_columns oc_action].
  assert (Hh : forall r, same_key [cc_key cols] new r = keyed r) by (intros r; apply counter_hit, Hnew).
  assert (Hp : Forall (fun r => same_key [cc_key cols] new r = false) l1)
    by (eapply Forall_impl; [exact Hk1|]; cbv beta; intros r; by rewrite Hh).
  rewrite find_middle, update_middle by (done || (rewrite Hh; by eapply represents_keyed)).
  intros [= <- <-]. eexists. split; [done|]. exists l1, l2. split_and!; [done..|]. by apply update_represents.
Qed.

(** The counters a sequence of calls goes through. *)
Fixpoint counters (c : option Counter) (calls : list CounterCall) : list Counter :=
  match calls with [] => [] | call :: calls => count_call c call :: counters (Some (count_call c call)) calls end.

Lemma last_after_head {A} (x : A) l d : List.last (x :: l) d = List.last l x.
Proof. revert x d. induction l as [|y l IH]; intros x d; [done|]. change (List.last (x :: y :: l) d) with (List.last (y :: l) d). by rewrite IH, IH. Qed.

Lemma next_calls others c rows row calls rows' outs :
  Forall (fun r => keyed r = false) others -> Forall (fun call => (call_now call < 2 ^ 63)%Z) calls ->
  holds_counter others c rows row -> run_calls rows calls = Ok (rows', outs) ->
  Forall2 (fun out c => exists r, out = [r] /\ represents r c) outs (counters (Some c) calls)
  /\ exists row', holds_counter others (List.last (counters (Some c) calls) c) rows' row'.
Proof.
  intros Hk Hnow. revert c rows row rows' outs. induction Hnow as [|call calls Hn Hnow IH]; cbn [run_calls]; intros c rows row rows' outs Hh.
  - intros [= <- <-]. simpl. split; [constructor|by exists row].
  - destruct (run_call rows call) as [[rows1 out]|] eqn:E1; cbn [result_bind fst snd]; [|done].
    destruct (run_calls rows1 calls) as [[rows2 outs2]|] eqn:E2; cbn [result_bind fst snd]; [|done]. intros [= <- <-].
    destruct (next_call others c rows row call rows1 out Hk Hn Hh E1) as (row1 & -> & Hh1).
    destruct (IH _ _ _ _ _ Hh1 E2) as (Hf & row' & Hr'). cbn [counters]. split.
    + constructor; [|done]. exists row1. split; [done|]. destruct Hh1 as (? & ? & _ & _ & Hr1). exact Hr1.
    + exists row'. rewrite last_after_head. exact Hr'.
Qed.

(** C26: a windowed counter, kept by one upsert per call, is the counter the
    calls describe: on a table without a row of its key, every call returns
    the one row that holds the counter so far - a new counter of one, one more
    within the window, or one again once the stored window began before the
    call's cutoff, with the id and creation stamp of the first call and the
    update stamp of the last - and the rows of other keys stay as they were. *)
Theorem windowed_counter_refines (rows : list Row) (call : CounterCall) (calls : list CounterCall)
    (rows' : list Row) (outs : list (list Row)) :
  Forall (fun r => keyed r = false) rows -> Forall (fun call => (call_now call < 2 ^ 63)%Z) (call :: calls) ->
  run_calls rows (call :: calls) = Ok (rows', outs) ->
  Forall2 (fun out c => exists r, out = [r] /\ represents r c) outs (counters None (call :: calls))
  /\ exists l1 row l2, rows' = l1 ++ row :: l2 /\ rows = l1 ++ l2
     /\ represents row (List.last (counters None (call :: calls)) (count_call None call)).
Proof.
  intros Hk [Hn Hnow]%Forall_cons. cbn [run_calls].
  destruct (run_call rows call) as [[rows1 out]|] eqn:E1; cbn [result_bind fst snd]; [|done].
  destruct (run_calls rows1 calls) as [[rows2 outs2]|] eqn:E2; cbn [result_bind fst snd]; [|done]. intros [= <- <-].
  destruct (first_call rows call rows1 out Hk Hn E1) as (row1 & -> & Hh1).
  destruct (next_calls rows _ _ _ calls _ _ Hk Hnow Hh1 E2) as (Hf & row' & l1 & l2 & Hrows & Ho & Hr').
  cbn [counters]. split.
  - constructor; [|done]. exists row1. split; [done|]. by destruct Hh1 as (? & ? & _ & _ & Hr1).
  - exists l1, row', l2. rewrite last_after_head. done.
Qed.
End Counters.

Definition hits : CounterColumns := mkCounterColumns "bucket" "hits" "window_start" ["created_at"] ["updated_at"].
Definition hit_calls : list CounterCall :=
  [mkCounterCall "a" "t0" 100 40; mkCounterCall "b" "t1" 110 50; mkCounterCall "c" "t2" 170 110].

Lemma windowed_counter_refines_witness : exists rows' outs,
  run_calls (backend := Backend.Sqlite) "limits" hits "user:1" [] hit_calls = Ok (rows', outs)
  /\ map co_count (counters None hit_calls) = [1; 2; 1]%Z
  /\ Forall2 (fun out c => exists r, out = [r] /\ represents hits "user:1" r c) outs (counters None hit_calls).
Proof.
  assert (Hok : (if run_calls (backend := Backend.Sqlite) "limits" hits "user:1" [] hit_calls then true else false) = true) by (vm_compute; reflexivity).
  destruct (run_calls (backend := Backend.Sqlite) "limits" hits "user:1" [] hit_calls) as [[rows' outs]|] eqn:E; [|discriminate Hok].
  exists rows', outs. split; [reflexivity|]. split; [reflexivity|].
  apply (windowed_counter_refines (backend := Backend.Sqlite) "limits" hits "user:1" [] _ _ rows' outs); [constructor| |exact E].
  repeat constructor.
Defined.
