(* ===== verification/DbExec.v ===== *)
(** The executor of the SQL backends
    ([wafer-core/src/interfaces/database/exec.rs], [DbExec]) and the values of
    its rows ([codec.rs]): what each operation asks of its backend, in which
    order, what it keeps of the schema and what it answers.

    A method is a program ([Exec]) over the backend's primitives, the schema
    cache (one critical section of its lock at a time), the clock and the ids
    it mints; [run_exec] runs one against a backend with state. The derived
    [Debug] texts of error messages are the class [ExecDebug]. *)

From Stdlib Require Import SpecFloat.
From stdpp Require Import pretty sorting.
From S2P Require Import Prelude CoreTypes BlockName Text InitAttempts DatabaseTypes SqlQuery DatabaseConvert SchemaCache SqlStatements SqlText.

(** ** Values of rows ([codec.rs]) *)

(** [JsonColumns] is the list of its names. *)
Definition JSON_NONE : list string := [].

(** [JsonColumns::contains]. *)
Definition json_contains (json : list string) (column : string) : bool :=
  existsb (fun c => eq_ignore_ascii_case c column) json.

Definition value_as_str (v : Value) : option string := match v with VString s => Some s | _ => None end.
Definition value_as_i64 (v : Value) : option Z := match v with VNumber n => number_as_i64 n | _ => None end.
Definition value_as_f64 (v : Value) : option f64 := match v with VNumber n => Some (number_as_f64 n) | _ => None end.

(** The integer a float is, when its [fract] is zero. *)
Definition integer_of_f64 (f : f64) : option Z :=
  match f with
  | S754_zero _ => Some 0%Z
  | S754_finite s m e =>
      let signed (n : Z) := if s then (- n)%Z else n in
      if (0 <=? e)%Z then Some (signed (Z.shiftl (Z.pos m) e))
      else if (Z.pos m mod 2 ^ (- e) =? 0)%Z then Some (signed (Z.pos m / 2 ^ (- e))%Z) else None
  | _ => None
  end.

(** [exact_i64]. *)
Definition exact_i64 (v : Value) : option Z :=
  match value_as_i64 v with
  | Some z => Some z
  | None =>
      match value_as_f64 v ≫= integer_of_f64 with
      | Some z => if ((- 2 ^ 63 <=? z) && (z <? 2 ^ 63))%Z then Some z else None
      | None => None
      end
  end.

Section Codec.
  Context `{JsonCrate}.

(** [encode_json_value]. *)
Definition encode_json_value (v : Value) : Value :=
  match v with VNull => VNull | other => VString (display_json other) end.

(** [decode_text]. *)
Definition decode_text (column text : string) (json : list string) : Value :=
  if json_contains json column
  then match from_json text with Some parsed => parsed | None => VString text end
  else VString text.

(** [record_id]. *)
Definition record_id (v : Value) : string :=
  match v with VString s => s | VNumber _ => display_json v | _ => "" end.

(** The value of a column as it is read. *)
Definition column_value (name : string) (value : Value) (json : list string) : Value :=
  match value with VString s => decode_text name s json | other => other end.

(** The loop of [record_from_columns]. *)
Fixpoint record_columns (row : list (string * Value)) (json : list string) (id : string) (data : list (string * Value)) :
    DbRecord :=
  match row with
  | [] => mkDbRecord id data
  | (name, value) :: row =>
      let value := column_value name value json in
      record_columns row json (if name =s "id" then record_id value else id) (entry_insert data name value)
  end.

(** [record_from_columns]. *)
Definition record_from_columns (row : list (string * Value)) (json : list string) : DbRecord :=
  record_columns row json "" [].

(** [rows_from_positional]. *)
Definition rows_from_positional (columns : list string) (rows : list (list Value)) :
    result (list (list (string * Value))) DatabaseError :=
  try_map (fun row =>
    if negb (length row =? length columns)
    then Err (Internal ("a result row has " +:+ pretty (length row) +:+ " values for "
                        +:+ pretty (length columns) +:+ " columns"))
    else Ok (fold_left (fun data kv => entry_insert data kv.1 kv.2) (combine columns row) [])) rows.

(** [first_scalar]. *)
Definition first_scalar (row : Value) : option Value :=
  match row with
  | VObject [] => None
  | VObject ((_, v) :: _) => Some v
  | other => Some other
  end.

(** [scalar_of]. *)
Definition scalar_of (row : option Value) : result Value DatabaseError :=
  match row ≫= first_scalar with
  | Some v => Ok v
  | None => Err (Internal "scalar query answered no row; expected one")
  end.

(** [malformed_scalar]. *)
Definition malformed_scalar (expected : string) (v : Value) : DatabaseError :=
  Internal ("scalar query answered " +:+ display_json v +:+ "; expected " +:+ expected).

(** [scalar_i64]. *)
Definition scalar_i64 (row : option Value) : result Z DatabaseError :=
  let? v := scalar_of row in
  match exact_i64 v with Some z => Ok z | None => Err (malformed_scalar "an integer" v) end.

(** [scalar_f64]. *)
Definition scalar_f64 (row : option Value) : result f64 DatabaseError :=
  let? v := scalar_of row in
  match value_as_f64 v with Some f => Ok f | None => Err (malformed_scalar "a number" v) end.

Definition PRESENT : string := "present".

(** [table_presence]. *)
Definition table_presence (rows : list DbRecord) : result bool DatabaseError :=
  match rows with
  | [row] =>
      match assoc PRESENT (dr_data row) with
      | Some v =>
          match exact_i64 v with
          | Some 1%Z => Ok true
          | Some 0%Z => Ok false
          | _ => Err (Internal ("table-existence probe answered `present` " +:+ display_json v +:+ "; expected 0 or 1"))
          end
      | None => Err (Internal "table-existence probe answered a row without `present`")
      end
  | _ => Err (Internal ("table-existence probe answered " +:+ pretty (length rows) +:+ " rows; expected exactly one"))
  end.
End Codec.

(** ** Primitives *)

Module BatchOp.
Inductive t :=
| Rows (sql : string) (params : list Value) (json : list string)
| FetchOne (sql : string) (params : list Value) (json : list string)
| Execute (sql : string) (params : list Value)
| ScalarI64 (sql : string) (params : list Value)
| ScalarF64 (sql : string) (params : list Value).

(** [BatchOp::sql_params]. *)
Definition sql_params (op : t) : string * list Value :=
  match op with
  | Rows sql params _ | FetchOne sql params _ | Execute sql params | ScalarI64 sql params | ScalarF64 sql params => (sql, params)
  end.
End BatchOp.

Module BatchResult.
Inductive t := Rows (rows : list DbRecord) | FetchOne (row : DbRecord) | Execute (n : Z) | ScalarI64 (n : Z) | ScalarF64 (f : f64).
End BatchResult.

Module TxOp.
Inductive t :=
| Execute (sql : string) (params : list Value)
| Returning (sql : string) (params : list Value) (json : list string).

(** [TxOp::sql_params]. *)
Definition sql_params (op : t) : string * list Value :=
  match op with Execute sql params | Returning sql params _ => (sql, params) end.
End TxOp.

Module TxResult.
Inductive t := Execute (n : Z) | Returning (rows : list DbRecord).
End TxResult.

(** The [Debug] forms that reach error texts. *)
Class ExecDebug := {
  debug_batch_result : option BatchResult.t -> string;
  debug_tx_result : TxResult.t -> string;
  debug_data : list (string * Value) -> string;
  debug_value : option Value -> string
}.

(** What the executor asks of its backend: the primitives of [DbExec]. *)
Inductive Prim :=
| RunFetch (sql : string) (params : list Value) (json : list string)
| RunFetchOne (sql : string) (params : list Value) (json : list string)
| RunExecute (sql : string) (params : list Value)
| RunExecuteReturning (sql : string) (params : list Value) (json : list string)
| RunScalarI64 (sql : string) (params : list Value)
| RunScalarF64 (sql : string) (params : list Value)
| RunSchemaExecute (sql : string) (params : list Value)
| RunSchemaTransaction (ops : list TxOp.t)
| RunTransaction (ops : list TxOp.t)
| RunBatch (ops : list BatchOp.t).

Definition PrimValue (p : Prim) : Type :=
  match p with
  | RunFetch _ _ _ | RunExecuteReturning _ _ _ => list DbRecord
  | RunFetchOne _ _ _ => DbRecord
  | RunExecute _ _ | RunScalarI64 _ _ | RunSchemaExecute _ _ => Z
  | RunScalarF64 _ _ => f64
  | RunSchemaTransaction _ | RunTransaction _ => list TxResult.t
  | RunBatch _ => list BatchResult.t
  end.

Definition PrimFailure (p : Prim) : Type :=
  match p with RunSchemaTransaction _ | RunTransaction _ => TransactionError | _ => DatabaseError end.

Abbreviation PrimAnswer p := (result (PrimValue p) (PrimFailure p)).

(** ** Programs *)

Inductive Exec (A : Type) :=
| Ret (a : A)
| Send (p : Prim) (k : PrimAnswer p -> Exec A)
| PeekCache (k : option SchemaCache -> Exec A)
| TouchCache (f : SchemaCache -> SchemaCache) (k : Exec A)
| TimestampNow (k : string -> Exec A)
| MintRecordId (k : string -> Exec A).
Arguments Ret {A} a.
Arguments Send {A} p k.
Arguments PeekCache {A} k.
Arguments TouchCache {A} f k.
Arguments TimestampNow {A} k.
Arguments MintRecordId {A} k.

Fixpoint exec_bind {A B} (p : Exec A) (k : A -> Exec B) : Exec B :=
  match p with
  | Ret a => k a
  | Send p k' => Send p (fun r => exec_bind (k' r) k)
  | PeekCache k' => PeekCache (fun c => exec_bind (k' c) k)
  | TouchCache f p => TouchCache f (exec_bind p k)
  | TimestampNow k' => TimestampNow (fun t => exec_bind (k' t) k)
  | MintRecordId k' => MintRecordId (fun id => exec_bind (k' id) k)
  end.

Definition exec_try {A B E} (p : Exec (result A E)) (k : A -> Exec (result B E)) : Exec (result B E) :=
  exec_bind p (fun r => match r with Ok a => k a | Err e => Ret (Err e) end).

Notation "'run!' x := p 'in' k" := (exec_bind p (fun x => k))
  (at level 200, x pattern, p at level 100, k at level 200) : wafer_scope.
Notation "'try!' x := p 'in' k" := (exec_try p (fun x => k))
  (at level 200, x pattern, p at level 100, k at level 200) : wafer_scope.
Notation "'let!' x := r 'in' k" := (exec_try (Ret r) (fun x => k))
  (at level 200, x pattern, r at level 100, k at level 200) : wafer_scope.

Definition send (p : Prim) : Exec (PrimAnswer p) := Send p Ret.

(** A lock of the cache, if the backend has one: a read of it, and a change. *)
Definition peek_cache {A} (f : SchemaCache -> A) : Exec (option A) := PeekCache (fun c => Ret (f <$> c)).
Definition touch (f : SchemaCache -> SchemaCache) : Exec unit := TouchCache f (Ret tt).

(** [if let (Some(cache), Some(gen0))]. *)
Definition touch_if_gen (gen0 : option N) (f : SchemaCache -> N -> SchemaCache) : Exec unit :=
  match gen0 with Some gen0 => touch (fun c => f c gen0) | None => Ret tt end.

(** Whether [schema_cache] answers one. *)
Definition has_cache : Exec bool := PeekCache (fun c => Ret (is_some c)).

(** A backend with its state, the clock and the ids among it. *)
Record BackendOps (S : Type) := mkBackendOps {
  bo_prim : forall p : Prim, S -> S * PrimAnswer p;
  bo_now : S -> S * string;
  bo_mint : S -> S * string
}.
Arguments bo_prim {S}.
Arguments bo_now {S}.
Arguments bo_mint {S}.

Fixpoint run_exec {S A} (b : BackendOps S) (p : Exec A) (s : S) (c : option SchemaCache) : S * option SchemaCache * A :=
  match p with
  | Ret a => (s, c, a)
  | Send p k => let '(s, r) := bo_prim b p s in run_exec b (k r) s c
  | PeekCache k => run_exec b (k c) s c
  | TouchCache f p => run_exec b p s (f <$> c)
  | TimestampNow k => let '(s, t) := bo_now b s in run_exec b (k t) s c
  | MintRecordId k => let '(s, id) := bo_mint b s in run_exec b (k id) s c
  end.

(** [DbExec::run_batch]'s default. *)
Definition run_batch_op (op : BatchOp.t) : Exec (result BatchResult.t DatabaseError) :=
  match op with
  | BatchOp.Rows sql params json => try! rows := send (RunFetch sql params json) in Ret (Ok (BatchResult.Rows rows))
  | BatchOp.FetchOne sql params json => try! row := send (RunFetchOne sql params json) in Ret (Ok (BatchResult.FetchOne row))
  | BatchOp.Execute sql params => try! n := send (RunExecute sql params) in Ret (Ok (BatchResult.Execute n))
  | BatchOp.ScalarI64 sql params => try! n := send (RunScalarI64 sql params) in Ret (Ok (BatchResult.ScalarI64 n))
  | BatchOp.ScalarF64 sql params => try! f := send (RunScalarF64 sql params) in Ret (Ok (BatchResult.ScalarF64 f))
  end.

Fixpoint run_batch (ops : list BatchOp.t) : Exec (result (list BatchResult.t) DatabaseError) :=
  match ops with
  | [] => Ret (Ok [])
  | op :: ops => try! r := run_batch_op op in try! rs := run_batch ops in Ret (Ok (r :: rs))
  end.

(** ** Helpers *)

Section Helpers.
  Context `{DebugFormat} `{JsonCrate} `{ExecDebug}.

(** [From<SqlBuildError> for DatabaseError], at a [?]. *)
Definition from_sql {A} (r : result A SqlBuildError.t) : result A DatabaseError :=
  match r with Ok a => Ok a | Err e => Err (InvalidArgument (sql_build_error_text e)) end.

(** [map_err(|e| DatabaseError::Internal(e.to_string()))]. *)
Definition sql_internal {A} (r : result A SqlBuildError.t) : result A DatabaseError :=
  match r with Ok a => Ok a | Err e => Err (Internal (sql_build_error_text e)) end.

(** [Display for DatabaseError]. *)
Definition database_error_display (e : DatabaseError) : string :=
  match e with
  | NotFound => "record not found"
  | AlreadyExists m => "unique constraint violated: " +:+ m
  | InvalidArgument m => "invalid argument: " +:+ m
  | Unavailable m => "database unavailable: " +:+ m
  | Contended m => "database contended: " +:+ m
  | CallBudgetExhausted m => "call budget exhausted: " +:+ m
  | Internal m => "database error: " +:+ m
  | Other m => m
  end.

(** [TransactionError::whole]. *)
Definition whole (e : DatabaseError) : TransactionError := mkTransactionError None e.

(** [sql_name]. *)
Definition sql_name (name : string) : result string DatabaseError := from_sql (validate_ident name).

Definition sql_names (names : list string) : result unit DatabaseError :=
  try_for_each (fun n => let? _ := sql_name n in Ok tt) names.

(** [sorted_pairs]. *)
Definition sorted_pairs (data : Data) (json : list string) : result (list (string * Value)) DatabaseError :=
  let? pairs := try_map (fun '(k, v) =>
                  let value := if json_contains json k then encode_json_value v else v in
                  let? k := sql_name k in Ok (k, value)) data in
  Ok (merge_sort key_le pairs).

(** [query_columns]. *)
Definition tree_leaf_fields (nodes : list FilterTree.t) : list string := flat_map node_columns nodes.
Definition query_columns (filters : list Filter) (sort : list SortField) (filter_tree : option (list FilterTree.t))
    (projection : option (list string)) : list string :=
  map f_field filters ++ map sf_field sort ++ default [] (tree_leaf_fields <$> filter_tree) ++ default [] projection.

Definition filter_columns (filters : list Filter) : list string := query_columns filters [] None None.

(** [guard_columns]. *)
Definition guard_columns (guards : list CapGuard.t) : list string :=
  flat_map (fun guard => match guard with
                         | CapGuard.CountBelow filters _ => filter_columns filters
                         | CapGuard.SumAtMost field filters _ _ => filter_columns filters ++ [field]
                         end) guards.

(** [written_columns]. *)
Definition written_columns (data : Data) : list (string * Value) := merge_sort key_le data.

Definition UPDATED_AT : string := "updated_at".
Definition CREATED_AT : string := "created_at".

Definition contains_key {A} (k : string) (data : list (string * A)) : bool := is_some (assoc k data).

(** [stamp_timestamps]. *)
Definition stamped (now : string) (data : Data) (include_created : bool) : Data :=
  let data := if include_created && negb (contains_key CREATED_AT data) then entry_insert data CREATED_AT (VString now) else data in
  if negb (contains_key UPDATED_AT data) then entry_insert data UPDATED_AT (VString now) else data.

Definition stamp_timestamps (data : Data) (include_created : bool) : Exec Data :=
  TimestampNow (fun now => Ret (stamped now data include_created)).

(** [require_stamped_columns]. *)
Definition require_stamped_columns (table : Table) : result unit DatabaseError :=
  if existsb (fun c => co_name c =s UPDATED_AT) (ta_columns table) then Ok tt
  else Err (InvalidArgument ("table `" +:+ ta_name table +:+ "` declares no `" +:+ UPDATED_AT +:+ "` column, and every write stamps `"
                             +:+ UPDATED_AT +:+ "`: declare it")).

(** [prepare_created_row]. *)
Definition prepare_created_row (table : string) (data : Data) (policy : option IdPolicy.t) :
    Exec (result Data DatabaseError) :=
  let finish (data : Data) := run! data := stamp_timestamps data true in Ret (Ok data) in
  match policy with
  | Some IdPolicy.Mint => MintRecordId (fun id => finish (entry_insert data "id" (VString id)))
  | Some IdPolicy.Caller =>
      Ret (Err (InvalidArgument ("`" +:+ table +:+ "` declares an integer `id` that the database does not fill: "
                                 +:+ "give the row an `id`, or declare the key so the database numbers "
                                 +:+ "rows (SQLite `id INTEGER PRIMARY KEY`, Postgres an identity or serial column)")))
  | Some IdPolicy.Database | None => finish data
  end.

(** [batch_shape_error]. *)
Definition batch_shape_error (what : string) (got : option BatchResult.t) : DatabaseError :=
  Internal ("run_batch returned an unexpected result shape for " +:+ what +:+ ": " +:+ debug_batch_result got).

(** [schema_step_error]. *)
Definition schema_step_error (what : string) (e : DatabaseError) : DatabaseError :=
  match e with
  | Unavailable msg => Unavailable (what +:+ ": " +:+ msg)
  | Contended msg => Contended (what +:+ ": " +:+ msg)
  | other => Internal (what +:+ ": " +:+ database_error_display other)
  end.

(** The loop of [first_refusing_guard] over the verdict columns. *)
Fixpoint refusing_from (data : list (string * Value)) (index guards : nat) : result (option nat) DatabaseError :=
  match guards with
  | O => Ok None
  | S guards =>
      let column := guard_probe_column index in
      match assoc column data ≫= value_as_i64 with
      | Some 1%Z => refusing_from data (S index) guards
      | Some 0%Z => Ok (Some index)
      | _ => Err (Internal ("the guard probe's " +:+ column +:+ " is not 0 or 1: " +:+ debug_data data))
      end
  end.

(** [first_refusing_guard]. *)
Definition first_refusing_guard (probe : TxResult.t) (guards : nat) : result (option nat) DatabaseError :=
  match probe with
  | TxResult.Returning [] => Err (Internal "the guard probe returned no row")
  | TxResult.Returning (verdicts :: _) => refusing_from (dr_data verdicts) 0 guards
  | TxResult.Execute _ => Err (Internal ("run_transaction returned " +:+ debug_tx_result probe +:+ " for the guard probe"))
  end.

(** [catalog_column]. *)
Definition catalog_column (row : DbRecord) : result CatalogColumn DatabaseError :=
  let field (name : string) := default VNull (assoc name (dr_data row)) in
  let malformed (what : string) :=
    Internal ("the column description returned " +:+ what +:+ ": " +:+ debug_data (dr_data row)) in
  let? name := match value_as_str (field "name") with Some n => Ok n | None => Err (malformed "no column name") end in
  let? decl_type := match field "decl_type" with
                    | VNull => Ok "" | VString t => Ok t | _ => Err (malformed "a non-text declared type") end in
  let? not_null := match value_as_i64 (field "not_null") with
                   | Some 0%Z => Ok false | Some 1%Z => Ok true
                   | _ => Err (malformed "a `not_null` that is neither 0 nor 1") end in
  let? default_value := match field "default_value" with
                        | VNull => Ok None | VString d => Ok (Some d) | _ => Err (malformed "a non-text default") end in
  let? position := match value_as_i64 (field "pk") with
                   | Some 0%Z => Ok None
                   | Some position => if ((0 <=? position) && (position <? 2 ^ 32))%Z then Ok (Some (Z.to_N position))
                                      else Err (malformed "a key position out of range")
                   | None => Err (malformed "no key position") end in
  Ok (mkCatalogColumn name decl_type not_null default_value position).
End Helpers.

(** ** The schema, as the executor knows it *)

Section Executor.
  Context `{SeaQuery} `{FloatFormat} `{DebugFormat} `{JsonCrate} `{UnicodeLower} `{ExecDebug} (BACKEND : Backend.t).

(** [table_exists]. *)
Definition table_exists (table : string) : Exec (result bool DatabaseError) :=
  let '(sql, params) := build_table_exists table BACKEND in
  try! rows := send (RunFetch sql params JSON_NONE) in
  Ret (table_presence rows).

(** [DbExec::id_policy]. *)
Definition id_policy (table : string) : Exec (result IdPolicy.t DatabaseError) :=
  run! cached := peek_cache (fun c => cached_id_policy c table) in
  match mjoin cached with
  | Some policy => Ret (Ok policy)
  | None =>
      run! gen0 := peek_cache generation in
      let '(sql, params) := build_id_policy table BACKEND in
      try! code := send (RunScalarI64 sql params) in
      match IdPolicyProbe.from_code code with
      | None => Ret (Err (Internal ("id policy probe of " +:+ table +:+ " answered " +:+ pretty code)))
      | Some (IdPolicyProbe.Table policy) =>
          run! _ := touch_if_gen gen0 (fun c gen => set_id_policy_if_gen c table policy gen) in
          Ret (Ok policy)
      | Some IdPolicyProbe.NoTable => Ret (Ok IdPolicy.Mint)
      end
  end.

(** [created_row_id_policy]. *)
Definition created_row_id_policy (table : string) (data : Data) : Exec (result (option IdPolicy.t) DatabaseError) :=
  if contains_key "id" data then Ret (Ok None)
  else try! policy := id_policy table in Ret (Ok (Some policy)).

(** The columns an introspection's rows describe. *)
Fixpoint described_columns (rows : list DbRecord) : TableColumns :=
  match rows with
  | [] => mkTableColumns [] []
  | row :: rows =>
      let rest := described_columns rows in
      match assoc "name" (dr_data row) ≫= value_as_str with
      | None => rest
      | Some name =>
          let name := to_lowercase name in
          let decl_type := default "" (assoc "decl_type" (dr_data row) ≫= value_as_str) in
          mkTableColumns (name :: tc_names rest)
            (if is_json_decl_type decl_type then name :: tc_json rest else tc_json rest)
      end
  end.

(** [introspect_columns]. *)
Definition introspect_columns (table : string) : Exec (result TableColumns DatabaseError) :=
  let '(sql, params) := build_list_columns table BACKEND in
  try! rows := send (RunFetch sql params JSON_NONE) in
  Ret (Ok (described_columns rows)).

(** [table_columns]. *)
Definition table_columns (table : string) : Exec (result TableColumns DatabaseError) :=
  run! cached := peek_cache (fun c => cached_columns c table) in
  match mjoin cached with
  | Some columns => Ret (Ok columns)
  | None =>
      run! gen0 := peek_cache generation in
      try! columns := introspect_columns table in
      run! _ := touch_if_gen gen0 (fun c gen => set_columns_if_gen c table columns gen) in
      Ret (Ok columns)
  end.

(** [get_columns], [json_columns]. *)
Definition get_columns (table : string) : Exec (result (list string) DatabaseError) :=
  try! columns := table_columns table in Ret (Ok (tc_names columns)).
Definition json_columns (table : string) : Exec (result (list string) DatabaseError) :=
  try! columns := table_columns table in Ret (Ok (tc_json columns)).

(** [get_primary_key]. *)
Definition get_primary_key (table : string) : Exec (result (list string) DatabaseError) :=
  run! cached := peek_cache (fun c => cached_primary_key c table) in
  match mjoin cached with
  | Some key => Ret (Ok key)
  | None =>
      run! gen0 := peek_cache generation in
      let '(sql, params) := build_list_primary_key table BACKEND in
      try! rows := send (RunFetch sql params JSON_NONE) in
      let key := omap (fun row => assoc "name" (dr_data row) ≫= value_as_str) rows in
      match gen0 with
      | None => Ret (Ok key)
      | Some gen0 =>
          let keep : Exec (result (list string) DatabaseError) :=
            run! _ := touch (fun c => set_primary_key_if_gen c table key gen0) in Ret (Ok key) in
          match key with
          | _ :: _ => keep
          | [] =>
              run! known := peek_cache (fun c => table_known_present c table) in
              if default false known then keep
              else
                try! exists_ := table_exists table in
                if exists_ : bool
                then run! _ := touch (fun c => mark_table_present_if_gen c table gen0) in keep
                else keep
          end
      end
  end.

Definition is_in (name : string) (l : list string) : bool := existsb (String.eqb name) l.

(** [add_column_checked]. *)
Definition add_column_checked (table column : string) (stmt : Statement) : Exec (result unit DatabaseError) :=
  run! outcome := send (RunSchemaExecute (st_sql stmt) []) in
  run! _ := touch (fun c => invalidate c table) in
  match outcome with
  | Ok _ => Ret (Ok tt)
  | Err e =>
      try! existing := get_columns table in
      if is_in (to_lowercase column) existing then Ret (Ok tt)
      else Ret (Err (schema_step_error ("add column " +:+ column) e))
  end.

(** [first_missing] of [require_columns]. *)
Definition first_missing (columns existing : list string) : option string :=
  List.find (fun c => negb (is_in (to_lowercase c) existing)) columns.

Definition is_nil {A} (l : list A) : bool := match l with [] => true | _ => false end.

(** The columns as the database has them now, where the cache fell short. *)
Definition current_columns (table : string) (known : list string) : Exec (result (list string) DatabaseError) :=
  run! cache := has_cache in
  if cache : bool
  then
    try! current := introspect_columns table in
    let current := tc_names current in
    if bool_decide (current = known) then Ret (Ok current)
    else run! _ := touch (fun c => invalidate c table) in Ret (Ok current)
  else Ret (Ok known).

(** [require_columns]. *)
Definition require_columns (table : string) (columns : list string) : Exec (result unit DatabaseError) :=
  let! _ := sql_names columns in
  if is_nil columns then Ret (Ok tt)
  else
    try! known := get_columns table in
    if negb (is_nil known) && negb (is_some (first_missing columns known)) then Ret (Ok tt)
    else
      try! current := current_columns table known in
      if is_nil current then Ret (Ok tt)
      else match first_missing columns current with
           | Some column => Ret (Err (InvalidArgument ("`" +:+ table +:+ "` has no column `" +:+ column +:+ "`")))
           | None => Ret (Ok tt)
           end.

(** ** Rows *)

Definition params_of (stmt : Statement) : list Value := sea_values_to_json (st_values stmt).

(** [DbExec::get]. *)
Definition exec_get (collection id : string) : Exec (result DbRecord DatabaseError) :=
  let! table := sql_name collection in
  try! json := json_columns table in
  let stmt := build_select_by_id table id BACKEND in
  send (RunFetchOne (st_sql stmt) (params_of stmt) json).

Definition i64_wrap (z : Z) : Z := ((z + 2 ^ 63) mod 2 ^ 64 - 2 ^ 63)%Z.

(** The page of [DbExec::list]'s answer. *)
Definition list_answer (opts : ListOptions) (total_count : option Z) (records : list DbRecord) : RecordList :=
  let page := match lo_limit opts with
              | Some limit => i64_wrap (Z.quot (lo_offset opts) (Z.of_N limit) + 1)
              | None => 1%Z
              end in
  let total_count := default (Z.of_nat (length records)) total_count in
  mkRecordList records total_count page (match lo_limit opts with Some limit => Z.of_N limit | None => total_count end).

(** The statements of [DbExec::list]. *)
Definition list_statements (table : string) (opts : ListOptions) (primary_key : list string) :
    result (option Statement * Statement) SqlBuildError.t :=
  let extra_cond := lo_filter_tree opts ≫= fun tree => build_condition_tree tree BACKEND in
  let count_stmt := if lo_skip_count opts then None
                    else Some (build_count_with_condition table (lo_filters opts) extra_cond BACKEND) in
  let? select_stmt := match lo_columns opts with
                      | Some cols => build_select_columns table cols opts extra_cond primary_key BACKEND
                      | None => build_select_with_condition table opts extra_cond primary_key BACKEND
                      end in
  Ok (count_stmt, select_stmt).

(** [DbExec::list]. *)
Definition exec_list (collection : string) (opts : ListOptions) : Exec (result RecordList DatabaseError) :=
  let! table := sql_name collection in
  let! _ := from_sql (check_pagination (lo_limit opts) (lo_offset opts)) in
  try! _ := require_columns table (query_columns (lo_filters opts) (lo_sort opts) (lo_filter_tree opts) (lo_columns opts)) in
  try! primary_key := if orders_rows opts then get_primary_key table else Ret (Ok []) in
  try! json := json_columns table in
  let! stmts := from_sql (list_statements table opts primary_key) in
  let '(count_stmt, select_stmt) := stmts in
  match count_stmt with
  | Some count_stmt =>
      try! results := send (RunBatch [BatchOp.ScalarI64 (st_sql count_stmt) (params_of count_stmt);
                                      BatchOp.Rows (st_sql select_stmt) (params_of select_stmt) json]) in
      Ret (let? count := match head results with
                         | Some (BatchResult.ScalarI64 n) => Ok n
                         | other => Err (batch_shape_error "list count" other)
                         end in
           let? records := match head (tail results) with
                           | Some (BatchResult.Rows r) => Ok r
                           | other => Err (batch_shape_error "list select" other)
                           end in
           Ok (list_answer opts (Some count) records))
  | None =>
      try! records := send (RunFetch (st_sql select_stmt) (params_of select_stmt) json) in
      Ret (Ok (list_answer opts None records))
  end.

(** [DbExec::count]. *)
Definition exec_count (collection : string) (filters : list Filter) : Exec (result Z DatabaseError) :=
  let! table := sql_name collection in
  try! _ := require_columns table (filter_columns filters) in
  let stmt := build_count table filters BACKEND in
  send (RunScalarI64 (st_sql stmt) (params_of stmt)).

(** [DbExec::sum]. *)
Definition exec_sum (collection field : string) (filters : list Filter) : Exec (result f64 DatabaseError) :=
  let! table := sql_name collection in
  try! _ := require_columns table (filter_columns filters ++ [field]) in
  let stmt := build_sum table field filters BACKEND in
  send (RunScalarF64 (st_sql stmt) (params_of stmt)).

(** [DbExec::create]. *)
Definition exec_create (collection : string) (data : Data) : Exec (result DbRecord DatabaseError) :=
  let! table := sql_name collection in
  try! policy := created_row_id_policy table data in
  try! data := prepare_created_row table data policy in
  try! json := json_columns table in
  let! pairs := sorted_pairs data json in
  if bool_decide (policy = Some IdPolicy.Database)
  then
    let stmt := build_insert_returning table pairs BACKEND in
    try! rows := send (RunExecuteReturning (st_sql stmt) (params_of stmt) json) in
    match rows with
    | [] => Ret (Err (Internal ("insert into " +:+ table +:+ " returned no row")))
    | stored :: _ =>
        match assoc "id" (dr_data stored) with
        | None => Ret (Err (Internal ("insert into " +:+ table +:+ " returned no id")))
        | Some id => Ret (Ok (mkDbRecord (dr_id stored) (written_columns (entry_insert data "id" id))))
        end
    end
  else
    let stmt := build_insert table pairs BACKEND in
    try! _ := send (RunExecute (st_sql stmt) (params_of stmt)) in
    Ret (Ok (mkDbRecord (default "" (record_id <$> assoc "id" data)) (written_columns data))).

(** [DbExec::update]. *)
Definition exec_update_row (collection id : string) (data : Data) : Exec (result DbRecord DatabaseError) :=
  let! table := sql_name collection in
  run! data := stamp_timestamps data false in
  try! json := json_columns table in
  let! pairs := sorted_pairs data json in
  let update_stmt := build_update_by_id table id pairs BACKEND in
  let select_stmt := build_select_by_id table id BACKEND in
  try! results := send (RunBatch [BatchOp.Execute (st_sql update_stmt) (params_of update_stmt);
                                  BatchOp.Rows (st_sql select_stmt) (params_of select_stmt) json]) in
  Ret (let? affected := match head results with
                        | Some (BatchResult.Execute n) => Ok n
                        | other => Err (batch_shape_error "update statement" other)
                        end in
       if (affected =? 0)%Z then Err NotFound
       else match head (tail results) with
            | Some (BatchResult.Rows (row :: _)) => Ok row
            | Some (BatchResult.Rows []) => Err NotFound
            | other => Err (batch_shape_error "update re-fetch" other)
            end).

(** [DbExec::delete]. *)
Definition exec_delete (collection id : string) : Exec (result unit DatabaseError) :=
  let! table := sql_name collection in
  let stmt := build_delete_by_id table id BACKEND in
  try! affected := send (RunExecute (st_sql stmt) (params_of stmt)) in
  Ret (if (affected =? 0)%Z then Err NotFound else Ok tt).

(** [DbExec::delete_where_count], [delete_where]. *)
Definition exec_delete_where_count (collection : string) (filters : list Filter) : Exec (result Z DatabaseError) :=
  let! table := sql_name collection in
  try! _ := require_columns table (filter_columns filters) in
  let stmt := build_delete_where table filters BACKEND in
  send (RunExecute (st_sql stmt) (params_of stmt)).

Definition exec_delete_where (collection : string) (filters : list Filter) : Exec (result unit DatabaseError) :=
  try! _ := exec_delete_where_count collection filters in Ret (Ok tt).

(** [DbExec::take_where]. *)
Definition exec_take_where (collection : string) (filters : list Filter) : Exec (result (list DbRecord) DatabaseError) :=
  let! table := sql_name collection in
  try! _ := require_columns table (filter_columns filters) in
  try! json := json_columns table in
  let stmt := build_delete_where_returning table filters BACKEND in
  send (RunExecuteReturning (st_sql stmt) (params_of stmt) json).

(** [DbExec::update_where_count]; [update_where] has the same statements and
    drops the count. *)
Definition exec_update_where_count (collection : string) (filters : list Filter) (data : Data) : Exec (result Z DatabaseError) :=
  let! table := sql_name collection in
  try! _ := require_columns table (filter_columns filters) in
  run! data := stamp_timestamps data false in
  try! json := json_columns table in
  let! pairs := sorted_pairs data json in
  let stmt := build_update_where table pairs filters BACKEND in
  send (RunExecute (st_sql stmt) (params_of stmt)).

Definition exec_update_where (collection : string) (filters : list Filter) (data : Data) : Exec (result unit DatabaseError) :=
  try! _ := exec_update_where_count collection filters data in Ret (Ok tt).

(** [DbExec::increment_field_where]. *)
Definition exec_increment_field_where (collection col : string) (delta : Z) (filters : list Filter) :
    Exec (result Z DatabaseError) :=
  let! table := sql_name collection in
  try! _ := require_columns table (filter_columns filters ++ [col]) in
  let stmt := build_increment_field_where table col delta filters BACKEND in
  send (RunExecute (st_sql stmt) (params_of stmt)).

(** [DbExec::upsert_statement]. *)
Definition upsert_statement (collection : string) (spec : UpsertSpec) (json : list string) (returning : bool) :
    Exec (result Statement DatabaseError) :=
  let! table := sql_name collection in
  let data := map (fun '(column, v) => (column, if json_contains json column then encode_json_value v else v)) (us_data spec) in
  match us_on_conflict spec with
  | UpsertConflict.SetColumns update_cols =>
      let! _ := sql_names (map fst data ++ us_conflict_columns spec ++ update_cols) in
      Ret (Ok ((if returning then build_upsert_returning else build_upsert)
                 table data (us_conflict_columns spec) update_cols BACKEND))
  | UpsertConflict.WindowedCounter count_field window_field now window_cutoff created_fields updated_fields =>
      let! row := windowed_counter_row data (us_conflict_columns spec) in
      TimestampNow (fun stamped_at =>
        Ret (from_sql ((if returning then build_windowed_counter_upsert_returning else build_windowed_counter_upsert)
                         table (wc_conflict_column row) (wc_id row) (wc_conflict_value row) count_field window_field
                         created_fields updated_fields stamped_at now window_cutoff BACKEND)))
  end.

(** [DbExec::upsert]. *)
Definition exec_upsert (collection : string) (spec : UpsertSpec) : Exec (result (option DbRecord) DatabaseError) :=
  let! table := sql_name collection in
  try! json := json_columns table in
  try! stmt := upsert_statement collection spec json true in
  try! rows := send (RunExecuteReturning (st_sql stmt) (params_of stmt) json) in
  Ret (if (1 <? length rows)%nat
       then Err (Internal ("upsert into " +:+ collection +:+ " returned " +:+ pretty (length rows) +:+ " rows"))
       else Ok (head rows)).

(** [DbExec::aggregate]. *)
Definition exec_aggregate (collection : string) (spec : AggregateSpec) : Exec (result (list DbRecord) DatabaseError) :=
  let! table := sql_name collection in
  let! _ := sql_names (aliases spec) in
  let columns := read_columns spec ++ List.filter (fun f => negb (is_in f (aliases spec))) (map sf_field (as_sort spec)) in
  try! _ := require_columns table columns in
  let! stmt := from_sql (build_grouped_query (into_grouped_config spec table BACKEND) BACKEND) in
  send (RunFetch (st_sql stmt) (params_of stmt) JSON_NONE).

(** ** Raw statements and the schema *)

(** [DbExec::query_raw], [exec_raw]. *)
Definition exec_query_raw (query : string) (args : list Value) : Exec (result (list DbRecord) DatabaseError) :=
  send (RunFetch query args JSON_NONE).

Definition exec_raw (query : string) (args : list Value) : Exec (result Z DatabaseError) :=
  try! affected := send (RunSchemaExecute query args) in
  run! _ := touch clear in Ret (Ok affected).

Definition affected_of (result : TxResult.t) : Prelude.result Z TransactionError :=
  match result with
  | TxResult.Execute affected => Ok affected
  | TxResult.Returning _ =>
      Err (whole (Internal ("run_transaction returned " +:+ debug_tx_result result +:+ " for an Execute statement")))
  end.

Definition result_count_error (got wanted : nat) : DatabaseError :=
  Internal ("run_transaction returned " +:+ pretty got +:+ " results for " +:+ pretty wanted +:+ " statements").

(** [DbExec::exec_raw_transaction]. *)
Definition exec_raw_transaction (statements : list RawStatement) : Exec (result (list Z) TransactionError) :=
  if is_nil statements then Ret (Ok [])
  else
    run! outcome := send (RunSchemaTransaction (map (fun s => TxOp.Execute (rs_query s) (rs_args s)) statements)) in
    run! _ := touch clear in
    let! results := outcome in
    Ret (if negb (length results =? length statements)%nat
         then Err (whole (result_count_error (length results) (length statements)))
         else try_map affected_of results).

(** [DbExec::schema_columns], [schema_table_exists]. *)
Definition exec_schema_columns (table : string) : Exec (result (list string) DatabaseError) :=
  let! table := sql_name table in get_columns table.

Definition exec_schema_table_exists (name : string) : Exec (result bool DatabaseError) :=
  let! name := sql_name name in table_exists name.

(** [DbExec::catalog_tables]. *)
Definition exec_catalog_tables : Exec (result (list string) DatabaseError) :=
  try! rows := send (RunFetch (build_list_tables BACKEND) [] JSON_NONE) in
  Ret (try_map (fun row => match assoc "name" (dr_data row) with
                           | Some (VString name) => Ok name
                           | other => Err (Internal ("the table listing returned a row without a name: " +:+ debug_value other))
                           end) rows).

(** [DbExec::catalog_columns]. *)
Definition exec_catalog_columns (table : string) : Exec (result (list CatalogColumn) DatabaseError) :=
  let! query := from_sql (build_table_info table BACKEND) in
  try! rows := send (RunFetch query.1 query.2 JSON_NONE) in
  if is_nil rows
  then
    let! query := from_sql (build_catalog_table_exists table BACKEND) in
    try! probe := send (RunFetch query.1 query.2 JSON_NONE) in
    let! present := table_presence probe in
    Ret (if present : bool then Ok [] else Err NotFound)
  else Ret (try_map catalog_column rows).

(** [DbExec::catalog_row_count]. *)
Definition exec_catalog_row_count (table : string) : Exec (result Z DatabaseError) :=
  let! sql := from_sql (build_catalog_table_row_count table BACKEND) in
  send (RunScalarI64 sql []).

(** A schema step, its failure named. *)
Definition schema_step (what sql : string) : Exec (result unit DatabaseError) :=
  run! outcome := send (RunSchemaExecute sql []) in
  Ret (match outcome with Ok _ => Ok tt | Err e => Err (schema_step_error what e) end).

Fixpoint for_each {A} (f : A -> Exec (result unit DatabaseError)) (l : list A) : Exec (result unit DatabaseError) :=
  match l with
  | [] => Ret (Ok tt)
  | a :: l => try! _ := f a in for_each f l
  end.

(** [run_schema_table_ddl]. *)
Definition run_schema_table_ddl (table : Table) : Exec (result unit DatabaseError) :=
  let name := ta_name table in
  let! _ := sql_names (name :: map co_name (ta_columns table)) in
  let! _ := require_stamped_columns table in
  let! create := from_sql (build_create_table table BACKEND) in
  try! _ := schema_step ("create table " +:+ name) (st_sql create) in
  run! _ := touch (fun c => invalidate c name) in
  try! existing := get_columns name in
  try! _ := for_each (fun column =>
      if is_in (to_lowercase (co_name column)) existing then Ret (Ok tt)
      else let! stmt := from_sql (build_add_column name column BACKEND) in
           add_column_checked name (co_name column) stmt) (ta_columns table) in
  try! _ := for_each (fun index =>
      let! stmt := from_sql (build_create_index name index BACKEND) in
      schema_step "create index" (st_sql stmt)) (ta_indexes table) in
  let! fk_indexes := from_sql (build_fk_indexes table BACKEND) in
  for_each (fun stmt => schema_step "create FK index" (st_sql stmt)) fk_indexes.

(** [DbExec::ensure_schema_table]. *)
Definition exec_ensure_schema_table (table : Table) : Exec (result unit DatabaseError) :=
  run! outcome := run_schema_table_ddl table in
  run! _ := touch (fun c => invalidate c (ta_name table)) in
  Ret outcome.

(** ** Transactions *)

Definition and_params (stmt : Statement) : string * list Value := (st_sql stmt, params_of stmt).

(** The classified error of a failed transaction. *)
Definition run_transaction (ops : list TxOp.t) : Exec (result (list TxResult.t) DatabaseError) :=
  run! outcome := send (RunTransaction ops) in
  Ret (match outcome with Ok results => Ok results | Err failed => Err (te_error failed) end).

(** The rows of [create_many], prepared one after another. *)
Fixpoint prepare_created_rows (table : string) (rows : list Data) (policy : option IdPolicy.t) :
    Exec (result (list Data) DatabaseError) :=
  match rows with
  | [] => Ret (Ok [])
  | data :: rows =>
      try! data := prepare_created_row table data (if contains_key "id" data then None else policy) in
      try! rows := prepare_created_rows table rows policy in
      Ret (Ok (data :: rows))
  end.

Fixpoint inserted_count (results : list TxResult.t) (inserted : Z) : result Z DatabaseError :=
  match results with
  | [] => Ok inserted
  | TxResult.Execute n :: results => inserted_count results (i64_wrap (inserted + n))
  | (TxResult.Returning _ as other) :: _ =>
      Err (Internal ("run_transaction returned " +:+ debug_tx_result other +:+ " for a create_many insert"))
  end.

(** [DbExec::create_many]. *)
Definition exec_create_many (collection : string) (rows : list Data) : Exec (result Z DatabaseError) :=
  if is_nil rows then Ret (Ok 0%Z)
  else
    let! table := sql_name collection in
    try! policy := if existsb (fun row => negb (contains_key "id" row)) rows
                   then try! policy := id_policy table in Ret (Ok (Some policy))
                   else Ret (Ok None) in
    try! rows := prepare_created_rows table rows policy in
    try! json := json_columns table in
    let! statements := try_map (fun data => let? pairs := sorted_pairs data json in
                                            Ok (and_params (build_insert table pairs BACKEND))) rows in
    try! results := run_transaction (map (fun s => TxOp.Execute s.1 s.2) statements) in
    Ret (inserted_count results 0%Z).

(** How the statement planned for an op decodes back into its outcome. *)
Inductive Planned := PlCreated (json : list string) | PlUpdated (json : list string) | PlDeleted | PlUpdatedWhere | PlDeletedWhere | PlUpserted.

(** The plan of one op of [batch]. *)
Definition plan_op (op : WriteOp.t) : Exec (result (Planned * Statement) DatabaseError) :=
  match op with
  | WriteOp.Create collection data =>
      let! table := sql_name collection in
      try! policy := created_row_id_policy table data in
      try! data := prepare_created_row table data policy in
      try! json := json_columns table in
      let! pairs := sorted_pairs data json in
      Ret (Ok (PlCreated json, build_insert_returning table pairs BACKEND))
  | WriteOp.Update collection id data =>
      let! table := sql_name collection in
      run! data := stamp_timestamps data false in
      try! json := json_columns table in
      let! pairs := sorted_pairs data json in
      Ret (Ok (PlUpdated json, build_update_by_id_returning table id pairs BACKEND))
  | WriteOp.Delete collection id =>
      let! table := sql_name collection in
      Ret (Ok (PlDeleted, build_delete_by_id table id BACKEND))
  | WriteOp.UpdateWhere collection filters data =>
      let! table := sql_name collection in
      try! _ := require_columns table (filter_columns filters) in
      run! data := stamp_timestamps data false in
      try! json := json_columns table in
      let! pairs := sorted_pairs data json in
      Ret (Ok (PlUpdatedWhere, build_update_where table pairs filters BACKEND))
  | WriteOp.DeleteWhere collection filters =>
      let! table := sql_name collection in
      try! _ := require_columns table (filter_columns filters) in
      Ret (Ok (PlDeletedWhere, build_delete_where table filters BACKEND))
  | WriteOp.Upsert collection spec =>
      let! table := sql_name collection in
      try! json := json_columns table in
      try! stmt := upsert_statement collection spec json false in
      Ret (Ok (PlUpserted, stmt))
  end.

Fixpoint plan_ops (ops : list WriteOp.t) : Exec (result (list (Planned * Statement)) DatabaseError) :=
  match ops with
  | [] => Ret (Ok [])
  | op :: ops => try! planned := plan_op op in try! rest := plan_ops ops in Ret (Ok (planned :: rest))
  end.

Definition planned_tx_op (planned : Planned * Statement) : TxOp.t :=
  let '(sql, params) := and_params planned.2 in
  match planned.1 with
  | PlCreated json | PlUpdated json => TxOp.Returning sql params json
  | _ => TxOp.Execute sql params
  end.

(** The outcome of an op, of its statement's result. *)
Definition planned_outcome (kind : Planned) (result : TxResult.t) : Prelude.result WriteOutcome.t DatabaseError :=
  match kind, result with
  | PlCreated _, TxResult.Returning (row :: _) => Ok (WriteOutcome.Created row)
  | PlCreated _, TxResult.Returning [] => Err (Internal "INSERT … RETURNING returned no row")
  | PlUpdated _, TxResult.Returning rows => Ok (WriteOutcome.Updated (head rows))
  | PlDeleted, TxResult.Execute n => Ok (WriteOutcome.Deleted n)
  | PlUpdatedWhere, TxResult.Execute n => Ok (WriteOutcome.UpdatedWhere n)
  | PlDeletedWhere, TxResult.Execute n => Ok (WriteOutcome.DeletedWhere n)
  | PlUpserted, TxResult.Execute n => Ok (WriteOutcome.Upserted n)
  | _, other => Err (Internal ("run_transaction returned " +:+ debug_tx_result other +:+ " for a statement of the other kind"))
  end.

Fixpoint planned_outcomes (kinds : list Planned) (results : list TxResult.t) : result (list WriteOutcome.t) DatabaseError :=
  match kinds with
  | [] => Ok []
  | kind :: kinds =>
      match results with
      | [] => Err (Internal "run_transaction returned too few results")
      | r :: results =>
          let? outcome := planned_outcome kind r in
          let? outcomes := planned_outcomes kinds results in
          Ok (outcome :: outcomes)
      end
  end.

(** [DbExec::batch]. *)
Definition exec_batch (ops : list WriteOp.t) : Exec (result (list WriteOutcome.t) DatabaseError) :=
  try! planned := plan_ops ops in
  if is_nil planned then Ret (Ok [])
  else
    try! results := run_transaction (map planned_tx_op planned) in
    Ret (if negb (length results =? length planned)%nat
         then Err (result_count_error (length results) (length planned))
         else planned_outcomes (map fst planned) results).

(** The statements of [run_guarded]: the preamble, the probe, the write and
    the probe again. *)
Definition guarded_ops (table : string) (probe : option (string * list Value)) (write : Statement)
    (returning : option (list string)) : list TxOp.t :=
  let probe_ops := match probe with Some p => [TxOp.Returning p.1 p.2 JSON_NONE] | None => [] end in
  map (fun stmt => TxOp.Execute (st_sql stmt) (params_of stmt)) (build_guard_preamble table BACKEND)
  ++ probe_ops
  ++ [match returning with
      | Some json => TxOp.Returning (st_sql write) (params_of write) json
      | None => TxOp.Execute (st_sql write) (params_of write)
      end]
  ++ probe_ops.

(** What [run_guarded] makes of the results past the preamble. *)
Definition guarded_result (results : list TxResult.t) (guards : nat) :
    Prelude.result (TxResult.t * option nat) DatabaseError :=
  if (guards =? 0)%nat
  then match results with
       | write_result :: _ => Ok (write_result, None)
       | [] => Err (Internal "run_transaction returned no write result")
       end
  else match results with
       | before :: write_result :: after :: _ =>
           let? refused := first_refusing_guard before guards in
           let? refused := match refused with Some index => Ok (Some index) | None => first_refusing_guard after guards end in
           Ok (write_result, refused)
       | _ => Err (Internal "run_transaction returned too few results for a guarded write")
       end.

(** [DbExec::run_guarded]. *)
Definition run_guarded (table : string) (guards : list CapGuard.t) (write : Statement) (returning : option (list string)) :
    Exec (result (TxResult.t * option nat) DatabaseError) :=
  let! probe := match guards with
                | [] => Ok None
                | _ => let? probe := sql_internal (build_guard_probe table guards BACKEND) in Ok (Some (and_params probe))
                end in
  let ops := guarded_ops table probe write returning in
  try! results := run_transaction ops in
  Ret (if negb (length results =? length ops)%nat
       then Err (result_count_error (length results) (length ops))
       else guarded_result (skipn (length (build_guard_preamble table BACKEND)) results) (length guards)).

(** What [insert_guarded] answers. *)
Definition insert_outcome (table : string) (outcome : TxResult.t * option nat) : result GuardedInsert.t DatabaseError :=
  match outcome with
  | (TxResult.Returning (row :: _), _) => Ok (GuardedInsert.Inserted row)
  | (TxResult.Returning [], Some guard) => Ok (GuardedInsert.Refused guard)
  | (TxResult.Returning [], None) =>
      Err (Internal ("guarded insert into " +:+ table +:+ " wrote nothing, yet every guard held both before "
                     +:+ "and after it: unguarded writes changed the table and changed it back"))
  | (other, _) => Err (Internal ("run_transaction returned " +:+ debug_tx_result other +:+ " for a guarded insert"))
  end.

(** [DbExec::insert_guarded]. *)
Definition exec_insert_guarded (collection : string) (data : Data) (guards : list CapGuard.t) :
    Exec (result GuardedInsert.t DatabaseError) :=
  let! table := sql_name collection in
  try! _ := require_columns table (guard_columns guards) in
  try! policy := created_row_id_policy table data in
  try! data := prepare_created_row table data policy in
  try! json := json_columns table in
  let! pairs := sorted_pairs data json in
  let! stmt := sql_internal (build_insert_guarded table pairs guards BACKEND) in
  try! outcome := run_guarded table guards stmt (Some json) in
  Ret (insert_outcome table outcome).

(** What [update_guarded] answers. *)
Definition update_outcome (outcome : TxResult.t * option nat) : result GuardedUpdate.t DatabaseError :=
  match outcome with
  | (TxResult.Execute rows_affected, refused) =>
      if (0 <? rows_affected)%Z then Ok (GuardedUpdate.Updated rows_affected)
      else match refused with
           | Some guard => Ok (GuardedUpdate.Refused guard)
           | None => Ok GuardedUpdate.NoMatch
           end
  | (other, _) => Err (Internal ("run_transaction returned " +:+ debug_tx_result other +:+ " for a guarded update"))
  end.

(** [DbExec::update_guarded]. *)
Definition exec_update_guarded (collection : string) (filters : list Filter) (data : Data) (guards : list CapGuard.t) :
    Exec (result GuardedUpdate.t DatabaseError) :=
  let! table := sql_name collection in
  try! _ := require_columns table (filter_columns filters ++ guard_columns guards) in
  run! data := stamp_timestamps data false in
  try! json := json_columns table in
  let! pairs := sorted_pairs data json in
  let! stmt := sql_internal (build_update_guarded table pairs filters guards BACKEND) in
  try! outcome := run_guarded table guards stmt None in
  Ret (update_outcome outcome).

(** ** The service

    [schema_drop_table] and [schema_add_column] are each backend's own:
    [wafer-block-sqlite/src/service.rs] invalidates once the statement
    succeeded, [wafer-block-postgres/src/service.rs] on both outcomes. *)
Definition schema_statement (stmt : result Statement SqlBuildError.t) (table : string) : Exec (result unit DatabaseError) :=
  match BACKEND with
  | Backend.Sqlite =>
      let! stmt := from_sql stmt in
      try! _ := send (RunExecute (st_sql stmt) []) in
      run! _ := touch (fun c => invalidate c table) in Ret (Ok tt)
  | Backend.Postgres =>
      run! result := (let! stmt := from_sql stmt in
                      try! _ := send (RunSchemaExecute (st_sql stmt) []) in Ret (Ok tt)) in
      run! _ := touch (fun c => invalidate c table) in Ret result
  end.

Definition exec_schema_drop_table (name : string) : Exec (result unit DatabaseError) :=
  schema_statement (build_drop_table name BACKEND) name.
Definition exec_schema_add_column (table : string) (column : Column) : Exec (result unit DatabaseError) :=
  schema_statement (build_add_column table column BACKEND) table.

(** The service of a backend: each call's program. (SQLite overrides
    [ensure_schema_table] to run the same steps inside one job of its write
    worker; here it is the trait's own.) *)
Definition serve (c : ServiceCall) : Exec (ServiceAnswer c) :=
  match c return Exec (ServiceAnswer c) with
  | CallGet collection id => exec_get collection id
  | CallList collection opts => exec_list collection opts
  | CallCreate collection data => exec_create collection data
  | CallCreateMany collection rows => exec_create_many collection rows
  | CallBatch ops => exec_batch ops
  | CallInsertGuarded collection data guards => exec_insert_guarded collection data guards
  | CallUpdateGuarded collection filters data guards => exec_update_guarded collection filters data guards
  | CallUpdate collection id data => exec_update_row collection id data
  | CallDelete collection id => exec_delete collection id
  | CallCount collection filters => exec_count collection filters
  | CallSum collection field filters => exec_sum collection field filters
  | CallQueryRaw query args => exec_query_raw query args
  | CallExecRaw query args => exec_raw query args
  | CallExecRawTransaction statements => exec_raw_transaction statements
  | CallDeleteWhere collection filters => exec_delete_where collection filters
  | CallDeleteWhereCount collection filters => exec_delete_where_count collection filters
  | CallTakeWhere collection filters => exec_take_where collection filters
  | CallUpdateWhere collection filters data => exec_update_where collection filters data
  | CallUpdateWhereCount collection filters data => exec_update_where_count collection filters data
  | CallIncrementFieldWhere collection col delta filters => exec_increment_field_where collection col delta filters
  | CallUpsert collection spec => exec_upsert collection spec
  | CallAggregate collection spec => exec_aggregate collection spec
  | CallEnsureSchemaTable table => exec_ensure_schema_table table
  | CallSchemaTableExists table => exec_schema_table_exists table
  | CallSchemaColumns table => exec_schema_columns table
  | CallSchemaDropTable table => exec_schema_drop_table table
  | CallSchemaAddColumn table column => exec_schema_add_column table column
  | CallCatalogTables => exec_catalog_tables
  | CallCatalogColumns table => exec_catalog_columns table
  | CallCatalogRowCount table => exec_catalog_row_count table
  end.
End Executor.
