(* ===== verification/DbExecLogic.v ===== *)
(** Reasoning about executor programs: the events a program can emit,
    whatever its backend answers, whatever else changes the cache between two
    of its locks and wherever its future is dropped ([emits]); protocols of
    events, and the rules that show a program follows one ([follows]). Then
    two protocols of the executor: its write is the last thing it sends, and
    its changes of the cache are those [SchemaCache] allows a caller. *)

From S2P Require Import Prelude CoreTypes BlockName Text InitAttempts DatabaseTypes SqlQuery DatabaseConvert SchemaCache.
From S2P Require Import SqlStatements SqlText DbExec.

(** ** Events *)

Inductive Event :=
| Sent (q : Prim) (r : PrimAnswer q)
| Peeked (c : SchemaCache)
| Touched (f : SchemaCache -> SchemaCache).

(** A run that ends answers; one whose future is dropped does not. A backend
    that is not [cached] has no cache to show or to touch. *)
Inductive emits (cached : bool) {A} : Exec A -> list Event -> option A -> Prop :=
| emits_ret a : emits cached (Ret a) [] (Some a)
| emits_dropped p : emits cached p [] None
| emits_send q r k es o : emits cached (k r) es o -> emits cached (Send q k) (Sent q r :: es) o
| emits_peek c k es o : cached = true -> emits cached (k (Some c)) es o -> emits cached (PeekCache k) (Peeked c :: es) o
| emits_no_cache k es o : cached = false -> emits cached (k None) es o -> emits cached (PeekCache k) es o
| emits_touch f p es o : cached = true -> emits cached p es o -> emits cached (TouchCache f p) (Touched f :: es) o
| emits_no_touch f p es o : cached = false -> emits cached p es o -> emits cached (TouchCache f p) es o
| emits_now t k es o : emits cached (k t) es o -> emits cached (TimestampNow k) es o
| emits_mint id k es o : emits cached (k id) es o -> emits cached (MintRecordId k) es o.

(** The events of a run against a backend. *)
Fixpoint run_events {S A} (b : BackendOps S) (p : Exec A) (s : S) (c : option SchemaCache) : list Event :=
  match p with
  | Ret _ => []
  | Send q k => let r := bo_prim b q s in Sent q r.2 :: run_events b (k r.2) r.1 c
  | PeekCache k => match c with Some c => [Peeked c] | None => [] end ++ run_events b (k c) s c
  | TouchCache f p => match c with Some _ => [Touched f] | None => [] end ++ run_events b p s (f <$> c)
  | TimestampNow k => let r := bo_now b s in run_events b (k r.2) r.1 c
  | MintRecordId k => let r := bo_mint b s in run_events b (k r.2) r.1 c
  end.

Lemma run_emits {S A} (b : BackendOps S) (p : Exec A) s c : emits (is_some c) p (run_events b p s c) (Some (run_exec b p s c).2).
Proof.
  revert s c. induction p as [a|q k IH|k IH|f p IH|k IH|k IH]; intros s c; simpl.
  - constructor.
  - destruct (bo_prim b q s) as [s' r]. constructor. apply IH.
  - destruct c as [c|]; simpl; [apply emits_peek; [done|]; apply (IH (Some c) s (Some c))|apply emits_no_cache; [done|]; apply (IH None s None)].
  - destruct c as [c|]; simpl; [apply emits_touch; [done|]; apply (IH s (Some (f c)))|apply emits_no_touch; [done|]; apply (IH s None)].
  - destruct (bo_now b s) as [s' t]. apply (emits_now _ t). apply IH.
  - destruct (bo_mint b s) as [s' id]. apply (emits_mint _ id). apply IH.
Qed.

(** The primitives among the events. *)
Definition prims (es : list Event) : list Prim := omap (fun e => match e with Sent q _ => Some q | _ => None end) es.

(** ** Protocols *)

(** What a program may do, given what it did: [G] is what the events so far
    have come to. *)
Record Protocol (G : Type) := mkProtocol {
  may_send : G -> Prim -> Prop;
  after_send : G -> forall q, PrimAnswer q -> G;
  after_peek : G -> SchemaCache -> G;
  may_touch : G -> (SchemaCache -> SchemaCache) -> Prop;
  after_touch : G -> (SchemaCache -> SchemaCache) -> G
}.
Arguments may_send {G}.
Arguments after_send {G}.
Arguments after_peek {G}.
Arguments may_touch {G}.
Arguments after_touch {G}.

Fixpoint conforms {G} (P : Protocol G) (g : G) (es : list Event) : Prop :=
  match es with
  | [] => True
  | Sent q r :: es => may_send P g q /\ conforms P (after_send P g q r) es
  | Peeked c :: es => conforms P (after_peek P g c) es
  | Touched f :: es => may_touch P g f /\ conforms P (after_touch P g f) es
  end.

Fixpoint after {G} (P : Protocol G) (g : G) (es : list Event) : G :=
  match es with
  | [] => g
  | Sent q r :: es => after P (after_send P g q r) es
  | Peeked c :: es => after P (after_peek P g c) es
  | Touched f :: es => after P (after_touch P g f) es
  end.

Section Follows.
  Context {G : Type} (P : Protocol G) (cached : bool).

(** From [g] on, the program keeps to the protocol and ends in [Q]. *)
Fixpoint follows {A} (g : G) (p : Exec A) (Q : G -> A -> Prop) : Prop :=
  match p with
  | Ret a => Q g a
  | Send q k => may_send P g q /\ forall r, follows (after_send P g q r) (k r) Q
  | PeekCache k => if cached then forall c, follows (after_peek P g c) (k (Some c)) Q else follows g (k None) Q
  | TouchCache f p => if cached then may_touch P g f /\ follows (after_touch P g f) p Q else follows g p Q
  | TimestampNow k | MintRecordId k => forall s, follows g (k s) Q
  end.

Lemma follows_mono {A} g (p : Exec A) (Q Q' : G -> A -> Prop) :
  follows g p Q -> (forall g a, Q g a -> Q' g a) -> follows g p Q'.
Proof. intros Hp HQ. revert g Hp. induction p; simpl; intros g Hp; try destruct cached; intuition eauto. Qed.

Lemma follows_bind {A B} g (p : Exec A) (k : A -> Exec B) Q :
  follows g p (fun g a => follows g (k a) Q) -> follows g (exec_bind p k) Q.
Proof. revert g. induction p; simpl; intros g Hp; try destruct cached; intuition eauto. Qed.

Lemma follows_try {A B E} g (p : Exec (result A E)) (k : A -> Exec (result B E)) Q :
  follows g p (fun g r => match r with Ok a => follows g (k a) Q | Err e => Q g (Err e) end) ->
  follows g (exec_try p k) Q.
Proof.
  intros Hp. apply follows_bind. eapply follows_mono; [exact Hp|]. intros g' [a|e]; auto.
Qed.

Lemma follows_emits {A} g (p : Exec A) Q es o :
  follows g p Q -> emits cached p es o -> conforms P g es /\ forall a, o = Some a -> Q (after P g es) a.
Proof.
  intros Hf He. revert g Hf.
  induction He as [a|p|q r k es o He IH|c k es o Hc He IH|k es o Hc He IH|f p es o Hc He IH|f p es o Hc He IH|t k es o He IH|id k es o He IH];
    simpl; intros g Hf; try rewrite Hc in Hf.
  - split; [done|]. by intros a' [= <-].
  - done.
  - destruct Hf as [Hm Hf]. destruct (IH _ (Hf r)). naive_solver.
  - exact (IH _ (Hf c)).
  - exact (IH _ Hf).
  - destruct Hf as (Hm & Hf). destruct (IH _ Hf). naive_solver.
  - exact (IH _ Hf).
  - exact (IH _ (Hf t)).
  - exact (IH _ (Hf id)).
Qed.
End Follows.

(** One step through a program's [do] structure. *)
Ltac exec_step :=
  match goal with
  | |- follows _ _ _ (exec_try _ _) _ => apply follows_try
  | |- follows _ _ _ (exec_bind _ _) _ => apply follows_bind
  | |- follows _ _ _ (Ret _) _ => cbn [follows]
  | |- follows _ _ _ (TimestampNow _) _ => cbn [follows]; intros ?
  | |- follows _ _ _ (MintRecordId _) _ => cbn [follows]; intros ?
  | |- follows _ _ _ (if ?b then _ else _) _ => let E := fresh "E" in destruct b eqn:E
  | |- follows _ _ _ (match ?x with _ => _ end) _ => let E := fresh "E" in destruct x eqn:E
  | |- follows _ _ _ (let '(_, _) := ?x in _) _ => let E := fresh "E" in destruct x eqn:E
  | |- if ?b then _ else _ => let E := fresh "E" in destruct b eqn:E
  | |- match ?r with Ok _ => _ | Err _ => _ end => let E := fresh "E" in destruct r eqn:E
  end.

(** ** The write comes last *)

Definition writes (q : Prim) : bool :=
  match q with
  | RunExecute _ _ | RunExecuteReturning _ _ _ | RunSchemaExecute _ _ | RunSchemaTransaction _ | RunTransaction _ => true
  | RunBatch ops => existsb (fun op => match op with BatchOp.Execute _ _ => true | _ => false end) ops
  | RunFetch _ _ _ | RunFetchOne _ _ _ | RunScalarI64 _ _ | RunScalarF64 _ _ => false
  end.

(** Nothing is sent after a write. *)
Definition write_last : Protocol bool :=
  mkProtocol bool (fun written _ => written = false) (fun written q _ => written || writes q) (fun written _ => written)
    (fun _ _ => True) (fun written _ => written).

Lemma prims_sent q (r : PrimAnswer q) es : prims (Sent q r :: es) = q :: prims es.
Proof. reflexivity. Qed.

Lemma nothing_after_write es : conforms write_last true es -> prims es = [].
Proof. induction es as [|[q r|c|f] es IH]; cbn; [done|by intros [? _]|by apply IH|intros [_ ?]; by apply IH]. Qed.

Lemma write_last_prims es : conforms write_last false es ->
  exists reading last, prims es = reading ++ last /\ Forall (fun q => writes q = false) reading /\ length last <= 1
  /\ (after write_last false es = false -> last = []).
Proof.
  assert (Hm : forall es, after write_last true es = true).
  { clear. induction es as [|[q r|c|f] es IH]; simpl; auto. }
  induction es as [|[q r|c|f] es IH]; cbn [conforms after]; [intros _; exists [], []; repeat constructor| |exact IH|].
  - intros [_ Hc]. rewrite prims_sent. cbn [write_last after_send orb] in *. destruct (writes q) eqn:Eq.
    + exists [], [q]. rewrite (nothing_after_write es Hc), Hm. repeat constructor; done.
    + destruct (IH Hc) as (rs & last & -> & Hr & Hl & Hn). exists (q :: rs), last. split_and!; [done|by constructor|done|done].
  - intros [_ Hc]. exact (IH Hc).
Qed.

(** A program that only reads, whatever follows it. *)
Definition reads {A} (p : Exec A) : Prop :=
  forall cached (Q : bool -> A -> Prop), (forall a, Q false a) -> follows write_last cached false p Q.

Lemma reads_try {A B E} (p : Exec (result A E)) (k : A -> Exec (result B E)) cached Q :
  reads p -> (forall a, follows write_last cached false (k a) Q) -> (forall e, Q false (Err e)) ->
  follows write_last cached false (exec_try p k) Q.
Proof. intros Hp Hk He. apply follows_try, Hp. intros [a|e]; auto. Qed.

Lemma reads_bind {A B} (p : Exec A) (k : A -> Exec B) cached Q :
  reads p -> (forall a, follows write_last cached false (k a) Q) -> follows write_last cached false (exec_bind p k) Q.
Proof. intros Hp Hk. by apply follows_bind, Hp. Qed.

Create HintDb reading.

(** Steps through a program, known readers in one stride. *)
Ltac reading :=
  repeat first
    [ match goal with
      | |- follows write_last _ false ?p _ =>
          let Hr := fresh in assert (Hr : reads p) by (solve [auto 2 with reading nocore]); apply Hr; clear Hr; intros ?
      end
    | exec_step
    | progress cbn [follows send peek_cache touch has_cache write_last may_send after_send after_peek may_touch after_touch
                    writes orb existsb]
    | split | intro
    | match goal with H : forall a, ?Q false a |- ?Q false _ => apply H end ].

Lemma reads_touch_if_gen gen0 f : reads (touch_if_gen gen0 f).
Proof. intros cached Q HQ. destruct gen0, cached; repeat split; apply HQ. Qed.

#[export] Hint Resolve reads_touch_if_gen : reading.

Section WriteLast.
  Context `{SeaQuery} `{FloatFormat} `{DebugFormat} `{JsonCrate} `{UnicodeLower} `{ExecDebug} (BACKEND : Backend.t).

Lemma reads_table_exists t : reads (table_exists BACKEND t).
Proof. unfold table_exists. intros cached Q HQ. reading. Qed.

Lemma reads_id_policy t : reads (id_policy BACKEND t).
Proof. unfold id_policy. intros cached Q HQ. reading. Qed.
#[local] Hint Resolve reads_table_exists reads_id_policy : reading.

Lemma reads_created_row_id_policy t data : reads (created_row_id_policy BACKEND t data).
Proof. unfold created_row_id_policy. intros cached Q HQ. reading. Qed.

Lemma reads_table_columns t : reads (table_columns BACKEND t).
Proof. unfold table_columns, introspect_columns. intros cached Q HQ. reading. Qed.
#[local] Hint Resolve reads_created_row_id_policy reads_table_columns : reading.

Lemma reads_get_columns t : reads (get_columns BACKEND t).
Proof. unfold get_columns. intros cached Q HQ. reading. Qed.
Lemma reads_json_columns t : reads (json_columns BACKEND t).
Proof. unfold json_columns. intros cached Q HQ. reading. Qed.
Lemma reads_get_primary_key t : reads (get_primary_key BACKEND t).
Proof. unfold get_primary_key. intros cached Q HQ. reading. Qed.
Lemma reads_current_columns t known : reads (current_columns BACKEND t known).
Proof. unfold current_columns, introspect_columns. intros cached Q HQ. reading. Qed.
#[local] Hint Resolve reads_get_columns reads_json_columns reads_get_primary_key reads_current_columns : reading.

Lemma reads_require_columns t columns : reads (require_columns BACKEND t columns).
Proof. unfold require_columns. intros cached Q HQ. reading. Qed.
Lemma reads_stamp_timestamps data created : reads (stamp_timestamps data created).
Proof. unfold stamp_timestamps. intros cached Q HQ. reading. Qed.
#[local] Hint Resolve reads_require_columns reads_stamp_timestamps : reading.

Lemma reads_prepare_created_row t data policy : reads (prepare_created_row t data policy).
Proof. unfold prepare_created_row. intros cached Q HQ. reading. Qed.
Lemma reads_upsert_statement t spec json returning : reads (upsert_statement BACKEND t spec json returning).
Proof. unfold upsert_statement. intros cached Q HQ. reading. Qed.
#[local] Hint Resolve reads_prepare_created_row reads_upsert_statement : reading.

Lemma reads_prepare_created_rows t rows policy : reads (prepare_created_rows t rows policy).
Proof. induction rows as [|data rows IH]; cbn [prepare_created_rows]; intros cached Q HQ; reading. Qed.
Lemma reads_plan_op op : reads (plan_op BACKEND op).
Proof. destruct op; unfold plan_op; intros cached Q HQ; reading. Qed.
#[local] Hint Resolve reads_prepare_created_rows reads_plan_op : reading.

Lemma reads_plan_ops ops : reads (plan_ops BACKEND ops).
Proof. induction ops as [|op ops IH]; cbn [plan_ops]; intros cached Q HQ; reading. Qed.
#[local] Hint Resolve reads_plan_ops : reading.

(** The calls that change rows or the schema by one statement or one
    transaction, and those that only read. *)
Definition call_kind (c : ServiceCall) : option bool :=
  match c with
  | CallGet _ _ | CallList _ _ | CallCount _ _ | CallSum _ _ _ | CallQueryRaw _ _ | CallAggregate _ _
  | CallSchemaTableExists _ | CallSchemaColumns _ | CallCatalogTables | CallCatalogColumns _ | CallCatalogRowCount _ => Some false
  | CallEnsureSchemaTable _ => None
  | _ => Some true
  end.

Lemma serve_write_last cached (c : ServiceCall) : call_kind c <> None ->
  follows write_last cached false (serve BACKEND c) (fun written _ => call_kind c = Some false -> written = false).
Proof.
  destruct c; intros Hc; try done; cbn [serve call_kind];
    unfold exec_get, exec_list, exec_create, exec_create_many, exec_batch, exec_insert_guarded, exec_update_guarded, exec_update_row,
      exec_delete, exec_count, exec_sum, exec_query_raw, exec_raw, exec_raw_transaction, exec_delete_where, exec_delete_where_count,
      exec_take_where, exec_update_where, exec_update_where_count, exec_increment_field_where, exec_upsert, exec_aggregate,
      exec_schema_table_exists, exec_schema_columns, exec_schema_drop_table, exec_schema_add_column, exec_catalog_tables,
      exec_catalog_columns, exec_catalog_row_count, run_guarded, run_transaction, schema_statement.
  all: timeout 60 (reading; try done).
Qed.
End WriteLast.

(** Every run can be carried on to its end. *)
Lemma answer_inhabited (q : Prim) : exists r : PrimAnswer q, True.
Proof. destruct q; by (exists (Err NotFound) || exists (Err (whole NotFound))). Qed.

Lemma emits_ends cached {A} (p : Exec A) : exists es a, emits cached p es (Some a).
Proof.
  induction p as [a|q k IH|k IH|f p (es & a & IH)|k IH|k IH].
  - exists [], a. constructor.
  - destruct (answer_inhabited q) as [r _]. destruct (IH r) as (es & a & He). exists (Sent q r :: es), a. by constructor.
  - destruct cached.
    + destruct (IH (Some schema_cache_new)) as (es & a & He). eexists _, a. by apply emits_peek.
    + destruct (IH None) as (es & a & He). exists es, a. by apply emits_no_cache.
  - destruct cached; [eexists _, a; by apply emits_touch | exists es, a; by apply emits_no_touch].
  - destruct (IH "") as (es & a & He). exists es, a. by apply (emits_now _ "").
  - destruct (IH "") as (es & a & He). exists es, a. by apply (emits_mint _ "").
Qed.

Lemma emits_extends cached {A} (p : Exec A) es o : emits cached p es o -> exists es' a, emits cached p (es ++ es') (Some a).
Proof.
  induction 1 as [a|p|q r k es o He IH|c k es o Hc He IH|k es o Hc He IH|f p es o Hc He IH|f p es o Hc He IH|t k es o He IH|id k es o He IH];
    [exists [], a; constructor | destruct (emits_ends cached p) as (es & a & He); by exists es, a | ..];
    destruct IH as (es' & a & IH); exists es', a; econstructor; eassumption.
Qed.

(** ** What changes the cache *)

(** What an introspection's answer says of a table. *)
Definition answer_tells (BACKEND : Backend.t) `{JsonCrate} `{UnicodeLower} (q : Prim) : PrimAnswer q -> string -> Fact -> Prop :=
  match q return PrimAnswer q -> string -> Fact -> Prop with
  | RunFetch sql params _ => fun r t fact =>
      match r with
      | Ok rows =>
          ((sql, params) = build_table_exists t BACKEND
             /\ exists b, table_presence rows = Ok b /\ fact = FactPresent b)
          \/ ((sql, params) = build_list_columns t BACKEND /\ fact = FactColumns (described_columns rows))
          \/ ((sql, params) = build_list_primary_key t BACKEND
              /\ fact = FactKey (omap (fun row => assoc "name" (dr_data row) ≫= value_as_str) rows))
      | Err _ => False
      end
  | RunScalarI64 sql params => fun r t fact =>
      match r with
      | Ok code => (sql, params) = build_id_policy t BACKEND
                   /\ match IdPolicyProbe.from_code code with
                      | Some (IdPolicyProbe.Table policy) => fact = FactPolicy (Some policy)
                      | Some IdPolicyProbe.NoTable => fact = FactPolicy None
                      | None => False
                      end
      | Err _ => False
      end
  | _ => fun _ _ _ => False
  end.

(** A statement that may have changed the schema. *)
Definition schema_changed (subject : option string) (q : Prim) : PrimAnswer q -> Prop :=
  match q return PrimAnswer q -> Prop with
  | RunSchemaExecute _ _ => fun r => is_ok r = true
  | RunSchemaTransaction _ => fun _ => True
  | RunExecute _ _ => fun r => subject <> None /\ is_ok r = true
  | _ => fun _ => False
  end.

(** The generations the cache has shown; what has been told of which table
    once it showed which generation; whether a schema change awaits its
    invalidation. *)
Record CacheView := mkCacheView {
  cv_gens : N -> Prop; cv_told : string -> Fact -> N -> Prop; cv_dirty : Prop
}.

Definition cache_view_new : CacheView := mkCacheView (fun _ => False) (fun _ _ _ => False) False.

(** A change of the cache that makes it forget the table of the call. *)
Definition forgets (subject : option string) (f : SchemaCache -> SchemaCache) : Prop :=
  (forall c, f c = clear c) \/ exists t, subject = Some t /\ forall c, f c = invalidate c t.

(** The steps [SchemaCache] gives a caller: it forgets a table, forgets all,
    or writes back what was told of a table under a generation the cache
    showed before the question. *)
Definition callers_touch (g : CacheView) (f : SchemaCache -> SchemaCache) : Prop :=
  (exists t, forall c, f c = invalidate c t) \/ (forall c, f c = clear c)
  \/ exists t fact gen, cv_told g t fact gen /\ forall c, f c = write_back c t fact gen.

Definition cache_protocol (BACKEND : Backend.t) `{JsonCrate} `{UnicodeLower} (subject : option string) : Protocol CacheView :=
  mkProtocol CacheView (fun _ _ => True)
    (fun g q r => mkCacheView (cv_gens g)
                    (fun t fact gen => cv_told g t fact gen \/ (answer_tells BACKEND q r t fact /\ cv_gens g gen))
                    (cv_dirty g \/ schema_changed subject q r))
    (fun g c => mkCacheView (fun gen => cv_gens g gen \/ gen = generation c) (cv_told g) (cv_dirty g))
    callers_touch
    (fun g f => mkCacheView (cv_gens g) (cv_told g) (cv_dirty g /\ ~ forgets subject f)).

(** The table whose schema a call changes, when it names it. *)
Definition subject_of (c : ServiceCall) : option string :=
  match c with
  | CallEnsureSchemaTable table => Some (ta_name table)
  | CallSchemaDropTable t | CallSchemaAddColumn t _ => Some t
  | _ => None
  end.

Section CacheSteps.
  Context `{SeaQuery} `{FloatFormat} `{DebugFormat} `{JsonCrate} `{UnicodeLower} `{ExecDebug} (BACKEND : Backend.t) (subject : option string).

#[local] Opaque build_table_exists build_list_columns build_list_primary_key build_id_policy.

(** A program that keeps to the protocol and changes no schema. *)
Definition quiet {A} (p : Exec A) : Prop :=
  forall cached g (Q : CacheView -> A -> Prop), (forall g' a, (cv_dirty g' -> cv_dirty g) -> Q g' a) ->
  follows (cache_protocol BACKEND subject) cached g p Q.

Create HintDb caching.

(** Steps through a program up to its changes of the cache. *)
Ltac caching :=
  repeat first
    [ match goal with
      | |- follows (cache_protocol _ _) _ _ ?p _ =>
          let Hr := fresh in assert (Hr : quiet p) by (solve [auto 2 with caching nocore]); apply Hr; clear Hr; intros ? ? ?
      end
    | exec_step
    | progress cbn [follows send peek_cache touch touch_if_gen has_cache fmap option_fmap option_map]
    | match goal with |- may_send _ _ _ /\ _ => split; [exact I|] | |- forall _, _ => intro end ].

Ltac quiet_end :=
  match goal with
  | HQ : forall g a, _ -> ?Q g a |- ?Q _ _ => apply HQ; cbn; tauto
  end.

Lemma touch_invalidate g t : callers_touch g (fun c => invalidate c t).
Proof. left. by exists t. Qed.
Lemma touch_clear g : callers_touch g clear.
Proof. right. by left. Qed.
Lemma touch_write_back g t fact gen f :
  cv_told g t fact gen -> (forall c, f c = write_back c t fact gen) -> callers_touch g f.
Proof. intros Ht Hf. right. right. by exists t, fact, gen. Qed.

Lemma quiet_touch_invalidate t : quiet (touch (fun c => invalidate c t)).
Proof.
  intros cached g Q HQ. destruct cached; cbn [follows touch]; [split; [apply touch_invalidate|]|]; apply HQ; cbn; tauto.
Qed.

Lemma quiet_table_exists t : quiet (table_exists BACKEND t).
Proof. unfold table_exists. intros cached g Q HQ. caching; quiet_end. Qed.

Lemma quiet_id_policy t : quiet (id_policy BACKEND t).
Proof.
  unfold id_policy. intros cached g Q HQ. destruct cached; caching; try quiet_end.
  split; [|quiet_end].
  eapply (touch_write_back _ t (FactPolicy (Some policy))); [|reflexivity]. cbn. right.
  split; [|tauto]. split; [congruence|]. by subst; rewrite E2.
Qed.

Lemma quiet_introspect_columns t : quiet (introspect_columns BACKEND t).
Proof. unfold introspect_columns. intros cached g Q HQ. caching; quiet_end. Qed.

Lemma quiet_table_columns t : quiet (table_columns BACKEND t).
Proof.
  unfold table_columns, introspect_columns. intros cached g Q HQ. destruct cached; caching; try quiet_end.
  split; [|quiet_end].
  eapply (touch_write_back _ t (FactColumns (described_columns a))); [|reflexivity]. cbn. right.
  split; [right; left; split; [congruence|done]|tauto].
Qed.

Lemma quiet_get_primary_key t : quiet (get_primary_key BACKEND t).
Proof.
  unfold get_primary_key, table_exists. intros cached g Q HQ. destruct cached; caching; try quiet_end.
  all: match goal with E : omap _ _ = ?k |- may_touch _ _ (fun c => set_primary_key_if_gen _ _ _ _) /\ _ =>
         split; [eapply (touch_write_back _ t (FactKey k)); [|reflexivity]; cbn | try quiet_end]
       | |- may_touch _ _ (fun c => mark_table_present_if_gen _ _ _) /\ _ =>
         split; [eapply (touch_write_back _ t (FactPresent true)); [|reflexivity]; cbn | caching]
       end.
  all: try (right; split; [left; split; [congruence|]; eexists; split; [eassumption|congruence] | tauto]).
  all: try (split; [eapply (touch_write_back _ t (FactKey [])); [|reflexivity]; cbn | try quiet_end]).
  all: first [right; split; [right; right; split; congruence | tauto]
             | left; right; split; [right; right; split; congruence | tauto]].
Qed.
#[local] Hint Resolve quiet_touch_invalidate quiet_table_exists quiet_id_policy quiet_introspect_columns quiet_table_columns
  quiet_get_primary_key : caching.

Lemma quiet_created_row_id_policy t data : quiet (created_row_id_policy BACKEND t data).
Proof. unfold created_row_id_policy. intros cached g Q HQ. caching; quiet_end. Qed.
Lemma quiet_get_columns t : quiet (get_columns BACKEND t).
Proof. unfold get_columns. intros cached g Q HQ. caching; quiet_end. Qed.
Lemma quiet_json_columns t : quiet (json_columns BACKEND t).
Proof. unfold json_columns. intros cached g Q HQ. caching; quiet_end. Qed.
Lemma quiet_current_columns t known : quiet (current_columns BACKEND t known).
Proof. unfold current_columns. intros cached g Q HQ. destruct cached; caching; try quiet_end. Qed.
#[local] Hint Resolve quiet_created_row_id_policy quiet_get_columns quiet_json_columns quiet_current_columns : caching.
Lemma quiet_require_columns t columns : quiet (require_columns BACKEND t columns).
Proof. unfold require_columns. intros cached g Q HQ. caching; quiet_end. Qed.
Lemma quiet_stamp_timestamps data created : quiet (stamp_timestamps data created).
Proof. unfold stamp_timestamps. intros cached g Q HQ. caching; quiet_end. Qed.
#[local] Hint Resolve quiet_require_columns quiet_stamp_timestamps : caching.

Lemma quiet_prepare_created_row t data policy : quiet (prepare_created_row t data policy).
Proof. unfold prepare_created_row. intros cached g Q HQ. caching; quiet_end. Qed.
Lemma quiet_upsert_statement t spec json returning : quiet (upsert_statement BACKEND t spec json returning).
Proof. unfold upsert_statement. intros cached g Q HQ. caching; quiet_end. Qed.
#[local] Hint Resolve quiet_prepare_created_row quiet_upsert_statement : caching.

Lemma quiet_prepare_created_rows t rows policy : quiet (prepare_created_rows t rows policy).
Proof. induction rows as [|data rows IH]; cbn [prepare_created_rows]; intros cached g Q HQ; caching; quiet_end. Qed.
Lemma quiet_plan_op op : quiet (plan_op BACKEND op).
Proof. destruct op; unfold plan_op; intros cached g Q HQ; caching; quiet_end. Qed.
#[local] Hint Resolve quiet_prepare_created_rows quiet_plan_op : caching.

Lemma quiet_plan_ops ops : quiet (plan_ops BACKEND ops).
Proof. induction ops as [|op ops IH]; cbn [plan_ops]; intros cached g Q HQ; caching; quiet_end. Qed.
#[local] Hint Resolve quiet_plan_ops : caching.

(** A program that keeps to the protocol, whatever it changes. *)
Definition lawful {A} (p : Exec A) : Prop :=
  forall g (Q : CacheView -> A -> Prop), (forall g' a, Q g' a) -> follows (cache_protocol BACKEND subject) true g p Q.

Lemma quiet_lawful {A} (p : Exec A) : quiet p -> lawful p.
Proof. intros Hq g Q HQ. by apply Hq. Qed.

Lemma lawful_try {A B E} (p : Exec (result A E)) (k : A -> Exec (result B E)) :
  lawful p -> (forall a, lawful (k a)) -> lawful (exec_try p k).
Proof. intros Hp Hk g Q HQ. apply follows_try, Hp. intros g' [a|e]; [by apply Hk|apply HQ]. Qed.

Lemma lawful_bind {A B} (p : Exec A) (k : A -> Exec B) : lawful p -> (forall a, lawful (k a)) -> lawful (exec_bind p k).
Proof. intros Hp Hk g Q HQ. apply follows_bind, Hp. intros g' a. by apply Hk. Qed.

Lemma lawful_ret {A} (a : A) : lawful (Ret a).
Proof. intros g Q HQ. apply HQ. Qed.

Lemma lawful_send q : lawful (send q).
Proof. intros g Q HQ. split; [exact I|]. intros r. apply HQ. Qed.

Lemma lawful_for_each {A} (f : A -> Exec (result unit DatabaseError)) l : (forall a, lawful (f a)) -> lawful (for_each f l).
Proof. intros Hf. induction l as [|a l IH]; cbn [for_each]; [apply lawful_ret|]. by apply lawful_try. Qed.

Lemma lawful_schema_step what sql : lawful (schema_step what sql).
Proof. apply lawful_bind; [apply lawful_send|]. intros r. apply lawful_ret. Qed.

Lemma lawful_add_column_checked t column stmt : lawful (add_column_checked BACKEND t column stmt).
Proof.
  apply lawful_bind; [apply lawful_send|]. intros outcome. apply lawful_bind; [apply quiet_lawful, quiet_touch_invalidate|].
  intros _. destruct outcome; [apply lawful_ret|]. apply lawful_try; [apply quiet_lawful, quiet_get_columns|].
  intros existing. destruct (is_in _ _); apply lawful_ret.
Qed.

Lemma lawful_run_schema_table_ddl table : lawful (run_schema_table_ddl BACKEND table).
Proof.
  unfold run_schema_table_ddl. repeat (apply lawful_try; [apply lawful_ret|intros ?]).
  apply lawful_try; [apply lawful_schema_step|intros _].
  apply lawful_bind; [apply quiet_lawful, quiet_touch_invalidate|intros _].
  apply lawful_try; [apply quiet_lawful, quiet_get_columns|intros existing].
  apply lawful_try; [apply lawful_for_each; intros column; destruct (is_in _ _); [apply lawful_ret|];
                     apply lawful_try; [apply lawful_ret|intros stmt; apply lawful_add_column_checked]|intros _].
  apply lawful_try; [apply lawful_for_each; intros index; apply lawful_try; [apply lawful_ret|];
                     intros stmt; apply lawful_schema_step|intros _].
  apply lawful_try; [apply lawful_ret|intros fks]. apply lawful_for_each. intros stmt. apply lawful_schema_step.
Qed.

(** A change that forgets settles the call. *)
Lemma forgetting_settles {A} (f : SchemaCache -> SchemaCache) g (a : A) :
  (forall g, callers_touch g f) -> forgets subject f ->
  follows (cache_protocol BACKEND subject) true g (run! _ := touch f in Ret a) (fun g _ => ~ cv_dirty g).
Proof. intros Hf Hs. cbn. split; [apply Hf|tauto]. Qed.

Lemma forgets_clear : forgets subject clear.
Proof. by left. Qed.
Lemma forgets_subject t : subject = Some t -> forgets subject (fun c => invalidate c t).
Proof. right. by exists t. Qed.

Lemma caches_ensure_schema_table table : subject = Some (ta_name table) ->
  follows (cache_protocol BACKEND subject) true cache_view_new (exec_ensure_schema_table BACKEND table) (fun g _ => ~ cv_dirty g).
Proof.
  intros Hs. apply follows_bind, lawful_run_schema_table_ddl. intros g outcome.
  apply forgetting_settles; [intros g'; apply touch_invalidate | by apply forgets_subject].
Qed.

Lemma caches_exec_raw sql args :
  follows (cache_protocol BACKEND subject) true cache_view_new (exec_raw sql args) (fun g _ => ~ cv_dirty g).
Proof.
  split; [exact I|]. intros [n|e].
  - apply forgetting_settles; [apply touch_clear|apply forgets_clear].
  - cbn. intuition discriminate.
Qed.

Lemma caches_exec_raw_transaction statements :
  follows (cache_protocol BACKEND subject) true cache_view_new (exec_raw_transaction statements) (fun g _ => ~ cv_dirty g).
Proof.
  unfold exec_raw_transaction. destruct (is_nil statements); [cbn; tauto|]. split; [exact I|]. intros outcome.
  destruct outcome; apply forgetting_settles; (apply touch_clear || apply forgets_clear).
Qed.

Lemma caches_schema_statement stmt t : subject = Some t ->
  follows (cache_protocol BACKEND subject) true cache_view_new (schema_statement BACKEND stmt t) (fun g _ => ~ cv_dirty g).
Proof.
  intros Hs. assert (Hf : forall g (r : result unit DatabaseError),
      follows (cache_protocol BACKEND subject) true g (run! _ := touch (fun c => invalidate c t) in Ret r) (fun g _ => ~ cv_dirty g))
    by (intros; apply forgetting_settles; [intros g'; apply touch_invalidate | by apply forgets_subject]).
  unfold schema_statement. destruct BACKEND.
  - apply follows_try. cbn [follows]. destruct (from_sql stmt) as [st|e]; [|cbn; tauto].
    split; [exact I|]. intros [n|e]; [apply Hf|cbn; intuition discriminate].
  - apply follows_bind, follows_try. cbn [follows]. destruct (from_sql stmt) as [st|e]; [|apply Hf].
    split; [exact I|]. intros [n|e]; apply Hf.
Qed.

Lemma serve_caches c : subject = subject_of c ->
  follows (cache_protocol BACKEND subject) true cache_view_new (serve BACKEND c) (fun g _ => ~ cv_dirty g).
Proof.
  destruct c; cbn [serve subject_of]; intros Hs;
    try first [by apply caches_ensure_schema_table | apply caches_exec_raw | apply caches_exec_raw_transaction
              | by apply caches_schema_statement].
  all: unfold exec_get, exec_list, exec_create, exec_create_many, exec_batch, exec_insert_guarded, exec_update_guarded, exec_update_row,
      exec_delete, exec_count, exec_sum, exec_query_raw, exec_delete_where, exec_delete_where_count,
      exec_take_where, exec_update_where, exec_update_where_count, exec_increment_field_where, exec_upsert, exec_aggregate,
      exec_schema_table_exists, exec_schema_columns, exec_catalog_tables,
      exec_catalog_columns, exec_catalog_row_count, run_guarded, run_transaction.
  all: try (caching; cbn in *; intuition congruence).
Qed.
End CacheSteps.
