(* ===== verification/DbExecProps.v ===== *)
(** What the executor guarantees of every call, whatever its backend answers:
    the write comes last, the cache changes by [SchemaCache]'s steps, and no
    statement names a column its table was not seen to have. *)

From Stdlib Require Import SpecFloat.
From stdpp Require Import pretty sorting.
From S2P Require Import Prelude CoreTypes BlockName Text InitAttempts DatabaseTypes SqlQuery DatabaseConvert SchemaCache.
From S2P Require Import WrapProps SqlStatements SqlText SqlMeaning DbExec DbExecLogic.

#[local] Opaque build_table_exists build_list_columns build_list_primary_key build_id_policy.

(** ** Columns are known before they are named *)

(** A question about the schema. *)
Definition introspective (BACKEND : Backend.t) (q : Prim) : Prop :=
  match q with
  | RunFetch sql params _ => exists t, (sql, params) = build_table_exists t BACKEND \/ (sql, params) = build_list_columns t BACKEND
                                       \/ (sql, params) = build_list_primary_key t BACKEND
  | RunScalarI64 sql params => exists t, (sql, params) = build_id_policy t BACKEND
  | _ => False
  end.

(** The column lists seen so far, by table. *)
Abbreviation Seen := (string -> list string -> Prop).

(** A table was seen to have the columns, or not to exist. *)
Definition settled_columns `{UnicodeLower} (g : Seen) (named : string * list string) : Prop :=
  named.2 = [] \/ exists cols, g named.1 cols /\ (cols = [] \/ Forall (fun c => to_lowercase c ∈ cols) named.2).

(** Only questions are sent until the columns named are settled_columns. *)
Definition columns_protocol (BACKEND : Backend.t) `{JsonCrate} `{UnicodeLower} (named : list (string * list string)) : Protocol Seen :=
  mkProtocol Seen (fun g q => introspective BACKEND q \/ Forall (settled_columns g) named)
    (fun g q r t cols => g t cols \/ exists c, answer_tells BACKEND q r t (FactColumns c) /\ cols = tc_names c)
    (fun g c t cols => g t cols \/ exists tc, cached_columns c t = Some tc /\ cols = tc_names tc)
    (fun _ _ => True) (fun g _ => g).

(** The columns a call names beside those it writes, by table. *)
Definition named_by_op (op : WriteOp.t) : list (string * list string) :=
  match op with
  | WriteOp.UpdateWhere t filters _ | WriteOp.DeleteWhere t filters => [(t, filter_columns filters)]
  | _ => []
  end.

Definition columns_named (c : ServiceCall) : list (string * list string) :=
  match c with
  | CallList t opts => [(t, query_columns (lo_filters opts) (lo_sort opts) (lo_filter_tree opts) (lo_columns opts))]
  | CallCount t filters | CallDeleteWhere t filters | CallDeleteWhereCount t filters | CallTakeWhere t filters
  | CallUpdateWhere t filters _ | CallUpdateWhereCount t filters _ => [(t, filter_columns filters)]
  | CallSum t field filters => [(t, filter_columns filters ++ [field])]
  | CallIncrementFieldWhere t col _ filters => [(t, filter_columns filters ++ [col])]
  | CallInsertGuarded t _ guards => [(t, guard_columns guards)]
  | CallUpdateGuarded t filters _ guards => [(t, filter_columns filters ++ guard_columns guards)]
  | CallAggregate t spec =>
      [(t, read_columns spec ++ List.filter (fun f => negb (is_in f (aliases spec))) (map sf_field (as_sort spec)))]
  | CallBatch ops => flat_map named_by_op ops
  | _ => []
  end.

Lemma sql_name_ok `{DebugFormat} n t : sql_name n = Ok t -> t = n /\ is_plain_ident n = true.
Proof. unfold sql_name, from_sql, validate_ident. destruct (is_plain_ident n); [by intros [= <-]|done]. Qed.

Section Columns.
  Context `{SeaQuery} `{FloatFormat} `{DebugFormat} `{JsonCrate} `{UnicodeLower} `{ExecDebug} (BACKEND : Backend.t)
    (named : list (string * list string)).

Abbreviation P := (columns_protocol BACKEND named).

Definition grows (g g' : Seen) : Prop := forall t cols, g t cols -> g' t cols.

(** A program that only asks. *)
Definition asks {A} (p : Exec A) : Prop :=
  forall cached g (Q : Seen -> A -> Prop), (forall g' a, grows g g' -> Q g' a) -> follows P cached g p Q.

Lemma settled_grows g g' n : grows g g' -> settled_columns g n -> settled_columns g' n.
Proof. unfold settled_columns, grows. naive_solver. Qed.

Lemma all_settled_grows g g' l : grows g g' -> Forall (settled_columns g) l -> Forall (settled_columns g') l.
Proof. intros Hg Hl. eapply Forall_impl; [exact Hl|]. intros n. by apply settled_grows. Qed.

Lemma grows_trans g g' g'' : grows g g' -> grows g' g'' -> grows g g''.
Proof. unfold grows. auto. Qed.

Ltac may_ask := left; cbn; eexists; (left; by symmetry) || (right; left; by symmetry) || (right; right; by symmetry) || by symmetry.

Create HintDb asking.

Ltac asking :=
  repeat first
    [ match goal with
      | |- follows (columns_protocol _ _) _ _ ?p _ =>
          let Hr := fresh in assert (Hr : asks p) by (solve [auto 2 with asking nocore]); apply Hr; clear Hr; intros ? ? ?
      end
    | exec_step
    | progress cbn [follows send peek_cache touch touch_if_gen has_cache fmap option_fmap option_map]
    | match goal with
      | |- may_send _ _ _ /\ _ => split; [may_ask|]
      | |- may_touch _ _ _ /\ _ => split; [exact I|]
      | |- forall _, _ => intro
      end ].

Ltac asked :=
  match goal with HQ : forall g a, _ -> ?Q g a |- ?Q _ _ => apply HQ; unfold grows in *; cbn in *; by eauto 8 end.

Lemma asks_table_exists t : asks (table_exists BACKEND t).
Proof. unfold table_exists. intros cached g Q HQ. asking; asked. Qed.

Lemma asks_id_policy t : asks (id_policy BACKEND t).
Proof. unfold id_policy. intros cached g Q HQ. destruct cached; asking; asked. Qed.

(** What is learnt of a table's columns is seen. *)
Lemma follows_introspect_columns t cached g (Q : Seen -> result TableColumns DatabaseError -> Prop) :
  (forall g' r, grows g g' -> (forall c, r = Ok c -> g' t (tc_names c)) -> Q g' r) ->
  follows P cached g (introspect_columns BACKEND t) Q.
Proof.
  intros HQ. unfold introspect_columns. asking; apply HQ; unfold grows; cbn; naive_solver.
Qed.

Lemma follows_table_columns t cached g (Q : Seen -> result TableColumns DatabaseError -> Prop) :
  (forall g' r, grows g g' -> (forall c, r = Ok c -> g' t (tc_names c)) -> Q g' r) ->
  follows P cached g (table_columns BACKEND t) Q.
Proof.
  intros HQ. unfold table_columns.
  assert (Hin : forall g0, grows g g0 -> forall gen0 : option N,
    follows P cached g0 (try! columns := introspect_columns BACKEND t in
                         run! _ := touch_if_gen gen0 (fun c gen => set_columns_if_gen c t columns gen) in Ret (Ok columns)) Q).
  { intros g0 Hg0 gen0. apply follows_try, follows_introspect_columns. intros g' [c|e] Hg Hc; [|apply HQ; [by eapply grows_trans|done]].
    assert (Q g' (Ok c)) by (apply HQ; [by eapply grows_trans|intros c' [= <-]; by apply Hc]).
    destruct gen0; cbn; [destruct cached|]; cbn; auto. }
  destruct cached; cbn [follows peek_cache exec_bind fmap option_fmap option_map].
  - intros c. destruct (mjoin (Some (cached_columns c t))) as [tc|] eqn:E.
    + cbn. apply HQ; [unfold grows; naive_solver|]. intros c' [= <-]. right. eauto.
    + intros c'. refine (Hin (after_peek P (after_peek P g c) c') _ (Some (generation c'))). unfold grows; cbn; auto.
  - refine (Hin g _ None). unfold grows; auto.
Qed.

Lemma asks_table_columns t : asks (table_columns BACKEND t).
Proof. intros cached g Q HQ. apply follows_table_columns. intros g' r Hg _. by apply HQ. Qed.
#[local] Hint Resolve asks_table_exists asks_id_policy asks_table_columns : asking.

Lemma asks_created_row_id_policy t data : asks (created_row_id_policy BACKEND t data).
Proof. unfold created_row_id_policy. intros cached g Q HQ. asking; asked. Qed.
Lemma asks_json_columns t : asks (json_columns BACKEND t).
Proof. unfold json_columns. intros cached g Q HQ. asking; asked. Qed.
Lemma asks_get_primary_key t : asks (get_primary_key BACKEND t).
Proof. unfold get_primary_key. intros cached g Q HQ. destruct cached; asking; asked. Qed.
#[local] Hint Resolve asks_created_row_id_policy asks_json_columns asks_get_primary_key : asking.

(** What [require_columns] lets through is settled_columns. *)
Lemma follows_require_columns t columns cached g (Q : Seen -> result unit DatabaseError -> Prop) :
  (forall g' r, grows g g' -> (r = Ok tt -> settled_columns g' (t, columns)) -> Q g' r) ->
  follows P cached g (require_columns BACKEND t columns) Q.
Proof.
  intros HQ. unfold require_columns. apply follows_try. cbn [follows].
  destruct (sql_names columns) as [[]|e]; [|apply HQ; unfold grows; [auto|done]].
  destruct (is_nil columns) eqn:En.
  { apply HQ; [unfold grows; auto|]. intros _. left. by destruct columns. }
  assert (Hm : forall g cols, g t cols -> first_missing columns cols = None -> settled_columns g (t, columns)).
  { clear. intros g cols Hg Hm. right. exists cols. split; [done|]. right. rewrite List.Forall_forall. intros c Hc.
    pose proof (List.find_none _ _ Hm c Hc) as Hn. apply negb_false_iff, existsb_exists in Hn as (x & Hx & ->%String.eqb_eq).
    by apply list_elem_of_In. }
  apply follows_try. unfold get_columns. apply follows_try, follows_table_columns.
  intros g1 [tc|e] Hg1 Htc; [|apply HQ; [done|done]]. specialize (Htc tc eq_refl). cbn [follows].
  destruct (negb (is_nil (tc_names tc)) && negb (is_some (first_missing columns (tc_names tc)))) eqn:E.
  { apply HQ; [done|]. intros _. apply andb_true_iff in E as [_ E]. eapply Hm; [exact Htc|].
    by destruct (first_missing columns (tc_names tc)). }
  assert (Hend : forall g2 current, grows g g2 -> g2 t current ->
    follows P cached g2 (if is_nil current then Ret (Ok tt)
                         else match first_missing columns current with
                              | Some column => Ret (Err (InvalidArgument ("`" +:+ t +:+ "` has no column `" +:+ column +:+ "`")))
                              | None => Ret (Ok tt)
                              end) Q).
  { intros g2 current Hg2 Hc. destruct (is_nil current) eqn:E2.
    - apply HQ; [done|]. intros _. right. exists current. split; [done|]. left. by destruct current.
    - destruct (first_missing columns current) eqn:E3; apply HQ; try done. intros _. by eapply Hm. }
  apply follows_try. unfold current_columns. destruct cached; cbn [follows has_cache exec_bind].
  - intros c. apply follows_try, follows_introspect_columns. intros g2 [tc2|e] Hg2 Htc2.
    + specialize (Htc2 tc2 eq_refl). assert (grows g g2) by (unfold grows in *; cbn in *; auto).
      case_bool_decide; [by apply Hend|]. cbn. split; [done|]. by apply Hend.
    + apply HQ; [unfold grows in *; cbn in *; auto|done].
  - by apply Hend.
Qed.
Lemma asks_stamp_timestamps data created : asks (stamp_timestamps data created).
Proof. unfold stamp_timestamps. intros cached g Q HQ. asking; asked. Qed.
#[local] Hint Resolve asks_stamp_timestamps : asking.
Lemma asks_prepare_created_row t data policy : asks (prepare_created_row t data policy).
Proof. unfold prepare_created_row. intros cached g Q HQ. asking; asked. Qed.
Lemma asks_upsert_statement t spec json returning : asks (upsert_statement BACKEND t spec json returning).
Proof. unfold upsert_statement. intros cached g Q HQ. asking; asked. Qed.
#[local] Hint Resolve asks_prepare_created_row asks_upsert_statement : asking.
Lemma asks_prepare_created_rows t rows policy : asks (prepare_created_rows t rows policy).
Proof. induction rows as [|data rows IH]; cbn [prepare_created_rows]; intros cached g Q HQ; asking; asked. Qed.
#[local] Hint Resolve asks_prepare_created_rows : asking.

(** Once everything is settled_columns, nothing is refused. *)
Definition free {A} (p : Exec A) : Prop :=
  forall cached g (Q : Seen -> A -> Prop), Forall (settled_columns g) named -> (forall g' a, Q g' a) -> follows P cached g p Q.

Lemma asks_free {A} (p : Exec A) : asks p -> free p.
Proof. intros Hp cached g Q _ HQ. by apply Hp. Qed.

(** The end of a call: what is asked keeps what was settled_columns, and what is sent
    needs it. *)
Ltac ending :=
  repeat first
    [ match goal with
      | |- follows (columns_protocol _ _) _ _ ?p _ =>
          let Hr := fresh in assert (Hr : asks p) by (solve [auto 2 with asking nocore]); apply Hr; clear Hr;
          let g := fresh "g" in let Hg := fresh "Hg" in intros g ? Hg;
          match goal with Hn : Forall (settled_columns ?g0) ?l |- _ =>
            match type of Hg with grows g0 _ => apply (all_settled_grows g0 g l Hg) in Hn end end
      end
    | exec_step
    | progress cbn [follows send]
    | match goal with
      | |- may_send _ _ _ /\ _ => split; [right; assumption|]
      | |- forall _, _ => intro
      | |- True => exact I
      end ].

(** The head of a filtered operation. *)
Lemma follows_checked {A} collection columns (k : string -> Exec (result A DatabaseError)) cached g (Q : Seen -> result A DatabaseError -> Prop) :
  (forall g' e, grows g g' -> Q g' (Err e)) ->
  (forall g', grows g g' -> settled_columns g' (collection, columns) -> follows P cached g' (k collection) Q) ->
  follows P cached g (let! table := sql_name collection in try! _ := require_columns BACKEND table columns in k table) Q.
Proof.
  intros He Hk. apply follows_try. cbn [follows]. destruct (sql_name collection) as [t|e] eqn:E; [|apply He; by unfold grows].
  apply sql_name_ok in E as [-> _]. apply follows_try, follows_require_columns. intros g' [[]|e] Hg Hs; [|by apply He].
  apply Hk; [done|]. by apply Hs.
Qed.

Lemma follows_plan_op op cached g (Q : Seen -> result (Planned * Statement) DatabaseError -> Prop) :
  (forall g' r, grows g g' -> (is_ok r = true -> Forall (settled_columns g') (named_by_op op)) -> Q g' r) ->
  follows P cached g (plan_op BACKEND op) Q.
Proof.
  intros HQ. destruct op; unfold plan_op; cbn [named_by_op] in HQ.
  1-3,6: asking; apply HQ; unfold grows in *; cbn; eauto.
  - apply follows_checked; [intros g' e Hg; by apply HQ|]. intros g' Hg Hs.
    asking; (apply HQ; [unfold grows in *; by auto|]); try done; intros _; apply Forall_singleton.
    eapply settled_grows; [|exact Hs]. unfold grows in *. auto.
  - apply follows_checked; [intros g' e Hg; by apply HQ|]. intros g' Hg Hs.
    cbn. apply HQ; [done|]. intros _. by apply Forall_singleton.
Qed.

Lemma follows_plan_ops ops cached g (Q : Seen -> result (list (Planned * Statement)) DatabaseError -> Prop) :
  (forall g' r, grows g g' -> (is_ok r = true -> Forall (settled_columns g') (flat_map named_by_op ops)) -> Q g' r) ->
  follows P cached g (plan_ops BACKEND ops) Q.
Proof.
  revert g Q. induction ops as [|op ops IH]; cbn [plan_ops flat_map]; intros g Q HQ.
  - cbn. apply HQ; [by unfold grows|]. intros _. constructor.
  - apply follows_try, follows_plan_op. intros g1 [p|e] Hg1 Hs1; [|by apply HQ].
    apply follows_try, IH. intros g2 [ps|e] Hg2 Hs2; [|apply HQ; [by eapply grows_trans|done]].
    cbn. apply HQ; [by eapply grows_trans|]. intros _. apply Forall_app. split; [|by apply Hs2].
    eapply all_settled_grows; [exact Hg2|]. by apply Hs1.
Qed.

Lemma follows_nothing_named {A} cached g (p : Exec A) : named = [] -> follows P cached g p (fun _ _ => True).
Proof.
  intros Hn. revert g. induction p; cbn [follows]; intros g; try destruct cached; try split; auto;
    first [exact I | right; rewrite Hn; constructor].
Qed.

(** Up to the check of the columns, which settles them. *)
Ltac to_columns Hn :=
  repeat match goal with
  | |- follows _ _ _ (require_columns _ _ _) _ => fail 1
  | |- follows _ _ _ (exec_try _ _) _ => apply follows_try
  | |- follows _ _ _ (Ret (sql_name ?n)) _ =>
      cbn [follows]; let E := fresh in destruct (sql_name n) eqn:E; [apply sql_name_ok in E as [-> _]|exact I]
  | |- follows _ _ _ (Ret ?r) _ => cbn [follows]; destruct r; [|exact I]
  end;
  apply follows_require_columns;
  let g := fresh "g" in let r := fresh "r" in let Hg := fresh "Hg" in let Hs := fresh "Hs" in
  intros g r Hg Hs; destruct r as [[]|]; [|exact I]; specialize (Hs eq_refl); clear Hg;
  apply Forall_singleton in Hs; rewrite <- Hn in Hs; revert Hs; generalize g; clear g; intros g Hs.

Lemma serve_names_columns c cached : named = columns_named c ->
  follows P cached (fun _ _ => False) (serve BACKEND c) (fun _ _ => True).
Proof.
  destruct c; cbn [serve columns_named]; intros Hn; try (by apply follows_nothing_named).
  all: unfold exec_list, exec_count, exec_sum, exec_delete_where, exec_delete_where_count, exec_take_where, exec_update_where,
    exec_update_where_count, exec_increment_field_where, exec_aggregate, exec_insert_guarded, exec_update_guarded,
    run_guarded, run_transaction; try (to_columns Hn; ending).
  unfold exec_batch, run_transaction. apply follows_try, follows_plan_ops. intros g [planned|e] Hg Hs; [|exact I].
  specialize (Hs eq_refl). rewrite <- Hn in Hs. ending.
Qed.
End Columns.

Section Theorems.
  Context `{SeaQuery} `{FloatFormat} `{DebugFormat} `{JsonCrate} `{UnicodeLower} `{ExecDebug} (BACKEND : Backend.t).

(** C29: whatever the backend answers and wherever a call's future is dropped,
    a call (other than the declaration of a table) sends at most one write -
    a statement, or a transaction with everything it writes - and sends it
    last: until then it only reads, so a call that failed or was dropped
    before it wrote nothing, and a read call writes nothing at all. *)
Theorem calls_write_once (c : ServiceCall) (cached : bool) (es : list Event) (o : option (ServiceAnswer c)) :
  call_kind c <> None -> emits cached (serve BACKEND c) es o ->
  exists reading last, prims es = reading ++ last /\ Forall (fun q => writes q = false) reading /\ length last <= 1
  /\ (call_kind c = Some false -> last = []).
Proof.
  intros Hk He. pose proof (serve_write_last BACKEND cached c Hk) as Hf.
  destruct (follows_emits _ _ _ _ _ _ _ Hf He) as [Hc _].
  apply write_last_prims in Hc as (rs & last & Hes & Hr & Hl & _).
  destruct (call_kind c) as [[]|] eqn:E; [exists rs, last; by split_and!| |done].
  apply emits_extends in He as (es' & a & He). destruct (follows_emits _ _ _ _ _ _ _ Hf He) as [Hc Ha].
  specialize (Ha a eq_refl eq_refl). apply write_last_prims in Hc as (rs' & last' & Hes' & Hr' & _ & Hn).
  rewrite (Hn Ha), app_nil_r in Hes'. exists (prims es), []. rewrite app_nil_r. split_and!; [done| |simpl; lia|done].
  assert (Ht : prims (es ++ es') = prims es ++ prims es') by (unfold prims; by rewrite omap_app).
  rewrite <- Hes', Ht in Hr'. by apply Forall_app in Hr' as [Hr' _].
Qed.

(** C30: a call changes the schema cache only as [SchemaCache] lets a caller:
    it makes it forget a table or everything, or writes back what the
    database told of a table, under a generation the cache showed before the
    question; and when it ends after a statement that may have changed the
    schema, the cache has since forgotten the table of the call, or all. *)
Theorem caches_by_protocol (c : ServiceCall) (es : list Event) (o : option (ServiceAnswer c)) :
  emits true (serve BACKEND c) es o ->
  conforms (cache_protocol BACKEND (subject_of c)) cache_view_new es
  /\ (is_some o = true -> ~ cv_dirty (after (cache_protocol BACKEND (subject_of c)) cache_view_new es)).
Proof.
  intros He. pose proof (serve_caches BACKEND (subject_of c) c eq_refl) as Hf.
  destruct (follows_emits _ _ _ _ _ _ _ Hf He) as [Hc Ha]. split; [done|]. destruct o as [a|]; [|done]. intros _.
  exact (Ha a eq_refl).
Qed.

(** whatever columns a call filters, sorts, projects, groups, guards or
    adds up by, it sends nothing but questions about the schema until each of
    them was found among the columns of its table - as the database answered
    or as the cache held them - or the table was found to have none. *)
Theorem unknown_columns_unsent (c : ServiceCall) (cached : bool) (es : list Event) (o : option (ServiceAnswer c)) :
  emits cached (serve BACKEND c) es o ->
  conforms (columns_protocol BACKEND (columns_named c)) (fun _ _ => False) es.
Proof.
  intros He. pose proof (serve_names_columns BACKEND (columns_named c) c cached eq_refl) as Hf.
  exact (proj1 (follows_emits _ _ _ _ _ _ _ Hf He)).
Qed.
End Theorems.

(** ** Refused guards

    The transaction of a guarded write, run by the reference evaluator: other
    writers may have come between the first probe, the write and the second
    probe, so each has a database of its own. *)

Section Guards.
  Context {backend : Backend.t} `{!SqlEngine backend} `{DebugFormat} `{ExecDebug}.

(** The row of a query without a table. *)
Definition probe_record (db : Database) (q : SelectStatement) : DbRecord :=
  mkDbRecord "" (omap (fun s => (fun alias => (alias, eval_sql db s.1 no_row)) <$> s.2) (se_selects q)).

(** The index of the first guard that does not hold. *)
Fixpoint first_unmet (db : Database) (table : string) (index : nat) (guards : list CapGuard.t) : option nat :=
  match guards with
  | [] => None
  | g :: guards => if guard_met db table g then first_unmet db table (S index) guards else Some index
  end.

Definition verdict (db : Database) (table : string) (g : CapGuard.t) : Value := json_of_Z (if guard_met db table g then 1 else 0).

Fixpoint verdicts_from (db : Database) (table : string) (index : nat) (guards : list CapGuard.t) : list (string * Value) :=
  match guards with
  | [] => []
  | g :: guards => (guard_probe_column index, verdict db table g) :: verdicts_from db table (S index) guards
  end.

Lemma guard_verdicts_mean db table index guards vs :
  forallb guard_bindable guards = true -> guard_verdicts table index guards backend = Ok vs ->
  omap (fun s => (fun alias => (alias, eval_sql db s.1 no_row)) <$> s.2) vs = verdicts_from db table index guards.
Proof.
  revert index vs. induction guards as [|g gs IH]; intros index vs; cbn [forallb guard_verdicts verdicts_from]; [by intros _ [= <-]|].
  intros [Hg Hgs]%andb_true_iff. destruct (guard_holds table g backend) as [e|] eqn:E; cbn [result_bind]; [|done].
  destruct (guard_verdicts table (S index) gs backend) as [vs'|] eqn:E2; cbn [result_bind]; [|done]. intros [= <-].
  cbn [omap list_omap fst snd fmap option_fmap option_map]. f_equal; [|by apply IH]. f_equal. unfold verdict.
  change (eval_sql db (Expr.Case e (Expr.Cust "1") (Expr.Cust "0")) no_row)
    with (if holds (eval_sql db e no_row) then json_of_Z 1 else json_of_Z 0).
  rewrite (guard_means db table g e no_row) by done. by destruct (guard_met db table g).
Qed.

Lemma probe_selects table guards q : guard_probe_query table guards backend = Ok q ->
  guard_verdicts table 0 guards backend = Ok (se_selects q).
Proof.
  unfold guard_probe_query. destruct (guard_verdicts table 0 guards backend) as [vs|]; cbn [result_bind]; [|done]. intros [= <-].
  f_equal. change vs with (se_selects select_new ++ vs) at 1. generalize select_new as q0.
  induction vs as [|v vs IH]; intros q0; simpl; [by rewrite app_nil_r|]. rewrite <- IH. simpl. destruct v. by rewrite <- app_assoc.
Qed.

Lemma probe_column_inj i j : guard_probe_column i = guard_probe_column j -> i = j.
Proof. unfold guard_probe_column. intros Hij%str_app_inj_l. by apply (inj pretty). Qed.

Lemma verdicts_assoc db table index guards i : index <= i < index + length guards ->
  assoc (guard_probe_column i) (verdicts_from db table index guards) = verdict db table <$> guards !! (i - index).
Proof.
  revert index. induction guards as [|g gs IH]; intros index; cbn [length verdicts_from assoc]; [lia|]. intros Hi.
  destruct (String.eqb_spec (guard_probe_column index) (guard_probe_column i)) as [<-%probe_column_inj|Hne].
  - by rewrite Nat.sub_diag.
  - assert (i <> index) by congruence. rewrite IH by lia. by replace (i - index) with (S (i - S index)) by lia.
Qed.

(** The guard the decoded verdicts name. *)
Lemma refusing_first_unmet db table index guards data :
  (forall i, index <= i < index + length guards -> assoc (guard_probe_column i) data = verdict db table <$> guards !! (i - index)) ->
  refusing_from data index (length guards) = Ok (first_unmet db table index guards).
Proof.
  revert index. induction guards as [|g gs IH]; intros index Hd; cbn [length refusing_from first_unmet]; [done|].
  rewrite (Hd index) by (simpl; lia). rewrite Nat.sub_diag. unfold verdict. cbn [lookup list_lookup fmap option_fmap option_map mbind option_bind].
  destruct (guard_met db table g); [|done].
  change (value_as_i64 (json_of_Z 1)) with (Some 1%Z). apply IH.
  intros i Hi. rewrite Hd by (simpl; lia). by replace (i - index) with (S (i - S index)) by lia.
Qed.

Lemma probe_names_first db table guards q : forallb guard_bindable guards = true ->
  guard_probe_query table guards backend = Ok q ->
  first_refusing_guard (TxResult.Returning [probe_record db q]) (length guards) = Ok (first_unmet db table 0 guards).
Proof.
  intros Hb Hq%probe_selects. cbn [first_refusing_guard]. unfold probe_record. cbn [dr_data].
  rewrite (guard_verdicts_mean db table 0 guards _ Hb Hq). apply refusing_first_unmet. intros i Hi. by apply verdicts_assoc.
Qed.
Lemma first_unmet_spec db table index guards i : first_unmet db table index guards = Some i <->
  index <= i /\ exists g, guards !! (i - index) = Some g /\ guard_met db table g = false
  /\ forallb (guard_met db table) (take (i - index) guards) = true.
Proof.
  revert index. induction guards as [|g gs IH]; intros index; cbn [first_unmet].
  - split; [done|]. intros (_ & g & Hg & _). done.
  - destruct (guard_met db table g) eqn:E.
    + rewrite IH. split.
      * intros (Hi & g' & Hg & Hm & Ht). split; [lia|]. replace (i - index) with (S (i - S index)) by lia.
        exists g'. cbn. by rewrite E, Ht.
      * intros (Hi & g' & Hg & Hm & Ht). destruct (i - index) as [|n] eqn:En; cbn in *.
        -- simplify_eq. congruence.
        -- split; [lia|]. replace (i - S index) with n by lia. apply andb_true_iff in Ht as [_ Ht]. eauto.
    + split.
      * intros [= <-]. split; [lia|]. rewrite Nat.sub_diag. by exists g.
      * intros (Hi & g' & Hg & Hm & Ht). destruct (i - index) as [|n] eqn:En; cbn in *; [f_equal; lia|].
        by rewrite E in Ht.
Qed.

Lemma first_unmet_exists db table index guards : forallb (guard_met db table) guards = false -> is_some (first_unmet db table index guards) = true.
Proof.
  revert index. induction guards as [|g gs IH]; intros index; cbn [forallb first_unmet]; [done|].
  destruct (guard_met db table g); [apply IH|done].
Qed.

(** The rows a guarded update touches. *)
Lemma update_guarded_exact db table data filters guards q :
  forallb guard_bindable guards = true -> forallb filter_bindable filters = true ->
  update_guarded_query table data filters guards backend = Ok q ->
  (exec_update db q).2 = if forallb (guard_met db table) guards then length (matching filters (db table)) else 0.
Proof.
  intros Hg Hf. unfold update_guarded_query. destruct (guard_condition table guards backend) as [cond|] eqn:E; cbn [result_bind]; [|done].
  intros [= <-]. cbn [exec_update up_wheres up_table snd].
  assert (Hh : forall r, forallb (fun w => holds (eval_sql db w r)) (of_option (build_condition filters backend) ++ of_option cond)
                = filters_keep filters r && forallb (guard_met db table) guards).
  { intros r. rewrite forallb_app, condition_keeps, (condition_met db table guards cond r) by done. done. }
  rewrite (filter_ext _ _ Hh). destruct (forallb (guard_met db table) guards).
  - unfold matching. f_equal. apply filter_ext. intros r. apply andb_true_r.
  - rewrite (filter_ext _ (fun _ => false)) by (intros r; apply andb_false_r).
    by induction (db table).
Qed.

(** C31: a guarded write that the database runs between its two probes writes
    exactly when every guard holds at that moment; when it wrote nothing, the
    guard it names is the first that did not hold at the first probe or, when
    all held there, at the second. With no other writer in between, a refused
    write so names the first guard that refused it. *)
Theorem guarded_writes_name_refusal (db0 db1 db2 : Database) (table : string) (guards : list CapGuard.t)
    (probe : SelectStatement) (record : Row -> DbRecord) :
  forallb guard_bindable guards = true -> guards <> [] -> guard_probe_query table guards backend = Ok probe ->
  let results write := [TxResult.Returning [probe_record db0 probe]; write; TxResult.Returning [probe_record db2 probe]] in
  let met := forallb (guard_met db1 table) guards in
  let refused := match first_unmet db0 table 0 guards with Some i => Some i | None => first_unmet db2 table 0 guards end in
  (forall data q, insert_guarded_query table data guards backend = Ok q ->
     (let? outcome := guarded_result (results (TxResult.Returning (map record (exec_insert db1 q).2))) (length guards) in
      insert_outcome table outcome)
     = if met then Ok (GuardedInsert.Inserted (record (written_row data)))
       else insert_outcome table (TxResult.Returning [], refused))
  /\ (forall data filters q, forallb filter_bindable filters = true ->
     update_guarded_query table data filters guards backend = Ok q ->
     (let? outcome := guarded_result (results (TxResult.Execute (Z.of_nat (exec_update db1 q).2))) (length guards) in
      update_outcome outcome)
     = Ok (if met && negb (is_nil (matching filters (db1 table)))
           then GuardedUpdate.Updated (Z.of_nat (length (matching filters (db1 table))))
           else match refused with Some i => GuardedUpdate.Refused i | None => GuardedUpdate.NoMatch end))
  /\ (db0 = db1 -> met = false -> exists i g, refused = Some i /\ guards !! i = Some g /\ guard_met db1 table g = false
      /\ forallb (guard_met db1 table) (take i guards) = true).
Proof.
  intros Hb Hne Hp results met refused.
  assert (Hg : forall write, guarded_result (results write) (length guards) = Ok (write, refused)).
  { intros write. unfold guarded_result. rewrite (proj2 (Nat.eqb_neq (length guards) 0)) by (by destruct guards).
    unfold results. rewrite (probe_names_first db0 table guards probe Hb Hp). cbn [result_bind]. unfold refused.
    destruct (first_unmet db0 table 0 guards); [done|]. by rewrite (probe_names_first db2 table guards probe Hb Hp). }
  split_and!.
  - intros data q Hq. rewrite Hg. cbn [result_bind]. rewrite (insert_guarded_exact db1 table data guards q Hb Hq).
    fold met. by destruct met.
  - intros data filters q Hf Hq. rewrite Hg. cbn [result_bind update_outcome].
    rewrite (update_guarded_exact db1 table data filters guards q Hb Hf Hq). fold met.
    destruct met; [|by destruct refused]. destruct (matching filters (db1 table)); [by destruct refused|done].
  - intros -> Hm. apply (first_unmet_exists db1 table 0) in Hm. unfold refused.
    destruct (first_unmet db1 table 0 guards) as [i|] eqn:E; [|done]. apply first_unmet_spec in E as (_ & g & Hl & Hn & Ht).
    rewrite Nat.sub_0_r in Hl, Ht. eauto 8.
Qed.
End Guards.

(** ** Batches *)

(** The last transaction that succeeded, with its results. *)
Abbreviation LastTx := (option (list TxOp.t * list TxResult.t)).

Definition ledger : Protocol LastTx :=
  mkProtocol LastTx (fun _ _ => True)
    (fun g q => match q return PrimAnswer q -> LastTx with
                | RunTransaction ops => fun r => match r with Ok results => Some (ops, results) | Err _ => g end
                | _ => fun _ => g
                end)
    (fun g _ => g) (fun _ _ => True) (fun g _ => g).

Lemma follows_ledger {A} cached g (p : Exec A) Q : (forall g a, Q g a) -> follows ledger cached g p Q.
Proof.
  intros HQ. revert g. induction p; cbn [follows]; intros g; try destruct cached; try split; auto; exact I.
Qed.

(** What an op's statement returns, and the outcome it stands for. *)
Inductive op_outcome : WriteOp.t -> TxOp.t -> TxResult.t -> WriteOutcome.t -> Prop :=
| created c data sql params json row rows :
    op_outcome (WriteOp.Create c data) (TxOp.Returning sql params json) (TxResult.Returning (row :: rows)) (WriteOutcome.Created row)
| updated c id data sql params json rows :
    op_outcome (WriteOp.Update c id data) (TxOp.Returning sql params json) (TxResult.Returning rows) (WriteOutcome.Updated (head rows))
| deleted c id sql params n :
    op_outcome (WriteOp.Delete c id) (TxOp.Execute sql params) (TxResult.Execute n) (WriteOutcome.Deleted n)
| updated_where c filters data sql params n :
    op_outcome (WriteOp.UpdateWhere c filters data) (TxOp.Execute sql params) (TxResult.Execute n) (WriteOutcome.UpdatedWhere n)
| deleted_where c filters sql params n :
    op_outcome (WriteOp.DeleteWhere c filters) (TxOp.Execute sql params) (TxResult.Execute n) (WriteOutcome.DeletedWhere n)
| upserted c spec sql params n :
    op_outcome (WriteOp.Upsert c spec) (TxOp.Execute sql params) (TxResult.Execute n) (WriteOutcome.Upserted n).

Inductive op_outcomes : list WriteOp.t -> list TxOp.t -> list TxResult.t -> list WriteOutcome.t -> Prop :=
| no_outcomes : op_outcomes [] [] [] []
| more_outcomes op t r o ops ts rs os :
    op_outcome op t r o -> op_outcomes ops ts rs os -> op_outcomes (op :: ops) (t :: ts) (r :: rs) (o :: os).

Section Batches.
  Context `{SeaQuery} `{FloatFormat} `{DebugFormat} `{JsonCrate} `{UnicodeLower} `{ExecDebug} (BACKEND : Backend.t).

(** The decoding planned for an op. *)
Definition planned_for (op : WriteOp.t) (planned : Planned * Statement) : Prop :=
  match op, planned.1 with
  | WriteOp.Create _ _, PlCreated _ | WriteOp.Update _ _ _, PlUpdated _ | WriteOp.Delete _ _, PlDeleted
  | WriteOp.UpdateWhere _ _ _, PlUpdatedWhere | WriteOp.DeleteWhere _ _, PlDeletedWhere | WriteOp.Upsert _ _, PlUpserted => True
  | _, _ => False
  end.

Ltac any_prim := first
  [ exec_step
  | match goal with |- follows ledger _ _ ?p _ =>
      lazymatch p with exec_try _ _ => fail | exec_bind _ _ => fail | Ret _ => fail | _ => apply follows_ledger; intros ? ? end end
  | match goal with |- forall _, _ => intro end ].

Lemma plan_op_kind op cached g : follows ledger cached g (plan_op BACKEND op)
  (fun _ r => match r with Ok planned => planned_for op planned | Err _ => True end).
Proof. destruct op; unfold plan_op; repeat any_prim; done. Qed.

Lemma plan_ops_kinds ops cached g : follows ledger cached g (plan_ops BACKEND ops)
  (fun _ r => match r with Ok planned => Forall2 planned_for ops planned | Err _ => True end).
Proof.
  revert g. induction ops as [|op ops IH]; cbn [plan_ops]; intros g; [by constructor|].
  apply follows_try. eapply follows_mono; [apply plan_op_kind|]. intros g1 [p|e] Hp; [|done].
  apply follows_try. eapply follows_mono; [apply IH|]. intros g2 [ps|e] Hps; [|done]. by constructor.
Qed.

Lemma planned_outcomes_aligned ops planned results outs :
  Forall2 planned_for ops planned -> length results = length planned -> planned_outcomes (map fst planned) results = Ok outs ->
  op_outcomes ops (map planned_tx_op planned) results outs.
Proof.
  intros Hp. revert results outs. induction Hp as [|op [kind st] ops planned Hop Hp IH]; intros [|r results] outs; simpl; intros Hl; try done.
  - intros [= <-]. constructor.
  - destruct (planned_outcome kind r) as [o|] eqn:Eo; cbn [result_bind]; [|done].
    destruct (planned_outcomes (map fst planned) results) as [os|] eqn:Eos; cbn [result_bind]; [|done]. intros [= <-].
    constructor; [|apply IH; [lia|done]]. unfold planned_for in Hop. simpl in Hop.
    destruct op, kind; try done; destruct r as [n|[|row rows]]; simpl in Eo; simplify_eq; constructor.
Qed.

(** a batch that succeeds ran one transaction of one statement per op, and
    answers each op, in its place, with what its own statement returned: the
    stored row of a create, the row of an update that matched, the count of a
    delete, of a filtered write or of an upsert; a batch of nothing answers
    nothing. *)
Theorem batch_outcomes_aligned (ops : list WriteOp.t) (cached : bool) (es : list Event) (outs : list WriteOutcome.t) :
  emits cached (serve BACKEND (CallBatch ops)) es (Some (Ok outs)) ->
  (ops = [] /\ outs = [])
  \/ exists statements results, after ledger None es = Some (statements, results) /\ op_outcomes ops statements results outs.
Proof.
  intros He. cbn [serve] in He.
  assert (Hf : follows ledger cached None (exec_batch BACKEND ops)
    (fun g r => match r with
                | Ok outs => (ops = [] /\ outs = [])
                    \/ exists statements results, g = Some (statements, results) /\ op_outcomes ops statements results outs
                | Err _ => True
                end)).
  { unfold exec_batch, run_transaction. apply follows_try. eapply follows_mono; [apply plan_ops_kinds|].
    intros g [planned|e] Hp; [|done]. destruct (is_nil planned) eqn:En.
    { destruct planned; [|done]. apply Forall2_nil_inv_r in Hp as ->. by left. }
    apply follows_try, follows_bind. cbn [follows send]. split; [exact I|]. intros [results|e]; [|exact I].
    cbn [after_send ledger]. destruct (negb (length results =? length planned)%nat) eqn:El; [exact I|].
    apply negb_false_iff, Nat.eqb_eq in El. destruct (planned_outcomes (map fst planned) results) as [os|] eqn:Eo; [|exact I].
    right. do 2 eexists. split; [done|]. by apply planned_outcomes_aligned. }
  destruct (follows_emits _ _ _ _ _ _ _ Hf He) as [_ Ha]. exact (Ha _ eq_refl).
Qed.
End Batches.

(** ** Written and read back *)

Section RoundTrip.
  Context `{JsonCrate} `{DebugFormat}.

(** The value a column is written with. *)
Definition written_value (json : list string) (kv : string * Value) : string * Value :=
  (kv.1, if json_contains json kv.1 then encode_json_value kv.2 else kv.2).

(** [serde_json] reads back the text it displays the value as. *)
Definition reads_back (v : Value) : Prop := from_json (display_json v) = Some v.

Lemma written_value_back json k v : json_contains json k = false \/ reads_back v ->
  column_value k (written_value json (k, v)).2 json = v.
Proof.
  unfold written_value, column_value, decode_text, reads_back. simpl. intros Hv. destruct (json_contains json k) eqn:E.
  - destruct Hv as [|Hv]; [done|]. destruct v; simpl; try done; rewrite ?E, Hv; done.
  - destruct v; simpl; rewrite ?E; done.
Qed.

Lemma record_columns_back json row id data :
  NoDup (map fst (data ++ row)) -> Forall (fun kv => json_contains json kv.1 = false \/ reads_back kv.2) row ->
  record_columns (map (written_value json) row) json id data
  = mkDbRecord (match assoc "id" row with Some v => record_id v | None => id end) (data ++ row).
Proof.
  intros Hd Hv. revert id data Hd. induction Hv as [|[k v] row Hkv Hv IH]; intros id data Hd; cbn [map record_columns assoc].
  - by rewrite app_nil_r.
  - change (written_value json (k, v)) with (k, (written_value json (k, v)).2). cbv beta iota.
    rewrite (written_value_back json k v Hkv).
    assert (Hk : k ∉ map fst data).
    { rewrite map_app in Hd. apply NoDup_app in Hd as (_ & Hd & _). intros Hin. apply (Hd k Hin). simpl. set_solver. }
    rewrite entry_insert_new by done. rewrite IH by (rewrite <- app_assoc; exact Hd).
    rewrite <- app_assoc. f_equal. destruct (String.eqb_spec k "id") as [->|Hne].
    + assert (Hno : assoc "id" row = None).
      { rewrite map_app in Hd. apply NoDup_app in Hd as (_ & _ & Hd). simpl in Hd. apply NoDup_cons in Hd as [Hno _].
        clear -Hno. induction row as [|[k' v'] row IH]; [done|]. simpl in *.
        rewrite (proj2 (String.eqb_neq k' "id")) by set_solver. apply IH. set_solver. }
      by rewrite Hno.
    + done.
Qed.

Lemma try_map_pairs data json pairs :
  try_map (fun '(k, v) => let value := if json_contains json k then encode_json_value v else v in
                          let? k := sql_name k in Ok (k, value)) data = Ok pairs ->
  pairs = map (written_value json) data.
Proof.
  revert pairs. induction data as [|[k v] data IH]; intros pairs; cbn [try_map map]; [by intros [= <-]|].
  destruct (sql_name k) as [k'|] eqn:E; cbn [result_bind]; [|done]. apply sql_name_ok in E as [-> _].
  destruct (try_map _ data) as [ps|] eqn:E2; cbn [result_bind]; [|done]. intros [= <-]. by rewrite (IH ps eq_refl).
Qed.

#[local] Instance key_le_trans {B} : Transitive (@key_le B).
Proof. intros a b c. unfold key_le. apply transitivity. Qed.
#[local] Instance key_le_total {B} : Total (@key_le B).
Proof. intros a b. unfold key_le. apply String.le_total. Qed.

Lemma sorted_map (l : list (string * Value)) (g : string * Value -> string * Value) :
  (forall kv, (g kv).1 = kv.1) -> NoDup (map fst l) -> merge_sort key_le (map g l) = map g (merge_sort key_le l).
Proof.
  intros Hg Hd.
  assert (Hfst : forall m, map fst (map g m) = map fst m) by (intros m; rewrite map_map; by apply map_ext).
  apply (Sorted_unique_strong key_le).
  - intros [k1 v1] [k2 v2] H1 H2 Hle1 Hle2. rewrite merge_sort_Permutation in H1.
    assert (H2' : (k2, v2) ∈ map g l) by (rewrite <- (merge_sort_Permutation key_le l); exact H2).
    assert (k1 = k2) as -> by (unfold key_le in *; simpl in *; by apply (anti_symm String.le)).
    assert (Hdl : NoDup (map fst (map g l))) by (by rewrite Hfst).
    f_equal. apply list_elem_of_lookup_1 in H1 as [i Hi]. apply list_elem_of_lookup_1 in H2' as [j Hj].
    assert (i = j) as ->.
    { eapply (NoDup_lookup _ i j k2 Hdl); change (fst) with (@fst string Value); rewrite list_lookup_fmap; [by rewrite Hi|by rewrite Hj]. }
    rewrite Hi in Hj. by injection Hj.
  - apply (Sorted_merge_sort key_le).
  - assert (Hs : Sorted key_le (merge_sort key_le l)) by apply (Sorted_merge_sort key_le).
    induction Hs as [|a m Hs IH Hhd]; simpl; [constructor|]. constructor; [done|].
    destruct Hhd as [|b m Hab]; simpl; constructor. unfold key_le in *. by rewrite !Hg.
  - rewrite merge_sort_Permutation. by rewrite (merge_sort_Permutation key_le l).
Qed.

(** C32: a row is read as it was written: when the database answers the columns
    of a statement in their order, each value as it was bound, the record has
    every column with the value the caller gave - in the columns that hold
    JSON too, whatever text a value looks like, as long as the value's JSON
    text parses back to it - and the id of the row. *)
Theorem rows_read_back (data : Data) (json : list string) (pairs : list (string * Value)) :
  NoDup (map fst data) -> Forall (fun kv => json_contains json kv.1 = false \/ reads_back kv.2) data ->
  sorted_pairs data json = Ok pairs ->
  record_from_columns pairs json
  = mkDbRecord (default "" (record_id <$> assoc "id" (written_columns data))) (written_columns data).
Proof.
  intros Hd Hv. unfold sorted_pairs. destruct (try_map _ data) as [ps|] eqn:E; cbn [result_bind]; [|done]. intros [= <-].
  apply try_map_pairs in E as ->. rewrite (sorted_map data (written_value json)) by done.
  unfold record_from_columns, written_columns. rewrite record_columns_back.
  - cbn [app]. f_equal. by destruct (assoc "id" (merge_sort key_le data)).
  - cbn [app]. by rewrite (merge_sort_Permutation key_le data).
  - by rewrite (merge_sort_Permutation key_le data).
Qed.
End RoundTrip.

(** ** A backend *)

Module Demo.

#[export] Instance sea : SeaQuery := {|
  render_select _ _ := ("SELECT", []); render_insert _ _ := ("INSERT", []);
  render_update _ _ := ("UPDATE", []); render_delete _ _ := ("DELETE", [])
|}.
#[export] Instance floats : FloatFormat := {| display_f64 _ := "0" |}.
#[export] Instance debug : DebugFormat := {| debug_str s := s |}.
#[export] Instance exec_debug : ExecDebug :=
  {| debug_batch_result _ := ""; debug_tx_result _ := ""; debug_data _ := ""; debug_value _ := "" |}.

(** JSON of two values. *)
#[export] Instance json : JsonCrate := {|
  from_json s := if s =s "[true]" then Some (VArray [VBool true]) else None;
  to_json _ := Ok "";
  display_json v := match v with VArray [VBool true] => "[true]" | _ => "?" end
|}.

(** A table with an id and a title, in a database that answers everything. *)
Definition column_row (name decl_type : string) : DbRecord := mkDbRecord "" [("name", VString name); ("decl_type", VString decl_type)].
Definition note_table : DbRecord := mkDbRecord "n1" [("id", VString "n1"); ("title", VString "a")].

Definition prim (q : Prim) (s : unit) : unit * PrimAnswer q :=
  (s, match q return PrimAnswer q with
      | RunFetch sql _ _ =>
          Ok (if sql =s (build_list_columns "" Backend.Sqlite).1 then [column_row "id" "TEXT"; column_row "Title" "TEXT"] else [])
      | RunFetchOne _ _ _ => Ok note_table
      | RunExecute _ _ | RunSchemaExecute _ _ => Ok 1%Z
      | RunExecuteReturning _ _ _ => Ok [note_table]
      | RunScalarI64 _ _ => Ok 0%Z
      | RunScalarF64 _ _ => Ok (S754_zero false)
      | RunSchemaTransaction ops | RunTransaction ops =>
          Ok (map (fun op => match op with TxOp.Execute _ _ => TxResult.Execute 1 | TxOp.Returning _ _ _ => TxResult.Returning [note_table] end) ops)
      | RunBatch _ => Ok [BatchResult.Execute 1; BatchResult.Rows [note_table]]
      end).

Definition backend : BackendOps unit := mkBackendOps unit prim (fun s => (s, "2026-01-01T00:00:00+00:00")) (fun s => (s, "n1")).

Definition events (c : ServiceCall) : list Event := run_events backend (serve Backend.Sqlite c) tt (Some schema_cache_new).
Definition answer (c : ServiceCall) : ServiceAnswer c := (run_exec backend (serve Backend.Sqlite c) tt (Some schema_cache_new)).2.

Lemma emits_events c : emits true (serve Backend.Sqlite c) (events c) (Some (answer c)).
Proof. apply (run_emits backend (serve Backend.Sqlite c) tt (Some schema_cache_new)). Qed.

Definition create_note : ServiceCall := CallCreate "notes" [("title", VString "a")].
Definition count_notes : ServiceCall := CallCount "notes" [mkFilter "title" FilterOp.Equal (VString "a")].
Definition note_ops : list WriteOp.t := [WriteOp.Create "notes" [("title", VString "a")]; WriteOp.Delete "notes" "n0"].
End Demo.

Import Demo.
#[local] Transparent build_table_exists build_list_columns build_list_primary_key build_id_policy.

Lemma calls_write_once_witness :
  length (prims (Demo.events Demo.create_note)) = 3
  /\ exists reading last, prims (Demo.events Demo.create_note) = reading ++ last
     /\ Forall (fun q => writes q = false) reading /\ length last <= 1 /\ (call_kind Demo.create_note = Some false -> last = []).
Proof.
  split; [vm_compute; reflexivity|].
  apply (calls_write_once Backend.Sqlite Demo.create_note true _ (Some (Demo.answer Demo.create_note)));
    [discriminate | apply Demo.emits_events].
Defined.

Lemma caches_by_protocol_witness :
  length (Demo.events Demo.create_note) = 9
  /\ conforms (cache_protocol Backend.Sqlite None) cache_view_new (Demo.events Demo.create_note).
Proof.
  split; [vm_compute; reflexivity|].
  exact (proj1 (caches_by_protocol Backend.Sqlite Demo.create_note _ (Some (Demo.answer Demo.create_note))
                  (Demo.emits_events Demo.create_note))).
Defined.

Lemma unknown_columns_unsent_witness :
  length (prims (Demo.events Demo.count_notes)) = 2
  /\ conforms (columns_protocol Backend.Sqlite [("notes", ["title"])]) (fun _ _ => False) (Demo.events Demo.count_notes).
Proof.
  split; [vm_compute; reflexivity|].
  exact (unknown_columns_unsent Backend.Sqlite Demo.count_notes true _ (Some (Demo.answer Demo.count_notes))
           (Demo.emits_events Demo.count_notes)).
Defined.

(** A full table: bob's two files are as many as his guard allows. *)
Definition bob_file (size : Z) : Row := written_row [("owner", VString "bob"); ("size", json_of_Z size)].
Definition full_db : Database := fun _ => [bob_file 6; bob_file 4].
Definition bob_guards : list CapGuard.t := [CapGuard.SumAtMost "size" [bob] 0 10; CapGuard.CountBelow [bob] 2].
Definition file_record (r : Row) : DbRecord := mkDbRecord "" [("size", r "size")].

Lemma guarded_writes_name_refusal_witness : exists probe q,
  guard_probe_query "files" bob_guards Backend.Sqlite = Ok probe
  /\ insert_guarded_query "files" [("owner", VString "bob"); ("size", json_of_Z 0)] bob_guards Backend.Sqlite = Ok q
  /\ (let? outcome := guarded_result [TxResult.Returning [probe_record (backend := Backend.Sqlite) full_db probe];
                                      TxResult.Returning (map file_record (exec_insert (backend := Backend.Sqlite) full_db q).2);
                                      TxResult.Returning [probe_record (backend := Backend.Sqlite) full_db probe]] 2 in
      insert_outcome "files" outcome) = Ok (GuardedInsert.Refused 1).
Proof.
  destruct (guard_probe_query "files" bob_guards Backend.Sqlite) as [probe|] eqn:Ep; [|vm_compute in Ep; discriminate Ep].
  destruct (insert_guarded_query "files" [("owner", VString "bob"); ("size", json_of_Z 0)] bob_guards Backend.Sqlite)
    as [q|] eqn:Eq; [|vm_compute in Eq; discriminate Eq].
  exists probe, q. split; [reflexivity|]. split; [reflexivity|].
  destruct (guarded_writes_name_refusal (backend := Backend.Sqlite) full_db full_db full_db "files" bob_guards probe file_record
              eq_refl ltac:(discriminate) Ep) as (Hi & _).
  exact (Hi _ q Eq).
Defined.

Lemma batch_outcomes_aligned_witness :
  answer (CallBatch note_ops) = Ok [WriteOutcome.Created note_table; WriteOutcome.Deleted 1]
  /\ exists statements results, after ledger None (events (CallBatch note_ops)) = Some (statements, results)
     /\ op_outcomes note_ops statements results [WriteOutcome.Created note_table; WriteOutcome.Deleted 1].
Proof.
  assert (Ha : answer (CallBatch note_ops) = Ok [WriteOutcome.Created note_table; WriteOutcome.Deleted 1]) by (vm_compute; reflexivity).
  split; [exact Ha|]. pose proof (emits_events (CallBatch note_ops)) as He. rewrite Ha in He.
  destruct (batch_outcomes_aligned Backend.Sqlite note_ops true _ _ He) as [[Hn _]|Hs]; [discriminate Hn|exact Hs].
Defined.

Definition tagged_note : Data := [("title", VString "[true]"); ("tags", VArray [VBool true])].

Lemma rows_read_back_witness : exists pairs,
  sorted_pairs tagged_note ["tags"] = Ok pairs
  /\ record_from_columns pairs ["tags"] = mkDbRecord "" [("tags", VArray [VBool true]); ("title", VString "[true]")].
Proof.
  destruct (sorted_pairs tagged_note ["tags"]) as [pairs|] eqn:E; [|vm_compute in E; discriminate E].
  exists pairs. split; [reflexivity|].
  apply (rows_read_back tagged_note ["tags"] pairs); [|repeat constructor; (left; reflexivity) || (right; reflexivity)|exact E].
  apply (NoDup_cons_2 "title"); [|apply (NoDup_cons_2 "tags"); [apply not_elem_of_nil|apply NoDup_nil_2]].
  intros Hin%list_elem_of_singleton. discriminate Hin.
Defined.
