(* ===== verification/SchemaRefs.v ===== *)
(** References inside JSON Schema documents: the keywords that hold schemas and
    the names of definitions ([wafer-block/src/types/schema_ref.rs]), and the
    walk that makes a schema stand alone ([wafer-core/src/discovery.rs],
    [inline_refs]): references to definitions on no cycle are replaced by
    what they name, the others are kept with their definitions.

    An object is the list of its entries; the order serde_json keeps them in
    is not modelled. The walk threads its state ([RefWalk]) and stops at its
    node budget, which also bounds its recursion. *)

From S2P Require Import Prelude CoreTypes BlockName Text Lifecycle ConfigExpand.

(** ** Keywords *)

Module KeywordValue.
Inductive t := Subschema | SubschemaList | SubschemaMap | Literal | Other.
#[global] Instance t_eq_dec : EqDecision t.
Proof. solve_decision. Defined.
End KeywordValue.

Definition SUBSCHEMA_KEYWORDS : list string :=
  ["items"; "additionalProperties"; "not"; "if"; "then"; "else"; "contains"; "propertyNames"; "unevaluatedItems";
   "unevaluatedProperties"; "contentSchema"].
Definition SUBSCHEMA_LIST_KEYWORDS : list string := ["allOf"; "anyOf"; "oneOf"; "prefixItems"].
Definition SUBSCHEMA_MAP_KEYWORDS : list string := ["properties"; "patternProperties"; "dependentSchemas"].
Definition LITERAL_VALUE_KEYWORDS : list string := ["default"; "const"; "enum"; "examples"].

(** [<[&str]>::contains]. *)
Definition listed (s : string) (l : list string) : bool := existsb (String.eqb s) l.

(** [keyword_value]. *)
Definition keyword_value (keyword : string) : KeywordValue.t :=
  if listed keyword SUBSCHEMA_KEYWORDS then KeywordValue.Subschema
  else if listed keyword SUBSCHEMA_LIST_KEYWORDS then KeywordValue.SubschemaList
  else if listed keyword SUBSCHEMA_MAP_KEYWORDS then KeywordValue.SubschemaMap
  else if listed keyword LITERAL_VALUE_KEYWORDS then KeywordValue.Literal
  else KeywordValue.Other.

(** The [percent_encoding] crate: [utf8_percent_encode] with
    [REF_NAME_ESCAPE], and [percent_decode_str(..).decode_utf8()]. Decoding
    undoes encoding. *)
Class PercentEncoding := {
  utf8_percent_encode : string -> string;
  percent_decode_utf8 : string -> option string;
  percent_decode_encode : forall s, percent_decode_utf8 (utf8_percent_encode s) = Some s
}.

Section Names.
  Context `{PercentEncoding}.

(** [decode_ref_name], [encode_ref_name]. *)
Definition decode_ref_name (encoded : string) : option string :=
  match percent_decode_utf8 encoded with
  | Some decoded => Some (replace "~0" "~" (replace "~1" "/" decoded))
  | None => None
  end.

Definition encode_ref_name (name : string) : string :=
  utf8_percent_encode (replace_char "/" "~1" (replace_char "~" "~0" name)).

Definition DEFS : string := "#/$defs/".

(** The reference that names a definition. *)
Definition def_ref (name : string) : string := DEFS +:+ encode_ref_name name.

(** [reference.strip_prefix("#/$defs/").and_then(decode_ref_name)]. *)
Definition def_name (reference : string) : option string := strip_prefix DEFS reference ≫= decode_ref_name.
End Names.

(** ** Local references *)

Inductive LocalRef := RefRoot | RefDef (name : string).
#[global] Instance LocalRef_eq_dec : EqDecision LocalRef.
Proof. solve_decision. Defined.

Definition opt_list {A} (o : option A) : list A := match o with Some a => [a] | None => [] end.

Section LocalRefs.
  Context `{PercentEncoding}.

(** [LocalRef::pointer]. *)
Definition pointer (r : LocalRef) : string := match r with RefRoot => "#" | RefDef name => def_ref name end.

Definition local_ref (reference : string) : option LocalRef :=
  if reference =s "#" then Some RefRoot
  else match def_name reference with Some name => Some (RefDef name) | None => None end.

(** The keys a walk over the members of a schema object passes over. *)
Definition is_table_key (key : string) : bool := (key =s "$ref") || (key =s "$defs").

(** [map.get("$ref")] when it is a string. *)
Definition ref_of (map : list (string * Value)) : option string := assoc "$ref" map ≫= as_str.

(** [collect_local_refs]. *)
Fixpoint collect_local_refs (node : Value) : list LocalRef :=
  match node with
  | VObject map =>
      opt_list (ref_of map ≫= local_ref)
      ++ (fix members (map : list (string * Value)) : list LocalRef :=
            match map with
            | [] => []
            | (key, value) :: map =>
                (if is_table_key key then []
                 else match keyword_value key with
                      | KeywordValue.Literal => []
                      | KeywordValue.SubschemaMap =>
                          match value with
                          | VObject ms => (fix each (ms : list (string * Value)) : list LocalRef :=
                                             match ms with [] => [] | (_, m) :: ms => collect_local_refs m ++ each ms end) ms
                          | _ => collect_local_refs value
                          end
                      | _ => collect_local_refs value
                      end) ++ members map
            end) map
  | VArray items =>
      (fix each (items : list Value) : list LocalRef :=
         match items with [] => [] | item :: items => collect_local_refs item ++ each items end) items
  | _ => []
  end.

(** ** Definitions on a cycle *)

Definition table_of (defs : Value) : list (string * Value) := match defs with VObject table => table | _ => [] end.

(** The definitions a definition references. *)
Definition def_targets (table : list (string * Value)) (body : Value) : list string :=
  omap (fun r => match r with
                 | RefDef name => if is_some (assoc name table) then Some name else None
                 | RefRoot => None
                 end) (collect_local_refs body).

Definition edges_of (table : list (string * Value)) (name : string) : list string :=
  match assoc name table with Some body => def_targets table body | None => [] end.

(** Whether the search from [start] comes back to it. *)
Fixpoint comes_back (fuel : nat) (table : list (string * Value)) (start : string) (seen frontier : list string) : option bool :=
  match fuel with
  | O => None
  | S fuel =>
      match frontier with
      | [] => Some false
      | name :: frontier =>
          if name =s start then Some true
          else if listed name seen then comes_back fuel table start seen frontier
          else comes_back fuel table start (name :: seen) (edges_of table name ++ frontier)
      end
  end.

(** Enough: a definition's references enter the frontier once. *)
Definition search_fuel (table : list (string * Value)) (start : string) : nat :=
  S (length (edges_of table start) + length (flat_map (fun kv => def_targets table kv.2) table)).

(** [definitions_on_a_cycle]. *)
Definition definitions_on_a_cycle (defs : Value) : list string :=
  let table := table_of defs in
  List.filter (fun start => default false (comes_back (search_fuel table start) table start [] (edges_of table start)))
    (map fst table).
End LocalRefs.

(** ** Inlining *)

Definition MAX_INLINED_NODES : N := 100000.

(** [count_nodes]. *)
Fixpoint count_nodes (value : Value) : N :=
  match value with
  | VObject map => (1 + (fix go (map : list (string * Value)) : N :=
                           match map with [] => 0 | (_, v) :: map => count_nodes v + go map end) map)%N
  | VArray items => (1 + (fix go (items : list Value) : N :=
                            match items with [] => 0 | v :: items => count_nodes v + go items end) items)%N
  | _ => 1%N
  end.

Record RefIssues := mkIssues { unresolved : bool; oversized : bool }.

(** What a walk changes; the table, the cyclic definitions and the root's
    name it reads are parameters below. *)
Record RefWalk := mkWalk {
  rw_issues : RefIssues;
  rw_emitted : N;
  rw_kept : list (string * Value);
  rw_started : list string;
  rw_root_recursive : bool
}.

Definition mark_unresolved (w : RefWalk) : RefWalk :=
  mkWalk (mkIssues true (oversized (rw_issues w))) (rw_emitted w) (rw_kept w) (rw_started w) (rw_root_recursive w).
Definition mark_root (w : RefWalk) : RefWalk :=
  mkWalk (rw_issues w) (rw_emitted w) (rw_kept w) (rw_started w) true.
Definition start_def (w : RefWalk) (name : string) : RefWalk :=
  mkWalk (rw_issues w) (rw_emitted w) (rw_kept w) (name :: rw_started w) (rw_root_recursive w).
Definition keep_def (w : RefWalk) (name : string) (body : Value) : RefWalk :=
  mkWalk (rw_issues w) (rw_emitted w) (entry_insert (rw_kept w) name body) (rw_started w) (rw_root_recursive w).

(** [json!({})]. *)
Definition EMPTY : Value := VObject [].

Notation "'walk!' x := e 'in' k" := (match e with Some x => k | None => None end)
  (at level 200, x pattern, e at level 100, k at level 200) : wafer_scope.

Section Walk.
  Context `{PercentEncoding} (budget : N) (defs : Value) (cyclic : list string) (root_name : string).

(** [RefWalk::spend]. *)
Definition spend (nodes : N) (w : RefWalk) : RefWalk * bool :=
  let emitted := (rw_emitted w + nodes)%N in
  if (budget <? emitted)%N
  then (mkWalk (mkIssues (unresolved (rw_issues w)) true) emitted (rw_kept w) (rw_started w) (rw_root_recursive w), false)
  else (mkWalk (rw_issues w) emitted (rw_kept w) (rw_started w) (rw_root_recursive w), true).

Section Step.
  Variable rec : Value -> RefWalk -> option (RefWalk * Value).

Fixpoint resolve_items (items : list Value) (w : RefWalk) : option (RefWalk * list Value) :=
  match items with
  | [] => Some (w, [])
  | item :: items =>
      walk! (w, v) := rec item w in
      walk! (w, vs) := resolve_items items w in
      Some (w, v :: vs)
  end.

(** The loops over the members of an object. *)
Fixpoint resolve_entries (f : string -> Value -> RefWalk -> option (RefWalk * Value)) (map : list (string * Value))
    (w : RefWalk) : option (RefWalk * list (string * Value)) :=
  match map with
  | [] => Some (w, [])
  | (key, value) :: map =>
      walk! (w, v) := f key value w in
      walk! (w, out) := resolve_entries f map w in
      Some (w, (key, v) :: out)
  end.

(** [RefWalk::resolve_schema_map]. *)
Definition resolve_schema_map (node : Value) (w : RefWalk) : option (RefWalk * Value) :=
  match node with
  | VObject map =>
      let '(w, ok) := spend 1 w in
      if negb ok then Some (w, EMPTY)
      else walk! (w, out) := resolve_entries (fun _ => rec) map w in Some (w, VObject out)
  | _ => rec node w
  end.

(** [RefWalk::resolve_member]. *)
Definition resolve_member (key : string) (value : Value) (w : RefWalk) : option (RefWalk * Value) :=
  match keyword_value key with
  | KeywordValue.Literal => let '(w, ok) := spend (count_nodes value) w in Some (w, if ok then value else EMPTY)
  | KeywordValue.SubschemaMap => resolve_schema_map value w
  | KeywordValue.Subschema | KeywordValue.SubschemaList | KeywordValue.Other => rec value w
  end.

(** [RefWalk::keep]. *)
Definition keep (name : string) (body : Value) (w : RefWalk) : option RefWalk :=
  if listed name (rw_started w) then Some w
  else walk! (w, resolved) := rec body (start_def w name) in Some (keep_def w name resolved).

(** [RefWalk::resolve_ref_target]. *)
Definition resolve_ref_target (reference : string) (inline_cyclic : bool) (w : RefWalk) : option (RefWalk * Value) :=
  if reference =s "#" then Some (mark_root w, VObject [("$ref", VString (def_ref root_name))])
  else match def_name reference with
  | None => Some (mark_unresolved w, EMPTY)
  | Some name =>
      match value_get defs name with
      | None => Some (mark_unresolved w, EMPTY)
      | Some target =>
          if listed name cyclic && negb inline_cyclic
          then walk! w := keep name target w in Some (w, VObject [("$ref", VString (def_ref name))])
          else rec target w
      end
  end.

(** The keywords beside a reference, laid over its target. *)
Definition siblings (map : list (string * Value)) : list (string * Value) :=
  List.filter (fun kv => negb (is_table_key kv.1)) map.
Definition overlay_members (resolved : Value) (members : list (string * Value)) : Value :=
  match resolved with
  | VObject out => VObject (fold_left (fun out kv => entry_insert out kv.1 kv.2) members out)
  | _ => resolved
  end.

(** [RefWalk::resolve_ref_node]. *)
Definition resolve_ref_node (map : list (string * Value)) (reference : string) (inline_cyclic : bool) (w : RefWalk) :
    option (RefWalk * Value) :=
  walk! (w, resolved) := resolve_ref_target reference inline_cyclic w in
  match resolved with
  | VObject _ =>
      walk! (w, members) := resolve_entries resolve_member (siblings map) w in
      Some (w, overlay_members resolved members)
  | _ => Some (w, resolved)
  end.

(** [RefWalk::resolve], its recursive calls through [rec]. *)
Definition resolve_step (node : Value) (w : RefWalk) : option (RefWalk * Value) :=
  let '(w, ok) := spend 1 w in
  if negb ok then Some (w, EMPTY)
  else match node with
  | VObject map =>
      match ref_of map with
      | Some reference => resolve_ref_node map reference false w
      | None =>
          walk! (w, out) := resolve_entries resolve_member (List.filter (fun kv => negb (kv.1 =s "$defs")) map) w in
          Some (w, VObject out)
      end
  | VArray items => walk! (w, out) := resolve_items items w in Some (w, VArray out)
  | other => Some (w, other)
  end.
End Step.

(** [RefWalk::resolve]: [None] when the fuel runs out. *)
Fixpoint resolve (fuel : nat) (node : Value) (w : RefWalk) : option (RefWalk * Value) :=
  match fuel with
  | O => None
  | S fuel => resolve_step (resolve fuel) node w
  end.

(** Every recursive call is paid for, so the budget bounds their depth. *)
Definition walk_fuel : nat := S (N.to_nat budget).

(** [RefWalk::resolve_document]. *)
Definition resolve_document (schema : Value) (w : RefWalk) : option (RefWalk * Value) :=
  match schema with
  | VObject map =>
      match ref_of map with
      | Some reference =>
          let '(w, ok) := spend 1 w in
          if negb ok then Some (w, EMPTY) else resolve_ref_node (resolve walk_fuel) map reference true w
      | None => resolve walk_fuel schema w
      end
  | _ => resolve walk_fuel schema w
  end.
End Walk.

(** [root_title]. *)
Definition root_title (schema : Value) : string :=
  match value_get schema "title" ≫= as_str with
  | Some title => if is_empty title then "Root" else title
  | None => "Root"
  end.

(** The loop of [root_definition_name]: a name longer than every taken one is
    free, so one more round than there are entries is enough. *)
Fixpoint free_name (fuel : nat) (defs : Value) (name : string) : string :=
  match fuel with
  | O => name
  | S fuel => if is_some (value_get defs name) then free_name fuel defs (name +:+ "_") else name
  end.

(** [root_definition_name]. *)
Definition root_definition_name (schema defs : Value) : string :=
  free_name (S (length (table_of defs))) defs (root_title schema).

(** [Map::remove]. *)
Definition without_entry (key : string) (v : Value) : Value :=
  match v with VObject map => VObject (List.filter (fun kv => negb (kv.1 =s key)) map) | _ => v end.

Definition no_issues : RefIssues := mkIssues false false.
Definition walk_new : RefWalk := mkWalk no_issues 0 [] [] false.

Section Inline.
  Context `{PercentEncoding}.

(** The end of [inline_refs]: the kept definitions enter the document. *)
Definition kept_table (root_name : string) (w : RefWalk) (resolved : Value) : list (string * Value) :=
  if rw_root_recursive w then entry_insert (rw_kept w) root_name (without_entry "$defs" resolved) else rw_kept w.

Definition with_table (resolved : Value) (kept : list (string * Value)) (issues : RefIssues) : Value * RefIssues :=
  match kept with
  | [] => (resolved, issues)
  | _ =>
      match resolved with
      | VObject map => (VObject (entry_insert map "$defs" (VObject kept)), issues)
      | _ => (resolved, mkIssues true (oversized issues))
      end
  end.

(** [inline_refs] under a node budget. *)
Definition inline_refs_within (budget : N) (schema : Value) : option (Value * RefIssues) :=
  let defs := default VNull (value_get schema "$defs") in
  let root_name := root_definition_name schema defs in
  walk! (w, resolved) := resolve_document budget defs (definitions_on_a_cycle defs) root_name schema walk_new in
  Some (with_table resolved (kept_table root_name w resolved) (rw_issues w)).

(** [inline_refs]; it always returns ([inlining_returns]). *)
Definition inline_refs (schema : Value) : Value * RefIssues :=
  default (VNull, mkIssues true true) (inline_refs_within MAX_INLINED_NODES schema).
End Inline.
