(* ===== verification/SchemaRefsProps.v ===== *)
(** Properties of the schema walk ([SchemaRefs]): definition names read back
    from their references, the search for cycles decides them, the walk always
    returns, what it returns stands alone, means what the source means and
    keeps within its budget. *)

From stdpp Require Import relations.
From S2P Require Import Prelude CoreTypes BlockName Text Lifecycle ConfigExpand SchemaRefs.

(** ** Names *)

Section Names.
  Context `{PercentEncoding}.

Definition pointer_escape (s : string) : string := replace_char "/" "~1" (replace_char "~" "~0" s).

Lemma pointer_escape_cons c s :
  pointer_escape (String c s)
  = (if Ascii.eqb c "~" then "~0" else if Ascii.eqb c "/" then "~1" else String c "") +:+ pointer_escape s.
Proof.
  unfold pointer_escape. cbn [replace_char]. destruct (Ascii.eqb c "~") eqn:E; [by rewrite replace_char_app|].
  cbn [replace_char]. by destruct (Ascii.eqb c "/").
Qed.

Lemma replace_go_other p a c r s : Ascii.eqb c a = false ->
  replace_go (String a p) r 0 (String c s) = String c (replace_go (String a p) r 0 s).
Proof. intros E. rewrite replace_go_cons. unfold starts_with. cbn [strip_prefix]. by rewrite Ascii.eqb_sym, E. Qed.

Lemma slashes_back s : replace "~1" "/" (pointer_escape s) = replace_char "~" "~0" s.
Proof.
  unfold replace. induction s as [|c s IH]; [done|]. rewrite pointer_escape_cons. cbn [replace_char].
  destruct (Ascii.eqb c "~") eqn:E; [rewrite <- IH; reflexivity|].
  destruct (Ascii.eqb c "/") eqn:E'; [apply Ascii.eqb_eq in E' as ->; rewrite <- IH; reflexivity|].
  rewrite <- IH. apply (replace_go_other "1" "~"), E.
Qed.

Lemma tildes_back s : replace "~0" "~" (replace_char "~" "~0" s) = s.
Proof.
  unfold replace. induction s as [|c s IH]; [done|]. cbn [replace_char].
  destruct (Ascii.eqb c "~") eqn:E; [apply Ascii.eqb_eq in E as ->; rewrite <- IH at 2; reflexivity|].
  rewrite <- IH at 2. apply (replace_go_other "0" "~"), E.
Qed.

Lemma decode_encode_ref_name name : decode_ref_name (encode_ref_name name) = Some name.
Proof.
  unfold decode_ref_name, encode_ref_name. rewrite percent_decode_encode. f_equal.
  change (replace "~0" "~" (replace "~1" "/" (pointer_escape name)) = name). by rewrite slashes_back, tildes_back.
Qed.

Lemma def_name_ref name : def_name (def_ref name) = Some name.
Proof. unfold def_name, def_ref. rewrite strip_prefix_app. apply decode_encode_ref_name. Qed.

Lemma def_ref_not_root name : (def_ref name =s "#") = false.
Proof. unfold def_ref, DEFS. by destruct (encode_ref_name name). Qed.
End Names.

(** ** The walk returns *)

Section Returns.
  Context `{PercentEncoding} (budget : N) (defs : Value) (cyclic : list string) (root_name : string).

(** A result, reached without giving back what was spent. *)
Definition returns {A} (w : RefWalk) (o : option (RefWalk * A)) : Prop :=
  exists w' a, o = Some (w', a) /\ (rw_emitted w <= rw_emitted w')%N.

(** The fuel a call needs: one unit per node the budget still has. *)
Definition paid (fuel : nat) (w : RefWalk) : Prop := (budget < rw_emitted w + N.of_nat fuel)%N /\ 0 < fuel.

Lemma returns_some {A} w w' (a : A) : (rw_emitted w <= rw_emitted w')%N -> returns w (Some (w', a)).
Proof. by exists w', a. Qed.

Lemma returns_bind {A B} w (o : option (RefWalk * A)) (k : RefWalk -> A -> option (RefWalk * B)) :
  returns w o -> (forall w' a, (rw_emitted w <= rw_emitted w')%N -> returns w' (k w' a)) ->
  returns w (walk! (w', a) := o in k w' a).
Proof.
  intros (w1 & a & -> & Hm) Hk. destruct (Hk w1 a Hm) as (w2 & b & -> & Hm'). apply returns_some. lia.
Qed.

Lemma spend_emitted n w w' ok : spend budget n w = (w', ok) -> rw_emitted w' = (rw_emitted w + n)%N.
Proof. unfold spend. destruct (_ <? _)%N; by intros [= <- <-]. Qed.

Lemma spend_within n w w' : spend budget n w = (w', true) -> (rw_emitted w' <= budget)%N.
Proof. unfold spend. destruct (_ <? _)%N eqn:E; intros [= <-]. apply N.ltb_ge in E. done. Qed.

Lemma paid_later fuel w w' : (rw_emitted w <= rw_emitted w')%N -> paid fuel w -> paid fuel w'.
Proof. unfold paid. lia. Qed.

Lemma paid_spent fuel w w' : spend budget 1 w = (w', true) -> paid (S fuel) w -> paid fuel w'.
Proof. intros Hs. pose proof (spend_emitted _ _ _ _ Hs). pose proof (spend_within _ _ _ Hs). unfold paid. lia. Qed.

Section Rec.
  Context (fuel : nat) (rec : Value -> RefWalk -> option (RefWalk * Value)).
  Context (Hrec : forall node w, paid fuel w -> returns w (rec node w)).

Lemma items_return items w : paid fuel w -> returns w (resolve_items rec items w).
Proof.
  revert w. induction items as [|item items IH]; intros w Hp; cbn; [by apply returns_some|].
  apply returns_bind; [auto|]. intros w1 v Hm. pose proof (paid_later _ _ _ Hm Hp).
  apply returns_bind; [auto|]. intros w2 vs Hm'. by apply returns_some.
Qed.

Lemma entries_return f map w :
  (forall k v w, paid fuel w -> returns w (f k v w)) -> paid fuel w -> returns w (resolve_entries f map w).
Proof.
  intros Hf. revert w. induction map as [|[k v] map IH]; intros w Hp; cbn; [by apply returns_some|].
  apply returns_bind; [auto|]. intros w1 v' Hm. pose proof (paid_later _ _ _ Hm Hp).
  apply returns_bind; [auto|]. intros w2 vs Hm'. by apply returns_some.
Qed.

Lemma member_returns key value w : paid fuel w -> returns w (resolve_member budget rec key value w).
Proof.
  intros Hp. unfold resolve_member. destruct (keyword_value key); auto.
  - unfold resolve_schema_map. destruct value as [| | | | |map]; auto.
    destruct (spend budget 1 w) as [w1 ok] eqn:Es. pose proof (spend_emitted _ _ _ _ Es).
    destruct ok; cbn [negb]; [|apply returns_some; lia].
    assert (Hm : (rw_emitted w <= rw_emitted w1)%N) by lia.
    destruct (entries_return (fun _ => rec) map w1) as (w2 & out & -> & Hm'); [auto|by eapply paid_later|].
    apply returns_some. lia.
  - destruct (spend budget (count_nodes value) w) as [w1 ok] eqn:Es. pose proof (spend_emitted _ _ _ _ Es).
    apply returns_some. lia.
Qed.

Lemma ref_node_returns map reference inline w :
  paid fuel w -> returns w (resolve_ref_node budget defs cyclic root_name rec map reference inline w).
Proof.
  intros Hp. unfold resolve_ref_node. apply returns_bind.
  - unfold resolve_ref_target, keep. destruct (reference =s "#"); [by apply returns_some|].
    destruct (def_name reference); [|by apply returns_some]. destruct (value_get defs _) as [target|]; [|by apply returns_some].
    destruct (_ && _); [|auto]. destruct (listed _ (rw_started w)); [by apply returns_some|].
    destruct (Hrec target (start_def w s)) as (w1 & v & -> & Hm); [exact Hp|]. by apply returns_some.
  - intros w1 resolved Hm. pose proof (paid_later _ _ _ Hm Hp). destruct resolved; try by apply returns_some.
    apply returns_bind; [by apply entries_return; [apply member_returns|]|]. intros w2 ms Hm'. by apply returns_some.
Qed.
End Rec.

Lemma resolve_returns fuel node w : paid fuel w -> returns w (resolve budget defs cyclic root_name fuel node w).
Proof.
  revert node w. induction fuel as [|fuel IH]; intros node w Hp; [destruct Hp; lia|].
  cbn [resolve]. unfold resolve_step. destruct (spend budget 1 w) as [w1 ok] eqn:Es.
  pose proof (spend_emitted _ _ _ _ Es). destruct ok; cbn [negb]; [|apply returns_some; lia].
  pose proof (paid_spent _ _ _ Es Hp) as Hp1.
  assert (Hs : forall {A} (o : option (RefWalk * A)), returns w1 o -> returns w o).
  { intros A o (w2 & a & -> & Hm). apply returns_some. lia. }
  apply Hs. destruct node; try by apply returns_some.
  - apply returns_bind; [by apply (items_return fuel)|]. intros. by apply returns_some.
  - destruct (ref_of l); [by apply (ref_node_returns fuel)|].
    apply returns_bind; [by apply (entries_return fuel); [apply (member_returns fuel)|]|]. intros. by apply returns_some.
Qed.

Lemma document_returns schema : returns walk_new (resolve_document budget defs cyclic root_name schema walk_new).
Proof.
  assert (Hp : paid (walk_fuel budget) walk_new) by (unfold paid, walk_fuel; cbn; lia).
  unfold resolve_document. destruct schema; try by apply resolve_returns. destruct (ref_of l); [|by apply resolve_returns].
  destruct (spend budget 1 walk_new) as [w1 ok] eqn:Es. pose proof (spend_emitted _ _ _ _ Es).
  destruct ok; cbn [negb]; [|apply returns_some; lia].
  destruct (ref_node_returns (walk_fuel budget) (resolve budget defs cyclic root_name (walk_fuel budget))
    (fun node w => resolve_returns _ node w) l s true w1) as (w2 & v & -> & Hm); [eapply paid_later, Hp; lia|].
  apply returns_some. lia.
Qed.
End Returns.

Lemma inline_within_some `{PercentEncoding} budget schema : exists out, inline_refs_within budget schema = Some out.
Proof.
  unfold inline_refs_within. destruct (document_returns budget (default VNull (value_get schema "$defs"))
    (definitions_on_a_cycle (default VNull (value_get schema "$defs")))
    (root_definition_name schema (default VNull (value_get schema "$defs"))) schema) as (w & v & -> & _). eauto.
Qed.

(** ** What the walk makes of a schema

    [inlines node v]: [v] is [node] with each reference replaced by what it
    names, or kept as a reference to a definition that was started, or to the
    root. *)

Definition is_leaf (v : Value) : bool := match v with VArray _ | VObject _ => false | _ => true end.
Definition is_object_value (v : Value) : bool := match v with VObject _ => true | _ => false end.
Definition not_defs (map : list (string * Value)) : list (string * Value) :=
  List.filter (fun kv => negb (kv.1 =s "$defs")) map.

Section Inlines.
  Context `{PercentEncoding} (budget : N) (defs : Value) (cyclic : list string) (root_name : string).

Inductive inlines (S : list string) (R : bool) : Value -> Value -> Prop :=
| in_leaf v : is_leaf v = true -> inlines S R v v
| in_array items out : inlines_items S R items out -> inlines S R (VArray items) (VArray out)
| in_object map out :
    ref_of map = None -> inlines_members S R (not_defs map) out -> inlines S R (VObject map) (VObject out)
| in_root map out :
    ref_of map = Some "#" -> Is_true R -> inlines_members S R (siblings map) out ->
    inlines S R (VObject map) (overlay_members (VObject [("$ref", VString (def_ref root_name))]) out)
| in_kept map reference name body out :
    ref_of map = Some reference -> reference <> "#" -> def_name reference = Some name ->
    value_get defs name = Some body -> listed name cyclic = true -> name ∈ S ->
    inlines_members S R (siblings map) out ->
    inlines S R (VObject map) (overlay_members (VObject [("$ref", VString (def_ref name))]) out)
| in_inlined map reference name body v out :
    ref_of map = Some reference -> reference <> "#" -> def_name reference = Some name ->
    value_get defs name = Some body -> inlines S R body v ->
    (is_object_value v = true -> inlines_members S R (siblings map) out) ->
    inlines S R (VObject map) (overlay_members v out)
with inlines_items (S : list string) (R : bool) : list Value -> list Value -> Prop :=
| ii_nil : inlines_items S R [] []
| ii_cons item v items out : inlines S R item v -> inlines_items S R items out -> inlines_items S R (item :: items) (v :: out)
with inlines_members (S : list string) (R : bool) : list (string * Value) -> list (string * Value) -> Prop :=
| im_nil : inlines_members S R [] []
| im_cons key value v map out :
    inlines_member S R key value v -> inlines_members S R map out ->
    inlines_members S R ((key, value) :: map) ((key, v) :: out)
with inlines_member (S : list string) (R : bool) : string -> Value -> Value -> Prop :=
| ik_literal key v : keyword_value key = KeywordValue.Literal -> inlines_member S R key v v
| ik_map key map out :
    keyword_value key = KeywordValue.SubschemaMap -> inlines_each S R map out ->
    inlines_member S R key (VObject map) (VObject out)
| ik_schema key value v :
    keyword_value key <> KeywordValue.Literal ->
    (keyword_value key = KeywordValue.SubschemaMap -> is_object_value value = false) ->
    inlines S R value v -> inlines_member S R key value v
with inlines_each (S : list string) (R : bool) : list (string * Value) -> list (string * Value) -> Prop :=
| ie_nil : inlines_each S R [] []
| ie_cons key value v map out :
    inlines S R value v -> inlines_each S R map out -> inlines_each S R ((key, value) :: map) ((key, v) :: out).

Scheme inlines_min := Minimality for inlines Sort Prop
with inlines_items_min := Minimality for inlines_items Sort Prop
with inlines_members_min := Minimality for inlines_members Sort Prop
with inlines_member_min := Minimality for inlines_member Sort Prop
with inlines_each_min := Minimality for inlines_each Sort Prop.
Combined Scheme inlines_mutual from inlines_min, inlines_items_min, inlines_members_min, inlines_member_min, inlines_each_min.

(** ** What a stretch of the walk did *)

Definition sum_nodes (l : list (string * Value)) : N := foldr (fun kv n => (count_nodes kv.2 + n)%N) 0%N l.
Definition list_nodes (l : list Value) : N := foldr (fun v n => (count_nodes v + n)%N) 0%N l.

Definition clean (w : RefWalk) : Prop := rw_issues w = no_issues.
Definition keys_started (w : RefWalk) : Prop := forall k, is_Some (assoc k (rw_kept w)) -> k ∈ rw_started w.

(** A kept body is what its definition inlines to. *)
Definition kept_ok (w : RefWalk) (k : string) (b : Value) : Prop :=
  exists body, value_get defs k = Some body /\ listed k cyclic = true
  /\ forall S R, rw_started w ⊆ S -> (rw_root_recursive w = true -> R = true) -> inlines S R body b.

(** From [w] to [w']: nothing is forgotten, definitions started are kept by
    the end and, without an issue, [Q] holds of what was started, kept bodies
    are right and every node was paid for at half price. *)
Record walked (w w' : RefWalk) (nodes : N) (Q : list string -> bool -> Prop) : Prop := {
  wk_clean : clean w' -> clean w;
  wk_keys : keys_started w -> keys_started w';
  wk_started : rw_started w ⊆ rw_started w';
  wk_root : rw_root_recursive w = true -> rw_root_recursive w' = true;
  wk_kept : forall k b, assoc k (rw_kept w) = Some b -> assoc k (rw_kept w') = Some b;
  wk_new : forall k, is_Some (assoc k (rw_kept w')) -> is_Some (assoc k (rw_kept w)) \/ k ∉ rw_started w;
  wk_done : forall k, k ∈ rw_started w' -> k ∈ rw_started w \/ is_Some (assoc k (rw_kept w'));
  wk_budget : clean w' -> (rw_emitted w <= budget)%N -> (rw_emitted w' <= budget)%N;
  wk_facts : clean w' ->
    (forall S R, rw_started w' ⊆ S -> (rw_root_recursive w' = true -> R = true) -> Q S R)
    /\ (forall k b, assoc k (rw_kept w') = Some b -> assoc k (rw_kept w) = Some b \/ kept_ok w' k b)
    /\ (nodes + sum_nodes (rw_kept w') + 2 * rw_emitted w <= 2 * rw_emitted w' + sum_nodes (rw_kept w))%N
}.

Lemma kept_ok_later w w' nodes Q k b : walked w w' nodes Q -> kept_ok w k b -> kept_ok w' k b.
Proof.
  intros Hw (body & Hb & Hc & Hi). exists body. split_and!; [done..|]. intros S R HS HR. apply Hi.
  - etrans; [apply (wk_started _ _ _ _ Hw)|done].
  - intros Hr. apply HR, (wk_root _ _ _ _ Hw), Hr.
Qed.

Lemma walked_trans w w1 w2 n1 n2 Q1 Q2 (nodes : N) (Q : list string -> bool -> Prop) :
  walked w w1 n1 Q1 -> walked w1 w2 n2 Q2 -> (nodes <= n1 + n2)%N -> (forall S R, Q1 S R -> Q2 S R -> Q S R) ->
  walked w w2 nodes Q.
Proof.
  intros H1 H2 Hn HQ.
  assert (Hl : forall k b, kept_ok w1 k b -> kept_ok w2 k b) by (intros k b; by eapply kept_ok_later).
  destruct H1, H2. split; auto.
  - by etrans.
  - intros k Hk. destruct (wk_new1 k Hk) as [Hk'|Hk']; [auto|right; auto].
  - intros k Hk. destruct (wk_done1 k Hk) as [Hk'|Hk']; [|auto].
    destruct (wk_done0 k Hk') as [|[b Hb]]; [auto|right; eauto].
  - intros Hc. destruct (wk_facts1 Hc) as (Hq2 & Hk2 & Hn2). destruct (wk_facts0 (wk_clean1 Hc)) as (Hq1 & Hk1 & Hn1).
    split_and!; [|..|lia].
    + intros S R HS HR. apply HQ; [apply Hq1; [by etrans|auto]|auto].
    + intros k b Hb. destruct (Hk2 k b Hb) as [Hb'|]; [|auto]. destruct (Hk1 k b Hb') as [|Hok]; auto.
Qed.

Lemma walked_refl w (Q : list string -> bool -> Prop) :
  (forall S R, rw_started w ⊆ S -> (rw_root_recursive w = true -> R = true) -> Q S R) -> walked w w 0 Q.
Proof. intros HQ. split; auto. intros _. split_and!; [done|auto|lia]. Qed.

Lemma walked_weaken w w' n nodes Q (Q' : list string -> bool -> Prop) :
  walked w w' n Q -> (nodes <= n)%N -> (forall S R, Q S R -> Q' S R) -> walked w w' nodes Q'.
Proof.
  intros Hw Hn HQ. apply (walked_trans w w' w' n 0 Q (fun _ _ => True)); [done|by apply walked_refl|lia|auto].
Qed.

Lemma walked_same w w' nodes Q :
  rw_kept w' = rw_kept w -> rw_started w' = rw_started w -> rw_root_recursive w' = rw_root_recursive w ->
  ~ clean w' -> walked w w' nodes Q.
Proof.
  intros Hk Hs Hr Hc. split; rewrite ?Hk, ?Hs, ?Hr; auto; try done. intros Hks k. unfold keys_started in Hks.
  rewrite Hk, Hs. apply Hks.
Qed.

Lemma spend_cut n w w' nodes Q : spend budget n w = (w', false) -> walked w w' nodes Q.
Proof. unfold spend. destruct (_ <? _)%N; intros [= <-]. by apply walked_same. Qed.

Lemma spend_paid n w w' : spend budget n w = (w', true) -> walked w w' (2 * n) (fun _ _ => True).
Proof.
  intros Hs. pose proof (spend_within _ _ _ _ Hs) as Hb. revert Hs.
  unfold spend. destruct (_ <? _)%N; intros [= <-]. split; cbn [rw_kept rw_started rw_root_recursive rw_emitted] in *; auto.
  intros Hc. split_and!; [done|auto|lia].
Qed.

Lemma sum_nodes_cons kv l : sum_nodes (kv :: l) = (count_nodes kv.2 + sum_nodes l)%N.
Proof. reflexivity. Qed.

Lemma sum_nodes_insert_new l k v : assoc k l = None -> sum_nodes (entry_insert l k v) = (sum_nodes l + count_nodes v)%N.
Proof.
  induction l as [|[k' v'] l IH]; cbn [entry_insert assoc]; [intros _; rewrite sum_nodes_cons; cbn [snd]; lia|].
  destruct (k' =s k); [done|]. intros Hk. rewrite !sum_nodes_cons, IH by done. lia.
Qed.

Lemma sum_nodes_insert l k v : (sum_nodes (entry_insert l k v) <= sum_nodes l + count_nodes v)%N.
Proof.
  induction l as [|[k' v'] l IH]; cbn [entry_insert]; [rewrite sum_nodes_cons; cbn [snd]; lia|].
  destruct (k' =s k); rewrite !sum_nodes_cons; cbn [snd]; lia.
Qed.

Lemma count_object l : count_nodes (VObject l) = (1 + sum_nodes l)%N.
Proof. induction l as [|[k v] l IH]; [done|]. cbn [count_nodes] in *. rewrite sum_nodes_cons. cbn [snd]. lia. Qed.

Lemma list_nodes_cons v l : list_nodes (v :: l) = (count_nodes v + list_nodes l)%N.
Proof. reflexivity. Qed.

Lemma count_array l : count_nodes (VArray l) = (1 + list_nodes l)%N.
Proof. induction l as [|v l IH]; [done|]. rewrite list_nodes_cons. cbn [count_nodes] in *. lia. Qed.

Lemma overlay_nodes v members : (count_nodes (overlay_members v members) <= count_nodes v + sum_nodes members)%N.
Proof.
  destruct v as [| | | | |out]; cbn [overlay_members]; try lia. rewrite !count_object. revert out.
  induction members as [|[k v] members IH]; intros out; cbn [fold_left fst snd]; [lia|].
  etrans; [apply IH|]. pose proof (sum_nodes_insert out k v). rewrite sum_nodes_cons. cbn [snd]. lia.
Qed.

Lemma members_of_Forall2 S R map out :
  Forall2 (fun kv kv' => kv'.1 = kv.1 /\ inlines_member S R kv.1 kv.2 kv'.2) map out -> inlines_members S R map out.
Proof. induction 1 as [|[k v] [k' v'] map out [Hk Hi] _ IH]; [constructor|]. cbn in *. subst. by constructor. Qed.

Lemma each_of_Forall2 S R map out :
  Forall2 (fun kv kv' => kv'.1 = kv.1 /\ inlines S R kv.2 kv'.2) map out -> inlines_each S R map out.
Proof. induction 1 as [|[k v] [k' v'] map out [Hk Hi] _ IH]; [constructor|]. cbn in *. subst. by constructor. Qed.

Section Step.
  Context (rec : Value -> RefWalk -> option (RefWalk * Value)).
  Context (Hrec : forall node w w' v, keys_started w -> rec node w = Some (w', v) ->
                    walked w w' (count_nodes v) (fun S R => inlines S R node v)).

Lemma keep_walked name body w w' :
  keys_started w -> value_get defs name = Some body -> listed name cyclic = true -> keep rec name body w = Some w' ->
  walked w w' 0 (fun S R => name ∈ S).
Proof.
  intros Hk Hb Hc. unfold keep. destruct (listed name (rw_started w)) eqn:Es.
  { intros [= <-]. apply walked_refl. intros S R HS _. apply HS. apply existsb_exists in Es as (x & Hx & E).
    apply eqs_true in E as ->. by apply list_elem_of_In. }
  assert (Hns : name ∉ rw_started w).
  { intros Hin. apply not_true_iff_false in Es. apply Es, existsb_exists. exists name. split; [by apply list_elem_of_In|apply eqs_refl]. }
  assert (Hk' : keys_started (start_def w name)) by (intros k Hi; right; auto).
  destruct (rec body (start_def w name)) as [[w2 v]|] eqn:Er; [|done]. intros [= <-].
  destruct (Hrec _ _ _ _ Hk' Er) as [Hcl Hks Hst Hro Hke Hne Hdo Hbu Hfa]. cbn [start_def rw_kept rw_started rw_root_recursive] in *.
  assert (Hnk : assoc name (rw_kept w2) = None).
  { destruct (assoc name (rw_kept w2)) as [b|] eqn:E; [|done]. exfalso. destruct (Hne name) as [Hi|Hi]; [by rewrite E| |].
    - apply Hns, Hk, Hi.
    - apply Hi. left. }
  assert (Hold : forall k, k ∈ rw_started w -> k ∈ rw_started w2) by (intros k Hi; apply Hst; by right).
  split; cbn [keep_def rw_kept rw_started rw_root_recursive rw_emitted]; auto.
  - intros _ k. cbn. rewrite assoc_entry_insert. destruct (name =s k) eqn:E; [|by apply Hks].
    intros _. apply eqs_true in E as <-. apply Hst. left.
  - intros k b Hkb. rewrite assoc_entry_insert. destruct (name =s k) eqn:E; [|auto].
    apply eqs_true in E as <-. exfalso. apply Hns, Hk. by rewrite Hkb.
  - intros k. rewrite assoc_entry_insert. destruct (name =s k) eqn:E; [apply eqs_true in E as <-; by right|].
    intros Hi. destruct (Hne k Hi) as [|Hn]; [by left|right]. intros Hin. apply Hn. by right.
  - intros k Hin. rewrite assoc_entry_insert. destruct (name =s k) eqn:E; [by right; eexists|].
    destruct (Hdo k Hin) as [Hs|]; [|by right]. apply elem_of_cons in Hs as [->|]; [by rewrite eqs_refl in E|by left].
  - intros Hcw. destruct (Hfa Hcw) as (Hq & Hok & Hn). split_and!.
    + intros S R HS _. apply HS, Hst. left.
    + intros k b. rewrite assoc_entry_insert. destruct (name =s k) eqn:E.
      * apply eqs_true in E as <-. intros [= <-]. right. exists body. by split_and!.
      * intros Hkb. destruct (Hok k b Hkb) as [|Hr]; [by left|by right].
    + rewrite sum_nodes_insert_new by done. cbn in Hn. lia.
Qed.

Lemma items_walked items w w' out : keys_started w -> resolve_items rec items w = Some (w', out) ->
  walked w w' (list_nodes out) (fun S R => inlines_items S R items out).
Proof.
  revert w out. induction items as [|item items IH]; intros w out Hk; cbn.
  { intros [= <- <-]. apply walked_refl. constructor. }
  destruct (rec item w) as [[w1 v]|] eqn:E; [|done]. destruct (resolve_items rec items w1) as [[w2 vs]|] eqn:E'; [|done].
  intros [= <- <-]. pose proof (Hrec _ _ _ _ Hk E) as H1. pose proof (IH _ _ (wk_keys _ _ _ _ H1 Hk) E') as H2.
  eapply walked_trans; [exact H1|exact H2|rewrite list_nodes_cons; lia|]. by constructor.
Qed.

Lemma entries_walked f (P : list string -> bool -> string -> Value -> Value -> Prop) map w w' out :
  (forall k v w w' o, keys_started w -> f k v w = Some (w', o) -> walked w w' (count_nodes o) (fun S R => P S R k v o)) ->
  keys_started w -> resolve_entries f map w = Some (w', out) ->
  walked w w' (sum_nodes out) (fun S R => Forall2 (fun kv kv' => kv'.1 = kv.1 /\ P S R kv.1 kv.2 kv'.2) map out).
Proof.
  intros Hf. revert w out. induction map as [|[k v] map IH]; intros w out Hk; cbn.
  { intros [= <- <-]. apply walked_refl. constructor. }
  destruct (f k v w) as [[w1 o]|] eqn:E; [|done]. destruct (resolve_entries f map w1) as [[w2 os]|] eqn:E'; [|done].
  intros [= <- <-]. pose proof (Hf _ _ _ _ _ Hk E) as H1. pose proof (IH _ _ (wk_keys _ _ _ _ H1 Hk) E') as H2.
  eapply walked_trans; [exact H1|exact H2|rewrite sum_nodes_cons; cbn [snd]; lia|]. by constructor.
Qed.

Lemma member_walked key value w w' v : keys_started w -> resolve_member budget rec key value w = Some (w', v) ->
  walked w w' (count_nodes v) (fun S R => inlines_member S R key value v).
Proof.
  intros Hk. unfold resolve_member. destruct (keyword_value key) eqn:Ek;
    try (intros Hr; apply (walked_weaken w w' _ _ _ _ (Hrec _ _ _ _ Hk Hr)); [done|]; intros S R Hi; apply ik_schema; by rewrite ?Ek).
  - unfold resolve_schema_map. destruct value as [| | | | |map];
      try (intros Hr; apply (walked_weaken w w' _ _ _ _ (Hrec _ _ _ _ Hk Hr)); [done|]; intros S R Hi; apply ik_schema; by rewrite ?Ek).
    destruct (spend budget 1 w) as [w1 []] eqn:Es; cbn [negb]; [|intros [= <- <-]; by eapply spend_cut].
    pose proof (spend_paid _ _ _ Es) as H1.
    destruct (resolve_entries (fun _ => rec) map w1) as [[w2 out]|] eqn:E; [|done]. intros [= <- <-].
    assert (Hk1 : keys_started w1) by exact (wk_keys _ _ _ _ H1 Hk).
    pose proof (entries_walked _ (fun S R _ => inlines S R) _ _ _ _ (fun _ => Hrec) Hk1 E) as H2.
    eapply walked_trans; [exact H1|exact H2|rewrite count_object; lia|]. intros S R _ Hf. apply ik_map; [done|].
    by apply each_of_Forall2.
  - destruct (spend budget (count_nodes value) w) as [w1 []] eqn:Es; intros [= <- <-]; [|by eapply spend_cut].
    apply (walked_weaken w w1 _ _ _ _ (spend_paid _ _ _ Es)); [lia|]. intros S R _. by apply ik_literal.
Qed.

(** The target of a reference, and what it takes for the node to be inlined. *)
Lemma target_walked reference inline w w' v :
  keys_started w -> resolve_ref_target defs cyclic root_name rec reference inline w = Some (w', v) ->
  walked w w' (count_nodes v - 2) (fun S R => forall map out, ref_of map = Some reference ->
    (is_object_value v = true -> inlines_members S R (siblings map) out) -> inlines S R (VObject map) (overlay_members v out)).
Proof.
  intros Hk. unfold resolve_ref_target. destruct (reference =s "#") eqn:Er.
  { intros [= <- <-]. apply eqs_true in Er as ->. split; cbn [mark_root rw_kept rw_started rw_root_recursive rw_emitted]; auto.
    intros _. split_and!; [|auto|change (count_nodes _) with 2%N; lia]. intros S R _ HR map out Hm Ho.
    apply in_root; [done|apply Is_true_eq_left, HR; done|auto]. }
  assert (Hr : reference <> "#") by (intros ->; by rewrite eqs_refl in Er).
  destruct (def_name reference) as [name|] eqn:En; [|intros [= <- <-]; by apply walked_same].
  destruct (value_get defs name) as [body|] eqn:Eb; [|intros [= <- <-]; by apply walked_same].
  destruct (listed name cyclic && negb inline) eqn:Ec.
  - apply andb_prop in Ec as [Ec _]. destruct (keep rec name body w) as [w1|] eqn:Ek; [|done]. intros [= <- <-].
    eapply walked_weaken; [by eapply keep_walked|change (count_nodes _) with 2%N; lia|]. intros S R Hs map out Hm Ho. eapply in_kept; eauto.
  - intros Hi. eapply walked_weaken; [by eapply Hrec|lia|]. intros S R Hi' map out Hm Ho. eapply in_inlined; eauto.
Qed.

Lemma ref_node_walked map reference inline w w' v :
  keys_started w -> ref_of map = Some reference ->
  resolve_ref_node budget defs cyclic root_name rec map reference inline w = Some (w', v) ->
  walked w w' (count_nodes v - 2) (fun S R => inlines S R (VObject map) v).
Proof.
  intros Hk Hm. unfold resolve_ref_node.
  destruct (resolve_ref_target _ _ _ _ _ _ w) as [[w1 t]|] eqn:Et; [|done].
  pose proof (target_walked _ _ _ _ _ Hk Et) as H1. pose proof (wk_keys _ _ _ _ H1 Hk) as Hk1.
  destruct t as [| | | | |o];
    try (intros [= <- <-]; apply (walked_weaken _ _ _ _ _ _ H1); [lia|]; intros S R HQ; by apply (HQ map [])).
  destruct (resolve_entries _ (siblings map) w1) as [[w2 out]|] eqn:Eo; [|done]. intros [= <- <-].
  pose proof (entries_walked _ inlines_member _ _ _ _ member_walked Hk1 Eo) as H2.
  pose proof (overlay_nodes (VObject o) out) as Hn. cbn [overlay_members] in Hn.
  eapply walked_trans; [exact H1|exact H2|lia|].
  intros S R HQ Hf. apply HQ; [done|]. intros _. by apply members_of_Forall2.
Qed.
End Step.

Lemma resolve_walked fuel node w w' v :
  keys_started w -> resolve budget defs cyclic root_name fuel node w = Some (w', v) ->
  walked w w' (count_nodes v) (fun S R => inlines S R node v).
Proof.
  revert node w w' v. induction fuel as [|fuel IH]; intros node w w' v Hk; [done|]. cbn [resolve]. unfold resolve_step.
  destruct (spend budget 1 w) as [w1 []] eqn:Es; cbn [negb]; [|intros [= <- <-]; by eapply spend_cut].
  pose proof (spend_paid _ _ _ Es) as H1. pose proof (wk_keys _ _ _ _ H1 Hk) as Hk1.
  destruct node as [| | | |items|map];
    try (intros [= <- <-]; apply (walked_weaken _ _ _ _ _ _ H1); [cbn; lia|]; intros S R _; by apply in_leaf).
  - destruct (resolve_items _ items w1) as [[w2 out]|] eqn:E; [|done]. intros [= <- <-].
    eapply walked_trans; [exact H1|exact (items_walked _ IH _ _ _ _ Hk1 E)|rewrite count_array; lia|].
    intros S R _. apply in_array.
  - destruct (ref_of map) as [r|] eqn:Er.
    + intros Hr. eapply walked_trans; [exact H1|exact (ref_node_walked _ IH _ _ _ _ _ _ Hk1 Er Hr)|lia|]. auto.
    + destruct (resolve_entries _ _ w1) as [[w2 out]|] eqn:E; [|done]. intros [= <- <-].
      eapply walked_trans; [exact H1|exact (entries_walked _ inlines_member _ _ _ _ (member_walked _ IH) Hk1 E)
        |rewrite count_object; lia|].
      intros S R _ Hf. apply in_object; [done|]. by apply members_of_Forall2.
Qed.

Lemma document_walked schema w' v :
  resolve_document budget defs cyclic root_name schema walk_new = Some (w', v) ->
  walked walk_new w' (count_nodes v) (fun S R => inlines S R schema v).
Proof.
  assert (Hk : keys_started walk_new) by (intros k []; done).
  unfold resolve_document. destruct schema as [| | | | |map]; try by apply resolve_walked.
  destruct (ref_of map) as [r|] eqn:Er; [|by apply resolve_walked].
  destruct (spend budget 1 walk_new) as [w1 []] eqn:Es; cbn [negb]; [|intros [= <- <-]; by eapply spend_cut].
  pose proof (spend_paid _ _ _ Es) as H1. pose proof (wk_keys _ _ _ _ H1 Hk) as Hk1. intros Hr.
  eapply walked_trans; [exact H1|eapply ref_node_walked; [|exact Hk1|exact Er|exact Hr]|lia|auto].
  intros node w w2 v2. apply resolve_walked.
Qed.
End Inlines.

(** ** The document *)

(** The table of a document, and what a reference inside it names. *)
Definition table_of_document (doc : Value) : Value := default VNull (value_get doc "$defs").
Definition target `{PercentEncoding} (doc : Value) (reference : string) : option Value :=
  if reference =s "#" then Some doc else def_name reference ≫= value_get (table_of_document doc).

Definition root_name_of (schema : Value) : string := root_definition_name schema (table_of_document schema).

Fixpoint underscores (n : nat) : string := match n with O => "" | S n => String "_" (underscores n) end.

Lemma underscores_length n : String.length (underscores n) = n.
Proof. induction n as [|n IH]; cbn; [done|by rewrite IH]. Qed.

Lemma free_name_taken fuel defs name :
  is_Some (value_get defs (free_name fuel defs name)) ->
  forall i, i <= fuel -> is_Some (value_get defs (name +:+ underscores i)).
Proof.
  revert name. induction fuel as [|fuel IH]; intros name; cbn [free_name].
  - intros Hs i Hi. assert (i = 0) as -> by lia. by rewrite str_app_nil_r.
  - destruct (value_get defs name) as [v|] eqn:E; cbn [is_some]; [|intros [x Hx]; congruence].
    intros Hs [|i] Hi; [rewrite str_app_nil_r, E; eauto|].
    specialize (IH _ Hs i). rewrite <- str_app_assoc in IH. apply IH. lia.
Qed.

Lemma root_name_free schema : value_get (table_of_document schema) (root_name_of schema) = None.
Proof.
  set (defs := table_of_document schema). unfold root_name_of, root_definition_name. fold defs.
  destruct (value_get defs (free_name _ defs _)) as [v|] eqn:E; [|done]. exfalso.
  set (name := root_title schema) in *. set (fuel := S (length (table_of defs))) in *.
  assert (Ht : forall i, i <= fuel -> is_Some (value_get defs (name +:+ underscores i))) by (apply free_name_taken; eauto).
  assert (Hl : length (map (fun i => name +:+ underscores i) (seq 0 (S fuel))) <= length (map fst (table_of defs))).
  { apply NoDup_incl_length.
    - apply NoDup_ListNoDup, NoDup_fmap_2; [|apply NoDup_ListNoDup, seq_NoDup]. intros i j Hij.
      apply str_app_inj_l in Hij. rewrite <- (underscores_length i), Hij. apply underscores_length.
    - intros x Hx. apply in_map_iff in Hx as (i & <- & Hi). apply in_seq in Hi. destruct (Ht i ltac:(lia)) as [b Hb].
      destruct defs as [| | | | |l]; try done. cbn in Hb |- *. apply assoc_In in Hb.
      apply list_elem_of_In. by apply (list_elem_of_fmap_2 fst) in Hb. }
  rewrite !length_map, length_seq in Hl. unfold fuel in Hl. lia.
Qed.

Lemma filter_none {A} (key : string) (l : list (string * A)) :
  assoc key l = None -> List.filter (fun kv => negb (kv.1 =s key)) l = l.
Proof.
  induction l as [|[k v] l IH]; cbn; [done|]. destruct (k =s key); [done|]. intros Hn. cbn. by rewrite IH.
Qed.

Lemma filter_insert {A} (key : string) (l : list (string * A)) v :
  List.filter (fun kv => negb (kv.1 =s key)) (entry_insert l key v) = List.filter (fun kv => negb (kv.1 =s key)) l.
Proof.
  induction l as [|[k w] l IH]; cbn; [by rewrite eqs_refl|]. destruct (k =s key) eqn:E; cbn; rewrite E; [done|].
  cbn. by rewrite IH.
Qed.

Lemma assoc_filter {A} (f : string * A -> bool) (l : list (string * A)) k :
  (forall v, f (k, v) = true) -> assoc k (List.filter f l) = assoc k l.
Proof.
  intros Hf. induction l as [|[k' v] l IH]; cbn; [done|]. destruct (k' =s k) eqn:E.
  - apply eqs_true in E as ->. rewrite Hf. cbn. by rewrite eqs_refl.
  - destruct (f (k', v)); cbn; rewrite ?E; done.
Qed.

Lemma assoc_filter_none {A} (f : string * A -> bool) (l : list (string * A)) k :
  (forall v, f (k, v) = false) -> assoc k (List.filter f l) = None.
Proof.
  intros Hf. induction l as [|[k' v] l IH]; cbn; [done|]. destruct (f (k', v)) eqn:E; cbn; [|done].
  destruct (k' =s k) eqn:E'; [|done]. apply eqs_true in E' as ->. by rewrite Hf in E.
Qed.

(** Laying members over an object, entry by entry. *)
Definition insert_all (out members : list (string * Value)) : list (string * Value) :=
  fold_left (fun out kv => entry_insert out kv.1 kv.2) members out.

Lemma overlay_object out members : overlay_members (VObject out) members = VObject (insert_all out members).
Proof. reflexivity. Qed.

Lemma overlay_nonobject v members : is_object_value v = false -> overlay_members v members = v.
Proof. by destruct v. Qed.

Lemma assoc_insert_all out members k :
  k ∉ members.*1 -> assoc k (insert_all out members) = assoc k out.
Proof.
  revert out. induction members as [|[k' v] members IH]; intros out Hk; [done|]. cbn in Hk.
  apply not_elem_of_cons in Hk as [Hne Hk]. unfold insert_all in *. cbn [fold_left fst snd]. rewrite IH by done.
  rewrite assoc_entry_insert. destruct (k' =s k) eqn:E; [|done]. by apply eqs_true in E as ->.
Qed.

Lemma insert_all_In out members kv : kv ∈ insert_all out members -> kv ∈ out \/ kv ∈ members.
Proof.
  revert out. induction members as [|[k v] members IH]; intros out Hin; [by left|]. unfold insert_all in *.
  cbn [fold_left fst snd] in Hin. destruct (IH _ Hin) as [Hin'|]; [|right; by right].
  clear -Hin'. induction out as [|[k' v'] out IH]; cbn in Hin'; [right; apply list_elem_of_singleton in Hin' as ->; left|].
  destruct (k' =s k) eqn:E.
  - apply eqs_true in E as ->. apply elem_of_cons in Hin' as [->|Hin']; [right; left|left; by right].
  - apply elem_of_cons in Hin' as [->|Hin']; [left; left|]. destruct (IH Hin') as [|Hr]; [left; by right|by right].
Qed.

Section Shape.
  Context `{PercentEncoding} (defs : Value) (cyclic : list string) (root_name : string) (S : list string) (R : bool).
  #[local] Abbreviation inl := (inlines defs cyclic root_name S R).
  #[local] Abbreviation inl_members := (inlines_members defs cyclic root_name S R).

Lemma members_keys map out : inl_members map out -> out.*1 = map.*1.
Proof. induction 1; cbn; congruence. Qed.

Lemma siblings_key map k : k ∈ (siblings map).*1 -> is_table_key k = false /\ k ∈ map.*1.
Proof.
  intros Hk. apply list_elem_of_fmap in Hk as ([k' v] & -> & Hin). apply list_elem_of_In, filter_In in Hin as [Hin Hf].
  split; [by apply negb_true_iff|]. apply list_elem_of_In in Hin. by apply (list_elem_of_fmap_2 fst) in Hin.
Qed.

Lemma siblings_lack map out key : is_table_key key = true -> inl_members (siblings map) out -> key ∉ out.*1.
Proof. intros Hk Hm Hin. rewrite (members_keys _ _ Hm) in Hin. apply siblings_key in Hin as [Hn _]. congruence. Qed.

(** An inlined schema carries no table. *)
Lemma inlines_no_table node v : inl node v -> forall out, v = VObject out -> assoc "$defs" out = None.
Proof.
  revert node v. apply (inlines_min defs cyclic root_name S R (fun _ v => forall out, v = VObject out -> assoc "$defs" out = None)
    (fun _ _ => True) (fun _ _ => True) (fun _ _ _ => True) (fun _ _ => True)); try done.
  - by intros v Hl out ->.
  - intros map o Hr Hm _ out [= <-]. apply assoc_key_none. rewrite (members_keys _ _ Hm). intros Hin.
    apply list_elem_of_fmap in Hin as ([k w] & Hk & Hin). apply list_elem_of_In, filter_In in Hin as [_ Hf].
    cbn in *. subst. by rewrite eqs_refl in Hf.
  - intros map o Hr HR Hm _ out. rewrite overlay_object. intros [= <-].
    rewrite assoc_insert_all; [done|by eapply siblings_lack].
  - intros map r name body o Hr Hne Hn Hb Hc HS Hm _ out. rewrite overlay_object. intros [= <-].
    rewrite assoc_insert_all; [done|by eapply siblings_lack].
  - intros map r name body v o Hr Hne Hn Hb Hi IH Hm _ out. destruct v as [| | | | |l]; try done.
    rewrite overlay_object. intros [= <-]. rewrite assoc_insert_all; [by apply IH|]. by eapply siblings_lack, Hm.
Qed.
End Shape.

Section Document.
  Context `{PercentEncoding}.

Lemma value_get_table kept name : value_get (VObject kept) name = assoc name kept.
Proof. reflexivity. Qed.

(** The table [inline_refs] adds, and the document without it. *)
Lemma with_table_clean resolved kept issues doc :
  with_table resolved kept issues = (doc, no_issues) -> (forall out, resolved = VObject out -> assoc "$defs" out = None) ->
  issues = no_issues /\ without_entry "$defs" doc = resolved
  /\ (forall name, value_get (table_of_document doc) name = assoc name kept)
  /\ (count_nodes doc <= count_nodes resolved + sum_nodes kept + 1)%N.
Proof.
  unfold with_table, table_of_document. intros Hw Hn. destruct kept as [|kv kept].
  - injection Hw as <- ->. split_and!; [done|..].
    + destruct resolved; try done. cbn. by rewrite filter_none by auto.
    + intros name. destruct resolved; try done. cbn. by rewrite Hn.
    + cbn [sum_nodes foldr]. lia.
  - destruct resolved as [| | | | |map]; try (injection Hw as _ Hi; unfold no_issues in Hi; congruence).
    injection Hw as <- ->. cbn [without_entry value_get]. rewrite filter_insert, filter_none, assoc_entry_insert, eqs_refl by auto.
    split_and!; [done..|]. rewrite !count_object.
    rewrite sum_nodes_insert_new, count_object by auto. lia.
Qed.

Lemma inlined_document budget schema doc :
  inline_refs_within budget schema = Some (doc, no_issues) ->
  let defs := table_of_document schema in
  let inl S R := inlines defs (definitions_on_a_cycle defs) (root_name_of schema) S R in
  exists S R, inl S R schema (without_entry "$defs" doc)
  /\ (forall name, name ∈ S -> exists body b, value_get defs name = Some body
        /\ value_get (table_of_document doc) name = Some b /\ inl S R body b)
  /\ (R = true -> value_get (table_of_document doc) (root_name_of schema) = Some (without_entry "$defs" doc))
  /\ (forall name b, value_get (table_of_document doc) name = Some b ->
        b = without_entry "$defs" doc \/ exists body, value_get defs name = Some body /\ inl S R body b)
  /\ (count_nodes doc <= 4 * budget + 1)%N.
Proof.
  intros Hi defs inl. unfold inline_refs_within in Hi. fold (table_of_document schema) (root_name_of schema) in Hi. fold defs in Hi.
  destruct (resolve_document _ _ _ _ _ _) as [[w v]|] eqn:Er; [|done]. injection Hi as Ht.
  apply document_walked in Er as [_ Hks _ _ _ _ Hdo Hbu Hfa].
  assert (Hks' : keys_started w) by (apply Hks; intros k []; done). clear Hks.
  assert (Hc : clean w).
  { unfold with_table in Ht. destruct (kept_table _ _ _); [by injection Ht|]. destruct v; try (injection Ht as _ Ht; unfold no_issues in Ht; congruence). by injection Ht. }
  destruct (Hfa Hc) as (Hq & Hok & Hn). specialize (Hbu Hc (N.le_0_l _)). cbn [walk_new rw_kept rw_emitted sum_nodes foldr] in *.
  assert (Hv : inl (rw_started w) (rw_root_recursive w) schema v) by by apply Hq.
  apply with_table_clean in Ht as (_ & -> & Htab & Hcount); [|by eapply inlines_no_table, Hv].
  assert (Hno : without_entry "$defs" v = v).
  { destruct v; try done. cbn. rewrite filter_none; [done|]. by eapply inlines_no_table, eq_refl. }
  exists (rw_started w), (rw_root_recursive w). split; [done|]. unfold kept_table in *. rewrite Hno in *. split_and!.
  - intros name Hin. destruct (Hdo name Hin) as [Hs|[b Hb]]; [by apply elem_of_nil in Hs|].
    destruct (Hok name b Hb) as [|(body & Hbody & _ & Hb')]; [done|]. exists body, b. split_and!; [done| |by apply Hb'].
    rewrite Htab. destruct (rw_root_recursive w); [|done]. rewrite assoc_entry_insert.
    destruct (root_name_of schema =s name) eqn:E; [|done]. apply eqs_true in E as <-.
    pose proof (root_name_free schema) as Hf. fold defs in Hf. congruence.
  - intros Hr. rewrite Htab, Hr, assoc_entry_insert. by rewrite eqs_refl.
  - assert (Hkept : forall name b, assoc name (rw_kept w) = Some b -> exists body, value_get defs name = Some body
      /\ inl (rw_started w) (rw_root_recursive w) body b).
    { intros name b Hb. destruct (Hok name b Hb) as [|(body & Hbody & _ & Hb')]; [done|]. exists body. split; [done|by apply Hb']. }
    intros name b. rewrite Htab. destruct (rw_root_recursive w); [|by right; apply Hkept].
    rewrite assoc_entry_insert. destruct (_ =s name); [by intros [= <-]; left|by right; apply Hkept].
  - destruct (rw_root_recursive w); [pose proof (sum_nodes_insert (rw_kept w) (root_name_of schema) v)|]; lia.
Qed.
End Document.

(** ** Standing alone *)

(** The schemas among the members of a node, by the rules of
    [collect_local_refs]. *)
Definition member_schemas (key : string) (v : Value) : list Value :=
  match keyword_value key with
  | KeywordValue.Literal => []
  | KeywordValue.SubschemaMap => match v with VObject map => List.map snd map | _ => [v] end
  | _ => [v]
  end.

Definition sub_schemas (v : Value) : list Value :=
  match v with
  | VArray items => items
  | VObject map => flat_map (fun kv => if is_table_key kv.1 then [] else member_schemas kv.1 kv.2) map
  | _ => []
  end.

(** [r] is a reference of [v], at any depth. *)
Inductive ref_in (r : string) : Value -> Prop :=
| ref_here map : ref_of map = Some r -> ref_in r (VObject map)
| ref_below s v : s ∈ sub_schemas v -> ref_in r s -> ref_in r v.

(** Keys are distinct and a [$ref] is text, at every depth. *)
Definition node_ok (v : Value) : bool :=
  match v with
  | VObject map => bool_decide (NoDup map.*1) && match assoc "$ref" map with None | Some (VString _) => true | _ => false end
  | _ => true
  end.

Inductive wf_schema : Value -> Prop :=
| wf_intro v : node_ok v = true -> (forall s, s ∈ sub_schemas v -> wf_schema s) -> wf_schema v.

Fixpoint wf_check (depth : nat) (v : Value) : bool :=
  match depth with O => false | S depth => node_ok v && forallb (wf_check depth) (sub_schemas v) end.

Lemma wf_check_sound depth v : wf_check depth v = true -> wf_schema v.
Proof.
  revert v. induction depth as [|depth IH]; intros v; cbn; [done|]. intros [Hn Hs]%andb_prop. constructor; [done|].
  intros s Hin. apply IH. rewrite forallb_forall in Hs. by apply Hs, list_elem_of_In.
Qed.

Definition wf_document (schema : Value) : Prop :=
  wf_schema schema /\ forall name body, value_get (table_of_document schema) name = Some body -> wf_schema body.

Definition wf_document_check (depth : nat) (schema : Value) : bool :=
  wf_check depth schema && forallb (fun kv => wf_check depth kv.2) (table_of (table_of_document schema)).

Lemma wf_document_sound depth schema : wf_document_check depth schema = true -> wf_document schema.
Proof.
  intros [Hs Ht]%andb_prop. split; [by eapply wf_check_sound|]. intros name body Hb. apply (wf_check_sound depth).
  destruct (table_of_document schema); try done. cbn in Hb, Ht. rewrite forallb_forall in Ht.
  apply assoc_In, list_elem_of_In in Hb. by apply (Ht (name, body)).
Qed.

Lemma sub_schema_member map s :
  s ∈ sub_schemas (VObject map) <-> exists k v, (k, v) ∈ map /\ is_table_key k = false /\ s ∈ member_schemas k v.
Proof.
  cbn [sub_schemas]. rewrite list_elem_of_In, in_flat_map. split.
  - intros ([k v] & Hin & Hs). cbn in Hs. destruct (is_table_key k) eqn:E; [done|].
    exists k, v. by rewrite !list_elem_of_In.
  - intros (k & v & Hin & Hk & Hs). exists (k, v). cbn. rewrite Hk. by rewrite <- !list_elem_of_In.
Qed.

Lemma member_schema_one key v : keyword_value key <> KeywordValue.Literal ->
  (keyword_value key = KeywordValue.SubschemaMap -> is_object_value v = false) -> member_schemas key v = [v].
Proof.
  intros Hl Hm. unfold member_schemas. destruct (keyword_value key); try done. by destruct v; specialize (Hm eq_refl).
Qed.

Section Alone.
  Context `{PercentEncoding} (defs : Value) (cyclic : list string) (root_name : string) (S : list string) (R : bool).
  Context (Hdefs : forall name body, value_get defs name = Some body -> wf_schema body).
  #[local] Abbreviation inl := (inlines defs cyclic root_name S R).

(** A reference to a definition that was started, or to the root. *)
Definition named (r : string) : Prop :=
  (exists name, name ∈ S /\ r = def_ref name) \/ (R = true /\ r = def_ref root_name).
Definition refs_named (v : Value) : Prop := forall r, ref_in r v -> named r.
Definition members_wf (map : list (string * Value)) : Prop :=
  forall k v, (k, v) ∈ map -> is_table_key k = false -> forall s, s ∈ member_schemas k v -> wf_schema s.
Definition members_named (map : list (string * Value)) : Prop :=
  forall k v, (k, v) ∈ map -> is_table_key k = false -> forall s, s ∈ member_schemas k v -> refs_named s.

Lemma object_named map : (forall r, ref_of map = Some r -> named r) -> members_named map -> refs_named (VObject map).
Proof.
  intros Hr Hm r Hi. inversion Hi as [map' Hr'|s v Hs Hi']; subst; [auto|].
  apply sub_schema_member in Hs as (k & x & Hin & Hk & Hs). by eapply Hm.
Qed.

Lemma wf_members map f : wf_schema (VObject map) -> members_wf (List.filter f map).
Proof.
  intros Hw k v Hin Hk s Hs. inversion Hw as [? _ Hsub]; subst. apply Hsub, sub_schema_member. exists k, v.
  split_and!; [|done..]. apply list_elem_of_In, filter_In in Hin as [Hin _]. by apply list_elem_of_In.
Qed.

Lemma insert_all_named l out : members_named l -> members_named out -> members_named (insert_all l out).
Proof. intros Hl Ho k v Hin. apply insert_all_In in Hin as [Hin|Hin]; [by apply Hl|by apply Ho]. Qed.

Lemma reference_named name out :
  named (def_ref name) -> "$ref" ∉ out.*1 -> members_named out ->
  refs_named (VObject (insert_all [("$ref", VString (def_ref name))] out)).
Proof.
  intros Hn Hk Ho. apply object_named.
  - intros r. unfold ref_of. rewrite assoc_insert_all by done. cbn. by intros [= <-].
  - apply insert_all_named; [|done]. intros k v Hin. apply list_elem_of_singleton in Hin as [= -> ->]. done.
Qed.

Lemma inlines_named node v : inl node v -> wf_schema node -> refs_named v.
Proof.
  revert node v. apply (inlines_min defs cyclic root_name S R (fun node v => wf_schema node -> refs_named v)
    (fun items out => (forall i, i ∈ items -> wf_schema i) -> forall v, v ∈ out -> refs_named v)
    (fun map out => members_wf map -> members_named out)
    (fun k value v => (forall s, s ∈ member_schemas k value -> wf_schema s) -> forall s, s ∈ member_schemas k v -> refs_named s)
    (fun map out => (forall k v, (k, v) ∈ map -> wf_schema v) -> forall k v, (k, v) ∈ out -> refs_named v)).
  - intros v Hl _ r Hi. inversion Hi as [|s ? Hs]; subst; [done|]. destruct v; try done; by apply elem_of_nil in Hs.
  - intros items out _ IH Hw r Hi. inversion Hi as [|s ? Hs Hi']; subst. inversion Hw as [? _ Hsub]; subst. by eapply IH.
  - intros map out Hr Hm IH Hw. apply object_named; [|by apply IH, wf_members].
    intros r Hr'. exfalso. inversion Hw as [? Hok _]; subst. cbn in Hok. apply andb_prop in Hok as [_ Hok].
    unfold ref_of in *. destruct (assoc "$ref" map) as [[]|] eqn:E; try done.
    rewrite assoc_key_none in Hr'; [done|]. rewrite (members_keys _ _ _ _ _ _ _ Hm). intros Hin.
    apply list_elem_of_fmap in Hin as ([k x] & Hk & Hin). cbn in Hk. subst. apply list_elem_of_In, filter_In in Hin as [Hin _].
    apply in_map with (f := fst) in Hin. cbn in Hin. clear -E Hin. induction map as [|[k v] map IH]; [done|]. cbn in *.
    destruct (k =s "$ref") eqn:E'; [done|]. destruct Hin as [->|]; [by rewrite eqs_refl in E'|auto].
  - intros map out Hr HR Hm IH Hw. rewrite overlay_object. apply reference_named.
    + right. split; [by apply Is_true_eq_true|done].
    + by eapply siblings_lack.
    + by apply IH, wf_members.
  - intros map r name body out Hr Hne Hn Hb Hc HS Hm IH Hw. rewrite overlay_object. apply reference_named.
    + left. eauto.
    + by eapply siblings_lack.
    + by apply IH, wf_members.
  - intros map r name body v out Hr Hne Hn Hb Hi IH Hm IHm Hw. specialize (IH (Hdefs _ _ Hb)).
    destruct v as [| | | | |l]; try exact IH. rewrite overlay_object. specialize (IHm eq_refl (wf_members _ _ Hw)).
    apply object_named.
    + intros r'. unfold ref_of. rewrite assoc_insert_all; [|by eapply siblings_lack, Hm].
      intros Hr'. by apply IH, ref_here.
    + apply insert_all_named; [|done]. intros k x Hin Hk s Hs r' Hi'. apply IH. apply (ref_below _ s); [|done].
      apply sub_schema_member. eauto.
  - intros _ v Hin. by apply elem_of_nil in Hin.
  - intros item v items out _ IH _ IHs Hw x Hin. apply elem_of_cons in Hin as [->|Hin]; [apply IH, Hw; left|].
    apply IHs; [|done]. intros i Hi. apply Hw. by right.
  - intros _ k v Hin. by apply elem_of_nil in Hin.
  - intros key value v map out _ IH _ IHs Hw k x Hin Hk. apply elem_of_cons in Hin as [[= -> ->]|Hin].
    + apply IH. intros s Hs. apply (Hw key value); [left|done..].
    + apply (IHs ltac:(intros k' v' Hi'; apply Hw; by right) k x Hin Hk).
  - intros key v Hk _ s Hs. unfold member_schemas in Hs. rewrite Hk in Hs. by apply elem_of_nil in Hs.
  - intros key map out Hk _ IH Hw s Hs. unfold member_schemas in *. rewrite Hk in *.
    apply list_elem_of_fmap in Hs as ([k x] & -> & Hin). apply (IH ltac:(intros k' v' Hi'; apply Hw; by apply (list_elem_of_fmap_2 snd) in Hi') k x Hin).
  - intros key value v Hk Hm Hi IH Hw s Hs. rewrite member_schema_one in Hw by done.
    rewrite member_schema_one in Hs; [|done|].
    + apply list_elem_of_singleton in Hs as ->. apply IH, Hw. left.
    + intros Hk'. specialize (Hm Hk'). destruct value; try done; by inversion Hi; subst.
  - intros _ k v Hin. by apply elem_of_nil in Hin.
  - intros key value v map out _ IH _ IHs Hw k x Hin. apply elem_of_cons in Hin as [[= -> ->]|Hin].
    + apply IH, (Hw key). left.
    + apply (IHs ltac:(intros k' v' Hi'; apply (Hw k'); by right) k x Hin).
Qed.
End Alone.

(** ** Meaning

    [unfolds tgt n node t]: [t] is [node] with every reference followed, the
    keywords beside it laid over its target, cut off (as [null]) [n] levels
    down. A reference that only leads to references has no unfolding, nor has
    one to a schema that is no object (a boolean) with keywords beside it. It
    is stated without the operations of the walk: what stands beside a
    reference, how it is laid over, and which keywords hold schemas. *)

(** The keywords beside a reference; the table of definitions is none. *)
Definition beside (map : list (string * Value)) : list (string * Value) :=
  List.filter (fun kv => negb ((kv.1 =s "$ref") || (kv.1 =s "$defs"))) map.

(** Members laid over an object: each takes the place of the object's own, and
    the others follow. *)
Definition laid_over (l out : list (string * Value)) : list (string * Value) :=
  map (fun kv => (kv.1, default kv.2 (assoc kv.1 out))) l ++ List.filter (fun kv => negb (is_some (assoc kv.1 l))) out.

(** Keywords whose value is no schema, and those whose value maps names to
    schemas. *)
Definition literal_keyword (key : string) : Prop := key ∈ ["default"; "const"; "enum"; "examples"].
Definition schemas_keyword (key : string) : Prop := key ∈ ["properties"; "patternProperties"; "dependentSchemas"].

Lemma listed_iff s l : listed s l = true <-> s ∈ l.
Proof.
  unfold listed. rewrite existsb_exists. split.
  - intros (x & Hx & ->%eqs_true). by apply list_elem_of_In.
  - intros Hs. exists s. split; [by apply list_elem_of_In|apply eqs_refl].
Qed.

Lemma literal_iff key : literal_keyword key <-> keyword_value key = KeywordValue.Literal.
Proof.
  unfold literal_keyword. split; [intros Hk; repeat (apply elem_of_cons in Hk as [->|Hk]; [reflexivity|]); by apply elem_of_nil in Hk|].
  unfold keyword_value. destruct (listed key SUBSCHEMA_KEYWORDS); [done|]. destruct (listed key SUBSCHEMA_LIST_KEYWORDS); [done|].
  destruct (listed key SUBSCHEMA_MAP_KEYWORDS); [done|]. destruct (listed key LITERAL_VALUE_KEYWORDS) eqn:E; [|done].
  intros _. by apply listed_iff in E.
Qed.

Lemma schemas_iff key : schemas_keyword key <-> keyword_value key = KeywordValue.SubschemaMap.
Proof.
  unfold schemas_keyword. split; [intros Hk; repeat (apply elem_of_cons in Hk as [->|Hk]; [reflexivity|]); by apply elem_of_nil in Hk|].
  unfold keyword_value. destruct (listed key SUBSCHEMA_KEYWORDS); [done|]. destruct (listed key SUBSCHEMA_LIST_KEYWORDS); [done|].
  destruct (listed key SUBSCHEMA_MAP_KEYWORDS) eqn:E; [|by destruct (listed key LITERAL_VALUE_KEYWORDS)].
  intros _. by apply listed_iff in E.
Qed.

Lemma kinds_differ key : literal_keyword key -> schemas_keyword key -> False.
Proof. rewrite literal_iff, schemas_iff. congruence. Qed.

Section Unfolds.
  Context (tgt : string -> option Value).

Inductive unfolds : nat -> Value -> Value -> Prop :=
| un_cut v : unfolds 0 v VNull
| un_leaf n v : is_leaf v = true -> unfolds (S n) v v
| un_array n items out : unfolds_items n items out -> unfolds (S n) (VArray items) (VArray out)
| un_object n map out :
    ref_of map = None -> unfolds_members n (not_defs map) out -> unfolds (S n) (VObject map) (VObject out)
| un_ref n map r body l out :
    ref_of map = Some r -> tgt r = Some body -> unfolds (S n) body (VObject l) -> unfolds_members n (beside map) out ->
    unfolds (S n) (VObject map) (VObject (laid_over l out))
| un_ref_bare n map r body v :
    ref_of map = Some r -> tgt r = Some body -> unfolds (S n) body v -> is_object_value v = false -> beside map = [] ->
    unfolds (S n) (VObject map) v
with unfolds_items : nat -> list Value -> list Value -> Prop :=
| ui_nil n : unfolds_items n [] []
| ui_cons n item v items out : unfolds n item v -> unfolds_items n items out -> unfolds_items n (item :: items) (v :: out)
with unfolds_members : nat -> list (string * Value) -> list (string * Value) -> Prop :=
| um_nil n : unfolds_members n [] []
| um_cons n key value v map out :
    unfolds_member n key value v -> unfolds_members n map out -> unfolds_members n ((key, value) :: map) ((key, v) :: out)
with unfolds_member : nat -> string -> Value -> Value -> Prop :=
| uk_literal n key v : literal_keyword key -> unfolds_member n key v v
| uk_map_cut key map : schemas_keyword key -> unfolds_member 0 key (VObject map) VNull
| uk_map n key map out : schemas_keyword key -> unfolds_each n map out -> unfolds_member (S n) key (VObject map) (VObject out)
| uk_schema n key value v :
    ~ literal_keyword key -> (schemas_keyword key -> is_object_value value = false) ->
    unfolds n value v -> unfolds_member n key value v
with unfolds_each : nat -> list (string * Value) -> list (string * Value) -> Prop :=
| ue_nil n : unfolds_each n [] []
| ue_cons n key value v map out :
    unfolds n value v -> unfolds_each n map out -> unfolds_each n ((key, value) :: map) ((key, v) :: out).

Scheme unfolds_min := Minimality for unfolds Sort Prop
with unfolds_items_min := Minimality for unfolds_items Sort Prop
with unfolds_members_min := Minimality for unfolds_members Sort Prop
with unfolds_member_min := Minimality for unfolds_member Sort Prop
with unfolds_each_min := Minimality for unfolds_each Sort Prop.

Lemma unfolds_members_keys n map out : unfolds_members n map out -> out.*1 = map.*1.
Proof. induction 1; cbn; congruence. Qed.

(** An unfolding is the only one. *)
Lemma unfolds_unique n node t t' : unfolds n node t -> unfolds n node t' -> t = t'.
Proof.
  intros H1. revert t'. revert n node t H1. apply (unfolds_min (fun n node t => forall t', unfolds n node t' -> t = t')
    (fun n items out => forall out', unfolds_items n items out' -> out = out')
    (fun n map out => forall out', unfolds_members n map out' -> out = out')
    (fun n k value v => forall v', unfolds_member n k value v' -> v = v')
    (fun n map out => forall out', unfolds_each n map out' -> out = out')).
  - by inversion 1.
  - intros n v Hl t'. inversion 1; subst; done.
  - intros n items out _ IH t'. inversion 1; subst; [done|]. f_equal. auto.
  - intros n map out Hr _ IH t'. inversion 1; subst; [done| |congruence..]. f_equal. auto.
  - intros n map r body l out Hr Ht _ IH _ IHm t'.
    inversion 1 as [| | |? ? ? Hr'|? ? r' body' l' out' Hr' Ht' Hv' Hm'|? ? r' body' v' Hr' Ht' Hv' Hn' Hb']; subst; try congruence; [done| |].
    + assert (r' = r) as -> by congruence. assert (body' = body) as -> by congruence.
      pose proof (IH _ Hv') as [= <-]. f_equal. f_equal. auto.
    + assert (r' = r) as -> by congruence. assert (body' = body) as -> by congruence. by rewrite <- (IH _ Hv') in Hn'.
  - intros n map r body v Hr Ht _ IH Hn Hb t'.
    inversion 1 as [| | |? ? ? Hr'|? ? r' body' l' out' Hr' Ht' Hv' Hm'|? ? r' body' v' Hr' Ht' Hv' Hn' Hb']; subst; try congruence; [done| |].
    + assert (r' = r) as -> by congruence. assert (body' = body) as -> by congruence. by rewrite (IH _ Hv') in Hn.
    + assert (r' = r) as -> by congruence. assert (body' = body) as -> by congruence. by apply IH.
  - by inversion 1.
  - intros n item v items out _ IH _ IHs out'. inversion 1; subst. f_equal; auto.
  - by inversion 1.
  - intros n key value v map out _ IH _ IHs out'. inversion 1; subst. f_equal; [f_equal|]; auto.
  - intros n key v Hk v'. inversion 1; subst; [done|exfalso; by eapply kinds_differ..|done].
  - intros key map Hk v'. inversion 1 as [| | |? ? ? ? Hk' Hm' Hu]; subst; [exfalso; by eapply kinds_differ|done|by specialize (Hm' Hk)].
  - intros n key map out Hk _ IH v'.
    inversion 1 as [| | |? ? ? ? Hk' Hm' Hu]; subst; [exfalso; by eapply kinds_differ|f_equal; auto|by specialize (Hm' Hk)].
  - intros n key value v Hk Hm _ IH v'.
    inversion 1 as [|? ? Hk'|? ? ? ? Hk' He|? ? ? ? Hk' Hm' Hu]; subst; [done|by specialize (Hm Hk')..|auto].
  - by inversion 1.
  - intros n key value v map out _ IH _ IHs out'. inversion 1; subst. f_equal; [f_equal|]; auto.
Qed.
End Unfolds.

(** Laying members over members. *)

Lemma entry_insert_keys {A} (l : list (string * A)) k v :
  (entry_insert l k v).*1 = if is_some (assoc k l) then l.*1 else l.*1 ++ [k].
Proof.
  induction l as [|[k' v'] l IH]; cbn; [done|]. destruct (k' =s k) eqn:E; cbn; [done|]. rewrite IH.
  by destruct (assoc k l).
Qed.

Lemma entry_insert_NoDup {A} (l : list (string * A)) k v : NoDup l.*1 -> NoDup (entry_insert l k v).*1.
Proof.
  intros Hl. rewrite entry_insert_keys. destruct (assoc k l) eqn:E; cbn; [done|]. apply NoDup_app. split_and!; [done| |apply NoDup_singleton].
  intros x Hx ->%list_elem_of_singleton. apply list_elem_of_fmap in Hx as ([k' v'] & -> & Hin).
  rewrite (assoc_elem _ v') in E; done.
Qed.

Lemma insert_all_NoDup l out : NoDup l.*1 -> NoDup (insert_all l out).*1.
Proof.
  revert l. induction out as [|[k v] out IH]; intros l Hl; [done|]. by apply (IH (entry_insert l k v)), entry_insert_NoDup.
Qed.

Lemma insert_all_new l out : NoDup (l.*1 ++ out.*1) -> insert_all l out = l ++ out.
Proof.
  revert l. induction out as [|[k v] out IH]; intros l Hn; [by rewrite app_nil_r|].
  change (insert_all (entry_insert l k v) out = l ++ (k, v) :: out). cbn in Hn.
  rewrite entry_insert_new, IH; [by rewrite <- app_assoc|by rewrite fmap_app, <- app_assoc|].
  intros Hin. apply NoDup_app in Hn as (_ & Hn & _). by apply (Hn k Hin), elem_of_cons; left.
Qed.

Lemma filter_key_insert f (l : list (string * Value)) k v : f k = true ->
  List.filter (fun kv => f kv.1) (entry_insert l k v) = entry_insert (List.filter (fun kv => f kv.1) l) k v.
Proof.
  intros Hf. induction l as [|[k' v'] l IH]; cbn; [by rewrite Hf|]. destruct (k' =s k) eqn:E; cbn.
  - apply eqs_true in E as ->. rewrite Hf. cbn. by rewrite eqs_refl.
  - destruct (f k'); cbn; rewrite ?E; by rewrite IH.
Qed.

Lemma filter_key_insert_all f l out : (forall k, k ∈ out.*1 -> f k = true) ->
  List.filter (fun kv => f kv.1) (insert_all l out) = insert_all (List.filter (fun kv => f kv.1) l) out.
Proof.
  revert l. induction out as [|[k v] out IH]; intros l Hf; [done|].
  change (insert_all l ((k, v) :: out)) with (insert_all (entry_insert l k v) out).
  rewrite IH by (intros k' Hk'; apply Hf; by right). rewrite filter_key_insert; [done|]. apply Hf. left.
Qed.

(** Laying over, one entry after another or all at once. *)

Lemma assoc_map_values {A} (f : string -> A -> A) (l : list (string * A)) k :
  assoc k (map (fun kv => (kv.1, f kv.1 kv.2)) l) = f k <$> assoc k l.
Proof. induction l as [|[k' v'] l IH]; cbn; [done|]. destruct (k' =s k) eqn:E; [by apply eqs_true in E as ->|done]. Qed.

Lemma assoc_filter_key {A} (f : string -> bool) (l : list (string * A)) k :
  assoc k (List.filter (fun kv => f kv.1) l) = if f k then assoc k l else None.
Proof.
  induction l as [|[k' v'] l IH]; cbn; [by destruct (f k)|]. destruct (f k') eqn:Ef; cbn; destruct (k' =s k) eqn:E; try done.
  - apply eqs_true in E as <-. by rewrite Ef.
  - apply eqs_true in E as <-. by rewrite IH, Ef.
Qed.

Lemma assoc_laid_over l out k : assoc k (laid_over l out) = match assoc k out with Some v => Some v | None => assoc k l end.
Proof.
  unfold laid_over. rewrite assoc_app, (assoc_map_values (fun k v => default v (assoc k out))).
  rewrite (assoc_filter_key (fun k => negb (is_some (assoc k l)))).
  destruct (assoc k l), (assoc k out); done.
Qed.

Lemma filter_map_key {A B} (f : string -> bool) (g : string * A -> string * B) (l : list (string * A)) :
  (forall kv, (g kv).1 = kv.1) ->
  List.filter (fun kv => f kv.1) (map g l) = map g (List.filter (fun kv => f kv.1) l).
Proof. intros Hg. induction l as [|kv l IH]; cbn; [done|]. rewrite Hg. destruct (f kv.1); cbn; by rewrite IH. Qed.

Lemma filter_filter_and {A} (f g : A -> bool) (l : list A) : List.filter f (List.filter g l) = List.filter (fun x => f x && g x) l.
Proof. induction l as [|x l IH]; cbn; [done|]. destruct (g x); cbn; destruct (f x); cbn; by rewrite IH. Qed.

Lemma laid_over_assoc l o out : laid_over (laid_over l o) out = laid_over l (laid_over o out).
Proof.
  unfold laid_over at 1 3. rewrite (List.filter_ext _ (fun kv => negb (is_some (assoc kv.1 l)) && negb (is_some (assoc kv.1 o)))).
  2: { intros [k v]. rewrite assoc_laid_over. cbn. by destruct (assoc k o), (assoc k l). }
  rewrite <- filter_filter_and. unfold laid_over at 1. rewrite map_app, map_map, <- app_assoc. f_equal.
  - apply map_ext. intros [k v]. cbn. rewrite assoc_laid_over. by destruct (assoc k out).
  - unfold laid_over. rewrite List.filter_app.
    by rewrite (filter_map_key (fun k => negb (is_some (assoc k l)))).
Qed.

Lemma laid_over_nil l : laid_over l [] = l.
Proof. unfold laid_over. cbn. rewrite app_nil_r. induction l as [|[k v] l IH]; cbn; [done|]. by rewrite IH. Qed.

Lemma entry_insert_laid l k v : NoDup l.*1 -> entry_insert l k v = laid_over l [(k, v)].
Proof.
  induction l as [|[k' v'] l IH]; cbn; [done|]. intros [Hk Hn]%NoDup_cons. rewrite ?(String.eqb_sym k k'). destruct (k' =s k) eqn:E; cbn.
  - apply eqs_true in E as ->. f_equal. unfold laid_over. cbn. rewrite app_nil_r.
    symmetry. rewrite <- (map_id l) at 2. apply map_ext_in. intros [k2 v2] Hin. cbn.
    destruct (k =s k2) eqn:E2; [|done]. apply eqs_true in E2 as ->. exfalso. apply Hk.
    apply list_elem_of_In in Hin. by apply (list_elem_of_fmap_2 fst) in Hin.
  - rewrite IH by done. unfold laid_over. cbn. done.
Qed.

Lemma insert_all_laid l out : NoDup l.*1 -> NoDup out.*1 -> insert_all l out = laid_over l out.
Proof.
  revert l. induction out as [|[k v] out IH]; intros l Hl; [by rewrite laid_over_nil|]. intros [Hk Ho]%NoDup_cons. cbn [fst] in Hk.
  change (insert_all l ((k, v) :: out)) with (insert_all (entry_insert l k v) out).
  rewrite IH by (done || by apply entry_insert_NoDup). rewrite entry_insert_laid, laid_over_assoc by done. f_equal.
  unfold laid_over. cbn. rewrite assoc_key_none by done. cbn. f_equal.
  clear -Hk. induction out as [|[k2 v2] out IH]; cbn in *; [done|]. apply not_elem_of_cons in Hk as [Hne Hk].
  rewrite (proj2 (eqs_false k k2)) by done. cbn. by rewrite IH.
Qed.

Section Members.
  Context (tgt : string -> option Value).

Lemma unfolds_insert n l l' k v v' : unfolds_members tgt n l l' -> unfolds_member tgt n k v v' ->
  unfolds_members tgt n (entry_insert l k v) (entry_insert l' k v').
Proof.
  intros Hl. induction Hl as [n|n key x x' l l' Hx Hl IH]; intros Hv; cbn; [by apply um_cons, um_nil|].
  destruct (key =s k) eqn:E; [apply eqs_true in E as ->; by apply um_cons|]. apply um_cons; auto.
Qed.

Lemma unfolds_insert_all n l l' out out' : unfolds_members tgt n l l' -> unfolds_members tgt n out out' ->
  unfolds_members tgt n (insert_all l out) (insert_all l' out').
Proof.
  intros Hl Ho. revert l l' Hl. induction Ho as [n|n k v v' out out' Hv Ho IH]; intros l l' Hl; [done|].
  by apply (IH (entry_insert l k v)), unfolds_insert.
Qed.
End Members.

Section Meaning.
  Context `{PercentEncoding} (defs : Value) (cyclic : list string) (root_name : string) (S : list string) (R : bool).
  Context (schema : Value) (tin tout : string -> option Value).
  Context (Hdefs : forall name body, value_get defs name = Some body -> wf_schema body) (Hschema : wf_schema schema).
  Context (Hroot : tin "#" = Some schema) (Hdef : forall r, r <> "#" -> tin r = def_name r ≫= value_get defs).
  #[local] Abbreviation inl := (inlines defs cyclic root_name S R).
  #[local] Abbreviation inl_members := (inlines_members defs cyclic root_name S R).
  Context (HS : forall name, name ∈ S ->
             exists body b, value_get defs name = Some body /\ tout (def_ref name) = Some b /\ inl body b).
  Context (HR : R = true -> exists b, tout (def_ref root_name) = Some b /\ inl schema b).

Definition all_wf (map : list (string * Value)) : Prop :=
  forall k v, (k, v) ∈ map -> forall s, s ∈ member_schemas k v -> wf_schema s.

Lemma wf_no_ref map : wf_schema (VObject map) -> ref_of map = None -> assoc "$ref" map = None.
Proof.
  inversion 1 as [? Hok _]; subst. cbn in Hok. apply andb_prop in Hok as [_ Hok]. unfold ref_of.
  by destruct (assoc "$ref" map) as [[]|].
Qed.

Lemma wf_keys map : wf_schema (VObject map) -> NoDup map.*1.
Proof. inversion 1 as [? Hok _]; subst. cbn in Hok. apply andb_prop in Hok as [Hok _]. by apply bool_decide_eq_true in Hok. Qed.

Lemma siblings_wf map : wf_schema (VObject map) -> all_wf (siblings map).
Proof.
  intros Hw k v Hin. apply (wf_members map _ Hw k v Hin). apply list_elem_of_In, filter_In in Hin as [_ Hf].
  by apply negb_true_iff.
Qed.

Lemma not_defs_wf map : wf_schema (VObject map) -> ref_of map = None -> all_wf (not_defs map).
Proof.
  intros Hw Hr k v Hin. apply (wf_members map _ Hw k v Hin). apply list_elem_of_In, filter_In in Hin as [Hin Hf].
  unfold is_table_key. cbn in Hf. apply negb_true_iff in Hf. rewrite Hf, orb_false_r. apply eqs_false. intros ->.
  apply list_elem_of_In in Hin. pose proof (wf_no_ref _ Hw Hr) as Hno.
  by rewrite (assoc_elem _ v) in Hno; [|apply wf_keys|].
Qed.

Lemma filter_keys_NoDup f (map : list (string * Value)) : NoDup map.*1 -> NoDup (List.filter f map).*1.
Proof.
  induction map as [|[k v] map IH]; cbn; [done|]. intros [Hk Hn]%NoDup_cons. destruct (f (k, v)); [|auto]. cbn.
  apply NoDup_cons. split; [|auto]. intros Hin. apply Hk. apply list_elem_of_fmap in Hin as ([k' v'] & -> & Hin).
  apply list_elem_of_In, filter_In in Hin as [Hin _]. apply list_elem_of_In in Hin. by apply (list_elem_of_fmap_2 fst) in Hin.
Qed.

Lemma members_NoDup f map out : wf_schema (VObject map) -> inl_members (List.filter f map) out -> NoDup out.*1.
Proof. intros Hw Hm. rewrite (members_keys _ _ _ _ _ _ _ Hm). by apply filter_keys_NoDup, wf_keys. Qed.

Lemma inlines_NoDup node v : inl node v -> wf_schema node -> forall l, v = VObject l -> NoDup l.*1.
Proof.
  revert node v. apply (inlines_min defs cyclic root_name S R (fun node v => wf_schema node -> forall l, v = VObject l -> NoDup l.*1)
    (fun _ _ => True) (fun _ _ => True) (fun _ _ _ => True) (fun _ _ => True)); try done.
  - by intros v Hl _ l ->.
  - intros map out Hr Hm _ Hw l [= <-]. by eapply members_NoDup.
  - intros map out Hr HR' Hm _ Hw l. rewrite overlay_object. intros [= <-]. apply insert_all_NoDup, NoDup_singleton.
  - intros map r name body out Hr Hne Hn Hb Hc HS' Hm _ Hw l. rewrite overlay_object. intros [= <-].
    apply insert_all_NoDup, NoDup_singleton.
  - intros map r name body v out Hr Hne Hn Hb Hi IH Hm _ Hw l. destruct v as [| | | | |l0]; try done.
    rewrite overlay_object. intros [= <-]. apply insert_all_NoDup, IH; [by eapply Hdefs|done].
Qed.

Lemma beside_all out : (forall k, is_table_key k = true -> k ∉ out.*1) -> beside out = out.
Proof.
  intros Hk. induction out as [|[k x] out IH]; [done|]. change (beside ((k, x) :: out)) with (if negb (is_table_key k) then (k, x) :: beside out else beside out).
  destruct (is_table_key k) eqn:E; cbn [negb]; [exfalso; apply (Hk k E); left|]. f_equal. apply IH.
  intros k' Hk' Hin. apply (Hk k' Hk'). by right.
Qed.

(** A reference with members over it unfolds as its target does. *)
Lemma kept_unfolds n name b l out out' :
  tout (def_ref name) = Some b -> unfolds tout (Datatypes.S n) b (VObject l) -> NoDup out.*1 ->
  (forall k, is_table_key k = true -> k ∉ out.*1) -> unfolds_members tout n out out' ->
  unfolds tout (Datatypes.S n) (overlay_members (VObject [("$ref", VString (def_ref name))]) out) (VObject (laid_over l out')).
Proof.
  intros Ht Hv Hn Hk Hm. rewrite overlay_object, insert_all_new.
  - cbn [app]. eapply un_ref; [done|exact Ht|exact Hv|].
    change (beside (("$ref", VString (def_ref name)) :: out)) with (beside out). by rewrite beside_all.
  - cbn. apply NoDup_cons. split; [by apply Hk|done].
Qed.

(** Members over an inlined target unfold as members over its unfolding. *)
Lemma inlined_unfolds n v0 l out out' :
  unfolds tout (Datatypes.S n) v0 (VObject l) -> (forall l, v0 = VObject l -> NoDup l.*1 /\ assoc "$defs" l = None) ->
  NoDup out.*1 -> (forall k, is_table_key k = true -> k ∉ out.*1) -> unfolds_members tout n out out' ->
  unfolds tout (Datatypes.S n) (overlay_members v0 out) (VObject (laid_over l out')).
Proof.
  intros Hv Hl Hn Hk Hm.
  assert (Hk1 : forall k, k ∈ out.*1 -> negb (is_table_key k) = true).
  { intros k Hin. destruct (is_table_key k) eqn:E; [|done]. by destruct (Hk k E). }
  assert (Hk2 : forall k, k ∈ out.*1 -> negb (k =s "$defs") = true).
  { intros k Hin. specialize (Hk1 k Hin). unfold is_table_key in Hk1. by destruct (k =s "$defs"), (k =s "$ref"). }
  assert (Hn' : NoDup out'.*1) by (by rewrite (unfolds_members_keys _ _ _ _ Hm)).
  inversion Hv as [|? ? Hleaf|?|? map o Hr Hms|? map r body l2 o Hr Ht Hb Ho|? map r body v2 Hr Ht Hb Hno Hbe]; subst; try done.
  - rewrite overlay_object. destruct (Hl map eq_refl) as [Hd _].
    assert (Ho : NoDup l.*1) by (rewrite (unfolds_members_keys _ _ _ _ Hms); by apply filter_keys_NoDup).
    rewrite <- insert_all_laid by done. apply un_object.
    + unfold ref_of in *. rewrite assoc_insert_all; [done|by apply Hk].
    + unfold not_defs in *. rewrite (filter_key_insert_all (fun k => negb (k =s "$defs"))) by done. by apply unfolds_insert_all.
  - rewrite overlay_object. destruct (Hl map eq_refl) as [Hd _].
    assert (Hdo : NoDup o.*1) by (rewrite (unfolds_members_keys _ _ _ _ Ho); by apply filter_keys_NoDup).
    rewrite laid_over_assoc, <- (insert_all_laid o) by done.
    eapply un_ref; [|exact Ht|exact Hb|].
    + unfold ref_of in *. rewrite assoc_insert_all; [done|by apply Hk].
    + unfold beside. rewrite (filter_key_insert_all (fun k => negb ((k =s "$ref") || (k =s "$defs")))) by done.
      by apply unfolds_insert_all.
Qed.

Lemma table_keys_lack map out : inl_members (siblings map) out -> forall k, is_table_key k = true -> k ∉ out.*1.
Proof. intros Hm k Hk. by eapply siblings_lack. Qed.

Lemma object_no_ref map out : wf_schema (VObject map) -> ref_of map = None -> inl_members (not_defs map) out -> ref_of out = None.
Proof.
  intros Hw Hr Hm. unfold ref_of. rewrite assoc_key_none; [done|]. rewrite (members_keys _ _ _ _ _ _ _ Hm). intros Hin.
  apply list_elem_of_fmap in Hin as ([k x] & Hk & Hin). cbn in Hk. subst.
  apply list_elem_of_In, filter_In in Hin as [Hin _]. apply list_elem_of_In in Hin.
  pose proof (wf_no_ref _ Hw Hr) as Hno. by rewrite (assoc_elem _ x) in Hno; [|apply wf_keys|].
Qed.

Lemma not_defs_id map out : inl (VObject map) (VObject out) -> not_defs out = out.
Proof. intros Hi. apply filter_none. by eapply inlines_no_table. Qed.

(** A reference and what stands beside it. *)
Lemma ref_node_unfolds n map r body l out x :
  wf_schema (VObject map) -> ref_of map = Some r -> tin r = Some body ->
  (wf_schema body -> forall x, inl body x -> unfolds tout (Datatypes.S n) x (VObject l)) ->
  (forall ms, inl_members (siblings map) ms -> unfolds_members tout n ms out) ->
  inl (VObject map) x -> unfolds tout (Datatypes.S n) x (VObject (laid_over l out)).
Proof.
  intros Hw Hr Ht Hv Hm Hi. inversion Hi as [|?|? ? Hr'|? o Hr' HR' Ho|? r' name body' o Hr' Hne Hn Hb Hc HS' Ho|? r' name body' v0 o Hr' Hne Hn Hb Hv0 Ho]; subst.
  - done.
  - congruence.
  - assert (r = "#") as -> by congruence. rewrite Hroot in Ht. injection Ht as <-.
    destruct (HR (Is_true_eq_true _ HR')) as (b & Hb & Hib). eapply kept_unfolds; [exact Hb|by apply Hv|by eapply members_NoDup|by eapply table_keys_lack|by apply Hm].
  - assert (r' = r) as -> by congruence. rewrite Hdef, Hn in Ht by done. cbn in Ht.
    destruct (HS name HS') as (body2 & b & Hb2 & Hb' & Hib). assert (body2 = body) as -> by congruence.
    eapply kept_unfolds; [exact Hb'|apply Hv; [by eapply Hdefs|done]|by eapply members_NoDup|by eapply table_keys_lack|by apply Hm].
  - assert (r' = r) as -> by congruence. rewrite Hdef, Hn in Ht by done. cbn in Ht. assert (body' = body) as -> by congruence.
    assert (Hu : unfolds tout (Datatypes.S n) v0 (VObject l)) by (apply Hv; [by eapply Hdefs|done]).
    assert (E0 : is_object_value v0 = true) by (destruct v0; try done; by inversion Hu).
    specialize (Ho E0). eapply inlined_unfolds; [exact Hu| |by eapply members_NoDup|by eapply table_keys_lack|by apply Hm].
    intros l' ->. split; [exact (inlines_NoDup _ _ Hv0 (Hdefs _ _ Hb) l' eq_refl)|].
    exact (inlines_no_table _ _ _ _ _ _ _ Hv0 l' eq_refl).
Qed.

(** A reference on its own. *)
Lemma ref_bare_unfolds n map r body v x :
  ref_of map = Some r -> tin r = Some body -> (wf_schema body -> forall x, inl body x -> unfolds tout (Datatypes.S n) x v) ->
  is_object_value v = false -> beside map = [] -> inl (VObject map) x -> unfolds tout (Datatypes.S n) x v.
Proof.
  intros Hr Ht Hv Hno Hbe Hi. change (beside map) with (siblings map) in Hbe.
  inversion Hi as [|?|? ? Hr'|? o Hr' HR' Ho|? r' name body' o Hr' Hne Hn Hb Hc HS' Ho|? r' name body' v0 o Hr' Hne Hn Hb Hv0 Ho]; subst.
  - done.
  - congruence.
  - assert (r = "#") as -> by congruence. rewrite Hroot in Ht. injection Ht as <-. rewrite Hbe in Ho. inversion Ho; subst.
    destruct (HR (Is_true_eq_true _ HR')) as (b & Hb & Hib). eapply un_ref_bare; [done|exact Hb|by apply Hv|done..].
  - assert (r' = r) as -> by congruence. rewrite Hdef, Hn in Ht by done. cbn in Ht. rewrite Hbe in Ho. inversion Ho; subst.
    destruct (HS name HS') as (body2 & b & Hb2 & Hb' & Hib). assert (body2 = body) as -> by congruence.
    eapply un_ref_bare; [done|exact Hb'|apply Hv; [by eapply Hdefs|done]|done..].
  - assert (r' = r) as -> by congruence. rewrite Hdef, Hn in Ht by done. cbn in Ht. assert (body' = body) as -> by congruence.
    assert (Hu : unfolds tout (Datatypes.S n) v0 v) by (apply Hv; [by eapply Hdefs|done]).
    destruct v0 as [| | | | |l0]; try exact Hu. specialize (Ho eq_refl). rewrite Hbe in Ho. by inversion Ho; subst.
Qed.

Lemma inlines_unfold n node t : unfolds tin n node t -> wf_schema node -> forall v, inl node v -> unfolds tout n v t.
Proof.
  revert n node t. apply (unfolds_min tin (fun n node t => wf_schema node -> forall v, inl node v -> unfolds tout n v t)
    (fun n items out => (forall i, i ∈ items -> wf_schema i) -> forall vs, inlines_items defs cyclic root_name S R items vs -> unfolds_items tout n vs out)
    (fun n map out => all_wf map -> forall ms, inl_members map ms -> unfolds_members tout n ms out)
    (fun n k value v => (forall s, s ∈ member_schemas k value -> wf_schema s) ->
       forall x, inlines_member defs cyclic root_name S R k value x -> unfolds_member tout n k x v)
    (fun n map out => (forall k v, (k, v) ∈ map -> wf_schema v) ->
       forall ms, inlines_each defs cyclic root_name S R map ms -> unfolds_each tout n ms out)).
  - intros. apply un_cut.
  - intros n v Hl _ x Hi. inversion Hi; subst; try done. by apply un_leaf.
  - intros n items out _ IH Hw x Hi. inversion Hi as [?|? o Ho| | | |]; subst; [done|]. apply un_array, IH; [|done].
    inversion Hw as [? _ Hsub]; subst. exact Hsub.
  - intros n map out Hr _ IH Hw x Hi. inversion Hi as [?| |? o Hr' Ho| | |]; subst; try done; try congruence.
    apply un_object; [by eapply object_no_ref|]. rewrite (not_defs_id map) by done. by apply IH; [apply not_defs_wf|].
  - intros n map r body l out Hr Ht _ IH _ IHm Hw x Hi. eapply ref_node_unfolds; eauto. intros ms. by apply IHm, siblings_wf.
  - intros n map r body v Hr Ht _ IH Hno Hbe Hw x Hi. by eapply ref_bare_unfolds.
  - intros n _ vs Hi. inversion Hi. apply ui_nil.
  - intros n item v items out _ IH _ IHs Hw vs Hi. inversion Hi; subst. apply ui_cons; [apply IH; [apply Hw; left|done]|].
    apply IHs; [intros i Hin; apply Hw; by right|done].
  - intros n _ ms Hi. inversion Hi. apply um_nil.
  - intros n key value v map out _ IH _ IHs Hw ms Hi. inversion Hi; subst. apply um_cons.
    + apply IH; [|done]. intros s Hs. by apply (Hw key value); [left|].
    + apply IHs; [|done]. intros k' v' Hin. apply Hw. by right.
  - intros n key v Hk _ x Hi. pose proof (proj1 (literal_iff key) Hk) as Hk2.
    inversion Hi as [|? ? ? Hk'|? ? ? Hk' Hm']; subst; [by apply uk_literal|congruence..].
  - intros key map Hk _ x Hi. pose proof (proj1 (schemas_iff key) Hk) as Hk2.
    inversion Hi as [? ? Hk'|? ? ? Hk'|? ? ? Hk' Hm']; subst; [congruence|by apply uk_map_cut|]. by specialize (Hm' Hk2).
  - intros n key map out Hk _ IH Hw x Hi. pose proof (proj1 (schemas_iff key) Hk) as Hk2.
    inversion Hi as [? ? Hk'|? ? ? Hk'|? ? ? Hk' Hm']; subst; [congruence| |by specialize (Hm' Hk2)].
    apply uk_map; [done|]. apply IH; [|done]. intros k v Hin. apply Hw. unfold member_schemas. rewrite Hk2.
    by apply (list_elem_of_fmap_2 snd) in Hin.
  - intros n key value v Hk Hm _ IH Hw x Hi. pose proof Hk as Hk2. rewrite literal_iff in Hk2. pose proof Hm as Hm2. rewrite schemas_iff in Hm2.
    inversion Hi as [? ? Hk'|? ? ? Hk'|? ? ? Hk' Hm' Hv]; subst; [done|by specialize (Hm2 Hk')|].
    apply uk_schema; [done| |].
    + intros Ek. specialize (Hm Ek). destruct value; try done; by inversion Hv.
    + apply IH; [|done]. apply Hw. rewrite member_schema_one by done. left.
  - intros n _ ms Hi. inversion Hi. apply ue_nil.
  - intros n key value v map out _ IH _ IHs Hw ms Hi. inversion Hi; subst. apply ue_cons.
    + apply IH; [apply (Hw key); left|done].
    + apply IHs; [|done]. intros k' v' Hin. apply (Hw k'). by right.
Qed.
End Meaning.

(** ** What [inline_refs] promises *)

Section Promises.
  Context `{PercentEncoding}.

Lemma target_def doc name : target doc (def_ref name) = value_get (table_of_document doc) name.
Proof. unfold target. by rewrite def_ref_not_root, def_name_ref. Qed.

Lemma inline_refs_clean schema doc : inline_refs schema = (doc, no_issues) ->
  inline_refs_within MAX_INLINED_NODES schema = Some (doc, no_issues).
Proof. unfold inline_refs. destruct (inline_within_some MAX_INLINED_NODES schema) as [out ->]. by intros <-. Qed.

Lemma filter_twice {A} (f : A -> bool) l : List.filter f (List.filter f l) = List.filter f l.
Proof. induction l as [|x l IH]; cbn; [done|]. destruct (f x) eqn:E; cbn; rewrite ?E; by rewrite IH. Qed.

Lemma ref_of_without map : ref_of (not_defs map) = ref_of map.
Proof. unfold ref_of, not_defs. by rewrite assoc_filter. Qed.

Lemma beside_without map : beside (not_defs map) = beside map.
Proof.
  unfold beside, not_defs. induction map as [|[k v] map IH]; cbn; [done|].
  destruct (k =s "$defs") eqn:E; cbn; [by rewrite orb_true_r|]. destruct (k =s "$ref"); cbn; by rewrite ?IH, ?E; cbn; rewrite ?IH.
Qed.

Lemma unfolds_without tgt n doc t : unfolds tgt n (without_entry "$defs" doc) t -> unfolds tgt n doc t.
Proof.
  destruct doc as [| | | | |map]; try done. change (without_entry "$defs" (VObject map)) with (VObject (not_defs map)).
  inversion 1 as [|? ? Hl| |? ? o Hr Hm|? ? r body l o Hr Ht Hv Hm|? ? r body v Hr Ht Hv Hn Hb]; subst; [apply un_cut|done| | |];
    rewrite ref_of_without in Hr.
  - apply un_object; [done|]. unfold not_defs in *. by rewrite filter_twice in Hm.
  - rewrite beside_without in Hm. by eapply un_ref.
  - rewrite beside_without in Hb. by eapply un_ref_bare.
Qed.

Lemma ref_in_without r doc : ref_in r doc -> ref_in r (without_entry "$defs" doc).
Proof.
  destruct doc as [| | | | |map]; try done. change (without_entry "$defs" (VObject map)) with (VObject (not_defs map)).
  inversion 1 as [? Hr|s ? Hs Hi]; subst; [apply ref_here; by rewrite ref_of_without|].
  apply (ref_below _ s); [|done]. apply sub_schema_member in Hs as (k & v & Hin & Hk & Hs).
  apply sub_schema_member. exists k, v. split_and!; [|done..]. apply list_elem_of_In, filter_In. split; [by apply list_elem_of_In|].
  unfold is_table_key in Hk. apply orb_false_iff in Hk as [_ Hk]. cbn. by rewrite Hk.
Qed.

(** Every reference of a document, or of a definition it carries, names a
    definition it carries itself. *)
Definition stands_alone (doc : Value) : Prop := forall part r,
  part = doc \/ (exists name, value_get (table_of_document doc) name = Some part) -> ref_in r part ->
  exists name b, r = def_ref name /\ value_get (table_of_document doc) name = Some b /\ target doc r = Some b.

Lemma inline_stands_alone schema doc : wf_document schema -> inline_refs schema = (doc, no_issues) -> stands_alone doc.
Proof.
  intros [Hs Hd] Hi part r Hp Hr. apply inline_refs_clean, inlined_document in Hi as (S & R & Hv & HS & HR & Hall & _).
  assert (Hn : named (root_name_of schema) S R r).
  { assert (Hdoc : refs_named (root_name_of schema) S R (without_entry "$defs" doc)) by (by eapply inlines_named).
    destruct Hp as [->|(name & Hname)]; [by apply Hdoc, ref_in_without|].
    destruct (Hall _ _ Hname) as [->|(body & Hb & Hbody)]; [by apply Hdoc|].
    by eapply inlines_named; [exact Hd|exact Hbody|by eapply Hd|]. }
  destruct Hn as [(name & Hin & ->)|(HR' & ->)].
  - destruct (HS name Hin) as (body & b & _ & Hb & _). exists name, b. by rewrite target_def.
  - exists (root_name_of schema), (without_entry "$defs" doc). rewrite target_def. auto.
Qed.

(** a schema that is inlined without an issue stands alone: every reference
    that is left in it, or in a definition it carries, names a definition it
    carries itself. *)
Theorem inlined_documents_stand_alone (schema doc : Value) :
  wf_document schema -> inline_refs schema = (doc, no_issues) -> stands_alone doc.
Proof. apply inline_stands_alone. Qed.

(** C39: inlining without an issue keeps what a schema means: to any depth to
    which the schema has an unfolding, the document unfolds to the same and to
    nothing else. A schema has none where references only lead to references,
    and where keywords stand beside a reference to a schema that is no object
    (inlining drops those). *)
Theorem inlining_preserves_meaning (schema doc : Value) :
  wf_document schema -> inline_refs schema = (doc, no_issues) ->
  forall n t, unfolds (target schema) n schema t ->
  unfolds (target doc) n doc t /\ forall t', unfolds (target doc) n doc t' -> t' = t.
Proof.
  intros [Hs Hd] Hi n t Ht. apply inline_refs_clean, inlined_document in Hi as (S & R & Hv & HS & HR & _ & _).
  assert (Hu : unfolds (target doc) n doc t).
  { apply unfolds_without. refine (inlines_unfold _ _ _ S R schema (target schema) (target doc) Hd Hs _ _ _ _ n schema t Ht Hs _ Hv).
    - done.
    - intros r Hr. unfold target. by rewrite (proj2 (eqs_false r "#")).
    - intros name Hin. destruct (HS name Hin) as (body & b & Hb & Hb' & Hib). exists body, b. by rewrite target_def.
    - intros HR'. exists (without_entry "$defs" doc). rewrite target_def. auto. }
  split; [done|]. intros t' Ht'. by eapply unfolds_unique.
Qed.

(** inlining always ends, whatever references a schema holds, and what it
    makes of one without an issue has at most four times as many nodes as the
    budget, and one more: a kept reference is two nodes and costs one, and the
    root's own definition repeats the document. *)
Theorem inlining_bounded (schema : Value) :
  exists doc issues, inline_refs_within MAX_INLINED_NODES schema = Some (doc, issues) /\ inline_refs schema = (doc, issues)
  /\ (issues = no_issues -> (count_nodes doc <= 4 * MAX_INLINED_NODES + 1)%N).
Proof.
  unfold inline_refs. destruct (inline_within_some MAX_INLINED_NODES schema) as [[doc issues] E]. exists doc, issues.
  rewrite E. split_and!; [done..|]. intros ->. apply inlined_document in E as (S & R & _ & _ & _ & _ & Hn). exact Hn.
Qed.
End Promises.

(** ** Cycles *)

Section Cycles.
  Context `{PercentEncoding} (table : list (string * Value)).

Definition edge (a b : string) : Prop := b ∈ edges_of table a.

(** The references of the definitions not yet seen. *)
Definition unseen (seen : list string) : nat :=
  length (flat_map (fun kv => if listed kv.1 seen then [] else def_targets table kv.2) table).

Lemma unseen_visited name seen : listed name seen = false ->
  unseen (name :: seen) + length (edges_of table name) <= unseen seen.
Proof.
  intros Hn. unfold unseen, edges_of. assert (Hall : forall l : list (string * Value),
    length (flat_map (fun kv => if listed kv.1 (name :: seen) then [] else def_targets table kv.2) l)
    + length (match assoc name l with Some body => def_targets table body | None => [] end)
    <= length (flat_map (fun kv => if listed kv.1 seen then [] else def_targets table kv.2) l)); [|apply Hall].
  induction l as [|[k v] l IH]; [cbn; lia|]. cbn [flat_map assoc fst snd]. rewrite !length_app.
  change (listed k (name :: seen)) with ((k =s name) || listed k seen). destruct (k =s name) eqn:E; cbn [orb].
  - apply eqs_true in E as ->. rewrite Hn. cbn [length]. destruct (assoc name l); lia.
  - destruct (listed k seen); cbn [length]; lia.
Qed.

Lemma comes_back_true fuel start seen frontier :
  comes_back fuel table start seen frontier = Some true -> exists x, x ∈ frontier /\ rtc edge x start.
Proof.
  revert seen frontier. induction fuel as [|fuel IH]; intros seen [|name frontier]; cbn; try done.
  destruct (name =s start) eqn:E.
  { intros _. apply eqs_true in E as ->. exists start. split; [left|done]. }
  destruct (listed name seen).
  - intros (x & Hx & Hr)%IH. exists x. split; [by right|done].
  - intros (x & Hx & Hr)%IH. apply elem_of_app in Hx as [Hx|Hx]; [|exists x; split; [by right|done]].
    exists name. split; [left|]. by eapply rtc_l.
Qed.

Lemma comes_back_false fuel start seen frontier :
  comes_back fuel table start seen frontier = Some false ->
  start ∉ seen -> (forall a b, a ∈ seen -> edge a b -> b ∈ seen \/ b ∈ frontier) ->
  forall x, x ∈ seen \/ x ∈ frontier -> ~ rtc edge x start.
Proof.
  revert seen frontier. induction fuel as [|fuel IH]; intros seen [|name frontier]; cbn; try done.
  - intros _ Hs Hc x [Hx|Hx] Hr; [|by apply elem_of_nil in Hx].
    induction Hr as [|x y z Hxy Hr IHr]; [done|]. destruct (Hc x y Hx Hxy) as [Hy|Hy]; [auto|by apply elem_of_nil in Hy].
  - destruct (name =s start) eqn:E; [done|]. apply eqs_false in E. destruct (listed name seen) eqn:El; intros Hb Hs Hc x Hx.
    + apply listed_iff in El. apply (IH seen frontier Hb Hs).
      * intros a b Ha Hab. destruct (Hc a b Ha Hab) as [|[->|]%elem_of_cons]; auto.
      * destruct Hx as [|[->|]%elem_of_cons]; auto.
    + apply (IH _ _ Hb).
      * intros [->|]%elem_of_cons; done.
      * intros a b [->|Ha]%elem_of_cons Hab; [right; apply elem_of_app; by left|].
        destruct (Hc a b Ha Hab) as [|[->|]%elem_of_cons]; [left; by right|left; left|right; apply elem_of_app; by right].
      * destruct Hx as [|[->|]%elem_of_cons]; [left; by right|left; left|right; apply elem_of_app; by right].
Qed.

Lemma comes_back_answers fuel start seen frontier :
  length frontier + unseen seen < fuel -> exists b, comes_back fuel table start seen frontier = Some b.
Proof.
  revert seen frontier. induction fuel as [|fuel IH]; intros seen frontier Hf; [lia|]. cbn.
  destruct frontier as [|name frontier]; [eauto|]. cbn in Hf. destruct (name =s start); [eauto|].
  destruct (listed name seen) eqn:El; apply IH; [lia|]. rewrite length_app. pose proof (unseen_visited name seen El). lia.
Qed.

Lemma unseen_none : unseen [] = length (flat_map (fun kv => def_targets table kv.2) table).
Proof. reflexivity. Qed.
End Cycles.

(** the definitions that are kept as references are exactly those that reach
    themselves through references; the search for them ends. *)
Theorem cycles_decided `{PercentEncoding} (table : list (string * Value)) (name : string) :
  (exists b, comes_back (search_fuel table name) table name [] (edges_of table name) = Some b)
  /\ (name ∈ definitions_on_a_cycle (VObject table) <-> name ∈ table.*1 /\ tc (edge table) name name).
Proof.
  destruct (comes_back_answers table (search_fuel table name) name [] (edges_of table name)) as [b Hb].
  { unfold search_fuel. rewrite unseen_none. lia. }
  split; [by exists b|]. unfold definitions_on_a_cycle. cbn [table_of].
  rewrite list_elem_of_In, filter_In, Hb. cbn [default].
  assert (Hin : In name (map fst table) <-> name ∈ table.*1) by (by rewrite list_elem_of_In). rewrite Hin.
  assert (Ht : tc (edge table) name name <-> exists x, x ∈ edges_of table name /\ rtc (edge table) x name).
  { split.
    - intros Htc. inversion Htc as [? ? He|? y ? He Htc']; subst; [by exists name|]. exists y. split; [done|by apply tc_rtc].
    - intros (x & Hx & Hr). by apply tc_rtc_r with (y := x); [apply tc_once|]. }
  rewrite Ht. split; intros [Hn Hc]; (split; [done|]).
  - cbn in Hc. subst b. by eapply comes_back_true.
  - destruct b; [done|]. destruct Hc as (x & Hx & Hr). exfalso.
    apply (comes_back_false _ _ _ _ _ Hb) with (x := x); [by intros ?%elem_of_nil|by intros ? ? ?%elem_of_nil|by right|done].
Qed.

(** ** Percent encoding, and examples *)

Module Percent.
Definition unreserved (c : ascii) : bool := is_ascii_alphanumeric c || listed (String c "") ["-"; "."; "_"; "~"].
Definition hex_digit (n : N) : ascii := ascii_of_N (if (n <? 10)%N then 48 + n else 55 + n).
Definition hex_value (c : ascii) : option N :=
  let n := N_of_ascii c in
  if is_ascii_digit c then Some (n - 48)%N
  else if (65 <=? n)%N && (n <=? 70)%N then Some (n - 55)%N
  else if (97 <=? n)%N && (n <=? 102)%N then Some (n - 87)%N else None.

Definition encode_byte (c : ascii) : string :=
  if unreserved c then String c ""
  else String "%" (String (hex_digit (N_of_ascii c / 16)) (String (hex_digit (N_of_ascii c mod 16)) "")).

Fixpoint encode (s : string) : string := match s with EmptyString => "" | String c s => encode_byte c +:+ encode s end.

Fixpoint decode (s : string) : string :=
  match s with
  | EmptyString => ""
  | String c s' =>
      if Ascii.eqb c "%"
      then match s' with
           | String a (String b s'') =>
               match hex_value a, hex_value b with
               | Some x, Some y => String (ascii_of_N (16 * x + y)) (decode s'')
               | _, _ => String c (decode s')
               end
           | _ => String c (decode s')
           end
      else String c (decode s')
  end.

Lemma decode_byte c s : decode (encode_byte c +:+ s) = String c (decode s).
Proof. by destruct c as [[] [] [] [] [] [] [] []]. Qed.

Lemma decode_encode s : Some (decode (encode s)) = Some s.
Proof. f_equal. induction s as [|c s IH]; [done|]. cbn [encode]. by rewrite decode_byte, IH. Qed.

#[export] Instance percent_encoding : PercentEncoding := {|
  utf8_percent_encode := encode; percent_decode_utf8 s := Some (decode s); percent_decode_encode := decode_encode
|}.

Definition reference (r : string) : Value := VObject [("$ref", VString r)].

(** A list of products, each in a category whose parent is a category. *)
Definition catalogue : Value := VObject
  [("type", VString "object");
   ("properties", VObject
      [("items", VObject [("type", VString "array"); ("items", reference "#/$defs/Product")]);
       ("rest", reference "#")]);
   ("$defs", VObject
      [("Product", VObject [("properties", VObject [("status", VObject [("description", VString "now"); ("$ref", VString "#/$defs/Product%20Status")]);
                                                    ("category", reference "#/$defs/Category")])]);
       ("Product Status", VObject [("enum", VArray [VString "new"]); ("description", VString "any")]);
       ("Category", VObject [("properties", VObject [("parent", reference "#/$defs/Category")])])])].

Definition inlined_catalogue : Value := VObject
  [("type", VString "object");
   ("properties", VObject
      [("items", VObject [("type", VString "array"); ("items",
          VObject [("properties", VObject [("status", VObject [("enum", VArray [VString "new"]); ("description", VString "now")]);
                                           ("category", reference "#/$defs/Category")])])]);
       ("rest", reference "#/$defs/Root")])].

Example catalogue_inlined : exists category,
  inline_refs catalogue
  = (VObject (table_of inlined_catalogue ++ [("$defs", VObject [("Category", category); ("Root", inlined_catalogue)])]), no_issues).
Proof. eexists. vm_compute. reflexivity. Qed.

(** A document of many references to its root has four nodes for one of the
    budget. *)
Definition crowd : Value := VObject [("anyOf", VArray (repeat (reference "#") 60000))].

Example crowd_exceeds : exists doc, inline_refs crowd = (doc, no_issues) /\ (2 * MAX_INLINED_NODES < count_nodes doc)%N.
Proof.
  assert (Hi : (inline_refs crowd).2 = no_issues) by (vm_compute; reflexivity).
  assert (Hn : (2 * MAX_INLINED_NODES <? count_nodes (inline_refs crowd).1)%N = true) by (vm_compute; reflexivity).
  exists (inline_refs crowd).1. split; [|by apply N.ltb_lt]. rewrite (surjective_pairing (inline_refs crowd)) at 1. by rewrite Hi.
Qed.

(** A description beside a reference to a definition that is [true]. *)
Example description_dropped :
  inline_refs (VObject [("properties", VObject [("a", VObject [("description", VString "d"); ("$ref", VString "#/$defs/Any")])]);
                        ("$defs", VObject [("Any", VBool true)])])
  = (VObject [("properties", VObject [("a", VBool true)])], no_issues).
Proof. reflexivity. Qed.
End Percent.
Import Percent.

Lemma inlined_documents_stand_alone_witness : exists doc name b,
  inline_refs catalogue = (doc, no_issues) /\ "#/$defs/Category" = def_ref name
  /\ value_get (table_of_document doc) name = Some b /\ target doc "#/$defs/Category" = Some b.
Proof.
  destruct (inlined_documents_stand_alone catalogue (inline_refs catalogue).1
    (wf_document_sound 12 catalogue ltac:(vm_compute; reflexivity)) ltac:(vm_compute; reflexivity)
    (default VNull (value_get (table_of_document (inline_refs catalogue).1) "Category")) "#/$defs/Category"
    ltac:(right; exists "Category"; vm_compute; reflexivity)) as (name & b & Hn & Hb & Ht).
  - vm_compute. apply (ref_below _ (reference "#/$defs/Category")); [left|by apply ref_here].
  - exists (inline_refs catalogue).1, name, b. split_and!; [vm_compute; reflexivity|done..].
Defined.

Lemma inlining_preserves_meaning_witness :
  let category := VObject [("$ref", VString "#/$defs/Category"); ("title", VString "own");
    ("$defs", VObject [("Category", VObject [("title", VString "c"); ("not", reference "#/$defs/Category")])])] in
  let doc := (inline_refs category).1 in
  let unfolding := VObject [("title", VString "own"); ("not", VObject [("title", VNull); ("not", VNull)])] in
  unfolds (target doc) 2 doc unfolding /\ forall t, unfolds (target doc) 2 doc t -> t = unfolding.
Proof.
  intros category doc unfolding.
  assert (Hl : forall key, keyword_value key <> KeywordValue.Literal -> ~ literal_keyword key) by (intros key; by rewrite literal_iff).
  assert (Hs : forall key (b : bool), keyword_value key <> KeywordValue.SubschemaMap -> schemas_keyword key -> b = false)
    by (intros key b Hk Hk'; by apply schemas_iff in Hk').
  assert (Hm : forall n key value v, keyword_value key <> KeywordValue.Literal -> keyword_value key <> KeywordValue.SubschemaMap ->
    unfolds (target category) n value v -> unfolds_member (target category) n key value v) by (intros; apply uk_schema; eauto).
  apply (inlining_preserves_meaning category doc (wf_document_sound 8 category ltac:(vm_compute; reflexivity))
    ltac:(vm_compute; reflexivity) 2 unfolding).
  apply (un_ref _ 1 _ "#/$defs/Category" (VObject [("title", VString "c"); ("not", reference "#/$defs/Category")])
    [("title", VString "c"); ("not", VObject [("title", VNull); ("not", VNull)])] [("title", VString "own")]);
    [reflexivity|vm_compute; reflexivity| |apply um_cons; [apply Hm; [done|done|by apply un_leaf]|apply um_nil]].
  apply un_object; [reflexivity|]. apply um_cons; [apply Hm; [done|done|by apply un_leaf]|].
  apply um_cons; [|apply um_nil]. apply Hm; [done|done|].
  apply (un_ref _ 0 _ "#/$defs/Category" (VObject [("title", VString "c"); ("not", reference "#/$defs/Category")])
    [("title", VNull); ("not", VNull)] []); [reflexivity|vm_compute; reflexivity| |apply um_nil].
  apply un_object; [reflexivity|]. apply um_cons; [apply Hm; [done|done|apply un_cut]|].
  apply um_cons; [|apply um_nil]. apply Hm; [done|done|apply un_cut].
Defined.
