(* ===== verification/WebMcp.v ===== *)
(** The tool manifest an agent receives ([wafer-core/src/discovery.rs],
    WebMCP): the input schema merged of an endpoint's path, query and body
    schemas, its output schema, path templates, the checks a tool must pass
    and the manifest of a caller, with the report of what was refused; and the
    manifest of a page's own selection of endpoints.

    A [json!] document is a [Value]; the log lines of refusals are not
    modelled. *)

From stdpp Require Import sorting.
From S2P Require Import Prelude CoreTypes BlockName Registration Text Lifecycle ConfigExpand SchemaRefs.

(** ** Declarations *)

Module AuthLevel.
Inductive t := Public | Authenticated | Admin.
#[global] Instance t_eq_dec : EqDecision t.
Proof. solve_decision. Defined.
Definition rank (l : t) : nat := match l with Public => 0 | Authenticated => 1 | Admin => 2 end.
(** The derived order. *)
Definition leb (a b : t) : bool := (rank a <=? rank b)%nat.
End AuthLevel.

Record AgentTool := mkTool { at_name : string; at_description : string }.
#[global] Instance AgentTool_eq_dec : EqDecision AgentTool.
Proof. solve_decision. Defined.

(** The fields of [BlockEndpoint] that discovery reads. *)
Record Endpoint := mkEndpointInfo {
  en_method : HttpMethod.t;
  en_path : string;
  en_summary : string;
  en_description : string;
  en_input_schema : option Value;
  en_output_schema : option Value;
  en_path_params : option Value;
  en_query_params : option Value;
  en_tags : list string;
  en_deprecated : bool;
  en_agent_tool : option AgentTool
}.

(** The fields of [BlockInfo] that discovery reads. *)
Record Block := mkBlock { bl_name : string; bl_endpoints : list Endpoint }.

Definition strings (l : list string) : Value := VArray (map VString l).
Definition sort_strings (l : list string) : list string := merge_sort String.le l.

(** [Vec::dedup]. *)
Fixpoint dedup (l : list string) : list string :=
  match l with
  | [] => []
  | a :: l' => match l' with b :: _ => if a =s b then dedup l' else a :: dedup l' | [] => [a] end
  end.

(** ** Merging the sources of an input schema *)

Record MergedSource := mkMerged {
  ms_contributed : list string;
  ms_present : bool;
  ms_unrepresentable : bool;
  ms_unresolved_ref : bool;
  ms_colliding_defs : list string;
  ms_oversized : bool;
  ms_closed : bool
}.
Definition nothing_merged : MergedSource := mkMerged [] false false false [] false false.

Definition FLATTENABLE_KEYWORDS : list string :=
  ["type"; "properties"; "required"; "additionalProperties"; "$defs"; "title"; "description"; "$comment"; "examples";
   "default"; "deprecated"; "readOnly"; "writeOnly"; "$id"; "$schema"].

(** [schema_is_object_shaped]. *)
Definition schema_is_object_shaped (map : list (string * Value)) : bool :=
  match assoc "type" map with
  | Some (VString t) => t =s "object"
  | None => is_some (assoc "properties" map)
  | _ => false
  end.

Definition is_string (v : Value) : bool := match v with VString _ => true | _ => false end.
Definition is_object_or_absent (v : option Value) : bool := match v with None | Some (VObject _) => true | _ => false end.
Definition is_names_or_absent (v : option Value) : bool :=
  match v with None => true | Some (VArray names) => forallb is_string names | _ => false end.

(** [source_is_flattenable]. *)
Definition source_is_flattenable (inlined : Value) : bool :=
  match inlined with
  | VObject [] => false
  | VObject map =>
      schema_is_object_shaped map
      && forallb (fun kv => listed kv.1 FLATTENABLE_KEYWORDS) map
      && is_object_or_absent (assoc "properties" map)
      && is_names_or_absent (assoc "required" map)
      && match assoc "additionalProperties" map with None | Some (VBool false) => true | _ => false end
  | _ => false
  end.

(** What the sources of an endpoint are merged into. *)
Record Merge := mkMerge {
  mg_properties : list (string * Value);
  mg_required : list string;
  mg_defs : list (string * Value)
}.

(** Whether a source declares anything. *)
Definition declares (source : option Value) : bool :=
  match source with
  | None | Some VNull => false
  | Some (VObject map) => match map with [] => false | _ => true end
  | Some _ => true
  end.

(** The loop over the definitions of a source. *)
Fixpoint merge_defs (table defs : list (string * Value)) (colliding : list string) :
    list (string * Value) * list string :=
  match table with
  | [] => (defs, colliding)
  | (name, body) :: table =>
      match assoc name defs with
      | Some existing => merge_defs table defs (if value_eqb existing body then colliding else colliding ++ [name])
      | None => merge_defs table (entry_insert defs name body) colliding
      end
  end.

(** The loop over the names a source requires. *)
Fixpoint merge_required (names required : list string) : list string :=
  match names with
  | [] => required
  | name :: names => merge_required names (if listed name required then required else required ++ [name])
  end.

Definition entries_of (key : string) (v : Value) : list (string * Value) :=
  match value_get v key with Some (VObject map) => map | _ => [] end.
Definition names_of (key : string) (v : Value) : list string :=
  match value_get v key with Some (VArray items) => omap as_str items | _ => [] end.

Section WebMcp.
  Context `{PercentEncoding}.

(** [merge_schema_source]. *)
Definition merge_schema_source (source : option Value) (m : Merge) : Merge * MergedSource :=
  match source with
  | Some schema =>
      if negb (declares source) then (m, nothing_merged)
      else
        let '(inlined, issues) := inline_refs schema in
        if negb (source_is_flattenable inlined)
        then (m, mkMerged [] true true (unresolved issues) [] (oversized issues) false)
        else
          let '(defs, colliding) := merge_defs (entries_of "$defs" inlined) (mg_defs m) [] in
          let props := entries_of "properties" inlined in
          let properties := fold_left (fun l kv => entry_insert l kv.1 kv.2) props (mg_properties m) in
          let required := merge_required (names_of "required" inlined) (mg_required m) in
          (mkMerge properties required defs,
           mkMerged (sort_strings (map fst props)) true false (unresolved issues) colliding (oversized issues)
             (match value_get inlined "additionalProperties" with Some (VBool false) => true | _ => false end))
  | None => (m, nothing_merged)
  end.

(** ** Scalar parameters *)

Definition SCALAR_TYPE_NAMES : list string := ["string"; "number"; "integer"; "boolean"; "null"].

Definition scalar_literal (v : Value) : bool := match v with VArray _ | VObject _ => false | _ => true end.

(** [param_is_scalar_valued]; [branches] finds the branches of a composition
    keyword. *)
Fixpoint param_is_scalar_valued (schema : Value) : bool :=
  match schema with
  | VObject map =>
      match assoc "type" map with
      | Some (VString name) => listed name SCALAR_TYPE_NAMES
      | Some (VArray names) =>
          negb (match names with [] => true | _ => false end)
          && forallb (fun n => match n with VString n => listed n SCALAR_TYPE_NAMES | _ => false end) names
      | Some _ => false
      | None =>
          match assoc "enum" map with
          | Some (VArray members) => negb (match members with [] => true | _ => false end) && forallb scalar_literal members
          | _ =>
              match assoc "const" map with
              | Some value => scalar_literal value
              | None =>
                  let branches (keyword : string) : option bool :=
                    (fix look (map : list (string * Value)) : option bool :=
                       match map with
                       | [] => None
                       | (k, v) :: map =>
                           if k =s keyword
                           then match v with
                                | VArray bs =>
                                    Some (negb (match bs with [] => true | _ => false end)
                                          && (fix all (bs : list Value) : bool :=
                                                match bs with [] => true | b :: bs => param_is_scalar_valued b && all bs end) bs)
                                | _ => None
                                end
                           else look map
                       end) map in
                  match branches "anyOf" with
                  | Some b => b
                  | None => match branches "oneOf" with
                            | Some b => b
                            | None => match branches "allOf" with Some b => b | None => false end
                            end
                  end
              end
          end
      end
  | _ => false
  end.

(** ** Input and output schemas *)

Record AgentInputSchema := mkInput {
  ai_schema : Value;
  ai_path_params : list string;
  ai_query_params : list string;
  ai_body_params : list string;
  ai_collisions : list string;
  ai_unrepresentable : list string;
  ai_unresolved_refs : list string;
  ai_colliding_defs : list string;
  ai_oversized_schemas : list string;
  ai_undeclared_required : list string;
  ai_non_scalar_params : list string
}.

(** The labels of the sources a verdict holds of, sorted. *)
Definition labels (verdict : MergedSource -> bool) (path query body : MergedSource) : list string :=
  sort_strings (omap (fun lm => if verdict lm.2 then Some lm.1 else None) [("path", path); ("query", query); ("body", body)]).

(** The parameters of one source that are not scalar. *)
Definition non_scalar (label : string) (merged : MergedSource) (properties : list (string * Value)) : list string :=
  map (fun name => label +:+ "." +:+ name)
    (List.filter (fun name => match assoc name properties with Some schema => negb (param_is_scalar_valued schema) | None => true end)
       (ms_contributed merged)).

Fixpoint occurrences (s : string) (l : list string) : nat :=
  match l with [] => 0 | x :: l => (if x =s s then 1 else 0) + occurrences s l end.

(** The names more than one source contributed. *)
Definition collisions_of (names : list string) : list string :=
  dedup (sort_strings (List.filter (fun n => (1 <? occurrences n names)%nat) names)).

(** The merged document at the end of [agent_input_schema]. *)
Definition merged_document (properties : list (string * Value)) (required : list string) (merged_is_closed : bool)
    (defs : list (string * Value)) : Value :=
  VObject ([("type", VString "object"); ("properties", VObject properties)]
     ++ (match required with [] => [] | _ => [("required", strings (sort_strings required))] end)
     ++ (if merged_is_closed then [("additionalProperties", VBool false)] else [])
     ++ (match defs with [] => [] | _ => [("$defs", VObject defs)] end)).

(** [agent_input_schema]. *)
Definition agent_input_schema (ep : Endpoint) : AgentInputSchema :=
  let '(m, path) := merge_schema_source (en_path_params ep) (mkMerge [] [] []) in
  let '(m, query) := merge_schema_source (en_query_params ep) m in
  let '(m, body) := merge_schema_source (en_input_schema ep) m in
  let required := merge_required (ms_contributed path) (mg_required m) in
  let properties := mg_properties m in
  let present := List.filter ms_present [path; query; body] in
  let merged_is_closed := match present with [] => false | _ => forallb ms_closed present end in
  mkInput
    (merged_document properties required merged_is_closed (mg_defs m))
    (ms_contributed path) (ms_contributed query) (ms_contributed body)
    (collisions_of (ms_contributed path ++ ms_contributed query ++ ms_contributed body))
    (labels ms_unrepresentable path query body)
    (labels ms_unresolved_ref path query body)
    (dedup (sort_strings (ms_colliding_defs path ++ ms_colliding_defs query ++ ms_colliding_defs body)))
    (labels ms_oversized path query body)
    (dedup (sort_strings (List.filter (fun name => negb (is_some (assoc name properties))) required)))
    (sort_strings (non_scalar "path" path properties ++ non_scalar "query" query properties)).
End WebMcp.

(** ** Refusals *)

Inductive WebMcpRefusal :=
| InvalidToolName
| DuplicateToolName (count : nat)
| CollidingParameterNames (names : list string)
| UnrepresentableSources (sources : list string)
| UnresolvedRefs (sources : list string)
| CollidingDefinitions (names : list string)
| SchemaTooLarge (sources : list string)
| RequiredNotDeclared (names : list string)
| NonScalarPathOrQueryParams (params : list string)
| MalformedPathTemplate
| WildcardPathSegment (segment : string)
| PathParamsDisagreeWithTemplate (placeholders declared : list string)
| BodyOnBodylessMethod (body_params : list string)
| OutputSchemaNotAnObject
| OutputSchemaUnrepresentable
| OutputSchemaUnresolvedRef
| OutputSchemaTooLarge
| SelectionNotFound
| SelectionUnpublished
| SelectionShadowed.

Inductive WebMcpRefusalScope := ScopeTool | ScopeOutputSchema.

Record WebMcpRefusalReport := mkRefusal {
  rr_block : string;
  rr_method : HttpMethod.t;
  rr_path : string;
  rr_tool_name : string;
  rr_scope : WebMcpRefusalScope;
  rr_reason : WebMcpRefusal;
  rr_visible_to_caller : bool
}.

Section Output.
  Context `{PercentEncoding}.

(** [agent_output_schema]: the schema to publish, or why it was dropped. *)
Definition agent_output_schema (ep : Endpoint) : option Value * option WebMcpRefusal :=
  match en_output_schema ep with
  | Some source =>
      if negb (declares (Some source)) then (None, None)
      else
        let '(inlined, issues) := inline_refs source in
        if oversized issues then (None, Some OutputSchemaTooLarge)
        else if unresolved issues then (None, Some OutputSchemaUnresolvedRef)
        else match inlined with
        | VObject map =>
            if negb (schema_is_object_shaped map) then (None, Some OutputSchemaNotAnObject)
            else if negb (source_is_flattenable inlined) then (None, Some OutputSchemaUnrepresentable)
            else (Some (without_entry "title" inlined), None)
        | _ => (None, Some OutputSchemaNotAnObject)
        end
  | None => (None, None)
  end.
End Output.

(** ** Path templates *)

Inductive PathTemplateError := PathMalformed | PathWildcard (segment : string).

Definition REST_MARKER : string := "...".

Record PathPlaceholder := mkPlaceholder { ph_name : string; ph_rest : bool }.

(** [classify_segment]. *)
Definition classify_segment (segment : string) : result (option PathPlaceholder) PathTemplateError :=
  if (segment =s "*") || (segment =s "**") then Err (PathWildcard segment)
  else if negb (contains "{" segment) && negb (contains "}" segment) then Ok None
  else match strip_prefix "{" segment ≫= strip_suffix "}" with
  | None => Err PathMalformed
  | Some inner =>
      if contains "{" inner || contains "}" inner then Err PathMalformed
      else
        let '(name, rest) := match strip_suffix REST_MARKER inner with Some base => (base, true) | None => (inner, false) end in
        if is_empty name then Err PathMalformed else Ok (Some (mkPlaceholder name rest))
  end.

(** The loop of [path_placeholders]. *)
Fixpoint segment_placeholders (segments : list string) : result (list string) PathTemplateError :=
  match segments with
  | [] => Ok []
  | segment :: segments =>
      let? found := classify_segment segment in
      let? names := segment_placeholders segments in
      Ok (match found with Some p => ph_name p :: names | None => names end)
  end.

(** [path_placeholders]. *)
Definition path_placeholders (path : string) : result (list string) PathTemplateError :=
  segment_placeholders (split "/" path).

(** A segment as it is published. *)
Definition published_segment (segment : string) : string :=
  match classify_segment segment with
  | Ok (Some p) => if ph_rest p then "{" +:+ ph_name p +:+ "}" else segment
  | _ => segment
  end.

(** [published_path_template]. *)
Definition published_path_template (path : string) : string :=
  if existsb (fun s => match classify_segment s with Ok (Some p) => ph_rest p | _ => false end) (split "/" path)
  then join "/" (map published_segment (split "/" path))
  else path.

(** [method_key], [method_can_carry_body]. *)
Definition method_key (method : HttpMethod.t) : string :=
  match method with HttpMethod.Get => "get" | HttpMethod.Post => "post" | HttpMethod.Patch => "patch" | HttpMethod.Delete => "delete" end.
Definition method_can_carry_body (method : HttpMethod.t) : bool :=
  match method with HttpMethod.Post | HttpMethod.Patch => true | HttpMethod.Get | HttpMethod.Delete => false end.

(** ** The manifest *)

Inductive Mode := Declared | Selected.

Section Manifest.
  Context `{PercentEncoding}.

(** [names.is_empty()], else refuse. *)
Definition none_or (names : list string) (reason : WebMcpRefusal) : result unit WebMcpRefusal :=
  match names with [] => Ok tt | _ => Err reason end.

(** The checks of an endpoint's own declaration, in their order. *)
Definition endpoint_verdict (ep : Endpoint) (tool : AgentTool) : result AgentInputSchema WebMcpRefusal :=
  if negb (is_valid_name (at_name tool)) then Err InvalidToolName
  else
    let input := agent_input_schema ep in
    let? _ := none_or (ai_collisions input) (CollidingParameterNames (ai_collisions input)) in
    let? _ := none_or (ai_oversized_schemas input) (SchemaTooLarge (ai_oversized_schemas input)) in
    let? _ := none_or (ai_unrepresentable input) (UnrepresentableSources (ai_unrepresentable input)) in
    let? _ := none_or (ai_unresolved_refs input) (UnresolvedRefs (ai_unresolved_refs input)) in
    let? _ := none_or (ai_colliding_defs input) (CollidingDefinitions (ai_colliding_defs input)) in
    let? _ := none_or (ai_undeclared_required input) (RequiredNotDeclared (ai_undeclared_required input)) in
    let? _ := none_or (ai_non_scalar_params input) (NonScalarPathOrQueryParams (ai_non_scalar_params input)) in
    let? placeholders := match path_placeholders (en_path ep) with
                         | Ok names => Ok (dedup (sort_strings names))
                         | Err PathMalformed => Err MalformedPathTemplate
                         | Err (PathWildcard segment) => Err (WildcardPathSegment segment)
                         end in
    if negb (bool_decide (placeholders = ai_path_params input))
    then Err (PathParamsDisagreeWithTemplate placeholders (ai_path_params input))
    else if negb (match ai_body_params input with [] => true | _ => false end) && negb (method_can_carry_body (en_method ep))
    then Err (BodyOnBodylessMethod (ai_body_params input))
    else Ok input.

(** A published tool. *)
Definition emitted_tool (ep : Endpoint) (tool : AgentTool) (input : AgentInputSchema) (output : option Value) : Value :=
  VObject
    ([("name", VString (at_name tool));
      ("description", VString (if en_deprecated ep then "[Deprecated] " +:+ at_description tool else at_description tool))]
     ++ (if en_deprecated ep then [("deprecated", VBool true)] else [])
     ++ [("inputSchema", ai_schema input)]
     ++ (match output with Some schema => [("outputSchema", schema)] | None => [] end)
     ++ [("invocation", VObject
           [("method", VString (method_key (en_method ep)));
            ("path", VString (published_path_template (en_path ep)));
            ("path_params", strings (ai_path_params input));
            ("query_params", strings (ai_query_params input));
            ("body_params", strings (ai_body_params input))])]).

(** An endpoint of a block with the level it is published at. *)
Definition Entry : Type := string * Endpoint * option AuthLevel.t.

(** [blocks.iter().zip(levels)], and its endpoints with theirs. *)
Definition entries (blocks : list Block) (levels : list (list (option AuthLevel.t))) : list Entry :=
  flat_map (fun bl => map (fun el => (bl_name bl.1, el.1, el.2)) (combine (bl_endpoints bl.1) bl.2)) (combine blocks levels).

(** Whether the caller may invoke it. *)
Definition visible (caller : AuthLevel.t) (level : option AuthLevel.t) : bool :=
  match level with Some level => AuthLevel.leb level caller | None => false end.

(** The names counted for this caller. *)
Definition claims (caller : AuthLevel.t) (e : Entry) : list string :=
  match en_agent_tool e.1.2 with
  | Some tool => if is_valid_name (at_name tool) && visible caller e.2 then [at_name tool] else []
  | None => []
  end.

(** What becomes of one endpoint: its tool, if one is published, and what is
    reported of it. *)
Definition project (census : list string) (caller : AuthLevel.t) (mode : Mode) (e : Entry) :
    list Value * list WebMcpRefusalReport :=
  let '(block, ep, level) := e in
  match en_agent_tool ep, level with
  | Some tool, Some required =>
      let visible_to_caller := AuthLevel.leb required caller in
      let reported_visible := visible_to_caller && match mode with Declared => true | Selected => false end in
      let refuse scope reason :=
        mkRefusal block (en_method ep) (en_path ep) (at_name tool) scope reason reported_visible in
      match endpoint_verdict ep tool with
      | Err reason => ([], [refuse ScopeTool reason])
      | Ok input =>
          if negb visible_to_caller then ([], [])
          else
            let count := occurrences (at_name tool) census in
            if negb (count =? 1)%nat then ([], [refuse ScopeTool (DuplicateToolName count)])
            else
              let '(output, dropped) := agent_output_schema ep in
              ([emitted_tool ep tool input output],
               match dropped with Some reason => [refuse ScopeOutputSchema reason] | None => [] end)
      end
  | _, _ => ([], [])
  end.

(** The tools and the report of a list of endpoints. *)
Definition project_all (es : list Entry) (caller : AuthLevel.t) (mode : Mode) : list Value * list WebMcpRefusalReport :=
  let census := flat_map (claims caller) es in
  (flat_map (fun e => (project census caller mode e).1) es, flat_map (fun e => (project census caller mode e).2) es).

Definition manifest (tools : list Value) : Value :=
  VObject [("schema_version", VNumber (PosInt 1)); ("tools", VArray tools)].

(** [webmcp_report_resolved]. *)
Definition webmcp_report_resolved (blocks : list Block) (levels : list (list (option AuthLevel.t))) (caller : AuthLevel.t)
    (mode : Mode) : Value * list WebMcpRefusalReport :=
  let '(tools, refused) := project_all (entries blocks levels) caller mode in (manifest tools, refused).

(** The level of each agent-tool endpoint. *)
Definition resolved_levels (effective_auth : Block -> Endpoint -> option AuthLevel.t) (blocks : list Block) :
    list (list (option AuthLevel.t)) :=
  map (fun block => map (fun ep => match en_agent_tool ep with Some _ => effective_auth block ep | None => None end)
                      (bl_endpoints block)) blocks.

(** [generate_webmcp_report]. *)
Definition webmcp_report (blocks : list Block) (caller : AuthLevel.t) (effective_auth : Block -> Endpoint -> option AuthLevel.t) :
    Value * list WebMcpRefusalReport :=
  webmcp_report_resolved blocks (resolved_levels effective_auth blocks) caller Declared.

(** [generate_webmcp]; its refusals go to the log. *)
Definition generate_webmcp (blocks : list Block) (caller : AuthLevel.t) (effective_auth : Block -> Endpoint -> option AuthLevel.t) :
    Value := (webmcp_report blocks caller effective_auth).1.

(** ** Selections *)

Record ToolSelection := mkSelection {
  ts_block : string; ts_method : HttpMethod.t; ts_path : string; ts_name : string; ts_description : string
}.
#[local] Instance ToolSelection_eq_dec : EqDecision ToolSelection.
Proof. solve_decision. Defined.

(** [endpoints.iter().position(..)]. *)
Fixpoint endpoint_position (eps : list Endpoint) (sel : ToolSelection) : option nat :=
  match eps with
  | [] => None
  | ep :: eps =>
      if bool_decide (en_method ep = ts_method sel) && (en_path ep =s ts_path sel) then Some 0
      else S <$> endpoint_position eps sel
  end.

(** What the selections of one block have settled so far: the outcome of each
    by its index, the endpoints resolved (with the selection and the level)
    and every selection seen of each endpoint. *)
Record Selecting := mkSelecting {
  se_outcome : list (nat * option WebMcpRefusal);
  se_resolved : list (nat * (ToolSelection * option AuthLevel.t));
  se_rows : list (nat * ToolSelection)
}.

Fixpoint nat_assoc {A} (n : nat) (l : list (nat * A)) : option A :=
  match l with [] => None | (m, a) :: l => if (m =? n)%nat then Some a else nat_assoc n l end.

(** One selection of a block. *)
Definition select_one (effective_auth : Block -> Endpoint -> option AuthLevel.t) (block : Block) (st : Selecting)
    (isel : nat * ToolSelection) : Selecting :=
  let '(index, sel) := isel in
  match endpoint_position (bl_endpoints block) sel with
  | None => st
  | Some position =>
      if existsb (fun row => (row.1 =? position)%nat && bool_decide (row.2 = sel)) (se_rows st)
      then mkSelecting (se_outcome st ++ [(index, None)]) (se_resolved st) (se_rows st)
      else
        let rows := se_rows st ++ [(position, sel)] in
        match nat_assoc position (se_resolved st) with
        | Some (_, level) =>
            mkSelecting (se_outcome st ++ [(index, Some (match level with None => SelectionUnpublished | Some _ => SelectionShadowed end))])
              (se_resolved st) rows
        | None =>
            let level := match bl_endpoints block !! position with Some ep => effective_auth block ep | None => None end in
            mkSelecting (se_outcome st ++ [(index, match level with Some _ => None | None => Some SelectionUnpublished end)])
              (se_resolved st ++ [(position, (sel, level))]) rows
        end
  end.

Definition select_block (effective_auth : Block -> Endpoint -> option AuthLevel.t) (block : Block)
    (chosen : list (nat * ToolSelection)) : Selecting :=
  fold_left (select_one effective_auth block) chosen (mkSelecting [] [] []).

(** The selected endpoints of a block, in declaration order, each under its
    selection's name. *)
Definition shadow_endpoints (eps : list Endpoint) (resolved : list (nat * (ToolSelection * option AuthLevel.t))) :
    list (Endpoint * option AuthLevel.t) :=
  omap (fun '(position, ep) =>
          match nat_assoc position resolved with
          | Some (sel, Some level) =>
              Some (mkEndpointInfo (en_method ep) (en_path ep) (en_summary ep) (en_description ep) (en_input_schema ep)
                      (en_output_schema ep) (en_path_params ep) (en_query_params ep) (en_tags ep) (en_deprecated ep)
                      (Some (mkTool (ts_name sel) (ts_description sel))), Some level)
          | _ => None
          end)
    (combine (seq 0 (length eps)) eps).

(** The blocks the selections name, each name's first, with what became of
    the selections. *)
Fixpoint select_blocks (effective_auth : Block -> Endpoint -> option AuthLevel.t) (blocks : list Block)
    (selections : list (nat * ToolSelection)) (taken : list string) :
    list (Block * list (option AuthLevel.t)) * list (nat * option WebMcpRefusal) :=
  match blocks with
  | [] => ([], [])
  | block :: blocks =>
      let chosen := List.filter (fun isel => ts_block isel.2 =s bl_name block) selections in
      if listed (bl_name block) taken || (match chosen with [] => true | _ => false end)
      then select_blocks effective_auth blocks selections taken
      else
        let st := select_block effective_auth block chosen in
        let shadow := shadow_endpoints (bl_endpoints block) (se_resolved st) in
        let '(shadows, outcomes) := select_blocks effective_auth blocks selections (bl_name block :: taken) in
        ((match shadow with
          | [] => []
          | _ => [(mkBlock (bl_name block) (map fst shadow), map snd shadow)]
          end) ++ shadows, se_outcome st ++ outcomes)
  end.

(** The refusal of a selection that projects onto nothing. *)
Definition selection_refusal (outcomes : list (nat * option WebMcpRefusal)) (isel : nat * ToolSelection) :
    list WebMcpRefusalReport :=
  let '(index, sel) := isel in
  match default (Some SelectionNotFound) (nat_assoc index outcomes) with
  | Some reason => [mkRefusal (ts_block sel) (ts_method sel) (ts_path sel) (ts_name sel) ScopeTool reason false]
  | None => []
  end.

(** [generate_webmcp_selected]. *)
Definition webmcp_selected (blocks : list Block) (caller : AuthLevel.t) (effective_auth : Block -> Endpoint -> option AuthLevel.t)
    (selections : list ToolSelection) : Value * list WebMcpRefusalReport :=
  let indexed := combine (seq 0 (length selections)) selections in
  let '(shadows, outcomes) := select_blocks effective_auth blocks indexed [] in
  let '(doc, refused) := webmcp_report_resolved (map fst shadows) (map snd shadows) caller Selected in
  (doc, refused ++ flat_map (selection_refusal outcomes) indexed).
End Manifest.
