(* ===== verification/WebMcpProps.v ===== *)
(** Properties of the tool manifest: what a caller may not invoke has no trace
    in it, a published tool is one its caller can invoke, its name denotes one
    endpoint, filling its path template reaches that endpoint, its schemas
    stand alone, and a page's selection publishes nothing it did not choose. *)

From stdpp Require Import sorting.
From S2P Require Import Prelude CoreTypes BlockName Registration Text Lifecycle Requests Routing RoutingProps ConfigExpand.
From S2P Require Import SchemaRefs SchemaRefsProps WebMcp.

(** ** Lists *)

Lemma sort_perm l : sort_strings l ≡ₚ l.
Proof. apply merge_sort_Permutation. Qed.

Lemma elem_sort x l : x ∈ sort_strings l <-> x ∈ l.
Proof. by rewrite (sort_perm l). Qed.

Lemma sort_nil l : sort_strings l = [] -> l = [].
Proof. intros E. apply Permutation_nil. by rewrite <- E, sort_perm. Qed.

Lemma elem_dedup x l : x ∈ dedup l <-> x ∈ l.
Proof.
  induction l as [|a l IH]; [done|]. cbn. destruct l as [|b l]; [set_solver|]. destruct (a =s b) eqn:E.
  - apply eqs_true in E as ->. rewrite IH. set_solver.
  - rewrite !elem_of_cons, IH. set_solver.
Qed.

Lemma dedup_sort_nil l : dedup (sort_strings l) = [] -> l = [].
Proof.
  intros E. destruct l as [|x l]; [done|]. assert (Hx : x ∈ x :: l) by apply list_elem_of_here. apply elem_sort, elem_dedup in Hx. rewrite E in Hx. by apply not_elem_of_nil in Hx.
Qed.

Lemma filter_nil {A} (f : A -> bool) l : List.filter f l = [] -> forall x, x ∈ l -> f x = false.
Proof.
  intros E x Hx. destruct (f x) eqn:Hf; [|done]. exfalso.
  assert (H : In x (List.filter f l)) by (apply filter_In; split; [by apply list_elem_of_In|done]). by rewrite E in H.
Qed.

Lemma occurrences_elem x l : x ∈ l -> 0 < occurrences x l.
Proof.
  induction l as [|a l IH]; [by intros ?%not_elem_of_nil|]. intros [<-|H]%elem_of_cons; cbn.
  - rewrite eqs_refl. lia.
  - specialize (IH H). lia.
Qed.

Lemma occurrences_app x l l' : occurrences x (l ++ l') = occurrences x l + occurrences x l'.
Proof. induction l as [|a l IH]; cbn; [done|]. rewrite IH. lia. Qed.

Lemma occurrences_NoDup l : (forall x, x ∈ l -> occurrences x l <= 1) -> NoDup l.
Proof.
  induction l as [|a l IH]; intros H; [constructor|]. constructor.
  - intros Ha%occurrences_elem. specialize (H a (list_elem_of_here _ _)). cbn in H. rewrite eqs_refl in H. lia.
  - apply IH. intros x Hx. specialize (H x (list_elem_of_further _ _ _ Hx)). cbn in H. lia.
Qed.

Lemma collisions_NoDup l : collisions_of l = [] -> NoDup l.
Proof.
  intros E%dedup_sort_nil. apply occurrences_NoDup. intros x Hx. pose proof (filter_nil _ _ E x Hx) as H. cbv beta in H.
  by apply Nat.ltb_ge in H.
Qed.

Lemma flat_map_filter {A B} (f : A -> bool) (g : A -> list B) l :
  (forall x, f x = false -> g x = []) -> flat_map g (List.filter f l) = flat_map g l.
Proof. intros H. induction l as [|a l IH]; cbn; [done|]. destruct (f a) eqn:E; cbn; rewrite IH; [done|]. by rewrite H. Qed.

Lemma flat_map_elem {A B} (g : A -> list B) l y : y ∈ flat_map g l <-> exists x, x ∈ l /\ y ∈ g x.
Proof. rewrite list_elem_of_In, in_flat_map. setoid_rewrite list_elem_of_In. done. Qed.

Lemma merge_required_elem x names l : x ∈ merge_required names l <-> x ∈ names \/ x ∈ l.
Proof.
  revert l. induction names as [|n names IH]; intros l; cbn; [set_solver|]. rewrite IH. destruct (listed n l) eqn:E.
  - apply listed_iff in E. set_solver.
  - set_solver.
Qed.

(** ** Merging *)

Section Merging.
  Context `{PercentEncoding}.

Lemma fold_insert_assoc props m name :
  is_Some (assoc name (fold_left (fun l kv => entry_insert l kv.1 kv.2) props m))
  <-> name ∈ map fst props \/ is_Some (assoc name (m : list (string * Value))).
Proof.
  revert m. induction props as [|[k v] props IH]; intros m; cbn; [set_solver|]. rewrite IH, assoc_entry_insert.
  destruct (k =s name) eqn:E; rewrite elem_of_cons.
  - apply eqs_true in E as ->. naive_solver.
  - apply eqs_false in E. naive_solver.
Qed.

(** What a source adds is what it contributed. *)
Lemma merge_properties source m m' s : merge_schema_source source m = (m', s) ->
  forall name, is_Some (assoc name (mg_properties m')) <-> name ∈ ms_contributed s \/ is_Some (assoc name (mg_properties m)).
Proof.
  unfold merge_schema_source. intros E name. destruct source as [schema|]; [|by injection E as <- <-; set_solver].
  destruct (negb (declares _)); [by injection E as <- <-; set_solver|]. destruct (inline_refs schema) as [inlined issues].
  destruct (negb (source_is_flattenable inlined)); [by injection E as <- <-; set_solver|].
  destruct (merge_defs _ _ _) as [defs colliding]. injection E as <- <-. cbn. by rewrite fold_insert_assoc, elem_sort.
Qed.

Lemma labels_nil verdict path query body : labels verdict path query body = [] ->
  verdict path = false /\ verdict query = false /\ verdict body = false.
Proof.
  unfold labels. intros E%sort_nil. cbn in E. destruct (verdict path), (verdict query), (verdict body); try done.
Qed.

Lemma non_scalar_nil label s properties : non_scalar label s properties = [] ->
  forall name, name ∈ ms_contributed s -> exists schema, assoc name properties = Some schema /\ param_is_scalar_valued schema = true.
Proof.
  unfold non_scalar. intros E%map_eq_nil name Hn. pose proof (filter_nil _ _ E name Hn) as Hf. cbn in Hf.
  destruct (assoc name properties) as [schema|]; [|done]. exists schema. split; [done|]. by apply negb_false_iff.
Qed.

Lemma schema_required properties required closed defs :
  names_of "required" (merged_document properties required closed defs) ≡ₚ required.
Proof.
  assert (Hs : forall l, omap as_str (map VString l) = l) by (induction l as [|a l IH]; cbn; by rewrite ?IH).
  destruct required as [|a l]; [by destruct closed, defs|].
  change (omap as_str (map VString (sort_strings (a :: l))) ≡ₚ a :: l). rewrite Hs. apply sort_perm.
Qed.

(** The merged schema declares what the sources contributed. *)
Lemma input_schema_spec ep : let input := agent_input_schema ep in
  let params := ai_path_params input ++ ai_query_params input ++ ai_body_params input in
  let props := entries_of "properties" (ai_schema input) in
  let required := names_of "required" (ai_schema input) in
  (forall name, is_Some (assoc name props) <-> name ∈ params)
  /\ (forall name, name ∈ ai_path_params input -> name ∈ required)
  /\ (ai_collisions input = [] -> NoDup params)
  /\ (ai_undeclared_required input = [] -> forall name, name ∈ required -> name ∈ params)
  /\ (ai_non_scalar_params input = [] -> forall name, name ∈ ai_path_params input ++ ai_query_params input ->
        exists schema, assoc name props = Some schema /\ param_is_scalar_valued schema = true).
Proof.
  unfold agent_input_schema.
  destruct (merge_schema_source (en_path_params ep) _) as [m1 path] eqn:E1.
  destruct (merge_schema_source (en_query_params ep) m1) as [m2 query] eqn:E2.
  destruct (merge_schema_source (en_input_schema ep) m2) as [m3 body] eqn:E3. cbn zeta.
  cbn [ai_path_params ai_query_params ai_body_params ai_schema ai_collisions ai_undeclared_required ai_non_scalar_params].
  set (required := merge_required _ _). set (closed := match _ with [] => false | _ => _ end).
  pose proof (schema_required (mg_properties m3) required closed (mg_defs m3)) as Hr.
  change (entries_of "properties" (merged_document _ _ _ _)) with (mg_properties m3).
  assert (Hp : forall name, is_Some (assoc name (mg_properties m3))
                            <-> name ∈ ms_contributed path ++ ms_contributed query ++ ms_contributed body).
  { intros name. rewrite (merge_properties _ _ _ _ E3), (merge_properties _ _ _ _ E2), (merge_properties _ _ _ _ E1).
    rewrite !elem_of_app. cbn. split; [intros [?|[?|[?|[? [=]]]]]; auto|intros [?|[?|?]]; auto]. }
  split; [done|]. split; [|split; [|split]].
  - intros name Hn. rewrite Hr. apply merge_required_elem. by left.
  - apply collisions_NoDup.
  - intros Hu%dedup_sort_nil name Hn. rewrite Hr in Hn. apply Hp. pose proof (filter_nil _ _ Hu name Hn) as Hf.
    cbv beta in Hf. by destruct (assoc name (mg_properties m3)).
  - intros [Ha Hb]%sort_nil%app_eq_nil name [Hn|Hn]%elem_of_app.
    + by apply (non_scalar_nil _ _ _ Ha).
    + by apply (non_scalar_nil _ _ _ Hb).
Qed.

(** An endpoint that passes the checks. *)
Lemma verdict_ok ep tool input : endpoint_verdict ep tool = Ok input ->
  is_valid_name (at_name tool) = true /\ input = agent_input_schema ep
  /\ ai_collisions input = [] /\ ai_oversized_schemas input = [] /\ ai_unresolved_refs input = []
  /\ ai_undeclared_required input = [] /\ ai_non_scalar_params input = []
  /\ (exists names, path_placeholders (en_path ep) = Ok names /\ dedup (sort_strings names) = ai_path_params input)
  /\ (ai_body_params input = [] \/ method_can_carry_body (en_method ep) = true).
Proof.
  unfold endpoint_verdict. destruct (is_valid_name (at_name tool)); [|done]. cbn [negb]. cbn zeta.
  remember (agent_input_schema ep) as doc eqn:Ed. intros E.
  destruct (ai_collisions doc) eqn:E1; [|done]. destruct (ai_oversized_schemas doc) eqn:E2; [|done].
  destruct (ai_unrepresentable doc) eqn:E3; [|done]. destruct (ai_unresolved_refs doc) eqn:E4; [|done].
  destruct (ai_colliding_defs doc) eqn:E5; [|done]. destruct (ai_undeclared_required doc) eqn:E6; [|done].
  destruct (ai_non_scalar_params doc) eqn:E7; [|done].
  destruct (path_placeholders (en_path ep)) as [names|[|segment]]; [|done|done]. cbn in E.
  case_bool_decide as Hn; [|done]. cbn in E.
  destruct (ai_body_params doc) eqn:Eb, (method_can_carry_body (en_method ep)) eqn:Em; try done; cbn in E; injection E as <-;
    split_and!; eauto.
Qed.
End Merging.

(** ** Path templates *)

(** What a segment that is classified looks like. *)
Lemma classify_spec s found : classify_segment s = Ok found ->
  match found with
  | None => is_placeholder s = false /\ published_segment s = s
  | Some p => is_placeholder s = true /\ published_segment s = "{" +:+ ph_name p +:+ "}" /\ ph_name p <> ""
              /\ s = "{" +:+ (ph_name p +:+ (if ph_rest p then REST_MARKER else "")) +:+ "}"
  end.
Proof.
  unfold published_segment. intros E. rewrite E. unfold classify_segment in E. destruct (_ || _); [done|].
  destruct (negb (contains "{" s) && negb (contains "}" s)) eqn:Ec.
  - injection E as <-. split; [|done]. apply not_true_iff_false. intros [inner ->]%placeholder_spec.
    apply andb_prop in Ec as [Ec _]. by cbn in Ec.
  - destruct (strip_prefix "{" s ≫= strip_suffix "}") as [inner|] eqn:Es; [|done].
    destruct (strip_prefix "{" s) as [r|] eqn:Ep; [|done]. cbn in Es. apply strip_prefix_Some in Ep. apply strip_suffix_Some in Es.
    destruct (_ || _); [done|].
    assert (Hs : s = "{" +:+ inner +:+ "}") by (by rewrite Ep, Es).
    assert (Hp : is_placeholder s = true) by (apply placeholder_spec; eauto).
    destruct (strip_suffix REST_MARKER inner) as [base|] eqn:Er.
    + apply strip_suffix_Some in Er. destruct (is_empty base) eqn:Ee; [done|]. injection E as <-. cbn [ph_name ph_rest].
      split_and!; [done..| |by rewrite <- Er]. intros ->. done.
    + destruct (is_empty inner) eqn:Ee; [done|]. injection E as <-. cbn [ph_name ph_rest].
      split_and!; [done..| |by rewrite str_app_nil_r]. intros ->. done.
Qed.

(** The segments of a template whose placeholders were read. *)
Lemma placeholders_classified segments names : segment_placeholders segments = Ok names ->
  Forall (fun s => exists found, classify_segment s = Ok found) segments
  /\ names = omap (fun s => match classify_segment s with Ok (Some p) => Some (ph_name p) | _ => None end) segments.
Proof.
  revert names. induction segments as [|s segments IH]; cbn; intros names E; [by injection E as <-|].
  destruct (classify_segment s) as [found|] eqn:Ec; [|done]. cbn in E.
  destruct (segment_placeholders segments) as [rest|]; [|done]. cbn in E. injection E as <-.
  destruct (IH rest eq_refl) as [Hf ->]. split; [constructor; eauto|]. by destruct found.
Qed.

Lemma no_slash_app a b : no_slash (a +:+ b) = no_slash a && no_slash b.
Proof. unfold no_slash. induction a as [|c a IH]; cbn; [done|]. by rewrite IH, andb_assoc. Qed.

Lemma published_no_slash s found : classify_segment s = Ok found -> no_slash s = true -> no_slash (published_segment s) = true.
Proof.
  intros Hc Hs. pose proof (classify_spec s found Hc) as H. destruct found as [p|]; [|by destruct H as [_ ->]].
  destruct H as (_ & -> & _ & E). rewrite E in Hs. rewrite !no_slash_app in *.
  repeat match goal with H : _ && _ = true |- _ => apply andb_prop in H as [? ?] end. by repeat (apply andb_true_intro; split).
Qed.

(** Publishing a template rewrites its segments one by one. *)
Lemma published_segments path names : path_placeholders path = Ok names ->
  split "/" (published_path_template path) = map published_segment (split "/" path).
Proof.
  unfold path_placeholders, published_path_template. intros [Hf _]%placeholders_classified.
  pose proof (split_segments path) as Hn. destruct (existsb _ _) eqn:Ex.
  - rewrite split_join_path; [done|by destruct (split "/" path) eqn:E; [apply split_not_nil in E|]|].
    clear Ex. induction Hf as [|s l [found Hc] Hf IH]; cbn; [done|]. apply Forall_cons in Hn as [Hs Hn].
    constructor; [by eapply published_no_slash|auto].
  - clear Hn. induction Hf as [|s l [found Hc] Hf IH]; cbn in *; [done|]. apply orb_false_iff in Ex as [Es Ex].
    rewrite <- (IH Ex). f_equal. unfold published_segment. rewrite Hc in *. by destruct found as [p|]; [rewrite Es|].
Qed.

(** The names between the braces of a published template. *)
Definition template_names (template : string) : list string :=
  omap (fun s => if is_placeholder s then Some (placeholder_name s) else None) (split "/" template).

Lemma placeholder_braces name : is_placeholder ("{" +:+ name +:+ "}") = true /\ placeholder_name ("{" +:+ name +:+ "}") = name.
Proof.
  split; [apply placeholder_spec; eauto|]. unfold placeholder_name. cbn. rewrite str_length_app. cbn.
  replace (String.length name + 1 - 1) with (String.length name) by lia. by rewrite str_take_app.
Qed.

Lemma published_names path names : path_placeholders path = Ok names -> template_names (published_path_template path) = names.
Proof.
  intros H. unfold template_names. rewrite (published_segments _ _ H). unfold path_placeholders in H.
  apply placeholders_classified in H as [Hf ->]. induction Hf as [|s l [found Hc] Hf IH]; cbn; [done|]. rewrite IH, Hc.
  pose proof (classify_spec s found Hc) as Hs. destruct found as [p|].
  - destruct Hs as (_ & -> & _). by destruct (placeholder_braces (ph_name p)) as [-> ->].
  - by destruct Hs as [Hp ->]; rewrite Hp.
Qed.

(** ** Filling a template *)

(** The URL a client builds of a template and its arguments. *)
Definition fill_segment (values : string -> string) (s : string) : string :=
  if is_placeholder s then values (placeholder_name s) else s.
Definition fill_template (values : string -> string) (template : string) : string :=
  join "/" (map (fill_segment values) (split "/" template)).

(** What a segment of the endpoint's own pattern is filled with. *)
Definition filled (values : string -> string) (s : string) : string := fill_segment values (published_segment s).

Lemma var_set_eq m name v : var (set_meta m (META_REQ_PARAM_PREFIX +:+ name) v) name = v.
Proof. unfold var, get_meta, set_meta. cbn [msg_meta]. by rewrite meta_get_set_eq. Qed.

Lemma var_set_ne m name name' v : name <> name' ->
  var (set_meta m (META_REQ_PARAM_PREFIX +:+ name) v) name' = var m name'.
Proof.
  intros Hn. unfold var, get_meta, set_meta. cbn [msg_meta]. rewrite meta_get_set_ne; [done|]. by intros E%str_app_inj_l.
Qed.

Lemma placeholder_name_inj s s' : is_placeholder s = true -> is_placeholder s' = true ->
  placeholder_name s = placeholder_name s' -> s = s'.
Proof.
  intros [i ->]%placeholder_spec [i' ->]%placeholder_spec. destruct (placeholder_braces i) as [_ ->].
  by destruct (placeholder_braces i') as [_ ->]; intros ->.
Qed.

Lemma extract_vars_get (f : string -> string) l m s : is_placeholder s = true ->
  s ∈ l \/ var m (placeholder_name s) = f s -> var (extract_vars l (map f l) m) (placeholder_name s) = f s.
Proof.
  intros Hs. revert m. induction l as [|s' l IH]; cbn [extract_vars map]; intros m H.
  - destruct H as [H|H]; [by apply not_elem_of_nil in H|done].
  - apply IH. destruct (decide (s' = s)) as [->|Hne].
    + right. rewrite Hs. apply var_set_eq.
    + destruct H as [H|H]; [left; set_solver|]. right. destruct (is_placeholder s') eqn:E; [|done].
      rewrite var_set_ne; [done|]. by intros En%placeholder_name_inj.
Qed.

Lemma placeholders_no_wildcard path names : path_placeholders path = Ok names -> strip_suffix "/**" path = None.
Proof.
  intros [Hf _]%placeholders_classified. destruct (strip_suffix "/**" path) as [prefix|] eqn:E; [|done]. exfalso.
  apply strip_suffix_Some in E. change (path = prefix +:+ "/" +:+ "**") in E. rewrite E, split_app in Hf.
  apply Forall_app in Hf as [_ Hf]. cbn in Hf. by apply Forall_cons in Hf as [[? ?] _].
Qed.

(** C36: A template whose placeholders were read, filled with non-empty values
    without a slash, is a path of the endpoint's pattern, and the handler
    reads each value back under the placeholder's name (which keeps its rest
    marker). *)
Theorem tool_url_reaches_endpoint (path : string) (names : list string) (values : string -> string) (m : Message) :
  path_placeholders path = Ok names ->
  (forall name, name ∈ names -> values name <> "" /\ no_slash (values name) = true) ->
  let url := fill_template values (published_path_template path) in
  match_path path url = true
  /\ forall s p, s ∈ split "/" path -> classify_segment s = Ok (Some p) ->
     var (extract_path_vars path url m) (placeholder_name s) = values (ph_name p)
     /\ placeholder_name s = ph_name p +:+ (if ph_rest p then REST_MARKER else "").
Proof.
  intros Hp Hv. cbn zeta. pose proof (placeholders_no_wildcard _ _ Hp) as Hw.
  assert (Hf : Forall (fun s => segment_matches s (filled values s) /\ no_slash (filled values s) = true) (split "/" path)).
  { pose proof (split_segments path) as Hn. apply placeholders_classified in Hp as [Hc ->].
    apply Forall_forall. intros s Hs. pose proof (proj1 (Forall_forall _ _) Hc s Hs) as [found Hf].
    pose proof (classify_spec s found Hf) as Hsp. unfold segment_matches, filled, fill_segment. destruct found as [p|].
    - destruct Hsp as (-> & -> & _). destruct (placeholder_braces (ph_name p)) as [-> ->]. apply Hv.
      apply list_elem_of_omap. exists s. by rewrite Hf.
    - destruct Hsp as [Hp ->]. rewrite Hp. split; [done|]. by apply (proj1 (Forall_forall _ _) Hn). }
  assert (Hu : split "/" (fill_template values (published_path_template path)) = map (filled values) (split "/" path)).
  { unfold fill_template. rewrite (published_segments _ _ Hp), map_map. apply split_join_path.
    - by destruct (split "/" path) eqn:E; [apply split_not_nil in E|].
    - apply Forall_map. eapply Forall_impl; [exact Hf|]. by intros s [_ ?]. }
  split.
  - apply match_path_spec. unfold pattern_matches. rewrite Hw, Hu. apply Forall2_fmap_r, Forall_Forall2_diag.
    eapply Forall_impl; [exact Hf|]. by intros s [? _].
  - intros s p Hs Hc. pose proof (classify_spec s _ Hc) as (Hph & Hpub & _ & Hse).
    unfold extract_path_vars. rewrite Hw. cbn [default]. rewrite Hu. split.
    + rewrite extract_vars_get by auto. unfold filled, fill_segment. rewrite Hpub.
      by destruct (placeholder_braces (ph_name p)) as [-> ->].
    + rewrite Hse at 1. apply placeholder_braces.
Qed.

(** ** Published tools *)

(** What a client reads of a published tool. *)
Definition tool_name (v : Value) : option string := value_get v "name" ≫= as_str.
Definition invocation (v : Value) : Value := default VNull (value_get v "invocation").
Definition params (kind : string) (v : Value) : list string := names_of kind (invocation v).
Definition input_schema (v : Value) : Value := default VNull (value_get v "inputSchema").
Definition tools_of (doc : Value) : list Value := match value_get doc "tools" with Some (VArray l) => l | _ => [] end.

Lemma names_strings l : omap as_str (map VString l) = l.
Proof. induction l as [|a l IH]; cbn; by rewrite ?IH. Qed.

Lemma emitted_reads ep tool input output : let v := emitted_tool ep tool input output in
  tool_name v = Some (at_name tool) /\ input_schema v = ai_schema input /\ value_get v "outputSchema" = output
  /\ value_get (invocation v) "method" = Some (VString (method_key (en_method ep)))
  /\ value_get (invocation v) "path" = Some (VString (published_path_template (en_path ep)))
  /\ params "path_params" v = ai_path_params input /\ params "query_params" v = ai_query_params input
  /\ params "body_params" v = ai_body_params input.
Proof.
  assert (Hi : invocation (emitted_tool ep tool input output) = VObject
           [("method", VString (method_key (en_method ep))); ("path", VString (published_path_template (en_path ep)));
            ("path_params", strings (ai_path_params input)); ("query_params", strings (ai_query_params input));
            ("body_params", strings (ai_body_params input))])
    by (unfold emitted_tool, invocation; destruct (en_deprecated ep), output; reflexivity).
  cbn zeta. unfold params. rewrite !Hi.
  split_and!; try (unfold emitted_tool; destruct (en_deprecated ep), output; reflexivity); apply names_strings.
Qed.

Section Manifest.
  Context `{PercentEncoding}.

(** An endpoint that is published, with what it is published as. *)
Definition published (census : list string) (caller : AuthLevel.t) (e : Entry) (v : Value) : Prop :=
  exists tool level input, en_agent_tool e.1.2 = Some tool /\ e.2 = Some level /\ AuthLevel.leb level caller = true
    /\ endpoint_verdict e.1.2 tool = Ok input /\ occurrences (at_name tool) census = 1
    /\ v = emitted_tool e.1.2 tool input (agent_output_schema e.1.2).1.

Lemma project_published census caller mode e v : v ∈ (project census caller mode e).1 <-> published census caller e v.
Proof.
  unfold project, published. destruct e as [[block ep] level]. cbn [fst snd]. split.
  - intros Hv. destruct (en_agent_tool ep) as [tool|]; [|by apply not_elem_of_nil in Hv].
    destruct level as [level|]; [|by apply not_elem_of_nil in Hv].
    destruct (endpoint_verdict ep tool) as [input|] eqn:Ev; [|by apply not_elem_of_nil in Hv].
    destruct (AuthLevel.leb level caller) eqn:El; cbn [negb] in Hv; [|by apply not_elem_of_nil in Hv].
    destruct (occurrences (at_name tool) census =? 1)%nat eqn:Ec; cbn [negb] in Hv; [|by apply not_elem_of_nil in Hv].
    apply Nat.eqb_eq in Ec. destruct (agent_output_schema ep) as [output dropped]. cbn [fst] in *.
    apply list_elem_of_singleton in Hv as ->. by exists tool, level, input.
  - intros (tool & level' & input & -> & -> & -> & -> & -> & ->). cbn [negb Nat.eqb].
    destruct (agent_output_schema ep) as [output dropped]. apply list_elem_of_here.
Qed.

Lemma manifest_published es caller mode v :
  v ∈ (project_all es caller mode).1 <-> exists e, e ∈ es /\ published (flat_map (claims caller) es) caller e v.
Proof. unfold project_all. cbn [fst]. rewrite flat_map_elem. by setoid_rewrite project_published. Qed.

Lemma report_tools blocks levels caller mode :
  tools_of (webmcp_report_resolved blocks levels caller mode).1 = (project_all (entries blocks levels) caller mode).1.
Proof. unfold webmcp_report_resolved. by destruct (project_all _ _ _). Qed.

Lemma entries_resolved effective_auth blocks e : e ∈ entries blocks (resolved_levels effective_auth blocks) <->
  exists block ep, block ∈ blocks /\ ep ∈ bl_endpoints block
    /\ e = (bl_name block, ep, match en_agent_tool ep with Some _ => effective_auth block ep | None => None end).
Proof.
  unfold entries, resolved_levels.
  assert (Hz : forall A B (f : A -> B) l, combine l (map f l) = map (fun x => (x, f x)) l)
    by (intros A B f l; induction l as [|a l IH]; cbn; by rewrite ?IH).
  rewrite Hz, flat_map_elem. setoid_rewrite list_elem_of_fmap. split.
  - intros ([block levels] & (bl & [= -> ->] & Hb) & ([ep level] & -> & He)). cbn in *. rewrite Hz in He.
    apply list_elem_of_fmap in He as (ep' & [= -> ->] & He). eauto.
  - intros (block & ep & Hb & He & ->). eexists (block, _). split; [by exists block|].
    exists (ep, match en_agent_tool ep with Some _ => effective_auth block ep | None => None end). split; [done|]. cbn.
    rewrite Hz. apply list_elem_of_fmap. eauto.
Qed.

(** A tool its caller can invoke: the arguments it takes are the properties
    of its schema, each in one place, and those it must be given. *)
Record invocable (v : Value) : Prop := {
  iv_distinct : NoDup (params "path_params" v ++ params "query_params" v ++ params "body_params" v);
  iv_declared name : is_Some (assoc name (entries_of "properties" (input_schema v)))
    <-> name ∈ params "path_params" v ++ params "query_params" v ++ params "body_params" v;
  iv_required name : name ∈ names_of "required" (input_schema v) ->
    name ∈ params "path_params" v ++ params "query_params" v ++ params "body_params" v;
  iv_path_required name : name ∈ params "path_params" v -> name ∈ names_of "required" (input_schema v);
  iv_template : exists path, value_get (invocation v) "path" = Some (VString path)
    /\ forall name, name ∈ template_names path <-> name ∈ params "path_params" v;
  iv_scalar name : name ∈ params "path_params" v ++ params "query_params" v ->
    exists schema, assoc name (entries_of "properties" (input_schema v)) = Some schema /\ param_is_scalar_valued schema = true;
  iv_body : params "body_params" v = []
    \/ value_get (invocation v) "method" = Some (VString "post") \/ value_get (invocation v) "method" = Some (VString "patch")
}.

Lemma verdict_invocable ep tool input output : endpoint_verdict ep tool = Ok input ->
  invocable (emitted_tool ep tool input output).
Proof.
  intros Hv. apply verdict_ok in Hv as (_ & -> & Hc & _ & _ & Hu & Hs & (names & Hn & Hp) & Hb).
  destruct (input_schema_spec ep) as (Hd & Hr & Hdup & Hreq & Hsc).
  destruct (emitted_reads ep tool (agent_input_schema ep) output) as (_ & Ei & _ & Em & Et & E1 & E2 & E3).
  constructor; rewrite ?Ei, ?Em, ?Et, ?E1, ?E2, ?E3; auto.
  - exists (published_path_template (en_path ep)). split; [done|]. intros name. rewrite (published_names _ _ Hn), <- Hp.
    by rewrite elem_dedup, elem_sort.
  - destruct Hb as [->|Hb]; [by left|]. right. destruct (en_method ep); try done; auto.
Qed.

(** C34: Every tool of the manifest is an agent tool a block declares, at a level
    its caller has, with a valid name, and can be invoked. *)
Theorem published_tools_invocable (blocks : list Block) (caller : AuthLevel.t)
    (effective_auth : Block -> Endpoint -> option AuthLevel.t) (v : Value) :
  v ∈ tools_of (generate_webmcp blocks caller effective_auth) ->
  exists block ep tool level, block ∈ blocks /\ ep ∈ bl_endpoints block /\ en_agent_tool ep = Some tool
    /\ effective_auth block ep = Some level /\ AuthLevel.leb level caller = true
    /\ tool_name v = Some (at_name tool) /\ is_valid_name (at_name tool) = true /\ invocable v.
Proof.
  unfold generate_webmcp, webmcp_report. rewrite report_tools, manifest_published. intros (e & He & Hp).
  apply entries_resolved in He as (block & ep & Hb & Hep & ->). destruct Hp as (tool & level & input & Ht & Hl & Hc & Hv & _ & ->).
  cbn [fst snd] in *. rewrite Ht in Hl. exists block, ep, tool, level. split_and!; try done.
  - by apply verdict_ok in Hv as [? _].
  - by eapply verdict_invocable.
Qed.

(** ** Names *)

Lemma occurrences_claims n caller (es : list Entry) e : e ∈ es -> n ∈ claims caller e ->
  1 <= occurrences n (flat_map (claims caller) es).
Proof. intros He Hn. apply occurrences_elem, flat_map_elem. eauto. Qed.

Lemma claimed_twice n caller (es : list Entry) e e' : e ∈ es -> e' ∈ es ->
  n ∈ claims caller e -> n ∈ claims caller e' -> e = e' \/ 2 <= occurrences n (flat_map (claims caller) es).
Proof.
  intros He He' Hn Hn'. induction es as [|a es IH]; [by apply not_elem_of_nil in He|]. cbn. rewrite occurrences_app.
  apply elem_of_cons in He as [<-|He], He' as [<-|He']; [by left|right..|].
  - pose proof (occurrences_elem _ _ Hn). pose proof (occurrences_claims _ _ _ _ He' Hn'). lia.
  - pose proof (occurrences_elem _ _ Hn'). pose proof (occurrences_claims _ _ _ _ He Hn). lia.
  - destruct (IH He He') as [?|?]; [by left|right; lia].
Qed.

Lemma published_claims census caller caller' e v : published census caller e v -> AuthLevel.leb caller caller' = true ->
  exists n, tool_name v = Some n /\ n ∈ claims caller' e /\ occurrences n census = 1.
Proof.
  intros (tool & level & input & Ht & Hl & Hc & Hv & Ho & ->) Hle. exists (at_name tool).
  destruct (emitted_reads e.1.2 tool input (agent_output_schema e.1.2).1) as [-> _]. split_and!; [done| |done].
  unfold claims. rewrite Ht, Hl. apply verdict_ok in Hv as [-> _]. cbn.
  unfold AuthLevel.leb in *. rewrite (proj2 (Nat.leb_le _ _)) by (apply Nat.leb_le in Hc, Hle; lia). apply list_elem_of_here.
Qed.

Lemma emitted_names census caller mode n (es : list Entry) :
  occurrences n (omap tool_name (flat_map (fun e => (project census caller mode e).1) es))
  <= occurrences n (flat_map (claims caller) es).
Proof.
  induction es as [|e es IH]; [done|]. cbn. rewrite omap_app, !occurrences_app. enough (
    occurrences n (omap tool_name (project census caller mode e).1) <= occurrences n (claims caller e)) by lia.
  destruct ((project census caller mode e).1) as [|v l] eqn:E; [cbn; lia|].
  assert (Hv : v ∈ (project census caller mode e).1) by (rewrite E; apply list_elem_of_here).
  assert (l = []) as ->.
  { revert E. unfold project. destruct e as [[? ep] level]. repeat case_match; cbn; intros [=]; done. }
  apply project_published, (published_claims _ _ caller) in Hv as (m & Hm & Hc & _); [|apply Nat.leb_refl].
  cbn. rewrite Hm. cbn. destruct (m =s n) eqn:En; [|lia]. apply eqs_true in En as ->. pose proof (occurrences_elem _ _ Hc). lia.
Qed.

Lemma published_same es caller caller' e e' v v' : e ∈ es -> e' ∈ es -> AuthLevel.leb caller caller' = true ->
  published (flat_map (claims caller) es) caller e v -> published (flat_map (claims caller') es) caller' e' v' ->
  tool_name v = tool_name v' -> v = v'.
Proof.
  intros He He' Hle Hp Hp' E.
  destruct (published_claims _ _ caller' _ _ Hp Hle) as (n & Hn & Hc & _).
  destruct (published_claims _ _ caller' _ _ Hp' ltac:(apply Nat.leb_refl)) as (n' & Hn' & Hc' & Ho).
  assert (n' = n) as -> by congruence. destruct (claimed_twice n caller' es e e' He He' Hc Hc') as [<-|?]; [|lia].
  destruct Hp as (tool & ? & input & Ht & _ & _ & Hv & _ & ->), Hp' as (tool' & ? & input' & Ht' & _ & _ & Hv' & _ & ->).
  congruence.
Qed.

(** The names of a manifest are distinct, and a name denotes the same tool to
    every caller who is shown it: a caller of another level sees that tool or
    none of that name, never another one. *)
Theorem tool_names_denote (blocks : list Block) (effective_auth : Block -> Endpoint -> option AuthLevel.t)
    (caller caller' : AuthLevel.t) :
  NoDup (omap tool_name (tools_of (generate_webmcp blocks caller effective_auth)))
  /\ forall v v', v ∈ tools_of (generate_webmcp blocks caller effective_auth) ->
       v' ∈ tools_of (generate_webmcp blocks caller' effective_auth) -> tool_name v = tool_name v' -> v = v'.
Proof.
  unfold generate_webmcp, webmcp_report. rewrite !report_tools. set (es := entries _ _). split.
  - apply occurrences_NoDup. intros n Hn. etransitivity; [apply emitted_names|].
    apply list_elem_of_omap in Hn as (v & Hv & Hn). apply manifest_published in Hv as (e & He & Hp).
    destruct (published_claims _ _ caller _ _ Hp ltac:(apply Nat.leb_refl)) as (n' & Hn' & _ & Ho).
    assert (n' = n) as -> by congruence. lia.
  - intros v v' (e & He & Hp)%manifest_published (e' & He' & Hp')%manifest_published E.
    destruct (AuthLevel.leb caller caller') eqn:Hle; [by apply (published_same es caller caller' e e')|].
    symmetry. apply (published_same es caller' caller e' e); try done.
    unfold AuthLevel.leb in *. apply Nat.leb_gt in Hle. apply Nat.leb_le. lia.
Qed.

(** ** What a caller learns *)

Definition shown (caller : AuthLevel.t) (e : Entry) : bool := visible caller e.2.

Lemma claims_hidden caller e : shown caller e = false -> claims caller e = [].
Proof. unfold shown, claims. intros ->. destruct (en_agent_tool e.1.2); [|done]. by rewrite andb_false_r. Qed.

Lemma project_hidden census caller mode e : shown caller e = false ->
  (project census caller mode e).1 = [] /\ List.filter rr_visible_to_caller (project census caller mode e).2 = [].
Proof.
  unfold shown, project, visible. destruct e as [[block ep] level]. cbn [snd]. intros Hs.
  destruct (en_agent_tool ep) as [tool|]; [|done]. destruct level as [level|]; [|done]. rewrite Hs.
  by destruct (endpoint_verdict ep tool).
Qed.

Lemma filter_flat_map {A B} (f : B -> bool) (g : A -> list B) l :
  List.filter f (flat_map g l) = flat_map (fun x => List.filter f (g x)) l.
Proof. induction l as [|a l IH]; cbn; [done|]. by rewrite List.filter_app, IH. Qed.

(** The manifest and the visible part of the report are those of the entries
    the caller is shown. *)
Lemma project_all_shown es caller mode :
  (project_all es caller mode).1 = (project_all (List.filter (shown caller) es) caller mode).1
  /\ List.filter rr_visible_to_caller (project_all es caller mode).2
     = List.filter rr_visible_to_caller (project_all (List.filter (shown caller) es) caller mode).2.
Proof.
  unfold project_all. cbn [fst snd]. rewrite (flat_map_filter (shown caller) (claims caller)) by apply claims_hidden.
  rewrite !filter_flat_map, !(flat_map_filter (shown caller)); [done|..]; intros e He;
    by destruct (project_hidden (flat_map (claims caller) es) caller mode e He).
Qed.

(** C33: What a caller may not invoke leaves no trace: two sites that agree on the
    endpoints at the caller's level serve it the same manifest and the same
    part of the report it may read. *)
Theorem manifest_hides_other_levels (blocks blocks' : list Block) (caller : AuthLevel.t)
    (effective_auth effective_auth' : Block -> Endpoint -> option AuthLevel.t) :
  List.filter (shown caller) (entries blocks (resolved_levels effective_auth blocks))
  = List.filter (shown caller) (entries blocks' (resolved_levels effective_auth' blocks')) ->
  generate_webmcp blocks caller effective_auth = generate_webmcp blocks' caller effective_auth'
  /\ List.filter rr_visible_to_caller (webmcp_report blocks caller effective_auth).2
     = List.filter rr_visible_to_caller (webmcp_report blocks' caller effective_auth').2.
Proof.
  intros E. unfold generate_webmcp, webmcp_report, webmcp_report_resolved.
  pose proof (project_all_shown (entries blocks (resolved_levels effective_auth blocks)) caller Declared) as [H1 H2].
  pose proof (project_all_shown (entries blocks' (resolved_levels effective_auth' blocks')) caller Declared) as [H1' H2'].
  rewrite E in H1, H2. rewrite <- H1' in H1. rewrite <- H2' in H2.
  destruct (project_all (entries blocks _) _ _), (project_all (entries blocks' _) _ _). cbn in *. by rewrite H1.
Qed.

(** C37: Nothing is dropped in silence: an agent tool that fails a check is in the
    report with the check it failed, whoever asks; one that passes and is at
    the caller's level is published, with the reason its output schema was
    dropped if it was, or reported as one of several of its name. *)
Theorem every_tool_accounted (blocks : list Block) (caller : AuthLevel.t)
    (effective_auth : Block -> Endpoint -> option AuthLevel.t) (block : Block) (ep : Endpoint) (tool : AgentTool)
    (level : AuthLevel.t) :
  block ∈ blocks -> ep ∈ bl_endpoints block -> en_agent_tool ep = Some tool -> effective_auth block ep = Some level ->
  let report := (webmcp_report blocks caller effective_auth).2 in
  let refusal scope reason := mkRefusal (bl_name block) (en_method ep) (en_path ep) (at_name tool) scope reason
                                (AuthLevel.leb level caller) in
  match endpoint_verdict ep tool with
  | Err reason => refusal ScopeTool reason ∈ report
  | Ok input => AuthLevel.leb level caller = true ->
      (emitted_tool ep tool input (agent_output_schema ep).1 ∈ tools_of (generate_webmcp blocks caller effective_auth)
       /\ forall reason, (agent_output_schema ep).2 = Some reason -> refusal ScopeOutputSchema reason ∈ report)
      \/ exists count, 2 <= count /\ refusal ScopeTool (DuplicateToolName count) ∈ report
  end.
Proof.
  intros Hb He Ht Hl. cbn zeta. unfold generate_webmcp, webmcp_report. rewrite report_tools.
  set (e := (bl_name block, ep, Some level) : Entry). set (es := entries _ _).
  assert (Hin : e ∈ es) by (apply entries_resolved; exists block, ep; by rewrite Ht, Hl).
  assert (Hr : forall r, r ∈ (project (flat_map (claims caller) es) caller Declared e).2 ->
                         r ∈ (webmcp_report_resolved blocks (resolved_levels effective_auth blocks) caller Declared).2).
  { intros r Hr. unfold webmcp_report_resolved. change (r ∈ (project_all es caller Declared).2). apply flat_map_elem. eauto. }
  unfold project in Hr. cbn [e fst snd] in Hr. rewrite Ht, andb_true_r in Hr.
  destruct (endpoint_verdict ep tool) as [input|reason] eqn:Ev; [|apply Hr, list_elem_of_here]. intros Hc. rewrite Hc in *. cbn [negb] in Hr.
  destruct (Nat.eqb_spec (occurrences (at_name tool) (flat_map (claims caller) es)) 1) as [Ho|Ho]; cbn [negb] in Hr.
  - left. destruct (agent_output_schema ep) as [output dropped] eqn:Ea. split.
    + apply manifest_published. exists e. split; [done|]. exists tool, level, input. cbn [e fst snd]. by rewrite Ea.
    + cbn. intros reason ->. apply Hr, list_elem_of_here.
  - right. eexists. split; [|apply Hr, list_elem_of_here].
    assert (Hn : at_name tool ∈ claims caller e).
    { unfold claims. cbn [e fst snd]. rewrite Ht. apply verdict_ok in Ev as [-> _]. cbn. rewrite Hc. apply list_elem_of_here. }
    pose proof (occurrences_claims _ _ _ _ Hin Hn). lia.
Qed.

(** ** Selections *)

Lemma endpoint_position_spec eps sel p : endpoint_position eps sel = Some p ->
  exists ep, eps !! p = Some ep /\ en_method ep = ts_method sel /\ en_path ep = ts_path sel.
Proof.
  revert p. induction eps as [|ep eps IH]; cbn; intros p E; [done|].
  destruct (_ && _) eqn:Em; [|by destruct (endpoint_position eps sel) as [q|]; [injection E as <-; apply IH|]].
  injection E as <-. apply andb_prop in Em as [Em%bool_decide_eq_true Ep%eqs_true]. by exists ep.
Qed.

Lemma nat_assoc_elem {A} n (l : list (nat * A)) a : nat_assoc n l = Some a -> (n, a) ∈ l.
Proof.
  induction l as [|[m b] l IH]; cbn; [done|]. destruct (m =? n)%nat eqn:E; [|set_solver].
  apply Nat.eqb_eq in E as ->. intros [= ->]. apply list_elem_of_here.
Qed.

(** What the selections of a block have settled comes from them. *)
Record selections_settled (effective_auth : Block -> Endpoint -> option AuthLevel.t) (block : Block)
    (chosen : list (nat * ToolSelection)) (st : Selecting) : Prop := {
  sd_resolved p sel level : (p, (sel, level)) ∈ se_resolved st ->
    sel ∈ map snd chosen /\ exists ep, bl_endpoints block !! p = Some ep /\ en_method ep = ts_method sel
      /\ en_path ep = ts_path sel /\ level = effective_auth block ep;
  sd_outcome i o : (i, o) ∈ se_outcome st -> exists sel, (i, sel) ∈ chosen /\ is_Some (endpoint_position (bl_endpoints block) sel)
}.

Lemma select_one_settled effective_auth block chosen st isel : selections_settled effective_auth block chosen st ->
  isel ∈ chosen -> selections_settled effective_auth block chosen (select_one effective_auth block st isel).
Proof.
  intros [Hr Ho] Hin. unfold select_one. destruct isel as [index sel].
  destruct (endpoint_position (bl_endpoints block) sel) as [p|] eqn:Ep; [|by split].
  assert (Ho' : forall o i o', (i, o') ∈ se_outcome st ++ [(index, o)] ->
             exists sel, (i, sel) ∈ chosen /\ is_Some (endpoint_position (bl_endpoints block) sel)).
  { intros o i o' [Hi|[= -> ->]%list_elem_of_singleton]%elem_of_app; [by eapply Ho|]. exists sel. by rewrite Ep. }
  destruct (existsb _ _); [split; [exact Hr|apply Ho']|].
  destruct (nat_assoc p (se_resolved st)) as [[sel' level]|]; [split; [exact Hr|apply Ho']|].
  split; [|apply Ho']. cbn [se_resolved].
  intros q sel' level [Hq|[= -> -> ->]%list_elem_of_singleton]%elem_of_app; [by apply Hr|]. split.
  - apply list_elem_of_fmap. by exists (index, sel).
  - apply endpoint_position_spec in Ep as (ep & He & Hm & Hp). exists ep. by rewrite He.
Qed.

Lemma select_block_settled effective_auth block chosen :
  selections_settled effective_auth block chosen (select_block effective_auth block chosen).
Proof.
  unfold select_block. enough (forall l st, selections_settled effective_auth block chosen st -> (forall x, x ∈ l -> x ∈ chosen) ->
    selections_settled effective_auth block chosen (fold_left (select_one effective_auth block) l st)) as H0.
  { apply H0; [|done]. split; cbn; [intros p sel level Hn|intros i o Hn]; by apply not_elem_of_nil in Hn. }
  induction l as [|isel l IH]; cbn; intros st Hst Hl; [done|]. apply IH; [apply select_one_settled; set_solver|set_solver].
Qed.

Lemma combine_lookup {A} (l : list A) n p a : (p, a) ∈ combine (seq n (length l)) l -> exists k, p = n + k /\ l !! k = Some a.
Proof.
  revert n. induction l as [|b l IH]; cbn; intros n H0; [by apply not_elem_of_nil in H0|].
  apply elem_of_cons in H0 as [[= -> ->]|H0]; [exists 0; split; [lia|done]|].
  apply IH in H0 as (k & -> & Hk). exists (S k). split; [lia|done].
Qed.

Lemma combine_map {A B} (l : list (A * B)) : combine (map fst l) (map snd l) = l.
Proof. induction l as [|[a b] l IH]; cbn; by rewrite ?IH. Qed.

(** An endpoint that is published for a selection. *)
Definition selected_entry (effective_auth : Block -> Endpoint -> option AuthLevel.t) (blocks : list Block)
    (selections : list ToolSelection) (e : Entry) : Prop :=
  exists block ep sel level, block ∈ blocks /\ ep ∈ bl_endpoints block /\ sel ∈ selections
    /\ ts_block sel = bl_name block /\ ts_method sel = en_method ep /\ ts_path sel = en_path ep
    /\ effective_auth block ep = Some level /\ e.2 = Some level
    /\ en_agent_tool e.1.2 = Some (mkTool (ts_name sel) (ts_description sel))
    /\ en_method e.1.2 = en_method ep /\ en_path e.1.2 = en_path ep.

Lemma shadow_selected effective_auth blocks block chosen (selections : list (nat * ToolSelection)) x :
  block ∈ blocks -> (forall isel, isel ∈ chosen -> isel ∈ selections /\ ts_block isel.2 = bl_name block) ->
  x ∈ shadow_endpoints (bl_endpoints block) (se_resolved (select_block effective_auth block chosen)) ->
  selected_entry effective_auth blocks (map snd selections) (bl_name block, x.1, x.2).
Proof.
  intros Hb Hc. unfold shadow_endpoints. intros ([p ep] & Hpe & Hx)%list_elem_of_omap.
  apply combine_lookup in Hpe as (k & -> & Hk). cbn in Hx.
  destruct (nat_assoc k _) as [[sel [level|]]|] eqn:En; [|done|done]. injection Hx as <-.
  apply nat_assoc_elem, (sd_resolved _ _ _ _ (select_block_settled effective_auth block chosen)) in En as (Hs & ep' & Hk' & Hm & Hp & Hl).
  apply list_elem_of_fmap in Hs as ([i sel'] & -> & Hi). destruct (Hc _ Hi) as [Hin Hn]. cbn in *.
  assert (ep' = ep) as -> by congruence. exists block, ep, sel', level. cbn. split_and!; try done.
  - by eapply list_elem_of_lookup_2.
  - apply list_elem_of_fmap. by exists (i, sel').
Qed.

(** The blocks and the outcomes of the selections come from them too. *)
Lemma select_blocks_spec effective_auth all blocks selections taken shadows outcomes :
  (forall b, b ∈ blocks -> b ∈ all) ->
  select_blocks effective_auth blocks selections taken = (shadows, outcomes) ->
  (forall e, e ∈ entries (map fst shadows) (map snd shadows) -> selected_entry effective_auth all (map snd selections) e)
  /\ (forall i o, (i, o) ∈ outcomes -> exists block sel, block ∈ all /\ (i, sel) ∈ selections
        /\ ts_block sel = bl_name block /\ is_Some (endpoint_position (bl_endpoints block) sel)).
Proof.
  unfold entries. rewrite combine_map. intros Hall.
  revert taken shadows outcomes. induction blocks as [|block blocks IH]; cbn; intros taken shadows outcomes E.
  { injection E as <- <-. split; [intros e He|intros i o He]; by apply not_elem_of_nil in He. }
  specialize (IH (fun b Hb => Hall b (list_elem_of_further _ _ _ Hb))). set (chosen := List.filter _ selections) in E.
  destruct (_ || _); [by eapply IH|]. destruct (select_blocks _ _ _ _) as [shadows' outcomes'] eqn:Es. injection E as <- <-.
  destruct (IH _ _ _ Es) as [IH1 IH2]. assert (Hb : block ∈ all) by (apply Hall, list_elem_of_here).
  assert (Hc : forall isel, isel ∈ chosen -> isel ∈ selections /\ ts_block isel.2 = bl_name block).
  { intros isel Hi. apply list_elem_of_In, filter_In in Hi as [Hi Hn%eqs_true]. split; [by apply list_elem_of_In|done]. }
  split.
  - intros e. rewrite flat_map_app. intros [He|He]%elem_of_app; [|by apply IH1].
    destruct (shadow_endpoints _ _) as [|x0 xs] eqn:Esh; [by apply not_elem_of_nil in He|]. rewrite <- Esh in He. clear Esh.
    cbn in He. rewrite app_nil_r, combine_map in He. apply list_elem_of_fmap in He as (x & -> & Hx).
    by apply (shadow_selected effective_auth all block chosen).
  - intros i o [Ho|Ho]%elem_of_app; [|by eapply IH2].
    apply (sd_outcome _ _ _ _ (select_block_settled effective_auth block chosen)) in Ho as (sel & Hi & Hp).
    exists block, sel. by destruct (Hc _ Hi).
Qed.

Lemma indexed_elem {A} (l : list A) i a : (i, a) ∈ combine (seq 0 (length l)) l -> l !! i = Some a.
Proof. intros (k & -> & Hk)%combine_lookup. done. Qed.

Lemma indexed_values {A} (l : list A) n : map snd (combine (seq n (length l)) l) = l.
Proof. revert n. induction l as [|a l IH]; cbn; intros n; [done|]. by rewrite IH. Qed.

Lemma lookup_indexed {A} (l : list A) n k a : l !! k = Some a -> (n + k, a) ∈ combine (seq n (length l)) l.
Proof.
  revert n k. induction l as [|b l IH]; intros n [|k]; cbn; intros E; try done.
  - injection E as ->. rewrite Nat.add_0_r. apply list_elem_of_here.
  - apply list_elem_of_further. replace (n + S k) with (S n + k) by lia. by apply IH.
Qed.

Lemma refusals_hidden census caller e : Forall (fun r => rr_visible_to_caller r = false) (project census caller Selected e).2.
Proof.
  unfold project. destruct e as [[block ep] level]. destruct (en_agent_tool ep) as [tool|]; [|by constructor].
  destruct level as [level|]; [|by constructor]. rewrite andb_false_r.
  destruct (endpoint_verdict ep tool); [|by repeat constructor]. destruct (negb _); [by constructor|].
  destruct (negb _); [by repeat constructor|]. destruct (agent_output_schema ep) as [? [reason|]]; cbn; by repeat constructor.
Qed.

(** C38: A page's manifest holds only what the page selected of what is served at
    the caller's level, under the selection's name, each tool invocable; none
    of its refusals is for the caller to read; and a selection no endpoint
    answers to is reported. *)
Theorem selected_tools_chosen (blocks : list Block) (caller : AuthLevel.t)
    (effective_auth : Block -> Endpoint -> option AuthLevel.t) (selections : list ToolSelection) :
  let '(doc, refused) := webmcp_selected blocks caller effective_auth selections in
  (forall v, v ∈ tools_of doc -> exists block ep sel level, block ∈ blocks /\ ep ∈ bl_endpoints block /\ sel ∈ selections
     /\ ts_block sel = bl_name block /\ ts_method sel = en_method ep /\ ts_path sel = en_path ep
     /\ effective_auth block ep = Some level /\ AuthLevel.leb level caller = true
     /\ tool_name v = Some (ts_name sel) /\ is_valid_name (ts_name sel) = true /\ invocable v
     /\ value_get (invocation v) "path" = Some (VString (published_path_template (en_path ep))))
  /\ Forall (fun r => rr_visible_to_caller r = false) refused
  /\ (forall sel, sel ∈ selections ->
        (forall block, block ∈ blocks -> bl_name block = ts_block sel -> endpoint_position (bl_endpoints block) sel = None) ->
        mkRefusal (ts_block sel) (ts_method sel) (ts_path sel) (ts_name sel) ScopeTool SelectionNotFound false ∈ refused).
Proof.
  unfold webmcp_selected. destruct (select_blocks _ _ _ _) as [shadows outcomes] eqn:Es.
  apply (select_blocks_spec effective_auth blocks) in Es as [He Ho]; [|done]. rewrite indexed_values in He.
  destruct (webmcp_report_resolved _ _ _ _) as [doc refused] eqn:Ed. unfold webmcp_report_resolved in Ed.
  pose proof (manifest_published (entries (map fst shadows) (map snd shadows)) caller Selected) as Hm.
  unfold project_all in Ed, Hm. cbn [fst] in Hm. injection Ed as <- <-. split; [|split].
  - intros v Hv. change (tools_of (manifest ?l)) with l in Hv. apply Hm in Hv as (e & Hin & Hp).
    destruct (He e Hin) as (block & ep & sel & level & Hb & Hep & Hs & E1 & E2 & E3 & Ha & Hl & Ht & E4 & E5).
    destruct Hp as (tool & level' & input & Ht' & Hl' & Hc & Hv & _ & ->). rewrite Ht in Ht'. injection Ht' as <-.
    assert (level' = level) as -> by congruence.
    destruct (emitted_reads e.1.2 (mkTool (ts_name sel) (ts_description sel)) input (agent_output_schema e.1.2).1)
      as (Hn & _ & _ & _ & Hpath & _).
    exists block, ep, sel, level. split_and!; try done.
    + by apply verdict_ok in Hv as [? _].
    + by eapply verdict_invocable.
    + by rewrite Hpath, E5.
  - apply Forall_app. split; apply Forall_flat_map; apply Forall_forall; [intros e _; apply refusals_hidden|].
    intros [index sel] _. unfold selection_refusal. destruct (default _ _); by repeat constructor.
  - intros sel Hs Hnone. apply elem_of_app. right. apply flat_map_elem. apply list_elem_of_lookup in Hs as [i Hi].
    exists (i, sel). split; [by apply (lookup_indexed _ 0)|]. unfold selection_refusal.
    destruct (nat_assoc i outcomes) as [o|] eqn:En; [|apply list_elem_of_here]. exfalso.
    apply nat_assoc_elem, Ho in En as (block & sel' & Hb & Hi' & Hn & [p Hp]). apply indexed_elem in Hi'.
    assert (sel' = sel) as -> by congruence. by rewrite (Hnone block Hb) in Hp.
Qed.

(** ** Published schemas stand alone *)

Lemma plain_no_ref r v : (forall map, v <> VObject map) -> (forall items, v <> VArray items) -> ref_in r v -> False.
Proof.
  intros Ho Ha H0. destruct H0 as [map _|s v Hs _]; [by apply (Ho map)|].
  destruct v as [| | | |l|l]; [by apply not_elem_of_nil in Hs..|by apply (Ha l)|by apply (Ho l)].
Qed.

Lemma strings_no_ref r l : ref_in r (strings l) -> False.
Proof.
  inversion 1 as [|s ? Hs Hi]; subst. apply list_elem_of_fmap in Hs as (x & -> & _). by apply (plain_no_ref r (VString x)).
Qed.

Lemma ref_in_without_entry key r doc : key <> "$ref" -> ref_in r (without_entry key doc) -> ref_in r doc.
Proof.
  intros Hk. destruct doc as [| | | | |map]; try done. cbn [without_entry]. intros Hr.
  inversion Hr as [? Hr'|s ? Hs Hi]; subst.
  - apply ref_here. unfold ref_of in *. rewrite assoc_filter in Hr'; [done|]. intros v.
    apply negb_true_iff, String.eqb_neq. by intros <-.
  - apply (ref_below _ s); [|done]. apply sub_schema_member in Hs as (k & v & Hin & Hk' & Hs).
    apply sub_schema_member. exists k, v. split_and!; [|done..]. apply list_elem_of_In, filter_In in Hin as [Hin _]. by apply list_elem_of_In.
Qed.

(** The references of a schema name definitions of a table. *)
Definition refs_into (table : list (string * Value)) (v : Value) : Prop :=
  forall r, ref_in r v -> exists name, r = def_ref name /\ is_Some (assoc name table).

Lemma refs_into_more table table' v : (forall name, is_Some (assoc name table) -> is_Some (assoc name table')) ->
  refs_into table v -> refs_into table' v.
Proof. intros Ht Hv r Hr. destruct (Hv r Hr) as (name & -> & Hn). eauto. Qed.

Record merge_closed (m : Merge) : Prop := {
  mc_properties name s : (name, s) ∈ mg_properties m -> refs_into (mg_defs m) s;
  mc_defs name s : assoc name (mg_defs m) = Some s -> refs_into (mg_defs m) s
}.

(** The first source that defines a name keeps it. *)
Lemma merge_defs_assoc table defs colliding name : assoc name (merge_defs table defs colliding).1 =
  match assoc name defs with Some b => Some b | None => assoc name table end.
Proof.
  revert defs colliding. induction table as [|[k b] table IH]; intros defs colliding; cbn; [by destruct (assoc name defs)|].
  destruct (assoc k defs) as [existing|] eqn:Ek.
  - rewrite IH. destruct (k =s name) eqn:E; [|done]. apply eqs_true in E as ->. by rewrite Ek.
  - rewrite IH, assoc_entry_insert. destruct (k =s name) eqn:E; [|done]. apply eqs_true in E as ->. by rewrite Ek.
Qed.

Lemma table_entries doc name : value_get (table_of_document doc) name = assoc name (entries_of "$defs" doc).
Proof. unfold table_of_document, entries_of. destruct (value_get doc "$defs") as [v|]; [|done]. by destruct v. Qed.

Lemma property_ref name s r doc : (name, s) ∈ entries_of "properties" doc -> ref_in r s -> ref_in r doc.
Proof.
  unfold entries_of. destruct doc as [| | | | |map]; cbn [value_get]; try by intros ?%not_elem_of_nil.
  destruct (assoc "properties" map) as [v|] eqn:Ep; [|by intros ?%not_elem_of_nil].
  destruct v as [| | | | |props]; try by intros ?%not_elem_of_nil. intros Hin Hr. apply (ref_below _ s); [|done].
  apply sub_schema_member. exists "properties", (VObject props). split_and!; [by apply assoc_In|done|].
  change (s ∈ List.map snd props). apply list_elem_of_fmap. by exists (name, s).
Qed.

Lemma merge_source_closed source m m' merged : merge_schema_source source m = (m', merged) ->
  (forall schema, source = Some schema -> wf_document schema) ->
  ms_unresolved_ref merged = false -> ms_oversized merged = false -> merge_closed m -> merge_closed m'.
Proof.
  unfold merge_schema_source. intros E Hw Hu Ho Hm. destruct source as [schema|]; [|by injection E as <- <-].
  destruct (negb (declares _)); [by injection E as <- <-|]. destruct (inline_refs schema) as [doc issues] eqn:Ei.
  destruct (negb (source_is_flattenable doc)); [by injection E as <- <-|].
  destruct (merge_defs _ _ _) as [defs colliding] eqn:Ed. injection E as <- <-. cbn in Hu, Ho.
  assert (issues = no_issues) as -> by (destruct issues; cbn in *; by subst).
  pose proof (inline_stands_alone schema doc (Hw schema eq_refl) Ei) as Ha. destruct Hm as [Hp Hd].
  assert (Hdefs : forall name, assoc name defs = match assoc name (mg_defs m) with Some b => Some b
                                                 | None => assoc name (entries_of "$defs" doc) end).
  { intros name. change defs with ((defs, colliding).1). rewrite <- Ed. apply merge_defs_assoc. }
  assert (Hold : forall v, refs_into (mg_defs m) v -> refs_into defs v).
  { intros v. apply refs_into_more. intros name [b Hb]. rewrite Hdefs, Hb. eauto. }
  assert (Hnew : forall part, part = doc \/ (exists name, assoc name (entries_of "$defs" doc) = Some part) -> refs_into defs part).
  { intros part Hpart r Hr. destruct (Ha part r) as (name & b & -> & Hb & _); [|done|].
    - destruct Hpart as [->|(name & Hn)]; [by left|right]. exists name. by rewrite table_entries.
    - exists name. split; [done|]. rewrite Hdefs, table_entries in *. rewrite Hb. destruct (assoc name (mg_defs m)); eauto. }
  constructor; cbn.
  - intros name s Hin. apply insert_all_In in Hin as [Hin|Hin]; [by apply Hold; eapply Hp|].
    intros r Hr. apply (Hnew doc); [by left|]. by eapply property_ref.
  - intros name s Hs. rewrite Hdefs in Hs. destruct (assoc name (mg_defs m)) as [b|] eqn:Eb.
    + injection Hs as <-. by apply Hold, (Hd name).
    + apply Hnew. eauto.
Qed.

Lemma merged_stands_alone properties required closed defs :
  merge_closed (mkMerge properties required defs) -> forall required', stands_alone (merged_document properties required' closed defs).
Proof.
  intros [Hp Hd] required'. cbn in Hp, Hd. set (doc := merged_document _ _ _ _).
  assert (Ht : forall name, value_get (table_of_document doc) name = assoc name defs).
  { intros name. rewrite table_entries. unfold doc, merged_document. by destruct required', closed, defs. }
  assert (Hdoc : refs_into defs doc).
  { intros r. unfold doc, merged_document. inversion 1 as [? Hr|s ? Hs Hi]; subst.
    - exfalso. unfold ref_of in Hr. by destruct required', closed, defs.
    - apply sub_schema_member in Hs as (k & v & Hin & Hk & Hs). rewrite !elem_of_app in Hin.
      destruct Hin as [Hin|[Hin|[Hin|Hin]]].
      + apply elem_of_cons in Hin as [[= -> ->]|[= -> ->]%list_elem_of_singleton].
        * apply list_elem_of_singleton in Hs as ->. by apply plain_no_ref in Hi.
        * change (s ∈ List.map snd properties) in Hs. apply list_elem_of_fmap in Hs as ([name s'] & -> & Hin). by apply (Hp name s' Hin).
      + destruct required'; [by apply not_elem_of_nil in Hin|]. apply list_elem_of_singleton in Hin as [= -> ->].
        apply list_elem_of_singleton in Hs as ->. by apply strings_no_ref in Hi.
      + destruct closed; [|by apply not_elem_of_nil in Hin]. apply list_elem_of_singleton in Hin as [= -> ->].
        apply list_elem_of_singleton in Hs as ->. by apply plain_no_ref in Hi.
      + destruct defs; [by apply not_elem_of_nil in Hin|]. by apply list_elem_of_singleton in Hin as [= -> ->]. }
  intros part r Hpart Hr. assert (Hin : refs_into defs part).
  { destruct Hpart as [->|(name & Hn)]; [done|]. rewrite Ht in Hn. by apply (Hd name). }
  destruct (Hin r Hr) as (name & -> & b & Hb). exists name, b. by rewrite target_def, Ht.
Qed.

(** The schemas an endpoint declares. *)
Definition declared_schemas (ep : Endpoint) : list (option Value) :=
  [en_path_params ep; en_query_params ep; en_input_schema ep; en_output_schema ep].

Lemma input_stands_alone ep : (forall schema, Some schema ∈ declared_schemas ep -> wf_document schema) ->
  ai_oversized_schemas (agent_input_schema ep) = [] -> ai_unresolved_refs (agent_input_schema ep) = [] ->
  stands_alone (ai_schema (agent_input_schema ep)).
Proof.
  intros Hw. unfold agent_input_schema.
  destruct (merge_schema_source (en_path_params ep) _) as [m1 path] eqn:E1.
  destruct (merge_schema_source (en_query_params ep) m1) as [m2 query] eqn:E2.
  destruct (merge_schema_source (en_input_schema ep) m2) as [m3 body] eqn:E3. cbn zeta.
  cbn [ai_oversized_schemas ai_unresolved_refs ai_schema]. intros (Ho1 & Ho2 & Ho3)%labels_nil (Hu1 & Hu2 & Hu3)%labels_nil.
  assert (Hd : forall k s, declared_schemas ep !! k = Some (Some s) -> wf_document s) by (intros k s Hk; by eapply Hw, list_elem_of_lookup_2).
  apply (merged_stands_alone _ (mg_required m3)).
  apply merge_source_closed in E1; [|intros s Es; apply (Hd 0); by cbn; rewrite Es|done..|by constructor; cbn; [intros name s Hn%not_elem_of_nil|]].
  apply merge_source_closed in E2; [|intros s Es; apply (Hd 1); by cbn; rewrite Es|done..].
  apply merge_source_closed in E3; [|intros s Es; apply (Hd 2); by cbn; rewrite Es|done..]. by destruct m3.
Qed.

Lemma without_title_stands_alone doc : stands_alone doc -> stands_alone (without_entry "title" doc).
Proof.
  intros Ha. assert (Ht : forall name, value_get (table_of_document (without_entry "title" doc)) name = value_get (table_of_document doc) name).
  { intros name. unfold table_of_document. destruct doc as [| | | | |map]; try done. cbn [without_entry value_get]. by rewrite assoc_filter. }
  intros part r Hp Hr. destruct Hp as [->|(name & Hn)].
  - apply ref_in_without_entry in Hr; [|done]. destruct (Ha doc r (or_introl eq_refl) Hr) as (n & b & -> & Hb & _).
    exists n, b. by rewrite target_def, Ht.
  - rewrite Ht in Hn. destruct (Ha part r (or_intror (ex_intro _ name Hn)) Hr) as (n & b & -> & Hb & _). exists n, b.
    by rewrite target_def, Ht.
Qed.

Lemma output_stands_alone ep out : (forall schema, Some schema ∈ declared_schemas ep -> wf_document schema) ->
  (agent_output_schema ep).1 = Some out -> stands_alone out.
Proof.
  intros Hw. unfold agent_output_schema. destruct (en_output_schema ep) as [source|] eqn:Es; [|done].
  destruct (negb (declares _)); [done|]. destruct (inline_refs source) as [doc issues] eqn:Ei.
  destruct (oversized issues) eqn:Eo; [done|]. destruct (unresolved issues) eqn:Eu; [done|].
  assert (issues = no_issues) as -> by (destruct issues; cbn in *; by subst).
  apply inline_stands_alone in Ei; [|apply Hw; unfold declared_schemas; rewrite Es; set_solver].
  destruct doc as [| | | | |map]; try done. destruct (negb (schema_is_object_shaped map)); [done|].
  destruct (negb (source_is_flattenable _)); [done|]. intros [= <-].
  by apply (without_title_stands_alone (VObject map)).
Qed.

(** C35: The schemas of a published tool need nothing but themselves: every
    reference left in its input or its output schema, or in a definition they
    carry, names a definition they carry. *)
Theorem published_schemas_stand_alone (blocks : list Block) (caller : AuthLevel.t)
    (effective_auth : Block -> Endpoint -> option AuthLevel.t) (v : Value) :
  (forall block ep schema, block ∈ blocks -> ep ∈ bl_endpoints block -> Some schema ∈ declared_schemas ep -> wf_document schema) ->
  v ∈ tools_of (generate_webmcp blocks caller effective_auth) ->
  stands_alone (input_schema v) /\ forall out, value_get v "outputSchema" = Some out -> stands_alone out.
Proof.
  intros Hw. unfold generate_webmcp, webmcp_report. rewrite report_tools, manifest_published. intros (e & He & Hp).
  apply entries_resolved in He as (block & ep & Hb & Hep & ->). destruct Hp as (tool & level & input & _ & _ & _ & Hv & _ & ->).
  cbn [fst snd] in *. destruct (emitted_reads ep tool input (agent_output_schema ep).1) as (_ & -> & -> & _).
  apply verdict_ok in Hv as (_ & -> & _ & Ho & Hu & _). split; [apply input_stands_alone; eauto|]. intros out. apply output_stands_alone. eauto.
Qed.
End Manifest.

Module Site.
Import Percent.

(** A site with two agent tools and an endpoint for administrators. *)
Definition item_params : Value := VObject [("type", VString "object");
  ("properties", VObject [("id", VObject [("type", VString "string")])]); ("required", strings ["id"])].
Definition tree_body : Value := VObject [("type", VString "object");
  ("properties", VObject [("tree", reference "#/$defs/Tree")]);
  ("$defs", VObject [("Tree", VObject [("type", VString "object");
     ("properties", VObject [("children", VObject [("type", VString "array"); ("items", reference "#/$defs/Tree")])])])])].
Definition get_item : Endpoint := mkEndpointInfo HttpMethod.Get "/b/items/{id}" "" "" None (Some tree_body) (Some item_params) None []
  false (Some (mkTool "get_item" "Fetch an item.")).
Definition put_file : Endpoint := mkEndpointInfo HttpMethod.Post "/b/files/{id...}" "" "" (Some tree_body) None (Some item_params) None []
  true (Some (mkTool "put_file" "Store a tree.")).
Definition purge : Endpoint := mkEndpointInfo HttpMethod.Delete "/b/items" "" "" (Some tree_body) None None None [] false
  (Some (mkTool "get_item" "Purge.")).
Definition site : list Block := [mkBlock "acme/items" [get_item; put_file; purge]].
Definition auth (block : Block) (ep : Endpoint) : option AuthLevel.t :=
  Some (if bool_decide (en_method ep = HttpMethod.Delete) then AuthLevel.Admin else AuthLevel.Public).
Definition public_tools : list Value := tools_of (generate_webmcp site AuthLevel.Public auth).
End Site.

Import Percent Site.

Lemma site_wf block ep schema : block ∈ site -> ep ∈ bl_endpoints block -> Some schema ∈ declared_schemas ep -> wf_document schema.
Proof.
  intros Hb He Hs. apply (wf_document_sound 12).
  assert (Hall : forallb (fun block => forallb (fun ep => forallb (fun o => match o with Some schema => wf_document_check 12 schema | None => true end)
                   (declared_schemas ep)) (bl_endpoints block)) site = true) by (vm_compute; reflexivity).
  rewrite forallb_forall in Hall. specialize (Hall _ (proj1 (list_elem_of_In _ _) Hb)).
  rewrite forallb_forall in Hall. specialize (Hall _ (proj1 (list_elem_of_In _ _) He)).
  rewrite forallb_forall in Hall. exact (Hall _ (proj1 (list_elem_of_In _ _) Hs)).
Qed.

Lemma tool_url_reaches_endpoint_witness :
  let path := "/b/files/{id...}/{name}" in
  let values name := if name =s "id" then "7" else "report" in
  let url := fill_template values (published_path_template path) in
  url = "/b/files/7/report" /\ match_path path url = true
  /\ var (extract_path_vars path url (mkMessage "" [])) "name" = "report"
  /\ var (extract_path_vars path url (mkMessage "" [])) "id..." = "7".
Proof.
  intros path values url. split; [vm_compute; reflexivity|].
  destruct (tool_url_reaches_endpoint path ["id"; "name"] values (mkMessage "" [])) as [Hm Hv].
  - vm_compute. reflexivity.
  - intros name _. unfold values. destruct (name =s "id"); by vm_compute.
  - split; [exact Hm|]. split.
    + apply (Hv "{name}" (mkPlaceholder "name" false)); [cbn; set_solver|reflexivity].
    + apply (Hv "{id...}" (mkPlaceholder "id" true)); [cbn; set_solver|reflexivity].
Defined.

Lemma published_tools_invocable_witness :
  let v := hd VNull public_tools in tool_name v = Some "get_item" /\ invocable v.
Proof.
  intros v. destruct (published_tools_invocable site AuthLevel.Public auth v) as (block & ep & tool & level & _ & _ & _ & _ & _ & _ & _ & Hi).
  - apply list_elem_of_lookup. exists 0. vm_compute. reflexivity.
  - split; [vm_compute; reflexivity|exact Hi].
Defined.

Lemma manifest_hides_other_levels_witness :
  generate_webmcp site AuthLevel.Public auth = generate_webmcp [mkBlock "acme/items" [get_item; put_file]] AuthLevel.Public auth
  /\ (webmcp_report site AuthLevel.Public auth).2 <> []
  /\ generate_webmcp site AuthLevel.Admin auth <> generate_webmcp [mkBlock "acme/items" [get_item; put_file]] AuthLevel.Admin auth.
Proof.
  split; [apply (manifest_hides_other_levels site [mkBlock "acme/items" [get_item; put_file]] AuthLevel.Public auth auth);
          vm_compute; reflexivity|].
  split; vm_compute; discriminate.
Defined.

Lemma every_tool_accounted_witness :
  mkRefusal "acme/items" HttpMethod.Delete "/b/items" "get_item" ScopeTool (BodyOnBodylessMethod ["tree"]) false
    ∈ (webmcp_report site AuthLevel.Public auth).2.
Proof.
  pose proof (every_tool_accounted site AuthLevel.Public auth (mkBlock "acme/items" [get_item; put_file; purge]) purge
    (mkTool "get_item" "Purge.") AuthLevel.Admin) as Hr.
  replace (endpoint_verdict purge (mkTool "get_item" "Purge.")) with (Err (A := AgentInputSchema) (BodyOnBodylessMethod ["tree"])) in Hr
    by (vm_compute; reflexivity).
  apply Hr; [apply list_elem_of_here|do 2 apply list_elem_of_further; apply list_elem_of_here|reflexivity..].
Defined.

Lemma published_schemas_stand_alone_witness :
  let v := hd VNull public_tools in
  let out := default VNull (value_get v "outputSchema") in
  length (table_of (table_of_document out)) = 1 /\ stands_alone (input_schema v) /\ stands_alone out.
Proof.
  intros v out. split; [vm_compute; reflexivity|].
  destruct (published_schemas_stand_alone site AuthLevel.Public auth v site_wf) as [Hi Hout].
  - apply list_elem_of_lookup. exists 0. vm_compute. reflexivity.
  - split; [exact Hi|]. apply Hout. vm_compute. reflexivity.
Defined.

(** Two routes a sealed runtime keeps apart are published as one template: a
    rest placeholder and a plain one of the same name. *)
Example rest_and_plain_share_template :
  published_path_template "/f/{key...}" = published_path_template "/f/{key}"
  /\ route_shape "/f/{key...}" <> route_shape "/f/{key}".
Proof. split; [reflexivity|discriminate]. Qed.
